(* ===== verification/_CoqProject ===== *)
-Q . S2P
Prelude.v
LinkedHeap.v
Bakery.v
VersionLists.v
Mvcc.v
MvccInv.v
MvccSafety.v
MvccMain.v
MvccRefine.v
DistGraph.v
DistSearch.v
DistHouses.v
DistThreads.v
DistMain.v
Lab1.v
Lab2.v
Lab3.v
Lab5.v
UtList.v
UtListConc.v
OsEvent.v
MutexSpin.v
Results.v
SyncArray.v
SyncDeadlock.v
SyncReport.v
MutexList.v
SyncLevels.v
TaSearch.v
TaMeet.v
RwLock.v
RwLockWake.v
HashTable.v
MachData.v
BufPage.v
BufWatch.v
BufChunk.v
Crc32.v
PageChecksum.v
RwList.v
RwDebug.v
RwLockStatus.v
HashPrime.v
HashSync.v
Registries.v
MemHeap.v
HashCreate.v
BufInit.v
BufThreads.v
BufPool.v
BuddyTiling.v
BufBuddy.v
BuddyInv.v
BuddySafety.v
SepHeap.v
RbTree.v
RbRep.v
RbInsert.v
RbSearch.v
RbOps.v
RbDelete.v
RbDetach.v
RbRemove.v
RbIter.v
RbMain.v
RbCheck.v
RbMerge.v
RbExamples.v
