(* ===== verification/Prelude.v ===== *)
(** * Verification of the course projects and of the modified XtraDB locks

    The repository holds C++ exercises on shared-memory concurrency and a copy
    of the MariaDB 10.1 server whose XtraDB storage engine its authors
    changed.  This library models the programs the authors wrote and the parts
    of the storage engine they changed or that those changes rely on.

    ** Parts of the program and the files that model them

    - Project2/src/Project2.cpp, a multi-version update benchmark.  [Bakery]:
      the bakery lock, one transition per shared access.  [LinkedHeap]: malloc,
      free and pointer fields as an explicit heap.  [VersionLists]: the active
      list, its snapshots, the version lists and the collector queues on that
      heap.  [Mvcc]: the update threads and the garbage collector as a step
      relation over list-level state; [MvccInv] and [MvccSafety]: its
      invariant; [MvccMain]: the driver and the theorems about whole runs;
      [MvccRefine]: the two critical sections on the heap implement the
      list-level ones.
    - Project1/src/Project1.cpp, distances between houses in a graph.
      [DistGraph]: reading the graph; [DistSearch]: the breadth-first search
      with pruning; [DistHouses]: how houses are laid out around vertices;
      [DistThreads]: the threads that share the search results; [DistMain]:
      theorems about the printed numbers.
    - Project1/project1_TA.cpp (and its copy in lab4), the reference solution
      with one search per house.  [TaSearch]: the program; [TaMeet]: how the
      searches meet.
    - lab1, lab2, lab3, lab5: [Lab1], [Lab2], [Lab3], [Lab5], the counters,
      the two-thread lock and the timers.
    - storage/xtradb/include/ut0lst.h: [UtList], the two-way lists;
      [UtListConc], the lock-free prepend run by several threads.
    - include/os0sync.h and os/os0sync.cc: [OsEvent], events packed into a
      word.
    - sync/sync0sync.cc and include/sync0sync.ic: [MutexSpin], the spinning
      mutex, proved against the interface [EventLaws] that [OsEvent]
      implements; [MutexList], the registry of mutexes on [UtList];
      [SyncLevels], the latching order checks of the debug build.
    - sync/sync0arr.cc: [SyncArray], the wait array; [SyncDeadlock], deadlock
      detection; [SyncReport], the diagnostics.  [Results] is the result type
      of these operations: completed, waiting for ever, or stopped.
    - sync/sync0rw.cc and include/sync0rw.ic: [RwLock], the read-write lock,
      proved against [EventLaws] like the mutex; [RwLockWake], its wake-ups;
      [RwLockStatus], what the diagnostics and the wait array read off its lock
      word; [RwList], the registry of locks on [UtList] and [MutexList];
      [RwDebug], the records of the holders with the checks of [SyncLevels].
    - include/hash0hash.h, include/hash0hash.ic, ha/hash0hash.cc and
      ut/ut0rnd.cc: [HashTable], the chained hash tables; [HashPrime], the
      choice of their size; [HashSync], the latches that protect their cells;
      [HashCreate], the creation and release of a table with its latches (also
      ha/ha0ha.cc and include/ha0ha.ic).  [Registries] is what the creation
      and release of latches does to the registries [MutexList] and [RwList],
      the interface of [HashCreate], [BufInit] and [BufPool] to them.
    - buf/buf0buf.cc with include/buf0buf.h and include/buf0buf.ic: [BufPage],
      control blocks, the page hash on [HashTable] and the relocation of a
      block; [BufWatch], the watches; [BufChunk], how a chunk of memory is
      divided; [BufInit], its blocks, on [UtList] and [Registries]; [BufPool],
      the creation and release of an instance, which composes [BufChunk],
      [BufInit] and [HashCreate]; [BufThreads], the threads that create the
      instances.  [MemHeap] is the set of blocks of memory in use, which
      [HashCreate], [BufInit] and [BufPool] allocate from and free to.
    - ut/ut0crc32.cc, buf/buf0checksum.cc and include/ut0rnd.ic: [Crc32], the
      routines that compute CRC-32C; [PageChecksum], the checksums of pages,
      the checks of a page that was read (buf/buf0buf.cc, page/page0zip.cc)
      and what a page gets before it is written (buf/buf0flu.cc).
    - buf/buf0buddy.cc and include/buf0buddy.ic, the buddy allocator of
      compressed pages.  [BuddyTiling]: the geometry of aligned blocks;
      [BufBuddy]: the memory, every function, and the threads as a step
      relation with one transition per critical section; [BuddyInv]: the
      contract of each function on an owner map of blocks; [BuddySafety]: the
      theorems about all interleavings.
    - include/mach0data.ic and mach/mach0data.cc: [MachData], the integers in
      database files.
    - ut/ut0rbt.cc and include/ut0rbt.h, the red-black trees.  [SepHeap]: a
      separation logic for programs that allocate, free and assign cells;
      [RbTree]: every function of the module as such a program; [RbRep]: trees
      with parent pointers in memory and the rotations; [RbInsert], [RbSearch]
      and [RbOps]: balancing after an insertion, the searches, insertion;
      [RbDelete], [RbDetach] and [RbRemove]: balancing after a deletion,
      taking a node out; [RbIter]: iteration and release; [RbMain]: creation
      and the contracts of the operations; [RbCheck]: validation and printing;
      [RbMerge]: merging; [RbExamples]: runs.
    [Prelude] (this file) holds the notations, tactics, hint databases and the
    lemmas on lists, sums, machine integers and step relations.

    ** How the code is modelled

    Sequential code is a function on explicit state; [option] or [res] is the
    result where the code can access memory out of bounds, dereference a null
    or freed pointer, fail an assertion or wait for ever.  Concurrent code is
    a function from a thread number and a state to the next state, one
    transition per access of shared memory; runs are [rtc] or [nsteps] of the
    step relation, so theorems hold for every interleaving.  Memory is
    sequentially consistent.  Machine integers are [Z] with their wrap-around
    written out; the overflow of a signed [int], undefined in C++, is taken as
    the wrap-around of the two's complement ([s32] in [Mvcc]).  Arrays indexed
    by thread are total functions with pointwise update.  The red-black trees
    are verified in separation logic: a triple says that the program returns,
    what becomes of the cells it owns, none of which is lost, and that all
    others stay as they are.  malloc'd memory that
    is not initialised has an arbitrary value, which is a parameter.

    ** What the theorems show

    - Project2: the bakery lock excludes and lets the lowest ticket enter; the
      sums printed before and after a run agree in every state that a run
      reaches with zeroed queues and fewer than 2^31 versions; in such a run
      the only bad access is the traversal of a list that its reader did not
      protect, and there is a run in which it happens; without zeroed queues a
      critical section follows a null pointer.  The heap operations implement
      their list-level descriptions, round trips of the list operations.
    - Project1, for a file that describes a connected graph with houses at
      least three apart, at least as many of them as the theorem says, and
      memory that malloc returned zeroed ([Layout] in [DistHouses]): when the
      counter has not passed the last house, the printed numbers are the least
      and the greatest distance; searches terminate and stay within their
      arrays.  Runs in which the results are wrong show why the conditions are
      there.  In the
      reference solution, of two searches that mark a vertex one sees the
      other, a search that has returned has met all others, and the
      comparison of layers reads past a vector.
    - The labs: the exact count with a mutex, a lost update without, the
      missing exclusion of lab3, the final count of the timers.
    - Lists: every operation implements the operation on sequences; concurrent
      prepends to a non-empty list lose nothing; races that break a list.
    - Events and mutexes: a wait with the count of a reset misses no signal;
      mutual exclusion and LEMMA 1 and LEMMA 2 of sync0sync.cc (a suspended
      thread is signalled) for any number of threads.
    - The wait array: the counter of reserved cells is exact, the wake-up is
      complete, a free cell is found, and a full array stays locked.  Whatever
      deadlock detection answers is right: TRUE on a cycle of waits through
      its cell, FALSE when there is none; it answers unless it meets a chain
      of 50 other waits, where its assertion on the depth fails.  The report names
      the longest wait, and does not end on two threads that wait for each
      other.
    - The registry: creation and release are inverse, closing terminates and
      frees all; the count of reserved mutexes is off by one.
    - The latching order: threads that pass the strict checks never wait in a
      circle, and hold their latches in descending order.
    - The read-write lock: a writer excludes everybody else, the lock word
      accounts for all holders, no assertion fails, no wake-up is lost, the
      fields keep to their types, and the number of readers, the kind of writer
      and the wake-up test computed from the lock word are exact; creation and
      release of a lock, and of the record of a holder, are inverse.
    - The hash tables: insertion, deletion and search implement a finite map
      of pages; the number of cells is a prime above the requested number,
      the arithmetic in double precision included.  Threads that latch one cell at
      a time, or all cells in order, never block each other for ever and a cell
      has one writer; a table that is created and released leaves the
      registries of latches as they were.
    - The buffer pool: relocation replaces a block in the page hash and the LRU
      list, watches implement their description on a map of pages while other
      threads run, descriptors and frames of a chunk do not overlap, and an
      instance is created unless the memory of its chunk is missing, and when
      it is released every block of memory is freed exactly once and the
      registries of latches are as they were; so is the total of memory unless
      the system refuses to unmap the chunk (without memory for its chunk an
      instance leaves mutexes behind).  The threads that create the instances agree on
      the number of hash locks; without memory they stop the server.
    - The buddy allocator: the blocks on the free lists, of pages and of
      threads divide the frames, no assertion fails (those of the debug build
      that scan all blocks included), the test whether a buddy
      is free is exact although it reads memory that pages write to, pages
      keep their contents also when they are relocated, some thread inside the
      allocator can always move or waits for a frame, and in every fair run
      in which the pool hands out frames every call returns.
    - Integers in files: every format is read and parsed as it was written, a
      compressed integer that is cut off is recognised without an access
      behind the buffer, and stored integer columns are ordered by memcmp as
      the integers are.
    - Checksums: all routines compute the CRC-32C of the definition, an error
      burst of at most 32 bits changes it, and a page that was prepared for
      writing under one algorithm is accepted under every other.
    - Red-black trees: insertion and deletion implement insertion into and
      deletion from a sorted list, keep the tree balanced and every other node
      at its address; the searches and the neighbours are those of the list;
      validation accepts exactly the red-black trees with increasing values;
      freeing a tree leaves nothing; both merges move exactly the new values.
      Runs in which a duplicate is stored and in which a merge into an empty
      tree follows a null pointer.

    ** Bounds and fuel

    Loops over lists and arrays recurse on the number of elements.  Loops
    along links have the size of the heap as fuel, which a cycle exhausts and
    a well linked list never does ([rep_fits]).  The search of Project1 has no
    fuel: it is a step relation with a proved bound on its length.  The
    decoding loop of the reference solution has 64 rounds for a 64-bit word
    ([decode_spec]); the wait-array scans have one round per cell; the
    deadlock search has the 50 levels the assertion on its depth admits; the
    chain of writers has arbitrary fuel, since it may not end.  The signal
    count of an event must not reach 2^63, which bounds the number of steps in
    the theorems about the mutex and the read-write lock.  Walks along a hash
    chain have the number of structs as fuel; doubling loops have 64 rounds for
    a 64-bit word; a division test has as many rounds as the square root, and
    the search for a prime as many as the distance to any prime above its
    start.  The loop over the descriptors of a chunk has one round per page.
    The loops of the buddy allocator recurse on the number of block sizes that
    are left, and the number of critical sections of a call is bounded by it.
    The loops along the paths of a red-black tree with n nodes need at most
    2 log2 (n + 1) + 2 rounds ([rounds]), which follows from its balance.

    ** Not modelled

    The rest of the MariaDB server, which the authors did not change; weak
    memory; timing, printing and file handles of the drivers; the
    performance-schema instrumentation and the Windows branches of the storage
    engine; the statistics counters and the owner ids of the spinning mutex;
    priority read-write locks and locks that are passed to another thread;
    reading, flushing and replacing pages; how the buddy allocator takes a
    frame from the buffer pool (a step of the environment), its assertions on
    who owns a mutex, the clearing of memory in its debug build, and the time
    its relocations take; the bytes of
    the values in red-black trees;
    the boost timer service of lab5, which appears as the rule that a pending
    wait calls its handler once. *)

From stdpp Require Export base decidable option numbers list list_numbers fin_maps gmap relations tactics sorting.
From Stdlib Require Export Lia ZArith.

#[export] Set Default Goal Selector "!".

(** ** Notations, hints and tactics of the development *)

Declare Scope mc_scope.
Delimit Scope mc_scope with mc.

(** The databases filled by the components: [mc] holds the lemmas that close
    routine goals, [mcsimp] the rewriting equations of the model. *)
Create HintDb mc.
Create Rewrite HintDb mcsimp.

(** Split every boolean guard of the goal or of a hypothesis into the
    proposition it decides. *)
Ltac split_guard :=
  match goal with
  | |- context [Z.eqb ?a ?b] => destruct (Z.eqb_spec a b)
  | |- context [Z.ltb ?a ?b] => destruct (Z.ltb_spec a b)
  | |- context [Z.leb ?a ?b] => destruct (Z.leb_spec a b)
  | |- context [Nat.eqb ?a ?b] => destruct (Nat.eqb_spec a b)
  | |- context [Nat.ltb ?a ?b] => destruct (Nat.ltb_spec a b)
  | |- context [Nat.leb ?a ?b] => destruct (Nat.leb_spec a b)
  | H : context [Z.eqb ?a ?b] |- _ => destruct (Z.eqb_spec a b)
  | H : context [Z.ltb ?a ?b] |- _ => destruct (Z.ltb_spec a b)
  | H : context [Z.leb ?a ?b] |- _ => destruct (Z.leb_spec a b)
  | H : context [Nat.eqb ?a ?b] |- _ => destruct (Nat.eqb_spec a b)
  | H : context [Nat.ltb ?a ?b] |- _ => destruct (Nat.ltb_spec a b)
  | H : context [Nat.leb ?a ?b] |- _ => destruct (Nat.leb_spec a b)
  end.

(** Undo an option-monad bind that is known to succeed. *)
Ltac inv_bind :=
  repeat match goal with
  | H : mbind _ ?m = Some _ |- _ =>
      let x := fresh "x" in let E := fresh "E" in
      apply bind_Some in H as (x & E & H)
  | H : guard _ ;; _ = Some _ |- _ => apply bind_Some in H as (? & ? & H)
  end; simplify_eq/=.

(** Close a decidable goal by evaluating its decision procedure. *)
Ltac compute_decide := apply (bool_decide_unpack _); vm_compute; exact I.

(** Arrays indexed by a thread number are total functions, updated
    pointwise. *)
Definition upd {A} (f : nat -> A) (i : nat) (x : A) : nat -> A :=
  fun j => if decide (i = j) then x else f j.

Lemma upd_eq {A} (f : nat -> A) i x : upd f i x i = x.
Proof. unfold upd. by rewrite decide_True. Qed.

Lemma upd_ne {A} (f : nat -> A) i j x : i <> j -> upd f i x j = f j.
Proof. intros. unfold upd. by rewrite decide_False. Qed.

#[export] Hint Rewrite @upd_eq : mcsimp.

(** Decide the pointwise updates of the goal and of the hypotheses. *)
Ltac upd_cases :=
  repeat match goal with
  | |- context [upd _ ?i _ ?i] => rewrite upd_eq
  | H : context [upd _ ?i _ ?i] |- _ => rewrite upd_eq in H
  | N : ?i <> ?j |- context [upd _ ?i _ ?j] => rewrite (upd_ne _ i j) by exact N
  | N : ?i <> ?j, H : context [upd _ ?i _ ?j] |- _ => rewrite (upd_ne _ i j) in H by exact N
  | N : ?j <> ?i |- context [upd _ ?i _ ?j] => rewrite (upd_ne _ i j) by (apply not_eq_sym; exact N)
  | N : ?j <> ?i, H : context [upd _ ?i _ ?j] |- _ =>
      rewrite (upd_ne _ i j) in H by (apply not_eq_sym; exact N)
  | |- context [upd _ ?i _ ?j] => destruct (decide (i = j)); [subst|]
  | H : context [upd _ ?i _ ?j] |- _ => destruct (decide (i = j)); [subst|]
  end.

(** ** Machine integers

    A w-bit unsigned integer is a [Z] kept in [[0, 2^w)], a signed one a [Z]
    in [[-2^(w-1), 2^(w-1))].  The C conversions reduce modulo [2^w]. *)
Section machine_integers.
Local Open Scope Z_scope.

Definition wrap_u (w x : Z) : Z := x mod 2 ^ w.
Definition wrap_s (w x : Z) : Z := (x + 2 ^ (w - 1)) mod 2 ^ w - 2 ^ (w - 1).

Definition u32 (x : Z) : Z := wrap_u 32 x.
Definition u64 (x : Z) : Z := wrap_u 64 x.
Definition s32 (x : Z) : Z := wrap_s 32 x.

Definition INT_MAX : Z := 2 ^ 31 - 1.
Definition INT_MIN : Z := - 2 ^ 31.

Lemma wrap_u_small w x : 0 <= x < 2 ^ w -> wrap_u w x = x.
Proof. intros H. unfold wrap_u. by apply Z.mod_small. Qed.

Lemma wrap_s_small w x :
  0 < w -> - 2 ^ (w - 1) <= x < 2 ^ (w - 1) -> wrap_s w x = x.
Proof.
  intros Hw H. unfold wrap_s.
  assert (2 ^ w = 2 * 2 ^ (w - 1)) as E.
  { rewrite <- Z.pow_succ_r by lia. f_equal. lia. }
  rewrite Z.mod_small; lia.
Qed.

Lemma u64_small x : 0 <= x < 2 ^ 64 -> u64 x = x.
Proof. apply wrap_u_small. Qed.

Lemma u32_small x : 0 <= x < 2 ^ 32 -> u32 x = x.
Proof. apply wrap_u_small. Qed.

Lemma s32_small x : - 2 ^ 31 <= x < 2 ^ 31 -> s32 x = x.
Proof. intros. apply wrap_s_small; simpl; lia. Qed.

Lemma wrap_u_range w x : 0 <= w -> 0 <= wrap_u w x < 2 ^ w.
Proof. intros. apply Z.mod_pos_bound. apply Z.pow_pos_nonneg; lia. Qed.

Lemma s32_range x : INT_MIN <= s32 x <= INT_MAX.
Proof.
  unfold s32, wrap_s, INT_MIN, INT_MAX.
  pose proof (Z.mod_pos_bound (x + 2 ^ (32 - 1)) (2 ^ 32)). lia.
Qed.

(** Two integers with the same image under [s32] are those congruent
    modulo [2^32]. *)
Lemma s32_mod x : s32 x mod 2 ^ 32 = x mod 2 ^ 32.
Proof.
  unfold s32, wrap_s. rewrite Zminus_mod_idemp_l. f_equal. lia.
Qed.

Lemma s32_eq_mod x y : s32 x = s32 y <-> x mod 2 ^ 32 = y mod 2 ^ 32.
Proof.
  split.
  - intros H. rewrite <- (s32_mod x), <- (s32_mod y). by rewrite H.
  - intros H. unfold s32, wrap_s. f_equal.
    rewrite <- (Zplus_mod_idemp_l x), <- (Zplus_mod_idemp_l y). by rewrite H.
Qed.

Lemma s32_add_l x y : s32 (s32 x + y) = s32 (x + y).
Proof.
  apply s32_eq_mod.
  by rewrite <- Zplus_mod_idemp_l, s32_mod, Zplus_mod_idemp_l.
Qed.

Lemma s32_add_r x y : s32 (x + s32 y) = s32 (x + y).
Proof. rewrite Z.add_comm, s32_add_l. by rewrite Z.add_comm. Qed.

Lemma s32_s32 x : s32 (s32 x) = s32 x.
Proof. apply s32_eq_mod, s32_mod. Qed.
End machine_integers.

#[export] Hint Rewrite s32_add_l s32_add_r s32_s32 : mcsimp.

(** ** Transition systems *)
Section transitions.
Context {S : Type} (step : S -> S -> Prop).

(** Rule induction for an invariant along the runs of a transition
    system. *)
Lemma rtc_invariant (I : S -> Prop) s s' :
  I s -> (forall a b, I a -> step a b -> I b) -> rtc step s s' -> I s'.
Proof. intros Hs Hstep Hr. induction Hr; eauto. Qed.

(** The same, when preservation may use a predicate [G] that only gets
    harder to satisfy along the run (a counter that has not overflowed). *)
Lemma rtc_invariant_guarded (I G : S -> Prop) s s' :
  I s ->
  (forall a b, step a b -> G b -> G a) ->
  (forall a b, I a -> G b -> step a b -> I b) ->
  rtc step s s' -> G s' -> I s'.
Proof.
  intros Hs Hg Hstep Hr. revert Hs.
  induction Hr as [|a b c Hab Hbc IH]; [done|]. intros Ha Gc.
  apply IH; [|done]. apply (Hstep a); [done| |done].
  clear -Hbc Gc Hg. induction Hbc; eauto.
Qed.

(** An invariant that uses up one unit of a bounded resource per step. *)
Lemma nsteps_invariant (I : Z -> S -> Prop) (cap : Z) m s s' :
  I cap s -> (forall k a b, (0 < k)%Z -> I k a -> step a b -> I (k - 1)%Z b) ->
  nsteps step m s s' -> (Z.of_nat m <= cap)%Z -> I (cap - Z.of_nat m)%Z s'.
Proof.
  intros Hs Hstep Hr. revert cap Hs. induction Hr as [a|m a b c Hab Hbc IH]; intros cap Hs Hle.
  - by rewrite Z.sub_0_r.
  - replace (cap - Z.of_nat (Datatypes.S m))%Z with (cap - 1 - Z.of_nat m)%Z by lia.
    apply IH; [|lia]. eapply Hstep; [lia|done|done].
Qed.
End transitions.

(** ** Lists *)
Section lists.
Context {A : Type}.

(** Remove the first element that satisfies [P]. *)
Fixpoint remove_first (P : A -> bool) (l : list A) : list A :=
  match l with
  | [] => []
  | x :: l' => if P x then l' else x :: remove_first P l'
  end.

Lemma remove_first_app_l (P : A -> bool) l1 l2 :
  forallb (fun x => negb (P x)) l1 = true ->
  remove_first P (l1 ++ l2) = l1 ++ remove_first P l2.
Proof.
  induction l1 as [|x l1 IH]; [done|]; simpl. intros [Hx Hl]%andb_prop.
  destruct (P x); [done|]. by rewrite IH.
Qed.

Lemma remove_first_sublist (P : A -> bool) l : remove_first P l `sublist_of` l.
Proof.
  induction l as [|x l IH]; simpl; [constructor|].
  destruct (P x); [by apply sublist_cons|by apply sublist_skip].
Qed.

Lemma remove_first_elem_of (P : A -> bool) l x : x ∈ remove_first P l -> x ∈ l.
Proof.
  induction l as [|y l IH]; simpl; [done|]. destruct (P y); [by right|].
  rewrite !elem_of_cons. naive_solver.
Qed.

Lemma length_remove_first (P : A -> bool) l :
  existsb P l = true -> length (remove_first P l) = pred (length l).
Proof.
  induction l as [|x l IH]; [done|]; simpl. destruct (P x); [done|]; simpl.
  intros H. rewrite IH by done. destruct l; [done|done].
Qed.

Lemma remove_first_id (P : A -> bool) l :
  existsb P l = false -> remove_first P l = l.
Proof.
  induction l as [|x l IH]; [done|]; simpl. destruct (P x); [done|]; simpl.
  intros H. by rewrite IH.
Qed.

Lemma take_elem_of n (l : list A) x : x ∈ take n l -> x ∈ l.
Proof. intros (k & Hk & _)%elem_of_take. by eapply list_elem_of_lookup_2. Qed.
End lists.

(** Sum of a list of integers. *)
Definition zsum (l : list Z) : Z := foldr Z.add 0%Z l.

Lemma zsum_cons x l : zsum (x :: l) = (x + zsum l)%Z.
Proof. done. Qed.

Lemma zsum_app l1 l2 : zsum (l1 ++ l2) = (zsum l1 + zsum l2)%Z.
Proof. induction l1; simpl; [done|]. unfold zsum in *. simpl. lia. Qed.

(** The sum of a per-thread quantity over the first [T] threads. *)
Definition tsum (T : nat) (f : nat -> Z) : Z := zsum (map f (seq 0 T)).

Lemma tsum_S T f : tsum (S T) f = (tsum T f + f T)%Z.
Proof. unfold tsum. rewrite seq_S, map_app, zsum_app. simpl. unfold zsum. simpl. lia. Qed.

Lemma tsum_ext T f g : (forall t, (t < T)%nat -> f t = g t) -> tsum T f = tsum T g.
Proof.
  induction T as [|T IH]; intros H; [done|].
  rewrite !tsum_S, IH by (intros; apply H; lia). by rewrite (H T) by lia.
Qed.

(** Only the summand of thread [t] changes. *)
Lemma tsum_change T f g t :
  (t < T)%nat -> (forall k, k <> t -> g k = f k) -> tsum T g = (tsum T f - f t + g t)%Z.
Proof.
  intros Ht H. induction T as [|T IH]; [lia|]. rewrite !tsum_S.
  destruct (decide (t = T)) as [->|Hne].
  - rewrite (tsum_ext T g f) by (intros k Hk; apply H; lia). lia.
  - rewrite IH, (H T) by lia. lia.
Qed.

Lemma tsum_const T f c : (forall t, (t < T)%nat -> f t = c) -> tsum T f = (Z.of_nat T * c)%Z.
Proof.
  induction T as [|T IH]; intros H; [done|].
  rewrite tsum_S, IH by (intros; apply H; lia). rewrite (H T) by lia. lia.
Qed.

(** Sums of quantities that are not negative. *)
Lemma tsum_nonneg T f : (forall t, 0 <= f t)%Z -> (0 <= tsum T f)%Z.
Proof. intros H. induction T as [|T IH]; [done|]. rewrite tsum_S. specialize (H T). lia. Qed.

Lemma tsum_ge T f t : (forall t, 0 <= f t)%Z -> (t < T)%nat -> (f t <= tsum T f)%Z.
Proof.
  intros H Ht. induction T as [|T IH]; [lia|]. rewrite tsum_S. pose proof (tsum_nonneg T f H).
  destruct (decide (t = T)) as [->|]; [lia|]. specialize (IH ltac:(lia)). specialize (H T). lia.
Qed.

Lemma tsum_ge2 T f t u :
  (forall t, 0 <= f t)%Z -> (t < T)%nat -> (u < T)%nat -> t <> u -> (f t + f u <= tsum T f)%Z.
Proof.
  intros H Ht Hu Hne. set (g := fun k => if decide (k = t) then 0%Z else f k).
  rewrite (tsum_change T g f t) by (done || (intros k Hk; unfold g; by rewrite decide_False)).
  replace (g t) with 0%Z by (unfold g; by rewrite decide_True).
  assert (g u = f u) as E by (unfold g; by rewrite decide_False).
  pose proof (tsum_ge T g u) as Hg. rewrite E in Hg. unfold g in Hg at 1.
  assert (f u <= tsum T g)%Z by (apply Hg; [intros k; by case_decide|done]). lia.
Qed.
