(* ===== verification/LinkedHeap.v ===== *)
(** * Singly linked nodes on the heap

    Project2 keeps its active list, its snapshots and its collector queues in
    [malloc]ed nodes with a [link] field.  This file gives the store those
    functions run on (blocks are never reused, so an access to a freed block
    is always noticed), the list-segment predicate, and the lemmas the
    components share.  The result [None] of an operation is undefined
    behaviour: a null or dangling dereference or a double free. *)

From S2P Require Import Prelude.

Definition loc : Type := nat.

Record cell (A : Type) := Cell { payload : A; link : option loc }.
Arguments Cell {A} _ _.
Arguments payload {A} _.
Arguments link {A} _.

Record mem (A : Type) := Mem { cells : gmap loc (cell A); brk : loc }.
Arguments Mem {A} _ _.
Arguments cells {A} _.
Arguments brk {A} _.

Section memory.
Context {A : Type}.
Implicit Types (m : mem A) (p : option loc) (xs : list (loc * A)).

Definition empty_mem : mem A := Mem ∅ 0.

(** [malloc] followed by the stores of the fields. *)
Definition malloc (c : cell A) (m : mem A) : loc * mem A :=
  (brk m, Mem (<[brk m := c]> (cells m)) (S (brk m))).

Definition deref (p : option loc) (m : mem A) : option (cell A) :=
  p ≫= (fun l => cells m !! l).

Definition free (l : loc) (m : mem A) : option (mem A) :=
  match cells m !! l with
  | Some _ => Some (Mem (delete l (cells m)) (brk m))
  | None => None
  end.

(** [p->link = q] *)
Definition set_link (p q : option loc) (m : mem A) : option (mem A) :=
  match p with
  | Some l =>
      match cells m !! l with
      | Some c => Some (Mem (<[l := Cell (payload c) q]> (cells m)) (brk m))
      | None => None
      end
  | None => None
  end.

Definition wf_mem m : Prop := forall l c, cells m !! l = Some c -> l < brk m.

(** The nodes from [p] up to, and not including, [q]. *)
Fixpoint lseg (h : gmap loc (cell A)) p xs (q : option loc) : Prop :=
  match xs with
  | [] => p = q
  | (l, a) :: xs' => p = Some l /\ exists nx, h !! l = Some (Cell a nx) /\ lseg h nx xs' q
  end.

(** A null-terminated list. *)
Definition chain (m : mem A) p xs : Prop := lseg (cells m) p xs None.

Lemma lseg_app h p xs ys q :
  lseg h p (xs ++ ys) q <-> exists r, lseg h p xs r /\ lseg h r ys q.
Proof.
  revert p. induction xs as [|[l a] xs IH]; intros p; simpl.
  - split; [intros; eauto|by intros (? & -> & ?)].
  - split.
    + intros (-> & nx & Hl & (r & H1 & H2)%IH). eauto 10.
    + intros (r & (-> & nx & Hl & H1) & H2). split; [done|]. exists nx.
      split; [done|]. apply IH. eauto.
Qed.

Lemma lseg_lookup h p xs q l a :
  lseg h p xs q -> (l, a) ∈ xs -> exists nx, h !! l = Some (Cell a nx).
Proof.
  revert p. induction xs as [|[l' a'] xs IH]; intros p; simpl.
  - intros _ []%elem_of_nil.
  - intros (-> & nx & Hl & H) [[= -> ->]|Hin]%elem_of_cons; eauto.
Qed.

Lemma lseg_lookup_fst h p xs q l :
  lseg h p xs q -> l ∈ xs.*1 -> exists c, h !! l = Some c.
Proof.
  intros H ([l' a] & -> & Hin)%list_elem_of_fmap.
  destruct (lseg_lookup _ _ _ _ _ _ H Hin); eauto.
Qed.

(** A list to [NULL] is determined by its head. *)
Lemma lseg_null_unique h p xs ys :
  lseg h p xs None -> lseg h p ys None -> xs = ys.
Proof.
  revert p ys. induction xs as [|[l a] xs IH]; intros p [|[l' a'] ys]; simpl; try done.
  - intros -> (? & ?). done.
  - intros (-> & ?). done.
  - intros (-> & nx & Hl & H) ([= <-] & nx' & Hl' & H'). simplify_eq.
    f_equal. eauto.
Qed.

Lemma lseg_suffix h p xs1 l a xs2 q :
  lseg h p (xs1 ++ (l, a) :: xs2) q -> lseg h (Some l) ((l, a) :: xs2) q.
Proof.
  rewrite lseg_app. intros (r & _ & H). pose proof H as H'. simpl in H'.
  destruct H' as (-> & _). done.
Qed.

(** A null-terminated list visits no block twice. *)
Lemma chain_NoDup h p xs : lseg h p xs None -> NoDup xs.*1.
Proof.
  revert p. induction xs as [|[l a] xs IH]; intros p H; simpl; [constructor|].
  pose proof H as (-> & nx & Hl & Hxs). constructor; [|by eapply IH].
  intros ([l' a'] & Hll & Hin)%list_elem_of_fmap. simpl in Hll. subst l'.
  apply list_elem_of_split in Hin as (xs1 & xs2 & ->).
  apply lseg_suffix in Hxs.
  assert ((l, a) :: xs1 ++ (l, a') :: xs2 = (l, a') :: xs2) as Heq
    by (by eapply lseg_null_unique).
  apply (f_equal length) in Heq. simpl in Heq. rewrite length_app in Heq. simpl in Heq. lia.
Qed.

(** Framing: what happens outside a segment does not change it. *)
Lemma lseg_frame h h' p xs q :
  (forall l, l ∈ xs.*1 -> h' !! l = h !! l) -> lseg h p xs q -> lseg h' p xs q.
Proof.
  revert p. induction xs as [|[l a] xs IH]; intros p Hf; simpl; [done|].
  intros (-> & nx & Hl & H). split; [done|]. exists nx. rewrite Hf by (by left).
  split; [done|]. apply IH; [|done]. intros l' Hl'. apply Hf. by right.
Qed.

Lemma lseg_insert_fresh h p xs q l c :
  l ∉ xs.*1 -> lseg h p xs q -> lseg (<[l := c]> h) p xs q.
Proof. intros Hl. apply lseg_frame. intros l' Hl'. rewrite lookup_insert_ne; [done|set_solver]. Qed.

Lemma lseg_delete_fresh h p xs q l :
  l ∉ xs.*1 -> lseg h p xs q -> lseg (delete l h) p xs q.
Proof. intros Hl. apply lseg_frame. intros l' Hl'. rewrite lookup_delete_ne; [done|set_solver]. Qed.

Lemma lseg_wf_fresh m p xs q : wf_mem m -> lseg (cells m) p xs q -> brk m ∉ xs.*1.
Proof.
  intros Hwf H Hin. destruct (lseg_lookup_fst _ _ _ _ _ H Hin) as (c & Hc).
  specialize (Hwf _ _ Hc). lia.
Qed.

Lemma malloc_wf m c : wf_mem m -> wf_mem (malloc c m).2.
Proof.
  intros Hwf l c'. simpl. rewrite lookup_insert. case_decide; [lia|].
  intros Hlt%Hwf. lia.
Qed.

Lemma malloc_chain m p xs a :
  wf_mem m -> chain m p xs ->
  chain (malloc (Cell a p) m).2 (Some (brk m)) ((brk m, a) :: xs).
Proof.
  intros Hwf Hc. unfold chain; simpl. split; [done|]. exists p.
  rewrite lookup_insert_eq. split; [done|].
  apply lseg_insert_fresh; [by eapply lseg_wf_fresh|done].
Qed.

Lemma malloc_frame m p xs q c :
  wf_mem m -> lseg (cells m) p xs q -> lseg (cells (malloc c m).2) p xs q.
Proof. intros Hwf H. simpl. apply lseg_insert_fresh; [by eapply lseg_wf_fresh|done]. Qed.

Lemma free_wf m l m' : wf_mem m -> free l m = Some m' -> wf_mem m'.
Proof.
  intros Hwf Hf. unfold free in Hf. destruct (cells m !! l); simplify_eq/=.
  intros l' c'. simpl. intros [_ H]%lookup_delete_Some. eauto.
Qed.

Lemma set_link_wf m p q m' : wf_mem m -> set_link p q m = Some m' -> wf_mem m'.
Proof.
  intros Hwf Hs. destruct p as [l|]; simpl in Hs; [|done].
  destruct (cells m !! l) as [c|] eqn:E; simplify_eq/=.
  intros l' c'. simpl. rewrite lookup_insert. case_decide; [|eauto].
  intros _. subst. eauto.
Qed.

(** A chain is no longer than the number of blocks allocated so far, which
    is what the loops below use as fuel. *)
Lemma chain_length m p xs : wf_mem m -> chain m p xs -> length xs <= brk m.
Proof.
  intros Hwf Hc. pose proof (chain_NoDup _ _ _ Hc) as Hnd.
  rewrite <- (length_fmap fst).
  assert (xs.*1 ⊆+ seq 0 (brk m)) as Hsub%submseteq_length.
  { apply NoDup_submseteq; [done|]. intros l Hl. apply elem_of_seq.
    destruct (lseg_lookup_fst _ _ _ _ _ Hc Hl) as (cl & Hcell). specialize (Hwf _ _ Hcell). lia. }
  by rewrite length_seq in Hsub.
Qed.

Lemma chain_deref_cons m p l a xs :
  chain m p ((l, a) :: xs) ->
  p = Some l /\ exists nx, deref p m = Some (Cell a nx) /\ chain m nx xs.
Proof. intros (-> & nx & Hl & H). eauto. Qed.

(** Unlinking [l] behind [pl] and freeing it removes it from the list. *)
Lemma unlink_chain m p xs1 pl pa l a xs2 m1 m2 nx :
  chain m p (xs1 ++ (pl, pa) :: (l, a) :: xs2) ->
  cells m !! l = Some (Cell a nx) ->
  set_link (Some pl) nx m = Some m1 -> free l m1 = Some m2 ->
  chain m2 p (xs1 ++ (pl, pa) :: xs2).
Proof.
  intros Hc Hl Hs Hf. pose proof (chain_NoDup _ _ _ Hc) as Hnd.
  rewrite fmap_app, !fmap_cons in Hnd. apply NoDup_app in Hnd as (Hnd1 & Hdis & Hnd2).
  simpl in *. apply NoDup_cons in Hnd2 as [Hpl Hnd2]. apply NoDup_cons in Hnd2 as [Hl2 Hnd2].
  unfold chain in Hc. apply lseg_app in Hc as (r & H1 & H2).
  simpl in H2. destruct H2 as (-> & nx' & Hpc & -> & nx'' & Hlc & H2).
  rewrite Hl in Hlc. injection Hlc as <-.
  unfold set_link in Hs. rewrite Hpc in Hs. simplify_eq.
  unfold free in Hf. simpl in Hf. rewrite lookup_insert_ne in Hf by set_solver.
  rewrite Hl in Hf. simplify_eq. unfold chain. simpl. apply lseg_app. exists (Some pl). split.
  - apply lseg_delete_fresh; [set_solver|]. apply lseg_insert_fresh; [set_solver|done].
  - simpl. split; [done|]. exists nx. rewrite lookup_delete_ne by set_solver.
    rewrite lookup_insert_eq. split; [done|].
    apply lseg_delete_fresh; [done|]. apply lseg_insert_fresh; [set_solver|done].
Qed.

Lemma free_head_chain m p l a xs nx m' :
  chain m p ((l, a) :: xs) -> cells m !! l = Some (Cell a nx) ->
  free l m = Some m' -> chain m' nx xs.
Proof.
  intros Hc Hl Hf. pose proof (chain_NoDup _ _ _ Hc) as [Hnd _]%NoDup_cons.
  destruct Hc as (-> & nx' & Hl' & H). rewrite Hl in Hl'. injection Hl' as <-.
  unfold free in Hf. rewrite Hl in Hf. simplify_eq.
  apply lseg_delete_fresh; done.
Qed.

(** The store after freeing a set of blocks, one block at a time. *)
Lemma delete_decide (h : gmap loc (cell A)) (l l' : loc) (ls : list loc) :
  (if decide (l' ∈ ls) then None else delete l h !! l')
  = (if decide (l' ∈ l :: ls) then None else h !! l').
Proof.
  destruct (decide (l' = l)) as [->|Hne].
  - rewrite (decide_True (P := l ∈ l :: ls)) by (by left).
    destruct (decide _); [done|]. by rewrite lookup_delete_eq.
  - rewrite lookup_delete_ne by done.
    destruct (decide (l' ∈ ls)) as [Hin|Hin].
    + by rewrite decide_True by (by right).
    + rewrite decide_False; [done|]. by intros [->|]%elem_of_cons.
Qed.
End memory.

#[export] Hint Resolve malloc_wf free_wf set_link_wf : mc.

Arguments set_link : simpl never.
Arguments free : simpl never.
