(* ===== verification/Bakery.v ===== *)
(** * The bakery lock of Project2 ([src/Project2/src/Project2.cpp])

    [bakery_lock], [bakery_unlock] and [BakeryMax] run by [g_num_thread]
    threads.  The two arrays are [volatile], so every read and every write of
    an array element is one step of the transition system, in program order:
    the second read of [g_bakery_number[k]] in [BakeryMax] and the three reads
    of the waiting condition are steps of their own.  Signed overflow of a
    ticket is undefined behaviour: the step that would overflow has no
    successor. *)

From S2P Require Import Prelude.

Local Open Scope Z_scope.

Module Bakery.

(** Where a thread stands in [bakery_lock] (lines 125-148) and, for the
    [Max] states, in the call of [BakeryMax] (lines 111-122). *)
Inductive pc :=
| Out                                (* outside the lock *)
| MaxCmp (k : nat) (num_max : Z)     (* loop head of BakeryMax, first read *)
| MaxSet (k : nat) (num_max : Z)     (* second read of g_bakery_number[k] *)
| SetNumber (num_max : Z)            (* store of the ticket *)
| ClearChoosing                      (* store of FALSE in g_bakery_choosing[i] *)
| WaitChoosing (j : nat)             (* loop head, read of g_bakery_choosing[j] *)
| WaitNonzero (j : nat)              (* g_bakery_number[j] != 0 *)
| WaitLess (j : nat)                 (* g_bakery_number[j] < g_bakery_number[i] *)
| WaitEqual (j : nat)                (* the two tickets are equal and j < i *)
| InCS.                              (* bakery_lock has returned *)

#[export] Instance pc_eq_dec : EqDecision pc.
Proof. solve_decision. Defined.

Record state := State {
  g_bakery_choosing : nat -> Z;
  g_bakery_number : nat -> Z;
  at_pc : nat -> pc
}.

Definition TRUE : Z := 1.
Definition FALSE : Z := 0.

(** [main] fills both arrays with 0 before any thread starts. *)
Definition init : state := State (fun _ => FALSE) (fun _ => 0) (fun _ => Out).

Definition goto (i : nat) (c : pc) (s : state) : state :=
  State (g_bakery_choosing s) (g_bakery_number s) (upd (at_pc s) i c).

Definition set_choosing (i : nat) (v : Z) (s : state) : state :=
  State (upd (g_bakery_choosing s) i v) (g_bakery_number s) (at_pc s).

Definition set_number (i : nat) (v : Z) (s : state) : state :=
  State (g_bakery_choosing s) (upd (g_bakery_number s) i v) (at_pc s).

Section threads.
Context (g_num_thread : nat).

(** One step of the loop of [BakeryMax]; the value it returns is handed to
    the ticket store as [SetNumber]. *)
Definition BakeryMax_step (number : nat -> Z) (c : pc) : pc :=
  match c with
  | MaxCmp i num_max =>
      if (i <? g_num_thread)%nat then
        if num_max <? number i then MaxSet i num_max else MaxCmp (S i) num_max
      else SetNumber num_max
  | MaxSet i _ => MaxCmp (S i) (number i)
  | _ => c
  end.

(** One step of [bakery_lock(i)]; [None] is the signed overflow of the
    ticket. *)
Definition bakery_lock_step (i : nat) (s : state) : option state :=
  match at_pc s i with
  | Out => Some (goto i (MaxCmp 0 0) (set_choosing i TRUE s))
  | MaxCmp _ _ | MaxSet _ _ =>
      Some (goto i (BakeryMax_step (g_bakery_number s) (at_pc s i)) s)
  | SetNumber num_max =>
      if num_max + 1 <=? INT_MAX
      then Some (goto i ClearChoosing (set_number i (num_max + 1) s))
      else None
  | ClearChoosing => Some (goto i (WaitChoosing 0) (set_choosing i FALSE s))
  | WaitChoosing j =>
      if (j <? g_num_thread)%nat then
        if negb (g_bakery_choosing s j =? 0) then Some s
        else Some (goto i (WaitNonzero j) s)
      else Some (goto i InCS s)
  | WaitNonzero j =>
      if negb (g_bakery_number s j =? 0) then Some (goto i (WaitLess j) s)
      else Some (goto i (WaitChoosing (S j)) s)
  | WaitLess j =>
      if g_bakery_number s j <? g_bakery_number s i
      then Some (goto i (WaitNonzero j) s)
      else Some (goto i (WaitEqual j) s)
  | WaitEqual j =>
      if (g_bakery_number s j =? g_bakery_number s i) && (j <? i)%nat
      then Some (goto i (WaitNonzero j) s)
      else Some (goto i (WaitChoosing (S j)) s)
  | InCS => None
  end.

Definition bakery_unlock (i : nat) (s : state) : state :=
  goto i Out (set_number i 0 s).

(** A thread repeats lock, critical section, unlock. *)
Definition thread_step (i : nat) (s : state) : option state :=
  match at_pc s i with
  | InCS => Some (bakery_unlock i s)
  | _ => bakery_lock_step i s
  end.

Inductive step (s s' : state) : Prop :=
| step_thread i : (i < g_num_thread)%nat -> thread_step i s = Some s' -> step s s'.

Definition reachable (s : state) : Prop := rtc step init s.

(** A schedule is the sequence of the threads that move. *)
Fixpoint run (sched : list nat) (s : state) : option state :=
  match sched with
  | [] => Some s
  | i :: sched' =>
      if (i <? g_num_thread)%nat then thread_step i s ≫= run sched' else None
  end.

Lemma bakery_run_rtc sched s s' : run sched s = Some s' -> rtc step s s'.
Proof.
  revert s. induction sched as [|i sched IH]; intros s H; simplify_eq/=; [done|].
  destruct (Nat.ltb_spec i g_num_thread) as [Hi|]; [|done].
  apply bind_Some in H as (s1 & H1 & H2).
  eapply rtc_l; [econstructor; [exact Hi|exact H1]|by apply IH].
Qed.

(** ** The invariant *)

(** The flags and the ticket of a thread agree with its program counter. *)
Definition flags_ok (c : pc) (choosing number : Z) : Prop :=
  match c with
  | Out => choosing = 0 /\ number = 0
  | MaxCmp _ m | MaxSet _ m | SetNumber m => choosing = 1 /\ number = 0 /\ 0 <= m
  | ClearChoosing => choosing = 1 /\ 0 < number
  | _ => choosing = 0 /\ 0 < number
  end.

(** The priority order of the tickets. *)
Definition before (number : nat -> Z) (q i : nat) : Prop :=
  number q < number i \/ (number q = number i /\ (q < i)%nat).

Definition holds_ticket (c : pc) : Prop :=
  match c with Out | MaxCmp _ _ | MaxSet _ _ | SetNumber _ => False | _ => True end.

(** The thread has seen [g_bakery_choosing[i]] false in this acquisition. *)
Definition passed_choosing (c : pc) (i : nat) : Prop :=
  match c with
  | WaitNonzero j | WaitLess j | WaitEqual j => (i <= j)%nat
  | WaitChoosing j => (i < j)%nat
  | InCS => True
  | _ => False
  end.

(** The thread has left the waiting loop for [i] in this acquisition. *)
Definition passed (c : pc) (i : nat) : Prop :=
  match c with
  | WaitChoosing j | WaitNonzero j | WaitLess j | WaitEqual j => (i < j)%nat
  | InCS => True
  | _ => False
  end.

(** What thread [i], while it takes its ticket, already knows of a thread
    [q] that did not see it choosing. *)
Definition counted (number : nat -> Z) (q : nat) (c : pc) : Prop :=
  match c with
  | MaxCmp k m => (q < k)%nat -> number q <= m
  | MaxSet k m => (q < k)%nat -> number q < number k
  | SetNumber m => number q <= m
  | _ => True
  end.

Record inv (s : state) : Prop := Inv {
  inv_flags i : flags_ok (at_pc s i) (g_bakery_choosing s i) (g_bakery_number s i);
  inv_set i k m : at_pc s i = MaxSet k m -> (k < g_num_thread)%nat;
  inv_range i : (g_num_thread <= i)%nat -> at_pc s i = Out;
  inv_counted q i : q <> i -> passed_choosing (at_pc s q) i ->
    counted (g_bakery_number s) q (at_pc s i);
  inv_before q i : q <> i -> passed (at_pc s q) i -> holds_ticket (at_pc s i) ->
    before (g_bakery_number s) q i;
  inv_equal q i : q <> i -> at_pc s q = WaitEqual i -> holds_ticket (at_pc s i) ->
    before (g_bakery_number s) q i \/ g_bakery_number s q = g_bakery_number s i
}.

Lemma init_inv : inv init.
Proof. by split; simpl; intros. Qed.

Lemma passed_passed_choosing c i : passed c i -> passed_choosing c i.
Proof. destruct c; simpl; lia. Qed.

Lemma inv_goto_local s t c :
  inv s -> (t < g_num_thread)%nat ->
  holds_ticket c -> holds_ticket (at_pc s t) ->
  flags_ok c (g_bakery_choosing s t) (g_bakery_number s t) ->
  (forall i, i <> t -> passed_choosing c i ->
     passed_choosing (at_pc s t) i \/ g_bakery_choosing s i = 0) ->
  (forall i, i <> t -> passed c i -> holds_ticket (at_pc s i) ->
     before (g_bakery_number s) t i) ->
  (forall i, i <> t -> c = WaitEqual i -> holds_ticket (at_pc s i) ->
     before (g_bakery_number s) t i \/ g_bakery_number s t = g_bakery_number s i) ->
  inv (goto t c s).
Proof.
  intros I Ht Hc Hold Hf H1 H2 H3. destruct I as [If Is Ir Ic Ib Ie].
  split; simpl.
  - intros i. upd_cases; auto.
  - intros i k m. upd_cases; [by intros ->|eauto].
  - intros i Hi. upd_cases; [lia|auto].
  - intros q i Hqi. upd_cases; auto.
    + intros Hp. destruct (H1 i) as [|Hz]; auto.
      specialize (If i). destruct (at_pc s i); simpl in *; try done; lia.
    + intros _. by destruct c.
  - intros q i Hqi. upd_cases; auto.
  - intros q i Hqi. upd_cases; [by apply H3|auto|auto].
Qed.

(** The doorway: the steps of a thread that has no ticket yet. *)
Lemma inv_doorway s t c v :
  inv s -> (t < g_num_thread)%nat ->
  ~ holds_ticket (at_pc s t) -> ~ holds_ticket c ->
  flags_ok c v (g_bakery_number s t) ->
  (forall k m, c = MaxSet k m -> (k < g_num_thread)%nat) ->
  (forall q, q <> t -> (q < g_num_thread)%nat -> passed_choosing (at_pc s q) t ->
     counted (g_bakery_number s) q c) ->
  inv (goto t c (set_choosing t v s)).
Proof.
  intros I Ht Hold Hc Hf Hset Hcnt. destruct I as [If Is Ir Ic Ib Ie].
  split; simpl.
  - intros i. upd_cases; auto.
  - intros i k m. upd_cases; eauto.
  - intros i Hi. upd_cases; [lia|auto].
  - intros q i Hqi. upd_cases; auto.
    + by destruct c; simpl in *.
    + intros Hp. apply Hcnt; [done| |done].
      destruct (decide (q < g_num_thread)%nat); [done|].
      rewrite Ir in Hp by lia. done.
  - intros q i Hqi. upd_cases; auto; [by destruct c; simpl in *|tauto].
  - intros q i Hqi. upd_cases; [by intros -> |tauto|auto].
Qed.

Lemma set_choosing_id t s v c :
  g_bakery_choosing s t = v -> forall i,
  g_bakery_choosing (goto t c (set_choosing t v s)) i = g_bakery_choosing (goto t c s) i.
Proof. intros <- i. simpl. by upd_cases. Qed.

(** The invariant only looks at the arrays pointwise. *)
Lemma bakery_inv_ext s s' :
  (forall i, g_bakery_choosing s i = g_bakery_choosing s' i) ->
  g_bakery_number s = g_bakery_number s' -> at_pc s = at_pc s' -> inv s -> inv s'.
Proof.
  destruct s as [ch nu p], s' as [ch' nu' p']; simpl. intros Hc -> -> [If Is Ir Ic Ib Ie].
  split; simpl in *; auto. intros i. rewrite <- Hc. apply If.
Qed.

Lemma inv_max s t :
  inv s -> (t < g_num_thread)%nat ->
  (exists k m, at_pc s t = MaxCmp k m \/ at_pc s t = MaxSet k m) ->
  inv (goto t (BakeryMax_step (g_bakery_number s) (at_pc s t)) s).
Proof.
  intros I Ht (k & m & Hpc).
  pose proof (inv_flags _ I t) as Hf.
  eapply bakery_inv_ext; [by apply (set_choosing_id t s (g_bakery_choosing s t))|done|done|].
  assert (forall q, q <> t -> passed_choosing (at_pc s q) t ->
            counted (g_bakery_number s) q (at_pc s t)) as Hcnt
    by (intros; by apply (inv_counted _ I)).
  apply inv_doorway; try done.
  - destruct Hpc as [-> | ->]; simpl; tauto.
  - destruct Hpc as [-> | ->]; simpl; repeat case_match; simpl; tauto.
  - destruct Hpc as [E|E]; rewrite E in *; simpl in *.
    + repeat case_match; simpl; auto.
    + split_and!; try tauto. pose proof (inv_flags _ I k). 
      destruct (at_pc s k); simpl in *; lia.
  - intros k' m' Hs. destruct Hpc as [E|E]; rewrite E in *; simpl in *.
    + repeat split_guard; simplify_eq; lia.
    + done.
  - intros q Hqt Hq Hp. specialize (Hcnt q Hqt Hp).
    destruct Hpc as [E|E]; rewrite E in *; simpl in *.
    + repeat split_guard; simpl; try lia.
      intros ?. destruct (decide (q = k)); [by subst|]. apply Hcnt. lia.
    + intros ?. destruct (decide (q = k)); [subst; lia|].
      assert (q < k)%nat as Hlt by lia. specialize (Hcnt Hlt). lia.
Qed.

Lemma inv_set_number s t m :
  inv s -> (t < g_num_thread)%nat -> at_pc s t = SetNumber m ->
  inv (goto t ClearChoosing (set_number t (m + 1) s)).
Proof.
  intros I Ht Hpc. pose proof (inv_flags _ I t) as Hft. rewrite Hpc in Hft.
  simpl in Hft. destruct Hft as (Hch & Hz & Hm).
  assert (forall q, q <> t -> passed_choosing (at_pc s q) t ->
            g_bakery_number s q <= m) as Hcnt.
  { intros q Hq Hp. pose proof (inv_counted _ I q t Hq Hp) as H. by rewrite Hpc in H. }
  destruct I as [If Is Ir Ic Ib Ie]. split; simpl.
  - intros i. upd_cases; simpl; [lia|auto].
  - intros i k m'. upd_cases; [done|eauto].
  - intros i Hi. upd_cases; [lia|auto].
  - intros q i Hqi. upd_cases; try done. intros Hp. specialize (Ic q i Hqi Hp).
    specialize (If q). destruct (at_pc s i); simpl in *; upd_cases; auto.
    intros Hlt. specialize (Ic Hlt). destruct (at_pc s q); simpl in *; lia.
  - intros q i Hqi. unfold before. upd_cases; try done.
    + intros Hp _. left. specialize (Hcnt q Hqi (passed_passed_choosing _ _ Hp)). lia.
    + apply Ib; done.
  - intros q i Hqi. unfold before. upd_cases; try done.
    + intros Hp _. left. left. specialize (Hcnt q Hqi). rewrite Hp in Hcnt.
      simpl in Hcnt. specialize (Hcnt (le_n _)). lia.
    + by apply Ie.
Qed.

Lemma inv_clear s t :
  inv s -> (t < g_num_thread)%nat -> at_pc s t = ClearChoosing ->
  inv (goto t (WaitChoosing 0) (set_choosing t FALSE s)).
Proof.
  intros I Ht Hpc. pose proof (inv_flags _ I t) as Hft. rewrite Hpc in Hft.
  destruct I as [If Is Ir Ic Ib Ie]. split; simpl.
  - intros i. upd_cases; simpl in *; [unfold FALSE; lia|auto].
  - intros i k m'. upd_cases; [done|eauto].
  - intros i Hi. upd_cases; [lia|auto].
  - intros q i Hqi. upd_cases; simpl; try lia; auto.
  - intros q i Hqi. upd_cases; simpl; try lia; auto.
    intros Hp _. apply Ib; [done..|]. by rewrite Hpc.
  - intros q i Hqi. upd_cases; simpl; try done; auto.
    intros Hp _. apply Ie; [done..|]. by rewrite Hpc.
Qed.

(** A thread in the critical section is before every other ticket, so a
    thread between its two reads of that ticket has counted nobody who
    holds a smaller one. *)
Lemma inv_unlock s t :
  inv s -> (t < g_num_thread)%nat -> at_pc s t = InCS -> inv (bakery_unlock t s).
Proof.
  intros I Ht Hpc. pose proof (inv_flags _ I t) as Hft. rewrite Hpc in Hft.
  destruct I as [If Is Ir Ic Ib Ie]. split; simpl.
  - intros i. upd_cases; simpl in *; [lia|auto].
  - intros i k m'. upd_cases; [done|eauto].
  - intros i Hi. upd_cases; [lia|auto].
  - intros q i Hqi. upd_cases; simpl; try done.
    intros Hp. specialize (Ic q i Hqi Hp).
    destruct (at_pc s i) as [|k m|k m| | | | | | |] eqn:Ei; simpl in *; upd_cases; auto.
    intros Hlt. specialize (Ic Hlt). exfalso.
    assert (before (g_bakery_number s) k q) as [|[]]; [|lia..].
    apply Ib; [lia|by rewrite Hpc|]. by destruct (at_pc s q).
  - intros q i Hqi. unfold before. upd_cases; try done. by apply Ib.
  - intros q i Hqi. unfold before. upd_cases; try done. by apply Ie.
Qed.

Lemma inv_wait s t s' :
  inv s -> (t < g_num_thread)%nat ->
  (exists j, at_pc s t = WaitChoosing j \/ at_pc s t = WaitNonzero j \/
             at_pc s t = WaitLess j \/ at_pc s t = WaitEqual j) ->
  bakery_lock_step t s = Some s' -> inv s'.
Proof.
  intros I Ht (j & Hpc) Hs.
  assert (holds_ticket (at_pc s t)) as Hh by (destruct Hpc as [-> |[-> |[-> | ->]]]; done).
  assert (flags_ok (at_pc s t) (g_bakery_choosing s t) (g_bakery_number s t)) as Hf
    by apply (inv_flags _ I).
  assert (forall i, i <> t -> passed (at_pc s t) i -> holds_ticket (at_pc s i) ->
            before (g_bakery_number s) t i) as Hb
    by (intros; by apply (inv_before _ I)).
  assert (forall i, i <> t -> at_pc s t = WaitEqual i -> holds_ticket (at_pc s i) ->
     before (g_bakery_number s) t i \/ g_bakery_number s t = g_bakery_number s i) as He
    by (intros; by apply (inv_equal _ I)).
  assert (forall i, holds_ticket (at_pc s i) -> 0 < g_bakery_number s i) as Hpos.
  { intros i Hi. pose proof (inv_flags _ I i). destruct (at_pc s i); simpl in *; tauto. }
  unfold bakery_lock_step in Hs.
  destruct Hpc as [E|[E|[E|E]]]; rewrite E in *; simpl in *.
  - destruct (Nat.ltb_spec j g_num_thread) as [Hj|Hj].
    + destruct (Z.eqb_spec (g_bakery_choosing s j) 0) as [Hz|]; simplify_eq/=; [|done].
      apply inv_goto_local; rewrite ?E; simpl; try done.
      intros i Hi Hij. destruct (decide (i = j)); [by subst; right|left; lia].
    + simplify_eq. apply inv_goto_local; rewrite ?E; simpl; try done.
      * intros i Hi _. destruct (decide (i < g_num_thread)%nat); [left; lia|right].
        pose proof (inv_flags _ I i) as Hfi. rewrite (inv_range _ I) in Hfi by lia.
        apply Hfi.
      * intros i Hi _ Hhi. apply Hb; [done| |done].
        destruct (decide (i < g_num_thread)%nat); [lia|].
        rewrite (inv_range _ I) in Hhi by lia. done.
  - destruct (Z.eqb_spec (g_bakery_number s j) 0) as [Hz|]; simplify_eq/=.
    + apply inv_goto_local; rewrite ?E; simpl; try done; [intros; left; lia|].
      intros i Hi Hij Hhi. destruct (decide (i = j)) as [->|].
      * specialize (Hpos j Hhi). lia.
      * apply Hb; [done|lia|done].
    + apply inv_goto_local; rewrite ?E; simpl; try done. intros; left; lia.
  - destruct (Z.ltb_spec (g_bakery_number s j) (g_bakery_number s t)); simplify_eq/=;
      (apply inv_goto_local; rewrite ?E; simpl; try done; [intros; left; lia|..]).
    intros i Hi [= ->] Hhi. unfold before. lia.
  - destruct ((g_bakery_number s j =? g_bakery_number s t) && (j <? t)%nat) eqn:Hc;
      simplify_eq/=.
    + apply inv_goto_local; rewrite ?E; simpl; try done. intros; left; lia.
    + apply inv_goto_local; rewrite ?E; simpl; try done; [intros; left; lia|].
      intros i Hi Hij Hhi. destruct (decide (i = j)) as [->|]; [|apply Hb; [done|lia|done]].
      destruct (He j Hi eq_refl Hhi) as [|Heq]; [done|]. right.
      rewrite Heq, Z.eqb_refl in Hc. simpl in Hc. apply Nat.ltb_ge in Hc. lia.
Qed.

Lemma step_inv s s' : inv s -> step s s' -> inv s'.
Proof.
  intros I [t Ht Hs]. unfold thread_step in Hs.
  destruct (at_pc s t) as [|k m|k m|m| |j|j|j|j|] eqn:E.
  10: { simplify_eq. by apply inv_unlock. }
  6-9: (eapply inv_wait; [exact I|exact Ht| |exact Hs]; exists j; tauto).
  all: unfold bakery_lock_step in Hs; rewrite E in Hs.
  - simplify_eq. apply inv_doorway; rewrite ?E; simpl; try done; try tauto.
    + pose proof (inv_flags _ I t) as Hf. rewrite E in Hf. simpl in Hf. unfold TRUE. lia.
    + lia.
  - simplify_eq. rewrite <- E. apply inv_max; [done..|]. exists k, m. tauto.
  - simplify_eq. rewrite <- E. apply inv_max; [done..|]. exists k, m. tauto.
  - destruct (m + 1 <=? INT_MAX); simplify_eq. by apply inv_set_number.
  - simplify_eq. by apply inv_clear.
Qed.

Lemma bakery_reachable_inv s : reachable s -> inv s.
Proof. apply rtc_invariant; [apply init_inv|eauto using step_inv]. Qed.

(** C1: the bakery lock guarantees mutual exclusion: in every state reached
    by any interleaving of the array accesses of any number of threads, at
    most one thread has returned from [bakery_lock] without having called
    [bakery_unlock]. *)
Theorem bakery_mutual_exclusion s i j :
  reachable s -> at_pc s i = InCS -> at_pc s j = InCS -> i = j.
Proof.
  intros Hr Hi Hj. destruct (decide (i = j)) as [|Hne]; [done|]. exfalso.
  pose proof (bakery_reachable_inv s Hr) as I.
  assert (before (g_bakery_number s) i j) as H1
    by (apply (inv_before _ I); rewrite ?Hi, ?Hj; done).
  assert (before (g_bakery_number s) j i) as H2
    by (apply (inv_before _ I); rewrite ?Hi, ?Hj; done).
  unfold before in *. lia.
Qed.

(** ** The ticket is one more than the largest ticket *)

Definition max_ticket (number : nat -> Z) : Z :=
  foldl Z.max 0 (map number (seq 0 g_num_thread)).

Lemma BakeryMax_loop number d k m :
  (k + d = g_num_thread)%nat ->
  exists f, (f <= 2 * d + 1)%nat /\
    Nat.iter f (BakeryMax_step number) (MaxCmp k m)
    = SetNumber (foldl Z.max m (map number (seq k d))).
Proof.
  revert k m. induction d as [|d IH]; intros k m Hk.
  - exists 1%nat. split; [lia|]. simpl.
    by rewrite (proj2 (Nat.ltb_ge k g_num_thread)) by lia.
  - destruct (IH (S k) (Z.max m (number k))) as (f & Hf & E); [lia|].
    assert ((k <? g_num_thread)%nat = true) as Hlt by (apply Nat.ltb_lt; lia).
    destruct (Z.ltb_spec m (number k)) as [Hm|Hm].
    + exists (2 + f)%nat. split; [lia|]. simpl. rewrite <- E, Z.max_r by lia.
      rewrite <- !Nat.iter_succ, !Nat.iter_succ_r. simpl. rewrite Hlt.
      rewrite (proj2 (Z.ltb_lt _ _)) by done. done.
    + exists (1 + f)%nat. split; [lia|]. simpl. rewrite <- E, Z.max_l by lia.
      rewrite <- !Nat.iter_succ, !Nat.iter_succ_r. simpl. rewrite Hlt.
      rewrite (proj2 (Z.ltb_ge _ _)) by done. done.
Qed.

(** when no other thread interferes, the loop of [BakeryMax] ends after
    at most [2 n + 1] accesses and returns the largest ticket of the array,
    or 0 when nobody holds one. *)
Theorem BakeryMax_returns_maximum number :
  exists f, (f <= 2 * g_num_thread + 1)%nat /\
    Nat.iter f (BakeryMax_step number) (MaxCmp 0 0) = SetNumber (max_ticket number).
Proof. by apply BakeryMax_loop. Qed.

(** ** The holder of the lowest ticket gets in *)

Definition lowest_ticket (s : state) (i : nat) : Prop :=
  forall j, (j < g_num_thread)%nat -> j <> i ->
    g_bakery_number s j = 0 \/ before (g_bakery_number s) i j.

Definition doorway_empty (s : state) : Prop :=
  forall j, (j < g_num_thread)%nat -> g_bakery_choosing s j = 0.

Lemma run_cons i s s1 s2 f :
  (i < g_num_thread)%nat -> thread_step i s = Some s1 ->
  run (replicate f i) s1 = Some s2 -> run (replicate (S f) i) s = Some s2.
Proof. intros Hi H1 H2. simpl. rewrite (proj2 (Nat.ltb_lt _ _)) by done. by rewrite H1. Qed.

Lemma run_app l1 l2 s s1 :
  run l1 s = Some s1 -> run (l1 ++ l2) s = run l2 s1.
Proof.
  revert s. induction l1 as [|i l1 IH]; intros s H; simplify_eq/=; [done|].
  destruct (i <? g_num_thread)%nat; [|done].
  apply bind_Some in H as (s' & -> & H). by apply IH.
Qed.

(** The waiting loop for one [j] is left for good. *)
Lemma wait_one s i j :
  (i < g_num_thread)%nat -> (j < g_num_thread)%nat ->
  doorway_empty s -> lowest_ticket s i -> at_pc s i = WaitChoosing j ->
  exists s1 k, (k <= 4)%nat /\ at_pc s1 i = WaitChoosing (S j) /\
    g_bakery_choosing s1 = g_bakery_choosing s /\
    g_bakery_number s1 = g_bakery_number s /\
    run (replicate k i) s = Some s1.
Proof.
  intros Hi Hj Hd Hl Hpc.
  set (sn := goto i (WaitNonzero j) s).
  assert (thread_step i s = Some sn) as E1.
  { unfold thread_step, bakery_lock_step. rewrite Hpc.
    rewrite (proj2 (Nat.ltb_lt _ _)) by done. by rewrite Hd. }
  destruct (decide (g_bakery_number s j = 0)) as [Hz|Hnz].
  - set (sx := goto i (WaitChoosing (S j)) sn).
    assert (thread_step i sn = Some sx) as E2.
    { unfold thread_step, bakery_lock_step. simpl. by rewrite upd_eq, Hz. }
    exists sx, 2%nat. split_and!; [lia|simpl; by rewrite upd_eq|done..|].
    eapply run_cons, run_cons; done.
  - set (sl := goto i (WaitLess j) sn). set (se := goto i (WaitEqual j) sl).
    set (sx := goto i (WaitChoosing (S j)) se).
    assert (thread_step i sn = Some sl) as E2.
    { unfold thread_step, bakery_lock_step. simpl. rewrite upd_eq.
      by rewrite (proj2 (Z.eqb_neq _ _)) by done. }
    assert (~ g_bakery_number s j < g_bakery_number s i /\
      ((g_bakery_number s j =? g_bakery_number s i) && (j <? i)%nat = false)) as [Hn Hb].
    { destruct (decide (j = i)) as [->|Hji].
      - rewrite Nat.ltb_irrefl, andb_false_r. split; [lia|done].
      - destruct (Hl j Hj Hji) as [|Hlt]; [done|]. unfold before in Hlt. split; [lia|].
        destruct (Z.eqb_spec (g_bakery_number s j) (g_bakery_number s i)); [|done].
        simpl. apply Nat.ltb_ge. lia. }
    assert (thread_step i sl = Some se) as E3.
    { unfold thread_step, bakery_lock_step. simpl. rewrite upd_eq.
      by rewrite (proj2 (Z.ltb_ge _ _)) by lia. }
    assert (thread_step i se = Some sx) as E4.
    { unfold thread_step, bakery_lock_step. simpl. rewrite upd_eq. by rewrite Hb. }
    exists sx, 4%nat. split_and!; [lia|simpl; by rewrite upd_eq|done..|].
    eapply run_cons, run_cons, run_cons, run_cons; done.
Qed.

(** C5: a thread that waits with the lowest ticket, while nobody is taking a
    ticket, enters the critical section within [4 n + 1] of its own steps
    from the start of the waiting loop: no other thread has to move. *)
Theorem bakery_lowest_ticket_enters s i :
  (i < g_num_thread)%nat -> doorway_empty s -> lowest_ticket s i ->
  at_pc s i = WaitChoosing 0 ->
  exists f s', (f <= 4 * g_num_thread + 1)%nat /\
    run (replicate f i) s = Some s' /\ at_pc s' i = InCS.
Proof.
  intros Hi. enough (forall d j s, (j + d = g_num_thread)%nat -> doorway_empty s ->
    lowest_ticket s i -> at_pc s i = WaitChoosing j ->
    exists f s', (f <= 4 * d + 1)%nat /\
      run (replicate f i) s = Some s' /\ at_pc s' i = InCS) as H
    by (intros; by apply (H g_num_thread 0%nat s)).
  clear s. induction d as [|d IH]; intros j s Hj Hd Hl Hpc.
  - exists 1%nat, (goto i InCS s). split_and!; [lia| |simpl; by rewrite upd_eq].
    eapply run_cons; [done| |done]. unfold thread_step, bakery_lock_step. rewrite Hpc.
    by rewrite (proj2 (Nat.ltb_ge _ _)) by lia.
  - destruct (wait_one s i j) as (s1 & k & Hk & Hpc1 & Ec & En & Hrun); try done; [lia|].
    destruct (IH (S j) s1) as (f & s' & Hf & Hr & Hin);
      [lia|by unfold doorway_empty; rewrite Ec|by unfold lowest_ticket; rewrite En|done|].
    exists (k + f)%nat, s'. split_and!; [lia| |done].
    rewrite replicate_add. by rewrite (run_app _ _ _ s1).
Qed.
End threads.

(** A thread alone acquires, uses and releases the lock beside a waiting
    thread: thread 0 is inside, thread 1 has taken its ticket. *)
Definition witness_schedule : list nat :=
  (replicate 13 0 ++ replicate 9 1)%nat.

Lemma bakery_mutual_exclusion_witness :
  exists s, reachable 2 s /\ at_pc s 0 = InCS /\
    forall j, at_pc s j = InCS -> 0%nat = j.
Proof.
  assert (run 2 witness_schedule init ≫= (fun s => Some (at_pc s 0)) = Some InCS) as H
    by (vm_compute; reflexivity).
  apply bind_Some in H as (s & Hs & [= H0]).
  exists s. assert (reachable 2 s) as Hr by (by eapply bakery_run_rtc).
  split; [exact Hr|]. split; [exact H0|]. intros j Hj.
  exact (bakery_mutual_exclusion 2 s 0 j Hr H0 Hj).
Defined.

(** Two tickets taken, nobody choosing, thread 0 first in line. *)
Definition queue_state : state :=
  State (fun _ => 0) (fun i => match i with 0%nat => 1 | 1%nat => 2 | _ => 0 end)
    (fun i => match i with 0%nat => WaitChoosing 0 | 1%nat => WaitLess 0 | _ => Out end).

Lemma bakery_lowest_ticket_enters_witness :
  exists f s', (f <= 9)%nat /\ run 2 (replicate f 0%nat) queue_state = Some s' /\
    at_pc s' 0 = InCS.
Proof.
  apply (bakery_lowest_ticket_enters 2 queue_state 0).
  - lia.
  - intros j _. reflexivity.
  - intros j Hj Hne. right. unfold before; simpl. destruct j as [|[|]]; lia.
  - reflexivity.
Defined.
End Bakery.
