(* ===== verification/VersionLists.v ===== *)
(** * The linked lists of Project2 ([src/Project2/src/Project2.cpp])

    The global active list and its snapshots (lines 305-379) and the queues of
    the collector (lines 421-501), on the node store of [LinkedHeap].  Each
    operation is shown to implement the operation on plain lists that
    [Mvcc] uses.  The loops carry fuel [S (brk m)]: a null-terminated list
    has at most [brk m] nodes ([chain_length]), so the fuel never runs out. *)

From S2P Require Import Prelude LinkedHeap.

(** ** The active list *)
Module Active.

Record ActiveNode := mkActive { index_thread : nat; version : Z }.

#[export] Instance ActiveNode_eq_dec : EqDecision ActiveNode.
Proof. solve_decision. Defined.

Record astate := AState { a_mem : mem ActiveNode; g_active_list : option loc }.

Definition InsertGlobalActiveList (index_thread : nat) (version : Z) (st : astate) : astate :=
  let (node, m) := malloc (Cell (mkActive index_thread version) (g_active_list st)) (a_mem st) in
  AState m (Some node).

Fixpoint DeleteGlobal_loop (fuel : nat) (index : nat) (st : astate)
    (current_node back_node : option loc) : option astate :=
  match fuel with
  | O => None
  | S fuel' =>
      match current_node with
      | None => Some st
      | Some l =>
          c ← cells (a_mem st) !! l;
          if (index_thread (payload c) =? index)%nat then
            match back_node with
            | Some _ =>
                m1 ← set_link back_node (link c) (a_mem st);
                m2 ← free l m1;
                Some (AState m2 (g_active_list st))
            | None =>
                m2 ← free l (a_mem st);
                Some (AState m2 (link c))
            end
          else DeleteGlobal_loop fuel' index st (link c) current_node
      end
  end.

Definition DeleteGlobalActiveList (index : nat) (st : astate) : option astate :=
  DeleteGlobal_loop (S (brk (a_mem st))) index st (g_active_list st) None.

Definition InsertCaptureActiveList (c_active_list : option loc) (index_thread : nat)
    (version : Z) (m : mem ActiveNode) : option loc * mem ActiveNode :=
  let (node, m') := malloc (Cell (mkActive index_thread version) c_active_list) m in
  (Some node, m').

Fixpoint Capture_loop (fuel : nat) (tmp c_active_list : option loc) (m : mem ActiveNode)
    : option (option loc * mem ActiveNode) :=
  match fuel with
  | O => None
  | S fuel' =>
      match tmp with
      | None => Some (c_active_list, m)
      | Some l =>
          c ← cells m !! l;
          let (cap, m') :=
            InsertCaptureActiveList c_active_list
              (index_thread (payload c)) (version (payload c)) m in
          Capture_loop fuel' (link c) cap m'
      end
  end.

Definition CaptureActiveList (st : astate) : option (option loc * astate) :=
  '(cap, m) ← Capture_loop (S (brk (a_mem st))) (g_active_list st) None (a_mem st);
  Some (cap, AState m (g_active_list st)).

Fixpoint DeleteCapture_loop (fuel : nat) (current_node : option loc) (m : mem ActiveNode)
    : option (mem ActiveNode) :=
  match fuel with
  | O => None
  | S fuel' =>
      match current_node with
      | None => Some m
      | Some l =>
          c ← cells m !! l;
          m' ← free l m;
          DeleteCapture_loop fuel' (link c) m'
      end
  end.

Definition DeleteCaptureActiveListAll (ActiveList : option loc) (st : astate) : option astate :=
  m ← DeleteCapture_loop (S (brk (a_mem st))) ActiveList (a_mem st);
  Some (AState m (g_active_list st)).

(** *** The list a heap represents *)

Definition active_rep (st : astate) (ns : list ActiveNode) : Prop :=
  wf_mem (a_mem st) /\ exists xs, chain (a_mem st) (g_active_list st) xs /\ xs.*2 = ns.

Definition has_index (i : nat) (a : ActiveNode) : bool := (index_thread a =? i)%nat.

Lemma insert_rep st ns i v :
  active_rep st ns -> active_rep (InsertGlobalActiveList i v st) (mkActive i v :: ns).
Proof.
  intros (Hwf & xs & Hc & <-). split; [by apply malloc_wf|].
  exists ((brk (a_mem st), mkActive i v) :: xs). split; [by apply malloc_chain|done].
Qed.

(** Walking past nodes of other threads: [back] is the last node passed. *)
Lemma delete_loop_rep fuel i st xs1 pl pa xs2 cur :
  wf_mem (a_mem st) ->
  chain (a_mem st) (g_active_list st) (xs1 ++ (pl, pa) :: xs2) ->
  chain (a_mem st) cur xs2 -> length xs2 < fuel ->
  exists st', DeleteGlobal_loop fuel i st cur (Some pl) = Some st' /\ wf_mem (a_mem st') /\
    exists ys, chain (a_mem st') (g_active_list st') ys /\
      ys.*2 = xs1.*2 ++ pa :: remove_first (has_index i) xs2.*2.
Proof.
  intros Hwf. revert xs1 pl pa xs2 cur.
  induction fuel as [|fuel IH]; intros xs1 pl pa xs2 cur Hall Hc Hf; [lia|]. simpl.
  destruct xs2 as [|[l a] xs2].
  - rewrite Hc. exists st. split_and!; [done..|]. eexists. split; [exact Hall|].
    by rewrite fmap_app.
  - destruct Hc as (-> & nx & Hl & Hc). rewrite Hl. simpl. unfold has_index at 1.
    destruct (Nat.eqb_spec (index_thread a) i) as [Hi|Hi].
    + assert (exists m1, set_link (Some pl) nx (a_mem st) = Some m1) as [m1 Hm1].
      { unfold set_link. destruct (lseg_lookup _ _ _ _ pl pa Hall) as (nx' & ->); [set_solver|eauto]. }
      rewrite Hm1. simpl.
      assert (exists m2, free l m1 = Some m2) as [m2 Hm2].
      { unfold free, set_link in *. repeat case_match; simplify_eq/=; eauto.
        exfalso. rewrite lookup_insert in *. case_decide; simplify_eq. }
      rewrite Hm2. simpl. eexists. split; [done|]. simpl. split; [eauto with mc|].
      eexists. split; [by eapply unlink_chain|]. by rewrite fmap_app.
    + destruct (IH (xs1 ++ [(pl, pa)]) l a xs2 nx) as (st' & E & Hwf' & ys & Hys & Hys2).
      * by rewrite <- app_assoc.
      * done.
      * simpl in Hf. lia.
      * exists st'. split_and!; [done..|]. exists ys. split; [done|]. rewrite Hys2.
        rewrite fmap_app, <- app_assoc. done.
Qed.

(** [DeleteGlobalActiveList] terminates without a bad access, and leaves
    the active list with exactly the first node of the given thread taken
    out, whether it is the head, an inner node or absent. *)
Theorem DeleteGlobalActiveList_correct st ns i :
  active_rep st ns ->
  exists st', DeleteGlobalActiveList i st = Some st' /\
    active_rep st' (remove_first (has_index i) ns).
Proof.
  intros (Hwf & xs & Hc & <-). unfold DeleteGlobalActiveList.
  pose proof (chain_length _ _ _ Hwf Hc) as Hlen.
  destruct xs as [|[l a] xs].
  - unfold chain in Hc. simpl in Hc. simpl. rewrite Hc. exists st. split; [done|].
    split; [done|]. exists []. by rewrite Hc.
  - pose proof Hc as (Hg & nx & Hl & Hxs). simpl. rewrite Hg, Hl. simpl.
    unfold has_index at 1. destruct (Nat.eqb_spec (index_thread a) i).
    + destruct (free l (a_mem st)) as [m|] eqn:Em.
      2:{ unfold free in Em. by rewrite Hl in Em. }
      simpl. eexists. split; [done|]. split; [eauto with mc|]. exists xs. split; [|done].
      by eapply free_head_chain.
    + destruct (delete_loop_rep (brk (a_mem st)) i st [] l a xs nx) as (st' & -> & Hwf' & ys & Hys & E);
        [done..|simpl in Hlen; lia|].
      exists st'. split; [done|]. split; [done|]. eauto.
Qed.

(** *** Snapshots *)

Lemma capture_loop_rep fuel m tmp xs cap cs :
  wf_mem m -> chain m tmp xs -> chain m cap cs -> length xs < fuel ->
  exists cap' m' cs', Capture_loop fuel tmp cap m = Some (cap', m') /\ wf_mem m' /\
    brk m <= brk m' /\ chain m' cap' cs' /\ cs'.*2 = reverse xs.*2 ++ cs.*2 /\
    (forall l, l ∈ cs'.*1 -> brk m <= l \/ l ∈ cs.*1) /\
    (forall l, l < brk m -> cells m' !! l = cells m !! l) /\
    (forall l, is_Some (cells m' !! l) -> l < brk m \/ l ∈ cs'.*1) /\
    cs.*1 ⊆ cs'.*1.
Proof.
  revert m tmp xs cap cs.
  induction fuel as [|fuel IH]; intros m tmp xs cap cs Hwf Hx Hcs Hf; [lia|]. simpl.
  destruct xs as [|[l a] xs].
  - rewrite Hx. exists cap, m, cs. split_and!; try done; [by right|].
    intros l [c Hc]. left. eauto.
  - destruct Hx as (-> & nx & Hl & Hx). rewrite Hl. simpl. destruct a as [ix v]. simpl.
    set (c0 := Cell (mkActive ix v) cap).
    destruct (IH (malloc c0 m).2 nx xs (Some (brk m)) ((brk m, mkActive ix v) :: cs))
      as (cap' & m' & cs' & E & Hwf' & Hbrk & Hch & Hcs' & Hnew & Hsame & Hdom & Hsub).
    + by apply malloc_wf.
    + by apply malloc_frame.
    + by apply malloc_chain.
    + simpl in Hf. lia.
    + simpl in *. exists cap', m', cs'. split_and!; try done.
      * lia.
      * rewrite Hcs', reverse_cons, <- app_assoc. done.
      * intros l' Hl'. destruct (Hnew l' Hl') as [|[->|]%elem_of_cons]; [left; lia|by left|by right].
      * intros l' Hl'. rewrite Hsame by lia. rewrite lookup_insert_ne; [done|lia].
      * intros l' Hl'. destruct (Hdom l' Hl') as [Hlt|]; [|by right].
        destruct (decide (l' = brk m)) as [->|]; [right|left; lia]. set_solver.
      * set_solver.
Qed.

(** a snapshot holds the active list at the time of the call in reverse
    order, in fresh nodes: the active list itself is untouched, and nothing
    of it is shared. *)
Theorem CaptureActiveList_correct st ns :
  active_rep st ns ->
  exists cap st' cs, CaptureActiveList st = Some (cap, st') /\
    active_rep st' ns /\ g_active_list st' = g_active_list st /\
    chain (a_mem st') cap cs /\ cs.*2 = reverse ns /\
    forall l, l ∈ cs.*1 -> cells (a_mem st) !! l = None.
Proof.
  intros (Hwf & xs & Hc & <-). unfold CaptureActiveList.
  destruct (capture_loop_rep (S (brk (a_mem st))) (a_mem st) (g_active_list st) xs None [])
    as (cap & m' & cs & -> & Hwf' & _ & Hch & Hcs & Hnew & Hsame & _); try done.
  { pose proof (chain_length _ _ _ Hwf Hc). lia. }
  simpl. eexists cap, _, cs. split; [done|]. simpl. split_and!; try done.
  - split; [done|]. exists xs. split; [|done]. simpl. eapply lseg_frame; [|exact Hc].
    intros l Hl. apply Hsame. destruct (lseg_lookup_fst _ _ _ _ _ Hc Hl). eauto.
  - by rewrite Hcs, app_nil_r.
  - intros l Hl. destruct (Hnew l Hl) as [Hge|[]%elem_of_nil].
    destruct (cells (a_mem st) !! l) as [c|] eqn:E; [|done]. specialize (Hwf _ _ E). lia.
Qed.

Lemma delete_capture_loop_rep fuel m cur cs :
  chain m cur cs -> length cs < fuel ->
  exists m', DeleteCapture_loop fuel cur m = Some m' /\ brk m' = brk m /\
    forall l, cells m' !! l = if decide (l ∈ cs.*1) then None else cells m !! l.
Proof.
  revert m cur cs. induction fuel as [|fuel IH]; intros m cur cs Hc Hf; [lia|]. simpl.
  destruct cs as [|[l a] cs].
  - rewrite Hc. exists m. split_and!; [done..|]. intros l. by rewrite decide_False by set_solver.
  - pose proof Hc as (-> & nx & Hl & _). rewrite Hl. simpl.
    destruct (free l m) as [m1|] eqn:Em.
    2:{ unfold free in Em. by rewrite Hl in Em. }
    simpl. destruct (IH m1 nx cs) as (m' & E & Hb & Hm').
    + by eapply free_head_chain.
    + simpl in Hf. lia.
    + exists m'. unfold free in Em. rewrite Hl in Em. simplify_eq/=. split_and!; [done..|].
      intros l'. rewrite Hm'. apply delete_decide.
Qed.

(** taking a snapshot and deleting it again gives back the heap as it
    was: [DeleteCaptureActiveListAll] frees every node that
    [CaptureActiveList] allocated and no other one. *)
Theorem capture_delete_roundtrip st ns :
  active_rep st ns ->
  exists cap st1 st2, CaptureActiveList st = Some (cap, st1) /\
    DeleteCaptureActiveListAll cap st1 = Some st2 /\
    cells (a_mem st2) = cells (a_mem st) /\ g_active_list st2 = g_active_list st.
Proof.
  intros (Hwf & xs & Hc & <-). unfold CaptureActiveList.
  destruct (capture_loop_rep (S (brk (a_mem st))) (a_mem st) (g_active_list st) xs None [])
    as (cap & m' & cs & E & Hwf' & _ & Hch & Hcs & Hnew & Hsame & Hdom & _); try done.
  { pose proof (chain_length _ _ _ Hwf Hc). lia. }
  rewrite E. simpl. destruct (delete_capture_loop_rep (S (brk m')) m' cap cs) as (m2 & E2 & _ & Hm2).
  { done. } { pose proof (chain_length _ _ _ Hwf' Hch). lia. }
  eexists cap, _, _. split; [done|]. unfold DeleteCaptureActiveListAll. cbn [a_mem g_active_list]. rewrite E2.
  split; [done|]. split; [|done]. simpl. apply map_eq. intros l. rewrite Hm2.
  destruct (decide (l ∈ cs.*1)) as [Hin|Hin].
  - destruct (Hnew l Hin) as [Hge|[]%elem_of_nil].
    destruct (cells (a_mem st) !! l) as [c|] eqn:El; [|done]. specialize (Hwf _ _ El). lia.
  - destruct (decide (l < brk (a_mem st))); [by apply Hsame|].
    assert (cells (a_mem st) !! l = None) as ->.
    { destruct (cells (a_mem st) !! l) as [c|] eqn:El; [|done]. specialize (Hwf _ _ El). lia. }
    destruct (cells m' !! l) as [c|] eqn:El; [|done]. exfalso.
    destruct (Hdom l) as [|]; [eauto|lia|done].
Qed.

(** Two updaters in the active list. *)
Definition two_active : astate :=
  InsertGlobalActiveList 1 2 (InsertGlobalActiveList 0 1 (AState empty_mem None)).

Lemma two_active_rep : active_rep two_active [mkActive 1 2; mkActive 0 1].
Proof. apply insert_rep, insert_rep. split; [by intros ? ?|]. by exists []. Qed.

Lemma capture_delete_roundtrip_witness :
  exists cap st1 st2, CaptureActiveList two_active = Some (cap, st1) /\
    DeleteCaptureActiveListAll cap st1 = Some st2 /\
    cells (a_mem st2) = cells (a_mem two_active) /\ g_active_list st2 = g_active_list two_active.
Proof. exact (capture_delete_roundtrip two_active _ two_active_rep). Defined.
End Active.

(** ** The collector's queues *)
Module GQueue.

(** Struct [Queue] (lines 22-28); the nodes hold a [uint64_t] version. *)
Record Queue := mkQueue {
  count : Z; minimum : Z; delete_front : Z; front : option loc; rear : option loc
}.

(** [malloc] does not run the member initialisers of the struct: [minimum]
    and [delete_front] keep what the block held before. *)
Definition CreateQueue (raw : Queue) : Queue :=
  mkQueue 0 (minimum raw) (delete_front raw) None None.

Definition RemoveFront (m : mem Z) (q : Queue) : option (mem Z * Queue) :=
  if (count q =? 0)%Z then Some (m, q)
  else
    l ← front q;
    c ← cells m !! l;
    m' ← free l m;
    Some (m', mkQueue (u64 (count q - 1)) (minimum q) (delete_front q) (link c) (rear q)).

Fixpoint RemoveVersion_loop (fuel : nat) (version : Z) (m : mem Z) (q : Queue)
    (current_node back_node : option loc) : option (mem Z * Queue) :=
  match fuel with
  | O => None
  | S fuel' =>
      match current_node with
      | None => Some (m, q)
      | Some l =>
          c ← cells m !! l;
          if (payload c =? version)%Z then
            match back_node with
            | Some _ =>
                m1 ← set_link back_node (link c) m;
                m2 ← free l m1;
                Some (m2, mkQueue (u64 (count q - 1)) (minimum q) (delete_front q) (front q)
                            (match link c with None => back_node | Some _ => rear q end))
            | None =>
                m2 ← free l m;
                Some (m2, mkQueue (u64 (count q - 1)) (minimum q) (delete_front q)
                            (link c) (rear q))
            end
          else RemoveVersion_loop fuel' version m q (link c) current_node
      end
  end.

Definition RemoveVersion (m : mem Z) (q : Queue) (version : Z) : option (mem Z * Queue) :=
  if (count q =? 0)%Z then Some (m, q)
  else RemoveVersion_loop (S (brk m)) version m q (front q) None.

(** The parameter is an [int]: the caller's [uint64_t] is first truncated to
    32 bits, and widened again by the store into the node. *)
Definition AddRear (m : mem Z) (q : Queue) (version : Z) : option (mem Z * Queue) :=
  let (node, m') := malloc (Cell (u64 (s32 version)) None) m in
  if (count q =? 0)%Z then
    Some (m', mkQueue (u64 (count q + 1)) (minimum q) (delete_front q) (Some node) (Some node))
  else
    m'' ← set_link (rear q) (Some node) m';
    Some (m'', mkQueue (u64 (count q + 1)) (minimum q) (delete_front q) (front q) (Some node)).

Fixpoint Destroy_loop (fuel : nat) (m : mem Z) (q : Queue) : option (mem Z * Queue) :=
  match fuel with
  | O => None
  | S fuel' =>
      if negb (count q =? 0)%Z then
        '(m', q') ← RemoveFront m q;
        Destroy_loop fuel' m' q'
      else Some (m, q)
  end.

(** The nodes are freed; the [Queue] block itself goes with the record. *)
Definition DestroyQueue (m : mem Z) (q : Queue) : option (mem Z) :=
  '(m', _) ← Destroy_loop (S (brk m)) m q;
  Some m'.

(** *** The sequence of versions a queue holds *)

Definition queue_shape (m : mem Z) (q : Queue) (xs : list (loc * Z)) : Prop :=
  wf_mem m /\ chain m (front q) xs /\ count q = Z.of_nat (length xs) /\
  (xs <> [] -> rear q = last xs.*1) /\ (Z.of_nat (length xs) < 2 ^ 64)%Z.

Definition queue_rep (m : mem Z) (q : Queue) (vs : list Z) : Prop :=
  exists xs, queue_shape m q xs /\ xs.*2 = vs.

Lemma shape_count_zero m q xs : queue_shape m q xs -> (count q =? 0)%Z = true -> xs = [].
Proof. intros (_ & _ & Hc & _) H%Z.eqb_eq. destruct xs; [done|]. simpl in Hc. lia. Qed.

Lemma shape_count_nonzero m q xs : queue_shape m q xs -> (count q =? 0)%Z = false -> xs <> [].
Proof. intros (_ & _ & Hc & _) H%Z.eqb_neq ->. by simpl in Hc. Qed.

Lemma CreateQueue_rep m raw : wf_mem m -> queue_rep m (CreateQueue raw) [].
Proof. intros Hwf. exists []. split; [|done]. by split_and!. Qed.

(** [AddRear] appends to the queue the 32-bit truncation of the version
    it is given, and keeps [minimum] and [delete_front]. *)
Theorem AddRear_correct m q vs v :
  queue_rep m q vs -> (Z.of_nat (length vs) + 1 < 2 ^ 64)%Z ->
  exists m' q', AddRear m q v = Some (m', q') /\
    queue_rep m' q' (vs ++ [u64 (s32 v)]) /\
    minimum q' = minimum q /\ delete_front q' = delete_front q.
Proof.
  intros (xs & Hs & <-) Hlen. rewrite length_fmap in Hlen. unfold AddRear. simpl.
  set (new := brk m). set (nv := u64 (s32 v)).
  assert (u64 (count q + 1) = Z.of_nat (length (xs ++ [(new, nv)])))%Z as Hcnt.
  { destruct Hs as (_ & _ & -> & _). rewrite length_app. simpl.
    rewrite u64_small; lia. }
  destruct (count q =? 0)%Z eqn:E0.
  - rewrite (shape_count_zero m q xs Hs E0) in *. simpl in *. do 2 eexists. split; [done|].
    split; [|done]. exists [(new, nv)]. split; [|done]. destruct Hs as (Hwf & _).
    split_and!; simpl; try done.
    + by apply (malloc_wf m).
    + unfold chain. simpl. rewrite lookup_insert_eq. eauto.
  - pose proof (shape_count_nonzero m q xs Hs E0) as Hne.
    destruct Hs as (Hwf & Hc & Hcount & Hrear & Hlt).
    destruct (exists_last Hne) as (xs0 & [pl pa] & ->).
    rewrite Hrear in * by done. rewrite fmap_app. simpl. rewrite last_snoc.
    pose proof (lseg_wf_fresh _ _ _ _ Hwf Hc) as Hfresh.
    rewrite fmap_app in Hfresh. simpl in Hfresh.
    pose proof (chain_NoDup _ _ _ Hc) as Hnd. rewrite fmap_app in Hnd.
    apply NoDup_app in Hnd as (_ & Hdis & _).
    unfold chain in Hc. apply lseg_app in Hc as (r & H1 & (-> & nx & Hpl & ->)).
    assert (pl <> new) as Hpn by set_solver.
    unfold set_link. simpl. rewrite lookup_insert_ne by done. rewrite Hpl. simpl.
    do 2 eexists. split; [done|]. split; [|done].
    exists ((xs0 ++ [(pl, pa)]) ++ [(new, nv)]). split; [|by rewrite fmap_app].
    split_and!; simpl.
    + intros l c. simpl. rewrite !lookup_insert. repeat case_decide; subst; simplify_eq; try lia.
      * specialize (Hwf _ _ Hpl). intros. lia.
      * intros Hlt2%Hwf. lia.
    + unfold chain. simpl. rewrite <- app_assoc. apply lseg_app. exists (Some pl). split.
      * apply lseg_insert_fresh; [set_solver|]. apply lseg_insert_fresh; [set_solver|done].
      * simpl. split; [done|]. exists (Some new). rewrite lookup_insert_eq. split; [done|].
        split; [done|]. exists None. rewrite lookup_insert_ne by done. by rewrite lookup_insert_eq.
    + done.
    + intros _. rewrite fmap_app. simpl. by rewrite last_snoc.
    + rewrite !length_app in *. simpl in *. lia.
Qed.

Lemma free_some (m : mem Z) l c :
  cells m !! l = Some c -> free l m = Some (Mem (delete l (cells m)) (brk m)).
Proof. intros H. unfold free. by rewrite H. Qed.

Lemma RemoveFront_shape m q l v xs :
  queue_shape m q ((l, v) :: xs) ->
  exists m' q', RemoveFront m q = Some (m', q') /\ queue_shape m' q' xs /\
    cells m' = delete l (cells m) /\ brk m' = brk m /\
    minimum q' = minimum q /\ delete_front q' = delete_front q.
Proof.
  intros (Hwf & Hc & Hcount & Hrear & Hlt). unfold RemoveFront.
  destruct (Z.eqb_spec (count q) 0) as [Hz|_]; [simpl in Hcount; lia|].
  pose proof Hc as (Hfr & nx & Hl & _). rewrite Hfr. simpl. rewrite Hl. simpl.
  pose proof (free_some m l _ Hl) as Hf. rewrite Hf. simpl. do 2 eexists. split; [done|].
  unfold queue_shape. split_and!; simpl; try done.
  - by eapply free_wf.
  - by eapply free_head_chain.
  - simpl in *. rewrite u64_small; lia.
  - intros Hne. rewrite Hrear by done. destruct xs; [done|]. done.
  - simpl in Hlt. lia.
Qed.

(** [RemoveFront] takes the oldest version out of a non-empty queue, and
    does nothing to an empty one. *)
Theorem RemoveFront_correct m q vs :
  queue_rep m q vs ->
  exists m' q', RemoveFront m q = Some (m', q') /\ queue_rep m' q' (tail vs) /\
    minimum q' = minimum q /\ delete_front q' = delete_front q /\
    (vs = [] -> m' = m /\ q' = q).
Proof.
  intros (xs & Hs & <-). destruct xs as [|[l v] xs].
  - pose proof Hs as (_ & _ & Hc & _). unfold RemoveFront. rewrite Hc. simpl.
    exists m, q. split_and!; try done. by exists [].
  - destruct (RemoveFront_shape m q l v xs Hs) as (m' & q' & E & Hs' & _ & _ & ? & ?).
    exists m', q'. split_and!; try done. by exists xs.
Qed.

Definition is_version (version : Z) (v : Z) : bool := (v =? version)%Z.

(** The loop of [RemoveVersion], with [pl] the last node passed. *)
Lemma remove_version_loop_rep fuel version m q xs1 pl pv xs2 cur :
  queue_shape m q (xs1 ++ (pl, pv) :: xs2) ->
  chain m cur xs2 -> length xs2 < fuel ->
  exists m' q' ys, RemoveVersion_loop fuel version m q cur (Some pl) = Some (m', q') /\
    queue_shape m' q' ys /\ ys.*2 = xs1.*2 ++ pv :: remove_first (is_version version) xs2.*2 /\
    minimum q' = minimum q /\ delete_front q' = delete_front q.
Proof.
  revert xs1 pl pv xs2 cur.
  induction fuel as [|fuel IH]; intros xs1 pl pv xs2 cur Hs Hc Hf; [lia|]. simpl.
  destruct xs2 as [|[l v] xs2].
  - rewrite Hc. exists m, q, (xs1 ++ [(pl, pv)]). split_and!; try done. by rewrite fmap_app.
  - pose proof Hc as (-> & nx & Hl & Hxs2). rewrite Hl. simpl. unfold is_version at 1.
    destruct (Z.eqb_spec v version) as [Hv|Hv].
    + destruct Hs as (Hwf & Hall & Hcount & Hrear & Hlt).
      destruct (lseg_lookup _ _ _ _ pl pv Hall) as (nx' & Hpl); [set_solver|].
      assert (pl <> l) as Hne.
      { pose proof (chain_NoDup _ _ _ Hall) as Hnd. rewrite fmap_app, !fmap_cons in Hnd.
        apply NoDup_app in Hnd as (_ & _ & [Hn _]%NoDup_cons). simpl in Hn. set_solver. }
      assert (exists m1, set_link (Some pl) nx m = Some m1) as [m1 Hm1]
        by (unfold set_link; rewrite Hpl; eauto).
      assert (exists m2, free l m1 = Some m2) as [m2 Hm2].
      { unfold set_link in Hm1. rewrite Hpl in Hm1. simplify_eq.
        unfold free. simpl. rewrite lookup_insert_ne by done. rewrite Hl. eauto. }
      rewrite Hm1. simpl. rewrite Hm2. simpl.
      exists m2. eexists. exists (xs1 ++ (pl, pv) :: xs2). split_and!; [done| |..]; try done.
      2:{ by rewrite fmap_app. }
      rewrite !length_app in *. simpl in *.
      split_and!; simpl; eauto with mc.
      * by eapply unlink_chain.
      * rewrite length_app. simpl. rewrite u64_small; lia.
      * intros _. rewrite fmap_app. simpl.
        specialize (Hrear ltac:(intros H; by apply app_eq_nil in H as [_ ?])).
        rewrite fmap_app in Hrear. simpl in Hrear.
        destruct xs2 as [|[l2 v2] xs2].
        -- rewrite Hxs2. simpl. by rewrite last_snoc.
        -- destruct Hxs2 as (-> & _). rewrite Hrear. simpl.
           by rewrite !last_app_cons, !last_cons_cons.
      * rewrite length_app. simpl. lia.
    + destruct (IH (xs1 ++ [(pl, pv)]) l v xs2 nx) as (m' & q' & ys & E & Hs' & Hys & Hmd).
      * by rewrite <- app_assoc.
      * done.
      * simpl in Hf. lia.
      * exists m', q', ys. split_and!; try done; [|apply Hmd..].
        rewrite Hys, fmap_app, <- app_assoc. done.
Qed.

(** [RemoveVersion] terminates without a bad access and removes the first
    node with the given version, wherever it stands in the queue, keeping the
    rear pointer and the count right. *)
Theorem RemoveVersion_correct m q vs version :
  queue_rep m q vs ->
  exists m' q', RemoveVersion m q version = Some (m', q') /\
    queue_rep m' q' (remove_first (is_version version) vs) /\
    minimum q' = minimum q /\ delete_front q' = delete_front q.
Proof.
  intros (xs & Hs & <-). unfold RemoveVersion. destruct xs as [|[l v] xs].
  - pose proof Hs as (_ & _ & -> & _). simpl. exists m, q. split_and!; try done. by exists [].
  - pose proof Hs as (Hwf & Hc & Hcount & Hrear & Hlt).
    pose proof (chain_length _ _ _ Hwf Hc) as Hlen. simpl in Hlen.
    destruct (Z.eqb_spec (count q) 0) as [Hz|_]; [simpl in Hcount; lia|].
    pose proof Hc as (Hfr & nx & Hl & Hxs). simpl. rewrite Hfr, Hl. simpl.
    unfold is_version at 1. destruct (Z.eqb_spec v version) as [Hv|Hv].
    + rewrite (free_some _ _ _ Hl). simpl. do 2 eexists. split; [done|]. split; [|done].
      exists xs. split; [|done]. split_and!; simpl in *.
      * eapply free_wf; [exact Hwf|by eapply free_some].
      * eapply free_head_chain; [exact Hc|exact Hl|by eapply free_some].
      * rewrite u64_small; lia.
      * intros Hne. rewrite Hrear by done. by destruct xs.
      * lia.
    + destruct (remove_version_loop_rep (brk m) version m q [] l v xs nx)
        as (m' & q' & ys & -> & Hs' & Hys & ? & ?); [done..|lia|].
      exists m', q'. split_and!; try done. exists ys. by rewrite Hys.
Qed.

Lemma destroy_loop_rep fuel m q xs :
  queue_shape m q xs -> length xs < fuel ->
  exists m' q', Destroy_loop fuel m q = Some (m', q') /\
    forall l, cells m' !! l = if decide (l ∈ xs.*1) then None else cells m !! l.
Proof.
  revert m q xs. induction fuel as [|fuel IH]; intros m q xs Hs Hf; [lia|]. simpl.
  destruct xs as [|[l v] xs].
  - pose proof Hs as (_ & _ & -> & _). simpl. exists m, q. split; [done|].
    by intros l.
  - pose proof Hs as (_ & _ & Hcount & _).
    destruct (Z.eqb_spec (count q) 0) as [Hz|_]; [simpl in Hcount; lia|]. simpl.
    destruct (RemoveFront_shape m q l v xs Hs) as (m1 & q1 & -> & Hs1 & Hcells & _). simpl.
    destruct (IH m1 q1 xs Hs1) as (m' & q' & -> & Hm'); [simpl in Hf; lia|].
    exists m', q'. split; [done|]. intros l'. rewrite Hm', Hcells. apply delete_decide.
Qed.

(** [DestroyQueue] terminates and frees exactly the nodes of the queue. *)
Theorem DestroyQueue_frees_all m q xs :
  queue_shape m q xs ->
  exists m', DestroyQueue m q = Some m' /\
    forall l, cells m' !! l = if decide (l ∈ xs.*1) then None else cells m !! l.
Proof.
  intros Hs. unfold DestroyQueue.
  destruct (destroy_loop_rep (S (brk m)) m q xs Hs) as (m' & q' & -> & H); [|by exists m'].
  destruct Hs as (Hwf & Hc & _). pose proof (chain_length _ _ _ Hwf Hc). lia.
Qed.

Definition one_entry : option (mem Z * Queue) :=
  AddRear empty_mem (CreateQueue (mkQueue 0 0 0 None None)) 7.

Lemma DestroyQueue_frees_all_witness :
  exists m q m', one_entry = Some (m, q) /\ DestroyQueue m q = Some m' /\
    cells m !! 0%nat = Some (Cell 7%Z None) /\ cells m' !! 0%nat = None.
Proof.
  eexists _, _.
  destruct (DestroyQueue_frees_all (Mem {[ 0%nat := Cell 7%Z None ]} 1)
    (mkQueue 1 0 0 (Some 0%nat) (Some 0%nat)) [(0%nat, 7%Z)]) as (m' & E & H).
  - split_and!; try reflexivity.
    + intros l c. simpl. rewrite lookup_singleton_Some. lia.
    + simpl. split; [reflexivity|]. exists None. split; reflexivity.
  - exists m'. split; [reflexivity|]. split; [exact E|]. split; [reflexivity|].
    etransitivity; [apply (H 0%nat)|reflexivity].
Defined.
(** The version a queue node stores equals the version it was given exactly
    below [2^31]. *)
Lemma truncation_exact v :
  (0 <= v < 2 ^ 64 - 2 ^ 31)%Z -> u64 (s32 v) = v <-> (v < 2 ^ 31)%Z.
Proof.
  intros Hv. split.
  - unfold u64, wrap_u. intros E. pose proof (s32_range v). unfold INT_MIN, INT_MAX in *.
    pose proof (Z.div_mod (s32 v) (2 ^ 64) ltac:(lia)) as Hdm. rewrite E in Hdm. nia.
  - intros H. rewrite s32_small, u64_small; unfold INT_MIN, INT_MAX; lia.
Qed.

Lemma remove_first_absent (P : Z -> bool) xs ys :
  existsb P xs = false -> remove_first P (xs ++ ys) = xs ++ remove_first P ys.
Proof.
  induction xs as [|x xs IH]; [done|]; simpl. destruct (P x); [done|]. simpl.
  intros H. by rewrite IH.
Qed.

(** queueing a version that is not queued and removing it gives the queue
    back below [2^31]; from [2^31] on the [int] parameter of [AddRear] changes
    the version that is stored, [RemoveVersion] does not find it, and the entry
    stays in the queue. *)
Theorem add_remove_version m q vs v :
  queue_rep m q vs -> (Z.of_nat (length vs) + 1 < 2 ^ 64)%Z ->
  existsb (is_version v) vs = false -> (0 <= v < 2 ^ 64 - 2 ^ 31)%Z ->
  exists m1 q1 m2 q2, AddRear m q v = Some (m1, q1) /\ RemoveVersion m1 q1 v = Some (m2, q2) /\
    queue_rep m2 q2 (if (v <? 2 ^ 31)%Z then vs else vs ++ [u64 (s32 v)]).
Proof.
  intros Hq Hlen Hnew Hv. destruct (AddRear_correct m q vs v Hq Hlen) as (m1 & q1 & E1 & Hq1 & _).
  destruct (RemoveVersion_correct m1 q1 _ v Hq1) as (m2 & q2 & E2 & Hq2 & _).
  exists m1, q1, m2, q2. split_and!; try done.
  rewrite (remove_first_absent _ _ _ Hnew) in Hq2. pose proof (truncation_exact v Hv) as Hex.
  unfold is_version in Hq2. cbn [remove_first] in Hq2.
  destruct (Z.ltb_spec v (2 ^ 31)), (Z.eqb_spec (u64 (s32 v)) v); try tauto; try lia.
  by rewrite app_nil_r in Hq2.
Qed.

Lemma add_remove_version_witness :
  exists m1 q1 m2 q2,
    AddRear empty_mem (CreateQueue (mkQueue 0 0 0 None None)) (2 ^ 31) = Some (m1, q1) /\
    RemoveVersion m1 q1 (2 ^ 31) = Some (m2, q2) /\ queue_rep m2 q2 [u64 (s32 (2 ^ 31))].
Proof.
  apply (add_remove_version empty_mem (CreateQueue (mkQueue 0 0 0 None None)) [] (2 ^ 31)).
  - apply CreateQueue_rep. intros l c. simpl. by rewrite lookup_empty.
  - reflexivity.
  - reflexivity.
  - lia.
Defined.
End GQueue.
