(* ===== verification/Mvcc.v ===== *)
(** * The multi-version store of Project2 ([src/Project2/src/Project2.cpp])

    [ThreadFunc] (lines 503-611) run by [g_num_thread] updaters beside
    [ThreadGarvageCollectionFunc] (lines 614-642).  A step is one access to
    shared memory outside the mutex, or one whole critical section: the data
    the sections touch (active list, queues, counter) is only accessed under
    [g_mutex], except for [minimum], which a section stores at most once and
    the collector reads in one access.  The active list and the queues are
    plain lists here; [MvccRefine] shows that the heap-level code refines
    them.  The version lists stay on the heap, since a reader walks them while
    the collector cuts and frees them: [None] is undefined behaviour (a null
    or dangling dereference).  The sums and differences of [A] and [B] are
    taken to wrap around on overflow, which C++ leaves undefined. *)

From S2P Require Import Prelude LinkedHeap VersionLists.

Local Open Scope Z_scope.

Module Mvcc.
Import Active.

(** Struct [SinglyNode] without its [link], which the store keeps. *)
Record SinglyNode := mkSingly { A : Z; B : Z; sversion : Z }.

(** The part of struct [Queue] the algorithm depends on. *)
Record queue := mkQ { qitems : list Z; qminimum : Z; qdelete_front : Z }.

(** The local variables of one round of [ThreadFunc]. *)
Record locals := mkLocals {
  current_version : Z;
  picked_thread_index : nat;
  is_thread_active : bool;
  active_thread_version : Z;
  cursor_singly_node : option loc;
  my_A : Z;
  my_B : Z
}.

Inductive tstate :=
| TTop                    (* head of the outer loop, lines 509-523 *)
| TPicked (picked : nat)  (* before the first critical section, line 532 *)
| TReadHead (L : locals)  (* line 558 *)
| TReadMine (L : locals)  (* lines 560-561 *)
| TWalk (L : locals)      (* lines 563-568 *)
| TAddA (L : locals)      (* lines 569, 573 *)
| TAddB (L : locals)      (* lines 570, 574 *)
| TInsert (L : locals)    (* line 576 *)
| TEnd (L : locals)       (* before the second critical section, line 579 *)
| TStat                   (* lines 606-608 *)
| TDone.

Inductive gstate :=
| GTop                                                    (* line 615 *)
| GLoop (i : nat)                                         (* lines 619-622 *)
| GHead (i : nat) (min : Z)                               (* line 623 *)
| GCheck (i : nat) (min : Z) (tmp back : option loc) (delete_flag : bool)   (* 625-629 *)
| GAdvance (i : nat) (min : Z) (tmp : loc) (delete_flag : bool)             (* 630-632 *)
| GFree (i : nat) (min : Z) (tmp : option loc) (back : loc)                 (* 633-635 *)
| GDone.

Record state := mkState {
  g_atomic_counter : Z;
  g_active_list : list ActiveNode;
  arena : nat -> mem SinglyNode;          (* the nodes of list i are in arena i *)
  g_singly_list : nat -> option loc;
  g_queue : nat -> queue;
  g_thread_throughput : nat -> Z;
  g_could_thread_run : bool;
  g_is_verbosing : bool;
  thread : nat -> tstate;
  collector : gstate
}.

(** *** Field updates *)

Definition set_thread (i : nat) (t : tstate) (s : state) : state :=
  mkState (g_atomic_counter s) (g_active_list s) (arena s) (g_singly_list s) (g_queue s)
    (g_thread_throughput s) (g_could_thread_run s) (g_is_verbosing s) (upd (thread s) i t)
    (collector s).

Definition set_collector (g : gstate) (s : state) : state :=
  mkState (g_atomic_counter s) (g_active_list s) (arena s) (g_singly_list s) (g_queue s)
    (g_thread_throughput s) (g_could_thread_run s) (g_is_verbosing s) (thread s) g.

Definition set_arena (i : nat) (m : mem SinglyNode) (s : state) : state :=
  mkState (g_atomic_counter s) (g_active_list s) (upd (arena s) i m) (g_singly_list s)
    (g_queue s) (g_thread_throughput s) (g_could_thread_run s) (g_is_verbosing s) (thread s)
    (collector s).

Definition set_singly (i : nat) (p : option loc) (s : state) : state :=
  mkState (g_atomic_counter s) (g_active_list s) (arena s) (upd (g_singly_list s) i p)
    (g_queue s) (g_thread_throughput s) (g_could_thread_run s) (g_is_verbosing s) (thread s)
    (collector s).

Definition set_active (l : list ActiveNode) (s : state) : state :=
  mkState (g_atomic_counter s) l (arena s) (g_singly_list s)
    (g_queue s) (g_thread_throughput s) (g_could_thread_run s) (g_is_verbosing s) (thread s)
    (collector s).

Definition set_counter (c : Z) (s : state) : state :=
  mkState c (g_active_list s) (arena s) (g_singly_list s)
    (g_queue s) (g_thread_throughput s) (g_could_thread_run s) (g_is_verbosing s) (thread s)
    (collector s).

Definition set_queue (p : nat) (q : queue) (s : state) : state :=
  mkState (g_atomic_counter s) (g_active_list s) (arena s) (g_singly_list s)
    (upd (g_queue s) p q) (g_thread_throughput s) (g_could_thread_run s) (g_is_verbosing s)
    (thread s) (collector s).

Definition set_throughput (i : nat) (v : Z) (s : state) : state :=
  mkState (g_atomic_counter s) (g_active_list s) (arena s) (g_singly_list s)
    (g_queue s) (upd (g_thread_throughput s) i v) (g_could_thread_run s) (g_is_verbosing s)
    (thread s) (collector s).

(** *** The operations *)

(** [InsertSinglyList] (lines 399-408). *)
Definition InsertSinglyList (i : nat) (a b version : Z) (s : state) : state :=
  let (node, m) := malloc (Cell (mkSingly a b version) (g_singly_list s i)) (arena s i) in
  set_singly i (Some node) (set_arena i m s).

Definition cursor_to (L : locals) (c : option loc) : locals :=
  mkLocals (current_version L) (picked_thread_index L) (is_thread_active L)
    (active_thread_version L) c (my_A L) (my_B L).

Definition with_mine (L : locals) (a b : Z) : locals :=
  mkLocals (current_version L) (picked_thread_index L) (is_thread_active L)
    (active_thread_version L) (cursor_singly_node L) a b.

(** The first critical section, lines 534-548.  The snapshot lists the active
    nodes in reverse order, and its first node of the picked thread counts. *)
Definition find_active (p : nat) (capture : list ActiveNode) : option ActiveNode :=
  List.find (has_index p) capture.

Definition begin_update (i p : nat) (s : state) : state * locals :=
  let cv := u64 (g_atomic_counter s + 1) in
  let active := mkActive i cv :: g_active_list s in
  let s1 := set_active active (set_counter cv s) in
  let capture := reverse active in
  match find_active p capture with
  | Some node =>
      let q := g_queue s p in
      (set_queue p (mkQ (qitems q ++ [u64 (s32 (version node))]) (qminimum q) (qdelete_front q)) s1,
       mkLocals cv p true (version node) None 0 0)
  | None => (s1, mkLocals cv p false 0 None 0 0)
  end.

(** The bookkeeping of the queue in the second critical section, lines
    583-600; [None] is the dereference of a null [front]. *)
Definition finish_queue (v : Z) (q : queue) : option queue :=
  match qitems q with
  | [] => None
  | f :: rest =>
      if f =? v then
        let min' :=
          match rest with
          | f' :: _ => if negb (f' =? v) then v else qminimum q
          | [] => if negb (qdelete_front q =? v) then qdelete_front q else qminimum q
          end in
        Some (mkQ rest min' v)
      else Some (mkQ (remove_first (GQueue.is_version v) (qitems q)) (qminimum q) (qdelete_front q))
  end.

(** The second critical section, lines 581-601. *)
Definition end_update (i : nat) (L : locals) (s : state) : option state :=
  let s1 := set_active (remove_first (has_index i) (g_active_list s)) s in
  if is_thread_active L then
    let p := picked_thread_index L in
    q' ← finish_queue (active_thread_version L) (g_queue s p);
    Some (set_queue p q' s1)
  else Some s1.

Section threads.
Context (g_num_thread : nat).

(** One step of [ThreadFunc] for thread [i]; [r] is the value [rand()]
    returns when the step calls it. *)
Definition ThreadFunc_step (i : nat) (r : nat) (s : state) : option state :=
  match thread s i with
  | TTop =>
      if g_could_thread_run s then
        if g_is_verbosing s then Some s
        else
          let picked := (r mod g_num_thread)%nat in
          if negb (picked =? i)%nat then Some (set_thread i (TPicked picked) s) else Some s
      else Some (set_thread i TDone s)
  | TPicked p =>
      let (s', L) := begin_update i p s in Some (set_thread i (TReadHead L) s')
  | TReadHead L =>
      Some (set_thread i
        (TReadMine (cursor_to L (g_singly_list s (picked_thread_index L)))) s)
  | TReadMine L =>
      mine ← deref (g_singly_list s i) (arena s i);
      let L' := with_mine L (A (payload mine)) (B (payload mine)) in
      Some (set_thread i (if is_thread_active L then TWalk L' else TAddA L') s)
  | TWalk L =>
      c ← deref (cursor_singly_node L) (arena s (picked_thread_index L));
      if sversion (payload c) <? active_thread_version L
      then Some (set_thread i (TAddA L) s)
      else Some (set_thread i (TWalk (cursor_to L (link c))) s)
  | TAddA L =>
      c ← deref (cursor_singly_node L) (arena s (picked_thread_index L));
      Some (set_thread i
        (TAddB (with_mine L (s32 (my_A L + Z.rem (A (payload c)) 100)) (my_B L))) s)
  | TAddB L =>
      c ← deref (cursor_singly_node L) (arena s (picked_thread_index L));
      Some (set_thread i
        (TInsert (with_mine L (my_A L) (s32 (my_B L - Z.rem (A (payload c)) 100)))) s)
  | TInsert L =>
      Some (set_thread i (TEnd L) (InsertSinglyList i (my_A L) (my_B L) (current_version L) s))
  | TEnd L =>
      s' ← end_update i L s;
      Some (set_thread i TStat s')
  | TStat =>
      Some (set_thread i TTop (set_throughput i (u64 (g_thread_throughput s i + 1)) s))
  | TDone => Some s
  end.

(** One step of [ThreadGarvageCollectionFunc]. *)
Definition Garvage_step (s : state) : option state :=
  match collector s with
  | GTop =>
      if g_could_thread_run s then
        if g_is_verbosing s then Some s else Some (set_collector (GLoop 0) s)
      else Some (set_collector GDone s)
  | GLoop i =>
      if (i <? g_num_thread)%nat
      then Some (set_collector (GHead i (qminimum (g_queue s i))) s)
      else Some (set_collector GTop s)
  | GHead i min => Some (set_collector (GCheck i min (g_singly_list s i) None false) s)
  | GCheck i min None _ _ => Some (set_collector (GLoop (S i)) s)
  | GCheck i min (Some t) back delete_flag =>
      c ← cells (arena s i) !! t;
      if negb delete_flag && (sversion (payload c) <? min) then
        m ← set_link back None (arena s i);
        Some (set_collector (GAdvance i min t true) (set_arena i m s))
      else Some (set_collector (GAdvance i min t delete_flag) s)
  | GAdvance i min t delete_flag =>
      c ← cells (arena s i) !! t;
      Some (set_collector
        (if delete_flag then GFree i min (link c) t
         else GCheck i min (link c) (Some t) false) s)
  | GFree i min tmp back =>
      m ← free back (arena s i);
      Some (set_collector (GCheck i min tmp (Some back) true) (set_arena i m s))
  | GDone => Some s
  end.

(** The main thread raises and clears the two flags (lines 242-279). *)
Inductive event :=
| EvThread (i r : nat)
| EvCollector
| EvVerbose (b : bool)
| EvStop.

Definition exec (e : event) (s : state) : option state :=
  match e with
  | EvThread i r => if (i <? g_num_thread)%nat then ThreadFunc_step i r s else Some s
  | EvCollector => Garvage_step s
  | EvVerbose b =>
      Some (mkState (g_atomic_counter s) (g_active_list s) (arena s) (g_singly_list s)
        (g_queue s) (g_thread_throughput s) (g_could_thread_run s) b (thread s) (collector s))
  | EvStop =>
      Some (mkState (g_atomic_counter s) (g_active_list s) (arena s) (g_singly_list s)
        (g_queue s) (g_thread_throughput s) false (g_is_verbosing s) (thread s) (collector s))
  end.

Inductive step (s s' : state) : Prop :=
| step_event e : exec e s = Some s' -> step s s'.

Fixpoint run (es : list event) (s : state) : option state :=
  match es with
  | [] => Some s
  | e :: es' => exec e s ≫= run es'
  end.

Lemma mvcc_run_rtc es s s' : run es s = Some s' -> rtc step s s'.
Proof.
  revert s. induction es as [|e es IH]; intros s H; simplify_eq/=; [done|].
  apply bind_Some in H as (s1 & H1 & H2).
  eapply rtc_l; [by econstructor|by apply IH].
Qed.
End threads.
End Mvcc.
