(* ===== verification/MvccInv.v ===== *)
(** * The invariant of the multi-version store

    What every interleaving of the updaters and the collector of [Mvcc]
    maintains: the shape of the version lists, the order of the queues, the
    agreement of the active list with the program counters, where the cursors
    of the registered readers stand, and what the collector may cut. *)

From S2P Require Import Prelude LinkedHeap VersionLists Mvcc.

Local Open Scope Z_scope.
Local Set Default Proof Using "Type".

Module MvccInv.
Import Active Mvcc.

Abbreviation node := (loc * SinglyNode)%type.

Definition vers (xs : list node) : list Z := (fun x => sversion x.2) <$> xs.

(** ** What a program counter says of its thread *)

Definition t_locals (t : tstate) : option locals :=
  match t with
  | TReadHead L | TReadMine L | TWalk L | TAddA L | TAddB L | TInsert L | TEnd L => Some L
  | _ => None
  end.

(** The thread is in the active list, with this version. *)
Definition active_version (t : tstate) : option Z := current_version <$> t_locals t.

(** The update has been published and the thread is about to leave. *)
Definition inserted (t : tstate) : bool := match t with TEnd _ => true | _ => false end.

(** The entry of the thread in the queue of the list it reads. *)
Definition registered (t : tstate) : option (nat * Z) :=
  L ← t_locals t;
  if is_thread_active L then Some (picked_thread_index L, active_thread_version L) else None.

Definition waits_on (p : nat) (t : tstate) : option Z :=
  '(p', w) ← registered t;
  if decide (p' = p) then Some w else None.

Section threads.
Context (n : nat) (S0 : nat -> Z).
Implicit Types (s : state) (X : nat -> list node).

(** The versions the readers of list [p] are entitled to. *)
Definition pending (th : nat -> tstate) (p : nat) : list Z :=
  omap (fun r => waits_on p (th r)) (seq 0 n).

(** ** The parts of the invariant *)

Definition same_sum (i : nat) (a b : Z) : Prop := (a + b) mod 2 ^ 32 = S0 i mod 2 ^ 32.

Record list_ok s (p : nat) (xs : list node) : Prop := ListOk {
  lk_wf : wf_mem (arena s p);
  lk_chain : chain (arena s p) (g_singly_list s p) xs;
  lk_sorted : StronglySorted Z.gt (vers xs);
  lk_range : Forall (fun v => 0 <= v <= g_atomic_counter s) (vers xs);
  lk_active cv : active_version (thread s p) = Some cv ->
    if inserted (thread s p) then cv ∈ vers xs /\ Forall (fun v => v <= cv) (vers xs)
    else Forall (fun v => v < cv) (vers xs);
  lk_sum : exists l a xs', xs = (l, a) :: xs' /\ same_sum p (A a) (B a)
}.

(** [vs] are the versions in the list of the queue, [av] the version its
    thread is active with.  [qminimum] is the collector's bound. *)
Record queue_facts (vs : list Z) (av : option Z) (q : queue) : Prop := QueueFacts {
  qk_min_in : qminimum q ∈ vs;
  qk_sorted : StronglySorted Z.le (qitems q);
  qk_min : Forall (fun v => qminimum q < v) (qitems q);
  qk_df_min : qminimum q <= qdelete_front q;
  qk_df : Forall (fun v => qdelete_front q <= v) (qitems q);
  qk_known v : v ∈ qdelete_front q :: qitems q -> v ∈ vs \/ av = Some v;
  qk_min_active cv : av = Some cv -> qminimum q < cv
}.

Record queue_ok s (p : nat) (xs : list node) : Prop := QueueOk {
  qk_facts : queue_facts (vers xs) (active_version (thread s p)) (g_queue s p);
  qk_pending : qitems (g_queue s p) ≡ₚ pending (thread s) p
}.

Record active_ok s : Prop := ActiveOk {
  ak_NoDup : NoDup (index_thread <$> g_active_list s);
  ak_iff i v : mkActive i v ∈ g_active_list s <->
    (i < n)%nat /\ active_version (thread s i) = Some v;
  ak_range i v : (i < n)%nat -> active_version (thread s i) = Some v ->
    0 < v <= g_atomic_counter s
}.

(** The cursor of a registered reader stands on a live node, and no node of
    the list it may still need is newer than that one. *)
Definition cursor_ok X (L : locals) : Prop :=
  is_thread_active L = true ->
  exists l a, cursor_singly_node L = Some l /\ (l, a) ∈ X (picked_thread_index L) /\
    forall v, v ∈ vers (X (picked_thread_index L)) ->
      v < active_thread_version L -> v <= sversion a.

Definition picks (i : nat) (L : locals) : Prop :=
  (picked_thread_index L < n)%nat /\ picked_thread_index L <> i.

Definition thread_ok s X (i : nat) (t : tstate) : Prop :=
  match t with
  | TPicked p => (p < n)%nat /\ p <> i
  | TReadHead L | TEnd L => picks i L
  | TReadMine L => picks i L /\ cursor_ok X L
  | TWalk L => picks i L /\ is_thread_active L = true /\ cursor_ok X L /\
      same_sum i (my_A L) (my_B L)
  | TAddA L => picks i L /\ cursor_ok X L /\ same_sum i (my_A L) (my_B L)
  | TAddB L => picks i L /\ cursor_ok X L /\
      exists l, cursor_singly_node L = Some l /\ (l < brk (arena s (picked_thread_index L)))%nat /\
        forall c, cells (arena s (picked_thread_index L)) !! l = Some c ->
          same_sum i (my_A L) (my_B L - Z.rem (A (payload c)) 100)
  | TInsert L => picks i L /\ same_sum i (my_A L) (my_B L)
  | TTop | TStat | TDone => True
  end.

(** Before the cut the collector walks the live list, past nodes it must
    keep; after it, it owns the part that was cut off. *)
Definition gc_ok s X : Prop :=
  match collector s with
  | GTop | GLoop _ | GDone => True
  | GHead i min => (i < n)%nat /\ min <= qminimum (g_queue s i)
  | GCheck i min tmp back false =>
      (i < n)%nat /\ min <= qminimum (g_queue s i) /\
      exists xs1 xs2, X i = xs1 ++ xs2 /\ chain (arena s i) tmp xs2 /\
        match back with
        | None => exists l a xs', xs2 = (l, a) :: xs' /\ min <= sversion a
        | Some b => exists a xs1', xs1 = xs1' ++ [(b, a)]
        end
  | GAdvance i min t false =>
      (i < n)%nat /\ min <= qminimum (g_queue s i) /\
      exists xs1 a xs2, X i = xs1 ++ (t, a) :: xs2
  | GCheck i min tmp back true =>
      (i < n)%nat /\ exists D, chain (arena s i) tmp D /\
        forall l, l ∈ D.*1 -> l ∉ (X i).*1
  | GAdvance i min t true =>
      (i < n)%nat /\ exists a D, chain (arena s i) (Some t) ((t, a) :: D) /\
        forall l, l ∈ t :: D.*1 -> l ∉ (X i).*1
  | GFree i min tmp b =>
      (i < n)%nat /\ exists D, chain (arena s i) tmp D /\ is_Some (cells (arena s i) !! b) /\
        b ∉ D.*1 /\ forall l, l ∈ b :: D.*1 -> l ∉ (X i).*1
  end.

(** [X p] is the list of the nodes of list [p], newest first. *)
Record INV X s : Prop := MkInv {
  I_counter : 0 <= g_atomic_counter s < 2 ^ 31;
  I_active : active_ok s;
  I_list p : (p < n)%nat -> list_ok s p (X p);
  I_queue p : (p < n)%nat -> queue_ok s p (X p);
  I_thread i : (i < n)%nat -> thread_ok s X i (thread s i);
  I_gc : gc_ok s X
}.

(** ** Basic consequences *)

Lemma elem_vers l a (xs : list node) : (l, a) ∈ xs -> sversion a ∈ vers xs.
Proof. intros H. apply list_elem_of_fmap. by exists (l, a). Qed.

Lemma vers_app xs ys : vers (xs ++ ys) = vers xs ++ vers ys.
Proof. apply fmap_app. Qed.

Lemma vers_sorted_app xs ys v w :
  StronglySorted Z.gt (vers (xs ++ ys)) -> v ∈ vers xs -> w ∈ vers ys -> v > w.
Proof.
  rewrite vers_app. intros H Hv Hw. rewrite StronglySorted_app in H.
  destruct H as (H & _). by apply H.
Qed.

(** A list is entered at its newest version. *)
Lemma head_max l a xs v :
  StronglySorted Z.gt (vers ((l, a) :: xs)) -> v ∈ vers ((l, a) :: xs) -> v <= sversion a.
Proof.
  intros H. inversion H as [|? ? _ Hall]; subst. simpl.
  intros [->|Hv]%elem_of_cons; [lia|]. rewrite Forall_forall in Hall.
  specialize (Hall _ Hv). lia.
Qed.

Lemma known_le_active s p xs v cv :
  list_ok s p xs -> queue_ok s p xs -> active_version (thread s p) = Some cv ->
  v ∈ qdelete_front (g_queue s p) :: qitems (g_queue s p) -> v <= cv.
Proof.
  intros HL HQ Ha Hv. destruct (qk_known _ _ _ (qk_facts _ _ _ HQ) v Hv) as [Hin|E]; [|rewrite Ha in E; by simplify_eq].
  pose proof (lk_active _ _ _ HL _ Ha) as H. destruct (inserted (thread s p)).
  - destruct H as [_ H]. rewrite Forall_forall in H. by apply H.
  - rewrite Forall_forall in H. specialize (H _ Hin). lia.
Qed.

(** ** The readers a queue serves *)

Lemma pending_split th p i :
  (i < n)%nat ->
  pending th p ≡ₚ option_list (waits_on p (th i)) ++
    omap (fun r => waits_on p (th r)) (filter (fun r => r <> i) (seq 0 n)).
Proof.
  clear S0. intros Hi. unfold pending.
  assert (seq 0 n ≡ₚ i :: filter (fun r => r <> i) (seq 0 n)) as Hp.
  { apply NoDup_Permutation.
    - apply NoDup_seq.
    - constructor; [|apply NoDup_filter, NoDup_seq]. rewrite list_elem_of_filter. tauto.
    - intros x. rewrite elem_of_cons, list_elem_of_filter, elem_of_seq.
      destruct (decide (x = i)) as [->|]; intuition lia. }
  rewrite Hp at 1. simpl. destruct (waits_on p (th i)); done.
Qed.

Lemma pending_rest_upd th p i t :
  omap (fun r => waits_on p (upd th i t r)) (filter (fun r => r <> i) (seq 0 n))
  = omap (fun r => waits_on p (th r)) (filter (fun r => r <> i) (seq 0 n)).
Proof.
  apply list_omap_ext. apply Forall_Forall2_diag, Forall_forall.
  intros r Hr. rewrite upd_ne; [done|]. apply list_elem_of_filter in Hr as [Hne _]. congruence.
Qed.

Lemma pending_upd_same th p i t :
  (i < n)%nat -> waits_on p t = waits_on p (th i) -> pending (upd th i t) p ≡ₚ pending th p.
Proof.
  intros Hi E. rewrite (pending_split (upd th i t) p i Hi), (pending_split th p i Hi).
  by rewrite pending_rest_upd, upd_eq, E.
Qed.

Lemma pending_upd_add th p i t w :
  (i < n)%nat -> waits_on p (th i) = None -> waits_on p t = Some w ->
  pending (upd th i t) p ≡ₚ w :: pending th p.
Proof.
  intros Hi E1 E2. rewrite (pending_split (upd th i t) p i Hi), (pending_split th p i Hi).
  by rewrite pending_rest_upd, upd_eq, E1, E2.
Qed.

Lemma pending_upd_remove th p i t w :
  (i < n)%nat -> waits_on p (th i) = Some w -> waits_on p t = None ->
  pending th p ≡ₚ w :: pending (upd th i t) p.
Proof.
  intros Hi E1 E2. rewrite (pending_split (upd th i t) p i Hi), (pending_split th p i Hi).
  by rewrite pending_rest_upd, upd_eq, E1, E2.
Qed.

(** The entry of a registered reader is in the queue of the list it reads,
    so it is newer than the collector's bound. *)
Lemma reader_entry s p xs i w :
  queue_ok s p xs -> (i < n)%nat -> waits_on p (thread s i) = Some w ->
  w ∈ qitems (g_queue s p) /\ qminimum (g_queue s p) < w.
Proof.
  intros HQ Hi Hw. assert (w ∈ qitems (g_queue s p)) as Hin.
  { rewrite (qk_pending _ _ _ HQ), (pending_split _ _ i Hi), Hw. by left. }
  split; [done|]. pose proof (qk_min _ _ _ (qk_facts _ _ _ HQ)) as H. rewrite Forall_forall in H. by apply H.
Qed.
End threads.
End MvccInv.
