(* ===== verification/MvccSafety.v ===== *)
(** * Safety of the multi-version store

    The invariant of [MvccInv] is kept by every step of the updaters, of the
    collector and of the main thread, and what follows from it: the program's
    own correctness check, the safety of the registered readers and of the
    collector, and the undefined behaviour an unregistered reader can reach. *)

From S2P Require Import Prelude LinkedHeap VersionLists Mvcc MvccInv.

Local Open Scope Z_scope.
Local Set Default Proof Using "Type".

Module MvccSafety.
Import Active Mvcc MvccInv.

(** ** The queue of a list *)

Lemma remove_first_perm (w : Z) (l : list Z) :
  w ∈ l -> l ≡ₚ w :: remove_first (GQueue.is_version w) l.
Proof.
  induction l as [|x l IH]; [by intros ?%elem_of_nil|]. simpl.
  unfold GQueue.is_version at 1. destruct (Z.eqb_spec x w) as [->|Hne]; [done|].
  intros [->|Hin]%elem_of_cons; [done|]. rewrite (IH Hin) at 1. apply Permutation_swap.
Qed.

Lemma StronglySorted_sublist (R : Z -> Z -> Prop) (l k : list Z) :
  l `sublist_of` k -> StronglySorted R k -> StronglySorted R l.
Proof.
  induction 1 as [|x l k Hs IH|x l k Hs IH]; intros H; [done|..];
    inversion H as [|? ? Hk Hall]; subst; [|by apply IH].
  constructor; [by apply IH|]. rewrite Forall_forall in *. intros y Hy.
  apply Hall. by eapply elem_of_sublist.
Qed.

(** An entry leaves its queue: the second critical section finds it, and
    the new bound is still a version of the list, below every remaining
    entry and below the version the owner is active with. *)
Lemma finish_queue_spec vs av q w :
  queue_facts vs av q -> w ∈ qitems q ->
  (forall cv v, av = Some cv -> v ∈ qdelete_front q :: qitems q -> v <= cv) ->
  exists q', finish_queue w q = Some q' /\ queue_facts vs av q' /\
    qitems q ≡ₚ w :: qitems q' /\ qminimum q <= qminimum q'.
Proof.
  intros [Hmi Hso Hmin Hdm Hdf Hkn Hma] Hw Hle. unfold finish_queue.
  destruct q as [items m df]; simpl in *.
  destruct items as [|f rest]; [by apply elem_of_nil in Hw|].
  rewrite !Forall_forall in *.
  destruct (Z.eqb_spec f w) as [->|Hfw].
  - inversion Hso as [|? ? Hso' Hall]; subst. rewrite Forall_forall in Hall.
    assert (m < w) as Hmw by (apply Hmin; by left).
    assert (df <= w) as Hdw by (apply Hdf; by left).
    eexists. split; [done|]. split; [|split; [done|]]; simpl.
    + destruct rest as [|f' rest'].
      * destruct (Z.eqb_spec df w) as [->|Hne]; simpl.
        -- split; simpl; try done. intros v Hv. apply Hkn. set_solver.
        -- assert (df ∈ vs) as Hin.
           { destruct (Hkn df) as [|Ha]; [by left|done|].
             assert (w <= df) by (apply (Hle df); [done|set_solver]). lia. }
           split; simpl; try done.
           ++ intros v Hv. apply Hkn. set_solver.
           ++ intros cv Ha. assert (w <= cv) by (apply (Hle cv); [done|set_solver]). lia.
      * assert (w <= f') as Hf' by (apply Hall; by left).
        inversion Hso' as [|? ? Hso2 Hall2]; subst. rewrite Forall_forall in Hall2.
        destruct (Z.eqb_spec f' w) as [->|Hne]; simpl.
        -- split; simpl; try done; rewrite ?Forall_forall.
           ++ intros v Hv. apply Hmin. by right.
           ++ lia.
           ++ intros v Hv. apply Hall. done.
           ++ intros v Hv. apply Hkn. set_solver.
        -- assert (w ∈ vs) as Hin.
           { destruct (Hkn w) as [|Ha]; [by right; left|done|].
             assert (f' <= w) by (apply (Hle w); [done|set_solver]). lia. }
           split; simpl; try done; rewrite ?Forall_forall.
           ++ intros v [->|Hv]%elem_of_cons; [lia|]. specialize (Hall2 _ Hv). lia.
           ++ intros v Hv. apply Hall. done.
           ++ intros v Hv. apply Hkn. set_solver.
           ++ intros cv Ha. assert (f' <= cv) by (apply (Hle cv); [done|set_solver]). lia.
    + repeat case_match; lia.
  - assert (forall v, v ∈ remove_first (GQueue.is_version w) (f :: rest) -> v ∈ f :: rest) as Hsub
      by (intros v; apply remove_first_elem_of).
    eexists. split; [done|]. split; [|split; [by apply remove_first_perm|simpl; lia]].
    split; simpl; try done.
    + eapply StronglySorted_sublist; [apply (remove_first_sublist _ (f :: rest))|done].
    + rewrite Forall_forall. intros v Hv. apply Hmin, Hsub, Hv.
    + rewrite Forall_forall. intros v Hv. apply Hdf, Hsub, Hv.
    + intros v [->|Hv]%elem_of_cons; apply Hkn; [by left|]. right. apply Hsub, Hv.
Qed.

Lemma find_active_spec p (l : list ActiveNode) :
  NoDup (index_thread <$> l) ->
  match find_active p (reverse l) with
  | Some nd => index_thread nd = p /\ nd ∈ l
  | None => forall nd, nd ∈ l -> index_thread nd <> p
  end.
Proof.
  intros _. unfold find_active. destruct (List.find _ _) as [nd|] eqn:E.
  - apply List.find_some in E as [Hin Hp]. unfold has_index in Hp.
    apply Nat.eqb_eq in Hp. split; [done|].
    apply elem_of_reverse. by apply list_elem_of_In.
  - intros nd Hnd Hp. assert (In nd (reverse l)) as Hin
      by (by apply list_elem_of_In, elem_of_reverse).
    pose proof (List.find_none _ _ E nd Hin) as H. unfold has_index in H.
    apply Nat.eqb_neq in H. done.
Qed.

(** Leaving the active list: the one node of the thread goes. *)
Lemma remove_index_elem (i : nat) (l : list ActiveNode) (nd : ActiveNode) :
  NoDup (index_thread <$> l) ->
  (nd ∈ remove_first (has_index i) l <-> nd ∈ l /\ index_thread nd <> i).
Proof.
  induction l as [|x l IH]; simpl.
  - intros _. split; [by intros ?%elem_of_nil|by intros [?%elem_of_nil _]].
  - intros [Hx Hnd]%NoDup_cons. unfold has_index at 1.
    destruct (Nat.eqb_spec (index_thread x) i) as [Hi|Hi].
    + rewrite elem_of_cons. split.
      * intros Hin. split; [by right|]. intros <-. apply Hx. rewrite Hi.
        apply list_elem_of_fmap. eauto.
      * intros [[->|] Hne]; done.
    + rewrite !elem_of_cons, IH by done. split; [|tauto]. intros [->|]; tauto.
Qed.

Lemma remove_index_NoDup (i : nat) (l : list ActiveNode) :
  NoDup (index_thread <$> l) -> NoDup (index_thread <$> remove_first (has_index i) l).
Proof.
  induction l as [|x l IH]; simpl; [done|]. intros [Hx Hnd]%NoDup_cons.
  destruct (has_index i x); [done|]. simpl. constructor; [|by apply IH].
  intros (nd & E & Hin)%list_elem_of_fmap. apply Hx. rewrite E.
  apply list_elem_of_fmap. exists nd. split; [done|]. by eapply remove_first_elem_of.
Qed.

Section threads.
Context (n : nat) (S0 : nat -> Z).
Implicit Types (s : state) (X : nat -> list node).

Local Abbreviation INV := (INV n S0).
Local Abbreviation thread_ok := (thread_ok n S0).
Local Abbreviation queue_ok := (queue_ok n).
Local Abbreviation list_ok := (list_ok S0).
Local Abbreviation active_ok := (active_ok n).
Local Abbreviation gc_ok := (gc_ok n).

(** ** Steps that only move one program counter *)

Lemma list_ok_thread s s' p xs :
  list_ok s p xs -> arena s' p = arena s p -> g_singly_list s' p = g_singly_list s p ->
  g_atomic_counter s <= g_atomic_counter s' ->
  active_version (thread s' p) = active_version (thread s p) ->
  inserted (thread s' p) = inserted (thread s p) -> list_ok s' p xs.
Proof.
  intros [H1 H2 H3 H4 H5 H6] Ea Eg Hc Ev Ei. split; rewrite ?Ea, ?Eg, ?Ev, ?Ei; try done.
  eapply Forall_impl; [exact H4|]. simpl. lia.
Qed.

Lemma queue_ok_thread s s' p xs :
  queue_ok s p xs -> g_queue s' p = g_queue s p ->
  active_version (thread s' p) = active_version (thread s p) ->
  pending n (thread s') p ≡ₚ pending n (thread s) p -> queue_ok s' p xs.
Proof.
  intros [H1 H2] Eq Ev Ep. split; rewrite ?Eq, ?Ev; [done|]. by rewrite H2, Ep.
Qed.

Lemma inv_local X s i t :
  INV X s -> (i < n)%nat ->
  active_version t = active_version (thread s i) ->
  inserted t = inserted (thread s i) ->
  (forall p, waits_on p t = waits_on p (thread s i)) ->
  thread_ok s X i t -> INV X (set_thread i t s).
Proof.
  intros [Ic Ia Il Iq It Ig] Hi Ev Ei Ew Ht.
  assert (forall j, active_version (upd (thread s) i t j) = active_version (thread s j)) as Ev'
    by (intros j; by upd_cases).
  split; try done.
  - destruct Ia as [A1 A2 A3]. split; simpl; [done|..].
    + intros j v. rewrite Ev'. apply A2.
    + intros j v. rewrite Ev'. apply A3.
  - intros p Hp. eapply list_ok_thread; [by apply Il|done..|simpl; lia|apply Ev'|].
    simpl. by upd_cases.
  - intros p Hp. eapply queue_ok_thread; [by apply Iq|done|apply Ev'|].
    simpl. by apply pending_upd_same.
  - intros j Hj. simpl. upd_cases; [done|by apply It].
Qed.

Lemma inv_ext X s s' :
  g_atomic_counter s' = g_atomic_counter s -> g_active_list s' = g_active_list s ->
  arena s' = arena s -> g_singly_list s' = g_singly_list s -> g_queue s' = g_queue s ->
  thread s' = thread s -> collector s' = collector s -> INV X s -> INV X s'.
Proof.
  destruct s, s'; simpl. intros -> -> -> -> -> -> -> [Ic Ia Il Iq It Ig]. split; try done.
  - by destruct Ia.
  - intros p Hp. by destruct (Il p Hp).
  - intros p Hp. by destruct (Iq p Hp).
Qed.

Lemma inv_collector X s g :
  INV X s -> gc_ok (set_collector g s) X -> INV X (set_collector g s).
Proof.
  intros [Ic Ia Il Iq It Ig] Hg. split; try done.
  - by destruct Ia.
  - intros p Hp. by destruct (Il p Hp).
  - intros p Hp. by destruct (Iq p Hp).
Qed.

(** ** Steps that touch an arena *)

(** Blocks are never reused and the contents of a node never change. *)
Definition arena_ext (m m' : mem SinglyNode) : Prop :=
  (brk m <= brk m')%nat /\
  forall l c', (l < brk m)%nat -> cells m' !! l = Some c' ->
    exists c, cells m !! l = Some c /\ payload c = payload c'.

Lemma arena_ext_refl m : arena_ext m m.
Proof. split; eauto. Qed.

Lemma arena_ext_malloc m c : arena_ext m (malloc c m).2.
Proof.
  split; simpl; [lia|]. intros l c' Hl. rewrite lookup_insert_ne by lia. eauto.
Qed.

Lemma arena_ext_set_link m p q m' : set_link p q m = Some m' -> arena_ext m m'.
Proof.
  unfold set_link. intros H. repeat case_match; simplify_eq. split; simpl; [lia|].
  intros l' c' _. rewrite lookup_insert. case_decide; [|eauto]. subst. intros [= <-]. eauto.
Qed.

Lemma arena_ext_free m l m' : free l m = Some m' -> arena_ext m m'.
Proof.
  unfold free. intros H. repeat case_match; simplify_eq. split; simpl; [lia|].
  intros l' c' _ [_ H']%lookup_delete_Some. eauto.
Qed.

(** The local facts of a thread survive as long as its cursor stays good. *)
Lemma thread_ok_mono s s' X X' i t :
  (forall p, arena_ext (arena s p) (arena s' p)) ->
  (forall L, t_locals t = Some L -> inserted t = false ->
     picks n i L -> cursor_ok X L -> cursor_ok X' L) ->
  thread_ok s X i t -> thread_ok s' X' i t.
Proof.
  intros Ha Hc. destruct t as [|p|L|L|L|L|L|L|L| |]; simpl; try done.
  - intros [? ?]. split; [done|]. by apply Hc.
  - intros (? & ? & ? & ?). split_and!; try done. by apply Hc.
  - intros (? & ? & ?). split_and!; try done. by apply Hc.
  - intros (? & ? & l & E & Hl & Hsum). split_and!; try done; [by apply Hc|].
    destruct (Ha (picked_thread_index L)) as [Hb Hcell].
    exists l. split_and!; [done|lia|]. intros c' Hc'.
    destruct (Hcell l c' Hl Hc') as (c & Hcc & E'). rewrite <- E'. by apply Hsum.
Qed.

Lemma gc_ok_mono s s' X :
  collector s' = collector s -> arena s' = arena s ->
  (forall p, qminimum (g_queue s p) <= qminimum (g_queue s' p)) ->
  gc_ok s X -> gc_ok s' X.
Proof.
  intros Ec Ea Hm. unfold MvccInv.gc_ok. rewrite Ec, Ea.
  destruct (collector s) as [|i|i m|i m tmp back [|]|i m t [|]|i m tmp b|]; try done.
  - specialize (Hm i). intros [? ?]. split; [done|lia].
  - specialize (Hm i). intros (? & ? & ?). split_and!; [done|lia|done].
  - specialize (Hm i). intros (? & ? & ?). split_and!; [done|lia|done].
Qed.

(** ** The first critical section *)

Lemma begin_active_ok X s i p t cv :
  INV X s -> (i < n)%nat -> thread s i = TPicked p ->
  cv = g_atomic_counter s + 1 -> active_version t = Some cv ->
  active_ok (set_thread i t (set_active (mkActive i cv :: g_active_list s) (set_counter cv s))).
Proof.
  intros I Hi Ht Hcv Ha. destruct (I_active _ _ _ _ I) as [A1 A2 A3].
  pose proof (I_counter _ _ _ _ I) as Hc.
  split; simpl.
  - constructor; [|done]. intros (nd & E & Hin)%list_elem_of_fmap.
    destruct nd as [j v]; simpl in *; subst j. apply A2 in Hin as [_ Hin].
    by rewrite Ht in Hin.
  - intros j v. rewrite elem_of_cons, A2. upd_cases.
    + rewrite Ha. split; [intros [[= ->]|[_ E]]; [done|by rewrite Ht in E]|].
      intros [_ [= ->]]. by left.
    + split; [intros [[= -> ->]|?]; done|by right].
  - intros j v Hj. upd_cases; [rewrite Ha; intros [= <-]; lia|].
    intros Hv. specialize (A3 j v Hj Hv). lia.
Qed.

Lemma list_ok_begin X s s' i cv q :
  INV X s -> (q < n)%nat -> active_version (thread s i) = None ->
  arena s' = arena s -> g_singly_list s' = g_singly_list s ->
  g_atomic_counter s' = cv -> cv = g_atomic_counter s + 1 ->
  (forall j, j <> i -> thread s' j = thread s j) ->
  active_version (thread s' i) = Some cv -> inserted (thread s' i) = false ->
  list_ok s' q (X q).
Proof.
  intros I Hq Hno Ea Eg Ec Hcv Hth Ha Hins.
  pose proof (I_list _ _ _ _ I q Hq) as HL.
  destruct (decide (q = i)) as [->|Hne].
  - destruct HL as [H1 H2 H3 H4 H5 H6]. split; rewrite ?Ea, ?Eg, ?Ec; try done.
    + eapply Forall_impl; [exact H4|]. simpl. lia.
    + rewrite Ha, Hins. intros cv' [= <-]. eapply Forall_impl; [exact H4|]. simpl. lia.
  - eapply list_ok_thread; [exact HL|by rewrite Ea|by rewrite Eg|lia|by rewrite Hth..].
Qed.

(** Joining the queue of an active thread. *)
Lemma queue_facts_add s p xs w :
  list_ok s p xs -> queue_facts (vers xs) (active_version (thread s p)) (g_queue s p) ->
  queue_ok s p xs -> active_version (thread s p) = Some w ->
  queue_facts (vers xs) (active_version (thread s p))
    (mkQ (qitems (g_queue s p) ++ [w]) (qminimum (g_queue s p)) (qdelete_front (g_queue s p))).
Proof.
  intros HL HF HQ Ha.
  assert (forall v, v ∈ qdelete_front (g_queue s p) :: qitems (g_queue s p) -> v <= w) as Hle
    by (intros v; by eapply known_le_active).
  destruct HF as [Hmi Hso Hmin Hdm Hdf Hkn Hma].
  split; simpl; try done.
  - apply StronglySorted_app. split_and!; [|done|repeat constructor].
    intros x y Hx [->|[]%elem_of_nil]%elem_of_cons. apply Hle. by right.
  - apply Forall_app. split; [done|]. repeat constructor. by apply Hma.
  - apply Forall_app. split; [done|]. repeat constructor. apply Hle. by left.
  - intros v Hv. rewrite app_comm_cons, elem_of_app in Hv.
    destruct Hv as [Hv|[->|[]%elem_of_nil]%elem_of_cons]; [by apply Hkn|by right].
Qed.

(** Becoming active with a fresh version. *)
Lemma queue_facts_activate X s i :
  INV X s -> (i < n)%nat -> active_version (thread s i) = None ->
  queue_facts (vers (X i)) (Some (g_atomic_counter s + 1)) (g_queue s i).
Proof.
  intros I Hi Hno.
  destruct (qk_facts _ _ _ _ (I_queue _ _ _ _ I i Hi)) as [Hmi Hso Hmin Hdm Hdf Hkn Hma].
  rewrite Hno in Hkn. split; try done.
  - intros v Hv. destruct (Hkn v Hv); [by left|done].
  - intros cv' [= <-]. pose proof (lk_range _ _ _ _ (I_list _ _ _ _ I i Hi)) as Hr.
    rewrite Forall_forall in Hr. specialize (Hr _ Hmi). lia.
Qed.

Lemma inv_begin X s i p s' L :
  INV X s -> (i < n)%nat -> thread s i = TPicked p -> g_atomic_counter s + 1 < 2 ^ 31 ->
  begin_update i p s = (s', L) -> INV X (set_thread i (TReadHead L) s').
Proof.
  intros I Hi Ht Hb Hbeg. pose proof (I_counter _ _ _ _ I) as Hc.
  pose proof (I_thread _ _ _ _ I i Hi) as Hp. rewrite Ht in Hp. simpl in Hp.
  destruct Hp as [Hpn Hpi].
  assert (u64 (g_atomic_counter s + 1) = g_atomic_counter s + 1) as Ecv
    by (apply u64_small; lia).
  unfold begin_update in Hbeg. rewrite Ecv in Hbeg.
  set (cv := g_atomic_counter s + 1) in *.
  assert (NoDup (index_thread <$> mkActive i cv :: g_active_list s)) as Hnd.
  { simpl. destruct (I_active _ _ _ _ I) as [A1 A2 _]. constructor; [|done].
    intros ([j v] & E & Hin)%list_elem_of_fmap. simpl in E. subst j.
    apply A2 in Hin as [_ Hin]. by rewrite Ht in Hin. }
  pose proof (find_active_spec p _ Hnd) as Hfind.
  assert (active_version (thread s i) = None) as Hno by (by rewrite Ht).
  destruct (find_active p (reverse (mkActive i cv :: g_active_list s))) as [nd|];
    injection Hbeg as <- <-.
  - destruct nd as [p' w]. simpl in *. destruct Hfind as [-> Hin].
    apply elem_of_cons in Hin as [[= -> ->]|Hin]; [done|].
    apply (ak_iff _ _ (I_active _ _ _ _ I)) in Hin as [_ Hw].
    assert (0 < w <= g_atomic_counter s) as Hwr by (by eapply (ak_range _ _ (I_active _ _ _ _ I))).
    assert (u64 (s32 w) = w) as Eu by (rewrite s32_small, u64_small; lia).
    rewrite Eu. set (L := mkLocals cv p true w None 0 0).
    pose proof (begin_active_ok X s i p (TReadHead L) cv I Hi Ht eq_refl eq_refl) as Hact.
    split; simpl.
    + lia.
    + by destruct Hact.
    + intros q Hq. eapply (list_ok_begin X s _ i cv); simpl; try done.
      * intros j Hj. by rewrite upd_ne.
      * by rewrite upd_eq.
      * by rewrite upd_eq.
    + intros q Hq. pose proof (I_queue _ _ _ _ I q Hq) as HQ.
      destruct (decide (q = p)) as [->|Hqp].
      * split; simpl; rewrite !upd_eq, ?upd_ne by done.
        -- apply queue_facts_add; [by apply (I_list _ _ _ _ I)|apply HQ|done|done].
        -- simpl. rewrite (pending_upd_add n _ p i _ w); [|done|by rewrite Ht|].
           ++ rewrite <- Permutation_cons_append. constructor. apply HQ.
           ++ unfold waits_on; simpl. by rewrite decide_True.
      * split; simpl; rewrite (upd_ne _ p q) by done.
        -- destruct (decide (q = i)) as [->|]; [|rewrite upd_ne by done; apply HQ].
           rewrite upd_eq. simpl. apply (queue_facts_activate X s i I Hi Hno).
        -- rewrite pending_upd_same; [apply HQ|done|]. rewrite Ht. unfold waits_on; simpl.
           by rewrite decide_False.
    + intros j Hj. upd_cases; [done|]. apply (I_thread _ _ _ _ I j Hj).
    + eapply gc_ok_mono; [..|exact (I_gc _ _ _ _ I)]; try done. intros q. simpl. upd_cases; simpl; lia.
  - set (L := mkLocals cv p false 0 None 0 0).
    pose proof (begin_active_ok X s i p (TReadHead L) cv I Hi Ht eq_refl eq_refl) as Hact.
    split; simpl.
    + lia.
    + done.
    + intros q Hq. eapply (list_ok_begin X s _ i cv); simpl; try done.
      * intros j Hj. by rewrite upd_ne.
      * by rewrite upd_eq.
      * by rewrite upd_eq.
    + intros q Hq. pose proof (I_queue _ _ _ _ I q Hq) as HQ. split; simpl.
      -- destruct (decide (q = i)) as [->|]; [|rewrite upd_ne by done; apply HQ].
         rewrite upd_eq. simpl. apply (queue_facts_activate X s i I Hi Hno).
      -- rewrite pending_upd_same; [apply HQ|done|]. by rewrite Ht.
    + intros j Hj. upd_cases; [done|]. apply (I_thread _ _ _ _ I j Hj).
    + apply (I_gc _ _ _ _ I).
Qed.

(** ** Publishing a new version *)

Lemma gc_ok_insert s X i a b v :
  wf_mem (arena s i) -> chain (arena s i) (g_singly_list s i) (X i) ->
  gc_ok s X ->
  gc_ok (InsertSinglyList i a b v s)
    (upd X i ((brk (arena s i), mkSingly a b v) :: X i)).
Proof.
  intros Hwf Hch. set (c0 := Cell (mkSingly a b v) (g_singly_list s i)).
  assert (forall p xs, chain (arena s i) p xs -> chain (malloc c0 (arena s i)).2 p xs) as Hfr
    by (intros; by apply malloc_frame).
  assert (forall p xs, chain (arena s i) p xs -> brk (arena s i) ∉ xs.*1) as Hfresh
    by (intros; by eapply lseg_wf_fresh).
  unfold MvccInv.gc_ok. simpl.
  destruct (collector s) as [|j|j m|j m tmp back [|]|j m t [|]|j m tmp bk|]; try done;
    (destruct (decide (i = j)) as [<-|Hne]; [rewrite !upd_eq|by rewrite ?upd_ne by done]).
  - intros (Hj & D & HD & Hdis). split; [done|]. exists D. split; [by apply Hfr|].
    intros l Hl [->|Hin]%elem_of_cons; [|by eapply Hdis]. by eapply Hfresh.
  - intros (Hj & Hm & xs1 & xs2 & EX & Hx2 & Hb). split_and!; [done..|].
    exists ((brk (arena s i), mkSingly a b v) :: xs1), xs2. split_and!.
    + by rewrite EX.
    + by apply Hfr.
    + destruct back; [|done]. destruct Hb as (a' & xs1' & ->). by eexists _, (_ :: xs1').
  - intros (Hj & a' & D & HD & Hdis). split; [done|]. exists a', D. split; [by apply Hfr|].
    intros l Hl [->|Hin]%elem_of_cons; [|by eapply Hdis]. by eapply (Hfresh _ _ HD).
  - intros (Hj & Hm & xs1 & a' & xs2 & EX). split_and!; [done..|].
    exists ((brk (arena s i), mkSingly a b v) :: xs1), a', xs2. by rewrite EX.
  - intros (Hj & D & HD & [cb Hcb] & Hni & Hdis). split; [done|].
    assert (brk (arena s i) <> bk) as Hbk by (specialize (Hwf _ _ Hcb); lia).
    exists D. split_and!; [by apply Hfr| |done|].
    + simpl. rewrite lookup_insert_ne by done. eauto.
    + intros l Hl [->|Hin]%elem_of_cons; [|by eapply Hdis].
      apply elem_of_cons in Hl as [|Hl]; [done|]. by eapply Hfresh.
Qed.

(** A new version does not disturb the readers of the list. *)
Lemma cursor_ok_insert X s i j L nd :
  INV X s -> (i < n)%nat -> (j < n)%nat -> t_locals (thread s j) = Some L ->
  active_version (thread s i) = Some (sversion nd.2) ->
  cursor_ok X L -> cursor_ok (upd X i (nd :: X i)) L.
Proof.
  intros I Hi Hj HL Ha Hc Hact. destruct (Hc Hact) as (l & a & E1 & E2 & E3).
  exists l, a. split; [done|]. upd_cases; [|done]. split; [by right|].
  intros v [->|Hin]%elem_of_cons; [|by apply E3]. intros Hlt. exfalso.
  assert (waits_on (picked_thread_index L) (thread s j) = Some (active_thread_version L)) as Hw.
  { unfold waits_on, registered. rewrite HL. simpl. rewrite Hact. simpl. by rewrite decide_True. }
  pose proof (I_queue _ _ _ _ I _ Hi) as HQ.
  destruct (reader_entry n s _ _ j _ HQ Hj Hw) as [Hit _].
  assert (active_thread_version L <= sversion nd.2); [|lia].
  eapply known_le_active; [by apply (I_list _ _ _ _ I _ Hi)|exact HQ|done|by right].
Qed.

Lemma inv_insert X s i L :
  INV X s -> (i < n)%nat -> thread s i = TInsert L ->
  INV (upd X i ((brk (arena s i), mkSingly (my_A L) (my_B L) (current_version L)) :: X i))
    (set_thread i (TEnd L) (InsertSinglyList i (my_A L) (my_B L) (current_version L) s)).
Proof.
  intros I Hi Ht. set (cv := current_version L).
  set (nd := (brk (arena s i), mkSingly (my_A L) (my_B L) cv)).
  assert (active_version (thread s i) = Some cv) as Ha by (by rewrite Ht).
  pose proof (ak_range _ _ (I_active _ _ _ _ I) i cv Hi Ha) as Hcv.
  pose proof (I_list _ _ _ _ I i Hi) as [Hwf Hch Hso Hra Hac Hsum].
  specialize (Hac cv Ha). rewrite Ht in Hac. simpl in Hac. rewrite Forall_forall in Hac.
  pose proof (I_thread _ _ _ _ I i Hi) as Hti. rewrite Ht in Hti. simpl in Hti.
  assert (forall j, active_version (upd (thread s) i (TEnd L) j) = active_version (thread s j)) as Ev
    by (intros j; upd_cases; by rewrite ?Ht).
  split.
  - apply (I_counter _ _ _ _ I).
  - destruct (I_active _ _ _ _ I) as [A1 A2 A3]. split; simpl; [done|..];
      intros j v; rewrite Ev; eauto.
  - intros p Hp. destruct (decide (p = i)) as [->|Hne].
    + split; simpl; rewrite !upd_eq.
      * by apply (malloc_wf (arena s i)).
      * by apply malloc_chain.
      * simpl. constructor; [done|]. rewrite Forall_forall. intros v Hv.
        specialize (Hac v Hv). lia.
      * constructor; [simpl; lia|done].
      * simpl. intros cv' [= <-]. split; [by left|]. constructor; [simpl; lia|].
        rewrite Forall_forall. intros v Hv. specialize (Hac v Hv). lia.
      * do 3 eexists. split; [done|]. apply Hti.
    + rewrite upd_ne by done. eapply list_ok_thread; [by apply (I_list _ _ _ _ I)|..]; simpl;
        by rewrite ?upd_ne.
  - intros p Hp. pose proof (I_queue _ _ _ _ I p Hp) as [HF HP]. split; simpl.
    + rewrite Ev. destruct HF as [Hmi H2 H3 H4 H5 Hkn H7].
      upd_cases; split; try done; [by right|].
      intros v Hv. destruct (Hkn v Hv); [left; by right|by right].
    + rewrite pending_upd_same; [done..|]. by rewrite Ht.
  - intros j Hj. simpl. upd_cases; [simpl; tauto|].
    eapply thread_ok_mono; [..|by apply (I_thread _ _ _ _ I)].
    + intros p. simpl. upd_cases; [apply arena_ext_malloc|apply arena_ext_refl].
    + intros L' HL' _ _. by eapply cursor_ok_insert.
  - exact (gc_ok_insert s X i _ _ _ Hwf Hch (I_gc _ _ _ _ I)).
Qed.

(** ** The second critical section *)

Lemma inv_leave_active X s i L :
  INV X s -> (i < n)%nat -> thread s i = TEnd L ->
  active_ok (set_thread i TStat (set_active (remove_first (has_index i) (g_active_list s)) s)).
Proof.
  intros I Hi Ht. destruct (I_active _ _ _ _ I) as [A1 A2 A3]. split; simpl.
  - by apply remove_index_NoDup.
  - intros j v. rewrite remove_index_elem by done. rewrite A2. simpl.
    upd_cases; simpl; [split; [tauto|by intros [_ ?]]|]. split; [tauto|]. intros H.
    split; [done|congruence].
  - intros j v Hj. upd_cases; [done|by apply A3].
Qed.

Lemma queue_facts_leave X s i L :
  INV X s -> (i < n)%nat -> thread s i = TEnd L ->
  queue_facts (vers (X i)) None (g_queue s i).
Proof.
  intros I Hi Ht. pose proof (lk_active _ _ _ _ (I_list _ _ _ _ I i Hi)) as Hac.
  destruct (qk_facts _ _ _ _ (I_queue _ _ _ _ I i Hi)) as [Hmi H2 H3 H4 H5 Hkn H7].
  rewrite Ht in *. simpl in *. destruct (Hac _ eq_refl) as [Hcv _]. split; try done.
  intros v Hv. left. by destruct (Hkn v Hv) as [|[= <-]].
Qed.

Lemma inv_end X s i L :
  INV X s -> (i < n)%nat -> thread s i = TEnd L ->
  exists s', end_update i L s = Some s' /\ INV X (set_thread i TStat s').
Proof.
  intros I Hi Ht. pose proof (I_thread _ _ _ _ I i Hi) as Hp. rewrite Ht in Hp.
  destruct Hp as [Hpn Hpi]. set (p := picked_thread_index L) in *.
  pose proof (inv_leave_active X s i L I Hi Ht) as Hact.
  pose proof (queue_facts_leave X s i L I Hi Ht) as Hown.
  assert (forall s', arena s' = arena s -> g_singly_list s' = g_singly_list s ->
    g_atomic_counter s' = g_atomic_counter s ->
    thread s' = upd (thread s) i TStat -> forall q, (q < n)%nat -> list_ok s' q (X q)) as Hlist.
  { intros s' Ea Eg Ec Eth q Hq. pose proof (I_list _ _ _ _ I q Hq) as HL.
    destruct (decide (q = i)) as [->|Hne].
    - destruct HL. split; rewrite ?Ea, ?Eg, ?Ec, ?Eth, ?upd_eq; done.
    - eapply list_ok_thread; [exact HL|..]; rewrite ?Ea, ?Eg, ?Ec, ?Eth, ?upd_ne by done; done. }
  unfold end_update. destruct (is_thread_active L) eqn:Hact'.
  - pose proof (I_queue _ _ _ _ I p Hpn) as HQ.
    assert (waits_on p (thread s i) = Some (active_thread_version L)) as Hw.
    { unfold waits_on, registered. rewrite Ht. simpl. rewrite Hact'. simpl. by rewrite decide_True. }
    destruct (reader_entry n s p _ i _ HQ Hi Hw) as [Hit _].
    destruct (finish_queue_spec _ _ _ _ (qk_facts _ _ _ _ HQ) Hit) as (q' & Eq & HF & Hperm & Hmono).
    { intros cv v Ha Hv. eapply known_le_active; [by apply (I_list _ _ _ _ I)|done..]. }
    fold p. rewrite Eq. simpl. eexists. split; [done|]. split; simpl.
    + apply (I_counter _ _ _ _ I).
    + by destruct Hact.
    + by apply Hlist.
    + intros q Hq. split; simpl.
      * upd_cases; simpl; [done..|by apply (I_queue _ _ _ _ I)].
      * destruct (decide (q = p)) as [->|Hne].
        -- rewrite upd_eq. apply (Permutation_cons_inv (a := active_thread_version L)).
           rewrite <- Hperm, (qk_pending _ _ _ _ HQ). by apply pending_upd_remove.
        -- rewrite upd_ne by done. rewrite pending_upd_same; [by apply (I_queue _ _ _ _ I)|done|].
           rewrite Ht. unfold waits_on, registered. simpl. rewrite Hact'. simpl.
           by rewrite decide_False.
    + intros j Hj. upd_cases; [done|]. apply (I_thread _ _ _ _ I j Hj).
    + eapply gc_ok_mono; [..|exact (I_gc _ _ _ _ I)]; try done.
      intros q. simpl. upd_cases; [done|lia].
  - eexists. split; [done|]. split; simpl.
    + apply (I_counter _ _ _ _ I).
    + done.
    + by apply Hlist.
    + intros q Hq. split; simpl.
      * upd_cases; simpl; [done|by apply (I_queue _ _ _ _ I)].
      * rewrite pending_upd_same; [by apply (I_queue _ _ _ _ I)|done|].
        rewrite Ht. unfold waits_on, registered. simpl. by rewrite Hact'.
    + intros j Hj. upd_cases; [done|]. apply (I_thread _ _ _ _ I j Hj).
    + apply (I_gc _ _ _ _ I).
Qed.

(** ** The collector *)

(** Cutting the list behind [b] leaves the part up to [b], and hands the
    rest, untouched, to the collector. *)
Lemma cut_chain (m : mem SinglyNode) p tmp xs1 b a xs2 :
  chain m p ((xs1 ++ [(b, a)]) ++ xs2) -> chain m tmp xs2 ->
  exists m', set_link (Some b) None m = Some m' /\
    chain m' p (xs1 ++ [(b, a)]) /\ chain m' tmp xs2.
Proof.
  intros Hc H2. pose proof (chain_NoDup _ _ _ Hc) as Hnd.
  rewrite <- app_assoc, fmap_app in Hnd. simpl in Hnd.
  apply NoDup_app in Hnd as (_ & Hdis & [Hb _]%NoDup_cons).
  unfold chain in Hc. rewrite <- app_assoc in Hc. apply lseg_app in Hc as (r & H1 & Hb').
  simpl in Hb'. destruct Hb' as (-> & nx & Hcell & _).
  unfold set_link. rewrite Hcell. eexists. split; [done|]. split; unfold chain; simpl.
  - apply lseg_app. exists (Some b). split.
    + apply lseg_insert_fresh; [|done]. intros Hin. apply (Hdis _ Hin). by left.
    + simpl. split; [done|]. exists None. by rewrite lookup_insert_eq.
  - by apply lseg_insert_fresh.
Qed.

(** The cut takes nothing a reader or the queue still needs: every version
    it takes is below the bound, the bound is a version of the list, and
    the entries of the registered readers are above it. *)
Lemma inv_cut X s i m min tmp t xs1 b a ys :
  INV X s -> (i < n)%nat -> min <= qminimum (g_queue s i) ->
  X i = (xs1 ++ [(b, a)]) ++ ys -> ys <> [] ->
  (forall v, v ∈ vers ys -> v < min) ->
  chain (arena s i) (Some t) ys -> tmp = Some t ->
  set_link (Some b) None (arena s i) = Some m ->
  INV (upd X i (xs1 ++ [(b, a)])) (set_collector (GAdvance i min t true) (set_arena i m s)).
Proof.
  intros I Hi Hmin EX Hne Hlow Hys Htmp Hm.
  pose proof (I_list _ _ _ _ I i Hi) as [Hwf Hch Hso Hra Hac Hsum].
  rewrite EX in Hch. destruct (cut_chain _ _ _ _ _ _ _ Hch Hys) as (m' & Hm' & Hc1 & Hc2).
  rewrite Hm in Hm'. injection Hm' as <-.
  assert (forall v, v ∈ vers (X i) -> min <= v -> v ∈ vers (xs1 ++ [(b, a)])) as Hkeep.
  { intros v. rewrite EX, vers_app, elem_of_app. intros [|Hv] Hge; [done|].
    specialize (Hlow v Hv). lia. }
  assert (forall v, v ∈ vers (xs1 ++ [(b, a)]) -> v ∈ vers (X i)) as Hsub.
  { intros v Hv. rewrite EX, vers_app. apply elem_of_app. by left. }
  assert (forall P : Z -> Prop, Forall P (vers (X i)) -> Forall P (vers (xs1 ++ [(b, a)]))) as HFsub.
  { intros P. rewrite EX, vers_app. by intros [? _]%Forall_app. }
  split.
  - apply (I_counter _ _ _ _ I).
  - by destruct (I_active _ _ _ _ I).
  - intros p Hp. destruct (decide (p = i)) as [->|Hpi].
    + rewrite upd_eq. split; simpl; rewrite ?upd_eq; try done.
      * eapply set_link_wf; [exact Hwf|exact Hm].
      * rewrite EX, vers_app in Hso. apply StronglySorted_app in Hso. tauto.
      * by apply HFsub.
      * intros cv Ha. specialize (Hac cv Ha). destruct (inserted (thread s i)); [|by apply HFsub].
        destruct Hac as [Hin Hall]. split; [|by apply HFsub]. apply Hkeep; [done|].
        pose proof (qk_min_active _ _ _ (qk_facts _ _ _ _ (I_queue _ _ _ _ I i Hi)) cv Ha). lia.
      * destruct Hsum as (l & a' & xs' & E & Hs). rewrite EX in E.
        destruct xs1 as [|x1 xs1]; simpl in *; simplify_eq; eauto.
    + rewrite upd_ne by done. eapply list_ok_thread; [by apply (I_list _ _ _ _ I)|..]; simpl;
        rewrite ?upd_ne by done; done.
  - intros p Hp. pose proof (I_queue _ _ _ _ I p Hp) as [HF HP]. split; [|done]. simpl.
    upd_cases; [|done]. destruct HF as [Hmi H2 H3 H4 H5 Hkn H7]. split; try done.
    + by apply Hkeep.
    + intros v Hv. destruct (Hkn v Hv) as [Hin|]; [|by right]. left. apply Hkeep; [done|].
      apply elem_of_cons in Hv as [->|Hv]; [lia|].
      rewrite Forall_forall in H3. specialize (H3 _ Hv). lia.
  - intros j Hj. simpl. eapply thread_ok_mono; [..|by apply (I_thread _ _ _ _ I)].
    + intros p. simpl. upd_cases; [by eapply arena_ext_set_link|apply arena_ext_refl].
    + intros L HL _ _ Hc Hact. destruct (Hc Hact) as (l & a' & E1 & E2 & E3).
      exists l, a'. split; [done|].
      destruct (decide (i = picked_thread_index L)) as [Ei|]; [|by rewrite upd_ne].
      rewrite <- Ei in *. rewrite upd_eq. split; [|by eauto].
      assert (waits_on i (thread s j) = Some (active_thread_version L)) as Hw.
      { unfold waits_on, registered. rewrite HL. simpl. rewrite Hact. simpl. by rewrite decide_True. }
      destruct (reader_entry n s i _ j _ (I_queue _ _ _ _ I i Hi) Hj Hw) as [_ Hlt].
      pose proof (E3 _ (qk_min_in _ _ _ (qk_facts _ _ _ _ (I_queue _ _ _ _ I i Hi))) Hlt).
      rewrite EX in E2. apply elem_of_app in E2 as [|E2]; [done|].
      apply elem_vers in E2. specialize (Hlow _ E2). lia.
  - unfold MvccInv.gc_ok. simpl. split; [done|]. destruct ys as [|[t' a'] ys]; [done|].
    pose proof Hys as (Et & _). injection Et as <-. exists a', ys. rewrite !upd_eq. split; [done|].
    intros l Hl Hin. pose proof (chain_NoDup _ _ _ Hch) as Hnd. rewrite fmap_app in Hnd.
    apply NoDup_app in Hnd as (_ & Hdis & _). apply (Hdis _ Hin). done.
Qed.

Lemma inv_free X s i min tmp b D m :
  INV X s -> (i < n)%nat -> chain (arena s i) tmp D -> b ∉ D.*1 ->
  (forall l, l ∈ b :: D.*1 -> l ∉ (X i).*1) ->
  free b (arena s i) = Some m ->
  INV X (set_collector (GCheck i min tmp (Some b) true) (set_arena i m s)).
Proof.
  intros I Hi HD Hb Hdis Hm.
  assert (cells m = delete b (cells (arena s i))) as Ecells.
  { unfold free in Hm. by case_match; simplify_eq. }
  assert (forall p xs, b ∉ xs.*1 -> chain (arena s i) p xs -> chain m p xs) as Hfr.
  { intros p xs Hnb. unfold chain. rewrite Ecells. by apply lseg_delete_fresh. }
  split.
  - apply (I_counter _ _ _ _ I).
  - by destruct (I_active _ _ _ _ I).
  - intros p Hp. pose proof (I_list _ _ _ _ I p Hp) as HL.
    destruct (decide (p = i)) as [->|Hpi].
    + destruct HL as [Hwf Hch Hso Hra Hac Hsum]. split; simpl; rewrite ?upd_eq; try done.
      * by eapply free_wf.
      * apply Hfr; [|done]. apply Hdis. by left.
    + eapply list_ok_thread; [exact HL|..]; simpl; rewrite ?upd_ne by done; done.
  - intros p Hp. by destruct (I_queue _ _ _ _ I p Hp).
  - intros j Hj. simpl. eapply thread_ok_mono; [..|by apply (I_thread _ _ _ _ I)]; [|done].
    intros p. simpl. upd_cases; [by eapply arena_ext_free|apply arena_ext_refl].
  - unfold MvccInv.gc_ok. simpl. split; [done|]. exists D. rewrite upd_eq.
    split; [by apply Hfr|]. intros l Hl. apply Hdis. by right.
Qed.

Lemma chain_cell (m : mem SinglyNode) t xs :
  chain m (Some t) xs -> exists a nx xs', xs = (t, a) :: xs' /\
    cells m !! t = Some (Cell a nx) /\ chain m nx xs'.
Proof.
  destruct xs as [|[t' a] xs']; [by intros ?|]. intros (E & nx & Hc & H).
  injection E as <-. eauto 10.
Qed.

(** The collector never makes a bad access. *)
Lemma inv_collector_step X s :
  INV X s -> exists s' X', Garvage_step n s = Some s' /\ INV X' s'.
Proof.
  intros I. pose proof (I_gc _ _ _ _ I) as G. unfold MvccInv.gc_ok in G. unfold Garvage_step.
  destruct (collector s) as [|i|i m|i m tmp back fl|i m t fl|i m tmp b|] eqn:E.
  - destruct (g_could_thread_run s), (g_is_verbosing s); eexists _, X;
      (split; [done|]); try (by apply inv_collector). done.
  - destruct (Nat.ltb_spec i n) as [Hi|Hi]; eexists _, X; (split; [done|]);
      apply inv_collector; done.
  - destruct G as [Hi Hm]. eexists _, X. split; [done|]. apply inv_collector; [done|].
    unfold MvccInv.gc_ok; simpl. split_and!; [done..|].
    pose proof (I_list _ _ _ _ I i Hi) as [_ Hch Hso _ _ (l & a & xs & EX & _)].
    exists [], (X i). split_and!; [done..|]. exists l, a, xs. split; [done|].
    pose proof (qk_min_in _ _ _ (qk_facts _ _ _ _ (I_queue _ _ _ _ I i Hi))) as Hin.
    rewrite EX in Hso, Hin. pose proof (head_max _ _ _ _ Hso Hin). lia.
  - destruct tmp as [t|].
    2:{ eexists _, X. split; [done|]. by apply inv_collector. }
    destruct fl.
    + destruct G as (Hi & D & HD & Hdis).
      destruct (chain_cell _ _ _ HD) as (a & nx & D' & -> & Hcell & _). rewrite Hcell. simpl.
      eexists _, X. split; [done|]. apply inv_collector; [done|].
      unfold MvccInv.gc_ok; simpl. split; [done|]. by exists a, D'.
    + destruct G as (Hi & Hm & xs1 & xs2 & EX & H2 & Hb).
      destruct (chain_cell _ _ _ H2) as (a & nx & xs2' & -> & Hcell & _). rewrite Hcell. simpl.
      destruct (Z.ltb_spec (sversion a) m) as [Hlt|Hge].
      * destruct back as [b|].
        2:{ destruct Hb as (l' & a' & xs' & [= <- <- <-] & Hge). lia. }
        destruct Hb as (ab & xs1' & ->).
        pose proof (I_list _ _ _ _ I i Hi) as [_ Hch Hso _ _ _]. rewrite EX in Hch, Hso.
        destruct (cut_chain _ _ _ _ _ _ _ Hch H2) as (m' & Hm' & _). rewrite Hm'. simpl.
        eexists _, _. split; [done|]. eapply (inv_cut X); try done.
        intros v Hv. apply (Z.le_lt_trans _ (sversion a)); [|done].
        rewrite vers_app in Hso. apply StronglySorted_app in Hso as (_ & _ & Hso).
        by eapply head_max.
      * eexists _, X. split; [done|]. apply inv_collector; [done|].
        unfold MvccInv.gc_ok; simpl. split_and!; [done..|]. by exists xs1, a, xs2'.
  - destruct fl.
    + destruct G as (Hi & a & D & HD & Hdis).
      destruct (chain_cell _ _ _ HD) as (a' & nx & D' & [= <- <-] & Hcell & HD'). rewrite Hcell. simpl.
      eexists _, X. split; [done|]. apply inv_collector; [done|].
      unfold MvccInv.gc_ok; simpl. split; [done|]. exists D. split_and!; [done|eauto| |done].
      apply chain_NoDup in HD. by apply NoDup_cons in HD as [? _].
    + destruct G as (Hi & Hm & xs1 & a & xs2 & EX).
      pose proof (I_list _ _ _ _ I i Hi) as [_ Hch _ _ _ _]. rewrite EX in Hch.
      apply lseg_suffix in Hch.
      destruct (chain_cell _ _ _ Hch) as (a' & nx & D' & [= <- <-] & Hcell & HD'). rewrite Hcell. simpl.
      eexists _, X. split; [done|]. apply inv_collector; [done|].
      unfold MvccInv.gc_ok; simpl. split_and!; [done..|].
      exists (xs1 ++ [(t, a)]), xs2. split_and!; [by rewrite <- app_assoc|done|eauto].
  - destruct G as (Hi & D & HD & [cb Hcb] & Hnb & Hdis).
    destruct (free b (arena s i)) as [m'|] eqn:Ef.
    2:{ unfold free in Ef. by rewrite Hcb in Ef. }
    simpl. eexists _, X. split; [done|]. by eapply inv_free.
  - eexists _, X. split; [done|]. done.
Qed.

(** ** The updaters *)

(** The reader looks at a node it holds no queue entry for. *)
Definition unregistered_read (t : tstate) : Prop :=
  match t with
  | TAddA L | TAddB L => is_thread_active L = false
  | _ => False
  end.

Lemma cursor_deref X s L :
  INV X s -> (picked_thread_index L < n)%nat -> cursor_ok X L -> is_thread_active L = true ->
  exists l a nx xs1 xs2, cursor_singly_node L = Some l /\
    cells (arena s (picked_thread_index L)) !! l = Some (Cell a nx) /\
    X (picked_thread_index L) = xs1 ++ (l, a) :: xs2 /\
    chain (arena s (picked_thread_index L)) nx xs2 /\
    forall v, v ∈ vers (X (picked_thread_index L)) ->
      v < active_thread_version L -> v <= sversion a.
Proof.
  intros I Hp Hc Hact. destruct (Hc Hact) as (l & a & E1 & E2 & E3).
  apply list_elem_of_split in E2 as (xs1 & xs2 & EX).
  pose proof (lk_chain _ _ _ _ (I_list _ _ _ _ I _ Hp)) as Hch. rewrite EX in Hch.
  apply lseg_suffix in Hch. destruct Hch as (_ & nx & Hcell & Hx2).
  exists l, a, nx, xs1, xs2. done.
Qed.

Lemma same_sum_add i a b x :
  same_sum S0 i a b -> same_sum S0 i (s32 (a + x)) (b - x).
Proof.
  unfold same_sum. intros <-. rewrite <- Zplus_mod_idemp_l, s32_mod, Zplus_mod_idemp_l.
  f_equal. lia.
Qed.

Lemma same_sum_sub i a b x :
  same_sum S0 i a (b - x) -> same_sum S0 i a (s32 (b - x)).
Proof.
  unfold same_sum. intros <-. by rewrite <- Zplus_mod_idemp_r, s32_mod, Zplus_mod_idemp_r.
Qed.

(** A registered reader that has not yet found its version has a next
    node: the bound of the collector is a version it may read. *)
Lemma inv_walk X s i L :
  INV X s -> (i < n)%nat -> thread s i = TWalk L ->
  exists s' X', ThreadFunc_step n i 0 s = Some s' /\ INV X' s'.
Proof.
  intros I Hi E. pose proof (I_thread _ _ _ _ I i Hi) as T. rewrite E in T.
  destruct T as ([Hp Hpi] & Hact & Hc & Hs).
  destruct (cursor_deref X s L I Hp Hc Hact) as (l & a & nx & xs1 & xs2 & Ecur & Hcell & EX & Hx2 & Hmax).
  unfold ThreadFunc_step. rewrite E, Ecur. simpl. rewrite Hcell. simpl.
  destruct (Z.ltb_spec (sversion a) (active_thread_version L)) as [Hlt|Hge];
    eexists _, X; (split; [done|]); (apply inv_local; rewrite ?E; try done); simpl; split_and!; try done.
  set (p := picked_thread_index L) in *.
  assert (waits_on p (thread s i) = Some (active_thread_version L)) as Hw.
  { unfold waits_on, registered. rewrite E. simpl. rewrite Hact. simpl. by rewrite decide_True. }
  destruct (reader_entry n s p _ i _ (I_queue _ _ _ _ I p Hp) Hi Hw) as [_ Hlt].
  pose proof (qk_min_in _ _ _ (qk_facts _ _ _ _ (I_queue _ _ _ _ I p Hp))) as Hin.
  pose proof (lk_sorted _ _ _ _ (I_list _ _ _ _ I p Hp)) as Hso.
  assert (forall v, v ∈ vers (X p) -> v < active_thread_version L -> v ∈ vers xs2) as Hafter.
  { intros v Hv Hvlt. rewrite EX in Hv, Hso. rewrite vers_app in Hv.
    apply elem_of_app in Hv as [Hv|[->|Hv]%elem_of_cons]; [|simpl in *; lia|done].
    pose proof (vers_sorted_app xs1 ((l, a) :: xs2) v (sversion a) Hso Hv ltac:(by left)). lia. }
  intros _. pose proof (Hafter _ Hin Hlt) as Hin2. simpl.
  destruct xs2 as [|[l2 a2] xs2]; [by apply elem_of_nil in Hin2|].
  pose proof Hx2 as (-> & _). exists l2, a2. fold p. split_and!; [done| |].
  - rewrite EX. apply elem_of_app. right. right. by left.
  - intros v Hv Hvlt. specialize (Hafter v Hv Hvlt). eapply head_max; [|exact Hafter].
    rewrite EX, vers_app in Hso. apply StronglySorted_app in Hso as (_ & _ & Hso).
    by inversion Hso.
Qed.

(** Reading the node under the cursor: safe for a registered reader. *)
Lemma inv_add X s i r :
  INV X s -> (i < n)%nat ->
  (exists L, thread s i = TAddA L \/ thread s i = TAddB L) ->
  match ThreadFunc_step n i r s with
  | Some s' => INV X s'
  | None => unregistered_read (thread s i)
  end.
Proof.
  intros I Hi (L & E). pose proof (I_thread _ _ _ _ I i Hi) as T. unfold ThreadFunc_step.
  assert (picks n i L /\ cursor_ok X L) as [[Hp Hpi] Hc]
    by (destruct E as [E|E]; rewrite E in T; simpl in T; tauto).
  assert (is_thread_active L = false \/
    exists c, deref (cursor_singly_node L) (arena s (picked_thread_index L)) = Some c) as Hd.
  { destruct (is_thread_active L) eqn:Ha; [right|by left].
    destruct (cursor_deref X s L I Hp Hc Ha) as (l & a & nx & _ & _ & -> & Hcell & _).
    simpl. eauto. }
  destruct E as [E|E]; rewrite E in *; simpl in T;
    destruct (deref (cursor_singly_node L) (arena s (picked_thread_index L))) as [c|] eqn:Ed;
    simpl; try (destruct Hd as [|[? ?]]; [done|done]).
  - apply inv_local; rewrite ?E; try done. simpl. split_and!; [done..|].
    destruct (cursor_singly_node L) as [l|] eqn:El; [|done]. simpl in Ed. exists l.
    pose proof (lk_wf _ _ _ _ (I_list _ _ _ _ I _ Hp) _ _ Ed) as Hl.
    split_and!; [done..|]. intros c' Hc'. rewrite Ed in Hc'. injection Hc' as <-.
    apply same_sum_add. tauto.
  - apply inv_local; rewrite ?E; try done. simpl. split; [done|].
    destruct T as (_ & _ & l & El & _ & Hs). rewrite El in Ed. simpl in Ed.
    apply same_sum_sub. by apply Hs.
Qed.

Lemma inv_thread_step X s i r :
  INV X s -> (i < n)%nat ->
  match ThreadFunc_step n i r s with
  | Some s' => g_atomic_counter s' < 2 ^ 31 -> exists X', INV X' s'
  | None => unregistered_read (thread s i)
  end.
Proof.
  intros I Hi. pose proof (I_thread _ _ _ _ I i Hi) as T.
  destruct (thread s i) as [|p|L|L|L|L|L|L|L| |] eqn:E.
  6-7: (pose proof (inv_add X s i r I Hi) as Hadd; rewrite E in Hadd;
    specialize (Hadd ltac:(exists L; tauto)); destruct (ThreadFunc_step n i r s); eauto).
  all: unfold ThreadFunc_step; rewrite E; simpl in T.
  - destruct (g_could_thread_run s), (g_is_verbosing s); simpl; try (intros _; by exists X);
      try (intros _; exists X; apply inv_local; rewrite ?E; done).
    destruct (Nat.eqb_spec (r mod n) i) as [Hri|Hri]; simpl; intros _; exists X; [done|].
    apply inv_local; rewrite ?E; try done. simpl. split; [|done]. apply Nat.mod_upper_bound. lia.
  - destruct (begin_update i p s) as [s' L] eqn:Eb. intros Hlt. exists X.
    eapply inv_begin; [exact I|done|exact E| |exact Eb].
    assert (g_atomic_counter s' = u64 (g_atomic_counter s + 1)) as Ec.
    { unfold begin_update in Eb. case_match; by injection Eb as <- <-. }
    pose proof (I_counter _ _ _ _ I). simpl in Hlt. rewrite Ec, u64_small in Hlt; lia.
  - intros _. exists X. apply inv_local; rewrite ?E; try done. simpl.
    destruct T as [Hp Hpi]. split; [done|]. intros _. simpl.
    pose proof (I_list _ _ _ _ I _ Hp) as [_ Hch Hso _ _ (l & a & xs & EX & _)].
    rewrite EX in Hch, Hso. destruct Hch as (Eh & _). exists l, a. split_and!; [done| |].
    + rewrite EX. by left.
    + intros v Hv _. rewrite EX in Hv. by eapply head_max.
  - pose proof (I_list _ _ _ _ I i Hi) as [_ Hch _ _ _ (l & a & xs & EX & Hs)].
    rewrite EX in Hch. destruct Hch as (-> & nx & Hcell & _). simpl. rewrite Hcell. simpl.
    intros _. exists X. destruct (is_thread_active L) eqn:Ha; apply inv_local; rewrite ?E; try done;
      simpl; tauto.
  - destruct (inv_walk X s i L I Hi E) as (s' & X' & Hw & HI).
    unfold ThreadFunc_step in Hw. rewrite E in Hw. rewrite Hw. eauto.
  - intros _. eexists. by apply inv_insert.
  - destruct (inv_end X s i L I Hi E) as (s' & -> & HI). simpl. eauto.
  - intros _. exists X. eapply (inv_ext X (set_thread i TTop s)); try done.
    apply inv_local; by rewrite ?E.
  - intros _. by exists X.
Qed.

Lemma inv_exec X s e :
  INV X s ->
  match exec n e s with
  | Some s' => g_atomic_counter s' < 2 ^ 31 -> exists X', INV X' s'
  | None => exists i r, e = EvThread i r /\ unregistered_read (thread s i)
  end.
Proof.
  intros I. destruct e as [i r| |b|]; simpl.
  - destruct (Nat.ltb_spec i n) as [Hi|]; [|by eauto].
    pose proof (inv_thread_step X s i r I Hi) as H.
    destruct (ThreadFunc_step n i r s); [done|]. eauto.
  - destruct (inv_collector_step X s I) as (s' & X' & -> & HI). eauto.
  - intros _. exists X. by eapply inv_ext; [..|exact I].
  - intros _. exists X. by eapply inv_ext; [..|exact I].
Qed.
End threads.
End MvccSafety.
