(* ===== verification/MvccMain.v ===== *)
(** * The main program of Project2 ([src/Project2/src/Project2.cpp], lines 159-302)

    Argument checking, the set-up of the shared data, the verbose dump and the
    final report, and the end-to-end theorems about whole runs of the
    program. *)

From stdpp Require Import strings.
From Stdlib Require Import Ascii.
From S2P Require Import Prelude LinkedHeap VersionLists Mvcc MvccInv MvccSafety.

Local Open Scope Z_scope.

Module MvccMain.
Import Active Mvcc MvccInv MvccSafety.

(** ** Command line *)

Definition is_digit (c : ascii) : bool :=
  (48 <=? Z.of_nat (nat_of_ascii c)) && (Z.of_nat (nat_of_ascii c) <=? 57).

Definition is_space (c : ascii) : bool :=
  let k := Z.of_nat (nat_of_ascii c) in (k =? 32) || ((9 <=? k) && (k <=? 13)).

Fixpoint atoi_digits (acc : Z) (l : string) : Z :=
  match l with
  | String c l' =>
      if is_digit c then atoi_digits (10 * acc + (Z.of_nat (nat_of_ascii c) - 48)) l' else acc
  | EmptyString => acc
  end.

Fixpoint atoi (l : string) : Z :=
  match l with
  | EmptyString => 0
  | String c l' =>
      if is_space c then atoi l'
      else if (Z.of_nat (nat_of_ascii c) =? 45) then - atoi_digits 0 l'
      else if (Z.of_nat (nat_of_ascii c) =? 43) then atoi_digits 0 l'
      else atoi_digits 0 l
  end.

Inductive startup :=
| BadArguments
| Config (num_thread duration : Z) (verbose : bool).

(** [argv] includes the program name (lines 165-181). *)
Definition parse_args (argv : list string) : startup :=
  match argv with
  | [_; a1; a2] => Config (atoi a1) (atoi a2) false
  | [_; a1; a2; a3] =>
      if String.eqb "verbose" a3 then Config (atoi a1) (atoi a2) true else BadArguments
  | _ => BadArguments
  end.

(** the program starts exactly when it gets a thread count and a
    duration, with the literal word [verbose] as the only optional third
    argument; anything else is refused. *)
Theorem parse_args_accepts argv :
  parse_args argv <> BadArguments <->
  (exists p a1 a2, argv = [p; a1; a2]) \/ (exists p a1 a2, argv = [p; a1; a2; "verbose"%string]).
Proof.
  split.
  - destruct argv as [|p [|a1 [|a2 [|a3 [|a4 rest]]]]]; cbn [parse_args]; try (by intros []); [left; eauto|].
    destruct (String.eqb_spec "verbose" a3) as [<-|]; [right; eauto|by intros []].
  - intros [(p & a1 & a2 & ->)|(p & a1 & a2 & ->)]; done.
Qed.

(** ** Set-up of the shared data (lines 184-208) *)

Section program.
Context (g_num_thread : nat).
(** The values of [rand() % 1000] for the initial [a] and [b] of a thread,
    and what [malloc] left in the queue blocks and in the throughput array. *)
Context (a b : nat -> Z) (raw_queue : nat -> GQueue.Queue) (raw_throughput : nat -> Z).

Definition queue_of (q : GQueue.Queue) : queue :=
  mkQ [] (GQueue.minimum q) (GQueue.delete_front q).

Definition allocate : state :=
  mkState 0 [] (fun _ => empty_mem) (fun _ => None)
    (fun i => queue_of (GQueue.CreateQueue (raw_queue i)))
    raw_throughput true false (fun _ => TTop) GTop.

Definition main_init : state :=
  foldl (fun s i => InsertSinglyList i (a i) (b i) 0 s) allocate (seq 0 g_num_thread).

Definition before_correctness : Z :=
  foldl (fun acc i => s32 (acc + s32 (a i + b i))) 0 (seq 0 g_num_thread).

(** ** The final report (lines 286-299) *)

Definition head_value (s : state) (i : nat) : option Z :=
  c ← deref (g_singly_list s i) (arena s i);
  Some (s32 (A (payload c) + B (payload c))).

Definition after_correctness (s : state) : option Z :=
  foldl (fun acc i => x ← acc; y ← head_value s i; Some (s32 (x + y)))
    (Some 0) (seq 0 g_num_thread).

Definition total_throughput (s : state) : Z :=
  foldl (fun acc i => u64 (acc + g_thread_throughput s i)) 0 (seq 0 g_num_thread).

Definition total_throughput_s (s : state) : Z :=
  foldl (fun acc i => u64 (acc + u64 (g_thread_throughput s i * g_thread_throughput s i)))
    0 (seq 0 g_num_thread).

(** Line 298 divides an unsigned 64-bit value by the [int] duration, which
    is converted; a zero duration is undefined. *)
Definition throughput_per_second (s : state) (duration : Z) : option Z :=
  if u64 duration =? 0 then None else Some (g_atomic_counter s / u64 duration).

(** The verbose dump of one thread (lines 246-265): the size in bytes, the
    versions, newest first, and the newest version. *)
Definition sizeof_SinglyNode : Z := 24.

Fixpoint dump_loop (fuel : nat) (m : mem SinglyNode) (tmp : option loc) : option (list Z) :=
  match fuel with
  | O => None
  | S fuel' =>
      match tmp with
      | None => Some []
      | Some l =>
          c ← cells m !! l;
          rest ← dump_loop fuel' m (link c);
          Some (sversion (payload c) :: rest)
      end
  end.

Definition verbose_dump (s : state) (i : nat) : option (Z * list Z * Z) :=
  first ← deref (g_singly_list s i) (arena s i);
  versions ← dump_loop (S (brk (arena s i))) (arena s i) (g_singly_list s i);
  Some (u64 (Z.of_nat (length versions) * sizeof_SinglyNode), versions,
        sversion (payload first)).

(** ** Runs in which the version counter stays below [2^31] *)

Definition bounded_step (s s' : state) : Prop :=
  step g_num_thread s s' /\ g_atomic_counter s' < 2 ^ 31.

Definition reachable (s : state) : Prop := rtc bounded_step main_init s.

Lemma insert_singly_other i j x y v s :
  i <> j -> arena (InsertSinglyList i x y v s) j = arena s j /\
    g_singly_list (InsertSinglyList i x y v s) j = g_singly_list s j.
Proof. intros. simpl. by rewrite !upd_ne. Qed.

(** The part of the state [InsertSinglyList] leaves alone. *)
Definition same_rest (s s' : state) : Prop :=
  g_atomic_counter s' = g_atomic_counter s /\ g_active_list s' = g_active_list s /\
  g_queue s' = g_queue s /\ thread s' = thread s /\ collector s' = collector s /\
  g_thread_throughput s' = g_thread_throughput s.

Lemma init_loop k d s :
  (forall i, (k <= i)%nat -> arena s i = empty_mem /\ g_singly_list s i = None) ->
  let s' := foldl (fun s i => InsertSinglyList i (a i) (b i) 0 s) s (seq k d) in
  same_rest s s' /\
  (forall i, (i < k)%nat -> arena s' i = arena s i /\ g_singly_list s' i = g_singly_list s i) /\
  (forall i, (k <= i < k + d)%nat ->
     arena s' i = Mem {[ 0%nat := Cell (mkSingly (a i) (b i) 0) None ]} 1%nat /\
     g_singly_list s' i = Some 0%nat).
Proof.
  revert k s. induction d as [|d IH]; intros k s Hs; simpl.
  - split_and!; try done. intros i Hi. lia.
  - destruct (IH (S k) (InsertSinglyList k (a k) (b k) 0 s)) as (H1 & H2 & H3).
    { intros i Hi. rewrite !(proj1 (insert_singly_other k i _ _ _ _ ltac:(lia))),
        !(proj2 (insert_singly_other k i _ _ _ _ ltac:(lia))). apply Hs. lia. }
    split_and!.
    + done.
    + intros i Hi. destruct (H2 i) as [-> ->]; [lia|]. by apply insert_singly_other; lia.
    + intros i Hi. destruct (decide (i = k)) as [->|]; [|apply H3; lia].
      destruct (H2 k) as [-> ->]; [lia|]. destruct (Hs k) as [E1 E2]; [lia|].
      unfold InsertSinglyList. rewrite E1, E2. simpl. by rewrite !upd_eq.
Qed.

(** The value of the version list of a thread in the initial state. *)
Definition initial_list (p : nat) : list node := [(0%nat, mkSingly (a p) (b p) 0)].

Definition S0 (p : nat) : Z := a p + b p.

(** Fresh pages come zeroed from the kernel; a recycled block need not be. *)
Definition zeroed_queues : Prop :=
  forall p, (p < g_num_thread)%nat ->
    GQueue.minimum (raw_queue p) = 0 /\ GQueue.delete_front (raw_queue p) = 0.

Lemma main_init_inv : zeroed_queues -> INV g_num_thread S0 initial_list main_init.
Proof.
  intros Hz. destruct (init_loop 0 g_num_thread allocate) as (H1 & _ & H3); [done|].
  fold main_init in H1, H3. destruct H1 as (Ec & Ea & Eq & Et & Eg & _).
  split; rewrite ?Ec, ?Ea, ?Eq, ?Et, ?Eg; simpl.
  - lia.
  - split; rewrite ?Ec, ?Ea, ?Eq, ?Et, ?Eg; simpl; [constructor| |done].
    intros i v. split; [by intros ?%elem_of_nil|by intros [_ ?]].
  - intros p Hp. destruct (H3 p) as [E1 E2]; [lia|]. split; rewrite ?E1, ?E2, ?Ec, ?Et; try done.
    + intros l c. simpl. rewrite lookup_singleton_Some. lia.
    + unfold chain; simpl. split; [done|]. exists None. split; [|done]. apply lookup_singleton_eq.
    + repeat constructor.
    + repeat constructor; simpl; lia.
    + do 3 eexists. split; [done|]. done.
  - intros p Hp. destruct (Hz p Hp) as [Em Ed]. split; rewrite ?Eq, ?Et; simpl.
    + split; simpl; rewrite ?Em, ?Ed; try done; [by left|constructor|].
      intros v [->|[]%elem_of_nil]%elem_of_cons. left. by left.
    + unfold pending. simpl. induction (seq 0 g_num_thread); [done|]. done.
  - intros i Hi. done.
  - unfold gc_ok. by rewrite Eg.
Qed.

Lemma main_reachable_inv s : zeroed_queues -> reachable s -> exists X, INV g_num_thread S0 X s.
Proof.
  intros Hz. apply (rtc_invariant bounded_step (fun s => exists X, INV g_num_thread S0 X s)).
  - exists initial_list. by apply main_init_inv.
  - intros s1 s2 [X I] [[e He] Hb]. pose proof (inv_exec g_num_thread S0 X s1 e I) as H.
    rewrite He in H. by apply H.
Qed.

Lemma head_value_sum X s i :
  INV g_num_thread S0 X s -> (i < g_num_thread)%nat ->
  head_value s i = Some (s32 (a i + b i)).
Proof.
  intros I Hi. pose proof (I_list _ _ _ _ I i Hi) as [_ Hch _ _ _ (l & nd & xs & EX & Hs)].
  rewrite EX in Hch. destruct Hch as (E & nx & Hcell & _). unfold head_value.
  rewrite E. simpl. rewrite Hcell. simpl. f_equal. by apply s32_eq_mod.
Qed.

(** C2: in a run whose queue blocks come zeroed from [malloc]
    ([zeroed_queues]) and that keeps the version counter below [2^31]
    ([bounded_step]) the program's own correctness check never fails: however
    the updates and the collections of all the threads interleave, the sum of
    [A + B] over the newest versions that [main] prints at the end
    ([after_correctness]) equals the sum over the initial values
    ([before_correctness]), also when the [int] values wrap around, as two's
    complement machines do where C++ leaves the overflow undefined.  Without
    zeroed queues a run can fault, [uninitialised_minimum_null_deref]. *)
Theorem correctness_check_holds s :
  zeroed_queues -> reachable s -> after_correctness s = Some before_correctness.
Proof.
  intros Hz Hr. destruct (main_reachable_inv s Hz Hr) as [X I].
  unfold after_correctness, before_correctness. generalize 0.
  assert (forall i, i ∈ seq 0 g_num_thread -> (i < g_num_thread)%nat) as Hin
    by (intros i [_ ?]%elem_of_seq; lia).
  induction (seq 0 g_num_thread) as [|i l IH]; intros x; [done|]. simpl.
  rewrite (head_value_sum X s i I) by (apply Hin; by left). simpl.
  apply IH. intros j Hj. apply Hin. by right.
Qed.

(** C3: in a run whose queue blocks come zeroed from [malloc]
    ([zeroed_queues]) and that keeps the version counter below [2^31]
    ([bounded_step]) the collector, the updaters and the registered readers
    never make a bad access: the only step that can be undefined is the read of
    a picked node by a thread that found the picked thread inactive and
    therefore holds no queue entry. *)
Theorem only_unregistered_reads_fault s e :
  zeroed_queues -> reachable s -> exec g_num_thread e s = None ->
  exists i r, e = EvThread i r /\ unregistered_read (thread s i).
Proof.
  intros Hz Hr He. destruct (main_reachable_inv s Hz Hr) as [X I].
  pose proof (inv_exec g_num_thread S0 X s e I) as H. by rewrite He in H.
Qed.

Lemma dump_loop_chain fuel m p xs :
  chain m p xs -> (length xs < fuel)%nat -> dump_loop fuel m p = Some (vers xs).
Proof.
  revert p xs. induction fuel as [|fuel IH]; intros p xs Hc Hf; [lia|]. simpl.
  destruct xs as [|[l nd] xs]; [by rewrite Hc|]. destruct Hc as (-> & nx & Hcell & Hc).
  rewrite Hcell. simpl. rewrite (IH nx xs Hc) by (simpl in Hf; lia). done.
Qed.

(** a verbose dump terminates without a bad access, prints the versions
    of the list strictly decreasing, starting with the newest one, none of
    them above the version counter, and 24 bytes for each of them. *)
Theorem verbose_dump_descending s p :
  zeroed_queues -> reachable s -> (p < g_num_thread)%nat ->
  exists vs newest, verbose_dump s p = Some (u64 (Z.of_nat (length vs) * 24), vs, newest) /\
    StronglySorted Z.gt vs /\ head vs = Some newest /\
    Forall (fun v => 0 <= v <= g_atomic_counter s) vs.
Proof.
  intros Hz Hr Hp. destruct (main_reachable_inv s Hz Hr) as [X I].
  pose proof (I_list _ _ _ _ I p Hp) as [Hwf Hch Hso Hra _ (l & nd & xs & EX & _)].
  exists (vers (X p)), (sversion nd). unfold verbose_dump.
  rewrite (dump_loop_chain _ _ _ _ Hch) by (pose proof (chain_length _ _ _ Hwf Hch); lia).
  pose proof Hch as Hch'. rewrite EX in Hch'. destruct Hch' as (E & nx & Hcell & _).
  rewrite E. simpl. rewrite Hcell. simpl. split_and!; [done..| |done]. by rewrite EX.
Qed.
End program.

(** ** Concrete runs *)

Definition raw_zero : nat -> GQueue.Queue := fun _ => GQueue.mkQueue 0 0 0 None None.

Definition demo : state := main_init 3 (fun _ => 541) (fun _ => 300) raw_zero (fun _ => 0).

Definition steps (i r k : nat) : list event := replicate k (EvThread i r).

(** Thread 1 reads the head of list 0 while thread 0 is inactive and is then
    delayed; thread 0 publishes two versions, each read by thread 2. *)
Definition two_rounds : list event :=
  steps 1 0 4 ++
  steps 0 1 2 ++ steps 2 0 2 ++ steps 0 1 8 ++ steps 2 0 9 ++
  steps 0 1 2 ++ steps 2 0 2 ++ steps 0 1 8 ++ steps 2 0 10.

Definition collect_list_0 : list event := replicate 10 EvCollector.

Fixpoint run_bounded (n : nat) (es : list event) (s : state) : option state :=
  match es with
  | [] => Some s
  | e :: es' =>
      s1 ← exec n e s;
      if g_atomic_counter s1 <? 2 ^ 31 then run_bounded n es' s1 else None
  end.

Lemma run_bounded_rtc n es s s' :
  run_bounded n es s = Some s' -> rtc (bounded_step n) s s'.
Proof.
  revert s. induction es as [|e es IH]; intros s H; simplify_eq/=; [done|].
  apply bind_Some in H as (s1 & H1 & H2).
  destruct (Z.ltb_spec (g_atomic_counter s1) (2 ^ 31)); [|done].
  eapply rtc_l; [split; [by econstructor|done]|by apply IH].
Qed.

Lemma demo_run :
  exists s L, run_bounded 3 (two_rounds ++ collect_list_0) demo = Some s /\
    thread s 1 = TAddA L /\ is_thread_active L = false /\ exec 3 (EvThread 1 0) s = None.
Proof.
  assert (run_bounded 3 (two_rounds ++ collect_list_0) demo ≫= (fun s =>
    match thread s 1, exec 3 (EvThread 1 0) s with
    | TAddA L, None => Some (is_thread_active L)
    | _, _ => None end) = Some false) as H by (vm_compute; reflexivity).
  generalize dependent (run_bounded 3 (two_rounds ++ collect_list_0) demo). intros o H.
  apply bind_Some in H as (s & Hs & H). exists s.
  destruct (thread s 1) as [| | | | |L| | | | |], (exec 3 (EvThread 1 0) s); try discriminate H.
  injection H as H. exists L. done.
Qed.

Lemma correctness_check_holds_witness :
  exists s, reachable 3 (fun _ => 541) (fun _ => 300) raw_zero (fun _ => 0) s /\
    0 < g_atomic_counter s /\ after_correctness 3 s = Some 2523.
Proof.
  assert (run_bounded 3 two_rounds demo ≫= (fun s => Some (g_atomic_counter s)) = Some 5) as H
    by (vm_compute; reflexivity).
  apply bind_Some in H as (s & Hs & [= H5]). exists s.
  assert (reachable 3 (fun _ => 541) (fun _ => 300) raw_zero (fun _ => 0) s) as Hr
    by (by eapply run_bounded_rtc).
  split; [exact Hr|]. split; [rewrite H5; lia|].
  rewrite (correctness_check_holds 3 (fun _ => 541) (fun _ => 300) raw_zero (fun _ => 0) s).
  - vm_compute. reflexivity.
  - intros p Hp. split; reflexivity.
  - exact Hr.
Defined.

Lemma only_unregistered_reads_fault_witness :
  exists s, exec 3 (EvThread 1 0) s = None /\
    exists i r, EvThread 1 0 = EvThread i r /\ unregistered_read (thread s i).
Proof.
  destruct demo_run as (s & L & Hs & _ & _ & He). exists s. split; [exact He|].
  apply (only_unregistered_reads_fault 3 (fun _ => 541) (fun _ => 300) raw_zero (fun _ => 0) s).
  - intros p Hp. split; reflexivity.
  - by eapply run_bounded_rtc.
  - exact He.
Defined.

Lemma verbose_dump_descending_witness :
  exists s vs newest, verbose_dump s 0 = Some (u64 (Z.of_nat (length vs) * 24), vs, newest) /\
    StronglySorted Z.gt vs /\ vs = [4; 2].
Proof.
  assert (run_bounded 3 (two_rounds ++ collect_list_0) demo ≫= (fun s => verbose_dump s 0)
    = Some (48, [4; 2], 4)) as H by (vm_compute; reflexivity).
  apply bind_Some in H as (s & Hs & H).
  destruct (verbose_dump_descending 3 (fun _ => 541) (fun _ => 300) raw_zero (fun _ => 0) s 0)
    as (vs & newest & E & Hso & _).
  - intros p Hp. split; reflexivity.
  - by eapply run_bounded_rtc.
  - lia.
  - exists s, vs, newest. split; [exact E|]. split; [exact Hso|].
    rewrite H in E. injection E as _ <- _. reflexivity.
Defined.

(** a reader that found the picked thread inactive holds a bare pointer:
    three threads and one collection are enough for the collector to free the
    node it is about to read.  The run uses zeroed queue blocks, and the read
    is undefined. *)
Theorem unregistered_reader_use_after_free :
  exists s i L, reachable 3 (fun _ => 541) (fun _ => 300) raw_zero (fun _ => 0) s /\
    thread s i = TAddA L /\ is_thread_active L = false /\
    exec 3 (EvThread i 0) s = None.
Proof.
  destruct demo_run as (s & L & Hs & Ht & Ha & He). exists s, 1%nat, L.
  split_and!; [by eapply run_bounded_rtc|assumption..].
Qed.

(** the [minimum] of a queue is never initialised: when [malloc] returns
    a block that holds a 1 there, the first collection dereferences the null
    [back] pointer before any update was made. *)
Theorem uninitialised_minimum_null_deref :
  exists raw s, run 1 [EvCollector; EvCollector; EvCollector]
      (main_init 1 (fun _ => 541) (fun _ => 300) raw (fun _ => 0)) = Some s /\
    g_atomic_counter s = 0 /\ exec 1 EvCollector s = None.
Proof.
  exists (fun _ => GQueue.mkQueue 0 1 0 None None). eexists.
  split; [reflexivity|]. split; reflexivity.
Qed.
End MvccMain.
