(* ===== verification/MvccRefine.v ===== *)
(** * The critical sections on the heap refine those on lists

    [Mvcc] keeps the active list and the queues as plain lists.  Here the two
    critical sections of [ThreadFunc] (lines 534-548 and 581-601) are written
    with the pointer-level functions of [VersionLists], and shown to simulate
    [begin_update] and [end_update] of [Mvcc] through the representation
    relation of the active list and of the queues. *)

From S2P Require Import Prelude LinkedHeap VersionLists Mvcc.

Local Open Scope Z_scope.

Module MvccRefine.
Import Active Mvcc.

(** The memory the critical sections work on; queue [p] has its nodes in
    [q_mem p]. *)
Record hstate := mkHeap {
  h_counter : Z;
  h_active : astate;
  q_mem : nat -> mem Z;
  q_desc : nat -> GQueue.Queue
}.

(** Lines 539-548: the cursor over the snapshot. *)
Fixpoint find_cursor (fuel : nat) (p : nat) (m : mem ActiveNode) (cursor : option loc)
    : option (option ActiveNode) :=
  match fuel with
  | O => None
  | S fuel' =>
      match cursor with
      | None => Some None
      | Some l =>
          c ← cells m !! l;
          if (index_thread (payload c) =? p)%nat then Some (Some (payload c))
          else find_cursor fuel' p m (link c)
      end
  end.

Definition begin_update_heap (i p : nat) (h : hstate)
    : option (hstate * locals * option loc) :=
  let cv := u64 (h_counter h + 1) in
  let st1 := InsertGlobalActiveList i cv (h_active h) in
  '(cap, st2) ← CaptureActiveList st1;
  found ← find_cursor (S (brk (a_mem st2))) p (a_mem st2) cap;
  match found with
  | Some node =>
      '(m', q') ← GQueue.AddRear (q_mem h p) (q_desc h p) (version node);
      Some (mkHeap cv st2 (upd (q_mem h) p m') (upd (q_desc h) p q'),
            mkLocals cv p true (version node) None 0 0, cap)
  | None => Some (mkHeap cv st2 (q_mem h) (q_desc h), mkLocals cv p false 0 None 0 0, cap)
  end.

(** Lines 583-600 on the queue of the picked thread. *)
Definition finish_queue_heap (v : Z) (m : mem Z) (q : GQueue.Queue)
    : option (mem Z * GQueue.Queue) :=
  f ← deref (GQueue.front q) m;
  if payload f =? v then
    '(m1, q1) ← GQueue.RemoveFront m q;
    min' ← match GQueue.front q1 with
           | Some l =>
               c ← cells m1 !! l;
               Some (if negb (payload c =? v) then v else GQueue.minimum q1)
           | None =>
               Some (if negb (GQueue.delete_front q1 =? v) then GQueue.delete_front q1
                     else GQueue.minimum q1)
           end;
    Some (m1, GQueue.mkQueue (GQueue.count q1) min' v (GQueue.front q1) (GQueue.rear q1))
  else GQueue.RemoveVersion m q v.

Definition end_update_heap (i : nat) (L : locals) (h : hstate) : option hstate :=
  st ← DeleteGlobalActiveList i (h_active h);
  if is_thread_active L then
    let p := picked_thread_index L in
    '(m', q') ← finish_queue_heap (active_thread_version L) (q_mem h p) (q_desc h p);
    Some (mkHeap (h_counter h) st (upd (q_mem h) p m') (upd (q_desc h) p q'))
  else Some (mkHeap (h_counter h) st (q_mem h) (q_desc h)).

(** ** The representation relation *)

Definition queue_matches (m : mem Z) (d : GQueue.Queue) (q : queue) : Prop :=
  GQueue.queue_rep m d (qitems q) /\ GQueue.minimum d = qminimum q /\
  GQueue.delete_front d = qdelete_front q.

Record represents (h : hstate) (s : state) : Prop := Represents {
  rep_counter : h_counter h = g_atomic_counter s;
  rep_active : active_rep (h_active h) (Mvcc.g_active_list s);
  rep_queue p : queue_matches (q_mem h p) (q_desc h p) (g_queue s p)
}.

Lemma find_cursor_spec fuel p m cap cs :
  chain m cap cs -> (length cs < fuel)%nat ->
  find_cursor fuel p m cap = Some (List.find (has_index p) cs.*2).
Proof.
  revert cap cs. induction fuel as [|fuel IH]; intros cap cs Hc Hf; [lia|]. simpl.
  destruct cs as [|[l nd] cs]; [by rewrite Hc|]. destruct Hc as (-> & nx & Hcell & Hc).
  rewrite Hcell. simpl. unfold has_index at 1.
  destruct (Nat.eqb_spec (index_thread nd) p); [done|]. apply IH; [done|]. simpl in Hf. lia.
Qed.

(** The first critical section of [ThreadFunc], run on the linked lists
    in memory, terminates without a bad access and does what [begin_update]
    does on lists: same locals, same new state, and the snapshot pointer it
    returns holds the active list, the thread itself included. *)
Lemma begin_update_refines h s i p :
  represents h s -> Z.of_nat (length (qitems (g_queue s p))) + 1 < 2 ^ 64 ->
  exists h' cap cs, begin_update_heap i p h = Some (h', (begin_update i p s).2, cap) /\
    represents h' (begin_update i p s).1 /\
    chain (a_mem (h_active h')) cap cs /\
    cs.*2 = reverse (Mvcc.g_active_list (begin_update i p s).1).
Proof.
  intros [Hcnt Hact Hq] Hlen. unfold begin_update_heap, begin_update. rewrite Hcnt.
  set (cv := u64 (g_atomic_counter s + 1)).
  pose proof (insert_rep _ _ i cv Hact) as Hact1.
  destruct (CaptureActiveList_correct _ _ Hact1) as (cap & st2 & cs & -> & Hact2 & _ & Hch & Hcs & _).
  cbn [mbind option_bind]. destruct Hact2 as [Hwf2 Hact2].
  rewrite (find_cursor_spec _ p _ _ _ Hch)
    by (pose proof (chain_length _ _ _ Hwf2 Hch); lia).
  rewrite Hcs. simpl. unfold find_active.
  destruct (List.find (has_index p) _) as [nd|] eqn:Ef.
  - destruct (Hq p) as (Hrep & Hmin & Hdf).
    destruct (GQueue.AddRear_correct _ _ _ (version nd) Hrep Hlen) as (m' & q' & -> & Hrep' & Hm' & Hd').
    simpl. do 3 eexists. split; [done|]. split_and!; simpl.
    + split; simpl; [done|by split|]. intros p'. upd_cases; [|done].
      split_and!; simpl; [done|by rewrite Hm'|by rewrite Hd'].
    + exact Hch.
    + done.
  - do 3 eexists. split; [done|]. split_and!; simpl; [|exact Hch|done].
    by split; [|split|].
Qed.

Lemma finish_queue_refines m d q v q' :
  queue_matches m d q -> finish_queue v q = Some q' ->
  exists m' d', finish_queue_heap v m d = Some (m', d') /\ queue_matches m' d' q'.
Proof.
  intros (Hrep & Hmin & Hdf) Hfin. unfold finish_queue in Hfin. unfold finish_queue_heap.
  destruct (qitems q) as [|f rest] eqn:Eq; [done|].
  pose proof Hrep as (xs & Hs & Exs). destruct xs as [|[l f'] xs]; [done|].
  injection Exs as -> Exs. pose proof Hs as (_ & (Efr & nx & Hcell & _) & _).
  rewrite Efr. simpl. rewrite Hcell. simpl.
  destruct (Z.eqb_spec f v) as [->|Hne].
  - destruct (GQueue.RemoveFront_shape m d l v xs Hs) as (m1 & d1 & -> & Hs1 & _ & _ & Hm1 & Hd1).
    simpl. pose proof Hs1 as (Hwf1 & Hc1 & Hcount1 & Hrear1 & Hlt1).
    destruct xs as [|[l2 f2] xs]; simpl in Exs; subst rest.
    + unfold chain in Hc1. simpl in Hc1. rewrite Hc1. simpl. do 2 eexists. split; [done|].
      injection Hfin as <-. split_and!; simpl; [|by rewrite Hm1, Hd1, Hmin, Hdf|done].
      exists []. split; [|done]. by split_and!.
    + pose proof Hc1 as (Efr1 & nx2 & Hcell2 & _). rewrite Efr1. simpl. rewrite Hcell2. simpl.
      do 2 eexists. split; [done|]. injection Hfin as <-.
      split_and!; simpl; [|by rewrite Hm1, Hmin|done].
      exists ((l2, f2) :: xs). split; [|done]. split_and!; simpl; try done. by rewrite <- Efr1.
  - destruct (GQueue.RemoveVersion_correct m d _ v Hrep) as (m' & d' & -> & Hrep' & Hm' & Hd').
    do 2 eexists. split; [done|]. injection Hfin as <-.
    split_and!; simpl; [|by rewrite Hm'|by rewrite Hd'].
    simpl in Hrep'. unfold GQueue.is_version in *.
    by rewrite (proj2 (Z.eqb_neq _ _) Hne) in *.
Qed.

(** The second critical section of [ThreadFunc], run on the linked lists
    in memory, simulates [end_update]: whenever the list-level section is
    defined, so is the pointer-level one, with the same result. *)
Lemma end_update_refines h s i L s' :
  represents h s -> end_update i L s = Some s' ->
  exists h', end_update_heap i L h = Some h' /\ represents h' s'.
Proof.
  intros [Hcnt Hact Hq] Hend. unfold end_update in Hend. unfold end_update_heap.
  destruct (DeleteGlobalActiveList_correct _ _ i Hact) as (st & -> & Hact').
  cbn [mbind option_bind]. destruct (is_thread_active L).
  - apply bind_Some in Hend as (q' & Hfin & [= <-]).
    destruct (finish_queue_refines _ _ _ _ _ (Hq (picked_thread_index L)) Hfin)
      as (m' & d' & -> & Hm'). simpl. eexists. split; [done|].
    split; simpl; [done..|]. intros p. by upd_cases.
  - injection Hend as <-. eexists. split; [done|]. by split.
Qed.

(** C4: the two critical sections of [ThreadFunc], run on the linked lists in
    memory, do what their descriptions on lists say.  The first one always
    terminates without a bad access, with the same locals and the same new
    state, and the snapshot pointer it returns holds the active list, the
    thread itself included.  The second one returns whenever its description
    does, with the same result. *)
Theorem update_sections_refine h s i : represents h s ->
  (forall p, Z.of_nat (length (qitems (g_queue s p))) + 1 < 2 ^ 64 ->
    exists h' cap cs, begin_update_heap i p h = Some (h', (begin_update i p s).2, cap) /\
      represents h' (begin_update i p s).1 /\
      chain (a_mem (h_active h')) cap cs /\
      cs.*2 = reverse (Mvcc.g_active_list (begin_update i p s).1)) /\
  (forall L s', end_update i L s = Some s' ->
    exists h', end_update_heap i L h = Some h' /\ represents h' s').
Proof.
  intros Hr. split; [intros p; by apply begin_update_refines|intros L s'; by apply end_update_refines].
Qed.

(** Thread 0 is active with version 1, no queue entry yet. *)
Definition abstract_state : state :=
  mkState 1 [mkActive 0 1] (fun _ => empty_mem) (fun _ => None) (fun _ => mkQ [] 0 0)
    (fun _ => 0) true false (fun _ => TTop) GTop.

Definition heap_state : hstate :=
  mkHeap 1 (InsertGlobalActiveList 0 1 (AState empty_mem None)) (fun _ => empty_mem)
    (fun _ => GQueue.CreateQueue (GQueue.mkQueue 0 0 0 None None)).

Lemma heap_state_represents : represents heap_state abstract_state.
Proof.
  split; simpl; [done| |].
  - apply insert_rep. split; [by intros ? ?|]. by exists [].
  - intros p. split_and!; [|done..]. by apply GQueue.CreateQueue_rep.
Qed.

Lemma update_sections_refine_witness :
  (exists h' cap cs, begin_update_heap 1 0 heap_state = Some (h', (begin_update 1 0 abstract_state).2, cap) /\
    represents h' (begin_update 1 0 abstract_state).1 /\ chain (a_mem (h_active h')) cap cs /\
    cs.*2 = [mkActive 0 1; mkActive 1 2]) /\
  (begin_update 1 0 abstract_state).2 = mkLocals 2 0 true 1 None 0 0 /\
  (exists h', end_update_heap 0 (mkLocals 1 1 false 0 None 0 0) heap_state = Some h' /\
    represents h' (set_active [] abstract_state)).
Proof.
  split_and!; [|reflexivity|].
  - apply (proj1 (update_sections_refine heap_state abstract_state 1 heap_state_represents) 0%nat). vm_compute. reflexivity.
  - apply (proj2 (update_sections_refine heap_state abstract_state 0 heap_state_represents)). reflexivity.
Defined.
End MvccRefine.
