(* ===== verification/DistGraph.v ===== *)
(** * The graph of the house-distance program (Project1/src/Project1.cpp)

    The vertex records, [InsertEdge] and the part of [main] that reads the
    input (lines 17-22, 127-174, 236-244), the neighbours a vertex has in the
    input, and walks and distances in that graph.  Every array access carries
    its bound: [None] is an access outside the block. *)
From S2P Require Import Prelude.

Module Graph.

Definition MAX_EDGE_NUM : nat := 10.

(** Struct [Vertex]: [house] is the last adjacent house that was inserted. *)
Record Vertex := mkVertex {
  count : nat;
  is_house : bool;
  adjacency : list nat;
  house_of : nat
}.

(** Lines 236-244. *)
Definition InsertEdge (house_vertice : list bool) (start stop : nat) (vertice : list Vertex)
  : option (list Vertex) :=
  v ← vertice !! start;
  if (count v <? MAX_EDGE_NUM)%nat then
    h ← house_vertice !! stop;
    let adj := <[count v := stop]> (adjacency v) in
    Some (<[start := if (h : bool) then mkVertex (S (count v)) true adj stop
                     else mkVertex (S (count v)) (is_house v) adj (house_of v)]> vertice)
  else None.

(** Lines 151-153. *)
Fixpoint mark_houses (house : list nat) (house_vertice : list bool) : option (list bool) :=
  match house with
  | [] => Some house_vertice
  | h :: house' =>
      if (h <? length house_vertice)%nat
      then mark_houses house' (<[h := true]> house_vertice) else None
  end.

(** The inner loop of lines 169-173 for one line of the input. *)
Fixpoint insert_ends (house_vertice : list bool) (start_vertex : nat) (ends : list nat)
    (vertice : list Vertex) : option (list Vertex) :=
  match ends with
  | [] => Some vertice
  | end_vertex :: ends' =>
      vs1 ← InsertEdge house_vertice start_vertex end_vertex vertice;
      vs2 ← InsertEdge house_vertice end_vertex start_vertex vs1;
      insert_ends house_vertice start_vertex ends' vs2
  end.

Fixpoint insert_lines (house_vertice : list bool) (lines : list (nat * list nat))
    (vertice : list Vertex) : option (list Vertex) :=
  match lines with
  | [] => Some vertice
  | (start_vertex, ends) :: lines' =>
      vs ← insert_ends house_vertice start_vertex ends vertice;
      insert_lines house_vertice lines' vs
  end.

(** Lines 142-176: both arrays come from [malloc], which leaves in them what
    the blocks held before. *)
Definition read_graph (house : list nat) (lines : list (nat * list nat))
    (raw_vertice : list Vertex) (raw_house_vertice : list bool) : option (list Vertex) :=
  hv ← mark_houses house raw_house_vertice;
  insert_lines hv lines raw_vertice.

(** ** What the arrays hold *)

(** The directed edges the input inserts, in the order of insertion. *)
Definition darts (lines : list (nat * list nat)) : list (nat * nat) :=
  flat_map (fun l => flat_map (fun e => [(l.1, e); (e, l.1)]) l.2) lines.

Definition nbrs (es : list (nat * nat)) (v : nat) : list nat :=
  (List.filter (fun e => Nat.eqb e.1 v) es).*2.

Definition zero_vertex : Vertex := mkVertex 0 false (replicate MAX_EDGE_NUM 0%nat) 0.

(** A vertex record describes the neighbour list [ns]. *)
Definition vertex_ok (is_h : nat -> bool) (ns : list nat) (x : Vertex) : Prop :=
  count x = length ns /\ length (adjacency x) = MAX_EDGE_NUM /\
  take (count x) (adjacency x) = ns /\ is_house x = existsb is_h ns /\
  (is_house x = true -> last (List.filter is_h ns) = Some (house_of x)).

Definition graph_rep (V : nat) (is_h : nat -> bool) (adj : nat -> list nat)
    (vertice : list Vertex) : Prop :=
  length vertice = S V /\
  forall v, (v <= V)%nat -> exists x, vertice !! v = Some x /\ vertex_ok is_h (adj v) x.

Lemma nbrs_snoc es a b v :
  nbrs (es ++ [(a, b)]) v = if Nat.eqb a v then nbrs es v ++ [b] else nbrs es v.
Proof.
  unfold nbrs. rewrite List.filter_app, fmap_app. simpl.
  destruct (Nat.eqb a v); [done|by rewrite app_nil_r].
Qed.

Lemma existsb_snoc {A} (P : A -> bool) l x : existsb P (l ++ [x]) = existsb P l || P x.
Proof. rewrite existsb_app. simpl. by rewrite orb_false_r. Qed.

Lemma vertex_ok_snoc is_h ns x b :
  vertex_ok is_h ns x -> (length ns < MAX_EDGE_NUM)%nat ->
  vertex_ok is_h (ns ++ [b])
    (if is_h b then mkVertex (S (count x)) true (<[count x := b]> (adjacency x)) b
     else mkVertex (S (count x)) (is_house x) (<[count x := b]> (adjacency x)) (house_of x)).
Proof.
  intros (Hc & Hl & Ht & Hh & Hlast) Hlt.
  assert (take (S (count x)) (<[count x := b]> (adjacency x)) = ns ++ [b]) as Htake.
  { rewrite (take_S_r _ _ b).
    - by rewrite take_insert_ge, Ht by lia.
    - apply list_lookup_insert_eq. lia. }
  unfold vertex_ok. rewrite !existsb_snoc, List.filter_app, length_app. simpl.
  destruct (is_h b) eqn:E; simpl; rewrite length_insert;
    (split_and!; [lia|done|done| |]).
  - by rewrite orb_true_r.
  - intros _. by rewrite last_snoc.
  - by rewrite orb_false_r.
  - intros H. rewrite app_nil_r. auto.
Qed.

Lemma InsertEdge_ok V is_h hv es vs a b :
  (forall v, (v <= V)%nat -> hv !! v = Some (is_h v)) -> (a <= V)%nat -> (b <= V)%nat ->
  (length (nbrs es a) < MAX_EDGE_NUM)%nat -> graph_rep V is_h (nbrs es) vs ->
  exists vs', InsertEdge hv a b vs = Some vs' /\ graph_rep V is_h (nbrs (es ++ [(a, b)])) vs'.
Proof.
  intros Hhv Ha Hb Hlt [Hlen Hg]. destruct (Hg a Ha) as (x & Hx & Hok).
  unfold InsertEdge. rewrite Hx. simpl. pose proof Hok as (Hc & _).
  destruct (Nat.ltb_spec (count x) MAX_EDGE_NUM) as [_|H]; [|lia].
  rewrite (Hhv b Hb). simpl. eexists. split; [reflexivity|].
  split; [by rewrite length_insert|]. intros v Hv. rewrite nbrs_snoc.
  destruct (Nat.eqb_spec a v) as [<-|Hne].
  - eexists. rewrite list_lookup_insert_eq by lia. split; [reflexivity|]. by apply vertex_ok_snoc.
  - rewrite list_lookup_insert_ne by done. by apply Hg.
Qed.

(** The prefix condition that makes every insertion stay inside
    [adjacency]. *)
Definition small_degrees (es : list (nat * nat)) : Prop :=
  forall v, (length (nbrs es v) <= MAX_EDGE_NUM)%nat.

Lemma small_degrees_prefix es es' : small_degrees (es ++ es') -> small_degrees es.
Proof.
  intros H v. specialize (H v). unfold nbrs in *.
  rewrite List.filter_app, fmap_app, length_app in H. lia.
Qed.

Lemma small_degrees_snoc es a b :
  small_degrees (es ++ [(a, b)]) -> (length (nbrs es a) < MAX_EDGE_NUM)%nat.
Proof.
  intros H. specialize (H a). rewrite nbrs_snoc, Nat.eqb_refl, length_app in H. simpl in H. lia.
Qed.

Definition in_range (V : nat) (es : list (nat * nat)) : Prop :=
  Forall (fun e => (e.1 <= V)%nat /\ (e.2 <= V)%nat) es.

Section reading.
Context (V : nat) (is_h : nat -> bool) (hv : list bool).
Context (Hhv : forall v, (v <= V)%nat -> hv !! v = Some (is_h v)).

Lemma insert_ends_ok ends : forall s es vs,
  let new := flat_map (fun e => [(s, e); (e, s)]) ends in
  in_range V new -> small_degrees (es ++ new) -> graph_rep V is_h (nbrs es) vs ->
  exists vs', insert_ends hv s ends vs = Some vs' /\ graph_rep V is_h (nbrs (es ++ new)) vs'.
Proof using Hhv.
  induction ends as [|e ends IH]; intros s es vs new Hr Hd Hg; simpl in new.
  - exists vs. unfold new. by rewrite app_nil_r.
  - unfold new in Hr. apply Forall_cons in Hr as [[Hs He] Hr].
    apply Forall_cons in Hr as [_ Hr]. simpl in Hs, He.
    assert (es ++ new = ((es ++ [(s, e)]) ++ [(e, s)]) ++ flat_map (fun e => [(s, e); (e, s)]) ends)
      as Eq by by rewrite <- !app_assoc.
    rewrite Eq in Hd |- *. simpl.
    pose proof (small_degrees_prefix _ _ Hd) as Hd2.
    destruct (InsertEdge_ok V is_h hv es vs s e) as (v1 & -> & Hg1); auto.
    { eapply small_degrees_snoc, small_degrees_prefix, Hd2. }
    simpl. destruct (InsertEdge_ok V is_h hv (es ++ [(s, e)]) v1 e s) as (v2 & -> & Hg2); auto.
    { eapply small_degrees_snoc, Hd2. }
    simpl. by apply IH.
Qed.

Lemma insert_lines_ok lines : forall es vs,
  in_range V (darts lines) -> small_degrees (es ++ darts lines) -> graph_rep V is_h (nbrs es) vs ->
  exists vs', insert_lines hv lines vs = Some vs' /\ graph_rep V is_h (nbrs (es ++ darts lines)) vs'.
Proof using Hhv.
  induction lines as [|[s ends] lines IH]; intros es vs Hr Hd Hg.
  - exists vs. by rewrite app_nil_r.
  - unfold darts in *. simpl in *. apply Forall_app in Hr as [Hr1 Hr2].
    rewrite app_assoc in Hd |- *.
    destruct (insert_ends_ok ends s es vs Hr1 (small_degrees_prefix _ _ Hd) Hg) as (vs1 & -> & Hg1).
    simpl. by apply IH.
Qed.
End reading.

Lemma mark_houses_ok house : forall hv,
  Forall (fun h => (h < length hv)%nat) house ->
  exists hv', mark_houses house hv = Some hv' /\ length hv' = length hv /\
    forall v b, hv !! v = Some b -> hv' !! v = Some (b || bool_decide (v ∈ house)).
Proof.
  induction house as [|h house IH]; intros hv Hr; simpl.
  - exists hv. split_and!; [done|done|]. intros v b ->.
    by destruct b.
  - apply Forall_cons in Hr as [Hh Hr]. destruct (Nat.ltb_spec h (length hv)); [|lia].
    destruct (IH (<[h := true]> hv)) as (hv' & -> & Hl & Hspec).
    { by rewrite length_insert. }
    exists hv'. rewrite length_insert in Hl. split_and!; [done|done|]. intros v b Hv.
    destruct (decide (h = v)) as [->|Hne].
    + rewrite (Hspec v true) by (by apply list_lookup_insert_eq).
      rewrite (bool_decide_eq_true_2 (v ∈ v :: house)) by set_solver. by rewrite orb_true_r.
    + rewrite (Hspec v b) by (by rewrite list_lookup_insert_ne). do 2 f_equal.
      apply bool_decide_ext. set_solver.
Qed.

(** On zeroed blocks, and for an input whose vertices are in range and
    have at most [MAX_EDGE_NUM] edges, reading the graph succeeds and gives
    every vertex its neighbours in input order, the flag that says whether a
    neighbour is a house, and the last such neighbour. *)
Lemma read_graph_rep V house lines :
  Forall (fun h => (h <= V)%nat) house -> in_range V (darts lines) -> small_degrees (darts lines) ->
  exists vs, read_graph house lines (replicate (S V) zero_vertex) (replicate (S V) false) = Some vs /\
    graph_rep V (fun v => bool_decide (v ∈ house)) (nbrs (darts lines)) vs.
Proof.
  intros Hh Hr Hd. unfold read_graph.
  destruct (mark_houses_ok house (replicate (S V) false)) as (hv & -> & Hl & Hspec).
  { eapply Forall_impl; [exact Hh|]. intros h Hle. simpl in Hle. rewrite length_replicate. lia. }
  rewrite length_replicate in Hl. cbn [mbind option_bind].
  apply (insert_lines_ok V _ hv) with (es := []); [|done|done|].
  - intros v Hv. apply (Hspec v false). apply lookup_replicate_2. lia.
  - split; [by rewrite length_replicate|]. intros v Hv. exists zero_vertex.
    split; [apply lookup_replicate_2; lia|]. by split_and!.
Qed.

(** ** Walks and distances *)
Section walks.
Context (adj : nat -> list nat).

Inductive walk : nat -> nat -> nat -> Prop :=
| walk_nil u : walk 0 u u
| walk_snoc n u v w : walk n u v -> w ∈ adj v -> walk (S n) u w.

Definition is_dist (u v d : nat) : Prop := walk d u v /\ forall n, walk n u v -> (d <= n)%nat.

(** The ends of the walks of length [n]: walks are decidable. *)
Fixpoint reach (n u : nat) : list nat :=
  match n with 0 => [u] | S n' => flat_map adj (reach n' u) end.

Lemma walk_reach n u v : walk n u v <-> v ∈ reach n u.
Proof.
  revert v. induction n as [|n IH]; intros w; simpl.
  - rewrite list_elem_of_singleton. split; [inversion 1; done|intros ->; constructor].
  - rewrite list_elem_of_In, in_flat_map. setoid_rewrite <- list_elem_of_In. split.
    + inversion 1 as [|? ? v ? Hv Hw]; subst. exists v. by rewrite <- IH.
    + intros (v & Hv & Hw). econstructor; [by apply IH|done].
Qed.

#[export] Instance walk_dec n u v : Decision (walk n u v).
Proof. refine (cast_if (decide (v ∈ reach n u))); by rewrite walk_reach. Defined.

Lemma walk_app m n u v w : walk m u v -> walk n v w -> walk (m + n) u w.
Proof.
  intros Hm Hn. revert Hm. induction Hn as [|n v x y Hvx IH Hxy]; intros Hm.
  - by rewrite Nat.add_0_r.
  - rewrite Nat.add_succ_r. econstructor; eauto.
Qed.

Lemma is_dist_exists n u v : walk n u v -> exists d, (d <= n)%nat /\ is_dist u v d.
Proof.
  induction n as [n IH] using lt_wf_ind. intros Hw.
  destruct (decide (Exists (fun m => walk m u v) (seq 0 n))) as [Hm|Hno].
  - apply Exists_exists in Hm as (m & Hm%elem_of_seq & Hwm).
    destruct (IH m) as (d & ? & ?); [lia|done|]. exists d. split; [lia|done].
  - exists n. split; [done|]. split; [done|]. intros k Hk.
    destruct (decide (n <= k)%nat) as [|Hlt]; [done|]. exfalso. apply Hno, Exists_exists.
    exists k. split; [apply elem_of_seq; lia|done].
Qed.

Lemma is_dist_unique u v d d' : is_dist u v d -> is_dist u v d' -> d = d'.
Proof. intros [H1 H2] [H3 H4]. apply H2 in H3. apply H4 in H1. lia. Qed.

Lemma is_dist_refl u : is_dist u u 0.
Proof. split; [constructor|lia]. Qed.

Lemma is_dist_zero u v : is_dist u v 0 -> u = v.
Proof. intros [H _]. by inversion H. Qed.

Lemma is_dist_pred u w d : is_dist u w (S d) -> exists v, is_dist u v d /\ w ∈ adj v.
Proof.
  intros [H Hmin]. inversion H as [|? ? v ? Hv Hw]; subst. exists v. split; [|done].
  split; [done|]. intros n Hn. specialize (Hmin (S n)). apply le_S_n, Hmin. by econstructor.
Qed.

Lemma is_dist_step u v w d :
  is_dist u v d -> w ∈ adj v -> exists d', (d' <= S d)%nat /\ is_dist u w d'.
Proof. intros [H _] Hw. apply is_dist_exists. by econstructor. Qed.

Lemma is_dist_triangle u v w a b c :
  is_dist u v a -> is_dist v w b -> is_dist u w c -> (c <= a + b)%nat.
Proof. intros [Ha _] [Hb _] [_ Hc]. by apply Hc, walk_app with v. Qed.

Context (Hsym : forall u v, u ∈ adj v -> v ∈ adj u).

Lemma walk_sym n u v : walk n u v -> walk n v u.
Proof using Hsym.
  induction 1 as [|n u v w Hw IH Hadj]; [constructor|].
  apply (walk_app 1 n w v u); [|done]. econstructor; [constructor|]. by apply Hsym.
Qed.

Lemma is_dist_sym u v d : is_dist u v d -> is_dist v u d.
Proof using Hsym. intros [H Hmin]. split; [by apply walk_sym|]. intros n Hn. by apply Hmin, walk_sym. Qed.
End walks.

Lemma nbrs_elem es u v : u ∈ nbrs es v <-> (v, u) ∈ es.
Proof.
  unfold nbrs. rewrite list_elem_of_fmap. setoid_rewrite list_elem_of_In. setoid_rewrite filter_In.
  split.
  - intros ([a b] & -> & H & E%Nat.eqb_eq). simpl in *. by subst.
  - intros H. exists (v, u). by rewrite Nat.eqb_refl.
Qed.

(** [main] inserts every edge in both directions. *)
Lemma nbrs_symmetric lines u v : u ∈ nbrs (darts lines) v -> v ∈ nbrs (darts lines) u.
Proof.
  rewrite !nbrs_elem, !list_elem_of_In. unfold darts. rewrite !in_flat_map.
  intros ([s ends] & Hl & (e & He & Hin)%in_flat_map). exists (s, ends). split; [done|].
  apply in_flat_map. exists e. split; [done|]. simpl in *. naive_solver.
Qed.
End Graph.
