(* ===== verification/DistSearch.v ===== *)
(** * The breadth-first search of Project1

    [Search] (Project1/src/Project1.cpp, lines 246-361) as a transition
    system: one transition per access of the memory the threads share
    ([g_house_distance_i_to_all], [g_i_max], [g_total_max]), the work on the
    local arrays being part of the transition that reaches it.  [None] is an
    access outside an array. *)
From S2P Require Import Prelude DistGraph.

Module Search.
Import Graph.
Local Open Scope Z_scope.

(** The arrays and counters that drive the traversal. *)
Record frontier := mkFrontier {
  search_array : nat -> nat;
  search_array_count : nat;
  visit_vertice : nat -> bool;
  total_count : nat;
  cycle_count : nat;
  distance : Z;
  i : nat
}.

(** What is known of the other houses. *)
Record tally := mkTally {
  visit_house : nat -> bool;
  count_end : nat;
  least_flag : bool;
  least : Z;
  most : Z
}.

(** The memory all threads share. *)
Record shared := mkShared {
  g_total_max : Z;
  g_i_max : nat -> Z;
  g_house_distance_i_to_all : nat -> nat -> Z;
  house_distance_least : nat -> Z;
  house_distance_most : nat -> Z
}.

(** The registers of one round of the pruning loop, lines 304-312. *)
Inductive prune_pc :=
| P0                  (* reads g_i_max[q] *)
| P1                  (* reads g_house_distance_i_to_all[q][start_num] *)
| P2                  (* reads it again for the sum *)
| P3 (d : Z)          (* reads g_i_max[q] again *)
| P4 (sum : Z).       (* reads g_total_max *)

Inductive pc :=
| PLoop (f : frontier) (t : tally)                                        (* line 284 *)
| PPrune (f : frontier) (t : tally) (x : Vertex) (q : nat) (r : prune_pc) (* line 304 *)
| PCount (f : frontier) (t : tally) (x : Vertex)                          (* line 321 *)
| PTest (m : Z)                                                           (* line 327 *)
| PSet (m : Z)                                                            (* line 328 *)
| PIMax (m : Z)                                                           (* line 331 *)
| PReturned.

Section program.
Context (vertice : list Vertex) (house : list nat) (vertice_num : nat).

Definition house_num : nat := length house.

(** Lines 250-278. *)
Definition Search_init (raw_array : nat -> nat) (raw_visit_house : nat -> bool) (start_num : nat)
  : option pc :=
  hs ← house !! start_num;
  if ((0 <? vertice_num) && (hs <=? vertice_num))%nat then
    Some (PLoop (mkFrontier (upd raw_array 0 hs) 1 (upd (fun _ => false) hs true) 0 0 0 0)
                (mkTally raw_visit_house (1 + start_num) true 0 0))
  else None.

(** Lines 341-346. *)
Definition push (a : nat) (f : frontier) : option frontier :=
  if (a <=? vertice_num)%nat then
    if visit_vertice f a then Some f
    else if (search_array_count f <? vertice_num)%nat then
      Some (mkFrontier (upd (search_array f) (search_array_count f) a) (S (search_array_count f))
              (upd (visit_vertice f) a true) (S (total_count f)) (cycle_count f) (distance f) (i f))
    else None
  else None.

(** The do-while of lines 339-348; [adjs] is the rest of [adjacency]. *)
Fixpoint push_loop (adjs : list nat) (j count : nat) (f : frontier) : option frontier :=
  match adjs with
  | [] => None
  | a :: adjs' =>
      f' ← push a f;
      if (S j <? count)%nat then push_loop adjs' (S j) count f' else Some f'
  end.

(** Lines 337-357. *)
Definition push_adjacent (x : Vertex) (f : frontier) : option frontier :=
  f' ← push_loop (adjacency x) 0 (count x) f;
  Some (if (i f' =? cycle_count f')%nat
        then mkFrontier (search_array f') (search_array_count f') (visit_vertice f') 0
               (cycle_count f' + total_count f') (u32 (distance f' + 1)) (S (i f'))
        else mkFrontier (search_array f') (search_array_count f') (visit_vertice f')
               (total_count f') (cycle_count f') (distance f') (S (i f'))).

(** The loop of lines 290-296: the index of [temp_house] behind [start_num]. *)
Fixpoint find_house (j : nat) (hs : list nat) (temp_house : nat) : option nat :=
  match hs with
  | [] => None
  | h :: hs' => if (h =? temp_house)%nat then Some j else find_house (S j) hs' temp_house
  end.

Definition set_dist (q j : nat) (d : Z) (sh : shared) : shared :=
  mkShared (g_total_max sh) (g_i_max sh)
    (upd (g_house_distance_i_to_all sh) q (upd (g_house_distance_i_to_all sh q) j d))
    (house_distance_least sh) (house_distance_most sh).

Definition set_result (start_num : nat) (l m : Z) (sh : shared) : shared :=
  mkShared (g_total_max sh) (g_i_max sh) (g_house_distance_i_to_all sh)
    (upd (house_distance_least sh) start_num l) (upd (house_distance_most sh) start_num m).

Definition set_total_max (m : Z) (sh : shared) : shared :=
  mkShared m (g_i_max sh) (g_house_distance_i_to_all sh)
    (house_distance_least sh) (house_distance_most sh).

Definition set_i_max (start_num : nat) (m : Z) (sh : shared) : shared :=
  mkShared (g_total_max sh) (upd (g_i_max sh) start_num m) (g_house_distance_i_to_all sh)
    (house_distance_least sh) (house_distance_most sh).

(** Lines 288-320 for a house not seen before. *)
Definition found_house (start_num : nat) (f : frontier) (t : tally) (x : Vertex) (sh : shared)
  : pc * shared :=
  let temp_house := house_of x in
  let vh := upd (visit_house t) temp_house true in
  let '(ce, sh') :=
    match find_house (S start_num) (drop (S start_num) house) temp_house with
    | Some j => (S (count_end t), set_dist start_num j (u32 (distance f + 1)) sh)
    | None => (count_end t, sh)
    end in
  if least_flag t then
    if 1 <? distance f
    then (PCount f (mkTally vh ce false (distance f) (most t)) x, sh')
    else (PCount f (mkTally vh ce true (least t) (most t)) x, sh')
  else (PPrune f (mkTally vh ce false (least t) (distance f)) x 0 P0, sh').

(** Lines 284-296, up to the first shared access of the iteration. *)
Definition visit (start_num : nat) (f : frontier) (t : tally) (sh : shared)
  : option (pc * shared) :=
  if (i f <? vertice_num)%nat then
    x ← vertice !! search_array f (i f);
    if is_house x then
      if (house_of x <=? vertice_num)%nat then
        if visit_house t (house_of x)
        then f' ← push_adjacent x f; Some (PLoop f' t, sh)
        else Some (found_house start_num f t x sh)
      else None
    else f' ← push_adjacent x f; Some (PLoop f' t, sh)
  else None.

(** Lines 304-312. *)
Definition prune (start_num : nat) (f : frontier) (t : tally) (x : Vertex) (q : nat)
    (r : prune_pc) (sh : shared) : pc * shared :=
  match r with
  | P0 =>
      if (q <? house_num - 1)%nat then
        if g_i_max sh q =? 0 then (PPrune f t x (S q) P0, sh) else (PPrune f t x q P1, sh)
      else (PCount f t x, sh)
  | P1 =>
      if g_house_distance_i_to_all sh q start_num =? 0
      then (PPrune f t x (S q) P0, sh) else (PPrune f t x q P2, sh)
  | P2 => (PPrune f t x q (P3 (g_house_distance_i_to_all sh q start_num)), sh)
  | P3 d => (PPrune f t x q (P4 (u32 (d + g_i_max sh q))), sh)
  | P4 sum =>
      if sum <? g_total_max sh
      then (PReturned, set_result start_num (u32 (least t + 1)) (u32 (least t + 1)) sh)
      else (PPrune f t x (S q) P0, sh)
  end.

(** One transition of the [while] loop of lines 283-358. *)
Definition Search_step (start_num : nat) (p : pc) (sh : shared) : option (pc * shared) :=
  match p with
  | PLoop f t => visit start_num f t sh
  | PPrune f t x q r => Some (prune start_num f t x q r sh)
  | PCount f t x =>
      if (count_end t =? house_num)%nat
      then Some (PTest (u32 (most t + 1)),
                 set_result start_num (u32 (least t + 1)) (u32 (most t + 1)) sh)
      else f' ← push_adjacent x f; Some (PLoop f' t, sh)
  | PTest m => Some (if g_total_max sh <? m then PSet m else PIMax m, sh)
  | PSet m => Some (PIMax m, set_total_max m sh)
  | PIMax m => Some (PReturned, set_i_max start_num m sh)
  | PReturned => None
  end.
End program.
(** ** The traversal is breadth-first *)
Section traversal.
Context (V : nat) (adj : nat -> list nat).
Context (Hrange : forall u v, u ∈ adj v -> (1 <= u <= V)%nat).

(** The first [search_array_count] entries are the vertices visited so far. *)
Record shape (f : frontier) (xs : list nat) : Prop := Shape {
  shape_len : search_array_count f = length xs;
  shape_arr : forall k v, xs !! k = Some v -> search_array f k = v;
  shape_nodup : NoDup xs;
  shape_visit : forall v, visit_vertice f v = true <-> v ∈ xs;
  shape_range : forall v, v ∈ xs -> (1 <= v <= V)%nat
}.

Lemma bounded_NoDup xs : NoDup xs -> (forall v, v ∈ xs -> (1 <= v <= V)%nat) -> (length xs <= V)%nat.
Proof.
  intros Hnd Hr. rewrite <- (length_seq V 1). apply submseteq_length, NoDup_submseteq; [done|].
  intros v Hv. apply elem_of_seq. specialize (Hr v Hv). lia.
Qed.

Lemma push_shape a f xs :
  shape f xs -> (1 <= a <= V)%nat ->
  exists f' new, push V a f = Some f' /\ shape f' (xs ++ new) /\
    total_count f' = (total_count f + length new)%nat /\ cycle_count f' = cycle_count f /\
    distance f' = distance f /\ i f' = i f /\
    a ∈ xs ++ new /\ (forall b, b ∈ new -> b = a /\ b ∉ xs).
Proof.
  intros Hs Ha. unfold push. destruct (Nat.leb_spec a V); [|lia].
  destruct (visit_vertice f a) eqn:Hv.
  { exists f, []. rewrite app_nil_r. apply (shape_visit _ _ Hs) in Hv.
    split_and!; first [done|simpl; lia|by intros b ?%elem_of_nil]. }
  assert (a ∉ xs) as Hnew by (rewrite <- (shape_visit _ _ Hs), Hv; done).
  assert (length (a :: xs) <= V)%nat as Hlen.
  { apply bounded_NoDup; [constructor; [done|apply Hs]|].
    intros v [->|Hin]%elem_of_cons; [lia|by apply (shape_range _ _ Hs)]. }
  simpl in Hlen. pose proof (shape_len _ _ Hs) as Hc.
  destruct (Nat.ltb_spec (search_array_count f) V); [|lia].
  eexists _, [a]. split; [reflexivity|]. split_and!; simpl; try done; try lia.
  - constructor; simpl.
    + rewrite length_app. simpl. lia.
    + intros k v [Hk|[Hk Hx]]%lookup_app_Some.
      * rewrite upd_ne by (apply lookup_lt_Some in Hk; lia). by apply (shape_arr _ _ Hs).
      * assert (k = length xs)%nat as -> by (apply lookup_lt_Some in Hx; simpl in Hx; lia).
        rewrite Nat.sub_diag in Hx. injection Hx as ->. by rewrite Hc, upd_eq.
    + apply NoDup_app. split_and!; [apply Hs| |apply NoDup_singleton].
      intros v Hv' ->%list_elem_of_singleton. done.
    + intros v. rewrite elem_of_app, list_elem_of_singleton, <- (shape_visit _ _ Hs).
      unfold upd. destruct (decide (a = v)); naive_solver.
    + intros v [Hin|Hin]%elem_of_app; [by apply (shape_range _ _ Hs)|].
      apply list_elem_of_singleton in Hin as ->. done.
  - apply elem_of_app. right. by left.
  - by intros b ->%list_elem_of_singleton.
Qed.

Lemma push_loop_shape adjs : forall count j f xs ns,
  take (count - j) adjs = ns -> length ns = (count - j)%nat -> (j < count)%nat ->
  (forall a, a ∈ ns -> (1 <= a <= V)%nat) -> shape f xs ->
  exists f' new, push_loop V adjs j count f = Some f' /\ shape f' (xs ++ new) /\
    total_count f' = (total_count f + length new)%nat /\ cycle_count f' = cycle_count f /\
    distance f' = distance f /\ i f' = i f /\
    (forall a, a ∈ ns -> a ∈ xs ++ new) /\ (forall b, b ∈ new -> b ∈ ns /\ b ∉ xs).
Proof.
  induction adjs as [|a adjs IH]; intros count j f xs ns Ht Hl Hj Hr Hs.
  { rewrite take_nil in Ht. subst ns. simpl in Hl. lia. }
  assert (exists ns', ns = a :: ns' /\ take (count - S j) adjs = ns') as (ns' & -> & Ht').
  { replace (count - j)%nat with (S (count - S j)) in Ht by lia. simpl in Ht. eauto. }
  clear Ht. simpl in Hl. simpl.
  destruct (push_shape a f xs Hs) as (f1 & n1 & -> & Hs1 & E1 & E2 & E3 & E4 & Ha & Hn1).
  { apply Hr. by left. }
  simpl. destruct (Nat.ltb_spec (S j) count) as [Hlt|Hge].
  - destruct (IH count (S j) f1 (xs ++ n1) ns') as (f2 & n2 & -> & Hs2 & F1 & F2 & F3 & F4 & Hb & Hn2);
      [done|lia|done| |done|].
    { intros b Hb. apply Hr. by right. }
    exists f2, (n1 ++ n2). rewrite app_assoc, length_app. split_and!; try done; try lia; try congruence.
    + intros b [->|Hin]%elem_of_cons; [apply elem_of_app; by left|by apply Hb].
    + intros b [Hin|Hin]%elem_of_app.
      * destruct (Hn1 _ Hin) as [-> ?]. split; [by left|done].
      * destruct (Hn2 _ Hin) as [? Hno]. split; [by right|].
        intros ?. apply Hno, elem_of_app. by left.
  - destruct ns' as [|? ?]; [|simpl in Hl; lia].
    exists f1, n1. split_and!; try done.
    + intros b ->%list_elem_of_singleton. done.
    + intros b Hb. destruct (Hn1 _ Hb) as [-> ?]. split; [by left|done].
Qed.

(** The breadth-first invariant at the head of the loop.  [D] is the level of
    the current vertex: positions [i .. cycle_count] hold the rest of level
    [D], the [total_count] entries behind them are of level [D + 1]. *)
Record bfs (s : nat) (f : frontier) (xs : list nat) (D : nat) : Prop := Bfs {
  bfs_shape : shape f xs;
  bfs_level : length xs = (cycle_count f + 1 + total_count f)%nat;
  bfs_i : (i f <= cycle_count f)%nat;
  bfs_distance : distance f = Z.of_nat D;
  bfs_D : (D <= i f)%nat;
  bfs_start : xs !! 0%nat = Some s;
  bfs_inner : forall v, v ∈ take (S (cycle_count f)) xs <->
                exists d, (d <= D)%nat /\ is_dist adj s v d;
  bfs_current : forall k v, (i f <= k <= cycle_count f)%nat -> xs !! k = Some v -> is_dist adj s v D;
  bfs_outer : forall k v, (cycle_count f < k)%nat -> xs !! k = Some v -> is_dist adj s v (S D);
  bfs_closed : forall k v w, (k < i f)%nat -> xs !! k = Some v -> w ∈ adj v -> w ∈ xs
}.

Lemma bfs_length s f xs D : bfs s f xs D -> (length xs <= V)%nat.
Proof. intros H. destruct (bfs_shape _ _ _ _ H). by apply bounded_NoDup. Qed.

Lemma bfs_vertex s f xs D : bfs s f xs D -> exists u, xs !! i f = Some u /\ search_array f (i f) = u.
Proof.
  intros H. destruct (lookup_lt_is_Some_2 xs (i f)) as [u Hu].
  { rewrite (bfs_level _ _ _ _ H). pose proof (bfs_i _ _ _ _ H). lia. }
  exists u. split; [done|]. by apply (shape_arr _ _ (bfs_shape _ _ _ _ H)).
Qed.

(** Every vertex nearer than the current level has been processed. *)
Lemma bfs_nearer s f xs D v d :
  bfs s f xs D -> is_dist adj s v d -> (d < D)%nat -> exists k, (k < i f)%nat /\ xs !! k = Some v.
Proof.
  intros H Hd Hlt. assert (v ∈ take (S (cycle_count f)) xs) as Hin.
  { apply (bfs_inner _ _ _ _ H). exists d. split; [lia|done]. }
  apply list_elem_of_lookup in Hin as (k & Hk). apply lookup_take_Some in Hk as [Hk Hkc].
  exists k. split; [|done]. destruct (decide (k < i f)%nat) as [|Hge]; [done|].
  pose proof (bfs_current _ _ _ _ H k v ltac:(lia) Hk) as Hd'.
  pose proof (is_dist_unique _ _ _ _ _ Hd Hd'). lia.
Qed.

(** A vertex met for the first time beside the current one is one level
    further out. *)
Lemma bfs_new_level s f xs D u w :
  bfs s f xs D -> xs !! i f = Some u -> w ∈ adj u -> w ∉ xs -> is_dist adj s w (S D).
Proof.
  intros H Hu Hw Hno.
  assert (is_dist adj s u D) as Hd.
  { apply (bfs_current _ _ _ _ H (i f)); [pose proof (bfs_i _ _ _ _ H); lia|done]. }
  destruct (is_dist_step _ _ _ _ _ Hd Hw) as (d & Hle & Hdw).
  destruct (decide (d <= D)%nat) as [Hin|]; [|by replace (S D) with d by lia].
  exfalso. apply Hno. eapply take_elem_of. apply (bfs_inner _ _ _ _ H). by exists d.
Qed.
(** The frontier after the neighbours of the current vertex [u] are pushed:
    [new] are the vertices this adds. *)
Record pushed (s : nat) (f f1 : frontier) (xs new : list nat) (D u : nat) : Prop := Pushed {
  pushed_bfs : bfs s f xs D;
  pushed_u : xs !! i f = Some u;
  pushed_shape : shape f1 (xs ++ new);
  pushed_total : total_count f1 = (total_count f + length new)%nat;
  pushed_cycle : cycle_count f1 = cycle_count f;
  pushed_distance : distance f1 = distance f;
  pushed_i : i f1 = i f;
  pushed_all : forall a, a ∈ adj u -> a ∈ xs ++ new;
  pushed_new : forall b, b ∈ new -> b ∈ adj u /\ b ∉ xs
}.

Lemma pushed_outer s f f1 xs new D u k v :
  pushed s f f1 xs new D u -> (cycle_count f < k)%nat -> (xs ++ new) !! k = Some v ->
  is_dist adj s v (S D).
Proof.
  intros P Hk [H|[_ H]]%lookup_app_Some; [by eapply bfs_outer; [apply P|..]|].
  apply list_elem_of_lookup_2 in H. destruct (pushed_new _ _ _ _ _ _ _ P v H).
  by eapply bfs_new_level; [apply P..|done|done].
Qed.

Lemma pushed_closed s f f1 xs new D u k v w :
  pushed s f f1 xs new D u -> (k < S (i f))%nat -> (xs ++ new) !! k = Some v -> w ∈ adj v ->
  w ∈ xs ++ new.
Proof.
  intros P Hk Hv Hw. pose proof (pushed_u _ _ _ _ _ _ _ P) as Hu.
  rewrite lookup_app_l in Hv by (apply lookup_lt_Some in Hu; lia).
  destruct (decide (k = i f)) as [->|Hne].
  - simplify_eq. by apply (pushed_all _ _ _ _ _ _ _ P).
  - apply elem_of_app. left. eapply (bfs_closed _ _ _ _ (pushed_bfs _ _ _ _ _ _ _ P) k); [lia|done|done].
Qed.

(** More of the same level is left. *)
Lemma bfs_stay s f f1 xs new D u :
  pushed s f f1 xs new D u -> (i f < cycle_count f)%nat ->
  bfs s (mkFrontier (search_array f1) (search_array_count f1) (visit_vertice f1)
           (total_count f1) (cycle_count f1) (distance f1) (S (i f1))) (xs ++ new) D.
Proof.
  intros P Hi. pose proof P as [B Pu Hs Pt Pc Pd Pi Pa Pn].
  pose proof (bfs_level _ _ _ _ B) as Hl.
  constructor; simpl; rewrite ?Pi, ?Pc, ?Pd.
  - destruct Hs. by constructor.
  - rewrite length_app, Pt. lia.
  - lia.
  - apply B.
  - pose proof (bfs_D _ _ _ _ B). lia.
  - apply lookup_app_l_Some, B.
  - intros v. rewrite take_app_le by lia. apply (bfs_inner _ _ _ _ B).
  - intros k v Hk Hv. rewrite lookup_app_l in Hv by lia.
    apply (bfs_current _ _ _ _ B k v); [lia|done].
  - intros k v Hk. by eapply pushed_outer.
  - intros k v w Hk. by eapply pushed_closed.
Qed.

(** The level is complete and the next one is not empty. *)
Lemma bfs_next s f f1 xs new D u :
  pushed s f f1 xs new D u -> i f = cycle_count f -> (0 < total_count f1)%nat ->
  (Z.of_nat V < 2 ^ 31)%Z ->
  bfs s (mkFrontier (search_array f1) (search_array_count f1) (visit_vertice f1) 0
           (cycle_count f1 + total_count f1) (u32 (distance f1 + 1)) (S (i f1))) (xs ++ new) (S D).
Proof.
  intros P Hi Ht HV. pose proof P as [B Pu Hs Pt Pc Pd Pi Pa Pn].
  pose proof (bfs_level _ _ _ _ B) as Hl. pose proof (bfs_D _ _ _ _ B) as HD.
  pose proof (bfs_length _ _ _ _ B) as HlV.
  assert (length (xs ++ new) = S (cycle_count f + total_count f1)) as Hlen
    by (rewrite length_app; lia).
  constructor; simpl; rewrite ?Pi, ?Pc, ?Pd.
  - destruct Hs. by constructor.
  - lia.
  - lia.
  - rewrite (bfs_distance _ _ _ _ B), u32_small; lia.
  - lia.
  - apply lookup_app_l_Some, B.
  - intros v. rewrite <- Hlen, firstn_all. split.
    + intros (k & Hk)%list_elem_of_lookup. destruct (decide (k <= cycle_count f)%nat) as [Hle|].
      * rewrite lookup_app_l in Hk by lia.
        destruct (proj1 (bfs_inner _ _ _ _ B v)) as (d & Hd & Hdist).
        { eapply list_elem_of_lookup_2, lookup_take_Some. split; [exact Hk|lia]. }
        exists d. split; [lia|done].
      * exists (S D). split; [done|]. eapply pushed_outer; [done| |done]. lia.
    + intros (d & Hd & Hdist). destruct (decide (d <= D)%nat) as [Hle|].
      * apply elem_of_app. left. eapply take_elem_of. apply (bfs_inner _ _ _ _ B). by exists d.
      * replace d with (S D) in Hdist by lia.
        destruct (is_dist_pred _ _ _ _ Hdist) as (w & Hw & Hv).
        assert (w ∈ take (S (cycle_count f)) xs) as Hin.
        { apply (bfs_inner _ _ _ _ B). exists D. split; [lia|done]. }
        apply list_elem_of_lookup in Hin as (k & Hk). apply lookup_take_Some in Hk as [Hk Hkc].
        eapply pushed_closed; [done| |by apply lookup_app_l_Some|done]. lia.
  - intros k v Hk. eapply pushed_outer; [done|]. lia.
  - intros k v Hk Hv. apply lookup_lt_Some in Hv. lia.
  - intros k v w Hk. by eapply pushed_closed.
Qed.

(** The traversal has no vertex left. *)
Definition exhausted (f : frontier) (xs : list nat) : Prop :=
  length xs = S (i f) /\ forall v w, v ∈ xs -> w ∈ adj v -> w ∈ xs.

Lemma push_adjacent_bfs is_h s f xs D u x :
  bfs s f xs D -> xs !! i f = Some u -> vertex_ok is_h (adj u) x -> adj u <> [] ->
  (Z.of_nat V < 2 ^ 31)%Z ->
  exists f' new, push_adjacent V x f = Some f' /\ i f' = S (i f) /\
    ((exists D', (D <= D' <= S D)%nat /\ bfs s f' (xs ++ new) D') \/ (new = [] /\ exhausted f xs)).
Proof.
  intros B Hu (Hc & _ & Ht & _) Hne HV. unfold push_adjacent.
  destruct (push_loop_shape (adjacency x) (count x) 0 f xs (adj u))
    as (f1 & new & -> & Hs & E1 & E2 & E3 & E4 & Ha & Hn).
  - by rewrite Nat.sub_0_r.
  - lia.
  - rewrite Hc. destruct (adj u); [done|simpl; lia].
  - intros a. apply Hrange.
  - apply B.
  - assert (pushed s f f1 xs new D u) as P by by constructor.
    simpl. rewrite E2, E4. destruct (Nat.eqb_spec (i f) (cycle_count f)) as [Heq|Hlt].
    + destruct (decide (0 < total_count f1)%nat) as [Hpos|Hz].
      * eexists _, new. split; [reflexivity|]. split; [done|]. left. exists (S D).
        split; [lia|]. rewrite <- E2, <- E4. by eapply bfs_next.
      * eexists _, new. split; [reflexivity|]. split; [done|]. right.
        assert (new = []) as -> by (apply nil_length_inv; lia). split; [done|].
        pose proof (bfs_level _ _ _ _ B). split; [lia|].
        intros v w (k & Hk)%list_elem_of_lookup Hw. rewrite <- (app_nil_r xs).
        eapply pushed_closed; [done| |by rewrite app_nil_r|done].
        apply lookup_lt_Some in Hk. lia.
    + eexists _, new. split; [reflexivity|]. split; [done|]. left. exists D. split; [lia|].
      rewrite <- E2, <- E4. eapply bfs_stay; [done|]. pose proof (bfs_i _ _ _ _ B). lia.
Qed.
End traversal.
End Search.
