(* ===== verification/DistHouses.v ===== *)
(** * What one search of Project1 finds

    The inputs the program is meant for, the bookkeeping of the houses in
    [Search] and the invariant of a search in the presence of the other
    threads. *)
From S2P Require Import Prelude DistGraph DistSearch.

Module Houses.
Import Graph Search.
Local Open Scope Z_scope.
Local Set Default Proof Using "All".

(** The inputs: an undirected graph in the vertex records, with distinct
    houses, no two of them adjacent, no vertex beside two of them, and all of
    them connected. *)
Class Layout (V : nat) (adj : nat -> list nat) (house : list nat) (vertice : list Vertex) : Prop := {
  lay_rep : graph_rep V (fun v => bool_decide (v ∈ house)) adj vertice;
  lay_sym : forall u v, u ∈ adj v -> v ∈ adj u;
  lay_range : forall u v, u ∈ adj v -> (1 <= u <= V)%nat;
  lay_nodup : NoDup house;
  lay_house : forall h, h ∈ house -> (1 <= h <= V)%nat;
  lay_one : forall v h h', h ∈ adj v -> h' ∈ adj v -> h ∈ house -> h' ∈ house -> h = h';
  lay_apart : forall h h', h ∈ house -> h' ∈ house -> h' ∈ adj h -> h = h';
  lay_connected : forall h h', h ∈ house -> h' ∈ house -> exists n, walk adj n h h';
  lay_size : Z.of_nat V < 2 ^ 31
}.

(** The same conditions on the input [main] reads. *)
Record input_ok (V : nat) (house : list nat) (lines : list (nat * list nat)) : Prop := InputOk {
  in_darts : Forall (fun e => (1 <= e.1 <= V)%nat /\ (1 <= e.2 <= V)%nat) (darts lines);
  in_degree : small_degrees (darts lines);
  in_nodup : NoDup house;
  in_house : Forall (fun h => (1 <= h <= V)%nat) house;
  in_one : forall v h h', (v, h) ∈ darts lines -> (v, h') ∈ darts lines -> h ∈ house -> h' ∈ house -> h = h';
  in_apart : forall h h', (h, h') ∈ darts lines -> h ∈ house -> h' ∈ house -> h = h';
  in_connected : forall h h', h ∈ house -> h' ∈ house -> exists n, walk (nbrs (darts lines)) n h h';
  in_size : Z.of_nat V < 2 ^ 31
}.

Lemma layout_of_input V house lines vs :
  input_ok V house lines ->
  graph_rep V (fun v => bool_decide (v ∈ house)) (nbrs (darts lines)) vs ->
  Layout V (nbrs (darts lines)) house vs.
Proof.
  intros [Hd Hdeg Hnd Hh Hone Hap Hcon Hsz] Hrep. rewrite Forall_forall in Hd. rewrite Forall_forall in Hh.
  constructor; try done.
  - intros u v. apply nbrs_symmetric.
  - intros u v Huv%nbrs_elem. by apply Hd in Huv as [_ ?].
  - intros v h h'. rewrite !nbrs_elem. apply Hone.
  - intros h h' Hh1 Hh2. rewrite nbrs_elem. auto.
Qed.

Lemma read_graph_input V house lines :
  input_ok V house lines ->
  exists vs, read_graph house lines (replicate (S V) zero_vertex) (replicate (S V) false) = Some vs /\
    graph_rep V (fun v => bool_decide (v ∈ house)) (nbrs (darts lines)) vs.
Proof.
  intros Hin. apply read_graph_rep; [| |apply Hin].
  - eapply Forall_impl; [apply Hin|]. simpl. lia.
  - eapply Forall_impl; [apply Hin|]. simpl. lia.
Qed.

(** on zeroed blocks, reading an input whose vertices are in range, whose
    degrees fit [adjacency] and whose houses are distinct, apart and connected
    succeeds, and the vertex records form the undirected graph of the input:
    neighbours in input order, and the adjacent house of each vertex. *)
Theorem read_graph_layout V house lines :
  input_ok V house lines ->
  exists vs, read_graph house lines (replicate (S V) zero_vertex) (replicate (S V) false) = Some vs /\
    Layout V (nbrs (darts lines)) house vs.
Proof.
  intros Hin. destruct (read_graph_input V house lines Hin) as (vs & E & Hrep).
  exists vs. split; [done|]. by apply layout_of_input.
Qed.

Section houses.
Context (V : nat) (adj : nat -> list nat) (house : list nat) (vertice : list Vertex).
Context `{HL : !Layout V adj house vertice}.

(** The searches run from the houses [0 .. house_num - 2]. *)
Context (start s : nat) (Hs : house !! start = Some s) (Hstart : (S start < length house)%nat).

Lemma start_house : s ∈ house.
Proof. by eapply list_elem_of_lookup_2. Qed.

Lemma house_distance h d : h ∈ house -> h <> s -> is_dist adj s h d -> (3 <= d)%nat.
Proof.
  intros Hh Hne Hd. pose proof start_house as Hsh.
  destruct d as [|[|[|d]]]; [by apply is_dist_zero in Hd| | |lia].
  - apply is_dist_pred in Hd as (v & <-%is_dist_zero & Hin). by apply (lay_apart s) in Hin; auto.
  - apply is_dist_pred in Hd as (v & Hv & Hin).
    apply is_dist_pred in Hv as (w & <-%is_dist_zero & Hw). apply lay_sym in Hw.
    by destruct Hne; apply (lay_one v).
Qed.

Lemma vertex_record u : (u <= V)%nat ->
  exists x, vertice !! u = Some x /\ vertex_ok (fun v => bool_decide (v ∈ house)) (adj u) x.
Proof. intros Hu. by apply lay_rep. Qed.

(** The flag and the house of a vertex record. *)
Lemma vertex_house u x h :
  vertex_ok (fun v => bool_decide (v ∈ house)) (adj u) x ->
  (h ∈ adj u /\ h ∈ house) <-> (is_house x = true /\ h = house_of x).
Proof.
  intros (_ & _ & _ & Hh & Hlast).
  assert (is_house x = true -> house_of x ∈ adj u /\ house_of x ∈ house) as Hx.
  { intros E. pose proof (last_Some_elem_of _ _ (Hlast E)) as Hin.
    rewrite list_elem_of_In in Hin. apply filter_In in Hin as [Hin Hb].
    rewrite list_elem_of_In. by apply bool_decide_eq_true in Hb. }
  split.
  - intros [Ha Hin]. assert (is_house x = true) as E.
    { rewrite Hh. apply existsb_exists. exists h. rewrite <- list_elem_of_In.
      by rewrite bool_decide_eq_true. }
    split; [done|]. destruct (Hx E). by apply (lay_one u).
  - intros [E ->]. by apply Hx.
Qed.

(** ** Which houses have been seen *)

(** [visit_house] marks the houses beside the first [p] visited vertices. *)
Definition found (p : nat) (xs : list nat) (vh : nat -> bool) : Prop :=
  forall h, vh h = true <-> h ∈ house /\ exists k u, (k < p)%nat /\ xs !! k = Some u /\ h ∈ adj u.

Lemma found_app p xs new vh : (p <= length xs)%nat -> found p xs vh -> found p (xs ++ new) vh.
Proof.
  intros Hp Hf h. rewrite (Hf h). split; intros (Hh & k & u & Hk & Hu & Ha);
    (split; [done|]; exists k, u; split; [done|]; split; [|done]).
  - by apply lookup_app_l_Some.
  - by rewrite lookup_app_l in Hu by lia.
Qed.

(** Processing [u] adds its house, if it has one. *)
Lemma found_step p xs vh vh' u x :
  found p xs vh -> xs !! p = Some u ->
  vertex_ok (fun v => bool_decide (v ∈ house)) (adj u) x ->
  (forall h, vh' h = true <-> vh h = true \/ (is_house x = true /\ h = house_of x)) ->
  found (S p) xs vh'.
Proof.
  intros Hf Hu Hok Hvh h. rewrite Hvh, (Hf h), <- (vertex_house u x h Hok). split.
  - intros [(Hh & k & v & Hk & Hv & Ha)|[Ha Hh]]; (split; [done|]).
    + exists k, v. split; [lia|done].
    + exists p, u. split; [lia|done].
  - intros (Hh & k & v & Hk & Hv & Ha). destruct (decide (k = p)) as [->|]; [right; naive_solver|].
    left. split; [done|]. exists k, v. split; [lia|done].
Qed.

(** A house not seen yet is at least one level further out. *)
Lemma unfound_far f xs D vh h d :
  bfs V adj s f xs D -> found (i f) xs vh -> h ∈ house -> h <> s -> vh h = false ->
  is_dist adj s h d -> (S D <= d)%nat.
Proof.
  intros B Hf Hh Hne Hvh Hd. destruct (decide (S D <= d)%nat) as [|Hlt]; [done|]. exfalso.
  destruct d as [|d]; [by apply is_dist_zero in Hd|].
  apply is_dist_pred in Hd as (w & Hw & Hin).
  destruct (bfs_nearer _ _ _ _ _ _ w d B Hw) as (k & Hk & Hxk); [lia|].
  assert (vh h = true); [|congruence]. apply Hf. split; [done|]. by exists k, w.
Qed.

Lemma seen_near f xs D vh h :
  bfs V adj s f xs D -> found (S (i f)) xs vh -> vh h = true ->
  exists d, (d <= S D)%nat /\ is_dist adj s h d.
Proof.
  intros B Hf (Hh & k & u & Hk & Hu & Ha)%Hf.
  assert (u ∈ take (S (cycle_count f)) xs) as Hin.
  { eapply list_elem_of_lookup_2, lookup_take_Some. split; [exact Hu|].
    pose proof (bfs_i _ _ _ _ _ _ B). lia. }
  apply (bfs_inner _ _ _ _ _ _ B) in Hin as (d & Hd & Hdist).
  destruct (is_dist_step _ _ _ _ _ Hdist Ha) as (d' & Hd' & ?). exists d'. split; [lia|done].
Qed.

(** The house of the current vertex, seen for the first time. *)
Lemma new_house_distance f xs D vh u h :
  bfs V adj s f xs D -> found (i f) xs vh -> xs !! i f = Some u -> h ∈ adj u -> h ∈ house ->
  h <> s -> vh h = false -> is_dist adj s h (S D).
Proof.
  intros B Hf Hu Ha Hh Hne Hvh.
  assert (is_dist adj s u D) as Hd.
  { apply (bfs_current _ _ _ _ _ _ B (i f)); [pose proof (bfs_i _ _ _ _ _ _ B); lia|done]. }
  destruct (is_dist_step _ _ _ _ _ Hd Ha) as (d & Hle & Hdh).
  pose proof (unfound_far f xs D vh h d B Hf Hh Hne Hvh Hdh). by replace (S D) with d by lia.
Qed.

(** A traversal that is exhausted has seen every other house. *)
Lemma exhausted_found f xs D vh h :
  bfs V adj s f xs D -> exhausted adj f xs -> found (S (i f)) xs vh -> h ∈ house -> h <> s ->
  vh h = true.
Proof.
  intros B [Hlen Hcl] Hf Hh Hne. apply Hf. split; [done|]. pose proof start_house as Hsh.
  assert (forall n v, walk adj n s v -> v ∈ xs) as Hall.
  { intros n v Hw. remember s as s0. induction Hw as [|n a b c Hw IH Hc]; subst.
    - eapply list_elem_of_lookup_2, (bfs_start _ _ _ _ _ _ B).
    - eapply Hcl; [by apply IH|done]. }
  destruct (lay_connected s h Hsh Hh) as [n Hw].
  destruct n as [|n]; [by inversion Hw|]. inversion Hw as [|? ? w ? Hww Hin]; subst.
  apply Hall in Hww as (k & Hk)%list_elem_of_lookup. exists k, w.
  pose proof (lookup_lt_Some _ _ _ Hk). split; [lia|done].
Qed.

(** The neighbour list of a visited vertex is not empty. *)
Lemma adj_nonempty u n : walk adj n s u -> adj u <> [].
Proof.
  intros Hw E. pose proof start_house as Hsh. destruct n as [|n].
  - inversion Hw; subst.
    assert (exists h, h ∈ house /\ h <> u) as (h & Hh & Hne).
    { destruct (lookup_lt_is_Some_2 house (S start)) as [h Hh]; [lia|].
      exists h. split; [by eapply list_elem_of_lookup_2|]. intros ->.
      pose proof (NoDup_lookup _ _ _ _ lay_nodup Hs Hh). lia. }
    destruct (lay_connected h u Hh Hsh) as [[|n] Hw']; inversion Hw' as [|? ? v ? Hv Hin];
      subst; [done|].
    apply lay_sym in Hin. rewrite E in Hin. by apply elem_of_nil in Hin.
  - inversion Hw as [|? ? v ? Hv Hin]; subst. apply lay_sym in Hin. rewrite E in Hin.
    by apply elem_of_nil in Hin.
Qed.
(** ** The tally *)

Definition seen (t : tally) (h : nat) : Prop := h ∈ house /\ h <> s /\ visit_house t h = true.

(** [l] is the distance from the start to the nearest other house. *)
Definition nearest (l : nat) : Prop :=
  (exists h, h ∈ house /\ h <> s /\ is_dist adj s h l) /\
  (forall h d, h ∈ house -> h <> s -> is_dist adj s h d -> (l <= d)%nat).

(** [most] is the level of the last house seen, once there are two. *)
Definition extent (D l : nat) (t : tally) : Prop :=
  (most t = 0 /\ (forall h, seen t h -> is_dist adj s h (S l)) /\
     forall h h', seen t h -> seen t h' -> h = h') \/
  (exists m, most t = Z.of_nat m /\ (m <= D)%nat /\
     (forall h d, seen t h -> is_dist adj s h d -> (d <= S m)%nat) /\
     (exists h, h ∈ house /\ h <> s /\ is_dist adj s h (S m))).

Record tally_ok (D : nat) (t : tally) : Prop := TallyOk {
  tally_count : exists F, NoDup F /\ count_end t = (S start + length F)%nat /\
    forall j, j ∈ F <-> (start < j)%nat /\ exists h, house !! j = Some h /\ visit_house t h = true;
  tally_first : least_flag t = true -> most t = 0 /\ forall h, ~ seen t h;
  tally_least : least_flag t = false -> exists l, least t = Z.of_nat l /\ (2 <= l <= D)%nat /\
    nearest (S l) /\ extent D l t
}.

Lemma tally_ok_mono D D' t : (D <= D')%nat -> tally_ok D t -> tally_ok D' t.
Proof.
  intros Hle [Hc Hf Hl]. constructor; [done|done|]. intros E.
  destruct (Hl E) as (l & -> & Hr & Hn & He). exists l. split_and!; try done; try lia.
  destruct He as [He|(m & ? & ? & ? & ?)]; [by left|right]. exists m. split_and!; try done. lia.
Qed.

Lemma count_end_bound D t : tally_ok D t -> (count_end t <= length house)%nat.
Proof.
  intros [(F & Hnd & -> & HF) _ _].
  assert (length F <= length (seq (S start) (length house - S start)))%nat as H.
  { apply submseteq_length, NoDup_submseteq; [done|]. intros j Hj%HF.
    destruct Hj as (? & h & Hh & _). apply elem_of_seq. apply lookup_lt_Some in Hh. lia. }
  rewrite length_seq in H. lia.
Qed.

(** Every house behind the start has been counted exactly when [count_end]
    reaches [house_num]. *)
Lemma count_end_full D t :
  tally_ok D t -> count_end t = length house <->
    forall j h, (start < j)%nat -> house !! j = Some h -> visit_house t h = true.
Proof.
  intros [(F & Hnd & E & HF) _ _]. rewrite E. split.
  - intros Hlen j h Hj Hh. destruct (decide (j ∈ F)) as [Hin|Hno].
    { apply HF in Hin as (_ & h' & Hh' & Hv). congruence. }
    exfalso. assert (length (j :: F) <= length (seq (S start) (length house - S start)))%nat as H.
    { apply submseteq_length, NoDup_submseteq; [by constructor|].
      intros k [->|Hk]%elem_of_cons; apply elem_of_seq.
      - apply lookup_lt_Some in Hh. lia.
      - apply HF in Hk as (? & h' & Hh' & _). apply lookup_lt_Some in Hh'. lia. }
    rewrite length_seq in H. simpl in H. lia.
  - intros Hall. assert (length (seq (S start) (length house - S start)) <= length F)%nat as H.
    { apply submseteq_length, NoDup_submseteq; [apply NoDup_seq|]. intros j Hj%elem_of_seq.
      apply HF. split; [lia|]. destruct (lookup_lt_is_Some_2 house j) as [h Hh]; [lia|].
      exists h. split; [done|]. apply (Hall j); [lia|done]. }
    pose proof (count_end_bound D t). rewrite length_seq in H.
    assert (length F <= length house - S start)%nat; [|lia].
    rewrite <- (length_seq (length house - S start) (S start)).
    apply submseteq_length, NoDup_submseteq; [done|]. intros j (? & h & Hh & _)%HF.
    apply elem_of_seq. apply lookup_lt_Some in Hh. lia.
Qed.

Lemma find_house_spec hs : forall j0 h,
  match find_house j0 hs h with
  | Some j => exists k, j = (j0 + k)%nat /\ hs !! k = Some h
  | None => h ∉ hs
  end.
Proof.
  induction hs as [|a hs IH]; intros j0 h; simpl; [by intros ?%elem_of_nil|].
  destruct (Nat.eqb_spec a h) as [->|Hne].
  - exists 0%nat. split; [lia|done].
  - specialize (IH (S j0) h). destruct (find_house (S j0) hs h) as [j|].
    + destruct IH as (k & -> & Hk). exists (S k). split; [lia|done].
    + rewrite elem_of_cons. intros [->|]; done.
Qed.

(** The index loop of [found_house] counts the house exactly when it lies
    behind the start. *)
Lemma count_step D t h :
  tally_ok D t -> visit_house t h = false -> h ∈ house ->
  match find_house (S start) (drop (S start) house) h with
  | Some j => (start < j)%nat /\ house !! j = Some h
  | None => forall j, (start < j)%nat -> house !! j <> Some h
  end /\
  exists F, NoDup F /\
    match find_house (S start) (drop (S start) house) h with
    | Some _ => S (count_end t) | None => count_end t end = (S start + length F)%nat /\
    forall j, j ∈ F <-> (start < j)%nat /\
      exists h', house !! j = Some h' /\ upd (visit_house t) h true h' = true.
Proof.
  intros [(F & Hnd & E & HF) _ _] Hv Hh.
  pose proof (find_house_spec (drop (S start) house) (S start) h) as Hfind.
  destruct (find_house (S start) (drop (S start) house) h) as [j|].
  - destruct Hfind as (k & -> & Hk). rewrite lookup_drop in Hk. split; [split; [lia|done]|].
    exists ((S start + k)%nat :: F). split_and!.
    + constructor; [|done]. intros (_ & h' & Hh' & Hv')%HF. congruence.
    + simpl. lia.
    + intros j. rewrite elem_of_cons, HF. split.
      * intros [->|(? & h' & ? & ?)]; (split; [lia|]); [exists h; by rewrite upd_eq|].
        exists h'. split; [done|]. unfold upd. by destruct (decide (h = h')).
      * intros (? & h' & Hj & Hu). unfold upd in Hu.
        destruct (decide (h = h')) as [->|]; [|naive_solver].
        left. by apply (NoDup_lookup house _ _ h' lay_nodup).
  - assert (forall j, (start < j)%nat -> house !! j <> Some h) as Hno.
    { intros j Hj Hjh. apply Hfind, (list_elem_of_lookup_2 _ (j - S start)%nat).
      rewrite lookup_drop. by replace (S start + (j - S start))%nat with j by lia. }
    split; [done|]. exists F. split_and!; [done|done|]. intros j. rewrite HF.
    split; intros (? & h' & Hj & Hu); (split; [done|]); exists h'; (split; [done|]);
      unfold upd in *; destruct (decide (h = h')) as [->|]; naive_solver.
Qed.
(** *** A house seen for the first time *)

Lemma self_level f xs D u :
  bfs V adj s f xs D -> xs !! i f = Some u -> s ∈ adj u -> (D <= 1)%nat.
Proof.
  intros B Hu Ha. assert (is_dist adj s u D) as [_ Hmin].
  { apply (bfs_current _ _ _ _ _ _ B (i f)); [pose proof (bfs_i _ _ _ _ _ _ B); lia|done]. }
  apply Hmin. econstructor; [constructor|]. by apply lay_sym.
Qed.

Lemma seen_upd t h ce fl l m h' :
  h ∈ house -> seen (mkTally (upd (visit_house t) h true) ce fl l m) h' <->
    seen t h' \/ (h' = h /\ h <> s).
Proof. intros Hh. unfold seen. simpl. unfold upd. destruct (decide (h = h')); naive_solver. Qed.

Section new_house.
Context (f : frontier) (xs : list nat) (D u : nat) (t : tally) (x : Vertex).
Context (B : bfs V adj s f xs D) (Hu : xs !! i f = Some u).
Context (Hok : vertex_ok (fun v => bool_decide (v ∈ house)) (adj u) x).
Context (Hf : found (i f) xs (visit_house t)) (Ht : tally_ok D t).
Context (His : is_house x = true) (Hnew : visit_house t (house_of x) = false).

Lemma new_house : house_of x ∈ adj u /\ house_of x ∈ house.
Proof. by apply (vertex_house u x). Qed.

Lemma new_house_found : found (S (i f)) xs (upd (visit_house t) (house_of x) true).
Proof.
  apply (found_step (i f) xs (visit_house t) _ u x); try done.
  intros h. unfold upd. destruct (decide (house_of x = h)); naive_solver.
Qed.

Lemma new_house_level : house_of x <> s -> is_dist adj s (house_of x) (S D) /\ (2 <= D)%nat.
Proof.
  intros Hne. destruct new_house as [Ha Hh].
  pose proof (new_house_distance f xs D (visit_house t) u _ B Hf Hu Ha Hh Hne Hnew) as Hd.
  split; [done|]. pose proof (house_distance _ _ Hh Hne Hd). lia.
Qed.

Lemma new_house_self : house_of x = s -> (D <= 1)%nat.
Proof. intros E. apply (self_level f xs D u B Hu). rewrite <- E. apply new_house. Qed.

(** Line 317: the first house. *)
Lemma tally_first_house ce :
  least_flag t = true -> (1 < D)%nat ->
  (exists F, NoDup F /\ ce = (S start + length F)%nat /\ forall j, j ∈ F <-> (start < j)%nat /\
    exists h, house !! j = Some h /\ upd (visit_house t) (house_of x) true h = true) ->
  tally_ok D (mkTally (upd (visit_house t) (house_of x) true) ce false (Z.of_nat D) (most t)).
Proof.
  intros Hfl HD HF. destruct (tally_first _ _ Ht Hfl) as [Hm Hno].
  assert (house_of x <> s) as Hne by (intros E; pose proof (new_house_self E); lia).
  destruct new_house as [Ha Hh]. destruct (new_house_level Hne) as [Hd _].
  constructor; [done|done|]. intros _. exists D. split_and!; [done|lia|lia| |].
  - split; [by exists (house_of x)|]. intros h d Hh' Hne' Hd'.
    apply (unfound_far f xs D (visit_house t) h d); try done.
    destruct (visit_house t h) eqn:E; [|done]. by destruct (Hno h).
  - assert (forall h, seen (mkTally (upd (visit_house t) (house_of x) true) ce false
        (Z.of_nat D) (most t)) h -> h = house_of x) as Hone.
    { intros h [Hb|[-> _]]%seen_upd; [by destruct (Hno h)|done..]. }
    left. split_and!; [done| |].
    + by intros h ->%Hone.
    + by intros h h' ->%Hone ->%Hone.
Qed.

(** Lines 315-320 below level 2: only the start itself can be found. *)
Lemma tally_self_house ce :
  least_flag t = true -> (D <= 1)%nat ->
  (exists F, NoDup F /\ ce = (S start + length F)%nat /\ forall j, j ∈ F <-> (start < j)%nat /\
    exists h, house !! j = Some h /\ upd (visit_house t) (house_of x) true h = true) ->
  tally_ok D (mkTally (upd (visit_house t) (house_of x) true) ce true (least t) (most t)).
Proof.
  intros Hfl HD HF. destruct (tally_first _ _ Ht Hfl) as [Hm Hno].
  constructor; [done| |done]. intros _. split; [done|]. destruct new_house as [Ha Hh].
  intros h [Hs'|[-> Hne]]%seen_upd; [by apply (Hno h)| |done].
  destruct (new_house_level Hne). lia.
Qed.

(** Line 298: one more house. *)
Lemma tally_next_house ce :
  least_flag t = false ->
  (exists F, NoDup F /\ ce = (S start + length F)%nat /\ forall j, j ∈ F <-> (start < j)%nat /\
    exists h, house !! j = Some h /\ upd (visit_house t) (house_of x) true h = true) ->
  tally_ok D (mkTally (upd (visit_house t) (house_of x) true) ce false (least t) (Z.of_nat D)).
Proof.
  intros Hfl HF. destruct (tally_least _ _ Ht Hfl) as (l & Hl & Hr & Hnear & _).
  assert (house_of x <> s) as Hne by (intros E; pose proof (new_house_self E); lia).
  constructor; [done|done|]. intros _. exists l. split_and!; [done|lia|lia|done|].
  right. exists D. split_and!; [done|lia| |].
  - intros h d (Hh & Hne' & Hv) Hd. simpl in Hv.
    destruct (seen_near f xs D _ h B new_house_found Hv) as (d' & Hle & Hd').
    by rewrite (is_dist_unique _ _ _ _ _ Hd Hd').
  - exists (house_of x). destruct new_house. split_and!; try done. by apply new_house_level.
Qed.

(** [g_house_distance_i_to_all] only ever receives true distances. *)
Definition recorded (sh sh' : shared) : Prop :=
  sh' = sh \/ exists j h, (start < j)%nat /\ house !! j = Some h /\ is_dist adj s h (S D) /\
    sh' = set_dist start j (Z.of_nat (S D)) sh.

Lemma found_house_ok sh :
  exists t' sh',
    (found_house house start f t x sh = (PCount f t' x, sh') \/
     found_house house start f t x sh = (PPrune f t' x 0 P0, sh') /\ least_flag t' = false) /\
    found (S (i f)) xs (visit_house t') /\ tally_ok D t' /\ recorded sh sh'.
Proof.
  destruct new_house as [Ha Hh]. unfold found_house. rewrite (bfs_distance _ _ _ _ _ _ B).
  pose proof (bfs_length _ _ _ _ _ _ B) as HlV. pose proof (bfs_D _ _ _ _ _ _ B) as HDi.
  pose proof (lookup_lt_Some _ _ _ Hu) as Hix. pose proof lay_size as HV.
  rewrite (u32_small (Z.of_nat D + 1)) by lia.
  replace (Z.of_nat D + 1) with (Z.of_nat (S D)) by lia.
  destruct (count_step D t (house_of x) Ht Hnew Hh) as [Hj HF].
  pose proof new_house_found as Hfd.
  assert (forall sh', sh' = match find_house (S start) (drop (S start) house) (house_of x) with
      | Some j => set_dist start j (Z.of_nat (S D)) sh | None => sh end -> recorded sh sh') as Hrec.
  { intros sh' ->. destruct (find_house _ _ _) as [j|] eqn:E; [|by left]. destruct Hj as [Hlt Hjh].
    right. exists j, (house_of x). split_and!; try done. apply new_house_level. intros Es.
    rewrite Es in Hjh. pose proof (NoDup_lookup _ _ _ _ lay_nodup Hs Hjh). lia. }
  destruct (find_house _ _ _) as [j|]; destruct (least_flag t) eqn:Hfl;
    try destruct (Z.ltb_spec 1 (Z.of_nat D));
    eexists _, _; (split; [first [by left|by right]|]); (split; [exact Hfd|]);
    (split; [|by apply Hrec]);
    first [by apply tally_next_house|by apply tally_first_house; [|lia|]
          |by apply tally_self_house; [|lia|]].
Qed.
End new_house.
End houses.
End Houses.
