(* ===== verification/DistThreads.v ===== *)
(** * The threads and the result of Project1

    [ThreadFunc] (Project1/src/Project1.cpp, lines 102-125), its threads side
    by side, and the end of [main] (lines 199-230). *)
From S2P Require Import Prelude DistGraph DistSearch DistHouses.

Module Dist.
Import Graph Search Houses.
Local Open Scope Z_scope.

Definition NUM_THREAD : Z := 36.

Inductive tpc :=
| TCheck                              (* line 112 *)
| TFetch                              (* lines 113-118 *)
| TSearch (start_num : nat) (p : pc)  (* inside Search *)
| TDone.

Record state := mkState { g_cnt_global : nat; mem : shared; thread : nat -> tpc }.

Section program.
Context (vertice : list Vertex) (house : list nat) (vertice_num : nat).

(** What [search_array] (per thread) and [visit_house] (per call) hold when
    [Search] starts. *)
Context (raw_array : nat -> nat -> nat) (raw_visit_house : nat -> nat -> bool).

(** [house_num - 1] in unsigned arithmetic. *)
Definition last_house : Z := u32 (Z.of_nat (length house) - 1).

(** Lines 102-125; the body of the critical section is one transition. *)
Definition ThreadFunc_step (t : nat) (st : state) : option state :=
  match thread st t with
  | TCheck =>
      Some (mkState (g_cnt_global st) (mem st)
        (upd (thread st) t (if Z.of_nat (g_cnt_global st) <? last_house then TFetch else TDone)))
  | TFetch =>
      let start_num := g_cnt_global st in
      p ← Search_init house vertice_num (raw_array t) (raw_visit_house start_num) start_num;
      Some (mkState (S start_num) (mem st) (upd (thread st) t (TSearch start_num p)))
  | TSearch start_num p =>
      '(p', sh') ← Search_step vertice house vertice_num start_num p (mem st);
      Some (mkState (g_cnt_global st) sh' (upd (thread st) t
        (match p' with PReturned => TCheck | _ => TSearch start_num p' end)))
  | TDone => None
  end.

(** Lines 199-205. *)
Definition num_threads : Z :=
  if NUM_THREAD <? last_house then NUM_THREAD else last_house.

Definition step (st st' : state) : Prop :=
  exists t, Z.of_nat t < num_threads /\ ThreadFunc_step t st = Some st'.

(** Lines 155-160 and 182-183: the arrays hold what [malloc] and the stack
    left in them. *)
Definition main_init (raw : shared) : state :=
  mkState 0 (mkShared 0 (g_i_max raw) (g_house_distance_i_to_all raw)
               (house_distance_least raw) (house_distance_most raw)) (fun _ => TCheck).

(** Lines 217-227. *)
Fixpoint main_result (k : nat) (sh : shared) : Z * Z :=
  match k with
  | 0%nat => (INT_MAX, 0)
  | S i =>
      let '(least, most) := main_result i sh in
      (if house_distance_least sh i <=? least then house_distance_least sh i else least,
       if most <=? house_distance_most sh i then house_distance_most sh i else most)
  end.
End program.
(** ** What the shared memory promises *)
Section correctness.
Context (V : nat) (adj : nat -> list nat) (house : list nat) (vertice : list Vertex).
Context `{HL : !Layout V adj house vertice}.
Local Set Default Proof Using "HL".

(** The greatest distance between two houses. *)
Context (M : nat).
Context (HM : forall h h' d, h ∈ house -> h' ∈ house -> h <> h' -> is_dist adj h h' d -> (d <= M)%nat).

Local Notation n := (length house).

(** [k] bounds the distances from house [q] to the houses behind it. *)
Definition reaches (q k : nat) : Prop :=
  forall hq j h d, house !! q = Some hq -> (q < j)%nat -> house !! j = Some h ->
    is_dist adj hq h d -> (d <= k)%nat.

Record shared_ok (sh : shared) : Prop := SharedOk {
  ok_total : exists k, g_total_max sh = Z.of_nat k /\ (k <= M)%nat;
  ok_i_max : forall q, g_i_max sh q <> 0 -> (S (S q) < n)%nat ->
    exists k, g_i_max sh q = Z.of_nat k /\ (k <= V)%nat /\ reaches q k;
  ok_dist : forall q t, g_house_distance_i_to_all sh q t <> 0 -> (q < t)%nat /\
    exists hq ht d, house !! q = Some hq /\ house !! t = Some ht /\ is_dist adj hq ht d /\
      (d <= V)%nat /\ g_house_distance_i_to_all sh q t = Z.of_nat d
}.

(** The results of the search from house [start]: the nearest other house,
    and the farthest house behind it whenever that decides the maximum. *)
Definition done_at (start : nat) (sh : shared) : Prop :=
  exists s l m, house !! start = Some s /\ house_distance_least sh start = Z.of_nat l /\
    house_distance_most sh start = Z.of_nat m /\ nearest adj house s l /\ (l <= V)%nat /\ (m <= M)%nat /\
    forall j h, (start < j)%nat -> house !! j = Some h -> is_dist adj s h M ->
      m = M \/ (S (S start) = n /\ l = M).

(** What other threads may do to the shared memory. *)
Definition evolves (sh sh' : shared) : Prop :=
  (forall q, g_i_max sh q <> 0 -> g_i_max sh' q <> 0) /\
  (forall q t, g_house_distance_i_to_all sh q t <> 0 -> g_house_distance_i_to_all sh' q t <> 0) /\
  (forall k, done_at k sh -> done_at k sh').

Lemma evolves_refl sh : evolves sh sh.
Proof. by split_and!. Qed.

Definition registers_ok (start s q : nat) (r : prune_pc) (sh : shared) : Prop :=
  match r with
  | P0 => (q <= n - 1)%nat
  | P1 => (q < n - 1)%nat /\ g_i_max sh q <> 0
  | P2 => (q < n - 1)%nat /\ g_i_max sh q <> 0 /\ g_house_distance_i_to_all sh q start <> 0
  | P3 d => g_i_max sh q <> 0 /\ (q < start)%nat /\ exists hq k, house !! q = Some hq /\
      is_dist adj hq s k /\ (k <= V)%nat /\ d = Z.of_nat k
  | P4 sum => (q < start)%nat /\ exists hq k m, house !! q = Some hq /\
      is_dist adj hq s k /\ reaches q m /\ sum = Z.of_nat (k + m)
  end.

Definition max_ok (start : nat) (m : Z) (sh : shared) : Prop :=
  done_at start sh /\ exists k, m = Z.of_nat k /\ (1 <= k <= V)%nat /\ (k <= M)%nat /\
    ((S (S start) < n)%nat -> reaches start k).

(** Between the house test and the next vertex. *)
Definition at_vertex (start s : nat) (f : frontier) (t : tally) (x : Vertex) : Prop :=
  exists xs D u, bfs V adj s f xs D /\ xs !! i f = Some u /\
    vertex_ok (fun v => bool_decide (v ∈ house)) (adj u) x /\
    found adj house (S (i f)) xs (visit_house t) /\ tally_ok adj house start s D t.

Definition search_ok (start : nat) (p : pc) (sh : shared) : Prop :=
  exists s, house !! start = Some s /\ (S start < n)%nat /\
  match p with
  | PLoop f t => exists xs D, bfs V adj s f xs D /\ found adj house (i f) xs (visit_house t) /\
      tally_ok adj house start s D t /\ count_end t <> n
  | PPrune f t x q r => at_vertex start s f t x /\ least_flag t = false /\ registers_ok start s q r sh
  | PCount f t x => at_vertex start s f t x
  | PTest m | PSet m | PIMax m => max_ok start m sh
  | PReturned => done_at start sh
  end.

Lemma search_ok_evolves start p sh sh' :
  evolves sh sh' -> search_ok start p sh -> search_ok start p sh'.
Proof.
  intros (Hi & Hd & Hdone) (s & Hs & Hlt & H). exists s. split; [done|]. split; [done|].
  destruct p as [f t|f t x q r|f t x|m|m|m|]; try done; try (destruct H; split; auto; done).
  - destruct H as (Hat & Hfl & Hr). split_and!; [done|done|].
    destruct r; simpl in *; naive_solver.
  - by apply Hdone.
Qed.

(** *** Consequences of the layout *)

Lemma house_index h : h ∈ house -> exists j, house !! j = Some h.
Proof. by intros ?%list_elem_of_lookup. Qed.

Lemma index_ne j k h h' : house !! j = Some h -> house !! k = Some h' -> j <> k -> h <> h'.
Proof. intros Hj Hk Hne ->. by apply Hne, (NoDup_lookup house _ _ h' lay_nodup). Qed.

Lemma houses_apart h h' : h ∈ house -> h' ∈ house -> exists d, is_dist adj h h' d.
Proof.
  intros Hh Hh'. destruct (lay_connected h h' Hh Hh') as [k Hk].
  destruct (is_dist_exists _ _ _ _ Hk) as (d & _ & ?). by exists d.
Qed.

Lemma nearest_le_max s l : s ∈ house -> nearest adj house s l -> (l <= M)%nat.
Proof using HL HM. intros Hs [(h & Hh & Hne & Hd) _]. by apply (HM s h). Qed.

Lemma max_positive start s : house !! start = Some s -> (S start < n)%nat -> (3 <= M)%nat.
Proof using HL HM.
  intros Hs Hlt. destruct (lookup_lt_is_Some_2 house (S start)) as [h Hh]; [lia|].
  pose proof (list_elem_of_lookup_2 _ _ _ Hs). pose proof (list_elem_of_lookup_2 _ _ _ Hh).
  pose proof (index_ne _ _ _ _ Hh Hs ltac:(lia)) as Hne.
  destruct (houses_apart s h) as [d Hd]; [done..|].
  pose proof (house_distance V adj house vertice start s Hs Hlt h d ltac:(done) Hne Hd).
  pose proof (HM s h d). naive_solver lia.
Qed.

(** The test of line 306 only succeeds when no house behind the start is at
    the greatest distance. *)
Lemma prune_sound start s q sum sh j h :
  shared_ok sh -> house !! start = Some s -> registers_ok start s q (P4 sum) sh ->
  sum < g_total_max sh -> (start < j)%nat -> house !! j = Some h -> ~ is_dist adj s h M.
Proof.
  intros Hsh Hs (Hq & hq & k & m & Hhq & Hk & Hr & ->) Hlt Hj Hh Hd.
  destruct (ok_total _ Hsh) as (T & HT & HTM).
  destruct (houses_apart hq h) as [d' Hd'];
    [by eapply list_elem_of_lookup_2|by eapply list_elem_of_lookup_2|].
  assert (d' <= m)%nat by (apply (Hr hq j h d'); [done|lia|done|done]).
  pose proof (is_dist_triangle _ _ _ _ _ _ _ (is_dist_sym _ lay_sym _ _ _ Hk) Hd' Hd). lia.
Qed.
(** *** The transitions of one search *)

(** Going on to the next vertex: there is one as long as houses are missing. *)
Lemma continue_ok start s f t x sh :
  house !! start = Some s -> (S start < n)%nat -> at_vertex start s f t x -> count_end t <> n ->
  exists f', push_adjacent V x f = Some f' /\ search_ok start (PLoop f' t) sh.
Proof.
  intros Hs Hlt (xs & D & u & B & Hu & Hok & Hf & Ht) Hc.
  assert (is_dist adj s u D) as [Hw _].
  { apply (bfs_current _ _ _ _ _ _ B (i f)); [pose proof (bfs_i _ _ _ _ _ _ B); lia|done]. }
  destruct (push_adjacent_bfs V adj lay_range _ s f xs D u x B Hu Hok
    (adj_nonempty V adj house vertice start s Hs Hlt u D Hw) lay_size)
    as (f' & new & E & Ei & [(D' & HD & B')|[-> Hex]]); exists f'; (split; [done|]).
  - exists s. split_and!; [done|done|]. exists (xs ++ new), D'. rewrite Ei. split_and!; [done| | |done].
    + apply (found_app V adj house vertice start s Hs Hlt); try done. pose proof (lookup_lt_Some _ _ _ Hu). lia.
    + apply (tally_ok_mono V adj house vertice start s Hs Hlt D); [lia|done].
  - exfalso. apply Hc. eapply (count_end_full V adj house vertice start s Hs Hlt D t Ht).
    intros j h Hj Hh. eapply (exhausted_found V adj house vertice start s Hs Hlt f xs D); try done.
    + by eapply list_elem_of_lookup_2.
    + eapply index_ne; [done..|lia].
Qed.

Lemma set_dist_ok start s j h D sh :
  shared_ok sh -> house !! start = Some s -> (start < j)%nat -> house !! j = Some h ->
  is_dist adj s h (S D) -> (S D <= V)%nat ->
  shared_ok (set_dist start j (Z.of_nat (S D)) sh) /\
  evolves sh (set_dist start j (Z.of_nat (S D)) sh).
Proof.
  intros [Ht Hi Hd] Hs Hj Hh Hdist HD. split; [constructor; simpl; [done|done|]|split_and!; simpl; [done| |done]].
  - intros q k Hne. upd_cases; [|auto..]. split; [done|]. exists s, h, (S D). by split_and!.
  - intros q k Hne. upd_cases; [lia|auto..].
Qed.

Lemma set_result_ok start l m sh :
  done_at start (set_result start l m sh) -> shared_ok sh ->
  shared_ok (set_result start l m sh) /\ evolves sh (set_result start l m sh).
Proof.
  intros Hdone [Ht Hi Hd]. split; [by constructor|]. split_and!; [done|done|]. intros k Hk.
  destruct (decide (start = k)) as [<-|Hne]; [done|].
  unfold done_at, set_result. simpl. by rewrite !upd_ne by done.
Qed.

Lemma visit_ok start f t sh :
  shared_ok sh -> search_ok start (PLoop f t) sh ->
  exists p' sh', Search_step vertice house V start (PLoop f t) sh = Some (p', sh') /\
    shared_ok sh' /\ evolves sh sh' /\ search_ok start p' sh'.
Proof.
  intros Hsh (s & Hs & Hlt & xs & D & B & Hf & Ht & Hc). simpl. unfold visit.
  destruct (bfs_vertex _ _ _ _ _ _ B) as (u & Hu & ->).
  pose proof (lookup_lt_Some _ _ _ Hu) as Hix. pose proof (bfs_length _ _ _ _ _ _ B) as HlV.
  pose proof (bfs_D _ _ _ _ _ _ B) as HDi.
  destruct (Nat.ltb_spec (i f) V); [|lia].
  assert (1 <= u <= V)%nat as Hur.
  { apply (shape_range _ _ _ (bfs_shape _ _ _ _ _ _ B)). by eapply list_elem_of_lookup_2. }
  destruct (vertex_record V adj house vertice start s Hs Hlt u ltac:(lia)) as (x & -> & Hok). simpl.
  assert (forall (Hold : is_house x = true -> visit_house t (house_of x) = true),
    exists f', push_adjacent V x f = Some f' /\ search_ok start (PLoop f' t) sh) as Hgo.
  { intros Hold. apply (continue_ok start s f t x sh Hs Hlt); [|done].
    exists xs, D, u. split_and!; try done.
    apply (found_step V adj house vertice start s Hs Hlt (i f) xs (visit_house t) _ u x); try done.
    intros h. naive_solver. }
  destruct (is_house x) eqn:His.
  2: { destruct Hgo as (f' & -> & Hok'); [done|]. simpl. exists (PLoop f' t), sh.
       split_and!; [done|done|apply evolves_refl|done]. }
  destruct (Nat.leb_spec (house_of x) V) as [_|Hbad].
  2: { destruct (proj2 (vertex_house V adj house vertice start s Hs Hlt u x (house_of x) Hok))
         as [_ Hh]; [done|]. apply lay_house in Hh. lia. }
  destruct (visit_house t (house_of x)) eqn:Hv.
  { destruct Hgo as (f' & -> & Hok'); [done|]. simpl. exists (PLoop f' t), sh.
    split_and!; [done|done|apply evolves_refl|done]. }
  destruct (found_house_ok V adj house vertice start s Hs Hlt f xs D u t x B Hu Hok Hf Ht His Hv sh)
    as (t' & sh' & Heq & Hf' & Ht' & Hrec).
  assert (shared_ok sh' /\ evolves sh sh') as [Hsh' Hev].
  { destruct Hrec as [->|(j & h & Hj & Hh & Hd & ->)]; [split; [done|apply evolves_refl]|].
    apply (set_dist_ok start s j h); try done. lia. }
  assert (at_vertex start s f t' x) as Hat by (exists xs, D, u; by split_and!).
  destruct Heq as [->|[-> Hfl]]; eexists _, sh'; (split; [reflexivity|]); (split_and!; [done|done|]);
    exists s; split_and!; done || (simpl; lia).
Qed.
(** The early return of lines 306-309. *)
Lemma pruned_done start s q sum f t x sh :
  shared_ok sh -> house !! start = Some s -> (S start < n)%nat -> at_vertex start s f t x ->
  least_flag t = false -> registers_ok start s q (P4 sum) sh -> sum < g_total_max sh ->
  done_at start (set_result start (u32 (least t + 1)) (u32 (least t + 1)) sh).
Proof using HL HM.
  intros Hsh Hs Hlt (xs & D & u & B & Hu & _ & _ & Ht) Hfl Hr Hsum.
  destruct (tally_least _ _ _ _ _ _ Ht Hfl) as (l & -> & Hl & Hn & _).
  pose proof (bfs_length _ _ _ _ _ _ B). pose proof (lookup_lt_Some _ _ _ Hu).
  pose proof (bfs_D _ _ _ _ _ _ B). pose proof lay_size.
  rewrite u32_small by lia. exists s, (S l), (S l). simpl. rewrite !upd_eq.
  split_and!; [done|lia|lia|done|lia| |].
  - apply (nearest_le_max s); [by eapply list_elem_of_lookup_2|done].
  - intros j h Hj Hh Hd. by destruct (prune_sound start s q sum sh j h).
Qed.

Lemma prune_ok start f t x q r sh :
  shared_ok sh -> search_ok start (PPrune f t x q r) sh ->
  exists p' sh', Search_step vertice house V start (PPrune f t x q r) sh = Some (p', sh') /\
    shared_ok sh' /\ evolves sh sh' /\ search_ok start p' sh'.
Proof using HL HM.
  intros Hsh (s & Hs & Hlt & Hat & Hfl & Hr). simpl.
  assert (forall q', (q' <= n - 1)%nat -> search_ok start (PPrune f t x q' P0) sh) as Hnext
    by (intros q'; exists s; by split_and!).
  assert (forall p', search_ok start p' sh -> exists p'' sh', Some (p', sh) = Some (p'', sh') /\
    shared_ok sh' /\ evolves sh sh' /\ search_ok start p'' sh') as Hsame.
  { intros p' Hp. exists p', sh. split_and!; [done|done|apply evolves_refl|done]. }
  destruct r as [| | |d|sum]; simpl in Hr |- *.
  - unfold house_num. destruct (Nat.ltb_spec q (n - 1)); [destruct (Z.eqb_spec (g_i_max sh q) 0)|];
      apply Hsame; try (apply Hnext; lia); exists s; by split_and!.
  - destruct Hr as [Hq Hi]. destruct (Z.eqb_spec (g_house_distance_i_to_all sh q start) 0);
      apply Hsame; try (apply Hnext; lia); exists s; by split_and!.
  - apply Hsame. exists s. split_and!; try done. destruct Hr as (_ & Hi & Hd).
    destruct (ok_dist _ Hsh q start Hd) as (Hq & hq & ht & d & Hhq & Hht & Hdist & HdV & E).
    simplify_eq. split; [done|]. split; [done|]. by exists hq, d.
  - apply Hsame. exists s. split_and!; try done.
    destruct Hr as (Hi & Hq & hq & k & Hhq & Hk & HkV & ->). split; [done|].
    destruct (ok_i_max _ Hsh q Hi) as (m & -> & HmV & Hm); [lia|].
    exists hq, k, m. split_and!; try done. pose proof lay_size. rewrite u32_small; lia.
  - destruct (Z.ltb_spec sum (g_total_max sh)) as [Hsum|_];
      [|apply Hsame, Hnext; destruct Hr; lia].
    pose proof (pruned_done start s q sum f t x sh Hsh Hs Hlt Hat Hfl Hr Hsum) as Hdone.
    destruct (set_result_ok start _ _ sh Hdone Hsh) as [Hsh' Hev].
    eexists PReturned, _. split; [reflexivity|]. split_and!; [done|done|]. exists s. by split_and!.
Qed.

(** The value [most + 1] once all houses behind the start are seen. *)
Lemma finished_extent start s D l t :
  house !! start = Some s -> (S start < n)%nat -> (D < V)%nat ->
  (forall j h, (start < j)%nat -> house !! j = Some h -> seen house s t h) ->
  extent adj house s D l t ->
  exists k, u32 (most t + 1) = Z.of_nat k /\ (1 <= k <= V)%nat /\ (k <= M)%nat /\
    ((S (S start) < n)%nat -> reaches start k) /\
    forall j h, (start < j)%nat -> house !! j = Some h -> is_dist adj s h M ->
      k = M \/ (S (S start) = n /\ S l = M).
Proof using HL HM.
  intros Hs Hlt HD Hseen Hext. pose proof (max_positive start s Hs Hlt). pose proof lay_size.
  destruct Hext as [(-> & Hnear & Huniq)|(m & -> & Hm & Hbound & h0 & Hh0 & Hne0 & Hd0)].
  - assert (~ (S (S start) < n)%nat) as Hlast.
    { intros Hlt2. destruct (lookup_lt_is_Some_2 house (S start)) as [h1 Hh1]; [lia|].
      destruct (lookup_lt_is_Some_2 house (S (S start))) as [h2 Hh2]; [lia|].
      apply (index_ne _ _ _ _ Hh1 Hh2); [lia|].
      apply Huniq; [apply (Hseen (S start))|apply (Hseen (S (S start)))]; done || lia. }
    exists 1%nat. split_and!; [done|lia|lia|lia|done|].
    intros j h Hj Hh Hd. right. split; [lia|].
    apply (is_dist_unique adj s h); [|done]. by apply Hnear, (Hseen j).
  - assert (S m <= M)%nat by (apply (HM s h0); try done; by eapply list_elem_of_lookup_2).
    exists (S m). rewrite u32_small by lia. split_and!; [lia|lia|lia|done| |].
    + intros _ hq j h d Hhq Hj Hh Hd. simplify_eq. apply (Hbound h); [by apply (Hseen j)|done].
    + intros j h Hj Hh Hd. left. apply Nat.le_antisymm; [done|].
      apply (Hbound h); [by apply (Hseen j)|done].
Qed.

(** Lines 321-323: all houses behind the start are found. *)
Lemma finished_max start s f t x sh :
  house !! start = Some s -> (S start < n)%nat -> at_vertex start s f t x -> count_end t = n ->
  max_ok start (u32 (most t + 1)) (set_result start (u32 (least t + 1)) (u32 (most t + 1)) sh).
Proof using HL HM.
  intros Hs Hlt (xs & D & u & B & Hu & _ & _ & Ht) Hc.
  pose proof (proj1 (count_end_full V adj house vertice start s Hs Hlt D t Ht) Hc) as Hall.
  assert (forall j h, (start < j)%nat -> house !! j = Some h -> seen house s t h) as Hseen.
  { intros j h Hj Hh. split_and!; [by eapply list_elem_of_lookup_2| |by apply (Hall j)].
    eapply index_ne; [done..|lia]. }
  pose proof (bfs_length _ _ _ _ _ _ B). pose proof (lookup_lt_Some _ _ _ Hu).
  pose proof (bfs_D _ _ _ _ _ _ B). pose proof lay_size.
  destruct (least_flag t) eqn:Hfl.
  { exfalso. destruct (lookup_lt_is_Some_2 house (S start)) as [h1 Hh1]; [lia|].
    destruct (tally_first _ _ _ _ _ _ Ht Hfl) as [_ Hno].
    apply (Hno h1), (Hseen (S start)); [lia|done]. }
  destruct (tally_least _ _ _ _ _ _ Ht Hfl) as (l & -> & Hl & Hn & Hext).
  rewrite (u32_small (Z.of_nat l + 1)) by lia.
  destruct (finished_extent start s D l t) as (k & -> & Hk & HkM & Hreach & Hmax); try done; [lia|].
  split; [|by exists k; split_and!; try done; lia].
  exists s, (S l), k. simpl. rewrite !upd_eq. split_and!; try done; lia.
Qed.

(** Every transition of a search stays inside its arrays and keeps the
    invariants. *)
Lemma search_step_ok start p sh :
  shared_ok sh -> search_ok start p sh -> p <> PReturned ->
  exists p' sh', Search_step vertice house V start p sh = Some (p', sh') /\
    shared_ok sh' /\ evolves sh sh' /\ search_ok start p' sh'.
Proof using HL HM.
  intros Hsh Hp Hne. destruct p as [f t|f t x q r|f t x|m|m|m|]; [by apply visit_ok|by apply prune_ok| | | | |done];
    destruct Hp as (s & Hs & Hlt & Hat); simpl.
  - unfold house_num. destruct (Nat.eqb_spec (count_end t) n) as [Hc|Hc].
    + pose proof (finished_max start s f t x sh Hs Hlt Hat Hc) as Hmx.
      destruct (set_result_ok start _ _ sh (proj1 Hmx) Hsh) as [Hsh' Hev].
      eexists _, _. split; [reflexivity|]. split_and!; [done|done|]. exists s. by split_and!.
    + destruct (continue_ok start s f t x sh Hs Hlt Hat Hc) as (f' & -> & Hok). simpl.
      exists (PLoop f' t), sh. split_and!; [done|done|apply evolves_refl|done].
  - eexists _, sh. split; [reflexivity|]. split_and!; [done|apply evolves_refl|].
    exists s. by destruct (g_total_max sh <? m).
  - eexists _, _. split; [reflexivity|]. destruct Hat as (Hdone & k & -> & Hk & HkM & Hr).
    split; [|split; [by split_and!|]].
    + destruct Hsh. constructor; simpl; [by exists k|done|done].
    + exists s. split_and!; [done|done|]. split; [done|]. by exists k.
  - eexists _, _. split; [reflexivity|]. destruct Hat as (Hdone & k & -> & Hk & HkM & Hr).
    split; [|split].
    + destruct Hsh as [H1 H2 H3]. constructor; simpl; [done| |done].
      intros q. upd_cases; [|auto]. intros _ Hq. exists k. split_and!; [done|lia|auto].
    + split_and!; simpl; [|done|done]. intros q Hq. upd_cases; [lia|done].
    + exists s. by split_and!.
Qed.
Lemma house_num_bound : Z.of_nat n < 2 ^ 32.
Proof.
  pose proof lay_size. assert (n <= V)%nat; [|lia].
  apply (bounded_NoDup V); [apply lay_nodup|]. intros v. apply lay_house.
Qed.

Lemma last_house_eq : (2 <= n)%nat -> last_house house = Z.of_nat (n - 1).
Proof. intros. pose proof house_num_bound. unfold last_house. rewrite u32_small; lia. Qed.

(** *** All threads together *)
Context (raw_array : nat -> nat -> nat) (raw_visit_house : nat -> nat -> bool).
Context (Hraw : forall k h, raw_visit_house k h = false).
Context (Hn : (2 <= n)%nat).
Local Set Default Proof Using "All".

Local Notation tstep := (ThreadFunc_step vertice house V raw_array raw_visit_house).

Record inv (st : state) : Prop := Inv {
  inv_shared : shared_ok (mem st);
  inv_search : forall t k p, thread st t = TSearch k p -> search_ok k p (mem st) /\ p <> PReturned;
  inv_end : forall t, thread st t = TDone -> (n - 1 <= g_cnt_global st)%nat;
  inv_cover : forall k, (k < g_cnt_global st)%nat ->
    (exists t p, Z.of_nat t < num_threads house /\ thread st t = TSearch k p) \/ done_at k (mem st)
}.

(** The start of a search, lines 250-278. *)
Lemma Search_init_ok t k sh :
  (S k < n)%nat ->
  exists p, Search_init house V (raw_array t) (raw_visit_house k) k = Some p /\
    search_ok k p sh /\ p <> PReturned.
Proof.
  intros Hk. unfold Search_init. destruct (lookup_lt_is_Some_2 house k) as [s Hs]; [lia|].
  rewrite Hs. simpl. pose proof (lay_house s (list_elem_of_lookup_2 _ _ _ Hs)) as Hr.
  destruct (Nat.ltb_spec 0 V), (Nat.leb_spec s V); simpl; try lia.
  eexists. split; [reflexivity|]. split; [|done]. exists s. split_and!; [done|done|].
  exists [s], 0%nat. split_and!.
  - constructor; simpl; try lia; try done.
    + constructor; simpl; [done| |by apply NoDup_singleton| |].
      * intros j v Hj. apply list_lookup_singleton_Some in Hj as [-> ->]. by rewrite upd_eq.
      * intros v. rewrite list_elem_of_singleton. unfold upd. destruct (decide (s = v)); naive_solver.
      * by intros v ->%list_elem_of_singleton.
    + intros v. rewrite list_elem_of_singleton. split.
      * intros ->. exists 0%nat. split; [done|apply is_dist_refl].
      * intros (d & Hd & Hdist). assert (d = 0)%nat as -> by lia. by apply is_dist_zero in Hdist.
    + intros j v Hj Hv. apply list_lookup_singleton_Some in Hv as [-> ->]. apply is_dist_refl.
    + intros j v Hj Hv. apply list_lookup_singleton_Some in Hv as [-> ->]. lia.
  - intros h. simpl. rewrite Hraw. split; [done|]. intros (_ & j & u & Hj & _). lia.
  - constructor; simpl; [|intros _; split; [done|]|done].
    + exists []. split_and!; [constructor|simpl; lia|]. intros j. split; [by intros ?%elem_of_nil|].
      intros (_ & h & _ & Hv). by rewrite Hraw in Hv.
    + intros h (_ & _ & Hv). simpl in Hv. by rewrite Hraw in Hv.
  - simpl. lia.
Qed.

(** A transition that changes the shared memory as [evolves] allows keeps the
    searches of the other threads and the finished results. *)
Lemma inv_update st t sh' x cnt :
  inv st -> shared_ok sh' -> evolves (mem st) sh' -> (g_cnt_global st <= cnt)%nat ->
  (forall k p, x = TSearch k p -> search_ok k p sh' /\ p <> PReturned) ->
  (x = TDone -> (n - 1 <= cnt)%nat) ->
  (forall k p, thread st t = TSearch k p -> (exists p', x = TSearch k p') \/ done_at k sh') ->
  (forall k, (g_cnt_global st <= k < cnt)%nat -> exists p, x = TSearch k p) ->
  Z.of_nat t < num_threads house ->
  inv (mkState cnt sh' (upd (thread st) t x)).
Proof.
  intros [I1 I2 I3 I4] Hsh Hev Hcnt Hx Hd Hold Hnew Ht. constructor; simpl; [done| | |].
  - intros t' k p. upd_cases; [apply Hx|]. intros Hp. destruct (I2 _ _ _ Hp).
    split; [by eapply search_ok_evolves|done].
  - intros t'. upd_cases; [done|]. intros H%I3. lia.
  - intros k Hk. destruct (decide (g_cnt_global st <= k)%nat) as [Hge|Hlt].
    { left. destruct (Hnew k) as [p Hp]; [lia|]. exists t, p. by rewrite upd_eq. }
    destruct (I4 k) as [(t' & p & Ht' & Hp)|Hdone]; [lia| |right; by apply Hev].
    destruct (decide (t = t')) as [<-|Hne]; [|left; exists t', p; by upd_cases].
    destruct (Hold k p Hp) as [(p' & ->)|]; [|by right].
    left. exists t, p'. by rewrite upd_eq.
Qed.

(** Below the last house no transition leaves its arrays, and the invariant
    is kept. *)
Lemma tstep_inv st t :
  inv st -> Z.of_nat t < num_threads house -> thread st t <> TDone ->
  (thread st t = TFetch -> (g_cnt_global st < n - 1)%nat) ->
  exists st', tstep t st = Some st' /\ inv st'.
Proof.
  intros I Ht Hne Hf. unfold ThreadFunc_step.
  destruct (thread st t) as [| |k p|] eqn:E; [| | |done].
  - eexists. split; [reflexivity|]. rewrite (last_house_eq Hn).
    apply (inv_update st); try done; try apply I; try apply evolves_refl.
    + by destruct (_ <? _).
    + destruct (Z.ltb_spec (Z.of_nat (g_cnt_global st)) (Z.of_nat (n - 1))); [done|]. lia.
    + by rewrite E.
    + intros k Hk. lia.
  - destruct (Search_init_ok t (g_cnt_global st) (mem st)) as (p & -> & Hok & Hp).
    { specialize (Hf eq_refl). lia. }
    eexists. split; [reflexivity|].
    apply (inv_update st); try done; try apply I; try apply evolves_refl; try lia.
    + intros k p' [= <- <-]. done.
    + by rewrite E.
    + intros k Hk. assert (k = g_cnt_global st) as -> by lia. eauto.
  - destruct (inv_search _ I t k p E) as [Hok Hp].
    destruct (search_step_ok k p (mem st) (inv_shared _ I) Hok Hp) as (p' & sh' & -> & Hsh & Hev & Hok').
    simpl. eexists. split; [reflexivity|].
    apply (inv_update st); try done.
    + intros k' q Hq. destruct p'; naive_solver.
    + by destruct p'.
    + rewrite E. intros k' q [= <- <-]. destruct p'; try by (left; eexists).
      right. by destruct Hok' as (_ & _ & _ & ?).
    + intros k' Hk. lia.
Qed.
End correctness.
End Dist.
