(* ===== verification/DistMain.v ===== *)
(** * Correctness of the house-distance program

    The result [main] prints, the absence of bad accesses and the progress of
    the searches, for every interleaving of the threads; and concrete inputs
    on which the program leaves the conditions of these theorems. *)
From S2P Require Import Prelude DistGraph DistSearch DistHouses DistThreads.

Module DistMain.
Import Graph Search Houses Dist.
Local Open Scope Z_scope.

(** ** The final loop of [main] *)

Lemma main_result_least (l : nat -> nat) k sh :
  (forall i, (i < k)%nat -> house_distance_least sh i = Z.of_nat (l i) /\ Z.of_nat (l i) <= INT_MAX) ->
  (forall i, (i < k)%nat -> (main_result k sh).1 <= Z.of_nat (l i)) /\
  ((main_result k sh).1 = INT_MAX \/ exists i, (i < k)%nat /\ (main_result k sh).1 = Z.of_nat (l i)).
Proof.
  induction k as [|k IH]; intros Hl; simpl; [split; [lia|by left]|].
  destruct IH as (IH1 & IH2); [intros i ?; apply Hl; lia|].
  destruct (main_result k sh) as [x y]. simpl in *. destruct (Hl k) as [-> Hk]; [lia|].
  destruct (Z.leb_spec (Z.of_nat (l k)) x) as [Hle|Hgt]; simpl; split.
  - intros i Hi. destruct (decide (i = k)) as [->|]; [done|]. specialize (IH1 i). lia.
  - right. exists k. split; [lia|done].
  - intros i Hi. destruct (decide (i = k)) as [->|]; [lia|]. apply IH1. lia.
  - destruct IH2 as [->|(i & ? & ->)]; [by left|right]. exists i. split; [lia|done].
Qed.

Lemma main_result_most (m : nat -> nat) k sh :
  (forall i, (i < k)%nat -> house_distance_most sh i = Z.of_nat (m i)) ->
  (forall i, (i < k)%nat -> Z.of_nat (m i) <= (main_result k sh).2) /\
  ((main_result k sh).2 = 0 \/ exists i, (i < k)%nat /\ (main_result k sh).2 = Z.of_nat (m i)).
Proof.
  induction k as [|k IH]; intros Hm; simpl; [split; [lia|by left]|].
  destruct IH as (IH1 & IH2); [intros i ?; apply Hm; lia|].
  destruct (main_result k sh) as [x y]. simpl in *. rewrite (Hm k) by lia.
  destruct (Z.leb_spec y (Z.of_nat (m k))) as [Hle|Hgt]; simpl; split.
  - intros i Hi. destruct (decide (i = k)) as [->|]; [done|]. specialize (IH1 i). lia.
  - right. exists k. split; [lia|done].
  - intros i Hi. destruct (decide (i = k)) as [->|]; [lia|]. apply IH1. lia.
  - destruct IH2 as [->|(i & ? & ->)]; [by left|right]. exists i. split; [lia|done].
Qed.

(** ** Nearest and farthest pair of houses *)
Section result.
Context (V : nat) (adj : nat -> list nat) (house : list nat) (vertice : list Vertex).
Context `{HL : !Layout V adj house vertice}.
Local Notation n := (length house).

Definition pair_at (d : nat) : Prop :=
  exists h h', h ∈ house /\ h' ∈ house /\ h <> h' /\ is_dist adj h h' d.

Definition closest (l : nat) : Prop := pair_at l /\ forall d, pair_at d -> (l <= d)%nat.
Definition farthest (m : nat) : Prop := pair_at m /\ forall d, pair_at d -> (d <= m)%nat.

Lemma maximum_of (P : nat * nat -> nat -> Prop) (ps : list (nat * nat)) :
  (forall p, p ∈ ps -> exists d, P p d) -> (forall p d d', P p d -> P p d' -> d = d') -> ps <> [] ->
  exists m, (exists p, p ∈ ps /\ P p m) /\ forall p d, p ∈ ps -> P p d -> (d <= m)%nat.
Proof.
  intros Hex Hu. induction ps as [|p ps IH]; [done|]. intros _.
  destruct (Hex p) as [d Hd]; [by left|]. destruct ps as [|p' ps].
  { exists d. split; [exists p; split; [by left|done]|].
    intros q e ->%list_elem_of_singleton He. by rewrite (Hu _ _ _ Hd He). }
  destruct IH as (m & (q & Hq & Hm) & Hle); [intros q Hq; apply Hex; by right|done|].
  exists (d `max` m)%nat. split.
  - destruct (Nat.max_spec d m) as [[_ ->]|[_ ->]]; [exists q; split; [by right|done]|].
    exists p. split; [by left|done].
  - intros r e [->|Hr]%elem_of_cons He; [rewrite (Hu _ _ _ He Hd); lia|].
    specialize (Hle r e Hr He). lia.
Qed.

Lemma farthest_exists : (2 <= n)%nat -> exists M, farthest M.
Proof using HL.
  intros Hn. set (ps := List.filter (fun p => negb (Nat.eqb p.1 p.2)) (list_prod house house)).
  assert (forall h h', (h, h') ∈ ps <-> h ∈ house /\ h' ∈ house /\ h <> h') as Hps.
  { intros h h'. unfold ps. rewrite !list_elem_of_In, filter_In, in_prod_iff. simpl.
    rewrite negb_true_iff, Nat.eqb_neq. tauto. }
  destruct (maximum_of (fun p d => is_dist adj p.1 p.2 d) ps) as (M & ([h h'] & Hp & Hd) & Hmax).
  - intros [h h'] (Hh & Hh' & _)%Hps. by eapply houses_apart.
  - intros p d d'. apply is_dist_unique.
  - destruct (lookup_lt_is_Some_2 house 0) as [h Hh]; [lia|].
    destruct (lookup_lt_is_Some_2 house 1) as [h' Hh']; [lia|].
    intros E. assert ((h, h') ∈ ps) as Hin; [|rewrite E in Hin; by apply elem_of_nil in Hin].
    apply Hps. split_and!; [by eapply list_elem_of_lookup_2..|].
    intros ->. by pose proof (NoDup_lookup _ _ _ _ lay_nodup Hh Hh').
  - exists M. split; [apply Hps in Hp; exists h, h'; naive_solver|].
    intros d (a & b & Ha & Hb & Hne & Hab). apply (Hmax (a, b)); [by apply Hps|done].
Qed.

Lemma farthest_bound M h h' d :
  farthest M -> h ∈ house -> h' ∈ house -> h <> h' -> is_dist adj h h' d -> (d <= M)%nat.
Proof. intros [_ H] ? ? ? ?. apply H. by exists h, h'. Qed.

(** An unordered pair is met by the search from its first house. *)
Lemma pair_ordered d :
  pair_at d -> exists a b ha hb, (a < b)%nat /\ house !! a = Some ha /\ house !! b = Some hb /\
    is_dist adj ha hb d.
Proof using HL.
  intros (h & h' & (a & Ha)%list_elem_of_lookup & (b & Hb)%list_elem_of_lookup & Hne & Hd).
  destruct (decide (a < b)%nat) as [|Hge]; [by exists a, b, h, h'|].
  exists b, a, h', h. split_and!; [|done|done|by apply (is_dist_sym _ lay_sym)].
  assert (a <> b) by (intros ->; congruence). lia.
Qed.
End result.
(** ** Runs of the program *)
Section program.
Context (V : nat) (adj : nat -> list nat) (house : list nat) (vertice : list Vertex).
Context `{HL : !Layout V adj house vertice}.
Local Notation n := (length house).

(** [malloc] and the stack give zeroed memory to [g_i_max],
    [g_house_distance_i_to_all] and [visit_house]; the other arrays may hold
    anything. *)
Record zeroed (raw : shared) (raw_visit_house : nat -> nat -> bool) : Prop := Zeroed {
  zero_i_max : forall q, g_i_max raw q = 0;
  zero_dist : forall q t, g_house_distance_i_to_all raw q t = 0;
  zero_visit : forall k h, raw_visit_house k h = false
}.

Context (raw_array : nat -> nat -> nat) (raw_visit_house : nat -> nat -> bool) (raw : shared).
Context (Hz : zeroed raw raw_visit_house).

Local Notation tstep := (ThreadFunc_step vertice house V raw_array raw_visit_house).

(** The states of a run of the program. *)
Definition dist_reachable (st : state) : Prop :=
  rtc (step vertice house V raw_array raw_visit_house) (main_init raw) st.

Lemma dist_init_inv M : inv V adj house M (main_init raw).
Proof using Hz.
  constructor; simpl; [|done|done|lia]. constructor; simpl.
  - exists 0%nat. split; [done|lia].
  - intros q Hq. by rewrite (zero_i_max _ _ Hz) in Hq.
  - intros q t Hq. by rewrite (zero_dist _ _ Hz) in Hq.
Qed.

Lemma tstep_counter t st st' :
  tstep t st = Some st' -> thread st t <> TDone /\ (g_cnt_global st <= g_cnt_global st')%nat /\
    (thread st t = TFetch -> g_cnt_global st' = S (g_cnt_global st)).
Proof.
  unfold ThreadFunc_step. destruct (thread st t) as [| |k p|]; [| | |done]; intros H.
  - simplify_eq. simpl. done.
  - inv_bind. simpl. split_and!; [done|lia|done].
  - apply bind_Some in H as ([p' sh'] & _ & H). simplify_eq. done.
Qed.

Lemma reachable_inv M st :
  (2 <= n)%nat -> farthest adj house M -> dist_reachable st -> (g_cnt_global st <= n - 1)%nat ->
  inv V adj house M st.
Proof using HL Hz.
  intros Hn HM. apply (rtc_invariant_guarded _ (inv V adj house M)
    (fun st => (g_cnt_global st <= n - 1)%nat)); [by apply dist_init_inv| |].
  - intros a b (t & _ & Hab). apply tstep_counter in Hab as (_ & Hle & _). lia.
  - intros a b Ha Hg (t & Ht & Hab). pose proof (tstep_counter _ _ _ Hab) as (Hne & Hle & Hf).
    destruct (tstep_inv V adj house vertice M (fun h h' d => farthest_bound adj house M h h' d HM)
      raw_array raw_visit_house (zero_visit _ _ Hz) Hn a t Ha Ht Hne) as (b' & Hb & Hi).
    { intros E. specialize (Hf E). lia. }
    congruence.
Qed.

(** *** From the results of the searches to the answer *)
Section answer.
Context (M : nat) (HM : farthest adj house M) (sh : shared) (l m : nat -> nat).

Definition result_of (k : nat) : Prop :=
  exists s, house !! k = Some s /\
    house_distance_least sh k = Z.of_nat (l k) /\ house_distance_most sh k = Z.of_nat (m k) /\
    nearest adj house s (l k) /\ (l k <= V)%nat /\ (m k <= M)%nat /\
    forall j h, (k < j)%nat -> house !! j = Some h -> is_dist adj s h M ->
      m k = M \/ (S (S k) = n /\ l k = M).

Context (Hn : (3 <= n)%nat) (Hall : forall k, (k < n - 1)%nat -> result_of k).

Lemma different_houses a b ha hb :
  house !! a = Some ha -> house !! b = Some hb -> a <> b -> ha <> hb.
Proof using HL. apply (index_ne V adj house vertice). Qed.

(** A search that met the greatest distance reports it, unless it is the last
    one and met a single house; then the search from house 0 reports it. *)
Lemma some_search_reports_max : exists k, (k < n - 1)%nat /\ m k = M.
Proof using HL HM Hn Hall.
  destruct (pair_ordered V adj house vertice M (proj1 HM)) as (a & b & ha & hb & Hab & Ha & Hb & Hd).
  pose proof (lookup_lt_Some _ _ _ Hb). destruct (Hall a) as (s & Hs & _ & _ & Hn' & _ & _ & Hmax); [lia|].
  simplify_eq. destruct (Hmax b hb Hab Hb Hd) as [Heq|[Hlast Heq]]; [exists a; split; [lia|done]|].
  destruct (lookup_lt_is_Some_2 house 0) as [h0 Hh0]; [lia|].
  pose proof (different_houses 0 a _ _ Hh0 Ha ltac:(lia)) as Hne.
  pose proof (list_elem_of_lookup_2 _ _ _ Hh0) as Hin0. pose proof (list_elem_of_lookup_2 _ _ _ Ha) as Hina.
  destruct (houses_apart V adj house vertice ha h0) as [d Hd0]; [done..|].
  assert (d = M) as ->.
  { apply Nat.le_antisymm; [by apply (farthest_bound adj house M ha h0)|].
    rewrite <- Heq. by apply (proj2 Hn' h0 d). }
  destruct (Hall 0%nat) as (s0 & Hs0 & _ & _ & _ & _ & _ & Hmax0); [lia|]. simplify_eq.
  exists 0%nat. split; [lia|]. destruct (Hmax0 a ha) as [->|[? _]]; [lia|done| |done|lia].
  by apply (is_dist_sym _ lay_sym).
Qed.

Lemma answer_most : (main_result (n - 1) sh).2 = Z.of_nat M.
Proof using HL HM Hn Hall.
  destruct (main_result_most m (n - 1) sh) as (Hge & Hm).
  { intros k Hk. by destruct (Hall k Hk) as (s & _ & _ & ? & _). }
  destruct some_search_reports_max as (k & Hk & Hmk). specialize (Hge k Hk).
  destruct Hm as [E|(j & Hj & E)]; rewrite E in *; [lia|].
  destruct (Hall j Hj) as (s & _ & _ & _ & _ & _ & ? & _). lia.
Qed.

Lemma answer_least : exists x, (main_result (n - 1) sh).1 = Z.of_nat x /\ closest adj house x.
Proof using HL Hn Hall.
  pose proof (lay_size (vertice := vertice)) as HV.
  destruct (main_result_least l (n - 1) sh) as (Hle & Hl).
  { intros k Hk. destruct (Hall k Hk) as (s & _ & ? & _ & _ & ? & _). unfold INT_MAX. lia. }
  assert (exists k, (k < n - 1)%nat /\ (main_result (n - 1) sh).1 = Z.of_nat (l k)) as (k & Hk & E).
  { destruct Hl as [E|(k & Hk & ->)]; [|by exists k]. exists 0%nat. split; [lia|].
    destruct (Hall 0%nat) as (s & _ & _ & _ & _ & ? & _); [lia|].
    specialize (Hle 0%nat). unfold INT_MAX in *. lia. }
  exists (l k). split; [done|]. rewrite E in Hle.
  destruct (Hall k Hk) as (s & Hs & _ & _ & [(h & Hh & Hne & Hd) _] & _). split.
  - exists s, h. split_and!; [by eapply list_elem_of_lookup_2|done|done|done].
  - intros d (a & b & ha & hb & Hab & Ha & Hb & Hdab)%(pair_ordered V adj house vertice).
    pose proof (lookup_lt_Some _ _ _ Hb).
    destruct (Hall a) as (s' & Hs' & _ & _ & [_ Hnear] & _); [lia|].
    simplify_eq. specialize (Hle a ltac:(lia)).
    assert (l a <= d)%nat; [|lia]. apply (Hnear hb d); [by eapply list_elem_of_lookup_2| |done].
    apply (different_houses b a); [done..|lia].
Qed.
End answer.

Lemma done_results M sh :
  (forall k, (k < n - 1)%nat -> done_at V adj house M k sh) ->
  exists l m, forall k, (k < n - 1)%nat -> result_of M sh l m k.
Proof.
  intros Hdone.
  exists (fun k => Z.to_nat (house_distance_least sh k)), (fun k => Z.to_nat (house_distance_most sh k)).
  intros k Hk. destruct (Hdone k Hk) as (s & a & b & Hs & El & Em & H).
  unfold result_of. rewrite El, Em, !Nat2Z.id. by exists s.
Qed.

(** C6: under the conditions of this section and with at least three houses:
    whatever the interleaving, when all threads have returned and the counter
    has not run past the last house, the two numbers [main] prints are the least
    and the greatest distance between two different houses.

    The conditions are [Layout] (the adjacency is symmetric and within
    [1..V], no vertex has more than [MAX_EDGE_NUM] neighbours, houses are
    distinct, any two of them at least three edges apart and connected, and
    [V < 2^31]) and [zeroed] (the memory that [malloc] and the stack give to
    [g_i_max], [g_house_distance_i_to_all] and [visit_house] is zero).  Without
    them the numbers can be wrong: [two_houses_most], [close_houses_missed]. *)
Theorem project1_result st :
  (3 <= n)%nat -> dist_reachable st -> (forall t, Z.of_nat t < num_threads house -> thread st t = TDone) ->
  (g_cnt_global st <= n - 1)%nat ->
  exists l m, main_result (n - 1) (mem st) = (Z.of_nat l, Z.of_nat m) /\
    closest adj house l /\ farthest adj house m.
Proof using HL Hz.
  intros Hn Hrun Hend Hcnt. destruct (farthest_exists V adj house vertice) as [M HM]; [lia|].
  assert (2 <= n)%nat as Hn2 by lia.
  pose proof (reachable_inv M st Hn2 HM Hrun Hcnt) as [_ _ I3 I4].
  assert (0 < num_threads house) as HT.
  { unfold num_threads. rewrite (last_house_eq V adj house vertice Hn2).
    unfold NUM_THREAD. destruct (Z.ltb_spec 36 (Z.of_nat (n - 1))); lia. }
  assert (g_cnt_global st = n - 1)%nat as Hc.
  { pose proof (I3 0%nat (Hend 0%nat HT)). lia. }
  destruct (done_results M (mem st)) as (l & m & Hall).
  { intros k Hk. destruct (I4 k) as [(t & p & Ht & Hp)|]; [lia| |done].
    rewrite (Hend t Ht) in Hp. done. }
  destruct (answer_least M (mem st) l m Hn Hall) as (x & E1 & Hx).
  pose proof (answer_most M HM (mem st) l m Hn Hall) as E2.
  exists x, M. split_and!; [|done|done]. rewrite <- E1, <- E2. by destruct (main_result _ _).
Qed.

(** C7: under the conditions [Layout] and [zeroed] of this section (see
    [project1_result]) and with at least two houses: as long as the counter has
    not run past the last house, no thread reads or writes outside its arrays:
    every thread that has not returned has a next transition.  Reads of memory
    from [malloc] that the program has not initialised are transitions here;
    [zeroed] says which of it must be zero, the rest may hold anything. *)
Theorem project1_no_bad_access st t :
  (2 <= n)%nat -> dist_reachable st -> (g_cnt_global st <= n - 1)%nat ->
  Z.of_nat t < num_threads house -> thread st t <> TDone -> exists st', tstep t st = Some st'.
Proof using HL Hz.
  intros Hn Hrun Hcnt Ht Hne. destruct (farthest_exists V adj house vertice) as [M HM]; [lia|].
  pose proof (reachable_inv M st Hn HM Hrun Hcnt) as I.
  assert ((thread st t = TFetch /\ g_cnt_global st = (n - 1)%nat) \/
    (thread st t = TFetch -> (g_cnt_global st < n - 1)%nat)) as [[E Ec]|Hok].
  { destruct (decide (g_cnt_global st = n - 1)%nat); [|right; lia].
    destruct (thread st t); [by right|by left|by right|done]. }
  - unfold ThreadFunc_step. rewrite E. unfold Search_init. rewrite Ec.
    destruct (lookup_lt_is_Some_2 house (n - 1)) as [s Hs]; [lia|]. rewrite Hs. simpl.
    pose proof (lay_house s (list_elem_of_lookup_2 _ _ _ Hs)) as Hr.
    destruct (Nat.ltb_spec 0 V), (Nat.leb_spec s V); simpl; try lia. by eexists.
  - destruct (tstep_inv V adj house vertice M (fun h h' d => farthest_bound adj house M h h' d HM)
      raw_array raw_visit_house (zero_visit _ _ Hz) Hn st t I Ht Hne) as (st' & ? & _); [done|by exists st'].
Qed.
(** *** Searches return *)

(** The transitions a search may still take. *)
Definition prune_rank (r : prune_pc) : nat :=
  match r with P0 => 0 | P1 => 1 | P2 => 2 | P3 _ => 3 | P4 _ => 4 end.

Definition budget (k : nat) : nat := (V - k) * (5 * n + 10).

Definition search_rank (p : pc) : nat :=
  match p with
  | PLoop f _ => budget (i f)
  | PPrune f _ _ q r => budget (i f) - (1 + 5 * q + prune_rank r)
  | PCount f _ _ => budget (i f) - (5 * n + 2)
  | PTest _ => 3 | PSet _ => 2 | PIMax _ => 1 | PReturned => 0
  end.

Lemma push_index a f f' : push V a f = Some f' -> i f' = i f.
Proof. unfold push. intros H. repeat case_match; by simplify_eq. Qed.

Lemma push_loop_index adjs : forall j c f f', push_loop V adjs j c f = Some f' -> i f' = i f.
Proof.
  induction adjs as [|a adjs IH]; intros j c f f' H; simpl in H; [done|].
  apply bind_Some in H as (f1 & E%push_index & H). rewrite <- E.
  destruct (S j <? c)%nat; [by eapply IH|congruence].
Qed.

Lemma push_adjacent_index x f f' : push_adjacent V x f = Some f' -> i f' = S (i f).
Proof.
  unfold push_adjacent. intros (f1 & E%push_loop_index & H)%bind_Some. rewrite <- E.
  destruct (i f1 =? cycle_count f1)%nat; by simplify_eq.
Qed.

Lemma at_vertex_index start s f t x : at_vertex V adj house start s f t x -> (i f < V)%nat.
Proof.
  intros (xs & D & u & B & Hu & _). pose proof (bfs_length _ _ _ _ _ _ B).
  pose proof (lookup_lt_Some _ _ _ Hu). lia.
Qed.

(** One more vertex costs at most one round over the houses. *)
Lemma rank_next f : (i f < V)%nat ->
  budget (i f) = (budget (S (i f)) + (5 * n + 10))%nat.
Proof. intros. unfold budget. replace (V - i f)%nat with (S (V - S (i f))) by lia. lia. Qed.

Lemma Search_step_rank M k p sh p' sh' :
  search_ok V adj house M k p sh -> Search_step vertice house V k p sh = Some (p', sh') ->
  (search_rank p' < search_rank p)%nat.
Proof.
  intros (s & Hs & Hlt & Hok) Hstep. destruct p as [f t|f t x q r|f t x|m|m|m|]; cbn [Search_step] in Hstep; simpl in Hok; simplify_eq.
  - unfold visit in Hstep. destruct (Nat.ltb_spec (i f) V) as [Hi|]; [|done].
    pose proof (rank_next f Hi). apply bind_Some in Hstep as (x & _ & Hstep).
    assert (forall f', push_adjacent V x f = Some f' ->
      (search_rank (PLoop f' t) < search_rank (PLoop f t))%nat) as Hpush.
    { intros f' E%push_adjacent_index. cbn [search_rank]. rewrite E. lia. }
    destruct (is_house x).
    + destruct (house_of x <=? V)%nat; [|done]. destruct (visit_house t (house_of x)).
      * apply bind_Some in Hstep as (f' & E & Hstep). simplify_eq. by apply Hpush.
      * unfold found_house in Hstep. repeat case_match; simplify_eq; cbn [search_rank prune_rank]; lia.
    + apply bind_Some in Hstep as (f' & E & Hstep). simplify_eq. by apply Hpush.
  - destruct Hok as (Hat & _ & Hr). pose proof (rank_next f (at_vertex_index _ _ _ _ _ Hat)).
    unfold prune, house_num in Hstep.
    destruct r; simpl in Hr; repeat case_match; simplify_eq; cbn [search_rank prune_rank]; repeat split_guard; try done; lia.
  - pose proof (at_vertex_index _ _ _ _ _ Hok) as Hi. pose proof (rank_next f Hi). unfold house_num in Hstep.
    destruct (count_end t =? n)%nat; [simplify_eq; cbn [search_rank]; lia|].
    apply bind_Some in Hstep as (f' & E%push_adjacent_index & Hstep). simplify_eq. cbn [search_rank]. rewrite E. lia.
  - destruct (_ <? _); simpl; lia.
  - simpl. lia.
  - simpl. lia.
Qed.

(** C8: under the conditions [Layout] and [zeroed] of this section (see
    [project1_result]), with at least two houses and the counter not past the
    last house, a search returns: it starts with at most
    [V * (5 * house_num + 10)] transitions to go, every transition of its thread
    uses one up, and those of the other threads do not touch it. *)
Theorem search_terminates st t k p st' :
  (2 <= n)%nat -> dist_reachable st -> (g_cnt_global st <= n - 1)%nat -> thread st t = TSearch k p ->
  (search_rank p <= V * (5 * n + 10))%nat /\
  (forall t', t' <> t -> tstep t' st = Some st' -> thread st' t = TSearch k p) /\
  (tstep t st = Some st' ->
     thread st' t = TCheck \/
     exists p', thread st' t = TSearch k p' /\ (search_rank p' < search_rank p)%nat).
Proof using HL Hz.
  intros Hn Hrun Hcnt Hp. destruct (farthest_exists V adj house vertice) as [M HM]; [lia|].
  pose proof (reachable_inv M st Hn HM Hrun Hcnt) as I.
  destruct (inv_search _ _ _ _ _ I t k p Hp) as [Hok _]. split_and!.
  - assert (forall f, budget (i f) <= V * (5 * n + 10))%nat as Hle
      by (intros f; apply Nat.mul_le_mono_r; lia).
    destruct Hok as (s & Hs & Hlt & Hok).
    destruct p as [f t0|f t0 x q r|f t0 x|m|m|m|]; simpl; try (specialize (Hle f); lia);
      try (destruct Hok as (_ & kk & _ & ? & _)); nia.
  - intros t' Hne Hst. unfold ThreadFunc_step in Hst.
    destruct (thread st t') eqn:E; simplify_eq; inv_bind; simpl; try by rewrite upd_ne.
    destruct x as [p2 sh2]. simplify_eq. simpl. by rewrite upd_ne.
  - unfold ThreadFunc_step. rewrite Hp. intros ([p' sh'] & E & Hst)%bind_Some. simplify_eq. simpl.
    rewrite upd_eq. pose proof (Search_step_rank M k p (mem st) p' sh' Hok E).
    destruct p'; try (right; eexists; split; [reflexivity|done]). by left.
Qed.
End program.
(** ** Concrete runs *)

(** Execute the transitions of the threads in the order [ts]. *)
Fixpoint run_sched (vertice : list Vertex) (house : list nat) (V : nat) (ts : list nat) (st : state)
  : option state :=
  match ts with
  | [] => Some st
  | t :: ts' =>
      if Z.of_nat t <? num_threads house then
        st' ← ThreadFunc_step vertice house V (fun _ _ => 0%nat) (fun _ _ => false) t st;
        run_sched vertice house V ts' st'
      else None
  end.

Lemma run_sched_rtc vertice house V ts : forall st st',
  run_sched vertice house V ts st = Some st' ->
  rtc (step vertice house V (fun _ _ => 0%nat) (fun _ _ => false)) st st'.
Proof.
  induction ts as [|t ts IH]; intros st st' H; simpl in H; [simplify_eq; constructor|].
  destruct (Z.ltb_spec (Z.of_nat t) (num_threads house)); [|done].
  apply bind_Some in H as (st1 & E & H). econstructor; [by exists t|by apply IH].
Qed.

Definition zero_shared : shared := mkShared 0 (fun _ => 0) (fun _ _ => 0) (fun _ => 0) (fun _ => 0).

Definition graph_of (V : nat) (house : list nat) (lines : list (nat * list nat)) : list Vertex :=
  default [] (read_graph house lines (replicate (S V) zero_vertex) (replicate (S V) false)).

(** Four houses around vertex 9, each behind a vertex of its own. *)
Definition star : list (nat * list nat) :=
  [(9, [5; 6; 7; 8]); (1, [5]); (2, [6]); (3, [7]); (4, [8])]%nat.
Definition star_houses : list nat := [1; 2; 3; 4]%nat.

Lemma star_input : input_ok 9 star_houses star.
Proof.
  constructor.
  - compute_decide.
  - intros v. unfold nbrs. rewrite length_fmap.
    do 10 (destruct v as [|v]; [compute_decide|]). simpl. unfold MAX_EDGE_NUM. lia.
  - compute_decide.
  - compute_decide.
  - assert (Forall (fun e => Forall (fun e' => e.1 = e'.1 -> e.2 ∈ star_houses -> e'.2 ∈ star_houses ->
      e.2 = e'.2) (darts star)) (darts star)) as H by compute_decide.
    rewrite Forall_forall in H. intros v h h' H1 H2. specialize (H _ H1).
    rewrite Forall_forall in H. by apply (H (v, h') H2).
  - assert (Forall (fun e => e.1 ∈ star_houses -> e.2 ∈ star_houses -> e.1 = e.2) (darts star)) as H
      by compute_decide.
    rewrite Forall_forall in H. intros h h' H1. apply (H _ H1).
  - assert (Forall (fun h => Forall (fun h' => walk (nbrs (darts star)) 0 h h' \/
      walk (nbrs (darts star)) 4 h h') star_houses) star_houses) as H by compute_decide.
    rewrite Forall_forall in H. intros h h' H1 H2. specialize (H _ H1).
    rewrite Forall_forall in H. destruct (H _ H2); eauto.
  - lia.
Qed.

#[export] Instance star_layout : Layout 9 (nbrs (darts star)) star_houses (graph_of 9 star_houses star).
Proof.
  apply layout_of_input; [apply star_input|].
  destruct (read_graph_input 9 star_houses star star_input) as (vs & E & H).
  unfold graph_of. by rewrite E.
Qed.
(** The memory of the process is zeroed in these runs. *)
Lemma zero_zeroed : zeroed zero_shared (fun _ _ => false).
Proof. by constructor. Qed.

Definition is_done (x : tpc) : bool := match x with TDone => true | _ => false end.
Definition is_fetch (x : tpc) : bool := match x with TFetch => true | _ => false end.

(** What a run leaves: the counter, the printed numbers and which threads
    have returned. *)
Definition summary (house : list nat) (st : state) : nat * (Z * Z) * list bool :=
  (g_cnt_global st, main_result (length house - 1) (mem st),
   map (fun t => is_done (thread st t)) (seq 0 (Z.to_nat (num_threads house)))).

Lemma run_summary vertice house V ts v :
  (st ← run_sched vertice house V ts (main_init zero_shared); Some (summary house st)) = Some v ->
  exists st, rtc (step vertice house V (fun _ _ => 0%nat) (fun _ _ => false)) (main_init zero_shared) st /\
    summary house st = v.
Proof. intros (st & E & H)%bind_Some. simplify_eq. exists st. split; [by eapply run_sched_rtc|done]. Qed.

(** Thread 0 does all three searches of the star, the others find no work. *)
Lemma star_run :
  exists st, rtc (step (graph_of 9 star_houses star) star_houses 9 (fun _ _ => 0%nat) (fun _ _ => false))
      (main_init zero_shared) st /\ summary star_houses st = (3%nat, (4, 4), [true; true; true]).
Proof.
  apply (run_summary _ _ _ (replicate 92 0 ++ [1; 2])%nat). vm_compute. reflexivity.
Qed.

Lemma project1_result_witness :
  exists st, rtc (step (graph_of 9 star_houses star) star_houses 9 (fun _ _ => 0%nat) (fun _ _ => false))
      (main_init zero_shared) st /\
    exists l m, main_result 3 (mem st) = (Z.of_nat l, Z.of_nat m) /\
      closest (nbrs (darts star)) star_houses l /\ farthest (nbrs (darts star)) star_houses m.
Proof.
  destruct star_run as (st & Hrun & Hsum). exists st. split; [exact Hrun|].
  unfold summary in Hsum. injection Hsum as Hc _ _ H0 H1 H2.
  apply (project1_result 9 (nbrs (darts star)) star_houses (graph_of 9 star_houses star)
    (fun _ _ => 0%nat) (fun _ _ => false) zero_shared zero_zeroed st).
  - simpl. lia.
  - exact Hrun.
  - intros t Ht. change (num_threads star_houses) with 3 in Ht.
    assert (is_done (thread st t) = true) as E
      by (destruct t as [|[|[|t]]]; [assumption..|lia]).
    destruct (thread st t); done.
  - rewrite Hc. simpl. lia.
Defined.

Lemma project1_no_bad_access_witness :
  exists st', ThreadFunc_step (graph_of 9 star_houses star) star_houses 9 (fun _ _ => 0%nat)
    (fun _ _ => false) 2 (main_init zero_shared) = Some st'.
Proof.
  apply (project1_no_bad_access 9 (nbrs (darts star)) star_houses (graph_of 9 star_houses star)
    (fun _ _ => 0%nat) (fun _ _ => false) zero_shared zero_zeroed (main_init zero_shared) 2).
  - simpl. lia.
  - constructor.
  - simpl. lia.
  - reflexivity.
  - discriminate.
Defined.

Lemma search_terminates_witness :
  exists st k p, rtc (step (graph_of 9 star_houses star) star_houses 9 (fun _ _ => 0%nat) (fun _ _ => false))
      (main_init zero_shared) st /\ thread st 0%nat = TSearch k p /\
    (search_rank 9 star_houses p <= 9 * (5 * 4 + 10))%nat.
Proof.
  destruct (run_sched (graph_of 9 star_houses star) star_houses 9 [0; 0]%nat (main_init zero_shared))
    as [st|] eqn:E; [|vm_compute in E; discriminate E].
  pose proof (run_sched_rtc _ _ _ _ _ _ E) as Hrun.
  assert (exists k p, thread st 0%nat = TSearch k p /\ g_cnt_global st = 1%nat) as (k & p & Hp & Hc).
  { simpl in E. injection E as <-. eexists _, _. split; reflexivity. }
  exists st, k, p. split; [exact Hrun|]. split; [exact Hp|].
  apply (search_terminates 9 (nbrs (darts star)) star_houses (graph_of 9 star_houses star)
    (fun _ _ => 0%nat) (fun _ _ => false) zero_shared zero_zeroed st 0 k p st).
  - simpl. lia.
  - exact Hrun.
  - rewrite Hc. simpl. lia.
  - exact Hp.
Defined.

Lemma read_graph_layout_witness :
  exists vs, read_graph star_houses star (replicate 10 zero_vertex) (replicate 10 false) = Some vs /\
    Layout 9 (nbrs (darts star)) star_houses vs.
Proof. apply (read_graph_layout 9 star_houses star). apply star_input. Defined.

(** ** Inputs and interleavings outside the theorems *)

(** the loop test of line 112 reads the counter outside the lock.  Two
    threads that pass it before the others take the last houses make the
    counter run past them, and the next search reads [house[house_num]]. *)
Theorem counter_overrun :
  exists st, rtc (step (graph_of 9 star_houses star) star_houses 9 (fun _ _ => 0%nat) (fun _ _ => false))
      (main_init zero_shared) st /\
    g_cnt_global st = length star_houses /\ thread st 2%nat = TFetch /\
    ThreadFunc_step (graph_of 9 star_houses star) star_houses 9 (fun _ _ => 0%nat) (fun _ _ => false) 2 st
      = None.
Proof.
  assert (H : (st ← run_sched (graph_of 9 star_houses star) star_houses 9
      ([1; 2] ++ replicate 54 0 ++ [0; 1])%nat (main_init zero_shared);
    Some (g_cnt_global st, is_fetch (thread st 2%nat))) = Some (4%nat, true))
    by (vm_compute; reflexivity).
  apply bind_Some in H as (st & E & H). injection H as Hc Hf. exists st.
  assert (thread st 2%nat = TFetch) as Ht by (destruct (thread st 2%nat); done).
  split; [by eapply run_sched_rtc|]. split_and!; [done|done|].
  unfold ThreadFunc_step. rewrite Ht. unfold Search_init. by rewrite Hc.
Qed.

(** Two houses at the ends of a path of four vertices. *)
Definition two_ends : list (nat * list nat) := [(1, [2]); (2, [3]); (3, [4])]%nat.

(** with two houses [most] is never assigned: the program prints 3 and 1
    for two houses at distance 3. *)
Theorem two_houses_most :
  is_dist (nbrs (darts two_ends)) 1 4 3 /\
  exists st, rtc (step (graph_of 4 [1; 4]%nat two_ends) [1; 4]%nat 4 (fun _ _ => 0%nat) (fun _ _ => false))
      (main_init zero_shared) st /\ summary [1; 4]%nat st = (1%nat, (3, 1), [true]).
Proof.
  split.
  - split; [compute_decide|]. intros k Hk. destruct (decide (3 <= k)%nat) as [|Hlt]; [done|].
    exfalso. apply walk_reach in Hk. destruct k as [|[|[|k]]]; [..|lia];
      apply (bool_decide_pack _) in Hk; vm_compute in Hk; done.
  - apply (run_summary _ _ _ (replicate 11 0)%nat). vm_compute. reflexivity.
Qed.

(** Two houses that share a neighbour, and one further away. *)
Definition shared_neighbour : list (nat * list nat) :=
  [(1, [2]); (2, [3; 4]); (4, [5]); (5, [6]); (6, [7])]%nat.

(** a vertex keeps one adjacent house and [least] skips the levels below
    2: houses at distance 2 are missed, and the program prints 5 and 1. *)
Theorem close_houses_missed :
  is_dist (nbrs (darts shared_neighbour)) 1 3 2 /\
  exists st, rtc (step (graph_of 7 [1; 3; 7]%nat shared_neighbour) [1; 3; 7]%nat 7 (fun _ _ => 0%nat)
      (fun _ _ => false)) (main_init zero_shared) st /\
    summary [1; 3; 7]%nat st = (2%nat, (5, 1), [true; true]).
Proof.
  split.
  - split; [compute_decide|]. intros k Hk. destruct (decide (2 <= k)%nat) as [|Hlt]; [done|].
    exfalso. apply walk_reach in Hk. destruct k as [|[|k]]; [..|lia];
      apply (bool_decide_pack _) in Hk; vm_compute in Hk; done.
  - apply (run_summary _ _ _ (replicate 26 0 ++ [1])%nat). vm_compute. reflexivity.
Qed.
End DistMain.
