(* ===== verification/Lab1.v ===== *)
(** * The shared counter of lab1 (lab1/prac_pthread.cpp)

    Ten threads increment a shared counter without a lock. *)
From S2P Require Import Prelude.
Local Open Scope Z_scope.

Module Lab1.

Definition NUM_THREAD : nat := 10.
Definition NUM_INCREASE : Z := 10000000.

(** [cnt_global++] is a load and a store. *)
Inductive pc :=
| Head (i cnt_local : Z)            (* line 12 *)
| Store (i cnt_local reg : Z)       (* line 13, after the load *)
| Returned (cnt_local : Z).         (* line 17 *)

Record state := mkState { cnt_global : Z; thread : nat -> pc }.

Definition init : state := mkState 0 (fun _ => Head 0 0).

(** Lines 9-19 for a loop of [num] rounds. *)
Definition ThreadFunc_step (num : Z) (t : nat) (s : state) : option state :=
  match thread s t with
  | Head i l =>
      Some (if i <? num then mkState (cnt_global s) (upd (thread s) t (Store i l (cnt_global s)))
            else mkState (cnt_global s) (upd (thread s) t (Returned l)))
  | Store i l reg => Some (mkState (s32 (reg + 1)) (upd (thread s) t (Head (i + 1) (l + 1))))
  | Returned _ => None
  end.

Definition step (T : nat) (num : Z) (s s' : state) : Prop :=
  exists t, (t < T)%nat /\ ThreadFunc_step num t s = Some s'.

Definition rounds (p : pc) : Z :=
  match p with Head i _ => i | Store i _ _ => i | Returned l => l end.

(** Rounds and local counter agree, and no register holds more than all
    threads have stored. *)
Record inv (T : nat) (num : Z) (s : state) : Prop := Inv {
  inv_cnt : 0 <= cnt_global s <= tsum T (fun t => rounds (thread s t));
  inv_pc : forall t, match thread s t with
    | Head i l => 0 <= i <= num /\ l = i
    | Store i l reg => 0 <= i < num /\ l = i /\ 0 <= reg <= tsum T (fun t => rounds (thread s t))
    | Returned l => l = num
    end
}.

Section counter.
Context (T : nat) (num : Z) (Hnum : 0 <= num) (Hsmall : Z.of_nat T * num <= INT_MAX).

Lemma rounds_bound s :
  (forall t, 0 <= rounds (thread s t) <= num) -> tsum T (fun t => rounds (thread s t)) <= INT_MAX.
Proof using Hsmall.
  intros H. assert (tsum T (fun t => rounds (thread s t)) <= Z.of_nat T * num); [|lia].
  clear Hsmall. induction T as [|T' IH]; [done|]. rewrite tsum_S. specialize (H T'). lia.
Qed.

Lemma inv_rounds s : inv T num s -> forall t, 0 <= rounds (thread s t) <= num.
Proof using Hnum.
  intros [_ H] t. specialize (H t). destruct (thread s t); simpl; lia.
Qed.

Lemma lab1_step_inv s s' : inv T num s -> step T num s s' -> inv T num s'.
Proof using Hnum Hsmall.
  intros I (t & Ht & Hst). pose proof (inv_rounds s I) as Hr. pose proof (rounds_bound s Hr) as Hb.
  destruct I as [Hc Hp]. pose proof (Hp t) as Hpt. unfold ThreadFunc_step in Hst.
  set (R := tsum T (fun k => rounds (thread s k))) in *.
  assert (forall x, tsum T (fun k => rounds (upd (thread s) t x k)) = R - rounds (thread s t) + rounds x) as Hsum.
  { intros x. rewrite (tsum_change T (fun k => rounds (thread s k)) _ t Ht); [by rewrite upd_eq|].
    intros k Hk. by rewrite upd_ne. }
  destruct (thread s t) as [i l|i l reg|l] eqn:E; [| |done]; simplify_eq.
  - destruct (Z.ltb_spec i num); constructor; simpl; rewrite ?Hsum; simpl; try lia;
      intros k; destruct (decide (t = k)) as [<-|Hne]; rewrite ?upd_eq, ?upd_ne by done; try lia;
      specialize (Hp k); destruct (thread s k); lia.
  - assert (R - i + num <= INT_MAX) as Hroom.
    { specialize (Hsum (Returned num)) as Hfull. cbn [rounds] in Hfull. rewrite <- Hfull. apply (rounds_bound (mkState 0 (upd (thread s) t (Returned num)))).
      intros k. simpl. upd_cases; [simpl; lia|apply Hr]. }
    assert (s32 (reg + 1) = reg + 1) as Hs by (apply s32_small; unfold INT_MAX in *; lia).
    constructor; simpl; rewrite ?Hsum, ?Hs; simpl; try lia.
    intros k. destruct (decide (t = k)) as [<-|Hne]; rewrite ?upd_eq, ?upd_ne by done; try lia.
    specialize (Hp k). destruct (thread s k); lia.
Qed.
Lemma lab1_init_inv : inv T num init.
Proof using Hnum.
  constructor; simpl; [|intros; lia]. rewrite (tsum_const T _ 0) by done. lia.
Qed.

(** without the lock the final count never exceeds
    [NUM_THREAD * NUM_INCREASE], and every thread returns its own number of
    rounds. *)
Theorem lab1_upper_bound s :
  rtc (step T num) init s -> (forall t, (t < T)%nat -> exists l, thread s t = Returned l) ->
  0 <= cnt_global s <= Z.of_nat T * num /\ forall t, (t < T)%nat -> thread s t = Returned num.
Proof using Hnum Hsmall.
  intros Hr Hend. assert (inv T num s) as [Hc Hp]
    by (eapply rtc_invariant; [apply lab1_init_inv|intros ? ?; apply lab1_step_inv|done]).
  assert (forall t, (t < T)%nat -> thread s t = Returned num) as Hall.
  { intros t Ht. destruct (Hend t Ht) as [l E]. specialize (Hp t). rewrite E in Hp. congruence. }
  split; [|done]. rewrite (tsum_const T _ num) in Hc; [done|]. intros t Ht. by rewrite Hall.
Qed.
End counter.

(** a lost update: when two threads load the counter before either of them
    stores it, both rounds are counted locally and the shared counter
    advances by one only. *)
Theorem lab1_lost_update num s t u i j l l' :
  t <> u -> thread s t = Head i l -> thread s u = Head j l' -> i < num -> j < num ->
  exists s1 s2 s3 s4, ThreadFunc_step num t s = Some s1 /\ ThreadFunc_step num u s1 = Some s2 /\
    ThreadFunc_step num t s2 = Some s3 /\ ThreadFunc_step num u s3 = Some s4 /\
    cnt_global s4 = s32 (cnt_global s + 1) /\
    thread s4 t = Head (i + 1) (l + 1) /\ thread s4 u = Head (j + 1) (l' + 1).
Proof.
  intros Hne Ht Hu Hi Hj. eexists _, _, _, _. unfold ThreadFunc_step.
  rewrite Ht, (proj2 (Z.ltb_lt i num) Hi). split; [reflexivity|]. simpl.
  rewrite upd_ne, Hu, (proj2 (Z.ltb_lt j num) Hj) by done. split; [reflexivity|]. simpl.
  rewrite upd_ne, upd_eq by done. split; [reflexivity|]. simpl.
  rewrite upd_ne, upd_eq by done. split; [reflexivity|]. simpl.
  split; [done|]. by rewrite (upd_ne _ u t), !upd_eq by done.
Qed.

Lemma lab1_lost_update_witness :
  exists s1 s2 s3 s4, ThreadFunc_step NUM_INCREASE 0 init = Some s1 /\
    ThreadFunc_step NUM_INCREASE 1 s1 = Some s2 /\ ThreadFunc_step NUM_INCREASE 0 s2 = Some s3 /\
    ThreadFunc_step NUM_INCREASE 1 s3 = Some s4 /\ cnt_global s4 = s32 (0 + 1) /\
    thread s4 0%nat = Head 1 1 /\ thread s4 1%nat = Head 1 1.
Proof. by apply (lab1_lost_update NUM_INCREASE init 0 1 0 0 0 0). Defined.

(** One round of two threads that do not interfere. *)
Fixpoint run (num : Z) (ts : list nat) (s : state) : option state :=
  match ts with [] => Some s | t :: ts' => s' ← ThreadFunc_step num t s; run num ts' s' end.

Lemma run_lab1_rtc T num ts : forall s s',
  Forall (fun t => (t < T)%nat) ts -> run num ts s = Some s' -> rtc (step T num) s s'.
Proof.
  induction ts as [|t ts IH]; intros s s' Hts H; simpl in H; [simplify_eq; constructor|].
  apply Forall_cons in Hts as [Ht Hts]. apply bind_Some in H as (s1 & E & H).
  econstructor; [by exists t|by apply IH].
Qed.

Lemma lab1_upper_bound_witness :
  exists s, rtc (step 2 1) init s /\ 0 <= cnt_global s <= 2 * 1 /\
    forall t, (t < 2)%nat -> thread s t = Returned 1.
Proof.
  destruct (run 1 [0; 1; 0; 1; 0; 1]%nat init) as [s|] eqn:E; [|vm_compute in E; discriminate E].
  assert (rtc (step 2 1) init s) as Hr.
  { apply (run_lab1_rtc 2 1 [0; 1; 0; 1; 0; 1]%nat); [|exact E]. repeat constructor; lia. }
  exists s. split; [exact Hr|]. apply (lab1_upper_bound 2 1); [lia|unfold INT_MAX; lia|exact Hr|].
  simpl in E. injection E as <-. intros t Ht. destruct t as [|[|t]]; [eexists; reflexivity..|lia].
Defined.
End Lab1.
