(* ===== verification/Lab2.v ===== *)
(** * The locked counter of lab2 (lab2/prac_mutex_pthread.cpp)

    The program of lab1 with the increment under a mutex. *)
From S2P Require Import Prelude.
Local Open Scope Z_scope.

Module Lab2.

Inductive pc :=
| Lock (i cnt_local : Z)            (* line 14 *)
| Load (i cnt_local : Z)            (* line 15 *)
| Store (i cnt_local reg : Z)       (* line 15, after the load *)
| Unlock (i cnt_local : Z)          (* line 16 *)
| Returned (cnt_local : Z).         (* line 20 *)

Record state := mkState { cnt_global : Z; g_mutex : option nat; thread : nat -> pc }.

Definition init : state := mkState 0 None (fun _ => Lock 0 0).

(** Lines 10-22 for a loop of [num] rounds; a thread that finds the mutex
    taken waits. *)
Definition ThreadFunc_step (num : Z) (t : nat) (s : state) : option state :=
  match thread s t with
  | Lock i l =>
      if i <? num then
        match g_mutex s with
        | None => Some (mkState (cnt_global s) (Some t) (upd (thread s) t (Load i l)))
        | Some _ => None
        end
      else Some (mkState (cnt_global s) (g_mutex s) (upd (thread s) t (Returned l)))
  | Load i l => Some (mkState (cnt_global s) (g_mutex s) (upd (thread s) t (Store i l (cnt_global s))))
  | Store i l reg => Some (mkState (s32 (reg + 1)) (g_mutex s) (upd (thread s) t (Unlock i l)))
  | Unlock i l => Some (mkState (cnt_global s) None (upd (thread s) t (Lock (i + 1) (l + 1))))
  | Returned _ => None
  end.

Definition step (T : nat) (num : Z) (s s' : state) : Prop :=
  exists t, (t < T)%nat /\ ThreadFunc_step num t s = Some s'.

(** The increments a thread has stored. *)
Definition stored (p : pc) : Z :=
  match p with
  | Lock i _ | Load i _ | Store i _ _ => i
  | Unlock i _ => i + 1
  | Returned l => l
  end.

Definition holds (p : pc) : bool :=
  match p with Load _ _ | Store _ _ _ | Unlock _ _ => true | _ => false end.

Record inv (T : nat) (num : Z) (s : state) : Prop := Inv {
  inv_cnt : cnt_global s = tsum T (fun t => stored (thread s t));
  inv_owner : forall t, holds (thread s t) = true -> g_mutex s = Some t;
  inv_pc : forall t, match thread s t with
    | Lock i l => 0 <= i <= num /\ l = i
    | Load i l | Unlock i l => 0 <= i < num /\ l = i
    | Store i l reg => 0 <= i < num /\ l = i /\ reg = cnt_global s
    | Returned l => l = num
    end
}.

Section counter.
Context (T : nat) (num : Z) (Hnum : 0 <= num) (Hsmall : Z.of_nat T * num <= INT_MAX).

Lemma stored_bound (th : nat -> pc) k :
  (forall t, 0 <= stored (th t) <= num) -> (k <= T)%nat ->
  0 <= tsum k (fun t => stored (th t)) <= Z.of_nat k * num.
Proof using Hnum.
  intros H. induction k as [|k IH]; intros Hk; [done|]. rewrite tsum_S. specialize (H k). lia.
Qed.

Lemma lab2_init_inv : inv T num init.
Proof using Hnum.
  constructor; simpl; [|done|intros; lia]. rewrite (tsum_const T _ 0) by done. lia.
Qed.

Lemma lab2_inv_step s s' : inv T num s -> step T num s s' -> inv T num s'.
Proof using Hnum Hsmall.
  intros [Hc Ho Hp] (t & Ht & Hst). pose proof (Hp t) as Hpt. unfold ThreadFunc_step in Hst.
  assert (forall k, 0 <= stored (thread s k) <= num) as Hr.
  { intros k. specialize (Hp k). destruct (thread s k); simpl; lia. }
  assert (forall x, tsum T (fun k => stored (upd (thread s) t x k)) =
    tsum T (fun k => stored (thread s k)) - stored (thread s t) + stored x) as Hsum.
  { intros x. rewrite (tsum_change T (fun k => stored (thread s k)) _ t Ht); [by rewrite upd_eq|].
    intros k Hk. by rewrite upd_ne. }
  assert (forall k, holds (thread s t) = true -> k <> t -> holds (thread s k) = false) as Hex.
  { intros k Hh Hne. apply Ho in Hh. destruct (holds (thread s k)) eqn:E; [|done].
    apply Ho in E. congruence. }
  destruct (thread s t) as [i l|i l|i l reg|i l|l] eqn:E; [| | | |done].
  - destruct (Z.ltb_spec i num); [destruct (g_mutex s) eqn:Em; [done|]|]; simplify_eq;
      (constructor; simpl; [rewrite Hsum; simpl; lia|..]);
      intros k; destruct (decide (t = k)) as [<-|Hne]; rewrite ?upd_eq, ?upd_ne by done; simpl; try done;
      try lia; try (apply Hp); intros Hk; apply Ho in Hk; congruence.
  - simplify_eq. constructor; simpl; [rewrite Hsum; simpl; lia|..]; intros k;
      destruct (decide (t = k)) as [<-|Hne]; rewrite ?upd_eq, ?upd_ne by done; simpl; try lia; auto.
    + intros _. apply Ho. by rewrite E.
    + specialize (Hp k). destruct (thread s k); auto.
  - simplify_eq. destruct Hpt as (Hi & -> & ->).
    assert (s32 (cnt_global s + 1) = cnt_global s + 1) as Hs.
    { pose proof (stored_bound (upd (thread s) t (Returned num)) T) as Hb. rewrite Hsum in Hb.
      simpl in Hb. rewrite <- Hc in Hb.
      pose proof (stored_bound (thread s) T Hr ltac:(lia)). rewrite <- Hc in *.
      apply s32_small. unfold INT_MAX in *.
      destruct Hb; [|lia|lia]. intros k. upd_cases; [simpl; lia|apply Hr]. }
    constructor; simpl; rewrite ?Hs; [rewrite Hsum; simpl; lia|..]; intros k;
      destruct (decide (t = k)) as [<-|Hne]; rewrite ?upd_eq, ?upd_ne by done; simpl; try lia; auto.
    + intros _. apply Ho. by rewrite E.
    + specialize (Hp k). specialize (Hex k eq_refl ltac:(done)).
      destruct (thread s k); simpl in Hex; try done; auto.
  - simplify_eq. constructor; simpl; [rewrite Hsum; simpl; lia|..]; intros k;
      destruct (decide (t = k)) as [<-|Hne]; rewrite ?upd_eq, ?upd_ne by done; simpl; try lia; auto.
    + intros Hk. by rewrite (Hex k eq_refl) in Hk by done.
    + apply Hp.
Qed.

(** with the mutex the final count is exactly
    [NUM_THREAD * NUM_INCREASE]. *)
Theorem lab2_exact_count s :
  rtc (step T num) init s -> (forall t, (t < T)%nat -> exists l, thread s t = Returned l) ->
  cnt_global s = Z.of_nat T * num.
Proof using Hnum Hsmall.
  intros Hr Hend. assert (inv T num s) as [-> _ Hp]
    by (eapply rtc_invariant; [apply lab2_init_inv|intros ? ?; apply lab2_inv_step|done]).
  apply tsum_const. intros t Ht. destruct (Hend t Ht) as [l E]. specialize (Hp t).
  rewrite E in *. simpl. congruence.
Qed.
End counter.

Fixpoint run (num : Z) (ts : list nat) (s : state) : option state :=
  match ts with [] => Some s | t :: ts' => s' ← ThreadFunc_step num t s; run num ts' s' end.

Lemma run_lab2_rtc T num ts : forall s s',
  Forall (fun t => (t < T)%nat) ts -> run num ts s = Some s' -> rtc (step T num) s s'.
Proof.
  induction ts as [|t ts IH]; intros s s' Hts H; simpl in H; [simplify_eq; constructor|].
  apply Forall_cons in Hts as [Ht Hts]. apply bind_Some in H as (s1 & E & H).
  econstructor; [by exists t|by apply IH].
Qed.

Lemma lab2_exact_count_witness :
  exists s, rtc (step 2 1) init s /\ cnt_global s = 2.
Proof.
  destruct (run 1 [0; 0; 0; 0; 1; 0; 1; 1; 1; 1]%nat init) as [s|] eqn:E;
    [|vm_compute in E; discriminate E].
  assert (rtc (step 2 1) init s) as Hr.
  { apply (run_lab2_rtc 2 1 [0; 0; 0; 0; 1; 0; 1; 1; 1; 1]%nat); [|exact E]. repeat constructor; lia. }
  exists s. split; [exact Hr|]. apply (lab2_exact_count 2 1); [lia|unfold INT_MAX; lia|exact Hr|].
  simpl in E. injection E as <-. intros t Ht. destruct t as [|[|t]]; [eexists; reflexivity..|lia].
Defined.
End Lab2.
