(* ===== verification/Lab3.v ===== *)
(** * The lock of lab3 (lab3/lock.cpp)

    Two threads protect an increment by a lock made of two flags and a
    variable [victim]. *)
From S2P Require Import Prelude.
Local Open Scope Z_scope.

Module Lab3.

Definition NUM_SNACK : Z := 1000000.

Inductive pc :=
| SetFlag (i pet_size : Z)       (* line 15 *)
| WaitFlag (i pet_size : Z)      (* line 16, reads g_flag[1-thread_id] *)
| WaitVictim (i pet_size : Z)    (* line 16, reads victim *)
| Critical (i pet_size : Z)      (* line 31 *)
| Release (i pet_size : Z)       (* line 22 *)
| Returned (pet_size : Z).       (* line 35 *)

Record state := mkState { g_flag : nat -> bool; victim : nat; thread : nat -> pc }.

(** Lines 7 and 9-12: [victim] is 0 and no statement assigns it. *)
Definition InitLock : state := mkState (fun _ => false) 0 (fun _ => SetFlag 0 0).

Definition goto (id : nat) (p : pc) (s : state) : state :=
  mkState (g_flag s) (victim s) (upd (thread s) id p).

(** Lines 14-38 for [num] rounds. *)
Definition FeedMyPet_step (num : Z) (id : nat) (s : state) : option state :=
  match thread s id with
  | SetFlag i n =>
      Some (if i <? num
            then mkState (upd (g_flag s) id true) (victim s) (upd (thread s) id (WaitFlag i n))
            else goto id (Returned n) s)
  | WaitFlag i n => Some (goto id (if g_flag s (1 - id) then WaitVictim i n else Critical i n) s)
  | WaitVictim i n => Some (goto id (if Nat.eqb (victim s) id then WaitFlag i n else Critical i n) s)
  | Critical i n => Some (goto id (Release i (s32 (n + 1))) s)
  | Release i n =>
      Some (mkState (upd (g_flag s) id false) (victim s) (upd (thread s) id (SetFlag (i + 1) n)))
  | Returned _ => None
  end.

Definition step (num : Z) (s s' : state) : Prop :=
  exists id, (id < 2)%nat /\ FeedMyPet_step num id s = Some s'.

Fixpoint run (num : Z) (ts : list nat) (s : state) : option state :=
  match ts with
  | [] => Some s
  | t :: ts' => if (t <? 2)%nat then s' ← FeedMyPet_step num t s; run num ts' s' else None
  end.

Lemma run_lab3_rtc num ts : forall s s', run num ts s = Some s' -> rtc (step num) s s'.
Proof.
  induction ts as [|t ts IH]; intros s s' H; simpl in H; [simplify_eq; constructor|].
  destruct (Nat.ltb_spec t 2); [|done]. apply bind_Some in H as (s1 & E & H).
  econstructor; [by exists t|by apply IH].
Qed.

Definition in_critical (p : pc) : bool := match p with Critical _ _ => true | _ => false end.

(** [Lock] does not give mutual exclusion: it never names itself the
    [victim], so the second thread enters whatever the first one does. *)
Theorem lab3_no_mutual_exclusion :
  exists s, rtc (step NUM_SNACK) InitLock s /\
    in_critical (thread s 0%nat) = true /\ in_critical (thread s 1%nat) = true.
Proof.
  destruct (run NUM_SNACK [0; 0; 1; 1; 1]%nat InitLock) as [s|] eqn:E; [|vm_compute in E; done].
  exists s. split; [by eapply run_lab3_rtc|]. simpl in E. by injection E as <-.
Qed.

(** The local counter follows the rounds; [victim] never changes. *)
Definition inv (num : Z) (s : state) : Prop :=
  victim s = 0%nat /\ forall id, match thread s id with
    | SetFlag i n => 0 <= i <= num /\ n = i
    | WaitFlag i n | WaitVictim i n | Critical i n => 0 <= i < num /\ n = i
    | Release i n => 0 <= i < num /\ n = i + 1
    | Returned n => n = num
    end.

Lemma lab3_inv_step num s s' : num <= INT_MAX -> inv num s -> step num s s' -> inv num s'.
Proof.
  intros Hn [Hv Hp] (id & _ & Hst). pose proof (Hp id) as Hid. unfold FeedMyPet_step in Hst.
  destruct (thread s id) as [i n|i n|i n|i n|i n|n] eqn:E; [..|done]; simplify_eq.
  1: destruct (Z.ltb_spec i num).
  all: split; [done|]; intros k; simpl; destruct (decide (id = k)) as [<-|Hne];
    rewrite ?upd_eq, ?upd_ne by done; try apply Hp; try lia.
  - by destruct (g_flag s (1 - id)).
  - by destruct (Nat.eqb (victim s) id).
  - rewrite s32_small; unfold INT_MAX in *; lia.
Qed.

Lemma lab3_reachable_inv num s :
  0 <= num <= INT_MAX -> rtc (step num) InitLock s -> inv num s.
Proof.
  intros Hn Hr. eapply rtc_invariant; [|intros a b ? ?; eapply lab3_inv_step; [lia|done..]|done].
  split; [done|]. intros id. simpl. lia.
Qed.

(** the size of a pet is a local variable: both threads print
    [NUM_SNACK], although their sections overlap. *)
Theorem lab3_pet_size num s id n :
  0 <= num <= INT_MAX -> rtc (step num) InitLock s -> thread s id = Returned n -> n = num.
Proof. intros Hn Hr E. destruct (lab3_reachable_inv num s Hn Hr) as [_ H]. specialize (H id). by rewrite E in H. Qed.

Lemma lab3_pet_size_witness : exists s n, rtc (step 1) InitLock s /\ thread s 1%nat = Returned n /\ n = 1.
Proof.
  destruct (run 1 [1; 1; 1; 1; 1]%nat InitLock) as [s|] eqn:E; [|vm_compute in E; discriminate E].
  pose proof (run_lab3_rtc _ _ _ _ E) as Hr. simpl in E. injection E as <-.
  eexists _, _. split; [exact Hr|]. split; [reflexivity|].
  eapply (lab3_pet_size 1 _ 1); [unfold INT_MAX; lia|exact Hr|reflexivity].
Defined.
End Lab3.
