(* ===== verification/Lab5.v ===== *)
(** * The timers of lab5 (lab5/timer_*.cpp)

    Handlers of asynchronous timers that count their calls, serialised by a
    strand (timer_fix_race.cpp), with one timer (timer_async_arg.cpp), and on
    two threads without a strand (timer_2thread.cpp).  The timer service
    itself is a library: of it the model uses that a pending wait calls its
    handler once. *)
From S2P Require Import Prelude.
Local Open Scope Z_scope.

Module Lab5.

(** The count and, per timer, whether a wait is pending; a pending wait calls
    its handler once. *)
Record state := mkState { count : Z; pending : nat -> bool }.

(** [Print1] and [Print2] of timer_fix_race.cpp (lines 23-43), and the
    [Print] of timer_async_arg.cpp, which differ in the limit: the handler of
    timer [k] runs as a whole, since the strand serialises the handlers. *)
Definition Print (limit : Z) (k : nat) (s : state) : state :=
  if count s <? limit then mkState (count s + 1) (pending s)
  else mkState (count s) (upd (pending s) k false).

Definition init : state := mkState 0 (fun _ => true).

Definition step (n : nat) (limit : Z) (s s' : state) : Prop :=
  exists k, (k < n)%nat /\ pending s k = true /\ s' = Print limit k s.

Definition work (n : nat) (limit : Z) (s : state) : Z :=
  (limit - count s) + tsum n (fun k => if pending s k then 1 else 0).

(** Every handler call uses up one unit of work. *)
Lemma work_step n limit s s' : step n limit s s' -> work n limit s' = work n limit s - 1.
Proof.
  intros (k & Hk & Hp & ->). unfold work, Print. destruct (count s <? limit); simpl; [lia|].
  rewrite (tsum_change n (fun j => if pending s j then 1 else 0) _ k Hk).
  - rewrite upd_eq, Hp. lia.
  - intros j Hj. by rewrite upd_ne.
Qed.

Definition inv (n : nat) (limit : Z) (s : state) : Prop :=
  0 <= count s <= limit /\ (count s < limit -> forall k, pending s k = true).

Lemma lab5_inv_step n limit s s' : inv n limit s -> step n limit s s' -> inv n limit s'.
Proof.
  intros [Hc Hp] (k & Hk & Hpk & ->). unfold Print. destruct (Z.ltb_spec (count s) limit).
  - split; simpl; [lia|]. intros _. by apply Hp.
  - split; simpl; [done|]. lia.
Qed.

(** with serialised handlers the program terminates after
    [limit + n] handler calls in every order of the timers, and prints
    [limit] as the final count. *)
Theorem timer_final_count n limit s m :
  0 <= limit -> (0 < n)%nat -> nsteps (step n limit) m init s ->
  Z.of_nat m <= limit + Z.of_nat n /\
  ((forall k, (k < n)%nat -> pending s k = false) -> count s = limit /\ Z.of_nat m = limit + Z.of_nat n).
Proof.
  intros Hl Hn Hr. assert (inv n limit s) as [Hc Hp].
  { eapply (rtc_invariant (step n limit)); [|intros ? ?; apply lab5_inv_step|by eapply rtc_nsteps_2].
    split; simpl; [lia|done]. }
  assert (work n limit s = limit + Z.of_nat n - Z.of_nat m) as Hw.
  { assert (work n limit init = limit + Z.of_nat n) as <-
      by (unfold work; simpl; rewrite (tsum_const n _ 1) by done; lia).
    clear Hc Hp. induction Hr as [|m a b c Hab Hbc IH]; [lia|]. apply work_step in Hab. lia. }
  assert (0 <= tsum n (fun k => if pending s k then 1 else 0)) as Hpos.
  { clear. induction n as [|n IH]; [done|]. rewrite tsum_S. destruct (pending s n); lia. }
  unfold work in Hw. split; [lia|]. intros Hend.
  assert (count s = limit) as Hlim.
  { destruct (Z.lt_decidable (count s) limit) as [Hlt|]; [|lia].
    specialize (Hp Hlt 0%nat). rewrite Hend in Hp by lia. done. }
  split; [done|]. rewrite (tsum_const n _ 0) in Hw; [lia|]. intros k Hk. by rewrite Hend.
Qed.

Lemma timer_final_count_witness :
  exists s, nsteps (step 2 1) 3 init s /\ (1 = 1 /\ 3 <= 1 + 2) /\ count s = 1.
Proof.
  assert (nsteps (step 2 1) 3 init (Print 1 1 (Print 1 0 (Print 1 0 init)))) as Hr.
  { econstructor; [exists 0%nat; split_and!; [lia|reflexivity..]|].
    econstructor; [exists 0%nat; split_and!; [lia|reflexivity..]|].
    econstructor; [exists 1%nat; split_and!; [lia|reflexivity..]|]. constructor. }
  eexists. split; [exact Hr|].
  destruct (timer_final_count 2 1 _ 3 ltac:(lia) ltac:(lia) Hr) as [Hle Hend].
  split; [split; [reflexivity|exact Hle]|]. apply Hend.
  intros k Hk. destruct k as [|[|k]]; [reflexivity..|lia].
Defined.

(** *** Two threads without a strand (timer_2thread.cpp)

    The handlers of both timers run at the same time on two threads; the
    test, the load and the store of [count] are separate accesses. *)
Inductive hpc := Idle | Tested | Loaded (reg : Z) | Disarmed.

Record race_state := mkRace { rcount : Z; handler : nat -> hpc }.

(** Lines 7-18. *)
Definition Print_race_step (k : nat) (s : race_state) : option race_state :=
  match handler s k with
  | Idle => Some (mkRace (rcount s) (upd (handler s) k (if rcount s <? 10 then Tested else Disarmed)))
  | Tested => Some (mkRace (rcount s) (upd (handler s) k (Loaded (rcount s))))
  | Loaded reg => Some (mkRace (reg + 1) (upd (handler s) k Idle))
  | Disarmed => None
  end.

Fixpoint race_run (ks : list nat) (s : race_state) : option race_state :=
  match ks with [] => Some s | k :: ks' => s' ← Print_race_step k s; race_run ks' s' end.

Definition disarmed (h : hpc) : bool := match h with Disarmed => true | _ => false end.

Definition overshoot : list nat :=
  (concat (replicate 9 [0; 0; 0]) ++ [0; 1; 0; 0; 1; 1; 0; 1])%nat.

(** without the strand the final count can exceed the limit: both
    handlers pass the test at 9, and the program prints 11. *)
Theorem timer_race_overshoots :
  Forall (fun k => (k < 2)%nat) overshoot /\
  exists s, race_run overshoot (mkRace 0 (fun _ => Idle)) = Some s /\
    disarmed (handler s 0%nat) = true /\ disarmed (handler s 1%nat) = true /\ rcount s = 11.
Proof.
  split; [compute_decide|].
  assert (H : (s ← race_run overshoot (mkRace 0 (fun _ => Idle));
    Some (disarmed (handler s 0%nat), disarmed (handler s 1%nat), rcount s)) = Some (true, true, 11))
    by (vm_compute; reflexivity).
  apply bind_Some in H as (s & E & H). injection H as H0 H1 H2. exists s.
  split; [exact E|]. split; [exact H0|]. split; [exact H1|exact H2].
Qed.
End Lab5.
