(* ===== verification/UtList.v ===== *)
(** * The two-way lists of XtraDB (include/ut0lst.h)

    The list template the storage engine uses everywhere, with the lock-free
    [ut_list_free_prepend] and [ut_list_free_append] that replace the original
    bodies of [ut_list_prepend] and [ut_list_append], here run by one thread.
    Nodes live in a store from addresses to link fields; [None] is a bad
    access or a failed [ut_a]. *)
From S2P Require Import Prelude.

Module UtList.

Notation addr := nat (only parsing).

(** [ut_list_node] and [ut_list_base]. *)
Record ut_list_node := mkNode { prev : option addr; next : option addr }.
Record ut_list_base := mkBase { count : Z; start : option addr; stop : option addr }.

Notation store := (gmap nat ut_list_node) (only parsing).
Record ut_list := mkList { nodes : store; base : ut_list_base }.

(** Assignments to a field of a node. *)
Definition set_prev (x : addr) (v : option addr) (m : store) : option store :=
  nd ← m !! x; Some (<[x := mkNode v (next nd)]> m).
Definition set_next (x : addr) (v : option addr) (m : store) : option store :=
  nd ← m !! x; Some (<[x := mkNode (prev nd) v]> m).

(** [if (p != 0) p->field = v] *)
Definition set_prev_of (p v : option addr) (m : store) : option store :=
  match p with None => Some m | Some x => set_prev x v m end.
Definition set_next_of (p v : option addr) (m : store) : option store :=
  match p with None => Some m | Some x => set_next x v m end.

(** [if (p == 0) p = v] *)
Definition if_null (p v : option addr) : option addr :=
  match p with None => v | Some _ => p end.

(** Lines 111-116. *)
Definition UT_LIST_INIT (m : store) : ut_list := mkList m (mkBase 0 None None).

(** Lines 156-179. *)
Definition ut_list_free_prepend (elem : addr) (l : ut_list) : option ut_list :=
  m1 ← set_prev elem None (nodes l);
  let prv := start (base l) in
  m2 ← set_next elem prv m1;
  m3 ← set_prev_of prv (Some elem) m2;
  Some (mkList m3 (mkBase (u64 (count (base l) + 1)) (Some elem)
                          (if_null (stop (base l)) (Some elem)))).

(** Lines 181-204. *)
Definition ut_list_free_append (elem : addr) (l : ut_list) : option ut_list :=
  m1 ← set_next elem None (nodes l);
  let nxt := stop (base l) in
  m2 ← set_prev elem nxt m1;
  m3 ← set_next_of nxt (Some elem) m2;
  Some (mkList m3 (mkBase (u64 (count (base l) + 1))
                          (if_null (start (base l)) (Some elem)) (Some elem))).

(** Lines 123-131 and 220-229: both return before their original bodies. *)
Definition ut_list_prepend := ut_list_free_prepend.
Definition ut_list_append := ut_list_free_append.

(** Lines 268-298. *)
Definition ut_list_insert (elem1 elem2 : addr) (l : ut_list) : option ut_list :=
  m1 ← set_prev elem2 (Some elem1) (nodes l);
  n1 ← m1 !! elem1;
  m2 ← set_next elem2 (next n1) m1;
  m3 ← set_prev_of (next n1) (Some elem2) m2;
  m4 ← set_next elem1 (Some elem2) m3;
  Some (mkList m4 (mkBase (u64 (count (base l) + 1)) (start (base l))
    (if decide (stop (base l) = Some elem1) then Some elem2 else stop (base l)))).

(** Lines 328-360. *)
Definition ut_list_remove (elem : addr) (l : ut_list) : option ut_list :=
  nd ← nodes l !! elem;
  if (0 <? count (base l))%Z then
    m1 ← set_prev_of (next nd) (prev nd) (nodes l);
    m2 ← set_next_of (prev nd) (next nd) m1;
    Some (mkList m2 (mkBase (u64 (count (base l) - 1))
      (match prev nd with None => next nd | Some _ => start (base l) end)
      (match next nd with None => prev nd | Some _ => stop (base l) end)))
  else None.

(** The loop of [ut_list_map], lines 425-430: the elements the functor is
    called with.  A list that closes on itself runs out of [fuel]. *)
Fixpoint map_loop (fuel : nat) (m : store) (elem : option addr) : option (list addr) :=
  match elem with
  | None => Some []
  | Some x =>
      match fuel with
      | 0 => None
      | S fuel' => nd ← m !! x; xs ← map_loop fuel' m (next nd); Some (x :: xs)
      end
  end.

Fixpoint map_back (fuel : nat) (m : store) (elem : option addr) : option (list addr) :=
  match elem with
  | None => Some []
  | Some x =>
      match fuel with
      | 0 => None
      | S fuel' => nd ← m !! x; xs ← map_back fuel' m (prev nd); Some (x :: xs)
      end
  end.

(** Lines 415-433, with [ut_a(count == list.count)]. *)
Definition ut_list_map (l : ut_list) : option (list addr) :=
  xs ← map_loop (size (nodes l)) (nodes l) (start (base l));
  if (u64 (Z.of_nat (length xs)) =? count (base l))%Z then Some xs else None.

(** Lines 440-460: the elements the functor sees forwards and backwards. *)
Definition ut_list_validate (l : ut_list) : option (list addr * list addr) :=
  xs ← ut_list_map l;
  ys ← map_back (size (nodes l)) (nodes l) (stop (base l));
  if (u64 (Z.of_nat (length ys)) =? count (base l))%Z then Some (xs, ys) else None.

(** ** The sequence a list represents *)

Definition first (n : option addr) (xs : list addr) : option addr :=
  match xs with [] => n | x :: _ => Some x end.
Definition final (p : option addr) (xs : list addr) : option addr :=
  match last xs with None => p | Some x => Some x end.

(** A segment whose first node points back to [p] and whose last node points
    on to [n]. *)
Fixpoint dseg (m : store) (p : option addr) (xs : list addr) (n : option addr) : Prop :=
  match xs with
  | [] => True
  | x :: xs' => m !! x = Some (mkNode p (first n xs')) /\ dseg m (Some x) xs' n
  end.

Record rep (l : ut_list) (xs : list addr) : Prop := Rep {
  rep_seg : dseg (nodes l) None xs None;
  rep_start : start (base l) = first None xs;
  rep_stop : stop (base l) = final None xs;
  rep_count : count (base l) = Z.of_nat (length xs);
  rep_nodup : NoDup xs;
  rep_size : (Z.of_nat (length xs) < 2 ^ 64)%Z
}.

Lemma final_app p xs ys : final p (xs ++ ys) = final (final p xs) ys.
Proof. unfold final. rewrite last_app. by destruct (last ys), (last xs). Qed.

Lemma final_cons p x xs : final p (x :: xs) = final (Some x) xs.
Proof. apply (final_app p [x] xs). Qed.

Lemma first_app n xs ys : first n (xs ++ ys) = first (first n ys) xs.
Proof. by destruct xs. Qed.

Lemma dseg_app m xs : forall p ys n,
  dseg m p (xs ++ ys) n <-> dseg m p xs (first n ys) /\ dseg m (final p xs) ys n.
Proof.
  induction xs as [|x xs IH]; intros p ys n; simpl; [tauto|].
  rewrite IH, first_app. unfold final. destruct xs as [|y xs]; simpl; [tauto|].
  destruct (last (y :: xs)) eqn:E; [tauto|]. by apply last_None in E.
Qed.

Lemma dseg_frame m m' xs : forall p n,
  (forall x, x ∈ xs -> m' !! x = m !! x) -> dseg m p xs n -> dseg m' p xs n.
Proof.
  induction xs as [|x xs IH]; intros p n Hf; simpl; [done|]. intros [Hx Hs]. split.
  - rewrite Hf; [done|by left].
  - apply IH; [|done]. intros y Hy. apply Hf. by right.
Qed.

Lemma dseg_insert m xs p n x nd : x ∉ xs -> dseg m p xs n -> dseg (<[x := nd]> m) p xs n.
Proof. intros Hx. apply dseg_frame. intros y Hy. rewrite lookup_insert_ne; [done|]. by intros ->. Qed.

Lemma dseg_lookup m xs : forall p n x, dseg m p xs n -> x ∈ xs -> is_Some (m !! x).
Proof.
  induction xs as [|y xs IH]; intros p n x; simpl; [by intros _ ?%elem_of_nil|].
  intros [Hy Hs] [->|Hx]%elem_of_cons; [by rewrite Hy|by eapply IH].
Qed.

(** Redirecting the link that leaves a segment at its end. *)
Lemma dseg_set_next m m' p xs n v :
  dseg m p xs n -> NoDup xs -> set_next_of (final None xs) v m = Some m' ->
  dseg m' p xs (if decide (xs = []) then n else v) /\
  forall x, final None xs <> Some x -> m' !! x = m !! x.
Proof.
  intros Hs Hnd H. destruct xs as [|z xs _] using rev_ind; simpl in *; [simplify_eq; done|].
  rewrite final_app in H. simpl in H. unfold final in H. simpl in H.
  apply dseg_app in Hs as [Hxs [Hz _]]. simpl in Hz.
  apply NoDup_app in Hnd as (Hnd & Hdis & _).
  unfold set_next in H. rewrite Hz in H. simpl in H. simplify_eq.
  rewrite decide_False by (by destruct xs). split.
  - apply dseg_app. split.
    + apply dseg_insert; [|done]. intros Hin. apply (Hdis z Hin). by left.
    + simpl. by rewrite lookup_insert_eq.
  - intros x Hx. rewrite final_app in Hx. unfold final in Hx. simpl in Hx.
    rewrite lookup_insert_ne; [done|congruence].
Qed.

(** Redirecting the link that leaves a segment at its front. *)
Lemma dseg_set_prev m m' p xs n v :
  dseg m p xs n -> NoDup xs -> set_prev_of (first None xs) v m = Some m' ->
  dseg m' (if decide (xs = []) then p else v) xs n /\
  forall x, first None xs <> Some x -> m' !! x = m !! x.
Proof.
  intros Hs Hnd H. destruct xs as [|z xs]; simpl in *; [simplify_eq; done|].
  destruct Hs as [Hz Hs]. unfold set_prev in H. rewrite Hz in H. simpl in H. simplify_eq.
  apply NoDup_cons in Hnd as [Hz' _]. split.
  - rewrite lookup_insert_eq. split; [done|]. by apply dseg_insert.
  - intros x Hx. rewrite lookup_insert_ne; [done|congruence].
Qed.

Lemma set_prev_of_total m p xs n v :
  dseg m p xs n -> exists m', set_prev_of (first None xs) v m = Some m'.
Proof.
  destruct xs as [|x xs]; simpl; [by exists m|]. intros [Hx _]. unfold set_prev. rewrite Hx.
  by eexists.
Qed.

Lemma set_next_of_total m p xs n v :
  dseg m p xs n -> exists m', set_next_of (final None xs) v m = Some m'.
Proof.
  intros Hs. unfold final. destruct (last xs) as [x|] eqn:E; simpl; [|by exists m].
  destruct (dseg_lookup _ _ _ _ x Hs) as [nd Hx]; [by apply last_Some_elem_of|].
  unfold set_next. rewrite Hx. by eexists.
Qed.
(** ** The operations on represented lists *)

(** Nodes outside the list keep their links. *)
Definition same_outside (xs : list addr) (l l' : ut_list) : Prop :=
  forall y, y ∉ xs -> nodes l' !! y = nodes l !! y.

(** So no node is lost. *)
Lemma rep_alloc l l' xs y :
  rep l' xs -> same_outside xs l l' -> is_Some (nodes l !! y) -> is_Some (nodes l' !! y).
Proof.
  intros Hr Hs Hy. destruct (decide (y ∈ xs)) as [Hin|Hno]; [|by rewrite Hs].
  eapply dseg_lookup; [apply (rep_seg _ _ Hr)|done].
Qed.

Lemma first_elem n xs x : first n xs = Some x -> n = Some x \/ x ∈ xs.
Proof. destruct xs; simpl; [by left|]. intros [= ->]. right. by left. Qed.

Lemma final_elem p xs x : final p xs = Some x -> p = Some x \/ x ∈ xs.
Proof.
  unfold final. destruct (last xs) eqn:E; [|by left]. intros [= ->]. right. by apply last_Some_elem_of.
Qed.

Lemma if_null_first (xs : list addr) x : if_null (first None xs) (Some x) = first None (xs ++ [x]).
Proof. by destruct xs. Qed.

Lemma if_null_final (xs : list addr) x : if_null (final None xs) (Some x) = final None (x :: xs).
Proof. unfold final. destruct xs as [|y xs]; [done|]. simpl. by destruct (last (y :: xs)) eqn:E; [|apply last_None in E]. Qed.

(** [ut_list_prepend] puts the element in front, whatever links it had. *)
Lemma ut_list_prepend_rep l xs elem :
  rep l xs -> elem ∉ xs -> is_Some (nodes l !! elem) -> (Z.of_nat (length xs) + 1 < 2 ^ 64)%Z ->
  exists l', ut_list_prepend elem l = Some l' /\ rep l' (elem :: xs) /\ same_outside (elem :: xs) l l'.
Proof.
  intros [Hs Hst Hsp Hc Hnd Hsz] Hno [nd Hnd0] Hlen. unfold ut_list_prepend, ut_list_free_prepend.
  unfold set_prev at 1. rewrite Hnd0. simpl. unfold set_next. rewrite lookup_insert_eq. simpl.
  rewrite insert_insert_eq, Hst.
  set (m2 := <[elem := mkNode None (first None xs)]> (nodes l)).
  assert (dseg m2 None xs None) as Hs2 by by apply dseg_insert.
  destruct (set_prev_of_total m2 None xs None (Some elem) Hs2) as [m3 E]. rewrite E. simpl.
  destruct (dseg_set_prev _ _ _ _ _ _ Hs2 Hnd E) as [Hs3 Hf].
  assert (forall x, x ∉ xs -> m3 !! x = m2 !! x) as Hfx.
  { intros x Hx. apply Hf. intros [|]%first_elem; done. }
  eexists. split; [reflexivity|]. split.
  - constructor; simpl; try lia.
    + split; [|destruct xs; [done|by rewrite decide_False in Hs3]].
      rewrite Hfx by done. by apply lookup_insert_eq.
    + done.
    + rewrite Hsp. apply if_null_final.
    + rewrite Hc, u64_small; lia.
    + by constructor.
  - intros y Hy. simpl. rewrite Hfx by set_solver. apply lookup_insert_ne. set_solver.
Qed.

(** [ut_list_append] puts the element at the end. *)
Lemma ut_list_append_rep l xs elem :
  rep l xs -> elem ∉ xs -> is_Some (nodes l !! elem) -> (Z.of_nat (length xs) + 1 < 2 ^ 64)%Z ->
  exists l', ut_list_append elem l = Some l' /\ rep l' (xs ++ [elem]) /\ same_outside (xs ++ [elem]) l l'.
Proof.
  intros [Hs Hst Hsp Hc Hnd Hsz] Hno [nd Hnd0] Hlen. unfold ut_list_append, ut_list_free_append.
  unfold set_next at 1. rewrite Hnd0. simpl. unfold set_prev. rewrite lookup_insert_eq. simpl.
  rewrite insert_insert_eq, Hsp.
  set (m2 := <[elem := mkNode (final None xs) None]> (nodes l)).
  assert (dseg m2 None xs None) as Hs2 by by apply dseg_insert.
  destruct (set_next_of_total m2 None xs None (Some elem) Hs2) as [m3 E]. rewrite E. simpl.
  destruct (dseg_set_next _ _ _ _ _ _ Hs2 Hnd E) as [Hs3 Hf].
  assert (forall x, x ∉ xs -> m3 !! x = m2 !! x) as Hfx.
  { intros x Hx. apply Hf. intros [|]%final_elem; done. }
  eexists. split; [reflexivity|]. split.
  - constructor; simpl.
    + apply dseg_app. simpl. split; [destruct xs; [done|by rewrite decide_False in Hs3]|].
      split; [|done]. rewrite Hfx by done. by apply lookup_insert_eq.
    + rewrite Hst. apply if_null_first.
    + by rewrite final_app.
    + rewrite Hc, length_app, u64_small; simpl; lia.
    + apply NoDup_app. split_and!; [done| |apply NoDup_singleton]. set_solver.
    + rewrite length_app. simpl. lia.
  - intros y Hy. simpl. rewrite Hfx by set_solver. apply lookup_insert_ne. set_solver.
Qed.

(** [ut_list_remove] unlinks a node from wherever it stands. *)
Lemma ut_list_remove_rep l xs elem ys :
  rep l (xs ++ elem :: ys) ->
  exists l', ut_list_remove elem l = Some l' /\ rep l' (xs ++ ys) /\ same_outside (xs ++ ys) l l'.
Proof.
  intros [Hs Hst Hsp Hc Hnd Hsz]. rewrite length_app in Hc, Hsz. simpl in Hc, Hsz.
  apply dseg_app in Hs as [Hx [He Hy]]. simpl in Hx.
  apply NoDup_app in Hnd as (Hndx & Hdis & Hndy). apply NoDup_cons in Hndy as [Hey Hndy].
  assert (elem ∉ xs) as Hex by (intros Hin; apply (Hdis elem Hin); by left).
  assert (forall z, z ∈ xs -> z ∉ ys) as Hxy by (intros z Hz Hz'; apply (Hdis z Hz); by right).
  unfold ut_list_remove. rewrite He. simpl. destruct (Z.ltb_spec 0 (count (base l))); [|lia].
  destruct (set_prev_of_total (nodes l) _ ys None (final None xs) Hy) as [m1 E1]. rewrite E1. simpl.
  destruct (dseg_set_prev _ _ _ _ _ _ Hy Hndy E1) as [Hy1 Hf1].
  assert (dseg m1 None xs (Some elem)) as Hx1.
  { eapply dseg_frame; [|exact Hx]. intros z Hz. apply Hf1. intros [|]%first_elem; [done|]. by apply (Hxy z). }
  destruct (set_next_of_total m1 None xs _ (first None ys) Hx1) as [m2 E2]. rewrite E2. simpl.
  destruct (dseg_set_next _ _ _ _ _ _ Hx1 Hndx E2) as [Hx2 Hf2].
  eexists. split; [reflexivity|]. split.
  - constructor; simpl.
    + apply dseg_app. split; [destruct xs; [done|by rewrite decide_False in Hx2]|].
      eapply dseg_frame; [|destruct ys; [done|rewrite decide_False in Hy1 by done; exact Hy1]].
      intros z Hz. apply Hf2. intros [|]%final_elem; [done|]. by apply (Hxy z).
    + rewrite Hst. destruct xs as [|z xs]; [done|].
      destruct (final None (z :: xs)) eqn:Ef; [done|]. unfold final in Ef.
      destruct (last (z :: xs)) eqn:El; [done|]. by apply last_None in El.
    + rewrite Hsp, !final_app. destruct ys as [|z ys]; simpl; [done|]. unfold final. simpl.
      by destruct ys.
    + rewrite Hc, length_app, u64_small; lia.
    + apply NoDup_app. done.
    + rewrite length_app. lia.
  - intros z Hz. simpl. rewrite Hf2, Hf1; [done|..]; intros [|]%first_elem || intros [|]%final_elem; set_solver.
Qed.
(** [ut_list_insert] puts the second element behind the first. *)
Lemma ut_list_insert_rep l xs elem1 ys elem2 :
  rep l (xs ++ elem1 :: ys) -> elem2 ∉ xs ++ elem1 :: ys -> is_Some (nodes l !! elem2) ->
  (Z.of_nat (length (xs ++ elem1 :: ys)) + 1 < 2 ^ 64)%Z ->
  exists l', ut_list_insert elem1 elem2 l = Some l' /\ rep l' (xs ++ elem1 :: elem2 :: ys) /\
    same_outside (xs ++ elem1 :: elem2 :: ys) l l'.
Proof.
  intros [Hs Hst Hsp Hc Hnd Hsz] Hno [nd Hnd0] Hlen. rewrite length_app in Hc, Hlen. simpl in Hc, Hlen.
  apply dseg_app in Hs as [Hx [He Hy]]. simpl in Hx.
  apply NoDup_app in Hnd as (Hndx & Hdis & Hndy). apply NoDup_cons in Hndy as [Hey Hndy].
  assert (elem1 ∉ xs /\ elem2 ∉ xs /\ elem2 ∉ ys /\ elem2 <> elem1 /\ forall z, z ∈ xs -> z ∉ ys)
    as (H1x & H2x & H2y & Hne & Hxy) by (split_and!; set_solver).
  unfold ut_list_insert. unfold set_prev at 1. rewrite Hnd0. simpl.
  rewrite lookup_insert_ne, He by done. simpl. unfold set_next. rewrite lookup_insert_eq. simpl.
  rewrite insert_insert_eq.
  set (m2 := <[elem2 := mkNode (Some elem1) (first None ys)]> (nodes l)).
  assert (dseg m2 (Some elem1) ys None) as Hy2 by by apply dseg_insert.
  destruct (set_prev_of_total m2 _ ys None (Some elem2) Hy2) as [m3 E3]. rewrite E3. simpl.
  destruct (dseg_set_prev _ _ _ _ _ _ Hy2 Hndy E3) as [Hy3 Hf3].
  assert (forall z, z ∉ ys -> m3 !! z = m2 !! z) as Hf3' by (intros z Hz; apply Hf3; by intros [|]%first_elem).
  assert (m3 !! elem1 = Some (mkNode (final None xs) (first None ys))) as He3.
  { rewrite Hf3' by done. unfold m2. by rewrite lookup_insert_ne. }
  rewrite He3. simpl. eexists. split; [reflexivity|]. split.
  - constructor; simpl.
    + apply dseg_app. split.
      * apply dseg_insert; [done|]. eapply dseg_frame; [|exact Hx]. intros z Hz.
        rewrite Hf3' by auto. unfold m2. rewrite lookup_insert_ne; [done|]. by intros ->.
      * simpl. rewrite lookup_insert_eq. split; [done|]. rewrite lookup_insert_ne by done.
        rewrite Hf3' by done. unfold m2. rewrite lookup_insert_eq. split; [done|].
        apply dseg_insert; [done|]. destruct ys; [done|by rewrite decide_False in Hy3].
    + rewrite Hst. by destruct xs.
    + rewrite Hsp, !final_app, !final_cons. destruct ys as [|z ys]; [by rewrite decide_True|].
      rewrite decide_False; [by rewrite !final_cons|]. rewrite final_cons.
      intros [|]%final_elem; [set_solver|]. set_solver.
    + rewrite Hc, length_app, u64_small; simpl; lia.
    + apply NoDup_app. split_and!; [done|set_solver|]. constructor; [set_solver|]. by constructor.
    + rewrite length_app. simpl. lia.
  - intros z Hz. simpl. rewrite lookup_insert_ne by set_solver. rewrite Hf3' by set_solver.
    unfold m2. rewrite lookup_insert_ne; [done|set_solver].
Qed.

(** ** Walking a list *)

Lemma rep_fits m p xs n : dseg m p xs n -> NoDup xs -> (length xs <= size m)%nat.
Proof.
  intros Hs Hnd. rewrite <- size_dom, <- (size_list_to_set (C := gset nat) xs Hnd).
  apply subseteq_size. intros x Hx%elem_of_list_to_set. apply elem_of_dom. by eapply dseg_lookup.
Qed.

Lemma map_loop_dseg m xs : forall p fuel,
  dseg m p xs None -> (length xs <= fuel)%nat -> map_loop fuel m (first None xs) = Some xs.
Proof.
  induction xs as [|x xs IH]; intros p fuel; simpl; [by destruct fuel|].
  intros [Hx Hs] Hf. destruct fuel as [|fuel]; [lia|]. simpl. rewrite Hx. simpl.
  by rewrite (IH (Some x)) by (done || lia).
Qed.

Lemma map_back_dseg m xs : forall fuel n,
  dseg m None xs n -> (length xs <= fuel)%nat -> map_back fuel m (final None xs) = Some (reverse xs).
Proof.
  induction xs as [|x xs IH] using rev_ind; intros fuel n Hs Hf; [by destruct fuel|].
  rewrite length_app in Hf. simpl in Hf. apply dseg_app in Hs as [Hs [Hx _]].
  rewrite final_app, reverse_snoc. unfold final at 1. simpl. destruct fuel as [|fuel]; [lia|]. simpl.
  rewrite Hx. simpl. by rewrite (IH fuel (Some x)) by (done || lia).
Qed.

Lemma ut_list_map_rep l xs : rep l xs -> ut_list_map l = Some xs.
Proof.
  intros [Hs Hst Hsp Hc Hnd Hsz]. unfold ut_list_map. rewrite Hst.
  rewrite (map_loop_dseg _ xs None) by (done || by eapply rep_fits). simpl.
  by rewrite Hc, u64_small, Z.eqb_refl by lia.
Qed.

(** a list that is well linked passes [ut_list_validate], which visits its
    elements in order and then in reverse order. *)
Theorem ut_list_validate_rep l xs : rep l xs -> ut_list_validate l = Some (xs, reverse xs).
Proof.
  intros Hr. unfold ut_list_validate. rewrite (ut_list_map_rep l xs Hr). simpl.
  destruct Hr as [Hs Hst Hsp Hc Hnd Hsz]. rewrite Hsp.
  rewrite (map_back_dseg _ xs _ None) by (done || by eapply rep_fits). simpl.
  by rewrite length_reverse, Hc, u64_small, Z.eqb_refl by lia.
Qed.

Lemma ut_list_init_rep m : rep (UT_LIST_INIT m) [].
Proof. constructor; simpl; try done. constructor. Qed.

(** The operations as one interface: what the users of a list rely on. *)
Inductive list_op :=
| Prepend (elem : addr) | Append (elem : addr) | Insert (elem1 elem2 : addr) | Remove (elem : addr).

Definition ut_list_exec (op : list_op) (l : ut_list) : option ut_list :=
  match op with
  | Prepend e => ut_list_prepend e l
  | Append e => ut_list_append e l
  | Insert e1 e2 => ut_list_insert e1 e2 l
  | Remove e => ut_list_remove e l
  end.

Definition insert_after (e1 e2 : addr) : list addr -> list addr :=
  fix go xs := match xs with
    | [] => []
    | x :: xs' => if Nat.eqb x e1 then x :: e2 :: xs' else x :: go xs'
    end.

(** The same operations on sequences. *)
Definition seq_exec (op : list_op) (xs : list addr) : list addr :=
  match op with
  | Prepend e => e :: xs
  | Append e => xs ++ [e]
  | Insert e1 e2 => insert_after e1 e2 xs
  | Remove e => remove_first (Nat.eqb e) xs
  end.

(** An operation is used correctly: what it adds is a node outside the list,
    what it refers to is in it. *)
Definition op_ok (op : list_op) (l : ut_list) (xs : list addr) : Prop :=
  (Z.of_nat (length xs) + 1 < 2 ^ 64)%Z /\
  match op with
  | Prepend e | Append e => e ∉ xs /\ is_Some (nodes l !! e)
  | Insert e1 e2 => e1 ∈ xs /\ e2 ∉ xs /\ is_Some (nodes l !! e2)
  | Remove e => e ∈ xs
  end.

Lemma insert_after_split e1 e2 xs ys :
  e1 ∉ xs -> insert_after e1 e2 (xs ++ e1 :: ys) = xs ++ e1 :: e2 :: ys.
Proof.
  induction xs as [|x xs IH]; intros Hno; simpl; [by rewrite Nat.eqb_refl|].
  rewrite IH by set_solver. destruct (Nat.eqb_spec x e1); [set_solver|done].
Qed.

Lemma remove_first_split e xs ys : e ∉ xs -> remove_first (Nat.eqb e) (xs ++ e :: ys) = xs ++ ys.
Proof.
  induction xs as [|x xs IH]; intros Hno; simpl; [by rewrite Nat.eqb_refl|].
  rewrite IH by set_solver. destruct (Nat.eqb_spec e x); [set_solver|done].
Qed.

(** C9: on a well linked list every operation succeeds, implements the
    operation on sequences, and leaves all nodes outside the list alone. *)
Theorem ut_list_refines l xs op :
  rep l xs -> op_ok op l xs ->
  exists l', ut_list_exec op l = Some l' /\ rep l' (seq_exec op xs) /\
    same_outside (xs ++ seq_exec op xs) l l'.
Proof.
  intros Hr [Hlen Hop]. destruct op as [e|e|e1 e2|e]; simpl.
  - destruct Hop. destruct (ut_list_prepend_rep l xs e) as (l' & ? & ? & Ho); try done.
    exists l'. split_and!; try done. intros y Hy. apply Ho. set_solver.
  - destruct Hop. destruct (ut_list_append_rep l xs e) as (l' & ? & ? & Ho); try done.
    exists l'. split_and!; try done. intros y Hy. apply Ho. set_solver.
  - destruct Hop as (Hin & Hno & Hnd). apply list_elem_of_split in Hin as (a & b & ->).
    assert (e1 ∉ a) as Ha.
    { intros Ha. apply (proj1 (NoDup_app _ _) (rep_nodup _ _ Hr)) in Ha as Hx. apply Hx. by left. }
    rewrite (insert_after_split _ _ _ _ Ha).
    destruct (ut_list_insert_rep l a e1 b e2) as (l' & ? & ? & Ho); try done.
    exists l'. split_and!; try done. intros y Hy. apply Ho. set_solver.
  - apply list_elem_of_split in Hop as (a & b & ->).
    assert (e ∉ a) as Ha.
    { intros Ha. apply (proj1 (NoDup_app _ _) (rep_nodup _ _ Hr)) in Ha as Hx. apply Hx. by left. }
    rewrite (remove_first_split _ _ _ Ha).
    destruct (ut_list_remove_rep l a e b) as (l' & ? & ? & Ho); try done.
    exists l'. split_and!; try done. intros y Hy. apply Ho. set_solver.
Qed.

(** Three nodes with stale links, and a list of one of them. *)
Definition stale : store :=
  {[ 1%nat := mkNode (Some 9%nat) None; 2%nat := mkNode None (Some 7%nat); 3%nat := mkNode None None ]}.

Definition single : ut_list := mkList (<[1%nat := mkNode None None]> stale) (mkBase 1 (Some 1%nat) (Some 1%nat)).

Lemma single_rep : rep single [1%nat].
Proof. constructor; simpl; try done. - apply NoDup_singleton. Qed.

Lemma ut_list_refines_witness :
  exists l', ut_list_exec (Insert 1 2) single = Some l' /\ rep l' [1; 2]%nat /\
    same_outside [1; 1; 2]%nat single l'.
Proof.
  apply (ut_list_refines single [1%nat] (Insert 1 2) single_rep).
  split; [simpl; lia|]. split; [by left|]. split; [set_solver|]. by eexists.
Defined.

Lemma ut_list_validate_rep_witness : ut_list_validate single = Some ([1%nat], [1%nat]).
Proof. apply (ut_list_validate_rep single [1%nat]). exact single_rep. Defined.
End UtList.
