(* ===== verification/UtListConc.v ===== *)
(** * Concurrent insertion into a two-way list

    [ut_list_free_prepend] (include/ut0lst.h, lines 156-179) run by several
    threads at once, each with an element of its own: one transition per
    access of the list base or of another thread's node.  [mutex_create_func]
    and the parallel start-up of the buffer pool insert this way without a
    lock. *)
From S2P Require Import Prelude UtList.

Module UtListConc.
Import UtList.

Inductive pc :=
| A0                        (* line 165: elem_node.prev = 0 *)
| A1                        (* line 166: exchange of list.start *)
| A2 (prv : option nat)     (* line 167: elem_node.next = prev *)
| A3 (prv : option nat)     (* lines 168-171: prev_node.prev = &elem *)
| A4                        (* line 173: test of list.end *)
| A5                        (* line 174: list.end = &elem *)
| A6                        (* line 177: fetch and add of list.count *)
| ADone.

Record state := mkState { shared : ut_list; thread : nat -> pc }.

Definition at_pc (t : nat) (p : pc) (l : ut_list) (s : state) : state :=
  mkState l (upd (thread s) t p).

(** Thread [t] inserts [elem]. *)
Definition free_prepend_step (elem t : nat) (s : state) : option state :=
  let l := shared s in
  match thread s t with
  | A0 => m ← set_prev elem None (nodes l); Some (at_pc t A1 (mkList m (base l)) s)
  | A1 => Some (at_pc t (A2 (start (base l)))
            (mkList (nodes l) (mkBase (count (base l)) (Some elem) (stop (base l)))) s)
  | A2 prv => m ← set_next elem prv (nodes l); Some (at_pc t (A3 prv) (mkList m (base l)) s)
  | A3 prv => m ← set_prev_of prv (Some elem) (nodes l); Some (at_pc t A4 (mkList m (base l)) s)
  | A4 => Some (at_pc t (match stop (base l) with None => A5 | Some _ => A6 end) l s)
  | A5 => Some (at_pc t A6
            (mkList (nodes l) (mkBase (count (base l)) (start (base l)) (Some elem))) s)
  | A6 => Some (at_pc t ADone
            (mkList (nodes l) (mkBase (u64 (count (base l) + 1)) (start (base l)) (stop (base l)))) s)
  | ADone => None
  end.

(** ** A list under construction *)

(** Node [x] has its own [next] when [ns x], and its successor points back to
    it when [lk x]. *)
Fixpoint cseg (m : store) (lk ns : nat -> bool) (p : option nat) (xs : list nat) : Prop :=
  match xs with
  | [] => True
  | x :: xs' => (exists nd, m !! x = Some nd /\ prev nd = p /\ (ns x = true -> next nd = first None xs')) /\
      cseg m lk ns (if lk x then Some x else None) xs'
  end.

Lemma cseg_ext m m' lk lk' ns ns' xs : forall p,
  (forall x, x ∈ xs -> m' !! x = m !! x /\ lk' x = lk x /\ ns' x = ns x) ->
  cseg m lk ns p xs -> cseg m' lk' ns' p xs.
Proof.
  induction xs as [|x xs IH]; intros p H; [done|]. intros [(nd & Hx & Hp & Hn) Hs].
  destruct (H x) as (E1 & E2 & E3); [by left|]. simpl. rewrite E1, E2, E3. split; [by exists nd|].
  apply IH; [|done]. intros y Hy. apply H. by right.
Qed.

Lemma insert_alloc (m : store) x nd y : is_Some (m !! y) -> is_Some (<[x := nd]> m !! y).
Proof. intros H. apply lookup_insert_is_Some'. by right. Qed.

Lemma cseg_lookup m lk ns xs : forall p x, cseg m lk ns p xs -> x ∈ xs -> is_Some (m !! x).
Proof.
  induction xs as [|y xs IH]; intros p x; simpl; [by intros _ ?%elem_of_nil|].
  intros [(nd & Hy & _) Hs] [->|Hx]%elem_of_cons; [by rewrite Hy|by eapply IH].
Qed.

(** Line 167: the node gets its own [next]. *)
Lemma cseg_set_next m m' lk ns x l2 l1 : forall p,
  NoDup (l1 ++ x :: l2) -> cseg m lk ns p (l1 ++ x :: l2) -> set_next x (first None l2) m = Some m' ->
  cseg m' lk (upd ns x true) p (l1 ++ x :: l2).
Proof.
  intros p Hnd Hs H. unfold set_next in H. apply bind_Some in H as (nd0 & Hx & [= <-]).
  revert p Hs. induction l1 as [|y l1 IH]; intros p; simpl.
  - intros [(nd & Hx' & Hp & Hn) Hs]. simplify_eq. rewrite lookup_insert_eq. split.
    + eexists. split; [reflexivity|]. done.
    + apply NoDup_cons in Hnd as [Hno _]. eapply cseg_ext; [|exact Hs]. intros z Hz.
      assert (x <> z) by (by intros ->). by rewrite lookup_insert_ne, upd_ne by done.
  - apply NoDup_cons in Hnd as [Hno Hnd]. intros [(nd & Hy & Hp & Hn) Hs]. split; [|by apply IH].
    assert (x <> y) by (intros ->; apply Hno, elem_of_app; right; by left).
    rewrite lookup_insert_ne, upd_ne by done. by exists nd.
Qed.

(** Lines 168-171: the successor points back. *)
Lemma cseg_set_prev m m' lk ns x l2 l1 : forall p,
  NoDup (l1 ++ x :: l2) -> cseg m lk ns p (l1 ++ x :: l2) ->
  set_prev_of (first None l2) (Some x) m = Some m' ->
  cseg m' (upd lk x true) ns p (l1 ++ x :: l2).
Proof.
  intros p Hnd Hs H. revert p Hs. induction l1 as [|y l1 IH]; intros p; simpl.
  - apply NoDup_cons in Hnd as [Hno Hnd]. rewrite upd_eq. intros [(nd & Hx & Hp & Hn) Hs].
    destruct l2 as [|z l2]; simpl in *.
    { simplify_eq. split; [by exists nd|done]. }
    unfold set_prev in H. apply bind_Some in H as (nd0 & Hz & [= <-]).
    assert (z <> x) by (intros ->; apply Hno; by left).
    rewrite (lookup_insert_ne _ _ x), lookup_insert_eq, upd_ne by done.
    split; [by exists nd|]. destruct Hs as [(nz & Hz' & Hpz & Hnz) Hs]. simplify_eq. split.
    + eexists. split; [reflexivity|]. done.
    + apply NoDup_cons in Hnd as [Hnoz _]. eapply cseg_ext; [|exact Hs]. intros w Hw.
      assert (z <> w) by (by intros ->). assert (x <> w) by (intros ->; apply Hno; by right).
      by rewrite lookup_insert_ne, upd_ne by done.
  - apply NoDup_cons in Hnd as [Hno Hnd]. intros [(nd & Hy & Hp & Hn) Hs].
    assert (x <> y) by (intros ->; apply Hno, elem_of_app; right; by left).
    rewrite (upd_ne lk) by done. split; [|by apply IH]. exists nd. split; [|done].
    destruct l2 as [|z l2]; simpl in H; [by simplify_eq|].
    unfold set_prev in H. apply bind_Some in H as (nd0 & Hz & [= <-]).
    rewrite lookup_insert_ne; [done|]. intros ->. apply Hno, elem_of_app. right. right. by left.
Qed.

Lemma cseg_dseg m lk ns xs : forall p,
  (forall x, x ∈ xs -> lk x = true /\ ns x = true) -> cseg m lk ns p xs -> dseg m p xs None.
Proof.
  induction xs as [|x xs IH]; intros p H; simpl; [done|].
  intros [([pv nx] & Hx & Hp & Hn) Hs]. destruct (H x) as [El En]; [by left|].
  rewrite El in Hs. specialize (Hn En). simpl in *. subst. split; [done|].
  apply IH; [|done]. intros y Hy. apply H. by right.
Qed.

Lemma dseg_cseg m xs : forall p, dseg m p xs None -> cseg m (fun _ => true) (fun _ => true) p xs.
Proof.
  induction xs as [|x xs IH]; intros p; simpl; [done|]. intros [Hx Hs].
  split; [by eexists|by apply IH].
Qed.
(** ** All threads *)
Section prepends.
Context (T : nat) (elem : nat -> nat) (l0 : ut_list) (xs0 : list nat).

Definition init : state := mkState l0 (fun _ => A0).

Definition step (s s' : state) : Prop :=
  exists t, (t < T)%nat /\ free_prepend_step (elem t) t s = Some s'.

Definition is_done (p : pc) : bool := match p with ADone => true | _ => false end.
Definition published (p : pc) : bool := match p with A0 | A1 => false | _ => true end.

(** What thread [t] has done to its element. *)
Definition thread_ok (zs : list nat) (lk ns : nat -> bool) (m : store) (e : nat) (p : pc) : Prop :=
  match p with
  | A0 => True
  | A1 => exists nd, m !! e = Some nd /\ prev nd = None
  | A2 prv => exists l1 l2, zs = l1 ++ e :: l2 /\ prv = first None l2
  | A3 prv => ns e = true /\ exists l1 l2, zs = l1 ++ e :: l2 /\ prv = first None l2
  | _ => lk e = true /\ ns e = true
  end.

Definition stop_ok (s : state) : Prop :=
  xs0 <> [] -> stop (base (shared s)) = final None xs0 /\ forall t, thread s t <> A5.

Record inv (s : state) (ys : list nat) (lk ns : nat -> bool) : Prop := Inv {
  inv_seg : cseg (nodes (shared s)) lk ns None (ys ++ xs0);
  inv_start : start (base (shared s)) = first None (ys ++ xs0);
  inv_nodup : NoDup (ys ++ xs0);
  inv_old : forall x, x ∈ xs0 -> lk x = true /\ ns x = true;
  inv_own : forall x, x ∈ ys -> exists t, (t < T)%nat /\ x = elem t;
  inv_pub : forall t, (t < T)%nat -> elem t ∈ ys <-> published (thread s t) = true;
  inv_thread : forall t, (t < T)%nat ->
    thread_ok (ys ++ xs0) lk ns (nodes (shared s)) (elem t) (thread s t);
  inv_alloc : forall t, (t < T)%nat -> is_Some (nodes (shared s) !! elem t);
  inv_count : count (base (shared s)) =
    (Z.of_nat (length xs0) + tsum T (fun t => if is_done (thread s t) then 1 else 0))%Z;
  inv_stop : stop_ok s
}.

Context (Hrep : rep l0 xs0).
Local Set Default Proof Using "All".
Context (Hinj : forall t u, (t < T)%nat -> (u < T)%nat -> elem t = elem u -> t = u).
Context (Hfresh : forall t, (t < T)%nat -> elem t ∉ xs0 /\ is_Some (nodes l0 !! elem t)).
Context (Hsize : (Z.of_nat (length xs0 + T) < 2 ^ 64)%Z).

Lemma conc_init_inv : inv init [] (fun _ => true) (fun _ => true).
Proof.
  destruct Hrep as [Hs Hst Hsp Hc Hnd _]. constructor; simpl; try done.
  - by apply dseg_cseg.
  - by intros x ?%elem_of_nil.
  - intros t Ht. split; [by intros ?%elem_of_nil|done].
  - intros t Ht. by apply Hfresh.
  - rewrite (tsum_const T _ 0%Z) by done. lia.
Qed.

(** A step of [t] that keeps the published list: the invariant of the other
    threads does not see it. *)
Lemma thread_ok_other zs lk lk' ns ns' m m' t u p :
  (t < T)%nat -> (u < T)%nat -> t <> u -> (forall x, x <> elem t -> lk' x = lk x /\ ns' x = ns x) ->
  (p = A1 -> m' !! elem u = m !! elem u) ->
  thread_ok zs lk ns m (elem u) p -> thread_ok zs lk' ns' m' (elem u) p.
Proof.
  intros Ht Hu Hne Hx Hm. destruct (Hx (elem u)) as [E1 E2].
  { intros E. apply Hne, Hinj; done. }
  destruct p; simpl; rewrite ?E1, ?E2; try done. by rewrite Hm.
Qed.

(** A transition of [t] that does not publish: only its own flags, its own
    node and the back link of its successor may change. *)
Lemma conc_local s t p m b lk' ns' ys lk ns :
  inv s ys lk ns -> (t < T)%nat -> published (thread s t) = published p ->
  is_done (thread s t) = false -> (p = A5 -> xs0 = []) ->
  start b = start (base (shared s)) -> (xs0 <> [] -> stop b = stop (base (shared s))) ->
  count b = (count (base (shared s)) + if is_done p then 1 else 0)%Z ->
  (forall x, x <> elem t -> lk' x = lk x /\ ns' x = ns x) ->
  cseg m lk' ns' None (ys ++ xs0) ->
  thread_ok (ys ++ xs0) lk' ns' m (elem t) p ->
  (forall x, x ∉ ys ++ xs0 -> x <> elem t -> m !! x = nodes (shared s) !! x) ->
  (forall x, is_Some (nodes (shared s) !! x) -> is_Some (m !! x)) ->
  inv (at_pc t p (mkList m b) s) ys lk' ns'.
Proof.
  intros [I1 I2 I3 I4 I5 I6 I7 I8 I9 I10] Ht Hpub Hd H5 Hst Hsp Hct Hfl Hseg Hok Hm Hal.
  constructor; simpl; try done.
  - by rewrite Hst.
  - intros x Hx. destruct (Hfl x) as [-> ->]; [|by apply I4]. intros ->. by apply Hfresh in Ht as [? _].
  - intros u Hu. rewrite I6 by done. unfold upd. by destruct (decide (t = u)) as [<-|]; [rewrite Hpub|].
  - intros u Hu. destruct (decide (t = u)) as [<-|Hne]; [by rewrite upd_eq|]. rewrite upd_ne by done.
    eapply (thread_ok_other _ lk _ ns _ (nodes (shared s)) _ t u); [done..| |by apply I7].
    intros E. apply Hm; [|intros Eq; apply Hne, Hinj; done].
    rewrite elem_of_app, I6, E by done. intros [|Hx]; [done|]. by apply Hfresh in Hu as [? _].
  - intros u Hu. by apply Hal, I8.
  - rewrite Hct, I9, (tsum_change T (fun u => if is_done (thread s u) then 1 else 0)%Z
      (fun u => if is_done (upd (thread s) t p u) then 1 else 0)%Z t Ht).
    + rewrite upd_eq, Hd. lia.
    + intros k Hk. by rewrite upd_ne.
  - intros Hx. destruct (I10 Hx) as [E Hno]. split; [simpl; by rewrite (Hsp Hx)|].
    intros u. simpl. upd_cases; [|done]. intros ->. auto.
Qed.

(** Line 166: the exchange puts the element in front of the list. *)
Lemma inv_publish s t ys lk ns :
  inv s ys lk ns -> (t < T)%nat -> thread s t = A1 ->
  inv (at_pc t (A2 (start (base (shared s))))
         (mkList (nodes (shared s)) (mkBase (count (base (shared s))) (Some (elem t))
            (stop (base (shared s))))) s)
      (elem t :: ys) (upd lk (elem t) false) (upd ns (elem t) false).
Proof.
  intros [I1 I2 I3 I4 I5 I6 I7 I8 I9 I10] Ht E. pose proof (I7 t Ht) as Hok. rewrite E in Hok.
  destruct Hok as (nd & Hnd & Hp). destruct (Hfresh t Ht) as [Hno _].
  assert (elem t ∉ ys ++ xs0) as Hnew.
  { rewrite elem_of_app, I6, E by done. intros [|]; done. }
  assert (forall x, x ∈ ys ++ xs0 -> upd lk (elem t) false x = lk x /\ upd ns (elem t) false x = ns x) as Hfl.
  { intros x Hx. by rewrite !upd_ne by (intros <-; done). }
  constructor; simpl.
  - rewrite !upd_eq. split; [by exists nd|]. eapply cseg_ext; [|exact I1]. intros x Hx. split; [done|auto].
  - done.
  - by constructor.
  - intros x Hx. destruct (Hfl x) as [-> ->]; [apply elem_of_app; by right|by apply I4].
  - intros x [->|Hx]%elem_of_cons; [by exists t|by apply I5].
  - intros u Hu. rewrite elem_of_cons, I6 by done. destruct (decide (t = u)) as [<-|Hne].
    + rewrite upd_eq, E. simpl. naive_solver.
    + rewrite upd_ne by done. split; [|by right]. intros [Eq|]; [|done]. by destruct Hne; apply Hinj.
  - intros u Hu. destruct (decide (t = u)) as [<-|Hne].
    { rewrite upd_eq. exists [], (ys ++ xs0). by rewrite I2. }
    rewrite upd_ne by done. specialize (I7 u Hu).
    assert (elem u <> elem t) by (intros Eq; apply Hne; symmetry; by apply Hinj).
    destruct (thread s u) as [| |prv|prv| | | |]; simpl in *; rewrite ?upd_ne by done; try done.
    + destruct I7 as (l1 & l2 & -> & ->). by exists (elem t :: l1), l2.
    + destruct I7 as (? & l1 & l2 & -> & ->). split; [done|]. by exists (elem t :: l1), l2.
  - done.
  - rewrite I9. f_equal. apply tsum_ext. intros u Hu. unfold upd.
    destruct (decide (t = u)) as [<-|]; [by rewrite E|done].
  - intros Hx. destruct (I10 Hx) as [Es H5]. split; [done|]. intros u. simpl. by upd_cases.
Qed.

Lemma done_count s : (0 <= tsum T (fun t => if is_done (thread s t) then 1 else 0) <= Z.of_nat T)%Z.
Proof.
  clear. induction T as [|n IH]; [done|]. rewrite tsum_S. destruct (is_done (thread s n)); lia.
Qed.

Lemma not_done_count s t :
  (t < T)%nat -> is_done (thread s t) = false ->
  (0 <= tsum T (fun t => if is_done (thread s t) then 1 else 0) < Z.of_nat T)%Z.
Proof.
  intros Ht Hd. pose proof (done_count s) as H1.
  pose proof (done_count (mkState (shared s) (upd (thread s) t ADone))) as H2. simpl in H2.
  rewrite (tsum_change T (fun u => if is_done (thread s u) then 1 else 0)%Z
      (fun u => if is_done (upd (thread s) t ADone u) then 1 else 0)%Z t Ht) in H2.
  - rewrite upd_eq, Hd in H2. simpl in H2. lia.
  - intros k Hk. by rewrite upd_ne.
Qed.

Lemma conc_step_inv s s' ys lk ns :
  inv s ys lk ns -> step s s' -> exists ys' lk' ns', inv s' ys' lk' ns'.
Proof.
  intros I (t & Ht & Hst). unfold free_prepend_step in Hst.
  pose proof (inv_thread _ _ _ _ I t Ht) as Hok. pose proof (inv_pub _ _ _ _ I t Ht) as Hpub.
  pose proof (inv_seg _ _ _ _ I) as Hseg. pose proof (inv_nodup _ _ _ _ I) as Hnd.
  destruct (Hfresh t Ht) as [Hno0 _].
  destruct (thread s t) as [| |prv|prv| | | |] eqn:E; simpl in Hok; [..|done].
  - apply bind_Some in Hst as (m & Hm & [= <-]). unfold set_prev in Hm.
    apply bind_Some in Hm as (nd & Hx & [= <-]). exists ys, lk, ns.
    assert (elem t ∉ ys ++ xs0) as Hnew.
    { rewrite elem_of_app, Hpub. intros [|]; done. }
    apply conc_local with (lk := lk) (ns := ns); rewrite ?E; try done; simpl; try lia.
    + eapply cseg_ext; [|exact Hseg]. intros y Hy. rewrite lookup_insert_ne; [done|]. by intros <-.
    + eexists. by rewrite lookup_insert_eq.
    + intros y Hy Hne. by rewrite lookup_insert_ne.
    + intros y. apply insert_alloc.
  - simplify_eq. eexists _, _, _. by apply inv_publish.
  - apply bind_Some in Hst as (m & Hm & [= <-]). destruct Hok as (l1 & l2 & Ezs & ->).
    exists ys, lk, (upd ns (elem t) true).
    apply conc_local with (lk := lk) (ns := ns); rewrite ?E; try done; simpl; try lia.
    + intros x Hx. by rewrite upd_ne.
    + rewrite Ezs in *. by eapply cseg_set_next.
    + rewrite upd_eq. split; [done|]. by exists l1, l2.
    + intros y Hy Hne. unfold set_next in Hm. apply bind_Some in Hm as (nd & Hx & [= <-]).
      by rewrite lookup_insert_ne.
    + unfold set_next in Hm. apply bind_Some in Hm as (nd & Hx & [= <-]).
      intros y. apply insert_alloc.
  - apply bind_Some in Hst as (m & Hm & [= <-]). destruct Hok as (Hns & l1 & l2 & Ezs & ->).
    exists ys, (upd lk (elem t) true), ns.
    apply conc_local with (lk := lk) (ns := ns); rewrite ?E; try done; simpl; try lia.
    + intros x Hx. by rewrite upd_ne.
    + rewrite Ezs in *. by eapply cseg_set_prev.
    + by rewrite upd_eq.
    + intros y Hy Hne. destruct l2 as [|z l2]; simpl in Hm; [by simplify_eq|].
      unfold set_prev in Hm. apply bind_Some in Hm as (nd & Hx & [= <-]).
      rewrite lookup_insert_ne; [done|]. intros ->. apply Hy. rewrite Ezs, elem_of_app, !elem_of_cons. auto.
    + destruct l2 as [|z l2]; simpl in Hm; [by simplify_eq|].
      unfold set_prev in Hm. apply bind_Some in Hm as (nd & Hx & [= <-]).
      intros y. apply insert_alloc.
  - simplify_eq. exists ys, lk, ns. destruct (shared s) as [m b] eqn:El.
    apply conc_local with (lk := lk) (ns := ns); rewrite ?E, ?El; try done; simpl; try by destruct (stop b).
    + destruct (stop b) eqn:Eb; [done|]. intros _. destruct (decide (xs0 = [])) as [|Hne]; [done|].
      exfalso. destruct (inv_stop _ _ _ _ I Hne) as [Hs _]. rewrite El in Hs. simpl in Hs.
      rewrite Eb in Hs. unfold final in Hs. destruct (last xs0) eqn:Ew; [done|]. by apply last_None in Ew.
    + destruct (stop b); simpl; lia.
  - simplify_eq. exists ys, lk, ns.
    assert (xs0 = []) as H0.
    { destruct (decide (xs0 = [])) as [|Hne]; [done|]. by destruct (proj2 (inv_stop _ _ _ _ I Hne) t). }
    apply conc_local with (lk := lk) (ns := ns); rewrite ?E; try done; simpl; lia.
  - simplify_eq. exists ys, lk, ns.
    apply conc_local with (lk := lk) (ns := ns); rewrite ?E; try done. simpl.
    pose proof (not_done_count s t Ht ltac:(by rewrite E)). rewrite (inv_count _ _ _ _ I), u64_small; lia.
Qed.
Lemma conc_reachable_inv s : rtc step init s -> exists ys lk ns, inv s ys lk ns.
Proof.
  apply (rtc_invariant step (fun s => exists ys lk ns, inv s ys lk ns)).
  - eexists _, _, _. apply conc_init_inv.
  - intros a b (ys & lk & ns & I) Hab. by eapply conc_step_inv.
Qed.

(** C10: concurrent insertions: when all threads are done, the list holds the
    new elements in the order of their exchanges in front of the old ones,
    linked in both directions and counted; if the list was not empty it is
    well formed as a whole. *)
Theorem concurrent_prepend s :
  rtc step init s -> (forall t, (t < T)%nat -> thread s t = ADone) ->
  exists ys, Permutation ys (map elem (seq 0 T)) /\
    dseg (nodes (shared s)) None (ys ++ xs0) None /\
    start (base (shared s)) = first None (ys ++ xs0) /\
    count (base (shared s)) = Z.of_nat (length (ys ++ xs0)) /\
    (xs0 <> [] -> rep (shared s) (ys ++ xs0)).
Proof.
  intros Hr Hend. destruct (conc_reachable_inv s Hr) as (ys & lk & ns & [I1 I2 I3 I4 I5 I6 I7 I8 I9 I10]).
  assert (Permutation ys (map elem (seq 0 T))) as Hperm.
  { apply NoDup_Permutation.
    - by apply NoDup_app in I3 as [? _].
    - apply NoDup_fmap_2_strong; [|apply NoDup_seq]. intros t u Ht%elem_of_seq Hu%elem_of_seq.
      apply Hinj; lia.
    - intros x. rewrite list_elem_of_fmap. split.
      + intros Hx. destruct (I5 x Hx) as (t & Ht & ->). exists t. split; [done|]. apply elem_of_seq. lia.
      + intros (t & -> & Ht%elem_of_seq). apply I6; [lia|]. by rewrite Hend by lia. }
  assert (forall x, x ∈ ys ++ xs0 -> lk x = true /\ ns x = true) as Hall.
  { intros x [Hx|Hx]%elem_of_app; [|by apply I4]. destruct (I5 x Hx) as (t & Ht & ->).
    specialize (I7 t Ht). by rewrite (Hend t Ht) in I7. }
  assert (count (base (shared s)) = Z.of_nat (length (ys ++ xs0))) as Hct.
  { rewrite I9, length_app, (tsum_const T _ 1%Z) by (intros t Ht; by rewrite Hend).
    rewrite (Permutation_length Hperm), length_map, length_seq. lia. }
  pose proof (cseg_dseg _ _ _ _ _ Hall I1) as Hseg.
  exists ys. split_and!; try done. intros Hne. destruct (I10 Hne) as [Hstop _].
  constructor; try done.
  - rewrite Hstop, final_app. unfold final. by destruct (last xs0) eqn:E; [|apply last_None in E].
  - rewrite length_app, (Permutation_length Hperm), length_map, length_seq. lia.
Qed.
End prepends.

(** ** Appending concurrently (lines 181-204) *)

Inductive apc :=
| B0                        (* line 190: elem_node.next = 0 *)
| B1                        (* line 191: exchange of list.end *)
| B2 (nxt : option nat)     (* line 192 *)
| B3 (nxt : option nat)     (* lines 193-196 *)
| B4                        (* line 198 *)
| B5                        (* line 199 *)
| B6                        (* line 202 *)
| BDone.

Definition free_append_step (elem : nat) (p : apc) (l : ut_list) : option (apc * ut_list) :=
  match p with
  | B0 => m ← set_next elem None (nodes l); Some (B1, mkList m (base l))
  | B1 => Some (B2 (stop (base l)),
            mkList (nodes l) (mkBase (count (base l)) (start (base l)) (Some elem)))
  | B2 nxt => m ← set_prev elem nxt (nodes l); Some (B3 nxt, mkList m (base l))
  | B3 nxt => m ← set_next_of nxt (Some elem) (nodes l); Some (B4, mkList m (base l))
  | B4 => Some (match start (base l) with None => B5 | Some _ => B6 end, l)
  | B5 => Some (B6, mkList (nodes l) (mkBase (count (base l)) (Some elem) (stop (base l))))
  | B6 => Some (BDone, mkList (nodes l) (mkBase (u64 (count (base l) + 1)) (start (base l)) (stop (base l))))
  | BDone => None
  end.

(** ** Races on an empty list *)

Fixpoint run (elem : nat -> nat) (ts : list nat) (s : state) : option state :=
  match ts with
  | [] => Some s
  | t :: ts' => s' ← free_prepend_step (elem t) t s; run elem ts' s'
  end.

Lemma run_conc_rtc T elem ts : forall s s',
  Forall (fun t => (t < T)%nat) ts -> run elem ts s = Some s' -> rtc (step T elem) s s'.
Proof.
  induction ts as [|t ts IH]; intros s s' Hts H; simpl in H; [simplify_eq; constructor|].
  apply Forall_cons in Hts as [Ht Hts]. apply bind_Some in H as (s1 & E & H).
  econstructor; [by exists t|by apply IH].
Qed.

Definition blank : store := {[ 1%nat := mkNode None None; 2%nat := mkNode None None;
                               3%nat := mkNode None None ]}.

Definition both_done (s : state) : bool := is_done (thread s 0%nat) && is_done (thread s 1%nat).

(** The second thread to exchange finds [list.end] still empty. *)
Definition end_race : list nat := [0; 0; 1; 1; 1; 1; 1; 1; 1; 0; 0; 0; 0]%nat.

(** two concurrent insertions into an empty list can leave [list.end] at
    the first element instead of the last: [ut_list_validate] then fails its
    assertion. *)
Theorem prepend_race_breaks_end :
  exists s, rtc (step 2 (fun t => S t)) (init (UT_LIST_INIT blank)) s /\ both_done s = true /\
    ut_list_map (shared s) = Some [2; 1]%nat /\ stop (base (shared s)) = Some 2%nat /\
    ut_list_validate (shared s) = None.
Proof.
  assert (H : (s ← run (fun t => S t) end_race (init (UT_LIST_INIT blank));
    Some (both_done s, ut_list_map (shared s), stop (base (shared s)), ut_list_validate (shared s)))
    = Some (true, Some [2; 1]%nat, Some 2%nat, None)) by (vm_compute; reflexivity).
  apply bind_Some in H as (s & E & H). injection H as H1 H2 H3 H4. exists s.
  split; [|split; [exact H1|split; [exact H2|split; [exact H3|exact H4]]]].
  apply (run_conc_rtc 2 _ end_race); [|exact E]. compute_decide.
Qed.

(** One thread prepends 1 while another appends 2; [true] steps the first. *)
Fixpoint run_mixed (ts : list bool) (s : state) (p : apc) : option (state * apc) :=
  match ts with
  | [] => Some (s, p)
  | true :: ts' => s' ← free_prepend_step 1 0 s; run_mixed ts' s' p
  | false :: ts' =>
      '(p', l') ← free_append_step 2 p (shared s);
      run_mixed ts' (mkState l' (thread s)) p'
  end.

Definition mixed_race : list bool :=
  [true; true; false; false; true; true; true; true; false; false; false; false].

(** a prepend and an append that meet on an empty list lose each other:
    both complete, the count is 2, but neither node links to the other. *)
Theorem prepend_append_race :
  exists s, run_mixed mixed_race (init (UT_LIST_INIT blank)) B0 = Some (s, BDone) /\
    is_done (thread s 0%nat) = true /\ count (base (shared s)) = 2%Z /\
    map_loop 3 (nodes (shared s)) (start (base (shared s))) = Some [1%nat] /\
    map_back 3 (nodes (shared s)) (stop (base (shared s))) = Some [2%nat].
Proof. eexists. split; [vm_compute; reflexivity|]. vm_compute. done. Qed.

Lemma concurrent_prepend_witness :
  exists s ys, rtc (step 2 (fun t => S (S t))) (init single) s /\
    Permutation ys [2; 3]%nat /\ rep (shared s) (ys ++ [1%nat]).
Proof.
  destruct (run (fun t => S (S t)) [0; 0; 1; 1; 0; 1; 1; 0; 0; 1; 0; 1]%nat (init single)) as [s|] eqn:E;
    [|vm_compute in E; discriminate E].
  assert (rtc (step 2 (fun t => S (S t))) (init single) s) as Hr.
  { apply (run_conc_rtc 2 _ [0; 0; 1; 1; 0; 1; 1; 0; 0; 1; 0; 1]%nat); [|exact E]. compute_decide. }
  assert (forall t, (t < 2)%nat -> thread s t = ADone) as Hend.
  { vm_compute in E. injection E as <-. intros t Ht. destruct t as [|[|t]]; [reflexivity..|lia]. }
  destruct (concurrent_prepend 2 (fun t => S (S t)) single [1%nat] single_rep) with (s := s)
    as (ys & Hp & _ & _ & _ & Hrep).
  - intros t u _ _ [=]. done.
  - intros t Ht. clear -Ht. split; [rewrite list_elem_of_singleton; lia|]. destruct t as [|[|t]]; [by eexists..|lia].
  - simpl. lia.
  - exact Hr.
  - exact Hend.
  - exists s, ys. split; [exact Hr|]. split; [exact Hp|]. apply Hrep. done.
Defined.
End UtListConc.
