(* ===== verification/OsEvent.v ===== *)
(** * Operating system events of XtraDB (include/os0sync.h, os/os0sync.cc)

    An event packs its signaled flag and its signal count into one 64-bit
    word.  The operations run under the mutex of the event, so each is one
    function on the word; the blocking of a waiter is a predicate on it. *)
From S2P Require Import Prelude.
Local Open Scope Z_scope.

Module OsEvent.

(** Struct [os_event], os0sync.h lines 89-152. *)
Definition count_mask : Z := 0x7fffffffffffffff.
Definition set_mask : Z := 0x8000000000000000.

Record os_event := mkEvent { count_and_set : Z }.

Definition init_count_and_set : os_event := mkEvent 1.
Definition ev_set (e : os_event) : os_event := mkEvent (Z.lor (count_and_set e) set_mask).
Definition ev_reset (e : os_event) : os_event := mkEvent (Z.land (count_and_set e) count_mask).
Definition is_set (e : os_event) : bool := negb (Z.land (count_and_set e) set_mask =? 0).
Definition inc_signal_count (e : os_event) : os_event := mkEvent (u64 (count_and_set e + 1)).
Definition signal_count (e : os_event) : Z := Z.land (count_and_set e) count_mask.

(** os0sync.cc, lines 282-311. *)
Definition os_event_create : os_event := init_count_and_set.

(** Lines 333-359. *)
Definition os_event_set (e : os_event) : os_event :=
  if is_set e then e else inc_signal_count (ev_set e).

(** Lines 369-397. *)
Definition os_event_reset (e : os_event) : os_event * Z :=
  let e' := if negb (is_set e) then e else ev_reset e in (e', signal_count e').

#[global] Arguments os_event_set : simpl never.
#[global] Arguments os_event_reset : simpl never.

(** Lines 472-474: the count a waiter compares with. *)
Definition wait_count (e : os_event) (reset_sig_count : Z) : Z :=
  if reset_sig_count =? 0 then signal_count e else reset_sig_count.

(** The loop condition of line 476. *)
Definition os_event_wait_blocks (e : os_event) (reset_sig_count : Z) : bool :=
  negb (is_set e) && (signal_count e =? reset_sig_count).

(** ** The flag and the count *)

Record rep (e : os_event) (c : Z) (b : bool) : Prop := Rep {
  rep_range : 0 < c < 2 ^ 63;
  rep_word : count_and_set e = c + (if b then 2 ^ 63 else 0)
}.

Lemma count_mask_ones : count_mask = Z.ones 63.
Proof. reflexivity. Qed.

Lemma land_count c (b : bool) : 0 < c < 2 ^ 63 -> Z.land (c + (if b then 2 ^ 63 else 0)) count_mask = c.
Proof.
  intros Hc. rewrite count_mask_ones, Z.land_ones by lia. destruct b.
  - rewrite <- (Z.mul_1_l (2 ^ 63)) at 1. rewrite Z_mod_plus_full, Z.mod_small; lia.
  - rewrite Z.add_0_r, Z.mod_small; lia.
Qed.

Lemma land_set c (b : bool) :
  0 < c < 2 ^ 63 -> Z.land (c + (if b then 2 ^ 63 else 0)) set_mask = if b then set_mask else 0.
Proof.
  intros Hc. change set_mask with (2 ^ 63).
  assert (forall x, 0 <= x -> Z.land x (2 ^ 63) = if Z.testbit x 63 then 2 ^ 63 else 0) as H.
  { intros x Hx. apply Z.bits_inj'. intros n Hn. rewrite Z.land_spec, Z.pow2_bits_eqb by lia.
    destruct (Z.eqb_spec 63 n) as [<-|Hne].
    - destruct (Z.testbit x 63); cbn [andb]; [by rewrite Z.pow2_bits_true by lia|by rewrite Z.bits_0].
    - rewrite andb_false_r. destruct (Z.testbit x 63); [|by rewrite Z.bits_0].
      rewrite Z.pow2_bits_eqb by lia. by destruct (Z.eqb_spec 63 n). }
  rewrite H by (destruct b; lia).
  assert (Z.testbit (c + (if b then 2 ^ 63 else 0)) 63 = b) as ->; [|done].
  apply Z.b2z_inj. rewrite Z.testbit_spec' by lia. destruct b.
  - rewrite <- (Z.mul_1_l (2 ^ 63)) at 1. rewrite Z.div_add, Z.div_small by lia. done.
  - rewrite Z.add_0_r, Z.div_small by lia. done.
Qed.

Lemma rep_signal_count e c b : rep e c b -> signal_count e = c.
Proof. intros [Hc Hw]. unfold signal_count. rewrite Hw. by apply land_count. Qed.

Lemma rep_is_set e c b : rep e c b -> is_set e = b.
Proof. intros [Hc Hw]. unfold is_set. rewrite Hw, land_set by done. by destruct b. Qed.

Lemma create_rep : rep os_event_create 1 false.
Proof. constructor; simpl; lia. Qed.

(** [os_event_set] counts one signal, unless the event is already signaled. *)
Lemma set_rep e c b :
  rep e c b -> c + 1 < 2 ^ 63 -> rep (os_event_set e) (if b then c else c + 1) true.
Proof.
  intros Hr Hlt. pose proof (rep_is_set e c b Hr) as Hs. unfold os_event_set. rewrite Hs.
  destruct b; [done|]. destruct Hr as [Hc Hw]. constructor; [lia|]. simpl. rewrite Hw, Z.add_0_r.
  assert (Z.lor c set_mask = c + 2 ^ 63) as ->.
  { pose proof (land_set c false Hc) as H0. rewrite Z.add_0_r in H0.
    by rewrite <- (Z.lxor_lor c set_mask H0), <- Z.add_nocarry_lxor. }
  rewrite u64_small; lia.
Qed.

(** [os_event_reset] clears the flag and returns the count. *)
Lemma reset_rep e c b : rep e c b -> rep (os_event_reset e).1 c false /\ (os_event_reset e).2 = c.
Proof.
  intros Hr. pose proof (rep_is_set e c b Hr) as Hs. unfold os_event_reset. rewrite Hs.
  assert (rep (if negb b then e else ev_reset e) c false) as H.
  { destruct b; [|done]. destruct Hr as [Hc Hw]. constructor; [done|]. simpl. rewrite Hw.
    by rewrite (land_count c true), Z.add_0_r. }
  split; [done|]. simpl. by apply (rep_signal_count _ c false).
Qed.

Lemma wait_blocks_rep e c b r : rep e c b -> os_event_wait_blocks e r = negb b && (c =? r).
Proof.
  intros Hr. unfold os_event_wait_blocks. by rewrite (rep_is_set _ _ _ Hr), (rep_signal_count _ _ _ Hr).
Qed.

#[export] Hint Resolve create_rep set_rep : mc.

(** ** No signal is lost between reset and wait *)

Inductive op := Set_ | Reset_.

Definition exec (o : op) (e : os_event) : os_event :=
  match o with Set_ => os_event_set e | Reset_ => (os_event_reset e).1 end.

Fixpoint run (os : list op) (e : os_event) : os_event :=
  match os with [] => e | o :: os' => run os' (exec o e) end.

Definition is_Set (o : op) : bool := match o with Set_ => true | Reset_ => false end.

Lemma run_rep os : forall e c b,
  rep e c b -> c + Z.of_nat (length os) < 2 ^ 63 ->
  exists c' b', rep (run os e) c' b' /\ c <= c' <= c + Z.of_nat (length os) /\
    (b = false -> if existsb is_Set os then c < c' else c' = c /\ b' = false).
Proof.
  induction os as [|o os IH]; intros e c b Hr Hlt; simpl.
  { exists c, b. split; [done|]. split; [lia|]. done. }
  simpl in Hlt. destruct o; simpl.
  - destruct (IH (os_event_set e) (if b then c else c + 1) true) as (c' & b' & Hr' & Hle & _).
    { apply set_rep; [done|lia]. }
    { destruct b; lia. }
    exists c', b'. split; [done|]. destruct b; split; (done || lia).
  - destruct (reset_rep e c b Hr) as [Hr1 _].
    destruct (IH _ c false Hr1) as (c' & b' & Hr' & Hle & H); [lia|].
    exists c', b'. split; [done|]. split; [lia|]. intros _. by apply H.
Qed.

(** a thread that waits with the count its own [os_event_reset] returned
    is blocked exactly when no [os_event_set] came in between, whatever
    resets other threads made (LEMMA 2 of sync0sync.cc). *)
Theorem wait_after_reset e c b os :
  rep e c b -> c + Z.of_nat (length os) < 2 ^ 63 ->
  os_event_wait_blocks (run os (os_event_reset e).1) (os_event_reset e).2 = negb (existsb is_Set os).
Proof.
  intros Hr Hlt. destruct (reset_rep e c b Hr) as [Hr1 ->].
  destruct (run_rep os _ c false Hr1 Hlt) as (c' & b' & Hr' & Hle & H). specialize (H eq_refl).
  rewrite (wait_blocks_rep _ _ _ _ Hr'). destruct (existsb is_Set os); simpl.
  - destruct (Z.eqb_spec c' c); [lia|]. by rewrite andb_false_r.
  - destruct H as [-> ->]. by rewrite Z.eqb_refl.
Qed.

Lemma wait_after_reset_witness :
  os_event_wait_blocks (run [Set_; Reset_] (os_event_reset os_event_create).1)
    (os_event_reset os_event_create).2 = false.
Proof. apply (wait_after_reset os_event_create 1 false [Set_; Reset_] create_rep). simpl. lia. Defined.

(** without the count the signal is lost: after a set and another
    thread's reset, a wait that passes 0 blocks. *)
Theorem wait_without_count_loses_signal e c b :
  rep e c b -> c + 1 < 2 ^ 63 ->
  let e' := run [Set_; Reset_] (os_event_reset e).1 in
  os_event_wait_blocks e' (wait_count e' 0) = true.
Proof.
  intros Hr Hlt e'. destruct (reset_rep e c b Hr) as [Hr1 _].
  pose proof (set_rep _ _ _ Hr1 Hlt) as Hr2. destruct (reset_rep _ _ _ Hr2) as [Hr3 _].
  change e' with ((os_event_reset (os_event_set (os_event_reset e).1)).1). unfold wait_count.
  rewrite Z.eqb_refl, (rep_signal_count _ _ _ Hr3), (wait_blocks_rep _ _ _ _ Hr3). apply Z.eqb_refl.
Qed.

Lemma wait_without_count_loses_signal_witness :
  let e' := run [Set_; Reset_] (os_event_reset os_event_create).1 in
  os_event_wait_blocks e' (wait_count e' 0) = true.
Proof. apply (wait_without_count_loses_signal os_event_create 1 false create_rep). lia. Defined.
End OsEvent.
