(* ===== verification/MutexSpin.v ===== *)
(** * The spinning mutex of XtraDB

    [mutex_enter_func] and [mutex_exit_func] (include/sync0sync.ic),
    [mutex_spin_wait], [mutex_signal_object] and [mutex_set_waiters]
    (sync/sync0sync.cc, lines 608-808) for one [ib_mutex_t] and any number of
    threads: one transition per access of the lock word, the waiters field or
    the event.  The event is used through an interface, [EventLaws], which
    the events of [OsEvent] implement. *)
From S2P Require Import Prelude OsEvent.
Local Open Scope Z_scope.

(** ** What the mutex relies on *)

(** An event with set, reset and wait.  [issued e r] holds of the counts that
    resets have returned, [budget e k] that [k] more signals can be
    counted. *)
Class EventOps (E : Type) := {
  event_create : E;
  event_set : E -> E;
  event_reset : E -> E * Z;
  event_blocks : E -> Z -> bool;
  issued : E -> Z -> Prop;
  budget : Z -> E -> Prop;
  capacity : Z
}.

Class EventLaws (E : Type) `{EventOps E} : Prop := {
  create_budget : budget capacity event_create;
  budget_less k j e : j <= k -> budget k e -> budget j e;
  set_budget k e : 0 < k -> budget k e -> budget (k - 1) (event_set e);
  reset_budget k e : budget k e -> budget k (event_reset e).1;
  reset_issues k e : budget k e -> issued (event_reset e).1 (event_reset e).2;
  set_issued k e r : 0 < k -> budget k e -> issued e r -> issued (event_set e) r;
  reset_issued k e r : budget k e -> issued e r -> issued (event_reset e).1 r;
  set_unblocks k e r : 0 < k -> budget k e -> issued e r -> event_blocks (event_set e) r = false;
  reset_keeps k e r : budget k e -> issued e r -> event_blocks (event_reset e).1 r = true ->
    event_blocks e r = true
}.

(** The events of os0sync.cc. *)
#[export] Instance os_event_ops : EventOps OsEvent.os_event := {|
  event_create := OsEvent.os_event_create;
  event_set := OsEvent.os_event_set;
  event_reset := OsEvent.os_event_reset;
  event_blocks := OsEvent.os_event_wait_blocks;
  issued e r := exists c b, OsEvent.rep e c b /\ 0 < r <= c /\ (r = c -> b = false);
  budget k e := exists c b, OsEvent.rep e c b /\ c + k < 2 ^ 63;
  capacity := 2 ^ 63 - 2
|}.

Lemma event_rep_unique e c b c' b' : OsEvent.rep e c b -> OsEvent.rep e c' b' -> c = c' /\ b = b'.
Proof.
  intros H H'. rewrite <- (OsEvent.rep_signal_count _ _ _ H), <- (OsEvent.rep_is_set _ _ _ H).
  by rewrite <- (OsEvent.rep_signal_count _ _ _ H'), <- (OsEvent.rep_is_set _ _ _ H').
Qed.

#[export] Instance os_event_laws : EventLaws OsEvent.os_event.
Proof.
  split; cbv [event_create event_set event_reset event_blocks issued budget capacity os_event_ops].
  - exists 1, false. split; [apply OsEvent.create_rep|lia].
  - intros k j e Hle (c & b & Hr & Hlt). exists c, b. split; [done|lia].
  - intros k e Hk (c & b & Hr & Hlt). exists (if b then c else c + 1), true.
    split; [apply OsEvent.set_rep; [done|lia]|destruct b; lia].
  - intros k e (c & b & Hr & Hlt). destruct (OsEvent.reset_rep _ _ _ Hr) as [Hr' _]. by exists c, false.
  - intros k e (c & b & Hr & Hlt). destruct (OsEvent.reset_rep _ _ _ Hr) as [Hr' ->].
    exists c, false. split; [done|]. destruct Hr. split; [lia|done].
  - intros k e r Hk (c & b & Hr & Hlt) (c' & b' & Hr' & Hle & Hb).
    destruct (event_rep_unique _ _ _ _ _ Hr Hr') as [<- <-].
    exists (if b then c else c + 1), true. split; [apply OsEvent.set_rep; [done|lia]|].
    destruct b; split; lia.
  - intros k e r (c & b & Hr & Hlt) (c' & b' & Hr' & Hle & Hb).
    destruct (event_rep_unique _ _ _ _ _ Hr Hr') as [<- <-].
    destruct (OsEvent.reset_rep _ _ _ Hr) as [Hr1 _]. by exists c, false.
  - intros k e r Hk (c & b & Hr & Hlt) _.
    rewrite (OsEvent.wait_blocks_rep _ _ _ _ (OsEvent.set_rep _ _ _ Hr ltac:(lia))). done.
  - intros k e r (c & b & Hr & Hlt) (c' & b' & Hr' & Hle & Hb).
    destruct (event_rep_unique _ _ _ _ _ Hr Hr') as [<- <-].
    destruct (OsEvent.reset_rep _ _ _ Hr) as [Hr1 _].
    rewrite (OsEvent.wait_blocks_rep _ _ _ _ Hr1), (OsEvent.wait_blocks_rep _ _ _ _ Hr). simpl.
    intros E. apply Z.eqb_eq in E. rewrite Hb by done. simpl. by apply Z.eqb_eq.
Qed.

Module MutexSpin.

Inductive pc :=
| Out                        (* not using the mutex *)
| Enter                      (* mutex_enter_func, line 268 of sync0sync.ic *)
| SpinRead (i : nat)         (* mutex_spin_wait, line 677 *)
| SpinTas (i : nat)          (* line 691 *)
| Reserve                    (* line 719: reserves a cell, resets the event *)
| SetWaiters (sig : Z)       (* line 738 *)
| Retry (i : nat) (sig : Z)  (* line 748 *)
| Wait (sig : Z)             (* line 783 *)
| Inside                     (* the mutex is held *)
| ExitReset                  (* mutex_exit_func, line 170 of sync0sync.ic *)
| ExitRead                   (* line 189 of sync0sync.ic *)
| ExitClear                  (* mutex_signal_object, line 802 *)
| ExitSet.                   (* line 806 *)

Section mutex.
Context {E : Type} {HO : EventOps E} {HE : EventLaws E} (SYNC_SPIN_ROUNDS : nat).

Record state := mkState { lock_word : Z; waiters : Z; event : E; thread : nat -> pc }.

(** [mutex_create_func] leaves the mutex in the reset state. *)
Definition init : state := mkState 0 0 event_create (fun _ => Out).

Definition goto (t : nat) (p : pc) (s : state) : state :=
  mkState (lock_word s) (waiters s) (event s) (upd (thread s) t p).

(** Lines 608-625. *)
Definition mutex_set_waiters (n : Z) (s : state) : state :=
  mkState (lock_word s) n (event s) (thread s).

Definition set_event (e : E) (s : state) : state := mkState (lock_word s) (waiters s) e (thread s).

(** [ib_mutex_test_and_set]: the old value decides where to go on. *)
Definition test_and_set (t : nat) (got lost : pc) (s : state) : state :=
  mkState 1 (waiters s) (event s) (upd (thread s) t (if lock_word s =? 0 then got else lost)).

(** Lines 627-792, from the first failed attempt to the acquisition.  [None]
    is a thread that stays suspended. *)
Definition mutex_spin_wait_step (t : nat) (s : state) : option state :=
  match thread s t with
  | SpinRead i =>
      Some (goto t (if negb (lock_word s =? 0) && (i <? SYNC_SPIN_ROUNDS)%nat
                    then SpinRead (S i) else SpinTas i) s)
  | SpinTas i =>
      Some (test_and_set t Inside
              (if (S i <? SYNC_SPIN_ROUNDS)%nat then SpinRead (S i) else Reserve) s)
  | Reserve => let (e, sig) := event_reset (event s) in Some (goto t (SetWaiters sig) (set_event e s))
  | SetWaiters sig => Some (goto t (Retry 0 sig) (mutex_set_waiters 1 s))
  | Retry i sig => Some (test_and_set t Inside (if (S i <? 4)%nat then Retry (S i) sig else Wait sig) s)
  | Wait sig => if event_blocks (event s) sig then None else Some (goto t (SpinRead 0) s)
  | _ => None
  end.

(** Lines 794-808. *)
Definition mutex_signal_object_step (t : nat) (s : state) : option state :=
  match thread s t with
  | ExitClear => Some (goto t ExitSet (mutex_set_waiters 0 s))
  | ExitSet => Some (goto t Out (set_event (event_set (event s)) s))
  | _ => None
  end.

(** Lines 250-282 of sync0sync.ic: the first attempt. *)
Definition mutex_enter_step (t : nat) (s : state) : option state :=
  match thread s t with
  | Enter => Some (test_and_set t Inside (SpinRead 0) s)
  | _ => mutex_spin_wait_step t s
  end.

(** Lines 155-197 of sync0sync.ic: the release and the check for waiters. *)
Definition mutex_exit_step (t : nat) (s : state) : option state :=
  match thread s t with
  | ExitReset => Some (mkState 0 (waiters s) (event s) (upd (thread s) t ExitRead))
  | ExitRead => Some (goto t (if waiters s =? 0 then Out else ExitClear) s)
  | _ => mutex_signal_object_step t s
  end.

(** A thread that enters, waits for, uses and leaves the mutex, again and
    again. *)
Definition mutex_step (t : nat) (s : state) : option state :=
  match thread s t with
  | Out => Some (goto t Enter s)
  | Inside => Some (goto t ExitReset s)
  | ExitReset | ExitRead | ExitClear | ExitSet => mutex_exit_step t s
  | _ => mutex_enter_step t s
  end.

Definition step (s s' : state) : Prop := exists t, mutex_step t s = Some s'.

(** ** The invariant *)

Definition holds (p : pc) : bool := match p with Inside | ExitReset => true | _ => false end.

(** The thread will read the waiters field after releasing the mutex. *)
Definition will_read (p : pc) : bool :=
  match p with Inside | ExitReset | ExitRead => true | _ => false end.

Definition will_signal (p : pc) : bool := match p with ExitClear | ExitSet => true | _ => false end.

Definition ticket (p : pc) : option Z :=
  match p with SetWaiters r | Retry _ r | Wait r => Some r | _ => None end.

(** Some thread is going to set the event. *)
Definition signal_due (s : state) : Prop :=
  (waiters s <> 0 /\ exists u, will_read (thread s u) = true) \/
  exists u, will_signal (thread s u) = true.

Definition wait_ok (s : state) (p : pc) : Prop :=
  match p with
  | Retry 0 r => event_blocks (event s) r = true ->
      waiters s <> 0 \/ exists u, thread s u = ExitSet
  | Retry (S _) r | Wait r => event_blocks (event s) r = true -> signal_due s
  | _ => True
  end.

Record inv (k : Z) (s : state) : Prop := Inv {
  inv_budget : budget k (event s);
  inv_word : lock_word s <> 0 <-> exists t, holds (thread s t) = true;
  inv_unique : forall t u, holds (thread s t) = true -> holds (thread s u) = true -> t = u;
  inv_issued : forall t r, ticket (thread s t) = Some r -> issued (event s) r;
  inv_wait : forall t, wait_ok s (thread s t)
}.

Lemma spin_init_inv : inv capacity init.
Proof using HE.
  constructor; simpl; try done.
  - apply create_budget.
  - split; [done|]. intros [t Ht]. done.
Qed.
(** The four kinds of transition: a local one, a test-and-set, and the two
    that change the event. *)

(** The promise to a waiter survives when nothing it relies on goes away. *)
Lemma signal_due_mono s s' :
  waiters s' = waiters s ->
  (forall u, will_read (thread s u) = true -> waiters s <> 0 ->
     will_read (thread s' u) = true \/ will_signal (thread s' u) = true) ->
  (forall u, will_signal (thread s u) = true -> will_signal (thread s' u) = true) ->
  signal_due s -> signal_due s'.
Proof.
  intros Hw Hr Hs [[Hne [u Hu]]|[u Hu]].
  - destruct (Hr u Hu Hne) as [H|H]; [left; rewrite Hw; eauto|right; eauto].
  - right. eauto.
Qed.

Lemma wait_ok_mono s s' p :
  event s' = event s -> (waiters s <> 0 -> waiters s' <> 0) ->
  (forall u, thread s u = ExitSet -> thread s' u = ExitSet) ->
  (signal_due s -> signal_due s') -> wait_ok s p -> wait_ok s' p.
Proof.
  intros He Hw Hx Hd. destruct p as [| | | | | |[|k] r|r| | | | |]; simpl; rewrite ?He; try done; eauto.
  intros H Hb. destruct (H Hb) as [|[u Hu]]; [by left; auto|right; eauto].
Qed.

(** A thread that moves on without touching the fields of the mutex. *)
Lemma inv_goto k s t p :
  inv k s -> holds p = holds (thread s t) ->
  (ticket p = ticket (thread s t) \/ ticket p = None) ->
  (will_read (thread s t) = true -> waiters s <> 0 -> will_read p = true \/ will_signal p = true) ->
  (will_signal (thread s t) = true -> will_signal p = true) -> thread s t <> ExitSet ->
  (wait_ok (goto t p s) p) -> inv k (goto t p s).
Proof.
  intros [Ib Iw Iu Ii Ia] Hh Ht Hr Hs Hx Hok.
  assert (forall u, holds (upd (thread s) t p u) = holds (thread s u)) as Hhold
    by (intros u; upd_cases; done).
  constructor; simpl; try done.
  - setoid_rewrite Hhold. done.
  - intros u v. rewrite !Hhold. apply Iu.
  - intros u r. upd_cases; [|apply Ii]. destruct Ht as [->| ->]; [apply Ii|done].
  - intros u. destruct (decide (t = u)) as [<-|Hne]; [by rewrite upd_eq|]. rewrite upd_ne by done.
    apply (wait_ok_mono s); simpl; [done|done| |apply signal_due_mono; simpl; [done| |]|apply Ia].
    + intros v Hv. upd_cases; congruence.
    + intros v Hv Hw. upd_cases; [by apply Hr|by left].
    + intros v Hv. upd_cases; [by apply Hs|done].
Qed.

(** The atomic test-and-set of [ib_mutex_test_and_set]. *)
Lemma inv_test_and_set k s t lost :
  inv k s -> holds (thread s t) = false -> will_read (thread s t) = false ->
  will_signal (thread s t) = false -> holds lost = false ->
  (ticket lost = ticket (thread s t) \/ ticket lost = None) ->
  (lock_word s <> 0 -> wait_ok (test_and_set t Inside lost s) lost) ->
  inv k (test_and_set t Inside lost s).
Proof.
  intros I Hh Hr Hs Hl Ht Hok. pose proof I as [Ib Iw Iu Ii Ia]. unfold test_and_set in *.
  destruct (Z.eqb_spec (lock_word s) 0) as [Hz|Hz].
  - assert (forall u, holds (thread s u) = false) as Hnone.
    { intros u. destruct (holds (thread s u)) eqn:Eu; [|done]. destruct Iw as [_ Iw].
      by destruct Iw; [exists u|]. }
    constructor; simpl; try done.
    + split; [|done]. intros _. exists t. by rewrite upd_eq.
    + intros u v. upd_cases; rewrite ?Hnone; done.
    + intros u r. upd_cases; [done|apply Ii].
    + intros u. destruct (decide (t = u)) as [<-|Hne]; [by rewrite upd_eq|]. rewrite upd_ne by done.
      apply (wait_ok_mono s); simpl; [done|done| |apply signal_due_mono; simpl; [done| |]|apply Ia].
      * intros v Hv. upd_cases; [by rewrite Hv in Hs|done].
      * intros v Hv Hw. upd_cases; [by left|by left].
      * intros v Hv. upd_cases; congruence.
  - assert (inv k (goto t lost s)) as I'.
    { apply inv_goto; try done; [by rewrite Hl|congruence|congruence| |].
      - intros E0. by rewrite E0 in Hs.
      - by apply (Hok Hz). }
    destruct I' as [I1 I2 I3 I4 I5]. constructor; simpl; try done.
    + destruct I2 as [I2 _]. split; [by intros _; apply I2|done].
Qed.
(** Line 170 of sync0sync.ic: the release. *)
Lemma inv_release k s t :
  inv k s -> thread s t = ExitReset ->
  inv k (mkState 0 (waiters s) (event s) (upd (thread s) t ExitRead)).
Proof.
  intros [Ib Iw Iu Ii Ia] Et.
  assert (forall u, holds (upd (thread s) t ExitRead u) = false) as Hnone.
  { intros u. destruct (decide (t = u)) as [<-|Hne]; [by rewrite upd_eq|]. rewrite upd_ne by done.
    destruct (holds (thread s u)) eqn:Eu; [|done]. destruct Hne. apply Iu; [by rewrite Et|done]. }
  constructor; simpl; try done.
  - split; [done|]. intros [u Hu]. by rewrite Hnone in Hu.
  - intros u v. by rewrite Hnone.
  - intros u r. upd_cases; [done|apply Ii].
  - intros u. destruct (decide (t = u)) as [<-|Hne]; [by rewrite upd_eq|]. rewrite upd_ne by done.
    apply (wait_ok_mono s); simpl; [done|done| |apply signal_due_mono; simpl; [done| |]|apply Ia].
    + intros v Hv. upd_cases; congruence.
    + intros v Hv Hw. upd_cases; [by left|by left].
    + intros v Hv. upd_cases; [by rewrite Et in Hv|done].
Qed.

(** Line 719: the reservation resets the event. *)
Lemma inv_reserve k s t :
  inv k s -> thread s t = Reserve ->
  inv k (goto t (SetWaiters (event_reset (event s)).2) (set_event (event_reset (event s)).1 s)).
Proof using HE.
  intros [Ib Iw Iu Ii Ia] Et.
  assert (forall u, holds (upd (thread s) t (SetWaiters (event_reset (event s)).2) u) = holds (thread s u))
    as Hhold by (intros u; upd_cases; [by rewrite Et|done]).
  constructor; simpl.
  - by apply reset_budget.
  - setoid_rewrite Hhold. done.
  - intros u v. rewrite !Hhold. apply Iu.
  - intros u r. upd_cases; simpl.
    + intros [= <-]. by eapply reset_issues.
    + intros Hr. eapply reset_issued; [done|]. by apply Ii with u.
  - intros u. destruct (decide (t = u)) as [<-|Hne]; [by rewrite upd_eq|]. rewrite upd_ne by done.
    assert (signal_due s -> signal_due (goto t (SetWaiters (event_reset (event s)).2)
      (set_event (event_reset (event s)).1 s))) as Hdue.
    { apply signal_due_mono; simpl; [done| |].
      - intros v Hv Hw. upd_cases; [by rewrite Et in Hv|by left].
      - intros v Hv. upd_cases; [by rewrite Et in Hv|done]. }
    specialize (Ia u). specialize (Ii u).
    destruct (thread s u) as [| | | | | |[|j] r|r| | | | |] eqn:Eu; simpl in *; try done;
      intros Hb; (eapply reset_keeps in Hb; [|done|by apply Ii]); [|by auto..].
    destruct (Ia Hb) as [|[v Hv]]; [by left|right]. exists v. upd_cases; congruence.
Qed.

(** Line 738: the waiter announces itself. *)
Lemma inv_set_waiters k s t r :
  inv k s -> thread s t = SetWaiters r -> inv k (goto t (Retry 0 r) (mutex_set_waiters 1 s)).
Proof.
  intros [Ib Iw Iu Ii Ia] Et.
  assert (forall u, holds (upd (thread s) t (Retry 0 r) u) = holds (thread s u)) as Hhold
    by (intros u; upd_cases; [by rewrite Et|done]).
  constructor; simpl; try done.
  - setoid_rewrite Hhold. done.
  - intros u v. rewrite !Hhold. apply Iu.
  - intros u r'. destruct (decide (t = u)) as [<-|Hne]; [rewrite upd_eq|rewrite upd_ne by done; apply Ii].
    intros [= <-]. apply Ii with t. by rewrite Et.
  - intros u. destruct (decide (t = u)) as [<-|Hne].
    { rewrite upd_eq. simpl. by left. }
    rewrite upd_ne by done. apply (wait_ok_mono s); simpl; [done|done| | |apply Ia].
    + intros v Hv. upd_cases; congruence.
    + intros [[Hw [v Hv]]|[v Hv]]; [left; split; [done|]|right]; exists v; simpl;
        upd_cases; try done; by rewrite Et in Hv.
Qed.

(** Line 802: the field is cleared before the event is set. *)
Lemma spin_clear k s t :
  inv k s -> thread s t = ExitClear -> inv k (goto t ExitSet (mutex_set_waiters 0 s)).
Proof.
  intros [Ib Iw Iu Ii Ia] Et.
  assert (forall u, holds (upd (thread s) t ExitSet u) = holds (thread s u)) as Hhold
    by (intros u; upd_cases; [by rewrite Et|done]).
  constructor; simpl; try done.
  - setoid_rewrite Hhold. done.
  - intros u v. rewrite !Hhold. apply Iu.
  - intros u r. upd_cases; [done|apply Ii].
  - intros u. destruct (decide (t = u)) as [<-|Hne]; [by rewrite upd_eq|]. rewrite upd_ne by done.
    destruct (thread s u) as [| | | | | |[|j] r|r| | | | |]; simpl; try done; intros _; right;
      exists t; simpl; by rewrite upd_eq.
Qed.

(** Line 806: the event wakes every waiter. *)
Lemma inv_signal k s t :
  0 < k -> inv k s -> thread s t = ExitSet ->
  inv (k - 1) (goto t Out (set_event (event_set (event s)) s)).
Proof using HE.
  intros Hk [Ib Iw Iu Ii Ia] Et.
  assert (forall u, holds (upd (thread s) t Out u) = holds (thread s u)) as Hhold
    by (intros u; upd_cases; [by rewrite Et|done]).
  constructor; simpl.
  - by apply set_budget.
  - setoid_rewrite Hhold. done.
  - intros u v. rewrite !Hhold. apply Iu.
  - intros u r. upd_cases; [done|]. intros Hr. eapply set_issued; [done|done|]. by apply Ii with u.
  - intros u. destruct (decide (t = u)) as [<-|Hne]; [by rewrite upd_eq|]. rewrite upd_ne by done.
    specialize (Ii u).
    destruct (thread s u) as [| | | | | |[|j] r|r| | | | |]; simpl in *; try done;
      by rewrite (set_unblocks k (event s) r Hk Ib (Ii r eq_refl)).
Qed.

Lemma inv_weaken k j s : j <= k -> inv k s -> inv j s.
Proof using HE. intros Hle [Ib ? ? ? ?]. constructor; try done. by eapply budget_less. Qed.

(** What a failed attempt after the announcement proves: the mutex is held by
    a thread that has not read the waiters field yet. *)
Lemma failed_retry k s t lost r :
  inv k s -> lock_word s <> 0 -> ticket (thread s t) = Some r ->
  (event_blocks (event s) r = true -> waiters s <> 0 \/ exists u, thread s u = ExitSet) ->
  event_blocks (event s) r = true -> signal_due (test_and_set t Inside lost s).
Proof.
  intros I Hz Ht H Hb. destruct (inv_word _ _ I) as [Hw _]. destruct (Hw Hz) as [u Hu].
  unfold test_and_set. destruct (Z.eqb_spec (lock_word s) 0) as [|_]; [done|].
  destruct (H Hb) as [Hne|[v Hv]].
  - left. split; [done|]. exists u. simpl. upd_cases; [by destruct (thread s u)|].
    by destruct (thread s u).
  - right. exists v. simpl. upd_cases; [by rewrite Hv in Ht|by rewrite Hv].
Qed.

Lemma inv_retry k s t j r :
  inv k s -> thread s t = Retry j r ->
  inv k (test_and_set t Inside (if (S j <? 4)%nat then Retry (S j) r else Wait r) s).
Proof.
  intros I Et. pose proof (inv_wait _ _ I t) as Hw. rewrite Et in Hw.
  apply inv_test_and_set; rewrite ?Et; try done; [by destruct (S j <? 4)%nat|left; by destruct (S j <? 4)%nat|].
  intros Hz. assert (event_blocks (event s) r = true ->
    signal_due (test_and_set t Inside (if (S j <? 4)%nat then Retry (S j) r else Wait r) s)) as Hdue.
  { destruct j as [|j]; simpl in Hw; intros Hb.
    - by eapply failed_retry; [done|done|by rewrite Et| |].
    - eapply signal_due_mono, (Hw Hb); simpl; [done| |].
      + intros v Hv _. upd_cases; [by rewrite Et in Hv|by left].
      + intros v Hv. upd_cases; [by rewrite Et in Hv|done]. }
  by destruct (S j <? 4)%nat.
Qed.

(** Line 783: a thread the event lets through spins again. *)
Lemma spin_local k s t p :
  inv k s -> holds p = holds (thread s t) -> ticket p = None ->
  (will_read (thread s t) = true -> will_read p = true \/ waiters s = 0) ->
  will_signal (thread s t) = false -> inv k (goto t p s).
Proof.
  intros I Hh Ht Hr Hs. apply inv_goto; try done; [by right| |by rewrite Hs| |].
  - intros H1 H2. destruct (Hr H1); by auto.
  - intros H. by rewrite H in Hs.
  - by destruct p.
Qed.

Lemma inv_exit_read k s t :
  inv k s -> thread s t = ExitRead -> inv k (goto t (if waiters s =? 0 then Out else ExitClear) s).
Proof.
  intros I Et. destruct (Z.eqb_spec (waiters s) 0) as [Hz|Hz].
  - apply spin_local; rewrite ?Et; try done. by right.
  - apply inv_goto; rewrite ?Et; try done; by right.
Qed.

Lemma spin_step k s s' : 0 < k -> inv k s -> step s s' -> inv (k - 1) s'.
Proof using HE.
  intros Hk I [t Hst].
  assert (inv k s' -> inv (k - 1) s') as Hweak by (apply inv_weaken; lia).
  unfold mutex_step, mutex_enter_step, mutex_exit_step, mutex_spin_wait_step, mutex_signal_object_step in Hst.
  destruct (thread s t) as [| |i|i| |r|i r|r| | | | |] eqn:Et.
  - injection Hst as <-. apply Hweak, spin_local; by rewrite ?Et.
  - injection Hst as <-. apply Hweak, inv_test_and_set; rewrite ?Et; by try right.
  - injection Hst as <-. apply Hweak, spin_local; rewrite ?Et; by case_match.
  - injection Hst as <-. apply Hweak, inv_test_and_set; rewrite ?Et; by (case_match; try right).
  - destruct (event_reset (event s)) as [e sig] eqn:Er. injection Hst as <-. apply Hweak.
    pose proof (inv_reserve k s t I Et) as H. by rewrite Er in H.
  - injection Hst as <-. by apply Hweak, inv_set_waiters.
  - injection Hst as <-. by apply Hweak, inv_retry.
  - destruct (event_blocks (event s) r); [done|]. injection Hst as <-.
    apply Hweak, spin_local; by rewrite ?Et.
  - injection Hst as <-. apply Hweak, spin_local; rewrite ?Et; by try left.
  - injection Hst as <-. by apply Hweak, inv_release.
  - injection Hst as <-. by apply Hweak, inv_exit_read.
  - injection Hst as <-. by apply Hweak, spin_clear.
  - injection Hst as <-. by apply inv_signal.
Qed.

Lemma spin_reachable n s : Z.of_nat n <= capacity -> nsteps step n init s -> inv (capacity - Z.of_nat n) s.
Proof using HE.
  intros Hn Hs. refine (nsteps_invariant step inv capacity n init s spin_init_inv _ Hs Hn).
  intros k x y. apply spin_step.
Qed.

(** Runs of a given schedule. *)
Fixpoint run (sched : list nat) (s : state) : option state :=
  match sched with
  | [] => Some s
  | t :: rest => match mutex_step t s with Some s' => run rest s' | None => None end
  end.

Lemma run_nsteps sched s s' : run sched s = Some s' -> nsteps step (length sched) s s'.
Proof.
  revert s. induction sched as [|t rest IH]; intros s; simpl; [intros [= ->]; constructor|].
  destruct (mutex_step t s) as [s1|] eqn:E1; [|done]. intros Hr. econstructor; [by exists t|by apply IH].
Qed.

(** ** Theorems *)

(** C18: At most one thread is between [mutex_enter] and the reset of the lock
    word, for any number of threads, any number of spin rounds and any
    interleaving. *)
Theorem mutex_exclusion n s t u :
  Z.of_nat n <= capacity -> nsteps step n init s ->
  thread s t = Inside -> thread s u = Inside -> t = u.
Proof using HE.
  intros Hn Hs Ht Hu. apply (inv_unique _ _ (spin_reachable _ _ Hn Hs)); [by rewrite Ht|by rewrite Hu].
Qed.

(** C19: LEMMA 1 of sync0sync.cc: a thread suspended on the event of the mutex is
    signalled.  While it is suspended, some thread has still to read the
    non-zero waiters field after its release, or is about to set the event. *)
Theorem mutex_no_lost_wakeup n s t r :
  Z.of_nat n <= capacity -> nsteps step n init s ->
  thread s t = Wait r -> event_blocks (event s) r = true ->
  exists u, mutex_step u s <> None /\
    (will_signal (thread s u) = true \/ (waiters s <> 0 /\ will_read (thread s u) = true)).
Proof using HE.
  intros Hn Hs Ht Hb. pose proof (inv_wait _ _ (spin_reachable _ _ Hn Hs) t) as Hw.
  rewrite Ht in Hw. destruct (Hw Hb) as [[Hne [u Hu]]|[u Hu]]; exists u; (split; [|by auto]);
    unfold mutex_step, mutex_exit_step, mutex_signal_object_step; by destruct (thread s u).
Qed.

(** LEMMA 2 of sync0sync.cc: when every thread is outside the mutex or in its
    wait, no wait blocks, so the mutex alone never deadlocks. *)
Theorem mutex_quiescent_not_blocked n s :
  Z.of_nat n <= capacity -> nsteps step n init s ->
  (forall t, thread s t = Out \/ exists r, thread s t = Wait r) ->
  lock_word s = 0 /\ forall t r, thread s t = Wait r -> event_blocks (event s) r = false.
Proof using HE.
  intros Hn Hs Hall. pose proof (spin_reachable _ _ Hn Hs) as I. split.
  - destruct (Z.eq_dec (lock_word s) 0) as [|Hz]; [done|].
    apply (inv_word _ _ I) in Hz as [t Ht]. by destruct (Hall t) as [E0|[r E0]]; rewrite E0 in Ht.
  - intros t r Ht. destruct (event_blocks (event s) r) eqn:Eb; [|done].
    pose proof (inv_wait _ _ I t) as Hw. rewrite Ht in Hw.
    destruct (Hw Eb) as [[_ [u Hu]]|[u Hu]]; by destruct (Hall u) as [E0|[r' E0]]; rewrite E0 in Hu.
Qed.
End mutex.

(** Thread 0 acquires the mutex; thread 1 spins, announces itself, and
    suspends itself. *)
Definition contended : list nat := [0; 0; 1; 1; 1; 1; 1; 1; 1; 1; 1; 1; 1]%nat.

Definition contended_state : state := default init (run (E := OsEvent.os_event) 1 contended init).

(** Thread 0 then leaves the mutex and signals. *)
Definition signalled : list nat := (contended ++ [0; 0; 0; 0; 0])%nat.

Definition signalled_state : state := default init (run (E := OsEvent.os_event) 1 signalled init).

Lemma contended_run : run 1 contended init = Some contended_state.
Proof. unfold contended_state. by destruct (run 1 contended init) eqn:E; [|vm_compute in E]. Qed.

Lemma signalled_run : run 1 signalled init = Some signalled_state.
Proof. unfold signalled_state. by destruct (run 1 signalled init) eqn:E; [|vm_compute in E]. Qed.

Lemma mutex_exclusion_witness : thread contended_state 0 = Inside /\ 0%nat = 0%nat.
Proof.
  split; [by vm_compute|]. apply (mutex_exclusion 1 (length contended) contended_state 0%nat 0%nat).
  - by vm_compute.
  - exact (run_nsteps _ _ _ _ contended_run).
  - by vm_compute.
  - by vm_compute.
Defined.

Lemma mutex_no_lost_wakeup_witness :
  thread contended_state 1 = Wait 1 /\
  exists u, mutex_step 1 u contended_state <> None /\
    (will_signal (thread contended_state u) = true \/
     (waiters contended_state <> 0 /\ will_read (thread contended_state u) = true)).
Proof.
  split; [by vm_compute|]. apply (mutex_no_lost_wakeup 1 (length contended) contended_state 1%nat 1).
  - by vm_compute.
  - exact (run_nsteps _ _ _ _ contended_run).
  - by vm_compute.
  - by vm_compute.
Defined.

Lemma mutex_quiescent_not_blocked_witness :
  thread signalled_state 1 = Wait 1 /\ lock_word signalled_state = 0 /\
  forall t r, thread signalled_state t = Wait r -> event_blocks (event signalled_state) r = false.
Proof.
  split; [by vm_compute|]. apply (mutex_quiescent_not_blocked 1 (length signalled)).
  - by vm_compute.
  - exact (run_nsteps _ _ _ _ signalled_run).
  - intros [|[|t]]; [left; by vm_compute|right; exists 1; by vm_compute|left; by vm_compute].
Defined.
End MutexSpin.
