(* ===== verification/Results.v ===== *)
(** * Results of operations of the storage engine

    An operation completes, waits for a lock for ever, or stops the server: at
    a failed [ut_a], at [ut_error], or in a bad memory access. *)
From S2P Require Import Prelude.

Inductive res (A : Type) := Ok (a : A) | Blocked | Fault.
#[global] Arguments Ok {A} a.
#[global] Arguments Blocked {A}.
#[global] Arguments Fault {A}.

Definition rbind {A B} (m : res A) (f : A -> res B) : res B :=
  match m with Ok a => f a | Blocked => Blocked | Fault => Fault end.

Notation "'let!' x ':=' m 'in' k" := (rbind m (fun x => k))
  (at level 10, x pattern, m at level 100, k at level 200, only parsing) : mc_scope.

(** [ut_a]: an assertion of the release build. *)
Definition ut_a (b : bool) : res unit := if b then Ok tt else Fault.

(** A memory access through a pointer. *)
Definition deref {A} (o : option A) : res A := match o with Some a => Ok a | None => Fault end.

Lemma rbind_ok {A B} (m : res A) (f : A -> res B) b : rbind m f = Ok b -> exists a, m = Ok a /\ f a = Ok b.
Proof. destruct m; simpl; [|done..]. eauto. Qed.

Lemma ut_a_ok b u : ut_a b = Ok u -> b = true.
Proof. by destruct b. Qed.

Lemma deref_ok {A} (o : option A) a : deref o = Ok a -> o = Some a.
Proof. destruct o; [|done]. by intros [= ->]. Qed.

(** Decompose a completed operation. *)
Ltac inv_ok := repeat match goal with
  | H : rbind _ _ = Ok _ |- _ => apply rbind_ok in H as (? & ? & H)
  | H : ut_a _ = Ok _ |- _ => apply ut_a_ok in H
  | H : deref _ = Ok _ |- _ => apply deref_ok in H
  | H : Ok _ = Ok _ |- _ => injection H as H
  end.
