(* ===== verification/SyncArray.v ===== *)
(** * The wait array of XtraDB (sync/sync0arr.cc, include/sync0arr.ic)

    The cells in which threads register before they suspend themselves on the
    event of a mutex or a read-write lock.  Each operation is one function on
    the array and on the store of lock objects; the operating-system mutex of
    the array is a flag, so that an operation that returns without releasing
    it is seen.  The object a cell points to is used through its request
    type, as the casts of the code do. *)
From stdpp Require Import strings.
From S2P Require Import Prelude Results OsEvent.
Local Open Scope Z_scope.

Module SyncArray.
Import OsEvent.
Local Open Scope mc_scope.

(** ** Lock objects *)

(** Lines 938-946 of sync0sync.h. *)
Definition RW_LOCK_NOT_LOCKED : Z := 350.
Definition RW_LOCK_EX : Z := 351.
Definition RW_LOCK_SHARED : Z := 352.
Definition RW_LOCK_WAIT_EX : Z := 353.
Definition SYNC_MUTEX : Z := 354.
Definition SYNC_PRIO_MUTEX : Z := 355.
Definition PRIO_RW_LOCK_EX : Z := 356.
Definition PRIO_RW_LOCK_SHARED : Z := 357.

Record ib_mutex_t := mkMutex {
  m_lock_word : Z; m_waiters : Z; m_thread_id : Z; m_event : os_event }.

Record rw_lock_debug_t := mkDebug { d_thread_id : Z; d_pass : Z; d_lock_type : Z }.

Record rw_lock_t := mkRwLock {
  rw_lock_word : Z; rw_waiters : Z; rw_writer_thread : Z;
  rw_event : os_event; rw_wait_ex_event : os_event; rw_debug_list : list rw_lock_debug_t }.

(** The priority variants extend their base. *)
Inductive sync_object :=
| Mutex (base : ib_mutex_t)
| PrioMutex (base : ib_mutex_t) (high_priority_event : os_event) (high_priority_waiters : Z)
| RwLock (base : rw_lock_t)
| PrioRwLock (base : rw_lock_t) (high_priority_s_event high_priority_x_event : os_event)
    (high_priority_s_waiters high_priority_x_waiters high_priority_wait_ex_waiter : Z).

(** The store of objects, by address. *)
Notation objects := (gmap Z sync_object).

(** A cast to [ib_mutex_t*]; a priority mutex starts with its base. *)
Definition as_mutex (o : sync_object) : option ib_mutex_t :=
  match o with Mutex m | PrioMutex m _ _ => Some m | _ => None end.

Definition as_rw_lock (o : sync_object) : option rw_lock_t :=
  match o with RwLock l | PrioRwLock l _ _ _ _ _ => Some l | _ => None end.

Definition is_mutex_type (type : Z) : bool := (type =? SYNC_MUTEX) || (type =? SYNC_PRIO_MUTEX).

(** [sync_cell_get_event] (lines 328-355), as the event of the object a
    request type selects and its replacement. *)
Definition object_event (type : Z) (o : sync_object) : option (os_event * (os_event -> sync_object)) :=
  if type =? SYNC_MUTEX then
    match o with
    | Mutex m => Some (m_event m, fun e => Mutex (mkMutex (m_lock_word m) (m_waiters m) (m_thread_id m) e))
    | PrioMutex m h n => Some (m_event m,
        fun e => PrioMutex (mkMutex (m_lock_word m) (m_waiters m) (m_thread_id m) e) h n)
    | _ => None
    end
  else if type =? SYNC_PRIO_MUTEX then
    match o with PrioMutex m h n => Some (h, fun e => PrioMutex m e n) | _ => None end
  else if type =? RW_LOCK_WAIT_EX then
    let set l e := mkRwLock (rw_lock_word l) (rw_waiters l) (rw_writer_thread l) (rw_event l) e (rw_debug_list l) in
    match o with
    | RwLock l => Some (rw_wait_ex_event l, fun e => RwLock (set l e))
    | PrioRwLock l s x ns nx nw => Some (rw_wait_ex_event l, fun e => PrioRwLock (set l e) s x ns nx nw)
    | _ => None
    end
  else if type =? PRIO_RW_LOCK_SHARED then
    match o with PrioRwLock l s x ns nx nw => Some (s, fun e => PrioRwLock l e x ns nx nw) | _ => None end
  else if type =? PRIO_RW_LOCK_EX then
    match o with PrioRwLock l s x ns nx nw => Some (x, fun e => PrioRwLock l s e ns nx nw) | _ => None end
  else
    let set l e := mkRwLock (rw_lock_word l) (rw_waiters l) (rw_writer_thread l) e (rw_wait_ex_event l) (rw_debug_list l) in
    match o with
    | RwLock l => Some (rw_event l, fun e => RwLock (set l e))
    | PrioRwLock l s x ns nx nw => Some (rw_event l, fun e => PrioRwLock (set l e) s x ns nx nw)
    | _ => None
    end.

(** ** The array *)

(** Lines 95-128; a null [wait_object] is 0. *)
Record sync_cell_t := mkCell {
  wait_object : Z; old_wait_mutex : Z; old_wait_rw_lock : Z; request_type : Z;
  file : string; line : Z; cell_thread : Z; waiting : bool; cell_signal_count : Z;
  reservation_time : Z }.

(** Lines 135-153; [os_mutex] is true while a thread holds it. *)
Record sync_array_t := mkArray {
  n_reserved : Z; n_cells : nat; array : list sync_cell_t; os_mutex : bool; res_count : Z }.

Definition empty_cell : sync_cell_t := mkCell 0 0 0 0 EmptyString 0 0 false 0 0.

(** Lines 184-197. *)
Definition sync_array_get_nth_cell (arr : sync_array_t) (n : nat) : res sync_cell_t :=
  let! _ := ut_a (n <? n_cells arr)%nat in
  match array arr !! n with Some c => Ok c | None => Fault end.

(** Lines 226-246. *)
Definition sync_array_enter (arr : sync_array_t) : res sync_array_t :=
  if os_mutex arr then Blocked
  else Ok (mkArray (n_reserved arr) (n_cells arr) (array arr) true (res_count arr)).

Definition sync_array_exit (arr : sync_array_t) : sync_array_t :=
  mkArray (n_reserved arr) (n_cells arr) (array arr) false (res_count arr).

(** The loop over the cells that stops at the first one that satisfies [p]. *)
Fixpoint find_cell (p : sync_cell_t -> bool) (n i : nat) (arr : sync_array_t) : res (option nat) :=
  match n with
  | O => Ok None
  | S n =>
      let! cell := sync_array_get_nth_cell arr i in
      if p cell then Ok (Some i) else find_cell p n (S i) arr
  end.

(** Lines 199-224. *)
Definition sync_array_find_thread (arr : sync_array_t) (thread : Z) : res (option nat) :=
  find_cell (fun cell => negb (wait_object cell =? 0) && (cell_thread cell =? thread)) (n_cells arr) 0 arr.

(** Lines 248-279. *)
Definition sync_array_create (n : nat) : res sync_array_t :=
  let! _ := ut_a (0 <? n)%nat in Ok (mkArray 0 n (replicate n empty_cell) false 0).

(** The counting loop of lines 314-320. *)
Fixpoint count_cells (n i : nat) (arr : sync_array_t) : res Z :=
  match n with
  | O => Ok 0
  | S n =>
      let! cell := sync_array_get_nth_cell arr i in
      let! rest := count_cells n (S i) arr in
      Ok (if wait_object cell =? 0 then rest else rest + 1)
  end.

(** Lines 301-326. *)
Definition sync_array_validate (arr : sync_array_t) : res sync_array_t :=
  let! arr := sync_array_enter arr in
  let! count := count_cells (n_cells arr) 0 arr in
  let! _ := ut_a (count =? n_reserved arr) in Ok (sync_array_exit arr).

(** Lines 281-299. *)
Definition sync_array_free (arr : sync_array_t) : res unit :=
  let! _ := ut_a (n_reserved arr =? 0) in let! _ := sync_array_validate arr in Ok tt.

(** The event of a cell and the store in which it is replaced. *)
Definition sync_cell_get_event (cell : sync_cell_t) (objs : objects) : res os_event :=
  match objs !! wait_object cell with
  | Some o => match object_event (request_type cell) o with Some (e, _) => Ok e | None => Fault end
  | None => Fault
  end.

Definition put_event (cell : sync_cell_t) (e : os_event) (objs : objects) : objects :=
  match objs !! wait_object cell with
  | Some o =>
      match object_event (request_type cell) o with
      | Some (_, set) => <[wait_object cell := set e]> objs
      | None => objs
      end
  | None => objs
  end.

Definition set_cell (arr : sync_array_t) (i : nat) (c : sync_cell_t) : sync_array_t :=
  mkArray (n_reserved arr) (n_cells arr) (<[i := c]> (array arr)) (os_mutex arr) (res_count arr).

Definition add_reserved (d : Z) (arr : sync_array_t) : sync_array_t :=
  mkArray (u64 (n_reserved arr + d)) (n_cells arr) (array arr) (os_mutex arr) (res_count arr).

(** What a thread asks for: the arguments of the call, its id and the time. *)
Record request := mkRequest {
  r_object : Z; r_type : Z; r_file : string; r_line : Z; r_thread : Z; r_now : Z }.

(** Lines 357-425.  [None] is the result [false]. *)
Definition sync_array_reserve_cell (arr : sync_array_t) (objs : objects) (r : request)
    : res (sync_array_t * objects * option nat) :=
  let! _ := ut_a (negb (r_object r =? 0)) in
  let! arr := sync_array_enter arr in
  let arr := mkArray (n_reserved arr) (n_cells arr) (array arr) (os_mutex arr) (u64 (res_count arr + 1)) in
  let! found := find_cell (fun cell => wait_object cell =? 0) (n_cells arr) 0 arr in
  match found with
  | Some i =>
      let! cell := sync_array_get_nth_cell arr i in
      let mutex := is_mutex_type (r_type r) in
      let cell := mkCell (r_object r)
        (if mutex then r_object r else old_wait_mutex cell)
        (if mutex then old_wait_rw_lock cell else r_object r)
        (r_type r) (r_file r) (r_line r) (cell_thread cell) false
        (cell_signal_count cell) (reservation_time cell) in
      let arr := sync_array_exit (add_reserved 1 (set_cell arr i cell)) in
      let! event := sync_cell_get_event cell objs in
      let (event, sig) := os_event_reset event in
      let cell' := mkCell (wait_object cell) (old_wait_mutex cell) (old_wait_rw_lock cell)
        (request_type cell) (file cell) (line cell) (r_thread r) false sig (r_now r) in
      Ok (set_cell arr i cell', put_event cell event objs, Some i)
  | None => Ok (arr, objs, None)
  end.

(** Lines 902-928. *)
Definition sync_array_free_cell (arr : sync_array_t) (index : nat) : res sync_array_t :=
  let! arr := sync_array_enter arr in
  let! cell := sync_array_get_nth_cell arr index in
  let! _ := ut_a (negb (wait_object cell =? 0)) in
  let cell := mkCell 0 (old_wait_mutex cell) (old_wait_rw_lock cell) (request_type cell)
    (file cell) (line cell) (cell_thread cell) false 0 (reservation_time cell) in
  let arr := set_cell arr index cell in
  let! _ := ut_a (0 <? n_reserved arr) in
  Ok (sync_array_exit (add_reserved (-1) arr)).

(** Lines 427-477, up to the wait: the release build. *)
Definition sync_array_wait_begin (arr : sync_array_t) (index : nat) : res sync_array_t :=
  let! arr := sync_array_enter arr in
  let! cell := sync_array_get_nth_cell arr index in
  let! _ := ut_a (negb (wait_object cell =? 0)) in
  let! _ := ut_a (negb (waiting cell)) in
  let cell := mkCell (wait_object cell) (old_wait_mutex cell) (old_wait_rw_lock cell)
    (request_type cell) (file cell) (line cell) (cell_thread cell) true
    (cell_signal_count cell) (reservation_time cell) in
  Ok (sync_array_exit (set_cell arr index cell)).

(** Lines 474-476: the wait on the event, and the release of the cell when it
    is over. *)
Definition sync_array_wait_end (arr : sync_array_t) (objs : objects) (index : nat) : res sync_array_t :=
  let! cell := sync_array_get_nth_cell arr index in
  let! event := sync_cell_get_event cell objs in
  if os_event_wait_blocks event (wait_count event (cell_signal_count cell)) then Blocked
  else sync_array_free_cell arr index.

(** Lines 835-900. *)
Definition sync_arr_cell_can_wake_up (cell : sync_cell_t) (objs : objects) : res bool :=
  match objs !! wait_object cell with
  | None => Fault
  | Some o =>
      if is_mutex_type (request_type cell) then
        match as_mutex o with Some m => Ok (m_lock_word m =? 0) | None => Fault end
      else if (request_type cell =? RW_LOCK_EX) || (request_type cell =? PRIO_RW_LOCK_EX) then
        match as_rw_lock o with Some l => Ok (0 <? rw_lock_word l) | None => Fault end
      else if request_type cell =? RW_LOCK_WAIT_EX then
        match as_rw_lock o with Some l => Ok (rw_lock_word l =? 0) | None => Fault end
      else if (request_type cell =? RW_LOCK_SHARED) || (request_type cell =? PRIO_RW_LOCK_SHARED) then
        match as_rw_lock o with Some l => Ok (0 <? rw_lock_word l) | None => Fault end
      else Fault
  end.

(** The loop of lines 961-981.  The fuel is the number of cells: the loop
    stops at the last reserved one. *)
Fixpoint wake_loop (fuel i : nat) (count : Z) (arr : sync_array_t) (objs : objects) : res objects :=
  if count <? n_reserved arr then
    match fuel with
    | O => Fault
    | S fuel =>
        let! cell := sync_array_get_nth_cell arr i in
        if wait_object cell =? 0 then wake_loop fuel (S i) count arr objs
        else
          let! wake := sync_arr_cell_can_wake_up cell objs in
          let! objs :=
            (if (wake : bool) then
               let! event := sync_cell_get_event cell objs in Ok (put_event cell (os_event_set event) objs)
             else Ok objs) in
          wake_loop fuel (S i) (count + 1) arr objs
    end
  else Ok objs.

(** Lines 944-983. *)
Definition sync_array_wake_threads_if_sema_free_low (arr : sync_array_t) (objs : objects)
    : res (sync_array_t * objects) :=
  let! arr := sync_array_enter arr in
  let! objs := wake_loop (n_cells arr) 0 0 arr objs in
  Ok (sync_array_exit arr, objs).

(** ** All arrays *)

(** Lines 985-1005. *)
Fixpoint sync_arr_wake_threads_if_sema_free (sync_wait_array : list sync_array_t) (objs : objects)
    : res (list sync_array_t * objects) :=
  match sync_wait_array with
  | [] => Ok ([], objs)
  | arr :: rest =>
      let! (arr, objs) := sync_array_wake_threads_if_sema_free_low arr objs in
      let! (rest, objs) := sync_arr_wake_threads_if_sema_free rest objs in
      Ok (arr :: rest, objs)
  end.

(** Line 1265. *)
Definition n_slots (n_threads sync_array_size : Z) : Z := 1 + (n_threads - 1) / sync_array_size.

(** Lines 1241-1272. *)
Definition sync_array_init (srv_sync_array_size n_threads : Z) : res (list sync_array_t) :=
  let! _ := ut_a (0 <? srv_sync_array_size) in
  let! _ := ut_a (0 <? n_threads) in
  let! arr := sync_array_create (Z.to_nat (n_slots n_threads srv_sync_array_size)) in
  Ok (replicate (Z.to_nat srv_sync_array_size) arr).

(** Lines 1274-1289. *)
Fixpoint sync_array_close (sync_wait_array : list sync_array_t) : res unit :=
  match sync_wait_array with
  | [] => Ok tt
  | arr :: rest => let! _ := sync_array_free arr in sync_array_close rest
  end.

(** Lines 1310-1327: the static counter selects the array in turn.  The atomic
    increment returns the new value. *)
Definition sync_array_get (sync_array_size count : Z) : Z * nat :=
  let count := u64 (count + 1) in (count, Z.to_nat (count mod sync_array_size)).

(** Lines 40-63 of sync0arr.ic: [fuel] counts the rounds of the loop. *)
Fixpoint reserve_rounds (fuel : nat) (sync_array_size count : Z) (arrs : list sync_array_t)
    (objs : objects) (r : request) : res (Z * list sync_array_t * objects * option (nat * nat)) :=
  match fuel with
  | O => Ok (count, arrs, objs, None)
  | S fuel =>
      let (count, k) := sync_array_get sync_array_size count in
      match arrs !! k with
      | None => Fault
      | Some arr =>
          let! (arr, objs, found) := sync_array_reserve_cell arr objs r in
          match found with
          | Some i => Ok (count, <[k := arr]> arrs, objs, Some (k, i))
          | None => reserve_rounds fuel sync_array_size count (<[k := arr]> arrs) objs r
          end
      end
  end.

Definition sync_array_get_and_reserve_cell (srv_sync_array_size count : Z) (arrs : list sync_array_t)
    (objs : objects) (r : request) : res (Z * list sync_array_t * objects * (nat * nat)) :=
  let! (count, arrs, objs, found) :=
    reserve_rounds (Z.to_nat srv_sync_array_size) srv_sync_array_size count arrs objs r in
  match found with Some ki => Ok (count, arrs, objs, ki) | None => Fault end.

(** ** The invariant: the counter equals the number of reserved cells *)

Definition reserved (c : sync_cell_t) : Prop := wait_object c <> 0.

#[global] Instance reserved_dec c : Decision (reserved c).
Proof. unfold reserved. apply _. Defined.

Definition count_reserved (l : list sync_cell_t) : Z := Z.of_nat (length (filter reserved l)).

Record wf (arr : sync_array_t) : Prop := Wf {
  wf_len : length (array arr) = n_cells arr;
  wf_count : n_reserved arr = count_reserved (array arr);
  wf_cap : Z.of_nat (n_cells arr) < 2 ^ 64
}.

Lemma get_nth_cell_ok arr n c :
  length (array arr) = n_cells arr -> array arr !! n = Some c -> sync_array_get_nth_cell arr n = Ok c.
Proof.
  intros Hl Hc. unfold sync_array_get_nth_cell. rewrite Hc.
  pose proof (lookup_lt_Some _ _ _ Hc). by rewrite (proj2 (Nat.ltb_lt _ _)) by lia.
Qed.

Lemma get_nth_cell_inv arr n c : sync_array_get_nth_cell arr n = Ok c -> array arr !! n = Some c.
Proof. unfold sync_array_get_nth_cell. intros H. inv_ok. destruct (array arr !! n); by simplify_eq. Qed.

(** The scan of the array is the first match of the list of cells. *)
Lemma find_cell_drop p arr n i :
  length (array arr) = n_cells arr -> (i + n = n_cells arr)%nat ->
  find_cell p n i arr = Ok ((fun x => (i + x.1)%nat) <$> list_find p (drop i (array arr))).
Proof.
  intros Hl. revert i. induction n as [|n IH]; intros i Hi; simpl.
  - rewrite drop_ge by lia. done.
  - destruct (lookup_lt_is_Some_2 (array arr) i ltac:(lia)) as [c Hc].
    rewrite (get_nth_cell_ok _ _ _ Hl Hc), (drop_S _ _ _ Hc). cbn [rbind list_find].
    destruct (decide (p c)) as [Hp|Hp].
    + rewrite (Is_true_true_1 _ Hp). simpl. by rewrite Nat.add_0_r.
    + rewrite (proj1 (Is_true_false _) Hp), IH by lia. f_equal.
      destruct (list_find p (drop (S i) (array arr))) as [[j y]|]; simpl; [|done]. f_equal. lia.
Qed.

Lemma find_cell_spec p arr :
  length (array arr) = n_cells arr ->
  find_cell p (n_cells arr) 0 arr = Ok (fst <$> list_find p (array arr)).
Proof.
  intros Hl. rewrite (find_cell_drop p arr) by (done || lia). rewrite drop_0.
  by destruct (list_find p (array arr)) as [[j y]|].
Qed.

Lemma find_cell_ext p arr arr' n i :
  n_cells arr' = n_cells arr -> array arr' = array arr -> find_cell p n i arr' = find_cell p n i arr.
Proof.
  intros H1 H2. revert i. induction n as [|n IH]; intros i; simpl; [done|].
  unfold sync_array_get_nth_cell. rewrite H1, H2, IH. done.
Qed.

Lemma count_cells_drop arr n i :
  length (array arr) = n_cells arr -> (i + n = n_cells arr)%nat ->
  count_cells n i arr = Ok (count_reserved (drop i (array arr))).
Proof.
  intros Hl. revert i. induction n as [|n IH]; intros i Hi; simpl.
  - rewrite drop_ge by lia. done.
  - destruct (lookup_lt_is_Some_2 (array arr) i ltac:(lia)) as [c Hc].
    rewrite (get_nth_cell_ok _ _ _ Hl Hc), (drop_S _ _ _ Hc). cbn [rbind]. rewrite IH by lia. cbn [rbind].
    f_equal. unfold count_reserved. rewrite filter_cons.
    destruct (Z.eqb_spec (wait_object c) 0); case_decide; unfold reserved in *; simpl; (done || lia).
Qed.

Lemma count_insert l i c c' :
  l !! i = Some c ->
  count_reserved (<[i := c']> l) =
    count_reserved l - (if decide (reserved c) then 1 else 0) + (if decide (reserved c') then 1 else 0).
Proof.
  intros Hc. unfold count_reserved. pose proof (lookup_lt_Some _ _ _ Hc).
  assert (length (filter reserved l) = length (filter reserved (take i l ++ c :: drop (S i) l))) as ->
    by (by rewrite take_drop_middle).
  rewrite (insert_take_drop l i c') by done.
  rewrite !filter_app, !length_app, !filter_cons. repeat case_decide; simpl; lia.
Qed.

Lemma count_le l : 0 <= count_reserved l <= Z.of_nat (length l).
Proof. unfold count_reserved. pose proof (length_filter reserved l). lia. Qed.

(** A free cell exists exactly when the counter is below the size. *)
Lemma count_full l : count_reserved l = Z.of_nat (length l) <-> Forall reserved l.
Proof.
  unfold count_reserved. split.
  - intros H. apply Forall_forall. intros c Hc.
    destruct (decide (reserved c)) as [|Hn]; [done|].
    pose proof (length_filter_lt reserved l c Hc Hn). lia.
  - induction 1 as [|c l Hc Hl IH]; [done|]. rewrite filter_cons_True by done. simpl. lia.
Qed.

(** ** Reservation and release *)

Definition valid_type (type : Z) : Prop := RW_LOCK_EX <= type <= PRIO_RW_LOCK_SHARED.

(** The object exists and the request type is one its event can be taken by. *)
Definition well_typed (objs : objects) (type obj : Z) : Prop :=
  valid_type type /\ exists o, objs !! obj = Some o /\ is_Some (object_event type o).

Definition unlocked (arr : sync_array_t) : Prop := wf arr /\ os_mutex arr = false.

Lemma enter_ok arr : os_mutex arr = false ->
  sync_array_enter arr = Ok (mkArray (n_reserved arr) (n_cells arr) (array arr) true (res_count arr)).
Proof. intros H. unfold sync_array_enter. by rewrite H. Qed.

Lemma enter_inv arr arr' : sync_array_enter arr = Ok arr' ->
  os_mutex arr = false /\ arr' = mkArray (n_reserved arr) (n_cells arr) (array arr) true (res_count arr).
Proof. unfold sync_array_enter. destruct (os_mutex arr); [done|]. by intros [= <-]. Qed.

Lemma create_wf n arr : Z.of_nat n < 2 ^ 64 -> sync_array_create n = Ok arr -> unlocked arr.
Proof.
  unfold sync_array_create. intros Hn H. inv_ok. subst arr. split; [|done].
  constructor; simpl; [apply length_replicate| |done].
  assert (Forall (fun c => ~ reserved c) (replicate n empty_cell)) as Hf
    by (apply Forall_replicate; unfold reserved; simpl; lia).
  unfold count_reserved. induction Hf as [|c l Hc Hl IH]; [done|]. by rewrite filter_cons_False.
Qed.

Lemma validate_ok arr : unlocked arr -> sync_array_validate arr = Ok arr.
Proof.
  intros [[Hl Hc Hcap] Hm]. unfold sync_array_validate. rewrite enter_ok by done. cbn [rbind n_cells].
  rewrite count_cells_drop by done. cbn [rbind n_reserved array]. rewrite drop_0, <- Hc, Z.eqb_refl.
  destruct arr; simpl in *. by subst.
Qed.

(** A cell that changes its reservation moves the counter by one. *)
Lemma wf_update arr i c c' d :
  wf arr -> array arr !! i = Some c -> d = (if decide (reserved c') then 1 else 0) - (if decide (reserved c) then 1 else 0) ->
  wf (sync_array_exit (add_reserved d (set_cell arr i c'))).
Proof.
  intros [Hl Hc Hcap] Hi ->. pose proof (count_insert _ _ _ c' Hi) as Hn.
  pose proof (count_le (<[i:=c']> (array arr))) as Hle. rewrite length_insert in Hle.
  constructor; simpl; [by rewrite length_insert| |done].
  rewrite Hn in *. unfold u64. rewrite wrap_u_small; [|lia]. lia.
Qed.

Lemma wf_set_cell arr i c c' :
  wf arr -> array arr !! i = Some c -> (reserved c <-> reserved c') ->
  wf (set_cell arr i c').
Proof.
  intros [Hl Hc Hcap] Hi Hiff. constructor; simpl; [by rewrite length_insert| |done].
  rewrite (count_insert _ _ _ _ Hi), Hc. repeat case_decide; try tauto; lia.
Qed.

Lemma wf_ext arr arr' :
  n_reserved arr' = n_reserved arr -> n_cells arr' = n_cells arr -> array arr' = array arr ->
  wf arr -> wf arr'.
Proof. intros H1 H2 H3 [Hl Hc Hcap]. constructor; by rewrite ?H1, ?H2, ?H3. Qed.

Lemma not_free c : ~ Is_true (wait_object c =? 0) <-> reserved c.
Proof. unfold reserved. destruct (Z.eqb_spec (wait_object c) 0); simpl; tauto. Qed.

Lemma not_free_b c : negb (wait_object c =? 0) = true <-> reserved c.
Proof. unfold reserved. by rewrite negb_true_iff, Z.eqb_neq. Qed.

(** The first free cell of an array, if there is one. *)
Lemma find_free arr :
  wf arr -> n_reserved arr < Z.of_nat (n_cells arr) ->
  exists i c, find_cell (fun cell => wait_object cell =? 0) (n_cells arr) 0 arr = Ok (Some i) /\
    array arr !! i = Some c /\ ~ reserved c /\
    forall j c', (j < i)%nat -> array arr !! j = Some c' -> reserved c'.
Proof.
  intros [Hl Hc Hcap] Hlt. rewrite find_cell_spec by done.
  destruct (list_find (fun cell => wait_object cell =? 0) (array arr)) as [[i c]|] eqn:Ef.
  - exists i, c. apply list_find_Some in Ef as (Hi & Hz & Hb). unfold reserved.
    split_and!; [done|done| |].
    + apply Is_true_true, Z.eqb_eq in Hz. lia.
    + intros j c' Hj Hc'. by apply not_free, (Hb j c').
  - apply list_find_None in Ef. exfalso.
    assert (Forall reserved (array arr)) as Hf.
    { eapply Forall_impl; [exact Ef|]. intros c. apply not_free. }
    apply count_full in Hf. lia.
Qed.

Lemma find_free_none arr :
  wf arr -> n_reserved arr = Z.of_nat (n_cells arr) ->
  find_cell (fun cell => wait_object cell =? 0) (n_cells arr) 0 arr = Ok None.
Proof.
  intros [Hl Hc Hcap] Hfull. rewrite find_cell_spec by done. do 2 f_equal.
  apply fmap_None, list_find_None. rewrite <- Hl, Hc in Hfull. apply count_full in Hfull.
  eapply Forall_impl; [exact Hfull|]. intros c. apply not_free.
Qed.

(** The event a request waits on. *)
Definition request_event (objs : objects) (type obj : Z) : option os_event :=
  o ← objs !! obj; fst <$> object_event type o.

Lemma well_typed_event objs type obj :
  well_typed objs type obj -> is_Some (request_event objs type obj).
Proof.
  intros [_ (o & Ho & [[e f] He])]. unfold request_event. rewrite Ho. simpl. rewrite He. by exists e.
Qed.

Lemma get_event_request cell objs e :
  sync_cell_get_event cell objs = Ok e <-> request_event objs (request_type cell) (wait_object cell) = Some e.
Proof.
  unfold sync_cell_get_event, request_event. destruct (objs !! wait_object cell) as [o|]; simpl; [|done].
  destruct (object_event (request_type cell) o) as [[e' f]|]; simpl; [|done]. split; intros [= ->]; done.
Qed.

(** Replacing the event of an object and reading it back. *)
Lemma object_event_set type o e f e' :
  object_event type o = Some (e, f) -> exists g, object_event type (f e') = Some (e', g).
Proof.
  unfold object_event. intros H. repeat case_match; simplify_eq/=; eexists; reflexivity.
Qed.

Lemma put_event_same cell e objs :
  is_Some (request_event objs (request_type cell) (wait_object cell)) ->
  request_event (put_event cell e objs) (request_type cell) (wait_object cell) = Some e.
Proof.
  unfold request_event, put_event. destruct (objs !! wait_object cell) as [o|] eqn:Eo; simpl; [|by intros []].
  destruct (object_event (request_type cell) o) as [[e0 f]|] eqn:Ee; simpl; [|by intros []]. intros _.
  rewrite lookup_insert_eq. simpl. destruct (object_event_set _ _ _ _ e Ee) as [g ->]. done.
Qed.

Lemma reserve_ok arr objs r e :
  unlocked arr -> n_reserved arr < Z.of_nat (n_cells arr) ->
  r_object r <> 0 -> request_event objs (r_type r) (r_object r) = Some e ->
  exists i arr' c0 c, let objs' := put_event c (os_event_reset e).1 objs in
    sync_array_reserve_cell arr objs r = Ok (arr', objs', Some i) /\ unlocked arr' /\
    n_reserved arr' = n_reserved arr + 1 /\ n_cells arr' = n_cells arr /\
    array arr !! i = Some c0 /\ ~ reserved c0 /\
    (forall j c', (j < i)%nat -> array arr !! j = Some c' -> reserved c') /\
    array arr' = <[i := c]> (array arr) /\ wait_object c = r_object r /\ request_type c = r_type r /\
    cell_thread c = r_thread r /\ waiting c = false /\ cell_signal_count c = (os_event_reset e).2.
Proof.
  intros [Hwf Hm] Hlt Hobj He. destruct (find_free arr Hwf Hlt) as (i & c0 & Hf & Hi & Hn & Hfirst).
  unfold sync_array_reserve_cell. rewrite (proj2 (Z.eqb_neq _ _) Hobj), enter_ok by done.
  cbn [rbind ut_a negb n_cells n_reserved array os_mutex res_count].
  assert (wf (mkArray (n_reserved arr) (n_cells arr) (array arr) true (u64 (res_count arr + 1)))) as Hwf'
    by (by apply wf_ext with arr).
  rewrite (find_cell_ext _ arr) by done. rewrite Hf. cbn [rbind].
  rewrite (get_nth_cell_ok _ i c0) by (done || apply Hwf'). cbn [rbind].
  match goal with |- context [sync_cell_get_event ?c objs] => set (cell := c) end.
  rewrite (proj2 (get_event_request cell objs e)) by done. cbn [rbind].
  destruct (os_event_reset e) as [e' sig] eqn:Ereset.
  eexists i, _, c0, (mkCell (r_object r) (old_wait_mutex cell) (old_wait_rw_lock cell)
    (r_type r) (r_file r) (r_line r) (r_thread r) false sig (r_now r)). split; [reflexivity|].
  assert (reserved cell) as Hres by done.
  split_and!; try done; [|simpl|by simpl; rewrite list_insert_insert_eq].
  - split; [|done]. apply (wf_set_cell _ _ cell); [| |done].
    + eapply wf_update; [exact Hwf'|exact Hi|]. rewrite decide_True, decide_False by done. done.
    + simpl. rewrite list_lookup_insert_eq; [done|]. by eapply lookup_lt_Some.
  - unfold u64. apply wrap_u_small. pose proof (wf_cap _ Hwf).
    rewrite (wf_count _ Hwf) in *. pose proof (count_le (array arr)). lia.
Qed.

(** A reservation in a full array keeps the mutex of the array. *)
Lemma reserve_full arr objs r :
  unlocked arr -> n_reserved arr = Z.of_nat (n_cells arr) -> r_object r <> 0 ->
  sync_array_reserve_cell arr objs r =
    Ok (mkArray (n_reserved arr) (n_cells arr) (array arr) true (u64 (res_count arr + 1)), objs, None).
Proof.
  intros [Hwf Hm] Hfull Hobj. unfold sync_array_reserve_cell.
  rewrite (proj2 (Z.eqb_neq _ _) Hobj), enter_ok by done.
  cbn [rbind ut_a negb n_cells n_reserved array os_mutex res_count].
  rewrite (find_cell_ext _ arr), find_free_none by done. done.
Qed.

Lemma free_cell_ok arr i c :
  unlocked arr -> array arr !! i = Some c -> reserved c ->
  exists arr' c', sync_array_free_cell arr i = Ok arr' /\ unlocked arr' /\
    n_reserved arr' = n_reserved arr - 1 /\ n_cells arr' = n_cells arr /\
    array arr' = <[i := c']> (array arr) /\ ~ reserved c'.
Proof.
  intros [Hwf Hm] Hi Hr. unfold sync_array_free_cell. rewrite enter_ok by done. cbn [rbind].
  assert (wf (mkArray (n_reserved arr) (n_cells arr) (array arr) true (res_count arr))) as Hwf'
    by (by apply wf_ext with arr).
  rewrite (get_nth_cell_ok _ i c) by (done || apply Hwf'). cbn [rbind].
  rewrite (proj2 (Z.eqb_neq _ _) Hr). cbn [negb ut_a rbind].
  match goal with |- context [set_cell _ i ?x] => set (cell := x) end.
  assert (~ reserved cell) as Hn by (unfold reserved; simpl; lia).
  pose proof (wf_update _ i c cell (-1) Hwf' Hi) as Hu.
  rewrite decide_False, decide_True in Hu by done. specialize (Hu eq_refl).
  assert (0 < n_reserved arr) as Hpos.
  { pose proof (count_insert (array arr) i c cell Hi) as H1. rewrite decide_True, decide_False in H1 by done.
    pose proof (count_le (<[i:=cell]> (array arr))). rewrite (wf_count _ Hwf). lia. }
  cbn [n_reserved set_cell]. rewrite (proj2 (Z.ltb_lt _ _) Hpos). cbn [ut_a rbind].
  eexists _, cell. split_and!; try done. simpl. pose proof (wf_cap _ Hwf).
  rewrite (wf_count _ Hwf) in *. pose proof (count_le (array arr)). pose proof (wf_len _ Hwf).
  unfold u64. rewrite wrap_u_small; lia.
Qed.

(** ** Sequences of operations *)

Inductive op :=
| OpReserve (r : request) | OpWaitBegin (i : nat) | OpWaitEnd (i : nat) | OpFree (i : nat) | OpWake.

Definition exec (o : op) (s : sync_array_t * objects) : res (sync_array_t * objects) :=
  let (arr, objs) := s in
  match o with
  | OpReserve r => let! (arr, objs, _) := sync_array_reserve_cell arr objs r in Ok (arr, objs)
  | OpWaitBegin i => let! arr := sync_array_wait_begin arr i in Ok (arr, objs)
  | OpWaitEnd i => let! arr := sync_array_wait_end arr objs i in Ok (arr, objs)
  | OpFree i => let! arr := sync_array_free_cell arr i in Ok (arr, objs)
  | OpWake => sync_array_wake_threads_if_sema_free_low arr objs
  end.

Fixpoint execs (os : list op) (s : sync_array_t * objects) : res (sync_array_t * objects) :=
  match os with [] => Ok s | o :: os => let! s := exec o s in execs os s end.

(** The mutex of the array is free, or was left locked by a reservation that
    found every cell taken. *)
Definition array_inv (arr : sync_array_t) : Prop :=
  wf arr /\ (os_mutex arr = true -> n_reserved arr = Z.of_nat (n_cells arr)).

Lemma free_preserves arr i arr' : wf arr -> sync_array_free_cell arr i = Ok arr' -> unlocked arr'.
Proof.
  intros Hwf H. pose proof H as H'. unfold sync_array_free_cell in H'. inv_ok.
  apply enter_inv in H0 as [Hm ->]. apply get_nth_cell_inv in H1. simpl in H1.
  destruct (free_cell_ok arr i x0) as (arr1 & c & E & Hu & _); [done|done| |].
  - by apply not_free_b.
  - rewrite E in H. by injection H as <-.
Qed.

Lemma wait_begin_preserves arr i arr' : wf arr -> sync_array_wait_begin arr i = Ok arr' -> unlocked arr'.
Proof.
  intros Hwf H. unfold sync_array_wait_begin in H. inv_ok.
  apply enter_inv in H0 as [Hm ->]. apply get_nth_cell_inv in H1. simpl in H1. subst arr'.
  split; [|done]. eapply wf_ext, (wf_set_cell arr i x0); try done.
Qed.

Lemma reserve_preserves arr objs r arr' objs' found :
  wf arr -> sync_array_reserve_cell arr objs r = Ok (arr', objs', found) ->
  array_inv arr' /\ n_cells arr' = n_cells arr.
Proof.
  intros Hwf H. pose proof H as H'. unfold sync_array_reserve_cell in H'. inv_ok.
  apply enter_inv in H1 as [Hm ->]. assert (r_object r <> 0) as Hobj by (apply Z.eqb_neq; by destruct (r_object r =? 0)).
  assert (unlocked arr) as Hu by done.
  destruct (decide (n_reserved arr = Z.of_nat (n_cells arr))) as [Hfull|Hne].
  - rewrite reserve_full in H by done. simplify_eq. split; [split; [by apply wf_ext with arr|done]|done].
  - assert (n_reserved arr < Z.of_nat (n_cells arr)) as Hlt.
    { pose proof (count_le (array arr)). rewrite (wf_count _ Hwf), <- (wf_len _ Hwf) in *. lia. }
    destruct (request_event objs (r_type r) (r_object r)) as [e|] eqn:Ee.
    + destruct (reserve_ok arr objs r e Hu Hlt Hobj Ee) as (i & arr1 & c0 & c & E & [Hwf1 Hm1] & _ & Hn & _).
      rewrite E in H. simplify_eq. split; [split; [done|by rewrite Hm1]|done].
    + destruct (find_free arr Hwf Hlt) as (i & c0 & Hf & Hi & _).
      cbn [n_reserved n_cells array os_mutex] in H2. rewrite (find_cell_ext _ arr), Hf in H2 by done.
      injection H2 as <-. inv_ok. apply get_event_request in H2. simpl in H2. congruence.
Qed.

Lemma wake_preserves arr objs arr' objs' :
  wf arr -> sync_array_wake_threads_if_sema_free_low arr objs = Ok (arr', objs') -> unlocked arr'.
Proof.
  intros Hwf H. unfold sync_array_wake_threads_if_sema_free_low in H. inv_ok.
  apply enter_inv in H0 as [Hm ->]. simplify_eq. split; [|done]. by apply wf_ext with arr.
Qed.

Lemma exec_preserves o arr objs arr' objs' :
  array_inv arr -> exec o (arr, objs) = Ok (arr', objs') -> array_inv arr'.
Proof.
  intros [Hwf _] H. destruct o; simpl in H; inv_ok.
  - destruct x as [[arr1 objs1] found]. simplify_eq. by eapply reserve_preserves.
  - simplify_eq. apply wait_begin_preserves in H0 as [? Hm]; [|done]. split; [done|by rewrite Hm].
  - simplify_eq. unfold sync_array_wait_end in H0. inv_ok. case_match; [done|].
    apply free_preserves in H0 as [? Hm]; [|done]. split; [done|by rewrite Hm].
  - simplify_eq. apply free_preserves in H0 as [? Hm]; [|done]. split; [done|by rewrite Hm].
  - apply wake_preserves in H as [? Hm]; [|done]. split; [done|by rewrite Hm].
Qed.

Lemma execs_preserve os arr objs arr' objs' :
  array_inv arr -> execs os (arr, objs) = Ok (arr', objs') -> array_inv arr'.
Proof.
  revert arr objs. induction os as [|o os IH]; intros arr objs Hi H; simpl in H; [by simplify_eq|].
  inv_ok. destruct x as [arr1 objs1]. eapply IH, H. by eapply exec_preserves.
Qed.

(** C20: Whatever threads reserve, wait for, release and wake, the counter of an
    array equals the number of its reserved cells: validation succeeds, unless
    a reservation in a full array has left the mutex of the array locked. *)
Theorem array_validates n arr objs os arr' objs' :
  Z.of_nat n < 2 ^ 64 -> sync_array_create n = Ok arr -> execs os (arr, objs) = Ok (arr', objs') ->
  0 <= n_reserved arr' <= Z.of_nat (n_cells arr') /\
  (sync_array_validate arr' = Ok arr' \/
   (os_mutex arr' = true /\ n_reserved arr' = Z.of_nat (n_cells arr'))).
Proof.
  intros Hn Hc He. apply create_wf in Hc as [Hwf Hm]; [|done].
  assert (array_inv arr') as [Hwf' Hl] by (eapply execs_preserve, He; split; [done|by rewrite Hm]).
  split.
  - rewrite (wf_count _ Hwf'), <- (wf_len _ Hwf'). apply count_le.
  - destruct (os_mutex arr') eqn:Em; [right; auto|left; by apply validate_ok].
Qed.

(** A reservation in a full array returns [false] and keeps the mutex of the
    array: no operation on that array completes afterwards. *)
Theorem full_array_locks arr objs r :
  unlocked arr -> n_reserved arr = Z.of_nat (n_cells arr) -> r_object r <> 0 ->
  exists arr', sync_array_reserve_cell arr objs r = Ok (arr', objs, None) /\
    sync_array_validate arr' = Blocked /\
    forall i r', r_object r' <> 0 ->
      sync_array_free_cell arr' i = Blocked /\ sync_array_wait_begin arr' i = Blocked /\
      sync_array_reserve_cell arr' objs r' = Blocked /\
      sync_array_wake_threads_if_sema_free_low arr' objs = Blocked.
Proof.
  intros Hu Hfull Hobj. eexists. split; [by apply reserve_full|]. split; [done|].
  intros i r' Hr'. split_and!; try done. unfold sync_array_reserve_cell.
  by rewrite (proj2 (Z.eqb_neq _ _) Hr').
Qed.

(** ** The periodic wake-up *)

Lemma object_event_other type type' o e f e' :
  object_event type o = Some (e, f) ->
  fst <$> object_event type' (f e') = Some e' \/
  fst <$> object_event type' (f e') = fst <$> object_event type' o.
Proof.
  unfold object_event. intros H. repeat case_match; simplify_eq/=; by auto.
Qed.

Lemma object_event_words type o e f e' :
  object_event type o = Some (e, f) ->
  m_lock_word <$> as_mutex (f e') = m_lock_word <$> as_mutex o /\
  rw_lock_word <$> as_rw_lock (f e') = rw_lock_word <$> as_rw_lock o.
Proof. unfold object_event. intros H. repeat case_match; simplify_eq/=; done. Qed.

Lemma put_event_other cell e objs t a :
  request_event (put_event cell e objs) t a = Some e /\ a = wait_object cell \/
  request_event (put_event cell e objs) t a = request_event objs t a.
Proof.
  unfold request_event, put_event. destruct (objs !! wait_object cell) as [o|] eqn:Eo; [|by right].
  destruct (object_event (request_type cell) o) as [[e0 f]|] eqn:Ee; [|by right].
  destruct (decide (wait_object cell = a)) as [<-|Hne]; [|right; by rewrite lookup_insert_ne].
  rewrite lookup_insert_eq, Eo. simpl. destruct (object_event_other _ t _ _ _ e Ee); by auto.
Qed.

Lemma put_event_can_wake cell e objs c :
  sync_arr_cell_can_wake_up c (put_event cell e objs) = sync_arr_cell_can_wake_up c objs.
Proof.
  unfold sync_arr_cell_can_wake_up, put_event. destruct (objs !! wait_object cell) as [o|] eqn:Eo; [|done].
  destruct (object_event (request_type cell) o) as [[e0 f]|] eqn:Ee; [|done].
  destruct (decide (wait_object cell = wait_object c)) as [<-|Hne]; [|by rewrite lookup_insert_ne].
  rewrite lookup_insert_eq, Eo. destruct (object_event_words _ _ _ _ e Ee) as [Hm Hr].
  destruct (as_mutex (f e)), (as_mutex o), (as_rw_lock (f e)), (as_rw_lock o); simplify_eq/=;
    rewrite ?Hm, ?Hr; done.
Qed.

(** A cell whose object exists, has a readable lock word and an event. *)
Definition wakeable (objs : objects) (c : sync_cell_t) : Prop :=
  (exists b, sync_arr_cell_can_wake_up c objs = Ok b) /\
  is_Some (request_event objs (request_type c) (wait_object c)).

Lemma well_typed_wakeable objs c :
  well_typed objs (request_type c) (wait_object c) -> wakeable objs c.
Proof.
  intros H. split; [|by apply well_typed_event]. destruct H as [Hv (o & Ho & [[e f] He])].
  unfold sync_arr_cell_can_wake_up. rewrite Ho. unfold object_event in He.
  unfold valid_type, is_mutex_type, RW_LOCK_EX, PRIO_RW_LOCK_SHARED, RW_LOCK_SHARED, RW_LOCK_WAIT_EX,
    SYNC_MUTEX, SYNC_PRIO_MUTEX, PRIO_RW_LOCK_EX, PRIO_RW_LOCK_SHARED in *.
  repeat case_match; simplify_eq/=; eauto; lia.
Qed.

(** No signal count is at its maximum. *)
Definition settable (objs : objects) : Prop :=
  forall t a e, request_event objs t a = Some e -> is_set (os_event_set e) = true.

Lemma set_again e : is_set e = true -> os_event_set e = e.
Proof. intros H. unfold os_event_set. by rewrite H. Qed.

Lemma put_event_settable cell e objs :
  settable objs -> is_set e = true -> settable (put_event cell e objs).
Proof.
  intros Hs He t a e' H. destruct (put_event_other cell e objs t a) as [[E _]|E]; rewrite E in H.
  - simplify_eq. by rewrite set_again.
  - by eapply Hs.
Qed.

Lemma put_event_wakeable cell e objs c : wakeable objs c -> wakeable (put_event cell e objs) c.
Proof.
  intros [Hb He]. split; [by rewrite put_event_can_wake|].
  destruct (put_event_other cell e objs (request_type c) (wait_object c)) as [[-> _]| ->]; by eauto.
Qed.

(** What one more cell of the loop does to the store. *)
Record woken (cells : list sync_cell_t) (objs objs' : objects) : Prop := Woken {
  woken_words : forall c, sync_arr_cell_can_wake_up c objs' = sync_arr_cell_can_wake_up c objs;
  woken_set : forall c, c ∈ cells -> reserved c -> sync_arr_cell_can_wake_up c objs = Ok true ->
    exists e, request_event objs' (request_type c) (wait_object c) = Some e /\ is_set e = true;
  woken_keep : forall t a e, request_event objs t a = Some e -> is_set e = true ->
    exists e', request_event objs' t a = Some e' /\ is_set e' = true;
  woken_only : forall t a, request_event objs' t a = request_event objs t a \/
    exists c, c ∈ cells /\ reserved c /\ wait_object c = a /\ sync_arr_cell_can_wake_up c objs = Ok true
}.

Lemma woken_skip c cells objs objs' :
  (reserved c -> sync_arr_cell_can_wake_up c objs <> Ok true) ->
  woken cells objs objs' -> woken (c :: cells) objs objs'.
Proof.
  intros Hc [W1 W2 W3 W4]. constructor; [done| |done|].
  - intros c' [->|Hc']%elem_of_cons Hr Hw; [by destruct Hc|by apply W2].
  - intros t a. destruct (W4 t a) as [?|(c' & Hc' & H)]; [by left|right]. exists c'.
    split; [by right|done].
Qed.

Lemma woken_wake c cells objs objs' e :
  reserved c -> sync_arr_cell_can_wake_up c objs = Ok true ->
  request_event objs (request_type c) (wait_object c) = Some e -> is_set (os_event_set e) = true ->
  woken cells (put_event c (os_event_set e) objs) objs' -> woken (c :: cells) objs objs'.
Proof.
  intros Hr Hw He Hset [W1 W2 W3 W4].
  assert (forall c', sync_arr_cell_can_wake_up c' (put_event c (os_event_set e) objs) =
    sync_arr_cell_can_wake_up c' objs) as Hsame by (intros; apply put_event_can_wake).
  constructor.
  - intros c'. by rewrite W1.
  - intros c' [->|Hc']%elem_of_cons Hr' Hw'; [|apply W2; [done|done|by rewrite Hsame]].
    apply W3 with (os_event_set e); [|done]. apply put_event_same. by exists e.
  - intros t a e' He' Hs'. destruct (put_event_other c (os_event_set e) objs t a) as [[E _]|E].
    + by apply W3 with (os_event_set e).
    + apply W3 with e'; [by rewrite E|done].
  - intros t a. destruct (W4 t a) as [H|(c' & Hc' & Hr' & Ha & Hw')].
    + rewrite H. destruct (put_event_other c (os_event_set e) objs t a) as [[_ ->]|E]; [right|by left].
      exists c. split; [left|done].
    + right. exists c'. split_and!; [by right|done|done|by rewrite <- Hsame].
Qed.

Lemma woken_nil objs : woken [] objs objs.
Proof. constructor; [done| | |by left]; [intros c H; by apply not_elem_of_nil in H|eauto]. Qed.

Lemma woken_free cells objs : count_reserved cells = 0 -> woken cells objs objs.
Proof.
  induction cells as [|c cells IH]; intros H; [apply woken_nil|].
  unfold count_reserved in *. rewrite filter_cons in H. case_decide; [simpl in H; lia|].
  apply woken_skip; [done|by apply IH].
Qed.

Lemma count_cons c l : count_reserved (c :: l) = count_reserved l + (if decide (reserved c) then 1 else 0).
Proof. unfold count_reserved. rewrite filter_cons. case_decide; simpl; lia. Qed.

Lemma wake_loop_woken arr n : forall i count objs,
  length (array arr) = n_cells arr -> (i + n = n_cells arr)%nat ->
  n_reserved arr = count + count_reserved (drop i (array arr)) ->
  settable objs -> Forall (fun c => reserved c -> wakeable objs c) (drop i (array arr)) ->
  exists objs', wake_loop n i count arr objs = Ok objs' /\ woken (drop i (array arr)) objs objs'.
Proof.
  induction n as [|n IH]; intros i count objs Hl Hi Hc Hs Hw; simpl.
  - rewrite drop_ge in Hc |- * by lia. change (count_reserved []) with 0 in Hc.
    rewrite (proj2 (Z.ltb_ge _ _)) by lia.
    exists objs. split; [done|apply woken_nil].
  - destruct (lookup_lt_is_Some_2 (array arr) i ltac:(lia)) as [c Hci].
    rewrite (get_nth_cell_ok _ _ _ Hl Hci). rewrite (drop_S _ _ _ Hci) in *. cbn [rbind].
    rewrite count_cons in Hc. apply Forall_cons in Hw as [Hwc Hw].
    pose proof (count_le (drop (S i) (array arr))) as Hle.
    destruct (Z.ltb_spec count (n_reserved arr)) as [Hlt|Hge].
    2: { exists objs. split; [done|]. apply woken_free. rewrite count_cons. case_decide; lia. }
    destruct (Z.eqb_spec (wait_object c) 0) as [Hz|Hz].
    { rewrite decide_False in Hc by (unfold reserved; lia).
      destruct (IH (S i) count objs) as (objs' & E & W); [done|lia|lia|done|done|].
      exists objs'. split; [done|]. apply woken_skip; [unfold reserved; lia|done]. }
    rewrite decide_True in Hc by done. destruct (Hwc Hz) as [[b Hb] [e He]].
    rewrite Hb. cbn [rbind]. destruct b.
    + rewrite (proj2 (get_event_request c objs e)) by done. cbn [rbind].
      pose proof (Hs _ _ _ He) as Hset.
      destruct (IH (S i) (count + 1) (put_event c (os_event_set e) objs)) as (objs' & E & W);
        [done|lia|lia|by apply put_event_settable| |].
      { eapply Forall_impl; [exact Hw|]. simpl. intros c' H Hr. by apply put_event_wakeable, H. }
      exists objs'. split; [done|by eapply woken_wake].
    + cbn [rbind]. destruct (IH (S i) (count + 1) objs) as (objs' & E & W); [done|lia|lia|done|done|].
      exists objs'. split; [done|]. apply woken_skip; [by rewrite Hb|done].
Qed.

(** C21: The periodic wake-up completes, frees the mutex of the array, sets the
    event of every reserved cell whose object is free, so that its thread no
    longer blocks whatever count it waits with, and changes no other event. *)
Theorem wake_threads_complete arr objs :
  unlocked arr -> settable objs ->
  (forall c, c ∈ array arr -> reserved c -> well_typed objs (request_type c) (wait_object c)) ->
  exists objs', sync_array_wake_threads_if_sema_free_low arr objs = Ok (arr, objs') /\
    (forall c, c ∈ array arr -> reserved c -> sync_arr_cell_can_wake_up c objs = Ok true ->
       exists e, request_event objs' (request_type c) (wait_object c) = Some e /\
         forall sig, os_event_wait_blocks e sig = false) /\
    (forall t a, request_event objs' t a = request_event objs t a \/
       exists c, c ∈ array arr /\ reserved c /\ wait_object c = a /\
         sync_arr_cell_can_wake_up c objs = Ok true).
Proof.
  intros [Hwf Hm] Hs Ht. unfold sync_array_wake_threads_if_sema_free_low. rewrite enter_ok by done. cbn [rbind].
  destruct (wake_loop_woken (mkArray (n_reserved arr) (n_cells arr) (array arr) true (res_count arr))
    (n_cells arr) 0 0 objs) as (objs' & E & W); [apply Hwf|done| |done| |].
  - cbn [n_reserved array]. rewrite drop_0. apply Hwf.
  - apply Forall_forall. intros c Hc Hr. rewrite drop_0 in Hc. by apply well_typed_wakeable, Ht.
  - cbn [n_cells]. rewrite E. exists objs'. cbn [rbind array] in *. rewrite drop_0 in W.
    split_and!; [| |apply W].
    + destruct arr; simpl in *. by subst.
    + intros c Hc Hr Hw. destruct (woken_set _ _ _ W c Hc Hr Hw) as (e & He & Hset).
      exists e. split; [done|]. intros sig. unfold os_event_wait_blocks. by rewrite Hset.
Qed.

(** ** The arrays of the server *)

Lemma n_slots_enough n_threads size :
  0 < size -> 0 < n_threads -> n_threads <= n_slots n_threads size * size < n_threads + size.
Proof.
  intros Hs Hn. unfold n_slots. pose proof (Z.div_mod (n_threads - 1) size ltac:(lia)).
  pose proof (Z.mod_pos_bound (n_threads - 1) size Hs). nia.
Qed.

Lemma init_arrays size n arrs :
  n < 2 ^ 64 -> sync_array_init size n = Ok arrs ->
  Z.of_nat (length arrs) = size /\ 0 < size /\ 0 < n /\
  Forall (fun a => unlocked a /\ n_reserved a = 0 /\ Z.of_nat (n_cells a) = n_slots n size) arrs.
Proof.
  intros Hn H. unfold sync_array_init in H. inv_ok. apply Z.ltb_lt in H0, H1.
  pose proof (n_slots_enough n size H0 H1) as Hsl. subst arrs.
  assert (0 < n_slots n size <= n) as Hpos.
  { unfold n_slots. pose proof (Z.div_le_upper_bound (n - 1) size (n - 1) H0 ltac:(nia)).
    pose proof (Z.div_pos (n - 1) size ltac:(lia) H0). lia. }
  split; [rewrite length_replicate; lia|]. split_and!; [done|done|]. apply Forall_replicate.
  split; [eapply create_wf, H2; lia|]. unfold sync_array_create in H2. inv_ok. subst. simpl. split; [done|lia].
Qed.

(** [sync_array_init] creates at least one cell per thread, fewer than one
    array's worth too many, all free, and [sync_array_close] can take the
    arrays down again. *)
Theorem init_close size n arrs :
  n < 2 ^ 64 -> sync_array_init size n = Ok arrs ->
  n <= zsum (map (fun a => Z.of_nat (n_cells a)) arrs) < n + size /\
  zsum (map n_reserved arrs) = 0 /\ sync_array_close arrs = Ok tt.
Proof.
  intros Hn H. destruct (init_arrays size n arrs Hn H) as (Hl & Hs & Hp & Hf).
  assert (zsum (map (fun a => Z.of_nat (n_cells a)) arrs) = n_slots n size * Z.of_nat (length arrs) /\
    zsum (map n_reserved arrs) = 0 /\ sync_array_close arrs = Ok tt) as (H1 & H2 & H3).
  { clear Hl H. induction Hf as [|a l (Hu & Hr & Hc) Hf IH]; [split_and!; [cbn; lia|done|done]|].
    destruct IH as (IH1 & IH2 & IH3). split_and!.
    - cbn [map length]. rewrite zsum_cons, IH1. lia.
    - cbn [map]. rewrite zsum_cons, IH2. lia.
    - simpl. unfold sync_array_free. rewrite Hr, validate_ok by done. done. }
  rewrite H1, Hl. pose proof (n_slots_enough n size Hs Hp). done.
Qed.

(** The array the [m]-th next call of [sync_array_get] selects. *)
Definition turn (size count m : Z) : nat := Z.to_nat ((count + m) mod size).

Lemma turn_ne size count m m' : 0 < size -> m < m' -> m' - m < size -> turn size count m <> turn size count m'.
Proof.
  intros Hs H1 H2 E. unfold turn in E. apply Z2Nat.inj in E; try (apply Z.mod_pos_bound; lia).
  pose proof (Z.div_mod (count + m) size ltac:(lia)). pose proof (Z.div_mod (count + m') size ltac:(lia)).
  destruct (Z.le_gt_cases ((count + m') / size) ((count + m) / size)); nia.
Qed.

(** What a successful reservation leaves behind. *)
Definition holds_request (arrs : list sync_array_t) (k i : nat) (r : request) : Prop :=
  exists a c, arrs !! k = Some a /\ unlocked a /\ array a !! i = Some c /\
    wait_object c = r_object r /\ request_type c = r_type r /\ cell_thread c = r_thread r /\ waiting c = false.

Lemma rounds_find size r objs e fuel : forall count arrs,
  r_object r <> 0 -> request_event objs (r_type r) (r_object r) = Some e ->
  Z.of_nat (length arrs) = size -> 0 < size -> Z.of_nat fuel <= size -> 0 <= count ->
  count + Z.of_nat fuel < 2 ^ 64 ->
  (forall m, 1 <= m <= Z.of_nat fuel -> exists a, arrs !! turn size count m = Some a /\ unlocked a) ->
  (exists m a, 1 <= m <= Z.of_nat fuel /\ arrs !! turn size count m = Some a /\
     n_reserved a < Z.of_nat (n_cells a)) ->
  exists count' arrs' objs' k i,
    reserve_rounds fuel size count arrs objs r = Ok (count', arrs', objs', Some (k, i)) /\
    holds_request arrs' k i r.
Proof.
  induction fuel as [|fuel IH]; intros count arrs Hobj He Hl Hs Hf Hc Hov Hall (m & a & Hm & Ha & Hfree); [lia|].
  cbn [reserve_rounds]. unfold sync_array_get. rewrite u64_small by lia.
  destruct (Hall 1 ltac:(lia)) as (a1 & Ha1 & Hu1). unfold turn in Ha1. rewrite Ha1.
  set (k := Z.to_nat ((count + 1) mod size)) in *.
  assert (k < length arrs)%nat as Hk by (by eapply lookup_lt_Some).
  destruct (decide (n_reserved a1 = Z.of_nat (n_cells a1))) as [Hfull|Hne].
  - rewrite reserve_full by done. cbn [rbind].
    assert (forall m', 1 <= m' <= Z.of_nat fuel -> turn size (count + 1) m' = turn size count (m' + 1) /\
      k <> turn size (count + 1) m') as Hshift.
    { intros m' Hm'. assert (turn size (count + 1) m' = turn size count (m' + 1)) as ->
        by (unfold turn; do 2 f_equal; lia). split; [done|]. apply turn_ne; lia. }
    apply IH; try done; [by rewrite length_insert|lia|lia|lia| |].
    + intros m' Hm'. destruct (Hshift m' Hm') as [E Hne]. rewrite list_lookup_insert_ne, E by done.
      apply Hall. lia.
    + assert (m <> 1) as Hm1 by (intros ->; unfold turn in Ha; fold k in Ha; rewrite Ha1 in Ha; simplify_eq; lia).
      exists (m - 1), a. destruct (Hshift (m - 1) ltac:(lia)) as [E Hne].
      rewrite list_lookup_insert_ne, E by done. split_and!; [lia|lia| |done].
      by replace (m - 1 + 1) with m by lia.
  - assert (n_reserved a1 < Z.of_nat (n_cells a1)) as Hlt.
    { destruct Hu1 as [Hwf _]. pose proof (count_le (array a1)).
      rewrite (wf_count _ Hwf), <- (wf_len _ Hwf) in *. lia. }
    destruct (reserve_ok a1 objs r e Hu1 Hlt Hobj He)
      as (i & a2 & c0 & c & E & Hu2 & _ & _ & Hi & _ & _ & Ea & Hw & Ht & Hth & Hwt & _).
    rewrite E. cbn [rbind]. eexists _, _, _, k, i. split; [reflexivity|].
    exists a2, c. rewrite list_lookup_insert_eq by done. split_and!; try done.
    rewrite Ea. apply list_lookup_insert_eq. by eapply lookup_lt_Some.
Qed.

(** [sync_array_get_and_reserve_cell] goes round all the arrays: it finds a
    cell whenever one is free in some array, whichever array comes first. *)
Theorem get_and_reserve_finds size count arrs objs r :
  Z.of_nat (length arrs) = size -> 0 < size -> 0 <= count -> count + size < 2 ^ 64 ->
  r_object r <> 0 -> well_typed objs (r_type r) (r_object r) ->
  Forall unlocked arrs -> Exists (fun a => n_reserved a < Z.of_nat (n_cells a)) arrs ->
  exists count' arrs' objs' k i,
    sync_array_get_and_reserve_cell size count arrs objs r = Ok (count', arrs', objs', (k, i)) /\
    holds_request arrs' k i r.
Proof.
  intros Hl Hs Hc Hov Hobj Ht Hall Hex. destruct (well_typed_event _ _ _ Ht) as [e He].
  destruct (rounds_find size r objs e (Z.to_nat size) count arrs)
    as (count' & arrs' & objs' & k & i & E & Hr); try done; try lia.
  - intros m Hm. pose proof (Z.mod_pos_bound (count + m) size Hs).
    destruct (lookup_lt_is_Some_2 arrs (turn size count m)) as [a Ha]; [unfold turn; lia|].
    exists a. split; [done|]. by eapply Forall_lookup_1.
  - apply Exists_exists in Hex as (a & Ha & Hfree). apply list_elem_of_lookup in Ha as [j Hj].
    pose proof (lookup_lt_Some _ _ _ Hj). set (d := (Z.of_nat j - count - 1) mod size).
    pose proof (Z.mod_pos_bound (Z.of_nat j - count - 1) size Hs). exists (d + 1), a.
    split_and!; [subst d; lia|subst d; lia| |done]. replace (turn size count (d + 1)) with j; [done|].
    unfold turn. subst d. rewrite Z.add_assoc, (Z.add_comm count), <- Z.add_assoc, Zplus_mod_idemp_l.
    replace (Z.of_nat j - count - 1 + (count + 1)) with (Z.of_nat j) by lia. rewrite Z.mod_small; lia.
  - unfold sync_array_get_and_reserve_cell. rewrite E. cbn [rbind]. eauto 10.
Qed.

(** ** Concrete arrays *)

Definition one_mutex : objects := {[ 100 := Mutex (mkMutex 1 0 7 os_event_create) ]}.

Definition request_100 : request := mkRequest 100 SYNC_MUTEX "lock0lock.cc" 42 8 1000.

Definition one_cell : sync_array_t := mkArray 0 1 [empty_cell] false 0.

(** A thread reserves, waits and is still waiting. *)
Definition two_steps : list op := [OpReserve request_100; OpWaitBegin 0].

Definition after_two : sync_array_t * objects :=
  match execs two_steps (one_cell, one_mutex) with Ok s => s | _ => (one_cell, one_mutex) end.

Lemma array_validates_witness :
  n_reserved after_two.1 = 1 /\
  (0 <= n_reserved after_two.1 <= 1 /\
   (sync_array_validate after_two.1 = Ok after_two.1 \/
    (os_mutex after_two.1 = true /\ n_reserved after_two.1 = 1))).
Proof.
  split; [by vm_compute|].
  apply (array_validates 1 one_cell one_mutex two_steps after_two.1 after_two.2); by vm_compute.
Defined.

Definition full_cell : sync_array_t := after_two.1.

Lemma full_array_locks_witness :
  exists arr', sync_array_reserve_cell full_cell one_mutex request_100 = Ok (arr', one_mutex, None) /\
    sync_array_validate arr' = Blocked /\
    forall i r', r_object r' <> 0 ->
      sync_array_free_cell arr' i = Blocked /\ sync_array_wait_begin arr' i = Blocked /\
      sync_array_reserve_cell arr' one_mutex r' = Blocked /\
      sync_array_wake_threads_if_sema_free_low arr' one_mutex = Blocked.
Proof. apply (full_array_locks full_cell one_mutex request_100); [|by vm_compute|by vm_compute]. split; [|by vm_compute]. constructor; by vm_compute. Defined.

(** The mutex has been released without a signal. *)
Definition free_mutex : objects := {[ 100 := Mutex (mkMutex 0 0 7 os_event_create) ]}.

Lemma wake_threads_complete_witness :
  exists objs', sync_array_wake_threads_if_sema_free_low full_cell free_mutex = Ok (full_cell, objs') /\
    (forall c, c ∈ array full_cell -> reserved c -> sync_arr_cell_can_wake_up c free_mutex = Ok true ->
       exists e, request_event objs' (request_type c) (wait_object c) = Some e /\
         forall sig, os_event_wait_blocks e sig = false) /\
    (forall t a, request_event objs' t a = request_event free_mutex t a \/
       exists c, c ∈ array full_cell /\ reserved c /\ wait_object c = a /\
         sync_arr_cell_can_wake_up c free_mutex = Ok true).
Proof.
  apply (wake_threads_complete full_cell free_mutex).
  - split; [|by vm_compute]. constructor; by vm_compute.
  - intros t a e. unfold request_event, free_mutex. destruct (decide (a = 100)) as [->|Hne].
    + rewrite lookup_singleton_eq. simpl. unfold object_event. repeat case_match; simplify_eq/=; try done.
      intros [= <-]. by vm_compute.
    + by rewrite lookup_singleton_ne.
  - intros c Hc _. assert (c = default empty_cell (array full_cell !! 0%nat)) as ->.
    { vm_compute in Hc. apply list_elem_of_singleton in Hc as ->. by vm_compute. }
    split; [by vm_compute|]. exists (Mutex (mkMutex 0 0 7 os_event_create)). split; vm_compute; [done|by eexists].
Defined.

Lemma init_close_witness :
  let arrs := match sync_array_init 32 100 with Ok a => a | _ => [] end in
  100 <= zsum (map (fun a => Z.of_nat (n_cells a)) arrs) < 100 + 32 /\
  zsum (map n_reserved arrs) = 0 /\ sync_array_close arrs = Ok tt.
Proof. apply (init_close 32 100); [lia|by vm_compute]. Defined.

Lemma get_and_reserve_finds_witness :
  exists count' arrs' objs' k i,
    sync_array_get_and_reserve_cell 2 0 [one_cell; full_cell] one_mutex request_100
      = Ok (count', arrs', objs', (k, i)) /\ holds_request arrs' k i request_100.
Proof.
  apply (get_and_reserve_finds 2 0 [one_cell; full_cell] one_mutex request_100); try by vm_compute.
  - split; [by vm_compute|]. exists (Mutex (mkMutex 1 0 7 os_event_create)). split; vm_compute; [done|by eexists].
  - repeat constructor; by vm_compute.
  - left. by vm_compute.
Defined.
End SyncArray.
