(* ===== verification/SyncDeadlock.v ===== *)
(** * Deadlock detection in the wait array (sync/sync0arr.cc, lines 641-832)

    The recursive search of the debug build, and the waits-for relation it
    explores.  A cell is named by its index; the holders of a lock are the
    threads its fields name. *)
From stdpp Require Import strings.
From S2P Require Import Prelude Results OsEvent SyncArray.
Local Open Scope Z_scope.

Module SyncDeadlock.
Import OsEvent SyncArray.
Local Open Scope mc_scope.

(** Lines 643-682; [detect] is the recursive call. *)
Definition sync_array_deadlock_step (detect : nat -> res bool) (arr : sync_array_t) (start : nat)
    (thread pass : Z) : res bool :=
  if negb (pass =? 0) then Ok false
  else
    let! new_cell := sync_array_find_thread arr thread in
    match new_cell with
    | Some c => if (c =? start)%nat then Ok true else detect c
    | None => Ok false
    end.

(** The loop over the holders of a read-write lock: those that satisfy
    [blocks], until one leads back to the start. *)
Fixpoint debug_loop (blocks : rw_lock_debug_t -> bool) (step : Z -> Z -> res bool)
    (ds : list rw_lock_debug_t) : res bool :=
  match ds with
  | [] => Ok false
  | d :: ds =>
      if blocks d then
        let! r := step (d_thread_id d) (d_pass d) in
        if (r : bool) then Ok true else debug_loop blocks step ds
      else debug_loop blocks step ds
  end.

(** Lines 759-764. *)
Definition blocks_x (self : Z) (d : rw_lock_debug_t) : bool :=
  ((d_lock_type d =? RW_LOCK_EX) && negb (d_thread_id d =? self)) ||
  ((d_lock_type d =? RW_LOCK_WAIT_EX) && negb (d_thread_id d =? self)) ||
  (d_lock_type d =? RW_LOCK_SHARED).

(** Lines 799-800. *)
Definition blocks_s (d : rw_lock_debug_t) : bool :=
  (d_lock_type d =? RW_LOCK_EX) || (d_lock_type d =? RW_LOCK_WAIT_EX).

Definition is_x_type (type : Z) : bool :=
  (type =? RW_LOCK_EX) || (type =? PRIO_RW_LOCK_EX) || (type =? RW_LOCK_WAIT_EX).

Definition is_s_type (type : Z) : bool := (type =? RW_LOCK_SHARED) || (type =? PRIO_RW_LOCK_SHARED).

(** Lines 684-832.  The assertion [depth < 100] of the debug build bounds the
    recursion: a level adds two to the depth, so 50 levels are enough fuel. *)
Fixpoint sync_array_detect_deadlock (fuel : nat) (arr : sync_array_t) (objs : objects) (start cell : nat)
    (depth : nat) : res bool :=
  match fuel with
  | O => Fault
  | S fuel =>
      let! c := sync_array_get_nth_cell arr cell in
      let! _ := ut_a (negb (wait_object c =? 0)) in
      let! _ := ut_a (depth <? 100)%nat in
      let depth := S depth in
      if negb (waiting c) then Ok false
      else
        let step := sync_array_deadlock_step
          (fun c' => sync_array_detect_deadlock fuel arr objs start c' (S depth)) arr start in
        match objs !! wait_object c with
        | None => Fault
        | Some o =>
            if is_mutex_type (request_type c) then
              match as_mutex o with
              | None => Fault
              | Some m => if negb (m_lock_word m =? 0) then step (m_thread_id m) 0 else Ok false
              end
            else if is_x_type (request_type c) then
              match as_rw_lock o with
              | None => Fault
              | Some l => debug_loop (blocks_x (cell_thread c)) step (rw_debug_list l)
              end
            else if is_s_type (request_type c) then
              match as_rw_lock o with
              | None => Fault
              | Some l => debug_loop blocks_s step (rw_debug_list l)
              end
            else Fault
        end
  end.

(** ** The waits-for relation *)

(** The threads that can release what a waiting cell asks for. *)
Definition blockers (c : sync_cell_t) (o : sync_object) : list Z :=
  let of_list (p : rw_lock_debug_t -> bool) l :=
    d_thread_id <$> filter (fun d => p d = true /\ d_pass d = 0) (rw_debug_list l) in
  if is_mutex_type (request_type c) then
    match as_mutex o with
    | Some m => if m_lock_word m =? 0 then [] else [m_thread_id m]
    | None => []
    end
  else match as_rw_lock o with
  | Some l => if is_x_type (request_type c) then of_list (blocks_x (cell_thread c)) l else of_list blocks_s l
  | None => []
  end.

(** Cell [i] waits for a thread that itself has reserved cell [j]. *)
Definition waits_for (arr : sync_array_t) (objs : objects) (i j : nat) : Prop :=
  exists c o th, array arr !! i = Some c /\ waiting c = true /\ objs !! wait_object c = Some o /\
    th ∈ blockers c o /\ sync_array_find_thread arr th = Ok (Some j).

(** Every reserved cell waits for an object of its type. *)
Definition typed (arr : sync_array_t) (objs : objects) : Prop :=
  forall i c, array arr !! i = Some c -> reserved c -> well_typed objs (request_type c) (wait_object c).

Section detect.
Context (arr : sync_array_t) (objs : objects) (start : nat).
Context (Hwf : wf arr) (Htyped : typed arr objs).

(** What the recursive call says about a cell is right, and that it says
    something. *)
Definition sound (detect : nat -> res bool) (c : nat) : Prop :=
  forall b, detect c = Ok b -> (b = true <-> tc (waits_for arr objs) c start).
Definition returns (detect : nat -> res bool) (c : nat) : Prop := exists b, detect c = Ok b.

(** One holder is examined: the answer says whether its thread leads back. *)
Definition leads_back (th : Z) : Prop :=
  exists j, sync_array_find_thread arr th = Ok (Some j) /\ (j = start \/ tc (waits_for arr objs) j start).

Lemma find_thread_ok th : exists r, sync_array_find_thread arr th = Ok r.
Proof using Hwf. unfold sync_array_find_thread. rewrite find_cell_spec by apply Hwf. eauto. Qed.

Lemma step_sound detect th pass :
  (pass = 0 -> forall j, sync_array_find_thread arr th = Ok (Some j) -> j <> start -> sound detect j) ->
  forall b, sync_array_deadlock_step detect arr start th pass = Ok b -> (b = true <-> pass = 0 /\ leads_back th).
Proof using Hwf.
  intros Hd b. unfold sync_array_deadlock_step. destruct (Z.eqb_spec pass 0) as [Hp|Hp]; simpl.
  2: { intros [= <-]. split; [done|]. by intros [? _]. }
  specialize (Hd Hp). destruct (find_thread_ok th) as [[j|] Hf]; rewrite Hf; simpl.
  - destruct (Nat.eqb_spec j start) as [->|Hne].
    + intros [= <-]. split; [|done]. intros _. split; [done|]. exists start. auto.
    + intros Hb. rewrite (Hd j Hf Hne b Hb). split.
      * intros Htc. split; [done|]. exists j. auto.
      * intros [_ (j' & Hj' & Hor)]. rewrite Hf in Hj'. injection Hj' as <-. by destruct Hor.
  - intros [= <-]. split; [done|]. intros [_ (j & Hj & _)]. congruence.
Qed.

Lemma step_returns detect th pass :
  (pass = 0 -> forall j, sync_array_find_thread arr th = Ok (Some j) -> j <> start -> returns detect j) ->
  exists b, sync_array_deadlock_step detect arr start th pass = Ok b.
Proof using Hwf.
  intros Hd. unfold sync_array_deadlock_step. destruct (Z.eqb_spec pass 0) as [Hp|Hp]; simpl; [|by eexists].
  destruct (find_thread_ok th) as [[j|] Hf]; rewrite Hf; simpl; [|by eexists].
  destruct (Nat.eqb_spec j start) as [->|Hne]; [by eexists|by apply (Hd Hp j)].
Qed.

Lemma loop_sound blocks step ds :
  (forall d, d ∈ ds -> blocks d = true -> forall b, step (d_thread_id d) (d_pass d) = Ok b ->
     (b = true <-> d_pass d = 0 /\ leads_back (d_thread_id d))) ->
  forall b, debug_loop blocks step ds = Ok b ->
    (b = true <-> exists th, th ∈ d_thread_id <$> filter (fun d => blocks d = true /\ d_pass d = 0) ds /\ leads_back th).
Proof.
  induction ds as [|d ds IH]; intros H b; simpl.
  - intros [= <-]. split; [done|]. by intros (th & Hth%elem_of_nil & _).
  - assert (forall b, debug_loop blocks step ds = Ok b -> (b = true <-> exists th, th ∈ d_thread_id <$>
      filter (fun d => blocks d = true /\ d_pass d = 0) ds /\ leads_back th)) as IH' by (apply IH; intros d' Hd'; apply H; by right).
    rewrite filter_cons. destruct (blocks d) eqn:Ebl.
    + intros (b1 & Hb1 & Hb)%rbind_ok. pose proof (H d ltac:(left) Ebl b1 Hb1) as Hiff1. destruct b1.
      * injection Hb as <-. split; [|done]. intros _. destruct (proj1 Hiff1 eq_refl) as [Hp Hl].
        exists (d_thread_id d). rewrite decide_True by done. split; [left|done].
      * rewrite (IH' b Hb). case_decide as Hc; [|done].
        split; [intros (th & Hth & Hl); exists th; split; [by right|done]|].
        intros (th & [->|Hth]%elem_of_cons & Hl); [|eauto]. discriminate (proj2 Hiff1 (conj (proj2 Hc) Hl)).
    + intros Hb. rewrite decide_False by (by intros [? _]). by apply IH'.
Qed.

Lemma loop_returns blocks step ds :
  (forall d, d ∈ ds -> blocks d = true -> exists b, step (d_thread_id d) (d_pass d) = Ok b) ->
  exists b, debug_loop blocks step ds = Ok b.
Proof.
  induction ds as [|d ds IH]; intros H; simpl; [by eexists|].
  destruct IH as [b Hb]; [intros d' Hd'; apply H; by right|]. destruct (blocks d) eqn:Ebl; [|by exists b].
  destruct (H d ltac:(left) Ebl) as [[] ->]; simpl; [by eexists|by exists b].
Qed.

(** The first edge of a path back to the start. *)
Lemma tc_first i c o :
  array arr !! i = Some c -> waiting c = true -> objs !! wait_object c = Some o ->
  tc (waits_for arr objs) i start <-> exists th, th ∈ blockers c o /\ leads_back th.
Proof.
  intros Hi Hw Ho. split.
  - assert (forall j, waits_for arr objs i j -> j = start \/ tc (waits_for arr objs) j start ->
      exists th, th ∈ blockers c o /\ leads_back th) as H.
    { intros j (c' & o' & th & Hc' & _ & Ho' & Hth & Hf) Hj. simplify_eq. exists th. split; [done|]. exists j. auto. }
    intros Htc. inversion Htc; subst; [eapply H; [done|by left]|eapply H; [done|by right]].
  - intros (th & Hth & j & Hf & Hj). assert (waits_for arr objs i j) as He by (exists c, o, th; done).
    destruct Hj as [->|Hj]; [by apply tc_once|by eapply tc_l].
Qed.

(** A cell found for a thread is a reserved one. *)
Lemma find_thread_reserved th j :
  sync_array_find_thread arr th = Ok (Some j) -> exists c, array arr !! j = Some c /\ reserved c.
Proof using Hwf.
  unfold sync_array_find_thread. rewrite find_cell_spec by apply Hwf. intros [= Hj].
  apply fmap_Some in Hj as ([j' cj] & Hfind & ->). apply list_find_Some in Hfind as (Hcj & Hp & _).
  apply Is_true_true, andb_prop in Hp as [Hp _]. exists cj. by rewrite <- not_free_b.
Qed.

Section holders.
Context (detect : nat -> res bool) (cell : nat) (c : sync_cell_t) (o : sync_object).
Context (Hc : array arr !! cell = Some c) (Hw : waiting c = true) (Ho : objs !! wait_object c = Some o).
Local Set Default Proof Using "All".

Lemma holder_waits th j : th ∈ blockers c o -> sync_array_find_thread arr th = Ok (Some j) -> waits_for arr objs cell j.
Proof. intros Hth Hj. by exists c, o, th. Qed.

(** The holder of a mutex. *)
Lemma mutex_blockers m : is_mutex_type (request_type c) = true -> as_mutex o = Some m ->
  blockers c o = if m_lock_word m =? 0 then [] else [m_thread_id m].
Proof. intros Em Eo. unfold blockers. by rewrite Em, Eo. Qed.

Lemma mutex_sound m b : is_mutex_type (request_type c) = true -> as_mutex o = Some m ->
  (forall j, waits_for arr objs cell j -> j <> start -> sound detect j) ->
  (if negb (m_lock_word m =? 0) then sync_array_deadlock_step detect arr start (m_thread_id m) 0 else Ok false) = Ok b ->
  (b = true <-> tc (waits_for arr objs) cell start).
Proof.
  intros Em Eo Hrec. rewrite (tc_first cell c o Hc Hw Ho). pose proof (mutex_blockers m Em Eo) as Hbl.
  destruct (m_lock_word m =? 0); simpl; rewrite Hbl.
  - intros [= <-]. split; [done|]. by intros (th & Hth%elem_of_nil & _).
  - intros Hb. rewrite (step_sound detect (m_thread_id m) 0) with (b := b); [|intros _ j Hj; apply Hrec; eapply holder_waits; [rewrite Hbl; left|exact Hj]|done].
    split; [intros [_ Hl]; exists (m_thread_id m); split; [left|done]|]. intros (th & Hth%list_elem_of_singleton & Hl). by subst.
Qed.

Lemma mutex_returns m : is_mutex_type (request_type c) = true -> as_mutex o = Some m ->
  (forall j, waits_for arr objs cell j -> j <> start -> returns detect j) ->
  exists b, (if negb (m_lock_word m =? 0) then sync_array_deadlock_step detect arr start (m_thread_id m) 0 else Ok false) = Ok b.
Proof.
  intros Em Eo Hrec. pose proof (mutex_blockers m Em Eo) as Hbl. destruct (m_lock_word m =? 0); simpl; [by eexists|].
  apply step_returns. intros _ j Hj. apply Hrec. eapply holder_waits; [rewrite Hbl; left|exact Hj].
Qed.

(** The holders of a read-write lock. *)
Section rw_lock.
Context (p : rw_lock_debug_t -> bool) (l : rw_lock_t).
Context (Hbl : blockers c o = d_thread_id <$> filter (fun d => p d = true /\ d_pass d = 0) (rw_debug_list l)).

Lemma debug_blocker d : d ∈ rw_debug_list l -> p d = true -> d_pass d = 0 -> d_thread_id d ∈ blockers c o.
Proof. intros Hd Hp H0. rewrite Hbl. apply list_elem_of_fmap. exists d. split; [done|]. by apply list_elem_of_filter. Qed.

Lemma rw_lock_sound b : (forall j, waits_for arr objs cell j -> j <> start -> sound detect j) ->
  debug_loop p (sync_array_deadlock_step detect arr start) (rw_debug_list l) = Ok b ->
  (b = true <-> tc (waits_for arr objs) cell start).
Proof.
  intros Hrec Hb. rewrite (tc_first cell c o Hc Hw Ho), Hbl. eapply loop_sound; [|exact Hb].
  intros d Hd Hp. apply step_sound. intros H0 j Hj. apply Hrec. eapply holder_waits; [by eapply debug_blocker|exact Hj].
Qed.

Lemma rw_lock_returns : (forall j, waits_for arr objs cell j -> j <> start -> returns detect j) ->
  exists b, debug_loop p (sync_array_deadlock_step detect arr start) (rw_debug_list l) = Ok b.
Proof.
  intros Hrec. apply loop_returns. intros d Hd Hp. apply step_returns. intros H0 j Hj. apply Hrec.
  eapply holder_waits; [by eapply debug_blocker|exact Hj].
Qed.
End rw_lock.
End holders.

Lemma object_casts c o :
  valid_type (request_type c) -> is_Some (object_event (request_type c) o) ->
  (is_mutex_type (request_type c) = true /\ exists m, as_mutex o = Some m) \/
  (is_mutex_type (request_type c) = false /\ (exists l, as_rw_lock o = Some l) /\
   (is_x_type (request_type c) = true \/ is_s_type (request_type c) = true)).
Proof.
  intros Hv [[e f] Hev]. unfold object_event, is_mutex_type in *.
  assert ((request_type c =? SYNC_MUTEX) || (request_type c =? SYNC_PRIO_MUTEX) = false ->
    is_x_type (request_type c) = true \/ is_s_type (request_type c) = true) as Htype.
  { unfold valid_type, is_x_type, is_s_type, RW_LOCK_EX, PRIO_RW_LOCK_SHARED, RW_LOCK_SHARED,
      RW_LOCK_WAIT_EX, SYNC_MUTEX, SYNC_PRIO_MUTEX, PRIO_RW_LOCK_EX, PRIO_RW_LOCK_SHARED in *. lia. }
  destruct o; repeat case_match; simplify_eq/=; try (left; by split; [|eexists]);
    right; (split_and!; [done|by eexists|by apply Htype]).
Qed.

Lemma no_wait_no_path cell c :
  array arr !! cell = Some c -> waiting c = false -> ~ tc (waits_for arr objs) cell start.
Proof.
  intros Hc Hw Htc. assert (exists j, waits_for arr objs cell j) as [j (c' & o & th & Hc' & Hw' & _)]
    by (inversion Htc; eauto). simplify_eq. congruence.
Qed.

(** One level of the search. *)
Lemma detect_level fuel depth cell c :
  array arr !! cell = Some c -> reserved c -> (depth < 100)%nat ->
  let rec c' := sync_array_detect_deadlock fuel arr objs start c' (S (S depth)) in
  ((forall j, waits_for arr objs cell j -> j <> start -> sound rec j) ->
     sound (fun x => sync_array_detect_deadlock (S fuel) arr objs start x depth) cell) /\
  ((forall j, waits_for arr objs cell j -> j <> start -> returns rec j) ->
     returns (fun x => sync_array_detect_deadlock (S fuel) arr objs start x depth) cell).
Proof using Hwf Htyped.
  intros Hc Hr Hd rec. unfold sound at 2, returns at 2.
  cbn [sync_array_detect_deadlock]. rewrite (get_nth_cell_ok _ _ _ (wf_len _ Hwf) Hc). cbn [rbind].
  rewrite (proj2 (not_free_b c) Hr), (proj2 (Nat.ltb_lt depth 100)) by lia. cbn [rbind ut_a].
  destruct (waiting c) eqn:Ew; cbn [negb].
  2: { split; [|by eexists]. intros _ b [= <-]. split; [done|]. intros Htc. by eapply no_wait_no_path in Htc. }
  destruct (Htyped _ _ Hc Hr) as [Hv (o & Ho & Hev)]. rewrite Ho. change (fun c' => sync_array_detect_deadlock fuel arr objs start c' (S (S depth))) with rec.
  destruct (object_casts c o Hv Hev) as [[Em [m Eo]]|(Em & [l Eo] & Hxs)]; rewrite Em, Eo.
  - split; intros Hrec; [intros b; by apply (mutex_sound rec cell c o)|by apply (mutex_returns rec cell c o)].
  - destruct (is_x_type (request_type c)) eqn:Ex; [|destruct Hxs as [|Es]; [done|rewrite Es]];
      (split; intros Hrec; [intros b; apply (rw_lock_sound rec cell c o)|apply (rw_lock_returns rec cell c o)]);
      try done; unfold blockers; by rewrite Em, Eo, Ex.
Qed.

Lemma waits_reserved i j : waits_for arr objs i j -> exists c, array arr !! j = Some c /\ reserved c.
Proof using Hwf. intros (c & o & th & _ & _ & _ & _ & Hj). by eapply find_thread_reserved. Qed.

(** Whatever the search says is right. *)
Lemma detect_sound : forall fuel depth cell c, array arr !! cell = Some c -> reserved c ->
  sound (fun x => sync_array_detect_deadlock fuel arr objs start x depth) cell.
Proof using Hwf Htyped.
  induction fuel as [|fuel IH]; intros depth cell c Hc Hr; [by intros b|].
  destruct (decide (depth < 100)%nat) as [Hd|Hd].
  - apply (detect_level fuel depth cell c Hc Hr Hd). intros j Hj _. destruct (waits_reserved _ _ Hj) as (cj & Hcj & Hrj).
    by apply (IH _ j cj).
  - intros b. cbn [sync_array_detect_deadlock]. rewrite (get_nth_cell_ok _ _ _ (wf_len _ Hwf) Hc). cbn [rbind].
    rewrite (proj2 (not_free_b c) Hr), (proj2 (Nat.ltb_ge depth 100)) by lia. done.
Qed.

(** A wait that does not lead to the start. *)
Definition other_wait (i j : nat) : Prop := waits_for arr objs i j /\ j <> start.

(** It says something when the chains of other waits are short. *)
Lemma detect_returns : forall fuel depth cell c, array arr !! cell = Some c -> reserved c ->
  (depth + 2 * fuel <= 100)%nat -> (forall j, ~ nsteps other_wait fuel cell j) ->
  returns (fun x => sync_array_detect_deadlock fuel arr objs start x depth) cell.
Proof using Hwf Htyped.
  induction fuel as [|fuel IH]; intros depth cell c Hc Hr Hd Hno; [destruct (Hno cell); constructor|].
  apply (detect_level fuel depth cell c Hc Hr ltac:(lia)). intros j Hj Hne.
  destruct (waits_reserved _ _ Hj) as (cj & Hcj & Hrj). apply (IH _ j cj); [done|done|lia|].
  intros k Hk. apply (Hno k). by eapply nsteps_l.
Qed.
End detect.

(** C22: Started from the cell of the current thread, the search is TRUE only
    if the thread waits, through a chain of lock holders, for itself, and FALSE
    only if it does not.  It returns unless there is a chain of 50 waits from the
    cell that does not come back to it, a cycle among others or a long queue;
    then the assertion on the depth may stop the server. *)
Theorem deadlock_detection arr objs start c :
  wf arr -> typed arr objs -> array arr !! start = Some c -> reserved c ->
  (forall b, sync_array_detect_deadlock 50 arr objs start start 0 = Ok b ->
     (b = true <-> tc (waits_for arr objs) start start)) /\
  ((forall j, ~ nsteps (other_wait arr objs start) 50 start j) ->
     exists b, sync_array_detect_deadlock 50 arr objs start start 0 = Ok b).
Proof.
  intros Hwf Ht Hc Hr. split.
  - by apply (detect_sound arr objs start Hwf Ht 50 0 start c).
  - by apply (detect_returns arr objs start Hwf Ht 50 0 start c).
Qed.

(** Threads 8 and 9 hold a mutex each and wait for the other's. *)
Definition crossed : objects :=
  {[ 100 := Mutex (mkMutex 1 1 9 os_event_create); 200 := Mutex (mkMutex 1 1 8 os_event_create) ]}.

Definition crossed_array : sync_array_t :=
  mkArray 2 2 [mkCell 100 100 0 SYNC_MUTEX "a.cc" 1 8 true 1 10; mkCell 200 200 0 SYNC_MUTEX "b.cc" 2 9 true 1 11] false 2.

Lemma crossed_cell i c : array crossed_array !! i = Some c -> i = 0%nat \/ i = 1%nat.
Proof. intros H%lookup_lt_Some. simpl in H. lia. Qed.

Lemma crossed_wf : wf crossed_array.
Proof. constructor; by vm_compute. Qed.

Lemma crossed_typed : typed crossed_array crossed.
Proof.
  intros i c Hi _. destruct (crossed_cell _ _ Hi) as [->| ->]; injection Hi as <-;
    (split; [by vm_compute|]); eexists; split; try (by vm_compute); by eexists.
Qed.

(** Only the wait of the first thread does not lead back to it. *)
Lemma crossed_short j : ~ nsteps (other_wait crossed_array crossed 0) 2 0%nat j.
Proof.
  intros (k & Hk%nsteps_once_inv & [(c & o & th & Hi & _ & Ho & Hth & Hf) Hl])%nsteps_inv_r. destruct Hk as [_ Hk].
  destruct (crossed_cell _ _ Hi) as [->| ->]; [done|].
  injection Hi as <-. vm_compute in Ho. injection Ho as <-. vm_compute in Hth.
  apply list_elem_of_singleton in Hth as ->. vm_compute in Hf. by injection Hf as <-.
Qed.

Lemma deadlock_detection_witness :
  sync_array_detect_deadlock 50 crossed_array crossed 0 0 0 = Ok true /\
  tc (waits_for crossed_array crossed) 0%nat 0%nat /\
  exists b, sync_array_detect_deadlock 50 crossed_array crossed 0 0 0 = Ok b.
Proof.
  destruct (deadlock_detection crossed_array crossed 0 _ crossed_wf crossed_typed eq_refl ltac:(by vm_compute)) as [Hs Hr].
  assert (sync_array_detect_deadlock 50 crossed_array crossed 0 0 0 = Ok true) as E by by vm_compute.
  split; [exact E|]. split; [by apply (Hs true)|]. apply Hr. intros j Hj.
  apply (nsteps_add_inv 2 48) in Hj as (k & Hk & _). by apply crossed_short in Hk.
Defined.
End SyncDeadlock.
