(* ===== verification/SyncReport.v ===== *)
(** * Diagnostics of the wait array (sync/sync0arr.cc)

    The reports of long semaphore waits (lines 479-639 and 1007-1240) and the
    accessors of the monitoring tables (lines 1329-1420).  A report is the
    list of what is printed, one item per [fprintf] with its values; the
    stack-trace signals and the names of files are left out. *)
From stdpp Require Import strings.
From S2P Require Import Prelude Results OsEvent SyncArray.
Local Open Scope Z_scope.

Module SyncReport.
Import OsEvent SyncArray.
Local Open Scope mc_scope.

(** [os_thread_id_t] of no thread. *)
Definition ULINT_UNDEFINED : Z := 2 ^ 64 - 1.
Definition X_LOCK_DECR : Z := 0x00100000.

(** Lines 143-158 and 178-191 of sync0rw.ic. *)
Definition rw_lock_get_writer (l : rw_lock_t) : Z :=
  if 0 <? rw_lock_word l then RW_LOCK_NOT_LOCKED
  else if (rw_lock_word l =? 0) || (rw_lock_word l <=? - X_LOCK_DECR) then RW_LOCK_EX
  else RW_LOCK_WAIT_EX.

Definition rw_lock_get_reader_count (l : rw_lock_t) : Z :=
  if 0 <? rw_lock_word l then X_LOCK_DECR - rw_lock_word l
  else if (rw_lock_word l <? 0) && (- X_LOCK_DECR <? rw_lock_word l) then - rw_lock_word l
  else 0.

Inductive item :=
| Waited (thread line seconds : Z)
| MutexAt (address lock_var last_thread waiters_flag : Z)
| HighPriorityWaiters (n : Z)
| LockOn (mode : string)
| RwLatchAt (address : Z)
| Writer (thread : Z) (exclusive : bool)
| Readers (n waiters_flag lock_word : Z)
| HighPriorityRw (s x wait_ex : Z)
| WaitEnded.

(** Lines 507-548: the mutex a cell waited for last. *)
Definition print_mutex (cell : sync_cell_t) (objs : objects) : res (list item) :=
  if old_wait_mutex cell =? 0 then (if request_type cell =? SYNC_PRIO_MUTEX then Fault else Ok [])
  else match objs !! old_wait_mutex cell with
  | Some (Mutex m) =>
      Ok [MutexAt (old_wait_mutex cell) (m_lock_word m) (m_thread_id m) (m_waiters m)]
  | Some (PrioMutex m _ n) =>
      Ok ([MutexAt (old_wait_mutex cell) (m_lock_word m) (m_thread_id m) (m_waiters m)] ++
          (if request_type cell =? SYNC_PRIO_MUTEX then [HighPriorityWaiters n] else []))
  | _ => Fault
  end.

(** Lines 550-632: the latch a cell waited for last, and its writer. *)
Definition print_rw_lock (cell : sync_cell_t) (objs : objects) (reserver : Z) : res (list item * Z) :=
  let type := request_type cell in
  let mode := LockOn (if (type =? RW_LOCK_EX) || (type =? PRIO_RW_LOCK_EX) then "X-lock on"
                      else if type =? RW_LOCK_WAIT_EX then "X-lock (wait_ex) on" else "S-lock on") in
  if old_wait_rw_lock cell =? 0 then Ok ([mode], reserver)
  else match objs !! old_wait_rw_lock cell with
  | Some o =>
      match as_rw_lock o with
      | None => Fault
      | Some l =>
          let writer := rw_lock_get_writer l in
          let locked := negb (writer =? RW_LOCK_NOT_LOCKED) in
          let items :=
            [mode; RwLatchAt (old_wait_rw_lock cell)] ++
            (if locked then [Writer (rw_writer_thread l) (writer =? RW_LOCK_EX)] else []) ++
            [Readers (rw_lock_get_reader_count l) (rw_waiters l) (rw_lock_word l)] ++
            match o with
            | PrioRwLock _ _ _ ns nx nw =>
                if (type =? PRIO_RW_LOCK_SHARED) || (type =? PRIO_RW_LOCK_EX)
                then [HighPriorityRw ns nx nw] else []
            | _ => []
            end in
          Ok (items, if locked then rw_writer_thread l else reserver)
      end
  | None => Fault
  end.

(** Lines 479-639: what is printed and the writer reported. *)
Definition sync_array_cell_print (cell : sync_cell_t) (objs : objects) (now reserver : Z)
    : res (list item * Z) :=
  let head := [Waited (cell_thread cell) (line cell) (now - reservation_time cell)] in
  let tail := if waiting cell then [] else [WaitEnded] in
  if is_mutex_type (request_type cell) then
    let! items := print_mutex cell objs in Ok (head ++ items ++ tail, reserver)
  else if (RW_LOCK_EX <=? request_type cell) && (request_type cell <=? PRIO_RW_LOCK_SHARED) then
    let! (items, reserver) := print_rw_lock cell objs reserver in Ok (head ++ items ++ tail, reserver)
  else Fault.

(** ** Long waits *)

(** The variables of [sync_array_print_long_waits_low]. *)
Record long_waits := mkLong {
  fatal : bool; noticed : bool; longest_diff : Z; sema : Z; waiter : Z; printed : list item }.

Definition SYNC_ARRAY_TIMEOUT : Z := 240.

(** One round of the loop of lines 1039-1075. *)
Definition long_wait_cell (objs : objects) (now fatal_timeout : Z) (cell : sync_cell_t) (s : long_waits)
    : res long_waits :=
  if (wait_object cell =? 0) || negb (waiting cell) then Ok s
  else
    let diff := now - reservation_time cell in
    let! (items, noticed) :=
      (if SYNC_ARRAY_TIMEOUT <? diff then
         let! (items, _) := sync_array_cell_print cell objs now 0 in Ok (items, true)
       else Ok ([], noticed s)) in
    let longer := longest_diff s <? diff in
    Ok (mkLong (fatal s || (fatal_timeout <? diff)) noticed
          (if longer then diff else longest_diff s)
          (if longer then wait_object cell else sema s)
          (if longer then cell_thread cell else waiter s)
          (printed s ++ items)).

Fixpoint long_wait_loop (objs : objects) (now fatal_timeout : Z) (cells : list sync_cell_t) (s : long_waits)
    : res long_waits :=
  match cells with
  | [] => Ok s
  | cell :: rest =>
      let! s := long_wait_cell objs now fatal_timeout cell s in
      long_wait_loop objs now fatal_timeout rest s
  end.

(** The loop of lines 1099-1121, which follows the writers; [loop] is tested
    and never changed.  [None] is a run longer than the fuel. *)
Fixpoint writer_chain (fuel : nat) (arr : sync_array_t) (objs : objects) (now reserver loop : Z)
    : option (res (list item)) :=
  if reserver =? ULINT_UNDEFINED then Some (Ok [])
  else match fuel with
  | O => None
  | S fuel =>
      match sync_array_find_thread arr reserver with
      | Ok found =>
          let next :=
            match found with
            | Some i =>
                match array arr !! i with
                | Some w =>
                    if negb (wait_object w =? 0) && waiting w then
                      let! (items, reserver') := sync_array_cell_print w objs now reserver in
                      Ok (items, if cell_thread w =? reserver' then ULINT_UNDEFINED else reserver')
                    else Ok ([], ULINT_UNDEFINED)
                | None => Fault
                end
            | None => Ok ([], ULINT_UNDEFINED)
            end in
          match next with
          | Ok (items, reserver') =>
              if 100 <? loop then Some (Ok items)
              else match writer_chain fuel arr objs now reserver' loop with
              | Some (Ok rest) => Some (Ok (items ++ rest))
              | other => other
              end
          | Blocked => Some Blocked
          | Fault => Some Fault
          end
      | Blocked => Some Blocked
      | Fault => Some Fault
      end
  end.

(** Lines 1080-1122: every waiting cell and the chain of its writers. *)
Fixpoint print_chains (fuel : nat) (arr : sync_array_t) (objs : objects) (now : Z) (cells : list sync_cell_t)
    : option (res (list item)) :=
  match cells with
  | [] => Some (Ok [])
  | cell :: rest =>
      if (wait_object cell =? 0) || negb (waiting cell) then print_chains fuel arr objs now rest
      else match sync_array_cell_print cell objs now ULINT_UNDEFINED with
      | Ok (items, reserver) =>
          match writer_chain fuel arr objs now reserver 0 with
          | Some (Ok chain) =>
              match print_chains fuel arr objs now rest with
              | Some (Ok rest) => Some (Ok (items ++ chain ++ rest))
              | other => other
              end
          | other => other
          end
      | Blocked => Some Blocked
      | Fault => Some Fault
      end
  end.

(** Lines 1007-1128. *)
Definition sync_array_print_long_waits_low (fuel : nat) (arr : sync_array_t) (objs : objects)
    (now threshold extension : Z) (s : long_waits) : option (res long_waits) :=
  if extension <? threshold then
    Some (Ok (mkLong false (noticed s) (longest_diff s) (sema s) (waiter s) (printed s)))
  else
    match long_wait_loop objs now threshold (array arr) (mkLong false (noticed s) 0 (sema s) (waiter s) (printed s)) with
    | Ok s =>
        if noticed s then
          match print_chains fuel arr objs now (array arr) with
          | Some (Ok items) =>
              Some (Ok (mkLong (fatal s) true (longest_diff s) (sema s) (waiter s) (printed s ++ items)))
          | Some Blocked => Some Blocked
          | Some Fault => Some Fault
          | None => None
          end
        else Some (Ok s)
    | Blocked => Some Blocked
    | Fault => Some Fault
    end.

(** Lines 1197-1223: the loop ends when every reserved cell has been seen. *)
Fixpoint print_info_loop (fuel i : nat) (count : Z) (arr : sync_array_t) (objs : objects) (now : Z)
    : res (list item) :=
  if count <? n_reserved arr then
    match fuel with
    | O => Fault
    | S fuel =>
        let! cell := sync_array_get_nth_cell arr i in
        if wait_object cell =? 0 then print_info_loop fuel (S i) count arr objs now
        else
          let! (items, _) := sync_array_cell_print cell objs now 0 in
          let! rest := print_info_loop fuel (S i) (count + 1) arr objs now in
          Ok (items ++ rest)
    end
  else Ok [].

Definition sync_array_print_info_low (arr : sync_array_t) (objs : objects) (now : Z) : res (Z * list item) :=
  let! items := print_info_loop (n_cells arr) 0 0 arr objs now in Ok (res_count arr, items).

(** Lines 1225-1239. *)
Definition sync_array_print_info (arr : sync_array_t) (objs : objects) (now : Z)
    : res (sync_array_t * (Z * list item)) :=
  let! arr := sync_array_enter arr in
  let! report := sync_array_print_info_low arr objs now in
  Ok (sync_array_exit arr, report).

(** Lines 1390-1400 and 1402-1433. *)
Definition sync_arr_get_n_items (size count : Z) (arrs : list sync_array_t) : res nat :=
  match arrs !! (sync_array_get size count).2 with Some a => Ok (n_cells a) | None => Fault end.

Definition sync_arr_get_item (size count : Z) (arrs : list sync_array_t) (i : nat) : res (option sync_cell_t) :=
  match arrs !! (sync_array_get size count).2 with
  | Some a =>
      let! c := sync_array_get_nth_cell a i in
      Ok (if negb (wait_object c =? 0) && waiting c then Some c else None)
  | None => Fault
  end.

(** ** What is reported *)

Definition is_waiting (c : sync_cell_t) : bool := negb (wait_object c =? 0) && waiting c.

Definition diff (now : Z) (c : sync_cell_t) : Z := now - reservation_time c.

(** The fields after a prefix of the cells. *)
Record scanned (now threshold : Z) (s0 : long_waits) (cells : list sync_cell_t) (s : long_waits) : Prop := Scanned {
  scan_fatal : fatal s = true <->
    fatal s0 = true \/ exists c, c ∈ cells /\ is_waiting c = true /\ threshold < diff now c;
  scan_noticed : noticed s = true <->
    noticed s0 = true \/ exists c, c ∈ cells /\ is_waiting c = true /\ SYNC_ARRAY_TIMEOUT < diff now c;
  scan_longest : longest_diff s0 <= longest_diff s;
  scan_bound : forall c, c ∈ cells -> is_waiting c = true -> diff now c <= longest_diff s;
  scan_from : (longest_diff s = longest_diff s0 /\ sema s = sema s0 /\ waiter s = waiter s0) \/
    exists c, c ∈ cells /\ is_waiting c = true /\ longest_diff s = diff now c /\
      sema s = wait_object c /\ waiter s = cell_thread c
}.

Lemma scanned_nil now threshold s : scanned now threshold s [] s.
Proof.
  constructor.
  - split; [by left|]. intros [|(c & Hc%elem_of_nil & _)]; done.
  - split; [by left|]. intros [|(c & Hc%elem_of_nil & _)]; done.
  - lia.
  - by intros c Hc%elem_of_nil.
  - by left.
Qed.

Lemma exists_cons {A} (P : A -> Prop) x l : (exists c, c ∈ x :: l /\ P c) <-> P x \/ exists c, c ∈ l /\ P c.
Proof.
  split.
  - intros (c & [->|Hc]%elem_of_cons & Hp); eauto.
  - intros [Hp|(c & Hc & Hp)]; [exists x; split; [left|done]|exists c; split; [by right|done]].
Qed.

Lemma scanned_cons objs now threshold c cells s0 s1 s :
  long_wait_cell objs now threshold c s0 = Ok s1 -> scanned now threshold s1 cells s ->
  scanned now threshold s0 (c :: cells) s.
Proof.
  intros H1 [Hf Hn Hl Hb Hfrom]. unfold long_wait_cell in H1.
  assert ((wait_object c =? 0) || negb (waiting c) = negb (is_waiting c)) as Hw
    by (unfold is_waiting; by destruct (wait_object c =? 0), (waiting c)).
  rewrite Hw in H1. destruct (is_waiting c) eqn:Ew; cbn [negb] in H1.
  2: { injection H1 as <-. constructor.
       - rewrite Hf, exists_cons, Ew. intuition done.
       - rewrite Hn, exists_cons, Ew. intuition done.
       - done.
       - intros c' [->|Hc']%elem_of_cons Hw'; [congruence|by apply Hb].
       - rewrite exists_cons. by destruct Hfrom; auto. }
  inv_ok. destruct x as [items ntd]. inv_ok.
  assert (fatal s1 = fatal s0 || (threshold <? diff now c)) as E1 by by subst.
  assert (noticed s1 = noticed s0 || (SYNC_ARRAY_TIMEOUT <? diff now c)) as E2.
  { subst s1. simpl. unfold diff. destruct (SYNC_ARRAY_TIMEOUT <? now - reservation_time c).
    - inv_ok. destruct x. inv_ok. simplify_eq. by rewrite orb_true_r.
    - simplify_eq. by rewrite orb_false_r. }
  assert (longest_diff s1 = Z.max (longest_diff s0) (diff now c)) as E3
    by (subst s1; simpl; unfold diff; destruct (Z.ltb_spec (longest_diff s0) (now - reservation_time c)); lia).
  constructor.
  - rewrite Hf, E1, orb_true_iff, Z.ltb_lt, exists_cons, Ew. intuition done.
  - rewrite Hn, E2, orb_true_iff, Z.ltb_lt, exists_cons, Ew. intuition done.
  - lia.
  - intros c' [->|Hc']%elem_of_cons Hw'; [lia|by apply Hb].
  - rewrite exists_cons. destruct Hfrom as [(Hd & Hs & Hwt)|Hin]; [|by auto]. rewrite Hd, Hs, Hwt.
    subst s1. simpl. unfold diff. destruct (longest_diff s0 <? now - reservation_time c); auto 8.
Qed.

Lemma long_wait_loop_scanned objs now threshold cells s0 s :
  long_wait_loop objs now threshold cells s0 = Ok s -> scanned now threshold s0 cells s.
Proof.
  revert s0. induction cells as [|c cells IH]; intros s0 H; simpl in H; inv_ok; [subst; apply scanned_nil|].
  eapply scanned_cons; [done|by apply IH].
Qed.

(** When the report returns, it has signalled a fatal wait exactly if some
    thread has waited longer than the threshold, and the thread and the
    semaphore it names are those of a longest wait. *)
Theorem long_waits_reported fuel arr objs now threshold extension s0 s c :
  threshold <= extension ->
  sync_array_print_long_waits_low fuel arr objs now threshold extension s0 = Some (Ok s) ->
  c ∈ array arr -> is_waiting c = true -> 0 < diff now c ->
  (fatal s = true <-> exists c', c' ∈ array arr /\ is_waiting c' = true /\ threshold < diff now c') /\
  exists w, w ∈ array arr /\ is_waiting w = true /\ sema s = wait_object w /\ waiter s = cell_thread w /\
    forall c', c' ∈ array arr -> is_waiting c' = true -> diff now c' <= diff now w.
Proof.
  intros Hle H Hc Hw Hd. unfold sync_array_print_long_waits_low in H.
  rewrite (proj2 (Z.ltb_ge _ _)) in H by lia.
  destruct (long_wait_loop _ _ _ _ _) as [s1| |] eqn:El; [|done..].
  apply long_wait_loop_scanned in El as [Hf Hn Hl Hb Hfrom]. cbn [fatal noticed longest_diff sema waiter] in *.
  assert (fatal s = fatal s1 /\ sema s = sema s1 /\ waiter s = waiter s1) as (-> & -> & ->)
    by (repeat case_match; by simplify_eq).
  split; [rewrite Hf; intuition done|].
  destruct Hfrom as [[Hz _]|(w & Hw1 & Hw2 & Hlong & Hs & Hwt)].
  - pose proof (Hb c Hc Hw). lia.
  - exists w. rewrite <- Hlong. auto.
Qed.

(** ** The protection against a loop *)

(** Threads 8 and 9 hold a latch each exclusively and wait for the other's. *)
Definition latch (writer : Z) : sync_object :=
  RwLock (mkRwLock 0 1 writer os_event_create os_event_create [mkDebug writer 0 RW_LOCK_EX]).

Definition crossed_latches : objects := {[ 100 := latch 9; 200 := latch 8 ]}.

Definition crossed_waits : sync_array_t :=
  mkArray 2 2 [mkCell 100 0 100 RW_LOCK_EX "a.cc" 1 8 true 1 0; mkCell 200 0 200 RW_LOCK_EX "b.cc" 2 9 true 1 0]
    false 2.

Lemma crossed_lookup : crossed_latches !! 100 = Some (latch 9) /\ crossed_latches !! 200 = Some (latch 8).
Proof. split; by vm_compute. Qed.

Lemma crossed_chain fuel now :
  writer_chain fuel crossed_waits crossed_latches now 8 0 = None /\
  writer_chain fuel crossed_waits crossed_latches now 9 0 = None.
Proof.
  induction fuel as [|fuel [IH8 IH9]]; [done|]. split; cbn [writer_chain].
  - change (8 =? ULINT_UNDEFINED) with false. cbn -[writer_chain]. rewrite (proj1 crossed_lookup).
    cbn -[writer_chain]. by rewrite IH9.
  - change (9 =? ULINT_UNDEFINED) with false. cbn -[writer_chain]. rewrite (proj2 crossed_lookup).
    cbn -[writer_chain]. by rewrite IH8.
Qed.

(** The counter that should stop the chain of writers is never incremented:
    the report of two threads that wait for each other's latches never ends,
    however many rounds it is given. *)
Theorem writer_chain_never_ends fuel now :
  240 < now ->
  sync_array_print_long_waits_low fuel crossed_waits crossed_latches now 600 7200
    (mkLong false false 0 0 0 []) = None.
Proof.
  intros Hnow. unfold sync_array_print_long_waits_low. cbn [Z.ltb]. change (7200 <? 600) with false. cbn iota.
  destruct (long_wait_loop _ _ _ _ _) as [s| |] eqn:El.
  - pose proof (long_wait_loop_scanned _ _ _ _ _ _ El) as Hs. rewrite (proj2 (scan_noticed _ _ _ _ _ Hs)).
    + cbn -[writer_chain]. rewrite (proj1 crossed_lookup). cbn -[writer_chain].
      by rewrite (proj2 (crossed_chain fuel now)).
    + right. exists (mkCell 100 0 100 RW_LOCK_EX "a.cc" 1 8 true 1 0). split; [left|]. split; [done|].
      unfold diff, SYNC_ARRAY_TIMEOUT. simpl. lia.
  - exfalso. revert El. cbn. unfold long_wait_cell. cbn.
    rewrite (proj1 crossed_lookup), (proj2 crossed_lookup). by destruct (SYNC_ARRAY_TIMEOUT <? now - 0).
  - exfalso. revert El. cbn. unfold long_wait_cell. cbn.
    rewrite (proj1 crossed_lookup), (proj2 crossed_lookup). by destruct (SYNC_ARRAY_TIMEOUT <? now - 0).
Qed.

Lemma writer_chain_never_ends_witness :
  sync_array_print_long_waits_low 1000 crossed_waits crossed_latches 300 600 7200
    (mkLong false false 0 0 0 []) = None.
Proof. apply (writer_chain_never_ends 1000 300). lia. Defined.

(** One thread that has waited for 300 seconds. *)
Definition one_wait : sync_array_t :=
  mkArray 1 2 [mkCell 100 0 100 RW_LOCK_EX "a.cc" 1 8 true 1 0; empty_cell] false 1.

Definition one_report : long_waits :=
  match sync_array_print_long_waits_low 10 one_wait crossed_latches 300 200 7200 (mkLong false false 0 0 0 []) with
  | Some (Ok s) => s
  | _ => mkLong false false 0 0 0 []
  end.

Lemma long_waits_reported_witness :
  (fatal one_report = true <-> exists c', c' ∈ array one_wait /\ is_waiting c' = true /\ 200 < diff 300 c') /\
  exists w, w ∈ array one_wait /\ is_waiting w = true /\ sema one_report = wait_object w /\
    waiter one_report = cell_thread w /\
    forall c', c' ∈ array one_wait -> is_waiting c' = true -> diff 300 c' <= diff 300 w.
Proof.
  eapply (long_waits_reported 10 one_wait crossed_latches 300 200 7200 (mkLong false false 0 0 0 []));
    [lia|by vm_compute|left|by vm_compute|by vm_compute].
Defined.
End SyncReport.
