(* ===== verification/MutexList.v ===== *)
(** * The registry of mutexes (sync/sync0sync.cc)

    Creation, release and enumeration of the mutexes of the server: the
    functions around the global [mutex_list], on the lists of [UtList], in the
    debug build, for one thread at a time. *)
From stdpp Require Import strings.
From S2P Require Import Prelude Results UtList OsEvent.
Local Open Scope Z_scope.

Module MutexList.
Import UtList OsEvent.
Local Open Scope mc_scope.

(** [ib_mutex_t] of include/sync0sync.h. *)
Record ib_mutex := mkIbMutex {
  lock_word : Z; waiters : Z; thread_id : Z; event : os_event; magic_n : Z; level : Z;
  file_name : string; line : Z; cfile_name : string; cline : Z; cmutex_name : string;
  count_os_wait : Z }.

Definition MUTEX_MAGIC_N : Z := 979585.
Definition ULINT_UNDEFINED : Z := 2 ^ 64 - 1.

(** The mutexes by address, the fields only priority mutexes have, and the
    global list. *)
Record state := mkState {
  mutexes : gmap nat ib_mutex;
  prio : gmap nat (Z * os_event);
  mutex_list : ut_list }.

Definition set_mutexes (ms : gmap nat ib_mutex) (s : state) : state := mkState ms (prio s) (mutex_list s).
Definition set_list (l : ut_list) (s : state) : state := mkState (mutexes s) (prio s) l.

Definition set_lock (w th : Z) (m : ib_mutex) : ib_mutex :=
  mkIbMutex w (waiters m) th (event m) (magic_n m) (level m) (file_name m) (line m) (cfile_name m)
    (cline m) (cmutex_name m) (count_os_wait m).

Definition set_waiters (w : Z) (e : os_event) (m : ib_mutex) : ib_mutex :=
  mkIbMutex (lock_word m) w (thread_id m) e (magic_n m) (level m) (file_name m) (line m) (cfile_name m)
    (cline m) (cmutex_name m) (count_os_wait m).

Definition set_magic (n : Z) (m : ib_mutex) : ib_mutex :=
  mkIbMutex (lock_word m) (waiters m) (thread_id m) (event m) n (level m) (file_name m) (line m) (cfile_name m)
    (cline m) (cmutex_name m) (count_os_wait m).

Section registry.
(** The address of the mutex that protects the list, and the calling thread. *)
Context (mutex_list_mutex : nat) (self : Z).

(** Lines 555-575. *)
Definition mutex_validate (x : nat) (s : state) : res unit :=
  let! m := deref (mutexes s !! x) in ut_a (magic_n m =? MUTEX_MAGIC_N).

(** Lines 577-604. *)
Definition mutex_own (x : nat) (s : state) : res bool :=
  let! _ := mutex_validate x s in
  let! m := deref (mutexes s !! x) in Ok ((lock_word m =? 1) && (thread_id m =? self)).

(** Lines 520-553: 0 is success. *)
Definition mutex_enter_nowait_func (x : nat) (s : state) : res (Z * state) :=
  let! _ := mutex_validate x s in
  let! m := deref (mutexes s !! x) in
  if lock_word m =? 0 then Ok (0, set_mutexes (<[x := set_lock 1 self m]> (mutexes s)) s)
  else Ok (1, s).

(** [mutex_enter] when nobody else runs. *)
Definition mutex_enter (x : nat) (s : state) : res state :=
  let! (failed, s) := mutex_enter_nowait_func x s in
  if failed =? 0 then Ok s else Blocked.

(** [mutex_exit_func], lines 159-197 of sync0sync.ic. *)
Definition mutex_exit (x : nat) (s : state) : res state :=
  let! own := mutex_own x s in
  let! _ := ut_a own in
  let! m := deref (mutexes s !! x) in
  let m := set_lock 0 ULINT_UNDEFINED m in
  let m := if waiters m =? 0 then m else set_waiters 0 (os_event_set (event m)) m in
  Ok (set_mutexes (<[x := m]> (mutexes s)) s).

(** Lines 288-307 and 354-373: the fields of a new mutex.  The owner is not
    initialised. *)
Definition mutex_fields (lvl : Z) (cfile : string) (cl : Z) (cname : string) (old : option ib_mutex) : ib_mutex :=
  mkIbMutex 0 0 (match old with Some m => thread_id m | None => 0 end) os_event_create MUTEX_MAGIC_N lvl
    "not yet reserved" 0 cfile cl cname 0.

(** The check of lines 324-325 and 393-394 on the head of the list. *)
Definition head_ok (s : state) : res unit :=
  if count (base (mutex_list s)) =? 0 then Ok tt
  else
    let! x := deref (start (base (mutex_list s))) in
    let! m := deref (mutexes s !! x) in ut_a (magic_n m =? MUTEX_MAGIC_N).

(** [UT_LIST_ADD_FIRST(list, mutex_list, mutex)] *)
Definition add_first (x : nat) (s : state) : res state :=
  let! l := deref (ut_list_prepend x (mutex_list s)) in Ok (set_list l s).

Definition list_remove (x : nat) (s : state) : res state :=
  let! l := deref (ut_list_remove x (mutex_list s)) in Ok (set_list l s).

(** Lines 338-405: the list is changed without its mutex. *)
Definition mutex_create_func (x : nat) (lvl : Z) (cfile : string) (cl : Z) (cname : string) (s : state) : res state :=
  let s := set_mutexes (<[x := mutex_fields lvl cfile cl cname (mutexes s !! x)]> (mutexes s)) s in
  if (x =? mutex_list_mutex)%nat then Ok s
  else let! _ := head_ok s in add_first x s.

(** Lines 269-333: the same with the mutex; [instance_no] is not used. *)
Definition split_mutex_create_func (x : nat) (lvl : Z) (cfile : string) (cl : Z) (cname : string)
    (instance_no : Z) (s : state) : res state :=
  let s := set_mutexes (<[x := mutex_fields lvl cfile cl cname (mutexes s !! x)]> (mutexes s)) s in
  if (x =? mutex_list_mutex)%nat then Ok s
  else
    let! s := mutex_enter mutex_list_mutex s in
    let! _ := head_ok s in
    let! s := add_first x s in mutex_exit mutex_list_mutex s.

(** Lines 410-442. *)
Definition prio_mutex_create_func (x : nat) (lvl : Z) (cfile : string) (cl : Z) (cname : string) (s : state) : res state :=
  let! s := mutex_create_func x lvl cfile cl cname s in
  Ok (mkState (mutexes s) (<[x := (0, os_event_create)]> (prio s)) (mutex_list s)).

(** The check of lines 476-481 on a neighbour. *)
Definition neighbour_ok (p : option nat) (s : state) : res unit :=
  match p with
  | None => Ok tt
  | Some y => let! m := deref (mutexes s !! y) in ut_a (magic_n m =? MUTEX_MAGIC_N)
  end.

(** Lines 444-502.  The operating-system part of the event is released too. *)
Definition mutex_free_func (x : nat) (s : state) : res state :=
  let! _ := mutex_validate x s in
  let! m := deref (mutexes s !! x) in
  let! _ := ut_a (lock_word m =? 0) in
  let! _ := ut_a (waiters m =? 0) in
  let! s :=
    (if (x =? mutex_list_mutex)%nat then Ok s
     else
       let! s := mutex_enter mutex_list_mutex s in
       let! nd := deref (nodes (mutex_list s) !! x) in
       let! _ := neighbour_ok (prev nd) s in
       let! _ := neighbour_ok (next nd) s in
       let! s := list_remove x s in mutex_exit mutex_list_mutex s) in
  let! m := deref (mutexes s !! x) in
  Ok (set_mutexes (<[x := set_magic 0 m]> (mutexes s)) s).

(** Lines 504-518. *)
Definition prio_mutex_free_func (x : nat) (s : state) : res state :=
  let! p := deref (prio s !! x) in
  let! _ := ut_a (p.1 =? 0) in mutex_free_func x s.

(** The elements the enumerations visit, from [UT_LIST_GET_FIRST] along
    [UT_LIST_GET_NEXT]; a list that closes on itself is enumerated for ever. *)
Definition members (s : state) : res (list nat) :=
  match map_loop (size (nodes (mutex_list s))) (nodes (mutex_list s)) (start (base (mutex_list s))) with
  | Some xs => Ok xs
  | None => Fault
  end.

(** The locked ones, with what [mutex_get_debug_info] reads (lines 830-847). *)
Fixpoint locked_members (xs : list nat) (s : state) : res (list (nat * string * Z * Z)) :=
  match xs with
  | [] => Ok []
  | x :: xs =>
      let! m := deref (mutexes s !! x) in
      let! rest := locked_members xs s in
      Ok (if lock_word m =? 0 then rest else (x, file_name m, line m, thread_id m) :: rest)
  end.

(** Lines 849-887: the report and the number of mutexes. *)
Definition mutex_list_print_info (s : state) : res (state * (list (nat * string * Z * Z) * Z)) :=
  let! s := mutex_enter mutex_list_mutex s in
  let! xs := members s in
  let! locked := locked_members xs s in
  let! s := mutex_exit mutex_list_mutex s in
  Ok (s, (locked, Z.of_nat (length xs))).

(** Lines 889-920. *)
Definition mutex_n_reserved (s : state) : res (state * Z) :=
  let! s := mutex_enter mutex_list_mutex s in
  let! xs := members s in
  let! locked := locked_members xs s in
  let! s := mutex_exit mutex_list_mutex s in
  let! _ := ut_a (1 <=? Z.of_nat (length locked)) in
  Ok (s, Z.of_nat (length locked) - 1).

(** Lines 922-932; the number of locked rw-locks is an argument. *)
Definition sync_all_freed (rw_lock_n_locked : Z) (s : state) : res (state * bool) :=
  let! (s, n) := mutex_n_reserved s in Ok (s, n + rw_lock_n_locked =? 0).

(** Lines 1606-1650, the mutexes of it. *)
Definition sync_init (rw_lock_list_mutex : nat) (m : gmap nat ut_list_node) : res state :=
  let s := mkState ∅ ∅ (UT_LIST_INIT m) in
  let! s := mutex_create_func mutex_list_mutex 3000 "sync0sync.cc" 1632 "&mutex_list_mutex" s in
  mutex_create_func rw_lock_list_mutex 3000 "sync0sync.cc" 1642 "&rw_lock_list_mutex" s.

(** The loop of lines 1689-1705: the first mutex is freed until none is left. *)
Fixpoint close_loop (fuel : nat) (s : state) : res state :=
  match start (base (mutex_list s)) with
  | None => Ok s
  | Some x =>
      match fuel with
      | O => Fault
      | S fuel => let! s := mutex_free_func x s in close_loop fuel s
      end
  end.

(** Lines 1677-1719, the mutexes of it.  The loop takes at most as many rounds
    as there are nodes. *)
Definition sync_close (rw_lock_list_mutex : nat) (s : state) : res state :=
  let! s := mutex_free_func rw_lock_list_mutex s in
  let! s := close_loop (size (nodes (mutex_list s))) s in
  mutex_free_func mutex_list_mutex s.

(** ** The registry as a sequence of mutexes *)

Definition initialised (s : state) (x : nat) : Prop :=
  exists m, mutexes s !! x = Some m /\ magic_n m = MUTEX_MAGIC_N.

(** A mutex nobody holds or waits for. *)
Definition idle (s : state) (x : nat) : Prop :=
  exists m, mutexes s !! x = Some m /\ magic_n m = MUTEX_MAGIC_N /\ lock_word m = 0 /\ waiters m = 0.

Record registry (s : state) (xs : list nat) : Prop := Registry {
  reg_rep : UtList.rep (mutex_list s) xs;
  reg_not_list : mutex_list_mutex ∉ xs;
  reg_list_idle : idle s mutex_list_mutex;
  reg_members : forall x, x ∈ xs -> initialised s x
}.

Lemma idle_initialised s x : idle s x -> initialised s x.
Proof. intros (m & Hm & Hg & _). by exists m. Qed.

Lemma validate_initialised s x : initialised s x -> mutex_validate x s = Ok tt.
Proof. intros (m & Hm & Hg). unfold mutex_validate. rewrite Hm. simpl. by rewrite Hg. Qed.

(** What a protected section does to the mutex of the list. *)
Definition held (s : state) : state :=
  match mutexes s !! mutex_list_mutex with
  | Some m => set_mutexes (<[mutex_list_mutex := set_lock 1 self m]> (mutexes s)) s
  | None => s
  end.

Definition released (s : state) : state :=
  match mutexes s !! mutex_list_mutex with
  | Some m => set_mutexes (<[mutex_list_mutex := set_lock 0 ULINT_UNDEFINED m]> (mutexes s)) s
  | None => s
  end.

Lemma enter_idle s : idle s mutex_list_mutex -> mutex_enter mutex_list_mutex s = Ok (held s).
Proof.
  intros Hi. pose proof (idle_initialised _ _ Hi) as Hv. destruct Hi as (m & Hm & Hg & Hl & Hw).
  unfold mutex_enter, mutex_enter_nowait_func, held. rewrite validate_initialised, Hm by done. simpl.
  by rewrite Hl.
Qed.

(** Leaving a section in which only the list has changed. *)
Lemma exit_held s l :
  idle s mutex_list_mutex -> mutex_exit mutex_list_mutex (set_list l (held s)) = Ok (set_list l (released s)).
Proof.
  intros (m & Hm & Hg & Hl & Hw). unfold mutex_exit, mutex_own, held, released. rewrite Hm.
  rewrite validate_initialised.
  2: { exists (set_lock 1 self m). simpl. by rewrite lookup_insert_eq. }
  simpl. rewrite lookup_insert_eq. simpl. rewrite Z.eqb_refl. simpl. rewrite Hw. simpl.
  by rewrite insert_insert_eq.
Qed.

Lemma released_lookup s x :
  x <> mutex_list_mutex -> mutexes (released s) !! x = mutexes s !! x.
Proof.
  intros Hne. unfold released. destruct (mutexes s !! mutex_list_mutex); [|done]. simpl.
  by rewrite lookup_insert_ne.
Qed.

Lemma held_initialised s x : initialised s x -> initialised (held s) x.
Proof.
  intros (m & Hm & Hg). unfold held. destruct (mutexes s !! mutex_list_mutex) as [m0|] eqn:E0; [|by exists m].
  destruct (decide (mutex_list_mutex = x)) as [<-|Hne].
  - exists (set_lock 1 self m0). simpl. rewrite lookup_insert_eq. split; [done|]. simpl. congruence.
  - exists m. simpl. by rewrite lookup_insert_ne.
Qed.

Lemma released_idle s l : idle s mutex_list_mutex -> idle (set_list l (released s)) mutex_list_mutex.
Proof.
  intros (m & Hm & Hg & Hl & Hw). unfold released. rewrite Hm. exists (set_lock 0 ULINT_UNDEFINED m).
  simpl. by rewrite lookup_insert_eq.
Qed.

Lemma head_registry s xs :
  UtList.rep (mutex_list s) xs -> (forall x, x ∈ xs -> initialised s x) -> head_ok s = Ok tt.
Proof.
  intros Hr Hm. unfold head_ok. rewrite (rep_count _ _ Hr), (rep_start _ _ Hr).
  destruct xs as [|x xs]; simpl; [done|]. destruct (Hm x ltac:(left)) as (m & Hx & Hg). rewrite Hx. simpl.
  by rewrite Hg.
Qed.

(** A mutex is created at an allocated address outside the list. *)
Definition creatable (s : state) (xs : list nat) (x : nat) : Prop :=
  x <> mutex_list_mutex /\ x ∉ xs /\ is_Some (nodes (mutex_list s) !! x) /\
  (Z.of_nat (length xs) + 1 < 2 ^ 64)%Z.

Lemma create_ok s xs x lvl cf cl cn :
  registry s xs -> creatable s xs x ->
  exists s', mutex_create_func x lvl cf cl cn s = Ok s' /\ registry s' (x :: xs) /\ idle s' x /\
    (forall y, y <> x -> mutexes s' !! y = mutexes s !! y) /\
    forall y, is_Some (nodes (mutex_list s) !! y) -> is_Some (nodes (mutex_list s') !! y).
Proof.
  intros [Hr Hno Hi Hm] (Hx & Hxs & Hnd & Hlen). unfold mutex_create_func.
  set (s1 := set_mutexes _ s). rewrite (proj2 (Nat.eqb_neq _ _) Hx).
  assert (forall y, y <> x -> mutexes s1 !! y = mutexes s !! y) as Hsame
    by (intros y Hy; simpl; by rewrite lookup_insert_ne).
  assert (idle s1 x) as Hidle by (eexists; simpl; rewrite lookup_insert_eq; done).
  assert (forall y, y ∈ x :: xs -> initialised s1 y) as Hall.
  { intros y [->|Hy]%elem_of_cons; [by apply idle_initialised|].
    unfold initialised. rewrite Hsame by set_solver. by apply Hm. }
  rewrite (head_registry s1 xs) by (done || (intros; apply Hall; by right)). cbn [rbind].
  destruct (ut_list_prepend_rep (mutex_list s1) xs x) as (l' & El & Hr' & Ho); try done.
  unfold add_first. rewrite El. cbn [deref rbind]. exists (set_list l' s1). split; [done|].
  split; [|split_and!; [done|done|intros y; by eapply rep_alloc]]. constructor; simpl; [done|set_solver| |exact Hall].
  unfold idle in *. simpl. by rewrite lookup_insert_ne.
Qed.

Lemma split_create_ok s xs x lvl cf cl cn n :
  registry s xs -> creatable s xs x ->
  exists s', split_mutex_create_func x lvl cf cl cn n s = Ok s' /\ registry s' (x :: xs) /\ idle s' x.
Proof.
  intros Hreg (Hx & Hxs & Hnd & Hlen). destruct (create_ok s xs x lvl cf cl cn) as (s' & Ec & Hreg' & Hidle & _); [done..|].
  unfold mutex_create_func, split_mutex_create_func in *. set (s1 := set_mutexes _ s) in *.
  rewrite (proj2 (Nat.eqb_neq _ _) Hx) in *. unfold add_first in *. inv_ok. rename x1 into l'.
  assert (idle s1 mutex_list_mutex) as Hi1.
  { destruct Hreg as [_ _ Hi _]. unfold idle in *. simpl. by rewrite lookup_insert_ne. }
  rewrite enter_idle by done. cbn [rbind].
  assert (mutex_list (held s1) = mutex_list s1) as Hsame by (unfold held; by case_match).
  rewrite (head_registry (held s1) xs).
  2: { rewrite Hsame. apply Hreg. }
  2: { intros y Hy. apply held_initialised. destruct (reg_members _ _ Hreg' y ltac:(by right)) as (m & Hym & Hg).
       exists m. split; [|done]. by rewrite <- Ec in Hym. }
  cbn [rbind]. rewrite Hsame, H0. cbn [deref rbind]. rewrite exit_held by done.
  eexists. split; [reflexivity|]. subst s'. destruct Hreg' as [Hr' Hno' _ Hm']. split.
  - constructor; simpl; [done|done|by apply released_idle|].
    intros y Hy. destruct (Hm' y Hy) as (m & Hym & Hg). exists m. split; [|done].
    simpl. by rewrite released_lookup by (intros ->; done).
  - destruct Hidle as (m & Hxm & Hg). exists m. split; [|done]. simpl. by rewrite released_lookup.
Qed.

Lemma member_node l xs x ys :
  UtList.rep l (xs ++ x :: ys) -> nodes l !! x = Some (mkNode (final None xs) (first None ys)).
Proof. intros [Hs _ _ _ _ _]. apply dseg_app in Hs as [_ [Hx _]]. done. Qed.

Lemma neighbour_initialised s p : (forall y, p = Some y -> initialised s y) -> neighbour_ok p s = Ok tt.
Proof.
  destruct p as [y|]; simpl; [|done]. intros H. destruct (H y eq_refl) as (m & Hm & Hg). rewrite Hm. simpl.
  by rewrite Hg.
Qed.

Lemma free_ok s xs x ys :
  registry s (xs ++ x :: ys) -> idle s x ->
  exists s', mutex_free_func x s = Ok s' /\ registry s' (xs ++ ys) /\
    (exists m, mutexes s' !! x = Some m /\ magic_n m = 0) /\
    forall y, y <> x -> y <> mutex_list_mutex -> mutexes s' !! y = mutexes s !! y.
Proof.
  intros [Hr Hno Hi Hm] Hx. pose proof (idle_initialised _ _ Hx) as Hv.
  assert (x <> mutex_list_mutex) as Hne by set_solver.
  pose proof (rep_nodup _ _ Hr) as Hnd. apply NoDup_app in Hnd as (Hndx & Hdis & Hndy%NoDup_cons).
  destruct Hx as (m & Hxm & Hg & Hl & Hw). unfold mutex_free_func.
  rewrite validate_initialised, Hxm by done. cbn [rbind deref]. rewrite Hl, Hw. cbn [rbind ut_a].
  rewrite (proj2 (Nat.eqb_neq _ _) Hne), enter_idle by done. cbn [rbind].
  assert (mutex_list (held s) = mutex_list s) as Hsame by (unfold held; by case_match).
  rewrite Hsame, (member_node _ _ _ _ Hr). cbn [deref rbind prev next].
  rewrite !neighbour_initialised; cbn [rbind].
  2: { intros y Hy. apply held_initialised, Hm. apply first_elem in Hy as [?|?]; [done|set_solver]. }
  2: { intros y Hy. apply held_initialised, Hm. apply final_elem in Hy as [?|?]; [done|set_solver]. }
  destruct (ut_list_remove_rep (mutex_list s) xs x ys Hr) as (l' & El & Hr' & _).
  unfold list_remove. rewrite Hsame, El. cbn [deref rbind]. rewrite exit_held by done. cbn [rbind].
  assert (mutexes (set_list l' (released s)) !! x = Some m) as Hx' by (simpl; by rewrite released_lookup).
  rewrite Hx'. cbn [deref rbind]. eexists. split; [reflexivity|]. split; [|split_and!].
  - constructor; simpl; [done|set_solver| |].
    + unfold idle. simpl. rewrite lookup_insert_ne by done.
      apply (released_idle s l') in Hi. exact Hi.
    + intros y Hy. assert (y <> x) as Hyx by (intros ->; set_solver).
      unfold initialised. simpl. rewrite lookup_insert_ne, released_lookup by set_solver. apply Hm. set_solver.
  - exists (set_magic 0 m). simpl. by rewrite lookup_insert_eq.
  - intros y Hy Hyl. simpl. by rewrite lookup_insert_ne, released_lookup by done.
Qed.

(** Creating a mutex puts it at the head of the registry, reset, with or
    without the mutex of the list; freeing it takes it out again and leaves
    every other mutex as it was. *)
Theorem create_free_roundtrip s xs x lvl cf cl cn n :
  registry s xs -> creatable s xs x ->
  exists s1 s2 s3,
    mutex_create_func x lvl cf cl cn s = Ok s1 /\ registry s1 (x :: xs) /\
    split_mutex_create_func x lvl cf cl cn n s = Ok s2 /\ registry s2 (x :: xs) /\
    mutex_free_func x s1 = Ok s3 /\ registry s3 xs /\
    forall y, y <> x -> y <> mutex_list_mutex -> mutexes s3 !! y = mutexes s !! y.
Proof.
  intros Hreg Hc. destruct (create_ok s xs x lvl cf cl cn Hreg Hc) as (s1 & E1 & R1 & I1 & K1 & _).
  destruct (split_create_ok s xs x lvl cf cl cn n Hreg Hc) as (s2 & E2 & R2 & _).
  destruct (free_ok s1 [] x xs R1 I1) as (s3 & E3 & R3 & _ & K3).
  exists s1, s2, s3. split_and!; try done. intros y Hy Hyl. by rewrite K3, K1.
Qed.

(** ** Counting the reserved mutexes *)

Definition is_locked (s : state) (x : nat) : Prop :=
  match mutexes s !! x with Some m => lock_word m <> 0 | None => False end.

#[global] Instance is_locked_dec s x : Decision (is_locked s x).
Proof. unfold is_locked. destruct (mutexes s !! x); apply _. Defined.

Lemma locked_members_ok s xs :
  (forall x, x ∈ xs -> initialised s x) ->
  exists l, locked_members xs s = Ok l /\ (fun i => i.1.1.1) <$> l = filter (is_locked s) xs.
Proof.
  induction xs as [|x xs IH]; intros H; [by exists []|]. simpl.
  destruct (H x ltac:(left)) as (m & Hm & _). rewrite Hm. simpl.
  destruct IH as (l & El & Hl); [intros y Hy; apply H; by right|]. rewrite El. simpl.
  rewrite filter_cons. assert (is_locked s x <-> lock_word m <> 0) as Hiff by (unfold is_locked; by rewrite Hm).
  destruct (Z.eqb_spec (lock_word m) 0) as [Hz|Hz]; case_decide; try tauto; eexists; (split; [reflexivity|]); [done|].
  by rewrite fmap_cons, Hl.
Qed.

Lemma members_ok s xs : UtList.rep (mutex_list s) xs -> members s = Ok xs.
Proof.
  intros [Hs Hst _ _ Hnd _]. unfold members. rewrite Hst, (map_loop_dseg _ xs None); [done|done|].
  by eapply rep_fits.
Qed.

Lemma is_locked_held s x : x <> mutex_list_mutex -> is_locked (held s) x <-> is_locked s x.
Proof.
  intros Hne. unfold is_locked, held. destruct (mutexes s !! mutex_list_mutex); [|done]. simpl.
  by rewrite lookup_insert_ne.
Qed.

Lemma filter_locked_held s (xs : list nat) :
  mutex_list_mutex ∉ xs -> filter (is_locked (held s)) xs = filter (is_locked s) xs.
Proof.
  induction xs as [|x xs IH]; intros Hno; [done|]. rewrite !filter_cons, IH by set_solver.
  pose proof (is_locked_held s x ltac:(set_solver)). repeat case_decide; tauto.
Qed.

Lemma set_list_held s : set_list (mutex_list s) (held s) = held s.
Proof. unfold held. destruct (mutexes s !! mutex_list_mutex); by destruct s. Qed.

(** [mutex_n_reserved] subtracts one for the mutex of the list, which is not
    in the list: it returns one less than the number of locked mutexes, and
    stops the server when none is locked.  So [sync_all_freed] answers TRUE
    exactly when one mutex is still locked. *)
Theorem n_reserved_off_by_one s xs :
  registry s xs ->
  let locked := filter (is_locked s) xs in
  (locked = [] -> mutex_n_reserved s = Fault) /\
  (locked <> [] -> exists s', mutex_n_reserved s = Ok (s', Z.of_nat (length locked) - 1) /\
     sync_all_freed 0 s = Ok (s', (length locked =? 1)%nat)).
Proof.
  intros [Hr Hno Hi Hm] locked.
  destruct (locked_members_ok (held s) xs) as (l & El & Hl).
  { intros x Hx. by apply held_initialised, Hm. }
  assert (length l = length locked) as Hlen.
  { rewrite <- (length_fmap (fun i => i.1.1.1) l), Hl. f_equal. apply filter_locked_held.
    done. }
  assert (mutex_list (held s) = mutex_list s) as Hsame by (unfold held; by case_match).
  assert (mutex_n_reserved s = let! _ := ut_a (1 <=? Z.of_nat (length locked)) in
    Ok (set_list (mutex_list s) (released s), Z.of_nat (length locked) - 1)) as E.
  { unfold mutex_n_reserved. rewrite enter_idle by done. cbn [rbind].
    rewrite (members_ok _ xs) by (by rewrite Hsame). cbn [rbind]. rewrite El. cbn [rbind].
    rewrite <- set_list_held, exit_held, Hlen by done. done. }
  split.
  - intros E0. rewrite E, E0. done.
  - intros Hne. destruct locked as [|x locked]; [done|].
    rewrite (proj2 (Z.leb_le 1 _)) in E by (simpl; lia). cbn [ut_a rbind] in E.
    eexists. rewrite E. split; [reflexivity|]. unfold sync_all_freed. rewrite E. cbn [rbind]. do 2 f_equal.
    destruct locked; simpl; [done|]. apply Z.eqb_neq. lia.
Qed.

(** ** Closing *)

Lemma idle_keep s s' x y :
  (forall z, z <> x -> z <> mutex_list_mutex -> mutexes s' !! z = mutexes s !! z) ->
  y <> x -> y <> mutex_list_mutex -> idle s y -> idle s' y.
Proof. intros H Hx Hl (m & Hm & Hrest). exists m. by rewrite H. Qed.

Lemma close_loop_ok s xs fuel :
  registry s xs -> (forall x, x ∈ xs -> idle s x) -> (length xs <= fuel)%nat ->
  exists s', close_loop fuel s = Ok s' /\ registry s' [] /\
    (forall x, x ∈ xs -> exists m, mutexes s' !! x = Some m /\ magic_n m = 0) /\
    forall y, y ∉ xs -> y <> mutex_list_mutex -> mutexes s' !! y = mutexes s !! y.
Proof.
  revert s fuel. induction xs as [|x xs IH]; intros s fuel Hr Hi Hf.
  - exists s. destruct fuel; simpl; rewrite (rep_start _ _ (reg_rep _ _ Hr)); simpl;
      split_and!; try done; set_solver.
  - destruct fuel as [|fuel]; [simpl in Hf; lia|]. simpl. rewrite (rep_start _ _ (reg_rep _ _ Hr)). simpl.
    destruct (free_ok s [] x xs Hr (Hi x ltac:(left))) as (s1 & E1 & R1 & (m & Hm & Hg) & K1).
    pose proof (rep_nodup _ _ (reg_rep _ _ Hr)) as [Hxs _]%NoDup_cons.
    pose proof (reg_not_list _ _ Hr) as Hnl.
    rewrite E1. cbn [rbind]. destruct (IH s1 fuel) as (s' & E' & R' & Hz & K'); try done.
    + intros y Hy. apply (idle_keep s s1 x); [done|set_solver|set_solver|]. apply Hi. by right.
    + simpl in Hf. lia.
    + exists s'. split_and!; try done.
      * intros y [->|Hy]%elem_of_cons; [|by apply Hz]. exists m. by rewrite K' by set_solver.
      * intros y Hy Hyl. rewrite K', K1 by set_solver. done.
Qed.

(** [sync_close] terminates when no mutex is in use: it frees every
    registered mutex, and the mutex of the list last. *)
Theorem sync_close_frees s xs rw :
  registry s xs -> rw ∈ xs -> (forall x, x ∈ xs -> idle s x) ->
  exists s', sync_close rw s = Ok s' /\ UtList.rep (mutex_list s') [] /\
    forall x, x = mutex_list_mutex \/ x ∈ xs -> exists m, mutexes s' !! x = Some m /\ magic_n m = 0.
Proof.
  intros Hr Hrw Hi. apply list_elem_of_split in Hrw as (a & b & ->).
  destruct (free_ok s a rw b Hr) as (s1 & E1 & R1 & (m & Hm & Hg) & K1); [apply Hi; set_solver|].
  pose proof (rep_nodup _ _ (reg_rep _ _ Hr)) as Hnd. apply NoDup_app in Hnd as (_ & Hdis & [Hb _]%NoDup_cons).
  pose proof (reg_not_list _ _ Hr) as Hnl.
  unfold sync_close. rewrite E1. cbn [rbind].
  destruct (close_loop_ok s1 (a ++ b) (size (nodes (mutex_list s1)))) as (s2 & E2 & R2 & Hz & K2).
  { done. }
  { intros y Hy. apply (idle_keep s s1 rw); [done|set_solver|set_solver|]. apply Hi. set_solver. }
  { eapply rep_fits; [apply R1|apply R1]. }
  rewrite E2. cbn [rbind]. pose proof (reg_list_idle _ _ R2) as Hl.
  unfold mutex_free_func. rewrite validate_initialised by (by apply idle_initialised).
  destruct Hl as (ml & Hml & _ & Hl0 & Hw0). rewrite Hml. cbn [rbind deref]. rewrite Hl0, Hw0, Nat.eqb_refl.
  cbn [rbind ut_a]. rewrite Hml. cbn [rbind deref]. eexists. split; [reflexivity|]. split; [apply R2|].
  intros x. simpl. destruct (decide (x = mutex_list_mutex)) as [->|Hne].
  - intros _. exists (set_magic 0 ml). by rewrite lookup_insert_eq.
  - intros [->|Hx]; [done|]. rewrite lookup_insert_ne by done.
    destruct (decide (x = rw)) as [->|Hxr]; [|apply Hz; set_solver].
    exists m. by rewrite K2 by set_solver.
Qed.

(** After [sync_init] the registry holds the mutex of the rw-lock list. *)
Lemma sync_init_registry rw m :
  rw <> mutex_list_mutex -> is_Some (m !! rw) ->
  exists s, sync_init rw m = Ok s /\ registry s [rw] /\ idle s rw.
Proof.
  intros Hne Hm. unfold sync_init. unfold mutex_create_func at 1. rewrite Nat.eqb_refl. cbn [rbind].
  set (s0 := set_mutexes _ _).
  assert (registry s0 []) as R0.
  { constructor; [apply ut_list_init_rep|set_solver| |set_solver].
    eexists. simpl. rewrite lookup_insert_eq. done. }
  destruct (create_ok s0 [] rw 3000 "sync0sync.cc" 1642 "&rw_lock_list_mutex" R0) as (s1 & E1 & R1 & I1 & _).
  { split_and!; [done|set_solver|done|done]. }
  eauto.
Qed.
End registry.

(** ** A small server *)

Definition memory : gmap nat ut_list_node :=
  {[ 1%nat := mkNode None None; 2%nat := mkNode (Some 7%nat) None; 3%nat := mkNode None None ]}.

Definition started : state :=
  match sync_init 0 1 memory with Ok s => s | _ => mkState ∅ ∅ (UT_LIST_INIT ∅) end.

Lemma started_ok : sync_init 0 1 memory = Ok started.
Proof. by vm_compute. Qed.

Lemma started_registry : registry 0 started [1%nat] /\ idle started 1%nat.
Proof.
  destruct (sync_init_registry 0 1 memory) as (s & Es & H); [done|by vm_compute; eexists|].
  rewrite started_ok in Es. by injection Es as <-.
Qed.

Lemma create_free_roundtrip_witness :
  exists s1 s2 s3,
    mutex_create_func 0 2 299 "lock0lock.cc" 10 "lock_sys" started = Ok s1 /\ registry 0 s1 [2; 1]%nat /\
    split_mutex_create_func 0 5 2 299 "lock0lock.cc" 10 "lock_sys" 0 started = Ok s2 /\ registry 0 s2 [2; 1]%nat /\
    mutex_free_func 0 5 2 s1 = Ok s3 /\ registry 0 s3 [1]%nat /\
    forall y, y <> 2%nat -> y <> 0%nat -> mutexes s3 !! y = mutexes started !! y.
Proof.
  apply (create_free_roundtrip 0 5 started [1%nat] 2 299 "lock0lock.cc" 10 "lock_sys" 0).
  - exact (proj1 started_registry).
  - split_and!; [done|set_solver|vm_compute; by eexists|simpl; lia].
Defined.

Lemma n_reserved_off_by_one_witness :
  let locked := filter (is_locked started) [1%nat] in
  (locked = [] -> mutex_n_reserved 0 5 started = Fault) /\
  (locked <> [] -> exists s', mutex_n_reserved 0 5 started = Ok (s', Z.of_nat (length locked) - 1) /\
     sync_all_freed 0 5 0 started = Ok (s', (length locked =? 1)%nat)).
Proof. apply (n_reserved_off_by_one 0 5 started [1%nat]). exact (proj1 started_registry). Defined.

Lemma sync_close_frees_witness :
  exists s', sync_close 0 5 1 started = Ok s' /\ UtList.rep (mutex_list s') [] /\
    forall x, x = 0%nat \/ x ∈ [1%nat] -> exists m, mutexes s' !! x = Some m /\ magic_n m = 0.
Proof.
  apply (sync_close_frees 0 5 started [1%nat] 1).
  - exact (proj1 started_registry).
  - left.
  - intros x Hx%list_elem_of_singleton. subst x. exact (proj2 started_registry).
Defined.
End MutexList.
