(* ===== verification/SyncLevels.v ===== *)
(** * The latching order (sync/sync0sync.cc, lines 934-1675)

    The debug build records the latches every thread holds and checks each
    new latch against them.  The checks are modelled case by case; the main
    theorem is what they are for: threads whose requests pass the checks of
    the strict levels cannot wait for each other in a circle. *)
From S2P Require Import Prelude Results.
Local Open Scope Z_scope.

Module SyncLevels.
Local Open Scope mc_scope.

(** Lines 847-935 of sync0sync.h. *)
Definition SYNC_NO_ORDER_CHECK : Z := 3000.
Definition SYNC_LEVEL_VARYING : Z := 2000.
Definition SYNC_TRX_I_S_RWLOCK : Z := 1910.
Definition SYNC_TRX_I_S_LAST_READ : Z := 1900.
Definition SYNC_FILE_FORMAT_TAG : Z := 1200.
Definition SYNC_DICT_OPERATION : Z := 1010.
Definition SYNC_FTS_CACHE : Z := 1005.
Definition SYNC_DICT : Z := 1000.
Definition SYNC_DICT_AUTOINC_MUTEX : Z := 999.
Definition SYNC_STATS_AUTO_RECALC : Z := 997.
Definition SYNC_DICT_HEADER : Z := 995.
Definition SYNC_IBUF_HEADER : Z := 914.
Definition SYNC_IBUF_PESS_INSERT_MUTEX : Z := 912.
Definition SYNC_INDEX_TREE : Z := 900.
Definition SYNC_TREE_NODE_NEW : Z := 892.
Definition SYNC_TREE_NODE_FROM_HASH : Z := 891.
Definition SYNC_TREE_NODE : Z := 890.
Definition SYNC_PURGE_LATCH : Z := 800.
Definition SYNC_TRX_UNDO : Z := 700.
Definition SYNC_RSEG : Z := 600.
Definition SYNC_RSEG_HEADER_NEW : Z := 591.
Definition SYNC_RSEG_HEADER : Z := 590.
Definition SYNC_TRX_UNDO_PAGE : Z := 570.
Definition SYNC_EXTERN_STORAGE : Z := 500.
Definition SYNC_FSP : Z := 400.
Definition SYNC_FSP_PAGE : Z := 395.
Definition SYNC_STATS_DEFRAG : Z := 390.
Definition SYNC_IBUF_MUTEX : Z := 370.
Definition SYNC_IBUF_INDEX_TREE : Z := 360.
Definition SYNC_IBUF_TREE_NODE_NEW : Z := 359.
Definition SYNC_IBUF_TREE_NODE : Z := 358.
Definition SYNC_IBUF_BITMAP_MUTEX : Z := 351.
Definition SYNC_IBUF_BITMAP : Z := 350.
Definition SYNC_INDEX_ONLINE_LOG : Z := 340.
Definition SYNC_LOCK_WAIT_SYS : Z := 300.
Definition SYNC_LOCK_SYS : Z := 299.
Definition SYNC_TRX_SYS : Z := 298.
Definition SYNC_TRX : Z := 297.
Definition SYNC_THREADS : Z := 295.
Definition SYNC_REC_LOCK : Z := 294.
Definition SYNC_TRX_SYS_HEADER : Z := 290.
Definition SYNC_PURGE_QUEUE : Z := 200.
Definition SYNC_LOG_ONLINE : Z := 175.
Definition SYNC_LOG : Z := 170.
Definition SYNC_LOG_FLUSH_ORDER : Z := 147.
Definition SYNC_RECV : Z := 168.
Definition SYNC_FTS_TOKENIZE : Z := 167.
Definition SYNC_FTS_CACHE_INIT : Z := 166.
Definition SYNC_FTS_BG_THREADS : Z := 165.
Definition SYNC_FTS_OPTIMIZE : Z := 164.
Definition SYNC_WORK_QUEUE : Z := 162.
Definition SYNC_SEARCH_SYS : Z := 160.
Definition SYNC_BUF_LRU_LIST : Z := 151.
Definition SYNC_BUF_PAGE_HASH : Z := 149.
Definition SYNC_BUF_BLOCK : Z := 146.
Definition SYNC_BUF_FREE_LIST : Z := 145.
Definition SYNC_BUF_ZIP_FREE : Z := 144.
Definition SYNC_BUF_ZIP_HASH : Z := 143.
Definition SYNC_BUF_FLUSH_STATE : Z := 142.
Definition SYNC_BUF_FLUSH_LIST : Z := 141.
Definition SYNC_DOUBLEWRITE : Z := 139.
Definition SYNC_ANY_LATCH : Z := 135.
Definition SYNC_MEM_HASH : Z := 131.
Definition SYNC_MEM_POOL : Z := 130.

(** Lines 240-260; a null latch is 0, a null level array [None]. *)
Record sync_level_t := mkLevel { latch : Z; lvl : Z }.
Notation sync_arr_t := (list sync_level_t) (only parsing).
Record sync_thread_t := mkThread { id : Z; levels : option sync_arr_t }.

(** Lines 1030-1064. *)
Fixpoint sync_thread_levels_g (arr : sync_arr_t) (limit : Z) : bool :=
  match arr with
  | [] => true
  | slot :: rest =>
      if negb (latch slot =? 0) && (lvl slot <=? limit) then false else sync_thread_levels_g rest limit
  end.

(** Lines 1066-1092. *)
Fixpoint sync_thread_levels_contain (arr : sync_arr_t) (level : Z) : option sync_level_t :=
  match arr with
  | [] => None
  | slot :: rest =>
      if negb (latch slot =? 0) && (lvl slot =? level) then Some slot else sync_thread_levels_contain rest level
  end.

Definition contains (arr : sync_arr_t) (level : Z) : bool :=
  match sync_thread_levels_contain arr level with Some _ => true | None => false end.

(** Lines 934-960: the index of the slot of the calling thread. *)
Fixpoint find_slot (self : Z) (slots : list sync_thread_t) : option nat :=
  match slots with
  | [] => None
  | slot :: rest =>
      match levels slot with
      | Some _ => if id slot =? self then Some O else S <$> find_slot self rest
      | None => S <$> find_slot self rest
      end
  end.

(** Lines 962-985. *)
Fixpoint find_free (slots : list sync_thread_t) : option nat :=
  match slots with
  | [] => None
  | slot :: rest => match levels slot with None => Some O | Some _ => S <$> find_free rest end
  end.

Definition levels_of (self : Z) (slots : list sync_thread_t) : option sync_arr_t :=
  i ← find_slot self slots; slot ← slots !! i; levels slot.

Section order.
(** What the checks read of the rest of the server: the latches that are
    never recorded (lines 1275-1278), whether the server is starting or
    printing, the adaptive hash latches, and which of them the thread owns. *)
Context (untracked : Z -> bool) (srv_is_being_started buf_debug_prints : bool).
Context (btr_search_latch_arr : list Z) (rw_lock_own : Z -> bool).

(** The group of lines 1326-1365, which must be above every held level. *)
Definition strict_level (level : Z) : bool :=
  bool_decide (level ∈ [SYNC_MEM_POOL; SYNC_MEM_HASH; SYNC_RECV; SYNC_FTS_BG_THREADS; SYNC_WORK_QUEUE;
    SYNC_FTS_TOKENIZE; SYNC_FTS_OPTIMIZE; SYNC_FTS_CACHE; SYNC_FTS_CACHE_INIT; SYNC_LOG_ONLINE; SYNC_LOG;
    SYNC_LOG_FLUSH_ORDER; SYNC_ANY_LATCH; SYNC_FILE_FORMAT_TAG; SYNC_DOUBLEWRITE; SYNC_THREADS; SYNC_LOCK_SYS;
    SYNC_LOCK_WAIT_SYS; SYNC_TRX_SYS; SYNC_IBUF_BITMAP_MUTEX; SYNC_RSEG; SYNC_TRX_UNDO; SYNC_PURGE_LATCH;
    SYNC_PURGE_QUEUE; SYNC_DICT_AUTOINC_MUTEX; SYNC_DICT_OPERATION; SYNC_DICT_HEADER; SYNC_TRX_I_S_RWLOCK;
    SYNC_TRX_I_S_LAST_READ; SYNC_IBUF_MUTEX; SYNC_INDEX_ONLINE_LOG; SYNC_STATS_AUTO_RECALC; SYNC_STATS_DEFRAG]).

(** The group of lines 1391-1407: several of one level may be held. *)
Definition shared_level (level : Z) : bool :=
  bool_decide (level ∈ [SYNC_SEARCH_SYS; SYNC_BUF_FLUSH_LIST; SYNC_BUF_LRU_LIST; SYNC_BUF_FREE_LIST;
    SYNC_BUF_ZIP_FREE; SYNC_BUF_ZIP_HASH; SYNC_BUF_FLUSH_STATE]).

(** Lines 1376-1388: no later latch of the array is owned. *)
Fixpoint search_order (arr : list Z) (found_current : bool) (l : Z) : bool :=
  match arr with
  | [] => found_current
  | x :: rest =>
      if x =? l then search_order rest true l
      else if found_current && rw_lock_own x then false else search_order rest found_current l
  end.

(** The cases of lines 1416-1522 of the switch: pages and the latches that
    cover them; [false] stops the server. *)
Definition check_page_level (arr : sync_arr_t) (level : Z) : bool :=
  let g := sync_thread_levels_g arr in
  let has := contains arr in
  if level =? SYNC_REC_LOCK then
    if has SYNC_LOCK_SYS then g (SYNC_REC_LOCK - 1) else g SYNC_REC_LOCK
  else if level =? SYNC_IBUF_BITMAP then
    if has SYNC_IBUF_BITMAP_MUTEX then g (SYNC_IBUF_BITMAP - 1) else srv_is_being_started || g SYNC_IBUF_BITMAP
  else if level =? SYNC_FSP_PAGE then has SYNC_FSP
  else if level =? SYNC_FSP then has SYNC_FSP || g SYNC_FSP
  else if level =? SYNC_TRX_UNDO_PAGE then has SYNC_TRX_UNDO || has SYNC_RSEG || g (level - 1)
  else if level =? SYNC_RSEG_HEADER then has SYNC_RSEG
  else if level =? SYNC_RSEG_HEADER_NEW then has SYNC_FSP_PAGE
  else if level =? SYNC_TREE_NODE then has SYNC_INDEX_TREE || has SYNC_DICT_OPERATION || g (SYNC_TREE_NODE - 1)
  else if level =? SYNC_TREE_NODE_NEW then has SYNC_FSP_PAGE
  else if level =? SYNC_INDEX_TREE then g (SYNC_TREE_NODE - 1)
  else if level =? SYNC_IBUF_TREE_NODE then has SYNC_IBUF_INDEX_TREE || g (SYNC_IBUF_TREE_NODE - 1)
  else if level =? SYNC_IBUF_TREE_NODE_NEW then has SYNC_IBUF_MUTEX || has SYNC_FSP
  else if level =? SYNC_IBUF_INDEX_TREE then
    if has SYNC_FSP then g (level - 1) else g (SYNC_IBUF_TREE_NODE - 1)
  else if level =? SYNC_IBUF_PESS_INSERT_MUTEX then g (SYNC_FSP - 1) && negb (has SYNC_IBUF_MUTEX)
  else if level =? SYNC_IBUF_HEADER then
    g (SYNC_FSP - 1) && negb (has SYNC_IBUF_MUTEX) && negb (has SYNC_IBUF_PESS_INSERT_MUTEX)
  else if level =? SYNC_DICT then buf_debug_prints || g SYNC_DICT
  else false.

(** The switch of lines 1313-1522; [false] stops the server. *)
Definition check_level (arr : sync_arr_t) (l level : Z) : bool :=
  let g := sync_thread_levels_g arr in
  if (level =? SYNC_NO_ORDER_CHECK) || (level =? SYNC_EXTERN_STORAGE) || (level =? SYNC_TREE_NODE_FROM_HASH) then true
  else if level =? SYNC_TRX_SYS_HEADER then srv_is_being_started || g level
  else if strict_level level then g level
  else if level =? SYNC_TRX then g level || (g (level - 1) && contains arr SYNC_LOCK_SYS)
  else if shared_level level then
    (negb (level =? SYNC_SEARCH_SYS) || search_order btr_search_latch_arr false l) && g (level - 1)
  else if (level =? SYNC_BUF_PAGE_HASH) || (level =? SYNC_BUF_BLOCK) then g level || g (level - 1)
  else check_page_level arr level.

(** Lines 1253-1531; [sync_order_checks_on] is set. *)
Definition sync_thread_add_level (self l level : Z) (relock : bool) (slots : list sync_thread_t)
    : res (list sync_thread_t) :=
  if untracked l then Ok slots
  else if level =? SYNC_LEVEL_VARYING then Ok slots
  else
    let! (slots, i) :=
      match find_slot self slots with
      | Some i => Ok (slots, i)
      | None => let! i := deref (find_free slots) in Ok (<[i := mkThread self (Some [])]> slots, i)
      end in
    let! slot := deref (slots !! i) in
    let! arr := deref (levels slot) in
    let! _ := ut_a (relock || check_level arr l level) in
    Ok (<[i := mkThread (id slot) (Some (arr ++ [mkLevel l level]))]> slots).

(** Lines 1574-1584. *)
Fixpoint erase_latch (l : Z) (arr : sync_arr_t) : option sync_arr_t :=
  match arr with
  | [] => None
  | slot :: rest => if latch slot =? l then Some rest else (slot ::.) <$> erase_latch l rest
  end.

(** Lines 1533-1603; a latch that is not found is a rw-lock of varying level
    or stops the server. *)
Definition sync_thread_reset_level (self l : Z) (varying : bool) (slots : list sync_thread_t)
    : res (list sync_thread_t * bool) :=
  if untracked l then Ok (slots, false)
  else
    let! i := deref (find_slot self slots) in
    let! slot := deref (slots !! i) in
    let! arr := deref (levels slot) in
    match erase_latch l arr with
    | Some arr => Ok (<[i := mkThread (id slot) (Some arr)]> slots, true)
    | None => if varying then Ok (slots, true) else Fault
    end.

(** Lines 1094-1140: the latch of the thread at a level, 0 if none. *)
Definition sync_thread_levels_contains (self level : Z) (slots : list sync_thread_t) : Z :=
  match levels_of self slots with
  | Some arr => match sync_thread_levels_contain arr level with Some s => latch s | None => 0 end
  | None => 0
  end.

(** The loops of lines 1171-1192 and 1238-1255: [ut_error] at a latch that is
    not allowed. *)
Fixpoint nonempty_loop (allowed : Z -> bool) (arr : sync_arr_t) : res Z :=
  match arr with
  | [] => Ok 0
  | slot :: rest =>
      if negb (latch slot =? 0) && negb (allowed (lvl slot)) then Fault else nonempty_loop allowed rest
  end.

(** Lines 1142-1197. *)
Definition sync_thread_levels_nonempty_gen (self : Z) (dict_mutex_allowed : bool) (slots : list sync_thread_t) : res Z :=
  match levels_of self slots with
  | None => Ok 0
  | Some arr =>
      nonempty_loop (fun level => dict_mutex_allowed &&
        ((level =? SYNC_DICT) || (level =? SYNC_DICT_OPERATION) || (level =? SYNC_FTS_CACHE))) arr
  end.

(** Lines 1199-1259. *)
Definition sync_thread_levels_nonempty_trx (self : Z) (has_search_latch : bool) (slots : list sync_thread_t) : res Z :=
  let! _ := ut_a (negb has_search_latch || negb (sync_thread_levels_contains self SYNC_SEARCH_SYS slots =? 0)) in
  match levels_of self slots with
  | None => Ok 0
  | Some arr => nonempty_loop (fun level => has_search_latch && (level =? SYNC_SEARCH_SYS)) arr
  end.

(** ** What an accepted latch means *)

Lemma levels_g_spec arr limit :
  sync_thread_levels_g arr limit = true <-> forall s, s ∈ arr -> latch s <> 0 -> limit < lvl s.
Proof.
  induction arr as [|a arr IH]; simpl; [split; [by intros _ s Hs%elem_of_nil|done]|].
  destruct (Z.eqb_spec (latch a) 0) as [Hz|Hz]; simpl.
  - rewrite IH. split; intros H s.
    + intros [->|Hs]%elem_of_cons ?; [done|by apply H].
    + intros Hs. apply H. by right.
  - destruct (Z.leb_spec (lvl a) limit) as [Hle|Hlt].
    + split; [done|]. intros H. specialize (H a ltac:(left) Hz). lia.
    + rewrite IH. split; intros H s.
      * intros [->|Hs]%elem_of_cons ?; [done|by apply H].
      * intros Hs. apply H. by right.
Qed.

Lemma strict_not_special level :
  strict_level level = true ->
  (level =? SYNC_NO_ORDER_CHECK) || (level =? SYNC_EXTERN_STORAGE) || (level =? SYNC_TREE_NODE_FROM_HASH) = false /\
  level =? SYNC_TRX_SYS_HEADER = false.
Proof.
  unfold strict_level. rewrite bool_decide_eq_true. intros H.
  repeat (apply elem_of_cons in H as [->|H]; [by vm_compute|]). by apply elem_of_nil in H.
Qed.

Lemma check_strict arr l level :
  strict_level level = true -> check_level arr l level = sync_thread_levels_g arr level.
Proof. intros Hs. destruct (strict_not_special _ Hs) as [E1 E2]. unfold check_level. by rewrite E1, E2, Hs. Qed.

(** The slot a thread finds is its own, and the one it writes stays its own. *)
Lemma find_slot_Some self slots i :
  find_slot self slots = Some i -> exists arr, slots !! i = Some (mkThread self (Some arr)).
Proof.
  revert i. induction slots as [|[sid [arr|]] slots IH]; intros i; simpl; [done| |].
  - destruct (Z.eqb_spec sid self) as [->|Hne]; [intros [= <-]; by exists arr|].
    intros (j & Hj & ->)%fmap_Some. simpl. by apply IH.
  - intros (j & Hj & ->)%fmap_Some. simpl. by apply IH.
Qed.

Lemma find_slot_insert self slots i arr :
  find_slot self slots = Some i ->
  find_slot self (<[i := mkThread self (Some arr)]> slots) = Some i.
Proof.
  revert i. induction slots as [|[sid [a|]] slots IH]; intros i; simpl; [done| |].
  - destruct (Z.eqb_spec sid self) as [->|Hne]; [intros [= <-]; simpl; by rewrite Z.eqb_refl|].
    intros (j & Hj & ->)%fmap_Some. simpl. rewrite (proj2 (Z.eqb_neq _ _) Hne), IH by done. done.
  - intros (j & Hj & ->)%fmap_Some. simpl. rewrite IH by done. done.
Qed.

Lemma find_slot_new self slots i arr :
  find_slot self slots = None -> find_free slots = Some i ->
  find_slot self (<[i := mkThread self (Some arr)]> slots) = Some i /\ (i < length slots)%nat.
Proof.
  revert i. induction slots as [|[sid [a|]] slots IH]; intros i; simpl; [done| |].
  - destruct (Z.eqb_spec sid self) as [->|Hne]; [done|].
    intros Hn%fmap_None (j & Hj & ->)%fmap_Some. simpl. rewrite (proj2 (Z.eqb_neq _ _) Hne).
    destruct (IH j Hn Hj) as [-> ?]. split; [done|lia].
  - intros Hn%fmap_None [= <-]. simpl. rewrite Z.eqb_refl. split; [done|lia].
Qed.

Lemma levels_of_insert self slots i arr :
  find_slot self slots = Some i -> levels_of self (<[i := mkThread self (Some arr)]> slots) = Some arr.
Proof.
  intros Hf. unfold levels_of. rewrite (find_slot_insert _ _ _ arr Hf). simpl.
  destruct (find_slot_Some _ _ _ Hf) as (a & Ha).
  rewrite list_lookup_insert_eq by (by eapply lookup_lt_Some). done.
Qed.

(** The held latches of a thread before and after an accepted one. *)
Lemma add_level_levels self l level relock slots slots' :
  untracked l = false -> level <> SYNC_LEVEL_VARYING ->
  sync_thread_add_level self l level relock slots = Ok slots' ->
  let held := default [] (levels_of self slots) in
  relock || check_level held l level = true /\
  levels_of self slots' = Some (held ++ [mkLevel l level]).
Proof.
  intros Hu Hv H held. unfold sync_thread_add_level in H.
  rewrite Hu, (proj2 (Z.eqb_neq _ _) Hv) in H. inv_ok. destruct x as [slots1 i]. inv_ok. subst slots'.
  destruct (find_slot self slots) as [j|] eqn:Ef.
  - simplify_eq. destruct (find_slot_Some _ _ _ Ef) as (a & Ha).
    assert (held = a) as -> by (subst held; unfold levels_of; rewrite Ef; simpl; by rewrite Ha).
    simplify_eq/=. split; [done|]. by apply levels_of_insert.
  - assert (held = []) as -> by (subst held; unfold levels_of; by rewrite Ef).
    inv_ok. simplify_eq. destruct (find_slot_new self slots i [] Ef H) as [Ef' Hlt].
    rewrite list_lookup_insert_eq in H1 by done. simplify_eq/=. split; [done|]. by apply levels_of_insert.
Qed.

(** ** No circular wait *)

(** Thread [t] wants a latch that thread [u] has recorded. *)
Definition waits (want : Z -> option (Z * Z)) (slots : list sync_thread_t) (t u : Z) : Prop :=
  exists l level arr, want t = Some (l, level) /\ levels_of u slots = Some arr /\ mkLevel l level ∈ arr.

(** The request would pass the checks of a strict level. *)
Definition accepted (want : Z -> option (Z * Z)) (slots : list sync_thread_t) : Prop :=
  forall t l level, want t = Some (l, level) ->
    untracked l = false /\ l <> 0 /\ strict_level level = true /\
    exists slots', sync_thread_add_level t l level false slots = Ok slots'.

Lemma strict_not_varying level : strict_level level = true -> level <> SYNC_LEVEL_VARYING.
Proof. intros H ->. by vm_compute in H. Qed.

Lemma wait_descends want slots t u l level l' level' :
  accepted want slots -> waits want slots t u -> want t = Some (l, level) -> want u = Some (l', level') ->
  level' < level.
Proof.
  intros Hacc (l0 & level0 & arr & Ht & Hu & Hin) Hwt Hwu. rewrite Hwt in Ht. injection Ht as <- <-.
  destruct (Hacc _ _ _ Hwu) as (Hun & _ & Hst & slots' & Hadd). destruct (Hacc _ _ _ Hwt) as (_ & Hl & _).
  apply add_level_levels in Hadd as [Hc _]; [|done|by apply strict_not_varying].
  rewrite Hu in Hc. simpl in Hc. rewrite check_strict, levels_g_spec in Hc by done. by apply (Hc _ Hin).
Qed.

(** C23: Threads whose pending requests pass the checks of the latching order at
    strict levels never wait for each other in a circle. *)
Theorem latching_order_no_circle want slots t :
  accepted want slots -> ~ tc (waits want slots) t t.
Proof.
  intros Hacc.
  assert (forall a b, tc (waits want slots) a b -> forall l level l' level',
    want a = Some (l, level) -> want b = Some (l', level') -> level' < level) as Hdesc.
  { induction 1 as [a b Hab|a b c Hab Hbc IH]; intros l level l' level' Ha Hb.
    - by eapply wait_descends.
    - assert (exists l1 level1, want b = Some (l1, level1)) as (l1 & level1 & Hb1).
      { inversion Hbc as [? ? (? & ? & ? & ? & _)|? ? ? (? & ? & ? & ? & _)]; eauto. }
      pose proof (IH _ _ _ _ Hb1 Hb). pose proof (wait_descends _ _ _ _ _ _ _ _ Hacc Hab Ha Hb1). lia. }
  intros Htc. assert (exists l level, want t = Some (l, level)) as (l & level & Ht).
  { inversion Htc as [? ? (? & ? & ? & ? & _)|? ? ? (? & ? & ? & ? & _)]; eauto. }
  pose proof (Hdesc _ _ Htc _ _ _ _ Ht Ht). lia.
Qed.

(** ** Recording and removing a latch *)

Lemma erase_latch_last l arr level :
  l ∉ latch <$> arr -> erase_latch l (arr ++ [mkLevel l level]) = Some arr.
Proof.
  induction arr as [|a arr IH]; simpl; intros Hno; [by rewrite Z.eqb_refl|].
  rewrite (proj2 (Z.eqb_neq _ _)) by set_solver. by rewrite IH by set_solver.
Qed.

(** Resetting a latch that was just recorded restores the latches the thread
    held before. *)
Theorem add_reset_level self l level relock slots slots' varying :
  untracked l = false -> level <> SYNC_LEVEL_VARYING ->
  l ∉ latch <$> default [] (levels_of self slots) ->
  sync_thread_add_level self l level relock slots = Ok slots' ->
  exists slots'', sync_thread_reset_level self l varying slots' = Ok (slots'', true) /\
    levels_of self slots'' = Some (default [] (levels_of self slots)).
Proof.
  intros Hu Hv Hno Hadd. apply add_level_levels in Hadd as [_ Hl]; [|done|done].
  unfold sync_thread_reset_level. rewrite Hu. unfold levels_of in Hl at 1.
  destruct (find_slot self slots') as [i|] eqn:Ef; [|done]. simpl in Hl.
  destruct (find_slot_Some _ _ _ Ef) as (arr & Ha). rewrite Ha in Hl. simpl in Hl. injection Hl as ->.
  cbn [deref rbind]. rewrite Ha. cbn [deref rbind levels]. rewrite erase_latch_last by done.
  eexists. split; [reflexivity|]. cbn [id]. by apply levels_of_insert.
Qed.

(** ** The order in which latches are held *)

(** A thread that records latches of strict levels only. *)
Inductive level_op := AddLevel (l level : Z) | ResetLevel (l : Z).

Definition exec_op (self : Z) (o : level_op) (slots : list sync_thread_t) : res (list sync_thread_t) :=
  match o with
  | AddLevel l level => sync_thread_add_level self l level false slots
  | ResetLevel l => let! (slots, _) := sync_thread_reset_level self l false slots in Ok slots
  end.

Fixpoint exec_ops (self : Z) (os : list level_op) (slots : list sync_thread_t) : res (list sync_thread_t) :=
  match os with [] => Ok slots | o :: os => let! slots := exec_op self o slots in exec_ops self os slots end.

Definition op_strict (o : level_op) : Prop :=
  match o with
  | AddLevel l level => untracked l = false /\ l <> 0 /\ strict_level level = true
  | ResetLevel l => untracked l = false
  end.

(** Latches are non-null and their levels go down. *)
Definition descending (arr : list sync_level_t) : Prop :=
  StronglySorted (fun a b => lvl b < lvl a) arr /\ Forall (fun s => latch s <> 0) arr.

Lemma descending_snoc arr s :
  descending arr -> (forall a, a ∈ arr -> lvl s < lvl a) -> latch s <> 0 -> descending (arr ++ [s]).
Proof.
  intros [Hs Hn] Hlt Hl. split; [|apply Forall_app; split; [done|by constructor]].
  induction Hs as [|a arr Hs IH Ha]; simpl; [repeat constructor|].
  apply Forall_cons in Hn as [_ Hn]. constructor; [apply IH; [done|intros b Hb; apply Hlt; by right]|].
  apply Forall_app. split; [done|]. constructor; [|constructor]. apply Hlt. left.
Qed.

Lemma erase_sublist l arr arr' : erase_latch l arr = Some arr' -> arr' `sublist_of` arr.
Proof.
  revert arr'. induction arr as [|a arr IH]; simpl; intros arr'; [done|].
  destruct (latch a =? l); [intros [= <-]; by apply sublist_cons|].
  intros (arr1 & H1 & ->)%fmap_Some. apply sublist_skip. by apply IH.
Qed.

Lemma Forall_sublist {A} (P : A -> Prop) l l' : l' `sublist_of` l -> Forall P l -> Forall P l'.
Proof. rewrite !Forall_forall. intros Hs H x Hx. apply H. by eapply elem_of_sublist. Qed.

Lemma sublist_sorted {A} (R : A -> A -> Prop) l l' : l' `sublist_of` l -> StronglySorted R l -> StronglySorted R l'.
Proof.
  induction 1 as [|x l1 l2 Hsub IH|x l1 l2 Hsub IH]; intros Hs; [constructor| |].
  - apply StronglySorted_inv in Hs as [Hs Hf]. constructor; [by apply IH|].
    by eapply Forall_sublist.
  - apply StronglySorted_inv in Hs as [Hs _]. by apply IH.
Qed.

Lemma exec_op_descending self o slots slots' :
  op_strict o -> exec_op self o slots = Ok slots' ->
  descending (default [] (levels_of self slots)) -> descending (default [] (levels_of self slots')).
Proof.
  intros Ho He Hd. destruct o as [l level|l]; simpl in Ho, He.
  - destruct Ho as (Hu & Hl & Hs). apply add_level_levels in He as [Hc Hlv]; [|done|by apply strict_not_varying].
    rewrite Hlv. simpl in *. rewrite check_strict, levels_g_spec in Hc by done.
    apply descending_snoc; [done| |done]. intros a Ha. apply Hc; [done|].
    destruct Hd as [_ Hn]. by apply (proj1 (Forall_forall _ _) Hn).
  - inv_ok. destruct x as [slots1 b]. inv_ok. subst slots1. unfold sync_thread_reset_level in H.
    rewrite Ho in H. inv_ok. destruct (find_slot_Some _ _ _ H0) as (arr & Ha). simplify_eq/=. rename x1 into arr.
    assert (levels_of self slots = Some arr) as E by (unfold levels_of; rewrite H0; simpl; by rewrite H1).
    destruct (erase_latch l arr) as [arr'|] eqn:Ee; [|done]. simplify_eq. rewrite E in Hd. simpl in Hd.
    rewrite levels_of_insert by done. simpl. apply erase_sublist in Ee. destruct Hd as [Hs Hn].
    split; [by eapply sublist_sorted|by eapply Forall_sublist].
Qed.

(** A thread that only takes latches of strict levels holds them in strictly
    descending order, whatever it takes and releases in between. *)
Theorem held_descending self os slots slots' :
  Forall op_strict os -> levels_of self slots = None -> exec_ops self os slots = Ok slots' ->
  descending (default [] (levels_of self slots')).
Proof.
  intros Hos Hnone He.
  assert (descending (default [] (levels_of self slots))) as Hd by (rewrite Hnone; split; constructor).
  clear Hnone. revert slots He Hd. induction Hos as [|o os Ho Hos IH]; intros slots He Hd; simpl in He; inv_ok.
  - by subst.
  - eapply IH; [done|]. by eapply exec_op_descending.
Qed.
End order.

(** ** Two threads and three latches *)

Definition none_untracked (l : Z) : bool := false.

(** Thread 1 holds lock_sys, thread 2 the log mutex; thread 1 wants the log
    mutex and thread 2 the memory pool. *)
Definition two_threads : list sync_thread_t :=
  [mkThread 1 (Some [mkLevel 10 SYNC_LOCK_SYS]); mkThread 2 (Some [mkLevel 20 SYNC_LOG]); mkThread 0 None].

Definition two_wants (t : Z) : option (Z * Z) :=
  if t =? 1 then Some (20, SYNC_LOG) else if t =? 2 then Some (30, SYNC_MEM_POOL) else None.

Lemma latching_order_no_circle_witness :
  waits two_wants two_threads 1 2 /\ ~ tc (waits two_wants two_threads) 1 1.
Proof.
  split; [exists 20, SYNC_LOG, [mkLevel 20 SYNC_LOG]; split_and!; [done|done|left]|].
  apply (latching_order_no_circle none_untracked false false [] (fun _ => false)).
  intros t l level. unfold two_wants. destruct (Z.eqb_spec t 1) as [->|]; [|destruct (Z.eqb_spec t 2) as [->|]];
    intros [= <- <-]; split_and!; try done; eexists; vm_compute; reflexivity.
Defined.

Definition after_add : list sync_thread_t :=
  match sync_thread_add_level none_untracked false false [] (fun _ => false) 1 20 SYNC_LOG false two_threads with
  | Ok s => s | _ => [] end.

Lemma add_reset_level_witness :
  exists slots'', sync_thread_reset_level none_untracked 1 20 false after_add = Ok (slots'', true) /\
    levels_of 1 slots'' = Some [mkLevel 10 SYNC_LOCK_SYS].
Proof.
  apply (add_reset_level none_untracked false false [] (fun _ => false) 1 20 SYNC_LOG false two_threads after_add false);
    [done|done| |by vm_compute].
  intros H%list_elem_of_singleton. done.
Defined.

Definition three_latches : list level_op :=
  [AddLevel 10 SYNC_LOCK_SYS; AddLevel 20 SYNC_LOG; ResetLevel 10; AddLevel 30 SYNC_MEM_POOL].

Definition after_three : list sync_thread_t :=
  match exec_ops none_untracked false false [] (fun _ => false) 7 three_latches two_threads with
  | Ok s => s | _ => [] end.

Lemma held_descending_witness :
  levels_of 7 after_three = Some [mkLevel 20 SYNC_LOG; mkLevel 30 SYNC_MEM_POOL] /\
  descending (default [] (levels_of 7 after_three)).
Proof.
  split; [by vm_compute|].
  apply (held_descending none_untracked false false [] (fun _ => false) 7 three_latches two_threads after_three);
    [|done|by vm_compute].
  repeat constructor; done.
Defined.
End SyncLevels.
