(* ===== verification/TaSearch.v ===== *)
(** * The reference solution of Project 1 (Project1/project1_TA.cpp)

    One breadth-first search per house, all running at once.  A search marks
    every vertex it reaches in a shared flag word by an atomic fetch-and-or,
    and so meets the other searches.  The searches are a step relation with
    one transition per access of a flag word; the queues, fences and visit
    records belong to one thread each. *)
From S2P Require Import Prelude.
Local Open Scope Z_scope.

Module TaSearch.

(** Lines 21-26. *)
Definition MAX_NUM_HOUSE : nat := 64.
Definition MAX_EDGE_PER_VERTEX : nat := 10.
Definition MAX_VERTICES : Z := 10000000.
Definition MAX_DEPTH : Z := MAX_VERTICES + 1.
Definition FLAG (x : nat) : Z := u64 (Z.shiftl 1 (Z.of_nat x)).

(** Lines 31-35: [depth] has 16 bits. *)
Record VisitInfo := mkVisit { vid : Z; depth : Z }.
Definition u16 (x : Z) : Z := wrap_u 16 x.

(** ** Input (lines 105-142) *)

(** [g_graph]: a row holds the number of edges and the edges. *)
Notation graph := (list (list Z)) (only parsing).

Definition get (g : graph) (v : Z) (i : nat) : option Z := if 0 <=? v then row ← g !! Z.to_nat v; row !! i else None.

Definition put (g : graph) (v : Z) (i : nat) (x : Z) : option graph :=
  if 0 <=? v then
    row ← g !! Z.to_nat v;
    if decide (i < length row)%nat then Some (<[Z.to_nat v := <[i := x]> row]> g) else None
  else None.

(** Lines 135-136: one direction of an edge. *)
Definition add_edge (g : graph) (v w : Z) : option graph :=
  n ← get g v 0;
  g1 ← put g v 0 (u32 (n + 1));
  n1 ← get g1 v 0;
  put g1 v (Z.to_nat n1) w.

(** Lines 133-139. *)
Fixpoint read_neighbors (g : graph) (v : Z) (ns : list Z) : option graph :=
  match ns with
  | [] => Some g
  | w :: ns => g1 ← add_edge g v w; g2 ← add_edge g1 w v; read_neighbors g2 v ns
  end.

(** Lines 130-140. *)
Fixpoint read_lines (g : graph) (lines : list (Z * list Z)) : option graph :=
  match lines with
  | [] => Some g
  | (v, ns) :: rest => g1 ← read_neighbors g v ns; read_lines g1 rest
  end.

(** Lines 114-117: the flag words and the full flag. *)
Fixpoint mark_flags (i : nat) (houses : list Z) (flags : list Z) (full : Z) : option (list Z * Z) :=
  match houses with
  | [] => Some (flags, full)
  | h :: rest =>
      if (0 <=? h) && bool_decide (Z.to_nat h < length flags)%nat then
        mark_flags (S i) rest (<[Z.to_nat h := FLAG i]> flags) (Z.lor full (FLAG i))
      else None
  end.

Definition InputGraph (nv : nat) (houses : list Z) (lines : list (Z * list Z)) : option (graph * list Z * Z) :=
  if decide (length houses <= MAX_NUM_HOUSE)%nat then
    '(flags, full) ← mark_flags 0 houses (replicate (S nv) 0) 0;
    g ← read_lines (replicate (S nv) (replicate (S MAX_EDGE_PER_VERTEX) 0)) lines;
    Some (g, flags, full)
  else None.

(** ** The searches (lines 150-248) *)

Inductive pc :=
| Loop                         (* line 181 *)
| Edge (curr_node : Z) (i : nat)  (* line 205: reads the mark of the neighbour *)
| Visit (curr_node : Z) (i : nat) (* line 217: the fetch-and-or *)
| Returned.

(** The variables of one search; [rear] is the length of the queue. *)
Record search := mkSearch {
  queue : list Z; front : nat; curr_depth : Z; visited_flag : Z;
  fence : list nat; info : nat -> VisitInfo; at_ : pc }.

Record state := mkState { vertex_flag : list Z; thread : nat -> search }.

(** The loop of lines 226-238: the searches met at a vertex. *)
Fixpoint decode (fuel thd : nat) (flag_before : Z) (here : VisitInfo) (inf : nat -> VisitInfo) : nat -> VisitInfo :=
  if flag_before =? 0 then inf
  else match fuel with
  | O => inf
  | S fuel =>
      let inf := if Z.land flag_before 1 =? 0 then inf else upd inf thd here in
      decode fuel (S thd) (Z.shiftr flag_before 1) here inf
  end.

Section search.
Context (capacity : nat) (g : graph) (full : Z).

(** Writing at [rear] of the malloc'd queue. *)
Definition enqueue (x : Z) (s : search) : option search :=
  if decide (length (queue s) < capacity)%nat then
    Some (mkSearch (queue s ++ [x]) (front s) (curr_depth s) (visited_flag s) (fence s) (info s) (at_ s))
  else None.

Definition goto (p : pc) (s : search) : search :=
  mkSearch (queue s) (front s) (curr_depth s) (visited_flag s) (fence s) (info s) p.

(** Lines 183-203: dequeue, and the handling of a fence. *)
Definition dequeue (s : search) : option search :=
  if decide (front s < length (queue s))%nat then
    curr_node ← queue s !! front s;
    let s1 := mkSearch (queue s) (S (front s)) (curr_depth s) (visited_flag s) (fence s) (info s) (at_ s) in
    if MAX_DEPTH <=? curr_node then
      let s2 := mkSearch (queue s1) (front s1) (curr_depth s1 + 1) (visited_flag s1) (fence s1) (info s1) (at_ s1) in
      s3 ← enqueue (curr_depth s2 + MAX_DEPTH) s2;
      let s4 := mkSearch (queue s3) (front s3) (curr_depth s3) (visited_flag s3)
                  (fence s3 ++ [(front s3 - 1)%nat]) (info s3) (at_ s3) in
      Some (goto (if visited_flag s4 =? full then Returned else Loop) s4)
    else Some (goto (Edge curr_node 1) s1)
  else Some (goto Returned s).

(** Lines 217-242, after the fetch-and-or: the flag word before it is
    [flag_before]. *)
Definition meet (start_idx : nat) (v flag_before : Z) (s : search) : option search :=
  let s1 :=
    if flag_before =? 0 then s
    else
      let new := Z.land flag_before (Z.lnot (visited_flag s)) in
      mkSearch (queue s) (front s) (curr_depth s) (Z.lor (visited_flag s) new) (fence s)
        (decode 64 0 new (mkVisit v (u16 (curr_depth s + 1))) (info s)) (at_ s) in
  enqueue v s1.

Definition flag_at (flags : list Z) (v : Z) : option Z := if 0 <=? v then flags !! Z.to_nat v else None.

(** Lines 181-244 for the search of thread [t]. *)
Definition FindMinMaxPath_step (t : nat) (s : state) : option state :=
  let me := thread s t in
  match at_ me with
  | Loop => me' ← dequeue me; Some (mkState (vertex_flag s) (upd (thread s) t me'))
  | Edge c i =>
      n ← get g c 0;
      if Z.of_nat i <=? n then
        v ← get g c i;
        f ← flag_at (vertex_flag s) v;
        Some (mkState (vertex_flag s) (upd (thread s) t
          (goto (if Z.land f (FLAG t) =? 0 then Visit c i else Edge c (S i)) me)))
      else Some (mkState (vertex_flag s) (upd (thread s) t (goto Loop me)))
  | Visit c i =>
      v ← get g c i;
      before ← flag_at (vertex_flag s) v;
      me' ← meet t v before me;
      Some (mkState (<[Z.to_nat v := Z.lor before (FLAG t)]> (vertex_flag s))
              (upd (thread s) t (goto (Edge c (S i)) me')))
  | Returned => None
  end.

(** Lines 151-180: the queue holds the house and the first fence. *)
Definition start_search (houses : list Z) (t : nat) : search :=
  mkSearch [default 0 (houses !! t); MAX_DEPTH] 0 0 (FLAG t) [0%nat] (fun _ => mkVisit 0 0) Loop.

Definition main_start (flags : list Z) (houses : list Z) : state :=
  mkState flags (start_search houses).

Definition step (n : nat) (s s' : state) : Prop :=
  exists t, (t < n)%nat /\ FindMinMaxPath_step t s = Some s'.

(** The state after a schedule; threads that cannot move are skipped. *)
Fixpoint run (ts : list nat) (s : state) : state :=
  match ts with
  | [] => s
  | t :: ts => run ts (match FindMinMaxPath_step t s with Some s' => s' | None => s end)
  end.
End search.

(** ** The result (lines 267-400) *)

(** The loops of lines 328-333, 338-343 and 373-378: is the vertex in the
    queue between two fences? *)
Fixpoint scan_queue (q : list Z) (n j : nat) (v : Z) : option bool :=
  match n with
  | O => Some false
  | S n => x ← q !! j; if x =? v then Some true else scan_queue q n (S j) v
  end.

Definition in_layer (s : search) (d : Z) (v : Z) : option bool :=
  if 0 <=? d then
    lo ← fence s !! Z.to_nat d;
    hi ← fence s !! S (Z.to_nat d);
    scan_queue (queue s) (hi - lo) lo v
  else None.

Section result.
Context (n : nat) (th : nat -> search).

Definition dist (i j : nat) : Z := depth (info (th i) j) + depth (info (th j) i).

(** The pairs of the double loops, in their order. *)
Definition pairs : list (nat * nat) :=
  concat (map (fun i => map (fun j => (i, j)) (seq (S i) (n - S i))) (seq 0 n)).

(** Lines 268-288. *)
Definition min_dist : Z := foldl (fun m p => if dist p.1 p.2 <? m then dist p.1 p.2 else m) 999999999 pairs.
Definition max_dist : Z := foldl (fun m p => if m <? dist p.1 p.2 then dist p.1 p.2 else m) 0 pairs.

(** Lines 307-348: does the loop end before the last pair? *)
Fixpoint min_loop (ps : list (nat * nat)) : option bool :=
  match ps with
  | [] => Some false
  | (t1, t2) :: rest =>
      let i1 := info (th t1) t2 in
      let i2 := info (th t2) t1 in
      found ← in_layer (th t2) (depth i2) (vid i1);
      if negb found then Some true
      else
        found ← in_layer (th t1) (depth i1) (vid i2);
        if negb found then Some true else min_loop rest
  end.

(** Lines 353-394. *)
Fixpoint max_loop (ps : list (nat * nat)) : option bool :=
  match ps with
  | [] => Some false
  | (t1, t2) :: rest =>
      let i1 := info (th t1) t2 in
      let i2 := info (th t2) t1 in
      found ← in_layer (th t2) (depth i2 - 1) (vid i1);
      if (found : bool) then max_loop rest
      else
        found ← in_layer (th t1) (depth i1 - 1) (vid i2);
        if negb found then Some true else max_loop rest
  end.

(** Lines 267-400. *)
Definition MakeResult : option (Z * Z) :=
  early ← min_loop (filter (fun p => dist p.1 p.2 = min_dist) pairs);
  stopped ← max_loop (filter (fun p => dist p.1 p.2 = max_dist) pairs);
  Some (if (early : bool) then min_dist - 1 else min_dist,
        if (stopped : bool) then max_dist else max_dist - 1).
End result.

(** ** Flag words *)

Lemma FLAG_pow t : (t < 64)%nat -> FLAG t = 2 ^ Z.of_nat t.
Proof.
  intros Ht. unfold FLAG. rewrite Z.shiftl_1_l. apply u64_small. split; [lia|].
  apply Z.pow_lt_mono_r; lia.
Qed.

Lemma FLAG_testbit t b : (t < 64)%nat -> 0 <= b -> Z.testbit (FLAG t) b = (Z.of_nat t =? b).
Proof. intros Ht Hb. rewrite FLAG_pow by done. by rewrite Z.pow2_bits_eqb by lia. Qed.

Lemma land_FLAG f t : (t < 64)%nat -> (Z.land f (FLAG t) =? 0) = negb (Z.testbit f (Z.of_nat t)).
Proof.
  intros Ht. destruct (Z.testbit f (Z.of_nat t)) eqn:E; simpl.
  - apply Z.eqb_neq. intros H0. apply (f_equal (fun x => Z.testbit x (Z.of_nat t))) in H0.
    rewrite Z.land_spec, E, FLAG_testbit, Z.eqb_refl, Z.bits_0 in H0 by lia. done.
  - apply Z.eqb_eq, Z.bits_inj'. intros b Hb. rewrite Z.land_spec, FLAG_testbit, Z.bits_0 by done.
    destruct (Z.eqb_spec (Z.of_nat t) b) as [<-|]; [by rewrite E|apply andb_false_r].
Qed.

(** A word whose bits are all below [n] is below [2 ^ n]. *)
Lemma bits_below f n :
  0 <= f -> (forall b, 0 <= b -> Z.testbit f b = true -> b < Z.of_nat n) -> f < 2 ^ Z.of_nat n.
Proof.
  intros Hf Hb. destruct (Z.eq_dec f 0) as [->|Hne]; [lia|].
  pose proof (Hb (Z.log2 f) (Z.log2_nonneg f) (Z.bit_log2 f ltac:(lia))).
  apply Z.log2_lt_pow2; lia.
Qed.

(** The decoding loop records exactly the set bits of the word, and its at
    most 64 rounds are enough for a 64-bit word. *)
Lemma decode_spec fuel here : forall thd fl inf b,
  0 <= fl < 2 ^ Z.of_nat fuel ->
  decode fuel thd fl here inf b =
    if (thd <=? b)%nat && Z.testbit fl (Z.of_nat b - Z.of_nat thd) then here else inf b.
Proof.
  induction fuel as [|fuel IH]; intros thd fl inf b Hfl; cbn [decode].
  - assert (fl = 0) as -> by (simpl in Hfl; lia). rewrite Z.bits_0, andb_false_r. done.
  - destruct (Z.eqb_spec fl 0) as [->|Hne]; [by rewrite Z.bits_0, andb_false_r|].
    rewrite IH.
    2: { rewrite Z.shiftr_div_pow2, Z.pow_1_r by lia. rewrite Nat2Z.inj_succ, Z.pow_succ_r in Hfl by lia.
         split; [apply Z.div_pos; lia|apply Z.div_lt_upper_bound; lia]. }
    change 1 with (Z.ones 1) at 2. rewrite Z.land_ones, Z.pow_1_r by lia. rewrite Zmod_odd, <- Z.bit0_odd.
    destruct (Nat.leb_spec (S thd) b) as [Hlt|Hge].
    + rewrite Z.shiftr_spec by lia. replace (Z.of_nat b - Z.of_nat (S thd) + 1) with (Z.of_nat b - Z.of_nat thd) by lia.
      rewrite (proj2 (Nat.leb_le thd b)) by lia. cbn [andb]. destruct (Z.testbit fl (Z.of_nat b - Z.of_nat thd)); [done|].
      destruct (Z.testbit fl 0); simpl; [|done]. by rewrite upd_ne by lia.
    + cbn [andb]. destruct (Nat.leb_spec thd b) as [Hle|Hlt]; cbn [andb].
      * assert (b = thd) as -> by lia. rewrite Z.sub_diag. destruct (Z.testbit fl 0); simpl; [by rewrite upd_eq|done].
      * destruct (Z.testbit fl 0); simpl; [by rewrite upd_ne by lia|done].
Qed.

End TaSearch.
