(* ===== verification/TaMeet.v ===== *)
(** * How the searches of the reference solution meet

    The invariant of the concurrent searches of [TaSearch]: when two searches
    have marked the same vertex, one of them has seen the mark of the other;
    a search that has returned has met every other one; and the out-of-bounds
    read of the fences that follows with two houses. *)
From S2P Require Import Prelude TaSearch.
Local Open Scope Z_scope.

Module TaMeet.
Import TaSearch.

Section meet.
Context (capacity : nat) (g : list (list Z)) (full : Z) (n : nat).
Context (Hn : (n <= 64)%nat).
Context (Hfull : forall b, 0 <= b -> Z.testbit full b = (b <? Z.of_nat n)).

(** Bit [b] of a word. *)
Definition has (f : Z) (b : nat) : Prop := Z.testbit f (Z.of_nat b) = true.

(** A vertex carries the marks of both searches. *)
Definition common (F : list Z) (v : Z) (a b : nat) : Prop :=
  exists f, flag_at F v = Some f /\ has f a /\ has f b.

Definition flags_ok (F : list Z) : Prop :=
  forall v f, F !! v = Some f -> 0 <= f /\ forall b, 0 <= b -> Z.testbit f b = true -> b < Z.of_nat n.

Definition returned (s : search) : bool := match at_ s with Returned => true | _ => false end.

(** The depth of the layer a search works on, or worked on last. *)
Definition layer (s : search) : Z := if returned s then curr_depth s else curr_depth s + 1.

Record local_ok (F : list Z) (a : nat) (s : search) : Prop := Local {
  ok_self : has (visited_flag s) a;
  ok_bits : 0 <= visited_flag s /\ forall b, 0 <= b -> Z.testbit (visited_flag s) b = true -> b < Z.of_nat n;
  ok_met : forall b, b <> a -> has (visited_flag s) b -> common F (vid (info s b)) a b;
  ok_depth : 0 <= curr_depth s;
  ok_fence : length (fence s) = S (Z.to_nat (curr_depth s));
  ok_done : at_ s = Returned -> visited_flag s = full;
  ok_queue : exists k x, (front s <= k)%nat /\ queue s !! k = Some x /\ MAX_DEPTH <= x;
  ok_last : visited_flag s = full -> (2 <= n)%nat ->
    exists b, (b < n)%nat /\ b <> a /\ depth (info s b) = u16 (layer s)
}.

(** The comment of lines 215-216: of two searches that marked a vertex, one
    has seen the other. *)
Definition handshake (s : state) : Prop :=
  forall a b v, a <> b -> common (vertex_flag s) v a b ->
    has (visited_flag (thread s a)) b \/ has (visited_flag (thread s b)) a.

Record inv (s : state) : Prop := Inv {
  inv_flags : flags_ok (vertex_flag s);
  inv_local : forall a, (a < n)%nat -> local_ok (vertex_flag s) a (thread s a);
  inv_hand : handshake s
}.

Lemma common_sym F v a b : common F v a b -> common F v b a.
Proof. intros (f & H & ? & ?). by exists f. Qed.

(** Marks are never taken back. *)
Lemma common_mono F v w f f' a b :
  F !! w = Some f -> (forall c, has f c -> has f' c) -> common F v a b -> common (<[w := f']> F) v a b.
Proof.
  intros Hw Hf (f0 & H0 & Ha & Hb). unfold common, flag_at in *. destruct (0 <=? v); [|done].
  destruct (decide (w = Z.to_nat v)) as [->|Hne].
  - simplify_eq. exists f'. rewrite list_lookup_insert_eq by (by eapply lookup_lt_Some). auto.
  - exists f0. by rewrite list_lookup_insert_ne.
Qed.

(** Bits below [n] and the full flag. *)
Lemma full_has f b : f = full -> (b < n)%nat -> has f b.
Proof using Hn Hfull. intros -> Hb. unfold has. rewrite Hfull by lia. apply Z.ltb_lt. lia. Qed.

Lemma lor_new f v b : has (Z.lor v (Z.land f (Z.lnot v))) b <-> has v b \/ has f b.
Proof.
  unfold has. rewrite Z.lor_spec, Z.land_spec, Z.lnot_spec by lia.
  destruct (Z.testbit v (Z.of_nat b)), (Z.testbit f (Z.of_nat b)); simpl; intuition.
Qed.

(** ** Transitions of one search *)

(** A change of position that keeps the rest. *)
Lemma local_goto F a s p :
  local_ok F a s -> p <> Returned -> at_ s <> Returned -> local_ok F a (goto p s).
Proof.
  intros [H1 H2 H3 H4 H5 H6 H7 H8] Hp Hs. constructor; try done.
  unfold layer, returned in *. simpl in *. by destruct p, (at_ s).
Qed.

Lemma local_mono F w f f' a s :
  F !! w = Some f -> (forall c, has f c -> has f' c) -> local_ok F a s -> local_ok (<[w := f']> F) a s.
Proof.
  intros Hw Hf [H1 H2 H3 H4 H5 H6 H7 H8]. constructor; try done.
  intros b Hb Hv. eapply common_mono; eauto.
Qed.

Lemma enqueue_ok F a s x s' : enqueue capacity x s = Some s' -> local_ok F a s -> local_ok F a s'.
Proof.
  unfold enqueue. intros H. case_decide; [|done]. injection H as <-.
  intros [H1 H2 H3 H4 H5 H6 (k & y & Hk & Hy & Hd) H8]. constructor; try done.
  exists k, y. simpl. split_and!; [done| |done]. by apply lookup_app_l_Some.
Qed.

Lemma enqueue_fields s x s' :
  enqueue capacity x s = Some s' -> at_ s' = at_ s /\ visited_flag s' = visited_flag s.
Proof. unfold enqueue. intros H. case_decide; [|done]. injection H as <-. done. Qed.

Lemma dequeue_ok F a s s' :
  at_ s = Loop -> dequeue capacity full s = Some s' -> local_ok F a s -> local_ok F a s'.
Proof.
  intros Hat Hd [H1 H2 H3 H4 H5 H6 (k & y & Hk & Hy & Hm) H8]. unfold dequeue in Hd.
  pose proof (lookup_lt_Some _ _ _ Hy) as Hlt. rewrite decide_True in Hd by lia.
  destruct (queue s !! front s) as [c|] eqn:Ec; [|done]. cbn [mbind option_bind] in Hd.
  destruct (Z.leb_spec MAX_DEPTH c) as [Hc|Hc].
  - unfold enqueue in Hd. cbn [queue] in Hd. case_decide; [|done]. cbn [mbind option_bind] in Hd.
    injection Hd as <-. unfold goto. cbn [queue front curr_depth visited_flag fence info at_].
    constructor; cbn [queue front curr_depth visited_flag fence info at_]; try done.
    + lia.
    + rewrite length_app, H5. simpl. lia.
    + destruct (Z.eqb_spec (visited_flag s) full); done.
    + exists (length (queue s)), (curr_depth s + 1 + MAX_DEPTH). split_and!; [lia| |lia].
      rewrite lookup_app_r, Nat.sub_diag by lia. done.
    + intros Hv H2n. destruct (H8 Hv H2n) as (b & Hb & Hba & Hdep). exists b. split_and!; [done|done|].
      rewrite Hdep. unfold layer, returned. cbn [at_ curr_depth]. rewrite Hat.
      rewrite (proj2 (Z.eqb_eq _ _) Hv). done.
  - injection Hd as <-. constructor; cbn [goto queue front curr_depth visited_flag fence info at_]; try done.
    + exists k, y. split_and!; [|done|done]. destruct (decide (k = front s)) as [->|]; [simplify_eq; lia|lia].
    + unfold layer, returned in *. cbn [goto at_ curr_depth info]. by rewrite Hat in H8.
Qed.

(** The search meets the searches whose marks it finds. *)
Lemma meet_ok F a v before s s' :
  flags_ok F -> flag_at F v = Some before -> (a < n)%nat -> at_ s <> Returned ->
  meet capacity a v before s = Some s' ->
  local_ok F a s ->
  local_ok (<[Z.to_nat v := Z.lor before (FLAG a)]> F) a s' /\
  at_ s' = at_ s /\ forall b, has (visited_flag s') b <-> has (visited_flag s) b \/ has before b.
Proof using Hn Hfull.
  intros HF Hv Ha Hat Hm Hl. unfold meet in Hm. unfold flag_at in Hv. destruct (Z.leb_spec 0 v) as [Hv0|]; [|done].
  destruct (HF _ _ Hv) as [Hb0 Hbb].
  set (F' := <[Z.to_nat v := Z.lor before (FLAG a)]> F).
  assert (forall c, has before c -> has (Z.lor before (FLAG a)) c) as Hmono
    by (intros c Hc; unfold has in *; by rewrite Z.lor_spec, Hc).
  assert (forall b, b <> a -> has before b -> common F' v a b) as Hcommon.
  { intros b Hb Hhb. exists (Z.lor before (FLAG a)). unfold flag_at, F'. rewrite (proj2 (Z.leb_le 0 v)) by done.
    rewrite list_lookup_insert_eq by (by eapply lookup_lt_Some). split_and!; [done| |by apply Hmono].
    unfold has. rewrite Z.lor_spec, FLAG_testbit, Z.eqb_refl by lia. apply orb_true_r. }
  apply (local_mono F (Z.to_nat v) before (Z.lor before (FLAG a))) in Hl; [|done|done]. fold F' in Hl.
  destruct (Z.eqb_spec before 0) as [->|Hne].
  { destruct (enqueue_fields _ _ _ Hm) as [E1 E2]. split; [by eapply enqueue_ok|]. rewrite E1, E2.
    split; [done|]. intros b. assert (~ has 0 b) by (unfold has; by rewrite Z.bits_0). tauto. }
  set (new := Z.land before (Z.lnot (visited_flag s))) in *.
  assert (forall b, has new b <-> has before b /\ ~ has (visited_flag s) b) as Hnew.
  { intros b. unfold new, has. rewrite Z.land_spec, Z.lnot_spec by lia.
    destruct (Z.testbit before (Z.of_nat b)), (Z.testbit (visited_flag s) (Z.of_nat b)); simpl; intuition congruence. }
  assert (0 <= new < 2 ^ Z.of_nat 64) as Hrange.
  { assert (0 <= new) as H0 by (apply Z.land_nonneg; by left). split; [done|].
    apply (bits_below new 64 H0). intros b Hb Ht. unfold new in Ht. rewrite Z.land_spec in Ht.
    apply andb_prop in Ht as [Ht _]. specialize (Hbb b Hb Ht). lia. }
  set (s1 := mkSearch _ _ _ _ _ _ _) in Hm.
  assert (forall b, info s1 b = if Z.testbit new (Z.of_nat b) then mkVisit v (u16 (curr_depth s + 1)) else info s b)
    as Hinfo by (intros b; unfold s1; cbn [info]; rewrite decode_spec by done; by rewrite Z.sub_0_r).
  assert (local_ok F' a s1) as Hl1.
  { destruct Hl as [H1 H2 H3 H4 H5 H6 H7 H8]. constructor; try done.
    - unfold s1. cbn [visited_flag]. apply lor_new. by left.
    - unfold s1. cbn [visited_flag]. destruct H2 as [H20 H2b]. split.
      + apply Z.lor_nonneg. split; [done|lia].
      + intros b Hb. rewrite Z.lor_spec. intros [Ht|Ht]%orb_prop; [by apply H2b|].
        unfold new in Ht. rewrite Z.land_spec in Ht. apply andb_prop in Ht as [Ht _]. by apply Hbb.
    - intros b Hba Hb. rewrite Hinfo. destruct (Z.testbit new (Z.of_nat b)) eqn:Et; cbn [vid].
      + apply Hcommon; [done|]. by apply Hnew.
      + apply H3; [done|]. unfold s1 in Hb. cbn [visited_flag] in Hb. unfold has in *.
        rewrite Z.lor_spec, Et, orb_false_r in Hb. done.
    - intros Hv1 H2n. unfold layer, returned. cbn [s1 at_ curr_depth].
      destruct (Z.eq_dec new 0) as [Hz|Hz].
      + unfold s1 in Hv1. cbn [visited_flag] in Hv1. rewrite Hz, Z.lor_0_r in Hv1.
        destruct (H8 Hv1 H2n) as (b & Hb & Hba & Hdep). exists b. rewrite Hinfo, Hz, Z.bits_0. done.
      + pose proof (Z.bit_log2 new ltac:(lia)) as Hlog. pose proof (Z.log2_nonneg new) as Hlog0.
        assert (has new (Z.to_nat (Z.log2 new))) as Hh by (unfold has; by rewrite Z2Nat.id).
        exists (Z.to_nat (Z.log2 new)). apply Hnew in Hh as [Hh1 Hh2]. unfold has in Hh1. rewrite Z2Nat.id in Hh1 by done.
        specialize (Hbb _ Hlog0 Hh1). split_and!; [lia| |].
        * intros <-. done.
        * rewrite Hinfo, Z2Nat.id, Hlog by done. cbn [depth]. clear -Hat.
          destruct (at_ s); [reflexivity|reflexivity|reflexivity|]. by destruct Hat. }
  destruct (enqueue_fields _ _ _ Hm) as [E1 E2]. split; [exact (enqueue_ok _ _ _ _ _ Hm Hl1)|].
  rewrite E1, E2. split; [reflexivity|]. intros b. apply lor_new.
Qed.

Lemma dequeue_visited s s' : dequeue capacity full s = Some s' -> visited_flag s' = visited_flag s.
Proof.
  unfold dequeue, enqueue. intros H. case_decide; [|by simplify_eq].
  destruct (queue s !! front s) as [c|]; [|done]. cbn [mbind option_bind] in H.
  destruct (MAX_DEPTH <=? c); [|by simplify_eq]. cbn [queue] in H. case_decide; [|done].
  cbn [mbind option_bind] in H. by simplify_eq.
Qed.

(** ** The invariant *)

(** A transition that leaves the flag words alone. *)
Lemma inv_local_step s t me' :
  (t < n)%nat -> inv s -> local_ok (vertex_flag s) t me' ->
  visited_flag me' = visited_flag (thread s t) -> inv (mkState (vertex_flag s) (upd (thread s) t me')).
Proof.
  intros Ht [If Il Ih] Hok Hv.
  assert (forall c, visited_flag (upd (thread s) t me' c) = visited_flag (thread s c)) as Hsame
    by (intros c; destruct (decide (t = c)) as [<-|]; [by rewrite upd_eq|by rewrite upd_ne]).
  constructor; [done| |]; cbn [vertex_flag thread].
  - intros a Ha. destruct (decide (t = a)) as [<-|]; [by rewrite upd_eq|rewrite upd_ne by done; by apply Il].
  - intros a b v Hab Hc. cbn [thread]. rewrite !Hsame. by apply (Ih a b v).
Qed.

Lemma flags_ok_mark F v before t :
  (t < n)%nat -> flags_ok F -> flag_at F v = Some before ->
  flags_ok (<[Z.to_nat v := Z.lor before (FLAG t)]> F).
Proof using Hn.
  intros Ht HF Hv w f Hw. unfold flag_at in Hv. destruct (0 <=? v); [|done].
  destruct (decide (Z.to_nat v = w)) as [<-|Hne]; [|rewrite list_lookup_insert_ne in Hw by done; by apply (HF w)].
  rewrite list_lookup_insert_eq in Hw by (by eapply lookup_lt_Some). injection Hw as <-.
  destruct (HF _ _ Hv) as [H0 Hb]. split.
  - apply Z.lor_nonneg. split; [done|]. rewrite FLAG_pow by lia. lia.
  - intros b Hb0. rewrite Z.lor_spec, FLAG_testbit by lia. intros [H|H%Z.eqb_eq]%orb_prop; [by apply Hb|lia].
Qed.

(** The fetch-and-or shows a search every mark that was there before. *)
Lemma handshake_mark s t v before me' :
  (t < n)%nat -> handshake s -> flag_at (vertex_flag s) v = Some before ->
  (forall b, has (visited_flag me') b <-> has (visited_flag (thread s t)) b \/ has before b) ->
  handshake (mkState (<[Z.to_nat v := Z.lor before (FLAG t)]> (vertex_flag s)) (upd (thread s) t me')).
Proof using Hn.
  intros Ht Hh Hv Hvis a b w Hab Hc. cbn [thread vertex_flag] in *.
  set (th' := upd (thread s) t me').
  assert (forall c d, has (visited_flag (thread s c)) d -> has (visited_flag (th' c)) d) as Hup.
  { intros c d H. unfold th'. destruct (decide (t = c)) as [<-|]; [rewrite upd_eq; apply Hvis; by left|by rewrite upd_ne]. }
  assert (forall c, c <> t -> has before c -> has (visited_flag (th' t)) c) as Hsee.
  { intros c _ H. unfold th'. rewrite upd_eq. apply Hvis. by right. }
  assert (common (vertex_flag s) w a b -> has (visited_flag (th' a)) b \/ has (visited_flag (th' b)) a) as Hold.
  { intros H. destruct (Hh a b w Hab H); [left|right]; by apply Hup. }
  destruct Hc as (f & Hf & Hfa & Hfb). unfold flag_at in *. destruct (Z.leb_spec 0 w) as [Hw0|]; [|done].
  destruct (0 <=? v); [|done].
  destruct (decide (Z.to_nat v = Z.to_nat w)) as [E|Hne].
  2: { rewrite list_lookup_insert_ne in Hf by done. apply Hold. exists f. unfold flag_at.
       by rewrite (proj2 (Z.leb_le 0 w)). }
  rewrite E in *. rewrite list_lookup_insert_eq in Hf by (by eapply lookup_lt_Some). injection Hf as <-.
  unfold has in Hfa, Hfb. rewrite Z.lor_spec, FLAG_testbit in Hfa, Hfb by lia.
  apply orb_prop in Hfa as [Ha|Ha%Z.eqb_eq], Hfb as [Hb|Hb%Z.eqb_eq].
  - apply Hold. exists before. unfold flag_at. by rewrite (proj2 (Z.leb_le 0 w)).
  - right. assert (b = t) as -> by lia. by apply Hsee.
  - left. assert (a = t) as -> by lia. apply Hsee; [congruence|done].
  - lia.
Qed.

Lemma ta_step s s' : inv s -> step capacity g full n s s' -> inv s'.
Proof using Hn Hfull.
  intros I (t & Ht & Hst). pose proof (inv_local _ I t Ht) as Hl. unfold FindMinMaxPath_step in Hst.
  destruct (at_ (thread s t)) as [|c i|c i|] eqn:Eat; [| | |done].
  - destruct (dequeue capacity full (thread s t)) as [me'|] eqn:Ed; [|done]. injection Hst as <-.
    apply inv_local_step; [done|done|by eapply dequeue_ok|by apply dequeue_visited].
  - destruct (get g c 0) as [m|]; [|done]. cbn [mbind option_bind] in Hst.
    destruct (Z.of_nat i <=? m).
    + destruct (get g c i) as [v|]; [|done]. cbn [mbind option_bind] in Hst.
      destruct (flag_at (vertex_flag s) v) as [f|]; [|done]. injection Hst as <-.
      apply inv_local_step; [done|done| |done]. apply local_goto; [done|by case_match|by rewrite Eat].
    + injection Hst as <-. apply inv_local_step; [done|done| |done]. apply local_goto; [done|done|by rewrite Eat].
  - destruct (get g c i) as [v|]; [|done]. cbn [mbind option_bind] in Hst.
    destruct (flag_at (vertex_flag s) v) as [before|] eqn:Ef; [|done]. cbn [mbind option_bind] in Hst.
    destruct (meet capacity t v before (thread s t)) as [me'|] eqn:Em; [|done]. injection Hst as <-.
    destruct (meet_ok _ _ _ _ _ _ (inv_flags _ I) Ef Ht ltac:(by rewrite Eat) Em Hl) as (Hl' & Hat & Hvis).
    constructor; cbn [vertex_flag thread].
    + apply flags_ok_mark; [done|apply I|done].
    + intros a Ha. destruct (decide (t = a)) as [<-|Hne].
      * rewrite upd_eq. apply local_goto; [done|done|]. by rewrite Hat, Eat.
      * rewrite upd_ne by done. pose proof Ef as Ef'. unfold flag_at in Ef'. destruct (0 <=? v); [|done].
        eapply local_mono; [done| |by apply (inv_local _ I)].
        intros d Hd. unfold has in *. by rewrite Z.lor_spec, Hd.
    + apply handshake_mark; [done|apply I|done|]. intros b. apply Hvis.
Qed.
End meet.

(** ** The start *)

Lemma mark_flags_spec houses : forall i F full F' full',
  (i + length houses <= 64)%nat ->
  mark_flags i houses F full = Some (F', full') ->
  (forall v f, F !! v = Some f -> f = 0 \/ exists j, (j < i)%nat /\ f = FLAG j) ->
  (forall b, 0 <= b -> Z.testbit full b = (b <? Z.of_nat i)) ->
  (forall v f, F' !! v = Some f -> f = 0 \/ exists j, (j < i + length houses)%nat /\ f = FLAG j) /\
  (forall b, 0 <= b -> Z.testbit full' b = (b <? Z.of_nat (i + length houses))).
Proof.
  induction houses as [|h houses IH]; intros i F full F' full' Hi H HF Hb; simpl in *.
  - injection H as <- <-. by rewrite Nat.add_0_r.
  - destruct (0 <=? h); [|done]. simpl in H. case_bool_decide as Hlen; [|done].
    replace (i + S (length houses))%nat with (S i + length houses)%nat by lia.
    eapply IH; [lia|exact H| |].
    + intros v f. destruct (decide (Z.to_nat h = v)) as [<-|Hne].
      * rewrite list_lookup_insert_eq by done. intros [= <-]. right. exists i. split; [lia|done].
      * rewrite list_lookup_insert_ne by done. intros Hv. destruct (HF v f Hv) as [|(j & Hj & ->)]; [by left|].
        right. exists j. split; [lia|done].
    + intros b Hb0. rewrite Z.lor_spec, Hb, FLAG_testbit by lia.
      destruct (Z.ltb_spec b (Z.of_nat i)), (Z.eqb_spec (Z.of_nat i) b), (Z.ltb_spec b (Z.of_nat (S i))); simpl; lia || done.
Qed.

(** What [InputGraph] establishes. *)
Lemma input_ok nv houses lines g F full :
  InputGraph nv houses lines = Some (g, F, full) ->
  (length houses <= 64)%nat /\
  (forall b, 0 <= b -> Z.testbit full b = (b <? Z.of_nat (length houses))) /\
  forall v f, F !! v = Some f -> f = 0 \/ exists j, (j < length houses)%nat /\ f = FLAG j.
Proof.
  unfold InputGraph. intros H. case_decide as Hn; [|done]. unfold MAX_NUM_HOUSE in Hn.
  destruct (mark_flags 0 houses (replicate (S nv) 0) 0) as [[F0 full0]|] eqn:Em; [|done].
  cbn [mbind option_bind] in H. destruct (read_lines _ _) as [g0|]; [|done]. simplify_eq/=.
  eapply mark_flags_spec in Em; [|lia| |].
  - destruct Em as [H1 H2]. done.
  - intros v f Hv. left. change (replicate (S nv) 0 !! v = Some f) in Hv. by apply lookup_replicate_1 in Hv as [-> _].
  - intros b Hb. rewrite Z.bits_0. symmetry. apply Z.ltb_ge. simpl. lia.
Qed.

Section run.
Context (capacity nv : nat) (houses : list Z) (lines : list (Z * list Z)).
Context (g : list (list Z)) (F : list Z) (full : Z).
Context (Hin : InputGraph nv houses lines = Some (g, F, full)).
Local Set Default Proof Using "Hin".

Notation n := (length houses).

Lemma start_inv : inv full n (main_start F houses).
Proof.
  destruct (input_ok _ _ _ _ _ _ Hin) as (Hn & Hfull & HF).
  assert (forall v f, F !! v = Some f -> 0 <= f /\ forall b, 0 <= b -> Z.testbit f b = true -> b < Z.of_nat n) as Hflags.
  { intros v f Hv. destruct (HF v f Hv) as [->|(j & Hj & ->)].
    - split; [done|]. intros b Hb. by rewrite Z.bits_0.
    - rewrite FLAG_pow by lia. split; [lia|]. intros b Hb. rewrite Z.pow2_bits_eqb by lia.
      intros Hjb%Z.eqb_eq. lia. }
  constructor.
  - exact Hflags.
  - intros a Ha. cbn [main_start thread]; unfold start_search.
    assert (forall b, b <> a -> ~ has (FLAG a) b) as Hone.
    { intros b Hb. unfold has. rewrite FLAG_testbit by lia. intros Hab%Z.eqb_eq. lia. }
    constructor; cbn [visited_flag info curr_depth fence at_ queue front]; try done.
    + unfold has. rewrite FLAG_testbit, Z.eqb_refl by lia. done.
    + rewrite FLAG_pow by lia. split; [lia|]. intros b Hb. rewrite Z.pow2_bits_eqb by lia. intros Hab%Z.eqb_eq. lia.
    + intros b Hb Hh. by destruct (Hone b Hb).
    + exists 1%nat, MAX_DEPTH. split_and!; [lia|done|done].
    + intros Hv H2. destruct (decide (a = 0%nat)) as [->|Hne].
      * destruct (Hone 1%nat); [done|]. apply (full_has full n Hn Hfull); [done|lia].
      * destruct (Hone 0%nat); [done|]. apply (full_has full n Hn Hfull); [done|lia].
  - intros a b v Hab (f & Hf & Ha & Hb). exfalso. cbn [main_start vertex_flag] in Hf. unfold flag_at in Hf.
    destruct (0 <=? v); [|done]. unfold has in *. destruct (HF _ _ Hf) as [->|(j & Hj & ->)].
    + by rewrite Z.bits_0 in Ha.
    + rewrite FLAG_testbit in Ha, Hb by lia. apply Z.eqb_eq in Ha, Hb. lia.
Qed.

Lemma ta_reachable s : rtc (step capacity g full n) (main_start F houses) s -> inv full n s.
Proof.
  intros Hr. destruct (input_ok _ _ _ _ _ _ Hin) as (Hn & Hfull & _).
  eapply rtc_invariant; [exact start_inv| |exact Hr]. intros x y. by apply ta_step.
Qed.

(** When two searches have marked the same vertex, one of them has seen the
    mark of the other, in every reachable state. *)
Theorem searches_handshake s a b v :
  rtc (step capacity g full n) (main_start F houses) s -> a <> b -> common (vertex_flag s) v a b ->
  has (visited_flag (thread s a)) b \/ has (visited_flag (thread s b)) a.
Proof. intros Hr Hab Hc. exact (inv_hand _ _ _ (ta_reachable s Hr) a b v Hab Hc). Qed.

(** C24: A search that has returned has met every other search, at a vertex that
    both have marked: every record [MakeResult] reads of it was written. *)
Theorem returned_has_met s a b :
  rtc (step capacity g full n) (main_start F houses) s -> (a < n)%nat -> (b < n)%nat -> a <> b ->
  at_ (thread s a) = Returned -> common (vertex_flag s) (vid (info (thread s a) b)) a b.
Proof.
  intros Hr Ha Hb Hab Hat. destruct (input_ok _ _ _ _ _ _ Hin) as (Hn & Hfull & _).
  pose proof (inv_local _ _ _ (ta_reachable s Hr) a Ha) as Hl. apply (ok_met _ _ _ _ _ Hl); [done|].
  apply (full_has full n Hn Hfull); [by apply (ok_done _ _ _ _ _ Hl)|done].
Qed.

(** Both searches are over, at depths that fit the records. *)
Definition both_returned (s : state) : Prop :=
  (at_ (thread s 0) = Returned /\ curr_depth (thread s 0) < 2 ^ 16) /\
  (at_ (thread s 1) = Returned /\ curr_depth (thread s 1) < 2 ^ 16).

(** With two houses the comparison of the layers always reads past the end of
    a fence vector: no result is defined when both searches have returned. *)
Theorem two_houses_fence_overrun s :
  n = 2%nat -> rtc (step capacity g full n) (main_start F houses) s ->
  both_returned s -> MakeResult n (thread s) = None.
Proof.
  intros Hn2 Hr [[H0 Hd0] [H1 Hd1]]. destruct (ta_reachable s Hr) as [_ Il _]. rewrite Hn2 in *.
  pose proof (Il 1%nat ltac:(lia)) as Hl. pose proof (ok_depth _ _ _ _ _ Hl) as Hpos.
  destruct (ok_last _ _ _ _ _ Hl (ok_done _ _ _ _ _ Hl H1) ltac:(lia)) as (b & Hb & Hne & Hdep).
  assert (b = 0%nat) as -> by lia. unfold layer, returned in Hdep. rewrite H1 in Hdep.
  unfold u16 in Hdep. rewrite wrap_u_small in Hdep by lia.
  assert (in_layer (thread s 1) (depth (info (thread s 1) 0)) (vid (info (thread s 0) 1)) = None) as Hnone.
  { unfold in_layer. rewrite Hdep, (proj2 (Z.leb_le _ _)) by lia.
    rewrite (lookup_ge_None_2 (fence (thread s 1)) (S _)) by (rewrite (ok_fence _ _ _ _ _ Hl); lia).
    by destruct (fence (thread s 1) !! Z.to_nat (curr_depth (thread s 1))). }
  pose proof (Il 0%nat ltac:(lia)) as Hl0. pose proof (ok_depth _ _ _ _ _ Hl0) as Hpos0.
  destruct (ok_last _ _ _ _ _ Hl0 (ok_done _ _ _ _ _ Hl0 H0) ltac:(lia)) as (b & Hb' & Hne' & Hdep').
  assert (b = 1%nat) as -> by lia. unfold layer, returned in Hdep'. rewrite H0 in Hdep'.
  unfold u16 in Hdep'. rewrite wrap_u_small in Hdep' by lia.
  assert (min_dist 2 (thread s) = dist (thread s) 0 1) as Emin.
  { change (min_dist 2 (thread s)) with
      (if dist (thread s) 0 1 <? 999999999 then dist (thread s) 0 1 else 999999999).
    rewrite (proj2 (Z.ltb_lt _ _)); [done|]. unfold dist. rewrite Hdep, Hdep'. lia. }
  unfold MakeResult. rewrite Emin. change (pairs 2) with [(0%nat, 1%nat)].
  rewrite (filter_cons_True (fun p => dist (thread s) p.1 p.2 = dist (thread s) 0 1)) by done.
  cbn [min_loop]. by rewrite Hnone.
Qed.

Lemma run_rtc ts s : Forall (fun t => (t < n)%nat) ts -> rtc (step capacity g full n) s (run capacity g full ts s).
Proof.
  intros Hts. revert s. induction Hts as [|t ts Ht Hts IH]; intros s; simpl; [done|].
  destruct (FindMinMaxPath_step capacity g full t s) as [s'|] eqn:Es; [|done].
  eapply rtc_l; [|apply IH]. by exists t.
Qed.
End run.

(** ** The extreme distances *)

Lemma pairs_elem n i j : (i, j) ∈ pairs n <-> (i < j < n)%nat.
Proof.
  unfold pairs. rewrite list_elem_of_In, in_concat. split.
  - intros (l & Hl & Hin). apply in_map_iff in Hl as (i' & <- & _). apply in_map_iff in Hin as (j' & [= <- <-] & Hj).
    apply in_seq in Hj. lia.
  - intros H. exists (map (fun j => (i, j)) (seq (S i) (n - S i))). split.
    + apply in_map_iff. exists i. split; [done|]. apply in_seq. lia.
    + apply in_map_iff. exists j. split; [done|]. apply in_seq. lia.
Qed.

Lemma foldl_min (f : nat * nat -> Z) ps : forall m0,
  let m := foldl (fun m p => if f p <? m then f p else m) m0 ps in
  (m <= m0) /\ (forall p, p ∈ ps -> m <= f p) /\ (m = m0 \/ exists p, p ∈ ps /\ m = f p).
Proof.
  induction ps as [|p ps IH]; intros m0; cbn [foldl].
  - split_and!; [lia|by intros p Hp%elem_of_nil|by left].
  - destruct (IH (if f p <? m0 then f p else m0)) as (H1 & H2 & H3).
    assert ((if f p <? m0 then f p else m0) <= m0 /\ (if f p <? m0 then f p else m0) <= f p) as [Hle1 Hle2]
      by (destruct (Z.ltb_spec (f p) m0); lia).
    split_and!; [lia| |].
    + intros q [->|Hq]%elem_of_cons; [lia|by apply H2].
    + destruct H3 as [H3|(q & Hq & H3)]; [|right; exists q; split; [by right|done]].
      rewrite H3. destruct (f p <? m0); [right; exists p; split; [left|done]|by left].
Qed.

Lemma foldl_max (f : nat * nat -> Z) ps : forall m0,
  let m := foldl (fun m p => if m <? f p then f p else m) m0 ps in
  (m0 <= m) /\ (forall p, p ∈ ps -> f p <= m) /\ (m = m0 \/ exists p, p ∈ ps /\ m = f p).
Proof.
  induction ps as [|p ps IH]; intros m0; cbn [foldl].
  - split_and!; [lia|by intros p Hp%elem_of_nil|by left].
  - destruct (IH (if m0 <? f p then f p else m0)) as (H1 & H2 & H3).
    assert (m0 <= (if m0 <? f p then f p else m0) /\ f p <= (if m0 <? f p then f p else m0)) as [Hle1 Hle2]
      by (destruct (Z.ltb_spec m0 (f p)); lia).
    split_and!; [lia| |].
    + intros q [->|Hq]%elem_of_cons; [lia|by apply H2].
    + destruct H3 as [H3|(q & Hq & H3)]; [|right; exists q; split; [by right|done]].
      rewrite H3. destruct (m0 <? f p); [right; exists p; split; [left|done]|by left].
Qed.

Definition least_sum (n : nat) (th : nat -> search) (m : Z) : Prop :=
  (exists i j, (i < j < n)%nat /\ m = dist th i j) /\ forall i j, (i < j < n)%nat -> m <= dist th i j.

Definition greatest_sum (n : nat) (th : nat -> search) (m : Z) : Prop :=
  (exists i j, (i < j < n)%nat /\ m = dist th i j) /\ forall i j, (i < j < n)%nat -> dist th i j <= m.

(** When the result is defined, the printed numbers are the least and the
    greatest sum of two meeting depths over all pairs of houses, or one less. *)
Theorem make_result_extremes n th lo hi :
  (2 <= n)%nat -> (forall i j, (i < j < n)%nat -> 0 < dist th i j < 999999999) ->
  MakeResult n th = Some (lo, hi) ->
  exists m M, least_sum n th m /\ greatest_sum n th M /\ (lo = m \/ lo = m - 1) /\ (hi = M \/ hi = M - 1).
Proof.
  intros H2 Hd HR. assert ((0 < 1 < n)%nat) as H01 by lia.
  destruct (foldl_min (fun p => dist th p.1 p.2) (pairs n) 999999999) as (_ & A2 & A3).
  destruct (foldl_max (fun p => dist th p.1 p.2) (pairs n) 0) as (_ & B2 & B3).
  fold (min_dist n th) in A2, A3. fold (max_dist n th) in B2, B3.
  pose proof (A2 (0, 1)%nat ltac:(by apply pairs_elem)) as A01. pose proof (B2 (0, 1)%nat ltac:(by apply pairs_elem)) as B01.
  pose proof (Hd 0%nat 1%nat H01) as D01. simpl in A01, B01.
  exists (min_dist n th), (max_dist n th). split; [|split].
  - split; [|intros i j Hij; by apply (A2 (i, j)), pairs_elem].
    destruct A3 as [?|([i j] & Hp & Hm)]; [lia|]. exists i, j. by rewrite <- pairs_elem.
  - split; [|intros i j Hij; by apply (B2 (i, j)), pairs_elem].
    destruct B3 as [?|([i j] & Hp & Hm)]; [lia|]. exists i, j. by rewrite <- pairs_elem.
  - unfold MakeResult in HR. destruct (min_loop th _) as [early|]; [|done]. simpl in HR.
    destruct (max_loop th _) as [stopped|]; [|done]. simpl in HR. injection HR as <- <-.
    destruct early, stopped; auto.
Qed.

(** ** Concrete graphs *)

(** A path of four vertices with a house at each end. *)
Definition path_lines : list (Z * list Z) := [(1, [2]); (2, [3]); (3, [4])].

(** A star: houses 1, 4 and 6, joined in 2 and 3. *)
Definition star_lines : list (Z * list Z) := [(1, [2]); (2, [3]); (3, [4]); (3, [6])].

Definition input_of (nv : nat) (houses : list Z) (lines : list (Z * list Z)) : list (list Z) * list Z * Z :=
  default ([], [], 0) (InputGraph nv houses lines).

Definition path_input := input_of 6 [1; 4] path_lines.
Definition star_input := input_of 8 [1; 4; 6] star_lines.

Definition turns (k : nat) (ts : list nat) : list nat := concat (replicate k ts).

Definition path_end : state :=
  run 100 path_input.1.1 path_input.2 (turns 40 [0; 1]%nat) (main_start path_input.1.2 [1; 4]).

Definition star_end : state :=
  run 100 star_input.1.1 star_input.2 (turns 60 [0; 1; 2]%nat) (main_start star_input.1.2 [1; 4; 6]).

Lemma path_in : InputGraph 6 [1; 4] path_lines = Some (path_input.1.1, path_input.1.2, path_input.2).
Proof. by vm_compute. Qed.

Lemma turns_below k ts n : Forall (fun t => (t < n)%nat) ts -> Forall (fun t => (t < n)%nat) (turns k ts).
Proof. intros H. unfold turns. induction k; simpl; [constructor|]. by apply Forall_app. Qed.

Lemma path_rtc : rtc (step 100 path_input.1.1 path_input.2 2) (main_start path_input.1.2 [1; 4]) path_end.
Proof.
  apply (run_rtc 100 6 [1; 4] path_lines path_input.1.1 path_input.1.2 path_input.2 path_in).
  apply turns_below. repeat constructor; simpl; lia.
Qed.

Lemma searches_handshake_witness :
  has (visited_flag (thread path_end 0)) 1 \/ has (visited_flag (thread path_end 1)) 0.
Proof.
  apply (searches_handshake 100 6 [1; 4] path_lines path_input.1.1 path_input.1.2 path_input.2 path_in path_end 0 1 3).
  - exact path_rtc.
  - done.
  - exists 3. split_and!; by vm_compute.
Defined.

Lemma returned_has_met_witness : common (vertex_flag path_end) (vid (info (thread path_end 0) 1)) 0 1.
Proof.
  apply (returned_has_met 100 6 [1; 4] path_lines path_input.1.1 path_input.1.2 path_input.2 path_in path_end 0 1).
  - exact path_rtc.
  - simpl. lia.
  - simpl. lia.
  - done.
  - by vm_compute.
Defined.

Lemma two_houses_fence_overrun_witness : MakeResult 2 (thread path_end) = None.
Proof.
  apply (two_houses_fence_overrun 100 6 [1; 4] path_lines path_input.1.1 path_input.1.2 path_input.2 path_in path_end).
  - done.
  - exact path_rtc.
  - split; by vm_compute.
Defined.

Lemma make_result_extremes_witness :
  exists m M, least_sum 3 (thread star_end) m /\ greatest_sum 3 (thread star_end) M /\
    (2 = m \/ 2 = m - 1) /\ (3 = M \/ 3 = M - 1).
Proof.
  apply (make_result_extremes 3 (thread star_end) 2 3).
  - lia.
  - intros i j Hij.
    assert ((i = 0 /\ j = 1) \/ (i = 0 /\ j = 2) \/ (i = 1 /\ j = 2))%nat as [[-> ->]|[[-> ->]|[-> ->]]] by lia;
      split; by vm_compute.
  - by vm_compute.
Defined.
End TaMeet.
