(* ===== verification/RwLock.v ===== *)
(** * The read-write lock of XtraDB

    [rw_lock_t] (include/sync0rw.h) with its shared and exclusive locking and
    unlocking functions (include/sync0rw.ic, sync/sync0rw.cc), built with
    atomic operations, for any number of threads that pass 0: one transition
    per access of a field of the lock or of an event.  The locks without
    priority are modelled, for which [rw_lock_higher_prio_waiters_exist] is
    false.  [lock_word] is a signed 64-bit field; it stays between [-2^20] less
    the depth of recursion and [2^20], and is an integer here. *)
From S2P Require Import Prelude OsEvent MutexSpin.
Local Open Scope Z_scope.

Module RwLock.

(** sync0rw.h line 99. *)
Definition X_LOCK_DECR : Z := 0x00100000.

(** Where a thread tries to lock: the functions that do not wait, the first
    attempt, an attempt in the spin loop, or the attempt after announcing
    itself as a waiter, with the signal count of its wait cell. *)
Inductive sctx := STry | SFirst | SLoop (i : nat) | SFinal (sig : Z).
Inductive xctx := XTry | XLoop (i : nat) | XFinal (sig : Z).

(** Program counters.  [d] is the number of exclusive locks the thread has
    already, [r] the value of [local_recursive], [w] that of
    [local_lock_word]. *)
Inductive pc :=
| Out                                       (* no lock *)
| SRead (k : sctx)                          (* rw_lock_lock_word_decr(lock, 1): reads lock_word *)
| SCas (k : sctx) (w : Z)                   (* its compare-and-swap *)
| SSpin (i : nat)                           (* rw_lock_s_lock_spin, line 458 *)
| SReserve                                  (* line 504: a cell, which resets the event *)
| SSetWaiters (sig : Z)                     (* line 522 *)
| SWait (sig : Z)                           (* line 551 *)
| InS                                       (* a shared lock *)
| SUnlock                                   (* sync0rw.ic line 600 *)
| SUnlockSet                                (* line 605 *)
| XRec (d : nat) (k : xctx)                 (* reads recursive *)
| XRead (d : nat) (k : xctx) (r : bool)     (* rw_lock_lock_word_decr(lock, X_LOCK_DECR) *)
| XCas (d : nat) (k : xctx) (r : bool) (w : Z)
| XTryCas (d : nat) (r : bool)              (* rw_lock_x_lock_func_nowait, line 523 of sync0rw.ic *)
| XFailed (d : nat) (k : xctx) (r : bool)   (* compares writer_thread *)
| XAssert                                   (* sync0rw.cc line 714 *)
| XWriter (wait : bool)                     (* rw_lock_set_writer_id_and_recursion_flag *)
| XWriterCas (wait : bool) (l : nat)
| XSetRec (wait : bool)
| XWaitLoop (i : nat)                       (* rw_lock_x_lock_wait, line 625 *)
| XWaitReserve                              (* line 639 *)
| XWaitCheck (sig : Z)                      (* line 647 *)
| XWaitSleep (sig : Z)                      (* line 667 *)
| XRelock (d : nat)                         (* line 737: tests lock_word *)
| XRelockLoad (d : nat) (a : Z)
| XRelockStore (d : nat) (w : Z)
| XSpin (d i : nat)                         (* rw_lock_x_lock_func, line 831 *)
| XReserve (d : nat)                        (* line 868 *)
| XSetWaiters (d : nat) (sig : Z)           (* line 882 *)
| XSleep (d : nat) (sig : Z)                (* line 908 *)
| InX (d : nat)                             (* d exclusive locks *)
| XUnTest (d : nat)                         (* rw_lock_x_prepare_unlock, line 691 of sync0rw.ic *)
| XUnRec (d : nat)                          (* line 693 *)
| XUnRead (d : nat)                         (* line 701 *)
| XUnIncr (d : nat) (a : Z)                 (* rw_lock_x_unlock_func, line 731 *)
| XUnWaiters                                (* line 736 *)
| XUnClear                                  (* line 737 *)
| XUnSet                                    (* line 738 *)
| Abort.                                    (* a failed ut_a *)

Section rwlock.
Context {E : Type} {HO : EventOps E} {HE : EventLaws E} (SYNC_SPIN_ROUNDS : nat).

Record state := mkState {
  lock_word : Z; waiters : Z; recursive : bool; writer_thread : nat;
  event : E; wait_ex_event : E; thread : nat -> pc }.

(** [rw_lock_create_func], lines 235-267 of sync0rw.cc. *)
Definition init : state := mkState X_LOCK_DECR 0 false 0 event_create event_create (fun _ => Out).

Definition goto (t : nat) (p : pc) (s : state) : state :=
  mkState (lock_word s) (waiters s) (recursive s) (writer_thread s) (event s) (wait_ex_event s) (upd (thread s) t p).

Definition set_word (w : Z) (s : state) : state :=
  mkState w (waiters s) (recursive s) (writer_thread s) (event s) (wait_ex_event s) (thread s).
Definition set_recursive (b : bool) (s : state) : state :=
  mkState (lock_word s) (waiters s) b (writer_thread s) (event s) (wait_ex_event s) (thread s).
Definition set_writer (t : nat) (s : state) : state :=
  mkState (lock_word s) (waiters s) (recursive s) t (event s) (wait_ex_event s) (thread s).
Definition set_event (e : E) (s : state) : state :=
  mkState (lock_word s) (waiters s) (recursive s) (writer_thread s) e (wait_ex_event s) (thread s).
Definition set_wait_ex (e : E) (s : state) : state :=
  mkState (lock_word s) (waiters s) (recursive s) (writer_thread s) (event s) e (thread s).
Definition set_waiters (n : Z) (s : state) : state :=
  mkState (lock_word s) n (recursive s) (writer_thread s) (event s) (wait_ex_event s) (thread s).

(** sync0rw.ic, lines 105-118 and 123-137: compare-and-swap. *)
Definition rw_lock_set_waiter_flag (s : state) : state := if waiters s =? 0 then set_waiters 1 s else s.
Definition rw_lock_reset_waiter_flag (s : state) : state := if waiters s =? 1 then set_waiters 0 s else s.

(** Where a shared attempt goes on that did not succeed: line 432 of
    sync0rw.ic, lines 498-504 and line 551 of sync0rw.cc. *)
Definition s_lost (k : sctx) : pc :=
  match k with
  | STry => Out
  | SFirst => SSpin 0
  | SLoop i => if (0 <? i)%nat && (i <? SYNC_SPIN_ROUNDS)%nat then SSpin i else SReserve
  | SFinal sig => SWait sig
  end.

(** [rw_lock_s_lock_low] around [rw_lock_lock_word_decr], sync0rw.ic lines
    253-286 and 361-389. *)
Definition rw_lock_s_lock_low_step (t : nat) (s : state) : option state :=
  match thread s t with
  | SRead k => Some (goto t (if 0 <? lock_word s then SCas k (lock_word s) else s_lost k) s)
  | SCas k w =>
      Some (if lock_word s =? w then goto t InS (set_word (w - 1) s) else goto t (SRead k) s)
  | _ => None
  end.

(** [rw_lock_s_lock_spin], sync0rw.cc lines 421-563. *)
Definition rw_lock_s_lock_spin_step (t : nat) (s : state) : option state :=
  match thread s t with
  | SSpin i =>
      Some (goto t (if (i <? SYNC_SPIN_ROUNDS)%nat && (lock_word s <=? 0) then SSpin (S i) else SRead (SLoop i)) s)
  | SReserve => let (e, sig) := event_reset (event s) in Some (goto t (SSetWaiters sig) (set_event e s))
  | SSetWaiters sig => Some (goto t (SRead (SFinal sig)) (rw_lock_set_waiter_flag s))
  | SWait sig => if event_blocks (event s) sig then None else Some (goto t (SSpin 0) s)
  | _ => rw_lock_s_lock_low_step t s
  end.

(** [rw_lock_s_unlock_func], sync0rw.ic lines 581-615. *)
Definition rw_lock_s_unlock_step (t : nat) (s : state) : option state :=
  match thread s t with
  | SUnlock =>
      Some (goto t (if lock_word s + 1 =? 0 then SUnlockSet else Out) (set_word (lock_word s + 1) s))
  | SUnlockSet => Some (goto t Out (set_wait_ex (event_set (wait_ex_event s)) s))
  | _ => None
  end.

(** Where an exclusive attempt goes on that did not succeed. *)
Definition x_lost (d : nat) (k : xctx) : pc :=
  match k with
  | XTry => match d with O => Out | S _ => InX d end
  | XLoop i => XSpin d i
  | XFinal sig => XSleep d sig
  end.

(** [rw_lock_set_writer_id_and_recursion_flag], sync0rw.ic lines 321-356; the
    functions that do not wait hold the lock behind it. *)
Definition set_writer_id_step (t : nat) (s : state) : option state :=
  match thread s t with
  | XWriter wait => Some (goto t (XWriterCas wait (writer_thread s)) s)
  | XWriterCas wait l =>
      Some (if (writer_thread s =? l)%nat then goto t (XSetRec wait) (set_writer t s) else goto t Abort s)
  | XSetRec wait => Some (goto t (if wait then XWaitLoop 0 else InX 1) (set_recursive true s))
  | _ => None
  end.

(** [rw_lock_x_lock_wait], sync0rw.cc lines 588-687. *)
Definition rw_lock_x_lock_wait_step (t : nat) (s : state) : option state :=
  match thread s t with
  | XWaitLoop i =>
      Some (goto t (if lock_word s <? 0
                    then if (i <? SYNC_SPIN_ROUNDS)%nat then XWaitLoop (S i) else XWaitReserve
                    else InX 1) s)
  | XWaitReserve =>
      let (e, sig) := event_reset (wait_ex_event s) in Some (goto t (XWaitCheck sig) (set_wait_ex e s))
  | XWaitCheck sig => Some (goto t (if lock_word s <? 0 then XWaitSleep sig else XWaitLoop 0) s)
  | XWaitSleep sig => if event_blocks (wait_ex_event s) sig then None else Some (goto t (XWaitLoop 0) s)
  | _ => None
  end.

(** [rw_lock_x_lock_low], sync0rw.cc lines 692-760.  Only a thread without a
    lock finds the lock word positive.  The relock of the function that does
    not wait goes the same way: it stores [- X_LOCK_DECR] where the lock word
    is 0, which is the same number. *)
Definition rw_lock_x_lock_low_step (t : nat) (s : state) : option state :=
  match thread s t with
  | XRec d k =>
      Some (goto t (match k with XTry => XTryCas d (recursive s) | _ => XRead d k (recursive s) end) s)
  | XRead d k r => Some (goto t (if 0 <? lock_word s then XCas d k r (lock_word s) else XFailed d k r) s)
  | XCas d k r w =>
      Some (if lock_word s =? w then goto t XAssert (set_word (w - X_LOCK_DECR) s) else goto t (XRead d k r) s)
  | XAssert => Some (goto t (if recursive s then Abort else XWriter true) s)
  | XFailed d k r => Some (goto t (if r && (writer_thread s =? t)%nat then XRelock d else x_lost d k) s)
  | XRelock d => Some (goto t (XRelockLoad d (if lock_word s =? 0 then X_LOCK_DECR else 1)) s)
  | XRelockLoad d a => Some (goto t (XRelockStore d (lock_word s - a)) s)
  | XRelockStore d w => Some (goto t (InX (S d)) (set_word w s))
  | XWriter _ | XWriterCas _ _ | XSetRec _ => set_writer_id_step t s
  | _ => rw_lock_x_lock_wait_step t s
  end.

(** [rw_lock_x_lock_func_nowait], sync0rw.ic lines 511-573. *)
Definition rw_lock_x_lock_func_nowait_step (t : nat) (s : state) : option state :=
  match thread s t with
  | XTryCas d r =>
      Some (if lock_word s =? X_LOCK_DECR then goto t (XWriter false) (set_word 0 s) else goto t (XFailed d XTry r) s)
  | _ => rw_lock_x_lock_low_step t s
  end.

(** [rw_lock_x_lock_func], sync0rw.cc lines 772-918. *)
Definition rw_lock_x_lock_func_step (t : nat) (s : state) : option state :=
  match thread s t with
  | XSpin d i =>
      Some (goto t (if (i <? SYNC_SPIN_ROUNDS)%nat
                    then if lock_word s <=? 0 then XSpin d (S i) else XRec d (XLoop i)
                    else XReserve d) s)
  | XReserve d => let (e, sig) := event_reset (event s) in Some (goto t (XSetWaiters d sig) (set_event e s))
  | XSetWaiters d sig => Some (goto t (XRec d (XFinal sig)) (rw_lock_set_waiter_flag s))
  | XSleep d sig => if event_blocks (event s) sig then None else Some (goto t (XRec d (XLoop 0)) s)
  | _ => rw_lock_x_lock_func_nowait_step t s
  end.

(** [rw_lock_x_unlock_func] with [rw_lock_x_prepare_unlock], sync0rw.ic lines
    673-750. *)
Definition rw_lock_x_unlock_step (t : nat) (s : state) : option state :=
  match thread s t with
  | XUnTest d => Some (goto t (if lock_word s =? 0 then XUnRec d else XUnRead d) s)
  | XUnRec d => Some (goto t (XUnRead d) (set_recursive false s))
  | XUnRead d =>
      let w := lock_word s in
      Some (goto t (XUnIncr d (if w =? 0 then X_LOCK_DECR else if w =? - X_LOCK_DECR then X_LOCK_DECR else 1)) s)
  | XUnIncr d a =>
      let w := lock_word s + a in
      Some (goto t (if w =? X_LOCK_DECR then XUnWaiters else InX (pred d)) (set_word w s))
  | XUnWaiters => Some (goto t (if waiters s =? 0 then Out else XUnClear) s)
  | XUnClear => Some (goto t XUnSet (rw_lock_reset_waiter_flag s))
  | XUnSet => Some (goto t Out (set_event (event_set (event s)) s))
  | _ => None
  end.

(** What a thread does next where it has a choice. *)
Inductive action := SLock | STryLock | XLock | XTryLock | Unlock.

(** A thread locks and unlocks in any order that the lock allows: no exclusive
    lock on top of a shared one, and no shared lock on top of another. *)
Definition rw_step (t : nat) (a : action) (s : state) : option state :=
  match thread s t with
  | Out =>
      match a with
      | SLock => Some (goto t (SRead SFirst) s)
      | STryLock => Some (goto t (SRead STry) s)
      | XLock => Some (goto t (XRec 0 (XLoop 0)) s)
      | XTryLock => Some (goto t (XRec 0 XTry) s)
      | Unlock => None
      end
  | InS => match a with Unlock => Some (goto t SUnlock s) | _ => None end
  | InX d =>
      match a with
      | XLock => Some (goto t (XRec d (XLoop 0)) s)
      | XTryLock => Some (goto t (XRec d XTry) s)
      | Unlock => Some (goto t (XUnTest d) s)
      | _ => None
      end
  | SRead _ | SCas _ _ | SSpin _ | SReserve | SSetWaiters _ | SWait _ => rw_lock_s_lock_spin_step t s
  | SUnlock | SUnlockSet => rw_lock_s_unlock_step t s
  | XUnTest _ | XUnRec _ | XUnRead _ | XUnIncr _ _ | XUnWaiters | XUnClear | XUnSet => rw_lock_x_unlock_step t s
  | _ => rw_lock_x_lock_func_step t s
  end.

(** ** What the threads account for *)

(** The exclusive locks a thread has, in units of the lock word. *)
Definition xweight (d : nat) : Z :=
  match d with O => 0 | 1%nat => X_LOCK_DECR | S (S e) => 2 * X_LOCK_DECR + Z.of_nat e end.

(** The depth of a thread that holds the exclusive lock; 0 for all others. *)
Definition depth (p : pc) : nat :=
  match p with
  | XRec d _ | XRead d _ _ | XCas d _ _ _ | XTryCas d _ | XFailed d _ _ | XRelock d | XRelockLoad d _
  | XRelockStore d _ | XSpin d _ | XReserve d | XSetWaiters d _ | XSleep d _ | InX d
  | XUnTest d | XUnRec d | XUnRead d | XUnIncr d _ => d
  | XWriter false | XWriterCas false _ | XSetRec false => 1
  | _ => 0
  end.

(** The next writer, which has announced itself in the lock word and waits for
    the readers to leave. *)
Definition pending (p : pc) : bool :=
  match p with
  | XAssert | XWriter true | XWriterCas true _ | XSetRec true | XWaitLoop _ | XWaitReserve | XWaitCheck _ | XWaitSleep _ => true
  | _ => false
  end.

Definition reading (p : pc) : bool := match p with InS | SUnlock => true | _ => false end.

Definition weight (p : pc) : Z :=
  if reading p then 1 else if pending p then X_LOCK_DECR else xweight (depth p).

Definition owns (p : pc) : bool := pending p || (0 <? depth p)%nat.

(** The owner has recorded itself in [writer_thread] and [recursive]. *)
Definition recorded (p : pc) : bool :=
  match p with
  | XWaitLoop _ | XWaitReserve | XWaitCheck _ | XWaitSleep _ => true
  | XWriter _ | XWriterCas _ _ | XSetRec _ => false
  | XUnRead d | XUnIncr d _ => (1 <? d)%nat
  | _ => (0 <? depth p)%nat
  end.

(** What a program counter knows. *)
Definition pc_ok (s : state) (t : nat) (p : pc) : Prop :=
  match p with
  | XRead d _ r | XTryCas d r | XFailed d _ r =>
      (d <> 0%nat -> r = true) /\ (d = 0%nat -> r = true -> writer_thread s <> t)
  | SCas _ w => 0 < w
  | XCas d _ r w => d = 0%nat /\ (r = true -> writer_thread s <> t) /\ 0 < w
  | XWriterCas _ l => writer_thread s = l
  | XSetRec _ => writer_thread s = t
  | XRelock d => (0 < d)%nat
  | XRelockLoad d a => (0 < d)%nat /\ a = xweight (S d) - xweight d
  | XRelockStore d w => (0 < d)%nat /\ w = X_LOCK_DECR - xweight (S d)
  | XSpin d _ | XReserve d | XSetWaiters d _ | XSleep d _ => d = 0%nat
  | InX d | XUnTest d | XUnRead d => (0 < d)%nat
  | XUnRec d => d = 1%nat
  | XUnIncr d a => (0 < d)%nat /\ a = xweight d - xweight (pred d)
  | Abort => False
  | _ => True
  end.

Section threads.
Context (T : nat).

Definition step (s s' : state) : Prop := exists t a, (t < T)%nat /\ rw_step t a s = Some s'.

Definition total (s : state) : Z := tsum T (fun t => weight (thread s t)).

Record inv (s : state) : Prop := Inv {
  inv_word : lock_word s = X_LOCK_DECR - total s;
  inv_out : forall t, (T <= t)%nat -> thread s t = Out;
  inv_unique : forall t u, owns (thread s t) = true -> owns (thread s u) = true -> t = u;
  inv_entered : forall t u, (0 < depth (thread s t))%nat -> t <> u -> weight (thread s u) = 0;
  inv_recorded : forall t, recorded (thread s t) = true -> recursive s = true /\ writer_thread s = t;
  inv_recursive : recursive s = true -> exists t, recorded (thread s t) = true;
  inv_pc : forall t, pc_ok s t (thread s t) }.

Lemma xweight_pos d : (0 < d)%nat -> X_LOCK_DECR <= xweight d.
Proof. unfold xweight, X_LOCK_DECR. destruct d as [|[|d]]; lia. Qed.

Lemma xweight_nonneg d : 0 <= xweight d.
Proof. unfold xweight, X_LOCK_DECR. destruct d as [|[|d]]; lia. Qed.

Lemma weight_nonneg p : 0 <= weight p.
Proof.
  unfold weight. destruct (reading p); [lia|]. destruct (pending p); [unfold X_LOCK_DECR; lia|apply xweight_nonneg].
Qed.

Lemma reading_depth p : reading p = true -> depth p = 0%nat /\ pending p = false.
Proof. by destruct p. Qed.

Lemma pending_depth p : pending p = true -> depth p = 0%nat.
Proof. by destruct p as [| | | | | | | | | | | | | | | |[]|[]|[]| | | | | | | | | | | | | | | | | | | |]. Qed.

Lemma owns_weight p : owns p = true -> X_LOCK_DECR <= weight p.
Proof.
  unfold owns, weight. intros Ho. destruct (reading p) eqn:Er.
  { apply reading_depth in Er as [E1 E2]. by rewrite E1, E2 in Ho. }
  destruct (pending p); [done|]. apply xweight_pos. simpl in Ho. by apply Nat.ltb_lt.
Qed.

Lemma weight_owner p : owns p = false -> weight p = if reading p then 1 else 0.
Proof.
  unfold owns, weight. intros [Hp Hd]%orb_false_elim. rewrite Hp. destruct (reading p); [done|].
  apply Nat.ltb_ge in Hd. by replace (depth p) with 0%nat by lia.
Qed.

Lemma weight_out s t : inv s -> ~ (t < T)%nat -> weight (thread s t) = 0.
Proof. intros I Ht. by rewrite (inv_out _ I) by lia. Qed.

(** The sum over the threads bounds the weights of each and of any two. *)
Lemma weight_total s t : inv s -> weight (thread s t) <= total s.
Proof.
  intros I. pose proof (tsum_nonneg T _ (fun t => weight_nonneg (thread s t))) as Hn.
  destruct (decide (t < T)%nat) as [Ht|Ht]; [|by rewrite (weight_out s t)].
  apply (tsum_ge T (fun t => weight (thread s t))); [|done]. intros. apply weight_nonneg.
Qed.

Lemma weight_two s t u : inv s -> t <> u -> weight (thread s t) + weight (thread s u) <= total s.
Proof.
  intros I Hne. pose proof (weight_total s t I). pose proof (weight_total s u I).
  destruct (decide (t < T)%nat) as [Ht|Ht]; [|rewrite (weight_out s t) by done; lia].
  destruct (decide (u < T)%nat) as [Hu|Hu]; [|rewrite (weight_out s u) by done; lia].
  apply (tsum_ge2 T (fun t => weight (thread s t))); try done. intros. apply weight_nonneg.
Qed.

Lemma total_upd s t p : (t < T)%nat ->
  tsum T (fun u => weight (upd (thread s) t p u)) = total s - weight (thread s t) + weight p.
Proof.
  intros Ht. unfold total. rewrite (tsum_change T (fun u => weight (thread s u)) _ t) by
    (done || (intros k Hk; by rewrite upd_ne)). by rewrite upd_eq.
Qed.

(** A positive lock word: nobody owns the lock exclusively. *)
Lemma positive_unowned s : inv s -> 0 < lock_word s -> forall t, owns (thread s t) = false.
Proof.
  intros I Hw t. destruct (owns (thread s t)) eqn:Ho; [|done]. pose proof (owns_weight _ Ho).
  pose proof (weight_total s t I). pose proof (inv_word _ I). lia.
Qed.

(** With no reader left the next writer is alone. *)
Lemma nonneg_alone s t : inv s -> pending (thread s t) = true -> 0 <= lock_word s ->
  forall u, t <> u -> weight (thread s u) = 0.
Proof.
  intros I Hp Hw u Hne. pose proof (weight_two s t u I Hne) as H2. pose proof (weight_nonneg (thread s u)).
  assert (X_LOCK_DECR <= weight (thread s t)) by (apply owns_weight; unfold owns; by rewrite Hp).
  pose proof (inv_word _ I). lia.
Qed.

(** The lock word of a thread that has the exclusive lock. *)
Lemma entered_word s t : inv s -> (t < T)%nat -> (0 < depth (thread s t))%nat -> lock_word s = X_LOCK_DECR - xweight (depth (thread s t)).
Proof.
  intros I Ht Hd. rewrite (inv_word _ I). unfold total.
  assert (weight (thread s t) = xweight (depth (thread s t))) as Ew.
  { unfold weight. destruct (reading _) eqn:Er; [apply reading_depth in Er as [E1 _]; lia|].
    destruct (pending _) eqn:Ep; [apply pending_depth in Ep; lia|done]. }
  pose proof (tsum_change T (fun _ => 0) (fun u => weight (thread s u)) t Ht) as Hs.
  rewrite (tsum_const T (fun _ => 0) 0) in Hs by done. rewrite Hs, Ew; [lia|].
  intros k Hk. by apply (inv_entered _ I t k).
Qed.

(** ** Preservation *)

Lemma inv_change s s' t p :
  inv s -> (t < T)%nat -> thread s' = upd (thread s) t p ->
  lock_word s' = lock_word s + weight (thread s t) - weight p ->
  (owns p = true -> owns (thread s t) = true \/ forall u, owns (thread s u) = false) ->
  ((0 < depth p)%nat -> (0 < depth (thread s t))%nat \/ forall u, t <> u -> weight (thread s u) = 0) ->
  (weight p <> 0 -> weight (thread s t) <> 0 \/ forall u, owns (thread s u) = false) ->
  (recorded p = true -> recursive s' = true /\ writer_thread s' = t) ->
  (forall u, t <> u -> recorded (thread s u) = true -> recursive s' = true /\ writer_thread s' = u) ->
  (recursive s' = true -> exists u, recorded (upd (thread s) t p u) = true) ->
  (forall u, t <> u -> pc_ok s' u (thread s u)) -> pc_ok s' t p -> inv s'.
Proof.
  intros [Iw Io Iu Ie Ir Ix Ip] Ht Eth Hw Hown Hdep Hwt Hrec Hoth Hex Hpcs Hpc.
  assert (forall u, (0 < depth (thread s u))%nat -> owns (thread s u) = true) as Hdo.
  { intros u Hu. unfold owns. apply orb_true_intro. right. by apply Nat.ltb_lt. }
  constructor; rewrite ?Eth.
  - unfold total. rewrite Eth, total_upd, Hw, Iw by done. lia.
  - intros u Hu. rewrite upd_ne by lia. by apply Io.
  - intros u v. upd_cases; [done|..|by apply Iu]; intros H1 H2.
    + destruct (Hown H1) as [|Hn]; [by apply Iu|by rewrite Hn in H2].
    + destruct (Hown H2) as [|Hn]; [by apply Iu|by rewrite Hn in H1].
  - intros u v. upd_cases; [done|..|by apply Ie]; intros H1 H2.
    + destruct (Hdep H1) as [|Hn]; [by apply (Ie u)|by apply Hn].
    + destruct (decide (weight p = 0)) as [|Hne]; [done|]. exfalso.
      destruct (Hwt Hne) as [Hold|Hn]; [by apply Hold, (Ie u)|]. pose proof (Hdo u H1) as E0. by rewrite Hn in E0.
  - intros u. upd_cases; [done|by apply Hoth].
  - done.
  - intros u. upd_cases; [done|by apply Hpcs].
Qed.

Lemma pc_ok_ext s s' t p : writer_thread s' = writer_thread s -> pc_ok s t p -> pc_ok s' t p.
Proof. intros Hw. destruct p; simpl; rewrite ?Hw; done. Qed.

(** A transition that leaves the record of the writer alone. *)
Lemma inv_move s s' t p :
  inv s -> (t < T)%nat -> thread s' = upd (thread s) t p ->
  recursive s' = recursive s -> writer_thread s' = writer_thread s ->
  lock_word s' = lock_word s + weight (thread s t) - weight p ->
  (owns p = true -> owns (thread s t) = true \/ forall u, owns (thread s u) = false) ->
  ((0 < depth p)%nat -> (0 < depth (thread s t))%nat \/ forall u, t <> u -> weight (thread s u) = 0) ->
  (weight p <> 0 -> weight (thread s t) <> 0 \/ forall u, owns (thread s u) = false) ->
  recorded p = recorded (thread s t) -> pc_ok s t p -> inv s'.
Proof.
  intros I Ht Eth Er Ewr Hw Hown Hdep Hwt Hrec Hpc. eapply inv_change; try done; rewrite ?Er, ?Ewr.
  - rewrite Hrec. apply (inv_recorded _ I).
  - intros u _. apply (inv_recorded _ I).
  - intros Hr. destruct (inv_recursive _ I Hr) as [u Hu]. exists u. upd_cases; congruence.
  - intros u _. eapply pc_ok_ext; [done|]. apply (inv_pc _ I).
  - by eapply pc_ok_ext.
Qed.

(** The same when the thread keeps what it accounts for. *)
Lemma rw_inv_local s s' t p :
  inv s -> (t < T)%nat -> thread s' = upd (thread s) t p ->
  recursive s' = recursive s -> writer_thread s' = writer_thread s -> lock_word s' = lock_word s ->
  depth p = depth (thread s t) -> pending p = pending (thread s t) -> reading p = reading (thread s t) ->
  recorded p = recorded (thread s t) -> pc_ok s t p -> inv s'.
Proof.
  intros I Ht Eth Er Ewr Hw Hd Hp Hr Hrec Hpc.
  assert (weight p = weight (thread s t)) as Hwt by (unfold weight; by rewrite Hd, Hp, Hr).
  assert (owns p = owns (thread s t)) as Ho by (unfold owns; by rewrite Hd, Hp).
  eapply inv_move; try done; rewrite ?Hwt, ?Ho, ?Hd; [lia|by left..].
Qed.

Lemma rw_init_inv : inv init.
Proof.
  constructor; simpl; try done.
  - unfold total. rewrite (tsum_const T _ 0) by done. lia.
Qed.

(** The arithmetic of a transition: evaluate what the program counters account
    for, and use the facts at hand. *)
Ltac fields Et :=
  rewrite ?Et; try done; unfold weight; simpl; rewrite ?Et; simpl; unfold X_LOCK_DECR in *;
  first [done | lia | by left | by right | left; lia | right; intros; by eauto | idtac].

(** An uncontested compare-and-swap of a reader. *)
Lemma inv_s_acquire s t k w :
  inv s -> (t < T)%nat -> thread s t = SCas k w -> lock_word s = w -> inv (goto t InS (set_word (w - 1) s)).
Proof.
  intros I Ht Et Hw. pose proof (inv_pc _ I t) as Hp. rewrite Et in Hp. simpl in Hp. subst w.
  pose proof (positive_unowned s I Hp) as Hno.
  eapply (inv_move s); try done; fields Et.
Qed.

(** A reader leaves. *)
Lemma inv_s_release s t p :
  inv s -> (t < T)%nat -> thread s t = SUnlock -> p = SUnlockSet \/ p = Out ->
  inv (goto t p (set_word (lock_word s + 1) s)).
Proof.
  intros I Ht Et [->| ->]; (eapply (inv_move s); try done; fields Et).
Qed.

Lemma recorded_owns p : recorded p = true -> owns p = true.
Proof.
  unfold owns. destruct p as [| | | | | | | | | | | | | | | |[]|[]|[]| | | | | | | | | | | | | | |d|d a| | | |]; simpl; try done;
    intros H%Nat.ltb_lt; apply Nat.ltb_lt; lia.
Qed.

(** Only the owner is recorded, so nobody is when nobody owns the lock. *)
Lemma recorded_self s t u : inv s -> owns (thread s t) = true -> recorded (thread s u) = true -> u = t.
Proof. intros I Ht Hu. by apply (inv_unique _ I); [apply recorded_owns|]. Qed.

(** An uncontested compare-and-swap of the next writer. *)
Lemma inv_x_acquire s t d k r w :
  inv s -> (t < T)%nat -> thread s t = XCas d k r w -> lock_word s = w ->
  inv (goto t XAssert (set_word (w - X_LOCK_DECR) s)).
Proof.
  intros I Ht Et Hw. pose proof (inv_pc _ I t) as Hp. rewrite Et in Hp. destruct Hp as (-> & _ & Hp). subst w.
  pose proof (positive_unowned s I Hp) as Hno.
  eapply (inv_move s); try done; fields Et.
Qed.

(** The lock is free: the attempt that does not wait has it at once. *)
Lemma inv_try_acquire s t d r :
  inv s -> (t < T)%nat -> thread s t = XTryCas d r -> lock_word s = X_LOCK_DECR ->
  inv (goto t (XWriter false) (set_word 0 s)).
Proof.
  intros I Ht Et Hw. pose proof (inv_word _ I) as Hword.
  assert (forall u, weight (thread s u) = 0) as H0.
  { intros u. pose proof (weight_total s u I). pose proof (weight_nonneg (thread s u)). lia. }
  assert (forall u, owns (thread s u) = false) as Hno.
  { intros u. destruct (owns (thread s u)) eqn:Eo; [|done]. apply owns_weight in Eo. rewrite H0 in Eo.
    unfold X_LOCK_DECR in Eo. lia. }
  assert (d = 0%nat) as ->.
  { specialize (Hno t). rewrite Et in Hno. unfold owns in Hno. simpl in Hno. apply Nat.ltb_ge in Hno. lia. }
  eapply (inv_move s); try done; fields Et.
Qed.

(** The readers are gone: the next writer becomes the writer. *)
Lemma inv_enter s t i :
  inv s -> (t < T)%nat -> thread s t = XWaitLoop i -> 0 <= lock_word s -> inv (goto t (InX 1) s).
Proof.
  intros I Ht Et Hw. assert (pending (thread s t) = true) as Hp by by rewrite Et.
  pose proof (nonneg_alone s t I Hp Hw) as Hno.
  eapply (inv_move s); try done; fields Et.
Qed.

(** The record of the writer. *)
Lemma inv_set_writer s t wait l :
  inv s -> (t < T)%nat -> thread s t = XWriterCas wait l -> inv (goto t (XSetRec wait) (set_writer t s)).
Proof.
  intros I Ht Et. assert (owns (thread s t) = true) as Ho by (rewrite Et; by destruct wait).
  assert (recorded (thread s t) = false) as Hr by by rewrite Et.
  assert (recursive s = false) as Hrec.
  { destruct (recursive s) eqn:E0; [|done]. destruct (inv_recursive _ I E0) as [u Hu].
    pose proof (recorded_self _ _ _ I Ho Hu). congruence. }
  eapply (inv_change s); try done; simpl; rewrite ?Hrec.
  - rewrite Et. destruct wait; unfold weight; simpl; lia.
  - by left.
  - rewrite Et. by left.
  - rewrite Et. left. destruct wait; unfold weight; simpl; unfold X_LOCK_DECR; lia.
  - intros u Hne Hu. by destruct Hne; rewrite (recorded_self _ _ _ I Ho Hu).
  - done.
  - intros u Hne. pose proof (inv_pc _ I u) as Hp. destruct (thread s u) eqn:Eu; simpl in *; try done.
    + destruct Hp as [H1 H2]. split; [done|]. by intros _ _ ->.
    + destruct Hp as (H1 & H2 & H3). split; [done|]. split; [|done]. by intros _ ->.
    + destruct Hp as [H1 H2]. split; [done|]. by intros _ _ ->.
    + destruct Hp as [H1 H2]. split; [done|]. by intros _ _ ->.
    + destruct Hne. apply (inv_unique _ I); [done|]. rewrite Eu. by destruct wait0.
    + destruct Hne. apply (inv_unique _ I); [done|]. rewrite Eu. by destruct wait0.
Qed.

(** The flag is set behind the record and cleared in front of the release. *)
Lemma inv_set_rec s t wait :
  inv s -> (t < T)%nat -> thread s t = XSetRec wait -> writer_thread s = t ->
  inv (goto t (if wait then XWaitLoop 0 else InX 1) (set_recursive true s)).
Proof.
  intros I Ht Et Hwr. assert (owns (thread s t) = true) as Ho by (rewrite Et; by destruct wait).
  eapply (inv_change s); try done; simpl.
  - rewrite Et. destruct wait; unfold weight; simpl; lia.
  - by left.
  - rewrite Et. destruct wait; [simpl; lia|by left].
  - rewrite Et. left. destruct wait; unfold weight; simpl; unfold X_LOCK_DECR; lia.
  - intros u Hne Hu. by destruct Hne; rewrite (recorded_self _ _ _ I Ho Hu).
  - intros _. exists t. rewrite upd_eq. by destruct wait.
  - intros u _. eapply pc_ok_ext; [done|]. apply (inv_pc _ I).
  - destruct wait; simpl; [done|lia].
Qed.

Lemma inv_clear_rec s t d :
  inv s -> (t < T)%nat -> thread s t = XUnRec d -> inv (goto t (XUnRead d) (set_recursive false s)).
Proof.
  intros I Ht Et. pose proof (inv_pc _ I t) as Hp. rewrite Et in Hp. simpl in Hp. subst d.
  assert (owns (thread s t) = true) as Ho by by rewrite Et.
  eapply (inv_change s); try done; simpl.
  - rewrite Et. unfold weight. simpl. lia.
  - by left.
  - rewrite Et. by left.
  - rewrite Et. by left.
  - intros u Hne Hu. by destruct Hne; rewrite (recorded_self _ _ _ I Ho Hu).
  - intros u _. eapply pc_ok_ext; [done|]. apply (inv_pc _ I).
  - lia.
Qed.

Lemma xweight_S d : (0 < d)%nat ->
  xweight (S d) = xweight d + (if X_LOCK_DECR - xweight d =? 0 then X_LOCK_DECR else 1).
Proof. intros Hd. destruct d as [|[|d]]; cbn [xweight]; unfold X_LOCK_DECR; repeat split_guard; lia. Qed.

Lemma xweight_pred d : (0 < d)%nat ->
  xweight d = xweight (pred d) +
    (if X_LOCK_DECR - xweight d =? 0 then X_LOCK_DECR
     else if X_LOCK_DECR - xweight d =? - X_LOCK_DECR then X_LOCK_DECR else 1).
Proof. intros Hd. destruct d as [|[|[|d]]]; cbn [pred xweight]; unfold X_LOCK_DECR; repeat split_guard; lia. Qed.

Lemma xweight_one d : (0 < d)%nat -> X_LOCK_DECR - xweight d = 0 <-> d = 1%nat.
Proof. unfold xweight, X_LOCK_DECR. destruct d as [|[|d]]; lia. Qed.

(** The steps of a thread that locks again. *)
Lemma inv_relock_store s t d w :
  inv s -> (t < T)%nat -> thread s t = XRelockStore d w -> inv (goto t (InX (S d)) (set_word w s)).
Proof.
  intros I Ht Et. pose proof (inv_pc _ I t) as Hp. rewrite Et in Hp. destruct Hp as [Hd ->].
  pose proof (entered_word s t I Ht) as Hw. rewrite Et in Hw. specialize (Hw Hd). simpl in Hw.
  pose proof (xweight_pos d Hd) as Hpos.
  eapply (inv_move s); try done.
  - change (X_LOCK_DECR - xweight (S d) = lock_word s + weight (thread s t) - xweight (S d)). rewrite Et, Hw.
    change (weight (XRelockStore _ _)) with (xweight d). lia.
  - rewrite Et. left. unfold owns. simpl. by apply Nat.ltb_lt.
  - rewrite Et. by left.
  - rewrite Et. intros _. left. unfold weight. simpl. unfold X_LOCK_DECR in Hpos. lia.
  - rewrite Et. symmetry. by apply Nat.ltb_lt.
  - simpl. lia.
Qed.

(** The last step of an unlock gives back the weight of one lock. *)
Lemma inv_x_release s t d a :
  inv s -> (t < T)%nat -> thread s t = XUnIncr d a ->
  inv (goto t (if lock_word s + a =? X_LOCK_DECR then XUnWaiters else InX (pred d)) (set_word (lock_word s + a) s)) /\
  (lock_word s + a = X_LOCK_DECR <-> d = 1%nat).
Proof.
  intros I Ht Et. pose proof (inv_pc _ I t) as Hp. rewrite Et in Hp. destruct Hp as [Hd ->].
  pose proof (entered_word s t I Ht) as Hw. rewrite Et in Hw. specialize (Hw Hd). simpl in Hw.
  pose proof (xweight_pos d Hd) as Hpos.
  assert (lock_word s + (xweight d - xweight (pred d)) = X_LOCK_DECR - xweight (pred d)) as Hsum by lia.
  assert (X_LOCK_DECR - xweight (pred d) = X_LOCK_DECR <-> d = 1%nat) as Hone.
  { destruct d as [|[|[|d]]]; cbn [pred xweight]; unfold X_LOCK_DECR; lia. }
  rewrite Hsum. split; [|done].
  destruct (Z.eqb_spec (X_LOCK_DECR - xweight (pred d)) X_LOCK_DECR) as [E1|E1].
  - eapply (inv_move s); try done; simpl; rewrite ?Et; simpl.
    + change (weight (XUnIncr d _)) with (xweight d). change (weight XUnWaiters) with 0. lia.
    + lia.
    + apply Hone in E1 as ->. done.
  - assert (1 < d)%nat as Hd1 by (assert (d <> 1%nat) by tauto; lia).
    eapply (inv_move s); try done; simpl; rewrite ?Et; simpl.
    + change (weight (XUnIncr d _)) with (xweight d). change (weight (InX (pred d))) with (xweight (pred d)). lia.
    + left. unfold owns. simpl. by apply Nat.ltb_lt.
    + by left.
    + intros _. left. unfold weight. simpl. unfold X_LOCK_DECR in Hpos. lia.
    + destruct d as [|[|d]]; [lia|lia|done].
    + lia.
Qed.

(** ** Every step *)

Lemma inv_s_lock_step s s' t :
  inv s -> (t < T)%nat -> rw_lock_s_lock_spin_step t s = Some s' -> inv s'.
Proof.
  intros I Ht Hst. unfold rw_lock_s_lock_spin_step, rw_lock_s_lock_low_step in Hst.
  destruct (thread s t) eqn:Et; try done.
  - injection Hst as <-. destruct (Z.ltb_spec 0 (lock_word s)).
    + eapply (rw_inv_local s); try done; by rewrite Et.
    + eapply (rw_inv_local s); try done; rewrite ?Et; unfold s_lost; repeat case_match; done.
  - injection Hst as <-. destruct (Z.eqb_spec (lock_word s) w); [by eapply inv_s_acquire|].
    eapply (rw_inv_local s); try done; by rewrite Et.
  - injection Hst as <-. eapply (rw_inv_local s); try done; rewrite ?Et; case_match; done.
  - destruct (event_reset (event s)). injection Hst as <-. eapply (rw_inv_local s); try done; by rewrite Et.
  - injection Hst as <-. unfold rw_lock_set_waiter_flag.
    case_match; (eapply (rw_inv_local s); [done|done|reflexivity|..]; try done; by rewrite Et).
  - case_match; [done|]. injection Hst as <-. eapply (rw_inv_local s); try done; by rewrite Et.
Qed.

Lemma inv_s_unlock_step s s' t :
  inv s -> (t < T)%nat -> rw_lock_s_unlock_step t s = Some s' -> inv s'.
Proof.
  intros I Ht Hst. unfold rw_lock_s_unlock_step in Hst. destruct (thread s t) eqn:Et; try done.
  - injection Hst as <-. apply inv_s_release; [done..|]. case_match; auto.
  - injection Hst as <-. eapply (rw_inv_local s); try done; by rewrite Et.
Qed.

Lemma inv_x_unlock_step s s' t :
  inv s -> (t < T)%nat -> rw_lock_x_unlock_step t s = Some s' -> inv s'.
Proof.
  intros I Ht Hst. unfold rw_lock_x_unlock_step in Hst. pose proof (inv_pc _ I t) as Hp.
  pose proof (entered_word s t I Ht) as Hw.
  destruct (thread s t) eqn:Et; try done; simpl in Hp, Hw; injection Hst as <-.
  - rewrite Hw by done. pose proof (xweight_one d Hp) as H1.
    destruct (Z.eqb_spec (X_LOCK_DECR - xweight d) 0) as [E1|E1].
    + apply H1 in E1 as ->. eapply (rw_inv_local s); try done; by rewrite Et.
    + assert (1 < d)%nat by (assert (d <> 1%nat) by tauto; lia).
      eapply (rw_inv_local s); try done; rewrite ?Et; try done. simpl. destruct d as [|[|d]]; [lia|lia|done].
  - by apply inv_clear_rec.
  - eapply (rw_inv_local s); try done; rewrite ?Et; try done. split; [done|].
    cbv zeta. rewrite Hw by done. pose proof (xweight_pred d Hp). lia.
  - by apply inv_x_release.
  - eapply (rw_inv_local s); try done; rewrite ?Et; case_match; done.
  - unfold rw_lock_reset_waiter_flag.
    case_match; (eapply (rw_inv_local s); [done|done|reflexivity|..]; try done; by rewrite Et).
  - eapply (rw_inv_local s); try done; by rewrite Et.
Qed.

Lemma inv_writer_id_step s s' t :
  inv s -> (t < T)%nat -> set_writer_id_step t s = Some s' -> inv s'.
Proof.
  intros I Ht Hst. unfold set_writer_id_step in Hst. pose proof (inv_pc _ I t) as Hp.
  destruct (thread s t) eqn:Et; try done; simpl in Hp; injection Hst as <-.
  - eapply (rw_inv_local s); try done; rewrite ?Et; by destruct wait.
  - rewrite Hp, Nat.eqb_refl. subst l. by eapply inv_set_writer.
  - by apply inv_set_rec.
Qed.

Lemma inv_x_wait_step s s' t :
  inv s -> (t < T)%nat -> rw_lock_x_lock_wait_step t s = Some s' -> inv s'.
Proof.
  intros I Ht Hst. unfold rw_lock_x_lock_wait_step in Hst. destruct (thread s t) eqn:Et; try done.
  - injection Hst as <-. destruct (Z.ltb_spec (lock_word s) 0).
    + eapply (rw_inv_local s); try done; rewrite ?Et; case_match; done.
    + by eapply inv_enter.
  - destruct (event_reset (wait_ex_event s)). injection Hst as <-. eapply (rw_inv_local s); try done; by rewrite Et.
  - injection Hst as <-. eapply (rw_inv_local s); try done; rewrite ?Et; case_match; done.
  - case_match; [done|]. injection Hst as <-. eapply (rw_inv_local s); try done; by rewrite Et.
Qed.

(** A thread that has the lock is recorded, any other is not. *)
Lemma recursive_depth s t d k :
  inv s -> thread s t = XRec d k ->
  (d <> 0%nat -> recursive s = true) /\ (d = 0%nat -> recursive s = true -> writer_thread s <> t).
Proof.
  intros I Et. split.
  - intros Hd. apply (inv_recorded _ I t). rewrite Et. simpl. apply Nat.ltb_lt. lia.
  - intros -> Hr Hwr. destruct (inv_recursive _ I Hr) as [u Hu]. pose proof (inv_recorded _ I u Hu) as [_ Hu2].
    assert (u = t) as -> by congruence. by rewrite Et in Hu.
Qed.

(** The comparison of the writer finds out whether the thread has the lock. *)
Lemma failed_depth s t d k r :
  inv s -> thread s t = XFailed d k r -> r && (writer_thread s =? t)%nat = (0 <? d)%nat.
Proof.
  intros I Et. pose proof (inv_pc _ I t) as Hp. rewrite Et in Hp. destruct Hp as [H1 H2].
  destruct (decide (d = 0%nat)) as [->|Hd]; simpl.
  - destruct r; [|done]. simpl. by apply Nat.eqb_neq, H2.
  - rewrite H1 by done. assert (0 < d)%nat as Hlt by lia. apply Nat.ltb_lt in Hlt as Hb. rewrite Hb. simpl.
    apply Nat.eqb_eq. apply (inv_recorded _ I t). by rewrite Et.
Qed.

Lemma inv_x_lock_low_step s s' t :
  inv s -> (t < T)%nat -> rw_lock_x_lock_low_step t s = Some s' -> inv s'.
Proof.
  intros I Ht Hst. pose proof (inv_pc _ I t) as Hp. pose proof (entered_word s t I Ht) as Hw.
  unfold rw_lock_x_lock_low_step in Hst.
  destruct (thread s t) eqn:Et; try (by eapply inv_x_wait_step; rewrite ?Et); try (by eapply inv_writer_id_step);
    cbn [pc_ok depth] in Hp, Hw; injection Hst as <-.
  - pose proof (recursive_depth s t d k I Et). eapply (rw_inv_local s); try done; rewrite ?Et; by destruct k.
  - destruct Hp as [H1 H2]. destruct (Z.ltb_spec 0 (lock_word s)) as [Hlt|Hge].
    + destruct (decide (d = 0%nat)) as [->|Hd].
      * eapply (rw_inv_local s); try done; rewrite ?Et; try done. split; [done|]. split; [by apply H2|done].
      * specialize (Hw ltac:(lia)). pose proof (xweight_pos d ltac:(lia)). lia.
    + eapply (rw_inv_local s); try done; by rewrite Et.
  - destruct Hp as (H1 & H2 & H3). destruct (Z.eqb_spec (lock_word s) w); [by eapply inv_x_acquire|]. subst d.
    eapply (rw_inv_local s); try done; by rewrite Et.
  - rewrite (failed_depth s t d k r I Et). destruct (Nat.ltb_spec 0 d) as [Hd|Hd].
    + eapply (rw_inv_local s); try done; by rewrite Et.
    + assert (d = 0%nat) as -> by lia. eapply (rw_inv_local s); try done; rewrite ?Et; by destruct k.
  - destruct (recursive s) eqn:Er.
    + destruct (inv_recursive _ I Er) as [u Hu].
      assert (u = t) as -> by (apply (recorded_self s t u I); [by rewrite Et|done]). by rewrite Et in Hu.
    + eapply (rw_inv_local s); try done; by rewrite Et.
  - eapply (rw_inv_local s); try done; rewrite ?Et; try done. split; [done|]. rewrite Hw by done.
    pose proof (xweight_S d Hp). lia.
  - destruct Hp as [Hd ->]. eapply (rw_inv_local s); try done; rewrite ?Et; try done. split; [done|].
    rewrite Hw by done. lia.
  - by apply inv_relock_store.
Qed.

Lemma inv_x_lock_step s s' t :
  inv s -> (t < T)%nat -> rw_lock_x_lock_func_step t s = Some s' -> inv s'.
Proof.
  intros I Ht Hst. pose proof (inv_pc _ I t) as Hp. unfold rw_lock_x_lock_func_step in Hst.
  destruct (thread s t) eqn:Et; unfold rw_lock_x_lock_func_nowait_step in Hst; rewrite ?Et in Hst;
    try (by eapply inv_x_lock_low_step); simpl in Hp.
  - injection Hst as <-. destruct (Z.eqb_spec (lock_word s) X_LOCK_DECR); [by eapply inv_try_acquire|].
    eapply (rw_inv_local s); try done; by rewrite Et.
  - injection Hst as <-. subst d. eapply (rw_inv_local s); try done; rewrite ?Et; repeat case_match; done.
  - destruct (event_reset (event s)). injection Hst as <-. subst d. eapply (rw_inv_local s); try done; by rewrite Et.
  - injection Hst as <-. subst d. unfold rw_lock_set_waiter_flag.
    case_match; (eapply (rw_inv_local s); [done|done|reflexivity|..]; try done; by rewrite Et).
  - case_match; [done|]. injection Hst as <-. subst d. eapply (rw_inv_local s); try done; by rewrite Et.
Qed.

Lemma rw_step_inv s s' : inv s -> step s s' -> inv s'.
Proof.
  intros I (t & a & Ht & Hst). pose proof (inv_pc _ I t) as Hp. unfold rw_step in Hst.
  destruct (thread s t) eqn:Et;
    try (by eapply inv_s_lock_step); try (by eapply inv_s_unlock_step); try (by eapply inv_x_unlock_step);
    try (by eapply inv_x_lock_step);
    destruct a; try done; injection Hst as <-; eapply (rw_inv_local s); try done; by rewrite Et.
Qed.

Lemma rw_reachable s : rtc step init s -> inv s.
Proof. apply (rtc_invariant step inv); [apply rw_init_inv|apply rw_step_inv]. Qed.

(** ** Theorems *)

(** The lock word always tells who has the lock: it is [X_LOCK_DECR]
    less one for every reader, less [X_LOCK_DECR] for a next writer that waits
    for them, and less the weight of the exclusive locks of the writer. *)
Theorem lock_word_accounts s :
  rtc step init s -> lock_word s = X_LOCK_DECR - tsum T (fun t => weight (thread s t)).
Proof. intros Hr. apply (inv_word _ (rw_reachable s Hr)). Qed.

(** C25: A writer excludes everybody else: while a thread has exclusive
    locks, however many, no other thread has a shared or an exclusive one, for
    any number of threads and any interleaving. *)
Theorem rw_exclusion s t d :
  rtc step init s -> thread s t = InX d ->
  forall u, u <> t -> thread s u <> InS /\ forall e, thread s u <> InX e.
Proof.
  intros Hr Ht u Hne. pose proof (rw_reachable s Hr) as I.
  pose proof (inv_pc _ I t) as Hd. rewrite Ht in Hd. simpl in Hd.
  pose proof (inv_entered _ I t u) as Hu. rewrite Ht in Hu. specialize (Hu Hd (not_eq_sym Hne)). split.
  - intros E0. by rewrite E0 in Hu.
  - intros e E0. pose proof (inv_pc _ I u) as He. rewrite E0 in He, Hu. pose proof (xweight_pos e He) as Hx.
    change (weight (InX e)) with (xweight e) in Hu. unfold X_LOCK_DECR in Hx. lia.
Qed.

(** The assertions of the lock never fail: no thread finds [recursive]
    set when it becomes the next writer, and the record of the writer is never
    changed by two threads at once. *)
Theorem rw_assertions_hold s t : rtc step init s -> thread s t <> Abort.
Proof. intros Hr E0. pose proof (inv_pc _ (rw_reachable s Hr) t) as Hp. by rewrite E0 in Hp. Qed.

(** Runs of a given schedule. *)
Fixpoint run (sched : list (nat * action)) (s : state) : option state :=
  match sched with
  | [] => Some s
  | (t, a) :: rest =>
      if (t <? T)%nat then match rw_step t a s with Some s' => run rest s' | None => None end else None
  end.

Lemma rw_run_nsteps sched s s' : run sched s = Some s' -> nsteps step (length sched) s s'.
Proof.
  revert s. induction sched as [|[t a] rest IH]; intros s; simpl; [intros [= ->]; constructor|].
  destruct (Nat.ltb_spec t T) as [Ht|]; [|done]. destruct (rw_step t a s) as [s1|] eqn:E1; [|done].
  intros Hr. econstructor; [by exists t, a|by apply IH].
Qed.
End threads.
End rwlock.

(** Thread 0 locks twice; thread 1 spins, announces itself, and goes to sleep. *)
Definition twice_then_wait : list (nat * action) := replicate 16 (0%nat, XLock) ++ replicate 8 (1%nat, SLock).

Definition waiting_state : state (E := OsEvent.os_event) := default init (run 1 2 twice_then_wait init).

Lemma waiting_run : run 1 2 twice_then_wait init = Some waiting_state.
Proof. unfold waiting_state. by destruct (run 1 2 twice_then_wait init) eqn:E; [|vm_compute in E]. Qed.

Lemma waiting_reachable : rtc (step 1 2) init waiting_state.
Proof. apply rtc_nsteps. eexists. apply (rw_run_nsteps 1 2 _ _ _ waiting_run). Qed.

Lemma lock_word_accounts_witness :
  lock_word waiting_state = X_LOCK_DECR - tsum 2 (fun t => weight (thread waiting_state t)).
Proof. apply (lock_word_accounts 1 2 waiting_state waiting_reachable). Defined.

Lemma rw_exclusion_witness : thread waiting_state 1 <> InS /\ forall e, thread waiting_state 1 <> InX e.
Proof. apply (rw_exclusion 1 2 waiting_state 0 2 waiting_reachable); [by vm_compute|done]. Defined.

Lemma rw_assertions_hold_witness : thread waiting_state 0 <> Abort.
Proof. apply (rw_assertions_hold 1 2 waiting_state 0 waiting_reachable). Defined.
End RwLock.
