(* ===== verification/RwLockWake.v ===== *)
(** * Wake-ups of the read-write lock

    The threads that [RwLock] suspends are woken: a thread asleep on the event
    of the lock waits for a writer that has yet to look at the waiters field or
    is about to set the event, a next writer asleep on its own event waits for
    a reader. *)
From S2P Require Import Prelude OsEvent MutexSpin RwLock.
Local Open Scope Z_scope.

Module RwLockWake.
Import RwLock.

Section wake.
Context {E : Type} {HO : EventOps E} {HE : EventLaws E} (SYNC_SPIN_ROUNDS T : nat).
(** Fewer threads than the lock word can count readers. *)
Context (HT : Z.of_nat T < X_LOCK_DECR).

Notation state := (RwLock.state (E := E)).
Notation step := (RwLock.step SYNC_SPIN_ROUNDS T).
Notation inv := (RwLock.inv T).

(** The thread will look at the waiters field when it has released the lock. *)
Definition will_read (p : pc) : bool := match p with XUnWaiters => true | _ => owns p end.

Definition will_signal (p : pc) : bool := match p with XUnClear | XUnSet => true | _ => false end.

(** The counts of the wait cells on the two events. *)
Definition ticket (p : pc) : option Z :=
  match p with
  | SSetWaiters r | SRead (SFinal r) | SCas (SFinal r) _ | SWait r | XSetWaiters _ r | XRec _ (XFinal r)
  | XRead _ (XFinal r) _ | XCas _ (XFinal r) _ _ | XFailed _ (XFinal r) _ | XSleep _ r => Some r
  | _ => None
  end.

Definition ticket_ex (p : pc) : option Z := match p with XWaitCheck r | XWaitSleep r => Some r | _ => None end.

(** Some thread is going to set the event. *)
Definition signal_due (s : state) : Prop :=
  (waiters s <> 0 /\ exists u, will_read (thread s u) = true) \/ exists u, will_signal (thread s u) = true.

(** The thread has announced itself, and has seen the lock taken since. *)
Definition announced (p : pc) : bool :=
  match p with
  | SRead (SFinal _) | SCas (SFinal _) _ | XRec _ (XFinal _) | XRead _ (XFinal _) _ | XCas _ (XFinal _) _ _ => true
  | _ => false
  end.

Definition rejected (p : pc) : bool :=
  match p with SWait _ | XFailed _ (XFinal _) _ | XSleep _ _ => true | _ => false end.

Record wait_ok (s : state) (p : pc) : Prop := WaitOk {
  wo_announced : forall r, announced p = true -> ticket p = Some r -> event_blocks (event s) r = true ->
    waiters s <> 0 \/ exists u, thread s u = XUnSet;
  wo_rejected : forall r, rejected p = true -> ticket p = Some r -> event_blocks (event s) r = true -> signal_due s;
  wo_next : forall r, p = XWaitSleep r -> event_blocks (wait_ex_event s) r = true ->
    lock_word s < 0 \/ exists u, thread s u = SUnlockSet }.

Record winv (k : Z) (s : state) : Prop := Winv {
  wi_inv : inv s;
  wi_budget : budget k (event s) /\ budget k (wait_ex_event s);
  wi_issued : forall t r, ticket (thread s t) = Some r -> issued (event s) r;
  wi_issued_ex : forall t r, ticket_ex (thread s t) = Some r -> issued (wait_ex_event s) r;
  wi_wait : forall t, wait_ok s (thread s t) }.

Lemma wake_init : winv capacity (init : state).
Proof using HE.
  constructor; try done; [apply rw_init_inv|split; apply create_budget].
Qed.

(** A lock word that is not positive means an owner: the readers alone cannot
    use it up. *)
Lemma nonpositive_owner (s : state) : inv s -> lock_word s <= 0 -> exists u, owns (thread s u) = true.
Proof using HT.
  intros I Hw. rewrite (inv_word _ _ I) in Hw. unfold total in Hw.
  assert (forall n, (exists u, owns (thread s u) = true) \/ tsum n (fun t => weight (thread s t)) <= Z.of_nat n) as H.
  { induction n as [|n IH]; [by right|]. destruct IH as [|IH]; [by left|]. rewrite tsum_S.
    destruct (owns (thread s n)) eqn:Eo; [left; by exists n|]. right. rewrite (weight_owner _ Eo).
    destruct (reading _); lia. }
  destruct (H T) as [|Hle]; [done|]. lia.
Qed.

(** A next writer with a negative lock word waits for a reader. *)
Lemma next_waits_for_reader (s : state) t :
  inv s -> pending (thread s t) = true -> lock_word s < 0 -> exists u, reading (thread s u) = true.
Proof.
  intros I Hp Hw. assert (owns (thread s t) = true) as Ho by (unfold owns; by rewrite Hp).
  assert (forall n, (exists u, reading (thread s u) = true) \/ forall u, (u < n)%nat -> reading (thread s u) = false) as Hdec.
  { induction n as [|n [IH|IH]]; [right; lia|by left|]. destruct (reading (thread s n)) eqn:Er; [left; by exists n|].
    right. intros u Hu. destruct (decide (u = n)) as [->|]; [done|]. apply IH. lia. }
  destruct (Hdec T) as [|Hno]; [done|]. exfalso.
  assert (forall k, k <> t -> weight (thread s k) = 0) as H0.
  { intros k Hk. destruct (decide (k < T)%nat) as [Hlt|]; [|by apply (weight_out T)].
    rewrite weight_owner; [by rewrite Hno|]. destruct (owns (thread s k)) eqn:Eo; [|done].
    destruct Hk. by apply (inv_unique _ _ I). }
  assert (weight (thread s t) = X_LOCK_DECR) as Ht.
  { unfold weight. rewrite Hp. destruct (reading (thread s t)) eqn:Er; [|done].
    apply reading_depth in Er as [_ Er]. congruence. }
  destruct (decide (t < T)%nat) as [Hlt|]; [|by rewrite (weight_out T) in Ht].
  rewrite (inv_word _ _ I) in Hw. unfold total in Hw.
  rewrite (tsum_change T (fun _ => 0) (fun u => weight (thread s u)) t), (tsum_const T _ 0), Ht in Hw by done. lia.
Qed.

(** What a transition of one thread must respect for the sleepers on the
    event of the lock: it sets the event, or it keeps the promises. *)
Definition respects (s s' : state) (old p : pc) : Prop :=
  (forall r, issued (event s) r -> event_blocks (event s') r = false) \/
  ((forall r, issued (event s) r -> event_blocks (event s') r = true -> event_blocks (event s) r = true) /\
   old <> XUnSet /\ (waiters s <> 0 -> waiters s' <> 0 \/ p = XUnSet) /\
   (will_read old = true -> waiters s <> 0 -> will_read p = true \/ will_signal p = true) /\
   (will_signal old = true -> will_signal p = true)).

(** The same for the next writer. *)
Definition respects_ex (s s' : state) (t : nat) (old p : pc) : Prop :=
  (forall r, issued (wait_ex_event s) r -> event_blocks (wait_ex_event s') r = false) \/
  ((forall r, issued (wait_ex_event s) r -> event_blocks (wait_ex_event s') r = true ->
      event_blocks (wait_ex_event s) r = true) /\
   old <> SUnlockSet /\
   (lock_word s < 0 -> (exists u r, u <> t /\ thread s u = XWaitSleep r) -> lock_word s' < 0 \/ p = SUnlockSet)).

Lemma due_mono (s s' : state) t p :
  thread s' = upd (thread s) t p -> thread s t <> XUnSet ->
  (waiters s <> 0 -> waiters s' <> 0 \/ p = XUnSet) ->
  (will_read (thread s t) = true -> waiters s <> 0 -> will_read p = true \/ will_signal p = true) ->
  (will_signal (thread s t) = true -> will_signal p = true) -> signal_due s -> signal_due s'.
Proof.
  intros Eth Hold Hw Hr Hs [[Hne [u Hu]]|[u Hu]].
  - destruct (Hw Hne) as [Hw'| ->]; [|right; exists t; by rewrite Eth, upd_eq].
    destruct (decide (t = u)) as [<-|Htu].
    + destruct (Hr Hu Hne); [left; split; [done|]|right]; exists t; by rewrite Eth, upd_eq.
    + left. split; [done|]. exists u. by rewrite Eth, upd_ne.
  - right. destruct (decide (t = u)) as [<-|Htu]; [exists t|exists u]; rewrite Eth.
    + rewrite upd_eq. by apply Hs.
    + by rewrite upd_ne.
Qed.

Lemma wake_change k k' (s s' : state) t p :
  winv k s -> inv s' -> thread s' = upd (thread s) t p ->
  budget k' (event s') -> budget k' (wait_ex_event s') ->
  (forall r, issued (event s) r -> issued (event s') r) ->
  (forall r, issued (wait_ex_event s) r -> issued (wait_ex_event s') r) ->
  respects s s' (thread s t) p -> respects_ex s s' t (thread s t) p ->
  (forall r, ticket p = Some r -> issued (event s') r) ->
  (forall r, ticket_ex p = Some r -> issued (wait_ex_event s') r) -> wait_ok s' p -> winv k' s'.
Proof.
  intros [I Hb Hi Hix Hw] I' Eth Hb1 Hb2 Hk1 Hk2 Hre Hrx Ht Htx Hok.
  constructor; [done|done|..]; rewrite ?Eth.
  - intros u r. upd_cases; [apply Ht|]. intros Hr. by eapply Hk1, Hi.
  - intros u r. upd_cases; [apply Htx|]. intros Hr. by eapply Hk2, Hix.
  - intros u. destruct (decide (t = u)) as [<-|Hne]; [by rewrite upd_eq|]. rewrite upd_ne by done.
    destruct (Hw u) as [Ha Hr Hn]. constructor.
    + intros r H1 H2 H3. specialize (Hi u r H2). destruct Hre as [Hun|(Hkeep & Hold & Hwa & _)].
      { by rewrite Hun in H3. }
      destruct (Ha r H1 H2 (Hkeep r Hi H3)) as [Hwn|[v Hv]].
      * destruct (Hwa Hwn) as [|E0]; [by left|right; exists t; by rewrite Eth, upd_eq].
      * right. exists v. rewrite Eth. upd_cases; congruence.
    + intros r H1 H2 H3. specialize (Hi u r H2). destruct Hre as [Hun|(Hkeep & Hold & Hwa & Hrd & Hsg)].
      { by rewrite Hun in H3. }
      eapply due_mono; eauto.
    + intros r H1 H2. assert (issued (wait_ex_event s) r) as Hi' by (apply (Hix u); by rewrite H1).
      destruct Hrx as [Hun|(Hkeep & Hold & Hlw)]; [by rewrite Hun in H2|].
      destruct (Hn r H1 (Hkeep r Hi' H2)) as [Hneg|[v Hv]].
      * destruct (Hlw Hneg) as [|E0]; [by exists u, r|by left|right; exists t; by rewrite Eth, upd_eq].
      * right. exists v. rewrite Eth. upd_cases; congruence.
Qed.

(** A transition that leaves the events alone. *)
Lemma wake_quiet k (s s' : state) t p :
  winv k s -> inv s' -> thread s' = upd (thread s) t p ->
  event s' = event s -> wait_ex_event s' = wait_ex_event s -> (waiters s <> 0 -> waiters s' <> 0 \/ p = XUnSet) ->
  thread s t <> XUnSet -> thread s t <> SUnlockSet ->
  (will_read (thread s t) = true -> waiters s <> 0 -> will_read p = true \/ will_signal p = true) ->
  (will_signal (thread s t) = true -> will_signal p = true) ->
  (lock_word s < 0 -> (exists u r, u <> t /\ thread s u = XWaitSleep r) -> lock_word s' < 0 \/ p = SUnlockSet) ->
  ticket p = ticket (thread s t) \/ ticket p = None ->
  ticket_ex p = ticket_ex (thread s t) \/ ticket_ex p = None -> wait_ok s' p -> winv k s'.
Proof.
  intros W I' Eth He Hx Hwa H1 H2 Hrd Hsg Hlw Ht Htx Hok. pose proof W as [I [Hb1 Hb2] Hi Hix Hw].
  eapply wake_change; try done; rewrite ?He, ?Hx; try done.
  - right. rewrite He. by split_and!.
  - right. rewrite Hx. by split_and!.
  - intros r Hr. destruct Ht as [Ht|Ht]; [apply (Hi t)|]; congruence.
  - intros r Hr. destruct Htx as [Ht'|Ht']; [apply (Hix t)|]; congruence.
Qed.

(** A program counter that waits for nothing. *)
Definition idle (p : pc) : bool :=
  negb (announced p || rejected p || match p with XWaitSleep _ => true | _ => false end).

Lemma idle_ok (s : state) p : idle p = true -> wait_ok s p.
Proof.
  unfold idle. intros [[Ha Hr]%orb_false_elim Hx]%negb_true_iff%orb_false_elim.
  constructor; intros r; try congruence. by intros ->.
Qed.

Lemma announced_not_rejected p : announced p = true -> rejected p = false.
Proof. destruct p; simpl; try done; by destruct k. Qed.

Lemma rejected_not_announced p : rejected p = true -> announced p = false.
Proof. destruct p; simpl; try done; by destruct k. Qed.

(** An attempt behind the announcement that goes on. *)
Lemma announced_ok (s s' : state) old p :
  wait_ok s old -> announced old = true -> ticket p = ticket old -> announced p = true ->
  event s' = event s -> waiters s' = waiters s -> (forall u, thread s u = XUnSet -> thread s' u = XUnSet) ->
  wait_ok s' p.
Proof.
  intros [Ha _ _] Ho Ht Hp He Hw Hx. constructor.
  - intros r _ Hr. rewrite He, Hw. rewrite Ht in Hr. intros Hb. destruct (Ha r Ho Hr Hb) as [|[u Hu]]; eauto.
  - intros r Hr. by rewrite (announced_not_rejected p) in Hr.
  - by intros r ->.
Qed.

(** It fails while the lock is taken: the owner has yet to look at the waiters
    field. *)
Lemma rejected_ok (s s' : state) t old p :
  inv s -> wait_ok s old -> announced old = true -> thread s t = old -> ticket p = ticket old -> rejected p = true ->
  lock_word s <= 0 -> event s' = event s -> waiters s' = waiters s -> thread s' = upd (thread s) t p ->
  (owns old = true -> owns p = true) -> wait_ok s' p.
Proof using HT.
  intros I [Ha _ _] Ho Et Ht Hp Hlw He Hw Eth Hown. constructor.
  - intros r H1. by rewrite (rejected_not_announced p) in H1.
  - intros r _ Hr. rewrite He. rewrite Ht in Hr. intros Hb. unfold signal_due. rewrite Hw, Eth.
    destruct (Ha r Ho Hr Hb) as [Hne|[u Hu]].
    + left. split; [done|]. destruct (nonpositive_owner s I Hlw) as [u Hu]. exists u.
      upd_cases; [apply Hown in Hu; by destruct p|by destruct (thread s u)].
    + right. exists u. upd_cases; [|by rewrite Hu]. rewrite Hu in Ho. done.
  - by intros r ->.
Qed.

(** It has been rejected before. *)
Lemma still_rejected (s s' : state) old p :
  wait_ok s old -> rejected old = true -> ticket p = ticket old -> rejected p = true ->
  event s' = event s -> (signal_due s -> signal_due s') -> wait_ok s' p.
Proof.
  intros [_ Hr _] Ho Ht Hp He Hd. constructor.
  - intros r H1. by rewrite (rejected_not_announced p) in H1.
  - intros r _ Hr'. rewrite He. intros Hb. apply Hd. by apply (Hr r); [|congruence|].
  - by intros r ->.
Qed.

Lemma wake_weaken k j s : j <= k -> winv k s -> winv j s.
Proof using HE.
  intros Hle [I [Hb1 Hb2] Hi Hix Hw]. constructor; try done. split; by eapply budget_less.
Qed.

(** The four transitions that change an event. *)
Lemma wake_reset k (s s' : state) t p :
  winv k s -> inv s' -> idle p = true -> idle (thread s t) = true ->
  (will_read (thread s t) = true -> will_read p = true) -> will_signal (thread s t) = false ->
  thread s t <> SUnlockSet -> ticket p = Some (event_reset (event s)).2 -> ticket_ex p = None ->
  s' = goto t p (set_event (event_reset (event s)).1 s) -> winv k s'.
Proof using HE.
  intros W I' Hp Ho Hr Hsg Hu Ht Htx ->. pose proof W as [I [Hb1 Hb2] Hi Hix Hw].
  eapply (wake_change k k s); try done; simpl.
  - by apply reset_budget.
  - intros r. by apply (reset_issued k).
  - right. simpl. split_and!.
    + intros r Hr'. by apply (reset_keeps k).
    + intros E0. by rewrite E0 in Hsg.
    + by left.
    + intros H1 _. left. by apply Hr.
    + by rewrite Hsg.
  - right. simpl. split_and!; try done. by left.
  - intros r. rewrite Ht. intros [= <-]. by eapply reset_issues.
  - intros r. by rewrite Htx.
  - by apply idle_ok.
Qed.

Lemma wake_reset_ex k (s : state) t :
  winv k s -> thread s t = XWaitReserve ->
  inv (goto t (XWaitCheck (event_reset (wait_ex_event s)).2) (set_wait_ex (event_reset (wait_ex_event s)).1 s)) ->
  winv k (goto t (XWaitCheck (event_reset (wait_ex_event s)).2) (set_wait_ex (event_reset (wait_ex_event s)).1 s)).
Proof using HE.
  intros W Et I'. pose proof W as [I [Hb1 Hb2] Hi Hix Hw]. eapply (wake_change k k s); try done; simpl; rewrite ?Et.
  - by apply reset_budget.
  - intros r. by apply (reset_issued k).
  - right. simpl. split_and!; try done; by left.
  - right. simpl. split_and!; [|done|by left]. intros r Hr'. by apply (reset_keeps k).
  - intros r [= <-]. by eapply reset_issues.
Qed.

Lemma wake_set k (s : state) t :
  0 < k -> winv k s -> thread s t = XUnSet -> inv (goto t Out (set_event (event_set (event s)) s)) ->
  winv (k - 1) (goto t Out (set_event (event_set (event s)) s)).
Proof using HE.
  intros Hk W Et I'. pose proof W as [I [Hb1 Hb2] Hi Hix Hw]. eapply (wake_change k (k - 1) s); try done; simpl; rewrite ?Et.
  - by apply set_budget.
  - eapply budget_less; [|done]. lia.
  - intros r Hr. by eapply set_issued.
  - left. intros r Hr. by eapply set_unblocks.
  - right. simpl. split_and!; try done. by left.
Qed.

Lemma wake_set_ex k (s : state) t :
  0 < k -> winv k s -> thread s t = SUnlockSet -> inv (goto t Out (set_wait_ex (event_set (wait_ex_event s)) s)) ->
  winv (k - 1) (goto t Out (set_wait_ex (event_set (wait_ex_event s)) s)).
Proof using HE.
  intros Hk W Et I'. pose proof W as [I [Hb1 Hb2] Hi Hix Hw]. eapply (wake_change k (k - 1) s); try done; simpl; rewrite ?Et.
  - eapply budget_less; [|done]. lia.
  - by apply set_budget.
  - intros r Hr. by eapply set_issued.
  - right. simpl. split_and!; try done. by left.
  - left. intros r Hr. by eapply set_unblocks.
Qed.

(** The other ones. *)
Ltac quiet W I' Et :=
  eapply (wake_quiet _ _ _ _ _ W I'); [reflexivity|reflexivity|reflexivity|..]; rewrite ?Et; simpl; try done;
  try (by left); try (by right); try (by apply idle_ok).

(** Setting the flag, and the first attempt behind it. *)
Lemma flag_ok (s : state) t p : announced p = true ->
  wait_ok (goto t p (rw_lock_set_waiter_flag s)) p /\ (waiters s <> 0 -> waiters (rw_lock_set_waiter_flag s) <> 0).
Proof.
  intros Hp. unfold rw_lock_set_waiter_flag. destruct (Z.eqb_spec (waiters s) 0); (split; [|done]).
  - constructor; [intros; simpl; by left|intros r H1; by rewrite (announced_not_rejected _ Hp) in H1|by intros r ->].
  - constructor; [intros; simpl; by left|intros r H1; by rewrite (announced_not_rejected _ Hp) in H1|by intros r ->].
Qed.

Lemma wake_flag k (s : state) t p :
  winv k s -> inv (goto t p (rw_lock_set_waiter_flag s)) -> announced p = true -> ticket p = ticket (thread s t) ->
  thread s t <> XUnSet -> thread s t <> SUnlockSet -> ticket_ex p = None ->
  (will_read (thread s t) = true -> will_read p = true) -> will_signal (thread s t) = false ->
  winv k (goto t p (rw_lock_set_waiter_flag s)).
Proof.
  intros W I' Hp Ht H1 H2 Hx Hr Hs. destruct (flag_ok s t p Hp) as [Hok Hfl].
  assert (event (rw_lock_set_waiter_flag s) = event s /\ wait_ex_event (rw_lock_set_waiter_flag s) = wait_ex_event s /\
    lock_word (rw_lock_set_waiter_flag s) = lock_word s /\ thread (rw_lock_set_waiter_flag s) = thread s) as (E1 & E2 & E3 & E4)
    by (unfold rw_lock_set_waiter_flag; by case_match).
  eapply (wake_quiet k s _ t p W I'); simpl; rewrite ?E1, ?E2, ?E3, ?E4; try done; try (by left); try (by right); auto.
  by rewrite Hs.
Qed.

Lemma wake_s_lock_step k s s' t :
  winv k s -> inv s' -> rw_lock_s_lock_spin_step SYNC_SPIN_ROUNDS t s = Some s' -> winv k s'.
Proof using HE HT.
  intros W I' Hst. pose proof W as [I _ _ _ Hw]. specialize (Hw t). pose proof (inv_pc _ _ I t) as Hp.
  unfold rw_lock_s_lock_spin_step, rw_lock_s_lock_low_step in Hst. destruct (thread s t) eqn:Et; try done; simpl in Hp.
  - injection Hst as <-. destruct (Z.ltb_spec 0 (lock_word s)) as [Hlt|Hge].
    + quiet W I' Et. destruct k0; try by apply idle_ok. eapply announced_ok; [exact Hw|..]; try done.
      simpl. intros u Hu. upd_cases; congruence.
    + destruct k0 as [| |i|r]; unfold s_lost in *.
      * quiet W I' Et.
      * quiet W I' Et.
      * case_match; quiet W I' Et.
      * quiet W I' Et. eapply (rejected_ok s _ t); [exact I|exact Hw|..]; try done.
  - injection Hst as <-. destruct (Z.eqb_spec (lock_word s) w) as [E1|E1].
    + quiet W I' Et. lia.
    + quiet W I' Et. destruct k0; try by apply idle_ok.
      eapply announced_ok; [exact Hw|..]; try done. simpl. intros u Hu. upd_cases; congruence.
  - injection Hst as <-. case_match; quiet W I' Et.
  - destruct (event_reset (event s)) as [e sig] eqn:Er. injection Hst as <-.
    eapply (wake_reset k s _ t (SSetWaiters sig)); try done; rewrite ?Et, ?Er; done.
  - injection Hst as <-. eapply (wake_flag k s t (SRead (SFinal sig))); rewrite ?Et; by try done.
  - case_match; [done|]. injection Hst as <-. quiet W I' Et.
Qed.

Lemma wake_s_unlock_step k s s' t :
  0 < k -> winv k s -> inv s' -> rw_lock_s_unlock_step t s = Some s' -> winv (k - 1) s'.
Proof using HE.
  intros Hk W I' Hst. unfold rw_lock_s_unlock_step in Hst. destruct (thread s t) eqn:Et; try done; injection Hst as <-.
  - apply (wake_weaken k); [lia|]. destruct (Z.eqb_spec (lock_word s + 1) 0); quiet W I' Et. lia.
  - by apply wake_set_ex.
Qed.

Lemma wake_x_unlock_step k s s' t :
  (t < T)%nat -> 0 < k -> winv k s -> inv s' -> rw_lock_x_unlock_step t s = Some s' -> winv (k - 1) s'.
Proof using HE.
  intros Ht Hk W I' Hst. pose proof W as [I _ _ _ _]. pose proof (inv_pc _ _ I t) as Hp.
  unfold rw_lock_x_unlock_step in Hst. destruct (thread s t) eqn:Et; try done; injection Hst as <-; simpl in Hp.
  - apply (wake_weaken k); [lia|]. case_match; quiet W I' Et.
  - apply (wake_weaken k); [lia|]. quiet W I' Et.
  - apply (wake_weaken k); [lia|]. quiet W I' Et.
  - apply (wake_weaken k); [lia|]. destruct (inv_x_release T s t d a I Ht Et) as [_ Hone]. destruct Hp as [Hd _].
    destruct (Z.eqb_spec (lock_word s + a) X_LOCK_DECR) as [E1|E1]; quiet W I' Et.
    + intros _ (u & r & Hne & Hu). destruct Hne. apply (inv_unique _ _ I); [by rewrite Hu|].
      rewrite Et. unfold owns. simpl. by apply Nat.ltb_lt.
    + intros _ _. left. unfold owns. simpl. apply Nat.ltb_lt. assert (d <> 1%nat) by tauto. lia.
    + intros _ (u & r & Hne & Hu). destruct Hne. apply (inv_unique _ _ I); [by rewrite Hu|].
      rewrite Et. unfold owns. simpl. by apply Nat.ltb_lt.
  - apply (wake_weaken k); [lia|]. destruct (Z.eqb_spec (waiters s) 0); quiet W I' Et.
  - apply (wake_weaken k); [lia|].
    assert (event (rw_lock_reset_waiter_flag s) = event s /\ wait_ex_event (rw_lock_reset_waiter_flag s) = wait_ex_event s /\
      lock_word (rw_lock_reset_waiter_flag s) = lock_word s /\ thread (rw_lock_reset_waiter_flag s) = thread s) as (E1 & E2 & E3 & E4)
      by (unfold rw_lock_reset_waiter_flag; by case_match).
    eapply (wake_quiet k s _ t XUnSet W I'); simpl; rewrite ?E1, ?E2, ?E3, ?E4, ?Et; try done; try (by left); by right.
  - by apply wake_set.
Qed.

Lemma wake_writer_id_step k s s' t :
  winv k s -> inv s' -> set_writer_id_step t s = Some s' -> winv k s'.
Proof.
  intros W I' Hst. unfold set_writer_id_step in Hst. destruct (thread s t) eqn:Et; try done; injection Hst as <-.
  - quiet W I' Et.
  - destruct (writer_thread s =? l)%nat.
    + quiet W I' Et.
    + pose proof (inv_pc _ _ I' t) as Hp. simpl in Hp. by rewrite upd_eq in Hp.
  - destruct wait; quiet W I' Et.
Qed.

Lemma wake_x_wait_step k s s' t :
  winv k s -> inv s' -> rw_lock_x_lock_wait_step SYNC_SPIN_ROUNDS t s = Some s' -> winv k s'.
Proof using HE.
  intros W I' Hst. unfold rw_lock_x_lock_wait_step in Hst. destruct (thread s t) eqn:Et; try done.
  - injection Hst as <-. repeat case_match; quiet W I' Et.
  - destruct (event_reset (wait_ex_event s)) as [e sig] eqn:Er. injection Hst as <-.
    pose proof (wake_reset_ex k s t W Et) as H. rewrite Er in H. by apply H.
  - injection Hst as <-. destruct (Z.ltb_spec (lock_word s) 0); quiet W I' Et.
    constructor; [done|done|]. intros r _ _. by left.
  - case_match; [done|]. injection Hst as <-. quiet W I' Et.
Qed.

Lemma wake_x_lock_low_step k s s' t :
  (t < T)%nat -> winv k s -> inv s' -> rw_lock_x_lock_low_step SYNC_SPIN_ROUNDS t s = Some s' -> winv k s'.
Proof using HE HT.
  intros Ht W I' Hst. pose proof W as [I _ _ _ Hw]. specialize (Hw t). pose proof (inv_pc _ _ I t) as Hp.
  pose proof (entered_word T s t I Ht) as Hword.
  unfold rw_lock_x_lock_low_step in Hst.
  destruct (thread s t) eqn:Et; try (by eapply wake_x_wait_step); try (by eapply wake_writer_id_step);
    cbn [pc_ok depth] in Hp, Hword; injection Hst as <-.
  - destruct k0 as [|i|r]; quiet W I' Et; try (by left). eapply announced_ok; [exact Hw|..]; try done.
    simpl. intros u Hu. upd_cases; congruence.
  - destruct (Z.ltb_spec 0 (lock_word s)) as [Hlt|Hge]; destruct k0 as [|i|sig]; quiet W I' Et.
    + eapply announced_ok; [exact Hw|..]; try done. simpl. intros u Hu. upd_cases; congruence.
    + eapply (rejected_ok s _ t); [exact I|exact Hw|..]; done.
  - destruct Hp as (-> & _ & Hpos). destruct (Z.eqb_spec (lock_word s) w) as [E1|E1].
    + quiet W I' Et. lia.
    + destruct k0 as [|i|sig]; quiet W I' Et. eapply announced_ok; [exact Hw|..]; try done.
      simpl. intros u Hu. upd_cases; congruence.
  - rewrite (failed_depth T s t d k0 r I Et) in *. destruct (Nat.ltb_spec 0 d) as [Hd|Hd].
    + quiet W I' Et.
    + assert (d = 0%nat) as -> by lia. destruct k0 as [|i|sig]; simpl in *; quiet W I' Et.
      eapply still_rejected; [exact Hw|..]; try done. eapply due_mono; simpl; rewrite ?Et; try done. by left.
  - destruct (recursive s).
    + pose proof (inv_pc _ _ I' t) as Hp'. simpl in Hp'. by rewrite upd_eq in Hp'.
    + quiet W I' Et.
  - quiet W I' Et.
  - quiet W I' Et.
  - quiet W I' Et. intros _ (u & r & Hne & Hu). destruct Hne. apply (inv_unique _ _ I); [by rewrite Hu|].
    rewrite Et. unfold owns. simpl. apply Nat.ltb_lt. tauto.
Qed.

Lemma wake_x_lock_step k s s' t :
  (t < T)%nat -> winv k s -> inv s' -> rw_lock_x_lock_func_step SYNC_SPIN_ROUNDS t s = Some s' -> winv k s'.
Proof using HE HT.
  intros Ht W I' Hst. pose proof W as [I _ _ _ _]. unfold rw_lock_x_lock_func_step in Hst.
  pose proof (inv_pc _ _ I t) as Hp.
  destruct (thread s t) eqn:Et; unfold rw_lock_x_lock_func_nowait_step in Hst; rewrite ?Et in Hst;
    try (by eapply wake_x_lock_low_step); simpl in Hp.
  - injection Hst as <-. destruct (Z.eqb_spec (lock_word s) X_LOCK_DECR) as [E1|E1]; quiet W I' Et.
    unfold X_LOCK_DECR in E1. lia.
  - injection Hst as <-. repeat case_match; quiet W I' Et.
  - destruct (event_reset (event s)) as [e sig] eqn:Er. injection Hst as <-. subst d.
    eapply (wake_reset k s _ t (XSetWaiters 0 sig)); try done; rewrite ?Et, ?Er; done.
  - injection Hst as <-. subst d. eapply (wake_flag k s t (XRec 0 (XFinal sig))); rewrite ?Et; by try done.
  - case_match; [done|]. injection Hst as <-. quiet W I' Et.
Qed.

Lemma wake_step k s s' : 0 < k -> winv k s -> step s s' -> winv (k - 1) s'.
Proof using HE HT.
  intros Hk W Hs. pose proof (rw_step_inv _ _ _ _ (wi_inv _ _ W) Hs) as I'. destruct Hs as (t & a & Ht & Hst).
  unfold rw_step in Hst.
  destruct (thread s t) eqn:Et;
    try (by eapply wake_s_unlock_step); try (by eapply wake_x_unlock_step);
    apply (wake_weaken k); try lia;
    try (by eapply wake_s_lock_step); try (by eapply wake_x_lock_step);
    destruct a; try done; injection Hst as <-; quiet W I' Et.
Qed.

Lemma wake_reachable n s : Z.of_nat n <= capacity -> nsteps step n init s -> winv (capacity - Z.of_nat n) s.
Proof using HE HT.
  intros Hn Hs. refine (nsteps_invariant step winv capacity n init s wake_init _ Hs Hn).
  intros k x y. apply wake_step.
Qed.

(** ** Theorems *)

(** The two kinds of sleep: on the event of the lock, and of the next writer. *)
Definition sleeps (s : state) (t : nat) : Prop :=
  exists r, (thread s t = SWait r \/ exists d, thread s t = XSleep d r) /\ event_blocks (event s) r = true.

Definition sleeps_next (s : state) (t : nat) : Prop :=
  exists r, thread s t = XWaitSleep r /\ event_blocks (wait_ex_event s) r = true.

Lemma sleeps_due k s t : winv k s -> sleeps s t -> signal_due s.
Proof.
  intros W (r & Hr & Hb). apply (wo_rejected _ _ (wi_wait _ _ W t) r); [| |done]; destruct Hr as [->|[d ->]]; done.
Qed.

Lemma sleeps_next_due k s t :
  winv k s -> sleeps_next s t -> exists u, thread s u = SUnlockSet \/ reading (thread s u) = true.
Proof.
  intros W (r & Hr & Hb). destruct (wo_next _ _ (wi_wait _ _ W t) r Hr Hb) as [Hneg|[u Hu]]; [|exists u; by left].
  destruct (next_waits_for_reader s t (wi_inv _ _ W)) as [u Hu]; [by rewrite Hr|done|]. exists u. by right.
Qed.

(** The transitions of [rw_lock_x_lock_wait]. *)
Lemma step_x_wait (s : state) t a :
  match thread s t with XWaitLoop _ | XWaitReserve | XWaitCheck _ | XWaitSleep _ => true | _ => false end = true ->
  rw_step SYNC_SPIN_ROUNDS t a s = rw_lock_x_lock_wait_step SYNC_SPIN_ROUNDS t s.
Proof.
  intros H. unfold rw_step, rw_lock_x_lock_func_step. destruct (thread s t) eqn:Et; try done;
    unfold rw_lock_x_lock_func_nowait_step; rewrite Et; unfold rw_lock_x_lock_low_step; by rewrite Et.
Qed.

Lemma asleep (s : state) t a : sleeps s t \/ sleeps_next s t -> rw_step SYNC_SPIN_ROUNDS t a s = None.
Proof.
  intros [(r & [E1|[d E1]] & Hb)|(r & E1 & Hb)].
  - unfold rw_step. rewrite E1. unfold rw_lock_s_lock_spin_step. by rewrite E1, Hb.
  - unfold rw_step. rewrite E1. unfold rw_lock_x_lock_func_step. by rewrite E1, Hb.
  - rewrite step_x_wait by (by rewrite E1). unfold rw_lock_x_lock_wait_step. by rewrite E1, Hb.
Qed.

(** A transition of the thread is enabled. *)
Definition moves (s : state) (u : nat) : Prop := (u < T)%nat /\ exists a, rw_step SYNC_SPIN_ROUNDS u a s <> None.

Lemma active_thread (s : state) u : inv s -> thread s u <> Out -> (u < T)%nat.
Proof. intros I Hu. destruct (decide (u < T)%nat) as [|Hn]; [done|]. by rewrite (inv_out _ _ I) in Hu by lia. Qed.

(** Only a next writer is ever kept from looking at the waiters field. *)
Lemma reader_of_flag_moves (s : state) u : inv s -> will_read (thread s u) = true -> moves s u \/ sleeps_next s u.
Proof.
  intros I Hu. pose proof (inv_pc _ _ I u) as Hp.
  assert (u < T)%nat as HuT by (apply (active_thread s u I); intros E0; by rewrite E0 in Hu).
  assert ((exists x, rw_step SYNC_SPIN_ROUNDS u Unlock s = Some x) -> moves s u \/ sleeps_next s u) as Hm
    by (intros [x Hx]; left; split; [done|]; exists Unlock; by rewrite Hx).
  destruct (thread s u) eqn:Eu; simpl in Hu, Hp; try done; try (by subst d);
    try (apply Hm; unfold rw_step, rw_lock_x_unlock_step; rewrite Eu; by eexists);
    try (apply Hm; rewrite step_x_wait by (by rewrite Eu); unfold rw_lock_x_lock_wait_step; rewrite Eu;
         try destruct (event_reset _); by eexists);
    try (apply Hm; unfold rw_step, rw_lock_x_lock_func_step; rewrite Eu; try destruct (event_reset _); by eexists);
    try (apply Hm; unfold rw_step, rw_lock_x_lock_func_step, rw_lock_x_lock_func_nowait_step; rewrite Eu; by eexists);
    try (apply Hm; unfold rw_step, rw_lock_x_lock_func_step; rewrite Eu; unfold rw_lock_x_lock_func_nowait_step; rewrite Eu;
         unfold rw_lock_x_lock_low_step; rewrite Eu; try (unfold set_writer_id_step; rewrite Eu); by eexists).
  destruct (event_blocks (wait_ex_event s) sig) eqn:Eb; [right; by exists sig|]. apply Hm.
  rewrite step_x_wait by (by rewrite Eu). unfold rw_lock_x_lock_wait_step. rewrite Eu, Eb. by eexists.
Qed.

Lemma signaller_moves (s : state) u : inv s -> will_signal (thread s u) = true \/ thread s u = SUnlockSet \/ reading (thread s u) = true ->
  moves s u.
Proof.
  intros I Hu. split; [apply (active_thread s u I); intros E0; rewrite E0 in Hu; by destruct Hu as [|[|]]|].
  exists Unlock. unfold rw_step, rw_lock_x_unlock_step, rw_lock_s_unlock_step. destruct (thread s u); by destruct Hu as [|[|]].
Qed.

(** C26: No wake-up of the lock is lost.  While a thread sleeps on the event
    of the lock, another thread that can take a step now is going to bring
    about a wake-up: it is about to set the event; or the waiters field is set
    and the thread owns the lock, or has just released it, and has yet to look
    at the field; or the field is set and the thread is a reader whose next
    writer sleeps.  While a next writer sleeps on its own event, a thread that
    can take a step now has a shared lock or is about to set that event. *)
Theorem rw_no_lost_wakeup n s t :
  Z.of_nat n <= capacity -> nsteps step n init s ->
  (sleeps s t -> exists u, u <> t /\ moves s u /\
     (will_signal (thread s u) = true \/
      (waiters s <> 0 /\ will_read (thread s u) = true) \/
      (waiters s <> 0 /\ (exists v, sleeps_next s v) /\ (thread s u = SUnlockSet \/ reading (thread s u) = true)))) /\
  (sleeps_next s t -> exists u, u <> t /\ moves s u /\ (thread s u = SUnlockSet \/ reading (thread s u) = true)).
Proof using HE HT.
  intros Hn Hs. pose proof (wake_reachable n s Hn Hs) as W. pose proof (wi_inv _ _ W) as I.
  assert (forall u, sleeps s t \/ sleeps_next s t -> moves s u -> u <> t) as Hne.
  { intros u Hsl [_ [a Ha]] ->. by apply Ha, asleep. }
  split.
  - intros Hsl. destruct (sleeps_due _ _ _ W Hsl) as [[Hw [u Hu]]|[u Hu]].
    + destruct (reader_of_flag_moves s u I Hu) as [Hm|Hx]; [exists u; auto 6|].
      destruct (sleeps_next_due _ _ _ W Hx) as [v Hv]. pose proof (signaller_moves s v I (or_intror Hv)).
      exists v. split_and!; [by apply Hne; [left|]|done|]. right. right. eauto.
    + pose proof (signaller_moves s u I (or_introl Hu)). exists u. auto.
  - intros Hsl. destruct (sleeps_next_due _ _ _ W Hsl) as [u Hu]. pose proof (signaller_moves s u I (or_intror Hu)).
    exists u. auto.
Qed.

(** The lock by itself never deadlocks: when every thread is without
    the lock or in one of its waits, no next writer is kept asleep, and nobody
    else is unless such a writer can go on. *)
Theorem rw_quiescent_not_blocked n s :
  Z.of_nat n <= capacity -> nsteps step n init s ->
  (forall t, thread s t = Out \/ (exists r, thread s t = SWait r) \/ (exists d r, thread s t = XSleep d r) \/
    exists r, thread s t = XWaitSleep r) ->
  (forall t, ~ sleeps_next s t) /\ forall t, sleeps s t -> exists u r, thread s u = XWaitSleep r /\ ~ sleeps_next s u.
Proof using HE HT.
  intros Hn Hs Hall. pose proof (wake_reachable n s Hn Hs) as W.
  assert (forall t, ~ sleeps_next s t) as Hnext.
  { intros t Ha. destruct (sleeps_next_due _ _ _ W Ha) as [u [Hu|Hu]];
      destruct (Hall u) as [E0|[[? E0]|[(? & ? & E0)|[? E0]]]]; by rewrite E0 in Hu. }
  split; [done|]. intros t Ha. destruct (sleeps_due _ _ _ W Ha) as [[_ [u Hu]]|[u Hu]].
  - pose proof (inv_pc _ _ (wi_inv _ _ W) u) as Hp.
    destruct (Hall u) as [E0|[[? E0]|[(d & ? & E0)|[r' E0]]]]; rewrite E0 in Hu, Hp; simpl in Hp; try done;
      [by subst d|]. by exists u, r'.
  - destruct (Hall u) as [E0|[[? E0]|[(? & ? & E0)|[? E0]]]]; by rewrite E0 in Hu.
Qed.
End wake.

(** Thread 1 sleeps on the event of the lock that thread 0 has locked twice. *)
Lemma rw_no_lost_wakeup_witness :
  sleeps waiting_state 1 /\ exists u, u <> 1%nat /\ moves 1 2 waiting_state u /\
     (will_signal (thread waiting_state u) = true \/
      (waiters waiting_state <> 0 /\ will_read (thread waiting_state u) = true) \/
      (waiters waiting_state <> 0 /\ (exists v, sleeps_next waiting_state v) /\
       (thread waiting_state u = SUnlockSet \/ reading (thread waiting_state u) = true))).
Proof.
  assert (sleeps waiting_state 1) as Hs by (exists 1; split; [left|]; by vm_compute). split; [done|].
  refine (proj1 (rw_no_lost_wakeup 1 2 ltac:(done) (length twice_then_wait) _ _ _ _) Hs); [by vm_compute|].
  exact (rw_run_nsteps 1 2 _ _ _ waiting_run).
Defined.

(** Thread 0 has unlocked twice and signalled. *)
Definition signalled_state : state (E := OsEvent.os_event) :=
  default init (run 1 2 (twice_then_wait ++ replicate 12 (0%nat, Unlock)) init).

Lemma rw_signalled_run : run 1 2 (twice_then_wait ++ replicate 12 (0%nat, Unlock)) init = Some signalled_state.
Proof.
  unfold signalled_state. by destruct (run 1 2 (twice_then_wait ++ _) init) eqn:E; [|vm_compute in E].
Qed.

Lemma rw_quiescent_not_blocked_witness :
  thread signalled_state 1 = SWait 1 /\ (forall t, ~ sleeps_next signalled_state t) /\
  forall t, sleeps signalled_state t -> exists u r, thread signalled_state u = XWaitSleep r /\ ~ sleeps_next signalled_state u.
Proof.
  split; [by vm_compute|].
  apply (rw_quiescent_not_blocked 1 2 ltac:(done) (length (twice_then_wait ++ replicate 12 (0%nat, Unlock)))).
  - by vm_compute.
  - exact (rw_run_nsteps 1 2 _ _ _ rw_signalled_run).
  - intros [|[|t]]; [left; by vm_compute|right; left; exists 1; by vm_compute|left; by vm_compute].
Defined.
End RwLockWake.
