(* ===== verification/HashTable.v ===== *)
(** * Chained hash tables of XtraDB (include/hash0hash.h, include/hash0hash.ic)

    The macros [HASH_INSERT], [HASH_DELETE] and [HASH_SEARCH] on a table whose
    cells hold the first struct of a chain; the chain runs through a link field
    of the structs, kept here in a store from addresses to links.  A bad access
    or a failed [ut_a] is [Fault], a walk along a chain that closes on itself
    never returns and is [Blocked]. *)
From S2P Require Import Prelude Results.
Local Open Scope Z_scope.

Module HashTable.
Local Open Scope mc_scope.

(** [hash_table_t]: the array of cells; [n_cells] is its length. *)
Record hash_table := mkTable { array : list (option nat) }.

Definition n_cells (t : hash_table) : Z := Z.of_nat (length (array t)).

Notation links := (gmap nat (option nat)) (only parsing).

Definition UT_HASH_RANDOM_MASK2 : Z := 1653893711.

(** ut0rnd.ic, lines 148-159. *)
Definition ut_hash_ulint (key table_size : Z) : Z := Z.lxor key UT_HASH_RANDOM_MASK2 mod table_size.

Definition hash_calc_hash (fold : Z) (t : hash_table) : Z := ut_hash_ulint fold (n_cells t).

Definition hash_get_nth_cell (t : hash_table) (n : Z) : option (option nat) := array t !! Z.to_nat n.

Definition set_cell (t : hash_table) (n : Z) (p : option nat) : hash_table :=
  mkTable (<[Z.to_nat n := p]> (array t)).

(** hash0hash.ic, lines 45-57. *)
Definition hash_table_clear (t : hash_table) : hash_table := mkTable (replicate (length (array t)) None).

(** The loop of lines 139-142: the last struct of the chain. *)
Fixpoint last_struct (fuel : nat) (m : links) (x : nat) : res nat :=
  match fuel with
  | O => Blocked
  | S fuel =>
      let! nxt := deref (m !! x) in
      match nxt with None => Ok x | Some y => last_struct fuel m y end
  end.

(** Lines 122-145. *)
Definition HASH_INSERT (fold : Z) (data : nat) (t : hash_table) (m : links) : res (hash_table * links) :=
  let! _ := deref (m !! data) in
  let m := <[data := None]> m in
  let c := hash_calc_hash fold t in
  let! node := deref (hash_get_nth_cell t c) in
  match node with
  | None => Ok (set_cell t c (Some data), m)
  | Some x => let! z := last_struct (size m) m x in Ok (t, <[z := Some data]> m)
  end.

(** The loop of lines 201-205: the struct in front of [data]. *)
Fixpoint struct_before (fuel : nat) (m : links) (data x : nat) : res nat :=
  match fuel with
  | O => Blocked
  | S fuel =>
      let! nxt := deref (m !! x) in
      if decide (nxt = Some data) then Ok x
      else match nxt with None => Fault | Some y => struct_before fuel m data y end
  end.

(** Lines 185-209. *)
Definition HASH_DELETE (fold : Z) (data : nat) (t : hash_table) (m : links) : res (hash_table * links) :=
  let c := hash_calc_hash fold t in
  let! node := deref (hash_get_nth_cell t c) in
  if decide (node = Some data) then
    let! nxt := deref (m !! data) in Ok (set_cell t c nxt, m)
  else
    let! x := deref node in
    let! z := struct_before (size m) m data x in
    let! nxt := deref (m !! data) in Ok (t, <[z := nxt]> m).

(** The loop of lines 231-240. *)
Fixpoint search_loop (test : nat -> res bool) (fuel : nat) (m : links) (data : option nat) : res (option nat) :=
  match data with
  | None => Ok None
  | Some x =>
      match fuel with
      | O => Blocked
      | S fuel =>
          let! b := test x in
          if b then Ok (Some x) else let! nxt := deref (m !! x) in search_loop test fuel m nxt
      end
  end.

(** Lines 224-241. *)
Definition HASH_SEARCH (test : nat -> res bool) (fold : Z) (t : hash_table) (m : links) : res (option nat) :=
  let! node := deref (hash_get_nth_cell t (hash_calc_hash fold t)) in search_loop test (size m) m node.

(** ** The chains a table represents *)

(** A segment that starts at [p], consists of [xs] and goes on to [n]. *)
Fixpoint seg (m : links) (p : option nat) (xs : list nat) (n : option nat) : Prop :=
  match xs with
  | [] => p = n
  | x :: xs => p = Some x /\ exists q, m !! x = Some q /\ seg m q xs n
  end.

Record rep (t : hash_table) (m : links) (chains : nat -> list nat) : Prop := Rep {
  rep_cells : (0 < length (array t))%nat;
  rep_chain : forall i p, array t !! i = Some p -> seg m p (chains i) None;
  rep_nodup : forall i, NoDup (chains i);
  rep_disjoint : forall i j x, x ∈ chains i -> x ∈ chains j -> i = j }.

(** The cell a folded value belongs to. *)
Definition cell_of (fold : Z) (t : hash_table) : nat := Z.to_nat (hash_calc_hash fold t).

Lemma cell_of_lt fold t : (0 < length (array t))%nat -> (cell_of fold t < length (array t))%nat.
Proof.
  intros Hn. unfold cell_of, hash_calc_hash, ut_hash_ulint, n_cells.
  pose proof (Z.mod_pos_bound (Z.lxor fold UT_HASH_RANDOM_MASK2) (Z.of_nat (length (array t)))). lia.
Qed.

Lemma cell_node fold t m chains :
  rep t m chains -> exists p, hash_get_nth_cell t (hash_calc_hash fold t) = Some p /\
    seg m p (chains (cell_of fold t)) None.
Proof.
  intros Hr. pose proof (cell_of_lt fold t (rep_cells _ _ _ Hr)) as Hlt.
  destruct (lookup_lt_is_Some_2 (array t) _ Hlt) as [p Hp]. exists p. split; [done|].
  by apply (rep_chain _ _ _ Hr).
Qed.

Lemma seg_app m xs : forall p ys n, seg m p (xs ++ ys) n <-> exists q, seg m p xs q /\ seg m q ys n.
Proof.
  induction xs as [|x xs IH]; intros p ys n; simpl; [naive_solver|]. setoid_rewrite IH. naive_solver.
Qed.

Lemma seg_frame m m' xs : forall p n,
  (forall x, x ∈ xs -> m' !! x = m !! x) -> seg m p xs n -> seg m' p xs n.
Proof.
  induction xs as [|x xs IH]; intros p n Hf; simpl; [done|]. intros (-> & q & Hq & Hc). split; [done|].
  exists q. rewrite Hf by left. split; [done|]. apply IH; [|done]. intros y Hy. apply Hf. by right.
Qed.

Lemma seg_insert m xs p n x q : x ∉ xs -> seg m p xs n -> seg (<[x := q]> m) p xs n.
Proof. intros Hx. apply seg_frame. intros y Hy. apply lookup_insert_ne. by intros ->. Qed.

Lemma seg_lookup m xs : forall p n x, seg m p xs n -> x ∈ xs -> is_Some (m !! x).
Proof.
  induction xs as [|y xs IH]; intros p n x; simpl; [by intros _ ?%elem_of_nil|].
  intros (_ & q & Hq & Hc) [->|Hx]%elem_of_cons; [by exists q|by eapply IH].
Qed.

Lemma seg_fits m p xs n : seg m p xs n -> NoDup xs -> (length xs <= size m)%nat.
Proof.
  intros Hc Hnd. rewrite <- size_dom, <- (size_list_to_set (C := gset nat) xs Hnd).
  apply subseteq_size. intros x Hx%elem_of_list_to_set. apply elem_of_dom. by eapply seg_lookup.
Qed.

(** Redirecting the link that leaves a segment. *)
Lemma seg_redirect m p xs z n n' :
  z ∉ xs -> seg m p (xs ++ [z]) n -> seg (<[z := n']> m) p (xs ++ [z]) n'.
Proof.
  intros Hz (q & Hq & -> & _)%seg_app. apply seg_app. exists (Some z). split; [by apply seg_insert|].
  simpl. split; [done|]. exists n'. by rewrite lookup_insert_eq.
Qed.

Lemma last_struct_seg m xs z : forall fuel x,
  (length (x :: xs) <= fuel)%nat -> seg m (Some x) (x :: xs) None -> last (x :: xs) = Some z ->
  last_struct fuel m x = Ok z.
Proof.
  induction xs as [|y xs IH]; intros fuel x Hf; (destruct fuel as [|fuel]; [simpl in Hf; lia|]).
  - intros (_ & q & Hq & ->) [= ->]. simpl. by rewrite Hq.
  - intros (_ & q & Hq & Hs) Hl. pose proof Hs as [-> _]. cbn [last_struct]. rewrite Hq. cbn [deref rbind].
    simpl in Hf. apply IH; [simpl; lia|done|]. simpl in Hl. done.
Qed.

Lemma struct_before_seg m data xs z ys : forall fuel x,
  (length xs < fuel)%nat -> head (xs ++ [z]) = Some x -> data ∉ xs ++ [z] ->
  seg m (Some x) (xs ++ z :: data :: ys) None -> struct_before fuel m data x = Ok z.
Proof.
  induction xs as [|y xs IH]; intros fuel x Hf Hh Hd; (destruct fuel as [|fuel]; [simpl in Hf; lia|]).
  - injection Hh as ->. intros (_ & q & Hq & -> & _). cbn [struct_before]. rewrite Hq. cbn [deref rbind].
    by rewrite decide_True.
  - injection Hh as ->. intros (_ & q & Hq & Hs). cbn [struct_before]. rewrite Hq. cbn [deref rbind].
    assert (exists w, q = Some w /\ head (xs ++ [z]) = Some w) as (w & -> & Hw).
    { destruct xs; simpl in *; destruct Hs as [-> _]; eauto. }
    rewrite decide_False; [|intros [= ->]; apply Hd; simpl; right; by apply head_Some_elem_of in Hw].
    simpl in Hf. apply IH; [lia|done| |done]. intros Hin. apply Hd. simpl. by right.
Qed.

(** ** The macros on represented tables *)

(** Structs outside the table keep their links. *)
Definition same_outside (chains : nat -> list nat) (data : nat) (m m' : links) : Prop :=
  forall y, y <> data -> (forall i, y ∉ chains i) -> m' !! y = m !! y.

(** Changing one chain keeps the other ones. *)
Lemma rep_change t m chains c t' m' xs :
  rep t m chains -> (c < length (array t))%nat -> length (array t') = length (array t) ->
  (forall i, i <> c -> array t' !! i = array t !! i) ->
  (forall p, array t' !! c = Some p -> seg m' p xs None) -> NoDup xs ->
  (forall i x, i <> c -> x ∈ chains i -> x ∉ xs /\ m' !! x = m !! x) ->
  rep t' m' (upd chains c xs).
Proof.
  intros [Hn Hc Hnd Hdis] Hlt Hlen Hother Hseg Hxs Hfree. constructor; [lia|..].
  - intros i p Hp. upd_cases; [by apply Hseg|]. rewrite Hother in Hp by done.
    eapply seg_frame; [|by apply Hc]. intros x Hx. by apply (Hfree i).
  - intros i. by upd_cases.
  - intros i j x. upd_cases; [done|..|by apply Hdis]; intros Hx Hy; exfalso;
      (by eapply Hfree) || (by eapply Hfree; [|exact Hx|exact Hy]).
Qed.

(** The new struct becomes the only one of its chain. *)
Lemma insert_empty t m chains c data :
  rep t m chains -> (c < length (array t))%nat -> chains c = [] -> (forall i, data ∉ chains i) ->
  rep (mkTable (<[c := Some data]> (array t))) (<[data := None]> m) (upd chains c [data]).
Proof.
  intros Hr Hlt Ec Hno. eapply rep_change; try done; simpl.
  - by rewrite length_insert.
  - intros i Hi. by rewrite list_lookup_insert_ne.
  - intros p. rewrite list_lookup_insert_eq by done. intros [= <-]. split; [done|]. exists None.
    by rewrite lookup_insert_eq.
  - apply NoDup_singleton.
  - intros i y Hi Hy. assert (y <> data) by (intros ->; by apply (Hno i)).
    split; [set_solver|]. by apply lookup_insert_ne.
Qed.

(** The new struct is linked behind the last one. *)
Lemma insert_behind t m chains c data ys z :
  rep t m chains -> (c < length (array t))%nat -> chains c = ys ++ [z] -> (forall i, data ∉ chains i) ->
  rep t (<[z := Some data]> (<[data := None]> m)) (upd chains c (chains c ++ [data])).
Proof.
  intros Hr Hlt Ec Hno. pose proof (rep_nodup _ _ _ Hr c) as Hnd. rewrite Ec in *.
  assert (z ∉ ys) as Hzy by (apply NoDup_app in Hnd as (_ & Hx & _); intros Hin; apply (Hx z Hin); by left).
  assert (data ∉ ys ++ [z]) as Hdn by (rewrite <- Ec; apply Hno).
  eapply rep_change; try done.
  - intros p Hp. apply (rep_chain _ _ _ Hr) in Hp. rewrite Ec in Hp.
    apply seg_app. exists (Some data). split; [eapply seg_redirect, seg_insert; done|]. simpl.
    split; [done|]. exists None. rewrite lookup_insert_ne by set_solver. by rewrite lookup_insert_eq.
  - apply NoDup_app. split_and!; [done| |apply NoDup_singleton]. by intros y Hy ->%list_elem_of_singleton.
  - intros i y Hi Hy. assert (y <> data) by (intros ->; by apply (Hno i)).
    assert (y ∉ ys ++ [z]) as Hy' by (rewrite <- Ec; intros Hyc; by apply Hi, (rep_disjoint _ _ _ Hr i c y)).
    split; [set_solver|]. rewrite lookup_insert_ne by set_solver. by apply lookup_insert_ne.
Qed.

Lemma HASH_INSERT_rep fold data t m chains :
  rep t m chains -> is_Some (m !! data) -> (forall i, data ∉ chains i) ->
  exists t' m', HASH_INSERT fold data t m = Ok (t', m') /\
    rep t' m' (upd chains (cell_of fold t) (chains (cell_of fold t) ++ [data])) /\
    n_cells t' = n_cells t /\ same_outside chains data m m'.
Proof.
  intros Hr [q0 Hd] Hno. destruct (cell_node fold t m chains Hr) as (p & Hcell & Hseg).
  pose proof (cell_of_lt fold t (rep_cells _ _ _ Hr)) as Hlt. set (c := cell_of fold t) in *.
  unfold HASH_INSERT. rewrite Hd, Hcell. cbn [deref rbind].
  apply (seg_insert _ _ _ _ data None) in Hseg as Hseg1; [|apply Hno]. destruct (chains c) as [|x xs] eqn:Ec.
  - simpl in Hseg. subst p. eexists _, _. split; [done|]. split_and!; [by apply insert_empty| |].
    + unfold n_cells. simpl. by rewrite length_insert.
    + intros y Hy _. by apply lookup_insert_ne.
  - pose proof Hseg1 as [-> _]. destruct (exists_last (l := x :: xs)) as (ys & z & Eys); [done|].
    pose proof (rep_nodup _ _ _ Hr c) as Hnd. rewrite Ec in Hnd.
    rewrite (last_struct_seg _ xs z); [|by eapply seg_fits|done|rewrite Eys; apply last_snoc].
    cbn [rbind]. eexists _, _. split; [done|]. rewrite <- Ec. split_and!; [|done|].
    + eapply insert_behind; try done. by rewrite Ec.
    + intros y Hy Hout. specialize (Hout c). rewrite Ec, Eys in Hout.
      rewrite lookup_insert_ne by set_solver. by apply lookup_insert_ne.
Qed.

(** The struct at the front of its chain is taken out of the cell. *)
Lemma delete_front t m chains c data ys nxt :
  rep t m chains -> (c < length (array t))%nat -> chains c = data :: ys -> m !! data = Some nxt ->
  rep (mkTable (<[c := nxt]> (array t))) m (upd chains c ys).
Proof.
  intros Hr Hlt Ec Hd. pose proof (rep_nodup _ _ _ Hr c) as Hnd. rewrite Ec in Hnd.
  apply NoDup_cons in Hnd as [Hdy Hnd]. destruct (lookup_lt_is_Some_2 (array t) _ Hlt) as [p Hp].
  apply (rep_chain _ _ _ Hr) in Hp as Hseg. rewrite Ec in Hseg. destruct Hseg as (-> & q & Hq & Hseg).
  eapply rep_change; try done; simpl.
  - by rewrite length_insert.
  - intros i Hi. by rewrite list_lookup_insert_ne.
  - intros p'. rewrite list_lookup_insert_eq by done. intros [= <-]. congruence.
  - intros i y Hi Hy. split; [|done]. intros Hy'. apply Hi, (rep_disjoint _ _ _ Hr i c y); [done|].
    rewrite Ec. by right.
Qed.

(** Any other one is skipped by the struct in front of it. *)
Lemma delete_behind t m chains c data ys z zs nxt :
  rep t m chains -> (c < length (array t))%nat -> chains c = ys ++ z :: data :: zs -> m !! data = Some nxt ->
  rep t (<[z := nxt]> m) (upd chains c (ys ++ z :: zs)).
Proof.
  intros Hr Hlt Ec Hd. pose proof (rep_nodup _ _ _ Hr c) as Hnd. rewrite Ec in Hnd.
  assert (z ∉ ys /\ z ∉ zs /\ NoDup (ys ++ z :: zs)) as (Hzy & Hzz & Hnd').
  { rewrite NoDup_app, !NoDup_cons in Hnd. rewrite NoDup_app, !NoDup_cons. set_solver. }
  eapply rep_change; try done.
  - intros p Hp. apply (rep_chain _ _ _ Hr) in Hp. rewrite Ec in Hp.
    change (ys ++ z :: data :: zs) with (ys ++ [z] ++ (data :: zs)) in Hp. rewrite (assoc_L (++)) in Hp.
    apply seg_app in Hp as (q & Hys & -> & q' & Hq' & Hzs).
    change (ys ++ z :: zs) with (ys ++ [z] ++ zs). rewrite (assoc_L (++)). apply seg_app. exists nxt.
    split; [by eapply seg_redirect|]. apply seg_insert; [done|]. congruence.
  - intros i y Hi Hy.
    assert (y ∉ ys ++ z :: data :: zs) as Hy'
      by (rewrite <- Ec; intros Hyc; by apply Hi, (rep_disjoint _ _ _ Hr i c y)).
    split; [set_solver|]. apply lookup_insert_ne. set_solver.
Qed.

Lemma HASH_DELETE_rep fold data t m chains xs ys :
  rep t m chains -> chains (cell_of fold t) = xs ++ data :: ys ->
  exists t' m', HASH_DELETE fold data t m = Ok (t', m') /\ rep t' m' (upd chains (cell_of fold t) (xs ++ ys)) /\
    n_cells t' = n_cells t /\ m' !! data = m !! data /\ same_outside chains data m m'.
Proof.
  intros Hr Ec. destruct (cell_node fold t m chains Hr) as (p & Hcell & Hseg).
  pose proof (cell_of_lt fold t (rep_cells _ _ _ Hr)) as Hlt. set (c := cell_of fold t) in *.
  pose proof (rep_nodup _ _ _ Hr c) as Hnd. rewrite Ec in Hseg, Hnd. unfold HASH_DELETE. rewrite Hcell.
  cbn [deref rbind]. destruct (seg_lookup m _ _ _ data Hseg) as [nxt Hd]; [set_solver|].
  destruct xs as [|x xs].
  - destruct Hseg as (-> & _). rewrite decide_True by done. rewrite Hd. cbn [deref rbind].
    eexists _, _. split; [done|]. split_and!; [by eapply delete_front| |done|by intros ?].
    unfold n_cells. simpl. by rewrite length_insert.
  - pose proof Hseg as [-> _]. destruct (exists_last (l := x :: xs)) as (zs & z & Ez); [done|].
    assert (data ∉ zs ++ [z]) as Hdn.
    { rewrite <- Ez. apply NoDup_app in Hnd as (_ & Hx & _). intros Hin. apply (Hx data Hin). by left. }
    rewrite Ez, <- (assoc_L (++)) in *. simpl in *.
    rewrite decide_False by (intros [= ->]; apply Hdn; rewrite <- Ez; by left).
    rewrite (struct_before_seg m data zs z ys); [|..|done].
    + cbn [rbind]. rewrite Hd. cbn [deref rbind]. eexists _, _. split; [done|].
      split_and!; [by eapply delete_behind|done|rewrite lookup_insert_ne; [done|set_solver]|].
      intros y Hy Hout. specialize (Hout c). rewrite Ec in Hout. apply lookup_insert_ne. set_solver.
    + pose proof (seg_fits _ _ _ _ Hseg Hnd) as Hf. rewrite length_app in Hf. simpl in Hf. lia.
    + by rewrite <- Ez.
    + done.
Qed.

(** The search visits the chain in order and stops at the first struct that
    passes the test. *)
Lemma search_loop_seg (test : nat -> res bool) (P : nat -> bool) m xs : forall fuel p,
  (length xs <= fuel)%nat -> seg m p xs None -> (forall x, x ∈ xs -> test x = Ok (P x)) ->
  search_loop test fuel m p = Ok (List.find P xs).
Proof.
  induction xs as [|x xs IH]; intros fuel p Hf; simpl; [by intros ->; destruct fuel|].
  intros (-> & q & Hq & Hs) Ht. simpl in Hf. destruct fuel as [|fuel]; [lia|]. simpl. rewrite Ht by left.
  simpl. destruct (P x); [done|]. rewrite Hq. cbn [deref rbind]. apply IH; [lia|done|].
  intros y Hy. apply Ht. by right.
Qed.

Lemma HASH_SEARCH_rep test P fold t m chains :
  rep t m chains -> (forall x, x ∈ chains (cell_of fold t) -> test x = Ok (P x)) ->
  HASH_SEARCH test fold t m = Ok (List.find P (chains (cell_of fold t))).
Proof.
  intros Hr Ht. destruct (cell_node fold t m chains Hr) as (p & Hcell & Hseg). unfold HASH_SEARCH.
  rewrite Hcell. cbn [deref rbind]. apply search_loop_seg; [|done|done].
  eapply seg_fits; [done|]. apply (rep_nodup _ _ _ Hr).
Qed.

Lemma hash_table_clear_rep t m : (0 < length (array t))%nat -> rep (hash_table_clear t) m (fun _ => []).
Proof.
  intros Hn. constructor; simpl; [by rewrite length_replicate| |intros; constructor|by intros ??? ?%elem_of_nil].
  intros i p [-> _]%lookup_replicate. done.
Qed.
End HashTable.
