(* ===== verification/MachData.v ===== *)
(** * Integers in database files (include/mach0data.ic, mach/mach0data.cc)

    The functions that store integers in the format of the data files: big-endian
    fields of a fixed width, compressed fields whose first byte tells their
    length, and the format of integer columns.  A buffer is a list of bytes and a
    pointer an offset into it; an access outside of the buffer stops the server,
    as does a failed [ut_ad] of the debug build.  The host is little-endian. *)
From S2P Require Import Prelude Results.
Local Open Scope Z_scope.

Module MachData.
Local Open Scope mc_scope.

Definition u8 (n : Z) : Z := wrap_u 8 n.

(** [b[i] = (byte) n] and [(ulint) b[i]]. *)
Definition put (b : list Z) (i : nat) (n : Z) : res (list Z) :=
  if decide (i < length b)%nat then Ok (<[i := u8 n]> b) else Fault.
Definition get (b : list Z) (i : nat) : res Z := deref (b !! i).

(** [ut_ad]: an assertion of the debug build. *)
Definition ut_ad (c : bool) : res unit := ut_a c.

(** ** Fields of a fixed width *)

Definition mach_write_to_1 (b : list Z) (p : nat) (n : Z) : res (list Z) :=
  let! _ := ut_ad (Z.lor n 0xFF <=? 0xFF) in
  put b p n.

Definition mach_read_from_1 (b : list Z) (p : nat) : res Z := get b p.

Definition mach_write_to_2 (b : list Z) (p : nat) (n : Z) : res (list Z) :=
  let! _ := ut_ad (Z.lor n 0xFFFF <=? 0xFFFF) in
  let! b := put b p (Z.shiftr n 8) in
  put b (p + 1) n.

Definition mach_read_from_2 (b : list Z) (p : nat) : res Z :=
  let! b0 := get b p in
  let! b1 := get b (p + 1) in
  Ok (Z.lor (Z.shiftl b0 8) b1).

Definition mach_write_to_3 (b : list Z) (p : nat) (n : Z) : res (list Z) :=
  let! _ := ut_ad (Z.lor n 0xFFFFFF <=? 0xFFFFFF) in
  let! b := put b p (Z.shiftr n 16) in
  let! b := put b (p + 1) (Z.shiftr n 8) in
  put b (p + 2) n.

Definition mach_read_from_3 (b : list Z) (p : nat) : res Z :=
  let! b0 := get b p in
  let! b1 := get b (p + 1) in
  let! b2 := get b (p + 2) in
  Ok (Z.lor (Z.lor (Z.shiftl b0 16) (Z.shiftl b1 8)) b2).

Definition mach_write_to_4 (b : list Z) (p : nat) (n : Z) : res (list Z) :=
  let! b := put b p (Z.shiftr n 24) in
  let! b := put b (p + 1) (Z.shiftr n 16) in
  let! b := put b (p + 2) (Z.shiftr n 8) in
  put b (p + 3) n.

Definition mach_read_from_4 (b : list Z) (p : nat) : res Z :=
  let! b0 := get b p in
  let! b1 := get b (p + 1) in
  let! b2 := get b (p + 2) in
  let! b3 := get b (p + 3) in
  Ok (Z.lor (Z.lor (Z.lor (Z.shiftl b0 24) (Z.shiftl b1 16)) (Z.shiftl b2 8)) b3).

(** [ut_ull_create] of ut0byte.ic. *)
Definition ut_ull_create (high low : Z) : res Z :=
  let! _ := ut_ad (high <=? 0xFFFFFFFF) in
  let! _ := ut_ad (low <=? 0xFFFFFFFF) in
  Ok (Z.lor (u64 (Z.shiftl high 32)) low).

Definition mach_write_to_8 (b : list Z) (p : nat) (n : Z) : res (list Z) :=
  let! b := mach_write_to_4 b p (Z.shiftr n 32) in
  mach_write_to_4 b (p + 4) n.

Definition mach_read_from_8 (b : list Z) (p : nat) : res Z :=
  let! h := mach_read_from_4 b p in
  let ull := u64 (Z.shiftl h 32) in
  let! l := mach_read_from_4 b (p + 4) in
  Ok (Z.lor ull l).

Definition mach_write_to_7 (b : list Z) (p : nat) (n : Z) : res (list Z) :=
  let! b := mach_write_to_3 b p (Z.shiftr n 32) in
  mach_write_to_4 b (p + 3) n.

Definition mach_read_from_7 (b : list Z) (p : nat) : res Z :=
  let! h := mach_read_from_3 b p in
  let! l := mach_read_from_4 b (p + 3) in
  ut_ull_create h l.

Definition mach_write_to_6 (b : list Z) (p : nat) (n : Z) : res (list Z) :=
  let! b := mach_write_to_2 b p (Z.shiftr n 32) in
  mach_write_to_4 b (p + 2) n.

Definition mach_read_from_6 (b : list Z) (p : nat) : res Z :=
  let! h := mach_read_from_2 b p in
  let! l := mach_read_from_4 b (p + 2) in
  ut_ull_create h l.

(** [mach_read_ulint]: [ut_error] for other types. *)
Definition mach_read_ulint (b : list Z) (p : nat) (type : Z) : res Z :=
  if type =? 1 then mach_read_from_1 b p
  else if type =? 2 then mach_read_from_2 b p
  else if type =? 4 then mach_read_from_4 b p
  else Fault.

(** ** Compressed fields *)

Definition mach_write_compressed (b : list Z) (p : nat) (n : Z) : res (list Z * nat) :=
  if n <? 0x80 then let! b := mach_write_to_1 b p n in Ok (b, 1%nat)
  else if n <? 0x4000 then let! b := mach_write_to_2 b p (Z.lor n 0x8000) in Ok (b, 2%nat)
  else if n <? 0x200000 then let! b := mach_write_to_3 b p (Z.lor n 0xC00000) in Ok (b, 3%nat)
  else if n <? 0x10000000 then let! b := mach_write_to_4 b p (Z.lor n 0xE0000000) in Ok (b, 4%nat)
  else
    let! b := mach_write_to_1 b p 0xF0 in
    let! b := mach_write_to_4 b (p + 1) n in
    Ok (b, 5%nat).

Definition mach_get_compressed_size (n : Z) : nat :=
  if n <? 0x80 then 1
  else if n <? 0x4000 then 2
  else if n <? 0x200000 then 3
  else if n <? 0x10000000 then 4
  else 5.

Definition mach_read_compressed (b : list Z) (p : nat) : res Z :=
  let! flag := mach_read_from_1 b p in
  if flag <? 0x80 then Ok flag
  else if flag <? 0xC0 then let! n := mach_read_from_2 b p in Ok (Z.land n 0x7FFF)
  else if flag <? 0xE0 then let! n := mach_read_from_3 b p in Ok (Z.land n 0x3FFFFF)
  else if flag <? 0xF0 then let! n := mach_read_from_4 b p in Ok (Z.land n 0x1FFFFFFF)
  else
    let! _ := ut_ad (flag =? 0xF0) in
    mach_read_from_4 b (p + 1).

(** The pointer to the end of the field, or [None] for NULL, and [*val]. *)
Definition mach_parse_compressed (b : list Z) (ptr end_ptr : nat) (val : Z) : res (option nat * Z) :=
  if decide (end_ptr <= ptr)%nat then Ok (None, val)
  else
    let! flag := mach_read_from_1 b ptr in
    if flag <? 0x80 then Ok (Some (ptr + 1)%nat, flag)
    else if flag <? 0xC0 then
      if decide (end_ptr < ptr + 2)%nat then Ok (None, val)
      else let! n := mach_read_from_2 b ptr in Ok (Some (ptr + 2)%nat, Z.land n 0x7FFF)
    else if flag <? 0xE0 then
      if decide (end_ptr < ptr + 3)%nat then Ok (None, val)
      else let! n := mach_read_from_3 b ptr in Ok (Some (ptr + 3)%nat, Z.land n 0x3FFFFF)
    else if flag <? 0xF0 then
      if decide (end_ptr < ptr + 4)%nat then Ok (None, val)
      else let! n := mach_read_from_4 b ptr in Ok (Some (ptr + 4)%nat, Z.land n 0x1FFFFFFF)
    else
      let! _ := ut_ad (flag =? 0xF0) in
      if decide (end_ptr < ptr + 5)%nat then Ok (None, val)
      else let! n := mach_read_from_4 b (ptr + 1) in Ok (Some (ptr + 5)%nat, n).

Definition mach_ull_write_compressed (b : list Z) (p : nat) (n : Z) : res (list Z * nat) :=
  let! (b, size) := mach_write_compressed b p (Z.shiftr n 32) in
  let! b := mach_write_to_4 b (p + size) n in
  Ok (b, (size + 4)%nat).

Definition mach_ull_get_compressed_size (n : Z) : nat := 4 + mach_get_compressed_size (Z.shiftr n 32).

Definition mach_ull_read_compressed (b : list Z) (p : nat) : res Z :=
  let! n := mach_read_compressed b p in
  let size := mach_get_compressed_size n in
  let n := u64 (Z.shiftl n 32) in
  let! l := mach_read_from_4 b (p + size) in
  Ok (Z.lor n l).

Definition mach_ull_write_much_compressed (b : list Z) (p : nat) (n : Z) : res (list Z * nat) :=
  if Z.shiftr n 32 =? 0 then mach_write_compressed b p n
  else
    let! b := put b p 0xFF in
    let! (b, s1) := mach_write_compressed b (p + 1) (Z.shiftr n 32) in
    let size := (1 + s1)%nat in
    let! (b, s2) := mach_write_compressed b (p + size) (Z.land n 0xFFFFFFFF) in
    Ok (b, (size + s2)%nat).

Definition mach_ull_get_much_compressed_size (n : Z) : nat :=
  if Z.shiftr n 32 =? 0 then mach_get_compressed_size n
  else 1 + mach_get_compressed_size (Z.shiftr n 32) + mach_get_compressed_size (Z.land n 0xFFFFFFFF).

Definition mach_ull_read_much_compressed (b : list Z) (p : nat) : res Z :=
  let! b0 := get b p in
  let! (n, size) :=
    (if negb (b0 =? 0xFF) then Ok (0, 0%nat)
     else
       let! n := mach_read_compressed b (p + 1) in
       Ok (u64 (Z.shiftl n 32), (1 + mach_get_compressed_size n)%nat)) in
  let! l := mach_read_compressed b (p + size) in
  Ok (Z.lor n l).

Definition mach_ull_parse_compressed (b : list Z) (ptr end_ptr : nat) (val : Z) : res (option nat * Z) :=
  if decide (end_ptr < ptr + 5)%nat then Ok (None, val)
  else
    let! val := mach_read_compressed b ptr in
    let ptr := (ptr + mach_get_compressed_size val)%nat in
    if decide (end_ptr < ptr + 4)%nat then Ok (None, val)
    else
      let! l := mach_read_from_4 b ptr in
      Ok (Some (ptr + 4)%nat, Z.lor (u64 (Z.shiftl val 32)) l).

(** ** Objects of the host

    The bytes of an object of an integer type, the lowest first, and the value
    of such bytes. *)
Fixpoint host_bytes (k : nat) (n : Z) : list Z :=
  match k with O => [] | S k => u8 n :: host_bytes k (Z.shiftr n 8) end.
Fixpoint host_value (bs : list Z) : Z :=
  match bs with [] => 0 | v :: bs => v + 256 * host_value bs end.

Definition mach_encode_2 (n : Z) : res Z :=
  let! ret := mach_write_to_2 [0; 0] 0 n in
  Ok (host_value ret).

Definition mach_decode_2 (n : Z) : res Z := mach_read_from_2 (host_bytes 2 n) 0.

(** A double or a float is represented by its bytes. *)
Fixpoint read_bytes (b : list Z) (p k : nat) : res (list Z) :=
  match k with
  | O => Ok []
  | S k => let! v := get b p in let! d := read_bytes b (p + 1) k in Ok (v :: d)
  end.
Fixpoint write_bytes (b : list Z) (p : nat) (d : list Z) : res (list Z) :=
  match d with
  | [] => Ok b
  | v :: d => let! b := put b p v in write_bytes b (p + 1) d
  end.

Definition mach_double_read (b : list Z) (p : nat) : res (list Z) := read_bytes b p 8.
Definition mach_double_write (b : list Z) (p : nat) (d : list Z) : res (list Z) := write_bytes b p d.
Definition mach_float_read (b : list Z) (p : nat) : res (list Z) := read_bytes b p 4.
Definition mach_float_write (b : list Z) (p : nat) (d : list Z) : res (list Z) := write_bytes b p d.

(** ** Little-endian fields *)

(** The loop of [mach_read_from_n_little_endian]: [ptr] is [buf + k]. *)
Fixpoint read_n_loop (b : list Z) (buf k : nat) (n : Z) : res Z :=
  match k with
  | O => Ok n
  | S k => let! v := get b (buf + k) in read_n_loop b buf k (u64 (u64 (Z.shiftl n 8) + v))
  end.

Definition mach_read_from_n_little_endian (b : list Z) (buf buf_size : nat) : res Z :=
  let! _ := ut_ad (0 <? buf_size)%nat in
  read_n_loop b buf buf_size 0.

Fixpoint write_n_loop (b : list Z) (dest k : nat) (n : Z) : res (list Z * Z) :=
  match k with
  | O => Ok (b, n)
  | S k => let! b := put b dest (Z.land n 0xFF) in write_n_loop b (dest + 1) k (Z.shiftr n 8)
  end.

Definition mach_write_to_n_little_endian (b : list Z) (dest dest_size : nat) (n : Z) : res (list Z) :=
  let! _ := ut_ad (dest_size <=? 8)%nat in
  let! _ := ut_ad (0 <? dest_size)%nat in
  let! (b, n) := write_n_loop b dest dest_size n in
  let! _ := ut_ad (n =? 0) in
  Ok b.

Definition mach_read_from_2_little_endian (b : list Z) (buf : nat) : res Z :=
  let! b0 := get b buf in
  let! b1 := get b (buf + 1) in
  Ok (Z.lor b0 (Z.shiftl b1 8)).

Definition mach_write_to_2_little_endian (b : list Z) (dest : nat) (n : Z) : res (list Z) :=
  let! _ := ut_ad (n <? 256 * 256) in
  let! b := put b dest (Z.land n 0xFF) in
  let n := Z.shiftr n 8 in
  put b (dest + 1) (Z.land n 0xFF).

(** ** Integer columns *)

(** The loop of [mach_read_int_type] over the remaining [k] bytes. *)
Fixpoint read_rest (b : list Z) (p k : nat) (ret : Z) : res Z :=
  match k with
  | O => Ok ret
  | S k => let! v := get b p in read_rest b (p + 1) k (Z.lor (u64 (Z.shiftl ret 8)) v)
  end.

Definition mach_read_int_type (b : list Z) (src len : nat) (unsigned_type : bool) : res Z :=
  let! b0 := get b src in
  let ret := if unsigned_type || negb (Z.land b0 0x80 =? 0) then 0 else 0xFFFFFFFFFFFFFF00 in
  let ret := if unsigned_type then Z.lor ret b0 else Z.lor ret (Z.lxor b0 0x80) in
  read_rest b (src + 1) (len - 1) ret.

(** The cases of the switch fall through: [*--dest = *from++], [k] times. *)
Fixpoint swap_loop (b : list Z) (dest : nat) (src : list Z) (from k : nat) : res (list Z) :=
  match k with
  | O => Ok b
  | S k =>
    let! v := get src from in
    let! b := put b (dest - 1) v in
    swap_loop b (dest - 1) src (from + 1) k
  end.

Definition mach_swap_byte_order (b : list Z) (dest : nat) (src : list Z) (from len : nat) : res (list Z) :=
  let! _ := ut_ad (0 <? len)%nat in
  let! _ := ut_ad (len <=? 8)%nat in
  let case := Nat.land len 7 in
  swap_loop b (dest + len) src from (if (case =? 0)%nat then 8 else case).

(** [*dest ^= 0x80] *)
Definition flip_sign (b : list Z) (dest : nat) : res (list Z) :=
  let! v := get b dest in put b dest (Z.lxor v 0x80).

Definition mach_write_int_type (b : list Z) (dest : nat) (src : list Z) (from len : nat) (usign : bool) : res (list Z) :=
  let! b := mach_swap_byte_order b dest src from len in
  if usign then Ok b else flip_sign b dest.

Definition mach_write_ulonglong (b : list Z) (dest : nat) (src : Z) (len : nat) (usign : bool) : res (list Z) :=
  let! _ := ut_ad (len <=? 8)%nat in
  let! b := mach_swap_byte_order b dest (host_bytes 8 src) 0 len in
  if usign then Ok b else flip_sign b dest.

(** ** Bytes and their values *)

Definition is_byte (v : Z) : Prop := 0 <= v < 256.

(** The [k] low bytes of [n], the highest first, and the value of such bytes. *)
Fixpoint be (k : nat) (n : Z) : list Z :=
  match k with O => [] | S k => u8 (Z.shiftr n (8 * Z.of_nat k)) :: be k n end.
Fixpoint bval (bs : list Z) : Z :=
  match bs with [] => 0 | v :: bs => v * 2 ^ (8 * Z.of_nat (length bs)) + bval bs end.

(** The bytes [bs] are in the buffer at [p]. *)
Definition has (b : list Z) (p : nat) (bs : list Z) : Prop :=
  forall i v, bs !! i = Some v -> b !! (p + i)%nat = Some v.

Lemma u8_byte n : is_byte (u8 n).
Proof. unfold is_byte, u8. pose proof (wrap_u_range 8 n). lia. Qed.

Lemma u8_small n : is_byte n -> u8 n = n.
Proof. intros H. apply wrap_u_small. exact H. Qed.

Lemma be_length k n : length (be k n) = k.
Proof. induction k; simpl; auto. Qed.

Lemma be_bytes k n : Forall is_byte (be k n).
Proof. induction k; simpl; constructor; auto using u8_byte. Qed.

Lemma bval_range bs : Forall is_byte bs -> 0 <= bval bs < 2 ^ (8 * Z.of_nat (length bs)).
Proof.
  induction 1 as [|v bs Hv _ IH]; [simpl; lia|]. cbn [bval length]. rewrite Nat2Z.inj_succ.
  replace (8 * Z.succ (Z.of_nat (length bs))) with (8 * Z.of_nat (length bs) + 8) by lia.
  rewrite Z.pow_add_r by lia. unfold is_byte in Hv. nia.
Qed.

Lemma bval_be k n : bval (be k n) = n mod 2 ^ (8 * Z.of_nat k).
Proof.
  induction k as [|k IH]; [simpl; by rewrite Z.mod_1_r|]. cbn [be bval]. rewrite be_length, IH.
  unfold u8, wrap_u. rewrite Z.shiftr_div_pow2 by lia.
  replace (8 * Z.of_nat (S k)) with (8 * Z.of_nat k + 8) by lia. rewrite (Z.pow_add_r 2) by lia.
  rewrite Z.rem_mul_r; [lia| |]; [apply Z.pow_nonzero; lia|]. done.
Qed.

Lemma bval_be_small k n : 0 <= n < 2 ^ (8 * Z.of_nat k) -> bval (be k n) = n.
Proof. intros H. rewrite bval_be. by apply Z.mod_small. Qed.

Lemma bval_app x y : bval (x ++ y) = bval x * 2 ^ (8 * Z.of_nat (length y)) + bval y.
Proof.
  induction x as [|v x IH]; [done|]. cbn [bval app]. rewrite IH, length_app.
  replace (8 * Z.of_nat (length x + length y)) with (8 * Z.of_nat (length x) + 8 * Z.of_nat (length y)) by lia.
  rewrite Z.pow_add_r by lia. ring.
Qed.

(** The value of a shift and an or of disjoint parts. *)
Lemma lor_shiftl a v n : 0 <= n -> 0 <= v < 2 ^ n -> Z.lor (Z.shiftl a n) v = a * 2 ^ n + v.
Proof.
  intros Hn Hv. rewrite <- (Z.shiftl_mul_pow2 a n) by lia. symmetry. apply Z.add_nocarry_lor.
  apply Z.bits_inj'. intros i Hi. rewrite Z.land_spec, Z.bits_0.
  destruct (decide (i < n)) as [Hlt|Hge].
  - by rewrite Z.shiftl_spec_low.
  - rewrite andb_comm. rewrite <- (Z.mod_small v (2 ^ n)) by lia. by rewrite Z.mod_pow2_bits_high by lia.
Qed.

Lemma lor_high c a n m : m = c * 2 ^ n -> 0 <= n -> 0 <= a < 2 ^ n -> Z.lor a m = c * 2 ^ n + a.
Proof. intros -> Hn Ha. rewrite Z.lor_comm, <- Z.shiftl_mul_pow2 by lia. rewrite lor_shiftl by lia. by rewrite Z.shiftl_mul_pow2. Qed.

(** ** The buffer *)

Lemma put_ok b p n : (p < length b)%nat -> put b p n = Ok (<[p := u8 n]> b).
Proof. intros H. unfold put. by rewrite decide_True. Qed.

Lemma inserts_cons p v bs (b : list Z) : list_inserts p (v :: bs) b = list_inserts (p + 1) bs (<[p := v]> b).
Proof. cbn. rewrite list_insert_inserts_lt by lia. f_equal. lia. Qed.

Lemma inserts_app p x y (b : list Z) : list_inserts p (x ++ y) b = list_inserts (p + length x) y (list_inserts p x b).
Proof.
  revert p b. induction x as [|v x IH]; intros p b; [f_equal; simpl; lia|].
  rewrite <- app_comm_cons, !inserts_cons, IH. f_equal. simpl. lia.
Qed.

Lemma inserts_has p bs (b : list Z) : (p + length bs <= length b)%nat -> has (list_inserts p bs b) p bs.
Proof.
  intros H i v Hi. pose proof (lookup_lt_Some _ _ _ Hi). rewrite list_lookup_inserts by lia.
  by replace (p + i - p)%nat with i by lia.
Qed.

Lemma has_app b p x y : has b p (x ++ y) <-> has b p x /\ has b (p + length x) y.
Proof.
  split.
  - intros H. split; intros i v Hi.
    + apply H. by apply lookup_app_l_Some.
    + rewrite <- Nat.add_assoc. apply H. rewrite lookup_app_r by lia. by replace (length x + i - length x)%nat with i by lia.
  - intros [H1 H2] i v [Hi|[Hl Hi]]%lookup_app_Some; [by apply H1|].
    specialize (H2 _ _ Hi). by replace (p + i)%nat with (p + length x + (i - length x))%nat by lia.
Qed.

Lemma has_cons b p v bs : has b p (v :: bs) <-> b !! p = Some v /\ has b (p + 1) bs.
Proof.
  change (v :: bs) with ([v] ++ bs). rewrite has_app. split; intros [H1 H2]; (split; [|done]).
  - rewrite <- (Nat.add_0_r p). by apply H1.
  - intros [|i] w Hi; [|done]. rewrite Nat.add_0_r. by injection Hi as <-.
Qed.

Lemma has_length b p bs : has b p bs -> bs <> [] -> (p + length bs <= length b)%nat.
Proof.
  intros H Hne. destruct (lookup_lt_is_Some_2 bs (length bs - 1)) as [v Hv]; [destruct bs; simpl; [done|lia]|].
  apply H, lookup_lt_Some in Hv. destruct bs; [done|]. simpl in *. lia.
Qed.

Lemma get_first b p v bs : has b p (v :: bs) -> get b p = Ok v.
Proof. intros [H _]%has_cons. unfold get. by rewrite H. Qed.

(** Evaluate the accesses of a field whose bytes are known. *)
Ltac reads H := rewrite !has_cons in H; decompose [and] H; clear H; unfold mach_read_from_1, get in *;
  repeat (match goal with E : ?b !! ?p = Some _ |- context [?b !! ?q] =>
    replace q with p by lia; rewrite E; cbn [deref rbind] end).

Ltac writes := repeat (rewrite put_ok by (rewrite ?length_insert; simpl in *; lia); cbn [rbind]);
  cbn [be]; rewrite !inserts_cons, ?Z.shiftr_0_r; do 2 f_equal; rewrite <- ?Nat.add_assoc; reflexivity.

Lemma ut_ad_width n k m : m = Z.ones k -> 0 <= k -> 0 <= n < 2 ^ k -> ut_ad (Z.lor n m <=? m) = Ok tt.
Proof.
  intros -> Hk Hn. unfold ut_ad, ut_a. rewrite (proj2 (Z.leb_le _ _)); [done|].
  destruct (decide (n = 0)) as [->|]; [by rewrite Z.lor_0_l|].
  rewrite Z.lor_ones_low; [lia..|]. apply Z.log2_lt_pow2; lia.
Qed.

Lemma write_1 b p n : (p + 1 <= length b)%nat -> 0 <= n < 2 ^ 8 -> mach_write_to_1 b p n = Ok (list_inserts p (be 1 n) b).
Proof. intros Hl Hn. unfold mach_write_to_1. rewrite (ut_ad_width n 8) by (done || lia). cbn [rbind]. writes. Qed.

Lemma write_2 b p n : (p + 2 <= length b)%nat -> 0 <= n < 2 ^ 16 -> mach_write_to_2 b p n = Ok (list_inserts p (be 2 n) b).
Proof. intros Hl Hn. unfold mach_write_to_2. rewrite (ut_ad_width n 16) by (done || lia). cbn [rbind]. writes. Qed.

Lemma write_3 b p n : (p + 3 <= length b)%nat -> 0 <= n < 2 ^ 24 -> mach_write_to_3 b p n = Ok (list_inserts p (be 3 n) b).
Proof. intros Hl Hn. unfold mach_write_to_3. rewrite (ut_ad_width n 24) by (done || lia). cbn [rbind]. writes. Qed.

Lemma write_4 b p n : (p + 4 <= length b)%nat -> mach_write_to_4 b p n = Ok (list_inserts p (be 4 n) b).
Proof. intros Hl. unfold mach_write_to_4. writes. Qed.

Lemma read_2 b p bs : has b p bs -> length bs = 2%nat -> Forall is_byte bs -> mach_read_from_2 b p = Ok (bval bs).
Proof.
  intros H Hl Hb. destruct bs as [|x [|y [|]]]; try done. inversion_clear Hb as [|? ? Hx Hy]. inversion_clear Hy as [|? ? Hy' _].
  unfold mach_read_from_2. reads H. unfold is_byte in *. rewrite lor_shiftl by lia. f_equal. cbn. lia.
Qed.

Lemma read_3 b p bs : has b p bs -> length bs = 3%nat -> Forall is_byte bs -> mach_read_from_3 b p = Ok (bval bs).
Proof.
  intros H Hl Hb. destruct bs as [|x [|y [|z [|]]]]; try done. rewrite !Forall_cons in Hb. destruct Hb as (Hx & Hy & Hz & _).
  unfold mach_read_from_3. reads H. unfold is_byte in *. rewrite <- Z.lor_assoc, (lor_shiftl y) by lia.
  rewrite lor_shiftl by lia. f_equal. cbn. lia.
Qed.

Lemma read_4 b p bs : has b p bs -> length bs = 4%nat -> Forall is_byte bs -> mach_read_from_4 b p = Ok (bval bs).
Proof.
  intros H Hl Hb. destruct bs as [|x [|y [|z [|w [|]]]]]; try done. rewrite !Forall_cons in Hb. destruct Hb as (Hx & Hy & Hz & Hw & _).
  unfold mach_read_from_4. reads H. unfold is_byte in *. rewrite <- !Z.lor_assoc, (lor_shiftl z) by lia.
  rewrite (lor_shiftl y) by lia. rewrite lor_shiftl by lia. f_equal. cbn. lia.
Qed.

(** ** Wide fields *)

Lemma be_app j k n : be (j + k) n = be j (Z.shiftr n (8 * Z.of_nat k)) ++ be k n.
Proof.
  induction j as [|j IH]; [done|]. cbn [be Nat.add app]. rewrite IH. do 2 f_equal.
  rewrite Z.shiftr_shiftr by lia. f_equal. lia.
Qed.

Lemma write_8 b p n : (p + 8 <= length b)%nat -> mach_write_to_8 b p n = Ok (list_inserts p (be 8 n) b).
Proof.
  intros Hl. unfold mach_write_to_8. rewrite write_4 by lia. cbn [rbind]. rewrite write_4 by (rewrite length_inserts; lia).
  by rewrite (be_app 4 4), inserts_app.
Qed.

Lemma shiftr_range n k w : 0 <= k -> 0 <= w -> 0 <= n < 2 ^ (w + k) -> 0 <= Z.shiftr n k < 2 ^ w.
Proof.
  intros Hk Hw Hn. rewrite Z.shiftr_div_pow2 by lia. rewrite Z.pow_add_r in Hn by lia.
  split; [apply Z.div_pos; lia|]. apply Z.div_lt_upper_bound; lia.
Qed.

Lemma write_7 b p n :
  (p + 7 <= length b)%nat -> 0 <= n < 2 ^ 56 -> mach_write_to_7 b p n = Ok (list_inserts p (be 7 n) b).
Proof.
  intros Hl Hn. unfold mach_write_to_7. rewrite write_3; [|lia|apply shiftr_range; lia]. cbn [rbind].
  rewrite write_4 by (rewrite length_inserts; lia). by rewrite (be_app 3 4), inserts_app.
Qed.

Lemma write_6 b p n :
  (p + 6 <= length b)%nat -> 0 <= n < 2 ^ 48 -> mach_write_to_6 b p n = Ok (list_inserts p (be 6 n) b).
Proof.
  intros Hl Hn. unfold mach_write_to_6. rewrite write_2; [|lia|apply shiftr_range; lia]. cbn [rbind].
  rewrite write_4 by (rewrite length_inserts; lia). by rewrite (be_app 2 4), inserts_app.
Qed.

(** Two halves of a 64-bit integer. *)
Lemma join_halves h l : 0 <= h < 2 ^ 32 -> 0 <= l < 2 ^ 32 -> Z.lor (u64 (Z.shiftl h 32)) l = h * 2 ^ 32 + l.
Proof. intros Hh Hl. rewrite u64_small by (rewrite Z.shiftl_mul_pow2; lia). apply lor_shiftl; lia. Qed.

Lemma ull_create_ok h l : 0 <= h < 2 ^ 32 -> 0 <= l < 2 ^ 32 -> ut_ull_create h l = Ok (h * 2 ^ 32 + l).
Proof.
  intros Hh Hl. unfold ut_ull_create, ut_ad. rewrite !(proj2 (Z.leb_le _ _)) by lia. cbn [ut_a rbind]. by rewrite join_halves.
Qed.

Lemma be_range k n : 0 <= bval (be k n) < 2 ^ (8 * Z.of_nat k).
Proof. pose proof (bval_range _ (be_bytes k n)) as H. by rewrite be_length in H. Qed.

Lemma bval_be_app j k n :
  bval (be j (Z.shiftr n (8 * Z.of_nat k))) * 2 ^ (8 * Z.of_nat k) + bval (be k n) = bval (be (j + k) n).
Proof. rewrite be_app, bval_app. by rewrite be_length. Qed.

Lemma read_8 b p n : has b p (be 8 n) -> mach_read_from_8 b p = Ok (n mod 2 ^ 64).
Proof.
  rewrite (be_app 4 4), has_app, be_length. intros [H1 H2]. unfold mach_read_from_8.
  rewrite (read_4 _ _ _ H1 (be_length _ _) (be_bytes _ _)). cbn [rbind].
  rewrite (read_4 _ _ _ H2 (be_length _ _) (be_bytes _ _)). cbn [rbind].
  rewrite join_halves by apply be_range. f_equal. rewrite <- (bval_be 8). apply (bval_be_app 4 4).
Qed.

Lemma read_7 b p n : has b p (be 7 n) -> mach_read_from_7 b p = Ok (n mod 2 ^ 56).
Proof.
  rewrite (be_app 3 4), has_app, be_length. intros [H1 H2]. unfold mach_read_from_7.
  rewrite (read_3 _ _ _ H1 (be_length _ _) (be_bytes _ _)). cbn [rbind].
  rewrite (read_4 _ _ _ H2 (be_length _ _) (be_bytes _ _)). cbn [rbind].
  pose proof (be_range 3 (Z.shiftr n (8 * Z.of_nat 4))) as Hr. change (8 * Z.of_nat 3) with 24 in Hr. rewrite ull_create_ok; [|lia|apply (be_range 4)].
  f_equal. rewrite <- (bval_be 7). apply (bval_be_app 3 4).
Qed.

Lemma read_6 b p n : has b p (be 6 n) -> mach_read_from_6 b p = Ok (n mod 2 ^ 48).
Proof.
  rewrite (be_app 2 4), has_app, be_length. intros [H1 H2]. unfold mach_read_from_6.
  rewrite (read_2 _ _ _ H1 (be_length _ _) (be_bytes _ _)). cbn [rbind].
  rewrite (read_4 _ _ _ H2 (be_length _ _) (be_bytes _ _)). cbn [rbind].
  pose proof (be_range 2 (Z.shiftr n (8 * Z.of_nat 4))) as Hr. change (8 * Z.of_nat 2) with 16 in Hr. rewrite ull_create_ok; [|lia|apply (be_range 4)].
  f_equal. rewrite <- (bval_be 6). apply (bval_be_app 2 4).
Qed.

(** ** Compressed fields *)

(** The bytes of a compressed field. *)
Definition compressed (n : Z) : list Z :=
  if n <? 0x80 then be 1 n
  else if n <? 0x4000 then be 2 (2 * 2 ^ 14 + n)
  else if n <? 0x200000 then be 3 (6 * 2 ^ 21 + n)
  else if n <? 0x10000000 then be 4 (14 * 2 ^ 28 + n)
  else 0xF0 :: be 4 n.

Lemma compressed_length n : length (compressed n) = mach_get_compressed_size n.
Proof. unfold compressed, mach_get_compressed_size. repeat split_guard; by rewrite ?be_length. Qed.

Lemma compressed_size_range n : (1 <= mach_get_compressed_size n <= 5)%nat.
Proof. unfold mach_get_compressed_size. repeat split_guard; lia. Qed.

Lemma write_compressed_ok b p n :
  0 <= n < 2 ^ 32 -> (p + mach_get_compressed_size n <= length b)%nat ->
  mach_write_compressed b p n = Ok (list_inserts p (compressed n) b, mach_get_compressed_size n).
Proof.
  intros Hn Hl. unfold mach_write_compressed, compressed, mach_get_compressed_size in *. repeat split_guard.
  - by rewrite write_1 by lia.
  - rewrite (lor_high 2 n 14) by (done || lia). by rewrite write_2 by lia.
  - rewrite (lor_high 6 n 21) by (done || lia). by rewrite write_3 by lia.
  - rewrite (lor_high 14 n 28) by (done || lia). by rewrite write_4 by lia.
  - rewrite write_1 by lia. cbn [rbind]. rewrite write_4 by (rewrite length_inserts; lia). cbn [rbind].
    change (be 1 0xF0) with [0xF0]. by rewrite <- (inserts_app p [0xF0]).
Qed.

(** The first byte of a big-endian field. *)
Lemma be_first k n : be (S k) n = u8 (Z.shiftr n (8 * Z.of_nat k)) :: be k n.
Proof. done. Qed.

Lemma first_range k n lo hi :
  0 <= lo -> hi <= 256 -> lo * 2 ^ (8 * Z.of_nat k) <= n < hi * 2 ^ (8 * Z.of_nat k) ->
  lo <= u8 (Z.shiftr n (8 * Z.of_nat k)) < hi.
Proof.
  intros Hlo Hhi Hn. rewrite Z.shiftr_div_pow2 by lia. pose proof (Z.pow_pos_nonneg 2 (8 * Z.of_nat k)).
  assert (lo <= n / 2 ^ (8 * Z.of_nat k) < hi).
  { split; [apply Z.div_le_lower_bound; lia|apply Z.div_lt_upper_bound; lia]. }
  rewrite u8_small; [done|]. unfold is_byte. lia.
Qed.

Lemma mask_off c n k : 0 <= k -> 0 <= n < 2 ^ k -> (c * 2 ^ k + n) mod 2 ^ k = n.
Proof. intros Hk Hn. rewrite Z.add_comm, Z.mod_add by lia. by apply Z.mod_small. Qed.

(** The forms of a compressed field, by its first byte. *)
Inductive field_form (n : Z) : list Z -> Prop :=
| Field1 : 0 <= n < 0x80 -> field_form n [n]
| Field2 v bs : 0x80 <= v < 0xC0 -> length bs = 1%nat -> Forall is_byte (v :: bs) ->
    Z.land (bval (v :: bs)) 0x7FFF = n -> field_form n (v :: bs)
| Field3 v bs : 0xC0 <= v < 0xE0 -> length bs = 2%nat -> Forall is_byte (v :: bs) ->
    Z.land (bval (v :: bs)) 0x3FFFFF = n -> field_form n (v :: bs)
| Field4 v bs : 0xE0 <= v < 0xF0 -> length bs = 3%nat -> Forall is_byte (v :: bs) ->
    Z.land (bval (v :: bs)) 0x1FFFFFFF = n -> field_form n (v :: bs)
| Field5 : 0 <= n < 2 ^ 32 -> field_form n (0xF0 :: be 4 n).

Lemma masked k w c n m :
  m = Z.ones w -> 0 <= w -> w <= 8 * Z.of_nat k -> 0 <= n < 2 ^ w -> 0 <= c -> (c + 1) * 2 ^ w <= 2 ^ (8 * Z.of_nat k) ->
  Z.land (bval (be k (c * 2 ^ w + n))) m = n.
Proof.
  intros -> Hw Hk Hn Hc Hle. rewrite bval_be_small by nia. rewrite Z.land_ones by lia. by apply mask_off.
Qed.

Lemma compressed_form n : 0 <= n < 2 ^ 32 -> field_form n (compressed n).
Proof.
  intros Hn. unfold compressed. repeat split_guard.
  - change (be 1 n) with [u8 n]. rewrite u8_small by (unfold is_byte; lia). apply Field1. lia.
  - apply Field2; [apply (first_range 1); simpl; lia|done|apply (be_bytes 2)|].
    change 0x7FFF with (Z.ones 15). change (2 * 2 ^ 14) with (1 * 2 ^ 15). apply (masked 2 15); [reflexivity|lia|lia|lia|lia|by vm_compute].
  - apply Field3; [apply (first_range 2); simpl; lia|done|apply (be_bytes 3)|].
    change (6 * 2 ^ 21) with (3 * 2 ^ 22). apply (masked 3 22); [reflexivity|lia|lia|lia|lia|by vm_compute].
  - apply Field4; [apply (first_range 3); simpl; lia|done|apply (be_bytes 4)|].
    change (14 * 2 ^ 28) with (7 * 2 ^ 29). apply (masked 4 29); [reflexivity|lia|lia|lia|lia|by vm_compute].
  - by apply Field5.
Qed.

(** Decide the test of the flag byte of a form. *)
Ltac flags := repeat first
  [ rewrite (proj2 (Z.ltb_lt _ _)) by lia | rewrite (proj2 (Z.ltb_ge _ _)) by lia ]; cbn [rbind].

Lemma read_form b p n bs : has b p bs -> field_form n bs -> mach_read_compressed b p = Ok n.
Proof.
  intros H Hf. unfold mach_read_compressed, mach_read_from_1.
  destruct Hf as [Hn|v bs Hv Hl Hb Hm|v bs Hv Hl Hb Hm|v bs Hv Hl Hb Hm|Hn]; rewrite (get_first _ _ _ _ H); cbn [rbind]; flags.
  - done.
  - rewrite (read_2 _ _ _ H); [|cbn [length]; by rewrite Hl|done]. cbn [rbind]. by rewrite Hm.
  - rewrite (read_3 _ _ _ H); [|cbn [length]; by rewrite Hl|done]. cbn [rbind]. by rewrite Hm.
  - rewrite (read_4 _ _ _ H); [|cbn [length]; by rewrite Hl|done]. cbn [rbind]. by rewrite Hm.
  - cbn. apply has_cons in H as [_ H]. rewrite (read_4 _ _ _ H); [|apply be_length|apply be_bytes]. by rewrite bval_be_small.
Qed.

(** Parsing returns the end of a field that ends before [end_ptr]. *)
Lemma parse_form b p e n bs val :
  has b p bs -> field_form n bs -> (p + length bs <= e)%nat -> mach_parse_compressed b p e val = Ok (Some (p + length bs)%nat, n).
Proof.
  intros H Hf He. unfold mach_parse_compressed, mach_read_from_1.
  destruct Hf as [Hn|v bs Hv Hl Hb Hm|v bs Hv Hl Hb Hm|v bs Hv Hl Hb Hm|Hn]; cbn [length] in *; rewrite ?be_length in *;
    rewrite decide_False by lia; rewrite (get_first _ _ _ _ H); cbn [rbind]; flags.
  - done.
  - rewrite Hl in *. rewrite decide_False by lia. rewrite (read_2 _ _ _ H); [|cbn [length]; by rewrite Hl|done]. cbn [rbind]. by rewrite Hm.
  - rewrite Hl in *. rewrite decide_False by lia. rewrite (read_3 _ _ _ H); [|cbn [length]; by rewrite Hl|done]. cbn [rbind]. by rewrite Hm.
  - rewrite Hl in *. rewrite decide_False by lia. rewrite (read_4 _ _ _ H); [|cbn [length]; by rewrite Hl|done]. cbn [rbind]. by rewrite Hm.
  - cbn. rewrite decide_False by lia. apply has_cons in H as [_ H].
    rewrite (read_4 _ _ _ H); [|apply be_length|apply be_bytes]. cbn [rbind]. by rewrite bval_be_small.
Qed.

(** Of a field that does not, it reads at most the first byte. *)
Lemma parse_cut b p e n v bs val :
  (e <= p)%nat \/ b !! p = Some v -> field_form n (v :: bs) -> (e < p + S (length bs))%nat ->
  mach_parse_compressed b p e val = Ok (None, val).
Proof.
  intros H Hf He. unfold mach_parse_compressed. destruct (decide (e <= p)%nat) as [|Hp]; [done|].
  destruct H as [|H]; [lia|]. unfold mach_read_from_1, get. rewrite H. cbn [deref rbind].
  inversion Hf as [Hn|? ? Hv Hl Hb Hm|? ? Hv Hl Hb Hm|? ? Hv Hl Hb Hm|Hn]; subst; flags.
  - simpl in He. lia.
  - by rewrite decide_True by lia.
  - by rewrite decide_True by lia.
  - by rewrite decide_True by lia.
  - cbn. simpl in He. by rewrite decide_True by lia.
Qed.

(** A buffer that ends at [e]. *)
Lemma has_take b p bs e : has b p bs -> (p + length bs <= e)%nat -> has (take e b) p bs.
Proof. intros H He i v Hi. pose proof (lookup_lt_Some _ _ _ Hi). rewrite lookup_take_lt by lia. by apply H. Qed.

Lemma parse_cases b p n bs e val :
  has b p bs -> field_form n bs ->
  mach_parse_compressed (take e b) p e val =
    if decide (p + length bs <= e)%nat then Ok (Some (p + length bs)%nat, n) else Ok (None, val).
Proof.
  intros H Hf. case_decide as He.
  - eapply parse_form; [by apply has_take|done..].
  - destruct bs as [|v bs]; [inversion Hf|]. apply parse_cut with n v bs; [|done|simpl in He; lia].
    destruct (decide (e <= p)%nat); [by left|right]. apply has_cons in H as [H _]. rewrite lookup_take_lt by lia. done.
Qed.

(** What writing the bytes [bs] at [p] does: the rest of the buffer is as it was. *)
Record written (b : list Z) (p : nat) (bs : list Z) (b' : list Z) : Prop := Written {
  wr_length : length b' = length b;
  wr_has : has b' p bs;
  wr_rest : forall i, (i < p)%nat \/ (p + length bs <= i)%nat -> b' !! i = b !! i }.

Lemma inserts_written b p bs : (p + length bs <= length b)%nat -> written b p bs (list_inserts p bs b).
Proof.
  intros Hl. split; [apply length_inserts|by apply inserts_has|].
  intros i [Hi|Hi]; [by apply list_lookup_inserts_lt|by apply list_lookup_inserts_ge].
Qed.

Lemma u32_half_high n : 0 <= n < 2 ^ 64 -> 0 <= Z.shiftr n 32 < 2 ^ 32.
Proof. intros Hn. apply shiftr_range; lia. Qed.

Lemma land_low n : Z.land n 0xFFFFFFFF = n mod 2 ^ 32.
Proof. apply (Z.land_ones n 32). lia. Qed.

Lemma halves n : Z.shiftr n 32 * 2 ^ 32 + n mod 2 ^ 32 = n.
Proof. rewrite Z.shiftr_div_pow2 by lia. pose proof (Z.div_mod n (2 ^ 32)). lia. Qed.

Lemma low_range n : 0 <= n mod 2 ^ 32 < 2 ^ 32.
Proof. apply Z.mod_pos_bound. lia. Qed.

(** The bytes of the compressed fields of 64-bit integers. *)
Definition ull_compressed (n : Z) : list Z := compressed (Z.shiftr n 32) ++ be 4 n.
Definition much_compressed (n : Z) : list Z :=
  if Z.shiftr n 32 =? 0 then compressed n
  else 0xFF :: compressed (Z.shiftr n 32) ++ compressed (Z.land n 0xFFFFFFFF).

Lemma ull_compressed_length n : length (ull_compressed n) = mach_ull_get_compressed_size n.
Proof. unfold ull_compressed, mach_ull_get_compressed_size. rewrite length_app, compressed_length, be_length. lia. Qed.

Lemma much_compressed_length n : length (much_compressed n) = mach_ull_get_much_compressed_size n.
Proof.
  unfold much_compressed, mach_ull_get_much_compressed_size. case_match; [apply compressed_length|].
  cbn [length]. rewrite length_app, !compressed_length. lia.
Qed.

Lemma ull_write_ok b p n :
  0 <= n < 2 ^ 64 -> (p + mach_ull_get_compressed_size n <= length b)%nat ->
  mach_ull_write_compressed b p n = Ok (list_inserts p (ull_compressed n) b, mach_ull_get_compressed_size n).
Proof.
  intros Hn Hl. unfold mach_ull_write_compressed, mach_ull_get_compressed_size in *.
  rewrite write_compressed_ok; [|by apply u32_half_high|lia]. cbn [rbind].
  rewrite write_4 by (rewrite length_inserts; lia). cbn [rbind]. unfold ull_compressed.
  rewrite inserts_app, compressed_length. do 2 f_equal. lia.
Qed.

Lemma much_write_ok b p n :
  0 <= n < 2 ^ 64 -> (p + mach_ull_get_much_compressed_size n <= length b)%nat ->
  mach_ull_write_much_compressed b p n = Ok (list_inserts p (much_compressed n) b, mach_ull_get_much_compressed_size n).
Proof.
  intros Hn Hl. unfold mach_ull_write_much_compressed, mach_ull_get_much_compressed_size, much_compressed in *.
  destruct (Z.eqb_spec (Z.shiftr n 32) 0) as [E|E].
  - apply write_compressed_ok; [|done]. pose proof (halves n). pose proof (low_range n). lia.
  - rewrite put_ok by lia. cbn [rbind].
    rewrite write_compressed_ok; [|by apply u32_half_high|rewrite length_insert; lia]. cbn [rbind].
    rewrite write_compressed_ok; [|rewrite land_low; apply low_range|rewrite length_inserts, length_insert; lia]. cbn [rbind].
    rewrite inserts_cons, inserts_app, compressed_length. change (u8 0xFF) with 0xFF. do 3 f_equal. lia.
Qed.

Lemma ull_read_ok b p n : 0 <= n < 2 ^ 64 -> has b p (ull_compressed n) -> mach_ull_read_compressed b p = Ok n.
Proof.
  intros Hn [H1 H2]%has_app. pose proof (u32_half_high n Hn) as Hh. unfold mach_ull_read_compressed.
  rewrite (read_form _ _ _ _ H1) by by apply compressed_form. cbn [rbind]. rewrite compressed_length in H2.
  rewrite (read_4 _ _ _ H2 (be_length _ _) (be_bytes _ _)). cbn [rbind]. rewrite bval_be. change (8 * Z.of_nat 4) with 32.
  rewrite join_halves by (done || apply low_range). by rewrite halves.
Qed.

Lemma much_read_ok b p n : 0 <= n < 2 ^ 64 -> has b p (much_compressed n) -> mach_ull_read_much_compressed b p = Ok n.
Proof.
  intros Hn H. pose proof (u32_half_high n Hn) as Hh. pose proof (halves n) as Hs. pose proof (low_range n) as Hr.
  unfold mach_ull_read_much_compressed, much_compressed in *. destruct (Z.eqb_spec (Z.shiftr n 32) 0) as [E|E].
  - assert (0 <= n < 2 ^ 32) as Hn' by lia. pose proof (compressed_form n Hn') as Hf.
    destruct (compressed n) as [|v bs] eqn:Ec; [inversion Hf|]. rewrite (get_first _ _ _ _ H). cbn [rbind].
    assert (v <> 0xFF) as Hv by (inversion Hf; lia). apply Z.eqb_neq in Hv. rewrite Hv. cbn [negb rbind].
    rewrite Nat.add_0_r, (read_form _ _ _ _ H Hf). cbn [rbind]. by rewrite Z.lor_0_l.
  - apply has_cons in H as [Hb [H1 H2]%has_app]. unfold get. rewrite Hb. cbn [deref rbind]. cbn [Z.eqb Pos.eqb negb].
    rewrite (read_form _ _ _ _ H1) by by apply compressed_form. cbn [rbind].
    rewrite compressed_length, <- Nat.add_assoc in H2. rewrite land_low in H2.
    rewrite (read_form _ _ _ _ H2) by by apply compressed_form. cbn [rbind]. rewrite join_halves by done. by rewrite Hs.
Qed.

Lemma ull_parse_cases b p e n val :
  0 <= n < 2 ^ 64 -> has b p (ull_compressed n) ->
  mach_ull_parse_compressed (take e b) p e val =
    if decide (p + mach_ull_get_compressed_size n <= e)%nat then Ok (Some (p + mach_ull_get_compressed_size n)%nat, n)
    else Ok (None, if decide (e < p + 5)%nat then val else Z.shiftr n 32).
Proof.
  intros Hn [H1 H2]%has_app. pose proof (u32_half_high n Hn) as Hh. pose proof (compressed_size_range (Z.shiftr n 32)) as Hs.
  unfold mach_ull_parse_compressed, mach_ull_get_compressed_size. rewrite compressed_length in H2.
  destruct (decide (e < p + 5)%nat) as [He|He]; [by rewrite decide_False by lia|].
  rewrite (read_form (take e b) p (Z.shiftr n 32) (compressed (Z.shiftr n 32))); [|apply has_take; [done|rewrite compressed_length; lia]|by apply compressed_form].
  cbn [rbind]. destruct (decide (e < _)%nat) as [He4|He4]; [by rewrite decide_False by lia|]. rewrite decide_True by lia.
  rewrite (read_4 _ _ (be 4 n)); [|apply has_take; [done|rewrite be_length; lia]|apply be_length|apply be_bytes].
  cbn [rbind]. rewrite bval_be. change (8 * Z.of_nat 4) with 32. rewrite join_halves by (done || apply low_range). rewrite halves.
  do 3 f_equal. lia.
Qed.

(** ** Little-endian fields *)

Lemma host_bytes_length k n : length (host_bytes k n) = k.
Proof. revert n. induction k; intros n; simpl; auto. Qed.

Lemma host_bytes_bytes k n : Forall is_byte (host_bytes k n).
Proof. revert n. induction k; intros n; simpl; constructor; auto using u8_byte. Qed.

Lemma host_value_bytes k n : host_value (host_bytes k n) = n mod 2 ^ (8 * Z.of_nat k).
Proof.
  revert n. induction k as [|k IH]; intros n; [simpl; by rewrite Z.mod_1_r|]. cbn [host_bytes host_value]. rewrite IH.
  unfold u8, wrap_u. rewrite Z.shiftr_div_pow2 by lia. replace (8 * Z.of_nat (S k)) with (8 + 8 * Z.of_nat k) by lia.
  rewrite (Z.pow_add_r 2) by lia. rewrite Z.rem_mul_r; [done|done|]. apply Z.pow_pos_nonneg; lia.
Qed.

Lemma host_bytes_S k n : host_bytes (S k) n = host_bytes k n ++ [u8 (Z.shiftr n (8 * Z.of_nat k))].
Proof.
  revert n. induction k as [|k IH]; intros n; [done|].
  change (host_bytes (S (S k)) n) with (u8 n :: host_bytes (S k) (Z.shiftr n 8)). rewrite IH.
  cbn [host_bytes app]. rewrite Z.shiftr_shiftr by lia. do 5 f_equal. lia.
Qed.

Lemma be_reverse k n : reverse (host_bytes k n) = be k n.
Proof. induction k as [|k IH]; [done|]. rewrite host_bytes_S, reverse_app, IH. done. Qed.

Lemma host_bytes_take k j n : (j <= k)%nat -> take j (host_bytes k n) = host_bytes j n.
Proof.
  revert j n. induction k as [|k IH]; intros [|j] n Hj; [done|lia|done|]. cbn [host_bytes take]. f_equal. apply IH. lia.
Qed.

Lemma write_n_loop_ok b d k n :
  (d + k <= length b)%nat -> 0 <= n ->
  write_n_loop b d k n = Ok (list_inserts d (host_bytes k n) b, Z.shiftr n (8 * Z.of_nat k)).
Proof.
  revert b d n. induction k as [|k IH]; intros b d n Hl Hn; [done|]. cbn [write_n_loop].
  rewrite put_ok by lia. cbn [rbind]. rewrite IH; [|rewrite length_insert; lia|by apply Z.shiftr_nonneg].
  cbn [host_bytes]. rewrite inserts_cons, Z.shiftr_shiftr by lia. do 2 f_equal; [|f_equal; lia].
  do 2 f_equal. change 0xFF with (Z.ones 8). rewrite Z.land_ones by lia. unfold u8, wrap_u. by rewrite Z.mod_mod.
Qed.

Lemma write_n_ok b d k n :
  (0 < k <= 8)%nat -> (d + k <= length b)%nat -> 0 <= n < 2 ^ (8 * Z.of_nat k) ->
  mach_write_to_n_little_endian b d k n = Ok (list_inserts d (host_bytes k n) b).
Proof.
  intros Hk Hl Hn. unfold mach_write_to_n_little_endian, ut_ad.
  rewrite (proj2 (Nat.leb_le _ _)), (proj2 (Nat.ltb_lt _ _)) by lia. cbn [ut_a rbind].
  rewrite write_n_loop_ok by lia. cbn [rbind]. rewrite Z.shiftr_div_pow2, Z.div_small by lia. done.
Qed.

Lemma host_value_snoc bs v : host_value (bs ++ [v]) = host_value bs + v * 2 ^ (8 * Z.of_nat (length bs)).
Proof.
  induction bs as [|w bs IH]; [simpl; lia|]. cbn [app host_value length]. rewrite IH.
  replace (8 * Z.of_nat (S (length bs))) with (8 + 8 * Z.of_nat (length bs)) by lia. rewrite (Z.pow_add_r 2) by lia. ring.
Qed.

Lemma host_value_nonneg bs : Forall is_byte bs -> 0 <= host_value bs.
Proof. induction 1 as [|v bs Hv _ IH]; simpl; unfold is_byte in *; lia. Qed.

Lemma read_n_loop_ok b p bs n :
  has b p bs -> Forall is_byte bs -> 0 <= n -> n * 2 ^ (8 * Z.of_nat (length bs)) + host_value bs < 2 ^ 64 ->
  read_n_loop b p (length bs) n = Ok (n * 2 ^ (8 * Z.of_nat (length bs)) + host_value bs).
Proof.
  revert n. induction bs as [|v bs IH] using rev_ind; intros n H Hb Hn Hlt; [simpl; f_equal; lia|].
  apply has_app in H as [H Hv%has_cons]. apply Forall_app in Hb as [Hb [Hbv _]%Forall_cons]. destruct Hv as [Hv _].
  replace (length (bs ++ [v])) with (S (length bs)) in * by (rewrite length_app; simpl; lia). cbn [read_n_loop]. unfold get. rewrite Hv. cbn [deref rbind].
  rewrite host_value_snoc in *. pose proof (host_value_nonneg bs Hb) as Hpos. unfold is_byte in Hbv.
  replace (8 * Z.of_nat (S (length bs))) with (8 + 8 * Z.of_nat (length bs)) in * by lia.
  rewrite (Z.pow_add_r 2) in * by lia. change (2 ^ 8) with 256 in *.
  assert (1 <= 2 ^ (8 * Z.of_nat (length bs))) as Hp by (pose proof (Z.pow_pos_nonneg 2 (8 * Z.of_nat (length bs))); lia).
  rewrite Z.shiftl_mul_pow2 by lia. change (2 ^ 8) with 256. rewrite (u64_small (n * 256)) by nia. rewrite u64_small by nia.
  rewrite IH; [f_equal; ring|done|done|lia|nia].
Qed.

Lemma read_n_ok b p k n :
  (0 < k <= 8)%nat -> 0 <= n < 2 ^ (8 * Z.of_nat k) -> has b p (host_bytes k n) ->
  mach_read_from_n_little_endian b p k = Ok n.
Proof.
  intros Hk Hn H. unfold mach_read_from_n_little_endian, ut_ad. rewrite (proj2 (Nat.ltb_lt _ _)) by lia. cbn [ut_a rbind].
  pose proof (read_n_loop_ok b p _ 0 H (host_bytes_bytes _ _)) as E. rewrite host_bytes_length, host_value_bytes in E.
  rewrite Z.mod_small in E by lia. apply E; [lia|].
  assert (2 ^ (8 * Z.of_nat k) <= 2 ^ 64) by (apply Z.pow_le_mono_r; lia). lia.
Qed.

(** ** Integer columns *)

Lemma insert_inserts_ge p j v bs (b : list Z) :
  (p + length bs <= j)%nat -> <[j := v]> (list_inserts p bs b) = list_inserts p bs (<[j := v]> b).
Proof.
  revert p. induction bs as [|w bs IH]; intros p Hj; [done|]. simpl in Hj. cbn.
  rewrite list_insert_insert_ne by lia. by rewrite IH by lia.
Qed.

Lemma swap_loop_ok b d src f bs :
  has src f bs -> Forall is_byte bs -> (d + length bs <= length b)%nat ->
  swap_loop b (d + length bs) src f (length bs) = Ok (list_inserts d (reverse bs) b).
Proof.
  revert b f. induction bs as [|v bs IH]; intros b f H Hb Hl; [done|].
  apply has_cons in H as [Hv H]. apply Forall_cons in Hb as [Hbv Hb]. cbn [length swap_loop] in *.
  unfold get. rewrite Hv. cbn [deref rbind]. replace (d + S (length bs) - 1)%nat with (d + length bs)%nat by lia.
  rewrite put_ok by lia. cbn [rbind]. rewrite IH; [|done..|rewrite length_insert; lia]. rewrite u8_small by done.
  rewrite reverse_cons, inserts_app, length_reverse. cbn [list_inserts]. by rewrite insert_inserts_ge by (rewrite length_reverse; lia).
Qed.

Lemma swap_ok b d src f len n :
  (1 <= len <= 8)%nat -> (d + len <= length b)%nat -> has src f (host_bytes len n) ->
  mach_swap_byte_order b d src f len = Ok (list_inserts d (be len n) b).
Proof.
  intros Hlen Hl H. unfold mach_swap_byte_order, ut_ad.
  rewrite (proj2 (Nat.ltb_lt _ _)), (proj2 (Nat.leb_le _ _)) by lia. cbn [ut_a rbind].
  assert ((if (Nat.land len 7 =? 0)%nat then 8 else Nat.land len 7)%nat = len) as ->.
  { do 9 (destruct len as [|len]; [try done; lia|]). lia. }
  pose proof (swap_loop_ok b d src f _ H (host_bytes_bytes _ _)) as E. rewrite host_bytes_length in E.
  rewrite E by done. by rewrite be_reverse.
Qed.

(** The first byte with its highest bit turned over. *)
Definition flip (bs : list Z) : list Z := match bs with [] => [] | v :: bs => Z.lxor v 0x80 :: bs end.

(** The bytes of a column that holds [n]. *)
Definition column (len : nat) (n : Z) (usign : bool) : list Z := if usign then be len n else flip (be len n).

Lemma byte_cases (P : Z -> Prop) `{!forall v, Decision (P v)} :
  bool_decide (Forall P (seqZ 0 256)) = true -> forall v, is_byte v -> P v.
Proof. intros HF%bool_decide_eq_true v Hv. rewrite Forall_forall in HF. apply HF. apply elem_of_seqZ. unfold is_byte in Hv. lia. Qed.

Lemma flip_byte v : is_byte v -> Z.lxor v 0x80 = (v + 128) mod 256.
Proof. revert v. apply (byte_cases (fun v => Z.lxor v 0x80 = (v + 128) mod 256)). by vm_compute. Qed.

Lemma flip_ok b d v bs : has b d (v :: bs) -> is_byte v -> flip_sign b d = Ok (<[d := Z.lxor v 0x80]> b).
Proof.
  intros H Hv. unfold flip_sign. rewrite (get_first _ _ _ _ H). cbn [rbind].
  rewrite put_ok by (apply has_length in H; [simpl in H; lia|done]). rewrite u8_small; [done|].
  rewrite flip_byte by done. apply Z.mod_pos_bound. done.
Qed.

Lemma write_int_ok b d src f len n usign :
  (1 <= len <= 8)%nat -> (d + len <= length b)%nat -> has src f (host_bytes len n) ->
  mach_write_int_type b d src f len usign = Ok (list_inserts d (column len n usign) b).
Proof.
  intros Hlen Hl H. unfold mach_write_int_type, column. rewrite (swap_ok _ _ _ _ _ n) by done. cbn [rbind].
  destruct usign; [done|]. pose proof (inserts_has d (be len n) b) as Hw. rewrite be_length in Hw. specialize (Hw Hl).
  pose proof (be_bytes len n) as Hb. destruct (be len n) as [|v bs] eqn:E; [by destruct len; [lia|]|].
  rewrite (flip_ok _ _ _ _ Hw) by by apply Forall_cons in Hb as [? _]. f_equal. cbn.
  by rewrite list_insert_insert_eq.
Qed.

Lemma host_bytes_has k j n : (j <= k)%nat -> has (host_bytes k n) 0 (host_bytes j n).
Proof. intros Hj i v Hi. simpl. rewrite <- (host_bytes_take k j n Hj) in Hi. by apply lookup_take_Some in Hi as [? _]. Qed.

Lemma write_ulonglong_ok b d n len usign :
  (1 <= len <= 8)%nat -> (d + len <= length b)%nat ->
  mach_write_ulonglong b d n len usign = Ok (list_inserts d (column len n usign) b).
Proof.
  intros Hlen Hl. unfold mach_write_ulonglong, ut_ad. rewrite (proj2 (Nat.leb_le _ _)) by lia. cbn [ut_a rbind].
  apply (write_int_ok b d (host_bytes 8 n) 0 len n usign Hlen Hl). apply host_bytes_has. lia.
Qed.

(** The integers of a column type, and what is added to store them. *)
Definition in_range (len : nat) (usign : bool) (n : Z) : Prop :=
  if usign then 0 <= n < 2 ^ (8 * Z.of_nat len)
  else - 2 ^ (8 * Z.of_nat len - 1) <= n < 2 ^ (8 * Z.of_nat len - 1).
Definition bias (len : nat) (usign : bool) : Z := if usign then 0 else 2 ^ (8 * Z.of_nat len - 1).

Lemma bval_flip k n : bval (flip (be (S k) n)) = (n + 2 ^ (8 * Z.of_nat (S k) - 1)) mod 2 ^ (8 * Z.of_nat (S k)).
Proof.
  cbn [be flip bval]. rewrite flip_byte by apply u8_byte. rewrite be_length, bval_be. unfold u8, wrap_u.
  rewrite Z.shiftr_div_pow2 by lia. set (P := 2 ^ (8 * Z.of_nat k)).
  replace (2 ^ (8 * Z.of_nat (S k))) with (P * 256).
  2:{ subst P. replace (8 * Z.of_nat (S k)) with (8 * Z.of_nat k + 8) by lia. by rewrite Z.pow_add_r by lia. }
  replace (2 ^ (8 * Z.of_nat (S k) - 1)) with (128 * P).
  2:{ subst P. replace (8 * Z.of_nat (S k) - 1) with (7 + 8 * Z.of_nat k) by lia. by rewrite Z.pow_add_r by lia. }
  assert (0 < P) by (apply Z.pow_pos_nonneg; lia). rewrite Z.rem_mul_r by lia.
  rewrite Z.mod_add, Z.div_add by lia. change (2 ^ 8) with 256. rewrite Z.add_mod_idemp_l by lia. ring.
Qed.

Lemma pow_half len : (1 <= len)%nat -> 2 ^ (8 * Z.of_nat len) = 2 * 2 ^ (8 * Z.of_nat len - 1).
Proof. intros H. rewrite <- Z.pow_succ_r by lia. f_equal. lia. Qed.

Lemma column_value len usign n :
  (1 <= len)%nat -> in_range len usign n -> bval (column len n usign) = n + bias len usign.
Proof.
  intros Hlen Hn. unfold column, bias, in_range in *. pose proof (pow_half len Hlen) as Hp. destruct usign.
  - rewrite bval_be_small by done. lia.
  - destruct len as [|k]; [lia|]. rewrite bval_flip. apply Z.mod_small. lia.
Qed.

Lemma column_bytes len n usign : Forall is_byte (column len n usign).
Proof.
  unfold column. pose proof (be_bytes len n) as Hb. destruct usign; [done|]. destruct Hb as [|v bs Hv Hb]; [done|].
  cbn [flip]. constructor; [|done]. rewrite flip_byte by done. apply Z.mod_pos_bound. done.
Qed.

Lemma column_length len n usign : length (column len n usign) = len.
Proof. unfold column. pose proof (be_length len n). destruct usign; [done|]. by destruct (be len n). Qed.

(** [memcmp] of fields of one length. *)
Fixpoint memcmp (x y : list Z) : comparison :=
  match x, y with
  | v :: x, w :: y => match v ?= w with Eq => memcmp x y | c => c end
  | _, _ => Eq
  end.

Lemma memcmp_value x y :
  length x = length y -> Forall is_byte x -> Forall is_byte y -> memcmp x y = (bval x ?= bval y).
Proof.
  intros Hl Hx. revert y Hl. induction Hx as [|v x Hv Hx IH]; intros [|w y] Hl Hy; try done.
  apply Forall_cons in Hy as [Hw Hy]. injection Hl as Hl. cbn [memcmp bval]. rewrite (IH y Hl Hy), Hl.
  pose proof (bval_range x Hx) as Rx. pose proof (bval_range y Hy) as Ry. rewrite Hl in Rx. set (P := 2 ^ _) in *.
  destruct (Z.compare_spec v w) as [->|Hlt|Hgt].
  - symmetry. apply Zcompare_plus_compat.
  - symmetry. apply Z.compare_lt_iff. nia.
  - symmetry. apply Z.compare_gt_iff. nia.
Qed.

Lemma u64_lor r v : is_byte v -> Z.lor (u64 (Z.shiftl r 8)) v = u64 (r * 256 + v).
Proof.
  intros Hv. unfold is_byte in Hv. unfold u64, wrap_u. rewrite Z.shiftl_mul_pow2 by lia.
  change (2 ^ 64) with (2 ^ 56 * 2 ^ 8). rewrite Z.mul_mod_distr_r by lia. rewrite <- Z.shiftl_mul_pow2, lor_shiftl by lia.
  apply (Z.mod_unique_pos _ _ (r / 2 ^ 56)); [|pose proof (Z.div_mod r (2 ^ 56)); lia].
  pose proof (Z.mod_pos_bound r (2 ^ 56)). lia.
Qed.

Lemma read_rest_ok b p bs r :
  has b p bs -> Forall is_byte bs ->
  read_rest b p (length bs) (u64 r) = Ok (u64 (r * 2 ^ (8 * Z.of_nat (length bs)) + bval bs)).
Proof.
  intros H Hb. revert p r H. induction Hb as [|v bs Hv Hb IH]; intros p r H; [cbn; do 2 f_equal; lia|].
  apply has_cons in H as [Hp H]. cbn [length read_rest bval]. unfold get. rewrite Hp. cbn [deref rbind].
  rewrite u64_lor by done. assert (u64 (u64 r * 256 + v) = u64 (r * 256 + v)) as ->.
  { unfold u64, wrap_u. rewrite Z.add_mod, Z.mul_mod_idemp_l, <- Z.add_mod by done. done. }
  rewrite IH by done. do 2 f_equal. replace (8 * Z.of_nat (S (length bs))) with (8 + 8 * Z.of_nat (length bs)) by lia.
  rewrite Z.pow_add_r by lia. ring.
Qed.

Lemma first_ret v (usign : bool) :
  is_byte v ->
  (if usign
   then Z.lor (if usign || negb (Z.land v 0x80 =? 0) then 0 else 0xFFFFFFFFFFFFFF00) v
   else Z.lor (if usign || negb (Z.land v 0x80 =? 0) then 0 else 0xFFFFFFFFFFFFFF00) (Z.lxor v 0x80)) =
  u64 (if usign then v else v - 128).
Proof.
  intros Hv. destruct usign.
  - cbn [orb]. rewrite Z.lor_0_l, u64_small; [done|]. unfold is_byte in Hv. lia.
  - revert v Hv. apply (byte_cases (fun v => Z.lor (if negb (Z.land v 0x80 =? 0) then 0 else 0xFFFFFFFFFFFFFF00) (Z.lxor v 0x80) = u64 (v - 128))).
    by vm_compute.
Qed.

Lemma read_int_ok b p len usign n :
  (1 <= len <= 8)%nat -> in_range len usign n -> has b p (column len n usign) -> mach_read_int_type b p len usign = Ok (u64 n).
Proof.
  intros Hlen Hn H. pose proof (column_bytes len n usign) as Hb. pose proof (column_length len n usign) as Hl.
  assert (1 <= len)%nat as Hl1 by lia. pose proof (column_value len usign n Hl1 Hn) as Hv.
  destruct (column len n usign) as [|v bs]; [simpl in Hl; lia|]. apply Forall_cons in Hb as [Hbv Hb].
  unfold mach_read_int_type. rewrite (get_first _ _ _ _ H). cbn [rbind]. apply has_cons in H as [_ H].
  cbv zeta. rewrite first_ret by done. simpl in Hl. replace (len - 1)%nat with (length bs) by lia.
  rewrite read_rest_ok by done. do 2 f_equal. cbn [bval] in Hv. unfold bias in Hv. destruct usign; [lia|].
  rewrite <- Hl in Hv. replace (8 * Z.of_nat (S (length bs)) - 1) with (7 + 8 * Z.of_nat (length bs)) in Hv by lia.
  rewrite Z.pow_add_r in Hv by lia. change (2 ^ 7) with 128 in Hv. lia.
Qed.

Lemma be_u64 k n : (k <= 8)%nat -> be k (u64 n) = be k n.
Proof.
  induction k as [|k IH]; intros Hk; [done|]. cbn [be]. rewrite IH by lia. f_equal. unfold u8, wrap_u, u64.
  apply Z.bits_inj'. intros i Hi. rewrite !Z.testbit_mod_pow2, !Z.shiftr_spec by lia. unfold wrap_u. rewrite Z.testbit_mod_pow2 by lia.
  destruct (Z.ltb_spec i 8); [|done]. by rewrite (proj2 (Z.ltb_lt (i + 8 * Z.of_nat k) 64)) by lia.
Qed.

Lemma column_u64 len n usign : (len <= 8)%nat -> column len (u64 n) usign = column len n usign.
Proof. intros H. unfold column. by rewrite be_u64. Qed.

(** ** Round trips *)

(** The fields of a fixed width, by their number of bytes. *)
Definition write_field (k : nat) : list Z -> nat -> Z -> res (list Z) :=
  match k with
  | 1 => mach_write_to_1 | 2 => mach_write_to_2 | 3 => mach_write_to_3 | 4 => mach_write_to_4
  | 6 => mach_write_to_6 | 7 => mach_write_to_7 | 8 => mach_write_to_8 | _ => fun _ _ _ => Fault
  end%nat.
Definition read_field (k : nat) : list Z -> nat -> res Z :=
  match k with
  | 1 => mach_read_from_1 | 2 => mach_read_from_2 | 3 => mach_read_from_3 | 4 => mach_read_from_4
  | 6 => mach_read_from_6 | 7 => mach_read_from_7 | 8 => mach_read_from_8 | _ => fun _ _ => Fault
  end%nat.

Lemma write_field_ok k b p n :
  k ∈ [1; 2; 3; 4; 6; 7; 8]%nat -> (p + k <= length b)%nat -> 0 <= n < 2 ^ (8 * Z.of_nat k) ->
  write_field k b p n = Ok (list_inserts p (be k n) b).
Proof.
  intros Hk Hl Hn. unfold write_field. set_unfold.
  destruct Hk as [->|[->|[->|[->|[->|[->|[->|[]]]]]]]];
    [by apply write_1|by apply write_2|by apply write_3|by apply write_4|by apply write_6|by apply write_7|by apply write_8].
Qed.

Lemma read_field_ok k b p n :
  k ∈ [1; 2; 3; 4; 6; 7; 8]%nat -> has b p (be k n) -> 0 <= n < 2 ^ (8 * Z.of_nat k) -> read_field k b p = Ok n.
Proof.
  intros Hk H Hn. rewrite <- (Z.mod_small n (2 ^ (8 * Z.of_nat k))) by done. unfold read_field.
  pose proof (be_bytes k n) as Hb. pose proof (be_length k n) as Hl. set_unfold.
  destruct Hk as [->|[->|[->|[->|[->|[->|[->|[]]]]]]]];
    [|rewrite <- bval_be; first [apply read_2|apply read_3|apply read_4]; done..|by apply read_6|by apply read_7|by apply read_8].
  apply has_cons in H as [H _]. unfold mach_read_from_1, get. rewrite H. done.
Qed.

(** A field of a fixed width is read as it was written, and the rest of the
    buffer does not change. *)
Theorem mach_fixed_roundtrip k b p n :
  k ∈ [1; 2; 3; 4; 6; 7; 8]%nat -> (p + k <= length b)%nat -> 0 <= n < 2 ^ (8 * Z.of_nat k) ->
  exists b', write_field k b p n = Ok b' /\ written b p (be k n) b' /\ read_field k b' p = Ok n.
Proof.
  intros Hk Hl Hn. exists (list_inserts p (be k n) b). split; [by apply write_field_ok|].
  assert (written b p (be k n) (list_inserts p (be k n) b)) as Hw by (apply inserts_written; by rewrite be_length).
  split; [done|]. eapply read_field_ok; [done|apply Hw|done].
Qed.

(** A little-endian field is read as it was written; the functions for two bytes
    agree with the general ones. *)
Theorem little_endian_roundtrip b p k n :
  (0 < k <= 8)%nat -> (p + k <= length b)%nat -> 0 <= n < 2 ^ (8 * Z.of_nat k) ->
  exists b', mach_write_to_n_little_endian b p k n = Ok b' /\ written b p (host_bytes k n) b' /\
    mach_read_from_n_little_endian b' p k = Ok n /\
    (k = 2%nat -> mach_write_to_2_little_endian b p n = Ok b' /\ mach_read_from_2_little_endian b' p = Ok n).
Proof.
  intros Hk Hl Hn. exists (list_inserts p (host_bytes k n) b).
  assert (written b p (host_bytes k n) (list_inserts p (host_bytes k n) b)) as Hw by (apply inserts_written; by rewrite host_bytes_length).
  split; [by apply write_n_ok|]. split; [done|]. split; [apply read_n_ok; [done..|apply Hw]|]. intros ->. split.
  - unfold mach_write_to_2_little_endian, ut_ad. rewrite (proj2 (Z.ltb_lt _ _)) by (simpl in Hn; lia). cbn [ut_a rbind].
    pose proof (write_n_loop_ok b p 2 n Hl) as E. cbn [write_n_loop] in E. cbv zeta.
    destruct (put b p _) as [b1| |]; cbn [rbind] in *; [|by discriminate E; lia..].
    destruct (put b1 _ _) as [b2| |]; cbn [rbind] in *; [|by discriminate E; lia..]. injection E as ->; [done|lia].
  - destruct Hw as [_ Hh _]. pose proof (host_value_bytes 2 n) as Hv. rewrite Z.mod_small in Hv by done.
    unfold mach_read_from_2_little_endian. cbn [host_bytes host_value] in *. reads Hh.
    pose proof (u8_byte n) as B0. pose proof (u8_byte (Z.shiftr n 8)) as B1. unfold is_byte in *.
    rewrite Z.lor_comm, lor_shiftl by lia. f_equal. lia.
Qed.

Lemma bval_host bs : bval (reverse bs) = host_value bs.
Proof.
  induction bs as [|v bs IH]; [done|]. rewrite reverse_cons, bval_app, IH. cbn. lia.
Qed.

(** The canonical format of a 16-bit integer. *)
Theorem mach_decode_encode n : 0 <= n < 2 ^ 16 -> exists v, mach_encode_2 n = Ok v /\ 0 <= v < 2 ^ 16 /\ mach_decode_2 v = Ok n.
Proof.
  intros Hn. unfold mach_encode_2, mach_decode_2. rewrite write_2 by (simpl; lia). cbn [rbind]. eexists. split; [done|].
  assert (be 2 n = [u8 (Z.shiftr n 8); u8 n]) as Eb by done. pose proof (u8_byte n) as B0. pose proof (u8_byte (Z.shiftr n 8)) as B1.
  assert (Ok n = Ok (bval (be 2 n))) as En by by rewrite bval_be_small. rewrite Eb in En. rewrite En, !Eb. clear En Eb Hn. revert B0 B1. generalize (u8 n), (u8 (Z.shiftr n 8)). clear n.
  intros x y Hx Hy. unfold is_byte in *. change (list_inserts 0 [y; x] [0; 0]) with [y; x].
  assert (host_bytes 2 (host_value [y; x]) = [y; x]) as ->.
  { cbn [host_bytes host_value]. unfold u8, wrap_u. rewrite Z.shiftr_div_pow2 by lia. f_equal; [|f_equal]; Z.div_mod_to_equations; lia. }
  split; [cbn; lia|]. apply read_2; [by intros i w Hi|done|by rewrite !Forall_cons].
Qed.

Lemma write_bytes_ok b p d : (p + length d <= length b)%nat -> Forall is_byte d -> write_bytes b p d = Ok (list_inserts p d b).
Proof.
  intros Hl Hd. revert b p Hl. induction Hd as [|v d Hv Hd IH]; intros b p Hl; [done|]. cbn [length write_bytes] in *.
  rewrite put_ok by lia. cbn [rbind]. rewrite IH by (rewrite length_insert; lia). by rewrite inserts_cons, u8_small.
Qed.

Lemma read_bytes_ok b p d : has b p d -> read_bytes b p (length d) = Ok d.
Proof.
  revert p. induction d as [|v d IH]; intros p H; [done|]. cbn [length read_bytes]. rewrite (get_first _ _ _ _ H). cbn [rbind].
  apply has_cons in H as [_ H]. by rewrite IH.
Qed.

(** Doubles and floats are stored as the host has them. *)
Theorem mach_float_roundtrip b p d :
  Forall is_byte d -> (p + length d <= length b)%nat ->
  exists b', write_bytes b p d = Ok b' /\ written b p d b' /\
    (length d = 8%nat -> mach_double_write b p d = Ok b' /\ mach_double_read b' p = Ok d) /\
    (length d = 4%nat -> mach_float_write b p d = Ok b' /\ mach_float_read b' p = Ok d).
Proof.
  intros Hd Hl. exists (list_inserts p d b). pose proof (write_bytes_ok b p d Hl Hd) as E. pose proof (inserts_has p d b Hl) as H.
  split; [done|]. split; [by apply inserts_written|].
  split; intros Hn; (split; [exact E|]); [unfold mach_double_read|unfold mach_float_read]; rewrite <- Hn; by apply read_bytes_ok.
Qed.

(** C39: Compressed fields of integers below 2^32: writing takes as many bytes as
    [mach_get_compressed_size] says and leaves the rest of the buffer alone,
    reading returns the integer, and parsing a buffer that ends at any place
    returns the integer and the end of the field when the field is complete, and
    NULL without an access behind the end of the buffer when it is cut off. *)
Theorem mach_compressed_roundtrip b p n :
  0 <= n < 2 ^ 32 -> (p + mach_get_compressed_size n <= length b)%nat ->
  exists b', mach_write_compressed b p n = Ok (b', mach_get_compressed_size n) /\
    written b p (compressed n) b' /\ length (compressed n) = mach_get_compressed_size n /\
    mach_read_compressed b' p = Ok n /\
    forall e val, mach_parse_compressed (take e b') p e val =
      if decide (p + mach_get_compressed_size n <= e)%nat then Ok (Some (p + mach_get_compressed_size n)%nat, n) else Ok (None, val).
Proof.
  intros Hn Hl. pose proof (compressed_form n Hn) as Hf. exists (list_inserts p (compressed n) b).
  split; [by apply write_compressed_ok|].
  assert (written b p (compressed n) (list_inserts p (compressed n) b)) as Hw by (apply inserts_written; by rewrite compressed_length).
  split; [done|]. split; [apply compressed_length|]. split; [by eapply read_form; [apply Hw|]|]. intros e val.
  rewrite <- compressed_length. apply parse_cases; [apply Hw|done].
Qed.

(** Compressed fields of 64-bit integers, in both formats: writing takes as
    many bytes as the size functions say, between 5 and 9 or between 1 and 11,
    reading returns the integer, and parsing a buffer that ends at any place
    returns it when the field is complete and NULL, without an access behind the
    end, when it is cut off. *)
Theorem mach_ull_roundtrip b p n :
  0 <= n < 2 ^ 64 -> (p + 11 <= length b)%nat ->
  (exists b', mach_ull_write_compressed b p n = Ok (b', mach_ull_get_compressed_size n) /\
    written b p (ull_compressed n) b' /\ length (ull_compressed n) = mach_ull_get_compressed_size n /\
    (5 <= mach_ull_get_compressed_size n <= 9)%nat /\ mach_ull_read_compressed b' p = Ok n /\
    forall e val, exists val', mach_ull_parse_compressed (take e b') p e val =
      if decide (p + mach_ull_get_compressed_size n <= e)%nat then Ok (Some (p + mach_ull_get_compressed_size n)%nat, n) else Ok (None, val')) /\
  (exists b', mach_ull_write_much_compressed b p n = Ok (b', mach_ull_get_much_compressed_size n) /\
    written b p (much_compressed n) b' /\ length (much_compressed n) = mach_ull_get_much_compressed_size n /\
    (1 <= mach_ull_get_much_compressed_size n <= 11)%nat /\ mach_ull_read_much_compressed b' p = Ok n).
Proof.
  intros Hn Hl. assert (5 <= mach_ull_get_compressed_size n <= 9)%nat as H1.
  { unfold mach_ull_get_compressed_size. pose proof (compressed_size_range (Z.shiftr n 32)). lia. }
  assert (1 <= mach_ull_get_much_compressed_size n <= 11)%nat as H2.
  { unfold mach_ull_get_much_compressed_size. pose proof compressed_size_range as R. pose proof (R (Z.shiftr n 32)).
    pose proof (R (Z.land n 0xFFFFFFFF)). pose proof (R n). case_match; lia. }
  split.
  - exists (list_inserts p (ull_compressed n) b). split; [apply ull_write_ok; [done|lia]|].
    assert (written b p (ull_compressed n) (list_inserts p (ull_compressed n) b)) as Hw by (apply inserts_written; rewrite ull_compressed_length; lia).
    split; [done|]. split; [apply ull_compressed_length|]. split; [done|]. split; [apply ull_read_ok; [done|apply Hw]|].
    intros e val. eexists. apply ull_parse_cases; [done|apply Hw].
  - exists (list_inserts p (much_compressed n) b). split; [apply much_write_ok; [done|lia]|].
    assert (written b p (much_compressed n) (list_inserts p (much_compressed n) b)) as Hw by (apply inserts_written; rewrite much_compressed_length; lia).
    split; [done|]. split; [apply much_compressed_length|]. split; [done|]. apply much_read_ok; [done|apply Hw].
Qed.

(** C40: Integer columns of 1 to 8 bytes, signed or unsigned: the two functions
    that store an integer write the same bytes, [mach_read_int_type] returns its
    value as a 64-bit integer, and [memcmp] orders the stored fields as the
    integers are ordered. *)
Theorem int_column_order b dest src from len usign n m :
  (1 <= len <= 8)%nat -> (dest + len <= length b)%nat -> in_range len usign n -> in_range len usign m ->
  has src from (host_bytes len (u64 n)) ->
  exists bn bm, mach_write_ulonglong b dest (u64 n) len usign = Ok bn /\ mach_write_int_type b dest src from len usign = Ok bn /\
    mach_write_ulonglong b dest (u64 m) len usign = Ok bm /\
    mach_read_int_type bn dest len usign = Ok (u64 n) /\
    memcmp (take len (drop dest bn)) (take len (drop dest bm)) = (n ?= m).
Proof.
  intros Hlen Hl Hn Hm Hsrc. exists (list_inserts dest (column len n usign) b), (list_inserts dest (column len m usign) b).
  rewrite !write_ulonglong_ok, (write_int_ok _ _ _ _ _ (u64 n)), !column_u64 by (done || lia).
  assert (forall x, has (list_inserts dest (column len x usign) b) dest (column len x usign)) as Hh.
  { intros x. apply inserts_has. by rewrite column_length. }
  assert (forall x, take len (drop dest (list_inserts dest (column len x usign) b)) = column len x usign) as Hd.
  { intros x. apply list_eq. intros i. destruct (decide (i < len)%nat).
    - rewrite lookup_take_lt, lookup_drop by done. destruct (lookup_lt_is_Some_2 (column len x usign) i) as [v Hv]; [by rewrite column_length|].
      by rewrite Hv; apply Hh.
    - rewrite lookup_take_ge by lia. symmetry. apply lookup_ge_None. rewrite column_length. lia. }
  split_and!; [done..| |].
  - apply (read_int_ok _ _ _ _ _ Hlen Hn). apply Hh.
  - rewrite !Hd, memcmp_value by (rewrite ?column_length; done || apply column_bytes).
    rewrite !column_value by (done || lia). rewrite (Z.add_comm n), (Z.add_comm m). apply Zcompare_plus_compat.
Qed.

Lemma mach_compressed_roundtrip_witness :
  exists b', mach_write_compressed (repeat 0 6) 1 0x12345 = Ok (b', 3%nat) /\ mach_read_compressed b' 1 = Ok 0x12345.
Proof.
  destruct (mach_compressed_roundtrip (repeat 0 6) 1 0x12345) as (b' & H1 & _ & _ & H2 & _); [lia|vm_compute; lia|].
  exists b'. by split.
Defined.

Lemma mach_ull_roundtrip_witness :
  exists b', mach_ull_write_much_compressed (repeat 0 11) 0 (2 ^ 64 - 1) = Ok (b', 11%nat) /\
    mach_ull_read_much_compressed b' 0 = Ok (2 ^ 64 - 1).
Proof.
  destruct (mach_ull_roundtrip (repeat 0 11) 0 (2 ^ 64 - 1)) as (_ & b' & H1 & _ & _ & _ & H2); [lia|vm_compute; lia|].
  exists b'. by split.
Defined.

Lemma int_column_order_witness :
  exists bn bm, mach_write_ulonglong [0; 0; 0] 1 (u64 (-1)) 2 false = Ok bn /\ mach_write_ulonglong [0; 0; 0] 1 (u64 5) 2 false = Ok bm /\
    mach_read_int_type bn 1 2 false = Ok (u64 (-1)) /\ memcmp (take 2 (drop 1 bn)) (take 2 (drop 1 bm)) = Lt.
Proof.
  destruct (int_column_order [0; 0; 0] 1 [255; 255] 0 2 false (-1) 5) as (bn & bm & H1 & _ & H2 & H3 & H4);
    [lia|simpl; lia|split; vm_compute; congruence|split; vm_compute; congruence| |].
  - change (host_bytes 2 (u64 (-1))) with [255; 255]. intros i v Hi. exact Hi.
  - exists bn, bm. by split_and!.
Defined.
End MachData.
