(* ===== verification/BufPage.v ===== *)
(** * Control blocks and the page hash of the buffer pool

    The data of [buf_page_t] (include/buf0buf.h), the functions on its state
    (include/buf0buf.ic), the page hash of a buffer pool instance, and the
    relocation of a control block ([buf_relocate], buf/buf0buf.cc), in the
    release build, for a thread that holds the latches the functions ask for.
    The link fields [hash], [list] and [LRU] of the control blocks are kept in
    stores of their own. *)
From S2P Require Import Prelude Results UtList HashTable.
Local Open Scope Z_scope.

Module BufPage.
Import UtList HashTable.
Local Open Scope mc_scope.

(** buf0buf.h, lines 104-124. *)
Inductive buf_page_state :=
| BUF_BLOCK_POOL_WATCH | BUF_BLOCK_ZIP_PAGE | BUF_BLOCK_ZIP_DIRTY | BUF_BLOCK_NOT_USED
| BUF_BLOCK_READY_FOR_USE | BUF_BLOCK_FILE_PAGE | BUF_BLOCK_MEMORY | BUF_BLOCK_REMOVE_HASH.

Inductive buf_io_fix := BUF_IO_NONE | BUF_IO_READ | BUF_IO_WRITE | BUF_IO_PIN.

#[export] Instance buf_page_state_eq_dec : EqDecision buf_page_state.
Proof. solve_decision. Defined.
#[export] Instance buf_io_fix_eq_dec : EqDecision buf_io_fix.
Proof. solve_decision. Defined.

(** buf0buf.h, lines 1565-1767, without the link fields; [zip_data] and [slot]
    are pointers. *)
Record buf_page := mkPage {
  space : Z; offset : Z; buf_fix_count : Z; io_fix : buf_io_fix; state : buf_page_state;
  flush_type : Z; buf_pool_index : Z; zip_data : option nat; write_size : Z; key_version : Z;
  page_encrypted : bool; page_compressed : bool; stored_checksum : Z; encrypted : bool;
  calculated_checksum : Z; real_size : Z; slot : option nat; newest_modification : Z;
  oldest_modification : Z; old : bool; freed_page_clock : Z; access_time : Z; is_corrupt : bool }.

(** Assignments to the fields a buffer pool watch uses. *)
Definition set_watch_fields (st : buf_page_state) (sp off fix_ idx : Z) (p : buf_page) : buf_page :=
  mkPage sp off fix_ (io_fix p) st (flush_type p) idx (zip_data p) (write_size p) (key_version p)
    (page_encrypted p) (page_compressed p) (stored_checksum p) (encrypted p) (calculated_checksum p)
    (real_size p) (slot p) (newest_modification p) (oldest_modification p) (old p) (freed_page_clock p)
    (access_time p) (is_corrupt p).

Definition set_fix_count (n : Z) (p : buf_page) : buf_page :=
  set_watch_fields (state p) (space p) (offset p) n (buf_pool_index p) p.

Definition set_state (st : buf_page_state) (p : buf_page) : buf_page :=
  set_watch_fields st (space p) (offset p) (buf_fix_count p) (buf_pool_index p) p.

(** buf0buf.ic, lines 354-384: a free watch has no page. *)
Definition buf_page_in_file (p : buf_page) : res bool :=
  match state p with
  | BUF_BLOCK_POOL_WATCH => Fault
  | BUF_BLOCK_ZIP_PAGE | BUF_BLOCK_ZIP_DIRTY | BUF_BLOCK_FILE_PAGE => Ok true
  | _ => Ok false
  end.

(** buf0buf.ic, lines 277-333: the transitions the debug build accepts. *)
Definition buf_page_set_state (st : buf_page_state) (p : buf_page) : res buf_page :=
  let ok := match state p, st with
    | BUF_BLOCK_ZIP_PAGE, BUF_BLOCK_ZIP_DIRTY
    | BUF_BLOCK_ZIP_DIRTY, BUF_BLOCK_ZIP_PAGE
    | BUF_BLOCK_NOT_USED, BUF_BLOCK_READY_FOR_USE
    | BUF_BLOCK_READY_FOR_USE, (BUF_BLOCK_MEMORY | BUF_BLOCK_FILE_PAGE | BUF_BLOCK_NOT_USED)
    | BUF_BLOCK_MEMORY, BUF_BLOCK_NOT_USED
    | BUF_BLOCK_FILE_PAGE, (BUF_BLOCK_NOT_USED | BUF_BLOCK_REMOVE_HASH)
    | BUF_BLOCK_REMOVE_HASH, BUF_BLOCK_MEMORY => true
    | _, _ => false
    end in
  let! _ := ut_a ok in Ok (set_state st p).

(** buf0buf.ic, lines 1035-1043. *)
Definition buf_page_address_fold (sp off : Z) : Z := u64 (u64 (u64 (Z.shiftl sp 20) + sp) + off).

(** The index of [buf_pool_get], buf0buf.ic lines 1207-1222. *)
Definition buf_pool_get (srv_buf_pool_instances sp off : Z) : Z :=
  buf_page_address_fold sp (Z.shiftr off 6) mod srv_buf_pool_instances.

(** The part of [buf_pool_t] the functions on control blocks use. *)
Record pool := mkPool {
  pages : gmap nat buf_page;
  page_hash : hash_table;
  hash : gmap nat (option nat);
  list_links : gmap nat ut_list_node;
  LRU : ut_list;
  LRU_old : option nat;
  watch : nat }.

Definition set_pages (ps : gmap nat buf_page) (s : pool) : pool :=
  mkPool ps (page_hash s) (hash s) (list_links s) (LRU s) (LRU_old s) (watch s).
Definition set_LRU (l : ut_list) (o : option nat) (s : pool) : pool :=
  mkPool (pages s) (page_hash s) (hash s) (list_links s) l o (watch s).
Definition set_hash (tm : hash_table * gmap nat (option nat)) (s : pool) : pool :=
  mkPool (pages s) tm.1 tm.2 (list_links s) (LRU s) (LRU_old s) (watch s).

(** The test of [HASH_SEARCH] in [buf_page_hash_get_low]. *)
Definition is_page (s : pool) (sp off : Z) (x : nat) : res bool :=
  let! p := deref (pages s !! x) in Ok ((space p =? sp) && (offset p =? off)).

(** buf0buf.ic, lines 1242-1278. *)
Definition buf_page_hash_get_low (s : pool) (sp off fold : Z) : res (option nat) :=
  let! bpage := HASH_SEARCH (is_page s sp off) fold (page_hash s) (hash s) in
  match bpage with
  | None => Ok None
  | Some x =>
      let! p := deref (pages s !! x) in
      let! b := buf_page_in_file p in
      let! _ := ut_a b in Ok (Some x)
  end.

Definition hash_insert (fold : Z) (x : nat) (s : pool) : res pool :=
  let! tm := HASH_INSERT fold x (page_hash s) (hash s) in Ok (set_hash tm s).

Definition hash_delete (fold : Z) (x : nat) (s : pool) : res pool :=
  let! tm := HASH_DELETE fold x (page_hash s) (hash s) in Ok (set_hash tm s).

(** [memcpy(dpage, bpage, sizeof *dpage)]: the fields and the links. *)
Definition copy_page (bpage dpage : nat) (s : pool) : res pool :=
  let! p := deref (pages s !! bpage) in
  let! h := deref (hash s !! bpage) in
  let! l := deref (list_links s !! bpage) in
  let! n := deref (nodes (LRU s) !! bpage) in
  let! _ := deref (pages s !! dpage) in
  Ok (mkPool (<[dpage := p]> (pages s)) (page_hash s) (<[dpage := h]> (hash s))
        (<[dpage := l]> (list_links s)) (mkList (<[dpage := n]> (nodes (LRU s))) (base (LRU s)))
        (LRU_old s) (watch s)).

(** The relocation on the LRU list, lines 1938-1965. *)
Definition relocate_LRU (bpage dpage : nat) (s : pool) : res pool :=
  let! n := deref (nodes (LRU s) !! bpage) in
  let! l := deref (ut_list_remove bpage (LRU s)) in
  let! l := deref (match prev n with Some b => ut_list_insert b dpage l | None => ut_list_prepend dpage l end) in
  Ok (set_LRU l (if decide (LRU_old s = Some bpage) then Some dpage else LRU_old s) s).

(** Lines 1893-1975. *)
Definition buf_relocate (bpage dpage : nat) (s : pool) : res pool :=
  let! p := deref (pages s !! bpage) in
  let fold := buf_page_address_fold (space p) (offset p) in
  let! _ := ut_a (bool_decide (io_fix p = BUF_IO_NONE)) in
  let! _ := ut_a (buf_fix_count p =? 0) in
  let! s := copy_page bpage dpage s in
  let! s := relocate_LRU bpage dpage s in
  let! s := hash_delete fold bpage s in hash_insert fold dpage s.

(** ** The page hash as a finite map *)

Definition page_key (p : buf_page) : Z * Z := (space p, offset p).
Definition key_fold (k : Z * Z) : Z := buf_page_address_fold k.1 k.2.

Definition in_file (p : buf_page) : Prop := buf_page_in_file p = Ok true.

(** The pages of the map are exactly the structs on the chains, each on the
    chain of its address. *)
Record hashed (s : pool) (M : gmap (Z * Z) nat) (chains : nat -> list nat) : Prop := Hashed {
  hd_rep : HashTable.rep (page_hash s) (hash s) chains;
  hd_chain : forall i x, x ∈ chains i -> exists p, pages s !! x = Some p /\ in_file p /\
    M !! page_key p = Some x /\ i = cell_of (key_fold (page_key p)) (page_hash s);
  hd_map : forall k x, M !! k = Some x -> exists p, pages s !! x = Some p /\ page_key p = k /\
    x ∈ chains (cell_of (key_fold k) (page_hash s)) }.

Definition represents (s : pool) (M : gmap (Z * Z) nat) : Prop := exists chains, hashed s M chains.

Definition unhashed (M : gmap (Z * Z) nat) (x : nat) : Prop := forall k, M !! k <> Some x.

Lemma get_low_ok s M sp off :
  represents s M -> buf_page_hash_get_low s sp off (buf_page_address_fold sp off) = Ok (M !! (sp, off)).
Proof.
  intros (chains & [Hr Hc Hm]). unfold buf_page_hash_get_low.
  set (P := fun x => match pages s !! x with Some p => (space p =? sp) && (offset p =? off) | None => false end).
  rewrite (HASH_SEARCH_rep _ P _ _ _ chains Hr).
  2: { intros x (p & Hp & _)%Hc. unfold is_page, P. by rewrite Hp. }
  cbn [rbind]. assert (forall x i, x ∈ chains i -> P x = true -> M !! (sp, off) = Some x) as HP.
  { intros x i (p & Hp & _ & Hk & _)%Hc. unfold P. rewrite Hp. intros [?%Z.eqb_eq ?%Z.eqb_eq]%andb_prop.
    unfold page_key in Hk. by subst. }
  destruct (List.find P _) as [x|] eqn:Ef.
  - apply find_some in Ef as [Hx%list_elem_of_In HPx]. rewrite (HP x _ Hx HPx).
    destruct (Hc _ _ Hx) as (p & Hp & Hf & _). rewrite Hp. cbn [deref rbind]. by rewrite Hf.
  - destruct (M !! (sp, off)) as [x|] eqn:Ex; [|done].
    destruct (Hm _ _ Ex) as (p & Hp & Hk & Hx). apply list_elem_of_In in Hx.
    apply (find_none _ _ Ef) in Hx. unfold P in Hx. rewrite Hp in Hx. unfold page_key in Hk. simplify_eq.
    by rewrite !Z.eqb_refl in Hx.
Qed.

(** The page hash only depends on the control blocks it holds. *)
Lemma represents_frame s s' M :
  page_hash s' = page_hash s -> (forall k x, M !! k = Some x -> hash s' !! x = hash s !! x) ->
  (forall k x, M !! k = Some x -> pages s' !! x = pages s !! x) -> represents s M -> represents s' M.
Proof.
  intros Ht Hl Hp (chains & [[Hn Hs Hnd Hd] Hc Hm]). exists chains.
  assert (forall i x, x ∈ chains i -> exists k, M !! k = Some x) as Hin by (intros i x (p & _ & _ & ? & _)%Hc; eauto).
  constructor; rewrite ?Ht.
  - constructor; try done. intros i p Hi. eapply seg_frame; [|by apply Hs].
    intros x (k & Hk)%Hin. by eapply Hl.
  - intros i x Hx. destruct (Hin _ _ Hx) as [k Hk]. rewrite (Hp k) by done. by apply Hc.
  - intros k x Hx. rewrite (Hp k) by done. by apply Hm.
Qed.

Lemma unhashed_chains s M chains x : hashed s M chains -> unhashed M x -> forall i, x ∉ chains i.
Proof. intros Hh Hu i (p & _ & _ & Hk & _)%(hd_chain _ _ _ Hh). by apply (Hu (page_key p)). Qed.

(** The link and the control block of a struct outside the page hash. *)
Definition kept_outside (M : gmap (Z * Z) nat) (x : nat) (s s' : pool) : Prop :=
  forall y, y <> x -> unhashed M y -> hash s' !! y = hash s !! y.

Lemma in_upd (chains : nat -> list nat) c xs i x :
  (i = c -> x ∈ xs) -> x ∈ chains i -> x ∈ upd chains c xs i.
Proof. intros Hc Hi. upd_cases; auto. Qed.

Lemma hash_insert_ok s M x p :
  represents s M -> pages s !! x = Some p -> in_file p -> M !! page_key p = None -> is_Some (hash s !! x) ->
  exists s', hash_insert (key_fold (page_key p)) x s = Ok s' /\ represents s' (<[page_key p := x]> M) /\
    s' = set_hash (page_hash s', hash s') s /\ is_Some (hash s' !! x) /\ kept_outside M x s s'.
Proof.
  intros (chains & Hh) Hp Hf Hno Hl. pose proof Hh as [Hr Hc Hm].
  assert (forall i, x ∉ chains i) as Hx.
  { intros i (p' & Hp' & _ & Hk & _)%Hc. simplify_eq. }
  destruct (HASH_INSERT_rep (key_fold (page_key p)) x _ _ _ Hr Hl Hx) as (t' & m' & E & Hr' & Hn & Ho).
  unfold hash_insert. rewrite E. cbn [rbind]. eexists. split; [done|]. set (c := cell_of _ _) in *.
  assert (forall f, cell_of f t' = cell_of f (page_hash s)) as Hcell
    by (intros f; unfold cell_of, hash_calc_hash; by rewrite Hn).
  split; [|split; [done|split]].
  - exists (upd chains c (chains c ++ [x])). constructor; simpl; [done|..].
    + intros i y Hy. upd_cases; [apply elem_of_app in Hy as [Hy| ->%list_elem_of_singleton]|].
      2: { exists p. rewrite Hcell. split_and!; try done. apply lookup_insert_eq. }
      all: destruct (Hc _ _ Hy) as (p' & Hp' & Hf' & Hk & Hi); exists p'; rewrite Hcell;
        split_and!; try done; rewrite lookup_insert_ne; [done|congruence].
    + intros k y. rewrite Hcell. intros [[<- <-]|[Hne Hk]]%lookup_insert_Some.
      * exists p. split_and!; [done..|]. rewrite upd_eq. apply elem_of_app. right. by left.
      * destruct (Hm _ _ Hk) as (p' & Hp' & Hk' & Hin). exists p'. split_and!; [done..|].
        apply in_upd; [|done]. intros e. apply elem_of_app. left. by rewrite <- e.
  - simpl. pose proof (HashTable.rep_chain _ _ _ Hr' c) as Hs. rewrite upd_eq in Hs.
    destruct (lookup_lt_is_Some_2 (array t') c) as [q Hq].
    { unfold c. rewrite <- Hcell. apply cell_of_lt, (rep_cells _ _ _ Hr'). }
    eapply seg_lookup; [by apply Hs|]. apply elem_of_app. right. by left.
  - intros y Hy Hu. apply Ho; [done|]. by eapply unhashed_chains.
Qed.

Lemma hash_delete_ok s M x p :
  represents s M -> pages s !! x = Some p -> M !! page_key p = Some x ->
  exists s', hash_delete (key_fold (page_key p)) x s = Ok s' /\ represents s' (delete (page_key p) M) /\
    s' = set_hash (page_hash s', hash s') s /\ hash s' !! x = hash s !! x /\ kept_outside M x s s'.
Proof.
  intros (chains & Hh) Hp Hk. pose proof Hh as [Hr Hc Hm]. destruct (Hm _ _ Hk) as (p' & Hp' & _ & Hin).
  replace p' with p in * by congruence. clear p' Hp'. set (c := cell_of _ _) in *.
  apply list_elem_of_split in Hin as Hsp. destruct Hsp as (xs & ys & Ec).
  destruct (HASH_DELETE_rep (key_fold (page_key p)) x _ _ _ xs ys Hr Ec) as (t' & m' & E & Hr' & Hn & Hxl & Ho).
  unfold hash_delete. rewrite E. cbn [rbind]. eexists. split; [done|]. fold c in Hr'.
  assert (forall f, cell_of f t' = cell_of f (page_hash s)) as Hcell
    by (intros f; unfold cell_of, hash_calc_hash; by rewrite Hn).
  split; [|split; [done|split; [done|]]].
  - pose proof (HashTable.rep_nodup _ _ _ Hr c) as Hnd. rewrite Ec in Hnd.
    assert (forall i y, y ∈ upd chains c (xs ++ ys) i -> y ∈ chains i /\ y <> x) as Hsub.
    { intros i y. upd_cases; [rewrite Ec, !elem_of_app, elem_of_cons; intros Hy; split; [tauto|]|].
      - intros ->. apply NoDup_app in Hnd as (_ & Hx & [Hx' _]%NoDup_cons). destruct Hy as [Hy|Hy]; [|done].
        apply (Hx x Hy). by left.
      - intros Hy. split; [done|]. intros ->. by apply n, (HashTable.rep_disjoint _ _ _ Hr c i x). }
    exists (upd chains c (xs ++ ys)). constructor; simpl; [done|..].
    + intros i y (Hy & Hne)%Hsub. destruct (Hc _ _ Hy) as (p' & Hp' & Hf' & Hk' & Hi). exists p'. rewrite Hcell.
      split_and!; try done. rewrite lookup_delete_ne; [done|]. congruence.
    + intros k y [Hne Hk']%lookup_delete_Some. destruct (Hm _ _ Hk') as (p' & Hp' & <- & Hin'). exists p'.
      rewrite Hcell. split_and!; [done..|]. apply in_upd; [|done]. intros e. rewrite e, Ec in Hin'. apply elem_of_app. apply elem_of_app in Hin' as [|[->|]%elem_of_cons]; [by left|congruence|by right].
  - intros y Hy Hu. apply Ho; [done|]. by eapply unhashed_chains.
Qed.

(** ** Relocating a control block *)

(** A control block [b] that [buf_relocate] accepts, at its place in the LRU
    list and in the page hash, and a destination [d] outside both. *)
Record relocatable (s : pool) (M : gmap (Z * Z) nat) (xs : list nat) (b : nat) (ys : list nat) (d : nat)
    (p : buf_page) : Prop := Relocatable {
  rl_hash : represents s M;
  rl_LRU : UtList.rep (LRU s) (xs ++ b :: ys);
  rl_page : pages s !! b = Some p;
  rl_hashed : M !! page_key p = Some b;
  rl_idle : io_fix p = BUF_IO_NONE /\ buf_fix_count p = 0;
  rl_links : is_Some (list_links s !! b);
  rl_dest : is_Some (pages s !! d) /\ d ∉ xs ++ b :: ys /\ unhashed M d }.

Lemma hashed_links s M k x : represents s M -> M !! k = Some x ->
  exists p, pages s !! x = Some p /\ in_file p /\ is_Some (hash s !! x).
Proof.
  intros (chains & [Hr Hc Hm]) Hk. destruct (Hm _ _ Hk) as (p & Hp & _ & Hin).
  destruct (Hc _ _ Hin) as (p' & Hp' & Hf & _). simplify_eq. eexists. split_and!; [done..|].
  destruct (cell_node (key_fold k) _ _ _ Hr) as (q & _ & Hs). by eapply seg_lookup.
Qed.

(** The copy has the fields and links of the original and nothing else has
    changed. *)
Lemma copy_page_ok s M xs b ys d p :
  relocatable s M xs b ys d p ->
  exists s', copy_page b d s = Ok s' /\ represents s' M /\ UtList.rep (LRU s') (xs ++ b :: ys) /\
    pages s' = <[d := p]> (pages s) /\ LRU_old s' = LRU_old s /\ watch s' = watch s /\
    list_links s' !! d = list_links s !! b /\ is_Some (hash s' !! d) /\ is_Some (nodes (LRU s') !! d).
Proof.
  intros [Hh HL Hp Hk _ [l Hl] (Hd & Hdn & Hu)]. destruct (hashed_links _ _ _ _ Hh Hk) as (p' & Hp' & _ & [h Hhb]).
  destruct (UtList.dseg_lookup _ _ _ _ b (UtList.rep_seg _ _ HL)) as [n Hn]; [set_solver|]. destruct Hd as [q Hq].
  unfold copy_page. rewrite Hp, Hhb, Hl, Hn, Hq. cbn [deref rbind]. eexists. split; [done|]. simpl.
  rewrite !lookup_insert_eq. split_and!; eauto.
  - eapply represents_frame; [..|exact Hh]; simpl; [done|..]; intros k x Hx; apply lookup_insert_ne;
      intros ->; by apply (Hu k).
  - destruct HL as [Hs Hst Hsp Hc Hnd Hsz]. constructor; simpl; try done. by apply UtList.dseg_insert.
Qed.

Lemma relocate_LRU_ok s xs b ys d :
  UtList.rep (LRU s) (xs ++ b :: ys) -> d ∉ xs ++ b :: ys -> is_Some (nodes (LRU s) !! d) ->
  exists l, relocate_LRU b d s = Ok (set_LRU l (if decide (LRU_old s = Some b) then Some d else LRU_old s) s) /\
    UtList.rep l (xs ++ d :: ys).
Proof.
  intros HL Hd Hdn. pose proof (UtList.rep_size _ _ HL) as Hsz. rewrite length_app in Hsz. simpl in Hsz.
  pose proof (proj2 (proj1 (UtList.dseg_app _ _ _ _ _) (UtList.rep_seg _ _ HL))) as [Hb _].
  destruct (UtList.ut_list_remove_rep _ _ _ _ HL) as (l1 & E1 & H1 & Ho1).
  assert (d ∉ xs ++ ys) as Hd' by set_solver. assert (is_Some (nodes l1 !! d)) as Hn1 by (rewrite Ho1; done).
  unfold relocate_LRU. rewrite Hb, E1. cbn [deref rbind prev].
  destruct xs as [|x xs _] using rev_ind.
  - destruct (UtList.ut_list_prepend_rep l1 ys d) as (l2 & E2 & H2 & _); [done..|simpl in Hsz; lia|].
    simpl. rewrite E2. cbn [deref rbind]. by exists l2.
  - rewrite UtList.final_app. simpl. unfold UtList.final. simpl. rewrite <- (assoc_L (++)) in *. simpl in *.
    rewrite length_app in Hsz. simpl in Hsz.
    destruct (UtList.ut_list_insert_rep l1 xs x ys d) as (l2 & E2 & H2 & _); [done..| |].
    { rewrite length_app. simpl. lia. }
    rewrite E2. cbn [deref rbind]. by exists l2.
Qed.

(** The state after a relocation. *)
Record relocated (s : pool) (M : gmap (Z * Z) nat) (xs : list nat) (b : nat) (ys : list nat) (d : nat)
    (p : buf_page) (s' : pool) : Prop := Relocated {
  rd_hash : represents s' (<[page_key p := d]> M);
  rd_LRU : UtList.rep (LRU s') (xs ++ d :: ys);
  rd_pages : pages s' = <[d := p]> (pages s);
  rd_LRU_old : LRU_old s' = if decide (LRU_old s = Some b) then Some d else LRU_old s;
  rd_links : list_links s' !! d = list_links s !! b }.

(** C31: [buf_relocate] replaces a control block by its copy: the copy
    takes its place in the LRU list, at the same position, and in the page
    hash, where every other page is still found. *)
Theorem relocate_replaces s M xs b ys d p :
  relocatable s M xs b ys d p ->
  exists s', buf_relocate b d s = Ok s' /\ relocated s M xs b ys d p s'.
Proof.
  intros Hrl. pose proof Hrl as [Hh HL Hp Hk [Hio Hfix] Hl (Hd & Hdn & Hu)].
  destruct (hashed_links _ _ _ _ Hh Hk) as (p' & Hp' & Hf & _). replace p' with p in Hf by congruence.
  destruct (copy_page_ok _ _ _ _ _ _ _ Hrl) as (s1 & E1 & Hh1 & HL1 & Hpg1 & Ho1 & Hw1 & Hl1 & Hhd1 & Hn1).
  destruct (relocate_LRU_ok s1 xs b ys d) as (l2 & E2 & HL2); [done..|]. set (s2 := set_LRU _ _ s1) in *.
  assert (b <> d) as Hbd by set_solver.
  destruct (hash_delete_ok s2 M b p) as (s3 & E3 & Hh3 & Es3 & _ & Hk3);
    [by eapply represents_frame; [..|exact Hh1]|simpl; by rewrite Hpg1, lookup_insert_ne|done|].
  destruct (hash_insert_ok s3 (delete (page_key p) M) d p) as (s4 & E4 & Hh4 & Es4 & _).
  { done. }
  { rewrite Es3. simpl. rewrite Hpg1. apply lookup_insert_eq. }
  { done. }
  { apply lookup_delete_eq. }
  { rewrite Hk3; done. }
  unfold buf_relocate. rewrite Hp. cbn [deref rbind]. rewrite bool_decide_eq_true_2 by done. cbn [ut_a rbind].
  rewrite Hfix. cbn [Z.eqb ut_a rbind]. rewrite E1. cbn [rbind]. rewrite E2. cbn [rbind].
  change (buf_page_address_fold _ _) with (key_fold (page_key p)). rewrite E3. cbn [rbind]. rewrite E4.
  exists s4. split; [done|]. rewrite insert_delete_eq in Hh4.
  constructor; [done|..]; rewrite Es4; simpl; rewrite Es3; simpl; (done || congruence || by rewrite Ho1).
Qed.

(** Pages 5 and 9 of tablespace 7 on the chain of the only cell, and a free
    descriptor. *)
Definition zip_page (off : Z) : buf_page :=
  mkPage 7 off 0 BUF_IO_NONE BUF_BLOCK_ZIP_PAGE 0 0 (Some 50%nat) 0 0 false false 0 false 0 0 None 0 0 false 0 0 false.

Definition small_pool : pool :=
  mkPool {[ 1%nat := zip_page 5; 2%nat := zip_page 9; 3%nat := zip_page 0 ]} (mkTable [Some 1%nat])
    {[ 1%nat := Some 2%nat; 2%nat := None; 3%nat := None ]}
    {[ 1%nat := mkNode None None; 2%nat := mkNode None None; 3%nat := mkNode None None ]}
    (mkList {[ 1%nat := mkNode None (Some 2%nat); 2%nat := mkNode (Some 1%nat) None; 3%nat := mkNode None None ]}
       (mkBase 2 (Some 1%nat) (Some 2%nat))) (Some 2%nat) 100%nat.

Definition small_map : gmap (Z * Z) nat := {[ (7, 5) := 1%nat; (7, 9) := 2%nat ]}.

Lemma small_represents : represents small_pool small_map.
Proof.
  exists (fun i => if decide (i = 0%nat) then [1; 2]%nat else []). constructor.
  - constructor; simpl; [lia|..].
    + intros [|i] p Hp; simpl in *; [simplify_eq; eauto 10|done].
    + intros i. case_decide; [compute_decide|constructor].
    + intros i j x. repeat case_decide; subst; set_solver.
  - intros i x. case_decide as Hi; [subst|by intros ?%elem_of_nil].
    rewrite !elem_of_cons. intros [->|[->|[]%elem_of_nil]]; eexists; split_and!; (reflexivity || done).
  - intros k x. unfold small_map. intros [[<- <-]|[_ [<- <-]%lookup_singleton_Some]]%lookup_insert_Some;
      eexists; split_and!; try reflexivity; vm_compute cell_of; simpl; set_solver.
Qed.

Lemma small_relocatable : relocatable small_pool small_map [1%nat] 2 [] 3 (zip_page 9).
Proof.
  constructor; simpl; try done; try by eexists.
  - apply small_represents.
  - constructor; simpl; try done. compute_decide.
  - split; [by eexists|]. split; [set_solver|].
    intros k. unfold small_map. intros [[_ ?]|[_ [_ ?]%lookup_singleton_Some]]%lookup_insert_Some; done.
Qed.

Lemma relocate_replaces_witness :
  exists s', buf_relocate 2 3 small_pool = Ok s' /\
    relocated small_pool small_map [1%nat] 2 [] 3 (zip_page 9) s'.
Proof. apply (relocate_replaces small_pool small_map [1%nat] 2 [] 3 (zip_page 9)). exact small_relocatable. Defined.
End BufPage.
