(* ===== verification/BufWatch.v ===== *)
(** * Buffer pool watches (buf/buf0buf.cc)

    A purge thread that buffers a deletion watches a page that is not in the
    buffer pool: a sentinel of the array [buf_pool->watch] stands for the page
    in the page hash until the page is read in or the watch is dropped.  The
    functions are those of the release build, for a thread that holds the
    latches they ask for; [buf_pool_watch_set] gives up the latch of the hash
    cell on its way, and what other threads do meanwhile is an argument. *)
From S2P Require Import Prelude Results UtList HashTable BufPage.
Local Open Scope Z_scope.

Module BufWatch.
Import BufPage.
Local Open Scope mc_scope.

Section watches.
(** [sizeof(buf_page_t)], the macro [BUF_POOL_WATCH_SIZE] and the index of the
    buffer pool instance. *)
Context (sizeof_page : nat) (BUF_POOL_WATCH_SIZE : nat) (pool_index : Z).

(** [&buf_pool->watch[i]] *)
Definition watch_at (s : pool) (i : nat) : nat := (watch s + i * sizeof_page)%nat.

(** Lines 1981-2006. *)
Definition buf_pool_watch_is_sentinel (s : pool) (bpage : nat) : bool :=
  negb ((bpage <? watch_at s 0)%nat || (watch_at s BUF_POOL_WATCH_SIZE <=? bpage)%nat).

Definition set_page (x : nat) (p : buf_page) (s : pool) : pool := set_pages (<[x := p]> (pages s)) s.

(** The code at the label [page_found], lines 2036-2050. *)
Definition page_found (bpage : nat) (s : pool) : res (option nat * pool) :=
  if negb (buf_pool_watch_is_sentinel s bpage) then Ok (Some bpage, s)
  else
    let! p := deref (pages s !! bpage) in
    Ok (None, set_page bpage (set_fix_count (u32 (buf_fix_count p + 1)) p) s).

(** The loop of lines 2079-2119 over the sentinels from [i], and the error
    behind it. *)
Fixpoint watch_loop (n : nat) (sp off fold : Z) (i : nat) (s : pool) : res (option nat * pool) :=
  match n with
  | O => Fault
  | S n =>
      let bpage := watch_at s i in
      let! p := deref (pages s !! bpage) in
      match state p with
      | BUF_BLOCK_POOL_WATCH =>
          let p := set_watch_fields BUF_BLOCK_ZIP_PAGE (u32 sp) (u32 off) 1 pool_index p in
          let! s := hash_insert fold bpage (set_page bpage p s) in Ok (None, s)
      | BUF_BLOCK_ZIP_PAGE => watch_loop n sp off fold (S i) s
      | _ => Fault
      end
  end.

(** Lines 2014-2129; [others] runs while the latch is released. *)
Definition buf_pool_watch_set (others : pool -> pool) (sp off fold : Z) (s : pool) : res (option nat * pool) :=
  let! bpage := buf_page_hash_get_low s sp off fold in
  match bpage with
  | Some x => page_found x s
  | None =>
      let s := others s in
      let! bpage := buf_page_hash_get_low s sp off fold in
      match bpage with
      | Some x => page_found x s
      | None => watch_loop BUF_POOL_WATCH_SIZE sp off fold 0 s
      end
  end.

(** Lines 2136-2159. *)
Definition buf_pool_watch_remove (fold : Z) (w : nat) (s : pool) : res pool :=
  let! s := hash_delete fold w s in
  let! p := deref (pages s !! w) in
  Ok (set_page w (set_state BUF_BLOCK_POOL_WATCH (set_fix_count 0 p)) s).

(** buf0buf.ic, lines 1161-1179. *)
Definition buf_block_unfix (x : nat) (s : pool) : res pool :=
  let! p := deref (pages s !! x) in
  Ok (set_page x (set_fix_count (u32 (buf_fix_count p - 1)) p) s).

(** Lines 2164-2201; a missing page is dereferenced. *)
Definition buf_pool_watch_unset (sp off : Z) (s : pool) : res pool :=
  let fold := buf_page_address_fold sp off in
  let! bpage := buf_page_hash_get_low s sp off fold in
  let! x := deref bpage in
  if negb (buf_pool_watch_is_sentinel s x) then buf_block_unfix x s
  else
    let! p := deref (pages s !! x) in
    let p := set_fix_count (u32 (buf_fix_count p - 1)) p in
    let s := set_page x p s in
    if buf_fix_count p =? 0 then buf_pool_watch_remove fold x s else Ok s.

(** Lines 2208-2229; a missing page counts as read in. *)
Definition buf_pool_watch_occurred (sp off : Z) (s : pool) : res bool :=
  let! bpage := buf_page_hash_get_low s sp off (buf_page_address_fold sp off) in
  match bpage with
  | None => Ok true
  | Some x => Ok (negb (buf_pool_watch_is_sentinel s x))
  end.

(** ** What the page hash means to a watcher *)

(** A watched page with its number of watchers, or a page in the pool with its
    control block and fix count. *)
Inductive entry := Watched (n : Z) | Loaded (x : nat) (n : Z).

Definition view (s : pool) (M : gmap (Z * Z) nat) (k : Z * Z) : option entry :=
  x ← M !! k; p ← pages s !! x;
  Some (if buf_pool_watch_is_sentinel s x then Watched (buf_fix_count p) else Loaded x (buf_fix_count p)).

(** A free sentinel is outside the page hash, a used one stands for its page. *)
Definition sentinel_ok (s : pool) (M : gmap (Z * Z) nat) (x : nat) : Prop :=
  exists p, pages s !! x = Some p /\
    ((state p = BUF_BLOCK_POOL_WATCH /\ unhashed M x /\ is_Some (hash s !! x)) \/
     (state p = BUF_BLOCK_ZIP_PAGE /\ M !! page_key p = Some x /\ 0 < buf_fix_count p < 2 ^ 32)).

Record watch_inv (s : pool) (M : gmap (Z * Z) nat) : Prop := WatchInv {
  wi_hash : represents s M;
  wi_sentinels : forall i, (i < BUF_POOL_WATCH_SIZE)%nat -> sentinel_ok s M (watch_at s i);
  wi_array : forall k x, M !! k = Some x -> buf_pool_watch_is_sentinel s x = true ->
    exists i, (i < BUF_POOL_WATCH_SIZE)%nat /\ x = watch_at s i }.

(** The state of a pool as a map from pages to entries. *)
Definition shows (s : pool) (A : gmap (Z * Z) entry) : Prop :=
  exists M, watch_inv s M /\ forall k, A !! k = view s M k.

Definition is_watched (e : entry) : bool := match e with Watched _ => true | Loaded _ _ => false end.

Definition watched_keys (A : gmap (Z * Z) entry) : gset (Z * Z) :=
  dom (filter (fun ke => is_watched ke.2 = true) A).

(** The operations on such a map. *)
Definition spec_set (k : Z * Z) (A : gmap (Z * Z) entry) : option nat * gmap (Z * Z) entry :=
  match A !! k with
  | Some (Loaded x _) => (Some x, A)
  | Some (Watched n) => (None, <[k := Watched (n + 1)]> A)
  | None => (None, <[k := Watched 1]> A)
  end.

Definition spec_unset (k : Z * Z) (A : gmap (Z * Z) entry) : gmap (Z * Z) entry :=
  match A !! k with
  | Some (Loaded x n) => <[k := Loaded x (n - 1)]> A
  | Some (Watched n) => if n =? 1 then delete k A else <[k := Watched (n - 1)]> A
  | None => A
  end.

(** A page address, a watch that can take one more watcher, and a page in the
    pool that somebody has fixed. *)
Definition page_address (k : Z * Z) : Prop := 0 <= k.1 < 2 ^ 32 /\ 0 <= k.2 < 2 ^ 32.
Definition count_fits (k : Z * Z) (A : gmap (Z * Z) entry) : Prop :=
  forall n, A !! k = Some (Watched n) -> n + 1 < 2 ^ 32.
Definition fixed (k : Z * Z) (A : gmap (Z * Z) entry) : Prop :=
  forall x n, A !! k = Some (Loaded x n) -> 0 < n < 2 ^ 32.

(** ** Lemmas on the invariant *)

Implicit Types (s : pool) (M : gmap (Z * Z) nat) (A : gmap (Z * Z) entry).

Context (Hsizeof : (0 < sizeof_page)%nat).

Lemma watch_at_inj s i j : watch_at s i = watch_at s j -> i = j.
Proof using Hsizeof. unfold watch_at. intros H%Nat.add_cancel_l. apply Nat.mul_cancel_r in H; lia. Qed.

Lemma watch_at_sentinel s i : (i < BUF_POOL_WATCH_SIZE)%nat -> buf_pool_watch_is_sentinel s (watch_at s i) = true.
Proof using Hsizeof.
  intros Hi. unfold buf_pool_watch_is_sentinel, watch_at.
  destruct (Nat.ltb_spec (watch s + i * sizeof_page) (watch s + 0 * sizeof_page)); [lia|].
  destruct (Nat.leb_spec (watch s + BUF_POOL_WATCH_SIZE * sizeof_page) (watch s + i * sizeof_page)); [nia|done].
Qed.

Lemma sentinel_ext s s' x : watch s = watch s' -> buf_pool_watch_is_sentinel s x = buf_pool_watch_is_sentinel s' x.
Proof. unfold buf_pool_watch_is_sentinel, watch_at. by intros ->. Qed.

(** What an entry depends on. *)
Lemma view_ext s s' M M' k :
  watch s' = watch s -> M' !! k = M !! k -> (forall x, M !! k = Some x -> pages s' !! x = pages s !! x) ->
  view s' M' k = view s M k.
Proof.
  intros Hw Hk Hp. unfold view. rewrite Hk. destruct (M !! k) as [x|]; [|done]. simpl. rewrite (Hp x) by done.
  destruct (pages s !! x); [|done]. simpl. by rewrite (sentinel_ext s' s).
Qed.

Lemma map_inj s M k k' x : represents s M -> M !! k = Some x -> M !! k' = Some x -> k = k'.
Proof.
  intros (chains & Hh) H1 H2. destruct (hd_map _ _ _ Hh _ _ H1) as (p & Hp & <- & _).
  destruct (hd_map _ _ _ Hh _ _ H2) as (p' & Hp' & <- & _). congruence.
Qed.

(** Control blocks in the page hash may change in all but their address and
    state. *)
Lemma represents_update s M x p p' :
  represents s M -> pages s !! x = Some p -> page_key p' = page_key p -> state p' = state p ->
  represents (set_page x p' s) M.
Proof.
  intros (chains & [Hr Hc Hm]) Hp Hkey Hst. exists chains.
  assert (forall y q, pages s !! y = Some q -> exists q', <[x := p']> (pages s) !! y = Some q' /\
    page_key q' = page_key q /\ state q' = state q) as Hsame.
  { intros y q Hq. destruct (decide (y = x)) as [->|Hne].
    - exists p'. rewrite lookup_insert_eq. by assert (q = p) as -> by congruence.
    - exists q. by rewrite lookup_insert_ne. }
  constructor; simpl; [done|..].
  - intros i y (q & Hq & Hf & Hk & ->)%Hc. destruct (Hsame y q Hq) as (q' & Hq' & Hk' & Hs'). exists q'.
    rewrite Hk'. split_and!; try done. unfold in_file, buf_page_in_file in *. by rewrite Hs'.
  - intros k y (q & Hq & <- & Hin)%Hm. destruct (Hsame y q Hq) as (q' & Hq' & Hk' & Hs'). by exists q'.
Qed.

Lemma view_update s M k x p n :
  represents s M -> M !! k = Some x -> pages s !! x = Some p -> forall k',
  view (set_page x (set_fix_count n p) s) M k' =
    if decide (k' = k) then Some (if buf_pool_watch_is_sentinel s x then Watched n else Loaded x n) else view s M k'.
Proof.
  intros Hh Hk Hp k'. case_decide as Hkk.
  - subst k'. unfold view. rewrite Hk. simpl. by rewrite lookup_insert_eq.
  - apply view_ext; [done..|]. intros y Hy. apply lookup_insert_ne. intros <-. apply Hkk. by eapply map_inj.
Qed.

(** Changing the fix count of a page in the pool or of a watch in use. *)
Lemma update_fix s M (A : gmap (Z * Z) entry) k x p n :
  watch_inv s M -> (forall k, A !! k = view s M k) -> M !! k = Some x -> pages s !! x = Some p ->
  (buf_pool_watch_is_sentinel s x = true -> 0 < n < 2 ^ 32) ->
  watch_inv (set_page x (set_fix_count n p) s) M /\
  shows (set_page x (set_fix_count n p) s)
    (<[k := if buf_pool_watch_is_sentinel s x then Watched n else Loaded x n]> A).
Proof.
  intros [Hh Hs Ha] HA Hk Hp Hn. set (s' := set_page _ _ s).
  assert (watch_inv s' M) as Hinv.
  { constructor; [by eapply represents_update|..].
    - intros i Hi. destruct (Hs i Hi) as (q & Hq & Hcase). unfold sentinel_ok. simpl. fold (watch_at s i).
      change (watch_at s' i) with (watch_at s i).
      destruct (decide (watch_at s i = x)) as [<-|Hne].
      + exists (set_fix_count n p). rewrite lookup_insert_eq. split; [done|]. simplify_eq.
        destruct Hcase as [(_ & Hu & _)|(Hst & Hk' & _)]; [by destruct (Hu k)|]. right. simpl.
        split_and!; [done|done|apply Hn, watch_at_sentinel, Hi..].
      + exists q. by rewrite lookup_insert_ne.
    - exact Ha. }
  split; [done|]. exists M. split; [done|]. intros k'. unfold s'. rewrite (view_update s M k) by done.
  case_decide as Hkk; [subst; by rewrite lookup_insert_eq|]. by rewrite lookup_insert_ne, HA.
Qed.

(** What [buf_page_hash_get_low] finds, seen through the entries. *)
Lemma shows_lookup s M (A : gmap (Z * Z) entry) k :
  watch_inv s M -> (forall k, A !! k = view s M k) ->
  match M !! k with
  | None => A !! k = None
  | Some x => exists p, pages s !! x = Some p /\
      A !! k = Some (if buf_pool_watch_is_sentinel s x then Watched (buf_fix_count p) else Loaded x (buf_fix_count p)) /\
      (buf_pool_watch_is_sentinel s x = true -> 0 < buf_fix_count p < 2 ^ 32 /\ state p = BUF_BLOCK_ZIP_PAGE /\ page_key p = k)
  end.
Proof.
  intros [Hh Hs Ha] HA. destruct (M !! k) as [x|] eqn:Ek.
  - destruct (hashed_links _ _ _ _ Hh Ek) as (p & Hp & _). exists p. split; [done|]. split.
    + rewrite HA. unfold view. rewrite Ek. simpl. by rewrite Hp.
    + intros Hx. destruct (Ha _ _ Ek Hx) as (i & Hi & ->). destruct (Hs i Hi) as (q & Hq & Hcase). simplify_eq.
      destruct Hcase as [(_ & Hu & _)|(Hst & Hk' & Hr)]; [by destruct (Hu k)|]. split; [done|]. split; [done|].
      by eapply map_inj.
  - rewrite HA. unfold view. by rewrite Ek.
Qed.

Lemma page_found_ok s M A k x :
  watch_inv s M -> (forall k, A !! k = view s M k) -> M !! k = Some x -> count_fits k A ->
  exists s', page_found x s = Ok ((spec_set k A).1, s') /\ shows s' (spec_set k A).2.
Proof using Hsizeof.
  intros Hi HA Hk Hfit. pose proof (shows_lookup s M A k Hi HA) as Hl. rewrite Hk in Hl.
  destruct Hl as (p & Hp & HAk & Hw). unfold page_found, spec_set. rewrite HAk.
  destruct (buf_pool_watch_is_sentinel s x) eqn:Ew; simpl.
  - rewrite Hp. cbn [deref rbind]. destruct (Hw eq_refl) as (Hr & _).
    pose proof (Hfit _ HAk) as Hlt. rewrite u32_small by lia. eexists. split; [done|].
    pose proof (update_fix s M A k x p (buf_fix_count p + 1) Hi HA Hk Hp) as [_ Hsh]; [lia|]. by rewrite Ew in Hsh.
  - exists s. split; [done|]. by exists M.
Qed.

(** The first free sentinel is taken: all in front of it are in use. *)
Lemma watch_loop_skips n sp off fold s M : forall i,
  watch_inv s M -> (i + n <= BUF_POOL_WATCH_SIZE)%nat ->
  (exists j p, (i <= j < i + n)%nat /\ pages s !! watch_at s j = Some p /\ state p = BUF_BLOCK_POOL_WATCH /\
    unhashed M (watch_at s j) /\ is_Some (hash s !! watch_at s j) /\
    watch_loop n sp off fold i s =
      let! s := hash_insert fold (watch_at s j)
        (set_page (watch_at s j) (set_watch_fields BUF_BLOCK_ZIP_PAGE (u32 sp) (u32 off) 1 pool_index p) s) in
      Ok (None, s)) \/
  (forall j, (i <= j < i + n)%nat -> exists p, pages s !! watch_at s j = Some p /\ M !! page_key p = Some (watch_at s j)).
Proof.
  induction n as [|n IH]; intros i Hi Hin; [right; lia|]. cbn [watch_loop].
  destruct (wi_sentinels _ _ Hi i) as (p & Hp & Hcase); [lia|]. rewrite Hp. cbn [deref rbind].
  destruct Hcase as [(Hst & Hu & Hl)|(Hst & Hk & _)]; rewrite Hst.
  - left. exists i, p. split_and!; try done; lia.
  - destruct (IH (S i) Hi) as [(j & q & Hj & H)|Hall]; [lia|left; exists j, q; split; [lia|exact H]|].
    right. intros j Hj. destruct (decide (j = i)) as [->|]; [by exists p|]. apply Hall. lia.
Qed.

(** A watcher for every sentinel leaves no room. *)
Lemma all_watched s M (A : gmap (Z * Z) entry) :
  watch_inv s M -> (forall k, A !! k = view s M k) ->
  (forall j, (j < BUF_POOL_WATCH_SIZE)%nat -> exists p, pages s !! watch_at s j = Some p /\ M !! page_key p = Some (watch_at s j)) ->
  (BUF_POOL_WATCH_SIZE <= size (watched_keys A))%nat.
Proof using Hsizeof.
  intros Hi HA Hall.
  set (key := fun j => match pages s !! watch_at s j with Some p => page_key p | None => (0, 0) end).
  assert (forall j, (j < BUF_POOL_WATCH_SIZE)%nat -> M !! key j = Some (watch_at s j)) as Hkey.
  { intros j (p & Hp & Hk)%Hall. unfold key. by rewrite Hp. }
  assert (NoDup (key <$> seq 0 BUF_POOL_WATCH_SIZE)) as Hnd.
  { apply NoDup_fmap_2_strong; [|apply NoDup_seq]. intros i j Hi'%elem_of_seq Hj%elem_of_seq Heq.
    pose proof (Hkey i ltac:(lia)) as H1. rewrite Heq, (Hkey j) in H1 by lia. injection H1 as H1.
    by apply (watch_at_inj s). }
  assert (length (key <$> seq 0 BUF_POOL_WATCH_SIZE) = BUF_POOL_WATCH_SIZE) as Hlen
    by (rewrite length_fmap; apply length_seq).
  apply Nat.le_trans with (length (key <$> seq 0 BUF_POOL_WATCH_SIZE)); [lia|]. rewrite <- (size_list_to_set (C := gset (Z * Z)) _ Hnd). apply subseteq_size.
  intros k (j & -> & Hj%elem_of_seq)%elem_of_list_to_set%list_elem_of_fmap. unfold watched_keys.
  pose proof (shows_lookup s M A (key j) Hi HA) as Hl. rewrite (Hkey j) in Hl by lia.
  destruct Hl as (p & Hp & HAk & _). rewrite watch_at_sentinel in HAk by lia.
  apply elem_of_dom. eexists. apply map_lookup_filter_Some. by split.
Qed.

Lemma set_page_twice x p q s : set_page x p (set_page x q s) = set_page x p s.
Proof. unfold set_page, set_pages. simpl. by rewrite insert_insert_eq. Qed.

(** A free sentinel is given a page and put into the page hash. *)
Lemma take_sentinel s M (A : gmap (Z * Z) entry) j p k :
  watch_inv s M -> (forall k, A !! k = view s M k) -> (j < BUF_POOL_WATCH_SIZE)%nat -> page_address k ->
  pages s !! watch_at s j = Some p -> unhashed M (watch_at s j) -> is_Some (hash s !! watch_at s j) ->
  M !! k = None ->
  exists s', hash_insert (key_fold k) (watch_at s j)
      (set_page (watch_at s j) (set_watch_fields BUF_BLOCK_ZIP_PAGE (u32 k.1) (u32 k.2) 1 pool_index p) s) = Ok s' /\
    shows s' (<[k := Watched 1]> A).
Proof using Hsizeof.
  intros Hi HA Hj [Hk1 Hk2] Hp Hu Hl Hno. rewrite !u32_small by done. set (x := watch_at s j) in *.
  set (p' := set_watch_fields _ _ _ _ _ p). set (s1 := set_page x p' s).
  assert (represents s1 M) as Hh1.
  { eapply represents_frame; [..|apply (wi_hash _ _ Hi)]; simpl; [done|done|]. intros k' y Hy.
    apply lookup_insert_ne. intros <-. by apply (Hu k'). }
  destruct k as [sp off]. change (sp, off) with (page_key p') in Hno |- *.
  destruct (hash_insert_ok s1 M x p') as (s2 & E & Hh2 & Es2 & _ & Hk2'); [done|simpl; apply lookup_insert_eq|done|done|done|].
  exists s2. split; [done|]. exists (<[page_key p' := x]> M).
  assert (forall y, y <> x -> pages s2 !! y = pages s !! y) as Hpg.
  { intros y Hy. rewrite Es2. simpl. by apply lookup_insert_ne. }
  assert (pages s2 !! x = Some p') as Hx by (rewrite Es2; apply lookup_insert_eq).
  assert (watch s2 = watch s) as Hw by (by rewrite Es2).
  assert (forall i, watch_at s2 i = watch_at s i) as Hat by (intros i; unfold watch_at; by rewrite Hw).
  split; [constructor; [done|..]|].
  - intros i Hilt. rewrite Hat. unfold sentinel_ok. destruct (decide (i = j)) as [->|Hne].
    { exists p'. split; [done|]. right. split_and!; [done|apply lookup_insert_eq|done..]. }
    assert (watch_at s i <> x) as Hix by (intros E'; by apply Hne, (watch_at_inj s)).
    destruct (wi_sentinels _ _ Hi i Hilt) as (q & Hq & Hcase). exists q. rewrite Hpg by done. split; [done|].
    destruct Hcase as [(Hst & Hu' & Hl')|(Hst & Hk & Hr)]; [left|right]; (split; [done|]).
    + split; [|by rewrite Hk2'].
      intros k' [[_ ?]|[_ Hk']]%lookup_insert_Some; [done|by apply (Hu' k')].
    + split; [|done]. rewrite lookup_insert_ne; [done|congruence].
  - intros k y. rewrite (sentinel_ext s2 s) by done. setoid_rewrite Hat.
    intros [[_ <-]|[_ Hk]]%lookup_insert_Some; [by exists j|]. by eapply (wi_array _ _ Hi).
  - intros k. destruct (decide (k = page_key p')) as [->|Hne].
    + unfold view. rewrite !lookup_insert_eq. simpl. rewrite Hx. simpl. rewrite (sentinel_ext s2 s) by done.
      unfold x. by rewrite watch_at_sentinel.
    + rewrite lookup_insert_ne, HA by done. symmetry. apply view_ext; [done|by rewrite lookup_insert_ne|].
      intros y Hy. apply Hpg. intros ->. by apply (Hu k).
Qed.

(** The last watcher is gone: the sentinel leaves the page hash. *)
Lemma release_sentinel s M A k x p :
  watch_inv s M -> (forall k, A !! k = view s M k) -> M !! k = Some x -> pages s !! x = Some p ->
  buf_pool_watch_is_sentinel s x = true -> page_key p = k ->
  exists s', buf_pool_watch_remove (key_fold k) x (set_page x (set_fix_count 0 p) s) = Ok s' /\ shows s' (delete k A).
Proof using Hsizeof.
  intros Hi HA Hk Hp Hx <-. set (k := page_key p) in *. destruct (wi_array _ _ Hi _ _ Hk Hx) as (j & Hj & Ej).
  pose proof (represents_update s M x p (set_fix_count 0 p) (wi_hash _ _ Hi) Hp eq_refl eq_refl) as Hh1.
  set (s1 := set_page _ _ s) in *.
  destruct (hash_delete_ok s1 M x (set_fix_count 0 p)) as (s2 & E & Hh2 & Es2 & Hl2 & Hk2);
    [done|simpl; apply lookup_insert_eq|done|].
  change (page_key (set_fix_count 0 p)) with k in E, Hh2.
  assert (pages s2 !! x = Some (set_fix_count 0 p)) as Hx2 by (rewrite Es2; apply lookup_insert_eq).
  unfold buf_pool_watch_remove. rewrite E. cbn [rbind]. rewrite Hx2. cbn [deref rbind].
  set (p3 := set_state _ _). set (s3 := set_page x p3 s2). exists s3. split; [done|]. exists (delete k M).
  assert (forall y, y <> x -> pages s3 !! y = pages s !! y) as Hpg.
  { intros y Hy. unfold s3, s1 in *. simpl. rewrite lookup_insert_ne, Es2 by done. simpl. by rewrite lookup_insert_ne. }
  assert (watch s3 = watch s) as Hw by (unfold s3; simpl; by rewrite Es2).
  assert (forall i, watch_at s3 i = watch_at s i) as Hat by (intros i; unfold watch_at; by rewrite Hw).
  assert (unhashed (delete k M) x) as Hux.
  { intros k' [Hne Hk']%lookup_delete_Some. by eapply Hne, map_inj; [apply (wi_hash _ _ Hi)|..]. }
  split; [constructor|].
  - eapply represents_frame; [..|exact Hh2]; [done|done|]. intros k' y Hy. apply lookup_insert_ne.
    intros <-. by apply (Hux k').
  - intros i Hilt. rewrite Hat. unfold sentinel_ok. destruct (decide (i = j)) as [->|Hne].
    { exists p3. rewrite <- Ej. split; [apply lookup_insert_eq|]. left. split_and!; [done|done|]. simpl.
      rewrite Hl2. simpl. destruct (hashed_links _ _ _ _ (wi_hash _ _ Hi) Hk) as (_ & _ & _ & ?). done. }
    assert (watch_at s i <> x) as Hix by (rewrite Ej; intros E'; by apply Hne, (watch_at_inj s)).
    destruct (wi_sentinels _ _ Hi i Hilt) as (q & Hq & Hcase). exists q. rewrite Hpg by done. split; [done|].
    destruct Hcase as [(Hst & Hu' & Hl')|(Hst & Hk' & Hr)]; [left|right]; (split; [done|]).
    + split; [|simpl; by rewrite Hk2]. intros k' [_ Hk']%lookup_delete_Some. by apply (Hu' k').
    + split; [|done]. rewrite lookup_delete_ne; [done|]. congruence.
  - intros k' y [_ Hk']%lookup_delete_Some. rewrite (sentinel_ext s3 s) by done. setoid_rewrite Hat.
    by eapply (wi_array _ _ Hi).
  - intros k'. destruct (decide (k' = k)) as [->|Hne].
    + unfold view. by rewrite !lookup_delete_eq.
    + rewrite lookup_delete_ne, HA by done. symmetry. apply view_ext; [done|by rewrite lookup_delete_ne|].
      intros y Hy. apply Hpg. intros ->. by eapply Hne, map_inj; [apply (wi_hash _ _ Hi)|..].
Qed.

(** What [buf_pool_watch_set] decides on: the entries at the first look, or
    those behind the interference when the page was not there. *)
Definition latest (k : Z * Z) (A A' : gmap (Z * Z) entry) : gmap (Z * Z) entry :=
  match A !! k with None => A' | Some _ => A end.

(** Both looks at the page hash and the search for a free sentinel. *)
Lemma watch_set_ok others s A A' k :
  shows s A -> (A !! k = None -> shows (others s) A') -> page_address k -> count_fits k (latest k A A') ->
  (latest k A A' !! k = None -> (size (watched_keys A') < BUF_POOL_WATCH_SIZE)%nat) ->
  exists s', buf_pool_watch_set others k.1 k.2 (key_fold k) s = Ok ((spec_set k (latest k A A')).1, s') /\
    shows s' (spec_set k (latest k A A')).2.
Proof using Hsizeof.
  intros (M & Hi & HA) Ho Hka Hfit Hroom. unfold buf_pool_watch_set, latest in *. destruct k as [sp off].
  simpl. unfold key_fold. simpl. rewrite (get_low_ok s M) by apply (wi_hash _ _ Hi). cbn [rbind].
  pose proof (shows_lookup s M A (sp, off) Hi HA) as Hl. destruct (M !! (sp, off)) as [x|] eqn:Ek.
  - destruct Hl as (p & _ & HAk & _). rewrite HAk in *. by eapply page_found_ok.
  - rewrite Hl in *. destruct (Ho eq_refl) as (M' & Hi' & HA').
    rewrite (get_low_ok _ M') by apply (wi_hash _ _ Hi'). cbn [rbind].
    pose proof (shows_lookup _ M' A' (sp, off) Hi' HA') as Hl'. destruct (M' !! (sp, off)) as [x|] eqn:Ek'.
    + by eapply page_found_ok.
    + pose proof (Hroom Hl') as Hlt.
      destruct (watch_loop_skips BUF_POOL_WATCH_SIZE sp off (buf_page_address_fold sp off) (others s) M' 0 Hi')
        as [(j & p & Hj & Hp & _ & Hu & Hln & ->)|Hall]; [lia|..].
      * destruct (take_sentinel (others s) M' A' j p (sp, off)) as (s' & E & Hsh); try done; [lia|].
        unfold key_fold in E. cbn [fst snd] in E. rewrite E. cbn [rbind]. exists s'. unfold spec_set. by rewrite Hl'.
      * exfalso. pose proof (all_watched _ _ _ Hi' HA') as Hle. apply Nat.lt_nge in Hlt. apply Hlt, Hle.
        intros j Hj. apply Hall. lia.
Qed.

(** The two kinds of control block the page hash can hold. *)
Lemma watch_unset_ok s A k :
  shows s A -> is_Some (A !! k) -> fixed k A ->
  exists s', buf_pool_watch_unset k.1 k.2 s = Ok s' /\ shows s' (spec_unset k A).
Proof using Hsizeof.
  intros (M & Hi & HA) [e He] Hfit. unfold buf_pool_watch_unset. destruct k as [sp off]. simpl.
  rewrite (get_low_ok s M) by apply (wi_hash _ _ Hi). cbn [rbind].
  pose proof (shows_lookup s M A (sp, off) Hi HA) as Hl. destruct (M !! (sp, off)) as [x|] eqn:Ek; [|congruence].
  destruct Hl as (p & Hp & HAk & Hw). cbn [deref rbind]. unfold spec_unset. rewrite HAk.
  pose proof (update_fix s M A (sp, off) x p (buf_fix_count p - 1) Hi HA Ek Hp) as Hup.
  destruct (buf_pool_watch_is_sentinel s x) eqn:Ew; cbn [negb].
  - destruct (Hw eq_refl) as (Hr & _ & Hkey). rewrite Hp. cbn [deref rbind]. rewrite u32_small by lia.
    change (buf_fix_count (set_fix_count ?n p)) with n.
    destruct (Z.eqb_spec (buf_fix_count p - 1) 0) as [E0|E0].
    + rewrite E0. destruct (Z.eqb_spec (buf_fix_count p) 1); [|lia]. by eapply (release_sentinel s M A (sp, off)).
    + destruct (Z.eqb_spec (buf_fix_count p) 1); [lia|]. eexists. split; [done|]. apply Hup. lia.
  - pose proof (Hfit _ _ HAk) as Hr. unfold buf_block_unfix. rewrite Hp. cbn [deref rbind].
    rewrite u32_small by lia. eexists. split; [done|]. by apply Hup.
Qed.

(** [buf_pool_watch_occurred] tells a page that is still watched from one that
    was read in. *)
Lemma watch_occurred_ok s A k :
  shows s A ->
  buf_pool_watch_occurred k.1 k.2 s = Ok (match A !! k with Some (Watched _) => false | _ => true end).
Proof.
  intros (M & Hi & HA). unfold buf_pool_watch_occurred. destruct k as [sp off]. simpl.
  rewrite (get_low_ok s M) by apply (wi_hash _ _ Hi). cbn [rbind].
  pose proof (shows_lookup s M A (sp, off) Hi HA) as Hl. destruct (M !! (sp, off)) as [x|]; [|by rewrite Hl].
  destruct Hl as (p & _ & -> & _). by destruct (buf_pool_watch_is_sentinel s x).
Qed.

Lemma watched_positive s A k n : shows s A -> A !! k = Some (Watched n) -> 0 < n < 2 ^ 32.
Proof.
  intros (M & Hi & HA) Hk. pose proof (shows_lookup s M A k Hi HA) as Hl. destruct (M !! k) as [x|]; [|congruence].
  destruct Hl as (p & _ & HAk & Hw). rewrite Hk in HAk. destruct (buf_pool_watch_is_sentinel s x); [|done].
  injection HAk as ->. by apply Hw.
Qed.

(** Dropping a watch that was just set gives back the entries. *)
Lemma spec_roundtrip s A k :
  shows s A -> (forall x n, A !! k <> Some (Loaded x n)) ->
  exists n, (spec_set k A).2 !! k = Some (Watched n) /\ spec_unset k (spec_set k A).2 = A /\ (spec_set k A).1 = None.
Proof.
  intros Hs Hno. unfold spec_set. destruct (A !! k) as [[n|x n]|] eqn:Ek; cbn [fst snd].
  - pose proof (watched_positive _ _ _ _ Hs Ek) as Hn. exists (n + 1). rewrite lookup_insert_eq. split_and!; [done| |done].
    unfold spec_unset. rewrite lookup_insert_eq. destruct (Z.eqb_spec (n + 1) 1); [lia|].
    rewrite insert_insert_eq, Z.add_simpl_r. by apply insert_id.
  - by destruct (Hno x n).
  - exists 1. rewrite lookup_insert_eq. split_and!; [done| |done]. unfold spec_unset. rewrite lookup_insert_eq.
    cbn [Z.eqb Pos.eqb]. by apply delete_insert_id.
Qed.

(** C32: With a sentinel to spare [buf_pool_watch_set] succeeds and
    implements the operation on entries, whatever other threads do while it
    has given up its latch: it returns the control block of a page in the pool
    and otherwise counts one more watcher. *)
Theorem watch_set_refines others s A A' k :
  shows s A -> (A !! k = None -> shows (others s) A') -> page_address k -> count_fits k (latest k A A') ->
  (latest k A A' !! k = None -> (size (watched_keys A') < BUF_POOL_WATCH_SIZE)%nat) ->
  exists s', buf_pool_watch_set others k.1 k.2 (key_fold k) s = Ok ((spec_set k (latest k A A')).1, s') /\
    shows s' (spec_set k (latest k A A')).2.
Proof using Hsizeof. exact (watch_set_ok others s A A' k). Qed.

(** [buf_pool_watch_unset] on a page that is watched or in the pool
    implements the operation on entries: the last watcher removes the sentinel
    from the page hash, and a page that was read in is unfixed. *)
Theorem watch_unset_refines s A k :
  shows s A -> is_Some (A !! k) -> fixed k A ->
  exists s', buf_pool_watch_unset k.1 k.2 s = Ok s' /\ shows s' (spec_unset k A).
Proof using Hsizeof. exact (watch_unset_ok s A k). Qed.

(** A page that is not in the pool is watched without a result,
    [buf_pool_watch_occurred] answers that it was not read in, and dropping
    the watch leaves the page hash with the entries it had before. *)
Theorem watch_roundtrip s A k :
  shows s A -> page_address k -> count_fits k A -> (forall x n, A !! k <> Some (Loaded x n)) ->
  (size (watched_keys A) < BUF_POOL_WATCH_SIZE)%nat ->
  exists s1 s2, buf_pool_watch_set id k.1 k.2 (key_fold k) s = Ok (None, s1) /\
    buf_pool_watch_occurred k.1 k.2 s1 = Ok false /\ buf_pool_watch_unset k.1 k.2 s1 = Ok s2 /\ shows s2 A.
Proof using Hsizeof.
  intros Hs Hka Hfit Hno Hroom. assert (latest k A A = A) as HL by (unfold latest; by destruct (A !! k)).
  destruct (watch_set_ok id s A A k) as (s1 & E1 & Hs1); rewrite ?HL; try done. rewrite HL in *.
  destruct (spec_roundtrip s A k Hs Hno) as (n & Hk & Hback & Hnone). rewrite Hnone in E1.
  destruct (watch_unset_ok s1 (spec_set k A).2 k Hs1) as (s2 & E2 & Hs2); [by eexists|unfold fixed; congruence|].
  rewrite Hback in Hs2. exists s1, s2. split_and!; try done. rewrite (watch_occurred_ok s1 _ k Hs1). by rewrite Hk.
Qed.
End watches.

(** One sentinel, which watches nothing. *)
Definition free_watch : buf_page :=
  mkPage 0 0 0 BUF_IO_NONE BUF_BLOCK_POOL_WATCH 0 0 None 0 0 false false 0 false 0 0 None 0 0 false 0 0 false.

Definition watch_pool : pool :=
  mkPool {[ 100%nat := free_watch; 1%nat := set_fix_count 1 (zip_page 5) ]} (HashTable.mkTable [Some 1%nat]) {[ 100%nat := None; 1%nat := None ]}
    ∅ (UtList.UT_LIST_INIT ∅) None 100%nat.

Definition watch_map : gmap (Z * Z) nat := {[ (7, 5) := 1%nat ]}.
Definition watch_entries : gmap (Z * Z) entry := {[ (7, 5) := Loaded 1 1 ]}.

Lemma watch_pool_shows : shows 8 1 watch_pool watch_entries.
Proof.
  exists watch_map. split.
  - constructor.
    + exists (fun i => if decide (i = 0%nat) then [1%nat] else []). constructor.
      * constructor; simpl; [lia|..].
        -- intros [|i] p Hp; simpl in *; [simplify_eq; eauto 10|done].
        -- intros i. case_decide; [compute_decide|constructor].
        -- intros i j x. repeat case_decide; subst; set_solver.
      * intros i x. case_decide as Hi; [subst|by intros ?%elem_of_nil]. intros ->%list_elem_of_singleton.
        eexists; split_and!; reflexivity.
      * intros k x. unfold watch_map. intros [<- <-]%lookup_singleton_Some. eexists; split_and!; [reflexivity..|].
        vm_compute HashTable.cell_of. simpl. set_solver.
    + intros i Hi. destruct i; [|lia]. exists free_watch. split; [done|]. left. split_and!; [done| |by eexists].
      intros k. unfold watch_map. intros [_ ?]%lookup_singleton_Some. done.
    + intros k x. unfold watch_map. by intros [<- <-]%lookup_singleton_Some.
  - intros k. unfold watch_entries, view, watch_map. destruct (decide ((7, 5) = k)) as [<-|Hne]; [done|].
    by rewrite !lookup_singleton_ne.
Qed.

Lemma watch_set_refines_witness :
  exists s', buf_pool_watch_set 8 1 0 id 7 9 (key_fold (7, 9)) watch_pool = Ok (None, s') /\
    shows 8 1 s' (<[(7, 9) := Watched 1]> watch_entries).
Proof.
  apply (watch_set_refines 8 1 0 ltac:(lia) id watch_pool watch_entries watch_entries (7, 9));
    [apply watch_pool_shows|intros _; apply watch_pool_shows|by split|by intros ?|vm_compute; lia].
Defined.

Lemma watch_unset_refines_witness :
  exists s', buf_pool_watch_unset 8 1 7 5 watch_pool = Ok s' /\
    shows 8 1 s' (<[(7, 5) := Loaded 1 0]> watch_entries).
Proof.
  apply (watch_unset_refines 8 1 ltac:(lia) watch_pool watch_entries (7, 5));
    [apply watch_pool_shows|by eexists|]. intros x n Hx. vm_compute in Hx. by injection Hx as _ <-.
Defined.

Lemma watch_roundtrip_witness :
  exists s1 s2, buf_pool_watch_set 8 1 0 id 7 9 (key_fold (7, 9)) watch_pool = Ok (None, s1) /\
    buf_pool_watch_occurred 8 1 7 9 s1 = Ok false /\ buf_pool_watch_unset 8 1 7 9 s1 = Ok s2 /\
    shows 8 1 s2 watch_entries.
Proof.
  apply (watch_roundtrip 8 1 0 ltac:(lia) watch_pool watch_entries (7, 9));
    [apply watch_pool_shows|by split|by intros ?|by intros ??|vm_compute; lia].
Defined.
End BufWatch.
