(* ===== verification/BufChunk.v ===== *)
(** * The layout of a chunk of buffer frames (buf/buf0buf.cc, os/os0proc.cc)

    The memory a buffer pool instance gets from the operating system, divided
    into block descriptors and page frames: [os_mem_alloc_large] and the
    arithmetic of [buf_chunk_init].  Addresses are integers. *)
From S2P Require Import Prelude.
Local Open Scope Z_scope.

Module BufChunk.

(** ut0ut.h lines 188 and 194, on 64-bit operands. *)
Definition ut_is_2pow (n : Z) : bool := Z.land n (u64 (n - 1)) =? 0.
Definition ut_2pow_remainder (n m : Z) : Z := Z.land n (u64 (m - 1)).

(** ut0ut.h line 201, on 64-bit operands. *)
Definition ut_2pow_round (n m : Z) : Z := Z.land n (u64 (Z.lnot (m - 1))).

(** ut0byte.ic, lines 80-94. *)
Definition ut_align (ptr align_no : Z) : Z := Z.land (u64 (u64 (ptr + align_no) - 1)) (u64 (Z.lnot (align_no - 1))).

(** ut0ut.cc, lines 467-484: at most 64 rounds lead to a power of two that is
    not smaller, or to 0. *)
Fixpoint power_up_loop (fuel : nat) (res n : Z) : option Z :=
  if res <? n then match fuel with O => None | S fuel => power_up_loop fuel (u64 (res * 2)) n end else Some res.

Definition ut_2_power_up (n : Z) : option Z := power_up_loop 64 1 n.

(** [buf_chunk_t] *)
Record buf_chunk := mkChunk { mem_size : Z; size : Z; mem : Z; blocks : Z }.

Section chunk.
(** The configuration, and the system calls that map memory: an address, or
    [None] for a failure. *)
Context (UNIV_PAGE_SIZE sizeof_block getpagesize os_large_page_size : Z) (os_use_large_pages : bool)
  (mmap shm_alloc : Z -> option Z).

(** os0proc.cc, lines 66-160: the address, the number of bytes and the total
    of allocated memory. *)
Definition os_mem_alloc_large (n total : Z) : option Z * Z * Z :=
  let conventional :=
    let size := ut_2pow_round (u64 (n + (getpagesize - 1))) getpagesize in
    match mmap size with
    | None => (None, size, total)
    | Some ptr => (Some ptr, size, u64 (total + size))
    end in
  if negb os_use_large_pages || (os_large_page_size =? 0) then conventional
  else
    let size := ut_2pow_round (u64 (n + (os_large_page_size - 1))) os_large_page_size in
    match shm_alloc size with
    | Some ptr => (Some ptr, size, u64 (total + size))
    | None => conventional
    end.

(** The size requested for [mem_size] bytes of frames, lines 1293-1298. *)
Definition chunk_request (mem_size : Z) : Z :=
  u64 (mem_size + ut_2pow_round (u64 (mem_size / UNIV_PAGE_SIZE * sizeof_block + (UNIV_PAGE_SIZE - 1))) UNIV_PAGE_SIZE).

(** The loop of lines 1340-1343. *)
Fixpoint descriptor_loop (fuel : nat) (blocks frame size : Z) : option (Z * Z) :=
  if frame <? blocks + size * sizeof_block then
    match fuel with
    | O => None
    | S fuel => descriptor_loop fuel blocks (frame + UNIV_PAGE_SIZE) (u64 (size - 1))
    end
  else Some (frame, size).

(** Lines 1278-1350 of [buf_chunk_init]: the chunk and its first frame, or
    [None] for the [NULL] of a failed allocation, with the total of allocated
    memory.  Every round of the loop takes one page away. *)
Definition chunk_layout (req total : Z) : option (option (buf_chunk * Z) * Z) :=
  let pages_size := ut_2pow_round req UNIV_PAGE_SIZE in
  let size_target := u64 (pages_size / UNIV_PAGE_SIZE - 1) in
  let '(ptr, bytes, total) := os_mem_alloc_large (chunk_request pages_size) total in
  match ptr with
  | None => Some (None, total)
  | Some mem =>
      let frame := ut_align mem UNIV_PAGE_SIZE in
      let size := u64 (bytes / UNIV_PAGE_SIZE - (if frame =? mem then 0 else 1)) in
      '(frame, size) ← descriptor_loop (Z.to_nat size) mem frame size;
      let size := if size_target <? size then size_target else size in
      Some (Some (mkChunk bytes size mem mem, frame), total)
  end.

(** ** Rounding *)

Lemma u64_land x y : 0 <= x < 2 ^ 64 -> Z.land x (u64 y) = Z.land x y.
Proof.
  intros Hx. unfold u64, wrap_u. rewrite <- (Z.land_ones y) by lia. rewrite (Z.land_comm y), Z.land_assoc.
  rewrite Z.land_ones, Z.mod_small by lia. done.
Qed.

Lemma ldiff_pow2 x k : 0 <= k -> Z.land x (Z.lnot (2 ^ k - 1)) = x / 2 ^ k * 2 ^ k.
Proof.
  intros Hk. rewrite <- Z.ldiff_land. replace (2 ^ k - 1) with (Z.ones k) by (rewrite Z.ones_equiv; lia).
  rewrite Z.ldiff_ones_r by done. by rewrite Z.shiftl_mul_pow2, Z.shiftr_div_pow2 by done.
Qed.

Lemma ut_2pow_round_spec n k : 0 <= n < 2 ^ 64 -> 0 <= k -> ut_2pow_round n (2 ^ k) = n / 2 ^ k * 2 ^ k.
Proof. intros Hn Hk. unfold ut_2pow_round. by rewrite u64_land, ldiff_pow2. Qed.

(** Rounding up: the smallest multiple that is not smaller. *)
Lemma round_up_spec n k :
  0 <= n -> 0 <= k -> n + 2 ^ k <= 2 ^ 64 ->
  let r := ut_2pow_round (u64 (n + (2 ^ k - 1))) (2 ^ k) in
  r mod 2 ^ k = 0 /\ n <= r < n + 2 ^ k.
Proof.
  intros Hn Hk Hmax. assert (0 < 2 ^ k) as Hp by (apply Z.pow_pos_nonneg; lia). cbv zeta.
  rewrite u64_small by lia. rewrite ut_2pow_round_spec by lia. split; [by apply Z.mod_mul; lia|].
  pose proof (Z.div_mod (n + (2 ^ k - 1)) (2 ^ k)). pose proof (Z.mod_pos_bound (n + (2 ^ k - 1)) (2 ^ k)). nia.
Qed.

Lemma ut_align_spec ptr k :
  0 <= ptr -> 0 <= k -> ptr + 2 ^ k <= 2 ^ 64 - 1 ->
  ut_align ptr (2 ^ k) mod 2 ^ k = 0 /\ ptr <= ut_align ptr (2 ^ k) < ptr + 2 ^ k.
Proof.
  intros Hn Hk Hmax. assert (0 < 2 ^ k) as Hp by (apply Z.pow_pos_nonneg; lia). unfold ut_align.
  rewrite (u64_small (ptr + 2 ^ k)) by lia. replace (ptr + 2 ^ k - 1) with (ptr + (2 ^ k - 1)) by lia.
  apply (round_up_spec ptr k); lia.
Qed.

(** ** The layout *)

(** Once the descriptors fit in front of the frames the loop stops, after
    [d] pages. *)
Lemma descriptor_loop_ok blocks D : forall fuel frame size,
  (Z.to_nat D <= fuel)%nat -> 0 <= D <= size -> size < 2 ^ 64 ->
  blocks + (size - D) * sizeof_block <= frame + D * UNIV_PAGE_SIZE ->
  exists d, 0 <= d <= D /\ descriptor_loop fuel blocks frame size = Some (frame + d * UNIV_PAGE_SIZE, size - d) /\
    blocks + (size - d) * sizeof_block <= frame + d * UNIV_PAGE_SIZE.
Proof.
  revert D. intros D. remember (Z.to_nat D) as n eqn:En. revert D En.
  induction n as [|n IH]; intros D En fuel frame size Hf HD Hs Hstop;
    (destruct (Z.ltb_spec frame (blocks + size * sizeof_block)) as [Hlt|Hge];
     [|exists 0; split; [lia|]; split; [|lia]; destruct fuel; simpl;
       (destruct (Z.ltb_spec frame (blocks + size * sizeof_block)); [lia|]); f_equal; f_equal; lia]).
  - replace D with 0 in Hstop by lia. lia.
  - destruct fuel as [|fuel]; [lia|]. simpl. destruct (Z.ltb_spec frame (blocks + size * sizeof_block)); [|lia].
    rewrite u64_small by lia.
    destruct (IH (D - 1) ltac:(lia) fuel (frame + UNIV_PAGE_SIZE) (size - 1)) as (d & Hd & E & Hfit); [lia..| |].
    { replace (size - 1 - (D - 1)) with (size - D) by lia. lia. }
    exists (d + 1). split; [lia|]. rewrite E. split; [f_equal; f_equal; lia|].
    replace (size - (d + 1)) with (size - 1 - d) by lia. lia.
Qed.

(** What the code relies on: page sizes that are powers of two, and mappings
    that lie inside the address space. *)
Record config (k g : Z) : Prop := Config {
  cf_page : 0 <= k /\ UNIV_PAGE_SIZE = 2 ^ k;
  cf_os_page : 0 <= g /\ getpagesize = 2 ^ g;
  cf_large : os_use_large_pages = true -> os_large_page_size <> 0 ->
    exists l, 0 <= l /\ os_large_page_size = 2 ^ l;
  cf_block : 0 < sizeof_block;
  cf_mmap : forall sz p, mmap sz = Some p -> 0 < p /\ p + sz < 2 ^ 64;
  cf_shm : forall sz p, shm_alloc sz = Some p -> 0 < p /\ p + sz < 2 ^ 64 }.

(** The request is at least a page and none of the sizes overflows. *)
Definition request_ok (req : Z) : Prop :=
  UNIV_PAGE_SIZE <= req /\
  req + req / UNIV_PAGE_SIZE * sizeof_block + UNIV_PAGE_SIZE + getpagesize + os_large_page_size < 2 ^ 64 /\
  0 <= os_large_page_size.

(** An allocation returns at least the requested bytes. *)
Lemma alloc_enough k g n total ptr bytes total' :
  config k g -> 0 <= n -> n + getpagesize + os_large_page_size < 2 ^ 64 -> 0 <= os_large_page_size ->
  os_mem_alloc_large n total = (Some ptr, bytes, total') ->
  n <= bytes /\ 0 < ptr /\ ptr + bytes < 2 ^ 64.
Proof.
  intros [_ [Hg Eg] Hl _ Hmm Hsh] Hn Hmax Hl0. unfold os_mem_alloc_large.
  assert (n <= ut_2pow_round (u64 (n + (getpagesize - 1))) getpagesize) as Hle.
  { rewrite Eg in *. apply round_up_spec; lia. }
  assert (forall r, match mmap r with
    | Some ptr => (Some ptr, r, u64 (total + r)) | None => (None, r, total) end = (Some ptr, bytes, total') ->
    bytes = r /\ 0 < ptr /\ ptr + bytes < 2 ^ 64) as Hconv.
  { intros r. destruct (mmap r) as [q|] eqn:Em; [|done]. intros [= <- <- _]. split; [done|]. by eapply Hmm. }
  destruct (negb os_use_large_pages || (os_large_page_size =? 0)) eqn:Eb.
  - intros [-> ?]%Hconv. lia.
  - apply orb_false_elim in Eb as [Eb1%negb_false_iff Eb2%Z.eqb_neq].
    destruct (Hl Eb1 Eb2) as (l & Hl' & El).
    destruct (shm_alloc _) as [q|] eqn:Es; [|intros [-> ?]%Hconv; lia].
    intros [= <- <- _]. pose proof (Hsh _ _ Es). rewrite El in *. pose proof (round_up_spec n l Hn Hl' ltac:(rewrite Eg in *; pose proof (Z.pow_nonneg 2 g); lia)) as [_ ?]. lia.
Qed.

(** The frames of a chunk: aligned, behind the descriptors, inside the
    memory. *)
Record layout (c : buf_chunk) (frame : Z) : Prop := Layout {
  lo_blocks : blocks c = mem c;
  lo_aligned : frame mod UNIV_PAGE_SIZE = 0;
  lo_before : blocks c + size c * sizeof_block <= frame;
  lo_inside : frame + size c * UNIV_PAGE_SIZE <= mem c + mem_size c;
  lo_space : 0 < mem c /\ mem c + mem_size c < 2 ^ 64 }.

(** The page arithmetic behind the layout: [T] pages of which the descriptors
    of [N] blocks need [C]. *)
Lemma enough_pages P B N C bytes mem frame0 T :
  0 < P -> 0 < B -> 1 <= N -> N * B <= C * P -> (N + C) * P <= bytes -> mem <= frame0 < mem + P ->
  T = bytes / P - (if frame0 =? mem then 0 else 1) ->
  N - 1 <= T /\ mem + (N - 1) * B <= frame0 + (T - (N - 1)) * P /\ frame0 + T * P <= mem + bytes.
Proof.
  intros HP HB HN HC Hb Hf ->.
  assert (N + C <= bytes / P) by (apply Z.div_le_lower_bound; lia).
  pose proof (Z.mul_div_le bytes P HP). assert (0 <= C) by nia.
  destruct (Z.eqb_spec frame0 mem); (split; [nia|]); split; nia.
Qed.

(** The bytes asked for: [N] pages of frames and the [C] pages their
    descriptors need. *)
Lemma chunk_request_ok k g N :
  config k g -> 1 <= N ->
  N * UNIV_PAGE_SIZE + N * sizeof_block + UNIV_PAGE_SIZE < 2 ^ 64 ->
  exists C, chunk_request (N * UNIV_PAGE_SIZE) = (N + C) * UNIV_PAGE_SIZE /\
    N * sizeof_block <= C * UNIV_PAGE_SIZE < N * sizeof_block + UNIV_PAGE_SIZE.
Proof.
  intros [[Hk Ek] _ _ HB _ _] HN Hmax.
  assert (0 < UNIV_PAGE_SIZE) as HP by (rewrite Ek; apply Z.pow_pos_nonneg; lia).
  assert (0 <= N * sizeof_block /\ 0 <= N * UNIV_PAGE_SIZE) as [HNB HNP] by nia.
  unfold chunk_request. rewrite Z.div_mul by lia.
  pose proof (round_up_spec (N * sizeof_block) k HNB Hk) as Hr. rewrite <- Ek in Hr. destruct Hr as [Hm Hb]; [lia|].
  apply Z.mod_divide in Hm as [C HC]; [|lia]. exists C. rewrite HC in *. rewrite u64_small by lia. lia.
Qed.

(** The chunk that is cut out of [bytes] bytes at the address [ptr]. *)
Lemma chunk_cut_ok k g N C ptr bytes :
  config k g -> 1 <= N -> N * sizeof_block <= C * UNIV_PAGE_SIZE -> (N + C) * UNIV_PAGE_SIZE <= bytes ->
  0 < ptr -> ptr + bytes < 2 ^ 64 ->
  let frame0 := ut_align ptr UNIV_PAGE_SIZE in
  let T := u64 (bytes / UNIV_PAGE_SIZE - (if frame0 =? ptr then 0 else 1)) in
  exists frame size, descriptor_loop (Z.to_nat T) ptr frame0 T = Some (frame, size) /\ N - 1 <= size /\
    layout (mkChunk bytes (N - 1) ptr ptr) frame.
Proof.
  intros [[Hk Ek] _ _ HB _ _] HN HC Hb Hp Hpb frame0.
  assert (0 < UNIV_PAGE_SIZE) as HP by (rewrite Ek; apply Z.pow_pos_nonneg; lia).
  assert (UNIV_PAGE_SIZE <= (N + C) * UNIV_PAGE_SIZE) as Hone by nia.
  assert (frame0 mod UNIV_PAGE_SIZE = 0 /\ ptr <= frame0 < ptr + UNIV_PAGE_SIZE) as [Hal Hf0].
  { unfold frame0. rewrite Ek in *. apply ut_align_spec; lia. }
  set (T0 := bytes / UNIV_PAGE_SIZE - (if frame0 =? ptr then 0 else 1)).
  destruct (enough_pages UNIV_PAGE_SIZE sizeof_block N C bytes ptr frame0 T0) as (HNT & Hstop & Hend); try done; try lia.
  assert (T0 <= bytes) by (pose proof (Z.div_le_upper_bound bytes UNIV_PAGE_SIZE bytes HP); unfold T0; case_match; nia).
  rewrite (u64_small T0) by lia. cbv zeta.
  destruct (descriptor_loop_ok ptr (T0 - (N - 1)) (Z.to_nat T0) frame0 T0) as (d & Hd & -> & Hfit); [lia..| |].
  { replace (T0 - (T0 - (N - 1))) with (N - 1) by lia. done. }
  eexists _, _. split; [reflexivity|]. split; [lia|]. constructor; simpl; [done|by rewrite Z.mod_add by lia|..|lia].
  - pose proof (Z.mul_le_mono_nonneg_r (N - 1) (T0 - d) sizeof_block). lia.
  - pose proof (Z.mul_le_mono_nonneg_r (N - 1) (T0 - d) UNIV_PAGE_SIZE). lia.
Qed.

(** The memory of a chunk is added to the total. *)
Lemma chunk_layout_total req total c frame total' :
  chunk_layout req total = Some (Some (c, frame), total') -> total' = u64 (total + mem_size c).
Proof.
  unfold chunk_layout, os_mem_alloc_large. intros E. repeat (case_match; simplify_eq/=; try done);
    apply bind_Some in E as ([fr sz] & _ & E); by simplify_eq/=.
Qed.

(** The layout, or no chunk exactly when there is no memory. *)
Lemma chunk_layout_cases k g req total :
  config k g -> request_ok req ->
  exists r total', chunk_layout req total = Some (r, total') /\
    match r with
    | Some (c, frame) => size c = req / UNIV_PAGE_SIZE - 1 /\ layout c frame
    | None => (os_mem_alloc_large (chunk_request (req / UNIV_PAGE_SIZE * UNIV_PAGE_SIZE)) total).1.1 = None
    end.
Proof.
  intros Hcf (Hreq & Hmax & Hl0). pose proof Hcf as [[Hk Ek] [Hg Eg] _ HB _ _].
  assert (0 < UNIV_PAGE_SIZE) as HP by (rewrite Ek; apply Z.pow_pos_nonneg; lia).
  assert (0 < getpagesize) as HG by (rewrite Eg; apply Z.pow_pos_nonneg; lia).
  set (N := req / UNIV_PAGE_SIZE) in *. assert (1 <= N) as HN by (apply Z.div_le_lower_bound; lia).
  pose proof (Z.mul_div_le req UNIV_PAGE_SIZE HP) as HNP. fold N in HNP.
  assert (0 <= N * sizeof_block /\ N <= N * UNIV_PAGE_SIZE) as [HNB HNle] by nia.
  assert (ut_2pow_round req UNIV_PAGE_SIZE = N * UNIV_PAGE_SIZE) as Er.
  { unfold N. rewrite Ek in *. apply ut_2pow_round_spec; lia. }
  unfold chunk_layout. rewrite Er, Z.div_mul, (u64_small (N - 1)) by lia.
  destruct (chunk_request_ok k g N Hcf HN) as (C & Ec & HC); [lia|]. rewrite Ec.
  destruct (os_mem_alloc_large _ total) as [[[ptr|] bytes] total'] eqn:Ea; [|by eexists None, _].
  eapply alloc_enough in Ea as (Hb & Hp & Hpb); [|done|lia..].
  destruct (chunk_cut_ok k g N C ptr bytes) as (frame & size & -> & Hsz & Hlay); try done; try lia.
  cbn [mbind option_bind]. eexists (Some (_, _)), _. split; [reflexivity|].
  replace (if N - 1 <? size then N - 1 else size) with (N - 1) by (destruct (Z.ltb_spec (N - 1) size); lia). done.
Qed.

(** The bytes for the pages of a request and the descriptors of as many blocks,
    in unbounded integers. *)
Definition needed_bytes (req : Z) : Z :=
  let N := req / UNIV_PAGE_SIZE in
  (N + (N * sizeof_block + UNIV_PAGE_SIZE - 1) / UNIV_PAGE_SIZE) * UNIV_PAGE_SIZE.

Lemma chunk_request_needed k g req :
  config k g -> request_ok req -> chunk_request (req / UNIV_PAGE_SIZE * UNIV_PAGE_SIZE) = needed_bytes req.
Proof.
  intros Hcf (Hreq & Hmax & Hl0). pose proof Hcf as [[Hk Ek] [Hg Eg] _ HB _ _].
  assert (0 < UNIV_PAGE_SIZE) as HP by (rewrite Ek; apply Z.pow_pos_nonneg; lia).
  assert (0 < getpagesize) as HG by (rewrite Eg; apply Z.pow_pos_nonneg; lia). unfold needed_bytes.
  set (N := req / UNIV_PAGE_SIZE) in *. assert (1 <= N) as HN by (apply Z.div_le_lower_bound; lia).
  pose proof (Z.mul_div_le req UNIV_PAGE_SIZE HP) as HNP. fold N in HNP.
  destruct (chunk_request_ok k g N Hcf HN) as (C & -> & HC); [nia|]. f_equal. f_equal.
  apply (Z.div_unique _ _ C (N * sizeof_block + UNIV_PAGE_SIZE - 1 - UNIV_PAGE_SIZE * C)); lia.
Qed.

Lemma request_round k g req : config k g -> request_ok req ->
  ut_2pow_round req UNIV_PAGE_SIZE = req / UNIV_PAGE_SIZE * UNIV_PAGE_SIZE.
Proof.
  intros [[Hk Ek] [Hg Eg] _ HB _ _] (Hreq & Hmax & Hl0). rewrite Ek in *.
  assert (0 < 2 ^ k) as HP by (apply Z.pow_pos_nonneg; lia). assert (0 < getpagesize) as HG by (rewrite Eg; apply Z.pow_pos_nonneg; lia).
  assert (0 <= req / 2 ^ k) by (apply Z.div_pos; lia). apply ut_2pow_round_spec; nia.
Qed.

Lemma needed_small k g req : config k g -> request_ok req ->
  0 <= needed_bytes req /\ needed_bytes req + getpagesize + os_large_page_size < 2 ^ 64.
Proof.
  intros [[Hk Ek] _ _ HB _ _] (Hreq & Hmax & Hl0). unfold needed_bytes.
  assert (0 < UNIV_PAGE_SIZE) as HP by (rewrite Ek; apply Z.pow_pos_nonneg; lia).
  set (N := req / UNIV_PAGE_SIZE) in *. assert (1 <= N) as HN by (apply Z.div_le_lower_bound; lia).
  pose proof (Z.mul_div_le req UNIV_PAGE_SIZE HP) as HNP. fold N in HNP.
  pose proof (Z.mul_div_le (N * sizeof_block + UNIV_PAGE_SIZE - 1) UNIV_PAGE_SIZE HP).
  assert (0 <= (N * sizeof_block + UNIV_PAGE_SIZE - 1) / UNIV_PAGE_SIZE) by (apply Z.div_pos; nia). nia.
Qed.

(** What an allocation adds to the request: the rounding to a page of the
    operating system. *)
Lemma alloc_bytes k g n total ptr bytes total' :
  config k g -> 0 <= n -> n + getpagesize + os_large_page_size < 2 ^ 64 -> 0 <= os_large_page_size ->
  os_mem_alloc_large n total = (ptr, bytes, total') ->
  n <= bytes < n + Z.max getpagesize os_large_page_size /\ total' = match ptr with Some _ => u64 (total + bytes) | None => total end.
Proof.
  intros [_ [Hg Eg] Hl _ _ _] Hn Hmax Hl0. unfold os_mem_alloc_large.
  assert (0 < getpagesize) as HG by (rewrite Eg; apply Z.pow_pos_nonneg; lia).
  pose proof (round_up_spec n g Hn Hg) as Hs. rewrite <- Eg in Hs. destruct Hs as [_ Hs]; [lia|].
  set (small := ut_2pow_round _ getpagesize) in *.
  assert (forall x, match mmap small with Some ptr => (Some ptr, small, u64 (total + small)) | None => (None, small, total) end = x ->
    x = (ptr, bytes, total') -> n <= bytes < n + Z.max getpagesize os_large_page_size /\
    total' = match ptr with Some _ => u64 (total + bytes) | None => total end) as Hconv.
  { intros x <-. destruct (mmap small); intros [= <- <- <-]; split; (done || lia). }
  destruct (negb os_use_large_pages || (os_large_page_size =? 0)) eqn:Eb; [by apply Hconv|].
  apply orb_false_elim in Eb as [Eb1%negb_false_iff Eb2%Z.eqb_neq]. destruct (Hl Eb1 Eb2) as (l & Hl' & El).
  destruct (shm_alloc _); [|by apply Hconv]. intros [= <- <- <-].
  pose proof (round_up_spec n l Hn Hl') as Hr. rewrite <- El in Hr. destruct Hr as [_ Hr]; [lia|]. split; [lia|done].
Qed.

(** The layout and what is allocated for it, or no chunk exactly when there is no
    memory. *)
Lemma chunk_layout_exact k g req total :
  config k g -> request_ok req ->
  exists r total', chunk_layout req total = Some (r, total') /\
    match r with
    | Some (c, frame) => size c = req / UNIV_PAGE_SIZE - 1 /\ layout c frame /\
        needed_bytes req <= mem_size c < needed_bytes req + Z.max getpagesize os_large_page_size /\
        total' = u64 (total + mem_size c) /\ is_Some (os_mem_alloc_large (needed_bytes req) total).1.1
    | None => (os_mem_alloc_large (needed_bytes req) total).1.1 = None /\ total' = total
    end.
Proof.
  intros Hcf Hrq. destruct (chunk_layout_cases k g req total Hcf Hrq) as (r & total' & E & Hr).
  exists r, total'. split; [done|]. pose proof (chunk_request_needed k g req Hcf Hrq) as En.
  assert (0 <= needed_bytes req /\ needed_bytes req + getpagesize + os_large_page_size < 2 ^ 64) as [Hn Hmax] by by eapply needed_small.
  unfold chunk_layout in E. assert (ut_2pow_round req UNIV_PAGE_SIZE = req / UNIV_PAGE_SIZE * UNIV_PAGE_SIZE) as Er by by eapply request_round.
  rewrite Er, En in E. destruct (os_mem_alloc_large (needed_bytes req) total) as [[ptr bytes] total1] eqn:Ea.
  pose proof (alloc_bytes k g _ _ _ _ _ Hcf Hn Hmax (proj2 (proj2 Hrq)) Ea) as [Hb Ht].
  destruct ptr as [ptr|].
  - apply bind_Some in E as ([fr sz] & _ & E). simplify_eq/=. destruct Hr as [Hr1 Hr2]. cbn. split_and!; (done || lia || by eexists).
  - by simplify_eq/=.
Qed.

(** C33: For every request of at least a page that fits in the address space
    ([request_ok]), and whatever the address of the memory: the arithmetic of
    [buf_chunk_init] on 64-bit words asks for exactly the bytes that the pages
    and their descriptors need ([needed_bytes], in unbounded integers), which
    the operating system rounds up by less than one of its pages; the loop ends
    and leaves exactly one block less than the pages requested; the descriptors
    lie in front of the frames, and the frames are aligned and lie inside the
    memory, which does not wrap around the address space ([config]: the promise
    of [mmap]).  There is no chunk exactly when the allocation fails.  The total
    of allocated memory grows by the size of the chunk, modulo [2^64]. *)
Theorem chunk_layout_ok k g req total :
  config k g -> request_ok req ->
  exists r total', chunk_layout req total = Some (r, total') /\
    match r with
    | Some (c, frame) => size c = req / UNIV_PAGE_SIZE - 1 /\ layout c frame /\
        needed_bytes req <= mem_size c < needed_bytes req + Z.max getpagesize os_large_page_size /\
        total' = u64 (total + mem_size c) /\ is_Some (os_mem_alloc_large (needed_bytes req) total).1.1
    | None => (os_mem_alloc_large (needed_bytes req) total).1.1 = None /\ total' = total
    end.
Proof. apply chunk_layout_exact. Qed.

Lemma chunk_layout_fits k g req total c frame total' :
  config k g -> request_ok req -> chunk_layout req total = Some (Some (c, frame), total') -> layout c frame.
Proof.
  intros Hcf Hrq E. destruct (chunk_layout_cases k g req total Hcf Hrq) as (r & t & E' & Hr). rewrite E in E'.
  injection E' as <- <-. apply Hr.
Qed.
End chunk.

(** ** Powers of two *)

Lemma power_up_loop_ok n e : forall fuel i,
  n <= 2 ^ e -> 0 <= i <= e -> e <= 63 -> (Z.to_nat (e - i) <= fuel)%nat -> (0 < i -> 2 ^ (i - 1) < n) ->
  exists j, i <= j <= e /\ power_up_loop fuel (2 ^ i) n = Some (2 ^ j) /\ n <= 2 ^ j /\ (0 < j -> 2 ^ (j - 1) < n).
Proof.
  intros fuel. induction fuel as [|fuel IH]; intros i Hn Hi He Hf Hlow; simpl;
    (destruct (Z.ltb_spec (2 ^ i) n) as [Hlt|Hge]; [|exists i; split_and!; (done || lia)]).
  - replace i with e in Hlt by lia. lia.
  - assert (i <> e) by (intros ->; lia).
    assert (2 ^ i * 2 = 2 ^ (i + 1)) as E2 by (rewrite Z.pow_add_r by lia; lia).
    assert (2 ^ (i + 1) <= 2 ^ 63) by (apply Z.pow_le_mono_r; lia).
    pose proof (Z.pow_pos_nonneg 2 i). rewrite E2, u64_small by lia.
    destruct (IH (i + 1)) as (j & Hj & E & Hge & Hlo); [done|lia..| |exists j; split_and!; (done || lia)].
    intros _. by rewrite Z.add_simpl_r.
Qed.

(** The smallest power of two that is not smaller than [n]. *)
Lemma ut_2_power_up_spec n :
  1 <= n <= 2 ^ 63 -> exists j, 0 <= j <= 63 /\ ut_2_power_up n = Some (2 ^ j) /\ n <= 2 ^ j /\ (0 < j -> 2 ^ (j - 1) < n).
Proof.
  intros Hn. destruct (power_up_loop_ok n 63 64 0) as (j & Hj & E & H); try lia. by exists j.
Qed.

(** The threads that create the instances all round the number of
    hash locks up and store it again: whatever their order, the number is the
    same after the first of them. *)
Theorem power_up_idempotent n r : 1 <= n <= 2 ^ 63 -> ut_2_power_up n = Some r -> ut_2_power_up r = Some r.
Proof.
  intros Hn Hr. destruct (ut_2_power_up_spec n Hn) as (j & Hj & E & _). rewrite Hr in E. injection E as ->.
  assert (1 <= 2 ^ j <= 2 ^ 63) as Hb by (split; [apply (Z.pow_le_mono_r 2 0 j); lia|apply Z.pow_le_mono_r; lia]).
  destruct (ut_2_power_up_spec (2 ^ j) Hb) as (i & Hi & -> & Hge & Hlow). f_equal.
  assert (~ (j < i)) as Hni.
  { intros Hlt. specialize (Hlow ltac:(lia)).
    pose proof (Z.pow_le_mono_r 2 j (i - 1)). lia. }
  assert (j <= i) by (apply (Z.pow_le_mono_r_iff 2); lia). f_equal. lia.
Qed.

Lemma power_up_idempotent_witness : ut_2_power_up 16 = Some 16.
Proof. apply (power_up_idempotent 9 16); [lia|reflexivity]. Defined.

(** Pages of 16 kB in memory that is aligned to 4 kB only. *)
Definition unaligned_mmap (sz : Z) : option Z := if sz <? 2 ^ 40 then Some 4096 else None.
Notation small_layout := (chunk_layout (2 ^ 14) 400 (2 ^ 12) 0 false unaligned_mmap (fun _ => None)).

Lemma small_config : config (2 ^ 14) 400 (2 ^ 12) 0 false unaligned_mmap (fun _ => None) 14 12.
Proof.
  constructor; try done. intros sz p. unfold unaligned_mmap. destruct (Z.ltb_spec sz (2 ^ 40)); [|done]. intros [= <-]. lia.
Qed.

Lemma chunk_layout_ok_witness :
  exists c frame total', small_layout (10 * 2 ^ 14) 0 = Some (Some (c, frame), total') /\
    size c = 9 /\ layout (2 ^ 14) 400 c frame /\ 11 * 2 ^ 14 <= mem_size c < 11 * 2 ^ 14 + 2 ^ 12 /\ total' = u64 (mem_size c).
Proof.
  destruct (chunk_layout_ok (2 ^ 14) 400 (2 ^ 12) 0 false unaligned_mmap (fun _ => None) 14 12 (10 * 2 ^ 14) 0 small_config) as (r & total' & E & Hr).
  { unfold request_ok. vm_compute. split_and!; discriminate || reflexivity. }
  destruct r as [[c frame]|].
  - exists c, frame, total'. split; [exact E|]. destruct Hr as (H1 & H2 & H3 & H4 & _). exact (conj H1 (conj H2 (conj H3 H4))).
  - exfalso. vm_compute in E. discriminate.
Defined.

(** Ten pages leave nine blocks, and the first frame behind their
    descriptors. *)
Example chunk_layout_small :
  small_layout (10 * 2 ^ 14) 0 =
    Some (Some (mkChunk (11 * 2 ^ 14) 9 4096 4096, 2 ^ 14), 11 * 2 ^ 14).
Proof. reflexivity. Qed.
End BufChunk.
