(* ===== verification/Crc32.v ===== *)
(** * CRC-32C (ut/ut0crc32.cc)

    The table, the portable routine that takes eight bytes at a time, the
    routine on the instructions of the processor and the choice between them.
    All of them compute the cyclic redundancy check of the definition, one bit
    at a time ([crc32c]); every error burst of at most 32 bits changes it. *)
From S2P Require Import Prelude Results MachData.
Local Open Scope Z_scope.

Module Crc32.
Import MachData.
Local Open Scope mc_scope.

(** ** The routines *)

(** The bit-reversed polynomial. *)
Definition poly : Z := 0x82f63b78.

(** [c = (c & 1) ? (poly ^ (c >> 1)) : (c >> 1)] *)
Definition crc_bit (c : Z) : Z :=
  if Z.land c 1 =? 0 then Z.shiftr c 1 else Z.lxor poly (Z.shiftr c 1).

(** [ut_crc32_slice8_table] *)
Notation table := (list (list Z)) (only parsing).
Definition tab_get (t : table) (k : nat) (n : Z) : res Z := deref (t !! k ≫= fun row => row !! Z.to_nat n).
Definition tab_set (t : table) (k n : nat) (c : Z) : table := alter (<[n := c]>) k t.

Definition init_row (t : table) : table :=
  foldl (fun t n => tab_set t 0 n (Nat.iter 8 crc_bit (Z.of_nat n))) t (seq 0 256).

(** The inner loop of the second loop: [c] and the rows that are left. *)
Fixpoint init_column (n : nat) (ks : list nat) (c : Z) (t : table) : res table :=
  match ks with
  | [] => Ok t
  | k :: ks =>
      let! x := tab_get t 0 (Z.land c 0xFF) in
      let c := Z.lxor x (Z.shiftr c 8) in
      init_column n ks c (tab_set t k n c)
  end.

Fixpoint init_columns (ns : list nat) (t : table) : res table :=
  match ns with
  | [] => Ok t
  | n :: ns =>
      let! c := tab_get t 0 (Z.of_nat n) in
      let! t := init_column n (seq 1 7) c t in
      init_columns ns t
  end.

(** The global variables. *)
Inductive routine := sse42 | power8 | slice8.
Record globals := mkGlobals {
  slice8_table : table;
  table_initialized : bool;
  sse2_enabled : bool;
  power8_enabled : bool;
  crc32_routine : option routine }.

Definition ut_crc32_slice8_table_init (g : globals) : res globals :=
  let! t := init_columns (seq 0 256) (init_row (slice8_table g)) in
  Ok (mkGlobals t true (sse2_enabled g) (power8_enabled g) (crc32_routine g)).

(** What a routine still has to read, from [buf] on, and the check so far. *)
Record cursor := mkCursor { crc : Z; buf : Z; rest : list Z }.
Definition len (s : cursor) : Z := Z.of_nat (length (rest s)).

(** [while (cond) body] *)
Fixpoint while (fuel : nat) (cond : cursor -> bool) (body : cursor -> res cursor) (s : cursor) : res cursor :=
  match fuel with
  | O => Blocked
  | S fuel => if cond s then let! s := body s in while fuel cond body s else Ok s
  end.

(** The next byte, and the next eight as a little-endian word. *)
Definition next_byte (s : cursor) : res (Z * cursor) :=
  let! b := deref (head (rest s)) in Ok (b, mkCursor (crc s) (buf s + 1) (drop 1 (rest s))).

Fixpoint le (bs : list Z) : Z := match bs with [] => 0 | b :: bs => b + 2 ^ 8 * le bs end.
Definition next_quadword (s : cursor) : res (Z * cursor) :=
  let! _ := ut_a (8 <=? len s) in
  Ok (le (take 8 (rest s)), mkCursor (crc s) (buf s + 8) (drop 8 (rest s))).
Definition set_crc (c : Z) (s : cursor) : cursor := mkCursor c (buf s) (rest s).

(** The loops that both routines have, on what they do with a byte and with
    eight bytes. *)
Definition four (f : cursor -> res cursor) (s : cursor) : res cursor :=
  let! s := f s in let! s := f s in let! s := f s in f s.

Definition crc_loops (byte quadword : cursor -> res cursor) (s : cursor) : res cursor :=
  let fuel := S (length (rest s)) in
  let! s := while fuel (fun s => negb (len s =? 0) && negb (Z.land (buf s) 7 =? 0)) byte s in
  let! s := while fuel (fun s => 32 <=? len s) (four quadword) s in
  let! s := while fuel (fun s => 8 <=? len s) quadword s in
  while fuel (fun s => negb (len s =? 0)) byte s.

(** [(ib_uint32_t) (-1)] and [(ib_uint32_t) ((~crc) & 0xFFFFFFFF)] *)
Definition crc_start : Z := u32 (-1).
Definition crc_end (s : cursor) : Z := Z.land (Z.lnot (crc s)) 0xFFFFFFFF.

Definition slice8_byte (t : table) (s : cursor) : res cursor :=
  let! (b, s) := next_byte s in
  let! x := tab_get t 0 (Z.land (Z.lxor (crc s) b) 0xFF) in
  Ok (set_crc (Z.lxor (Z.shiftr (crc s) 8) x) s).

Definition slice8_quadword (t : table) (s : cursor) : res cursor :=
  let! (q, s) := next_quadword s in
  let c := Z.lxor (crc s) q in
  let! x7 := tab_get t 7 (Z.land c 0xFF) in
  let! x6 := tab_get t 6 (Z.land (Z.shiftr c 8) 0xFF) in
  let! x5 := tab_get t 5 (Z.land (Z.shiftr c 16) 0xFF) in
  let! x4 := tab_get t 4 (Z.land (Z.shiftr c 24) 0xFF) in
  let! x3 := tab_get t 3 (Z.land (Z.shiftr c 32) 0xFF) in
  let! x2 := tab_get t 2 (Z.land (Z.shiftr c 40) 0xFF) in
  let! x1 := tab_get t 1 (Z.land (Z.shiftr c 48) 0xFF) in
  let! x0 := tab_get t 0 (Z.shiftr c 56) in
  Ok (set_crc (Z.lxor (Z.lxor (Z.lxor (Z.lxor (Z.lxor (Z.lxor (Z.lxor x7 x6) x5) x4) x3) x2) x1) x0) s).

Definition ut_crc32_slice8 (g : globals) (a : Z) (bs : list Z) : res Z :=
  let! _ := ut_a (table_initialized g) in
  let! s := crc_loops (slice8_byte (slice8_table g)) (slice8_quadword (slice8_table g)) (mkCursor crc_start a bs) in
  Ok (crc_end s).

(** The instructions of the processor, with the check in a register of 64
    bits, and its description of itself. *)
Section cpu.
Variables (crc32b crc32q : Z -> Z -> Z) (features_ecx : Z).

Definition sse42_byte (s : cursor) : res cursor :=
  let! (b, s) := next_byte s in Ok (set_crc (crc32b (crc s) b) s).
Definition sse42_quadword (s : cursor) : res cursor :=
  let! (q, s) := next_quadword s in Ok (set_crc (crc32q (crc s) q) s).

Definition ut_crc32_sse42 (g : globals) (a : Z) (bs : list Z) : res Z :=
  let! _ := ut_a (sse2_enabled g) in
  let! s := crc_loops sse42_byte sse42_quadword (mkCursor crc_start a bs) in
  Ok (crc_end s).

(** On x86-64 there is no [ut_crc32_power8]: [ut_error]. *)
Definition ut_crc32_init (g : globals) : res globals :=
  let g := mkGlobals (slice8_table g) (table_initialized g)
    (negb (Z.land (Z.shiftr features_ecx 20) 1 =? 0)) (power8_enabled g) (crc32_routine g) in
  let choose r g := mkGlobals (slice8_table g) (table_initialized g) (sse2_enabled g) (power8_enabled g) (Some r) in
  if sse2_enabled g then Ok (choose sse42 g)
  else if power8_enabled g then Ok (choose power8 g)
  else let! g := ut_crc32_slice8_table_init g in Ok (choose slice8 g).

(** A call through the pointer [ut_crc32]. *)
Definition ut_crc32 (g : globals) (a : Z) (bs : list Z) : res Z :=
  match crc32_routine g with
  | Some sse42 => ut_crc32_sse42 g a bs
  | Some slice8 => ut_crc32_slice8 g a bs
  | Some power8 | None => Fault
  end.
End cpu.

(** The variables before [ut_crc32_init]. *)
Definition start_globals : globals := mkGlobals (replicate 8 (replicate 256 0)) false false false None.

(** ** The definition of the check *)

Definition crc_step (c b : Z) : Z := Nat.iter 8 crc_bit (Z.lxor c b).
Definition crc32c (bs : list Z) : Z := Z.lxor (foldl crc_step 0xFFFFFFFF bs) 0xFFFFFFFF.

(** What a routine for the check promises to its callers. *)
Class Crc32Routine (f : Z -> list Z -> res Z) : Prop :=
  crc32_routine_ok a bs : Forall is_byte bs -> f a bs = Ok (crc32c bs).

(** ** The register as a linear map *)

Lemma crc_bit_odd c : crc_bit c = Z.lxor (Z.shiftr c 1) (if Z.odd c then poly else 0).
Proof.
  unfold crc_bit. change 1 with (Z.ones 1) at 1. rewrite Z.land_ones by lia. change (2 ^ 1) with 2. rewrite Zmod_odd.
  destruct (Z.odd c); [by rewrite Z.lxor_comm|by rewrite Z.lxor_0_r].
Qed.

Lemma odd_lxor x y : Z.odd (Z.lxor x y) = xorb (Z.odd x) (Z.odd y).
Proof. by rewrite <- !Z.bit0_odd, Z.lxor_spec. Qed.

Lemma crc_bit_lxor x y : crc_bit (Z.lxor x y) = Z.lxor (crc_bit x) (crc_bit y).
Proof.
  rewrite !crc_bit_odd, odd_lxor, Z.shiftr_lxor. apply Z.bits_inj'. intros i Hi.
  rewrite !Z.lxor_spec. destruct (Z.odd x), (Z.odd y); simpl; rewrite ?Z.bits_0; by repeat destruct (Z.testbit _ i).
Qed.

(** [n] rounds of the register. *)
Definition crc_bits (n : nat) (c : Z) : Z := Nat.iter n crc_bit c.
#[local] Arguments crc_bits : simpl never.

Lemma crc_bits_add n m c : crc_bits (n + m) c = crc_bits n (crc_bits m c).
Proof. unfold crc_bits. induction n as [|n IH]; simpl; [done|]. by rewrite IH. Qed.

Lemma crc_bits_lxor n x y : crc_bits n (Z.lxor x y) = Z.lxor (crc_bits n x) (crc_bits n y).
Proof. unfold crc_bits. induction n as [|n IH]; simpl; [done|]. by rewrite IH, crc_bit_lxor. Qed.

Lemma crc_bits_0 n : crc_bits n 0 = 0.
Proof. unfold crc_bits. induction n as [|n IH]; simpl; [done|]. by rewrite IH. Qed.

(** Bits that have not arrived at the end of the register only move. *)
Lemma crc_bits_shiftl n x : crc_bits n (Z.shiftl x (Z.of_nat n)) = x.
Proof.
  induction n as [|n IH]; [apply Z.shiftl_0_r|]. rewrite <- Nat.add_1_r, crc_bits_add. cbn [crc_bits Nat.iter].
  rewrite crc_bit_odd, Nat2Z.inj_add, <- Z.shiftl_shiftl by lia.
  rewrite <- (Z.bit0_odd (Z.shiftl _ _)), Z.shiftl_spec_low by lia.
  rewrite Z.lxor_0_r, Z.shiftr_shiftl_l by lia. by rewrite Z.sub_diag, Z.shiftl_0_r.
Qed.

Lemma crc_bits_shift n k x : (k <= n)%nat -> crc_bits n (Z.shiftl x (Z.of_nat k)) = crc_bits (n - k) x.
Proof. intros H. replace n with (n - k + k)%nat at 1 by lia. by rewrite crc_bits_add, crc_bits_shiftl. Qed.

Lemma low_high c k : 0 <= k -> c = Z.lxor (Z.land c (Z.ones k)) (Z.shiftl (Z.shiftr c k) k).
Proof.
  intros Hk. apply Z.bits_inj'. intros i Hi. rewrite Z.lxor_spec, Z.land_spec, Z.shiftl_spec by lia.
  destruct (Z.lt_ge_cases i k).
  - rewrite Z.ones_spec_low, (Z.testbit_neg_r _ (i - k)) by lia. by rewrite andb_true_r, xorb_false_r.
  - rewrite Z.ones_spec_high, Z.shiftr_spec by lia. rewrite andb_false_r. simpl. f_equal. lia.
Qed.

(** Eight rounds, with a table for the byte that leaves the register. *)
Lemma crc_bits_8 c : crc_bits 8 c = Z.lxor (Z.shiftr c 8) (crc_bits 8 (Z.land c 0xFF)).
Proof.
  rewrite (low_high c 8) at 1 by lia. rewrite crc_bits_lxor, Z.lxor_comm. f_equal. apply (crc_bits_shiftl 8).
Qed.

(** The register keeps to 32 bits and never becomes zero. *)
Lemma lxor_range x y n : 0 <= x < 2 ^ n -> 0 <= y < 2 ^ n -> 0 <= Z.lxor x y < 2 ^ n.
Proof.
  intros Hx Hy. assert (0 <= Z.lxor x y) by (apply Z.lxor_nonneg; lia). split; [done|].
  destruct (decide (Z.lxor x y = 0)) as [->|Hne]; [lia|].
  destruct (Z.lt_ge_cases n 0); [rewrite Z.pow_neg_r in Hx; lia|].
  apply Z.log2_lt_pow2; [lia|]. pose proof (Z.log2_lxor x y ltac:(lia) ltac:(lia)).
  assert (forall z, 0 <= z < 2 ^ n -> Z.log2 z < n \/ n = 0) as Hlog.
  { intros z Hz. destruct (decide (n = 0)); [by right|left]. destruct (decide (z = 0)) as [->|]; [simpl; lia|].
    apply Z.log2_lt_pow2; lia. }
  destruct (Hlog x Hx), (Hlog y Hy); subst; try lia; simpl in *;
    (assert (x = 0) as -> by lia; assert (y = 0) as -> by lia; done).
Qed.

Lemma crc_bit_range c : 0 <= c < 2 ^ 32 -> 0 <= crc_bit c < 2 ^ 32.
Proof.
  intros H. rewrite crc_bit_odd. apply lxor_range; [|by destruct (Z.odd c)].
  rewrite Z.shiftr_div_pow2 by lia. change (2 ^ 1) with 2. split; [apply Z.div_pos; lia|].
  apply Z.div_lt_upper_bound; lia.
Qed.

Lemma crc_bits_range n c : 0 <= c < 2 ^ 32 -> 0 <= crc_bits n c < 2 ^ 32.
Proof. intros H. unfold crc_bits. induction n as [|n IH]; simpl; [done|]. by apply crc_bit_range. Qed.

Lemma crc_bit_nonzero c : 0 < c < 2 ^ 32 -> crc_bit c <> 0.
Proof.
  intros Hc H. rewrite crc_bit_odd in H. apply Z.lxor_eq in H. pose proof (Z.div_mod c 2 ltac:(lia)) as E.
  rewrite Zmod_odd in E. rewrite Z.shiftr_div_pow2 in H by lia. change (2 ^ 1) with 2 in H.
  destruct (Z.odd c); [unfold poly in H|]; lia.
Qed.

Lemma crc_bits_nonzero n c : 0 < c < 2 ^ 32 -> crc_bits n c <> 0.
Proof.
  intros Hc. unfold crc_bits. induction n as [|n IH]; simpl; [lia|]. apply crc_bit_nonzero.
  pose proof (crc_bits_range n c ltac:(lia)) as Hr. unfold crc_bits in Hr. lia.
Qed.

(** ** Messages as binary numbers *)

Lemma le_cons b bs : is_byte b -> le (b :: bs) = Z.lxor b (Z.shiftl (le bs) 8).
Proof.
  intros Hb. cbn [le]. rewrite Z.shiftl_mul_pow2, (Z.mul_comm (le bs)) by lia. apply Z.add_nocarry_lxor.
  rewrite Z.mul_comm, <- Z.shiftl_mul_pow2 by lia. apply Z.bits_inj'. intros i Hi. rewrite Z.land_spec, Z.bits_0.
  destruct (Z.lt_ge_cases i 8); [by rewrite Z.shiftl_spec_low, andb_false_r by lia|].
  rewrite <- (Z.mod_small b (2 ^ 8) Hb), Z.mod_pow2_bits_high by lia. done.
Qed.

Lemma le_app xs ys : Forall is_byte xs -> le (xs ++ ys) = Z.lxor (le xs) (Z.shiftl (le ys) (8 * Z.of_nat (length xs))).
Proof.
  induction 1 as [|b xs Hb _ IH]; [by rewrite Z.shiftl_0_r|]. cbn [app length]. rewrite !le_cons, IH by done.
  rewrite Z.shiftl_lxor, Z.shiftl_shiftl, Z.lxor_assoc by lia. do 3 f_equal. lia.
Qed.

Lemma le_range bs : Forall is_byte bs -> 0 <= le bs < 2 ^ (8 * Z.of_nat (length bs)).
Proof.
  induction 1 as [|b bs Hb _ IH]; [done|]. cbn [le length]. rewrite Nat2Z.inj_succ.
  replace (8 * Z.succ (Z.of_nat (length bs))) with (8 + 8 * Z.of_nat (length bs)) by lia.
  rewrite Z.pow_add_r by lia. unfold is_byte in Hb. nia.
Qed.

(** The register after a message is the message and the start of the register,
    moved through the register bit by bit. *)
Lemma fold_bits bs : Forall is_byte bs -> forall c,
  foldl crc_step c bs = crc_bits (8 * length bs) (Z.lxor c (le bs)).
Proof.
  induction 1 as [|b bs Hb _ IH]; intros c; [by rewrite Z.lxor_0_r|]. cbn [foldl length].
  rewrite IH, le_cons by done. replace (8 * S (length bs))%nat with (8 * length bs + 8)%nat by lia.
  rewrite crc_bits_add, <- Z.lxor_assoc, (crc_bits_lxor 8). do 2 f_equal. symmetry. apply (crc_bits_shiftl 8).
Qed.

Lemma crc_step_range c b : 0 <= c < 2 ^ 32 -> is_byte b -> 0 <= crc_step c b < 2 ^ 32.
Proof. intros Hc Hb. apply (crc_bits_range 8), lxor_range; [done|]. unfold is_byte in Hb. lia. Qed.

Lemma fold_range bs c : Forall is_byte bs -> 0 <= c < 2 ^ 32 -> 0 <= foldl crc_step c bs < 2 ^ 32.
Proof.
  intros H. revert c. induction H as [|b bs Hb _ IH]; intros c Hc; [done|]. by apply IH, crc_step_range.
Qed.

Lemma crc32c_range bs : Forall is_byte bs -> 0 <= crc32c bs < 2 ^ 32.
Proof. intros Hb. apply lxor_range; [by apply fold_range|done]. Qed.

(** ** The table *)

Definition spec_table : list (list Z) :=
  map (fun k => map (fun n => crc_bits (8 * (k + 1)) (Z.of_nat n)) (seq 0 256)) (seq 0 8).

Lemma table_init_spec :
  ut_crc32_slice8_table_init start_globals = Ok (mkGlobals spec_table true false false None).
Proof. vm_compute. reflexivity. Qed.

Lemma tab_get_spec k n : (k < 8)%nat -> 0 <= n < 256 -> tab_get spec_table k n = Ok (crc_bits (8 * (k + 1)) n).
Proof.
  intros Hk Hn. unfold tab_get, spec_table. rewrite list_lookup_fmap, lookup_seq_lt by done. cbn [fmap option_fmap option_map mbind option_bind].
  rewrite list_lookup_fmap, lookup_seq_lt by lia. cbn. by rewrite Z2Nat.id by lia.
Qed.

(** ** The loops *)

(** The check of what is left is [C]. *)
Record good (C : Z) (s : cursor) : Prop := Good {
  good_bytes : Forall is_byte (rest s);
  good_crc : 0 <= crc s < 2 ^ 32;
  good_rest : foldl crc_step (crc s) (rest s) = C }.

Definition step_ok (k : nat) (f : cursor -> res cursor) : Prop := forall C s, good C s -> (k <= length (rest s))%nat ->
  exists s', f s = Ok s' /\ good C s' /\ length (rest s') = (length (rest s) - k)%nat.

Lemma while_ok C k f cond : (0 < k)%nat -> step_ok k f -> (forall s, cond s = true -> (k <= length (rest s))%nat) ->
  forall fuel s, good C s -> (length (rest s) < fuel)%nat ->
  exists s', while fuel cond f s = Ok s' /\ good C s' /\ cond s' = false /\ (length (rest s') <= length (rest s))%nat.
Proof.
  intros Hk Hf Hc. induction fuel as [|fuel IH]; intros s Hs Hl; [lia|]. cbn [while].
  destruct (cond s) eqn:E; [|by exists s].
  destruct (Hf C s Hs (Hc s E)) as (s1 & -> & H1 & L1). cbn [rbind].
  destruct (IH s1 H1) as (s2 & -> & H2 & E2 & L2); [specialize (Hc s E); lia|]. exists s2. split_and!; [done..|lia].
Qed.

Lemma four_ok f : step_ok 8 f -> step_ok 32 (four f).
Proof.
  intros Hf C s Hs Hl. unfold four. do 3 (edestruct (Hf C) as (? & -> & ? & ?); [eassumption|lia|]; cbn [rbind]).
  edestruct (Hf C) as (s' & -> & Hs' & ?); [eassumption|lia|]. exists s'. split_and!; [done..|lia].
Qed.

Lemma crc_loops_ok byte quadword a bs : step_ok 1 byte -> step_ok 8 quadword -> Forall is_byte bs ->
  exists s, crc_loops byte quadword (mkCursor crc_start a bs) = Ok s /\ crc s = foldl crc_step 0xFFFFFFFF bs.
Proof.
  intros Hb Hq Hbs. unfold crc_loops. set (C := foldl crc_step 0xFFFFFFFF bs).
  assert (forall s, negb (len s =? 0) = true -> (1 <= length (rest s))%nat) as H1.
  { intros s E%negb_true_iff%Z.eqb_neq. unfold len in E. lia. }
  edestruct (while_ok C 1 byte) as (s1 & -> & G1 & _ & L1); [lia|done| |by split|simpl; lia|].
  { intros s [E _]%andb_true_iff. by apply H1. }
  cbn [rbind]. edestruct (while_ok C 32 (four quadword)) as (s2 & -> & G2 & _ & L2); [lia|by apply four_ok| |done|lia|].
  { intros s E%Z.leb_le. unfold len in E. lia. }
  cbn [rbind]. edestruct (while_ok C 8 quadword) as (s3 & -> & G3 & _ & L3); [lia|done| |done|simpl in *; lia|].
  { intros s E%Z.leb_le. unfold len in E. lia. }
  cbn [rbind]. edestruct (while_ok C 1 byte) as (s4 & -> & G4 & E4 & _); [lia|done|done|done|simpl in *; lia|].
  exists s4. split; [done|]. apply negb_false_iff, Z.eqb_eq in E4. unfold len in E4.
  destruct G4 as [_ _ H]. by destruct (rest s4).
Qed.

(** What a routine does with a byte and with eight bytes. *)
Lemma byte_ok f : (forall c b bs a, is_byte b -> 0 <= c < 2 ^ 32 ->
    f (mkCursor c a (b :: bs)) = Ok (mkCursor (crc_step c b) (a + 1) bs)) -> step_ok 1 f.
Proof.
  intros Hf C [c a bs] [Hb Hc Hr] Hl. simpl in *. destruct bs as [|b bs]; [simpl in Hl; lia|].
  apply Forall_cons in Hb as [Hb Hbs]. eexists. split; [by apply Hf|]. split; [|simpl; lia]. split; simpl; [done| |done].
  by apply crc_step_range.
Qed.

Lemma quadword_ok f : (forall c bs a, Forall is_byte bs -> (8 <= length bs)%nat -> 0 <= c < 2 ^ 32 ->
    f (mkCursor c a bs) = Ok (mkCursor (crc_bits 64 (Z.lxor c (le (take 8 bs)))) (a + 8) (drop 8 bs))) -> step_ok 8 f.
Proof.
  intros Hf C [c a bs] [Hb Hc Hr] Hl. cbn [crc rest] in *.
  pose proof (Forall_take _ 8 _ Hb) as Ht. pose proof (fold_bits _ Ht c) as E. rewrite length_take_le in E by done.
  eexists. split; [by apply Hf|]. change (8 * 8)%nat with 64%nat in E. rewrite <- E.
  split; [|cbn [rest]; by rewrite length_drop]. split; cbn [crc rest].
  - by apply Forall_drop.
  - by apply fold_range.
  - by rewrite <- foldl_app, take_drop.
Qed.

(** ** The routines compute the check *)

Lemma land_byte x : 0 <= Z.land x 0xFF < 256.
Proof. change 0xFF with (Z.ones 8). rewrite Z.land_ones by lia. apply Z.mod_pos_bound. lia. Qed.

Lemma shiftr_byte b : is_byte b -> Z.shiftr b 8 = 0.
Proof. intros Hb. rewrite Z.shiftr_div_pow2 by lia. by apply Z.div_small. Qed.

(** A byte leaves the register and the other bytes move on. *)
Lemma crc_bits_peel k x :
  crc_bits (8 * (S k + 1)) x = Z.lxor (crc_bits (8 * (S k + 1)) (Z.land x 0xFF)) (crc_bits (8 * (k + 1)) (Z.shiftr x 8)).
Proof.
  rewrite (low_high x 8) at 1 by lia. rewrite crc_bits_lxor. f_equal.
  rewrite (crc_bits_shift (8 * (S k + 1)) 8) by lia. f_equal. lia.
Qed.

Lemma shiftr_8 c n m : 0 <= n -> m = n + 8 -> Z.shiftr (Z.shiftr c n) 8 = Z.shiftr c m.
Proof. intros Hn ->. by rewrite Z.shiftr_shiftr by lia. Qed.

Lemma crc_bits_64 x : crc_bits 64 x =
  Z.lxor (Z.lxor (Z.lxor (Z.lxor (Z.lxor (Z.lxor (Z.lxor (crc_bits (8 * (7 + 1)) (Z.land x 0xFF))
    (crc_bits (8 * (6 + 1)) (Z.land (Z.shiftr x 8) 0xFF))) (crc_bits (8 * (5 + 1)) (Z.land (Z.shiftr x 16) 0xFF)))
    (crc_bits (8 * (4 + 1)) (Z.land (Z.shiftr x 24) 0xFF))) (crc_bits (8 * (3 + 1)) (Z.land (Z.shiftr x 32) 0xFF)))
    (crc_bits (8 * (2 + 1)) (Z.land (Z.shiftr x 40) 0xFF))) (crc_bits (8 * (1 + 1)) (Z.land (Z.shiftr x 48) 0xFF)))
    (crc_bits (8 * (0 + 1)) (Z.shiftr x 56)).
Proof.
  change 64%nat with (8 * (7 + 1))%nat. rewrite (crc_bits_peel 6 x), (crc_bits_peel 5 (Z.shiftr x 8)), (shiftr_8 x 8 16) by lia.
  rewrite (crc_bits_peel 4 (Z.shiftr x 16)), (shiftr_8 x 16 24) by lia. rewrite (crc_bits_peel 3 (Z.shiftr x 24)), (shiftr_8 x 24 32) by lia.
  rewrite (crc_bits_peel 2 (Z.shiftr x 32)), (shiftr_8 x 32 40) by lia. rewrite (crc_bits_peel 1 (Z.shiftr x 40)), (shiftr_8 x 40 48) by lia.
  rewrite (crc_bits_peel 0 (Z.shiftr x 48)), (shiftr_8 x 48 56) by lia. rewrite !Z.lxor_assoc. done.
Qed.

Lemma slice8_byte_ok : step_ok 1 (slice8_byte spec_table).
Proof.
  apply byte_ok. intros c b bs a Hb Hc. unfold slice8_byte. cbn [next_byte head rest deref rbind crc buf drop].
  rewrite tab_get_spec by (lia || apply land_byte). cbn [rbind set_crc crc buf rest]. do 2 f_equal.
  change (crc_step c b) with (crc_bits 8 (Z.lxor c b)). rewrite (crc_bits_8 (Z.lxor c b)), Z.shiftr_lxor, (shiftr_byte b Hb), Z.lxor_0_r. done.
Qed.

Lemma slice8_quadword_ok : step_ok 8 (slice8_quadword spec_table).
Proof.
  apply quadword_ok. intros c bs a Hbs Hl Hc. unfold slice8_quadword, next_quadword, len. cbn [rest].
  rewrite (proj2 (Z.leb_le _ _)) by lia. cbn [ut_a rbind crc buf rest].
  pose proof (le_range _ (Forall_take _ 8 _ Hbs)) as Hq. rewrite length_take_le in Hq by done.
  assert (0 <= Z.lxor c (le (take 8 bs)) < 2 ^ 64) as Hx by (apply lxor_range; lia).
  set (x := Z.lxor c (le (take 8 bs))) in *.
  assert (0 <= Z.shiftr x 56 < 256) as Hx0.
  { rewrite Z.shiftr_div_pow2 by lia. split; [apply Z.div_pos; lia|apply Z.div_lt_upper_bound; lia]. }
  rewrite !tab_get_spec by (lia || apply land_byte). cbn [rbind]. rewrite (crc_bits_64 x).
  reflexivity.
Qed.

Section instructions.
Variables (crc32b crc32q : Z -> Z -> Z).
(** The instructions add a byte and eight bytes to the check. *)
Hypothesis crc32b_spec : forall c b, 0 <= c < 2 ^ 32 -> is_byte b -> crc32b c b = crc_bits 8 (Z.lxor c b).
Hypothesis crc32q_spec : forall c q, 0 <= c < 2 ^ 32 -> 0 <= q < 2 ^ 64 -> crc32q c q = crc_bits 64 (Z.lxor c q).

Lemma sse42_byte_ok : step_ok 1 (sse42_byte crc32b).
Proof.
  apply byte_ok. intros c b bs a Hb Hc. unfold sse42_byte. cbn [next_byte head rest deref rbind crc buf drop].
  rewrite crc32b_spec by done. reflexivity.
Qed.

Lemma sse42_quadword_ok : step_ok 8 (sse42_quadword crc32q).
Proof.
  apply quadword_ok. intros c bs a Hbs Hl Hc. unfold sse42_quadword, next_quadword, len. cbn [rest].
  rewrite (proj2 (Z.leb_le _ _)) by lia. cbn [ut_a rbind crc buf rest set_crc].
  pose proof (le_range _ (Forall_take _ 8 _ Hbs)) as Hq. rewrite length_take_le in Hq by done.
  rewrite crc32q_spec by done. reflexivity.
Qed.

Lemma crc_end_ok s bs : Forall is_byte bs -> crc s = foldl crc_step 0xFFFFFFFF bs -> crc_end s = crc32c bs.
Proof.
  intros Hb E. unfold crc_end, crc32c. rewrite <- E. pose proof (fold_range bs 0xFFFFFFFF Hb ltac:(done)) as Hr.
  rewrite <- E in Hr. change 0xFFFFFFFF with (Z.ones 32). apply Z.bits_inj'. intros i Hi.
  rewrite Z.land_spec, Z.lxor_spec, Z.lnot_spec by lia. destruct (Z.lt_ge_cases i 32).
  - rewrite Z.ones_spec_low by lia. by rewrite andb_true_r, xorb_true_r.
  - rewrite Z.ones_spec_high by lia. rewrite andb_false_r, xorb_false_r. symmetry.
    rewrite <- (Z.mod_small (crc s) (2 ^ 32) Hr). by apply Z.mod_pow2_bits_high.
Qed.

(** What [ut_crc32_init] leaves behind computes the check. *)
Lemma init_globals ecx : ut_crc32_init ecx start_globals = Ok (
  if negb (Z.land (Z.shiftr ecx 20) 1 =? 0) then mkGlobals (slice8_table start_globals) false true false (Some sse42)
  else mkGlobals spec_table true false false (Some slice8)).
Proof.
  unfold ut_crc32_init. cbn [sse2_enabled power8_enabled]. destruct (negb _); [done|].
  exact (f_equal (fun r => rbind r (fun g => Ok (mkGlobals (slice8_table g) (table_initialized g) (sse2_enabled g)
    (power8_enabled g) (Some slice8)))) table_init_spec).
Qed.

Lemma ut_crc32_ok ecx : exists g, ut_crc32_init ecx start_globals = Ok g /\
  Crc32Routine (ut_crc32 crc32b crc32q g).
Proof.
  eexists. split; [apply init_globals|]. intros a bs Hb. destruct (negb _); unfold ut_crc32; cbn [crc32_routine].
  - unfold ut_crc32_sse42. cbn [sse2_enabled ut_a rbind].
    destruct (crc_loops_ok _ _ a bs sse42_byte_ok sse42_quadword_ok Hb) as (s & -> & E). cbn [rbind].
    f_equal. by apply crc_end_ok.
  - unfold ut_crc32_slice8. cbn [table_initialized slice8_table ut_a rbind].
    destruct (crc_loops_ok _ _ a bs slice8_byte_ok slice8_quadword_ok Hb) as (s & -> & E). cbn [rbind].
    f_equal. by apply crc_end_ok.
Qed.

End instructions.

(** ** Detection of errors *)

(** Two messages of the same length that differ by a burst: all bits that
    differ are among [n] consecutive ones. *)
Definition burst (n : Z) (bs bs' : list Z) : Prop :=
  length bs = length bs' /\ exists d s, 0 <= s /\ 0 < d < 2 ^ n /\ Z.lxor (le bs) (le bs') = Z.shiftl d s.

Lemma crc32c_burst bs bs' : Forall is_byte bs -> Forall is_byte bs' -> burst 32 bs bs' -> crc32c bs <> crc32c bs'.
Proof.
  intros Hb Hb' (Hl & d & s & Hs & Hd & E) H. unfold crc32c in H.
  apply (f_equal (Z.lxor 0xFFFFFFFF)) in H. rewrite !(Z.lxor_comm 0xFFFFFFFF), !Z.lxor_assoc, !Z.lxor_nilpotent, !Z.lxor_0_r in H.
  rewrite !fold_bits, <- Hl in H by done. apply Z.lxor_eq_0_iff in H. rewrite <- crc_bits_lxor in H.
  rewrite (Z.lxor_comm 0xFFFFFFFF), Z.lxor_assoc, <- (Z.lxor_assoc 0xFFFFFFFF), Z.lxor_nilpotent, Z.lxor_0_l, E in H.
  pose proof (le_range _ Hb) as R1. pose proof (le_range _ Hb') as R2. rewrite <- Hl in R2.
  pose proof (lxor_range _ _ _ R1 R2) as R. rewrite E, Z.shiftl_mul_pow2 in R by lia.
  assert (s < 8 * Z.of_nat (length bs)) as Hlt.
  { destruct (Z.lt_ge_cases s (8 * Z.of_nat (length bs))) as [|G]; [done|].
    pose proof (Z.pow_le_mono_r 2 _ _ ltac:(lia) G). nia. }
  rewrite <- (Z2Nat.id s), crc_bits_shift in H by lia. by apply crc_bits_nonzero in H.
Qed.

Lemma le_inj bs bs' : Forall is_byte bs -> Forall is_byte bs' -> length bs = length bs' -> le bs = le bs' -> bs = bs'.
Proof.
  intros Hb. revert bs'. induction Hb as [|b bs Hb _ IH]; intros [|b' bs'] Hb' Hl E; try done.
  apply Forall_cons in Hb' as [Hb' Hbs']. cbn [le length] in *. unfold is_byte in *. injection Hl as Hl.
  assert (b = b' /\ le bs = le bs') as [-> E'] by lia. f_equal. by apply IH.
Qed.

Lemma lxor_cancel a b c d : Z.lxor (Z.lxor a (Z.lxor b d)) (Z.lxor a (Z.lxor c d)) = Z.lxor b c.
Proof. apply Z.bits_inj'. intros i _. rewrite !Z.lxor_spec. by repeat destruct (Z.testbit _ i). Qed.

(** A change of at most four consecutive bytes is a burst of 32 bits. *)
Lemma window_burst xs ws ws' ys : Forall is_byte (xs ++ ws ++ ys) -> Forall is_byte ws' -> length ws = length ws' ->
  (length ws <= 4)%nat -> ws <> ws' -> burst 32 (xs ++ ws ++ ys) (xs ++ ws' ++ ys).
Proof.
  rewrite !Forall_app. intros (Hx & Hw & Hy) Hw' Hl H4 Hne. split; [by rewrite !length_app, Hl|].
  exists (Z.lxor (le ws) (le ws')), (8 * Z.of_nat (length xs)). split; [lia|]. split.
  - pose proof (le_range _ Hw) as R. pose proof (le_range _ Hw') as R'. rewrite <- Hl in R'.
    pose proof (lxor_range _ _ _ R R') as R2.
    assert (Z.lxor (le ws) (le ws') <> 0) by (intros ?%Z.lxor_eq; by apply Hne, le_inj).
    pose proof (Z.pow_le_mono_r 2 (8 * Z.of_nat (length ws)) 32 ltac:(lia) ltac:(lia)). lia.
  - rewrite !le_app, Hl, !Z.shiftl_lxor by done. apply lxor_cancel.
Qed.

(** Whatever the processor offers, [ut_crc32_init] leaves a routine behind
    that never fails and computes the CRC-32C of the definition, for every
    length and every address of the message: the portable routine takes eight
    bytes at a time with eight tables.  Two messages that differ by an error
    burst of at most 32 bits get different checks. *)
Theorem ut_crc32_correct crc32b crc32q ecx :
  (forall c b, 0 <= c < 2 ^ 32 -> is_byte b -> crc32b c b = crc_bits 8 (Z.lxor c b)) ->
  (forall c q, 0 <= c < 2 ^ 32 -> 0 <= q < 2 ^ 64 -> crc32q c q = crc_bits 64 (Z.lxor c q)) ->
  exists g, ut_crc32_init ecx start_globals = Ok g /\ Crc32Routine (ut_crc32 crc32b crc32q g) /\
    (forall a a' bs bs', Forall is_byte bs -> Forall is_byte bs' -> burst 32 bs bs' ->
       ut_crc32 crc32b crc32q g a bs <> ut_crc32 crc32b crc32q g a' bs').
Proof.
  intros Hb Hq. destruct (ut_crc32_ok crc32b crc32q Hb Hq ecx) as (g & Hg & H). exists g. split_and!; [done..|].
  intros a a' bs bs' H1 H2 Hbu. rewrite !H by done. intros [= E]. by apply (crc32c_burst bs bs').
Qed.

(** The check of the nine digits that is published with the polynomial. *)
Example crc32c_digits : crc32c [49; 50; 51; 52; 53; 54; 55; 56; 57] = 0xE3069283.
Proof. vm_compute. reflexivity. Qed.

Lemma ut_crc32_correct_witness : exists g, ut_crc32_init 0 start_globals = Ok g /\
  ut_crc32 (fun c b => crc_bits 8 (Z.lxor c b)) (fun c q => crc_bits 64 (Z.lxor c q)) g 3 [49; 50; 51; 52; 53; 54; 55; 56; 57]
    = Ok 0xE3069283 /\
  burst 32 [1; 2; 3] [1; 255; 7] /\
  ut_crc32 (fun c b => crc_bits 8 (Z.lxor c b)) (fun c q => crc_bits 64 (Z.lxor c q)) g 0 [1; 2; 3] <>
  ut_crc32 (fun c b => crc_bits 8 (Z.lxor c b)) (fun c q => crc_bits 64 (Z.lxor c q)) g 0 [1; 255; 7].
Proof.
  destruct (ut_crc32_correct (fun c b => crc_bits 8 (Z.lxor c b)) (fun c q => crc_bits 64 (Z.lxor c q)) 0)
    as (g & Hg & H & Hd); [done|done|].
  assert (burst 32 [1; 2; 3] [1; 255; 7]) as Hb.
  { assert (Forall is_byte [1; 2; 3] /\ Forall is_byte [255; 7]) as [H1 H2] by (split; repeat constructor; unfold is_byte; lia).
    exact (window_burst [1] [2; 3] [255; 7] [] H1 H2 eq_refl ltac:(simpl; lia) ltac:(discriminate)). }
  exists g. split_and!; [exact Hg| |exact Hb|].
  - rewrite H; [by rewrite crc32c_digits|]. repeat constructor; unfold is_byte; lia.
  - apply Hd; [..|exact Hb]; repeat constructor; unfold is_byte; lia.
Defined.

End Crc32.
