(* ===== verification/PageChecksum.v ===== *)
(** * Checksums of pages

    buf/buf0checksum.cc, the checks of a page that has been read
    ([buf_page_is_corrupted] of buf/buf0buf.cc, [page_zip_verify_checksum] of
    page/page0zip.cc) and what is written to a page before it goes to its file
    ([buf_flush_init_for_writing] of buf/buf0flu.cc).  A page is a list of
    bytes as in [MachData]; the routine behind [ut_crc32] is an argument with
    the promise of [Crc32].  Warnings are part of the result, other messages
    are left out. *)
From S2P Require Import Prelude Results MachData HashTable Crc32 BufChunk.
Local Open Scope Z_scope.

Module PageChecksum.
Import MachData Crc32.
Local Open Scope mc_scope.

(** fil0fil.h, lines 86-148. *)
Definition FIL_PAGE_SPACE_OR_CHKSUM : nat := 0.
Definition FIL_PAGE_OFFSET : nat := 4.
Definition FIL_PAGE_LSN : nat := 16.
Definition FIL_PAGE_TYPE : nat := 24.
Definition FIL_PAGE_FILE_FLUSH_LSN_OR_KEY_VERSION : nat := 26.
Definition FIL_PAGE_ARCH_LOG_NO_OR_SPACE_ID : nat := 34.
Definition FIL_PAGE_DATA : nat := 38.
Definition FIL_PAGE_END_LSN_OLD_CHKSUM : nat := 8.

Definition BUF_NO_CHECKSUM_MAGIC : Z := 0xDEADBEEF.

(** buf0types.h, lines 84-97. *)
Inductive srv_checksum_algorithm_t :=
| SRV_CHECKSUM_ALGORITHM_CRC32 | SRV_CHECKSUM_ALGORITHM_STRICT_CRC32
| SRV_CHECKSUM_ALGORITHM_INNODB | SRV_CHECKSUM_ALGORITHM_STRICT_INNODB
| SRV_CHECKSUM_ALGORITHM_NONE | SRV_CHECKSUM_ALGORITHM_STRICT_NONE.

#[export] Instance algorithm_eq_dec : EqDecision srv_checksum_algorithm_t.
Proof. solve_decision. Defined.

(** ** Folding (ut0rnd.ic) *)

Definition UT_HASH_RANDOM_MASK : Z := 1463735687.

Definition ut_fold_ulint_pair (n1 n2 : Z) : Z :=
  u64 (Z.lxor (u64 (u64 (Z.shiftl (Z.lxor (Z.lxor n1 n2) HashTable.UT_HASH_RANDOM_MASK2) 8) + n1)) UT_HASH_RANDOM_MASK + n2).

(** [n] statements [fold = ut_fold_ulint_pair(fold, ( *str++))] *)
Fixpoint fold_bytes (n : nat) (b : list Z) (str : nat) (fold : Z) : res Z :=
  match n with
  | O => Ok fold
  | S n => let! c := get b str in fold_bytes n b (str + 1) (ut_fold_ulint_pair fold c)
  end.

Fixpoint fold_loop (fuel : nat) (b : list Z) (str str_end : nat) (fold : Z) : res (nat * Z) :=
  match fuel with
  | O => Blocked
  | S fuel =>
      if decide (str < str_end)%nat then
        let! fold := fold_bytes 8 b str fold in fold_loop fuel b (str + 8) str_end fold
      else Ok (str, fold)
  end.

Definition ut_fold_binary (b : list Z) (str len : nat) : res Z :=
  let str_end := (str + Z.to_nat (Z.land (Z.of_nat len) 0xFFFFFFF8))%nat in
  let! (str, fold) := fold_loop (S len) b str str_end 0 in
  fold_bytes (Z.to_nat (Z.land (Z.of_nat len) 7)) b str fold.

(** ** The checksums of a page *)

(** [n] bytes at [p]. *)
Definition bytes_at (b : list Z) (p n : nat) : res (list Z) :=
  if decide (p + n <= length b)%nat then Ok (take n (drop p b)) else Fault.

Section pages.
Variable UNIV_PAGE_SIZE : nat.
(** The routine behind the pointer [ut_crc32], and the address of the page. *)
Variables (ut_crc32 : Z -> list Z -> res Z) (page : Z).

Definition crc32_at (b : list Z) (p n : nat) : res Z :=
  let! bs := bytes_at b p n in ut_crc32 (page + Z.of_nat p) bs.

Definition buf_calc_page_crc32 (b : list Z) : res Z :=
  let! x := crc32_at b FIL_PAGE_OFFSET (FIL_PAGE_FILE_FLUSH_LSN_OR_KEY_VERSION - FIL_PAGE_OFFSET) in
  let! y := crc32_at b FIL_PAGE_DATA (UNIV_PAGE_SIZE - FIL_PAGE_DATA - FIL_PAGE_END_LSN_OLD_CHKSUM) in
  Ok (Z.lxor x y).

Definition buf_calc_page_new_checksum (b : list Z) : res Z :=
  let! x := ut_fold_binary b FIL_PAGE_OFFSET (FIL_PAGE_FILE_FLUSH_LSN_OR_KEY_VERSION - FIL_PAGE_OFFSET) in
  let! y := ut_fold_binary b FIL_PAGE_DATA (UNIV_PAGE_SIZE - FIL_PAGE_DATA - FIL_PAGE_END_LSN_OLD_CHKSUM) in
  Ok (Z.land (u64 (x + y)) 0xFFFFFFFF).

Definition buf_calc_page_old_checksum (b : list Z) : res Z :=
  let! x := ut_fold_binary b 0 FIL_PAGE_FILE_FLUSH_LSN_OR_KEY_VERSION in
  Ok (Z.land x 0xFFFFFFFF).

(** [buf_page_is_zeroes], and the loops with the same body. *)
Fixpoint all_zero (n : nat) (b : list Z) (i : nat) : res bool :=
  match n with
  | O => Ok true
  | S n => let! c := get b i in if c =? 0 then all_zero n b (i + 1) else Ok false
  end.
Definition buf_page_is_zeroes (b : list Z) (zip_size : nat) : res bool :=
  all_zero (if decide (zip_size = 0%nat) then UNIV_PAGE_SIZE else zip_size) b 0.

Definition buf_page_is_checksum_valid_crc32 (b : list Z) (checksum_field1 checksum_field2 : Z) : res bool :=
  let! crc32 := buf_calc_page_crc32 b in
  Ok ((checksum_field1 =? crc32) && (checksum_field2 =? crc32)).

Definition buf_page_is_checksum_valid_innodb (b : list Z) (checksum_field1 checksum_field2 : Z) : res bool :=
  let! lsn := mach_read_from_4 b FIL_PAGE_LSN in
  let! ok2 := (if checksum_field2 =? lsn then Ok true
               else let! old := buf_calc_page_old_checksum b in Ok (checksum_field2 =? old)) in
  if negb ok2 then Ok false
  else if checksum_field1 =? 0 then Ok true
  else let! new := buf_calc_page_new_checksum b in Ok (checksum_field1 =? new).

Definition buf_page_is_checksum_valid_none (checksum_field1 checksum_field2 : Z) : bool :=
  (checksum_field1 =? checksum_field2) && (checksum_field1 =? BUF_NO_CHECKSUM_MAGIC).

(** ** Compressed pages *)

(** adler32.c of the bundled zlib: the sums of the bytes from [str] on,
    between two divisions. *)
Definition BASE : Z := 65521.
Definition NMAX : nat := 5552.
Definition do1 (x : Z * Z) (c : Z) : Z * Z := (u64 (x.1 + c), u64 (x.2 + u64 (x.1 + c))).
Definition mod_base (x : Z * Z) : Z * Z := (x.1 mod BASE, x.2 mod BASE).
Fixpoint adler_blocks (fuel : nat) (x : Z * Z) (bs : list Z) : Z * Z :=
  match fuel with
  | O => x
  | S fuel =>
      if decide (NMAX <= length bs)%nat then adler_blocks fuel (mod_base (foldl do1 x (take NMAX bs))) (drop NMAX bs)
      else if decide (bs = []) then x else mod_base (foldl do1 x bs)
  end.
Definition adler32 (adler : Z) (bs : list Z) : Z :=
  let x := (Z.land adler 0xffff, Z.land (Z.shiftr adler 16) 0xffff) in
  let once a := if BASE <=? a then a - BASE else a in
  let '(a, s) :=
    match bs with
    | [c] => let a := once (u64 (x.1 + c)) in (a, once (u64 (x.2 + a)))
    | _ => if decide (length bs < 16)%nat then let y := foldl do1 x bs in (once y.1, y.2 mod BASE)
           else adler_blocks (S (length bs)) x bs
    end in
  Z.lor a (u64 (Z.shiftl s 16)).

Definition page_zip_calc_checksum (b : list Z) (size : nat) (algo : srv_checksum_algorithm_t) : res Z :=
  match algo with
  | SRV_CHECKSUM_ALGORITHM_CRC32 | SRV_CHECKSUM_ALGORITHM_STRICT_CRC32 =>
      let! _ := ut_ad (bool_decide (FIL_PAGE_ARCH_LOG_NO_OR_SPACE_ID < size)%nat) in
      let! x := crc32_at b FIL_PAGE_OFFSET (FIL_PAGE_LSN - FIL_PAGE_OFFSET) in
      let! y := crc32_at b FIL_PAGE_TYPE 2 in
      let! z := crc32_at b FIL_PAGE_ARCH_LOG_NO_OR_SPACE_ID (size - FIL_PAGE_ARCH_LOG_NO_OR_SPACE_ID) in
      Ok (Z.lxor (Z.lxor x y) z)
  | SRV_CHECKSUM_ALGORITHM_INNODB | SRV_CHECKSUM_ALGORITHM_STRICT_INNODB =>
      let! _ := ut_ad (bool_decide (FIL_PAGE_ARCH_LOG_NO_OR_SPACE_ID < size)%nat) in
      let! x := bytes_at b FIL_PAGE_OFFSET (FIL_PAGE_LSN - FIL_PAGE_OFFSET) in
      let! y := bytes_at b FIL_PAGE_TYPE 2 in
      let! z := bytes_at b FIL_PAGE_ARCH_LOG_NO_OR_SPACE_ID (size - FIL_PAGE_ARCH_LOG_NO_OR_SPACE_ID) in
      Ok (adler32 (adler32 (adler32 0 x) y) z)
  | SRV_CHECKSUM_ALGORITHM_NONE | SRV_CHECKSUM_ALGORITHM_STRICT_NONE => Ok BUF_NO_CHECKSUM_MAGIC
  end.

(** The answer, and the algorithm [page_warn_strict_checksum] warns about. *)
Definition warn (strict algo other : srv_checksum_algorithm_t) : option srv_checksum_algorithm_t :=
  if decide (algo = strict) then Some other else None.

Definition page_zip_verify_checksum (curr_algo : srv_checksum_algorithm_t) (b : list Z) (size : nat)
  : res (bool * option srv_checksum_algorithm_t) :=
  let! stored := mach_read_from_4 b FIL_PAGE_SPACE_OR_CHKSUM in
  let! page_no := mach_read_from_4 b FIL_PAGE_OFFSET in
  let! space_id := mach_read_from_4 b FIL_PAGE_ARCH_LOG_NO_OR_SPACE_ID in
  let! lsn := mach_read_from_8 b FIL_PAGE_LSN in
  if (stored =? 0) && (lsn =? 0) then let! z := all_zero size b 0 in Ok (z, None)
  else match curr_algo with
  | SRV_CHECKSUM_ALGORITHM_NONE => Ok (true, None)
  | _ =>
      let! calc := page_zip_calc_checksum b size curr_algo in
      if stored =? u32 calc then Ok (true, None)
      else match curr_algo with
      | SRV_CHECKSUM_ALGORITHM_STRICT_CRC32 | SRV_CHECKSUM_ALGORITHM_CRC32 =>
          if stored =? BUF_NO_CHECKSUM_MAGIC then
            Ok (true, warn SRV_CHECKSUM_ALGORITHM_STRICT_CRC32 curr_algo SRV_CHECKSUM_ALGORITHM_NONE)
          else
            let! innodb := page_zip_calc_checksum b size SRV_CHECKSUM_ALGORITHM_INNODB in
            if stored =? u32 innodb then
              Ok (true, warn SRV_CHECKSUM_ALGORITHM_STRICT_CRC32 curr_algo SRV_CHECKSUM_ALGORITHM_INNODB)
            else Ok (false, None)
      | SRV_CHECKSUM_ALGORITHM_STRICT_INNODB | SRV_CHECKSUM_ALGORITHM_INNODB =>
          if stored =? BUF_NO_CHECKSUM_MAGIC then
            Ok (true, warn SRV_CHECKSUM_ALGORITHM_STRICT_INNODB curr_algo SRV_CHECKSUM_ALGORITHM_NONE)
          else
            let! crc32 := page_zip_calc_checksum b size SRV_CHECKSUM_ALGORITHM_CRC32 in
            if stored =? u32 crc32 then
              Ok (true, warn SRV_CHECKSUM_ALGORITHM_STRICT_INNODB curr_algo SRV_CHECKSUM_ALGORITHM_CRC32)
            else Ok (false, None)
      | SRV_CHECKSUM_ALGORITHM_STRICT_NONE =>
          let! crc32 := page_zip_calc_checksum b size SRV_CHECKSUM_ALGORITHM_CRC32 in
          if stored =? u32 crc32 then Ok (true, Some SRV_CHECKSUM_ALGORITHM_CRC32)
          else
            let! innodb := page_zip_calc_checksum b size SRV_CHECKSUM_ALGORITHM_INNODB in
            if stored =? u32 innodb then Ok (true, Some SRV_CHECKSUM_ALGORITHM_INNODB)
            else Ok (false, None)
      | SRV_CHECKSUM_ALGORITHM_NONE => Fault
      end
  end.

(** ** Checking a page that has been read *)

(** fil0crypt.ic, line 35. *)
Definition fil_page_is_encrypted (b : list Z) : res bool :=
  let! key_version := mach_read_from_4 b FIL_PAGE_FILE_FLUSH_LSN_OR_KEY_VERSION in Ok (negb (key_version =? 0)).

(** The formats in the order in which an algorithm tries them. *)
Definition try_crc32 (b : list Z) (f1 f2 : Z) (w : option srv_checksum_algorithm_t)
  (k : res (bool * option srv_checksum_algorithm_t)) : res (bool * option srv_checksum_algorithm_t) :=
  let! ok := buf_page_is_checksum_valid_crc32 b f1 f2 in if ok then Ok (false, w) else k.
Definition try_innodb (b : list Z) (f1 f2 : Z) (w : option srv_checksum_algorithm_t)
  (k : res (bool * option srv_checksum_algorithm_t)) : res (bool * option srv_checksum_algorithm_t) :=
  let! ok := buf_page_is_checksum_valid_innodb b f1 f2 in if ok then Ok (false, w) else k.
Definition try_none (f1 f2 : Z) (w : option srv_checksum_algorithm_t)
  (k : res (bool * option srv_checksum_algorithm_t)) : res (bool * option srv_checksum_algorithm_t) :=
  if buf_page_is_checksum_valid_none f1 f2 then Ok (false, w) else k.

(** The switch at the end of [buf_page_is_corrupted]. *)
Definition check_formats (curr_algo : srv_checksum_algorithm_t) (b : list Z) (f1 f2 : Z)
  : res (bool * option srv_checksum_algorithm_t) :=
  match curr_algo with
  | SRV_CHECKSUM_ALGORITHM_CRC32 | SRV_CHECKSUM_ALGORITHM_STRICT_CRC32 =>
      let w := warn SRV_CHECKSUM_ALGORITHM_STRICT_CRC32 curr_algo in
      try_crc32 b f1 f2 None (
      try_none f1 f2 (w SRV_CHECKSUM_ALGORITHM_NONE) (
      try_innodb b f1 f2 (w SRV_CHECKSUM_ALGORITHM_INNODB) (Ok (true, None))))
  | SRV_CHECKSUM_ALGORITHM_INNODB | SRV_CHECKSUM_ALGORITHM_STRICT_INNODB =>
      let w := warn SRV_CHECKSUM_ALGORITHM_STRICT_INNODB curr_algo in
      try_innodb b f1 f2 None (
      try_none f1 f2 (w SRV_CHECKSUM_ALGORITHM_NONE) (
      try_crc32 b f1 f2 (w SRV_CHECKSUM_ALGORITHM_CRC32) (Ok (true, None))))
  | SRV_CHECKSUM_ALGORITHM_STRICT_NONE =>
      try_none f1 f2 None (
      try_crc32 b f1 f2 (Some SRV_CHECKSUM_ALGORITHM_CRC32) (
      try_innodb b f1 f2 (Some SRV_CHECKSUM_ALGORITHM_INNODB) (Ok (true, None))))
  | SRV_CHECKSUM_ALGORITHM_NONE => Fault
  end.

(** [crypt_type]: the type of the encryption of the space, if it has data on
    it; [CRYPT_SCHEME_UNENCRYPTED] is 0. *)
Definition buf_page_is_corrupted (srv_checksum_algorithm : srv_checksum_algorithm_t) (crypt_type : option Z)
  (b : list Z) (zip_size : nat) : res (bool * option srv_checksum_algorithm_t) :=
  let! space_id := mach_read_from_4 b FIL_PAGE_ARCH_LOG_NO_OR_SPACE_ID in
  let! page_encrypted := match crypt_type with
    | Some type => if type =? 0 then Ok false else fil_page_is_encrypted b
    | None => Ok false end in
  let! torn := (if negb page_encrypted && bool_decide (zip_size = 0%nat) then
      let! x := bytes_at b (FIL_PAGE_LSN + 4) 4 in
      let! y := bytes_at b (UNIV_PAGE_SIZE - FIL_PAGE_END_LSN_OLD_CHKSUM + 4) 4 in
      Ok (negb (bool_decide (x = y)))
    else Ok false) in
  if torn then Ok (true, None)
  else if decide (srv_checksum_algorithm = SRV_CHECKSUM_ALGORITHM_NONE) then Ok (false, None)
  else if decide (zip_size <> 0%nat) then
    let! r := page_zip_verify_checksum srv_checksum_algorithm b zip_size in Ok (negb r.1, r.2)
  else if page_encrypted then Ok (false, None)
  else
    let! checksum_field1 := mach_read_from_4 b FIL_PAGE_SPACE_OR_CHKSUM in
    let! checksum_field2 := mach_read_from_4 b (UNIV_PAGE_SIZE - FIL_PAGE_END_LSN_OLD_CHKSUM) in
    let! lsn := mach_read_from_8 b FIL_PAGE_LSN in
    if (checksum_field1 =? 0) && (checksum_field2 =? 0) && (lsn =? 0) then
      let! z := all_zero UNIV_PAGE_SIZE b 0 in Ok (negb z, None)
    else
      let! page_no := mach_read_from_4 b FIL_PAGE_OFFSET in
      check_formats srv_checksum_algorithm b checksum_field1 checksum_field2.

End pages.

(** ** Writing a page *)

Definition FIL_PAGE_INDEX : Z := 17855.
Definition UNIV_ZIP_SIZE_MIN : Z := 1024.
Definition UNIV_ZIP_SIZE_MAX : Z := 16384.

(** The fields of [page_zip_des_t] that are used here, and the address of the
    data. *)
Record page_zip_des_t := mkZip { data : list Z; data_address : Z; ssize : Z }.

Section writing.
Variable UNIV_PAGE_SIZE : nat.
Variable ut_crc32 : Z -> list Z -> res Z.
Variable srv_checksum_algorithm : srv_checksum_algorithm_t.

Definition page_zip_get_size (z : page_zip_des_t) : res nat :=
  if ssize z =? 0 then Ok O
  else
    let size := Z.shiftl (Z.shiftr UNIV_ZIP_SIZE_MIN 1) (ssize z) in
    let! _ := ut_ad (UNIV_ZIP_SIZE_MIN <=? size) in
    let! _ := ut_ad (size <=? Z.of_nat UNIV_PAGE_SIZE) in
    Ok (Z.to_nat size).

Definition memset (b : list Z) (p : nat) (c : Z) (n : nat) : res (list Z) :=
  if decide (p + n <= length b)%nat then Ok (list_inserts p (replicate n c) b) else Fault.
Definition memcpy (dst src : list Z) (n : nat) : res (list Z) :=
  let! bs := bytes_at src 0 n in
  if decide (n <= length dst)%nat then Ok (list_inserts 0 bs dst) else Fault.

Definition buf_flush_update_zip_checksum (z : page_zip_des_t) (zip_size : nat) (lsn : Z) : res page_zip_des_t :=
  let! _ := ut_a (bool_decide (0 < zip_size)%nat) in
  let! checksum := page_zip_calc_checksum ut_crc32 (data_address z) (data z) zip_size srv_checksum_algorithm in
  let! b := mach_write_to_8 (data z) FIL_PAGE_LSN lsn in
  let! b := memset b FIL_PAGE_FILE_FLUSH_LSN_OR_KEY_VERSION 0 8 in
  let! b := mach_write_to_4 b FIL_PAGE_SPACE_OR_CHKSUM (u32 checksum) in
  Ok (mkZip b (data_address z) (ssize z)).

(** The types that are written uncompressed to a compressed page, and the
    others that may be written. *)
Definition copied_types : list Z := [0; 3; 5; 8; 9].
Definition compressed_types : list Z := [11; 12; FIL_PAGE_INDEX].

Definition init_zip_for_writing (b : list Z) (z : page_zip_des_t) (newest_lsn : Z) : res page_zip_des_t :=
  let! zip_size := page_zip_get_size z in
  let! _ := ut_ad (bool_decide (zip_size <> 0%nat)) in
  let! _ := ut_ad (BufChunk.ut_is_2pow (Z.of_nat zip_size)) in
  let! _ := ut_ad (Z.of_nat zip_size <=? UNIV_ZIP_SIZE_MAX) in
  let! type := mach_read_from_2 b FIL_PAGE_TYPE in
  if bool_decide (type ∈ copied_types) then
    let! d := memcpy (data z) b zip_size in
    buf_flush_update_zip_checksum (mkZip d (data_address z) (ssize z)) zip_size newest_lsn
  else if bool_decide (type ∈ compressed_types) then buf_flush_update_zip_checksum z zip_size newest_lsn
  else Fault.

(** [page]: the address of the page. *)
Definition buf_flush_init_for_writing (page : Z) (b : list Z) (page_zip : option page_zip_des_t) (newest_lsn : Z)
  : res (list Z * option page_zip_des_t) :=
  match page_zip with
  | Some z => let! z := init_zip_for_writing b z newest_lsn in Ok (b, Some z)
  | None =>
      let trailer := (UNIV_PAGE_SIZE - FIL_PAGE_END_LSN_OLD_CHKSUM)%nat in
      let! b := mach_write_to_8 b FIL_PAGE_LSN newest_lsn in
      let! b := mach_write_to_8 b trailer newest_lsn in
      let! (b, checksum) := match srv_checksum_algorithm with
        | SRV_CHECKSUM_ALGORITHM_CRC32 | SRV_CHECKSUM_ALGORITHM_STRICT_CRC32 =>
            let! checksum := buf_calc_page_crc32 UNIV_PAGE_SIZE ut_crc32 page b in
            let! b := mach_write_to_4 b FIL_PAGE_SPACE_OR_CHKSUM checksum in Ok (b, checksum)
        | SRV_CHECKSUM_ALGORITHM_INNODB | SRV_CHECKSUM_ALGORITHM_STRICT_INNODB =>
            let! checksum := buf_calc_page_new_checksum UNIV_PAGE_SIZE b in
            let! b := mach_write_to_4 b FIL_PAGE_SPACE_OR_CHKSUM checksum in
            let! checksum := buf_calc_page_old_checksum b in Ok (b, checksum)
        | SRV_CHECKSUM_ALGORITHM_NONE | SRV_CHECKSUM_ALGORITHM_STRICT_NONE =>
            let! b := mach_write_to_4 b FIL_PAGE_SPACE_OR_CHKSUM BUF_NO_CHECKSUM_MAGIC in
            Ok (b, BUF_NO_CHECKSUM_MAGIC)
        end in
      let! b := mach_write_to_4 b trailer checksum in
      Ok (b, None)
  end.

End writing.

(** ** Regions of a page *)

Definition region (b : list Z) (p n : nat) : list Z := take n (drop p b).

Lemma region_length b p n : (p + n <= length b)%nat -> length (region b p n) = n.
Proof. intros H. unfold region. rewrite length_take, length_drop. lia. Qed.

Lemma region_bytes b p n : Forall is_byte b -> Forall is_byte (region b p n).
Proof. intros H. by apply Forall_take, Forall_drop. Qed.

Lemma region_lookup b p n i : (i < n)%nat -> region b p n !! i = b !! (p + i)%nat.
Proof. intros H. unfold region. by rewrite lookup_take_lt, lookup_drop. Qed.

Lemma region_has b p n : (p + n <= length b)%nat -> has b p (region b p n).
Proof.
  intros H i v Hi. pose proof (lookup_lt_Some _ _ _ Hi) as Hl. rewrite region_length in Hl by done.
  by rewrite region_lookup in Hi.
Qed.

Lemma has_region b p bs : has b p bs -> (p + length bs <= length b)%nat -> region b p (length bs) = bs.
Proof.
  intros H Hl. apply list_eq_same_length with (n := length bs); [done|by rewrite region_length|].
  intros i x y Hi Hx Hy. rewrite region_lookup in Hx by done. specialize (H i y Hy). congruence.
Qed.

(** A store outside of a region leaves it alone. *)
Lemma region_inserts b p n q bs : (p + n <= q \/ q + length bs <= p)%nat -> region (list_inserts q bs b) p n = region b p n.
Proof.
  intros H. apply list_eq. intros i. destruct (decide (i < n)%nat) as [Hi|Hi].
  - rewrite !region_lookup by done. destruct H; [by rewrite list_lookup_inserts_lt by lia|].
    by rewrite list_lookup_inserts_ge by lia.
  - unfold region. by rewrite !lookup_take_ge by lia.
Qed.

Lemma region_cons b p n c : b !! p = Some c -> region b p (S n) = c :: region b (p + 1) n.
Proof. intros H. unfold region. rewrite (drop_S _ _ _ H). cbn [take]. by rewrite Nat.add_1_r. Qed.

Lemma region_split b p n m : region b p (n + m) = region b p n ++ region b (p + n) m.
Proof. unfold region. by rewrite <- take_take_drop, drop_drop. Qed.

Lemma get_region b p n : (p + S n <= length b)%nat -> exists c, get b p = Ok c /\ region b p (S n) = c :: region b (p + 1) n.
Proof.
  intros H. destruct (lookup_lt_is_Some_2 b p) as [c Hc]; [lia|]. exists c. unfold get. rewrite Hc.
  split; [done|by apply region_cons].
Qed.

Lemma bytes_at_ok b p n : (p + n <= length b)%nat -> bytes_at b p n = Ok (region b p n).
Proof. intros H. unfold bytes_at. by rewrite decide_True. Qed.

Lemma read_4_region b p : (p + 4 <= length b)%nat -> Forall is_byte b -> mach_read_from_4 b p = Ok (bval (region b p 4)).
Proof. intros H Hb. apply read_4; [by apply region_has|by apply region_length|by apply region_bytes]. Qed.

Lemma fold_bytes_ok n b : forall str f, (str + n <= length b)%nat ->
  fold_bytes n b str f = Ok (foldl ut_fold_ulint_pair f (region b str n)).
Proof.
  induction n as [|n IH]; intros str f H; [done|]. cbn [fold_bytes].
  destruct (get_region b str n H) as (c & -> & ->). cbn [rbind foldl]. apply IH. lia.
Qed.

Lemma fold_loop_ok k b : forall fuel str f, (k < fuel)%nat -> (str + 8 * k <= length b)%nat ->
  fold_loop fuel b str (str + 8 * k) f = Ok ((str + 8 * k)%nat, foldl ut_fold_ulint_pair f (region b str (8 * k))).
Proof.
  induction k as [|k IH]; intros [|fuel] str f Hf H; try lia; cbn [fold_loop].
  - rewrite decide_False by lia. by rewrite Nat.add_0_r.
  - rewrite decide_True by lia. rewrite fold_bytes_ok by lia. cbn [rbind].
    replace (str + 8 * S k)%nat with (str + 8 + 8 * k)%nat by lia. rewrite IH by lia.
    replace (8 * S k)%nat with (8 + 8 * k)%nat by lia. by rewrite region_split, foldl_app.
Qed.

(** Folding eight bytes at a time is folding byte by byte. *)
Lemma ut_fold_binary_ok b p n : (p + n <= length b)%nat -> Z.of_nat n < 2 ^ 32 ->
  ut_fold_binary b p n = Ok (foldl ut_fold_ulint_pair 0 (region b p n)).
Proof.
  intros H Hn. unfold ut_fold_binary. pose proof (Nat.div_mod n 8 ltac:(lia)) as E. pose proof (Nat.mod_upper_bound n 8 ltac:(lia)).
  assert (Z.land (Z.of_nat n) 7 = Z.of_nat (n mod 8)) as E7.
  { change 7 with (Z.ones 3). rewrite Z.land_ones, Nat2Z.inj_mod by lia. done. }
  assert (Z.land (Z.of_nat n) 0xFFFFFFF8 = Z.of_nat (8 * (n / 8))) as E8.
  { assert (Z.land (Z.of_nat n) 0xFFFFFFF8 + Z.land (Z.of_nat n) 7 = Z.of_nat n); [|lia].
    rewrite Z.add_nocarry_lxor; [|by rewrite <- Z.land_assoc, (Z.land_assoc _ (Z.of_nat n)), (Z.land_comm _ (Z.of_nat n)), <- Z.land_assoc, !Z.land_0_r].
    rewrite Z.lxor_lor by (by rewrite <- Z.land_assoc, (Z.land_assoc _ (Z.of_nat n)), (Z.land_comm _ (Z.of_nat n)), <- Z.land_assoc, !Z.land_0_r).
    rewrite <- Z.land_lor_distr_r. change (Z.lor 0xFFFFFFF8 7) with (Z.ones 32). rewrite Z.land_ones by lia. apply Z.mod_small. lia. }
  rewrite E7, E8, !Nat2Z.id, fold_loop_ok by lia. cbn [rbind]. rewrite fold_bytes_ok by lia.
  f_equal. rewrite <- foldl_app, <- region_split. by rewrite <- E.
Qed.

Lemma all_zero_ok n b : forall i, (i + n <= length b)%nat -> all_zero n b i = Ok (forallb (fun c => c =? 0) (region b i n)).
Proof.
  induction n as [|n IH]; intros i H; [done|]. cbn [all_zero]. destruct (get_region b i n H) as (c & -> & ->).
  cbn [rbind forallb]. destruct (c =? 0); [|done]. apply IH. lia.
Qed.

Ltac page_lia := try done; unfold FIL_PAGE_SPACE_OR_CHKSUM, FIL_PAGE_OFFSET, FIL_PAGE_LSN, FIL_PAGE_TYPE,
  FIL_PAGE_FILE_FLUSH_LSN_OR_KEY_VERSION, FIL_PAGE_ARCH_LOG_NO_OR_SPACE_ID, FIL_PAGE_DATA, FIL_PAGE_END_LSN_OLD_CHKSUM; lia.

(** ** What the checks decide *)

Section checks.
Variable UNIV_PAGE_SIZE : nat.
Variables (crc : Z -> list Z -> res Z) (page : Z).
Context `{!Crc32Routine crc}.
Hypothesis Hsize : (46 <= UNIV_PAGE_SIZE)%nat /\ Z.of_nat UNIV_PAGE_SIZE < 2 ^ 32.
Local Notation trailer := (UNIV_PAGE_SIZE - 8)%nat.

(** The checksums and the fields of a page. *)
Definition fold_of (bs : list Z) : Z := foldl ut_fold_ulint_pair 0 bs.
Definition crc_of (b : list Z) : Z := Z.lxor (crc32c (region b 4 22)) (crc32c (region b 38 (UNIV_PAGE_SIZE - 38 - 8))).
Definition new_of (b : list Z) : Z :=
  Z.land (u64 (fold_of (region b 4 22) + fold_of (region b 38 (UNIV_PAGE_SIZE - 38 - 8)))) 0xFFFFFFFF.
Definition old_of (b : list Z) : Z := Z.land (fold_of (region b 0 26)) 0xFFFFFFFF.
Definition field1 (b : list Z) : Z := bval (region b 0 4).
Definition field2 (b : list Z) : Z := bval (region b trailer 4).

Definition valid_crc32 (b : list Z) : bool := (field1 b =? crc_of b) && (field2 b =? crc_of b).
Definition valid_innodb (b : list Z) : bool :=
  ((field2 b =? bval (region b 16 4)) || (field2 b =? old_of b)) && ((field1 b =? 0) || (field1 b =? new_of b)).
Definition valid_none (b : list Z) : bool := (field1 b =? field2 b) && (field1 b =? BUF_NO_CHECKSUM_MAGIC).

(** A page that has been read. *)
Definition page_bytes (b : list Z) : Prop := length b = UNIV_PAGE_SIZE /\ Forall is_byte b.

Lemma crc32_at_ok b p n : page_bytes b -> (p + n <= UNIV_PAGE_SIZE)%nat -> crc32_at crc page b p n = Ok (crc32c (region b p n)).
Proof.
  intros [Hl Hb] H. unfold crc32_at. rewrite bytes_at_ok by lia. cbn [rbind]. by apply crc32_routine_ok, region_bytes.
Qed.

Lemma calc_crc_ok b : page_bytes b -> buf_calc_page_crc32 UNIV_PAGE_SIZE crc page b = Ok (crc_of b).
Proof. intros Hb. unfold buf_calc_page_crc32. by rewrite !crc32_at_ok by page_lia. Qed.

Lemma calc_new_ok b : page_bytes b -> buf_calc_page_new_checksum UNIV_PAGE_SIZE b = Ok (new_of b).
Proof. intros [Hl _]. unfold buf_calc_page_new_checksum. by rewrite !ut_fold_binary_ok by page_lia. Qed.

Lemma calc_old_ok b : page_bytes b -> buf_calc_page_old_checksum b = Ok (old_of b).
Proof. intros [Hl _]. unfold buf_calc_page_old_checksum. by rewrite ut_fold_binary_ok by page_lia. Qed.

Lemma valid_crc32_ok b : page_bytes b ->
  buf_page_is_checksum_valid_crc32 UNIV_PAGE_SIZE crc page b (field1 b) (field2 b) = Ok (valid_crc32 b).
Proof. intros Hb. unfold buf_page_is_checksum_valid_crc32. by rewrite calc_crc_ok. Qed.

Lemma valid_innodb_ok b : page_bytes b ->
  buf_page_is_checksum_valid_innodb UNIV_PAGE_SIZE b (field1 b) (field2 b) = Ok (valid_innodb b).
Proof.
  intros Hb. unfold buf_page_is_checksum_valid_innodb, valid_innodb. rewrite calc_old_ok, calc_new_ok by done.
  destruct Hb as [Hl Hb]. rewrite read_4_region by page_lia. cbn [rbind FIL_PAGE_LSN].
  destruct (field2 b =? _), (field2 b =? old_of b), (field1 b =? 0); done.
Qed.

(** All algorithms but the one without a check accept the same pages: they try
    the three formats, in different orders. *)
Lemma check_formats_ok algo b : page_bytes b -> algo <> SRV_CHECKSUM_ALGORITHM_NONE -> exists w,
  check_formats UNIV_PAGE_SIZE crc page algo b (field1 b) (field2 b) =
  Ok (negb (valid_crc32 b || valid_innodb b || valid_none b), w).
Proof.
  intros Hb Ha. unfold check_formats, try_crc32, try_innodb, try_none. rewrite valid_crc32_ok, valid_innodb_ok by done. cbn [rbind].
  fold (valid_none b). change (buf_page_is_checksum_valid_none (field1 b) (field2 b)) with (valid_none b).
  destruct algo; try done; destruct (valid_crc32 b), (valid_innodb b), (valid_none b); by eexists.
Qed.

(** The parts of a page that a write was interrupted in. *)
Definition torn (b : list Z) : bool := negb (bool_decide (region b 20 4 = region b (UNIV_PAGE_SIZE - 8 + 4) 4)).
Definition lsn_zero (b : list Z) : bool :=
  match mach_read_from_8 b 16 with Ok lsn => lsn =? 0 | _ => false end.
Definition verdict (b : list Z) : bool :=
  torn b ||
  (if (field1 b =? 0) && (field2 b =? 0) && lsn_zero b then negb (forallb (fun c => c =? 0) b)
   else negb (valid_crc32 b || valid_innodb b || valid_none b)).

Lemma corrupted_ok algo b : page_bytes b -> algo <> SRV_CHECKSUM_ALGORITHM_NONE ->
  exists w, buf_page_is_corrupted UNIV_PAGE_SIZE crc page algo None b 0 = Ok (verdict b, w).
Proof.
  intros Hp Ha. pose proof Hp as [Hl Hb]. unfold buf_page_is_corrupted, verdict.
  rewrite !read_4_region by page_lia. cbn [rbind]. rewrite bool_decide_true by done. cbn [negb andb].
  rewrite !bytes_at_ok by page_lia. cbn [rbind]. change (negb (bool_decide _)) with (torn b).
  destruct (torn b); [by eexists|]. rewrite decide_False by done. rewrite decide_False by (intros H; by apply H).
  unfold lsn_zero. assert (exists z, mach_read_from_8 b 16 = Ok z) as [z Ez].
  { unfold mach_read_from_8. rewrite !read_4_region by page_lia. by eexists. }
  change FIL_PAGE_LSN with 16%nat. rewrite Ez. cbn [rbind orb].
  change (bval (region b FIL_PAGE_SPACE_OR_CHKSUM 4)) with (field1 b).
  change (bval (region b (UNIV_PAGE_SIZE - FIL_PAGE_END_LSN_OLD_CHKSUM) 4)) with (field2 b).
  destruct (_ && _ && _); [|by apply check_formats_ok].
  rewrite all_zero_ok by page_lia. cbn [rbind]. eexists. do 3 f_equal. unfold region. rewrite drop_0.
  by rewrite take_ge by lia.
Qed.

(** ** Pages that are written *)

(** A page with its lsn at both ends, and then with its checksum fields. *)
Definition stamped (b : list Z) (lsn : Z) : list Z := list_inserts trailer (be 8 lsn) (list_inserts 16 (be 8 lsn) b).
Definition sealed1 (b : list Z) (c1 : Z) : list Z := list_inserts 0 (be 4 c1) b.
Definition sealed (b : list Z) (c1 c2 : Z) : list Z := list_inserts trailer (be 4 c2) (sealed1 b c1).

Lemma inserts_page b p bs : page_bytes b -> Forall is_byte bs -> page_bytes (list_inserts p bs b).
Proof.
  intros [Hl Hb] Hbs. split; [by rewrite length_inserts|]. revert p b Hl Hb. induction Hbs as [|c bs Hc _ IH]; intros p b Hl Hb; [done|].
  rewrite inserts_cons. apply IH; [by rewrite length_insert|by apply Forall_insert].
Qed.

Lemma stamped_page b lsn : page_bytes b -> page_bytes (stamped b lsn).
Proof. intros Hb. by apply inserts_page, be_bytes; apply inserts_page, be_bytes. Qed.

Lemma sealed_page b c1 c2 : page_bytes b -> page_bytes (sealed b c1 c2).
Proof. intros Hb. by apply inserts_page, be_bytes; apply inserts_page, be_bytes. Qed.

Lemma sealed_region b c1 c2 p n : (4 <= p)%nat -> (p + n <= trailer \/ trailer + 4 <= p)%nat ->
  region (sealed b c1 c2) p n = region b p n.
Proof. intros H1 H2. unfold sealed, sealed1. rewrite !region_inserts by (rewrite be_length; lia). done. Qed.

Lemma region_written b p k n : page_bytes b -> (p + k <= UNIV_PAGE_SIZE)%nat -> region (list_inserts p (be k n) b) p k = be k n.
Proof.
  intros [Hl _] H. rewrite <- (be_length k n) at 2. apply has_region; [apply inserts_has|rewrite length_inserts]; rewrite be_length; lia.
Qed.

Lemma sealed_fields b c1 c2 : page_bytes b -> 0 <= c1 < 2 ^ 32 -> 0 <= c2 < 2 ^ 32 ->
  field1 (sealed b c1 c2) = c1 /\ field2 (sealed b c1 c2) = c2.
Proof.
  intros Hb H1 H2. unfold field1, field2, sealed, sealed1. split.
  - rewrite region_inserts, region_written by (rewrite ?be_length; done || lia). by apply (bval_be_small 4).
  - rewrite region_written by (lia || by apply inserts_page, be_bytes). by apply (bval_be_small 4).
Qed.

Lemma crc_of_sealed b c1 c2 : crc_of (sealed b c1 c2) = crc_of b.
Proof. unfold crc_of. by rewrite !sealed_region by lia. Qed.

Lemma new_of_sealed b c1 c2 : new_of (sealed b c1 c2) = new_of b.
Proof. unfold new_of. by rewrite !sealed_region by lia. Qed.

Lemma old_of_sealed b c1 c2 : old_of (sealed b c1 c2) = old_of (sealed1 b c1).
Proof. unfold old_of, sealed. by rewrite region_inserts by lia. Qed.

Lemma land_32 x : 0 <= Z.land x 0xFFFFFFFF < 2 ^ 32.
Proof. change 0xFFFFFFFF with (Z.ones 32). rewrite Z.land_ones by lia. apply Z.mod_pos_bound. lia. Qed.

Lemma crc_of_range b : page_bytes b -> 0 <= crc_of b < 2 ^ 32.
Proof. intros [_ Hb]. apply lxor_range; by apply crc32c_range, region_bytes. Qed.

(** Both copies of the lsn are intact, and it is not zero. *)
Lemma sealed_whole b lsn c1 c2 : page_bytes b -> 0 < lsn < 2 ^ 64 ->
  torn (sealed (stamped b lsn) c1 c2) = false /\ lsn_zero (sealed (stamped b lsn) c1 c2) = false.
Proof.
  intros Hb Hlsn. pose proof (inserts_page b 16 (be 8 lsn) Hb (be_bytes _ _)) as H1. pose proof Hb as [Hl _].
  assert (region (sealed (stamped b lsn) c1 c2) 16 8 = be 8 lsn) as E16.
  { rewrite sealed_region by lia. unfold stamped. rewrite region_inserts by lia. apply region_written; [done|lia]. }
  assert (region (stamped b lsn) trailer 8 = be 8 lsn) as Et by (apply region_written; [done|lia]).
  pose proof (region_split (sealed (stamped b lsn) c1 c2) 16 4 4) as S16. rewrite (E16 : region _ 16 (4 + 4) = _) in S16.
  pose proof (region_split (stamped b lsn) trailer 4 4) as St. rewrite (Et : region _ trailer (4 + 4) = _) in St.
  rewrite (be_app 4 4) in S16, St. pose proof (stamped_page b lsn Hb) as [Ls _].
  pose proof (sealed_page _ c1 c2 (stamped_page b lsn Hb)) as [L4 _].
  apply app_inj_1 in S16 as [_ S16]; [|by rewrite be_length, region_length by lia].
  apply app_inj_1 in St as [_ St]; [|by rewrite be_length, region_length by lia]. split.
  - unfold torn. rewrite (sealed_region _ _ _ (trailer + 4)) by lia. cbn [Nat.add] in S16. by rewrite <- S16, <- St, bool_decide_true.
  - unfold lsn_zero. rewrite (read_8 _ _ lsn); [rewrite Z.mod_small by lia; lia|].
    rewrite <- E16. apply region_has. lia.
Qed.

Lemma sealed_accepted b lsn c1 c2 : page_bytes b -> 0 < lsn < 2 ^ 64 ->
  (valid_crc32 (sealed (stamped b lsn) c1 c2) || valid_innodb (sealed (stamped b lsn) c1 c2)
    || valid_none (sealed (stamped b lsn) c1 c2) = true) -> verdict (sealed (stamped b lsn) c1 c2) = false.
Proof.
  intros Hb Hl Hv. destruct (sealed_whole b lsn c1 c2 Hb Hl) as [Ht Hz]. unfold verdict. by rewrite Ht, Hz, andb_false_r, Hv.
Qed.

Lemma written_ok algo b lsn : page_bytes b -> 0 < lsn < 2 ^ 64 -> exists c1 c2,
  buf_flush_init_for_writing UNIV_PAGE_SIZE crc algo page b None lsn = Ok (sealed (stamped b lsn) c1 c2, None) /\
  verdict (sealed (stamped b lsn) c1 c2) = false.
Proof.
  intros Hb Hlsn. pose proof Hb as [Hl _]. pose proof (stamped_page b lsn Hb) as Hs. pose proof Hs as [Ls _].
  pose proof (fun c => inserts_page (stamped b lsn) 0 (be 4 c) Hs (be_bytes _ _)) as H1.
  unfold buf_flush_init_for_writing. rewrite write_8 by page_lia. cbn [rbind].
  rewrite write_8 by (rewrite length_inserts; page_lia). cbn [rbind].
  change (list_inserts (UNIV_PAGE_SIZE - _) _ _) with (stamped b lsn).
  assert (forall c1 c2, 0 <= c1 < 2 ^ 32 -> 0 <= c2 < 2 ^ 32 ->
    (mach_write_to_4 (stamped b lsn) FIL_PAGE_SPACE_OR_CHKSUM c1 = Ok (sealed1 (stamped b lsn) c1)) /\
    (mach_write_to_4 (sealed1 (stamped b lsn) c1) (UNIV_PAGE_SIZE - FIL_PAGE_END_LSN_OLD_CHKSUM) c2 = Ok (sealed (stamped b lsn) c1 c2)))
    as Hw.
  { intros c1 c2 _ _. destruct (H1 c1) as [L _]. split; apply write_4; unfold sealed1; page_lia. }
  assert (forall c1 c2 : Z, 0 <= c1 < 2 ^ 32 -> 0 <= c2 < 2 ^ 32 ->
    c1 = c2 /\ (c1 = crc_of (stamped b lsn) \/ c1 = BUF_NO_CHECKSUM_MAGIC) \/
    c1 = new_of (stamped b lsn) /\ c2 = old_of (sealed1 (stamped b lsn) c1) ->
    verdict (sealed (stamped b lsn) c1 c2) = false) as Hv.
  { intros c1 c2 R1 R2 Hc. apply sealed_accepted; [done..|]. destruct (sealed_fields _ c1 c2 Hs R1 R2) as [F1 F2].
    unfold valid_crc32, valid_innodb, valid_none. rewrite F1, F2, crc_of_sealed, new_of_sealed, old_of_sealed.
    destruct Hc as [(-> & [-> | ->])|(-> & ->)]; rewrite !Z.eqb_refl; cbn [andb orb]; rewrite ?orb_true_r; reflexivity. }
  pose proof (crc_of_range _ Hs) as Rc. assert (0 <= BUF_NO_CHECKSUM_MAGIC < 2 ^ 32) as Rm by done.
  assert (0 <= new_of (stamped b lsn) < 2 ^ 32) as Rn by apply land_32.
  assert (0 <= old_of (sealed1 (stamped b lsn) (new_of (stamped b lsn))) < 2 ^ 32) as Ro by apply land_32.
  destruct algo.
  1,2: rewrite calc_crc_ok by exact Hs; cbn [rbind]; destruct (Hw _ _ Rc Rc) as [-> W2]; cbn [rbind]; rewrite W2;
    eexists _, _; (split; [reflexivity|]); apply (Hv _ _ Rc Rc); left; split; [reflexivity|left; reflexivity].
  1,2: rewrite calc_new_ok by exact Hs; cbn [rbind]; destruct (Hw _ _ Rn Ro) as [-> W2];
    cbn [rbind]; rewrite calc_old_ok by exact (H1 _); cbn [rbind]; rewrite W2;
    eexists _, _; (split; [reflexivity|]); apply (Hv _ _ Rn Ro); right; split; reflexivity.
  1,2: destruct (Hw _ _ Rm Rm) as [-> W2]; cbn [rbind]; rewrite W2;
    eexists _, _; (split; [reflexivity|]); apply (Hv _ _ Rm Rm); left; split; [reflexivity|right; reflexivity].
Qed.

Lemma sealed_lsn b lsn c1 c2 : page_bytes b -> 0 < lsn < 2 ^ 64 ->
  mach_read_from_8 (sealed (stamped b lsn) c1 c2) 16 = Ok lsn.
Proof.
  intros Hb Hlsn. pose proof Hb as [Hl _]. pose proof (inserts_page b 16 (be 8 lsn) Hb (be_bytes _ _)) as H1.
  rewrite (read_8 _ _ lsn); [by rewrite Z.mod_small by lia|].
  assert (region (sealed (stamped b lsn) c1 c2) 16 8 = be 8 lsn) as <-.
  - rewrite sealed_region by lia. unfold stamped. rewrite region_inserts by lia. apply region_written; [done|lia].
  - apply region_has. destruct (sealed_page _ c1 c2 (stamped_page b lsn Hb)). lia.
Qed.

(** Without checksums a page is only looked at for its two lsns. *)
Lemma corrupted_none b : page_bytes b ->
  buf_page_is_corrupted UNIV_PAGE_SIZE crc page SRV_CHECKSUM_ALGORITHM_NONE None b 0 = Ok (torn b, None).
Proof.
  intros [Hl Hb]. unfold buf_page_is_corrupted. rewrite read_4_region by page_lia. cbn [rbind].
  rewrite bool_decide_true by done. cbn [negb andb]. rewrite !bytes_at_ok by page_lia. cbn [rbind].
  change (negb (bool_decide _)) with (torn b). by destruct (torn b).
Qed.

Lemma verdict_accepted algo b : page_bytes b -> verdict b = false ->
  exists w, buf_page_is_corrupted UNIV_PAGE_SIZE crc page algo None b 0 = Ok (false, w).
Proof.
  intros Hb Hv. destruct (decide (algo = SRV_CHECKSUM_ALGORITHM_NONE)) as [->|Hn].
  - rewrite corrupted_none by done. apply orb_false_iff in Hv as [-> _]. by eexists.
  - rewrite <- Hv. by apply corrupted_ok.
Qed.

(** ** Damage *)

Lemma region_window xs ws ys q n : (q <= length xs)%nat -> (length xs + length ws <= q + n)%nat ->
  region (xs ++ ws ++ ys) q n = drop q xs ++ ws ++ take (q + n - length xs - length ws) ys.
Proof.
  intros H1 H2. unfold region. rewrite drop_app_le by done. rewrite take_app_ge by (rewrite length_drop; lia).
  rewrite take_app_ge by (rewrite length_drop; lia). do 3 f_equal. rewrite length_drop. lia.
Qed.

Lemma region_away xs ws ws' ys q n : length ws = length ws' -> (q + n <= length xs \/ length xs + length ws <= q)%nat ->
  region (xs ++ ws' ++ ys) q n = region (xs ++ ws ++ ys) q n.
Proof.
  intros Hl H. unfold region. destruct H as [H|H].
  - rewrite !(drop_app_le xs) by lia. rewrite !take_app_le by (rewrite length_drop; lia). done.
  - rewrite !(drop_app_ge xs), (drop_app_ge ws), (drop_app_ge ws') by lia. by rewrite Hl.
Qed.

Lemma window_crc xs ws ws' ys q n : Forall is_byte (xs ++ ws ++ ys) -> Forall is_byte ws' -> length ws = length ws' ->
  (length ws <= 4)%nat -> ws <> ws' -> (q <= length xs)%nat -> (length xs + length ws <= q + n)%nat ->
  crc32c (region (xs ++ ws' ++ ys) q n) <> crc32c (region (xs ++ ws ++ ys) q n).
Proof.
  intros Hb Hw' Hl H4 Hne H1 H2. rewrite !region_window by lia. rewrite <- Hl.
  pose proof (region_bytes _ q n Hb) as Hr. rewrite region_window in Hr by lia.
  intros E. symmetry in E. revert E. apply crc32c_burst; [done| |by apply window_burst].
  rewrite !Forall_app in *. tauto.
Qed.

(** The checked bytes: from the page number up to the key version, and all data
    up to the trailer. *)
Definition checked (p n : nat) : Prop := (4 <= p /\ p + n <= 26)%nat \/ (38 <= p /\ p + n <= trailer)%nat.

Lemma damage_crc xs ws ws' ys : page_bytes (xs ++ ws ++ ys) -> Forall is_byte ws' -> length ws = length ws' ->
  (length ws <= 4)%nat -> ws <> ws' -> checked (length xs) (length ws) ->
  crc_of (xs ++ ws' ++ ys) <> crc_of (xs ++ ws ++ ys).
Proof.
  intros [Hlen Hb] Hw' Hl H4 Hne Hc. unfold crc_of. rewrite !length_app in Hlen.
  destruct Hc as [[H1 H2]|[H1 H2]].
  - rewrite (region_away xs ws ws' ys 38) by lia. intros E%(f_equal (fun x => Z.lxor x (crc32c (region (xs ++ ws ++ ys) 38 (UNIV_PAGE_SIZE - 38 - 8))))).
    rewrite !Z.lxor_assoc, !Z.lxor_nilpotent, !Z.lxor_0_r in E. revert E. apply window_crc; done || lia.
  - rewrite (region_away xs ws ws' ys 4) by lia. intros E%(f_equal (Z.lxor (crc32c (region (xs ++ ws ++ ys) 4 22)))).
    rewrite <- !Z.lxor_assoc, !Z.lxor_nilpotent, !Z.lxor_0_l in E. revert E. apply window_crc; done || lia.
Qed.

Lemma damage_fields xs ws ws' ys : page_bytes (xs ++ ws ++ ys) -> length ws = length ws' -> checked (length xs) (length ws) ->
  field1 (xs ++ ws' ++ ys) = field1 (xs ++ ws ++ ys) /\ field2 (xs ++ ws' ++ ys) = field2 (xs ++ ws ++ ys).
Proof.
  intros [Hlen _] Hl Hc. unfold field1, field2. rewrite !length_app in Hlen.
  by rewrite !(region_away xs ws ws' ys) by (done || destruct Hc; lia).
Qed.

(** With the strict algorithm a page whose first field is not zero passes
    without a warning only if it is in the format of the algorithm. *)
Lemma strict_silent b : page_bytes b -> field1 b <> 0 -> exists c w,
  buf_page_is_corrupted UNIV_PAGE_SIZE crc page SRV_CHECKSUM_ALGORITHM_STRICT_CRC32 None b 0 = Ok (c, w) /\
  (c = false -> w = None -> valid_crc32 b = true).
Proof.
  intros Hp Hne. pose proof Hp as [Hl Hb]. unfold buf_page_is_corrupted. rewrite !read_4_region by page_lia. cbn [rbind].
  rewrite bool_decide_true by done. cbn [negb andb]. rewrite !bytes_at_ok by page_lia. cbn [rbind].
  destruct (negb _); [by eexists _, _|]. rewrite decide_False by done. rewrite decide_False by (intros H; by apply H).
  assert (exists z, mach_read_from_8 b FIL_PAGE_LSN = Ok z) as [z ->].
  { unfold mach_read_from_8. rewrite !read_4_region by page_lia. by eexists. }
  cbn [rbind]. change (bval (region b FIL_PAGE_SPACE_OR_CHKSUM 4)) with (field1 b).
  change (bval (region b (UNIV_PAGE_SIZE - FIL_PAGE_END_LSN_OLD_CHKSUM) 4)) with (field2 b).
  rewrite (proj2 (Z.eqb_neq _ _) Hne). cbn [andb]. unfold check_formats, try_crc32, try_innodb, try_none, warn.
  rewrite valid_crc32_ok, valid_innodb_ok by done. cbn [rbind]. rewrite decide_True by done.
  change (buf_page_is_checksum_valid_none (field1 b) (field2 b)) with (valid_none b).
  destruct (valid_crc32 b), (valid_none b), (valid_innodb b); by eexists _, _.
Qed.

Lemma damaged_page xs ws ws' ys : page_bytes (xs ++ ws ++ ys) -> Forall is_byte ws' -> length ws = length ws' ->
  page_bytes (xs ++ ws' ++ ys).
Proof.
  intros [Hlen Hb] Hw Hl. split; [rewrite !length_app in *; lia|]. rewrite !Forall_app in *. tauto.
Qed.

End checks.
(** ** Compressed pages that are written *)

Section zip.
Variable zip_size : nat.
Variables (crc : Z -> list Z -> res Z) (a : Z).
Context `{!Crc32Routine crc}.
Hypothesis Hsize : (46 <= zip_size)%nat /\ Z.of_nat zip_size < 2 ^ 32.

Definition zip_checksum (algo : srv_checksum_algorithm_t) (b : list Z) : Z :=
  match algo with
  | SRV_CHECKSUM_ALGORITHM_CRC32 | SRV_CHECKSUM_ALGORITHM_STRICT_CRC32 =>
      Z.lxor (Z.lxor (crc32c (region b 4 12)) (crc32c (region b 24 2))) (crc32c (region b 34 (zip_size - 34)))
  | SRV_CHECKSUM_ALGORITHM_INNODB | SRV_CHECKSUM_ALGORITHM_STRICT_INNODB =>
      adler32 (adler32 (adler32 0 (region b 4 12)) (region b 24 2)) (region b 34 (zip_size - 34))
  | SRV_CHECKSUM_ALGORITHM_NONE | SRV_CHECKSUM_ALGORITHM_STRICT_NONE => BUF_NO_CHECKSUM_MAGIC
  end.

Lemma zip_checksum_ok algo b : page_bytes zip_size b -> page_zip_calc_checksum crc a b zip_size algo = Ok (zip_checksum algo b).
Proof.
  intros Hp. pose proof Hp as [Hl _]. unfold page_zip_calc_checksum, zip_checksum.
  rewrite bool_decide_true by page_lia. cbn [ut_ad rbind].
  rewrite !(crc32_at_ok zip_size) by (done || page_lia). rewrite !bytes_at_ok by page_lia. by destruct algo.
Qed.

(** The bytes that the checksum leaves out. *)
Definition zip_sealed (b : list Z) (lsn c : Z) : list Z :=
  list_inserts 0 (be 4 c) (list_inserts 26 (replicate 8 0) (list_inserts 16 (be 8 lsn) b)).

Lemma zip_sealed_page b lsn c : page_bytes zip_size b -> page_bytes zip_size (zip_sealed b lsn c).
Proof.
  intros Hb. apply inserts_page, be_bytes. apply inserts_page; [apply inserts_page, be_bytes; done|].
  apply Forall_replicate. unfold is_byte. lia.
Qed.

Lemma zip_sealed_region b lsn c p n : (4 <= p)%nat -> (p + n <= 16 \/ 24 <= p)%nat -> (p + n <= 26 \/ 34 <= p)%nat ->
  region (zip_sealed b lsn c) p n = region b p n.
Proof.
  intros H1 H2 H3. unfold zip_sealed. rewrite !region_inserts; [done|..]; rewrite ?be_length, ?length_replicate; lia.
Qed.

Lemma zip_checksum_sealed algo b lsn c : zip_checksum algo (zip_sealed b lsn c) = zip_checksum algo b.
Proof. unfold zip_checksum. by rewrite !zip_sealed_region by lia. Qed.

Lemma update_zip_ok algo b s lsn : page_bytes zip_size b ->
  buf_flush_update_zip_checksum crc algo (mkZip b a s) zip_size lsn =
  Ok (mkZip (zip_sealed b lsn (u32 (zip_checksum algo b))) a s).
Proof.
  intros Hb. pose proof Hb as [Hl _]. unfold buf_flush_update_zip_checksum. cbn [data data_address ssize].
  rewrite bool_decide_true by lia. cbn [ut_a rbind]. rewrite zip_checksum_ok by done. cbn [rbind].
  rewrite write_8 by page_lia. cbn [rbind]. unfold memset.
  rewrite decide_True by (rewrite length_inserts; page_lia). cbn [rbind].
  rewrite write_4 by (rewrite !length_inserts; page_lia). reflexivity.
Qed.

Lemma u32_range x : 0 <= u32 x < 2 ^ 32.
Proof. apply Z.mod_pos_bound. lia. Qed.

Lemma zip_sealed_fields b lsn c : page_bytes zip_size b -> 0 <= c < 2 ^ 32 -> 0 < lsn < 2 ^ 64 ->
  mach_read_from_4 (zip_sealed b lsn c) 0 = Ok c /\ mach_read_from_8 (zip_sealed b lsn c) 16 = Ok lsn.
Proof.
  intros Hb Hc Hlsn. pose proof (zip_sealed_page b lsn c Hb) as [L B]. pose proof Hb as [Hl _]. split.
  - rewrite read_4_region by (lia || done). unfold zip_sealed. rewrite (region_written zip_size); [|done| |lia].
    + f_equal. by apply (bval_be_small 4).
    + apply inserts_page; [apply inserts_page, be_bytes; done|]. apply Forall_replicate. unfold is_byte. lia.
  - rewrite (read_8 _ _ lsn); [by rewrite Z.mod_small by lia|].
    assert (region (zip_sealed b lsn c) 16 8 = be 8 lsn) as <-; [|apply region_has; lia].
    unfold zip_sealed. rewrite !region_inserts by (rewrite ?be_length, ?length_replicate; lia).
    apply (region_written zip_size); done || lia.
Qed.

(** Every algorithm knows the formats of all the others. *)
Lemma zip_verify_ok algo algo' b lsn : page_bytes zip_size b -> 0 < lsn < 2 ^ 64 -> exists w,
  page_zip_verify_checksum crc a algo' (zip_sealed b lsn (u32 (zip_checksum algo b))) zip_size = Ok (true, w).
Proof.
  intros Hb Hlsn. pose proof (zip_sealed_page b lsn (u32 (zip_checksum algo b)) Hb) as Hs. pose proof Hs as [Ls Bs].
  destruct (zip_sealed_fields b lsn _ Hb (u32_range (zip_checksum algo b)) Hlsn) as [E1 E2].
  unfold page_zip_verify_checksum. change FIL_PAGE_SPACE_OR_CHKSUM with 0%nat. change FIL_PAGE_LSN with 16%nat. rewrite E1, E2. cbn [rbind]. rewrite !read_4_region by page_lia. cbn [rbind].
  rewrite (proj2 (Z.eqb_neq lsn 0)), andb_false_r by lia. rewrite !zip_checksum_ok, !zip_checksum_sealed by done. cbn [rbind].
  assert (zip_checksum algo b = zip_checksum SRV_CHECKSUM_ALGORITHM_CRC32 b \/
    zip_checksum algo b = zip_checksum SRV_CHECKSUM_ALGORITHM_INNODB b \/ zip_checksum algo b = BUF_NO_CHECKSUM_MAGIC) as Ha
    by (destruct algo; tauto).
  assert (zip_checksum algo' b = match algo' with
    | SRV_CHECKSUM_ALGORITHM_CRC32 | SRV_CHECKSUM_ALGORITHM_STRICT_CRC32 => zip_checksum SRV_CHECKSUM_ALGORITHM_CRC32 b
    | SRV_CHECKSUM_ALGORITHM_INNODB | SRV_CHECKSUM_ALGORITHM_STRICT_INNODB => zip_checksum SRV_CHECKSUM_ALGORITHM_INNODB b
    | _ => BUF_NO_CHECKSUM_MAGIC end) as -> by (by destruct algo').
  generalize (zip_checksum SRV_CHECKSUM_ALGORITHM_CRC32 b) (zip_checksum SRV_CHECKSUM_ALGORITHM_INNODB b) (zip_checksum algo b) Ha.
  intros x y c Hc. change (u32 BUF_NO_CHECKSUM_MAGIC) with BUF_NO_CHECKSUM_MAGIC in *.
  destruct algo'; cbn [rbind]; destruct Hc as [->|[->| ->]]; change (u32 BUF_NO_CHECKSUM_MAGIC) with BUF_NO_CHECKSUM_MAGIC;
    rewrite ?Z.eqb_refl; repeat (case_match; cbn [rbind]); by eexists.
Qed.

Lemma zip_accepted algo algo' b lsn : page_bytes zip_size b -> 0 < lsn < 2 ^ 64 -> exists w,
  mach_read_from_8 (zip_sealed b lsn (u32 (zip_checksum algo b))) 16 = Ok lsn /\
  forall UNIV_PAGE_SIZE, buf_page_is_corrupted UNIV_PAGE_SIZE crc a algo' None
    (zip_sealed b lsn (u32 (zip_checksum algo b))) zip_size = Ok (false, w).
Proof.
  intros Hb Hlsn. destruct (zip_sealed_fields b lsn _ Hb (u32_range (zip_checksum algo b)) Hlsn) as [_ E].
  destruct (zip_sealed_page b lsn (u32 (zip_checksum algo b)) Hb) as [Ls Bs].
  destruct (zip_verify_ok algo algo' b lsn Hb Hlsn) as [w Ew].
  exists (if decide (algo' = SRV_CHECKSUM_ALGORITHM_NONE) then None else w). split; [done|]. intros UNIV_PAGE_SIZE.
  unfold buf_page_is_corrupted. rewrite read_4_region by page_lia. cbn [rbind]. rewrite bool_decide_false by lia. cbn [negb andb rbind].
  destruct (decide (algo' = SRV_CHECKSUM_ALGORITHM_NONE)); [done|]. rewrite decide_True by lia. by rewrite Ew.
Qed.

End zip.

(** ** The properties *)

(** A descriptor of a compressed page of [n] bytes. *)
Definition zip_page (UNIV_PAGE_SIZE n : nat) (z : page_zip_des_t) : Prop :=
  page_bytes n (data z) /\ (n <= UNIV_PAGE_SIZE)%nat /\ 1 <= ssize z <= 5 /\ Z.of_nat n = Z.shiftl 512 (ssize z).

Section properties.
Variable UNIV_PAGE_SIZE : nat.
Variables (crc : Z -> list Z -> res Z) (page : Z).
Context `{!Crc32Routine crc}.
Hypothesis Hsize : (46 <= UNIV_PAGE_SIZE)%nat /\ Z.of_nat UNIV_PAGE_SIZE < 2 ^ 32.

Lemma zip_size_ok n z : zip_page UNIV_PAGE_SIZE n z -> page_zip_get_size UNIV_PAGE_SIZE z = Ok n /\
  1024 <= Z.of_nat n <= UNIV_ZIP_SIZE_MAX /\ BufChunk.ut_is_2pow (Z.of_nat n) = true.
Proof.
  intros (_ & Hn & Hs & E). unfold page_zip_get_size. change (Z.shiftr UNIV_ZIP_SIZE_MIN 1) with 512. rewrite <- E.
  assert (1024 <= Z.of_nat n <= UNIV_ZIP_SIZE_MAX /\ BufChunk.ut_is_2pow (Z.of_nat n) = true) as [R R2].
  { rewrite E. assert (ssize z = 1 \/ ssize z = 2 \/ ssize z = 3 \/ ssize z = 4 \/ ssize z = 5) as H by lia.
    by destruct H as [->|[->|[->|[->| ->]]]]. }
  split; [|done]. rewrite (proj2 (Z.eqb_neq _ _)) by lia. rewrite (proj2 (Z.leb_le UNIV_ZIP_SIZE_MIN _)) by (unfold UNIV_ZIP_SIZE_MIN; lia).
  rewrite (proj2 (Z.leb_le _ _)) by lia. cbn [ut_ad rbind]. by rewrite Nat2Z.id.
Qed.

Lemma init_zip_ok algo b n z type lsn : page_bytes UNIV_PAGE_SIZE b -> zip_page UNIV_PAGE_SIZE n z ->
  mach_read_from_2 b FIL_PAGE_TYPE = Ok type -> type ∈ copied_types ++ compressed_types -> exists d,
  page_bytes n d /\ init_zip_for_writing UNIV_PAGE_SIZE crc algo b z lsn =
    Ok (mkZip (zip_sealed d lsn (u32 (zip_checksum n algo d))) (data_address z) (ssize z)).
Proof.
  intros [Lb Bb] Hz Ht Hin. pose proof Hz as (Hp & Hn & _ & _). destruct (zip_size_ok n z Hz) as (E & R & R2).
  unfold init_zip_for_writing. rewrite E, Ht. cbn [rbind]. rewrite bool_decide_true by (unfold UNIV_ZIP_SIZE_MAX in R; lia). cbn [ut_ad rbind]. rewrite R2.
  rewrite (proj2 (Z.leb_le _ _)) by lia. cbn [ut_ad rbind].
  assert ((46 <= n)%nat /\ Z.of_nat n < 2 ^ 32) as Hs by (unfold UNIV_ZIP_SIZE_MAX in R; lia).
  destruct (bool_decide (type ∈ copied_types)) eqn:Ec.
  - unfold memcpy. rewrite bytes_at_ok by lia. cbn [rbind]. destruct Hp as [Ld Bd]. rewrite decide_True by lia. cbn [rbind].
    eexists. split; [|apply update_zip_ok; [done..|]]; (apply inserts_page; [by split|by apply region_bytes]).
  - apply elem_of_app in Hin as [Hin|Hin]; [by apply bool_decide_eq_false in Ec|]. rewrite bool_decide_true by done.
    eexists. split; [exact Hp|]. destruct z as [d a s]. by apply update_zip_ok.
Qed.

(** The algorithms agree about a page that has been read and may be strict
    or not: all of them but the one that never looks give the same answer,
    which does not fail.  A strict algorithm only adds a warning. *)
Theorem page_checks_agree algo algo' b : page_bytes UNIV_PAGE_SIZE b ->
  algo <> SRV_CHECKSUM_ALGORITHM_NONE -> algo' <> SRV_CHECKSUM_ALGORITHM_NONE -> exists c w w',
  buf_page_is_corrupted UNIV_PAGE_SIZE crc page algo None b 0 = Ok (c, w) /\
  buf_page_is_corrupted UNIV_PAGE_SIZE crc page algo' None b 0 = Ok (c, w').
Proof.
  intros Hb H H'. destruct (corrupted_ok UNIV_PAGE_SIZE crc page Hsize algo b Hb H) as [w E].
  destruct (corrupted_ok UNIV_PAGE_SIZE crc page Hsize algo' b Hb H') as [w' E']. by exists (verdict UNIV_PAGE_SIZE b), w, w'.
Qed.

(** A page that is prepared for its file with any algorithm is accepted
    when it is read with any other, wherever the memory is: both the
    uncompressed page, with its lsn at both ends, and the compressed copy of a
    page of a type that has one. *)
Theorem written_pages_accepted algo algo' page' b lsn : page_bytes UNIV_PAGE_SIZE b -> 0 < lsn < 2 ^ 64 ->
  (exists b' w,
     buf_flush_init_for_writing UNIV_PAGE_SIZE crc algo page b None lsn = Ok (b', None) /\
     mach_read_from_8 b' FIL_PAGE_LSN = Ok lsn /\
     buf_page_is_corrupted UNIV_PAGE_SIZE crc page' algo' None b' 0 = Ok (false, w)) /\
  (forall n z type, zip_page UNIV_PAGE_SIZE n z ->
     mach_read_from_2 b FIL_PAGE_TYPE = Ok type -> type ∈ copied_types ++ compressed_types -> exists z' w,
     buf_flush_init_for_writing UNIV_PAGE_SIZE crc algo page b (Some z) lsn = Ok (b, Some z') /\
     mach_read_from_8 (data z') FIL_PAGE_LSN = Ok lsn /\
     buf_page_is_corrupted UNIV_PAGE_SIZE crc page' algo' None (data z') n = Ok (false, w)).
Proof.
  intros Hb Hlsn. split.
  - destruct (written_ok UNIV_PAGE_SIZE crc page Hsize algo b lsn Hb Hlsn) as (c1 & c2 & E & Hv).
    destruct (verdict_accepted UNIV_PAGE_SIZE crc page' Hsize algo' _ (sealed_page _ _ c1 c2 (stamped_page _ b lsn Hb)) Hv) as [w Ew].
    eexists _, w. split_and!; [exact E|by apply sealed_lsn|exact Ew].
  - intros n z type Hz Ht Hin. destruct (init_zip_ok algo b n z type lsn Hb Hz Ht Hin) as (d & Hd & E).
    destruct (zip_size_ok n z Hz) as (_ & R & _). unfold UNIV_ZIP_SIZE_MAX in R.
    unfold buf_flush_init_for_writing. rewrite E. cbn [rbind].
    destruct (zip_accepted n crc page' ltac:(lia) algo algo' d lsn Hd Hlsn) as (w & El & Ev).
    eexists _, w. split_and!; [done|exact El|exact (Ev _)].
Qed.

(** With the strict crc32 algorithm damage never passes in silence: if a
    page has passed without a warning and its first field is not zero, then
    after a change of at most four consecutive bytes, in the header from the page
    number on or in the data, it is reported as corrupted or warned about. *)
Theorem damage_detected xs ws ws' ys : page_bytes UNIV_PAGE_SIZE (xs ++ ws ++ ys) -> Forall is_byte ws' ->
  length ws = length ws' -> (length ws <= 4)%nat -> ws <> ws' -> checked UNIV_PAGE_SIZE (length xs) (length ws) ->
  buf_page_is_corrupted UNIV_PAGE_SIZE crc page SRV_CHECKSUM_ALGORITHM_STRICT_CRC32 None (xs ++ ws ++ ys) 0 = Ok (false, None) ->
  mach_read_from_4 (xs ++ ws ++ ys) FIL_PAGE_SPACE_OR_CHKSUM <> Ok 0 -> exists c w,
  buf_page_is_corrupted UNIV_PAGE_SIZE crc page SRV_CHECKSUM_ALGORITHM_STRICT_CRC32 None (xs ++ ws' ++ ys) 0 = Ok (c, w) /\
  (c = true \/ w <> None).
Proof.
  intros Hb Hw Hl H4 Hne Hc Hok Hf. pose proof Hb as [Lb Bb]. rewrite read_4_region in Hf by page_lia.
  assert (field1 (xs ++ ws ++ ys) <> 0) as Hf1 by (intros E; by apply Hf, (f_equal Ok)).
  destruct (strict_silent UNIV_PAGE_SIZE crc page Hsize _ Hb Hf1) as (c & w & E & Hv). rewrite Hok in E. injection E as <- <-.
  specialize (Hv eq_refl eq_refl). pose proof (damaged_page UNIV_PAGE_SIZE Hsize xs ws ws' ys Hb Hw Hl) as Hb'.
  destruct (damage_fields UNIV_PAGE_SIZE Hsize xs ws ws' ys Hb Hl Hc) as [F1 F2].
  destruct (strict_silent UNIV_PAGE_SIZE crc page Hsize _ Hb' ltac:(congruence)) as (c & w & E & Hv'). exists c, w. split; [done|].
  destruct c; [by left|right]. intros ->. specialize (Hv' eq_refl eq_refl). unfold valid_crc32 in *. rewrite F1 in Hv'.
  apply andb_true_iff in Hv as [Hv%Z.eqb_eq _]. apply andb_true_iff in Hv' as [Hv'%Z.eqb_eq _].
  apply (damage_crc UNIV_PAGE_SIZE Hsize xs ws ws' ys Hb Hw Hl H4 Hne Hc). congruence.
Qed.

End properties.
(** ** Examples *)

Definition example_crc (a : Z) (bs : list Z) : res Z := Ok (crc32c bs).
#[export] Instance example_crc_routine : Crc32Routine example_crc.
Proof. by intros a bs _. Defined.

Lemma is_page_dec n b : (Nat.eqb (length b) n && forallb (fun c => (0 <=? c) && (c <? 256)) b) = true -> page_bytes n b.
Proof.
  intros [Hl Hb]%andb_true_iff. split; [by apply Nat.eqb_eq|]. clear Hl.
  induction b as [|c b IH]; constructor; apply andb_true_iff in Hb as [Hc Hb]; [unfold is_byte; lia|by apply IH].
Qed.

(** An empty page of 64 bytes with the lsn 5 and its crc32 checksum. *)
Definition example_page : list Z :=
  match buf_flush_init_for_writing 64 example_crc SRV_CHECKSUM_ALGORITHM_CRC32 0 (replicate 64 0) None 5 with
  | Ok (b, _) => b
  | _ => []
  end.

Lemma page_checks_agree_witness :
  buf_page_is_corrupted 64 example_crc 0 SRV_CHECKSUM_ALGORITHM_CRC32 None example_page 0 = Ok (false, None) /\
  exists c w w',
  buf_page_is_corrupted 64 example_crc 0 SRV_CHECKSUM_ALGORITHM_CRC32 None example_page 0 = Ok (c, w) /\
  buf_page_is_corrupted 64 example_crc 0 SRV_CHECKSUM_ALGORITHM_STRICT_INNODB None example_page 0 = Ok (c, w').
Proof.
  split; [vm_compute; reflexivity|].
  apply (page_checks_agree 64 example_crc 0); [lia|by apply is_page_dec; vm_compute|discriminate|discriminate].
Defined.

Lemma written_pages_accepted_witness : exists z' w,
  buf_flush_init_for_writing 1024 example_crc SRV_CHECKSUM_ALGORITHM_INNODB 0 (replicate 1024 0)
    (Some (mkZip (replicate 1024 1) 0 1)) 5 = Ok (replicate 1024 0, Some z') /\
  mach_read_from_8 (data z') FIL_PAGE_LSN = Ok 5 /\
  buf_page_is_corrupted 1024 example_crc 8192 SRV_CHECKSUM_ALGORITHM_STRICT_CRC32 None (data z') 1024 = Ok (false, w).
Proof.
  refine (proj2 (written_pages_accepted 1024 example_crc 0 _ SRV_CHECKSUM_ALGORITHM_INNODB
    SRV_CHECKSUM_ALGORITHM_STRICT_CRC32 8192 (replicate 1024 0) 5 _ _) 1024%nat (mkZip (replicate 1024 1) 0 1) 0 _ _ _).
  - split; [lia|reflexivity].
  - by apply is_page_dec; vm_compute.
  - lia.
  - split_and!; [by apply is_page_dec; vm_compute|lia|simpl; lia|simpl; lia|reflexivity].
  - reflexivity.
  - set_solver.
Defined.

Lemma damage_detected_witness : exists c w,
  buf_page_is_corrupted 64 example_crc 0 SRV_CHECKSUM_ALGORITHM_STRICT_CRC32 None
    (take 40 example_page ++ [0; 9] ++ drop 42 example_page) 0 = Ok (c, w) /\ (c = true \/ w <> None).
Proof.
  apply (damage_detected 64 example_crc 0) with (ws := [0; 0]).
  - lia.
  - by apply is_page_dec; vm_compute.
  - repeat constructor; unfold is_byte; lia.
  - reflexivity.
  - simpl. lia.
  - discriminate.
  - right. vm_compute. split; repeat constructor.
  - vm_compute. reflexivity.
  - vm_compute. discriminate.
Defined.

(** A page of a very old version is accepted whatever its data are: the first
    field zero, and half of the lsn where the old checksum would be. *)
Example old_page_unchecked :
  buf_page_is_corrupted 64 example_crc 0 SRV_CHECKSUM_ALGORITHM_STRICT_CRC32 None
    (replicate 16 0 ++ [1; 2; 3; 4; 5; 6; 7; 8] ++ replicate 16 0 ++ [9; 9; 9; 9; 9; 9; 9; 9]
     ++ replicate 8 77 ++ [1; 2; 3; 4; 5; 6; 7; 8]) 0 = Ok (false, Some SRV_CHECKSUM_ALGORITHM_INNODB).
Proof. vm_compute. reflexivity. Qed.

End PageChecksum.
