(* ===== verification/RwList.v ===== *)
(** * The registry of read-write locks (sync/sync0rw.cc)

    Creation, release and enumeration of the read-write locks of the server:
    the functions around the global [rw_lock_list], on the lists of [UtList]
    and with the mutexes of [MutexList], in the debug build with atomic
    operations, for one thread at a time. *)
From stdpp Require Import strings.
From S2P Require Import Prelude Results UtList OsEvent MutexList RwLock.
Local Open Scope Z_scope.

Module RwList.
Import UtList OsEvent.
Local Open Scope mc_scope.

Notation X_LOCK_DECR := RwLock.X_LOCK_DECR.

Definition RW_LOCK_MAGIC_N : Z := 22643.

(** [rw_lock_t] of include/sync0rw.h, without the list of debug information;
    [cline], [last_s_line] and [last_x_line] are bit fields of 14 bits. *)
Record rw_lock := mkRwLock {
  lock_word : Z; waiters : Z; recursive : bool; writer_thread : Z;
  event : os_event; wait_ex_event : os_event; level : Z; count_os_wait : Z;
  cfile_name : string; lock_name : string; file_name : string; line : Z;
  last_s_file_name : string; last_x_file_name : string;
  cline : Z; last_s_line : Z; last_x_line : Z; magic_n : Z }.

Definition set_magic (n : Z) (l : rw_lock) : rw_lock :=
  mkRwLock (lock_word l) (waiters l) (recursive l) (writer_thread l) (event l) (wait_ex_event l) (level l)
    (count_os_wait l) (cfile_name l) (lock_name l) (file_name l) (line l) (last_s_file_name l)
    (last_x_file_name l) (cline l) (last_s_line l) (last_x_line l) n.

(** The fields only priority locks have. *)
Record prio_fields := mkPrio {
  high_priority_s_waiters : Z; high_priority_s_event : os_event;
  high_priority_x_waiters : Z; high_priority_x_event : os_event; high_priority_wait_ex_waiter : Z }.

(** The locks by address, the list, and the mutexes. *)
Record state := mkState {
  rw_locks : gmap nat rw_lock;
  prio_rw_locks : gmap nat prio_fields;
  rw_lock_list : ut_list;
  sync : MutexList.state }.

Definition set_locks (ls : gmap nat rw_lock) (s : state) : state :=
  mkState ls (prio_rw_locks s) (rw_lock_list s) (sync s).
Definition set_prio (ps : gmap nat prio_fields) (s : state) : state :=
  mkState (rw_locks s) ps (rw_lock_list s) (sync s).
Definition set_rw_list (l : ut_list) (s : state) : state :=
  mkState (rw_locks s) (prio_rw_locks s) l (sync s).
Definition set_sync (m : MutexList.state) (s : state) : state :=
  mkState (rw_locks s) (prio_rw_locks s) (rw_lock_list s) m.

Section registry.
(** The address of the mutex that protects the list, and the calling thread. *)
Context (rw_lock_list_mutex : nat) (self : Z).

(** Lines 379-399. *)
Definition rw_lock_validate (x : nat) (s : state) : res unit :=
  let! l := deref (rw_locks s !! x) in
  let! _ := ut_a (magic_n l =? RW_LOCK_MAGIC_N) in
  let! _ := ut_a ((waiters l =? 0) || (waiters l =? 1)) in
  let! _ := ut_a (- (2 * X_LOCK_DECR) <? lock_word l) in
  ut_a (lock_word l <=? X_LOCK_DECR).

(** Lines 235-267. *)
Definition rw_lock_fields (lvl : Z) (cname cfile : string) (cl : Z) : rw_lock :=
  mkRwLock X_LOCK_DECR 0 false 0 os_event_create os_event_create lvl 0 cfile cname "not yet reserved" 0
    "not yet reserved" "not yet reserved" (cl mod 2 ^ 14) 0 0 RW_LOCK_MAGIC_N.

(** [ut_ad(p == NULL || p->magic_n == RW_LOCK_MAGIC_N)] *)
Definition magic_ok (p : option nat) (s : state) : res unit :=
  match p with
  | None => Ok tt
  | Some y => let! l := deref (rw_locks s !! y) in ut_a (magic_n l =? RW_LOCK_MAGIC_N)
  end.

(** Lines 203-277: the list is changed without its mutex. *)
Definition rw_lock_create_func (x : nat) (lvl : Z) (cname cfile : string) (cl : Z) (s : state) : res state :=
  let s := set_locks (<[x := rw_lock_fields lvl cname cfile cl]> (rw_locks s)) s in
  let! _ := magic_ok (start (base (rw_lock_list s))) s in
  let! l := deref (ut_list_prepend x (rw_lock_list s)) in Ok (set_rw_list l s).

(** Lines 284-311. *)
Definition prio_rw_lock_create_func (x : nat) (lvl : Z) (cname cfile : string) (cl : Z) (s : state) : res state :=
  let! s := rw_lock_create_func x lvl cname cfile cl s in
  Ok (set_prio (<[x := mkPrio 0 os_event_create 0 os_event_create 0]> (prio_rw_locks s)) s).

Definition enter_list (s : state) : res state :=
  let! m := MutexList.mutex_enter self rw_lock_list_mutex (sync s) in Ok (set_sync m s).
Definition exit_list (s : state) : res state :=
  let! m := MutexList.mutex_exit self rw_lock_list_mutex (sync s) in Ok (set_sync m s).

(** Lines 317-357. *)
Definition rw_lock_free_func (x : nat) (s : state) : res state :=
  let! _ := rw_lock_validate x s in
  let! l := deref (rw_locks s !! x) in
  let! _ := ut_a (lock_word l =? X_LOCK_DECR) in
  let! s := enter_list s in
  let! nd := deref (nodes (rw_lock_list s) !! x) in
  let! _ := magic_ok (prev nd) s in
  let! _ := magic_ok (next nd) s in
  let! ls := deref (ut_list_remove x (rw_lock_list s)) in
  let! s := exit_list (set_rw_list ls s) in
  Ok (set_locks (<[x := set_magic 0 l]> (rw_locks s)) s).

(** Lines 363-372; the events of a priority lock are released. *)
Definition prio_rw_lock_free_func (x : nat) (s : state) : res state :=
  let! _ := deref (prio_rw_locks s !! x) in rw_lock_free_func x s.

(** The locks the enumerations visit. *)
Definition members (s : state) : res (list nat) :=
  match map_loop (size (nodes (rw_lock_list s))) (nodes (rw_lock_list s)) (start (base (rw_lock_list s))) with
  | Some xs => Ok xs
  | None => Fault
  end.

(** The locked ones, each with whether it has waiters. *)
Fixpoint locked_members (xs : list nat) (s : state) : res (list (nat * bool)) :=
  match xs with
  | [] => Ok []
  | x :: xs =>
      let! l := deref (rw_locks s !! x) in
      let! rest := locked_members xs s in
      Ok (if lock_word l =? X_LOCK_DECR then rest else (x, negb (waiters l =? 0)) :: rest)
  end.

(** Lines 1142-1194: the report and the number of locks; the debug information
    of a locked one is printed behind it. *)
Definition rw_lock_list_print_info (s : state) : res (state * (list (nat * bool) * Z)) :=
  let! s := enter_list s in
  let! xs := members s in
  let! locked := locked_members xs s in
  let! s := exit_list s in Ok (s, (locked, Z.of_nat (length xs))).

(** Lines 1272-1296. *)
Definition rw_lock_n_locked (s : state) : res (state * Z) :=
  let! s := enter_list s in
  let! xs := members s in
  let! locked := locked_members xs s in
  let! s := exit_list s in Ok (s, Z.of_nat (length locked)).
End registry.

(** [sync_all_freed] of sync0sync.cc, lines 922-932, with both counts. *)
Definition sync_all_freed (mutex_list_mutex rw_lock_list_mutex : nat) (self : Z) (s : state) : res (state * bool) :=
  let! (m, n) := MutexList.mutex_n_reserved mutex_list_mutex self (sync s) in
  let! (s, k) := rw_lock_n_locked rw_lock_list_mutex self (set_sync m s) in Ok (s, n + k =? 0).

(** ** The registry as a sequence of locks *)

Section proofs.
Context (rw_lock_list_mutex : nat) (self : Z).

(** A lock in use, as [rw_lock_validate] checks it. *)
Definition valid (s : state) (x : nat) : Prop :=
  exists l, rw_locks s !! x = Some l /\ magic_n l = RW_LOCK_MAGIC_N /\ (waiters l = 0 \/ waiters l = 1) /\
    - (2 * X_LOCK_DECR) < lock_word l <= X_LOCK_DECR.

Definition unlocked (s : state) (x : nat) : Prop :=
  valid s x /\ exists l, rw_locks s !! x = Some l /\ lock_word l = X_LOCK_DECR.

Record registry (s : state) (xs : list nat) : Prop := Registry {
  reg_rep : UtList.rep (rw_lock_list s) xs;
  reg_valid : forall x, x ∈ xs -> valid s x;
  reg_mutex : MutexList.idle (sync s) rw_lock_list_mutex }.

Lemma valid_validates s x : valid s x -> rw_lock_validate x s = Ok tt.
Proof.
  intros (l & Hl & Hm & Hw & Hlw). unfold rw_lock_validate. rewrite Hl. cbn [deref rbind]. rewrite Hm.
  assert (- (2 * X_LOCK_DECR) <? lock_word l = true) as -> by (apply Z.ltb_lt; lia).
  assert (lock_word l <=? X_LOCK_DECR = true) as -> by (apply Z.leb_le; lia).
  by destruct Hw as [-> | ->].
Qed.

Lemma valid_ext s s' x : rw_locks s' !! x = rw_locks s !! x -> valid s x -> valid s' x.
Proof. unfold valid. by intros ->. Qed.

Lemma magic_valid s p : (forall y, p = Some y -> valid s y) -> magic_ok p s = Ok tt.
Proof.
  destruct p as [y|]; simpl; [|done]. intros H. destruct (H y eq_refl) as (l & Hl & Hm & _). rewrite Hl. simpl.
  by rewrite Hm.
Qed.

(** A section protected by a mutex nobody holds. *)
Lemma enter_exit (m : MutexList.state) x :
  MutexList.idle m x ->
  exists m1 m2, MutexList.mutex_enter self x m = Ok m1 /\ MutexList.mutex_exit self x m1 = Ok m2 /\
    MutexList.idle m2 x /\ MutexList.mutex_list m2 = MutexList.mutex_list m /\
    forall y, y <> x -> MutexList.mutexes m2 !! y = MutexList.mutexes m !! y.
Proof.
  intros Hi. pose proof (MutexList.idle_initialised _ _ Hi) as Hv. destruct Hi as (i & Hm & Hg & Hl & Hw).
  unfold MutexList.mutex_enter, MutexList.mutex_enter_nowait_func.
  rewrite MutexList.validate_initialised, Hm by done. cbn [rbind deref]. rewrite Hl. cbn.
  eexists _, _. split; [reflexivity|]. unfold MutexList.mutex_exit, MutexList.mutex_own.
  rewrite MutexList.validate_initialised; cbn; rewrite ?lookup_insert_eq; cbn.
  2: { eexists. cbn. by rewrite lookup_insert_eq. }
  rewrite Z.eqb_refl. cbn. rewrite Hw. cbn.
  split; [reflexivity|]. rewrite insert_insert_eq. split_and!; [|done|].
  - eexists. cbn. by rewrite lookup_insert_eq.
  - intros y Hy. cbn. by rewrite lookup_insert_ne.
Qed.

(** A lock is created at an allocated address outside the list. *)
Definition creatable (s : state) (xs : list nat) (x : nat) : Prop :=
  x ∉ xs /\ is_Some (nodes (rw_lock_list s) !! x) /\ Z.of_nat (length xs) + 1 < 2 ^ 64.

Definition same_locks (x : nat) (s s' : state) : Prop :=
  forall y, y <> x -> rw_locks s' !! y = rw_locks s !! y.

Lemma rw_create_ok s xs x lvl cn cf cl :
  registry s xs -> creatable s xs x ->
  exists s', rw_lock_create_func x lvl cn cf cl s = Ok s' /\ registry s' (x :: xs) /\ unlocked s' x /\
    same_locks x s s' /\ sync s' = sync s /\ UtList.same_outside (x :: xs) (rw_lock_list s) (rw_lock_list s').
Proof.
  intros [Hr Hv Hi] (Hx & Hnd & Hlen). unfold rw_lock_create_func. set (s1 := set_locks _ s).
  assert (same_locks x s s1) as Hsame by (intros y Hy; simpl; by rewrite lookup_insert_ne).
  assert (unlocked s1 x) as Hun.
  { split; eexists; (split; [apply lookup_insert_eq|]); cbn; [|done]. unfold RwLock.X_LOCK_DECR. split_and!; (done || lia). }
  assert (forall y, y ∈ x :: xs -> valid s1 y) as Hall.
  { intros y [->|Hy]%elem_of_cons; [apply Hun|]. apply (valid_ext s); [apply Hsame; set_solver|by apply Hv]. }
  rewrite magic_valid.
  2: { intros y Hy. apply Hall. right. cbn in Hy. rewrite (rep_start _ _ Hr) in Hy.
       apply first_elem in Hy as [?|?]; [done|done]. }
  cbn [rbind]. destruct (ut_list_prepend_rep (rw_lock_list s1) xs x) as (l' & El & Hr' & Ho); try done.
  rewrite El. cbn [deref rbind]. eexists. split; [reflexivity|]. split_and!; done.
Qed.

Lemma rw_free_ok s xs x ys :
  registry s (xs ++ x :: ys) -> unlocked s x ->
  exists s', rw_lock_free_func rw_lock_list_mutex self x s = Ok s' /\ registry s' (xs ++ ys) /\ same_locks x s s' /\
    (exists l, rw_locks s' !! x = Some l /\ magic_n l = 0) /\
    MutexList.mutex_list (sync s') = MutexList.mutex_list (sync s) /\
    forall y, y <> rw_lock_list_mutex -> MutexList.mutexes (sync s') !! y = MutexList.mutexes (sync s) !! y.
Proof.
  intros [Hr Hv Hi] [Hx (l & Hl & Hlw)]. unfold rw_lock_free_func. rewrite valid_validates, Hl by done.
  cbn [rbind deref]. rewrite Hlw. cbn.
  destruct (enter_exit (sync s) rw_lock_list_mutex Hi) as (m1 & m2 & E1 & E2 & Hi2 & Hml & Hms).
  unfold enter_list, exit_list. rewrite E1. cbn. rewrite (MutexList.member_node _ _ _ _ Hr). cbn.
  rewrite !magic_valid; cbn.
  2: { intros y Hy. apply (valid_ext s); [done|]. apply Hv. apply first_elem in Hy as [?|?]; [done|set_solver]. }
  2: { intros y Hy. apply (valid_ext s); [done|]. apply Hv. apply final_elem in Hy as [?|?]; [done|set_solver]. }
  destruct (ut_list_remove_rep (rw_lock_list s) xs x ys Hr) as (l' & El & Hr' & _). rewrite El. cbn. rewrite E2. cbn.
  assert (x ∉ xs ++ ys) as Hno.
  { pose proof (rep_nodup _ _ Hr) as Hnd. apply NoDup_app in Hnd as (_ & Hd & [Hy _]%NoDup_cons). set_solver. }
  eexists. split; [reflexivity|]. split_and!; cbn; try done.
  - constructor; cbn; [done| |done]. intros y Hy. apply (valid_ext s); [|apply Hv; set_solver]. cbn.
    apply lookup_insert_ne. intros ->. done.
  - intros y Hy. cbn. by rewrite lookup_insert_ne.
  - eexists. rewrite lookup_insert_eq. split; [reflexivity|done].
Qed.

(** The locks that are not free. *)
Definition is_locked (s : state) (x : nat) : Prop :=
  match rw_locks s !! x with Some l => lock_word l <> X_LOCK_DECR | None => False end.

#[global] Instance is_locked_dec s x : Decision (is_locked s x).
Proof. unfold is_locked. destruct (rw_locks s !! x); apply _. Defined.

Lemma rw_locked_members_ok s xs :
  (forall x, x ∈ xs -> valid s x) -> exists l, locked_members xs s = Ok l /\ fst <$> l = filter (is_locked s) xs.
Proof.
  induction xs as [|x xs IH]; intros H; [by exists []|]. simpl.
  destruct (H x ltac:(left)) as (l & Hl & _). rewrite Hl. simpl.
  destruct IH as (ls & El & Hls); [intros y Hy; apply H; by right|]. rewrite El. simpl. rewrite filter_cons.
  assert (is_locked s x <-> lock_word l <> X_LOCK_DECR) as Hiff by (unfold is_locked; by rewrite Hl).
  destruct (Z.eqb_spec (lock_word l) X_LOCK_DECR); case_decide; try tauto; eexists; (split; [reflexivity|]); [done|].
  by rewrite fmap_cons, Hls.
Qed.

(** Creating a lock without the mutex of the list, while nobody else runs, puts
    it at the head of the registry, free and with 14 bits of its line; freeing
    it takes it out again and leaves every other lock as it was. *)
Theorem rw_create_free_roundtrip s xs x lvl cn cf cl :
  registry s xs -> creatable s xs x ->
  exists s1 s2, rw_lock_create_func x lvl cn cf cl s = Ok s1 /\ registry s1 (x :: xs) /\ unlocked s1 x /\
    rw_lock_free_func rw_lock_list_mutex self x s1 = Ok s2 /\ registry s2 xs /\ same_locks x s s2 /\
    rw_lock_free_func rw_lock_list_mutex self x s2 = Fault.
Proof.
  intros Hreg Hc. destruct (rw_create_ok s xs x lvl cn cf cl Hreg Hc) as (s1 & E1 & R1 & U1 & K1 & _).
  destruct (rw_free_ok s1 [] x xs R1 U1) as (s2 & E2 & R2 & K2 & (l & Hl & Hm) & _).
  exists s1, s2. split_and!; try done.
  - intros y Hy. by rewrite K2, K1.
  - unfold rw_lock_free_func, rw_lock_validate. rewrite Hl. simpl. by rewrite Hm.
Qed.

(** The count of locked locks is exact, and counting leaves every lock as it
    was. *)
Theorem rw_n_locked_exact s xs :
  registry s xs ->
  exists s', rw_lock_n_locked rw_lock_list_mutex self s = Ok (s', Z.of_nat (length (filter (is_locked s) xs))) /\
    registry s' xs /\ rw_locks s' = rw_locks s.
Proof.
  intros [Hr Hv Hi]. destruct (enter_exit (sync s) rw_lock_list_mutex Hi) as (m1 & m2 & E1 & E2 & Hi2 & _).
  unfold rw_lock_n_locked, enter_list, exit_list. rewrite E1. cbn [rbind].
  destruct (rw_locked_members_ok (set_sync m1 s) xs) as (l & El & Hl); [intros x Hx; by apply (valid_ext s), Hv|].
  unfold members. cbn [set_sync rw_lock_list]. destruct Hr as [Hs Hst Hsp Hc Hnd Hsz]. rewrite Hst.
  rewrite (map_loop_dseg _ xs None) by (done || by eapply rep_fits). cbn [rbind]. rewrite El. cbn. rewrite E2. cbn.
  eexists. split.
  - repeat f_equal. by rewrite <- (length_fmap fst l), Hl.
  - split; [|done]. by constructor.
Qed.
End proofs.

(** A server whose registry holds one lock, which a thread has exclusively. *)
Definition one_lock : state :=
  mkState (<[1%nat := mkRwLock 0 0 true 7 os_event_create os_event_create 0 0 "" "" "" 0 "" "" 0 0 0 RW_LOCK_MAGIC_N]> ∅) ∅
    (mkList {[ 1%nat := mkNode None None; 2%nat := mkNode None None ]} (mkBase 1 (Some 1%nat) (Some 1%nat)))
    (MutexList.mkState {[ 9%nat := MutexList.mutex_fields 0 "" 0 "" None ]} ∅ (UT_LIST_INIT ∅)).

Lemma one_lock_registry : registry 9 one_lock [1%nat].
Proof.
  constructor; cbn.
  - constructor; cbn; try done. apply NoDup_singleton.
  - intros x ->%list_elem_of_singleton. eexists. split; [reflexivity|]. cbn. unfold RwLock.X_LOCK_DECR. split_and!; auto; lia.
  - eexists. split; [reflexivity|done].
Qed.

Lemma rw_create_free_roundtrip_witness :
  exists s1 s2, rw_lock_create_func 2 0 "lock" "file" 20000 one_lock = Ok s1 /\ registry 9 s1 [2; 1]%nat /\
    unlocked s1 2 /\ rw_lock_free_func 9 3 2 s1 = Ok s2 /\ registry 9 s2 [1%nat] /\ same_locks 2 one_lock s2 /\
    rw_lock_free_func 9 3 2 s2 = Fault.
Proof.
  apply (rw_create_free_roundtrip 9 3 one_lock [1%nat] 2 0 "lock" "file" 20000 one_lock_registry).
  split_and!; [set_solver|by eexists|done].
Defined.

Lemma rw_n_locked_exact_witness :
  exists s', rw_lock_n_locked 9 3 one_lock = Ok (s', 1) /\ registry 9 s' [1%nat] /\ rw_locks s' = rw_locks one_lock.
Proof. apply (rw_n_locked_exact 9 3 one_lock [1%nat] one_lock_registry). Defined.
End RwList.
