(* ===== verification/RwDebug.v ===== *)
(** * The debug information of read-write locks (sync/sync0rw.cc)

    In the debug build every lock keeps a list of the locks that are held on
    it: [rw_lock_add_debug_info], [rw_lock_remove_debug_info] and
    [rw_lock_own], on the lists of [UtList] and with the latching order checks
    of [SyncLevels].  The deadlock detection reads the same lists.  Each runs
    under [rw_lock_debug_mutex], so that one at a time changes a list. *)
From stdpp Require Import strings.
From S2P Require Import Prelude Results UtList SyncLevels SyncArray.
Local Open Scope Z_scope.

Module RwDebug.
Import UtList SyncLevels.
Local Open Scope mc_scope.

Notation RW_LOCK_EX := SyncArray.RW_LOCK_EX.
Notation RW_LOCK_SHARED := SyncArray.RW_LOCK_SHARED.
Notation RW_LOCK_WAIT_EX := SyncArray.RW_LOCK_WAIT_EX.

(** include/sync0rw.h, lines 807-819, without the links. *)
Record rw_lock_debug := mkDebug {
  thread_id : Z; pass : Z; lock_type : Z; file_name : string; line : Z }.

(** The information of one lock, at the address [addr] and of the level
    [level], and the level arrays of the threads. *)
Record state := mkState {
  infos : gmap nat rw_lock_debug;
  debug_list : ut_list;
  lock_word : Z;
  slots : list sync_thread_t }.

Definition set_slots (l : list sync_thread_t) (s : state) : state := mkState (infos s) (debug_list s) (lock_word s) l.
Definition set_infos (m : gmap nat rw_lock_debug) (l : ut_list) (s : state) : state :=
  mkState m l (lock_word s) (slots s).

Section debug.
(** The lock, and what the order checks read of the rest of the server. *)
Context (addr level : Z) (untracked : Z -> bool) (srv_is_being_started buf_debug_prints : bool).
Context (btr_search_latch_arr : list Z) (own_latch : Z -> bool).
(** [mem_alloc]: an address outside the allocated ones, with arbitrary links. *)
Context (mem_alloc : gset nat -> nat) (raw : ut_list_node).

Definition add_level (self : Z) (relock : bool) (s : state) : res state :=
  let! l := sync_thread_add_level untracked srv_is_being_started buf_debug_prints btr_search_latch_arr own_latch
    self addr level relock (slots s) in Ok (set_slots l s).

Definition reset_level (self : Z) (s : state) : res state :=
  let! (l, _) := sync_thread_reset_level untracked self addr (level =? SYNC_LEVEL_VARYING) (slots s) in
  Ok (set_slots l s).

Definition counts (ps ty : Z) : bool := (ps =? 0) && negb (ty =? RW_LOCK_WAIT_EX).

(** Lines 970-1004. *)
Definition rw_lock_add_debug_info (self ps ty : Z) (file : string) (ln : Z) (s : state) : res state :=
  let info := mem_alloc (dom (infos s)) in
  let l := mkList (<[info := raw]> (nodes (debug_list s))) (base (debug_list s)) in
  let! l := deref (ut_list_prepend info l) in
  let s := set_infos (<[info := mkDebug self ps ty file ln]> (infos s)) l s in
  if counts ps ty then add_level self ((ty =? RW_LOCK_EX) && (lock_word s <? 0)) s else Ok s.

(** The test of lines 1028-1032. *)
Definition matches (self ps ty : Z) (d : rw_lock_debug) : bool :=
  (ps =? pass d) && (negb (ps =? 0) || (thread_id d =? self)) && (lock_type d =? ty).

(** The loops of lines 1025-1046 and 1071-1085: the first matching element. *)
Fixpoint find_info (P : rw_lock_debug -> bool) (fuel : nat) (m : gmap nat ut_list_node) (i : gmap nat rw_lock_debug)
    (p : option nat) : res (option nat) :=
  match p with
  | None => Ok None
  | Some x =>
      match fuel with
      | O => Blocked
      | S fuel =>
          let! d := deref (i !! x) in
          if P d then Ok (Some x) else let! nd := deref (m !! x) in find_info P fuel m i (next nd)
      end
  end.

Definition find_first (P : rw_lock_debug -> bool) (s : state) : res (option nat) :=
  find_info P (size (nodes (debug_list s))) (nodes (debug_list s)) (infos s) (start (base (debug_list s))).

(** Lines 1008-1048: without a match the server stops. *)
Definition rw_lock_remove_debug_info (self ps ty : Z) (s : state) : res state :=
  let! s := (if counts ps ty then reset_level self s else Ok s) in
  let! info := find_first (matches self ps ty) s in
  let! x := deref info in
  let! l := deref (ut_list_remove x (debug_list s)) in
  Ok (set_infos (delete x (infos s)) (mkList (delete x (nodes l)) (base l)) s).

(** The test of lines 1073-1075. *)
Definition owned_by (self ty : Z) (d : rw_lock_debug) : bool :=
  (thread_id d =? self) && (pass d =? 0) && (lock_type d =? ty).

(** Lines 1056-1090. *)
Definition rw_lock_own (self ty : Z) (s : state) : res bool :=
  let! info := find_first (owned_by self ty) s in
  Ok (match info with Some _ => true | None => false end).

(** ** The list as a sequence of holders *)

Record holds (s : state) (ds : list rw_lock_debug) : Prop := Holds {
  ho_infos : exists xs, UtList.rep (debug_list s) xs /\ Forall2 (fun x d => infos s !! x = Some d) xs ds;
  ho_room : Z.of_nat (length ds) + 1 < 2 ^ 64 }.

(** What the latching order checks make of the level arrays. *)
Definition level_added (self ps ty : Z) (s : state) (l : list sync_thread_t) : Prop :=
  if counts ps ty then
    sync_thread_add_level untracked srv_is_being_started buf_debug_prints btr_search_latch_arr own_latch
      self addr level ((ty =? RW_LOCK_EX) && (lock_word s <? 0)) (slots s) = Ok l
  else l = slots s.

Definition level_reset (self ps ty : Z) (s : state) (l : list sync_thread_t) : Prop :=
  if counts ps ty then
    exists b, sync_thread_reset_level untracked self addr (level =? SYNC_LEVEL_VARYING) (slots s) = Ok (l, b)
  else l = slots s.

Context (Hfresh : forall X : gset nat, mem_alloc X ∉ X).

Lemma holds_elem (i : gmap nat rw_lock_debug) xs ds x :
  Forall2 (fun x d => i !! x = Some d) xs ds -> x ∈ xs -> x ∈ dom i.
Proof.
  intros HF Hx. apply list_elem_of_lookup_1 in Hx as [k Hk]. destruct (Forall2_lookup_l _ _ _ _ _ HF Hk) as (d & _ & Hd).
  by apply elem_of_dom.
Qed.

Lemma infos_ext (i i' : gmap nat rw_lock_debug) xs ds :
  (forall x, x ∈ xs -> i' !! x = i !! x) ->
  Forall2 (fun x d => i !! x = Some d) xs ds -> Forall2 (fun x d => i' !! x = Some d) xs ds.
Proof.
  intros He HF. induction HF as [|x d xs ds Hx HF IH]; constructor.
  - rewrite He; [done|by left].
  - apply IH. intros y Hy. apply He. by right.
Qed.

Lemma rep_nodes m m' b xs :
  (forall x, x ∈ xs -> m' !! x = m !! x) -> UtList.rep (mkList m b) xs -> UtList.rep (mkList m' b) xs.
Proof. intros He [Hs H1 H2 H3 H4 H5]. constructor; try done. cbn in *. by eapply dseg_frame. Qed.

(** A new holder comes first. *)
Lemma add_debug_ok self ps ty f ln s ds l :
  holds s ds -> Z.of_nat (length ds) + 2 < 2 ^ 64 -> level_added self ps ty s l ->
  exists s', rw_lock_add_debug_info self ps ty f ln s = Ok s' /\ holds s' (mkDebug self ps ty f ln :: ds) /\
    slots s' = l /\ lock_word s' = lock_word s.
Proof using Hfresh.
  intros [(xs & Hr & HF) Hroom] Hroom' Hl. unfold rw_lock_add_debug_info. set (x := mem_alloc _).
  assert (x ∉ xs) as Hx by (intros Hx; by apply (Hfresh (dom (infos s))), (holds_elem _ xs ds)).
  set (l0 := mkList _ _).
  assert (UtList.rep l0 xs) as Hr0.
  { destruct (debug_list s) as [m b]. apply (rep_nodes m); [|done]. intros y Hy. apply lookup_insert_ne. by intros ->. }
  pose proof (Forall2_length _ _ _ HF) as Hlen.
  destruct (ut_list_prepend_rep l0 xs x) as (l' & El & Hr' & _); [done|done| |lia|].
  { cbn. rewrite lookup_insert_eq. by eexists. }
  rewrite El. cbn [deref rbind]. set (s1 := set_infos _ l' s).
  assert (holds (set_slots l s1) (mkDebug self ps ty f ln :: ds)) as Hh.
  { constructor; [|cbn; lia]. exists (x :: xs). split; [done|]. constructor; [apply lookup_insert_eq|].
    eapply infos_ext; [|exact HF]. intros y Hy. apply lookup_insert_ne. by intros ->. }
  unfold level_added in Hl. destruct (counts ps ty).
  - unfold add_level. change (lock_word s1) with (lock_word s). change (slots s1) with (slots s). rewrite Hl. cbn [rbind].
    by eexists.
  - subst l. by exists s1.
Qed.

(** The loops find the first matching element. *)
Lemma find_info_ok P xs : forall ds p fuel m (i : gmap nat rw_lock_debug),
  dseg m p xs None -> Forall2 (fun x d => i !! x = Some d) xs ds -> (length xs <= fuel)%nat ->
  (existsb P ds = false /\ find_info P fuel m i (first None xs) = Ok None) \/
  exists xs1 x xs2 ds1 d ds2, xs = xs1 ++ x :: xs2 /\ ds = ds1 ++ d :: ds2 /\ length xs1 = length ds1 /\
    existsb P ds1 = false /\ P d = true /\ find_info P fuel m i (first None xs) = Ok (Some x).
Proof.
  induction xs as [|x xs IH]; intros ds p fuel m i Hs HF Hf; inversion HF as [|? d ? ds' Hx HF']; subst.
  { left. by destruct fuel. }
  destruct fuel as [|fuel]; [cbn in Hf; lia|]. destruct Hs as [Hnd Hs]. cbn. rewrite Hx. cbn. destruct (P d) eqn:EP.
  { right. by exists [], x, xs, [], d, ds'. }
  rewrite Hnd. cbn. destruct (IH ds' (Some x) fuel m i Hs HF') as [[He E]|(xs1 & y & xs2 & ds1 & e & ds2 & -> & -> & Hl & He & Hp & E)];
    [cbn in Hf; lia|by left|].
  right. exists (x :: xs1), y, xs2, (d :: ds1), e, ds2. cbn. rewrite EP. split_and!; try done. by f_equal.
Qed.

Lemma find_first_ok P s ds :
  holds s ds ->
  (existsb P ds = false /\ find_first P s = Ok None) \/
  exists xs1 x xs2 ds1 d ds2, UtList.rep (debug_list s) (xs1 ++ x :: xs2) /\ ds = ds1 ++ d :: ds2 /\
    Forall2 (fun x d => infos s !! x = Some d) (xs1 ++ x :: xs2) ds /\ length xs1 = length ds1 /\
    existsb P ds1 = false /\ P d = true /\ find_first P s = Ok (Some x).
Proof.
  intros [(xs & Hr & HF) _]. unfold find_first. rewrite (rep_start _ _ Hr).
  destruct (find_info_ok P xs ds None (size (nodes (debug_list s))) (nodes (debug_list s)) (infos s))
    as [?|(xs1 & x & xs2 & ds1 & d & ds2 & -> & -> & Hl & He & Hp & E)];
    [apply Hr|done|eapply rep_fits; apply Hr|by left|]. right. by exists xs1, x, xs2, ds1, d, ds2.
Qed.

(** The answer is about the current thread, with the pass value 0. *)
Lemma own_ok self ty s ds :
  holds s ds ->
  rw_lock_own self ty s = Ok (existsb (owned_by self ty) ds).
Proof.
  intros Hh. unfold rw_lock_own. destruct (find_first_ok (owned_by self ty) _ _ Hh) as
    [[He ->]|(xs1 & x & xs2 & ds1 & d & ds2 & _ & -> & _ & _ & He & Hp & ->)]; cbn [rbind].
  - by rewrite He.
  - rewrite existsb_app, He. cbn. by rewrite Hp.
Qed.

Lemma forallb_negb {A} (P : A -> bool) l : existsb P l = false -> forallb (fun x => negb (P x)) l = true.
Proof. induction l as [|x l IH]; [done|]. cbn. destruct (P x); [done|]. by rewrite orb_false_l. Qed.

(** The first matching holder goes; without one the server stops. *)
Lemma remove_debug_ok self ps ty s ds l :
  holds s ds -> level_reset self ps ty s l ->
  if existsb (matches self ps ty) ds then
    exists s', rw_lock_remove_debug_info self ps ty s = Ok s' /\ holds s' (remove_first (matches self ps ty) ds) /\
      slots s' = l /\ lock_word s' = lock_word s
  else rw_lock_remove_debug_info self ps ty s = Fault.
Proof.
  intros Hh Hl. unfold rw_lock_remove_debug_info.
  assert (exists s1, (if counts ps ty then reset_level self s else Ok s) = Ok s1 /\ s1 = set_slots l s) as (s1 & -> & Es1).
  { unfold level_reset in Hl. unfold reset_level. destruct (counts ps ty).
    - destruct Hl as [b ->]. cbn. by eexists.
    - exists s. split; [done|]. subst l. by destruct s. }
  assert (holds s1 ds) as Hh1 by (subst s1; destruct Hh; by constructor). cbn [rbind].
  destruct (find_first_ok (matches self ps ty) _ _ Hh1) as
    [[He ->]|(xs1 & x & xs2 & ds1 & d & ds2 & Hr & -> & HF & Hlen & He & Hp & ->)]; cbn [rbind deref]; [by rewrite He|].
  rewrite existsb_app, He. cbn [existsb]. rewrite Hp. cbn [orb].
  destruct (ut_list_remove_rep (debug_list s1) xs1 x xs2 Hr) as (l' & -> & Hr' & _). cbn [deref rbind].
  eexists. split; [reflexivity|]. split; [|by subst s1].
  rewrite remove_first_app_l by (by apply forallb_negb). cbn. rewrite Hp.
  assert (x ∉ xs1 ++ xs2) as Hno.
  { pose proof (rep_nodup _ _ Hr) as Hnd. apply NoDup_app in Hnd as (_ & Hd & [Hy _]%NoDup_cons). set_solver. }
  apply Forall2_app_inv in HF as [HF1 HF2]; [|done]. inversion HF2 as [|? ? ? ? _ HF3]; subst.
  constructor; [|pose proof (ho_room _ _ Hh) as Hn; rewrite length_app in Hn |- *; cbn in Hn; lia].
  exists (xs1 ++ xs2). split.
  - destruct l' as [m b]. eapply rep_nodes; [|exact Hr']. intros y Hy. apply lookup_delete_ne. by intros ->.
  - eapply (infos_ext (infos s)); [|by apply Forall2_app]. intros y Hy. apply lookup_delete_ne. by intros ->.
Qed.

(** [rw_lock_own] answers exactly whether the list has an entry of the thread
    for the lock type with the pass value 0; entries of other threads, other
    types and passed locks do not count. *)
Theorem rw_own_exact self ty s ds :
  holds s ds -> rw_lock_own self ty s = Ok true <-> exists d, d ∈ ds /\ thread_id d = self /\ pass d = 0 /\ lock_type d = ty.
Proof.
  intros Hh. rewrite (own_ok _ _ _ _ Hh). split.
  - intros [= (d & Hd & Ho)%existsb_exists]. exists d. rewrite list_elem_of_In. split; [done|].
    unfold owned_by in Ho. rewrite !andb_true_iff, !Z.eqb_eq in Ho. by destruct Ho as [[? ?] ?].
  - intros (d & Hd & <- & E & <-). f_equal. apply existsb_exists. exists d. rewrite <- list_elem_of_In. split; [done|].
    unfold owned_by. by rewrite E, !Z.eqb_refl.
Qed.

(** A lock that the latching order admits is recorded, owned while it is held,
    and its record is removed again with its level; whatever the other
    threads' records are, they stay. *)
Theorem debug_info_roundtrip self ty f ln s ds l :
  holds s ds -> Z.of_nat (length ds) + 2 < 2 ^ 64 ->
  untracked addr = false -> level <> SYNC_LEVEL_VARYING -> ty <> RW_LOCK_WAIT_EX ->
  addr ∉ latch <$> default [] (levels_of self (slots s)) -> level_added self 0 ty s l ->
  exists s1 s2, rw_lock_add_debug_info self 0 ty f ln s = Ok s1 /\ rw_lock_own self ty s1 = Ok true /\
    rw_lock_remove_debug_info self 0 ty s1 = Ok s2 /\ holds s2 ds /\
    levels_of self (slots s2) = Some (default [] (levels_of self (slots s))).
Proof using Hfresh.
  intros Hh Hroom Hun Hv Hty Hno Hl.
  assert (counts 0 ty = true) as Hc by (unfold counts; cbn; by rewrite (proj2 (Z.eqb_neq _ _) Hty)).
  destruct (add_debug_ok self 0 ty f ln s ds l Hh Hroom Hl) as (s1 & E1 & Hh1 & Hs1 & _).
  unfold level_added in Hl. rewrite Hc in Hl.
  edestruct (add_reset_level untracked srv_is_being_started buf_debug_prints btr_search_latch_arr own_latch
    self addr level _ (slots s) l (level =? SYNC_LEVEL_VARYING) Hun Hv Hno Hl) as (l2 & E2 & Hlv).
  assert (matches self 0 ty (mkDebug self 0 ty f ln) = true) as Hm by (unfold matches; cbn; by rewrite !Z.eqb_refl).
  pose proof (remove_debug_ok self 0 ty s1 _ l2 Hh1) as Hrm. cbn in Hrm. rewrite Hm in Hrm. cbn in Hrm.
  destruct Hrm as (s2 & E3 & Hh2 & Hs2 & _).
  { unfold level_reset. rewrite Hc, Hs1. by eexists. }
  exists s1, s2. rewrite (own_ok _ _ _ _ Hh1). split_and!; try done.
  - cbn. unfold owned_by. cbn. by rewrite !Z.eqb_refl.
  - by rewrite Hs2.
Qed.
End debug.

(** A lock of the log level that thread 3 has shared, recorded at address 5. *)
Definition shared_info : rw_lock_debug := mkDebug 3 0 RW_LOCK_SHARED "log0log.cc" 10.
Definition shared_state : state :=
  mkState {[ 5%nat := shared_info ]} (mkList {[ 5%nat := mkNode None None ]} (mkBase 1 (Some 5%nat) (Some 5%nat)))
    0xFFFFF [mkThread 3 (Some [mkLevel 40 SYNC_LOG]); mkThread 0 None].

Lemma shared_state_holds : holds shared_state [shared_info].
Proof.
  constructor; [|done]. exists [5%nat]. split.
  - constructor; cbn; try done. apply NoDup_singleton.
  - by constructor; [apply lookup_singleton_eq|].
Qed.

Lemma rw_own_exact_witness :
  rw_lock_own 3 RW_LOCK_SHARED shared_state = Ok true <->
  exists d, d ∈ [shared_info] /\ thread_id d = 3 /\ pass d = 0 /\ lock_type d = RW_LOCK_SHARED.
Proof. apply (rw_own_exact 3 RW_LOCK_SHARED shared_state [shared_info] shared_state_holds). Defined.

(** Thread 7 locks and unlocks the same lock. *)
Lemma debug_info_roundtrip_witness :
  exists s1 s2,
    rw_lock_add_debug_info 40 SYNC_LOG (fun _ => false) false false [] (fun _ => false) fresh (mkNode None None)
      7 0 RW_LOCK_SHARED "log0log.cc" 20 shared_state = Ok s1 /\
    rw_lock_own 7 RW_LOCK_SHARED s1 = Ok true /\
    rw_lock_remove_debug_info 40 SYNC_LOG (fun _ => false) 7 0 RW_LOCK_SHARED s1 = Ok s2 /\
    holds s2 [shared_info] /\ levels_of 7 (slots s2) = Some [].
Proof.
  apply (debug_info_roundtrip 40 SYNC_LOG (fun _ => false) false false [] (fun _ => false) fresh (mkNode None None)
    (fun X => is_fresh X) 7 RW_LOCK_SHARED "log0log.cc" 20 shared_state [shared_info]
    [mkThread 3 (Some [mkLevel 40 SYNC_LOG]); mkThread 7 (Some [mkLevel 40 SYNC_LOG])]);
    [apply shared_state_holds|done|done|done|done|set_solver|by vm_compute].
Defined.
End RwDebug.
