(* ===== verification/RwLockStatus.v ===== *)
(** * What the lock word of a read-write lock tells

    [rw_lock_get_writer] and [rw_lock_get_reader_count] (include/sync0rw.ic)
    read the holders of a lock off its lock word, for the diagnostics and the
    deadlock detection, and [sync_arr_cell_can_wake_up] (sync/sync0arr.cc)
    tells from it whether a waiting thread can go on.  They are right about
    every state the locking functions of [RwLock] reach. *)
From stdpp Require Import strings.
From S2P Require Import Prelude Results OsEvent MutexSpin RwLock SyncArray SyncReport.
Local Open Scope Z_scope.

Module RwLockStatus.
Import RwLock SyncArray SyncReport.

Section status.
Context {E : Type} {HO : EventOps E} (SYNC_SPIN_ROUNDS T : nat).
(** sync0rw.h line 97: at most this many readers. *)
Context (HT : Z.of_nat T < RwLock.X_LOCK_DECR).

Notation state := (RwLock.state (E := E)).
Notation step := (RwLock.step SYNC_SPIN_ROUNDS T).

Definition readers (s : state) : Z := tsum T (fun t => if reading (thread s t) then 1 else 0).

(** Nobody has or is next to get the lock exclusively. *)
Definition unowned (s : state) : Prop := forall t, owns (thread s t) = false.

(** The values the fields may take: [waiters] is a flag, [lock_word] is a [lint]
    that starts at its greatest value. *)
Definition fields_typed (s : state) : Prop :=
  (RwLock.waiters s = 0 \/ RwLock.waiters s = 1) /\ - 2 ^ 63 <= lock_word s <= RwLock.X_LOCK_DECR.

Lemma readers_bound s : 0 <= readers s <= Z.of_nat T.
Proof.
  clear HT. unfold readers. induction T as [|n IH]; [done|]. rewrite tsum_S. destruct (reading (thread s n)); lia.
Qed.

Lemma unowned_word s : inv T s -> unowned s -> lock_word s = RwLock.X_LOCK_DECR - readers s.
Proof.
  intros I Hu. rewrite (inv_word _ _ I). f_equal. apply tsum_ext. intros t _. by apply weight_owner.
Qed.

Lemma pending_word s t :
  inv T s -> (t < T)%nat -> pending (thread s t) = true -> lock_word s = - readers s.
Proof.
  intros I Ht Hp. rewrite (inv_word _ _ I). unfold total, readers.
  rewrite (tsum_change T (fun t => if reading (thread s t) then 1 else 0) _ t Ht).
  - destruct (reading (thread s t)) eqn:Er; [apply reading_depth in Er as [_ Er]; congruence|].
    unfold weight. rewrite Er, Hp. lia.
  - intros k Hk. apply weight_owner. destruct (owns (thread s k)) eqn:Ho; [|done]. destruct Hk.
    apply (inv_unique _ _ I); [done|]. unfold owns. by rewrite Hp.
Qed.

Lemma entered_readers s t : inv T s -> (0 < depth (thread s t))%nat -> readers s = 0.
Proof.
  intros I Hd. unfold readers. rewrite (tsum_const T _ 0); [lia|]. intros u _.
  destruct (reading (thread s u)) eqn:Er; [|done]. destruct (decide (t = u)) as [<-|Hne].
  - apply reading_depth in Er as [Er _]. lia.
  - pose proof (inv_entered _ _ I t u Hd Hne) as Hw. unfold weight in Hw. by rewrite Er in Hw.
Qed.

(** The three states of a lock. *)
Inductive holders (s : state) : Prop :=
| Shared : unowned s -> lock_word s = RwLock.X_LOCK_DECR - readers s -> holders s
| NextWriter t : owns (thread s t) = true -> depth (thread s t) = 0%nat -> lock_word s = - readers s -> holders s
| Writer t : owns (thread s t) = true -> (0 < depth (thread s t))%nat -> readers s = 0 ->
    lock_word s = RwLock.X_LOCK_DECR - xweight (depth (thread s t)) -> holders s.

Lemma inv_holders s : inv T s -> holders s.
Proof.
  intros I. destruct (decide (Exists (fun t => owns (thread s t) = true) (seq 0 T))) as [He|Hn].
  - apply Exists_exists in He as (t & [_ Ht]%elem_of_seq & Ho). pose proof Ho as [Hp|Hd]%orb_prop.
    + eapply NextWriter; [done|by apply pending_depth|]. by eapply pending_word.
    + apply Nat.ltb_lt in Hd. eapply Writer; [done|done|by eapply entered_readers|]. by apply (entered_word T).
  - assert (unowned s) as Hu.
    { intros t. destruct (owns (thread s t)) eqn:Ho; [|done]. destruct (decide (t < T)%nat) as [Ht|Ht].
      - destruct Hn. apply Exists_exists. exists t. split; [apply elem_of_seq; lia|done].
      - by rewrite (inv_out _ _ I) in Ho by lia. }
    apply Shared; [done|]. by apply unowned_word.
Qed.

(** The lock word tells the number of readers exactly, and its sign and size
    tell whether a writer is in the lock alone, is next and waits for readers,
    or whether there is none, in every state the locking functions reach. *)
Theorem rw_status_exact s l :
  rtc step init s -> rw_lock_word l = lock_word s ->
  rw_lock_get_reader_count l = readers s /\
  (rw_lock_get_writer l = RW_LOCK_NOT_LOCKED <-> unowned s) /\
  (rw_lock_get_writer l = RW_LOCK_WAIT_EX <-> 0 < readers s /\ exists t, owns (thread s t) = true) /\
  (rw_lock_get_writer l = RW_LOCK_EX <-> readers s = 0 /\ exists t, owns (thread s t) = true).
Proof using HT.
  intros Hr El. pose proof (rw_reachable _ _ _ Hr) as I. pose proof (readers_bound s) as Hb.
  unfold rw_lock_get_reader_count, rw_lock_get_writer. rewrite El.
  unfold RW_LOCK_NOT_LOCKED, RW_LOCK_WAIT_EX, RW_LOCK_EX, SyncReport.X_LOCK_DECR. unfold RwLock.X_LOCK_DECR in HT.
  assert (forall t, owns (thread s t) = true -> ~ unowned s) as Hex by (intros t Ho Hu; specialize (Hu t); congruence).
  destruct (inv_holders s I) as [Hu Hw|t Ho _ Hw|t Ho Hd Hz Hw].
  - assert (~ exists t, owns (thread s t) = true) by (intros [t Ho]; by apply (Hex t Ho)).
    rewrite Hw. unfold RwLock.X_LOCK_DECR. repeat split_guard; try lia. split_and!; try lia; naive_solver lia.
  - specialize (Hex t Ho). assert (exists t, owns (thread s t) = true) by eauto.
    rewrite Hw. repeat split_guard; try lia; split_and!; try lia; naive_solver lia.
  - specialize (Hex t Ho). assert (exists t, owns (thread s t) = true) by eauto.
    assert (lock_word s = 0 \/ lock_word s <= - 1048576) as Hcase.
    { rewrite Hw. unfold xweight, RwLock.X_LOCK_DECR. destruct (depth (thread s t)) as [|[|d]]; lia. }
    repeat split_guard; try lia; split_and!; try lia; naive_solver lia.
Qed.

(** The periodic wake-up sets the event of a thread that waits for a shared or
    an exclusive lock exactly when no writer has the lock or is next, and that
    of a next writer exactly when the readers have left and no writer has
    locked more than once. *)
Theorem rw_wake_exact s l cell objs :
  rtc step init s -> rw_lock_word l = lock_word s -> objs !! wait_object cell = Some (RwLock l) ->
  (request_type cell = RW_LOCK_EX \/ request_type cell = RW_LOCK_SHARED ->
    exists b, sync_arr_cell_can_wake_up cell objs = Ok b /\ (b = true <-> unowned s)) /\
  (request_type cell = RW_LOCK_WAIT_EX ->
    exists b, sync_arr_cell_can_wake_up cell objs = Ok b /\
      (b = true <-> readers s = 0 /\ exists t, owns (thread s t) = true /\ (depth (thread s t) <= 1)%nat)).
Proof using HT.
  intros Hr El Ho. pose proof (rw_reachable _ _ _ Hr) as I. pose proof (readers_bound s) as Hb.
  unfold RwLock.X_LOCK_DECR in HT. unfold sync_arr_cell_can_wake_up. rewrite Ho. cbn. rewrite El. split.
  - intros Hty. assert (exists b, (0 <? lock_word s) = b /\ (b = true <-> unowned s)) as (b & Hb0 & Hiff).
    { eexists. split; [reflexivity|]. rewrite Z.ltb_lt. split.
      - intros Hpos t. by apply (positive_unowned T).
      - intros Hu. rewrite (unowned_word s I Hu). unfold RwLock.X_LOCK_DECR. lia. }
    exists b. by destruct Hty as [-> | ->]; cbn; rewrite Hb0.
  - intros ->. cbn. eexists. split; [reflexivity|]. rewrite Z.eqb_eq. split.
    + intros Hz. destruct (inv_holders s I) as [Hu Hw|t Hown Hd Hw|t Hown Hd Hrd Hw].
      * unfold RwLock.X_LOCK_DECR in Hw. lia.
      * split; [lia|]. exists t. rewrite Hd. split; [done|lia].
      * split; [done|]. exists t. rewrite Hw in Hz. apply xweight_one in Hz; [|done]. split; [done|lia].
    + intros (Hrd & t & Hown & Hd). destruct (inv_holders s I) as [Hu Hw|u Hown' _ Hw|u Hown' Hd' _ Hw].
      * specialize (Hu t). congruence.
      * lia.
      * rewrite (inv_unique _ _ I t u Hown Hown') in Hd. rewrite Hw. apply xweight_one; lia.
Qed.

(** ** The width of the fields *)

(** What one step does to the two counters. *)
Definition small_change (s s' : state) : Prop :=
  (RwLock.waiters s' = RwLock.waiters s \/ RwLock.waiters s' = 0 \/ RwLock.waiters s' = 1) /\
  lock_word s - RwLock.X_LOCK_DECR <= lock_word s'.

Lemma small_word (s : state) t p w : lock_word s - RwLock.X_LOCK_DECR <= w -> small_change s (goto t p (set_word w s)).
Proof. split; [by left|done]. Qed.

(** A step that leaves both alone, or only raises the lock word. *)
Lemma small_same (s s' : state) :
  RwLock.waiters s' = RwLock.waiters s -> lock_word s <= lock_word s' -> small_change s s'.
Proof. intros H1 H2. split; [by left|]. unfold RwLock.X_LOCK_DECR. lia. Qed.

Ltac small := first [apply small_same; [done|cbn; lia] | apply small_word; unfold RwLock.X_LOCK_DECR in *; lia].

Lemma small_flags (s : state) t p :
  small_change s (goto t p (rw_lock_set_waiter_flag s)) /\ small_change s (goto t p (rw_lock_reset_waiter_flag s)).
Proof.
  unfold rw_lock_set_waiter_flag, rw_lock_reset_waiter_flag.
  split; case_match; (split; [cbn; tauto|cbn; unfold RwLock.X_LOCK_DECR; lia]).
Qed.

Lemma small_s_lock s s' t : rw_lock_s_lock_spin_step SYNC_SPIN_ROUNDS t s = Some s' -> small_change s s'.
Proof.
  unfold rw_lock_s_lock_spin_step, rw_lock_s_lock_low_step. intros Hst. destruct (thread s t); try done.
  - injection Hst as <-. small.
  - injection Hst as <-. destruct (Z.eqb_spec (lock_word s) w); small.
  - injection Hst as <-. small.
  - destruct (event_reset (RwLock.event s)). injection Hst as <-. small.
  - injection Hst as <-. apply small_flags.
  - case_match; [done|]. injection Hst as <-. small.
Qed.

Lemma small_s_unlock s s' t : rw_lock_s_unlock_step t s = Some s' -> small_change s s'.
Proof. unfold rw_lock_s_unlock_step. intros Hst. destruct (thread s t); try done; injection Hst as <-; small. Qed.

Lemma small_x_unlock s s' t : inv T s -> rw_lock_x_unlock_step t s = Some s' -> small_change s s'.
Proof.
  unfold rw_lock_x_unlock_step. intros I Hst. pose proof (inv_pc _ _ I t) as Hp.
  destruct (thread s t); try done; injection Hst as <-; try small.
  - destruct Hp as [Hd ->]. apply small_same; [done|]. cbn.
    assert (xweight (pred d) <= xweight d) by (destruct d as [|[|[|d]]]; cbn; unfold RwLock.X_LOCK_DECR; lia). lia.
  - apply small_flags.
Qed.

Lemma small_x_wait s s' t :
  rw_lock_x_lock_wait_step SYNC_SPIN_ROUNDS t s = Some s' -> small_change s s'.
Proof.
  unfold rw_lock_x_lock_wait_step. intros Hst. destruct (thread s t); try done.
  - injection Hst as <-. small.
  - destruct (event_reset (wait_ex_event s)). injection Hst as <-. small.
  - injection Hst as <-. small.
  - case_match; [done|]. injection Hst as <-. small.
Qed.

Lemma small_writer_id s s' t : set_writer_id_step t s = Some s' -> small_change s s'.
Proof.
  unfold set_writer_id_step. intros Hst. destruct (thread s t); try done; injection Hst as <-; try case_match; small.
Qed.

Lemma small_x_low s s' t :
  inv T s -> (t < T)%nat -> rw_lock_x_lock_low_step SYNC_SPIN_ROUNDS t s = Some s' -> small_change s s'.
Proof.
  intros I Ht Hst. pose proof (inv_pc _ _ I t) as Hp. pose proof (entered_word T s t I Ht) as Hw.
  unfold rw_lock_x_lock_low_step in Hst.
  destruct (thread s t) eqn:Et; try (by eapply small_x_wait; rewrite ?Et); try (by eapply small_writer_id);
    cbn [pc_ok depth] in Hp, Hw; injection Hst as <-; try small.
  - destruct (Z.eqb_spec (lock_word s) w); small.
  - destruct Hp as [Hd ->]. apply small_word. rewrite Hw by done.
    assert (xweight (S d) <= xweight d + RwLock.X_LOCK_DECR) by (destruct d as [|[|d]]; cbn; unfold RwLock.X_LOCK_DECR; lia). lia.
Qed.

Lemma small_x_lock s s' t :
  inv T s -> (t < T)%nat -> rw_lock_x_lock_func_step SYNC_SPIN_ROUNDS t s = Some s' -> small_change s s'.
Proof.
  intros I Ht Hst. unfold rw_lock_x_lock_func_step in Hst.
  destruct (thread s t) eqn:Et; unfold rw_lock_x_lock_func_nowait_step in Hst; rewrite ?Et in Hst;
    try (by eapply small_x_low).
  - injection Hst as <-. destruct (Z.eqb_spec (lock_word s) RwLock.X_LOCK_DECR); small.
  - injection Hst as <-. small.
  - destruct (event_reset (RwLock.event s)). injection Hst as <-. small.
  - injection Hst as <-. apply small_flags.
  - case_match; [done|]. injection Hst as <-. small.
Qed.

Lemma step_small s s' : inv T s -> step s s' -> small_change s s'.
Proof.
  intros I (t & a & Ht & Hst). unfold rw_step in Hst.
  destruct (thread s t) eqn:Et; try (by eapply small_s_lock); try (by eapply small_s_unlock);
    try (by eapply small_x_unlock); try (by eapply small_x_lock); destruct a; try done; injection Hst as <-; small.
Qed.

(** C34: The fields keep to their types: [waiters] is 0 or 1, and the lock word is
    at most its start value and a [lint], as long as fewer than [2^43] steps
    were taken. *)
Theorem rw_fields_typed n s :
  Z.of_nat n < 2 ^ 43 -> nsteps step n init s -> fields_typed s.
Proof using HT.
  intros Hn Hs.
  assert ((RwLock.waiters s = 0 \/ RwLock.waiters s = 1) /\
    RwLock.X_LOCK_DECR - Z.of_nat n * RwLock.X_LOCK_DECR <= lock_word s) as [Hw Hlo].
  { clear Hn. revert s Hs. induction n as [|n IH]; intros s Hs.
    - inversion Hs; subst. cbn. split; [by left|done].
    - apply nsteps_inv_r in Hs as (s1 & Hs1 & Hst). destruct (IH s1 Hs1) as [H1 H2].
      assert (inv T s1) as I by (apply (rw_reachable SYNC_SPIN_ROUNDS), rtc_nsteps; by exists n).
      destruct (step_small s1 s I Hst) as [Hc Hd]. split; [destruct Hc as [->|]; done|lia]. }
  assert (inv T s) as I by (apply (rw_reachable SYNC_SPIN_ROUNDS), rtc_nsteps; by exists n).
  split; [done|]. rewrite (inv_word _ _ I) in Hlo |- *.
  pose proof (tsum_nonneg T _ (fun t => weight_nonneg (thread s t))) as Ht. unfold total in *. unfold RwLock.X_LOCK_DECR in *. lia.
Qed.
End status.

(** Thread 0 has the lock twice and thread 1 sleeps. *)
Definition waiting_lock (e : OsEvent.os_event) : rw_lock_t := mkRwLock (lock_word waiting_state) 1 0 e e [].

Lemma rw_status_exact_witness :
  let l := waiting_lock OsEvent.os_event_create in
  rw_lock_get_reader_count l = readers 2 waiting_state /\
  (rw_lock_get_writer l = RW_LOCK_NOT_LOCKED <-> unowned waiting_state) /\
  (rw_lock_get_writer l = RW_LOCK_WAIT_EX <-> 0 < readers 2 waiting_state /\ exists t, owns (thread waiting_state t) = true) /\
  (rw_lock_get_writer l = RW_LOCK_EX <-> readers 2 waiting_state = 0 /\ exists t, owns (thread waiting_state t) = true).
Proof. apply (rw_status_exact 1 2 ltac:(done) waiting_state _ waiting_reachable). reflexivity. Defined.

Definition waiting_cell : sync_cell_t := mkCell 8 0 0 RW_LOCK_SHARED "" 0 1 true 1 0.

Lemma rw_wake_exact_witness :
  exists b, sync_arr_cell_can_wake_up waiting_cell {[ 8 := RwLock (waiting_lock OsEvent.os_event_create) ]} = Ok b /\
    (b = true <-> unowned waiting_state).
Proof.
  apply (rw_wake_exact 1 2 ltac:(done) waiting_state (waiting_lock OsEvent.os_event_create) waiting_cell _ waiting_reachable);
    [reflexivity|reflexivity|by right].
Defined.

Lemma rw_fields_typed_witness : fields_typed waiting_state.
Proof.
  apply (rw_fields_typed 1 2 ltac:(done) (length twice_then_wait) waiting_state); [by vm_compute|].
  apply (rw_run_nsteps 1 2 _ _ _ waiting_run).
Defined.
End RwLockStatus.
