(* ===== verification/HashPrime.v ===== *)
(** * The size of a hash table (ut/ut0rnd.cc)

    [ut_find_prime] chooses the number of cells of a hash table: a prime
    somewhat greater than its argument and away from powers of two.  It scales
    its argument in double precision, which is modelled with the executable
    binary64 operations of the Standard Library; integers are 64 bits wide. *)
From Stdlib Require Import SpecFloat Znumtheory.
From S2P Require Import Prelude.
Local Open Scope Z_scope.

Module HashPrime.

(** ** Double precision *)

Notation double := spec_float (only parsing).

Definition of_ulint (n : Z) : double := binary_normalize 53 1024 n 0 false.
Definition mul (x y : double) : double := SFmul 53 1024 x y.
Definition ltb (x y : double) : bool := SFltb x y.
(** The decimal constant [a / b]: the nearest double. *)
Definition decimal (a b : Z) : double := SFdiv 53 1024 (of_ulint a) (of_ulint b).

(** The conversion to [ulint] cuts off the fraction; it is undefined outside
    the range. *)
Definition to_ulint (x : double) : option Z :=
  match x with
  | S754_finite false m e => let n := Z.shiftl (Zpos m) e in if n <? 2 ^ 64 then Some n else None
  | S754_zero _ => Some 0
  | _ => None
  end.

(** ut0rnd.cc, lines 34-36. *)
Definition UT_RANDOM_1 : double := decimal 10412321 10000000.
Definition UT_RANDOM_2 : double := decimal 11131347 10000000.
Definition UT_RANDOM_3 : double := decimal 10132677 10000000.

(** ** The function *)

(** Lines 57-60: at most 63 rounds. *)
Fixpoint pow2_loop (fuel : nat) (pow2 n : Z) : option Z :=
  if u64 (pow2 * 2) <? n then match fuel with O => None | S fuel => pow2_loop fuel (u64 (2 * pow2)) n end
  else Some pow2.

(** [(ulint) ((double) n * c)] *)
Definition scale (n : Z) (c : double) : option Z := to_ulint (mul (of_ulint n) c).

(** Lines 55-80: where the search starts. *)
Definition search_start (n : Z) : option Z :=
  let n := u64 (n + 100) in
  pow2 ← pow2_loop 63 1 n;
  n ← (if ltb (of_ulint n) (mul (decimal 105 100) (of_ulint pow2)) then scale n UT_RANDOM_1 else Some n);
  let pow2 := u64 (2 * pow2) in
  n ← (if ltb (mul (decimal 95 100) (of_ulint pow2)) (of_ulint n) then scale n UT_RANDOM_2 else Some n);
  let n := if u64 (pow2 - 20) <? n then u64 (n + 30) else n in
  scale n UT_RANDOM_3.

(** Lines 83-89: whether no number from [i] on whose square is at most [n]
    divides [n]. *)
Fixpoint trial (fuel : nat) (i n : Z) : option bool :=
  if u64 (i * i) <=? n then
    match fuel with
    | O => None
    | S fuel => if n mod i =? 0 then Some false else trial fuel (u64 (i + 1)) n
    end
  else Some true.

(** Lines 82-94; a division test has at most [sqrt n] rounds. *)
Fixpoint search (fuel : nat) (n : Z) : option Z :=
  match fuel with
  | O => None
  | S fuel =>
      b ← trial (Z.to_nat (Z.sqrt n)) 2 n;
      if (b : bool) then Some n else search fuel (u64 (n + 1))
  end.

(** Lines 46-97. *)
Definition ut_find_prime (fuel : nat) (n : Z) : option Z := m ← search_start n; search fuel m.

(** ** Rounding to 53 bits *)

Lemma digits2_bounds p : 2 ^ (Zpos (digits2_pos p) - 1) <= Zpos p < 2 ^ Zpos (digits2_pos p).
Proof.
  induction p as [p IH|p IH|]; cbn [digits2_pos]; [| |done]; rewrite Pos2Z.inj_succ;
    replace (Z.succ (Zpos (digits2_pos p)) - 1) with (Z.succ (Zpos (digits2_pos p) - 1)) by lia;
    rewrite !Z.pow_succ_r by lia; lia.
Qed.

Lemma iter_pos_nat {A} (f : A -> A) p x : SpecFloat.iter_pos f p x = Nat.iter (Pos.to_nat p) f x.
Proof.
  revert x. induction p as [p IH|p IH|]; intros x; cbn [SpecFloat.iter_pos]; [| |done].
  - rewrite !IH, Pos2Nat.inj_xI, <- Nat.iter_add, <- Nat.iter_succ_r. f_equal. lia.
  - rewrite !IH, Pos2Nat.inj_xO, <- Nat.iter_add. f_equal. lia.
Qed.

Lemma shr_1_m r : 0 <= shr_m r -> shr_m (shr_1 r) = shr_m r / 2.
Proof. destruct r as [[|[p|p|]|p] b c]; intros H; rewrite <- Z.div2_div; (done || by destruct p). Qed.

Lemma shr_iter_m k r : 0 <= shr_m r -> shr_m (Nat.iter k shr_1 r) = shr_m r / 2 ^ Z.of_nat k.
Proof.
  intros H. induction k as [|k IH]; [by rewrite Z.div_1_r|]. rewrite Nat.iter_succ, shr_1_m.
  - rewrite IH, Z.div_div, Nat2Z.inj_succ, Z.pow_succ_r by lia. f_equal. lia.
  - rewrite IH. apply Z.div_pos; [done|]. apply Z.pow_pos_nonneg; lia.
Qed.

(** The mantissa after a shift that keeps 53 bits. *)
Lemma shr_fexp_spec m e :
  0 < m -> -1000 <= e ->
  exists k r, shr_fexp 53 1024 m e loc_Exact = (r, e + k) /\ 0 <= k /\ shr_m r = m / 2 ^ k /\
    m < 2 ^ (53 + k) /\ (k = 0 -> r = Build_shr_record m false false) /\ (0 < k -> 2 ^ (52 + k) <= m).
Proof.
  intros Hm He. destruct m as [|p|p]; [lia| |lia]. pose proof (digits2_bounds p) as Hd. unfold shr_fexp.
  cbn [shr_record_of_loc Zdigits2]. set (d := Zpos (digits2_pos p)) in *.
  replace (fexp 53 1024 (d + e) - e) with (Z.max (d - 53) (emin 53 1024 - e)) by (unfold fexp; lia).
  change (emin 53 1024) with (-1074). destruct (Z.le_gt_cases d 53) as [Hle|Hgt].
  - exists 0, (Build_shr_record (Zpos p) false false).
    assert (2 ^ d <= 2 ^ (53 + 0)) by (apply Z.pow_le_mono_r; lia).
    split_and!; [|done|by rewrite Z.div_1_r|lia|done|lia]. rewrite Z.add_0_r.
    by destruct (Z.max (d - 53) (-1074 - e)) as [|q|q] eqn:E; [|lia|].
  - rewrite Z.max_l by lia. exists (d - 53). destruct (d - 53) as [|q|q] eqn:E; [lia| |lia]. cbn [shr].
    eexists. split; [reflexivity|]. rewrite iter_pos_nat, shr_iter_m, positive_nat_Z by done.
    replace (53 + Zpos q) with d by lia. replace (52 + Zpos q) with (d - 1) by lia. split_and!; (done || lia).
Qed.

Lemma div_mul_bounds m k : 0 <= k -> m / 2 ^ k * 2 ^ k <= m < (m / 2 ^ k + 1) * 2 ^ k.
Proof.
  intros Hk. pose proof (Z.pow_pos_nonneg 2 k). pose proof (Z.div_mod m (2 ^ k)). pose proof (Z.mod_pos_bound m (2 ^ k)). lia.
Qed.

(** Rounding goes to one of the two neighbours. *)
Lemma round_neighbour r q : shr_m r = q -> exists c, round_nearest_even q (loc_of_shr_record r) = q + c /\ 0 <= c <= 1 /\
  (r = Build_shr_record q false false -> c = 0).
Proof.
  intros <-. destruct r as [m [] []]; cbn.
  - exists 1. split_and!; (done || lia).
  - destruct (Z.even m); [exists 0|exists 1]; split_and!; (done || lia).
  - exists 0. split_and!; (done || lia).
  - exists 0. split_and!; (done || lia).
Qed.

(** A rounded value is off by at most one unit in the 52nd place. *)
Lemma round_aux_spec m e :
  0 < m -> -1000 <= e -> m < 2 ^ 200 -> e <= 200 ->
  exists m' e', binary_round_aux 53 1024 false m e loc_Exact = S754_finite false m' e' /\ e <= e' <= e + 200 /\
    Z.abs (Zpos m' * 2 ^ (e' - e) - m) * 2 ^ 52 <= m /\ (m < 2 ^ 53 -> Zpos m' * 2 ^ (e' - e) = m).
Proof.
  intros Hm He Hmax Hemax. unfold binary_round_aux.
  destruct (shr_fexp_spec m e Hm He) as (k & r & -> & Hk & Hq & Hlt & H0 & H52).
  destruct (round_neighbour r _ Hq) as (c & Ec & Hc & Hexact). rewrite Hq, Ec.
  pose proof (div_mul_bounds m k Hk) as Hdm. set (q := m / 2 ^ k) in *.
  pose proof (Z.pow_pos_nonneg 2 k ltac:(lia) Hk) as Hpk.
  assert (k = 0 -> c = 0 /\ q = m) as Hz.
  { intros ->. assert (q = m) as Eq by (unfold q; apply Z.div_1_r). split; [|done]. apply Hexact. rewrite Eq. auto. }
  assert (0 < q) as Hq0.
  { destruct (Z.eq_dec k 0) as [->|]; [unfold q; rewrite Z.div_1_r; lia|]. rewrite Z.pow_add_r in H52 by lia.
    pose proof (H52 ltac:(lia)). nia. }
  assert (q < 2 ^ 53) as Hq53 by (apply Z.div_lt_upper_bound; [lia|]; rewrite <- Z.pow_add_r by lia; by rewrite Z.add_comm).
  assert (k <= 199) as Hk199.
  { destruct (Z.le_gt_cases k 199) as [|Hgt]; [done|]. specialize (H52 ltac:(lia)).
    pose proof (Z.pow_le_mono_r 2 200 (52 + k)). lia. }
  destruct (shr_fexp_spec (q + c) (e + k)) as (k' & r' & -> & Hk' & Hq' & Hlt' & H0' & H52'); [lia..|].
  assert (shr_m r' * 2 ^ k' = q + c /\ k' <= 1) as [Hm' Hk1].
  { rewrite Hq'. destruct (Z.eq_dec k' 0) as [->|Hne]; [rewrite Z.div_1_r; lia|]. specialize (H52' ltac:(lia)).
    assert (2 ^ 53 <= 2 ^ (52 + k')) by (apply Z.pow_le_mono_r; lia).
    assert (q + c = 2 ^ 53) as Eq by lia. rewrite Eq in *.
    assert (k' = 1) as -> by (apply Z.pow_le_mono_r_iff in H52'; lia). done. }
  assert (0 < shr_m r') as Hr0 by nia. destruct (shr_m r') as [|m'|m'] eqn:Er; [lia| |lia].
  rewrite (proj2 (Z.leb_le _ _)) by lia. exists m', (e + k + k'). split; [done|].
  replace (e + k + k' - e) with (k' + k) by lia. rewrite Z.pow_add_r, Z.mul_assoc, Hm' by lia.
  split_and!; [lia|lia| |].
  - destruct (Z.eq_dec k 0) as [->|Hne].
    + destruct (Hz eq_refl) as [-> ->]. replace ((m + 0) * 2 ^ 0 - m) with 0 by lia. lia.
    + specialize (H52 ltac:(lia)). rewrite Z.pow_add_r in H52 by lia.
      assert (Z.abs ((q + c) * 2 ^ k - m) <= 2 ^ k) by nia. nia.
  - intros Hsmall. destruct (Z.eq_dec k 0) as [->|Hne].
    + destruct (Hz eq_refl) as [-> ->]. lia.
    + specialize (H52 ltac:(lia)). assert (2 ^ 53 <= 2 ^ (52 + k)) by (apply Z.pow_le_mono_r; lia). lia.
Qed.
(** ** Conversions and products *)

Lemma iter_xO p d : Zpos (Pos.iter xO p d) = Zpos p * 2 ^ Zpos d.
Proof.
  induction d as [|d IH] using Pos.peano_ind; [cbn; lia|].
  rewrite Pos.iter_succ, Pos2Z.inj_succ, Z.pow_succ_r by lia. lia.
Qed.

(** A 64-bit integer as a double, in units of [2^-52]. *)
Lemma of_ulint_spec n :
  1 <= n < 2 ^ 64 ->
  exists m e, of_ulint n = S754_finite false m e /\ -52 <= e <= 211 /\ Z.abs (Zpos m * 2 ^ (e + 52) - n * 2 ^ 52) <= n.
Proof.
  intros Hn. destruct n as [|p|p]; [lia| |lia]. unfold of_ulint, binary_normalize, binary_round.
  pose proof (digits2_bounds p) as Hd. set (d := Zpos (digits2_pos p)) in *. rewrite Z.add_0_r.
  assert (d - 1 < 64) as Hd64 by (apply (Z.pow_lt_mono_r_iff 2); lia).
  assert (1 <= d) as Hd1 by lia.
  assert (fexp 53 1024 d = d - 53) as Ef by (unfold fexp, emin; lia). unfold shl_align. rewrite Ef, Z.sub_0_r.
  destruct (Z.le_gt_cases 53 d) as [Hbig|Hsmall].
  - assert (match d - 53 with Z.neg d0 => (Pos.iter xO p d0, d - 53) | _ => (p, 0) end = (p, 0)) as -> by (by destruct (d - 53) eqn:E; [| |lia]).
    destruct (round_aux_spec (Zpos p) 0) as (m & e & -> & He & Hb & _); [lia..|]. exists m, e. split; [done|]. split; [lia|].
    rewrite Z.sub_0_r in Hb. rewrite Z.pow_add_r by lia.
    replace (Zpos m * (2 ^ e * 2 ^ 52) - Zpos p * 2 ^ 52) with ((Zpos m * 2 ^ e - Zpos p) * 2 ^ 52) by lia.
    rewrite Z.abs_mul. change (Z.abs (2 ^ 52)) with (2 ^ 52). lia.
  - destruct (d - 53) as [|q|q] eqn:E; [lia|lia|].
    assert (2 ^ d * 2 ^ Zpos q = 2 ^ 53) as E53 by (rewrite <- Z.pow_add_r by lia; f_equal; lia).
    assert (Zpos p * 2 ^ Zpos q < 2 ^ 53) by (rewrite <- E53; apply Z.mul_lt_mono_pos_r; [apply Z.pow_pos_nonneg; lia|lia]).
    destruct (round_aux_spec (Zpos (Pos.iter xO p q)) (Zneg q)) as (m & e & -> & He & _ & Hx); rewrite ?iter_xO; [lia..|].
    rewrite iter_xO in Hx. specialize (Hx ltac:(lia)). exists m, e. split; [done|]. split; [lia|].
    replace (e + 52) with ((e - Zneg q) + (52 - Zpos q)) by lia. rewrite Z.pow_add_r, Z.mul_assoc, Hx, <- Z.mul_assoc by lia.
    rewrite <- Z.pow_add_r by lia. replace (Zpos q + (52 - Zpos q)) with 52 by lia. lia.
Qed.

Lemma shiftl_floor m e : -104 <= e -> let r := Z.shiftl (Zpos m) e in r * 2 ^ 104 <= Zpos m * 2 ^ (e + 104) < (r + 1) * 2 ^ 104.
Proof.
  intros He. cbv zeta. destruct (Z.le_gt_cases 0 e) as [Hp|Hn].
  - rewrite Z.shiftl_mul_pow2, Z.pow_add_r by done. pose proof (Z.pow_pos_nonneg 2 e). nia.
  - assert (Z.shiftl (Zpos m) e = Zpos m / 2 ^ (- e)) as ->
      by (rewrite <- Z.shiftr_div_pow2, <- Z.shiftl_opp_r by lia; f_equal; lia).
    pose proof (div_mul_bounds (Zpos m) (- e) ltac:(lia)) as Hd. set (q := Zpos m / _) in *.
    assert (2 ^ 104 = 2 ^ (- e) * 2 ^ (e + 104)) as -> by (rewrite <- Z.pow_add_r by lia; f_equal; lia).
    pose proof (Z.pow_pos_nonneg 2 (e + 104)). nia.
Qed.

(** The product with a constant between 1 and 2, up to 4 units in the 52nd
    place and the fraction. *)
Lemma scale_spec n mc :
  1 <= n < 2 ^ 62 -> 2 ^ 52 <= Zpos mc < 2 ^ 53 ->
  exists r, scale n (S754_finite false mc (-52)) = Some r /\
    r * 2 ^ 104 <= n * Zpos mc * (2 ^ 52 + 4) /\ n * Zpos mc * (2 ^ 52 - 4) < (r + 1) * 2 ^ 104.
Proof.
  intros Hn Hc. unfold scale, mul. destruct (of_ulint_spec n) as (m & e & -> & He & Hb); [lia|]. cbn [SFmul xorb].
  set (V := n * Zpos mc). rewrite Pos2Z.inj_mul in *.
  assert (Zpos m < 2 ^ 116) as Hm.
  { pose proof (Z.pow_le_mono_r 2 0 (e + 52)). nia. }
  destruct (round_aux_spec (Zpos m * Zpos mc) (e + -52)) as (m' & e' & -> & He' & Hr & _); [nia|lia|nia|lia|].
  pose proof (shiftl_floor m' e' ltac:(lia)) as Hf. cbv zeta in Hf. set (r := Z.shiftl (Zpos m') e') in *.
  set (Q := Zpos m' * 2 ^ (e' - (e + -52))) in *. set (P := Zpos m * Zpos mc) in *. set (k := 2 ^ (e + 52)) in *.
  assert (0 < k) as Hk by (apply Z.pow_pos_nonneg; lia).
  assert (Zpos m' * 2 ^ (e' + 104) = Q * k) as EB.
  { unfold Q, k. rewrite <- Z.mul_assoc, <- Z.pow_add_r by lia. do 2 f_equal. lia. }
  assert (Z.abs (P * k - V * 2 ^ 52) <= V) as HA.
  { unfold P, V. replace (Zpos m * Zpos mc * k - n * Zpos mc * 2 ^ 52) with ((Zpos m * k - n * 2 ^ 52) * Zpos mc) by lia.
    rewrite Z.abs_mul. nia. }
  assert (Z.abs (Q * k - P * k) * 2 ^ 52 <= P * k) as HB.
  { replace (Q * k - P * k) with ((Q - P) * k) by lia. rewrite Z.abs_mul, (Z.abs_eq k) by lia. nia. }
  rewrite EB in Hf. assert (0 <= V < 2 ^ 115) as HV by (unfold V; nia).
  assert (r * 2 ^ 104 <= V * (2 ^ 52 + 4)) by lia.
  exists r. unfold to_ulint. fold r. rewrite (proj2 (Z.ltb_lt _ _)) by lia. split; [done|]. lia.
Qed.

(** ** Where the search starts *)

Definition is_factor (c : double) : Prop := c = UT_RANDOM_1 \/ c = UT_RANDOM_2 \/ c = UT_RANDOM_3.

(** The factors are greater than 1 by more than the rounding can take away. *)
Lemma scale_grows n c :
  is_factor c -> 100 <= n < 2 ^ 62 -> exists r, scale n c = Some r /\ n <= r /\ 8 * r <= 9 * n.
Proof.
  intros Hc Hn.
  assert (exists mc, c = S754_finite false mc (-52) /\ 101 * 2 ^ 52 < 100 * Zpos mc /\ 1000 * Zpos mc < 1114 * 2 ^ 52) as (mc & -> & Hlo & Hhi).
  { destruct Hc as [-> |[-> | ->]]; [exists 4689292497566199%positive|exists 5013113020133169%positive|exists 4563352036146560%positive];
      (split; [by vm_compute|]); lia. }
  destruct (scale_spec n mc) as (r & E & H1 & H2); [lia..|]. exists r. split; [done|].
  set (V := n * Zpos mc) in *.
  assert (n * (101 * 2 ^ 52) <= 100 * V /\ 1000 * V <= n * (1114 * 2 ^ 52)) by (unfold V; nia). lia.
Qed.

Lemma pow2_loop_ok n : forall fuel i,
  0 <= i -> i + Z.of_nat fuel = 63 -> n <= 2 ^ 62 -> i <= 61 ->
  exists j, 0 <= j <= 61 /\ pow2_loop fuel (2 ^ i) n = Some (2 ^ j).
Proof.
  induction fuel as [|fuel IH]; intros i Hi Hf Hn Hi61; [lia|]. cbn [pow2_loop].
  assert (2 ^ i * 2 = 2 ^ (i + 1) /\ 2 * 2 ^ i = 2 ^ (i + 1)) as [E1 E2] by (rewrite Z.pow_add_r by lia; lia).
  assert (2 ^ (i + 1) <= 2 ^ 62) by (apply Z.pow_le_mono_r; lia). pose proof (Z.pow_pos_nonneg 2 (i + 1)).
  rewrite E1, E2, u64_small by lia. destruct (Z.ltb_spec (2 ^ (i + 1)) n) as [Hlt|_]; [|by exists i].
  assert (i + 1 < 62) by (apply (Z.pow_lt_mono_r_iff 2); lia). apply IH; lia.
Qed.

(** The start is defined and greater than the argument, though not by much:
    the conversions to and from double precision lose less than the factors
    add. *)
Lemma search_start_ok n : 0 <= n < 2 ^ 60 -> exists m, search_start n = Some m /\ n + 100 <= m < 2 ^ 61.
Proof.
  intros Hn. unfold search_start. rewrite u64_small by lia. set (n1 := n + 100).
  destruct (pow2_loop_ok n1 63 0) as (j & Hj & Ej); [lia..|]. change (2 ^ 0) with 1 in Ej. rewrite Ej. cbn [mbind option_bind].
  assert (forall b : bool, forall k c, is_factor c -> 100 <= k < 2 ^ 62 ->
    exists r, (if b then scale k c else Some k) = Some r /\ k <= r /\ 8 * r <= 9 * k) as Hs.
  { intros [] k c Hc Hk; [by apply scale_grows|]. exists k. split; [done|lia]. }
  destruct (Hs (ltb (of_ulint n1) (mul (decimal 105 100) (of_ulint (2 ^ j)))) n1 UT_RANDOM_1) as (n2 & -> & H2);
    [by left|lia|]. cbn [mbind option_bind].
  destruct (Hs (ltb (mul (decimal 95 100) (of_ulint (u64 (2 * 2 ^ j)))) (of_ulint n2)) n2 UT_RANDOM_2) as (n3 & -> & H3);
    [by right; left|lia|]. cbn [mbind option_bind].
  set (n4 := if _ <? n3 then _ else n3).
  assert (n3 <= n4 <= n3 + 30) as H4 by (unfold n4; case_match; [rewrite u64_small by lia|]; lia).
  destruct (scale_grows n4 UT_RANDOM_3) as (m & -> & H5); [by right; right|lia|]. exists m. split; [done|]. lia.
Qed.

(** ** The search *)

(** A composite number has a divisor whose square is not greater. *)
Lemma small_divisor n : 2 <= n -> ~ prime n -> exists i, 2 <= i /\ i * i <= n /\ (i | n).
Proof.
  intros Hn Hp. destruct (not_prime_divide n ltac:(lia) Hp) as (a & Ha & [b Hb]).
  assert (1 < b < n) as Hb1 by nia. destruct (Z.le_gt_cases a b) as [Hle|Hgt].
  - exists a. split_and!; [lia|nia|by exists b].
  - exists b. split_and!; [lia|nia|exists a; lia].
Qed.

Lemma trial_ok n : 2 <= n < 2 ^ 62 -> forall fuel i,
  2 <= i -> Z.sqrt n < i + Z.of_nat fuel -> i <= Z.sqrt n + 1 -> (forall j, 2 <= j < i -> ~ (j | n)) ->
  exists b, trial fuel i n = Some b /\ (b = true <-> prime n).
Proof.
  intros Hn. pose proof (Z.sqrt_spec n ltac:(lia)) as Hsq. pose proof (Z.sqrt_nonneg n) as Hs0. cbv zeta in Hsq.
  generalize dependent (Z.sqrt n). intros q Hsq Hs0.
  assert (q < 2 ^ 31) as Hq by (destruct (Z.lt_ge_cases q (2 ^ 31)); [done|nia]).
  induction fuel as [|fuel IH]; intros i Hi Hf Hiq Hno; cbn [trial]; rewrite (u64_small (i * i)) by nia;
    (destruct (Z.leb_spec (i * i) n) as [Hle|Hgt];
     [|exists true; split; [done|]; split; [intros _|done]; destruct (prime_dec n) as [|Hp]; [done|];
       destruct (small_divisor n ltac:(lia) Hp) as (j & Hj & Hjj & Hd); destruct (Hno j ltac:(nia) Hd)]).
  - nia.
  - destruct (Z.eqb_spec (n mod i) 0) as [E|E].
    + exists false. split; [done|]. split; [done|]. intros Hp. apply Z.mod_divide in E; [|lia].
      destruct (prime_divisors n Hp i E) as [?|[?|[?|?]]]; nia.
    + rewrite u64_small by lia. apply IH; [lia|lia|nia|]. intros j Hj. destruct (Z.eq_dec j i) as [->|Hne].
      * intros Hd. by apply E, Z.mod_divide; [lia|].
      * apply Hno. lia.
Qed.

(** The search stops at the first prime. *)
Lemma search_ok p : prime p -> p < 2 ^ 62 -> forall fuel m,
  2 <= m <= p -> p - m < Z.of_nat fuel ->
  exists q, search fuel m = Some q /\ prime q /\ m <= q <= p /\ forall r, m <= r < q -> ~ prime r.
Proof.
  intros Hp Hmax. induction fuel as [|fuel IH]; intros m Hm Hf; [lia|]. cbn [search].
  pose proof (Z.sqrt_nonneg m) as Hs0. assert (1 <= Z.sqrt m) by (apply (Z.sqrt_le_mono 1); lia).
  destruct (trial_ok m ltac:(lia) (Z.to_nat (Z.sqrt m)) 2) as (b & -> & Hb); [lia..|]. cbn [mbind option_bind]. destruct b.
  - exists m. split; [done|]. split; [by apply Hb|]. split; [lia|]. intros r Hr. lia.
  - assert (~ prime m) as Hnm by (intros Hpm; by apply Hb in Hpm).
    assert (m <> p) by (by intros ->). rewrite u64_small by lia.
    destruct (IH (m + 1)) as (q & E & Hq & Hr & Hleast); [lia|lia|]. exists q. split_and!; try done; try lia.
    intros r Hr'. destruct (Z.eq_dec r m) as [->|]; [done|]. apply Hleast. lia.
Qed.

(** C35: The number of cells is a prime greater than the requested number, the first
    one from the scaled start on, which is found as soon as there is one below
    [2^62]: the arithmetic in double precision never falls below the argument
    and no 64-bit operation wraps. *)
Theorem find_prime_greater n :
  0 <= n < 2 ^ 60 ->
  exists m, search_start n = Some m /\ n + 100 <= m /\
    forall p fuel, prime p -> m <= p < 2 ^ 62 -> p - m < Z.of_nat fuel ->
      exists q, ut_find_prime fuel n = Some q /\ prime q /\ m <= q <= p /\ forall r, m <= r < q -> ~ prime r.
Proof.
  intros Hn. destruct (search_start_ok n Hn) as (m & E & Hm). exists m. split_and!; [done|lia|].
  intros p fuel Hp Hmp Hf. unfold ut_find_prime. rewrite E. cbn [mbind option_bind]. apply search_ok; (done || lia).
Qed.

Lemma find_prime_greater_witness :
  exists m, search_start 1000 = Some m /\ 1000 + 100 <= m /\
    forall p fuel, prime p -> m <= p < 2 ^ 62 -> p - m < Z.of_nat fuel ->
      exists q, ut_find_prime fuel 1000 = Some q /\ prime q /\ m <= q <= p /\ forall r, m <= r < q -> ~ prime r.
Proof. apply (find_prime_greater 1000). lia. Defined.

(** A page hash for 500 blocks has 1117 cells. *)
Example find_prime_small : search_start 1000 = Some 1114 /\ ut_find_prime 100 1000 = Some 1117.
Proof. by vm_compute. Qed.
End HashPrime.
