(* ===== verification/HashSync.v ===== *)
(** * The latches of hash tables (ha/hash0hash.cc, include/hash0hash.ic)

    The cells of a hash table are protected by an array of mutexes or of
    read-write locks.  The functions that lock one of them or all of them are
    translated into the accesses of latches they make, in their order; threads
    run them side by side.  A latch is what [RwLock] and [MutexSpin] implement:
    shared owners, one exclusive owner, and an exclusive owner first keeps new
    owners out and then waits for the readers to leave. *)
From S2P Require Import Prelude Results BufChunk HashTable.
Local Open Scope Z_scope.

Module HashSync.
Import BufChunk HashTable.
Local Open Scope mc_scope.

(** hash0hash.h, [enum hash_table_sync_t]. *)
Inductive hash_table_sync := HASH_TABLE_SYNC_NONE | HASH_TABLE_SYNC_MUTEX | HASH_TABLE_SYNC_RW_LOCK.

#[export] Instance hash_table_sync_eq_dec : EqDecision hash_table_sync.
Proof. solve_decision. Defined.

(** [hash_table_t] with its latches. *)
Record latched := mkLatched { cells : hash_table; type : hash_table_sync; n_sync_obj : Z }.

(** hash0hash.ic, lines 89-105. *)
Definition hash_get_sync_obj_index (t : latched) (fold : Z) : res nat :=
  let! _ := ut_a (negb (bool_decide (type t = HASH_TABLE_SYNC_NONE))) in
  let! _ := ut_a (ut_is_2pow (n_sync_obj t)) in
  Ok (Z.to_nat (ut_2pow_remainder (hash_calc_hash fold (cells t)) (n_sync_obj t))).

(** Lines 149-165 and 187-203. *)
Definition hash_get_nth_mutex (t : latched) (i : nat) : res nat :=
  let! _ := ut_a (bool_decide (type t = HASH_TABLE_SYNC_MUTEX)) in
  let! _ := ut_a (Z.of_nat i <? n_sync_obj t) in Ok i.
Definition hash_get_nth_lock (t : latched) (i : nat) : res nat :=
  let! _ := ut_a (bool_decide (type t = HASH_TABLE_SYNC_RW_LOCK)) in
  let! _ := ut_a (Z.of_nat i <? n_sync_obj t) in Ok i.

(** Lines 167-185 and 205-224. *)
Definition hash_get_mutex (t : latched) (fold : Z) : res nat :=
  let! i := hash_get_sync_obj_index t fold in hash_get_nth_mutex t i.
Definition hash_get_lock (t : latched) (fold : Z) : res nat :=
  let! _ := ut_a (bool_decide (type t = HASH_TABLE_SYNC_RW_LOCK)) in
  let! i := hash_get_sync_obj_index t fold in hash_get_nth_lock t i.

(** An access of a latch.  [XWait] is the second half of [XLock]: the latch is
    reserved and the readers have to leave.  [Owned] is [ut_ad(mutex_own())]. *)
Inductive act := SLock (i : nat) | XLock (i : nat) | XWait (i : nat) | SUnlock (i : nat) | XUnlock (i : nat) | Owned (i : nat).

#[export] Instance act_eq_dec : EqDecision act.
Proof. solve_decision. Defined.

Notation all t := (seq 0 (Z.to_nat (n_sync_obj t))).

(** hash0hash.cc, lines 42-66. *)
Definition hash_mutex_enter (t : latched) (fold : Z) : res (list act) :=
  let! _ := ut_a (bool_decide (type t = HASH_TABLE_SYNC_MUTEX)) in
  let! i := hash_get_mutex t fold in Ok [XLock i].
Definition hash_mutex_exit (t : latched) (fold : Z) : res (list act) :=
  let! _ := ut_a (bool_decide (type t = HASH_TABLE_SYNC_MUTEX)) in
  let! i := hash_get_mutex t fold in Ok [XUnlock i].

(** Lines 68-123. *)
Definition hash_mutex_enter_all (t : latched) : res (list act) :=
  let! _ := ut_a (bool_decide (type t = HASH_TABLE_SYNC_MUTEX)) in Ok (XLock <$> all t).
Definition hash_mutex_exit_all (t : latched) : res (list act) :=
  let! _ := ut_a (bool_decide (type t = HASH_TABLE_SYNC_MUTEX)) in Ok (XUnlock <$> all t).
Definition hash_mutex_exit_all_but (t : latched) (keep : nat) : res (list act) :=
  let! _ := ut_a (bool_decide (type t = HASH_TABLE_SYNC_MUTEX)) in
  Ok ((XUnlock <$> filter (.≠ keep) (all t)) ++ [Owned keep]).

(** Lines 125-213. *)
Definition hash_lock_s (t : latched) (fold : Z) : res (list act) := let! i := hash_get_lock t fold in Ok [SLock i].
Definition hash_lock_x (t : latched) (fold : Z) : res (list act) := let! i := hash_get_lock t fold in Ok [XLock i].
Definition hash_unlock_s (t : latched) (fold : Z) : res (list act) := let! i := hash_get_lock t fold in Ok [SUnlock i].
Definition hash_unlock_x (t : latched) (fold : Z) : res (list act) := let! i := hash_get_lock t fold in Ok [XUnlock i].

(** Lines 215-283; the loop that keeps a lock asserts that it is owned too. *)
Definition hash_lock_x_all (t : latched) : res (list act) :=
  let! _ := ut_a (bool_decide (type t = HASH_TABLE_SYNC_RW_LOCK)) in Ok (XLock <$> all t).
Definition hash_unlock_x_all (t : latched) : res (list act) :=
  let! _ := ut_a (bool_decide (type t = HASH_TABLE_SYNC_RW_LOCK)) in Ok (XUnlock <$> all t).
Definition hash_unlock_x_all_but (t : latched) (keep : nat) : res (list act) :=
  let! _ := ut_a (bool_decide (type t = HASH_TABLE_SYNC_RW_LOCK)) in
  Ok ((fun i => if decide (i = keep) then Owned i else XUnlock i) <$> all t).

(** ** Threads *)

(** A latch: its readers and its exclusive owner. *)
Record latch := mkLatch { readers : gset nat; writer : option nat }.

(** The rest of what a thread does, [None] after a failed assertion. *)
Record state := mkState { latch_at : nat -> latch; thread : nat -> option (list act) }.

Definition goto (t : nat) (l : option (list act)) (s : state) : state := mkState (latch_at s) (upd (thread s) t l).
Definition set_latch (i : nat) (l : latch) (s : state) : state := mkState (upd (latch_at s) i l) (thread s).

(** [rw_lock_own], [mutex_own] *)
Definition owns (t : nat) (l : latch) : bool := bool_decide (t ∈ readers l) || bool_decide (writer l = Some t).

(** One access of thread [t]; [None] when it waits or has returned. *)
Definition access_step (t : nat) (s : state) : option state :=
  match thread s t with
  | None | Some [] => None
  | Some (a :: k) =>
      match a with
      | SLock i =>
          let l := latch_at s i in
          if owns t l then Some (goto t None s)
          else if bool_decide (writer l = None) then Some (goto t (Some k) (set_latch i (mkLatch ({[t]} ∪ readers l) None) s))
          else None
      | XLock i =>
          let l := latch_at s i in
          if owns t l then Some (goto t None s)
          else if bool_decide (writer l = None) then Some (goto t (Some (XWait i :: k)) (set_latch i (mkLatch (readers l) (Some t)) s))
          else None
      | XWait i => if bool_decide (readers (latch_at s i) = ∅) then Some (goto t (Some k) s) else None
      | SUnlock i =>
          let l := latch_at s i in
          if bool_decide (t ∈ readers l) then Some (goto t (Some k) (set_latch i (mkLatch (readers l ∖ {[t]}) (writer l)) s))
          else Some (goto t None s)
      | XUnlock i =>
          let l := latch_at s i in
          if bool_decide (writer l = Some t) then Some (goto t (Some k) (set_latch i (mkLatch (readers l) None) s))
          else Some (goto t None s)
      | Owned i => Some (goto t (if bool_decide (writer (latch_at s i) = Some t) then Some k else None) s)
      end
  end.

Definition init (program : nat -> list act) : state :=
  mkState (fun _ => mkLatch ∅ None) (fun t => Some (program t)).

(** What a caller does with a table: it locks one cell or all of them, and
    leaves either at once or keeping one lock a little longer. *)
Inductive session := LockS (fold : Z) | LockX (fold : Z) | LockAll | LockAllBut (fold : Z)
| Mutex (fold : Z) | MutexAll | MutexAllBut (fold : Z).

Definition session_acts (t : latched) (c : session) : res (list act) :=
  match c with
  | LockS f => let! a := hash_lock_s t f in let! b := hash_unlock_s t f in Ok (a ++ b)
  | LockX f => let! a := hash_lock_x t f in let! b := hash_unlock_x t f in Ok (a ++ b)
  | LockAll => let! a := hash_lock_x_all t in let! b := hash_unlock_x_all t in Ok (a ++ b)
  | LockAllBut f =>
      let! a := hash_lock_x_all t in let! i := hash_get_lock t f in
      let! b := hash_unlock_x_all_but t i in let! c := hash_unlock_x t f in Ok (a ++ b ++ c)
  | Mutex f => let! a := hash_mutex_enter t f in let! b := hash_mutex_exit t f in Ok (a ++ b)
  | MutexAll => let! a := hash_mutex_enter_all t in let! b := hash_mutex_exit_all t in Ok (a ++ b)
  | MutexAllBut f =>
      let! a := hash_mutex_enter_all t in let! i := hash_get_mutex t f in
      let! b := hash_mutex_exit_all_but t i in let! c := hash_mutex_exit t f in Ok (a ++ b ++ c)
  end.

Fixpoint sessions_acts (t : latched) (cs : list session) : res (list act) :=
  match cs with
  | [] => Ok []
  | c :: cs => let! a := session_acts t c in let! b := sessions_acts t cs in Ok (a ++ b)
  end.

(** ** The order of the accesses *)

Definition above (i : nat) (held : gset nat) : Prop := forall j, j ∈ held -> (j < i)%nat.

(** A run of accesses takes latches above those it has and gives back what it
    has; [rs] and [xs] are the shared and exclusive ones before, [rs'] and
    [xs'] those behind it. *)
Fixpoint flows (l : list act) (rs xs rs' xs' : gset nat) : Prop :=
  match l with
  | [] => rs = rs' /\ xs = xs'
  | SLock i :: l => above i (rs ∪ xs) /\ flows l ({[i]} ∪ rs) xs rs' xs'
  | XLock i :: l => above i (rs ∪ xs) /\ flows l rs ({[i]} ∪ xs) rs' xs'
  | XWait i :: l => i ∈ xs /\ above i (rs ∪ xs ∖ {[i]}) /\ flows l rs xs rs' xs'
  | SUnlock i :: l => i ∈ rs /\ flows l (rs ∖ {[i]}) xs rs' xs'
  | XUnlock i :: l => i ∈ xs /\ flows l rs (xs ∖ {[i]}) rs' xs'
  | Owned i :: l => i ∈ xs /\ flows l rs xs rs' xs'
  end.

Lemma flows_app a b : forall r x r1 x1 r2 x2,
  flows a r x r1 x1 -> flows b r1 x1 r2 x2 -> flows (a ++ b) r x r2 x2.
Proof. induction a as [|[] a IH]; cbn; intros; destruct_and?; subst; eauto 6. Qed.

(** The loops over all latches. *)
Lemma flows_lock n : forall a xs,
  above a xs -> flows (XLock <$> seq a n) ∅ xs ∅ (xs ∪ list_to_set (seq a n)).
Proof.
  induction n as [|n IH]; intros a xs Ha; cbn; [split; set_solver|]. split; [by rewrite union_empty_l_L|].
  rewrite (assoc_L (∪)), (comm_L (∪) xs). apply IH.
  intros j [->%elem_of_singleton|Hj%Ha]%elem_of_union; lia.
Qed.

Lemma flows_unlock l : forall xs, NoDup l -> list_to_set l ⊆ xs -> flows (XUnlock <$> l) ∅ xs ∅ (xs ∖ list_to_set l).
Proof.
  induction l as [|i l IH]; intros xs Hl Hs; cbn in *; [split; set_solver|]. apply NoDup_cons in Hl as [Hi Hl].
  split; [set_solver|]. rewrite <- difference_difference_l_L. apply IH; [done|set_solver].
Qed.

(** Whoever is about to release latches has them. *)
Lemma flows_unlock_all l : forall k rs xs xs', flows ((XUnlock <$> l) ++ k) rs xs ∅ xs' -> forall i, i ∈ l -> i ∈ xs.
Proof.
  induction l as [|j l IH]; cbn; intros k rs xs xs' Hf i Hi; [set_solver|]. destruct Hf as [Hj Hf].
  apply elem_of_cons in Hi as [->|Hi]; [done|]. specialize (IH _ _ _ _ Hf i Hi). set_solver.
Qed.

Lemma flows_unlock_but keep l : forall xs, NoDup l -> list_to_set l ⊆ xs -> keep ∈ xs ->
  flows ((fun i => if decide (i = keep) then Owned i else XUnlock i) <$> l) ∅ xs ∅ (xs ∖ (list_to_set l ∖ {[keep]})).
Proof.
  induction l as [|i l IH]; intros xs Hl Hs Hk; cbn in *; [split; set_solver|]. apply NoDup_cons in Hl as [Hi Hl].
  assert (i ∈ xs) as Hix by set_solver. destruct (decide (i = keep)) as [->|Hne].
  - split; [done|]. replace (({[keep]} ∪ list_to_set l) ∖ {[keep]}) with (list_to_set (C:=gset nat) l ∖ {[keep]}) by set_solver.
    apply IH; [done|set_solver|done].
  - split; [done|]. replace (({[i]} ∪ list_to_set l) ∖ {[keep]}) with ({[i]} ∪ list_to_set (C:=gset nat) l ∖ {[keep]}) by set_solver.
    rewrite <- difference_difference_l_L. apply IH; [done|set_solver|set_solver].
Qed.

(** A table with latches, and the sessions its kind of latch has. *)
Definition latched_ok (t : latched) : Prop :=
  type t <> HASH_TABLE_SYNC_NONE /\ exists k, 0 <= k < 64 /\ n_sync_obj t = 2 ^ k.

Definition fits (t : latched) (c : session) : Prop :=
  match c with
  | LockS _ | LockX _ | LockAll | LockAllBut _ => type t = HASH_TABLE_SYNC_RW_LOCK
  | Mutex _ | MutexAll | MutexAllBut _ => type t = HASH_TABLE_SYNC_MUTEX
  end.

(** The latch of a folded value. *)
Definition latch_of (t : latched) (fold : Z) : nat :=
  Z.to_nat (ut_2pow_remainder (hash_calc_hash fold (cells t)) (n_sync_obj t)).

Lemma power_masks k : 0 <= k < 64 -> u64 (2 ^ k - 1) = Z.ones k /\ ut_is_2pow (2 ^ k) = true.
Proof.
  intros Hk. pose proof (Z.pow_pos_nonneg 2 k). pose proof (Z.pow_lt_mono_r 2 k 64).
  assert (u64 (2 ^ k - 1) = Z.ones k) as E by (rewrite u64_small by lia; by rewrite Z.ones_equiv, Z.sub_1_r).
  split; [done|]. unfold ut_is_2pow. rewrite E, Z.land_ones by lia. by rewrite Z.mod_same by lia.
Qed.

Lemma latch_of_lt t fold : latched_ok t -> Z.of_nat (latch_of t fold) < n_sync_obj t.
Proof.
  intros (_ & k & Hk & E). unfold latch_of, ut_2pow_remainder. rewrite E, (proj1 (power_masks k Hk)), Z.land_ones by lia.
  pose proof (Z.mod_pos_bound (hash_calc_hash fold (cells t)) (2 ^ k) ltac:(apply Z.pow_pos_nonneg; lia)). lia.
Qed.

Lemma index_ok t fold : latched_ok t -> hash_get_sync_obj_index t fold = Ok (latch_of t fold).
Proof.
  intros (Ht & k & Hk & E). unfold hash_get_sync_obj_index. rewrite bool_decide_eq_false_2 by done.
  cbn [negb ut_a rbind]. assert (ut_is_2pow (n_sync_obj t) = true) as -> by (rewrite E; by apply power_masks). done.
Qed.

Lemma get_lock_ok t fold : latched_ok t -> type t = HASH_TABLE_SYNC_RW_LOCK -> hash_get_lock t fold = Ok (latch_of t fold).
Proof.
  intros Hok Ht. unfold hash_get_lock. rewrite (bool_decide_eq_true_2 _ Ht). cbn [ut_a rbind]. rewrite index_ok by done.
  cbn [rbind]. unfold hash_get_nth_lock. rewrite (bool_decide_eq_true_2 _ Ht). cbn [ut_a rbind].
  by rewrite (proj2 (Z.ltb_lt _ _)) by (by apply latch_of_lt).
Qed.

Lemma get_mutex_ok t fold : latched_ok t -> type t = HASH_TABLE_SYNC_MUTEX -> hash_get_mutex t fold = Ok (latch_of t fold).
Proof.
  intros Hok Ht. unfold hash_get_mutex. rewrite index_ok by done.
  cbn [rbind]. unfold hash_get_nth_mutex. rewrite (bool_decide_eq_true_2 _ Ht). cbn [ut_a rbind].
  by rewrite (proj2 (Z.ltb_lt _ _)) by (by apply latch_of_lt).
Qed.

Lemma flows_one_s i : flows [SLock i; SUnlock i] ∅ ∅ ∅ ∅.
Proof. cbn. unfold above. set_solver. Qed.

Lemma flows_one_x i : flows [XLock i; XUnlock i] ∅ ∅ ∅ ∅.
Proof. cbn. unfold above. set_solver. Qed.

Lemma flows_lock_all n : flows (XLock <$> seq 0 n) ∅ ∅ ∅ (list_to_set (seq 0 n)).
Proof.
  rewrite <- (union_empty_l_L (list_to_set (seq 0 n))). apply flows_lock. intros j. set_solver.
Qed.

Lemma flows_all n : flows ((XLock <$> seq 0 n) ++ (XUnlock <$> seq 0 n)) ∅ ∅ ∅ ∅.
Proof.
  eapply flows_app; [apply flows_lock_all|].
  pose proof (flows_unlock (seq 0 n) _ (NoDup_seq 0 n) (reflexivity (list_to_set (seq 0 n)))) as H.
  by rewrite difference_diag_L in H.
Qed.

(** All latches but [i] are given back, then [i]. *)
Lemma flows_all_but n i mid :
  (forall X : gset nat, X = list_to_set (seq 0 n) -> flows mid ∅ X ∅ (X ∖ (X ∖ {[i]}))) -> (i < n)%nat ->
  flows ((XLock <$> seq 0 n) ++ mid ++ [XUnlock i]) ∅ ∅ ∅ ∅.
Proof.
  intros Hmid Hi. set (X := list_to_set (C:=gset nat) (seq 0 n)). eapply flows_app; [apply flows_lock_all|].
  eapply flows_app; [by apply Hmid|]. fold X.
  assert (i ∈ X) by (unfold X; rewrite elem_of_list_to_set, elem_of_seq; lia). cbn. split_and!; [set_solver|done|].
  apply set_eq. intros z. split; [|set_solver]. intros [[Hz Hn]%elem_of_difference Hi']%elem_of_difference.
  exfalso. apply Hn. set_solver.
Qed.

(** A session returns every latch it takes. *)
Lemma session_flows t c : latched_ok t -> fits t c ->
  exists l, session_acts t c = Ok l /\ flows l ∅ ∅ ∅ ∅.
Proof.
  intros Hok Hf. assert (forall f, (latch_of t f < Z.to_nat (n_sync_obj t))%nat) as Hlt
    by (intros f; pose proof (latch_of_lt t f Hok); lia).
  destruct c; cbn in *;
    unfold hash_lock_s, hash_unlock_s, hash_lock_x, hash_unlock_x, hash_mutex_enter, hash_mutex_exit,
      hash_lock_x_all, hash_unlock_x_all, hash_unlock_x_all_but, hash_mutex_enter_all, hash_mutex_exit_all, hash_mutex_exit_all_but;
    rewrite ?get_lock_ok, ?get_mutex_ok, ?bool_decide_eq_true_2 by done; (eexists; split; [reflexivity|]).
  - apply flows_one_s.
  - apply flows_one_x.
  - apply flows_all.
  - apply flows_all_but; [|done]. intros X ->. apply flows_unlock_but; [apply NoDup_seq|done|].
    rewrite elem_of_list_to_set, elem_of_seq. specialize (Hlt fold). lia.
  - apply flows_one_x.
  - apply flows_all.
  - apply flows_all_but; [|done]. intros X ->. eapply flows_app.
    + apply flows_unlock; [apply NoDup_filter, NoDup_seq|]. intros j. rewrite !elem_of_list_to_set, list_elem_of_filter. tauto.
    + specialize (Hlt fold). cbn. split_and!; [|done|].
      * rewrite elem_of_difference, !elem_of_list_to_set, list_elem_of_filter, elem_of_seq. split; [lia|]. tauto.
      * f_equal. apply set_eq. intros j. rewrite elem_of_difference, !elem_of_list_to_set, list_elem_of_filter, elem_of_singleton. tauto.
Qed.

Lemma sessions_flow t cs : latched_ok t -> Forall (fits t) cs ->
  exists l, sessions_acts t cs = Ok l /\ flows l ∅ ∅ ∅ ∅.
Proof.
  intros Hok. induction 1 as [|c cs Hc _ (b & Eb & Fb)]; cbn; [by eexists|].
  destruct (session_flows t c Hok Hc) as (a & -> & Fa). cbn [rbind]. rewrite Eb. eexists. split; [reflexivity|].
  by eapply flows_app.
Qed.

(** ** Any number of threads *)

(** What a thread waits for. *)
Definition waits_at (l : list act) : option nat :=
  match l with SLock i :: _ | XLock i :: _ | XWait i :: _ => Some i | _ => None end.

(** The sets of latches a thread has. *)
Record holds (s : state) (t : nat) (rs xs : gset nat) : Prop := Holds {
  holds_s : forall i, i ∈ rs <-> t ∈ readers (latch_at s i);
  holds_x : forall i, i ∈ xs <-> writer (latch_at s i) = Some t }.

Section threads.
Context (programs : list (list act)) (Hprograms : Forall (fun l => flows l ∅ ∅ ∅ ∅) programs).

Definition program (t : nat) : list act := default [] (programs !! t).

Definition step (s s' : state) : Prop := exists t, access_step t s = Some s'.

Record inv (s : state) : Prop := Inv {
  inv_thread : forall t, exists l rs xs, thread s t = Some l /\ flows l rs xs ∅ ∅ /\ holds s t rs xs;
  inv_excl : forall i t, writer (latch_at s i) = Some t ->
    readers (latch_at s i) = ∅ \/ exists k, thread s t = Some (XWait i :: k);
  inv_outside : forall t, (length programs <= t)%nat -> thread s t = Some [] }.

Lemma hash_init_inv : inv (init program).
Proof using Hprograms.
  constructor; cbn; [|done|].
  - intros t. exists (program t), ∅, ∅. split; [done|]. split; [|by constructor; cbn; set_solver].
    unfold program. destruct (programs !! t) eqn:E; cbn; [|done]. by eapply (Forall_lookup_1 _ _ _ _ Hprograms).
  - intros t Ht. unfold program. by rewrite lookup_ge_None_2.
Qed.

(** A thread that goes on within its rights keeps the invariant. *)
Lemma hash_inv_move s s' t k rs' xs' :
  inv s -> (t < length programs)%nat -> thread s' = upd (thread s) t (Some k) -> flows k rs' xs' ∅ ∅ -> holds s' t rs' xs' ->
  (forall u i, u <> t -> (u ∈ readers (latch_at s' i) <-> u ∈ readers (latch_at s i)) /\
    (writer (latch_at s' i) = Some u <-> writer (latch_at s i) = Some u)) ->
  (forall i u, writer (latch_at s' i) = Some u -> readers (latch_at s' i) = ∅ \/ exists k, thread s' u = Some (XWait i :: k)) ->
  inv s'.
Proof using Hprograms.
  intros [I1 I2 I3] Ht Eth Hfl Hh Hoth Hex. constructor; [|done|].
  - intros u. rewrite Eth. destruct (decide (t = u)) as [<-|Hne]; upd_cases; [by exists k, rs', xs'|].
    destruct (I1 u) as (l & rs & xs & E & Hf & [H1 H2]). exists l, rs, xs. split_and!; [done|done|].
    constructor; intros i; destruct (Hoth u i ltac:(done)) as [E1 E2]; rewrite ?E1, ?E2; auto.
  - intros u Hu. rewrite Eth. upd_cases; [lia|auto].
Qed.

Lemma owns_false t s i rs xs : holds s t rs xs -> i ∉ rs -> i ∉ xs -> owns t (latch_at s i) = false.
Proof. intros [H1 H2] Hr Hx. unfold owns. rewrite H1 in Hr. rewrite H2 in Hx. by rewrite !bool_decide_eq_false_2. Qed.

Lemma above_not_in i (X : gset nat) : above i X -> i ∉ X.
Proof. intros Ha Hi%Ha. lia. Qed.

Lemma inside s t a k : inv s -> thread s t = Some (a :: k) -> (t < length programs)%nat.
Proof. intros I E. destruct (decide (t < length programs)%nat); [done|]. rewrite (inv_outside _ I) in E by lia. done. Qed.

(** A change of one latch that does not concern thread [u]. *)
Lemma one_latch s i l u j :
  (u ∈ readers l <-> u ∈ readers (latch_at s i)) -> (writer l = Some u <-> writer (latch_at s i) = Some u) ->
  (u ∈ readers (upd (latch_at s) i l j) <-> u ∈ readers (latch_at s j)) /\
  (writer (upd (latch_at s) i l j) = Some u <-> writer (latch_at s j) = Some u).
Proof. intros H1 H2. by upd_cases. Qed.

(** The parts of [hash_inv_move] for a change of one latch. *)
Ltac own_latch := constructor; cbn; intros; upd_cases; cbn; set_solver.
Ltac other_owners := intros; cbn; apply one_latch; cbn; [set_solver|naive_solver].
Ltac exclusive Hex := intros ? ?; cbn; upd_cases; cbn; try done; intros Hw;
  first [destruct (Hex _ _ Hw) as [Hr|[? ?]]; [left; set_solver|first [congruence|right; by eauto]]|naive_solver].

Lemma hash_step_inv s s' : inv s -> step s s' -> inv s'.
Proof using Hprograms.
  intros I (t & Hst). destruct (inv_thread _ I t) as (l & rs & xs & E & Hf & Hh). unfold access_step in Hst. rewrite E in Hst.
  destruct l as [|a k]; [done|]. pose proof (inside _ _ _ _ I E) as Ht. pose proof Hh as [H1 H2].
  pose proof (inv_excl _ I) as Hex. destruct a as [i|i|i|i|i|i]; cbn in Hf.
  - destruct Hf as [Ha%above_not_in Hf]. rewrite (owns_false _ _ _ _ _ Hh) in Hst by set_solver.
    case_bool_decide as Ew; [|done]. injection Hst as <-. eapply (hash_inv_move s _ t k ({[i]} ∪ rs) xs); try done.
    + own_latch.
    + other_owners.
    + exclusive Hex.
  - destruct Hf as [Ha Hf]. pose proof (above_not_in _ _ Ha) as Hi. rewrite (owns_false _ _ _ _ _ Hh) in Hst by set_solver.
    case_bool_decide as Ew; [|done]. injection Hst as <-. eapply (hash_inv_move s _ t (XWait i :: k) rs ({[i]} ∪ xs)); try done.
    + cbn. split_and!; [set_solver| |done]. intros j Hj. apply Ha. set_solver.
    + own_latch.
    + other_owners.
    + exclusive Hex.
  - destruct Hf as (Hi & Ha & Hf). case_bool_decide as Er; [|done]. injection Hst as <-.
    eapply (hash_inv_move s _ t k rs xs); try done. exclusive Hex.
  - destruct Hf as [Hi Hf]. rewrite bool_decide_eq_true_2 in Hst by (by apply H1). injection Hst as <-.
    eapply (hash_inv_move s _ t k (rs ∖ {[i]}) xs); try done.
    + own_latch.
    + other_owners.
    + exclusive Hex.
  - destruct Hf as [Hi Hf]. rewrite bool_decide_eq_true_2 in Hst by (by apply H2). injection Hst as <-.
    apply H2 in Hi. eapply (hash_inv_move s _ t k rs (xs ∖ {[i]})); try done.
    + own_latch.
    + other_owners.
    + exclusive Hex.
  - destruct Hf as [Hi Hf]. rewrite bool_decide_eq_true_2 in Hst by (by apply H2). injection Hst as <-.
    eapply (hash_inv_move s _ t k rs xs); try done. exclusive Hex.
Qed.

(** *** Progress *)

Lemma not_waiting s t a k : inv s -> thread s t = Some (a :: k) -> waits_at (a :: k) = None -> exists s', step s s'.
Proof.
  intros I E Hw. destruct (access_step t s) as [s'|] eqn:Es; [by exists s', t|]. exfalso. revert Es. unfold access_step. rewrite E.
  destruct a; cbn in *; try done; by case_bool_decide.
Qed.

(** A thread that waits and cannot go on waits for an owner of the latch: one
    that has it exclusively, or a reader when it is reserved itself. *)
Lemma blocked_by s t l i : inv s -> thread s t = Some l -> waits_at l = Some i -> access_step t s = None ->
  exists u, u <> t /\ (u ∈ readers (latch_at s i) \/ (writer (latch_at s i) = Some u /\ head l <> Some (XWait i))).
Proof.
  intros I E Hw Hs. destruct (inv_thread _ I t) as (l' & rs & xs & E' & Hf & [H1 H2]). rewrite E in E'. injection E' as <-.
  unfold access_step in Hs. rewrite E in Hs. destruct l as [|[] k]; cbn in *; try done; injection Hw as ->.
  1,2: destruct (owns t (latch_at s i)); [done|]; case_bool_decide as Ew; [done|];
    destruct (writer (latch_at s i)) as [u|] eqn:Eu; [|done]; exists u; split; [|by right];
    intros ->; destruct Hf as [Ha%above_not_in _]; apply Ha; set_solver.
  case_bool_decide as Er; [done|]. apply set_choose_L in Er as [u Hu]. exists u. split; [|by left].
  intros ->. destruct Hf as (Hi & Ha & _). apply H1 in Hu. specialize (Ha i ltac:(set_solver)). lia.
Qed.

(** An owner of a latch is at work, and waits only for a higher one, or for the
    readers of this one. *)
Lemma owner_waits s u i : inv s -> u ∈ readers (latch_at s i) \/ writer (latch_at s i) = Some u ->
  exists l, thread s u = Some l /\ l <> [] /\
    forall j, waits_at l = Some j -> (i < j)%nat \/ (i = j /\ head l = Some (XWait i) /\ u ∉ readers (latch_at s i)).
Proof.
  intros I Ho. destruct (inv_thread _ I u) as (l & rs & xs & E & Hf & [H1 H2]). exists l. split; [done|].
  rewrite <- H1, <- H2 in Ho. split; [intros ->; destruct Hf as [-> ->]; set_solver|].
  intros j Hw. destruct l as [|[] k]; cbn in *; try done; injection Hw as ->.
  1,2: left; destruct Hf as [Ha _]; apply Ha; set_solver.
  destruct Hf as (Hj & Ha & _). destruct (decide (i = j)) as [<-|Hne]; [right|left; apply Ha; set_solver].
  split_and!; [done|done|]. rewrite <- H1. intros Hi. specialize (Ha i ltac:(set_solver)). lia.
Qed.

Definition max_wait (s : state) : nat :=
  max_list ((fun t => default 0%nat (waits_at (default [] (thread s t)))) <$> seq 0 (length programs)).

Lemma max_wait_le s t l i : inv s -> thread s t = Some l -> waits_at l = Some i -> (i <= max_wait s)%nat.
Proof.
  intros I E Hw. apply max_list_elem_of_le, list_elem_of_fmap. exists t. rewrite E. cbn. rewrite Hw. split; [done|].
  apply elem_of_seq. destruct l as [|a k]; [done|]. pose proof (inside _ _ _ _ I E). lia.
Qed.

(** Whoever waits, someone can go on: the latches are taken in ascending order. *)
Lemma waiting_progress s : inv s -> forall n t l i,
  thread s t = Some l -> waits_at l = Some i -> (max_wait s - i <= n)%nat -> exists s', step s s'.
Proof.
  intros I n. induction n as [n IH] using lt_wf_ind. intros t l i E Hw Hn.
  assert (forall u v k, u ∈ readers (latch_at s i) \/ writer (latch_at s i) = Some u -> thread s u = Some v ->
    waits_at v = Some k -> (i < k)%nat -> exists s', step s s') as Hup.
  { intros u v k _ Ev Hk Hlt. pose proof (max_wait_le _ _ _ _ I Ev Hk). apply (IH (n - 1)%nat ltac:(lia) u v k); (done || lia). }
  assert (forall u, u ∈ readers (latch_at s i) -> exists s', step s s') as Hreader.
  { intros u Hu. destruct (owner_waits s u i I (or_introl Hu)) as (v & Ev & Hv & Hwait). destruct v as [|a k]; [done|].
    destruct (waits_at (a :: k)) as [j|] eqn:Ej; [|by eapply not_waiting].
    destruct (Hwait j eq_refl) as [Hlt|(_ & _ & Hno)]; [eauto|done]. }
  destruct (access_step t s) as [s'|] eqn:Es; [by exists s', t|].
  destruct (blocked_by s t l i I E Hw Es) as (u & _ & [Hu|[Hu _]]); [eauto|].
  destruct (owner_waits s u i I (or_intror Hu)) as (v & Ev & Hv & Hwait). destruct v as [|a k]; [done|].
  destruct (waits_at (a :: k)) as [j|] eqn:Ej; [|by eapply not_waiting].
  destruct (Hwait j eq_refl) as [Hlt|(<- & Hd & _)]; [eauto|].
  destruct (access_step u s) as [s'|] eqn:Es'; [by exists s', u|].
  destruct (blocked_by s u _ i I Ev Ej Es') as (w & _ & [Hr|[_ Hh]]); [eauto|done].
Qed.

Lemma hash_progress s t l : inv s -> thread s t = Some l -> l <> [] -> exists s', step s s'.
Proof.
  intros I E Hl. destruct l as [|a k]; [done|]. destruct (waits_at (a :: k)) as [i|] eqn:Ew; [|by eapply not_waiting].
  by eapply waiting_progress.
Qed.

(** *** The number of transitions *)

Definition cost (l : list act) : Z := zsum ((fun a => match a with XLock _ => 2 | _ => 1 end) <$> l).

Lemma cost_cons a k : cost (a :: k) = (match a with XLock _ => 2 | _ => 1 end) + cost k.
Proof. done. Qed.

Lemma cost_nonneg l : 0 <= cost l.
Proof. induction l as [|a l IH]; [done|]. rewrite cost_cons. destruct a; lia. Qed.

Definition costs (s : state) : Z := tsum (length programs) (fun t => cost (default [] (thread s t))).

Lemma step_cost s s' : inv s -> step s s' -> costs s' < costs s.
Proof.
  intros I (t & Hst). destruct (inv_thread _ I t) as (l & rs & xs & E & _ & _).
  assert (exists l', thread s' = upd (thread s) t l' /\ cost (default [] l') < cost l) as (l' & Eth & Hlt).
  { unfold access_step in Hst. rewrite E in Hst. destruct l as [|a k]; [done|]. pose proof (cost_nonneg k).
    destruct a; repeat case_match; simplify_eq; (eexists; split; [reflexivity|]);
      cbn [from_option id]; rewrite ?cost_cons; change (cost []) with 0; lia. }
  assert (t < length programs)%nat as Ht.
  { destruct l as [|a k]; [change (cost []) with 0 in Hlt; pose proof (cost_nonneg (default [] l')); lia|by eapply inside]. }
  unfold costs. rewrite Eth, (tsum_change _ (fun u => cost (default [] (thread s u)))
    (fun u => cost (default [] (upd (thread s) t l' u))) t Ht) by (intros u Hu; by rewrite upd_ne).
  cbv beta. rewrite upd_eq, E. change (default [] (Some l)) with l. lia.
Qed.

Lemma hash_reachable k s : nsteps step k (init program) s -> inv s /\ Z.of_nat k + costs s <= costs (init program).
Proof using Hprograms.
  revert s. induction k as [|k IH]; intros s Hs.
  - inversion Hs; subst. split; [apply hash_init_inv|lia].
  - apply nsteps_inv_r in Hs as (s1 & Hs1 & Hst). destruct (IH s1 Hs1) as [I Hr].
    split; [by eapply hash_step_inv|]. pose proof (step_cost _ _ I Hst). lia.
Qed.
End threads.

(** ** The functions of hash0hash.cc *)

(** The accesses of the threads that run the sessions of [scripts]. *)
Fixpoint scripts_acts (t : latched) (scripts : list (list session)) : res (list (list act)) :=
  match scripts with
  | [] => Ok []
  | cs :: rest => let! a := sessions_acts t cs in let! b := scripts_acts t rest in Ok (a :: b)
  end.

Lemma scripts_flow t scripts : latched_ok t -> Forall (Forall (fits t)) scripts ->
  exists programs, scripts_acts t scripts = Ok programs /\ Forall (fun l => flows l ∅ ∅ ∅ ∅) programs.
Proof.
  intros Hok. induction 1 as [|cs rest Hc _ (b & Eb & Fb)]; cbn; [by eexists|].
  destruct (sessions_flow t cs Hok Hc) as (a & -> & Fa). cbn [rbind]. rewrite Eb. eexists. split; [reflexivity|]. by constructor.
Qed.

(** C37: Threads that lock single cells and whole tables, in any number and any
    interleaving, never fail an assertion and never wait for each other in a
    circle: as long as one of them has not returned some thread can go on, and
    all of them return after a bounded number of accesses. *)
Theorem hash_latches_progress t scripts :
  latched_ok t -> Forall (Forall (fits t)) scripts ->
  exists programs, scripts_acts t scripts = Ok programs /\
    forall k s, nsteps step k (init (program programs)) s ->
      Z.of_nat k <= zsum (cost <$> programs) /\ (forall u, thread s u <> None) /\
      ((exists s', step s s') \/ forall u, thread s u = Some []).
Proof.
  intros Hok Hfit. destruct (scripts_flow t scripts Hok Hfit) as (programs & E & Hfl). exists programs. split; [done|].
  intros k s Hs. destruct (hash_reachable programs Hfl k s Hs) as [I Hk]. split_and!.
  - assert (costs programs (init (program programs)) = zsum (cost <$> programs)) as <-.
    { unfold costs, tsum. f_equal. apply list_eq. intros i. rewrite list_lookup_fmap.
      change map with (@fmap list _ nat Z). rewrite list_lookup_fmap. destruct (programs !! i) as [l|] eqn:El.
      - rewrite lookup_seq_lt by (by apply lookup_lt_Some in El). cbn. unfold program. by rewrite El.
      - rewrite lookup_seq_ge by (by apply lookup_ge_None_1 in El). done. }
    pose proof (tsum_nonneg (length programs) (fun u => cost (default [] (thread s u))) (fun u => cost_nonneg _)).
    unfold costs in *. lia.
  - intros u. destruct (inv_thread _ _ I u) as (l & _ & _ & -> & _). done.
  - destruct (decide (Forall (fun u => thread s u = Some []) (seq 0 (length programs)))) as [Hall|Hnot].
    + right. intros u. destruct (decide (u < length programs)%nat); [|apply (inv_outside _ _ I); lia].
      rewrite Forall_forall in Hall. apply Hall, elem_of_seq. lia.
    + left. apply not_Forall_Exists in Hnot; [|apply _]. apply Exists_exists in Hnot as (u & _ & Hu).
      destruct (inv_thread _ _ I u) as (l & _ & _ & El & _). eapply hash_progress; [done..|]. by intros ->.
Qed.

(** A thread has a latch exclusively when it has reserved it and the readers
    have left. *)
Definition has_exclusive (s : state) (u i : nat) : Prop :=
  writer (latch_at s i) = Some u /\ forall k, thread s u <> Some (XWait i :: k).

(** While a thread has the latch of a folded value exclusively, no other thread
    has a latch of any value of the same cell, shared or exclusive; and a thread
    that is about to release all latches has every one of them. *)
Theorem hash_latches_protect t scripts programs s u :
  latched_ok t -> type t = HASH_TABLE_SYNC_RW_LOCK -> Forall (Forall (fits t)) scripts -> scripts_acts t scripts = Ok programs ->
  rtc step (init (program programs)) s ->
  (forall f g v i j, hash_get_lock t f = Ok i -> hash_get_lock t g = Ok j -> hash_calc_hash f (cells t) = hash_calc_hash g (cells t) ->
    has_exclusive s u i -> v <> u -> owns v (latch_at s j) = false) /\
  (forall rel rest f i, hash_unlock_x_all t = Ok rel -> thread s u = Some (rel ++ rest) -> hash_get_lock t f = Ok i ->
    has_exclusive s u i).
Proof.
  intros Hok Ht Hfit E Hs. destruct (scripts_flow t scripts Hok Hfit) as (programs' & E' & Hfl). rewrite E in E'. injection E' as <-.
  assert (inv programs s) as I.
  { eapply rtc_invariant; [by apply hash_init_inv|intros ? ?; by apply hash_step_inv|done]. }
  split.
  - intros f g v i j Ei Ej Heq [Hw Hx] Hv. rewrite get_lock_ok in Ei, Ej by done. injection Ei as <-. injection Ej as <-.
    assert (latch_of t g = latch_of t f) as -> by (unfold latch_of; by rewrite Heq).
    destruct (inv_excl _ _ I _ _ Hw) as [Hr|[k Hk]]; [|by destruct (Hx k)].
    unfold owns. rewrite Hr, Hw, !bool_decide_eq_false_2; [done|congruence|set_solver].
  - intros rel rest f i Erel Eth Ei. rewrite get_lock_ok in Ei by done. injection Ei as <-.
    unfold hash_unlock_x_all in Erel. rewrite (bool_decide_eq_true_2 _ Ht) in Erel. cbn in Erel. injection Erel as <-.
    destruct (inv_thread _ _ I u) as (l & rs & xs & El & Hf & [_ H2]). rewrite Eth in El. injection El as <-.
    pose proof (latch_of_lt t f Hok) as Hlt. pose proof (flows_unlock_all _ _ _ _ _ Hf (latch_of t f)) as Hin. split.
    + apply H2, Hin, elem_of_seq. lia.
    + intros k Hk. rewrite Eth in Hk. destruct (Z.to_nat (n_sync_obj t)) eqn:En; [lia|]. cbn in Hk. congruence.
Qed.

(** ** Three threads and a table of five cells with two latches *)

Definition small_table : latched := mkLatched (mkTable (replicate 5 None)) HASH_TABLE_SYNC_RW_LOCK 2.
Definition small_scripts : list (list session) := [[LockAll; LockS 7]; [LockX 3]; [LockAllBut 4]].

Fixpoint run (sched : list nat) (s : state) : option state :=
  match sched with
  | [] => Some s
  | t :: rest => s' ← access_step t s; run rest s'
  end.

Lemma hash_run_rtc sched : forall s s', run sched s = Some s' -> rtc step s s'.
Proof.
  induction sched as [|t rest IH]; intros s s' Hr; cbn in Hr; [injection Hr as <-; constructor|].
  apply bind_Some in Hr as (s1 & E & Hr). econstructor; [by exists t|by apply IH].
Qed.

Lemma small_ok : latched_ok small_table.
Proof. split; [done|]. exists 1. split; [lia|done]. Qed.

Lemma hash_latches_progress_witness :
  exists programs, scripts_acts small_table small_scripts = Ok programs /\
    forall k s, nsteps step k (init (program programs)) s ->
      Z.of_nat k <= zsum (cost <$> programs) /\ (forall u, thread s u <> None) /\
      ((exists s', step s s') \/ forall u, thread s u = Some []).
Proof. apply hash_latches_progress; [exact small_ok|repeat constructor]. Defined.

(** The first thread has all latches; the second waits. *)
Lemma hash_latches_protect_witness :
  exists programs s, scripts_acts small_table small_scripts = Ok programs /\ rtc step (init (program programs)) s /\
    access_step 1 s = None /\
    (forall f g v i j, hash_get_lock small_table f = Ok i -> hash_get_lock small_table g = Ok j ->
      hash_calc_hash f (cells small_table) = hash_calc_hash g (cells small_table) ->
      has_exclusive s 0 i -> v <> 0%nat -> owns v (latch_at s j) = false) /\
    (forall rel rest f i, hash_unlock_x_all small_table = Ok rel -> thread s 0 = Some (rel ++ rest) ->
      hash_get_lock small_table f = Ok i -> has_exclusive s 0 i).
Proof.
  destruct (scripts_acts small_table small_scripts) as [programs| |] eqn:E; [|vm_compute in E; discriminate E..].
  destruct (run [0; 0; 0; 0]%nat (init (program programs))) as [s|] eqn:Er;
    [|vm_compute in E; injection E as <-; vm_compute in Er; discriminate Er].
  assert (rtc step (init (program programs)) s) as Hs by (by eapply hash_run_rtc).
  exists programs, s. split; [done|]. split; [done|]. split.
  - vm_compute in E. injection E as <-. vm_compute in Er. injection Er as <-. vm_compute. reflexivity.
  - apply (hash_latches_protect small_table small_scripts programs s 0 small_ok eq_refl); [repeat constructor|done|done].
Defined.
End HashSync.
