(* ===== verification/Registries.v ===== *)
(** * Creating and freeing latches in the registries of the server

    What the creation and the release of mutexes ([MutexList]) and read-write
    locks ([RwList]) promise to the components that own latches: the registries
    grow by the new latches, which are free, shrink by the released ones, and
    nothing else changes.  Both relations compose, so that a component is
    described by the lists of its latches. *)
From stdpp Require Import strings.
From S2P Require Import Prelude Results UtList OsEvent MutexList RwLock RwList.
Local Open Scope Z_scope.

Module Registries.
Import UtList OsEvent.

(** Filters that keep everything, or nothing. *)
Lemma filter_keep (P : nat -> Prop) `{forall x, Decision (P x)} (l : list nat) : (forall x, x ∈ l -> P x) -> filter P l = l.
Proof.
  induction l as [|x l IH]; intros Hl; [done|]. rewrite filter_cons_True by (apply Hl; by left).
  f_equal. apply IH. intros y Hy. apply Hl. by right.
Qed.

Lemma filter_drop (P : nat -> Prop) `{forall x, Decision (P x)} (l : list nat) : (forall x, x ∈ l -> ~ P x) -> filter P l = [].
Proof.
  induction l as [|x l IH]; intros Hl; [done|]. rewrite filter_cons_False by (apply Hl; by left).
  apply IH. intros y Hy. apply Hl. by right.
Qed.

Lemma filter_not_one x (a b : list nat) : NoDup (a ++ x :: b) -> filter (.∉ [x]) (a ++ x :: b) = a ++ b.
Proof.
  intros (Ha & Hd & [Hb _]%NoDup_cons)%NoDup_app. rewrite filter_app, filter_cons_False, !filter_keep; set_solver.
Qed.

(** A loop over latches. *)
Local Open Scope mc_scope.

Fixpoint for_each {A S} (f : A -> S -> res S) (xs : list A) (s : S) : res S :=
  match xs with
  | [] => Ok s
  | x :: xs => let! s := f x s in for_each f xs s
  end.

Section registries.
(** The mutexes of the two registries, and the calling thread. *)
Context (mutex_list_mutex rw_lock_list_mutex : nat) (self : Z).

Notation mutex_at R y := (MutexList.mutexes (RwList.sync R) !! y).
Notation mutex_node R y := (nodes (MutexList.mutex_list (RwList.sync R)) !! y).
Notation lock_node R y := (nodes (RwList.rw_lock_list R) !! y).

Record regs (R : RwList.state) (ms ls : list nat) : Prop := Regs {
  re_mutexes : MutexList.registry mutex_list_mutex (RwList.sync R) ms;
  re_locks : RwList.registry rw_lock_list_mutex R ls }.

(** [R'] has the new mutexes [newm] and the new locks [newl]. *)
Record extends (R : RwList.state) (ms ls newm newl : list nat) (R' : RwList.state) : Prop := Extends {
  ex_regs : regs R' (newm ++ ms) (newl ++ ls);
  ex_idle : forall x, x ∈ newm -> MutexList.idle (RwList.sync R') x;
  ex_unlocked : forall x, x ∈ newl -> RwList.unlocked R' x;
  ex_mutexes : forall y, y ∉ newm -> mutex_at R' y = mutex_at R y;
  ex_locks : forall y, y ∉ newl -> RwList.rw_locks R' !! y = RwList.rw_locks R !! y;
  ex_prio : forall y, y ∉ newm -> MutexList.prio (RwList.sync R') !! y = MutexList.prio (RwList.sync R) !! y;
  ex_prio_locks : forall y, y ∉ newl -> RwList.prio_rw_locks R' !! y = RwList.prio_rw_locks R !! y;
  ex_mutex_nodes : forall y, is_Some (mutex_node R y) -> is_Some (mutex_node R' y);
  ex_lock_nodes : forall y, is_Some (lock_node R y) -> is_Some (lock_node R' y) }.

(** The mutexes [oldm] and the locks [oldl] are released. *)
Record freed (R : RwList.state) (ms ls oldm oldl : list nat) (R' : RwList.state) : Prop := Freed {
  fr_regs : regs R' (filter (.∉ oldm) ms) (filter (.∉ oldl) ls);
  fr_idle : forall y, y ∉ oldm -> MutexList.idle (RwList.sync R) y -> MutexList.idle (RwList.sync R') y;
  fr_unlocked : forall y, y ∉ oldl -> RwList.unlocked R y -> RwList.unlocked R' y;
  fr_prio : MutexList.prio (RwList.sync R') = MutexList.prio (RwList.sync R);
  fr_prio_locks : RwList.prio_rw_locks R' = RwList.prio_rw_locks R }.

Lemma idle_same s s' x : MutexList.mutexes s' !! x = MutexList.mutexes s !! x -> MutexList.idle s x -> MutexList.idle s' x.
Proof. unfold MutexList.idle. by intros ->. Qed.

Lemma unlocked_same s s' x : RwList.rw_locks s' !! x = RwList.rw_locks s !! x -> RwList.unlocked s x -> RwList.unlocked s' x.
Proof. unfold RwList.unlocked, RwList.valid. by intros ->. Qed.

Lemma extends_refl R ms ls : regs R ms ls -> extends R ms ls [] [] R.
Proof. intros Hr. constructor; try done; set_solver. Qed.

Lemma extends_trans R ms ls a b R1 c d R2 :
  extends R ms ls a b R1 -> extends R1 (a ++ ms) (b ++ ls) c d R2 -> extends R ms ls (c ++ a) (d ++ b) R2.
Proof.
  intros [A1 A2 A3 A4 A5 A6 A7 A8 A9] [B1 B2 B3 B4 B5 B6 B7 B8 B9]. constructor.
  - by rewrite <- !app_assoc.
  - intros x Hx. destruct (decide (x ∈ c)); [by apply B2|]. apply (idle_same (RwList.sync R1)); [by apply B4|]. apply A2. set_solver.
  - intros x Hx. destruct (decide (x ∈ d)); [by apply B3|]. apply (unlocked_same R1); [by apply B5|]. apply A3. set_solver.
  - intros y Hy. rewrite B4, A4 by set_solver. done.
  - intros y Hy. rewrite B5, A5 by set_solver. done.
  - intros y Hy. rewrite B6, A6 by set_solver. done.
  - intros y Hy. rewrite B7, A7 by set_solver. done.
  - auto.
  - auto.
Qed.

Lemma freed_refl R ms ls : regs R ms ls -> freed R ms ls [] [] R.
Proof.
  intros Hr. constructor; try done. rewrite !filter_keep; (done || set_solver).
Qed.

Lemma filter_not_in_app (a b l : list nat) : filter (.∉ b) (filter (.∉ a) l) = filter (.∉ a ++ b) l.
Proof. rewrite list_filter_filter. apply list_filter_iff. set_solver. Qed.

Lemma freed_trans R ms ls a b R1 c d R2 :
  freed R ms ls a b R1 -> freed R1 (filter (.∉ a) ms) (filter (.∉ b) ls) c d R2 -> freed R ms ls (a ++ c) (b ++ d) R2.
Proof.
  intros [A1 A2 A3 A4 A5] [B1 B2 B3 B4 B5]. constructor.
  - by rewrite <- !filter_not_in_app.
  - intros y Hy Hi. apply B2, A2; set_solver.
  - intros y Hy Hi. apply B3, A3; set_solver.
  - by rewrite B4.
  - by rewrite B5.
Qed.

(** Releasing what has been created restores the registries. *)
Lemma extends_freed R ms ls newm newl R1 oldm oldl R2 :
  extends R ms ls newm newl R1 -> freed R1 (newm ++ ms) (newl ++ ls) oldm oldl R2 ->
  (forall x, x ∈ oldm <-> x ∈ newm) -> (forall x, x ∈ oldl <-> x ∈ newl) -> regs R2 ms ls.
Proof.
  intros [[Hm Hl] _ _ _ _ _ _ _ _] [Hr _ _ _ _] Em El.
  pose proof (rep_nodup _ _ (MutexList.reg_rep _ _ _ Hm)) as (_ & Dm & _)%NoDup_app.
  pose proof (rep_nodup _ _ (RwList.reg_rep _ _ _ Hl)) as (_ & Dl & _)%NoDup_app.
  assert (forall (old new l : list nat), (forall x, x ∈ old <-> x ∈ new) -> (forall x, x ∈ new -> x ∉ l) -> filter (.∉ old) (new ++ l) = l) as E.
  { intros old new l Ho Hd. rewrite filter_app, filter_drop, filter_keep; [done|..];
      intros x Hx; rewrite Ho; [intros Hn; by eapply Hd|tauto]. }
  by rewrite !E in Hr.
Qed.

(** ** The operations *)

(** An address for a new mutex, and one for a new lock. *)
Definition new_mutex (R : RwList.state) (ms : list nat) (x : nat) : Prop :=
  x <> mutex_list_mutex /\ x <> rw_lock_list_mutex /\ x ∉ ms /\ is_Some (mutex_node R x).
Definition new_lock (R : RwList.state) (ls : list nat) (x : nat) : Prop := x ∉ ls /\ is_Some (lock_node R x).

Definition room (l : list nat) (n : nat) : Prop := Z.of_nat (length l) + Z.of_nat n < 2 ^ 64.

(** Other changes of the state do not touch the registries. *)
Lemma regs_sync R m ms ms' ls :
  regs R ms ls -> MutexList.registry mutex_list_mutex m ms' -> MutexList.idle m rw_lock_list_mutex ->
  regs (RwList.set_sync m R) ms' ls.
Proof. intros [_ [H1 H2 _]] Hm Hi. constructor; [done|]. by constructor. Qed.

Lemma mutex_create_extends R ms ls x lvl cf cl cn :
  regs R ms ls -> new_mutex R ms x -> room ms 1 ->
  exists m, MutexList.mutex_create_func mutex_list_mutex x lvl cf cl cn (RwList.sync R) = Ok m /\
    extends R ms ls [x] [] (RwList.set_sync m R).
Proof.
  intros [Hm Hl] (H1 & H2 & H3 & H4) Hroom. unfold room in Hroom.
  destruct (MutexList.create_ok mutex_list_mutex (RwList.sync R) ms x lvl cf cl cn Hm) as (m & E & Hm' & Hid & Hsame & Hal);
    [split_and!; (done || lia)|]. exists m. split; [done|].
  assert (MutexList.prio m = MutexList.prio (RwList.sync R)) as Ep.
  { unfold MutexList.mutex_create_func, MutexList.add_first in E. case_match; inv_ok; by subst. }
  constructor; cbn; try done.
  - apply (regs_sync R m ms); [done|done|]. apply (idle_same (RwList.sync R)); [by apply Hsame|apply Hl].
  - by intros y ->%list_elem_of_singleton.
  - intros y Hy. set_solver.
  - intros y Hy. apply Hsame. set_solver.
  - intros y _. by rewrite Ep.
Qed.

Lemma lock_create_extends R ms ls x lvl cn cf cl :
  regs R ms ls -> new_lock R ls x -> room ls 1 ->
  exists R', RwList.rw_lock_create_func x lvl cn cf cl R = Ok R' /\ extends R ms ls [] [x] R'.
Proof.
  intros [Hm Hl] (H1 & H2) Hroom. unfold room in Hroom.
  destruct (RwList.rw_create_ok rw_lock_list_mutex R ls x lvl cn cf cl Hl) as (R' & E & Hl' & Hun & Hsame & Es & Hout);
    [split_and!; (done || lia)|]. exists R'. split; [done|].
  assert (RwList.prio_rw_locks R' = RwList.prio_rw_locks R) as Ep.
  { unfold RwList.rw_lock_create_func in E. inv_ok. by subst. }
  constructor; cbn; rewrite ?Es; try done.
  - constructor; by rewrite ?Es.
  - set_solver.
  - by intros y ->%list_elem_of_singleton.
  - intros y Hy. apply Hsame. set_solver.
  - intros y _. by rewrite Ep.
  - intros y. eapply rep_alloc; [apply Hl'|exact Hout].
Qed.

Lemma prio_mutex_extends R ms ls x m :
  extends R ms ls [x] [] (RwList.set_sync m R) ->
  extends R ms ls [x] [] (RwList.set_sync (MutexList.mkState (MutexList.mutexes m)
    (<[x := (0, os_event_create)]> (MutexList.prio m)) (MutexList.mutex_list m)) R).
Proof.
  intros [[[C1 C2 C3 C4] [B1 B2 B3]] A2 A3 A4 A5 A6 A7 A8 A9]. constructor; cbn in *; try done.
  intros y Hy. rewrite lookup_insert_ne by set_solver. by apply A6.
Qed.

Lemma prio_lock_extends R ms ls x p R' :
  extends R ms ls [] [x] R' -> extends R ms ls [] [x] (RwList.set_prio (<[x := p]> (RwList.prio_rw_locks R')) R').
Proof.
  intros [[A1 [B1 B2 B3]] A2 A3 A4 A5 A6 A7 A8 A9]. constructor; cbn in *; try done.
  intros y Hy. rewrite lookup_insert_ne by set_solver. by apply A7.
Qed.

Lemma mutex_free_freed R ms ls x :
  regs R ms ls -> x ∈ ms -> x <> rw_lock_list_mutex -> MutexList.idle (RwList.sync R) x ->
  exists m, MutexList.mutex_free_func mutex_list_mutex self x (RwList.sync R) = Ok m /\
    freed R ms ls [x] [] (RwList.set_sync m R).
Proof.
  intros [Hm Hl] Hx Hne Hi. apply list_elem_of_split in Hx as (a & b & ->).
  destruct (MutexList.free_ok mutex_list_mutex self (RwList.sync R) a x b Hm Hi) as (m & E & Hm' & _ & Hsame).
  pose proof (rep_nodup _ _ (MutexList.reg_rep _ _ _ Hm)) as Hnd. exists m. split; [done|].
  assert (forall y, y <> x -> MutexList.idle (RwList.sync R) y -> MutexList.idle m y) as Hidle.
  { intros y Hy Hy'. destruct (decide (y = mutex_list_mutex)) as [->|]; [apply Hm'|].
    apply (idle_same (RwList.sync R)); [by apply Hsame|done]. }
  constructor; cbn; try done.
  - rewrite filter_not_one, filter_keep by (done || set_solver). apply (regs_sync R m (a ++ x :: b)); [done|done|].
    apply Hidle; [done|apply Hl].
  - intros y Hy. apply Hidle. set_solver.
  - clear -E. unfold MutexList.mutex_free_func, MutexList.mutex_enter, MutexList.mutex_exit, MutexList.list_remove,
      MutexList.mutex_enter_nowait_func in E. repeat (case_match; inv_ok; subst; try done).
Qed.

Lemma mutex_enter_prio x m m' : MutexList.mutex_enter self x m = Ok m' -> MutexList.prio m' = MutexList.prio m.
Proof.
  unfold MutexList.mutex_enter, MutexList.mutex_enter_nowait_func. intros H. inv_ok.
  repeat (case_match; simplify_eq/=; try done).
Qed.

Lemma mutex_exit_prio x m m' : MutexList.mutex_exit self x m = Ok m' -> MutexList.prio m' = MutexList.prio m.
Proof. unfold MutexList.mutex_exit. intros H. inv_ok. by subst. Qed.

Lemma lock_free_freed R ms ls x :
  mutex_list_mutex <> rw_lock_list_mutex -> regs R ms ls -> x ∈ ls -> RwList.unlocked R x ->
  exists R', RwList.rw_lock_free_func rw_lock_list_mutex self x R = Ok R' /\ freed R ms ls [] [x] R'.
Proof.
  intros Hmm [Hm Hl] Hx Hi. apply list_elem_of_split in Hx as (a & b & ->).
  destruct (RwList.rw_free_ok rw_lock_list_mutex self R a x b Hl Hi) as (R' & E & Hl' & Hsame & _ & Eml & Hms).
  pose proof (rep_nodup _ _ (RwList.reg_rep _ _ _ Hl)) as Hnd. exists R'. split; [done|].
  assert (forall y, MutexList.idle (RwList.sync R) y -> MutexList.idle (RwList.sync R') y) as Hidle.
  { intros y Hy. destruct (decide (y = rw_lock_list_mutex)) as [->|]; [apply Hl'|].
    apply (idle_same (RwList.sync R)); [by apply Hms|done]. }
  constructor; try done.
  - rewrite filter_not_one, filter_keep by (done || set_solver). constructor; [|done]. destruct Hm as [M1 M2 M3 M4].
    constructor; [by rewrite Eml|done|by apply Hidle|]. intros y Hy.
    destruct (decide (y = rw_lock_list_mutex)) as [->|Hne]; [apply MutexList.idle_initialised, Hl'|].
    unfold MutexList.initialised in *. rewrite Hms by done. by apply M4.
  - auto.
  - intros y Hy. apply unlocked_same. apply Hsame. set_solver.
  - clear -E. unfold RwList.rw_lock_free_func, RwList.enter_list, RwList.exit_list in E. inv_ok. subst. cbn in *.
    repeat match goal with
    | H : MutexList.mutex_enter _ _ _ = Ok _ |- _ => apply mutex_enter_prio in H
    | H : MutexList.mutex_exit _ _ _ = Ok _ |- _ => apply mutex_exit_prio in H
    end. congruence.
  - clear -E. unfold RwList.rw_lock_free_func, RwList.enter_list, RwList.exit_list in E. inv_ok. by subst.
Qed.

(** ** Priority latches *)

Definition prio_mutex_create (lvl : Z) (cf : string) (cl : Z) (cn : string) (x : nat) (R : RwList.state) : res RwList.state :=
  let! m := MutexList.prio_mutex_create_func mutex_list_mutex x lvl cf cl cn (RwList.sync R) in Ok (RwList.set_sync m R).
Definition mutex_create (lvl : Z) (cf : string) (cl : Z) (cn : string) (x : nat) (R : RwList.state) : res RwList.state :=
  let! m := MutexList.mutex_create_func mutex_list_mutex x lvl cf cl cn (RwList.sync R) in Ok (RwList.set_sync m R).
Definition mutex_free (x : nat) (R : RwList.state) : res RwList.state :=
  let! m := MutexList.mutex_free_func mutex_list_mutex self x (RwList.sync R) in Ok (RwList.set_sync m R).
Definition prio_mutex_free (x : nat) (R : RwList.state) : res RwList.state :=
  let! m := MutexList.prio_mutex_free_func mutex_list_mutex self x (RwList.sync R) in Ok (RwList.set_sync m R).

(** A mutex and a lock with the fields of a priority latch, free. *)
Definition is_prio_mutex (R : RwList.state) (x : nat) : Prop :=
  exists e, MutexList.prio (RwList.sync R) !! x = Some (0, e).
Definition is_prio_lock (R : RwList.state) (x : nat) : Prop := is_Some (RwList.prio_rw_locks R !! x).

Lemma mutex_create_ok R ms ls x lvl cf cl cn :
  regs R ms ls -> new_mutex R ms x -> room ms 1 ->
  exists R', mutex_create lvl cf cl cn x R = Ok R' /\ extends R ms ls [x] [] R'.
Proof.
  intros Hr Hx Hroom. destruct (mutex_create_extends R ms ls x lvl cf cl cn Hr Hx Hroom) as (m & E & X).
  unfold mutex_create. rewrite E. by eexists.
Qed.

Lemma prio_mutex_create_ok R ms ls x lvl cf cl cn :
  regs R ms ls -> new_mutex R ms x -> room ms 1 ->
  exists R', prio_mutex_create lvl cf cl cn x R = Ok R' /\ extends R ms ls [x] [] R' /\ is_prio_mutex R' x.
Proof.
  intros Hr Hx Hroom. destruct (mutex_create_extends R ms ls x lvl cf cl cn Hr Hx Hroom) as (m & E & X).
  unfold prio_mutex_create, MutexList.prio_mutex_create_func. rewrite E. cbn [rbind].
  eexists. split; [reflexivity|]. split; [by apply prio_mutex_extends|]. eexists. apply lookup_insert_eq.
Qed.

Lemma prio_lock_create_ok R ms ls x lvl cn cf cl :
  regs R ms ls -> new_lock R ls x -> room ls 1 ->
  exists R', RwList.prio_rw_lock_create_func x lvl cn cf cl R = Ok R' /\ extends R ms ls [] [x] R' /\ is_prio_lock R' x.
Proof.
  intros Hr Hx Hroom. destruct (lock_create_extends R ms ls x lvl cn cf cl Hr Hx Hroom) as (R' & E & X).
  unfold RwList.prio_rw_lock_create_func. rewrite E. cbn [rbind].
  eexists. split; [reflexivity|]. split; [by apply prio_lock_extends|]. unfold is_prio_lock. cbn. rewrite lookup_insert_eq. eauto.
Qed.

Lemma mutex_free_ok R ms ls x :
  regs R ms ls -> x ∈ ms -> x <> rw_lock_list_mutex -> MutexList.idle (RwList.sync R) x ->
  exists R', mutex_free x R = Ok R' /\ freed R ms ls [x] [] R'.
Proof.
  intros Hr Hx Hne Hi. destruct (mutex_free_freed R ms ls x Hr Hx Hne Hi) as (m & E & X).
  unfold mutex_free. rewrite E. by eexists.
Qed.

Lemma prio_mutex_free_ok R ms ls x :
  regs R ms ls -> x ∈ ms -> x <> rw_lock_list_mutex -> MutexList.idle (RwList.sync R) x -> is_prio_mutex R x ->
  exists R', prio_mutex_free x R = Ok R' /\ freed R ms ls [x] [] R'.
Proof.
  intros Hr Hx Hne Hi [e Hp]. destruct (mutex_free_freed R ms ls x Hr Hx Hne Hi) as (m & E & X).
  unfold prio_mutex_free, MutexList.prio_mutex_free_func. rewrite Hp. cbn [deref rbind fst]. cbn. rewrite E. by eexists.
Qed.

Lemma prio_lock_free_ok R ms ls x :
  mutex_list_mutex <> rw_lock_list_mutex -> regs R ms ls -> x ∈ ls -> RwList.unlocked R x -> is_prio_lock R x ->
  exists R', RwList.prio_rw_lock_free_func rw_lock_list_mutex self x R = Ok R' /\ freed R ms ls [] [x] R'.
Proof.
  intros Hmm Hr Hx Hu [q Hp]. unfold RwList.prio_rw_lock_free_func. rewrite Hp. by apply lock_free_freed.
Qed.

(** *** Arrays of them *)

Lemma extends_prio_mutex R ms ls a b R' x : extends R ms ls a b R' -> x ∉ a -> is_prio_mutex R x -> is_prio_mutex R' x.
Proof. intros X Hx. unfold is_prio_mutex. by rewrite (ex_prio _ _ _ _ _ _ X). Qed.

Lemma extends_prio_lock R ms ls a b R' x : extends R ms ls a b R' -> x ∉ b -> is_prio_lock R x -> is_prio_lock R' x.
Proof. intros X Hx. unfold is_prio_lock. by rewrite (ex_prio_locks _ _ _ _ _ _ X). Qed.

(** An address that is not used for another mutex can still be used. *)
Lemma new_mutex_extends R ms ls a b R' x : extends R ms ls a b R' -> x ∉ a -> new_mutex R ms x -> new_mutex R' (a ++ ms) x.
Proof.
  intros X Hx (N1 & N2 & N3 & N4). split_and!; [done|done|set_solver|by apply (ex_mutex_nodes _ _ _ _ _ _ X)].
Qed.

Lemma new_lock_extends R ms ls a b R' x : extends R ms ls a b R' -> x ∉ b -> new_lock R ls x -> new_lock R' (b ++ ls) x.
Proof. intros X Hx (N1 & N2). split; [set_solver|by apply (ex_lock_nodes _ _ _ _ _ _ X)]. Qed.

(** Mutexes created one after the other by an operation [f] that establishes
    [post] for each. *)
Lemma create_each_ok {A} (f : A -> RwList.state -> res RwList.state) (addr : A -> nat) (post : RwList.state -> A -> Prop) xs :
  (forall R ms ls a, a ∈ xs -> regs R ms ls -> new_mutex R ms (addr a) -> room ms 1 ->
    exists R', f a R = Ok R' /\ extends R ms ls [addr a] [] R' /\ post R' a) ->
  (forall R ms ls newm newl R' a, extends R ms ls newm newl R' -> addr a ∉ newm -> post R a -> post R' a) ->
  forall R ms ls, regs R ms ls -> NoDup (addr <$> xs) -> (forall a, a ∈ xs -> new_mutex R ms (addr a)) -> room ms (length xs) ->
  exists R', for_each f xs R = Ok R' /\ extends R ms ls (reverse (addr <$> xs)) [] R' /\ forall a, a ∈ xs -> post R' a.
Proof.
  unfold room. intros Hf Hpost. induction xs as [|x xs IH]; intros R ms ls Hr Hnd Hnew Hroom; cbn [for_each].
  { exists R. split; [done|]. split; [by apply extends_refl|set_solver]. }
  rewrite fmap_cons in *. apply NoDup_cons in Hnd as [Hx Hnd]. cbn [length] in Hroom.
  destruct (Hf R ms ls x) as (R1 & -> & X1 & P1); [by left|done|apply Hnew; by left|lia|]. cbn [rbind].
  assert (forall a, a ∈ xs -> addr a <> addr x) as Hne
    by (intros a Ha E; apply Hx; rewrite <- E; apply list_elem_of_fmap; by exists a).
  destruct (IH ltac:(intros R0 ms0 ls0 a Ha; apply Hf; by right) R1 ([addr x] ++ ms) ls) as (R2 & -> & X2 & P2);
    [apply X1|done| |cbn; lia|].
  { intros a Ha. eapply (new_mutex_extends _ _ _ [_]); [exact X1|specialize (Hne a Ha); set_solver|apply Hnew; by right]. }
  exists R2. split; [done|]. split; [rewrite reverse_cons; by eapply (extends_trans _ _ _ _ [] _ _ [])|].
  intros y [->|Hy]%elem_of_cons; [|by apply P2]. eapply Hpost; [exact X2|by rewrite elem_of_reverse|done].
Qed.

Lemma create_mutexes_ok lvl cf cl cn xs R ms ls :
  regs R ms ls -> NoDup xs -> (forall x, x ∈ xs -> new_mutex R ms x) -> room ms (length xs) ->
  exists R', for_each (prio_mutex_create lvl cf cl cn) xs R = Ok R' /\ extends R ms ls (reverse xs) [] R' /\
    forall x, x ∈ xs -> is_prio_mutex R' x.
Proof.
  intros Hr Hnd Hnew Hroom.
  destruct (create_each_ok (prio_mutex_create lvl cf cl cn) (fun x => x) is_prio_mutex xs) with (R := R) (ms := ms) (ls := ls)
    as (R' & E & X & P); try done.
  - intros R0 ms0 ls0 x _. apply prio_mutex_create_ok.
  - intros R0 ms0 ls0 a b R1 x. apply extends_prio_mutex.
  - by rewrite list_fmap_id.
  - exists R'. by rewrite list_fmap_id in X.
Qed.

Lemma create_locks_ok lvl cn cf cl xs : forall R ms ls,
  regs R ms ls -> NoDup xs -> (forall x, x ∈ xs -> new_lock R ls x) -> room ls (length xs) ->
  exists R', for_each (fun x => RwList.prio_rw_lock_create_func x lvl cn cf cl) xs R = Ok R' /\
    extends R ms ls [] (reverse xs) R' /\ forall x, x ∈ xs -> is_prio_lock R' x.
Proof.
  unfold room. induction xs as [|x xs IH]; intros R ms ls Hr Hnd Hnew Hroom; cbn [for_each].
  { exists R. split; [done|]. split; [by apply extends_refl|set_solver]. }
  apply NoDup_cons in Hnd as [Hx Hnd]. cbn [length] in Hroom.
  destruct (prio_lock_create_ok R ms ls x lvl cn cf cl Hr) as (R1 & -> & X1 & P1); [apply Hnew; by left|unfold room; lia|].
  cbn [rbind]. destruct (IH R1 ms ([x] ++ ls)) as (R2 & -> & X2 & P2); [apply X1|done| |cbn; lia|].
  { intros y Hy. eapply (new_lock_extends _ _ _ _ [_]); [exact X1|set_solver|apply Hnew; by right]. }
  exists R2. split; [done|]. split; [rewrite reverse_cons; by eapply (extends_trans _ _ _ [] _ _ [] _)|].
  intros y [->|Hy]%elem_of_cons; [|by apply P2]. eapply extends_prio_lock; [exact X2|by rewrite elem_of_reverse|done].
Qed.

(** Releasing latches one after the other, by an operation [f] that releases
    each. *)
Lemma free_each_ok {A} (f : A -> RwList.state -> res RwList.state) (om ol : A -> list nat)
    (ready : RwList.state -> A -> Prop) xs :
  (forall R ms ls x, x ∈ xs -> regs R ms ls -> om x ⊆ ms -> ol x ⊆ ls -> ready R x ->
    exists R', f x R = Ok R' /\ freed R ms ls (om x) (ol x) R' /\
      forall y, y ∈ xs -> y <> x -> ready R y -> ready R' y) ->
  forall (zs : list A) R ms ls, zs ⊆ xs -> NoDup zs -> regs R ms ls ->
    (forall x y, x ∈ zs -> y ∈ zs -> x <> y -> (forall z, z ∈ om x -> z ∉ om y) /\ (forall z, z ∈ ol x -> z ∉ ol y)) ->
    (forall x, x ∈ zs -> om x ⊆ ms /\ ol x ⊆ ls /\ ready R x) ->
    exists R', for_each f zs R = Ok R' /\ freed R ms ls (zs ≫= om) (zs ≫= ol) R'.
Proof.
  intros Hf zs. induction zs as [|x zs IH]; intros R ms ls Hsub Hnd Hr Hdis Hall; cbn [for_each].
  { exists R. split; [done|]. by apply freed_refl. }
  apply NoDup_cons in Hnd as [Hx Hnd]. destruct (Hall x ltac:(by left)) as (A1 & A2 & A3).
  destruct (Hf R ms ls x) as (R1 & -> & F1 & K1); [set_solver|done..|]. cbn [rbind].
  destruct (IH R1 (filter (.∉ om x) ms) (filter (.∉ ol x) ls)) as (R2 & -> & F2); [set_solver|done|apply F1| | |].
  - intros y z Hy Hz. apply Hdis; by right.
  - intros y Hy. destruct (Hall y ltac:(by right)) as (B1 & B2 & B3). destruct (Hdis y x) as [D1 D2]; [by right|by left|set_solver|].
    split_and!.
    + intros z Hz. apply list_elem_of_filter. split; [by apply D1|by apply B1].
    + intros z Hz. apply list_elem_of_filter. split; [by apply D2|by apply B2].
    + apply K1; [set_solver|set_solver|done].
  - exists R2. split; [done|]. cbn. by eapply freed_trans.
Qed.
End registries.
End Registries.
