(* ===== verification/MemHeap.v ===== *)
(** * Memory blocks of the server (include/mem0mem.ic, ut/ut0mem.cc)

    The addresses of the blocks that [mem_alloc], [ut_malloc] and
    [mem_heap_create] have given and [mem_free], [ut_free] and [mem_heap_free]
    have not taken back.  Where a block is put is an argument of the functions
    that allocate; an allocation that fails stops the server ([ut_malloc] asserts
    it, [mem_alloc] writes through the null pointer), so that it is not a case of
    its own.  A block that is not in use cannot be freed. *)
From S2P Require Import Prelude Results Registries.

Module MemHeap.
Local Open Scope mc_scope.

Definition mem_get (p : nat) (H : gset nat) : gset nat := {[p]} ∪ H.
Definition mem_put (p : nat) (H : gset nat) : res (gset nat) := if decide (p ∈ H) then Ok (H ∖ {[p]}) else Fault.

(** A pointer that is freed only if it is not null. *)
Definition put_if (p : option nat) (H : gset nat) : res (gset nat) :=
  match p with Some p => mem_put p H | None => Ok H end.

Definition put_all (xs : list nat) (H : gset nat) : res (gset nat) := Registries.for_each mem_put xs H.

(** The blocks [xs], all different, are in use besides those of [H0]. *)
Record own (H0 : gset nat) (xs : list nat) (H : gset nat) : Prop := Own {
  own_nodup : NoDup xs;
  own_new x : x ∈ xs -> x ∉ H0;
  own_eq : H = list_to_set xs ∪ H0 }.

Lemma own_nil H : own H [] H.
Proof. split; [constructor|set_solver|set_solver]. Qed.

Lemma own_done H0 H : own H0 [] H -> H = H0.
Proof. intros [_ _ ->]. set_solver. Qed.

Lemma own_perm H0 xs ys H : xs ≡ₚ ys -> own H0 xs H -> own H0 ys H.
Proof.
  intros Hp [H1 H2 ->]. split; [by rewrite <- Hp|intros x Hx; apply H2; by rewrite Hp|].
  apply leibniz_equiv. by rewrite (list_to_set_perm _ _ Hp).
Qed.

Lemma own_add H0 xs ys H : own H0 xs H -> NoDup (ys ++ xs) -> (forall y, y ∈ ys -> y ∉ H0) -> own H0 (ys ++ xs) (list_to_set ys ∪ H).
Proof.
  intros [H1 H2 ->] Hnd Hy. split; [done|set_solver|]. rewrite list_to_set_app_L. set_solver.
Qed.

Lemma own_own H0 xs H1 ys H2 : own H0 xs H1 -> own H1 ys H2 -> own H0 (ys ++ xs) H2.
Proof.
  intros [A1 A2 ->] [B1 B2 ->]. split; [|set_solver|rewrite list_to_set_app_L; set_solver].
  apply NoDup_app. split; [done|]. split; [|done]. intros x Hx Hxs. apply (B2 x Hx). set_solver.
Qed.

Lemma mem_put_ok H0 x xs H : own H0 (x :: xs) H -> exists H', mem_put x H = Ok H' /\ own H0 xs H'.
Proof.
  intros [H1 H2 ->]. apply NoDup_cons in H1 as [Hx Hnd]. unfold mem_put. rewrite decide_True by set_solver.
  eexists. split; [reflexivity|]. split; [done|set_solver|]. assert (x ∉ H0) by (apply H2; by left).
  assert (x ∉ (list_to_set xs : gset nat)) by by rewrite elem_of_list_to_set. cbn [list_to_set list_to_set]. set_solver.
Qed.

Lemma put_if_ok H0 p xs H : own H0 (option_list p ++ xs) H -> exists H', put_if p H = Ok H' /\ own H0 xs H'.
Proof. destruct p as [p|]; cbn; [apply mem_put_ok|by exists H]. Qed.

Lemma put_all_ok H0 xs ys : forall H, own H0 (xs ++ ys) H -> exists H', put_all xs H = Ok H' /\ own H0 ys H'.
Proof.
  unfold put_all. induction xs as [|x xs IH]; intros H HO; [by exists H|]. cbn [Registries.for_each].
  destruct (mem_put_ok _ _ _ _ HO) as (H1 & -> & HO1). cbn [rbind]. by apply IH.
Qed.
End MemHeap.
