(* ===== verification/HashCreate.v ===== *)
(** * Creating and emptying hash tables (ha/hash0hash.cc, ha/ha0ha.cc)

    A table gets a prime number of cells ([HashPrime]), all empty, and an array
    of latches, which enter the registries of the server ([Registries]) until
    [ha_clear] releases them.  The blocks of memory of a table are counted
    ([MemHeap]), with the memory heaps for chain nodes as one block each. *)
From stdpp Require Import strings.
From Stdlib Require Import Znumtheory.
From S2P Require Import Prelude Results UtList MutexList RwList Registries MemHeap SyncLevels BufChunk HashTable HashPrime HashSync.
Local Open Scope Z_scope.

Module HashCreate.
Import UtList BufChunk HashTable HashPrime HashSync Registries MemHeap.
Local Open Scope mc_scope.

(** [hash_table_t]: the cells and the number of latches, its address and that of
    the cells, the address of the latches, and the heaps of the chain nodes with
    the address of the array of pointers to them. *)
Record hash := mkHash {
  table : latched; table_at : nat; array_at : nat; sync_obj : option nat; heaps : option (nat * list nat); heap : option nat }.

(** Where the allocator puts the blocks of a table. *)
Record places := mkPlaces { for_table : nat; for_array : nat; for_latches : nat; for_heaps : nat; for_heap : nat -> nat }.

(** mem0mem.h, lines 57-65. *)
Definition MEM_HEAP_FOR_BTR_SEARCH : Z := 3.
Definition MEM_HEAP_FOR_PAGE_HASH : Z := 0.

Section create.
Context (mutex_list_mutex rw_lock_list_mutex : nat) (self : Z).
(** The bound on the search for a prime, what the memory of the cells held
    before, the size of a latch, and where the blocks of the table are put. *)
Context (prime_fuel : nat) (ut_malloc : nat -> list (option nat)) (sizeof_latch : nat) (pl : places).

(** hash0hash.cc, lines 287-328. *)
Definition hash_create (n : Z) (H : gset nat) : res (hash * gset nat) :=
  match ut_find_prime prime_fuel n with
  | None => Blocked
  | Some prime =>
      let H := mem_get (for_array pl) (mem_get (for_table pl) H) in
      Ok (mkHash (mkLatched (hash_table_clear (mkTable (ut_malloc (Z.to_nat prime)))) HASH_TABLE_SYNC_NONE 0) (for_table pl) (for_array pl)
        None None None, H)
  end.

(** Lines 330-343. *)
Definition hash_table_free (h : hash) (H : gset nat) : res (gset nat) :=
  let! H := mem_put (array_at h) H in mem_put (table_at h) H.

(** The addresses of the latches of an array at [base]. *)
Definition latches (base n : nat) : list nat := (fun i => (base + i * sizeof_latch)%nat) <$> seq 0 n.

(** Lines 346-402. *)
Definition hash_create_sync_obj_func (h : hash) (ty : hash_table_sync) (sync_level n : Z) (R : RwList.state) (H : gset nat) :
    res (hash * RwList.state * gset nat) :=
  let! _ := ut_a (0 <? n) in
  let! _ := ut_a (ut_is_2pow n) in
  let xs := latches (for_latches pl) (Z.to_nat n) in
  let! R :=
    match ty with
    | HASH_TABLE_SYNC_MUTEX =>
        for_each (prio_mutex_create mutex_list_mutex sync_level "hash0hash.cc" 381 "table->sync_obj.mutexes + i") xs R
    | HASH_TABLE_SYNC_RW_LOCK =>
        for_each (fun x => RwList.prio_rw_lock_create_func x sync_level "table->sync_obj.rw_locks + i" "hash0hash.cc" 392) xs R
    | HASH_TABLE_SYNC_NONE => Fault
    end in
  Ok (mkHash (mkLatched (cells (table h)) ty n) (table_at h) (array_at h) (Some (for_latches pl)) (heaps h) (heap h), R,
    mem_get (for_latches pl) H).

(** The loop of ha0ha.cc, lines 93-96. *)
Fixpoint create_heaps (js : list nat) (H : gset nat) : list nat * gset nat :=
  match js with
  | [] => ([], H)
  | j :: js => let '(ps, H) := create_heaps js (mem_get (for_heap pl j) H) in (for_heap pl j :: ps, H)
  end.

(** ha0ha.cc, lines 38-99. *)
Definition ha_create_func (n sync_level n_sync_obj : Z) (ty : Z) (R : RwList.state) (H : gset nat) :
    res (hash * RwList.state * gset nat) :=
  let! _ := ut_a ((ty =? MEM_HEAP_FOR_BTR_SEARCH) || (ty =? MEM_HEAP_FOR_PAGE_HASH)) in
  let! _ := ut_a (ut_is_2pow n_sync_obj) in
  let! (h, H) := hash_create n H in
  if n_sync_obj =? 0 then
    Ok (mkHash (table h) (table_at h) (array_at h) (sync_obj h) (heaps h) (Some (for_heap pl 0)), R, mem_get (for_heap pl 0) H)
  else
    let! (h, R, H) := hash_create_sync_obj_func h
      (if ty =? MEM_HEAP_FOR_PAGE_HASH then HASH_TABLE_SYNC_RW_LOCK else HASH_TABLE_SYNC_MUTEX) sync_level n_sync_obj R H in
    let '(ps, H) := create_heaps (seq 0 (Z.to_nat n_sync_obj)) (mem_get (for_heaps pl) H) in
    Ok (mkHash (table h) (table_at h) (array_at h) (sync_obj h) (Some (for_heaps pl, ps)) (heap h), R, H).

(** Lines 147-156: the heaps that are freed, one for each latch, and the array. *)
Definition free_heaps (h : hash) (H : gset nat) : res (gset nat) :=
  let n := Z.to_nat (n_sync_obj (table h)) in
  let! H :=
    (if (n =? 0)%nat then Ok H
     else let! (_, ps) := deref (heaps h) in let! _ := ut_a (n <=? length ps)%nat in put_all (take n ps) H) in
  put_if (fst <$> heaps h) H.

(** Lines 127-186.  The pointer to the heaps is left as it is. *)
Definition ha_clear (h : hash) (R : RwList.state) (H : gset nat) : res (hash * RwList.state * gset nat) :=
  let! H := free_heaps h H in
  let n := Z.to_nat (n_sync_obj (table h)) in
  let! (p, R, H) :=
    match type (table h) with
    | HASH_TABLE_SYNC_MUTEX =>
        let! b := deref (sync_obj h) in
        let! R := for_each (prio_mutex_free mutex_list_mutex self) (latches b n) R in
        let! H := mem_put b H in Ok (None, R, H)
    | HASH_TABLE_SYNC_RW_LOCK =>
        let! b := deref (sync_obj h) in
        let! R := for_each (RwList.prio_rw_lock_free_func rw_lock_list_mutex self) (latches b n) R in
        let! H := mem_put b H in Ok (None, R, H)
    | HASH_TABLE_SYNC_NONE => Ok (sync_obj h, R, H)
    end in
  Ok (mkHash (mkLatched (hash_table_clear (cells (table h))) HASH_TABLE_SYNC_NONE 0) (table_at h) (array_at h) p (heaps h) (heap h), R, H).

(** ** The cells *)

Context (Hmalloc : forall n, length (ut_malloc n) = n).

(** There is a prime within reach of the search. *)
Definition prime_near (n : Z) : Prop :=
  exists m p, search_start n = Some m /\ prime p /\ m <= p < 2 ^ 62 /\ p - m < Z.of_nat prime_fuel.

Definition empty_cells (n : Z) : hash_table := mkTable (replicate (Z.to_nat n) None).

(** The blocks of a table without latches. *)
Definition table_blocks : list nat := [for_array pl; for_table pl].

Lemma hash_create_ok n H :
  0 <= n < 2 ^ 60 -> prime_near n ->
  exists q, hash_create n H =
      Ok (mkHash (mkLatched (empty_cells q) HASH_TABLE_SYNC_NONE 0) (for_table pl) (for_array pl) None None None,
        list_to_set table_blocks ∪ H) /\
    prime q /\ n + 100 <= q.
Proof using Hmalloc.
  intros Hn (m & p & Em & Hp & Hmp & Hf). destruct (search_start_ok n Hn) as (m' & Em' & Hm').
  assert (m' = m) as -> by congruence. unfold hash_create, ut_find_prime. rewrite Em. cbn [mbind option_bind].
  destruct (search_ok p Hp ltac:(lia) prime_fuel m) as (q & -> & Hq & Hr & _); [lia..|]. exists q. split_and!; [|done|lia].
  unfold hash_table_clear, table_blocks, mem_get. cbn [array list_to_set]. rewrite Hmalloc. f_equal. f_equal. set_solver.
Qed.

(** No cell has a chain. *)
Lemma empty_cells_rep q m : 0 < q -> HashTable.rep (empty_cells q) m (fun _ => []).
Proof.
  intros Hq. constructor; cbn; [rewrite length_replicate; lia| |by intros _; constructor|intros i j x H; by apply elem_of_nil in H].
  intros i p Hp. by apply lookup_replicate in Hp as [-> _].
Qed.

(** ** The latches *)

Context (Hmm : mutex_list_mutex <> rw_lock_list_mutex) (Hsize : (0 < sizeof_latch)%nat).

Lemma latches_nodup base n : NoDup (latches base n).
Proof using Hsize. apply NoDup_fmap_2; [|apply NoDup_seq]. intros i j E. clear Hmm. nia. Qed.

Lemma length_latches base n : length (latches base n) = n.
Proof. unfold latches. by rewrite length_fmap, length_seq. Qed.

(** The latches of a table are read-write locks or mutexes. *)
Definition is_rw (ty : hash_table_sync) : bool := bool_decide (ty = HASH_TABLE_SYNC_RW_LOCK).
Definition own_mutexes (ty : hash_table_sync) (xs : list nat) : list nat := if is_rw ty then [] else xs.
Definition own_locks (ty : hash_table_sync) (xs : list nat) : list nat := if is_rw ty then xs else [].

Notation regs := (Registries.regs mutex_list_mutex rw_lock_list_mutex).
Notation extends := (Registries.extends mutex_list_mutex rw_lock_list_mutex).
Notation freed := (Registries.freed mutex_list_mutex rw_lock_list_mutex).

Definition fresh_latches (ty : hash_table_sync) (R : RwList.state) (ms ls xs : list nat) : Prop :=
  if is_rw ty then (forall x, x ∈ xs -> new_lock R ls x) /\ room ls (length xs)
  else (forall x, x ∈ xs -> new_mutex mutex_list_mutex rw_lock_list_mutex R ms x) /\ room ms (length xs).

Definition prio_latches (ty : hash_table_sync) (R : RwList.state) (xs : list nat) : Prop :=
  forall x, x ∈ xs -> if is_rw ty then is_prio_lock R x else is_prio_mutex R x.

Notation mem_alloc := (for_latches pl).

Lemma sync_obj_ok h ty lvl k R ms ls H :
  ty <> HASH_TABLE_SYNC_NONE -> 0 <= k < 64 -> regs R ms ls -> fresh_latches ty R ms ls (latches mem_alloc (Z.to_nat (2 ^ k))) ->
  exists R', hash_create_sync_obj_func h ty lvl (2 ^ k) R H =
      Ok (mkHash (mkLatched (cells (table h)) ty (2 ^ k)) (table_at h) (array_at h) (Some mem_alloc) (heaps h) (heap h), R', {[mem_alloc]} ∪ H) /\
    extends R ms ls (reverse (own_mutexes ty (latches mem_alloc (Z.to_nat (2 ^ k)))))
      (reverse (own_locks ty (latches mem_alloc (Z.to_nat (2 ^ k))))) R' /\
    prio_latches ty R' (latches mem_alloc (Z.to_nat (2 ^ k))).
Proof using Hmm Hsize.
  intros Hty Hk Hr Hfr. pose proof (Z.pow_pos_nonneg 2 k). unfold hash_create_sync_obj_func.
  rewrite (proj2 (Z.ltb_lt _ _)), (proj2 (power_masks k Hk)) by lia. cbn [ut_a rbind].
  unfold fresh_latches, prio_latches, own_mutexes, own_locks in *. set (xs := latches mem_alloc (Z.to_nat (2 ^ k))) in *.
  assert (NoDup xs) as Hnd by apply latches_nodup. destruct ty; [done| |]; cbn in Hfr |- *; destruct Hfr as [Hnew Hroom].
  - edestruct create_mutexes_ok as (R' & -> & X & P); [exact Hr|exact Hnd|exact Hnew|exact Hroom|]. cbn [rbind].
    by eexists.
  - edestruct create_locks_ok as (R' & -> & X & P); [exact Hr|exact Hnd|exact Hnew|exact Hroom|]. cbn [rbind].
    by eexists.
Qed.

(** The latches can be released. *)
Definition idle_latches (ty : hash_table_sync) (R : RwList.state) (ms ls xs : list nat) : Prop :=
  forall x, x ∈ xs -> if is_rw ty then x ∈ ls /\ RwList.unlocked R x /\ is_prio_lock R x
    else x ∈ ms /\ x <> rw_lock_list_mutex /\ MutexList.idle (RwList.sync R) x /\ is_prio_mutex R x.

Lemma free_mutexes_ok xs R ms ls :
  NoDup xs -> regs R ms ls -> idle_latches HASH_TABLE_SYNC_MUTEX R ms ls xs ->
  exists R', for_each (prio_mutex_free mutex_list_mutex self) xs R = Ok R' /\ freed R ms ls xs [] R'.
Proof using Hmm.
  clear Hmalloc Hsize ut_malloc sizeof_latch. intros Hnd Hr Hid. unfold idle_latches in Hid. cbn in Hid.
  destruct (free_each_ok mutex_list_mutex rw_lock_list_mutex (prio_mutex_free mutex_list_mutex self) (fun x => [x]) (fun _ => [])
    (fun R x => MutexList.idle (RwList.sync R) x /\ is_prio_mutex R x) xs) with (zs := xs) (R := R) (ms := ms) (ls := ls) as (R' & E & F).
  - intros R0 ms0 ls0 x Hx Hr0 Hm _ [Hi Hp]. destruct (Hid x Hx) as (_ & Hne & _).
    destruct (prio_mutex_free_ok mutex_list_mutex rw_lock_list_mutex self R0 ms0 ls0 x) as (R1 & E & F); [done|set_solver|done..|].
    exists R1. split_and!; [done|done|]. intros y _ Hy [Hyi [e Hyp]]. split; [apply (fr_idle _ _ _ _ _ _ _ _ F); [set_solver|done]|].
    exists e. by rewrite (fr_prio _ _ _ _ _ _ _ _ F).
  - done.
  - done.
  - done.
  - intros x y _ _ Hne. set_solver.
  - intros x Hx. destruct (Hid x Hx) as (? & ? & ? & ?). split_and!; [set_solver|set_solver|done|done].
  - exists R'. split; [done|]. assert (xs ≫= (fun x => [x]) = xs) as E1 by (clear; induction xs; cbn; by f_equal).
    assert ((xs ≫= fun _ => []) = @nil nat) as E2 by (clear; by induction xs). by rewrite E1, E2 in F.
Qed.

Lemma free_locks_ok xs R ms ls :
  NoDup xs -> regs R ms ls -> idle_latches HASH_TABLE_SYNC_RW_LOCK R ms ls xs ->
  exists R', for_each (RwList.prio_rw_lock_free_func rw_lock_list_mutex self) xs R = Ok R' /\ freed R ms ls [] xs R'.
Proof using Hmm.
  clear Hmalloc Hsize ut_malloc sizeof_latch. intros Hnd Hr Hid. unfold idle_latches in Hid. cbn in Hid.
  destruct (free_each_ok mutex_list_mutex rw_lock_list_mutex (RwList.prio_rw_lock_free_func rw_lock_list_mutex self) (fun _ => []) (fun x => [x])
    (fun R x => RwList.unlocked R x /\ is_prio_lock R x) xs) with (zs := xs) (R := R) (ms := ms) (ls := ls) as (R' & E & F).
  - intros R0 ms0 ls0 x Hx Hr0 _ Hl [Hi Hp].
    destruct (prio_lock_free_ok mutex_list_mutex rw_lock_list_mutex self R0 ms0 ls0 x) as (R1 & E & F); [done|done|set_solver|done..|].
    exists R1. split_and!; [done|done|]. intros y _ Hy [Hyi Hyp]. split; [apply (fr_unlocked _ _ _ _ _ _ _ _ F); [set_solver|done]|].
    unfold is_prio_lock. by rewrite (fr_prio_locks _ _ _ _ _ _ _ _ F).
  - done.
  - done.
  - done.
  - intros x y _ _ Hne. set_solver.
  - intros x Hx. destruct (Hid x Hx) as (? & ? & ?). split_and!; [set_solver|set_solver|done|done].
  - exists R'. split; [done|]. assert (xs ≫= (fun x => [x]) = xs) as E1 by (clear; induction xs; cbn; by f_equal).
    assert ((xs ≫= fun _ => []) = @nil nat) as E2 by (clear; by induction xs). by rewrite E1, E2 in F.
Qed.

Lemma create_heaps_ok js : forall H, create_heaps js H = (for_heap pl <$> js, list_to_set (for_heap pl <$> js) ∪ H).
Proof.
  induction js as [|j js IH]; intros H; cbn; [by rewrite union_empty_l_L|]. rewrite IH. unfold mem_get. f_equal. set_solver.
Qed.

(** The kind of latches for a type of heap. *)
Definition sync_of (ty : Z) : hash_table_sync :=
  if ty =? MEM_HEAP_FOR_PAGE_HASH then HASH_TABLE_SYNC_RW_LOCK else HASH_TABLE_SYNC_MUTEX.

(** A new table with [2^k] latches. *)
Record created (n k : Z) (ty : hash_table_sync) (h : hash) : Prop := Created {
  cr_prime : exists q, prime q /\ n + 100 <= q /\ cells (table h) = empty_cells q;
  cr_type : type (table h) = ty;
  cr_count : n_sync_obj (table h) = 2 ^ k;
  cr_obj : sync_obj h = Some mem_alloc;
  cr_heaps : heaps h = Some (for_heaps pl, for_heap pl <$> seq 0 (Z.to_nat (2 ^ k)));
  cr_places : table_at h = for_table pl /\ array_at h = for_array pl }.

Lemma created_latched n k ty h : ty <> HASH_TABLE_SYNC_NONE -> 0 <= k < 64 -> created n k ty h -> latched_ok (table h).
Proof. intros Hty Hk [_ Et En _ _ _]. split; [by rewrite Et|]. by exists k. Qed.

(** The blocks of a table with latches, those first that [ha_clear] frees. *)
Definition latch_blocks (k : Z) : list nat := (for_heap pl <$> seq 0 (Z.to_nat (2 ^ k))) ++ [for_heaps pl; for_latches pl].
Definition hash_blocks (k : Z) : list nat := latch_blocks k ++ table_blocks.

Notation own_latches k := (latches mem_alloc (Z.to_nat (2 ^ k))).

Lemma ha_create_ok n lvl k ty R ms ls H :
  ty = MEM_HEAP_FOR_BTR_SEARCH \/ ty = MEM_HEAP_FOR_PAGE_HASH -> 0 <= n < 2 ^ 60 -> prime_near n -> 0 <= k < 64 ->
  regs R ms ls -> fresh_latches (sync_of ty) R ms ls (own_latches k) ->
  exists h R', ha_create_func n lvl (2 ^ k) ty R H = Ok (h, R', list_to_set (hash_blocks k) ∪ H) /\ created n k (sync_of ty) h /\
    extends R ms ls (reverse (own_mutexes (sync_of ty) (own_latches k))) (reverse (own_locks (sync_of ty) (own_latches k))) R' /\
    prio_latches (sync_of ty) R' (own_latches k).
Proof using Hmalloc Hmm Hsize.
  intros Hty Hn Hp Hk Hr Hfr. pose proof (Z.pow_pos_nonneg 2 k). unfold ha_create_func.
  assert ((ty =? MEM_HEAP_FOR_BTR_SEARCH) || (ty =? MEM_HEAP_FOR_PAGE_HASH) = true) as -> by (destruct Hty as [-> | ->]; done).
  rewrite (proj2 (power_masks k Hk)). cbn [ut_a rbind].
  destruct (hash_create_ok n H Hn Hp) as (q & -> & Hq & Hlt). cbn [rbind].
  rewrite (proj2 (Z.eqb_neq _ _)) by lia. fold (sync_of ty). set (h0 := mkHash _ _ _ _ _ _).
  edestruct (sync_obj_ok h0 (sync_of ty) lvl k R ms ls (list_to_set table_blocks ∪ H))
    as (R' & -> & X & P); [destruct Hty as [-> | ->]; done|done..|]. cbn [rbind]. rewrite create_heaps_ok.
  eexists _, R'. split; [|split; [|done]].
  - unfold hash_blocks, latch_blocks, mem_get. rewrite !list_to_set_app_L. cbn [list_to_set]. f_equal. f_equal. set_solver.
  - constructor; cbn; try done. by exists q.
Qed.

Lemma ha_clear_ok n k ty h R ms ls H0 ys H :
  ty <> HASH_TABLE_SYNC_NONE -> 0 <= k < 64 -> created n k ty h -> regs R ms ls -> idle_latches ty R ms ls (own_latches k) ->
  own H0 (latch_blocks k ++ ys) H ->
  exists R' H', ha_clear h R H =
      Ok (mkHash (mkLatched (hash_table_clear (cells (table h))) HASH_TABLE_SYNC_NONE 0) (table_at h) (array_at h) None (heaps h) (heap h), R', H') /\
    freed R ms ls (own_mutexes ty (own_latches k)) (own_locks ty (own_latches k)) R' /\ own H0 ys H'.
Proof using Hmm Hsize.
  intros Hty Hk [_ Et En Eo Eh _] Hr Hid HO. pose proof (Z.pow_pos_nonneg 2 k) as Hpow. unfold ha_clear, free_heaps.
  rewrite En, Eh, Eo, Et. rewrite (proj2 (Nat.eqb_neq _ _)) by lia. cbn [deref rbind fmap option_fmap option_map fst put_if].
  rewrite length_fmap, length_seq, Nat.leb_refl. cbn [ut_a rbind]. rewrite take_ge by by rewrite length_fmap, length_seq.
  unfold latch_blocks in HO. rewrite <- app_assoc in HO. destruct (put_all_ok _ _ _ _ HO) as (H1 & -> & HO1). cbn [rbind].
  destruct (mem_put_ok _ _ _ _ HO1) as (H2 & -> & HO2). cbn [rbind].
  destruct (mem_put_ok _ _ _ _ HO2) as (H3 & E3 & HO3).
  pose proof (latches_nodup mem_alloc (Z.to_nat (2 ^ k))) as Hnd. destruct ty; [done| |]; cbn [rbind].
  - destruct (free_mutexes_ok _ R ms ls Hnd Hr Hid) as (R' & -> & F). cbn [rbind]. rewrite E3. cbn [rbind]. by eexists _, H3.
  - destruct (free_locks_ok _ R ms ls Hnd Hr Hid) as (R' & -> & F). cbn [rbind]. rewrite E3. cbn [rbind]. by eexists _, H3.
Qed.

Lemma table_free_ok h H0 ys H :
  table_at h = for_table pl -> array_at h = for_array pl -> own H0 (table_blocks ++ ys) H ->
  exists H', hash_table_free h H = Ok H' /\ own H0 ys H'.
Proof.
  intros E1 E2 HO. unfold hash_table_free. rewrite E1, E2. destruct (mem_put_ok _ _ _ _ HO) as (H1 & -> & HO1). cbn [rbind].
  by apply mem_put_ok.
Qed.

(** The latches of a new table are idle. *)
Lemma new_latches_idle ty xs R ms ls R' :
  extends R ms ls (reverse (own_mutexes ty xs)) (reverse (own_locks ty xs)) R' -> prio_latches ty R' xs ->
  fresh_latches ty R ms ls xs ->
  idle_latches ty R' (reverse (own_mutexes ty xs) ++ ms) (reverse (own_locks ty xs) ++ ls) xs.
Proof.
  intros X P Hfr x Hx. specialize (P x Hx). unfold fresh_latches, own_mutexes, own_locks in *. destruct (is_rw ty).
  - split_and!; [set_solver| |done]. apply (ex_unlocked _ _ _ _ _ _ _ _ X). set_solver.
  - split_and!; [set_solver|by apply Hfr| |done]. apply (ex_idle _ _ _ _ _ _ _ _ X). set_solver.
Qed.

(** [ha_create] makes an empty table: a prime number of cells above the
    requested number and as many latches as asked for, which are free and
    registered in the server.  [ha_clear] empties the table again and releases
    every latch, so that both registries are what they were, and
    [hash_table_free] gives the rest of its memory back. *)
Theorem hash_lifecycle n lvl k ty R ms ls H :
  ty = MEM_HEAP_FOR_BTR_SEARCH \/ ty = MEM_HEAP_FOR_PAGE_HASH -> 0 <= n < 2 ^ 60 -> prime_near n -> 0 <= k < 64 ->
  regs R ms ls -> fresh_latches (sync_of ty) R ms ls (own_latches k) -> NoDup (hash_blocks k) -> (forall x, x ∈ hash_blocks k -> x ∉ H) ->
  exists h R1 H1 h' R2 H2, ha_create_func n lvl (2 ^ k) ty R H = Ok (h, R1, H1) /\ created n k (sync_of ty) h /\
    (forall m, HashTable.rep (cells (table h)) m (fun _ => [])) /\
    extends R ms ls (reverse (own_mutexes (sync_of ty) (own_latches k))) (reverse (own_locks (sync_of ty) (own_latches k))) R1 /\
    ha_clear h R1 H1 = Ok (h', R2, H2) /\ type (table h') = HASH_TABLE_SYNC_NONE /\ n_sync_obj (table h') = 0 /\ regs R2 ms ls /\
    hash_table_free h' H2 = Ok H.
Proof using Hmalloc Hmm Hsize.
  intros Hty Hn Hp Hk Hr Hfr Hnd Hnew. destruct (ha_create_ok n lvl k ty R ms ls H Hty Hn Hp Hk Hr Hfr) as (h & R1 & E & C & X & P).
  assert (sync_of ty <> HASH_TABLE_SYNC_NONE) as Hne by (unfold sync_of; by case_match).
  pose proof (own_add H [] (hash_blocks k) H (own_nil H)) as HO. rewrite app_nil_r in HO. specialize (HO Hnd Hnew).
  destruct (ha_clear_ok n k (sync_of ty) h R1 _ _ H table_blocks _ Hne Hk C (ex_regs _ _ _ _ _ _ _ _ X)
    (new_latches_idle _ _ _ _ _ _ X P Hfr) HO) as (R2 & H2 & E2 & F & HO2).
  destruct (cr_places _ _ _ _ C) as [P1 P2]. rewrite <- (app_nil_r table_blocks) in HO2.
  exists h, R1. eexists _, _, R2, H2. split_and!; [exact E|done| |done|exact E2|done|done|..].
  - intros m. destruct (cr_prime _ _ _ _ C) as (q & [Hq _] & _ & ->). apply empty_cells_rep. lia.
  - eapply extends_freed; [exact X|exact F|intros x; by rewrite elem_of_reverse..].
  - match goal with |- hash_table_free ?h' _ = _ => destruct (table_free_ok h' H [] H2 P1 P2 HO2) as (H3 & -> & HO3) end.
    by rewrite (own_done _ _ HO3).
Qed.
End create.

(** ** A table with two read-write locks *)

Lemma prime_149 : prime 149.
Proof.
  destruct (trial_ok 149 ltac:(lia) 20 2) as (b & E & Hb); [lia|by vm_compute|by vm_compute|intros j Hj; lia|].
  apply Hb. vm_compute in E. by injection E as <-.
Qed.

Definition small_registry : RwList.state :=
  RwList.mkState ∅ ∅ (UT_LIST_INIT {[ 20%nat := mkNode None None; 25%nat := mkNode None None ]})
    (MutexList.mkState {[ 9%nat := MutexList.mutex_fields 0 "" 0 "" None; 8%nat := MutexList.mutex_fields 0 "" 0 "" None ]} ∅
      (mkList {[ 8%nat := mkNode None None ]} (mkBase 1 (Some 8%nat) (Some 8%nat)))).

Lemma small_registry_ok : regs 9 8 small_registry [8%nat] [].
Proof.
  constructor.
  - constructor; cbn.
    + constructor; cbn; try done. apply NoDup_singleton.
    + set_solver.
    + eexists. split; [reflexivity|done].
    + intros x ->%list_elem_of_singleton. eexists. split; [reflexivity|done].
  - constructor; cbn; [apply ut_list_init_rep|by intros x ?%elem_of_nil|]. eexists. split; [reflexivity|done].
Qed.

Definition small_places : places := mkPlaces 1 2 20 3 (fun i => 10 + i)%nat.

Lemma hash_lifecycle_witness :
  exists h R1 H1 h' R2 H2, ha_create_func 9 100 (fun n => replicate n (Some 7%nat)) 5 small_places 10 SyncLevels.SYNC_BUF_PAGE_HASH
      (2 ^ 1) MEM_HEAP_FOR_PAGE_HASH small_registry {[30%nat]} = Ok (h, R1, H1) /\
    created small_places 10 1 (sync_of MEM_HEAP_FOR_PAGE_HASH) h /\ (forall m, HashTable.rep (cells (table h)) m (fun _ => [])) /\
    Registries.extends 9 8 small_registry [8%nat] [] (reverse (own_mutexes (sync_of MEM_HEAP_FOR_PAGE_HASH) (latches 5 20 (Z.to_nat (2 ^ 1)))))
      (reverse (own_locks (sync_of MEM_HEAP_FOR_PAGE_HASH) (latches 5 20 (Z.to_nat (2 ^ 1))))) R1 /\
    ha_clear 9 8 0 5 h R1 H1 = Ok (h', R2, H2) /\ type (table h') = HASH_TABLE_SYNC_NONE /\ n_sync_obj (table h') = 0 /\ regs 9 8 R2 [8%nat] [] /\
    hash_table_free h' H2 = Ok {[30%nat]}.
Proof.
  apply (hash_lifecycle 9 8 0 100 (fun n => replicate n (Some 7%nat)) 5 small_places); try done.
  - intros n. apply length_replicate.
  - lia.
  - by right.
  - exists 141, 149. split_and!; [by vm_compute|exact prime_149|done|done|done].
  - exact small_registry_ok.
  - split; [|done]. change (latches _ _ _) with [20%nat; 25%nat].
    intros x [->|[->|Hx]%elem_of_cons]%elem_of_cons;
      [split; [by intros H%elem_of_nil|by eexists]..|by apply elem_of_nil in Hx].
  - by compute_decide.
  - intros x Hx%list_elem_of_In ->%elem_of_singleton. vm_compute in Hx. intuition discriminate.
Defined.
End HashCreate.
