(* ===== verification/BufInit.v ===== *)
(** * Creating the blocks of a buffer pool instance (buf/buf0buf.cc)

    [buf_chunk_init] divides the memory of an instance ([BufChunk]) and
    initialises its block descriptors: their fields, their mutex ([MutexList])
    and read-write lock ([RwList]), which enter the registries of the server,
    and their place in the free list ([UtList]).  The branch without
    instrumentation of the block latches is modelled, as the comment in the
    source says that it runs; as in the registries the latches are those of the
    debug build, in which a block has a second lock. *)
From stdpp Require Import strings.
From S2P Require Import Prelude Results UtList OsEvent MutexList RwLock RwList SyncLevels Registries BufChunk HashTable BufPage.
Local Open Scope Z_scope.

Module BufInit.
Import UtList Registries BufChunk BufPage.
Local Open Scope mc_scope.

(** The fields of [buf_block_t] that are initialised. *)
Record buf_block := mkBlock {
  page : buf_page; frame : Z; modify_clock : Z; check_index_page_at_flush : bool; index : option nat }.

Definition BUF_NO_CHECKSUM_MAGIC : Z := 0xDEADBEEF.

(** The blocks by address, the free list of the instance, and the registries of
    the server. *)
Record state := mkState {
  block_at : gmap nat buf_block;
  free : ut_list;
  sync : RwList.state }.

Definition set_block (x : nat) (b : buf_block) (s : state) : state := mkState (<[x := b]> (block_at s)) (free s) (sync s).
Definition set_free (l : ut_list) (s : state) : state := mkState (block_at s) l (sync s).
Definition set_registries (r : RwList.state) (s : state) : state := mkState (block_at s) (free s) r.

Section init.
(** The offsets of the mutex and the two locks in a block, the mutexes of the
    registries, and the configuration of the memory. *)
Context (off_mutex off_lock off_debug mutex_list_mutex rw_lock_list_mutex : nat).
Context (UNIV_PAGE_SIZE sizeof_block getpagesize os_large_page_size : Z) (os_use_large_pages : bool)
  (mmap shm_alloc : Z -> option Z).
(** [buf_pool_index(buf_pool)] *)
Context (pool_index : Z).

Definition mutex_of (x : nat) : nat := (x + off_mutex)%nat.
Definition lock_of (x : nat) : nat := (x + off_lock)%nat.
Definition debug_of (x : nat) : nat := (x + off_debug)%nat.

(** Lines 1204-1226 and 1239: the fields that are set, the others keep what the
    memory held. *)
Definition block_fields (fr : Z) (b : buf_block) : buf_block :=
  let p := page b in
  mkBlock (mkPage (space p) (offset p) 0 BUF_IO_NONE BUF_BLOCK_NOT_USED (flush_type p) pool_index None 0 0
      false false BUF_NO_CHECKSUM_MAGIC false BUF_NO_CHECKSUM_MAGIC 0 None (newest_modification p)
      (oldest_modification p) (old p) (freed_page_clock p) (access_time p) (is_corrupt p))
    fr 0 false None.

(** Lines 1193-1272. *)
Definition buf_block_init (x : nat) (fr : Z) (s : state) : res state :=
  let! b := deref (block_at s !! x) in
  let s := set_block x (block_fields fr b) s in
  let! m := MutexList.mutex_create_func mutex_list_mutex (mutex_of x) SyncLevels.SYNC_BUF_BLOCK "buf0buf.cc" 1251
    "&block->mutex" (RwList.sync (sync s)) in
  let! r := RwList.rw_lock_create_func (lock_of x) SyncLevels.SYNC_LEVEL_VARYING "&block->lock" "buf0buf.cc" 1252
    (RwList.set_sync m (sync s)) in
  let! r := RwList.rw_lock_create_func (debug_of x) SyncLevels.SYNC_NO_ORDER_CHECK "&block->debug_latch" "buf0buf.cc" 1255 r in
  Ok (set_registries r s).

(** The loop of lines 1358-1373. *)
Fixpoint block_loop (n : nat) (block fr : Z) (s : state) : res state :=
  match n with
  | O => Ok s
  | S n =>
      let x := Z.to_nat block in
      let! s := buf_block_init x fr s in
      let! l := deref (ut_list_append x (free s)) in
      block_loop n (block + sizeof_block) (fr + UNIV_PAGE_SIZE) (set_free l s)
  end.

(** Lines 1278-1381: the chunk, or [None] for [NULL], and the total of
    allocated memory. *)
Definition buf_chunk_init (mem_size total : Z) (s : state) : res (option buf_chunk * Z * state) :=
  match chunk_layout UNIV_PAGE_SIZE sizeof_block getpagesize os_large_page_size os_use_large_pages mmap shm_alloc
    mem_size total with
  | None => Blocked
  | Some (None, total) => Ok (None, total, s)
  | Some (Some (c, fr), total) =>
      let! s := block_loop (Z.to_nat (BufChunk.size c)) (blocks c) fr s in Ok (Some c, total, s)
  end.

(** ** One block *)

Definition ready_block (fr : Z) (b : buf_block) : Prop :=
  frame b = fr /\ BufPage.state (page b) = BUF_BLOCK_NOT_USED /\ buf_fix_count (page b) = 0 /\ io_fix (page b) = BUF_IO_NONE /\
  buf_pool_index (page b) = pool_index /\ zip_data (page b) = None /\ slot (page b) = None /\
  modify_clock b = 0 /\ index b = None.

Definition registries (s : state) (ms ls : list nat) : Prop := regs mutex_list_mutex rw_lock_list_mutex (sync s) ms ls.

Notation grown s ms ls newm newl s' := (extends mutex_list_mutex rw_lock_list_mutex (sync s) ms ls newm newl (sync s')).

(** Memory for a block that is not in use yet. *)
Record available (s : state) (fs ms ls : list nat) (x : nat) : Prop := Available {
  av_block : is_Some (block_at s !! x);
  av_free : is_Some (nodes (free s) !! x) /\ x ∉ fs;
  av_mutex : new_mutex mutex_list_mutex rw_lock_list_mutex (sync s) ms (mutex_of x);
  av_lock : new_lock (sync s) ls (lock_of x);
  av_debug : new_lock (sync s) ls (debug_of x) }.

(** The locks of a block and of another one do not overlap. *)
Definition apart (x y : nat) : Prop := lock_of y <> debug_of x /\ debug_of y <> lock_of x /\ y <> x.

Context (Hoff : off_lock <> off_debug).

Lemma block_init_ok s fs ms ls x fr :
  registries s ms ls -> available s fs ms ls x -> room ms 1 -> room ls 2 ->
  exists s', buf_block_init x fr s = Ok s' /\ grown s ms ls [mutex_of x] [debug_of x; lock_of x] s' /\
    free s' = free s /\ (exists b, block_at s' !! x = Some b /\ ready_block fr b) /\
    (forall y, y <> x -> block_at s' !! y = block_at s !! y).
Proof using Hoff.
  clear mmap shm_alloc. intros Hre [[b Hb] _ Hm Hl Hd] Hrm Hrl.
  unfold buf_block_init. rewrite Hb. cbn [deref rbind]. cbn [set_block sync].
  edestruct (mutex_create_extends mutex_list_mutex rw_lock_list_mutex (sync s)) as (m & -> & X0); [exact Hre|exact Hm|done|].
  cbn [rbind].
  edestruct (lock_create_extends mutex_list_mutex rw_lock_list_mutex (RwList.set_sync m (sync s))) as (r1 & -> & X1);
    [apply X0|exact Hl|unfold room in *; cbn; lia|]. cbn [rbind].
  pose proof (extends_trans _ _ _ _ _ _ _ _ _ _ _ X0 X1) as X01.
  edestruct (lock_create_extends mutex_list_mutex rw_lock_list_mutex r1) as (r2 & -> & X2).
  - apply X1.
  - destruct Hd as [Hd1 Hd2]. split; [|by apply (ex_lock_nodes _ _ _ _ _ _ _ _ X01)].
    intros [Heq|Hin]%elem_of_cons; [unfold debug_of, lock_of in Heq; lia|done].
  - unfold room in *; cbn; lia.
  - cbn [rbind]. pose proof (extends_trans _ _ _ _ _ _ _ _ _ _ _ X01 X2) as X.
    eexists. split; [reflexivity|]. split_and!; cbn; try done.
    + eexists. rewrite lookup_insert_eq. split; [reflexivity|done].
    + intros y Hy. by rewrite lookup_insert_ne.
Qed.

(** The other blocks stay available. *)
Lemma available_grown s fs gs ms ls x s' y :
  grown s ms ls [mutex_of x] [debug_of x; lock_of x] s' -> apart x y -> (forall y, y <> x -> block_at s' !! y = block_at s !! y) ->
  is_Some (nodes (free s') !! y) /\ y ∉ gs -> available s fs ms ls y ->
  available s' gs ([mutex_of x] ++ ms) ([debug_of x; lock_of x] ++ ls) y.
Proof.
  clear mmap shm_alloc. intros X (A1 & A2 & A3) Hb Hf [B1 _ (M1 & M2 & M3 & M4) (L1 & L2) (D1 & D2)].
  assert (mutex_of y <> mutex_of x /\ lock_of y <> lock_of x /\ debug_of y <> debug_of x) as (N1 & N2 & N3)
    by (unfold mutex_of, lock_of, debug_of; lia).
  constructor; [by rewrite Hb|done|..].
  - split_and!; [done|done|set_solver|by apply (ex_mutex_nodes _ _ _ _ _ _ _ _ X)].
  - split; [set_solver|by apply (ex_lock_nodes _ _ _ _ _ _ _ _ X)].
  - split; [set_solver|by apply (ex_lock_nodes _ _ _ _ _ _ _ _ X)].
Qed.

(** ** All blocks of a chunk *)

Definition block_addr (block : Z) (i : nat) : nat := Z.to_nat (block + Z.of_nat i * sizeof_block).
Definition block_addrs (n : nat) (block : Z) : list nat := block_addr block <$> seq 0 n.

Definition new_mutexes (xs : list nat) : list nat := reverse (mutex_of <$> xs).
Definition new_locks (xs : list nat) : list nat := mjoin ((fun x => [debug_of x; lock_of x]) <$> reverse xs).

Lemma block_addrs_S n block : block_addrs (S n) block = Z.to_nat block :: block_addrs n (block + sizeof_block).
Proof.
  unfold block_addrs. cbn [seq]. rewrite fmap_cons, <- fmap_S_seq, <- list_fmap_compose. f_equal.
  - unfold block_addr. f_equal. lia.
  - apply list_fmap_ext. intros i j _. unfold block_addr, compose. f_equal. lia.
Qed.

(** What the loop leaves behind. *)
Record initialised (s : state) (fs ms ls xs : list nat) (block fr : Z) (n : nat) (s' : state) : Prop := Initialised {
  in_registries : grown s ms ls (new_mutexes xs) (new_locks xs) s';
  in_free : UtList.rep (free s') (fs ++ xs);
  in_blocks : forall i, (i < n)%nat -> exists b, block_at s' !! block_addr block i = Some b /\
    ready_block (fr + Z.of_nat i * UNIV_PAGE_SIZE) b;
  in_others : forall y, y ∉ xs -> block_at s' !! y = block_at s !! y }.

Lemma block_loop_ok n : forall block fr s fs ms ls,
  0 <= block -> 0 < sizeof_block -> Z.of_nat off_lock < sizeof_block -> Z.of_nat off_debug < sizeof_block ->
  registries s ms ls -> UtList.rep (free s) fs -> room fs n -> room ms n -> room ls (2 * n) ->
  (forall x, x ∈ block_addrs n block -> available s fs ms ls x) ->
  exists s', block_loop n block fr s = Ok s' /\ initialised s fs ms ls (block_addrs n block) block fr n s'.
Proof using Hoff.
  clear mmap shm_alloc. induction n as [|n IH]; intros block fr s fs ms ls Hb Hsz Ho1 Ho2 Hre Hfr R1 R2 R3 Hav.
  { exists s. split; [done|]. constructor; cbn; [by apply extends_refl|by rewrite app_nil_r|lia|done]. }
  rewrite block_addrs_S in *. cbn [block_loop]. set (x := Z.to_nat block) in *. unfold room in *.
  destruct (block_init_ok s fs ms ls x fr Hre) as (s1 & -> & Hgr & Ef & Hblk & Hoth);
    [apply Hav; by left|unfold room; lia..|]. cbn [rbind].
  destruct (av_free _ _ _ _ _ (Hav x ltac:(left))) as [Hn Hno]. rewrite Ef.
  destruct (ut_list_append_rep (free s) fs x) as (l & -> & Hrl & Hol); [done|done|done|lia|]. cbn [deref rbind].
  assert (forall y, y ∈ block_addrs n (block + sizeof_block) -> apart x y) as Hap.
  { intros y (i & -> & [_ Hi]%elem_of_seq)%list_elem_of_fmap. unfold apart, lock_of, debug_of, block_addr, x. nia. }
  destruct (IH (block + sizeof_block) (fr + UNIV_PAGE_SIZE) (set_free l s1) (fs ++ [x]) ([mutex_of x] ++ ms)
    ([debug_of x; lock_of x] ++ ls)) as (s' & E & [J1 J2 J3 J4]); cbn; rewrite ?length_app; cbn; try done; try lia.
  { apply Hgr. }
  { intros y Hy. pose proof (Hap y Hy) as Hay. destruct (Hav y ltac:(by right)) as [_ [B2 B3] _ _ _].
    apply (available_grown s fs _ _ _ _ (set_free l s1)); try done; [|by apply Hav; right]. split.
    - eapply rep_alloc; [exact Hrl|exact Hol|done].
    - destruct Hay as (_ & _ & Hyx). set_solver. }
  exists s'. split; [exact E|]. constructor.
  - unfold new_mutexes, new_locks. rewrite fmap_cons, !reverse_cons, fmap_app, join_app.
    by eapply extends_trans.
  - by rewrite <- app_assoc in J2.
  - intros [|i] Hi.
    + destruct Hblk as (b & Hb1 & Hb2). exists b. replace (block_addr block 0) with x by (unfold block_addr, x; f_equal; lia).
      rewrite Z.mul_0_l, Z.add_0_r. split; [|done]. rewrite J4; [done|]. intros Hx. by destruct (Hap x Hx) as (_ & _ & ?).
    + destruct (J3 i ltac:(lia)) as (b & Hb1 & Hb2). exists b.
      replace (block_addr block (S i)) with (block_addr (block + sizeof_block) i) by (unfold block_addr; f_equal; lia).
      replace (fr + Z.of_nat (S i) * UNIV_PAGE_SIZE) with (fr + UNIV_PAGE_SIZE + Z.of_nat i * UNIV_PAGE_SIZE) by lia. done.
  - intros y Hy. rewrite J4 by set_solver. apply Hoth. set_solver.
Qed.

(** The memory a chunk is cut out of is not in use. *)
Definition fresh_memory (s : state) (ms ls : list nat) (mem_size total : Z) : Prop :=
  forall c fr total', chunk_layout UNIV_PAGE_SIZE sizeof_block getpagesize os_large_page_size os_use_large_pages mmap shm_alloc
    mem_size total = Some (Some (c, fr), total') ->
  forall x, x ∈ block_addrs (Z.to_nat (BufChunk.size c)) (blocks c) -> available s [] ms ls x.

(** The memory that the operating system gives for a chunk of this size. *)
Definition large_memory (mem_size total : Z) : option Z :=
  (os_mem_alloc_large getpagesize os_large_page_size os_use_large_pages mmap shm_alloc
    (needed_bytes UNIV_PAGE_SIZE sizeof_block mem_size) total).1.1.

(** [buf_chunk_init] terminates; unless there is no memory it creates one block
    less than the pages requested.  The free list holds exactly the blocks, in
    the order of their addresses; each is unused, belongs to the instance and
    has a page frame of its own behind all descriptors, aligned and inside the
    memory; its mutex and locks are at the head of the registries, and nothing
    else has changed. *)
Theorem chunk_init_ok k g mem_size total s ms ls :
  config UNIV_PAGE_SIZE sizeof_block getpagesize os_large_page_size os_use_large_pages mmap shm_alloc k g ->
  request_ok UNIV_PAGE_SIZE sizeof_block getpagesize os_large_page_size mem_size ->
  Z.of_nat off_lock < sizeof_block -> Z.of_nat off_debug < sizeof_block ->
  registries s ms ls -> UtList.rep (free s) [] -> fresh_memory s ms ls mem_size total ->
  room ms (Z.to_nat (mem_size / UNIV_PAGE_SIZE)) -> room ls (2 * Z.to_nat (mem_size / UNIV_PAGE_SIZE)) ->
  exists r total' s', buf_chunk_init mem_size total s = Ok (r, total', s') /\
    match r with
    | None => s' = s /\ total' = total /\ large_memory mem_size total = None
    | Some c => is_Some (large_memory mem_size total) /\ exists fr, BufChunk.size c = mem_size / UNIV_PAGE_SIZE - 1 /\ layout UNIV_PAGE_SIZE sizeof_block c fr /\
        total' = u64 (total + BufChunk.mem_size c) /\
        chunk_layout UNIV_PAGE_SIZE sizeof_block getpagesize os_large_page_size os_use_large_pages mmap shm_alloc mem_size total =
          Some (Some (c, fr), total') /\
        initialised s [] ms ls (block_addrs (Z.to_nat (BufChunk.size c)) (blocks c)) (blocks c) fr (Z.to_nat (BufChunk.size c)) s'
    end.
Proof using Hoff.
  intros Hcf Hrq Ho1 Ho2 Hre Hfr Hfm Hrm Hrl. unfold buf_chunk_init.
  edestruct (chunk_layout_exact UNIV_PAGE_SIZE sizeof_block getpagesize os_large_page_size os_use_large_pages mmap shm_alloc
    k g mem_size total Hcf Hrq) as (r & total' & El & Hr). rewrite El. destruct r as [[c fr]|]; [|destruct Hr as [Ha ->]; by eexists None, _, _].
  destruct Hr as (Esz & Hlay & _ & _ & Hmem). pose proof Hlay as [Eb _ _ _ Hsp]. destruct Hcf as [[Hk Ek] _ _ HB _ _]. destruct Hrq as (Hreq & Hmax & Hl0).
  assert (0 < UNIV_PAGE_SIZE) as HP by (rewrite Ek; apply Z.pow_pos_nonneg; lia).
  assert (1 <= mem_size / UNIV_PAGE_SIZE) by (apply Z.div_le_lower_bound; lia). unfold room in *.
  destruct (block_loop_ok (Z.to_nat (BufChunk.size c)) (blocks c) fr s [] ms ls) as (s' & -> & Hin); try done; unfold room; cbn; try lia.
  { intros x Hx. by eapply Hfm. }
  cbn [rbind]. exists (Some c), total', s'. split; [done|]. split; [exact Hmem|]. exists fr. split_and!; try done. by eapply chunk_layout_total.
Qed.
End init.

(** ** An instance of one block *)

(** The memory at address 64, and registries with the mutex of the lock list. *)
Definition small_mmap (sz : Z) : option Z := if sz <? 2 ^ 40 then Some 64 else None.

Lemma tiny_config : config (2 ^ 6) 40 (2 ^ 5) 0 false small_mmap (fun _ => None) 6 5.
Proof. constructor; try done. intros sz p. unfold small_mmap. destruct (Z.ltb_spec sz (2 ^ 40)); [|done]. intros [= <-]. lia. Qed.

Definition raw_block : buf_block :=
  mkBlock (mkPage 0 0 0 BUF_IO_NONE BUF_BLOCK_POOL_WATCH 0 0 None 0 0 false false 0 false 0 0 None 0 0 false 0 0 false) 0 0 false None.

Definition small_start : state :=
  mkState {[ 64%nat := raw_block ]} (UT_LIST_INIT {[ 64%nat := mkNode None None ]})
    (RwList.mkState ∅ ∅ (UT_LIST_INIT {[ 74%nat := mkNode None None; 84%nat := mkNode None None ]})
      (MutexList.mkState {[ 9%nat := MutexList.mutex_fields 0 "" 0 "" None; 8%nat := MutexList.mutex_fields 0 "" 0 "" None ]} ∅
        (mkList {[ 8%nat := mkNode None None; 69%nat := mkNode None None ]} (mkBase 1 (Some 8%nat) (Some 8%nat))))).

Lemma small_registries : registries 9 8 small_start [8%nat] [].
Proof.
  unfold registries. constructor.
  - constructor; cbn.
    + constructor; cbn; try done. apply NoDup_singleton.
    + set_solver.
    + eexists. split; [reflexivity|done].
    + intros x ->%list_elem_of_singleton. eexists. split; [reflexivity|done].
  - constructor; cbn; [apply ut_list_init_rep|by intros x ?%elem_of_nil|]. eexists. split; [reflexivity|done].
Qed.

Lemma small_fresh : fresh_memory 5 10 20 9 8 (2 ^ 6) 40 (2 ^ 5) 0 false small_mmap (fun _ => None) small_start [8%nat] [] (2 * 2 ^ 6) 0.
Proof.
  intros c fr total' E x. vm_compute in E. injection E as <- _ _. intros ->%list_elem_of_singleton.
  change (block_addr _ _ _) with 64%nat. constructor.
  - by eexists.
  - split; [by eexists|set_solver].
  - split_and!; [done|done| |by eexists]. intros Hx%list_elem_of_singleton. done.
  - split; [set_solver|by eexists].
  - split; [set_solver|by eexists].
Qed.

Lemma chunk_init_ok_witness :
  exists r total' s', buf_chunk_init 5 10 20 9 (2 ^ 6) 40 (2 ^ 5) 0 false small_mmap (fun _ => None) 3 (2 * 2 ^ 6) 0 small_start = Ok (r, total', s') /\
    match r with
    | None => s' = small_start /\ total' = 0 /\
        large_memory (2 ^ 6) 40 (2 ^ 5) 0 false small_mmap (fun _ => None) (2 * 2 ^ 6) 0 = None
    | Some c => is_Some (large_memory (2 ^ 6) 40 (2 ^ 5) 0 false small_mmap (fun _ => None) (2 * 2 ^ 6) 0) /\ exists fr, BufChunk.size c = 2 * 2 ^ 6 / 2 ^ 6 - 1 /\ layout (2 ^ 6) 40 c fr /\ total' = u64 (0 + BufChunk.mem_size c) /\
        chunk_layout (2 ^ 6) 40 (2 ^ 5) 0 false small_mmap (fun _ => None) (2 * 2 ^ 6) 0 = Some (Some (c, fr), total') /\
        initialised 5 10 20 9 8 (2 ^ 6) 40 3 small_start [] [8%nat] [] (block_addrs 40 (Z.to_nat (BufChunk.size c)) (blocks c)) (blocks c) fr
          (Z.to_nat (BufChunk.size c)) s'
    end.
Proof.
  apply (chunk_init_ok 5 10 20 9 8 (2 ^ 6) 40 (2 ^ 5) 0 false small_mmap (fun _ => None) 3 ltac:(done) 6 5 (2 * 2 ^ 6) 0 small_start
    [8%nat] []);
    [exact tiny_config|unfold request_ok; split_and!; by vm_compute|done|done|exact small_registries|apply ut_list_init_rep|exact small_fresh|done|done].
Defined.
End BufInit.
