(* ===== verification/BufThreads.v ===== *)
(** * The parallel creation of the buffer pool (buf/buf0buf.cc)

    [buf_pool_init] starts one thread per buffer pool instance, which runs
    [RunThread] and [buf_pool_init_instance], and joins them.  The instances
    are disjoint parts of the array [buf_pool_ptr]; what the threads share is
    modelled here, one transition per access: the number of page hash locks
    [srv_n_page_hash_locks], which each thread rounds up and stores again, the
    total of allocated memory, which is changed under a mutex, and the array
    itself, which a failed thread frees.  The blocks of an instance are in
    [BufInit], the registries they enter in [MutexList], [RwList] and
    [UtListConc]. *)
From S2P Require Import Prelude Results BufChunk.
Local Open Scope Z_scope.

Module BufThreads.
Import BufChunk.

Definition MAX_PAGE_HASH_LOCKS : Z := 1024.

(** Program counters, with the lines of buf0buf.cc. *)
Inductive pc :=
| TAlloc                (* 1553: the memory of the chunk *)
| TRead                 (* 1570: reads srv_n_page_hash_locks *)
| TStore (n : Z)        (* 1569: stores it rounded up *)
| TPositive             (* 1571: ut_a(srv_n_page_hash_locks != 0) *)
| TMax                  (* 1572: ut_a(srv_n_page_hash_locks <= MAX_PAGE_HASH_LOCKS) *)
| TCreate               (* 1574: ha_create reads it once more *)
| TDone                 (* returned *)
| TFreeInstance         (* 1555: mem_free(buf_pool), an element of the array *)
| TFreeAll              (* 1721: buf_pool_free(thread_index) *)
| TFault.               (* a failed assertion, or memory freed that was not allocated *)

Record state := mkState {
  srv_n_page_hash_locks : Z;
  ut_total_allocated_memory : Z;
  array_allocated : bool;
  n_locks : nat -> option Z;
  thread : nat -> pc }.

Definition goto (t : nat) (p : pc) (s : state) : state :=
  mkState (srv_n_page_hash_locks s) (ut_total_allocated_memory s) (array_allocated s) (n_locks s) (upd (thread s) t p).

Definition set_locks (n : Z) (s : state) : state :=
  mkState n (ut_total_allocated_memory s) (array_allocated s) (n_locks s) (thread s).
Definition set_total (n : Z) (s : state) : state :=
  mkState (srv_n_page_hash_locks s) n (array_allocated s) (n_locks s) (thread s).
Definition free_array (s : state) : state :=
  mkState (srv_n_page_hash_locks s) (ut_total_allocated_memory s) false (n_locks s) (thread s).
Definition set_n_locks (t : nat) (n : Z) (s : state) : state :=
  mkState (srv_n_page_hash_locks s) (ut_total_allocated_memory s) (array_allocated s) (upd (n_locks s) t (Some n)) (thread s).

Section threads.
(** The bytes the operating system gives to each instance, [None] where it has
    none left. *)
Context (memory : nat -> option Z).

(** Lines 1712-1724 with 1517-1610: one transition of the thread of instance
    [t].  Only the first element of the array is the start of its memory;
    [buf_pool_free] frees the whole array in the end. *)
Definition RunThread_step (t : nat) (s : state) : option state :=
  match thread s t with
  | TAlloc =>
      Some (match memory t with
            | Some n => goto t TRead (set_total (u64 (ut_total_allocated_memory s + n)) s)
            | None => goto t TFreeInstance s
            end)
  | TRead => Some (goto t (TStore (srv_n_page_hash_locks s)) s)
  | TStore n =>
      match ut_2_power_up n with
      | Some r => Some (goto t TPositive (set_locks r s))
      | None => Some s
      end
  | TPositive => Some (goto t (if srv_n_page_hash_locks s =? 0 then TFault else TMax) s)
  | TMax => Some (goto t (if srv_n_page_hash_locks s <=? MAX_PAGE_HASH_LOCKS then TCreate else TFault) s)
  | TCreate =>
      let n := srv_n_page_hash_locks s in
      Some (if (0 <? n) && ut_is_2pow n then goto t TDone (set_n_locks t n s) else goto t TFault s)
  | TFreeInstance =>
      Some (if (t =? 0)%nat && array_allocated s then goto t TFreeAll (free_array s) else goto t TFault s)
  | TFreeAll => Some (if array_allocated s then goto t TDone (free_array s) else goto t TFault s)
  | TDone | TFault => None
  end.

(** Lines 1765-1803: all threads start; the function returns [DB_SUCCESS] when
    all of them have. *)
Definition init (n0 total0 : Z) : state := mkState n0 total0 true (fun _ => None) (fun _ => TAlloc).

Context (n_instances : nat).

Definition step (s s' : state) : Prop := exists t, (t < n_instances)%nat /\ RunThread_step t s = Some s'.

(** ** Invariant *)

Context (n0 total0 : Z) (Hn0 : 1 <= n0 <= MAX_PAGE_HASH_LOCKS) (Htotal0 : 0 <= total0 < 2 ^ 64).

(** The rounded number. *)
Definition rounded : Z := default 0 (ut_2_power_up n0).

Lemma rounded_power : exists j, 0 <= j <= 10 /\ rounded = 2 ^ j /\ ut_2_power_up n0 = Some (2 ^ j).
Proof using Hn0.
  unfold MAX_PAGE_HASH_LOCKS in Hn0. destruct (ut_2_power_up_spec n0) as (j & Hj & E & _ & Hlow); [lia|].
  exists j. split; [|by unfold rounded; rewrite E]. split; [lia|].
  destruct (Z.le_gt_cases j 10) as [|Hgt]; [done|]. specialize (Hlow ltac:(lia)).
  pose proof (Z.pow_le_mono_r 2 10 (j - 1)). lia.
Qed.

Lemma rounded_ok :
  ut_2_power_up n0 = Some rounded /\ ut_2_power_up rounded = Some rounded /\ 1 <= rounded <= MAX_PAGE_HASH_LOCKS /\
  ut_is_2pow rounded = true.
Proof using Hn0.
  destruct rounded_power as (j & Hj & -> & E).
  assert (j = 0 \/ j = 1 \/ j = 2 \/ j = 3 \/ j = 4 \/ j = 5 \/ j = 6 \/ j = 7 \/ j = 8 \/ j = 9 \/ j = 10) as Hc by lia.
  split; [done|]. by repeat destruct Hc as [->|Hc]; [..|subst j].
Qed.

#[local] Opaque rounded.

(** The number of locks is the original or the rounded one; behind its own
    store a thread only finds the rounded one.  Only a thread without memory
    frees anything, and it never gets beyond that. *)
Definition pc_ok (s : state) (t : nat) (p : pc) : Prop :=
  match p with
  | TAlloc => True
  | TRead => is_Some (memory t)
  | TStore n => is_Some (memory t) /\ (n = n0 \/ n = rounded)
  | TPositive | TMax | TCreate => is_Some (memory t) /\ srv_n_page_hash_locks s = rounded
  | TDone => is_Some (memory t) /\ srv_n_page_hash_locks s = rounded /\ n_locks s t = Some rounded
  | TFreeInstance | TFault => memory t = None
  | TFreeAll => memory t = None /\ array_allocated s = false
  end.

(** The memory a thread has got so far. *)
Definition got (t : nat) (p : pc) : Z := match p with TAlloc => 0 | _ => default 0 (memory t) end.

(** The transitions that are left at most. *)
Definition rank (p : pc) : Z :=
  match p with
  | TAlloc => 6 | TRead => 5 | TStore _ => 4 | TPositive => 3 | TMax => 2 | TCreate => 1
  | TFreeInstance => 2 | TFreeAll => 1 | TDone | TFault => 0
  end.

Record inv (s : state) : Prop := Inv {
  inv_locks : srv_n_page_hash_locks s = n0 \/ srv_n_page_hash_locks s = rounded;
  inv_pc : forall t, pc_ok s t (thread s t);
  inv_total : ut_total_allocated_memory s = u64 (total0 + tsum n_instances (fun t => got t (thread s t))) }.

(** What a transition of [t] may do to the shared state. *)
Lemma inv_after s s' t p :
  inv s -> (t < n_instances)%nat -> thread s' = upd (thread s) t p ->
  (srv_n_page_hash_locks s' = srv_n_page_hash_locks s \/ srv_n_page_hash_locks s' = rounded) ->
  (forall u, u <> t -> n_locks s' u = n_locks s u) ->
  (array_allocated s = false -> array_allocated s' = false) -> pc_ok s' t p ->
  ut_total_allocated_memory s' = u64 (ut_total_allocated_memory s - got t (thread s t) + got t p) -> inv s'.
Proof.
  intros [I1 I2 I3] Ht Eth Hloc Hn Harr Hp Htot. constructor.
  - destruct Hloc as [-> | ->]; auto.
  - intros u. rewrite Eth. upd_cases; [done|]. specialize (I2 u).
    destruct (thread s u); cbn in *; try done; rewrite ?Hn by done; try tauto;
      destruct Hloc as [-> | ->]; tauto.
  - rewrite Htot, I3, Eth.
    rewrite (tsum_change n_instances (fun u => got u (thread s u)) (fun u => got u (upd (thread s) t p u)) t Ht)
      by (intros k Hk; by rewrite upd_ne). rewrite upd_eq.
    unfold u64, wrap_u. rewrite Zplus_mod, Zminus_mod, Z.mod_mod, <- Zminus_mod, <- Zplus_mod by lia. f_equal. lia.
Qed.

Lemma threads_init_inv : inv (init n0 total0).
Proof using Htotal0.
  constructor; cbn; [by left|done|]. rewrite (tsum_const _ _ 0) by done.
  by rewrite Z.mul_0_r, Z.add_0_r, u64_small.
Qed.

Lemma total_range s : inv s -> 0 <= ut_total_allocated_memory s < 2 ^ 64.
Proof. intros I. rewrite (inv_total _ I). by apply wrap_u_range. Qed.

(** A transition that leaves the memory alone. *)
Lemma inv_after_same s s' t p :
  inv s -> (t < n_instances)%nat -> thread s' = upd (thread s) t p ->
  (srv_n_page_hash_locks s' = srv_n_page_hash_locks s \/ srv_n_page_hash_locks s' = rounded) ->
  (forall u, u <> t -> n_locks s' u = n_locks s u) ->
  (array_allocated s = false -> array_allocated s' = false) -> pc_ok s' t p ->
  ut_total_allocated_memory s' = ut_total_allocated_memory s -> got t (thread s t) = got t p -> inv s'.
Proof.
  intros I Ht Eth Hl Hn Ha Hp Htot Hg. eapply inv_after; try done. rewrite Htot, Hg.
  rewrite Z.sub_add. symmetry. apply u64_small. by apply total_range.
Qed.

(** The thread moves to [p] and leaves the memory alone. *)
Ltac move_to p := match goal with
  | I : inv ?s, Et : thread ?s ?t = _ |- _ =>
      eapply (inv_after_same s _ t p); try done; try (by left); try (by right); try (by rewrite Et)
  end.

Lemma threads_step_inv s s' : inv s -> step s s' -> inv s'.
Proof using Hn0 Htotal0.
  intros I (t & Ht & Hst). pose proof (inv_pc _ I t) as Hp. destruct rounded_ok as (R1 & R2 & R3 & R4).
  unfold RunThread_step in Hst. destruct (thread s t) eqn:Et; cbn in Hp; try done.
  - injection Hst as <-. destruct (memory t) as [n|] eqn:Em.
    + eapply (inv_after s _ t TRead); try done; [by left|cbn; by rewrite Em|]. cbn. rewrite Et, Em. cbn. f_equal. lia.
    + move_to TFreeInstance. rewrite Et. cbn. by rewrite Em.
  - injection Hst as <-. pose proof (inv_locks _ I). move_to (TStore (srv_n_page_hash_locks s)).
  - destruct Hp as [Hm Hn]. assert (ut_2_power_up n = Some rounded) as E by (by destruct Hn as [-> | ->]).
    rewrite E in Hst. injection Hst as <-. move_to TPositive.
  - injection Hst as <-. destruct Hp as [Hm Hl]. rewrite Hl. destruct (Z.eqb_spec rounded 0); [lia|].
    move_to TMax.
  - injection Hst as <-. destruct Hp as [Hm Hl]. rewrite Hl, (proj2 (Z.leb_le _ _)) by lia.
    move_to TCreate.
  - injection Hst as <-. destruct Hp as [Hm Hl]. rewrite Hl, R4, (proj2 (Z.ltb_lt _ _)) by lia. cbn [andb].
    move_to TDone; [intros u Hu; cbn; by rewrite upd_ne|]. cbn. by rewrite upd_eq.
  - injection Hst as <-. destruct ((t =? 0)%nat && array_allocated s).
    + move_to TFreeAll.
    + move_to TFault.
  - injection Hst as <-. destruct Hp as [Hm ->]. move_to TFault.
Qed.

Definition ranks (s : state) : Z := tsum n_instances (fun t => rank (thread s t)).

(** Every transition brings its thread forward. *)
Lemma step_rank s s' : inv s -> step s s' -> ranks s' < ranks s.
Proof using Hn0 Htotal0.
  intros I (t & Ht & Hst). pose proof (inv_pc _ I t) as Hp. destruct rounded_ok as (R1 & R2 & R3 & R4).
  assert (exists p, thread s' = upd (thread s) t p /\ rank p < rank (thread s t)) as (p & Eth & Hlt).
  { unfold RunThread_step in Hst. destruct (thread s t) eqn:Et; cbn in Hp; try done.
    3: { destruct Hp as [_ Hn]. assert (ut_2_power_up n = Some rounded) as E by (by destruct Hn as [-> | ->]).
         rewrite E in Hst. injection Hst as <-. by eexists. }
    all: injection Hst as <-; repeat case_match; eexists; (split; [reflexivity|done]). }
  unfold ranks. rewrite Eth.
  rewrite (tsum_change n_instances (fun u => rank (thread s u)) (fun u => rank (upd (thread s) t p u)) t Ht)
    by (intros k Hk; by rewrite upd_ne). rewrite upd_eq. lia.
Qed.

Lemma threads_reachable k s :
  nsteps step k (init n0 total0) s -> inv s /\ Z.of_nat k + ranks s <= 6 * Z.of_nat n_instances.
Proof using Hn0 Htotal0.
  revert s. induction k as [|k IH]; intros s Hs.
  - inversion Hs; subst. split; [apply threads_init_inv|]. unfold ranks. cbn. rewrite (tsum_const _ _ 6) by done. lia.
  - apply nsteps_inv_r in Hs as (s1 & Hs1 & Hst). destruct (IH s1 Hs1) as [I Hr].
    split; [by eapply threads_step_inv|]. pose proof (step_rank _ _ I Hst). lia.
Qed.

Lemma stuck_finished s t : (t < n_instances)%nat -> ~ (exists s', step s s') -> thread s t = TDone \/ thread s t = TFault.
Proof.
  intros Ht Hno. destruct (thread s t) eqn:Et; auto; exfalso; apply Hno;
    (assert (exists s', RunThread_step t s = Some s') as [s' Hs'] by (unfold RunThread_step; rewrite Et; repeat case_match; eauto));
    by exists s', t.
Qed.

(** With enough memory the instances can be created in any interleaving: the
    threads end after at most six accesses each, every page hash gets the same
    number of locks, the original one rounded up to a power of two, though all
    of them change it without a lock, and the total counts the memory of all. *)
Theorem parallel_init_agrees k s :
  (forall t, (t < n_instances)%nat -> is_Some (memory t)) -> nsteps step k (init n0 total0) s ->
  (k <= 6 * n_instances)%nat /\
  (~ (exists s', step s s') -> forall t, (t < n_instances)%nat ->
    thread s t = TDone /\ n_locks s t = ut_2_power_up n0 /\ Some (srv_n_page_hash_locks s) = ut_2_power_up n0 /\
    ut_total_allocated_memory s = u64 (total0 + tsum n_instances (fun t => default 0 (memory t)))).
Proof using Hn0 Htotal0.
  intros Hmem Hs. destruct (threads_reachable k s Hs) as [I Hr]. destruct rounded_ok as (R1 & _).
  assert (0 <= ranks s) by (apply tsum_nonneg; intros t; by destruct (thread s t)). split; [lia|].
  intros Hno. assert (forall t, (t < n_instances)%nat -> thread s t = TDone) as Hall.
  { intros t Ht. destruct (stuck_finished s t Ht Hno) as [|Ef]; [done|].
    pose proof (inv_pc _ I t) as Hp. rewrite Ef in Hp. cbn in Hp. destruct (Hmem t Ht) as [n Hn]. congruence. }
  intros t Ht. pose proof (inv_pc _ I t) as Hp. rewrite (Hall t Ht) in Hp. destruct Hp as (_ & -> & ->).
  rewrite R1. split_and!; try done; [by apply Hall|]. rewrite (inv_total _ I). f_equal. f_equal. apply tsum_ext.
  intros u Hu. by rewrite (Hall u Hu).
Qed.

(** C36: Without memory for one instance no error is reported: its thread frees
    memory that was not allocated, or was freed already, and the server stops
    there; it never returns, so that [buf_pool_init] returns neither
    [DB_SUCCESS] nor [DB_ERROR]. *)
Theorem missing_memory_faults k s t :
  (t < n_instances)%nat -> memory t = None -> nsteps step k (init n0 total0) s ->
  thread s t <> TDone /\ (~ (exists s', step s s') -> thread s t = TFault).
Proof using Hn0 Htotal0.
  intros Ht Hm Hs. destruct (threads_reachable k s Hs) as [I _]. pose proof (inv_pc _ I t) as Hp.
  assert (thread s t <> TDone) as Hnd.
  { intros E. rewrite E in Hp. destruct Hp as [[n Hn] _]. congruence. }
  split; [done|]. intros Hno. by destruct (stuck_finished s t Ht Hno).
Qed.
End threads.

(** ** Two instances *)

(** Both threads read the number before either stores it. *)
Fixpoint run (memory : nat -> option Z) (sched : list nat) (s : state) : option state :=
  match sched with
  | [] => Some s
  | t :: rest => s' ← RunThread_step memory t s; run memory rest s'
  end.

Lemma thread_run_nsteps memory n sched : forall s s',
  Forall (fun t => (t < n)%nat) sched -> run memory sched s = Some s' -> nsteps (step memory n) (length sched) s s'.
Proof.
  induction sched as [|t rest IH]; intros s s' Hf Hr; cbn in Hr; [injection Hr as <-; constructor|].
  apply Forall_cons in Hf as [Ht Hf]. apply bind_Some in Hr as (s1 & E & Hr). econstructor; [by exists t|by apply IH].
Qed.

Definition racing : list nat := [0; 1; 0; 1; 0; 1; 1; 0; 0; 1; 1; 0]%nat.
Definition both (_ : nat) : option Z := Some 1000.
Definition first_only (t : nat) : option Z := if (t =? 0)%nat then Some 1000 else None.

Lemma parallel_init_agrees_witness :
  exists s, nsteps (step both 2) 12 (init 12 0) s /\ n_locks s 1 = Some 16 /\
    (~ (exists s', step both 2 s s') -> forall t, (t < 2)%nat ->
      thread s t = TDone /\ n_locks s t = ut_2_power_up 12 /\ Some (srv_n_page_hash_locks s) = ut_2_power_up 12 /\
      ut_total_allocated_memory s = u64 (0 + tsum 2 (fun t => default 0 (both t)))).
Proof.
  destruct (run both racing (init 12 0)) as [s|] eqn:E; [|vm_compute in E; discriminate E].
  assert (nsteps (step both 2) 12 (init 12 0) s) as Hs.
  { apply (thread_run_nsteps both 2 racing); [repeat constructor; lia|exact E]. }
  exists s. split; [exact Hs|]. split; [vm_compute in E; injection E as <-; reflexivity|].
  apply (parallel_init_agrees both 2 12 0 ltac:(unfold MAX_PAGE_HASH_LOCKS; lia) ltac:(lia) 12 s (fun t _ => ltac:(by eexists)) Hs).
Defined.

Lemma missing_memory_faults_witness :
  exists s, nsteps (step first_only 2) 2 (init 12 0) s /\ thread s 1 = TFault /\
    (thread s 1 <> TDone /\ (~ (exists s', step first_only 2 s s') -> thread s 1 = TFault)).
Proof.
  destruct (run first_only [1; 1]%nat (init 12 0)) as [s|] eqn:E; [|vm_compute in E; discriminate E].
  assert (nsteps (step first_only 2) 2 (init 12 0) s) as Hs.
  { apply (thread_run_nsteps first_only 2 [1; 1]%nat); [repeat constructor; lia|exact E]. }
  exists s. split; [exact Hs|]. split; [vm_compute in E; injection E as <-; reflexivity|].
  apply (missing_memory_faults first_only 2 12 0 ltac:(unfold MAX_PAGE_HASH_LOCKS; lia) ltac:(lia) 2 s 1 ltac:(lia) eq_refl Hs).
Defined.
End BufThreads.
