(* ===== verification/BufPool.v ===== *)
(** * One instance of the buffer pool (buf/buf0buf.cc)

    [buf_pool_init_instance] and [buf_pool_free_instance]: the mutexes of an
    instance, its chunk of blocks ([BufInit]), its hash tables ([HashCreate]),
    its watch array, events and temporary slots, and how all of them are
    released, with every block of memory ([MemHeap]) and the pages of the chunk.
    Of a slot the three pointers are represented that own memory. *)
From stdpp Require Import strings.
From S2P Require Import Prelude Results UtList OsEvent MutexList RwLock RwList Registries MemHeap SyncLevels BufChunk HashTable HashPrime.
From S2P Require Import HashSync HashCreate BufPage BufWatch BufInit BufThreads.
Local Open Scope Z_scope.

Module BufPool.
Import UtList OsEvent Registries MemHeap BufChunk HashSync HashCreate BufPage BufInit.
Local Open Scope mc_scope.

(** A mutex of [buf_pool_t]: its address, whether it is a priority mutex, its
    latching level, name and the line that creates it. *)
Record pool_mutex := mkMutex { at_ : nat; is_prio : bool; level : Z; name : string; line : Z }.

(** The addresses of the seven mutexes of an instance. *)
Record pool_addrs := mkAddrs {
  LRU_list_mutex : nat; free_list_mutex : nat; zip_free_mutex : nat; zip_hash_mutex : nat; zip_mutex : nat;
  flush_state_mutex : nat; flush_list_mutex : nat }.

(** Lines 1532-1543 and 1586-1587: [ib_prio_mutex_t] or [ib_mutex_t] in buf0buf.h. *)
Definition first_mutexes (p : pool_addrs) : list pool_mutex :=
  [mkMutex (LRU_list_mutex p) true SyncLevels.SYNC_BUF_LRU_LIST "&buf_pool->LRU_list_mutex" 1533;
   mkMutex (free_list_mutex p) true SyncLevels.SYNC_BUF_FREE_LIST "&buf_pool->free_list_mutex" 1535;
   mkMutex (zip_free_mutex p) false SyncLevels.SYNC_BUF_ZIP_FREE "&buf_pool->zip_free_mutex" 1537;
   mkMutex (zip_hash_mutex p) false SyncLevels.SYNC_BUF_ZIP_HASH "&buf_pool->zip_hash_mutex" 1539;
   mkMutex (zip_mutex p) false SyncLevels.SYNC_BUF_BLOCK "&buf_pool->zip_mutex" 1541;
   mkMutex (flush_state_mutex p) false SyncLevels.SYNC_BUF_FLUSH_STATE "&buf_pool->flush_state_mutex" 1543].
Definition last_mutex (p : pool_addrs) : pool_mutex :=
  mkMutex (flush_list_mutex p) false SyncLevels.SYNC_BUF_FLUSH_LIST "&buf_pool->flush_list_mutex" 1587.

(** What is initialised when the instance has a size. *)
Record sized := mkSized {
  chunk : buf_chunk; instance_no : Z; old_pool_size : Z; curr_size : Z; read_ahead_area : Z; curr_pool_size : Z;
  page_hash : HashCreate.hash; zip_hash : HashCreate.hash; last_printout_time : Z }.

(** [buf_tmp_buffer_t] *)
Record tmp_buffer := mkSlot { lzo_mem : option nat; crypt_buf_free : option nat; comp_buf_free : option nat }.

(** The fields of the instance, with the addresses of its blocks of memory; of
    [tmp_arr] the address, the number of slots, and the slots at their address. *)
Record instance := mkInstance {
  pages : option sized; chunks : option nat; no_flush : list (nat * os_event); watch_at : nat; watch : list buf_page;
  tmp_arr : nat; n_slots : Z; slots_at : nat; slots : list tmp_buffer; try_LRU_scan : bool }.

Definition set_slots (sl : list tmp_buffer) (i : instance) : instance :=
  mkInstance (pages i) (chunks i) (no_flush i) (watch_at i) (watch i) (tmp_arr i) (n_slots i) (slots_at i) sl (try_LRU_scan i).

(** Where the allocator puts the blocks of an instance. *)
Record pool_places := mkPoolPlaces {
  for_chunks : nat; for_page_hash : places; for_zip_hash : places; for_event : nat -> nat; for_watch : nat; for_tmp_arr : nat;
  for_slots : nat }.

(** A control block of [mem_zalloc]: all bytes are 0. *)
Definition zero_page : buf_page :=
  mkPage 0 0 0 BUF_IO_NONE BUF_BLOCK_POOL_WATCH 0 0 None 0 0 false false 0 false 0 0 None 0 0 false 0 0 false.

Section instance.
Context (off_mutex off_lock off_debug mutex_list_mutex rw_lock_list_mutex : nat) (self : Z).
Context (UNIV_PAGE_SIZE sizeof_block getpagesize os_large_page_size : Z) (os_use_large_pages : bool)
  (mmap shm_alloc : Z -> option Z).
Context (prime_fuel : nat) (ut_malloc : nat -> list (option nat)) (sizeof_latch : nat) (pl : pool_places).
(** The address of the instance itself. *)
Context (pool_at : nat).
(** The configuration of the server, and the time. *)
Context (srv_n_purge_threads srv_n_read_io_threads srv_n_write_io_threads now : Z).

Definition create_mutex (m : pool_mutex) (R : RwList.state) : res RwList.state :=
  (if is_prio m then prio_mutex_create mutex_list_mutex else Registries.mutex_create mutex_list_mutex)
    (level m) "buf0buf.cc" (line m) (name m) (at_ m) R.
Definition release_mutex (m : pool_mutex) (R : RwList.state) : res RwList.state :=
  (if is_prio m then prio_mutex_free mutex_list_mutex self else Registries.mutex_free mutex_list_mutex self) (at_ m) R.

Definition BUF_POOL_WATCH_SIZE : nat := Z.to_nat (srv_n_purge_threads + 1).
Definition OS_AIO_N_PENDING_IOS_PER_THREAD : Z := 32.

(** Lines 1560-1581: the fields that depend on the size, with the new number of
    page hash locks. *)
Definition size_fields (c : buf_chunk) (buf_pool_size no srv_n_page_hash_locks : Z) (R : RwList.state) (H : gset nat) :
    res (sized * Z * RwList.state * gset nat) :=
  let curr := BufChunk.size c in
  let! area := deref (ut_2_power_up (curr / 32)) in
  let! n := deref (ut_2_power_up srv_n_page_hash_locks) in
  let! _ := ut_a (negb (n =? 0)) in
  let! _ := ut_a (n <=? BufThreads.MAX_PAGE_HASH_LOCKS) in
  let! (ph, R, H) := ha_create_func mutex_list_mutex prime_fuel ut_malloc sizeof_latch (for_page_hash pl) (u64 (2 * curr))
    SyncLevels.SYNC_BUF_PAGE_HASH n MEM_HEAP_FOR_PAGE_HASH R H in
  let! (zh, H) := hash_create prime_fuel ut_malloc (for_zip_hash pl) (u64 (2 * curr)) H in
  Ok (mkSized c no buf_pool_size curr (Z.min 64 area) (u64 (curr * UNIV_PAGE_SIZE)) ph zh now, n, R, H).

(** [BUF_FLUSH_N_TYPES] is 3. *)
Definition events : list nat := for_event pl <$> seq 0 3.

(** Lines 1586-1604. *)
Definition flush_fields (p : pool_addrs) (z : option sized) (ch : option nat) (R : RwList.state) (H : gset nat) :
    res (instance * RwList.state * gset nat) :=
  let! R := create_mutex (last_mutex p) R in
  let H := mem_get (for_watch pl) (foldr mem_get H events) in
  let n := u64 (srv_n_read_io_threads * srv_n_write_io_threads * (8 * OS_AIO_N_PENDING_IOS_PER_THREAD)) in
  let H := mem_get (for_slots pl) (mem_get (for_tmp_arr pl) H) in
  Ok (mkInstance z ch ((fun x => (x, os_event_create)) <$> events) (for_watch pl) (replicate BUF_POOL_WATCH_SIZE zero_page)
    (for_tmp_arr pl) n (for_slots pl) (replicate (Z.to_nat n) (mkSlot None None None)) true, R, H).

(** Lines 1514-1610: the instance, or [None] for [DB_ERROR], with the number of
    page hash locks, the total of memory mapped and the blocks in use. *)
Definition buf_pool_init_instance (p : pool_addrs) (buf_pool_size no srv_n_page_hash_locks total : Z) (s : BufInit.state)
    (H : gset nat) : res (option instance * Z * Z * BufInit.state * gset nat) :=
  let! R := for_each create_mutex (first_mutexes p) (BufInit.sync s) in
  let s := set_registries R s in
  if 0 <? buf_pool_size then
    let H := mem_get (for_chunks pl) H in
    let s := set_free (UT_LIST_INIT (nodes (BufInit.free s))) s in
    let! (c, total, s) := buf_chunk_init off_mutex off_lock off_debug mutex_list_mutex UNIV_PAGE_SIZE sizeof_block getpagesize
      os_large_page_size os_use_large_pages mmap shm_alloc no buf_pool_size total s in
    match c with
    | None =>
        let! H := mem_put (for_chunks pl) H in
        let! H := mem_put pool_at H in
        Ok (None, srv_n_page_hash_locks, total, s, H)
    | Some c =>
        let! (z, n, R, H) := size_fields c buf_pool_size no srv_n_page_hash_locks (BufInit.sync s) H in
        let! (i, R, H) := flush_fields p (Some z) (Some (for_chunks pl)) R H in
        Ok (Some i, n, total, set_registries R s, H)
    end
  else
    let! (i, R, H) := flush_fields p None None (BufInit.sync s) H in
    Ok (Some i, srv_n_page_hash_locks, total, set_registries R s, H).

(** Lines 1625-1643: the descriptors of compressed pages on the LRU list. *)
Fixpoint free_descriptors (srv_fast_shutdown : Z) (fuel : nat) (l : store) (ps : gmap nat buf_page) (x : option nat) :
    res (gmap nat buf_page) :=
  match x with
  | None => Ok ps
  | Some x =>
      match fuel with
      | O => Blocked
      | S fuel =>
          let! nd := deref (l !! x) in
          let! pg := deref (ps !! x) in
          let! b := buf_page_in_file pg in
          let! _ := ut_a b in
          let! ps :=
            (if decide (BufPage.state pg = BUF_BLOCK_FILE_PAGE) then Ok ps
             else
               let! _ := ut_a (bool_decide (BufPage.state pg = BUF_BLOCK_ZIP_PAGE) || (srv_fast_shutdown =? 2)) in
               Ok (delete x ps)) in
          free_descriptors srv_fast_shutdown fuel l ps (prev nd)
      end
  end.

(** Lines 1666-1670. *)
Definition free_block (x : nat) (R : RwList.state) : res RwList.state :=
  let! R := Registries.mutex_free mutex_list_mutex self (mutex_of off_mutex x) R in
  let! R := RwList.rw_lock_free_func rw_lock_list_mutex self (lock_of off_lock x) R in
  RwList.rw_lock_free_func rw_lock_list_mutex self (debug_of off_debug x) R.

(** os0proc.cc, lines 172-232, without the branch for Windows; whether the
    system calls succeed is an argument. *)
Definition os_mem_free_large (shmdt_ok munmap_ok : bool) (bytes total : Z) : res Z :=
  let! _ := ut_a (bytes <=? total) in
  if os_use_large_pages && negb (os_large_page_size =? 0) && shmdt_ok then Ok (total - bytes)
  else if munmap_ok then Ok (total - bytes) else Ok total.

(** The loop of lines 1681-1698: what a slot has allocated, the buffers for LZO
    included. *)
Definition free_slot (sl : tmp_buffer) (H : gset nat) : res (gset nat) :=
  let! H := put_if (lzo_mem sl) H in
  let! H := put_if (crypt_buf_free sl) H in
  put_if (comp_buf_free sl) H.
Definition free_slots (i : instance) (H : gset nat) : res (gset nat) :=
  for_each (fun j H => let! sl := deref (slots i !! j) in free_slot sl H) (seq 0 (Z.to_nat (n_slots i))) H.

(** Lines 1612-1701; the descriptors of pages, the total of memory mapped, the
    registries and the blocks in use are left. *)
Definition buf_pool_free_instance (srv_fast_shutdown : Z) (shmdt_ok munmap_ok : bool) (p : pool_addrs) (i : instance)
    (LRU : ut_list) (ps : gmap nat buf_page) (total : Z) (R : RwList.state) (H : gset nat) :
    res (gmap nat buf_page * Z * RwList.state * gset nat) :=
  let! ps := free_descriptors srv_fast_shutdown (base.size (nodes LRU)) (nodes LRU) ps (stop (base LRU)) in
  let! H := mem_put (watch_at i) H in
  let! H := put_all (no_flush i).*1 H in
  let! R := for_each release_mutex (first_mutexes p ++ [last_mutex p]) R in
  let! z := deref (pages i) in
  let c := chunk z in
  let! R := for_each free_block (block_addrs sizeof_block (Z.to_nat (BufChunk.size c)) (blocks c)) R in
  let! total := os_mem_free_large shmdt_ok munmap_ok (BufChunk.mem_size c) total in
  let! ch := deref (chunks i) in
  let! H := mem_put ch H in
  let! (ph, R, H) := ha_clear mutex_list_mutex rw_lock_list_mutex self sizeof_latch (page_hash z) R H in
  let! H := hash_table_free ph H in
  let! H := hash_table_free (zip_hash z) H in
  let! H := free_slots i H in
  let! H := mem_put (slots_at i) H in
  let! H := mem_put (tmp_arr i) H in
  Ok (ps, total, R, H).

(** ** The mutexes *)

Notation regs := (Registries.regs mutex_list_mutex rw_lock_list_mutex).
Notation extends := (Registries.extends mutex_list_mutex rw_lock_list_mutex).
Notation freed := (Registries.freed mutex_list_mutex rw_lock_list_mutex).
Notation new_mutex := (Registries.new_mutex mutex_list_mutex rw_lock_list_mutex).

Definition all_mutexes (p : pool_addrs) : list pool_mutex := first_mutexes p ++ [last_mutex p].

(** A mutex that can be released by the function of its kind. *)
Definition has_kind (R : RwList.state) (m : pool_mutex) : Prop := is_prio m = true -> is_prio_mutex R (at_ m).

Lemma has_kind_extends R ms ls newm newl R' m : extends R ms ls newm newl R' -> at_ m ∉ newm -> has_kind R m -> has_kind R' m.
Proof. intros X Hm Hk Hp. eapply extends_prio_mutex; [exact X|done|by apply Hk]. Qed.

Lemma create_mutex_ok R ms ls m :
  regs R ms ls -> new_mutex R ms (at_ m) -> room ms 1 ->
  exists R', create_mutex m R = Ok R' /\ extends R ms ls [at_ m] [] R' /\ has_kind R' m.
Proof.
  intros Hr Hm Hroom. unfold create_mutex, has_kind. destruct (is_prio m).
  - destruct (prio_mutex_create_ok mutex_list_mutex rw_lock_list_mutex R ms ls (at_ m) (level m) "buf0buf.cc" (line m) (name m))
      as (R' & E & X & P); [done..|]. by exists R'.
  - destruct (mutex_create_ok mutex_list_mutex rw_lock_list_mutex R ms ls (at_ m) (level m) "buf0buf.cc" (line m) (name m))
      as (R' & E & X); [done..|]. by exists R'.
Qed.

Lemma create_pool_mutexes_ok l R ms ls :
  regs R ms ls -> NoDup (at_ <$> l) -> (forall m, m ∈ l -> new_mutex R ms (at_ m)) -> room ms (length l) ->
  exists R', for_each create_mutex l R = Ok R' /\ extends R ms ls (reverse (at_ <$> l)) [] R' /\
    forall m, m ∈ l -> has_kind R' m.
Proof.
  apply (create_each_ok mutex_list_mutex rw_lock_list_mutex create_mutex at_ has_kind).
  - intros R0 ms0 ls0 m _. apply create_mutex_ok.
  - intros R0 ms0 ls0 a b R1 m. apply has_kind_extends.
Qed.

Lemma bind_one {A} (f : A -> nat) l : (l ≫= fun x => [f x]) = f <$> l.
Proof. induction l as [|x l IH]; [done|]. cbn. by f_equal. Qed.

Lemma bind_none {A} (l : list A) : (l ≫= fun _ => []) = @nil nat.
Proof. by induction l. Qed.

Lemma fmap_nodup_inj {A} (f : A -> nat) l x y : NoDup (f <$> l) -> x ∈ l -> y ∈ l -> f x = f y -> x = y.
Proof.
  intros Hnd [i Hi]%list_elem_of_lookup [j Hj]%list_elem_of_lookup E.
  assert (i = j) as ->; [|congruence]. eapply (NoDup_lookup _ _ _ (f x) Hnd); rewrite list_lookup_fmap; [by rewrite Hi|].
  by rewrite Hj, E.
Qed.

Lemma free_pool_mutexes_ok l R ms ls :
  regs R ms ls -> NoDup (at_ <$> l) ->
  (forall m, m ∈ l -> at_ m ∈ ms /\ at_ m <> rw_lock_list_mutex /\ MutexList.idle (RwList.sync R) (at_ m) /\ has_kind R m) ->
  exists R', for_each release_mutex l R = Ok R' /\ freed R ms ls (at_ <$> l) [] R'.
Proof.
  clear mmap shm_alloc ut_malloc now sizeof_latch.
  intros Hr Hnd Hl.
  destruct (free_each_ok mutex_list_mutex rw_lock_list_mutex release_mutex (fun m => [at_ m]) (fun _ => [])
    (fun R m => MutexList.idle (RwList.sync R) (at_ m) /\ has_kind R m) l) with (zs := l) (R := R) (ms := ms) (ls := ls)
    as (R' & E & F).
  - intros R0 ms0 ls0 m Hm Hr0 Hin _ [Hi Hk]. destruct (Hl m Hm) as (_ & Hne & _).
    assert (exists R1, release_mutex m R0 = Ok R1 /\ freed R0 ms0 ls0 [at_ m] [] R1) as (R1 & E & F).
    { unfold release_mutex, has_kind in *. destruct (is_prio m); [apply prio_mutex_free_ok|apply mutex_free_ok]; try done;
        [by apply Hin; left|by apply Hk|by apply Hin; left]. }
    exists R1. split_and!; [done|done|]. intros y Hy Hne' [Hyi Hyk].
    assert (at_ y <> at_ m) as Ha by (intros Ea; by apply Hne', (fmap_nodup_inj at_ l)).
    split; [apply (fr_idle _ _ _ _ _ _ _ _ F); [set_solver|done]|]. unfold has_kind, is_prio_mutex in *.
    by rewrite (fr_prio _ _ _ _ _ _ _ _ F).
  - done.
  - by eapply NoDup_fmap_1.
  - done.
  - intros m m' Hm Hm' Hne. split; [|set_solver]. intros z ->%list_elem_of_singleton Hz%list_elem_of_singleton.
    by apply Hne, (fmap_nodup_inj at_ l).
  - intros m Hm. destruct (Hl m Hm) as (? & ? & ? & ?). split_and!; [set_solver|set_solver|done|done].
  - exists R'. split; [done|]. by rewrite bind_one, bind_none in F.
Qed.

(** ** The blocks *)

Context (Hmm : mutex_list_mutex <> rw_lock_list_mutex) (Hoff : off_lock <> off_debug).

Notation mutex_of := (BufInit.mutex_of off_mutex).
Notation lock_of := (BufInit.lock_of off_lock).
Notation debug_of := (BufInit.debug_of off_debug).

(** The latches of a block are not in use. *)
Definition block_idle (R : RwList.state) (x : nat) : Prop :=
  mutex_of x <> rw_lock_list_mutex /\ MutexList.idle (RwList.sync R) (mutex_of x) /\ RwList.unlocked R (lock_of x) /\
  RwList.unlocked R (debug_of x).

Lemma free_block_ok R ms ls x :
  regs R ms ls -> mutex_of x ∈ ms -> lock_of x ∈ ls -> debug_of x ∈ ls -> block_idle R x ->
  exists R', free_block x R = Ok R' /\ freed R ms ls [mutex_of x] [lock_of x; debug_of x] R'.
Proof using Hmm Hoff.
  clear mmap shm_alloc ut_malloc. intros Hr Hm Hl Hd (Hne & Hi & Hul & Hud). unfold free_block.
  edestruct (mutex_free_ok mutex_list_mutex rw_lock_list_mutex self R ms ls) as (R1 & -> & F1); [exact Hr|exact Hm|done|done|].
  cbn [rbind]. pose proof (fr_regs _ _ _ _ _ _ _ _ F1) as Hr1.
  assert (forall y, RwList.unlocked R y -> RwList.unlocked R1 y) as U1
    by (intros y; apply (fr_unlocked _ _ _ _ _ _ _ _ F1); by intros ?%elem_of_nil).
  edestruct (lock_free_freed mutex_list_mutex rw_lock_list_mutex self R1) as (R2 & -> & F2); [done|exact Hr1| |by apply U1|].
  { apply list_elem_of_filter. split; [by intros ?%elem_of_nil|exact Hl]. }
  cbn [rbind]. pose proof (freed_trans _ _ _ _ _ _ _ _ _ _ _ F1 F2) as F12.
  assert (debug_of x <> lock_of x) as Hdl by (unfold BufInit.debug_of, BufInit.lock_of; lia).
  edestruct (lock_free_freed mutex_list_mutex rw_lock_list_mutex self R2) as (R3 & -> & F3).
  - done.
  - apply F12.
  - apply list_elem_of_filter. split; [|exact Hd]. by intros ?%list_elem_of_singleton.
  - apply (fr_unlocked _ _ _ _ _ _ _ _ F2); [by intros ?%list_elem_of_singleton|by apply U1].
  - exists R3. split; [done|]. exact (freed_trans _ _ _ _ _ _ _ _ _ _ _ F12 F3).
Qed.

(** The latches of different blocks do not overlap. *)
Definition blocks_apart (xs : list nat) : Prop :=
  forall x y, x ∈ xs -> y ∈ xs -> x <> y -> lock_of x <> debug_of y.

Lemma free_blocks_ok xs R ms ls :
  regs R ms ls -> NoDup xs -> blocks_apart xs ->
  (forall x, x ∈ xs -> mutex_of x ∈ ms /\ lock_of x ∈ ls /\ debug_of x ∈ ls /\ block_idle R x) ->
  exists R', for_each free_block xs R = Ok R' /\ freed R ms ls (mutex_of <$> xs) (xs ≫= fun x => [lock_of x; debug_of x]) R'.
Proof using Hmm Hoff.
  clear mmap shm_alloc ut_malloc. intros Hr Hnd Hap Hall.
  assert (forall x y, x ∈ xs -> y ∈ xs -> x <> y -> mutex_of x <> mutex_of y /\ lock_of x <> lock_of y /\ debug_of x <> debug_of y /\
    lock_of x <> debug_of y /\ debug_of x <> lock_of y) as Hdis.
  { intros x y Hx Hy Hne. pose proof (Hap x y Hx Hy Hne). pose proof (Hap y x Hy Hx ltac:(done)).
    unfold BufInit.mutex_of, BufInit.debug_of, BufInit.lock_of in *. lia. }
  destruct (free_each_ok mutex_list_mutex rw_lock_list_mutex free_block (fun x => [mutex_of x]) (fun x => [lock_of x; debug_of x])
    block_idle xs) with (zs := xs) (R := R) (ms := ms) (ls := ls) as (R' & E & F); try done.
  - intros R0 ms0 ls0 x Hx Hr0 Hm Hl Hi.
    destruct (free_block_ok R0 ms0 ls0 x) as (R1 & E & F); [done|apply Hm; left|apply Hl; left|apply Hl; right; left|done|].
    exists R1. split_and!; [done|done|]. intros y Hy Hne (B1 & B2 & B3 & B4). destruct (Hdis y x Hy Hx Hne) as (D1 & D2 & D3 & D4 & D5).
    split_and!; [done|apply (fr_idle _ _ _ _ _ _ _ _ F)|apply (fr_unlocked _ _ _ _ _ _ _ _ F)..]; (done || set_solver).
  - intros x y Hx Hy Hne. destruct (Hdis x y Hx Hy Hne) as (D1 & D2 & D3 & D4 & D5). set_solver.
  - intros x Hx. destruct (Hall x Hx) as (? & ? & ? & ?). split_and!; (done || set_solver).
  - exists R'. split; [done|]. by rewrite bind_one in F.
Qed.

(** ** The descriptors on the LRU list *)

(** What may be on the list when an instance is freed: blocks, clean compressed
    pages, and dirty ones in the fastest shutdown. *)
Definition freeable (srv_fast_shutdown : Z) (pg : buf_page) : Prop :=
  BufPage.state pg = BUF_BLOCK_FILE_PAGE \/ BufPage.state pg = BUF_BLOCK_ZIP_PAGE \/
  (BufPage.state pg = BUF_BLOCK_ZIP_DIRTY /\ srv_fast_shutdown = 2).

(** The pages without the descriptors that were allocated one by one. *)
Definition without_descriptors (ps : gmap nat buf_page) (xs : list nat) : gmap nat buf_page :=
  filter (fun e => e.1 ∉ xs \/ BufPage.state e.2 = BUF_BLOCK_FILE_PAGE) ps.

Lemma without_descriptors_snoc ps xs x pg : ps !! x = Some pg -> x ∉ xs ->
  without_descriptors ps (xs ++ [x]) =
  without_descriptors (if decide (BufPage.state pg = BUF_BLOCK_FILE_PAGE) then ps else delete x ps) xs.
Proof.
  intros Hx Hno. unfold without_descriptors. apply map_eq. intros y. apply option_eq. intros q.
  rewrite !map_lookup_filter_Some. cbn. case_decide as Hst.
  - rewrite elem_of_app, list_elem_of_singleton. split; [naive_solver|]. intros [Hy [Hn|Hf]]; (split; [done|]); [|by right].
    destruct (decide (y = x)) as [->|]; [right; congruence|left; tauto].
  - rewrite lookup_delete_Some, elem_of_app, list_elem_of_singleton. split; [|naive_solver].
    intros [Hy [Hn|Hf]]; (split; [split; [|done]|]); [naive_solver|naive_solver|naive_solver congruence|by right].
Qed.

Lemma free_descriptors_ok fs m xs : forall ps zs fuel,
  dseg m None (xs ++ zs) None -> NoDup xs -> (length xs <= fuel)%nat ->
  (forall x, x ∈ xs -> exists pg, ps !! x = Some pg /\ freeable fs pg) ->
  free_descriptors fs fuel m ps (final None xs) = Ok (without_descriptors ps xs).
Proof.
  induction xs as [|x xs IH] using rev_ind; intros ps zs fuel Hseg Hnd Hf Hall.
  { destruct fuel; cbn; f_equal; unfold without_descriptors; symmetry; apply map_filter_id; intros; left; by apply not_elem_of_nil. }
  rewrite length_app in Hf. cbn in Hf. destruct fuel as [|fuel]; [lia|]. rewrite final_app. cbn [free_descriptors final last].
  destruct (Hall x ltac:(set_solver)) as (pg & Hpg & Hfr). rewrite <- app_assoc in Hseg.
  pose proof Hseg as Hx. apply dseg_app in Hx as [_ [Hx _]]. rewrite Hx. cbn [deref rbind]. rewrite Hpg. cbn [deref rbind].
  apply NoDup_app in Hnd as (Hnd & Hno & _). assert (x ∉ xs) as Hxx by (intros H; apply (Hno x H); left).
  rewrite (without_descriptors_snoc _ _ _ _ Hpg Hxx). cbn [prev]. unfold buf_page_in_file.
  assert (forall ps', (forall y, y <> x -> ps' !! y = ps !! y) ->
    free_descriptors fs fuel m ps' (final None xs) = Ok (without_descriptors ps' xs)) as Hrest.
  { intros ps' Hsame. apply (IH ps' (x :: zs) fuel); [done|done|lia|]. intros y Hy. rewrite Hsame by (by intros ->).
    apply Hall. set_solver. }
  destruct Hfr as [Est|[Est|[Est ->]]]; rewrite Est; cbn [rbind ut_a]; [rewrite decide_True by done|rewrite decide_False by done..];
    cbn; apply Hrest; intros y Hy; [done|..]; apply lookup_delete_ne; done.
Qed.

(** ** The fields that depend on the size *)

Context (Hmalloc : forall n, length (ut_malloc n) = n) (Hsize : (0 < sizeof_latch)%nat).

Notation latches := (HashCreate.latches sizeof_latch (for_latches (for_page_hash pl))).

(** The memory for page hash locks, of which there are at most 1024. *)
Definition lock_memory : list nat := latches 1024.

Lemma latches_within k : 0 <= k <= 10 -> latches (Z.to_nat (2 ^ k)) ⊆ lock_memory.
Proof.
  clear Hoff Hmm Hsize. intros Hk x (i & -> & Hi%elem_of_seq)%list_elem_of_fmap. apply list_elem_of_fmap. exists i. split; [done|].
  apply elem_of_seq. pose proof (Z.pow_le_mono_r 2 k 10). lia.
Qed.

Record sized_ok (z : sized) (buf_pool_size no n0 k : Z) : Prop := SizedOk {
  so_power : 0 <= k <= 10 /\ ut_2_power_up n0 = Some (2 ^ k);
  so_no : instance_no z = no /\ old_pool_size z = buf_pool_size /\ curr_size z = BufChunk.size (chunk z);
  so_bytes : curr_pool_size z = BufChunk.size (chunk z) * UNIV_PAGE_SIZE;
  so_area : 1 <= read_ahead_area z <= 64;
  so_page_hash : created (for_page_hash pl) (2 * BufChunk.size (chunk z)) k HASH_TABLE_SYNC_RW_LOCK (page_hash z);
  so_zip_hash : exists q, Znumtheory.prime q /\ 2 * BufChunk.size (chunk z) + 100 <= q /\
    zip_hash z = mkHash (mkLatched (empty_cells q) HASH_TABLE_SYNC_NONE 0) (for_table (for_zip_hash pl)) (for_array (for_zip_hash pl))
      None None None }.

(** The blocks of memory of the fields that depend on the size. *)
Definition size_blocks (k : Z) : list nat := hash_blocks (for_page_hash pl) k ++ table_blocks (for_zip_hash pl).

Lemma size_blocks_union k (H : gset nat) :
  list_to_set (size_blocks k) ∪ H = list_to_set (table_blocks (for_zip_hash pl)) ∪ (list_to_set (hash_blocks (for_page_hash pl) k) ∪ H).
Proof.
  clear Hmm Hoff Hmalloc Hsize. unfold size_blocks. rewrite list_to_set_app_L.
  generalize (list_to_set (table_blocks (for_zip_hash pl)) : gset nat), (list_to_set (hash_blocks (for_page_hash pl) k) : gset nat).
  clear. intros T1 T2. set_solver.
Qed.

Lemma size_fields_ok c buf_pool_size no n0 R ms ls H :
  0 <= BufChunk.size c -> 2 * BufChunk.size c < 2 ^ 60 -> 0 <= BufChunk.size c * UNIV_PAGE_SIZE < 2 ^ 64 ->
  prime_near prime_fuel (2 * BufChunk.size c) ->
  1 <= n0 <= BufThreads.MAX_PAGE_HASH_LOCKS -> regs R ms ls -> (forall x, x ∈ lock_memory -> new_lock R ls x) -> room ls 1024 ->
  exists z k R', size_fields c buf_pool_size no n0 R H = Ok (z, 2 ^ k, R', list_to_set (size_blocks k) ∪ H) /\ chunk z = c /\ sized_ok z buf_pool_size no n0 k /\
    extends R ms ls [] (reverse (latches (Z.to_nat (2 ^ k)))) R' /\
    prio_latches HASH_TABLE_SYNC_RW_LOCK R' (latches (Z.to_nat (2 ^ k))).
Proof using Hmalloc Hmm Hsize.
  clear Hoff mmap shm_alloc. intros Hc Hc2 Hbytes Hp Hn0 Hr Hnew Hroom. unfold size_fields, BufThreads.MAX_PAGE_HASH_LOCKS in *.
  set (curr := BufChunk.size c) in *.
  assert (exists a, ut_2_power_up (curr / 32) = Some a /\ 1 <= a) as (a & -> & Ha).
  { assert (0 <= curr / 32) by (apply Z.div_pos; lia). destruct (Z.eq_dec (curr / 32) 0) as [->|]; [by exists 1|].
    destruct (ut_2_power_up_spec (curr / 32)) as (j & Hj & -> & _); [pose proof (Z.div_le_upper_bound curr 32 curr); lia|].
    exists (2 ^ j). split; [done|]. pose proof (Z.pow_pos_nonneg 2 j). lia. }
  destruct (BufThreads.rounded_power n0 Hn0) as (k & Hk & _ & Ek). rewrite Ek. cbn [deref rbind].
  pose proof (Z.pow_pos_nonneg 2 k). pose proof (Z.pow_le_mono_r 2 k 10).
  rewrite (proj2 (Z.eqb_neq _ _)), (proj2 (Z.leb_le _ _)) by lia. cbn [negb ut_a rbind]. rewrite (u64_small (2 * curr)) by lia.
  edestruct (ha_create_ok mutex_list_mutex rw_lock_list_mutex prime_fuel ut_malloc sizeof_latch (for_page_hash pl) Hmalloc Hmm Hsize
    (2 * curr) SyncLevels.SYNC_BUF_PAGE_HASH k MEM_HEAP_FOR_PAGE_HASH R ms ls H)
    as (ph & R' & -> & C & X & P); [by right|lia|done|lia|done| |].
  { split; [intros x Hx; apply Hnew; by eapply latches_within|]. rewrite length_latches. unfold room in *. lia. }
  cbn [rbind]. edestruct (hash_create_ok prime_fuel ut_malloc (for_zip_hash pl) Hmalloc (2 * curr)) as (q & -> & Hq & Hlt); [lia|done|]. cbn [rbind].
  eexists _, k, R'. split; [rewrite size_blocks_union; reflexivity|]. split; [done|]. split; [|by rewrite <- reverse_nil].
  constructor; cbn; fold curr; try done; [by rewrite u64_small|lia|by exists q].
Qed.

(** ** The whole instance *)

Notation chunk_layout := (BufChunk.chunk_layout UNIV_PAGE_SIZE sizeof_block getpagesize os_large_page_size os_use_large_pages mmap
  shm_alloc).
Notation addrs c := (block_addrs sizeof_block (Z.to_nat (BufChunk.size c)) (blocks c)).

(** The memory of the instance is not in use, and its parts do not overlap. *)
Record fresh_instance (p : pool_addrs) (s : BufInit.state) (ms ls : list nat) (bytes total : Z) : Prop := FreshInstance {
  fi_distinct : NoDup (at_ <$> all_mutexes p);
  fi_mutexes : forall m, m ∈ all_mutexes p -> new_mutex (BufInit.sync s) ms (at_ m);
  fi_blocks : forall c fr total', chunk_layout bytes total = Some (Some (c, fr), total') -> forall x, x ∈ addrs c ->
    available off_mutex off_lock off_debug mutex_list_mutex rw_lock_list_mutex s [] ms ls x /\
    mutex_of x ∉ at_ <$> all_mutexes p /\ lock_of x ∉ lock_memory /\ debug_of x ∉ lock_memory;
  fi_locks : forall x, x ∈ lock_memory -> new_lock (BufInit.sync s) ls x }.

Definition firsts (p : pool_addrs) : list nat := reverse (at_ <$> first_mutexes p).

(** The mutexes and the locks of an instance with chunk [c]. *)
Definition instance_mutexes (p : pool_addrs) (c : buf_chunk) : list nat :=
  [flush_list_mutex p] ++ new_mutexes off_mutex (addrs c) ++ firsts p.
Definition instance_locks (c : buf_chunk) (k : Z) : list nat :=
  reverse (latches (Z.to_nat (2 ^ k))) ++ new_locks off_lock off_debug (addrs c).

(** The blocks of memory of an instance, in the order in which they are freed. *)
Definition flush_blocks : list nat := for_watch pl :: events ++ [for_slots pl; for_tmp_arr pl].
Definition instance_blocks (k : Z) : list nat :=
  for_watch pl :: events ++ for_chunks pl :: size_blocks k ++ [for_slots pl; for_tmp_arr pl].

(** The parts of a new instance besides its pages: an unused watch array, its
    events, and slots without buffers. *)
Record parts_ok (i : instance) (ch : option nat) : Prop := PartsOk {
  po_chunks : chunks i = ch;
  po_watch : watch_at i = for_watch pl /\ watch i = replicate BUF_POOL_WATCH_SIZE zero_page;
  po_events : no_flush i = (fun x => (x, os_event_create)) <$> events;
  po_tmp_arr : tmp_arr i = for_tmp_arr pl /\ slots_at i = for_slots pl;
  po_slots : slots i = replicate (Z.to_nat (n_slots i)) (mkSlot None None None) }.

(** A new instance: the chunk and its blocks, the fields, and the other parts. *)
Record instance_ok (p : pool_addrs) (s : BufInit.state) (ms ls : list nat) (bytes no n0 k : Z) (i : instance) (z : sized)
    (s' : BufInit.state) : Prop := InstanceOk {
  io_sized : pages i = Some z /\ sized_ok z bytes no n0 k;
  io_chunk : BufChunk.size (chunk z) = bytes / UNIV_PAGE_SIZE - 1 /\ exists fr, layout UNIV_PAGE_SIZE sizeof_block (chunk z) fr /\
    forall j, (j < length (addrs (chunk z)))%nat -> exists b, block_at s' !! block_addr sizeof_block (blocks (chunk z)) j = Some b /\
      ready_block no (fr + Z.of_nat j * UNIV_PAGE_SIZE) b;
  io_free : UtList.rep (BufInit.free s') (addrs (chunk z));
  io_parts : parts_ok i (Some (for_chunks pl));
  io_latches : extends (BufInit.sync s) ms ls (instance_mutexes p (chunk z)) (instance_locks (chunk z) k) (BufInit.sync s') }.

(** The available blocks stay available while the first mutexes are created. *)
Lemma available_firsts p s ms ls R x :
  extends (BufInit.sync s) ms ls (firsts p) [] R -> mutex_of x ∉ at_ <$> all_mutexes p ->
  available off_mutex off_lock off_debug mutex_list_mutex rw_lock_list_mutex s [] ms ls x ->
  available off_mutex off_lock off_debug mutex_list_mutex rw_lock_list_mutex
    (set_free (UT_LIST_INIT (nodes (BufInit.free s))) (set_registries R s)) [] (firsts p ++ ms) ls x.
Proof.
  clear mmap shm_alloc Hmalloc. intros X Hx [B1 B2 B3 B4 B5]. constructor; [done|done|..]; cbn [sync set_free set_registries].
  - eapply new_mutex_extends; [exact X| |done]. unfold firsts. rewrite elem_of_reverse. intros H. apply Hx.
    unfold all_mutexes. rewrite fmap_app. apply elem_of_app. by left.
  - by eapply (new_lock_extends _ _ _ _ _ _ []); [exact X|by intros ?%elem_of_nil|].
  - by eapply (new_lock_extends _ _ _ _ _ _ []); [exact X|by intros ?%elem_of_nil|].
Qed.

(** What the operating system gives for the pages. *)
Notation large_memory := (BufInit.large_memory UNIV_PAGE_SIZE sizeof_block getpagesize os_large_page_size os_use_large_pages mmap shm_alloc).

(** The memory for the pages is missing, or the instance is as it should be. *)
Definition init_result (p : pool_addrs) (s : BufInit.state) (ms ls : list nat) (bytes no n0 total : Z) (H : gset nat)
    (r : option instance) (n total' : Z) (s' : BufInit.state) (H' : gset nat) : Prop :=
  match r with
  | None => large_memory bytes total = None /\ n = n0 /\ total' = total /\ regs (BufInit.sync s') (firsts p ++ ms) ls /\ H' = H ∖ {[pool_at]}
  | Some i => is_Some (large_memory bytes total) /\ exists z k, n = 2 ^ k /\ H' = list_to_set (instance_blocks k) ∪ H /\ instance_ok p s ms ls bytes no n0 k i z s' /\
      total' = u64 (total + BufChunk.mem_size (chunk z)) /\
      (exists fr, chunk_layout bytes total = Some (Some (chunk z, fr), total')) /\
      (forall m, m ∈ all_mutexes p -> has_kind (BufInit.sync s') m) /\
      prio_latches HASH_TABLE_SYNC_RW_LOCK (BufInit.sync s') (latches (Z.to_nat (2 ^ k)))
  end.

(** What is asked of the configuration and of the memory. *)
Record can_init (kp g : Z) (p : pool_addrs) (s : BufInit.state) (ms ls : list nat) (bytes n0 total : Z) (H : gset nat) : Prop := CanInit {
  ci_config : config UNIV_PAGE_SIZE sizeof_block getpagesize os_large_page_size os_use_large_pages mmap shm_alloc kp g;
  ci_request : request_ok UNIV_PAGE_SIZE sizeof_block getpagesize os_large_page_size bytes;
  ci_offsets : Z.of_nat off_lock < sizeof_block /\ Z.of_nat off_debug < sizeof_block;
  ci_regs : regs (BufInit.sync s) ms ls;
  ci_fresh : fresh_instance p s ms ls bytes total;
  ci_pages : bytes / UNIV_PAGE_SIZE < 2 ^ 59;
  ci_room : room ms (Z.to_nat (bytes / UNIV_PAGE_SIZE) + 7) /\ room ls (2 * Z.to_nat (bytes / UNIV_PAGE_SIZE) + 1024);
  ci_prime : prime_near prime_fuel (2 * (bytes / UNIV_PAGE_SIZE - 1));
  ci_locks : 1 <= n0 <= BufThreads.MAX_PAGE_HASH_LOCKS;
  ci_memory : NoDup (instance_blocks 10) /\ (forall x, x ∈ instance_blocks 10 -> x ∉ H);
  ci_pool : pool_at ∈ H }.

(** The blocks of memory are fresh, however many page hash locks there are. *)
Lemma blocks_sublist k : 0 <= k <= 10 -> instance_blocks k `sublist_of` instance_blocks 10.
Proof.
  clear mmap shm_alloc Hmm Hoff Hsize Hmalloc. intros Hk. unfold instance_blocks, size_blocks, hash_blocks, latch_blocks.
  apply sublist_skip, sublist_app; [done|]. apply sublist_skip.
  apply sublist_app; [|done]. apply sublist_app; [|done]. apply sublist_app; [|done]. apply sublist_app; [|done].
  pose proof (Z.pow_le_mono_r 2 k 10). replace (Z.to_nat (2 ^ 10)) with (Z.to_nat (2 ^ k) + (Z.to_nat (2 ^ 10) - Z.to_nat (2 ^ k)))%nat by lia.
  rewrite seq_app, fmap_app. by apply sublist_inserts_r.
Qed.

Lemma own_instance k H : 0 <= k <= 10 -> NoDup (instance_blocks 10) -> (forall x, x ∈ instance_blocks 10 -> x ∉ H) ->
  own H (instance_blocks k) (list_to_set (instance_blocks k) ∪ H).
Proof.
  clear mmap shm_alloc Hmm Hoff Hsize Hmalloc. intros Hk Hnd Hnew. pose proof (blocks_sublist k Hk) as Hs. split; [by eapply sublist_NoDup| |done].
  intros x Hx. apply Hnew. eapply elem_of_sublist; [exact Hx|exact Hs].
Qed.

Lemma flush_fields_ok p z ch R ms ls H :
  regs R ms ls -> new_mutex R ms (flush_list_mutex p) -> room ms 1 ->
  exists i R', flush_fields p z ch R H = Ok (i, R', list_to_set flush_blocks ∪ H) /\ pages i = z /\ parts_ok i ch /\
    extends R ms ls [flush_list_mutex p] [] R' /\ has_kind R' (last_mutex p).
Proof.
  clear Hmm Hoff Hsize Hmalloc ut_malloc. intros Hr Hm Hroom. unfold flush_fields.
  destruct (create_mutex_ok R ms ls (last_mutex p) Hr Hm Hroom) as (R' & -> & X & K). cbn [rbind].
  assert (mem_get (for_slots pl) (mem_get (for_tmp_arr pl) (mem_get (for_watch pl) (foldr mem_get H events))) = list_to_set flush_blocks ∪ H) as ->.
  { unfold flush_blocks, events, mem_get. cbn [fmap list_fmap seq foldr list_to_set app]. clear. set_solver. }
  eexists _, R'. split; [reflexivity|]. split; [reflexivity|]. split; [by constructor|by split].
Qed.

(** The fields behind the chunk. *)
Lemma fields_ok p c bytes no n0 R0 ms ls A B R2 ch H :
  extends R0 ms ls A B R2 -> 0 <= BufChunk.size c -> 2 * BufChunk.size c < 2 ^ 60 -> 0 <= BufChunk.size c * UNIV_PAGE_SIZE < 2 ^ 64 ->
  prime_near prime_fuel (2 * BufChunk.size c) -> 1 <= n0 <= BufThreads.MAX_PAGE_HASH_LOCKS ->
  (forall x, x ∈ lock_memory -> new_lock R0 ls x /\ x ∉ B) -> new_mutex R0 ms (flush_list_mutex p) -> flush_list_mutex p ∉ A ->
  room (A ++ ms) 1 -> room (B ++ ls) 1024 ->
  exists z k R3 i R4, size_fields c bytes no n0 R2 H = Ok (z, 2 ^ k, R3, list_to_set (size_blocks k) ∪ H) /\
    flush_fields p (Some z) ch R3 (list_to_set (size_blocks k) ∪ H) =
      Ok (i, R4, list_to_set flush_blocks ∪ (list_to_set (size_blocks k) ∪ H)) /\
    pages i = Some z /\ parts_ok i ch /\ chunk z = c /\ sized_ok z bytes no n0 k /\
    extends R0 ms ls ([flush_list_mutex p] ++ A) (reverse (latches (Z.to_nat (2 ^ k))) ++ B) R4 /\
    prio_latches HASH_TABLE_SYNC_RW_LOCK R4 (latches (Z.to_nat (2 ^ k))) /\ has_kind R4 (last_mutex p) /\
    forall m, at_ m <> flush_list_mutex p -> has_kind R2 m -> has_kind R4 m.
Proof using Hmalloc Hmm Hoff Hsize.
  intros X Hc Hc2 Hb Hp Hn0 Hlm Hfm HfA Hra Hrb.
  destruct (size_fields_ok c bytes no n0 R2 (A ++ ms) (B ++ ls) H) as (z & k & R3 & -> & Ec & Hz & X3 & P3); try done.
  { apply X. }
  { intros x Hx. destruct (Hlm x Hx). by eapply new_lock_extends. }
  pose proof (extends_trans _ _ _ _ _ _ _ _ _ _ _ X X3) as X23. cbn [app] in X23.
  destruct (flush_fields_ok p (Some z) ch R3 (A ++ ms) (reverse (latches (Z.to_nat (2 ^ k))) ++ B ++ ls)
    (list_to_set (size_blocks k) ∪ H)) as (i & R4 & E4 & Ei & Pi & X4 & K4); [apply X3|by eapply new_mutex_extends|done|].
  rewrite app_assoc in X4. pose proof (extends_trans _ _ _ _ _ _ _ _ _ _ _ X23 X4) as X234.
  exists z, k, R3, i, R4. split_and!; try done.
  - intros x Hx. specialize (P3 x Hx). eapply extends_prio_lock; [exact X4|by intros ?%elem_of_nil|done].
  - intros m Hm Hk. eapply has_kind_extends; [exact X4|by intros ?%list_elem_of_singleton|].
    eapply has_kind_extends; [exact X3|by intros ?%elem_of_nil|done].
Qed.

(** Neither the blocks' mutexes nor their locks are those of the instance. *)
Lemma block_latches_apart p s ms ls bytes total c fr total' :
  fresh_instance p s ms ls bytes total -> chunk_layout bytes total = Some (Some (c, fr), total') ->
  (forall m, m ∈ all_mutexes p -> at_ m ∉ new_mutexes off_mutex (addrs c)) /\
  (forall x, x ∈ lock_memory -> x ∉ new_locks off_lock off_debug (addrs c)).
Proof.
  clear Hmm Hmalloc. intros [_ _ F3 _] El. split.
  - intros m Hm Hin. unfold new_mutexes in Hin. rewrite elem_of_reverse in Hin. apply list_elem_of_fmap in Hin as (x & Ex & Hx).
    destruct (F3 c fr total' El x Hx) as (_ & Hn & _). apply Hn. rewrite <- Ex. apply list_elem_of_fmap. by exists m.
  - intros x Hx Hin. unfold new_locks in Hin. apply list_elem_of_join in Hin as (l & Hin & Hl).
    apply list_elem_of_fmap in Hl as (b & -> & Hb). rewrite elem_of_reverse in Hb.
    destruct (F3 c fr total' El b Hb) as (_ & _ & N1 & N2).
    apply elem_of_cons in Hin as [->|[->|[]%elem_of_nil]%elem_of_cons]; [by apply N1|by apply N2].
Qed.

Lemma length_block_addrs n b : length (block_addrs sizeof_block n b) = n.
Proof. unfold block_addrs. by rewrite length_fmap, length_seq. Qed.

Lemma length_new_locks xs : length (new_locks off_lock off_debug xs) = (2 * length xs)%nat.
Proof.
  unfold new_locks. rewrite <- (length_reverse xs). induction (reverse xs) as [|x l IH]; [done|].
  change (S (S (length (mjoin ((fun x => [debug_of x; lock_of x]) <$> l)))) = (2 * S (length l))%nat). rewrite IH. lia.
Qed.

Lemma pool_init_ok kp g p s ms ls bytes no n0 total H :
  can_init kp g p s ms ls bytes n0 total H ->
  exists r n total' s' H', buf_pool_init_instance p bytes no n0 total s H = Ok (r, n, total', s', H') /\
    init_result p s ms ls bytes no n0 total H r n total' s' H'.
Proof using Hmalloc Hmm Hoff Hsize.
  intros [Hcf Hrq [Ho1 Ho2] Hr Hfresh Hpg [Hrm Hrl] Hpr Hn0 [Hnd Hnew] Hpool]. pose proof Hfresh as [F1 F2 F3 F4].
  unfold buf_pool_init_instance. unfold room in Hrm, Hrl.
  pose proof Hcf as [[Hk Ek] [Hg Eg] _ HB _ _]. pose proof Hrq as (Hreq & Hmax & Hl0).
  assert (0 < getpagesize) as HG by (rewrite Eg; apply Z.pow_pos_nonneg; lia).
  assert (0 < UNIV_PAGE_SIZE) as HP by (rewrite Ek; apply Z.pow_pos_nonneg; lia).
  assert (1 <= bytes / UNIV_PAGE_SIZE) as HN by (apply Z.div_le_lower_bound; lia).
  pose proof F1 as F1'. unfold all_mutexes in F1'. rewrite fmap_app in F1'. apply NoDup_app in F1' as (Fn & Fd & _).
  destruct (create_pool_mutexes_ok (first_mutexes p) (BufInit.sync s) ms ls Hr Fn) as (R1 & -> & X1 & K1);
    [intros m Hm; apply F2, elem_of_app; by left|unfold room; cbn; lia|].
  cbn [rbind]. rewrite (proj2 (Z.ltb_lt _ _)) by lia. fold (firsts p) in X1.
  change (BufInit.free (set_registries R1 s)) with (BufInit.free s).
  set (s1 := set_free _ _). assert (length (firsts p) = 6%nat) as Hlen by done.
  destruct (chunk_init_ok off_mutex off_lock off_debug mutex_list_mutex rw_lock_list_mutex UNIV_PAGE_SIZE sizeof_block getpagesize
    os_large_page_size os_use_large_pages mmap shm_alloc no Hoff kp g bytes total s1 (firsts p ++ ms) ls)
    as (r & total' & s2 & -> & Hres); try done; try (unfold room; rewrite ?length_app, ?Hlen; lia); [apply X1|apply ut_list_init_rep| |].
  { intros c fr total' El x Hx. destruct (F3 c fr total' El x Hx) as (Hav & Hn & _). by apply available_firsts. }
  cbn [rbind]. destruct r as [c|].
  2:{ destruct Hres as (-> & -> & Hno). assert (for_chunks pl ∉ H) as Hch.
      { apply Hnew. unfold instance_blocks. apply elem_of_cons. right. apply elem_of_app. right. by left. }
      unfold mem_put, mem_get. rewrite decide_True by (clear; set_solver). cbn [rbind].
      replace (({[for_chunks pl]} ∪ H) ∖ {[for_chunks pl]}) with H by (clear -Hch; set_solver). rewrite decide_True by done.
      cbn [rbind]. eexists None, n0, total, _, _. split; [done|]. cbn. split_and!; [done..|apply X1|done]. }
  destruct Hres as (Hmem & fr & Esz & Hlay & Etot & El & [G1 G2 G3 G4]).
  destruct (block_latches_apart p s ms ls bytes total c fr total' Hfresh El) as [Am Al].
  pose proof (extends_trans _ _ _ _ _ _ _ _ _ _ _ X1 G1) as X12. rewrite app_nil_r in X12.
  destruct (fields_ok p c bytes no n0 (BufInit.sync s) ms ls _ _ (BufInit.sync s2) (Some (for_chunks pl)) (mem_get (for_chunks pl) H) X12) as
    (z & k & R3 & i & R4 & E3 & E4 & Ei & Ew & <- & Hz & X & P & Kl & Km); try lia; try done.
  { rewrite Esz. pose proof (Z.mul_div_le bytes UNIV_PAGE_SIZE HP). assert (0 <= bytes / UNIV_PAGE_SIZE * sizeof_block) by nia. nia. }
  { by rewrite Esz. }
  { intros x Hx. split; [by apply F4|]. by apply Al. }
  { by apply (F2 (last_mutex p)), elem_of_app; right; left. }
  { intros [Hin|Hin]%elem_of_app; [by apply (Am (last_mutex p)); [apply elem_of_app; right; left|]|].
    unfold firsts in Hin. rewrite elem_of_reverse in Hin. by apply (Fd _ Hin); left. }
  { unfold room. rewrite !length_app, Hlen. unfold new_mutexes. rewrite length_reverse, length_fmap, length_block_addrs, ?Esz. lia. }
  { unfold room. rewrite !length_app, length_new_locks, length_block_addrs, ?Esz. lia. }
  rewrite E3. cbn [rbind]. rewrite E4. cbn [rbind]. eexists (Some i), (2 ^ k), total', _, _. split; [reflexivity|].
  split; [done|]. exists z, k. split; [done|]. split.
  { unfold flush_blocks, instance_blocks, mem_get. cbn [list_to_set]. rewrite !list_to_set_app_L. cbn [list_to_set]. rewrite !list_to_set_app_L.
    cbn [list_to_set]. clear. set_solver. }
  split_and!; [|done|by exists fr|intros m Hm; cbn|done].
  - constructor; cbn [BufInit.free BufInit.block_at BufInit.sync set_registries]; try done. split; [done|]. exists fr. split; [done|].
    intros j Hj. rewrite length_block_addrs in Hj. by apply G3.
  - apply elem_of_app in Hm as [Hm|Hm%list_elem_of_singleton]; [|by subst m]. apply Km.
    { intros E. apply (Fd (at_ m)); [apply list_elem_of_fmap; by exists m|rewrite E; left]. }
    eapply has_kind_extends; [exact G1|apply Am, elem_of_app; by left|by apply K1].
Qed.

(** *** Watches on it *)

(** The instance as the functions on control blocks see it, with its watch array
    at an address: nothing has been put into the page hash or the LRU list. *)
Definition pool_of (sizeof_page watch_at : nat) (i : instance) (z : sized) : BufPage.pool :=
  let xs := (fun j => (watch_at + j * sizeof_page)%nat) <$> seq 0 (length (watch i)) in
  BufPage.mkPool (list_to_map (zip xs (watch i))) (cells (table (page_hash z))) (gset_to_gmap None (list_to_set xs)) ∅
    (UT_LIST_INIT ∅) None watch_at.

Lemma pool_of_lookup sizeof_page w i z j pg : (0 < sizeof_page)%nat -> watch i !! j = Some pg ->
  BufPage.pages (pool_of sizeof_page w i z) !! (w + j * sizeof_page)%nat = Some pg /\
  BufPage.hash (pool_of sizeof_page w i z) !! (w + j * sizeof_page)%nat = Some None.
Proof.
  clear Hmm Hoff Hsize Hmalloc. intros Hsz Hj. pose proof (lookup_lt_Some _ _ _ Hj) as Hlt. unfold pool_of. cbn.
  set (xs := _ <$> seq 0 (length (watch i))).
  assert (xs !! j = Some (w + j * sizeof_page)%nat) as Hx.
  { unfold xs. rewrite list_lookup_fmap, lookup_seq_lt by done. done. }
  assert (NoDup xs) as Hnd by (apply NoDup_fmap_2; [intros a b E; nia|apply NoDup_seq]). split.
  - apply elem_of_list_to_map; [|].
    + rewrite fst_zip; [done|]. unfold xs. by rewrite length_fmap, length_seq.
    + apply list_elem_of_lookup. exists j. apply lookup_zip_Some. done.
  - rewrite lookup_gset_to_gmap, option_guard_True; [done|]. apply elem_of_list_to_set. by eapply list_elem_of_lookup_2.
Qed.

(** No page of a new instance is watched or loaded, and every sentinel is free. *)
Theorem new_instance_shows sizeof_page w p s ms ls bytes no n0 k i z s' :
  (0 < sizeof_page)%nat -> instance_ok p s ms ls bytes no n0 k i z s' ->
  BufWatch.shows sizeof_page BUF_POOL_WATCH_SIZE (pool_of sizeof_page w i z) ∅.
Proof.
  clear Hmm Hoff Hsize Hmalloc. intros Hsz Hi. exists ∅. split; [|intros q; unfold BufWatch.view; by rewrite !lookup_empty].
  destruct (so_page_hash _ _ _ _ _ (proj2 (io_sized _ _ _ _ _ _ _ _ _ _ _ Hi))) as [(q & [Hq _] & _ & Eq) _ _ _ _].
  constructor.
  - exists (fun _ => []). constructor.
    + cbn. rewrite Eq. apply empty_cells_rep. lia.
    + by intros j x ?%elem_of_nil.
    + intros a x Ha. by rewrite lookup_empty in Ha.
  - intros j Hj. assert (watch i !! j = Some zero_page) as Hw by (rewrite (proj2 (po_watch _ _ (io_parts _ _ _ _ _ _ _ _ _ _ _ Hi))); apply lookup_replicate_2; exact Hj).
    destruct (pool_of_lookup sizeof_page w i z j zero_page Hsz Hw) as [H1 H2]. exists zero_page. split; [exact H1|]. left.
    split; [done|]. split; [intros a Ha; by rewrite lookup_empty in Ha|]. exists None. exact H2.
  - intros a x Ha. by rewrite lookup_empty in Ha.
Qed.

(** *** Freeing it *)

(** The descriptors of a chunk are laid out one after the other. *)
Lemma block_address c fr x : 0 < sizeof_block -> layout UNIV_PAGE_SIZE sizeof_block c fr -> x ∈ addrs c ->
  exists i, Z.of_nat x = blocks c + Z.of_nat i * sizeof_block.
Proof.
  clear Hmm Hoff Hsize. intros HB [E _ _ _ Hsp] (i & -> & _)%list_elem_of_fmap. exists i. unfold block_addr. nia.
Qed.

Lemma addrs_distinct c fr : 0 < sizeof_block -> layout UNIV_PAGE_SIZE sizeof_block c fr -> NoDup (addrs c).
Proof.
  clear Hmm Hoff Hsize. intros HB [E _ _ _ Hsp]. apply NoDup_fmap_2; [|apply NoDup_seq]. intros i j. unfold block_addr. nia.
Qed.

Lemma addrs_apart c fr : 0 < sizeof_block -> Z.of_nat off_lock < sizeof_block -> Z.of_nat off_debug < sizeof_block ->
  layout UNIV_PAGE_SIZE sizeof_block c fr -> blocks_apart (addrs c).
Proof.
  clear Hmm Hoff Hsize. intros HB H1 H2 Hl x y Hx Hy Hne E.
  destruct (block_address c fr x HB Hl Hx) as [i Hi], (block_address c fr y HB Hl Hy) as [j Hj].
  unfold BufInit.lock_of, BufInit.debug_of in E. assert (i <> j) by (intros ->; lia). nia.
Qed.

(** A new instance has all its latches free. *)
Lemma new_instance_idle p s ms ls c k bytes total fr total' R :
  fresh_instance p s ms ls bytes total -> chunk_layout bytes total = Some (Some (c, fr), total') ->
  extends (BufInit.sync s) ms ls (instance_mutexes p c) (instance_locks c k) R ->
  (forall m, m ∈ all_mutexes p -> at_ m ∈ instance_mutexes p c ++ ms /\ at_ m <> rw_lock_list_mutex /\
    MutexList.idle (RwList.sync R) (at_ m)) /\
  (forall x, x ∈ addrs c -> mutex_of x ∈ instance_mutexes p c ++ ms /\ lock_of x ∈ instance_locks c k ++ ls /\
    debug_of x ∈ instance_locks c k ++ ls /\ block_idle R x) /\
  (forall x, x ∈ latches (Z.to_nat (2 ^ k)) -> x ∈ instance_locks c k ++ ls /\ RwList.unlocked R x).
Proof.
  clear Hmm Hsize Hmalloc. intros [F1 F2 F3 F4] El X.
  assert (forall m, m ∈ all_mutexes p -> at_ m ∈ instance_mutexes p c) as Ha.
  { intros m Hm. unfold instance_mutexes, firsts. rewrite !elem_of_app, elem_of_reverse.
    apply elem_of_app in Hm as [Hm|Hm%list_elem_of_singleton]; [|subst m; left; left].
    right. right. apply list_elem_of_fmap. by exists m. }
  assert (forall x, x ∈ addrs c -> mutex_of x ∈ instance_mutexes p c /\ lock_of x ∈ instance_locks c k /\ debug_of x ∈ instance_locks c k)
    as Hb.
  { intros x Hx. unfold instance_mutexes, instance_locks, new_mutexes, new_locks. rewrite !elem_of_app. split_and!.
    - right. left. rewrite elem_of_reverse. apply list_elem_of_fmap. by exists x.
    - right. apply list_elem_of_join. exists [debug_of x; lock_of x]. split; [right; left|].
      apply list_elem_of_fmap. exists x. by rewrite elem_of_reverse.
    - right. apply list_elem_of_join. exists [debug_of x; lock_of x]. split; [left|].
      apply list_elem_of_fmap. exists x. by rewrite elem_of_reverse. }
  pose proof (ex_idle _ _ _ _ _ _ _ _ X) as Xi. pose proof (ex_unlocked _ _ _ _ _ _ _ _ X) as Xu. split_and!.
  - intros m Hm. split_and!; [apply elem_of_app; left; by apply Ha|by apply F2|by apply Xi, Ha].
  - intros x Hx. destruct (Hb x Hx) as (H1 & H2 & H3). destruct (F3 c fr total' El x Hx) as ([_ _ (_ & Hne & _) _ _] & _).
    rewrite !elem_of_app. split_and!; [by left..|]. split_and!; [done|by apply Xi|by apply Xu..].
  - intros x Hx. assert (x ∈ instance_locks c k) as Hin by (apply elem_of_app; left; by rewrite elem_of_reverse).
    split; [apply elem_of_app; by left|by apply Xu].
Qed.

(** What is released is what was created. *)
Lemma same_latches p c k :
  (forall x, x ∈ ((at_ <$> all_mutexes p) ++ (mutex_of <$> addrs c)) ++ own_mutexes HASH_TABLE_SYNC_RW_LOCK (latches (Z.to_nat (2 ^ k))) <->
    x ∈ instance_mutexes p c) /\
  (forall x, x ∈ ([] ++ (addrs c ≫= fun x => [lock_of x; debug_of x])) ++ own_locks HASH_TABLE_SYNC_RW_LOCK (latches (Z.to_nat (2 ^ k))) <->
    x ∈ instance_locks c k).
Proof.
  clear Hmm Hoff Hsize Hmalloc ut_malloc now mmap shm_alloc. split; intros x.
  - unfold instance_mutexes, firsts, new_mutexes, all_mutexes. rewrite fmap_app, !elem_of_app, !elem_of_reverse.
    change (own_mutexes _ _) with (@nil nat). change (at_ <$> [last_mutex p]) with [flush_list_mutex p].
    pose proof (not_elem_of_nil x). tauto.
  - unfold instance_locks, new_locks. change (own_locks HASH_TABLE_SYNC_RW_LOCK ?l) with l. rewrite app_nil_l, !elem_of_app, elem_of_reverse.
    assert (x ∈ addrs c ≫= (fun x => [lock_of x; debug_of x]) <-> x ∈ mjoin ((fun x => [debug_of x; lock_of x]) <$> reverse (addrs c))) as ->;
      [|tauto].
    rewrite list_elem_of_bind, list_elem_of_join. split.
    + intros (b & Hx & Hb). exists [debug_of b; lock_of b]. split; [set_solver|]. apply list_elem_of_fmap. exists b. by rewrite elem_of_reverse.
    + intros (l & Hx & (b & -> & Hb)%list_elem_of_fmap). rewrite elem_of_reverse in Hb. exists b. split; [set_solver|done].
Qed.

(** The latches are released in three groups. *)
Lemma free_latches_ok kp g p s ms ls bytes no n0 k i z s' total total' fr H H0 ys H1 :
  can_init kp g p s ms ls bytes n0 total H -> own H0 (latch_blocks (for_page_hash pl) k ++ ys) H1 -> instance_ok p s ms ls bytes no n0 k i z s' ->
  chunk_layout bytes total = Some (Some (chunk z, fr), total') -> layout UNIV_PAGE_SIZE sizeof_block (chunk z) fr ->
  (forall m, m ∈ all_mutexes p -> has_kind (BufInit.sync s') m) ->
  prio_latches HASH_TABLE_SYNC_RW_LOCK (BufInit.sync s') (latches (Z.to_nat (2 ^ k))) ->
  exists R1 R2 h R3 H2, for_each release_mutex (all_mutexes p) (BufInit.sync s') = Ok R1 /\
    for_each free_block (addrs (chunk z)) R1 = Ok R2 /\
    ha_clear mutex_list_mutex rw_lock_list_mutex self sizeof_latch (page_hash z) R2 H1 = Ok (h, R3, H2) /\ regs R3 ms ls /\
    table_at h = for_table (for_page_hash pl) /\ array_at h = for_array (for_page_hash pl) /\ own H0 ys H2.
Proof using Hmm Hoff Hsize.
  clear Hmalloc ut_malloc. intros [Hcf _ [Ho1 Ho2] _ Hfresh _ _ _ _ _ _] HO [[_ Hz] _ _ _ X] El Hlay Hkind Hprio.
  pose proof (cf_block _ _ _ _ _ _ _ _ _ Hcf) as HB. pose proof Hfresh as [F1 F2 F3 F4]. set (c := chunk z) in *.
  destruct (new_instance_idle p s ms ls c k bytes total fr total' (BufInit.sync s') Hfresh El X) as (Im & Ib & Il).
  destruct (free_pool_mutexes_ok (all_mutexes p) (BufInit.sync s') (instance_mutexes p c ++ ms) (instance_locks c k ++ ls))
    as (R1 & E1 & X1); [apply X|done| |].
  { intros m Hm. destruct (Im m Hm) as (? & ? & ?). split_and!; try done. by apply Hkind. }
  assert (forall x, RwList.unlocked (BufInit.sync s') x -> RwList.unlocked R1 x) as U1
    by (intros x; apply (fr_unlocked _ _ _ _ _ _ _ _ X1); by intros ?%elem_of_nil).
  destruct (free_blocks_ok (addrs c) R1 (filter (.∉ at_ <$> all_mutexes p) (instance_mutexes p c ++ ms))
    (filter (.∉ []) (instance_locks c k ++ ls))) as (R2 & E2 & X2);
    [apply X1|by eapply addrs_distinct|by eapply addrs_apart| |].
  { intros x Hx. destruct (Ib x Hx) as (? & ? & ? & (? & ? & ? & ?)). destruct (F3 c fr total' El x Hx) as (_ & Hn & _ & _).
    split_and!; try (apply list_elem_of_filter; split; [done || by intros ?%elem_of_nil|done]).
    split_and!; [done|by apply (fr_idle _ _ _ _ _ _ _ _ X1)|by apply U1..]. }
  pose proof (freed_trans _ _ _ _ _ _ _ _ _ _ _ X1 X2) as X12.
  destruct (so_power _ _ _ _ _ Hz) as [Hk _].
  assert (forall x, x ∈ latches (Z.to_nat (2 ^ k)) -> x ∉ addrs c ≫= (fun x => [lock_of x; debug_of x])) as Hno.
  { intros x Hx Hin. apply list_elem_of_bind in Hin as (b & Hin & Hb). destruct (F3 c fr total' El b Hb) as (_ & _ & N1 & N2).
    apply (latches_within k Hk) in Hx.
    apply elem_of_cons in Hin as [->|[->|[]%elem_of_nil]%elem_of_cons]; [by apply N1|by apply N2]. }
  pose proof (cr_places _ _ _ _ _ (so_page_hash _ _ _ _ _ Hz)) as [Pt Pa].
  edestruct (ha_clear_ok mutex_list_mutex rw_lock_list_mutex self sizeof_latch (for_page_hash pl) Hmm Hsize
    (2 * BufChunk.size c) k HASH_TABLE_SYNC_RW_LOCK (page_hash z) R2) as (R3 & H2 & E3 & X3 & HO2);
    [done|lia|apply (so_page_hash _ _ _ _ _ Hz)|apply X12| |exact HO|].
  { intros x Hx. cbn. destruct (Il x Hx) as [Hin Hu]. split_and!.
    - apply list_elem_of_filter. split; [by apply Hno|done].
    - apply (fr_unlocked _ _ _ _ _ _ _ _ X2); [by apply Hno|by apply U1].
    - unfold is_prio_lock. rewrite (fr_prio_locks _ _ _ _ _ _ _ _ X12). by apply Hprio. }
  exists R1, R2. eexists _, R3, H2. split; [done|]. split; [done|]. split; [exact E3|]. split; [|done].
  pose proof (freed_trans _ _ _ _ _ _ _ _ _ _ _ X12 X3) as X123. destruct (same_latches p c k) as [Sm Sl].
  exact (extends_freed _ _ _ _ _ _ _ _ _ _ _ X X123 Sm Sl).
Qed.

(** The system took the pages back. *)
Definition unmapped (shmdt_ok munmap_ok : bool) : bool :=
  os_use_large_pages && negb (os_large_page_size =? 0) && shmdt_ok || munmap_ok.

Lemma mem_free_large_ok c total total' shmdt_ok munmap_ok :
  0 <= total -> 0 <= BufChunk.mem_size c -> total + BufChunk.mem_size c < 2 ^ 64 -> total' = u64 (total + BufChunk.mem_size c) ->
  os_mem_free_large shmdt_ok munmap_ok (BufChunk.mem_size c) total' = Ok (if unmapped shmdt_ok munmap_ok then total else total').
Proof.
  intros Ht Hc Hlt ->. rewrite u64_small by lia. unfold os_mem_free_large, unmapped. rewrite (proj2 (Z.leb_le _ _)) by lia. cbn [ut_a rbind].
  destruct (os_use_large_pages && _ && shmdt_ok), munmap_ok; cbn [orb]; f_equal; lia.
Qed.

Lemma chunk_size_pos kp g p s ms ls bytes no n0 total H k i z s' :
  can_init kp g p s ms ls bytes n0 total H -> instance_ok p s ms ls bytes no n0 k i z s' -> 0 <= BufChunk.mem_size (chunk z).
Proof.
  intros Hci Hi. pose proof (io_chunk _ _ _ _ _ _ _ _ _ _ _ Hi) as (Esz & fr' & Hlay & _). pose proof Hci as [Hcf Hrq _ _ _ _ _ _ _ _ _].
  destruct Hlay as [El' _ Hbf Hin _]. destruct Hcf as [[Hk Ek] _ _ HB _ _], Hrq as (Hreq & _ & _).
  assert (0 < UNIV_PAGE_SIZE) as HP by (rewrite Ek; apply Z.pow_pos_nonneg; lia).
  assert (1 <= bytes / UNIV_PAGE_SIZE) by (apply Z.div_le_lower_bound; lia). nia.
Qed.

(** The buffers of a slot. *)
Definition slot_blocks (sl : tmp_buffer) : list nat :=
  option_list (lzo_mem sl) ++ option_list (crypt_buf_free sl) ++ option_list (comp_buf_free sl).

Lemma free_slot_ok H0 sl ys H : own H0 (slot_blocks sl ++ ys) H -> exists H', free_slot sl H = Ok H' /\ own H0 ys H'.
Proof.
  unfold slot_blocks, free_slot. rewrite <- !app_assoc. intros HO. destruct (put_if_ok _ _ _ _ HO) as (H1 & -> & HO1). cbn [rbind].
  destruct (put_if_ok _ _ _ _ HO1) as (H2 & -> & HO2). cbn [rbind]. by apply put_if_ok.
Qed.

Lemma free_slots_ok H0 i ys H :
  length (slots i) = Z.to_nat (n_slots i) -> own H0 ((slots i ≫= slot_blocks) ++ ys) H ->
  exists H', free_slots i H = Ok H' /\ own H0 ys H'.
Proof.
  intros Hlen. unfold free_slots. rewrite <- Hlen. clear Hlen.
  assert (forall sl pre H, slots i = pre ++ sl -> own H0 ((sl ≫= slot_blocks) ++ ys) H ->
    exists H', for_each (fun j H => let! sl := deref (slots i !! j) in free_slot sl H) (seq (length pre) (length sl)) H = Ok H' /\
      own H0 ys H') as Hall; [|by apply (Hall (slots i) [])].
  induction sl as [|x sl IH]; intros pre H1 Es HO; [by exists H1|]. cbn [length seq for_each].
  rewrite Es, list_lookup_middle by done. cbn [deref rbind]. cbn [mbind list_bind] in HO. rewrite <- app_assoc in HO.
  destruct (free_slot_ok _ _ _ _ HO) as (H2 & -> & HO2). cbn [rbind]. rewrite <- Es.
  replace (S (length pre)) with (length (pre ++ [x])) by (rewrite length_app; simpl; lia). apply (IH (pre ++ [x])); [|exact HO2].
  by rewrite Es, <- app_assoc.
Qed.

Lemma event_addrs : ((fun x => (x, os_event_create)) <$> events).*1 = events.
Proof. rewrite <- list_fmap_compose. apply list_fmap_id. Qed.

(** The blocks of memory are freed one after the other. *)
Lemma freed_in_order k sl H H2 :
  own H (instance_blocks k) (list_to_set (instance_blocks k) ∪ H) -> own (list_to_set (instance_blocks k) ∪ H) sl H2 ->
  own H (for_watch pl :: events ++ for_chunks pl :: latch_blocks (for_page_hash pl) k ++ table_blocks (for_page_hash pl) ++
    table_blocks (for_zip_hash pl) ++ sl ++ [for_slots pl; for_tmp_arr pl]) H2.
Proof.
  intros H1 H3. pose proof (own_own _ _ _ _ _ H1 H3) as HO. eapply own_perm; [|exact HO].
  unfold instance_blocks, size_blocks, hash_blocks. rewrite <- !app_assoc. clear. solve_Permutation.
Qed.

Lemma pool_free_ok kp g p s ms ls bytes no n0 total H total' s' i z k fs shmdt_ok munmap_ok LRU xs ps sl H2 :
  can_init kp g p s ms ls bytes n0 total H -> 0 <= total -> instance_ok p s ms ls bytes no n0 k i z s' ->
  total' = u64 (total + BufChunk.mem_size (chunk z)) /\
  (exists fr, chunk_layout bytes total = Some (Some (chunk z, fr), total')) /\
  (forall m, m ∈ all_mutexes p -> has_kind (BufInit.sync s') m) /\
  prio_latches HASH_TABLE_SYNC_RW_LOCK (BufInit.sync s') (latches (Z.to_nat (2 ^ k))) ->
  total + BufChunk.mem_size (chunk z) < 2 ^ 64 -> UtList.rep LRU xs ->
  (forall x, x ∈ xs -> exists pg, ps !! x = Some pg /\ freeable fs pg) ->
  length sl = Z.to_nat (n_slots i) -> own (list_to_set (instance_blocks k) ∪ H) (sl ≫= slot_blocks) H2 ->
  exists R', buf_pool_free_instance fs shmdt_ok munmap_ok p (set_slots sl i) LRU ps total' (BufInit.sync s') H2 =
      Ok (without_descriptors ps xs, if unmapped shmdt_ok munmap_ok then total else total', R', H) /\ regs R' ms ls.
Proof using Hmm Hoff Hsize ut_malloc now.
  intros Hci Ht Hi (Etot & [fr El] & Hkind & Hprio) Hmax Hrep Hfree Hlen Hsl.
  pose proof (chunk_size_pos _ _ _ _ _ _ _ _ _ _ _ _ _ _ _ Hci Hi) as Hms.
  pose proof (io_parts _ _ _ _ _ _ _ _ _ _ _ Hi) as [P1 [P2 _] P3 [P4 P5] _]. pose proof (io_sized _ _ _ _ _ _ _ _ _ _ _ Hi) as [Ez Hz].
  destruct (so_power _ _ _ _ _ Hz) as [Hk _]. destruct (so_zip_hash _ _ _ _ _ Hz) as (q & _ & _ & Eq).
  pose proof Hci as [Hcf Hrq _ _ _ _ _ _ _ [Hnd Hnew] _].
  pose proof (freed_in_order k _ H H2 (own_instance k H Hk Hnd Hnew) Hsl) as HO.
  destruct (mem_put_ok _ _ _ _ HO) as (H3 & E3 & HO3). destruct (put_all_ok _ _ _ _ HO3) as (H4 & E4 & HO4).
  destruct (mem_put_ok _ _ _ _ HO4) as (H5 & E5 & HO5).
  destruct (free_latches_ok kp g p s ms ls bytes no n0 k i z s' total total' fr H H _ H5 Hci HO5 Hi El)
    as (R1 & R2 & h & R3 & H6 & F1 & F2 & F3 & Hr & Ht1 & Ha1 & HO6);
    [by eapply chunk_layout_fits; [exact Hcf|exact Hrq|exact El]|done|done|].
  destruct (table_free_ok (for_page_hash pl) h H _ H6 Ht1 Ha1 HO6) as (H7 & E7 & HO7).
  destruct (table_free_ok (for_zip_hash pl) (zip_hash z) H _ H7 ltac:(by rewrite Eq) ltac:(by rewrite Eq) HO7) as (H8 & E8 & HO8).
  destruct (free_slots_ok H (set_slots sl i) _ H8 Hlen HO8) as (H9 & E9 & HO9).
  destruct (mem_put_ok _ _ _ _ HO9) as (H10 & E10 & HO10). destruct (mem_put_ok _ _ _ _ HO10) as (H11 & E11 & HO11%own_done).
  exists R3. split; [|done]. unfold buf_pool_free_instance. rewrite (rep_stop _ _ Hrep).
  rewrite (free_descriptors_ok fs (nodes LRU) xs ps [] (base.size (nodes LRU)));
    [|by rewrite app_nil_r; apply Hrep|apply Hrep|eapply rep_fits; apply Hrep|done].
  cbn [rbind set_slots watch_at no_flush pages chunks slots_at tmp_arr]. rewrite P2, E3. cbn [rbind].
  rewrite P3, event_addrs, E4. cbn [rbind]. fold (all_mutexes p). rewrite F1. cbn [rbind]. rewrite Ez. cbn [deref rbind].
  rewrite F2. cbn [rbind]. rewrite (mem_free_large_ok (chunk z) total total' shmdt_ok munmap_ok) by done. cbn [rbind].
  rewrite P1. cbn [deref rbind]. rewrite E5. cbn [rbind]. rewrite F3. cbn [rbind]. rewrite E7. cbn [rbind]. rewrite E8. cbn [rbind].
  rewrite E9. cbn [rbind]. rewrite P5, E10. cbn [rbind]. rewrite P4, E11. cbn [rbind]. by rewrite HO11.
Qed.

(** C38: [buf_pool_init_instance] fails exactly when the operating system has no
    memory for the pages: then it has freed the chunk and the instance, which
    must be a block of memory of its own, and leaves its first six mutexes in
    the registry.  Otherwise it makes an instance: unused blocks on the free list
    with aligned frames of their own, a page hash with a prime number of empty
    cells and as many locks as the rounded number, an unused watch array, events
    and empty slots, its latches in the registries of the server, and one block
    of memory for each of its parts.  [buf_pool_free_instance] then completes
    for any list of pages and any buffers of slots that may be there at shutdown:
    it frees exactly the descriptors that were allocated one by one, every block
    of memory of the instance and of its slots once and no other, and leaves the
    registries as they were before; the total of memory mapped is as before
    unless the system refuses to take the pages back. *)
Theorem pool_lifecycle kp g p s ms ls bytes no n0 total H :
  can_init kp g p s ms ls bytes n0 total H -> 0 <= total ->
  exists r n total' s' H1, buf_pool_init_instance p bytes no n0 total s H = Ok (r, n, total', s', H1) /\
    match r with
    | None => large_memory bytes total = None /\ n = n0 /\ total' = total /\ regs (BufInit.sync s') (firsts p ++ ms) ls /\
        H1 = H ∖ {[pool_at]}
    | Some i => is_Some (large_memory bytes total) /\
        exists z k, n = 2 ^ k /\ H1 = list_to_set (instance_blocks k) ∪ H /\ instance_ok p s ms ls bytes no n0 k i z s' /\
        forall fs shmdt_ok munmap_ok LRU xs ps sl H2, total + BufChunk.mem_size (chunk z) < 2 ^ 64 -> UtList.rep LRU xs ->
          (forall x, x ∈ xs -> exists pg, ps !! x = Some pg /\ freeable fs pg) ->
          length sl = Z.to_nat (n_slots i) -> own H1 (sl ≫= slot_blocks) H2 ->
          exists R', buf_pool_free_instance fs shmdt_ok munmap_ok p (set_slots sl i) LRU ps total' (BufInit.sync s') H2 =
              Ok (without_descriptors ps xs, if unmapped shmdt_ok munmap_ok then total else total', R', H) /\ regs R' ms ls
    end.
Proof using Hmalloc Hmm Hoff Hsize.
  intros Hci Ht. destruct (pool_init_ok kp g p s ms ls bytes no n0 total H Hci) as (r & n & total' & s' & H1 & E & Hres).
  exists r, n, total', s', H1. split; [done|]. destruct r as [i|]; [|done].
  destruct Hres as (Hmem & z & k & -> & -> & Hi & Hrest). split; [done|]. exists z, k. split_and!; [done..|].
  intros fs shmdt_ok munmap_ok LRU xs ps sl H2 Hmax Hrep Hfree Hlen Hsl. by eapply pool_free_ok.
Qed.
End instance.

(** ** An instance with one block *)

Definition tiny_addrs : pool_addrs := mkAddrs 1 2 3 4 5 6 7.

Notation no_node := (mkNode None None).

(** The latches of the block are at 69, 74 and 84, the page hash locks from 100
    on, and the other blocks of memory from 1200 on; the instance itself is at 30.
    The registries hold the mutex of the lock list. *)
Definition tiny_places : pool_places :=
  mkPoolPlaces 1200 (mkPlaces 1201 1202 100 1203 (fun i => 2000 + i)%nat) (mkPlaces 1204 1205 0 0 (fun _ => 0%nat)) (fun i => 1210 + i)%nat 1206 1207 1208.

Definition tiny_memory : RwList.state :=
  RwList.mkState ∅ ∅ (UT_LIST_INIT (gset_to_gmap no_node (list_to_set (74 :: 84 :: HashCreate.latches 1 100 1024)%nat)))
    (MutexList.mkState {[ 9%nat := MutexList.mutex_fields 0 "" 0 "" None; 8%nat := MutexList.mutex_fields 0 "" 0 "" None ]} ∅
      (mkList (gset_to_gmap no_node {[1; 2; 3; 4; 5; 6; 7; 8; 69]}%nat) (mkBase 1 (Some 8%nat) (Some 8%nat)))).

Definition tiny_start : BufInit.state :=
  BufInit.mkState {[ 64%nat := BufInit.raw_block ]} (UT_LIST_INIT {[ 64%nat := no_node ]}) tiny_memory.

Lemma tiny_regs : Registries.regs 9 8 tiny_memory [8%nat] [].
Proof.
  constructor.
  - constructor; cbn [RwList.sync tiny_memory MutexList.mutex_list].
    + constructor; cbn [nodes base start stop count]; [|done..|apply NoDup_singleton|done]. split; [|done].
      rewrite lookup_gset_to_gmap, option_guard_True; [done|set_solver].
    + set_solver.
    + eexists. split; [reflexivity|done].
    + intros x ->%list_elem_of_singleton. eexists. split; [reflexivity|done].
  - constructor; [apply ut_list_init_rep|by intros x ?%elem_of_nil|]. eexists. split; [reflexivity|done].
Qed.

Lemma tiny_mutex x : x ∈ [1; 2; 3; 4; 5; 6; 7; 69]%nat -> Registries.new_mutex 9 8 tiny_memory [8%nat] x.
Proof.
  intros Hx. assert (x <> 9 /\ x <> 8)%nat as [H9 H8] by (rewrite !elem_of_cons, elem_of_nil in Hx; lia).
  split_and!; [done|done|by intros ?%list_elem_of_singleton|]. cbn [RwList.sync tiny_memory MutexList.mutex_list nodes].
  rewrite lookup_gset_to_gmap, option_guard_True; [by eexists|]. rewrite !elem_of_cons, elem_of_nil in Hx. set_solver.
Qed.

Lemma tiny_lock x : x ∈ (74 :: 84 :: HashCreate.latches 1 100 1024)%nat -> Registries.new_lock tiny_memory [] x.
Proof.
  intros Hx. split; [by intros ?%elem_of_nil|]. cbn [tiny_memory RwList.rw_lock_list UT_LIST_INIT nodes].
  rewrite lookup_gset_to_gmap, option_guard_True; [by eexists|]. by apply elem_of_list_to_set.
Qed.

Lemma tiny_fresh :
  fresh_instance 5 10 20 9 8 (2 ^ 6) 40 (2 ^ 5) 0 false small_mmap (fun _ => None) 1 tiny_places tiny_addrs tiny_start [8%nat] [] (2 * 2 ^ 6) 0.
Proof.
  constructor.
  - compute_decide.
  - intros m Hm. apply tiny_mutex.
    assert (at_ m ∈ [1; 2; 3; 4; 5; 6; 7]%nat) as H by (apply (list_elem_of_fmap_2 at_) in Hm; exact Hm).
    clear -H. set_solver.
  - intros c fr total' E x. vm_compute in E. injection E as <- _ _. intros ->%list_elem_of_singleton.
    change (block_addr _ _ _) with 64%nat. split.
    + constructor; [by eexists|split; [by eexists|by intros ?%elem_of_nil]|apply tiny_mutex; compute_decide|..];
        apply tiny_lock; [left|right; left].
    + split; [compute_decide|]. split; intros (i & E & _)%list_elem_of_fmap; unfold lock_of, debug_of in E;
        change (for_latches (for_page_hash tiny_places)) with 100%nat in E; lia.
  - intros x Hx. apply tiny_lock. right. by right.
Qed.

Lemma prime_103 : Znumtheory.prime 103.
Proof.
  destruct (HashPrime.trial_ok 103 ltac:(lia) 20 2) as (b & E & Hb); [lia|by vm_compute|by vm_compute|intros j Hj; lia|].
  apply Hb. vm_compute in E. by injection E as <-.
Qed.

Lemma tiny_blocks : NoDup (instance_blocks tiny_places 10) /\ forall x, x ∈ instance_blocks tiny_places 10 -> x ∉ ({[30]} : gset nat)%nat.
Proof.
  set (heaps := (fun i => 2000 + i)%nat <$> seq 0 (Z.to_nat (2 ^ 10))).
  assert (instance_blocks tiny_places 10 ≡ₚ heaps ++ [1206; 1210; 1211; 1212; 1200; 1203; 100; 1202; 1201; 1205; 1204; 1208; 1207]%nat) as Hp.
  { unfold instance_blocks, size_blocks, hash_blocks, latch_blocks, table_blocks, events. cbn [for_watch for_event for_chunks for_page_hash
      for_zip_hash for_slots for_tmp_arr for_heap for_heaps for_latches for_table for_array tiny_places fmap list_fmap seq app].
    fold heaps. clearbody heaps. simpl. solve_Permutation. }
  assert (forall x, x ∈ heaps -> (2000 <= x)%nat) as Hge by (intros x (i & -> & _)%list_elem_of_fmap; lia).
  assert (forall x, x ∈ [1206; 1210; 1211; 1212; 1200; 1203; 100; 1202; 1201; 1205; 1204; 1208; 1207]%nat -> (100 <= x < 2000)%nat) as Hlt.
  { apply Forall_forall. compute_decide. }
  split.
  - rewrite Hp. apply NoDup_app. split; [apply NoDup_fmap_2; [intros i j; lia|apply NoDup_seq]|].
    split; [intros x H1%Hge H2%Hlt; lia|compute_decide].
  - intros x. rewrite Hp, elem_of_app, elem_of_singleton. intros [H1%Hge|H2%Hlt]; lia.
Qed.

Lemma tiny_can_init :
  can_init 5 10 20 9 8 (2 ^ 6) 40 (2 ^ 5) 0 false small_mmap (fun _ => None) 10 1 tiny_places 30 6 5 tiny_addrs tiny_start [8%nat] []
    (2 * 2 ^ 6) 12 0 {[30%nat]}.
Proof.
  constructor.
  - exact tiny_config.
  - unfold request_ok. split_and!; by vm_compute.
  - done.
  - exact tiny_regs.
  - exact tiny_fresh.
  - done.
  - split; by vm_compute.
  - exists 103, 103. split_and!; [by vm_compute|exact prime_103|done|done|done].
  - done.
  - exact tiny_blocks.
  - by apply elem_of_singleton.
Qed.

Notation tiny_init := (buf_pool_init_instance 5 10 20 9 (2 ^ 6) 40 (2 ^ 5) 0 false small_mmap (fun _ => None) 10
  (fun n => replicate n None) 1 tiny_places 30 1 4 4 0 tiny_addrs (2 * 2 ^ 6) 3 12 0 tiny_start {[30%nat]}).

(** There is memory, so the instance is made, and it can be freed. *)
Lemma pool_lifecycle_witness :
  exists i n total' s' H1, tiny_init = Ok (Some i, n, total', s', H1) /\
    exists z k, n = 2 ^ k /\ H1 = list_to_set (instance_blocks tiny_places k) ∪ {[30%nat]} /\
      instance_ok 5 10 20 9 8 (2 ^ 6) 40 1 tiny_places 1 tiny_addrs tiny_start [8%nat] [] (2 * 2 ^ 6) 3 12 k i z s' /\
      forall fs shmdt_ok munmap_ok LRU xs ps sl H2, 0 + BufChunk.mem_size (chunk z) < 2 ^ 64 -> UtList.rep LRU xs ->
        (forall x, x ∈ xs -> exists pg, ps !! x = Some pg /\ freeable fs pg) ->
        length sl = Z.to_nat (n_slots i) -> own H1 (sl ≫= slot_blocks) H2 ->
        exists R', buf_pool_free_instance 5 10 20 9 8 0 40 0 false 1 fs shmdt_ok munmap_ok tiny_addrs (set_slots sl i) LRU ps total'
            (BufInit.sync s') H2 =
          Ok (without_descriptors ps xs, if unmapped 0 false shmdt_ok munmap_ok then 0 else total', R', {[30%nat]}) /\
        Registries.regs 9 8 R' [8%nat] [].
Proof.
  destruct (pool_lifecycle 5 10 20 9 8 0 (2 ^ 6) 40 (2 ^ 5) 0 false small_mmap (fun _ => None) 10 (fun n => replicate n None) 1 tiny_places 30
    1 4 4 0 ltac:(done) ltac:(done) (fun n => length_replicate n None) ltac:(lia) 6 5
    tiny_addrs tiny_start [8%nat] [] (2 * 2 ^ 6) 3 12 0 {[30%nat]} tiny_can_init ltac:(lia)) as (r & n & total' & s' & H1 & E & Hr).
  destruct r as [i|].
  - exists i, n, total', s', H1. split; [exact E|]. exact (proj2 Hr).
  - exfalso. destruct Hr as [Hno _]. vm_compute in Hno. discriminate.
Defined.
End BufPool.
