(* ===== verification/BuddyTiling.v ===== *)
(** * Aligned blocks that tile page frames

    The arithmetic behind buf/buf0buddy.cc, apart from its data: blocks of
    [2^(shift + i)] bytes at addresses aligned to their size, which divide the
    page frames of the allocator without gaps, and what splitting a block and
    merging two buddies does to such a division. *)
From S2P Require Import Prelude.

Module BuddyTiling.
Section tiling.
Context (shift sizes : nat).

(** [BUF_BUDDY_LOW << i]; [sizes] is the level of a whole page frame. *)
Definition block_size (i : nat) : nat := 2 ^ (shift + i).

Lemma block_size_S i : block_size (S i) = 2 * block_size i.
Proof. unfold block_size. by rewrite Nat.add_succ_r, Nat.pow_succ_r'. Qed.

Lemma block_size_pos i : 0 < block_size i.
Proof. unfold block_size. pose proof (Nat.pow_nonzero 2 (shift + i)). lia. Qed.

Lemma block_size_divide i j : i <= j -> (block_size i | block_size j).
Proof.
  induction 1 as [|j _ IH]; [done|]. rewrite block_size_S. by apply Nat.divide_mul_r.
Qed.

Definition inside (a i x : nat) : Prop := a <= x < a + block_size i.
Definition aligned (a i : nat) : Prop := (block_size i | a).

(** The aligned block around an address. *)
Definition floor (i x : nat) : nat := x / block_size i * block_size i.

Lemma floor_aligned i x : aligned (floor i x) i.
Proof. by exists (x / block_size i). Qed.

Lemma floor_inside i x : inside (floor i x) i x.
Proof.
  unfold inside, floor. pose proof (block_size_pos i). pose proof (Nat.div_mod_eq x (block_size i)).
  pose proof (Nat.mod_upper_bound x (block_size i)). lia.
Qed.

Lemma floor_unique a i x : aligned a i -> inside a i x -> a = floor i x.
Proof.
  intros [q ->] [H1 H2]. pose proof (block_size_pos i). unfold floor. f_equal.
  apply (Nat.div_unique x (block_size i) q (x - q * block_size i)); lia.
Qed.

Lemma aligned_le a i j : i <= j -> aligned a j -> aligned a i.
Proof. intros Hij Ha. eapply Nat.divide_trans; [by apply block_size_divide|done]. Qed.

Lemma inside_start a i : inside a i a.
Proof. unfold inside. pose proof (block_size_pos i). lia. Qed.

Lemma floor_of_aligned a i : aligned a i -> floor i a = a.
Proof. intros Ha. symmetry. apply floor_unique; [done|apply inside_start]. Qed.

(** The larger block around a block. *)
Lemma floor_step i x : floor (S i) x = floor i x \/ floor (S i) x + block_size i = floor i x.
Proof.
  pose proof (floor_inside (S i) x) as [H1 H2]. pose proof (block_size_S i) as HS. pose proof (floor_aligned (S i) x) as Ha.
  assert (aligned (floor (S i) x) i) as Hi by (eapply aligned_le; [|done]; lia).
  destruct (decide (x < floor (S i) x + block_size i)).
  - left. apply floor_unique; [done|]. unfold inside. lia.
  - right. apply floor_unique; [|unfold inside; lia]. apply Nat.divide_add_r; [done|]. apply Nat.divide_refl.
Qed.

Lemma floor_floor i j x : i <= j -> floor j (floor i x) = floor j x.
Proof.
  intros Hij. symmetry. apply floor_unique; [apply floor_aligned|].
  assert (aligned (floor j x) i) as Ha by (eapply aligned_le; [done|apply floor_aligned]).
  pose proof (floor_inside j x) as [H1 H2]. pose proof (floor_inside i x) as [H3 H4].
  destruct Ha as [p Hp], (floor_aligned i x) as [q Hq], (block_size_divide i j Hij) as [r Hr].
  pose proof (block_size_pos i) as Hpos. unfold inside. rewrite Hq in *. rewrite Hp in H1, H2 |- *. rewrite Hr in *.
  assert (p < S q) by (apply (Nat.mul_lt_mono_pos_r (block_size i)); lia). split; [nia|lia].
Qed.

(** The buddy of a block. *)
Definition buddy (i a : nat) : nat := if decide (floor (S i) a = a) then a + block_size i else floor (S i) a.

Lemma buddy_cases i a :
  aligned a i ->
  (floor (S i) a = a /\ buddy i a = a + block_size i) \/ (a = floor (S i) a + block_size i /\ buddy i a = floor (S i) a).
Proof.
  intros Ha. unfold buddy. pose proof (floor_step i a) as H. rewrite (floor_of_aligned a i Ha) in H.
  destruct H as [->|H]; [left; by rewrite decide_True|]. pose proof (block_size_pos i). right. rewrite decide_False by lia. lia.
Qed.

Lemma floor_half i a k : aligned a (S i) -> k < block_size (S i) -> floor (S i) (a + k) = a.
Proof. intros Ha Hk. symmetry. apply floor_unique; [done|]. unfold inside. lia. Qed.

Lemma buddy_floor i a : aligned a i -> floor (S i) (buddy i a) = floor (S i) a.
Proof.
  intros Ha. pose proof (block_size_pos i). pose proof (block_size_S i). destruct (buddy_cases i a Ha) as [[Hf ->]|[Hf ->]].
  - rewrite <- Hf at 1. rewrite floor_half; [done|apply floor_aligned|lia].
  - apply floor_of_aligned, floor_aligned.
Qed.

Lemma buddy_aligned i a : aligned a i -> aligned (buddy i a) i.
Proof.
  intros Ha. destruct (buddy_cases i a Ha) as [[_ ->]|[_ ->]].
  - apply Nat.divide_add_r; [done|apply Nat.divide_refl].
  - eapply aligned_le; [|apply floor_aligned]. lia.
Qed.

Lemma buddy_ne i a : aligned a i -> buddy i a <> a.
Proof. intros Ha. pose proof (block_size_pos i). destruct (buddy_cases i a Ha) as [[_ ->]|[Hf ->]]; lia. Qed.

Lemma buddy_involutive i a : aligned a i -> buddy i (buddy i a) = a.
Proof.
  intros Ha. pose proof (buddy_floor i a Ha) as Hf. pose proof (block_size_pos i).
  destruct (buddy_cases i a Ha) as [[E1 E2]|[E1 E2]], (buddy_cases i _ (buddy_aligned i a Ha)) as [[E3 E4]|[E3 E4]]; lia.
Qed.

(** ** Divisions of page frames

    [L] maps the start of every block to its level. *)
Record tiling (frames : gset nat) (L : gmap nat nat) : Prop := Tiling {
  tl_level a i : L !! a = Some i -> i <= sizes;
  tl_aligned a i : L !! a = Some i -> aligned a i;
  tl_frame f : f ∈ frames -> aligned f sizes;
  tl_inside a i : L !! a = Some i -> floor sizes a ∈ frames;
  tl_cover f x : f ∈ frames -> inside f sizes x -> exists a i, L !! a = Some i /\ inside a i x;
  tl_disjoint a i b j x : L !! a = Some i -> L !! b = Some j -> inside a i x -> inside b j x -> a = b }.

Lemma tiling_empty : tiling ∅ ∅.
Proof. split; set_solver. Qed.

(** A block ends inside of its frame. *)
Lemma tiling_bounds frames L a i : tiling frames L -> L !! a = Some i -> floor sizes a <= a /\ a + block_size i <= floor sizes a + block_size sizes.
Proof.
  intros T Ha. pose proof (tl_level _ _ T a i Ha) as Hl. pose proof (floor_inside sizes a) as [H1 H2]. split; [done|].
  destruct (tl_aligned _ _ T a i Ha) as [q Hq]. destruct (floor_aligned sizes a) as [p Hp]. destruct (block_size_divide i sizes Hl) as [r Hr].
  rewrite Hp, Hr in *. clear Hp. rewrite Hq in *. pose proof (block_size_pos i) as Hpos.
  assert (q < p * r + r) by (apply (Nat.mul_lt_mono_pos_r (block_size i)); nia). nia.
Qed.

(** The address of the buddy of a block is the start of a block that is not
    larger. *)
Lemma tiling_buddy frames L a i :
  tiling frames L -> L !! a = Some i -> i < sizes -> exists j, L !! buddy i a = Some j /\ j <= i.
Proof.
  intros T Ha Hi. pose proof (tl_aligned _ _ T a i Ha) as Hal. set (b := buddy i a).
  pose proof (buddy_aligned i a Hal) as Hbl. pose proof (buddy_floor i a Hal) as Hf. fold b in Hbl, Hf.
  assert (forall k, i < k -> floor k b = floor k a) as Hup.
  { intros k Hk. rewrite <- (floor_floor (S i) k b), <- (floor_floor (S i) k a) by lia. by rewrite Hf. }
  destruct (tl_cover _ _ T (floor sizes a) b) as (c & j & Hc & Hin).
  - by eapply tl_inside.
  - rewrite <- Hup by done. apply floor_inside.
  - pose proof (tl_aligned _ _ T c j Hc) as Hcl. pose proof (floor_unique c j b Hcl Hin) as Ec.
    destruct (decide (j <= i)) as [Hj|Hj].
    + rewrite (floor_of_aligned b j) in Ec by by eapply aligned_le. subst c. eauto.
    + rewrite Hup in Ec by lia. assert (inside c j a) as Hca by (rewrite Ec; apply floor_inside).
      pose proof (tl_disjoint _ _ T a i c j a Ha Hc (inside_start a i) Hca) as <-. rewrite Ha in Hc. injection Hc as ->. lia.
Qed.

Lemma inside_sub a i x : inside a i x -> inside a (S i) x.
Proof. unfold inside. rewrite block_size_S. lia. Qed.

Lemma inside_halves a i x : inside a (S i) x <-> inside a i x \/ inside (a + block_size i) i x.
Proof. unfold inside. rewrite block_size_S. pose proof (block_size_pos i). lia. Qed.

(** The upper half of a block is not the start of another block. *)
Lemma tiling_half_fresh frames L a i : tiling frames L -> L !! a = Some (S i) -> L !! (a + block_size i) = None.
Proof.
  intros T Ha. apply eq_None_not_Some. intros [j Hj]. pose proof (block_size_pos i).
  assert (a = a + block_size i); [|lia]. eapply (tl_disjoint _ _ T _ _ _ _ (a + block_size i) Ha Hj); [|apply inside_start].
  apply inside_halves. right. apply inside_start.
Qed.

Lemma tiling_split frames L a i :
  tiling frames L -> L !! a = Some (S i) -> tiling frames (<[a + block_size i := i]> (<[a := i]> L)).
Proof.
  intros T Ha. pose proof (tl_aligned _ _ T a _ Ha) as Hal. pose proof (tl_level _ _ T a _ Ha) as Hlv.
  pose proof (block_size_pos i) as Hpos. set (b := a + block_size i).
  assert (forall c j, <[b := i]> (<[a := i]> L) !! c = Some j -> forall x, inside c j x ->
    (c = a /\ j = i) \/ (c = b /\ j = i) \/ (c <> a /\ c <> b /\ L !! c = Some j)) as Hcases.
  { intros c j Hc x _. destruct (decide (c = b)) as [->|Hb]; [rewrite lookup_insert_eq in Hc; injection Hc as <-; auto|].
    rewrite lookup_insert_ne in Hc by done. destruct (decide (c = a)) as [->|Hca]; [rewrite lookup_insert_eq in Hc; injection Hc as <-; auto|].
    rewrite lookup_insert_ne in Hc by done. auto. }
  assert (aligned a i /\ aligned b i) as [Hai Hbi].
  { assert (aligned a i) as Hai by (eapply aligned_le; [|done]; lia). split; [done|]. apply Nat.divide_add_r; [done|apply Nat.divide_refl]. }
  assert (forall c j x, <[b := i]> (<[a := i]> L) !! c = Some j -> inside c j x -> exists c' j', L !! c' = Some j' /\ inside c' j' x /\
    (c = c' \/ c' = a /\ c = b)) as Hold.
  { intros c j x Hc Hx. destruct (Hcases c j Hc x Hx) as [[-> ->]|[[-> ->]|(_ & _ & Hc')]]; [| |by eauto 6].
    - exists a, (S i). split_and!; [done|by apply inside_sub|by left].
    - exists a, (S i). split_and!; [done|by apply inside_halves; right|by right]. }
  split.
  - intros c j Hc. destruct (Hcases c j Hc c (inside_start c j)) as [[_ ->]|[[_ ->]|(_ & _ & Hc')]]; [lia..|by eapply tl_level].
  - intros c j Hc. destruct (Hcases c j Hc c (inside_start c j)) as [[-> ->]|[[-> ->]|(_ & _ & Hc')]]; [done..|by eapply tl_aligned].
  - apply (tl_frame _ _ T).
  - intros c j Hc. destruct (Hcases c j Hc c (inside_start c j)) as [[-> ->]|[[-> ->]|(_ & _ & Hc')]]; [by eapply tl_inside| |by eapply tl_inside].
    rewrite <- (floor_floor (S i) sizes b) by done. unfold b. rewrite floor_half by (done || (rewrite block_size_S; lia)). by eapply tl_inside.
  - intros f x Hf Hx. destruct (tl_cover _ _ T f x Hf Hx) as (c & j & Hc & Hin). destruct (decide (c = a)) as [->|Hca].
    + rewrite Ha in Hc. injection Hc as <-. apply inside_halves in Hin as [Hin|Hin].
      * exists a, i. split; [|done]. rewrite lookup_insert_ne by lia. apply lookup_insert_eq.
      * exists b, i. split; [apply lookup_insert_eq|done].
    + exists c, j. split; [|done]. pose proof (tiling_half_fresh _ _ _ _ T Ha) as Hn. fold b in Hn.
      rewrite !lookup_insert_ne by congruence. done.
  - intros c j d k x Hc Hd Hcx Hdx. destruct (Hold c j x Hc Hcx) as (c' & j' & Hc' & Hcx' & Ec).
    destruct (Hold d k x Hd Hdx) as (d' & k' & Hd' & Hdx' & Ed). pose proof (tl_disjoint _ _ T _ _ _ _ x Hc' Hd' Hcx' Hdx') as <-.
    destruct (Hcases c j Hc x Hcx) as [[-> ->]|[[-> ->]|(N1 & N2 & _)]], (Hcases d k Hd x Hdx) as [[-> ->]|[[-> ->]|(M1 & M2 & _)]];
      unfold inside in Hcx, Hdx; subst b; destruct Ec as [Ec|[Ec1 Ec2]], Ed as [Ed|[Ed1 Ed2]]; subst; try done; try lia; congruence.
Qed.

(** Two halves of an aligned block become one block. *)
Lemma tiling_merge frames L c i :
  tiling frames L -> L !! c = Some i -> L !! (c + block_size i) = Some i -> aligned c (S i) -> S i <= sizes ->
  tiling frames (<[c := S i]> (delete (c + block_size i) L)).
Proof.
  intros T Hc Hd Hal Hlv. pose proof (block_size_pos i) as Hpos. set (d := c + block_size i) in *.
  assert (forall a j, <[c := S i]> (delete d L) !! a = Some j -> (a = c /\ j = S i) \/ (a <> c /\ a <> d /\ L !! a = Some j)) as Hcases.
  { intros a j Ha. destruct (decide (a = c)) as [->|Hac]; [rewrite lookup_insert_eq in Ha; injection Ha as <-; auto|].
    rewrite lookup_insert_ne, lookup_delete_Some in Ha by done. destruct Ha. auto. }
  assert (forall a j x, <[c := S i]> (delete d L) !! a = Some j -> inside a j x ->
    exists a' j', L !! a' = Some j' /\ inside a' j' x /\ ((a' = a /\ a <> c) \/ a = c /\ (a' = c \/ a' = d))) as Hold.
  { intros a j x Ha Hx. destruct (Hcases a j Ha) as [[-> ->]|(N1 & N2 & Ha')]; [|by eauto 7].
    apply inside_halves in Hx as [Hx|Hx]; [exists c, i|exists d, i]; auto 8. }
  split.
  - intros a j Ha. destruct (Hcases a j Ha) as [[_ ->]|(_ & _ & Ha')]; [done|by eapply tl_level].
  - intros a j Ha. destruct (Hcases a j Ha) as [[-> ->]|(_ & _ & Ha')]; [done|by eapply tl_aligned].
  - apply (tl_frame _ _ T).
  - intros a j Ha. destruct (Hcases a j Ha) as [[-> ->]|(_ & _ & Ha')]; by eapply tl_inside.
  - intros f x Hf Hx. destruct (tl_cover _ _ T f x Hf Hx) as (a & j & Ha & Hin).
    destruct (decide (a = c)) as [->|Hac]; [|destruct (decide (a = d)) as [->|Had]].
    + rewrite Hc in Ha. injection Ha as <-. exists c, (S i). split; [apply lookup_insert_eq|by apply inside_sub].
    + rewrite Hd in Ha. injection Ha as <-. exists c, (S i). split; [apply lookup_insert_eq|by apply inside_halves; right].
    + exists a, j. split; [|done]. by rewrite lookup_insert_ne, lookup_delete_ne by done.
  - intros a j b k x Ha Hb Hax Hbx. destruct (Hold a j x Ha Hax) as (a' & j' & Ha' & Hax' & Ea).
    destruct (Hold b k x Hb Hbx) as (b' & k' & Hb' & Hbx' & Eb). pose proof (tl_disjoint _ _ T _ _ _ _ x Ha' Hb' Hax' Hbx') as <-.
    destruct Ea as [[-> Na]|[-> Ea]], Eb as [[E Nb]|[-> Eb]]; [done| | |done].
    + destruct (Hcases a j Ha) as [[]|(_ & N & _)]; destruct Eb; congruence.
    + destruct (Hcases b k Hb) as [[]|(_ & N & _)]; destruct Ea; congruence.
Qed.

(** A new frame is one block. *)
Lemma tiling_add frames L f :
  tiling frames L -> f ∉ frames -> aligned f sizes -> L !! f = None /\ tiling ({[f]} ∪ frames) (<[f := sizes]> L).
Proof.
  intros T Hf Hal.
  assert (forall a i x, L !! a = Some i -> inside a i x -> inside f sizes x -> False) as Hout.
  { intros a i x Ha Hx Hfx. pose proof (tiling_bounds _ _ _ _ T Ha) as [B1 B2]. apply Hf.
    rewrite (floor_unique f sizes x Hal Hfx), <- (floor_unique (floor sizes a) sizes x);
      [by eapply tl_inside|apply floor_aligned|unfold inside in *; lia]. }
  assert (L !! f = None) as Hn.
  { apply eq_None_not_Some. intros [i Hi]. eapply (Hout f i f Hi); apply inside_start. }
  split; [done|]. split.
  - intros a i [[<- <-]|[_ Ha]]%lookup_insert_Some; [done|by eapply tl_level].
  - intros a i [[<- <-]|[_ Ha]]%lookup_insert_Some; [done|by eapply tl_aligned].
  - intros g [->%elem_of_singleton|Hg]%elem_of_union; [done|by eapply tl_frame].
  - intros a i [[<- <-]|[_ Ha]]%lookup_insert_Some; apply elem_of_union; [left|right].
    + rewrite floor_of_aligned by done. by apply elem_of_singleton.
    + by eapply tl_inside.
  - intros g x [->%elem_of_singleton|Hg]%elem_of_union Hx.
    + exists f, sizes. split; [apply lookup_insert_eq|done].
    + destruct (tl_cover _ _ T g x Hg Hx) as (a & i & Ha & Hin). exists a, i. split; [|done]. rewrite lookup_insert_ne; [done|congruence].
  - intros a i b j x [[<- <-]|[_ Ha]]%lookup_insert_Some [[<- <-]|[_ Hb]]%lookup_insert_Some Hax Hbx; [done| | |].
    + destruct (Hout b j x Hb Hbx Hax).
    + destruct (Hout a i x Ha Hax Hbx).
    + exact (tl_disjoint _ _ T _ _ _ _ x Ha Hb Hax Hbx).
Qed.

(** A frame that is one block can be taken away. *)
Lemma tiling_remove frames L f :
  tiling frames L -> L !! f = Some sizes -> f ∈ frames /\ tiling (frames ∖ {[f]}) (delete f L).
Proof.
  intros T Hf. pose proof (floor_of_aligned f sizes (tl_aligned _ _ T _ _ Hf)) as Ef.
  pose proof (tl_inside _ _ T _ _ Hf) as Hin. rewrite Ef in Hin. split; [done|]. split.
  - intros a i [_ Ha]%lookup_delete_Some. by eapply tl_level.
  - intros a i [_ Ha]%lookup_delete_Some. by eapply tl_aligned.
  - intros g [Hg _]%elem_of_difference. by eapply tl_frame.
  - intros a i [Hne Ha]%lookup_delete_Some. apply elem_of_difference. split; [by eapply tl_inside|].
    intros E%elem_of_singleton. apply Hne. apply (tl_disjoint _ _ T f sizes a i a Hf Ha); [|apply inside_start].
    rewrite <- E. apply floor_inside.
  - intros g x [Hg Hne]%elem_of_difference Hx. destruct (tl_cover _ _ T g x Hg Hx) as (a & i & Ha & Hax). exists a, i. split; [|done].
    rewrite lookup_delete_ne; [done|]. intros <-. rewrite Hf in Ha. injection Ha as <-. apply Hne, elem_of_singleton.
    rewrite (floor_unique g sizes x (tl_frame _ _ T g Hg) Hx). symmetry. apply floor_unique; [by eapply tl_aligned|done].
  - intros a i b j x [_ Ha]%lookup_delete_Some [_ Hb]%lookup_delete_Some. by eapply tl_disjoint.
Qed.
End tiling.
End BuddyTiling.
