(* ===== verification/BufBuddy.v ===== *)
(** * The buddy allocator for compressed pages (buf/buf0buddy.cc, include/buf0buddy.ic)

    The free lists of blocks, the stamps by which the allocator recognises a free
    buddy, splitting, recombination and relocation.  A critical section of
    [zip_free_mutex] is one transition; between them other threads run, also
    inside of [buf_buddy_relocate], which releases the mutex.  Memory is
    represented by what the allocator reads of it: for every address the word at
    [FIL_PAGE_ARCH_LOG_NO_OR_SPACE_ID] and the one at [FIL_PAGE_OFFSET], as
    [MachData.mach_read_from_4] reads them, the size in a stamp, and the links of
    a free list, all of which the owner of a block may overwrite.  The page hash
    and the hash of the frames are the finite maps that [HashTable] shows them to
    be.  The assertions of the debug build are part of the model, except for those
    about the ownership of mutexes, which the transitions have in their critical
    sections, and those that compare constants; its [memset] of freed blocks is
    left out. *)
From S2P Require Import Prelude Results UtList BuddyTiling.
Local Open Scope nat_scope.

Module BufBuddy.
Import UtList BuddyTiling.
Local Open Scope mc_scope.

Definition BUF_BUDDY_STAMP_FREE : Z := 0xFFFFFFF0.
Definition BUF_BUDDY_STAMP_NONFREE : Z := 0xFFFFFFFF.

Inductive buf_buddy_state_t :=
| BUF_BUDDY_STATE_FREE | BUF_BUDDY_STATE_USED | BUF_BUDDY_STATE_PARTIALLY_USED.

(** What [buf_buddy_relocate] uses of a control block: [zip.data], the level of
    [page_zip_get_size(&zip)], and whether it is fixed or under i/o. *)
Record zip_page := mkZip { zip_data : nat; zip_level : nat; zip_fixed : bool }.

(** What is used of the control block of a frame: [page.state], the flags of the
    debug build and [n_pointers]. *)
Inductive buf_block_state :=
| BUF_BLOCK_NOT_USED | BUF_BLOCK_READY_FOR_USE | BUF_BLOCK_FILE_PAGE | BUF_BLOCK_MEMORY | BUF_BLOCK_REMOVE_HASH.
#[export] Instance buf_block_state_eq_dec : EqDecision buf_block_state.
Proof. solve_decision. Defined.

Record frame_block := mkBlock {
  block_state : buf_block_state;
  in_page_hash : bool;
  in_zip_hash : bool;
  in_free_list : bool;
  in_flush_list : bool;
  in_LRU_list : bool;
  n_pointers : Z }.

(** A control block as it comes from the free list, and that of a frame of the
    allocator. *)
Definition ready_block : frame_block := mkBlock BUF_BLOCK_READY_FOR_USE false false false false false 0.
Definition memory_block : frame_block := mkBlock BUF_BLOCK_MEMORY false true false false false 0.

Record state := mkState {
  zip_free : nat -> ut_list_base;
  links : gmap nat ut_list_node;
  space_word : nat -> Z;
  offset_word : nat -> Z;
  stamp_size : nat -> Z;
  used : nat -> Z;
  relocated : nat -> Z;
  zip_hash : gset nat;
  page_hash : gmap (Z * Z) zip_page;
  frames : gmap nat frame_block;
  buddy_n_frames : Z }.

Section buddy.
(** [UNIV_ZIP_SIZE_SHIFT_MIN] is 10; [BUF_BUDDY_SIZES] is [UNIV_PAGE_SIZE_SHIFT - 10]. *)
Context (BUF_BUDDY_LOW_SHIFT BUF_BUDDY_SIZES : nat).

(** [BUF_BUDDY_LOW << i] *)
Notation size := (block_size BUF_BUDDY_LOW_SHIFT).

Definition ut_align_offset (p align_no : nat) : nat := Nat.land p (align_no - 1).
Definition ut_align_down (p align_no : nat) : nat := Nat.ldiff p (align_no - 1).
Definition is_aligned (p align_no : nat) : bool := ut_align_offset p align_no =? 0.

(** ** Assignments *)

Definition set_list (i : nat) (l : ut_list) (s : state) : state :=
  mkState (upd (zip_free s) i (base l)) (nodes l) (space_word s) (offset_word s) (stamp_size s) (used s) (relocated s)
    (zip_hash s) (page_hash s) (frames s) (buddy_n_frames s).
Definition set_words (w o z : nat -> Z) (s : state) : state :=
  mkState (zip_free s) (links s) w o z (used s) (relocated s) (zip_hash s) (page_hash s) (frames s) (buddy_n_frames s).
Definition set_used (u : nat -> Z) (s : state) : state :=
  mkState (zip_free s) (links s) (space_word s) (offset_word s) (stamp_size s) u (relocated s) (zip_hash s) (page_hash s)
    (frames s) (buddy_n_frames s).
Definition set_links (m : gmap nat ut_list_node) (s : state) : state :=
  mkState (zip_free s) m (space_word s) (offset_word s) (stamp_size s) (used s) (relocated s) (zip_hash s) (page_hash s)
    (frames s) (buddy_n_frames s).
Definition set_relocated (r : nat -> Z) (s : state) : state :=
  mkState (zip_free s) (links s) (space_word s) (offset_word s) (stamp_size s) (used s) r (zip_hash s) (page_hash s)
    (frames s) (buddy_n_frames s).
Definition set_zip_hash (h : gset nat) (s : state) : state :=
  mkState (zip_free s) (links s) (space_word s) (offset_word s) (stamp_size s) (used s) (relocated s) h (page_hash s)
    (frames s) (buddy_n_frames s).
Definition set_page_hash (h : gmap (Z * Z) zip_page) (s : state) : state :=
  mkState (zip_free s) (links s) (space_word s) (offset_word s) (stamp_size s) (used s) (relocated s) (zip_hash s) h
    (frames s) (buddy_n_frames s).
Definition set_frames (f : gmap nat frame_block) (n : Z) (s : state) : state :=
  mkState (zip_free s) (links s) (space_word s) (offset_word s) (stamp_size s) (used s) (relocated s) (zip_hash s) (page_hash s) f n.

(** [buf_pool->zip_free[i]] *)
Definition free_list (s : state) (i : nat) : ut_list := mkList (links s) (zip_free s i).

(** ** Stamps *)

Definition buf_buddy_stamp_is_free (s : state) (buf : nat) : bool := (space_word s buf =? BUF_BUDDY_STAMP_FREE)%Z.

(** [buf_buddy_mem_invalid] without Valgrind. *)
Definition buf_buddy_mem_invalid (i : nat) : res unit := ut_a (i <=? BUF_BUDDY_SIZES).

(** The size occupies the first eight bytes, and so the page offset too. *)
Definition buf_buddy_stamp_free (buf i : nat) (s : state) : res state :=
  let! _ := buf_buddy_mem_invalid i in
  Ok (set_words (upd (space_word s) buf BUF_BUDDY_STAMP_FREE) (upd (offset_word s) buf 0%Z) (upd (stamp_size s) buf (Z.of_nat i)) s).

Definition buf_buddy_stamp_nonfree (buf i : nat) (s : state) : res state :=
  let! _ := buf_buddy_mem_invalid i in
  Ok (set_words (upd (space_word s) buf BUF_BUDDY_STAMP_NONFREE) (offset_word s) (stamp_size s) s).

Definition buf_buddy_get (page sz : nat) : res nat :=
  let! _ := ut_a (size 0 <=? sz) in
  let! _ := ut_a (sz <? size BUF_BUDDY_SIZES) in
  let! _ := ut_a (is_aligned page sz) in
  Ok (if Nat.land page sz =? 0 then page + sz else page - sz).

(** Whether a control block has its compressed page at this address.  The source
    looks through the control blocks of the chunks, of which those with a
    compressed page are in the page hash; here the ones that are allocated for
    compressed pages alone are looked at too. *)
Definition buf_pool_contains_zip (s : state) (data : nat) : bool :=
  existsb (fun p => zip_data p.2 =? data) (map_to_list (page_hash s)).

(** ** Free lists *)

(** [CheckZipFree] on the elements of a list. *)
Definition list_valid (s : state) (i : nat) : bool :=
  match ut_list_validate (free_list s i) with
  | Some (xs, _) => forallb (fun a => buf_buddy_stamp_is_free s a && (stamp_size s a <=? Z.of_nat i)%Z) xs
  | None => false
  end.

(** The loop of [buf_buddy_check_free]. *)
Fixpoint check_loop (fuel : nat) (m : gmap nat ut_list_node) (itr : option nat) (buf : nat) : bool :=
  match itr, fuel with
  | Some x, S fuel =>
      if x =? buf then true
      else match m !! x with Some nd => check_loop fuel m (next nd) buf | None => false end
  | _, _ => false
  end.
Definition buf_buddy_check_free (s : state) (buf i : nat) : bool :=
  is_aligned buf (size i) && check_loop (base.size (links s)) (links s) (start (zip_free s i)) buf.

Definition buf_buddy_is_free (s : state) (buf i : nat) : res buf_buddy_state_t :=
  let! _ := ut_a (is_aligned buf (size i)) in
  if negb (buf_buddy_stamp_is_free s buf) then Ok BUF_BUDDY_STATE_USED
  else
    let! _ := ut_a (stamp_size s buf <=? Z.of_nat i)%Z in
    Ok (if (stamp_size s buf =? Z.of_nat i)%Z then BUF_BUDDY_STATE_FREE else BUF_BUDDY_STATE_PARTIALLY_USED).

Definition buf_buddy_add_to_free (buf i : nat) (s : state) : res state :=
  let! _ := ut_a (negb (bool_decide (start (zip_free s i) = Some buf))) in
  let! s := buf_buddy_stamp_free buf i s in
  let! l := deref (ut_list_prepend buf (free_list s i)) in
  let s := set_list i l s in
  let! _ := ut_a (list_valid s i) in
  Ok s.

Definition buf_buddy_remove_from_free (buf i : nat) (s : state) : res state :=
  let! _ := ut_a (buf_buddy_check_free s buf i) in
  let! l := deref (ut_list_remove buf (free_list s i)) in
  buf_buddy_stamp_nonfree buf i (set_list i l s).

(** ** Allocation *)

(** The recursion ends at [BUF_BUDDY_SIZES]: [k] is [BUF_BUDDY_SIZES - i]. *)
Fixpoint buf_buddy_alloc_zip (k i : nat) (s : state) : res (option nat * state) :=
  let! _ := ut_a (i <? BUF_BUDDY_SIZES) in
  let! _ := ut_a (list_valid s i) in
  let! (buf, s) :=
    (match start (zip_free s i) with
     | Some buf => let! s := buf_buddy_remove_from_free buf i s in Ok (Some buf, s)
     | None =>
         if i + 1 <? BUF_BUDDY_SIZES then
           match k with
           | O => Fault
           | S k =>
               let! (buf, s) := buf_buddy_alloc_zip k (i + 1) s in
               match buf with
               | Some buf =>
                   let! _ := ut_a (negb (buf_pool_contains_zip s (buf + size i))) in
                   let! s := buf_buddy_add_to_free (buf + size i) i s in Ok (Some buf, s)
               | None => Ok (None, s)
               end
           end
         else Ok (None, s)
     end) in
  match buf with
  | Some b => let! _ := ut_a (space_word s b =? BUF_BUDDY_STAMP_NONFREE)%Z in Ok (Some b, s)
  | None => Ok (None, s)
  end.

(** The loop of [buf_buddy_alloc_from]: [n] is [j - i] and [offs] is
    [BUF_BUDDY_LOW << j]. *)
Fixpoint alloc_from_loop (n i buf : nat) (s : state) : res state :=
  match n with
  | O => Ok s
  | S n =>
      let j := i + n in
      let! s := buf_buddy_add_to_free (buf + size j) j s in
      alloc_from_loop n i buf s
  end.

Definition buf_buddy_alloc_from (buf i j : nat) (s : state) : res (nat * state) :=
  let! _ := ut_a (j <=? BUF_BUDDY_SIZES) in
  let! _ := ut_a (i <=? j) in
  let! _ := ut_a (is_aligned buf (size j)) in
  let! s := alloc_from_loop (j - i) i buf s in
  let! s := buf_buddy_stamp_nonfree buf i s in
  Ok (buf, s).

Definition count_used (i : nat) (s : state) : state := set_used (upd (used s) i (u64 (used s i + 1))) s.

(** Lines 493-502: [None] when a frame of the buffer pool is needed. *)
Definition alloc_low_zip (i : nat) (s : state) : res (option nat * state) :=
  if i <? BUF_BUDDY_SIZES then
    let! (buf, s) := buf_buddy_alloc_zip (BUF_BUDDY_SIZES - i) i s in
    match buf with Some b => Ok (Some b, count_used i s) | None => Ok (None, s) end
  else Ok (None, s).

(** Line 519: the block with this frame. *)
Definition buf_buddy_block_register (frame : nat) (s : state) : res state :=
  let! block := deref (frames s !! frame) in
  let! _ := ut_a (bool_decide (block_state block = BUF_BLOCK_READY_FOR_USE)) in
  let! _ := ut_a (negb (frame =? 0)) in
  let! _ := ut_a (is_aligned frame (size BUF_BUDDY_SIZES)) in
  let! _ := ut_a (negb (in_page_hash block)) in
  let! _ := ut_a (negb (in_zip_hash block)) in
  let block := mkBlock BUF_BLOCK_MEMORY (in_page_hash block) true (in_free_list block) (in_flush_list block)
    (in_LRU_list block) (n_pointers block) in
  let s := set_zip_hash ({[frame]} ∪ zip_hash s) s in
  Ok (set_frames (<[frame := block]> (frames s)) (u64 (buddy_n_frames s + 1)) s).

(** Lines 521-529. *)
Definition alloc_low_big (frame i : nat) (s : state) : res (nat * state) :=
  let! (buf, s) := buf_buddy_alloc_from frame i BUF_BUDDY_SIZES s in
  Ok (buf, count_used i s).

(** The loop of [buf_buddy_get_slot]. *)
Fixpoint get_slot_loop (fuel i s sz : nat) : nat :=
  match fuel with
  | O => i
  | S fuel => if s <? sz then get_slot_loop fuel (i + 1) (2 * s) sz else i
  end.
Definition buf_buddy_get_slot (sz : nat) : res nat :=
  let! _ := ut_a (size 0 <=? sz) in
  let i := get_slot_loop (BUF_BUDDY_SIZES + 1) 0 (size 0) sz in
  let! _ := ut_a (i <=? BUF_BUDDY_SIZES) in
  Ok i.

(** ** Deallocation *)

(** [buf_LRU_block_free_non_file_page] (buf/buf0lru.cc, lines 2230-2286) for the
    block with this frame, which has no compressed page of its own; the words
    that are wiped are those of the release build. *)
Definition buf_LRU_block_free_non_file_page (buf : nat) (block : frame_block) (s : state) : res state :=
  match block_state block with
  | BUF_BLOCK_MEMORY | BUF_BLOCK_READY_FOR_USE =>
      let! _ := ut_a (n_pointers block =? 0)%Z in
      let! _ := ut_a (negb (in_free_list block)) in
      let! _ := ut_a (negb (in_flush_list block)) in
      let! _ := ut_a (negb (in_LRU_list block)) in
      let s := set_words (upd (space_word s) buf 0xfefefefe%Z) (upd (offset_word s) buf 0xfefefefe%Z) (stamp_size s) s in
      Ok (set_frames (<[buf := mkBlock BUF_BLOCK_NOT_USED (in_page_hash block) (in_zip_hash block) true (in_flush_list block)
        (in_LRU_list block) (n_pointers block)]> (frames s)) (buddy_n_frames s) s)
  | _ => Ok s
  end.

(** The assertion of the search in the hash of the frames, for every block in it. *)
Definition zip_hash_valid (s : state) : bool :=
  forallb (fun f => match frames s !! f with
    | Some block => bool_decide (block_state block = BUF_BLOCK_MEMORY) && in_zip_hash block && negb (in_page_hash block)
    | None => false end) (elements (zip_hash s)).

Definition buf_buddy_block_free (buf : nat) (s : state) : res state :=
  let! _ := ut_a (is_aligned buf (size BUF_BUDDY_SIZES)) in
  let! _ := ut_a (zip_hash_valid s) in
  let! _ := ut_a (bool_decide (buf ∈ zip_hash s)) in
  let! block := deref (frames s !! buf) in
  let! _ := ut_a (bool_decide (block_state block = BUF_BLOCK_MEMORY)) in
  let! _ := ut_a (negb (in_page_hash block)) in
  let! _ := ut_a (in_zip_hash block) in
  let block := mkBlock (block_state block) (in_page_hash block) false (in_free_list block) (in_flush_list block)
    (in_LRU_list block) (n_pointers block) in
  let s := set_frames (<[buf := block]> (frames s)) (buddy_n_frames s) (set_zip_hash (zip_hash s ∖ {[buf]}) s) in
  let! s := buf_LRU_block_free_non_file_page buf block s in
  let! _ := ut_a (0 <? buddy_n_frames s)%Z in
  Ok (set_frames (frames s) (u64 (buddy_n_frames s - 1)) s).

(** Where a critical section of [buf_buddy_free_low] ends: after the block was
    put on a free list, with a whole frame to be returned, or in
    [buf_buddy_relocate] with the page id read from the block. *)
Inductive outcome :=
| Freed
| WholeFrame (buf : nat)
| Relocate (buf i buddy zip_buf : nat) (space offset : Z).

(** Lines 736-742. *)
Definition func_exit (buf i : nat) (s : state) : res (outcome * state) :=
  let! s := buf_buddy_add_to_free buf i s in Ok (Freed, s).

(** Lines 670-742 up to the release of the mutex. *)
Fixpoint recombine (fuel buf i : nat) (s : state) : res (outcome * state) :=
  if i =? BUF_BUDDY_SIZES then Ok (WholeFrame buf, s)
  else match fuel with
  | O => Fault
  | S fuel =>
      let! _ := ut_a (i <? BUF_BUDDY_SIZES) in
      let! _ := ut_a (buf =? ut_align_down buf (size i)) in
      let! _ := ut_a (negb (buf_pool_contains_zip s buf)) in
      if (count (zip_free s i) <? 16)%Z then func_exit buf i s
      else
        let! buddy := buf_buddy_get buf (size i) in
        let! st := buf_buddy_is_free s buddy i in
        match st with
        | BUF_BUDDY_STATE_FREE =>
            let! s := buf_buddy_remove_from_free buddy i s in
            let! _ := ut_a (negb (buf_pool_contains_zip s buddy)) in
            recombine fuel (ut_align_down buf (size (S i))) (S i) s
        | BUF_BUDDY_STATE_USED =>
            let! _ := ut_a (list_valid s i) in
            match start (zip_free s i) with
            | Some zip_buf =>
                let! s := buf_buddy_remove_from_free zip_buf i s in
                let! _ := ut_a (is_aligned buddy (size i) && is_aligned zip_buf (size i)) in
                let! _ := ut_a (negb (space_word s buddy =? BUF_BUDDY_STAMP_FREE)%Z) in
                Ok (Relocate buf i buddy zip_buf (space_word s buddy) (offset_word s buddy), s)
            | None => func_exit buf i s
            end
        | BUF_BUDDY_STATE_PARTIALLY_USED => func_exit buf i s
        end
  end.

(** Lines 662-670. *)
Definition free_low_enter (buf i : nat) (s : state) : res (outcome * state) :=
  let! _ := ut_a (i <=? BUF_BUDDY_SIZES) in
  let! _ := ut_a (0 <? used s i)%Z in
  recombine (BUF_BUDDY_SIZES - i) buf i (set_used (upd (used s) i (u64 (used s i - 1))) s).

(** The test of [buf_buddy_relocate] under the latch of the page hash. *)
Definition relocatable (s : state) (i buddy : nat) (space offset : Z) : res bool :=
  match page_hash s !! (space, offset) with
  | None => Ok false
  | Some p =>
      if negb (zip_data p =? buddy) then Ok false
      else if negb (zip_level p =? i) then let! _ := ut_a (zip_level p <? i) in Ok false
      else Ok true
  end.

(** [memcpy(dst, src, n)] *)
Definition copy_words (dst src n : nat) (f : nat -> Z) : nat -> Z :=
  fun a => if decide (dst <= a < dst + n) then f (src + (a - dst)) else f a.
Definition copy_links (dst src n : nat) (m : gmap nat ut_list_node) : gmap nat ut_list_node :=
  map_imap (fun a nd => Some (if decide (dst <= a < dst + n) then default nd (m !! (src + (a - dst))) else nd)) m.
Definition copy_block (dst src n : nat) (s : state) : state :=
  set_links (copy_links dst src n (links s))
    (set_words (copy_words dst src n (space_word s)) (copy_words dst src n (offset_word s)) (copy_words dst src n (stamp_size s)) s).

(** Lines 726-742: the failure of a relocation. *)
Definition relocate_failed (buf i zip_buf : nat) (s : state) : res (outcome * state) :=
  let! s := buf_buddy_add_to_free zip_buf i s in func_exit buf i s.

(** Lines 611-645 and what [buf_buddy_free_low] does then. *)
Definition relocate_copy (buf i buddy zip_buf : nat) (id : Z * Z) (s : state) : res (outcome * state) :=
  let! p := deref (page_hash s !! id) in
  if negb (zip_fixed p) then
    let! _ := ut_a (zip_data p =? buddy) in
    let s := copy_block zip_buf buddy (size i) s in
    let s := set_page_hash (<[id := mkZip zip_buf (zip_level p) (zip_fixed p)]> (page_hash s)) s in
    let! _ := buf_buddy_mem_invalid i in
    let s := set_relocated (upd (relocated s) i (u64 (relocated s i + 1))) s in
    let! _ := ut_a (negb (buf_pool_contains_zip s buddy)) in
    recombine (BUF_BUDDY_SIZES - S i) (ut_align_down buf (size (S i))) (S i) s
  else relocate_failed buf i zip_buf s.

(** ** Threads *)

(** Where a thread is: [Owns] outside of the allocator, with a block that no page
    uses (just allocated, or about to be freed); [NeedFrame] before line 505,
    [AllocFrom] before line 521; [RelocLook] in [buf_buddy_relocate] at line 570,
    [RelocCopy] with the latch of the page hash before line 611, [RelocFail]
    before line 587 or 599; [BlockFree] before line 675. *)
Inductive pc :=
| Out
| Owns (buf i : nat)
| NeedFrame (i : nat)
| AllocFrom (frame i : nat)
| RelocLook (buf i buddy zip_buf : nat) (space offset : Z)
| RelocCopy (buf i buddy zip_buf : nat) (id : Z * Z)
| RelocFail (buf i zip_buf : nat)
| BlockFree (buf : nat).

Definition pc_of (o : outcome) : pc :=
  match o with
  | Freed => Out
  | WholeFrame buf => BlockFree buf
  | Relocate buf i buddy z sp off => RelocLook buf i buddy z sp off
  end.

Record sys := mkSys { st : state; thread : nat -> pc }.

Definition goto (t : nat) (p : pc) (s : state) (sy : sys) : sys := mkSys s (upd (thread sy) t p).

(** Nobody has the latch of the page hash for this page. *)
Definition unlatched (sy : sys) (id : Z * Z) : Prop :=
  forall t buf i b z, thread sy t <> RelocCopy buf i b z id.

(** What the buffer pool promises of a frame that it gives to the allocator. *)
Definition fresh_frame (s : state) (f : nat) : Prop :=
  frames s !! f = Some ready_block /\ f ∉ zip_hash s /\ aligned BUF_BUDDY_LOW_SHIFT f BUF_BUDDY_SIZES /\
  f <> 0 /\ forall x, inside BUF_BUDDY_LOW_SHIFT f BUF_BUDDY_SIZES x -> aligned BUF_BUDDY_LOW_SHIFT x 0 -> is_Some (links s !! x).

(** What the owner of a block may do to its memory: anything, except that the
    space id of a page is never that of a free stamp. *)
Record writes (buf i : nat) (s s' : state) : Prop := Writes {
  wr_words x : ~ inside BUF_BUDDY_LOW_SHIFT buf i x ->
    space_word s' x = space_word s x /\ offset_word s' x = offset_word s x /\ stamp_size s' x = stamp_size s x /\ links s' !! x = links s !! x;
  wr_space : space_word s' buf <> BUF_BUDDY_STAMP_FREE;
  wr_dom : dom (links s') = dom (links s);
  wr_lists : zip_free s' = zip_free s;
  wr_used : used s' = used s;
  wr_frames : zip_hash s' = zip_hash s /\ frames s' = frames s /\ buddy_n_frames s' = buddy_n_frames s;
  wr_pages : page_hash s' = page_hash s }.

Definition block_of (sy : sys) (buf i : nat) : Prop :=
  (exists t, thread sy t = Owns buf i) \/ exists id p, page_hash (st sy) !! id = Some p /\ zip_data p = buf /\ zip_level p = i.

(** One transition of a thread, with its result: the critical sections of the
    allocator, the users of compressed pages, and what the buffer pool does with
    the blocks that the allocator does not have. *)
Inductive sys_step (sy : sys) : res sys -> Prop :=
| step_alloc t i : thread sy t = Out -> i <= BUF_BUDDY_SIZES ->
    sys_step sy (let! i := buf_buddy_get_slot (size i) in
                 let! (b, s) := alloc_low_zip i (st sy) in
                 Ok (goto t (match b with Some b => Owns b i | None => NeedFrame i end) s sy))
| step_frame t i f : thread sy t = NeedFrame i -> fresh_frame (st sy) f ->
    sys_step sy (let! s := buf_buddy_block_register f (st sy) in Ok (goto t (AllocFrom f i) s sy))
| step_alloc_from t f i : thread sy t = AllocFrom f i ->
    sys_step sy (let! (b, s) := alloc_low_big f i (st sy) in Ok (goto t (Owns b i) s sy))
| step_free t buf i : thread sy t = Owns buf i ->
    sys_step sy (let! i := buf_buddy_get_slot (size i) in
                 let! (o, s) := free_low_enter buf i (st sy) in Ok (goto t (pc_of o) s sy))
| step_look t buf i b z sp off : thread sy t = RelocLook buf i b z sp off -> unlatched sy (sp, off) ->
    sys_step sy (let! ok := relocatable (st sy) i b sp off in
                 Ok (goto t (if ok : bool then RelocCopy buf i b z (sp, off) else RelocFail buf i z) (st sy) sy))
| step_copy t buf i b z id : thread sy t = RelocCopy buf i b z id ->
    sys_step sy (let! (o, s) := relocate_copy buf i b z id (st sy) in Ok (goto t (pc_of o) s sy))
| step_fail t buf i z : thread sy t = RelocFail buf i z ->
    sys_step sy (let! (o, s) := relocate_failed buf i z (st sy) in Ok (goto t (pc_of o) s sy))
| step_block_free t buf : thread sy t = BlockFree buf ->
    sys_step sy (let! s := buf_buddy_block_free buf (st sy) in Ok (goto t Out s sy))
| step_attach t buf i id fixed : thread sy t = Owns buf i -> page_hash (st sy) !! id = None -> unlatched sy id ->
    sys_step sy (Ok (goto t Out (set_page_hash (<[id := mkZip buf i fixed]> (page_hash (st sy))) (st sy)) sy))
| step_detach t id p : thread sy t = Out -> page_hash (st sy) !! id = Some p -> unlatched sy id ->
    sys_step sy (Ok (goto t (Owns (zip_data p) (zip_level p)) (set_page_hash (delete id (page_hash (st sy))) (st sy)) sy))
| step_fix id p fixed : page_hash (st sy) !! id = Some p -> unlatched sy id ->
    sys_step sy (Ok (mkSys (set_page_hash (<[id := mkZip (zip_data p) (zip_level p) fixed]> (page_hash (st sy))) (st sy)) (thread sy)))
| step_frames f block : f ∉ zip_hash (st sy) ->
    sys_step sy (Ok (mkSys (set_frames (<[f := block]> (frames (st sy))) (buddy_n_frames (st sy)) (st sy)) (thread sy)))
| step_write buf i s' : block_of sy buf i -> writes buf i (st sy) s' ->
    sys_step sy (Ok (mkSys s' (thread sy))).

Definition step (sy sy' : sys) : Prop := sys_step sy (Ok sy').

(** The memory of the server before the first allocation. *)
Definition init (m : gmap nat ut_list_node) (w o z : nat -> Z) : sys :=
  mkSys (mkState (fun _ => mkBase 0 None None) m w o z (fun _ => 0%Z) (fun _ => 0%Z) ∅ ∅ ∅ 0) (fun _ => Out).

(** ** Alignment *)

Lemma is_aligned_iff a i : is_aligned a (size i) = true <-> aligned BUF_BUDDY_LOW_SHIFT a i.
Proof.
  unfold is_aligned, ut_align_offset, aligned, block_size. rewrite Nat.eqb_eq, Nat.sub_1_r, <- Nat.ones_equiv, Nat.land_ones.
  apply Nat.Lcm0.mod_divide.
Qed.

Lemma align_down_floor a i : ut_align_down a (size i) = floor BUF_BUDDY_LOW_SHIFT i a.
Proof.
  unfold ut_align_down, floor, block_size. rewrite Nat.sub_1_r, <- Nat.ones_equiv, Nat.ldiff_ones_r.
  by rewrite Nat.shiftl_mul_pow2, Nat.shiftr_div_pow2.
Qed.

Lemma land_block a i : aligned BUF_BUDDY_LOW_SHIFT a i -> (Nat.land a (size i) =? 0) = bool_decide (floor BUF_BUDDY_LOW_SHIFT (S i) a = a).
Proof.
  intros Ha. assert (Nat.land a (size i) = if Nat.testbit a (BUF_BUDDY_LOW_SHIFT + i) then size i else 0) as ->.
  { unfold block_size. apply Nat.bits_inj. intros n. rewrite Nat.land_spec, Nat.pow2_bits_eqb.
    destruct (Nat.eqb_spec (BUF_BUDDY_LOW_SHIFT + i) n) as [<-|Hn].
    - rewrite andb_true_r. destruct (Nat.testbit a _); [by rewrite Nat.pow2_bits_true|by rewrite Nat.bits_0].
    - rewrite andb_false_r. destruct (Nat.testbit a _); [by rewrite Nat.pow2_bits_false|by rewrite Nat.bits_0]. }
  pose proof (block_size_pos BUF_BUDDY_LOW_SHIFT i) as Hpos. pose proof (block_size_S BUF_BUDDY_LOW_SHIFT i) as HS.
  rewrite Nat.testbit_odd, Nat.shiftr_div_pow2. fold (size i). destruct Ha as [q ->]. rewrite Nat.div_mul by lia.
  destruct (Nat.odd q) eqn:Eo.
  - apply Nat.odd_spec in Eo as [k ->]. rewrite bool_decide_eq_false_2; [by apply Nat.eqb_neq; lia|]. intros E.
    destruct (floor_aligned BUF_BUDDY_LOW_SHIFT (S i) ((2 * k + 1) * size i)) as [j Hj]. rewrite Hj, HS in E.
    assert ((j * 2) * size i = (2 * k + 1) * size i) as E2 by lia. apply Nat.mul_cancel_r in E2; lia.
  - assert (Nat.even q = true) as Ee by by rewrite <- Nat.negb_odd, Eo. apply Nat.even_spec in Ee as [k ->].
    rewrite bool_decide_eq_true_2; [done|]. apply floor_of_aligned. exists k. rewrite HS. lia.
Qed.

Lemma size_lt i j : i < j -> size i < size j.
Proof.
  intros H. replace j with (S i + (j - S i)) by lia. generalize (j - S i). intros n. pose proof (block_size_pos BUF_BUDDY_LOW_SHIFT i).
  induction n as [|n IH]; [rewrite Nat.add_0_r, block_size_S; lia|]. rewrite Nat.add_succ_r, (block_size_S _ (S i + n)). lia.
Qed.

Lemma size_mono i j : i <= j -> size i <= size j.
Proof. intros H. destruct (decide (i = j)) as [->|]; [done|]. pose proof (size_lt i j). lia. Qed.

Lemma buddy_get_ok a i : i < BUF_BUDDY_SIZES -> aligned BUF_BUDDY_LOW_SHIFT a i ->
  buf_buddy_get a (size i) = Ok (buddy BUF_BUDDY_LOW_SHIFT i a).
Proof.
  intros Hi Ha. unfold buf_buddy_get. rewrite (proj2 (Nat.leb_le _ _)) by (apply size_mono; lia).
  rewrite (proj2 (Nat.ltb_lt _ _)) by by apply size_lt. rewrite (proj2 (is_aligned_iff a i)) by done. cbn [ut_a rbind]. rewrite land_block by done. f_equal.
  unfold buddy. case_bool_decide; case_decide; [done..|]. destruct (buddy_cases BUF_BUDDY_LOW_SHIFT i a Ha) as [[]|[E _]]; [done|lia].
Qed.

Lemma get_slot_ok i : i <= BUF_BUDDY_SIZES -> buf_buddy_get_slot (size i) = Ok i.
Proof.
  intros Hi. unfold buf_buddy_get_slot.
  rewrite (proj2 (Nat.leb_le _ _)) by (apply size_mono; lia). cbn [ut_a rbind].
  assert (forall n j f, j + n = i -> n < f -> get_slot_loop f j (size j) (size i) = i) as Hloop.
  { induction n as [|n IH]; intros j [|f] Hj Hf; [lia| |lia|].
    - cbn [get_slot_loop]. rewrite (proj2 (Nat.ltb_ge _ _)); [lia|]. replace i with j by lia. done.
    - cbn [get_slot_loop]. assert (size j < size i) as Hlt by (apply size_lt; lia).
      rewrite (proj2 (Nat.ltb_lt _ _)) by done. rewrite <- block_size_S, Nat.add_1_r. apply IH; lia. }
  rewrite (Hloop i 0) by lia. by rewrite (proj2 (Nat.leb_le _ _)) by lia.
Qed.
End buddy.
End BufBuddy.
