(* ===== verification/BuddyInv.v ===== *)
(** * The buddy allocator: its state represents a set of blocks (buf/buf0buddy.cc)

    The frames given to the allocator are divided into blocks, each free or with
    an owner; [core] relates such a division to the free lists and stamps.  The
    operations of [BufBuddy] are proved to implement the change of owner, the
    division and the union of blocks, and not to touch the memory of others. *)
From S2P Require Import Prelude Results UtList BuddyTiling BufBuddy.
Local Open Scope nat_scope.

Module BuddyInv.
Import UtList BuddyTiling BufBuddy.
Local Open Scope mc_scope.

(** [OUser t]: thread [t] has the block outside of the allocator; [OHeld t]: it
    works on the block in the allocator; [OPage id]: it is the frame of a
    compressed page. *)
Inductive owner := OFree | OUser (t : nat) | OPage (id : Z * Z) | OHeld (t : nat).
#[export] Instance owner_eq_dec : EqDecision owner.
Proof. solve_decision. Defined.

Notation blocks := (gmap nat (nat * owner)).

(** The blocks that are not free. *)
Definition owned (M : blocks) : blocks := omap (fun b => match b.2 with OFree => None | _ => Some b end) M.

Lemma owned_lookup M a i o : owned M !! a = Some (i, o) <-> M !! a = Some (i, o) /\ o <> OFree.
Proof.
  unfold owned. rewrite lookup_omap_Some. split.
  - intros ([j p] & E & H). destruct p; simpl in E; simplify_eq; done.
  - intros [H Ho]. exists (i, o). by destruct o.
Qed.

Lemma owned_free M a i : owned (<[a := (i, OFree)]> M) = delete a (owned M).
Proof. unfold owned. by rewrite omap_insert_None. Qed.

Lemma owned_insert M a i o : o <> OFree -> owned (<[a := (i, o)]> M) = <[a := (i, o)]> (owned M).
Proof. intros Ho. unfold owned. rewrite (omap_insert_Some _ _ _ _ (i, o)); [done|]. by destruct o. Qed.

Lemma owned_delete M a : owned (delete a M) = delete a (owned M).
Proof. unfold owned. apply omap_delete. Qed.

Section inv.
Context (SHIFT SIZES : nat).
Notation size := (block_size SHIFT).
Notation inside := (inside SHIFT).
Notation aligned := (aligned SHIFT).

(** The division [M] of the frames, and the state that represents it; the stamps
    of the blocks at [X] are not determined yet. *)
Record core (X : list nat) (s : state) (M : blocks) : Prop := Core {
  k_tiling : tiling SHIFT SIZES (zip_hash s) (fst <$> M);
  k_links f x : f ∈ zip_hash s -> inside f SIZES x -> aligned x 0 -> is_Some (links s !! x);
  k_room : (Z.of_nat (base.size (links s)) + 1 < 2 ^ 64)%Z;
  k_lists i : i < SIZES -> exists xs, rep (free_list s i) xs /\ forall a, a ∈ xs <-> M !! a = Some (i, OFree);
  k_free a i : M !! a = Some (i, OFree) -> i < SIZES /\ space_word s a = BUF_BUDDY_STAMP_FREE /\ stamp_size s a = Z.of_nat i;
  k_used a i o : M !! a = Some (i, o) -> o <> OFree -> i < SIZES -> a ∉ X -> space_word s a <> BUF_BUDDY_STAMP_FREE }.

#[local] Arguments k_tiling {X}.
#[local] Arguments k_links {X}.
#[local] Arguments k_room {X}.
#[local] Arguments k_lists {X}.
#[local] Arguments k_free {X}.
#[local] Arguments k_used {X}.

Lemma level_lookup (M : blocks) a i o : M !! a = Some (i, o) -> (fst <$> M) !! a = Some i.
Proof. intros H. by rewrite lookup_fmap, H. Qed.

Lemma level_lookup_inv (M : blocks) a i : (fst <$> M) !! a = Some i -> exists o, M !! a = Some (i, o).
Proof. rewrite lookup_fmap, fmap_Some. intros ([j o] & H & ->). eauto. Qed.

Lemma k_aligned {X} s M a i o : core X s M -> M !! a = Some (i, o) -> aligned a i.
Proof. intros C H. eapply tl_aligned; [apply (k_tiling _ _ C)|by eapply level_lookup]. Qed.

Lemma k_level {X} s M a i o : core X s M -> M !! a = Some (i, o) -> i <= SIZES.
Proof. intros C H. eapply tl_level; [apply (k_tiling _ _ C)|by eapply level_lookup]. Qed.

Lemma core_weaken X Y s M : X ⊆ Y -> core X s M -> core Y s M.
Proof. intros HXY [H1 H2 H3 H4 H5 H6]. split; [done..|]. intros a i o Ha Ho Hi HX. eapply H6; [done..|]. by intros Hin%HXY. Qed.

(** Every block has a node for a free list. *)
Lemma k_node {X} s M a i o : core X s M -> M !! a = Some (i, o) -> is_Some (links s !! a).
Proof.
  intros C H. pose proof (k_tiling _ _ C) as T. apply (k_links _ _ C (floor SHIFT SIZES a)).
  - eapply tl_inside; [done|by eapply level_lookup].
  - apply floor_inside.
  - eapply aligned_le; [|by eapply k_aligned]. lia.
Qed.

(** Two blocks do not overlap. *)
Lemma k_apart {X} s M a i o b j p x :
  core X s M -> M !! a = Some (i, o) -> M !! b = Some (j, p) -> inside a i x -> inside b j x -> a = b.
Proof. intros C Ha Hb. apply (tl_disjoint _ _ _ _ (k_tiling _ _ C)); by eapply level_lookup. Qed.

Lemma rep_frame m m' b xs : (forall x, x ∈ xs -> m' !! x = m !! x) -> rep (mkList m b) xs -> rep (mkList m' b) xs.
Proof. intros Hf [H1 H2 H3 H4 H5 H6]. split; [|done..]. by eapply dseg_frame. Qed.

(** A free list is valid in the sense of the debug build. *)
Lemma list_valid_ok s i xs :
  rep (free_list s i) xs -> (forall a, a ∈ xs -> space_word s a = BUF_BUDDY_STAMP_FREE /\ (stamp_size s a <= Z.of_nat i)%Z) ->
  list_valid s i = true.
Proof.
  intros Hr Hx. unfold list_valid. rewrite (ut_list_validate_rep _ _ Hr). apply forallb_forall. intros a Ha.
  apply list_elem_of_In in Ha. destruct (Hx a Ha) as [H1 H2]. unfold buf_buddy_stamp_is_free. rewrite H1, Z.eqb_refl.
  by apply Z.leb_le.
Qed.

Lemma k_valid {X} s M i : core X s M -> i < SIZES -> list_valid s i = true.
Proof.
  intros C Hi. destruct (k_lists _ _ C i Hi) as (xs & Hr & Hx). apply list_valid_ok with xs; [done|].
  intros a Ha%Hx. destruct (k_free _ _ C a i Ha) as (_ & -> & ->). done.
Qed.

(** A free list starts with a free block. *)
Lemma k_first {X} s M i a : core X s M -> i < SIZES -> start (zip_free s i) = Some a -> M !! a = Some (i, OFree).
Proof.
  intros C Hi Hs. destruct (k_lists _ _ C i Hi) as (xs & Hr & Hx). apply Hx.
  pose proof (rep_start _ _ Hr) as E. simpl in E. rewrite Hs in E. symmetry in E. by apply first_elem in E as [|].
Qed.

(** What a thread may touch: not the memory of others. *)
Section thread.
Context (t : nat).

Definition others (O : blocks) (x : nat) : Prop := exists b j o, O !! b = Some (j, o) /\ o <> OHeld t /\ inside b j x.

Record kept (O : blocks) (s s' : state) : Prop := Kept {
  kp_memory x : others O x -> space_word s' x = space_word s x /\ offset_word s' x = offset_word s x /\
    stamp_size s' x = stamp_size s x /\ links s' !! x = links s !! x;
  kp_dom : dom (links s') = dom (links s);
  kp_used : used s' = used s;
  kp_frames : zip_hash s' = zip_hash s;
  kp_pages : page_hash s' = page_hash s;
  kp_blocks : frames s' = frames s /\ buddy_n_frames s' = buddy_n_frames s }.

Lemma kept_refl O s : kept O s s.
Proof. by split. Qed.

Lemma kept_trans O O' s1 s2 s3 : (forall x, others O x -> others O' x) -> kept O s1 s2 -> kept O' s2 s3 -> kept O s1 s3.
Proof.
  intros Ho [A1 A2 A3 A4 A5 [A6 A7]] [B1 B2 B3 B4 B5 [B6 B7]]. split; [|congruence..|split; congruence]. intros x Hx.
  destruct (A1 x Hx) as (<- & <- & <- & <-). by apply B1, Ho.
Qed.

Lemma others_insert O a i x : (forall j o, O !! a = Some (j, o) -> o = OHeld t) -> others O x -> others (<[a := (i, OHeld t)]> O) x.
Proof.
  intros Ha (b & j & o & Hb & Ho & Hx). exists b, j, o. split; [|done]. rewrite lookup_insert_ne; [done|].
  intros <-. by apply Ho, (Ha j).
Qed.

Lemma others_delete O a x : (forall j o, O !! a = Some (j, o) -> o = OHeld t) -> others O x -> others (delete a O) x.
Proof.
  intros Ha (b & j & o & Hb & Ho & Hx). exists b, j, o. split; [|done]. rewrite lookup_delete_ne; [done|].
  intros <-. by apply Ho, (Ha j).
Qed.

(** The start of a block is not in the memory of others, when it is free or the
    thread works on it. *)
Lemma start_not_other {X} s M a i o x :
  core X s M -> M !! a = Some (i, o) -> o = OFree \/ o = OHeld t -> others (owned M) x -> x <> a.
Proof.
  intros C Ha Ho (b & j & p & [Hb Hp]%owned_lookup & Hnt & Hx) ->.
  pose proof (k_apart _ _ _ _ _ _ _ _ a C Ha Hb (inside_start _ _ _) Hx) as <-. rewrite Ha in Hb. injection Hb as <- <-.
  destruct Ho; done.
Qed.

Lemma free_first_ne {X} s M a i : core X s M -> i < SIZES -> M !! a = Some (i, OHeld t) -> start (zip_free s i) <> Some a.
Proof. intros C Hi Ha E. apply (k_first _ _ _ _ C Hi) in E. congruence. Qed.

(** Changing the owner of a block keeps the division. *)
Lemma tiling_owner frames (M : blocks) a i o o' :
  M !! a = Some (i, o) -> tiling SHIFT SIZES frames (fst <$> M) -> tiling SHIFT SIZES frames (fst <$> <[a := (i, o')]> M).
Proof. intros Ha T. rewrite fmap_insert, insert_id; [done|]. by eapply level_lookup. Qed.

Lemma dom_links_some (m m' : gmap nat ut_list_node) x : dom m' = dom m -> is_Some (m !! x) -> is_Some (m' !! x).
Proof. intros E. rewrite <- !elem_of_dom. by rewrite E. Qed.

Lemma same_outside_dom (xs : list nat) (l l' : ut_list) :
  rep l' xs -> same_outside xs l l' -> (forall x, x ∈ xs -> is_Some (nodes l !! x)) -> dom (nodes l') = dom (nodes l).
Proof.
  intros Hr Hs Hx. apply set_eq. intros y. rewrite !elem_of_dom. destruct (decide (y ∈ xs)) as [Hy|Hy]; [|by rewrite Hs].
  split; intros _; [by apply Hx|]. eapply dseg_lookup; [apply (rep_seg _ _ Hr)|done].
Qed.

(** What a change of one free list does to the division: the other lists do not
    change. *)
Lemma core_change {X} s s' M a i o o' xs :
  core (a :: X) s M -> M !! a = Some (i, o) -> i < SIZES -> (o = OFree \/ o' = OFree) ->
  zip_hash s' = zip_hash s -> dom (links s') = dom (links s) ->
  rep (free_list s' i) xs -> (forall b, b ∈ xs <-> <[a := (i, o')]> M !! b = Some (i, OFree)) ->
  (forall j, j <> i -> zip_free s' j = zip_free s j) ->
  (forall b, b ∉ xs -> b <> a -> links s' !! b = links s !! b) ->
  (forall b, b <> a -> space_word s' b = space_word s b /\ stamp_size s' b = stamp_size s b) ->
  (o' = OFree -> space_word s' a = BUF_BUDDY_STAMP_FREE /\ stamp_size s' a = Z.of_nat i) ->
  (o' <> OFree -> space_word s' a <> BUF_BUDDY_STAMP_FREE) ->
  core X s' (<[a := (i, o')]> M).
Proof.
  intros C Ha Hi _ Hfr Hdom Hr Hxs Hz Hl Hw Hf Hu. split.
  - rewrite Hfr. by eapply tiling_owner, (k_tiling _ _ C).
  - intros f x Hin Hx Hal. rewrite Hfr in Hin. eapply dom_links_some; [done|]. by eapply (k_links _ _ C).
  - rewrite <- size_dom, Hdom, size_dom. apply (k_room _ _ C).
  - intros j Hj. destruct (decide (j = i)) as [->|Hji]; [by exists xs|]. destruct (k_lists _ _ C j Hj) as (ys & Hy & Hys).
    exists ys. assert (forall b, b ∈ ys -> b <> a) as Hna by (intros b Hb ->; apply Hys in Hb; congruence). split.
    + unfold free_list. rewrite Hz by done. eapply rep_frame; [|exact Hy]. intros b Hb. apply Hl; [|by apply Hna].
      intros Hbx%Hxs. rewrite lookup_insert_ne in Hbx by (apply not_eq_sym, Hna, Hb). apply Hys in Hb. congruence.
    + intros b. rewrite Hys. destruct (decide (b = a)) as [->|Hb]; [|by rewrite lookup_insert_ne by done].
      rewrite lookup_insert_eq. split; [intros E; congruence|intros [= E _]; done].
  - intros b j Hb. destruct (decide (b = a)) as [->|Hne].
    + rewrite lookup_insert_eq in Hb. injection Hb as <- ->. by destruct (Hf eq_refl).
    + rewrite lookup_insert_ne in Hb by done. destruct (Hw b Hne) as [-> ->]. by apply (k_free _ _ C).
  - intros b j p Hb Hp Hj HX. destruct (decide (b = a)) as [->|Hne].
    + rewrite lookup_insert_eq in Hb. injection Hb as <- ->. by apply Hu.
    + rewrite lookup_insert_ne in Hb by done. destruct (Hw b Hne) as [-> _]. eapply (k_used _ _ C); [done..|].
      by rewrite not_elem_of_cons.
Qed.

(** Nodes of the free lists and of the block are not in the memory of others. *)
Lemma list_not_other {X} s M i (xs : list nat) x :
  core X s M -> (forall a, a ∈ xs -> exists o, M !! a = Some (i, o) /\ (o = OFree \/ o = OHeld t)) -> others (owned M) x -> x ∉ xs.
Proof.
  intros C Hxs Hx Hin. destruct (Hxs x Hin) as (o & Ho & Ho2). by eapply (start_not_other s M x i o x).
Qed.

Lemma add_ok X s M a i :
  core (a :: X) s M -> M !! a = Some (i, OHeld t) -> i < SIZES ->
  exists s', buf_buddy_add_to_free SIZES a i s = Ok s' /\ core X s' (<[a := (i, OFree)]> M) /\ kept (owned M) s s' /\
    forall b, b <> a -> space_word s' b = space_word s b.
Proof.
  intros C Ha Hi. destruct (k_lists _ _ C i Hi) as (xs & Hr & Hx). unfold buf_buddy_add_to_free.
  rewrite bool_decide_eq_false_2 by by eapply free_first_ne. cbn [negb ut_a rbind].
  unfold buf_buddy_stamp_free, buf_buddy_mem_invalid. rewrite (proj2 (Nat.leb_le i SIZES)) by lia. cbn [ut_a rbind].
  set (s1 := set_words _ _ _ s). change (free_list s1 i) with (free_list s i).
  assert (a ∉ xs) as Hax by (rewrite Hx; congruence).
  assert (Z.of_nat (length xs) + 1 < 2 ^ 64)%Z as Hlen.
  { pose proof (k_room _ _ C) as Hk. pose proof (rep_fits _ _ _ _ (rep_seg _ _ Hr) (rep_nodup _ _ Hr)) as Hf. simpl in Hf. lia. }
  destruct (ut_list_prepend_rep (free_list s i) xs a Hr Hax (k_node _ _ _ _ _ C Ha) Hlen) as (l & El & Hrl & Hout).
  rewrite El. cbn [deref rbind]. set (s' := set_list i l s1).
  assert (free_list s' i = l) as Efl by (unfold free_list, s'; simpl; rewrite upd_eq; by destruct l).
  assert (forall b, b <> a -> space_word s' b = space_word s b /\ stamp_size s' b = stamp_size s b) as Hw.
  { intros b Hb. subst s' s1. simpl. by rewrite !upd_ne by done. }
  assert (space_word s' a = BUF_BUDDY_STAMP_FREE /\ stamp_size s' a = Z.of_nat i) as Hsa by (subst s' s1; simpl; by rewrite !upd_eq).
  assert (list_valid s' i = true) as ->.
  { apply list_valid_ok with (a :: xs); [by rewrite Efl|]. intros b [->|Hb]%elem_of_cons; [by destruct Hsa as [-> ->]|].
    destruct (Hw b) as [-> ->]; [congruence|]. apply Hx in Hb. destruct (k_free _ _ C b i Hb) as (_ & -> & ->). done. }
  cbn [ut_a rbind]. exists s'. split; [done|].
  assert (dom (links s') = dom (links s)) as Hdom.
  { apply (same_outside_dom (a :: xs) (free_list s i) l); [done..|]. intros b [->|Hb%Hx]%elem_of_cons; by eapply k_node. }
  split.
  - apply (core_change s s' M a i (OHeld t) OFree (a :: xs)); try done; [by right|by rewrite Efl| | |].
    + intros b. rewrite elem_of_cons, Hx. destruct (decide (b = a)) as [->|Hb]; [rewrite lookup_insert_eq; tauto|].
      rewrite lookup_insert_ne by done. tauto.
    + intros j Hj. subst s' s1. simpl. by rewrite upd_ne by done.
    + intros b Hb _. by apply Hout.
  - split; [|by intros b Hb; destruct (Hw b Hb) as [-> _]].
    split; [|done..]. intros x Hx'. assert (x <> a) as Hxa by (eapply start_not_other; [..|exact Hx']; eauto).
    destruct (Hw x Hxa) as [-> ->]. split_and!; [done|subst s' s1; simpl; by rewrite upd_ne by done|done|]. apply Hout.
    eapply (list_not_other s M i (a :: xs)); [done| |done]. intros b [->|Hb%Hx]%elem_of_cons; eauto.
Qed.

Lemma check_loop_ok m buf : forall xs p fuel, dseg m p xs None -> buf ∈ xs -> length xs <= fuel -> check_loop fuel m (first None xs) buf = true.
Proof.
  induction xs as [|x xs IH]; intros p fuel Hs Hin Hf; [by apply elem_of_nil in Hin|]. destruct fuel as [|fuel]; [simpl in Hf; lia|].
  destruct Hs as [Hx Hs]. cbn [first check_loop]. destruct (Nat.eqb_spec x buf) as [|Hne]; [done|]. rewrite Hx. cbn [next].
  apply (IH (Some x)); [done| |simpl in Hf; lia]. apply elem_of_cons in Hin as [->|]; done.
Qed.

Lemma remove_ok {X} s M a i :
  core X s M -> M !! a = Some (i, OFree) ->
  exists s', buf_buddy_remove_from_free SHIFT SIZES a i s = Ok s' /\ core X s' (<[a := (i, OHeld t)]> M) /\ kept (owned M) s s' /\
    space_word s' a = BUF_BUDDY_STAMP_NONFREE.
Proof.
  intros C Ha. destruct (k_free _ _ C a i Ha) as (Hi & _ & _). destruct (k_lists _ _ C i Hi) as (xs & Hr & Hx).
  assert (a ∈ xs) as Hin by by apply Hx. unfold buf_buddy_remove_from_free, buf_buddy_check_free.
  rewrite (proj2 (is_aligned_iff SHIFT a i)) by by eapply k_aligned. cbn [andb].
  pose proof (rep_start _ _ Hr) as Est. simpl in Est. rewrite Est, (check_loop_ok _ a xs None _ (rep_seg _ _ Hr) Hin).
  2:{ apply (rep_fits _ _ _ _ (rep_seg _ _ Hr) (rep_nodup _ _ Hr)). }
  cbn [ut_a rbind]. apply list_elem_of_split in Hin as (xs1 & xs2 & ->).
  destruct (ut_list_remove_rep (free_list s i) xs1 a xs2 Hr) as (l & El & Hrl & Hout). rewrite El. cbn [deref rbind].
  pose proof (rep_nodup _ _ Hr) as Hnd. apply NoDup_app in Hnd as (_ & Hd1 & [Hd2 _]%NoDup_cons).
  assert (forall b, b ∈ xs1 ++ xs2 <-> b <> a /\ b ∈ xs1 ++ a :: xs2) as Hmem.
  { intros b. rewrite !elem_of_app, elem_of_cons. split; [|tauto]. intros Hb. split; [|tauto]. intros ->.
    destruct Hb as [Hb|Hb]; [|done]. apply (Hd1 a Hb). by left. }
  unfold buf_buddy_stamp_nonfree, buf_buddy_mem_invalid. rewrite (proj2 (Nat.leb_le i SIZES)) by lia. cbn [ut_a rbind].
  set (s' := set_words _ _ _ (set_list i l s)). exists s'. split; [done|].
  assert (free_list s' i = l) as Efl by (unfold free_list, s'; simpl; rewrite upd_eq; by destruct l).
  assert (forall b, b <> a -> space_word s' b = space_word s b /\ stamp_size s' b = stamp_size s b) as Hw.
  { intros b Hb. subst s'. simpl. by rewrite !upd_ne by done. }
  assert (space_word s' a = BUF_BUDDY_STAMP_NONFREE) as Hsa by (subst s'; simpl; by rewrite !upd_eq).
  assert (dom (links s') = dom (links s)) as Hdom.
  { apply (same_outside_dom (xs1 ++ xs2) (free_list s i) l); [done..|]. intros b [_ Hb%Hx]%Hmem; by eapply k_node. }
  split; [|split; [|done]].
  - assert (core (a :: X) s M) as C' by (eapply core_weaken; [|exact C]; by apply list_subseteq_cons).
    apply (core_change s s' M a i OFree (OHeld t) (xs1 ++ xs2)); try done; [by left|by rewrite Efl| | | |by rewrite Hsa].
    + intros b. rewrite Hmem, Hx. destruct (decide (b = a)) as [->|Hb]; [rewrite lookup_insert_eq; split; [tauto|congruence]|].
      rewrite lookup_insert_ne by done. tauto.
    + intros j Hj. subst s'. simpl. by rewrite upd_ne by done.
    + intros b Hb _. by apply Hout.
  - split; [|done..]. intros x Hx'. assert (x <> a) as Hxa by (eapply start_not_other; [..|exact Hx']; eauto).
    destruct (Hw x Hxa) as [-> ->]. split_and!; [done..|]. apply Hout.
    eapply (list_not_other s M i (xs1 ++ xs2)); [done| |done]. intros b [_ Hb%Hx]%Hmem; eauto.
Qed.

(** A block whose buddy the thread works on too is one block with it. *)
Lemma core_merge {X} s M c i :
  core X s M -> M !! c = Some (i, OHeld t) -> M !! (c + size i) = Some (i, OHeld t) -> aligned c (S i) -> i < SIZES ->
  core X s (<[c := (S i, OHeld t)]> (delete (c + size i) M)).
Proof.
  intros C Hc Hd Hal Hi. assert (c + size i <> c) as Hne by (pose proof (block_size_pos SHIFT i); lia).
  assert (forall b j o, <[c := (S i, OHeld t)]> (delete (c + size i) M) !! b = Some (j, o) ->
    (b = c /\ j = S i /\ o = OHeld t) \/ (b <> c /\ b <> c + size i /\ M !! b = Some (j, o))) as Hcases.
  { intros b j o [[<- [= <- <-]]|[Hbc [Hbd Hb]%lookup_delete_Some]]%lookup_insert_Some; [by left|right]. done. }
  split.
  - rewrite fmap_insert, fmap_delete. apply tiling_merge; [apply (k_tiling _ _ C)|by eapply level_lookup..|done|lia].
  - apply (k_links _ _ C).
  - apply (k_room _ _ C).
  - intros j Hj. destruct (k_lists _ _ C j Hj) as (xs & Hr & Hx). exists xs. split; [done|]. intros b. rewrite Hx. split.
    + intros Hb. rewrite lookup_insert_ne, lookup_delete_ne by congruence. done.
    + intros Hb. destruct (Hcases _ _ _ Hb) as [(_ & _ & ?)|(_ & _ & ?)]; done.
  - intros b j Hb. destruct (Hcases _ _ _ Hb) as [(_ & _ & ?)|(_ & _ & ?)]; [done|]. by apply (k_free _ _ C).
  - intros b j o Hb Ho Hj HX. destruct (Hcases _ _ _ Hb) as [(-> & -> & ->)|(_ & _ & Hb')]; [|by eapply (k_used _ _ C)].
    by apply (k_used _ _ C c i (OHeld t)).
Qed.

(** The upper half of a block on which a thread works can be made a block. *)
Lemma core_split X s M a i :
  core X s M -> M !! a = Some (S i, OHeld t) -> a ∈ X \/ space_word s a <> BUF_BUDDY_STAMP_FREE ->
  M !! (a + size i) = None /\ core ((a + size i) :: X) s (<[a + size i := (i, OHeld t)]> (<[a := (i, OHeld t)]> M)).
Proof.
  intros C Ha Hwa. pose proof (tiling_half_fresh _ _ _ _ _ _ (k_tiling _ _ C) (level_lookup _ _ _ _ Ha)) as Hn.
  rewrite lookup_fmap, fmap_None in Hn. split; [done|]. 
  assert (forall b j o, <[a + size i := (i, OHeld t)]> (<[a := (i, OHeld t)]> M) !! b = Some (j, o) ->
    ((b = a + size i \/ b = a) /\ o = OHeld t) \/ (b <> a /\ b <> a + size i /\ M !! b = Some (j, o))) as Hcases.
  { intros b j o [[<- [= <- <-]]|[Hbd [[<- [= <- <-]]|[Hba Hb]]%lookup_insert_Some]]%lookup_insert_Some; auto. }
  split.
  - rewrite !fmap_insert. apply tiling_split; [apply (k_tiling _ _ C)|by eapply level_lookup].
  - apply (k_links _ _ C).
  - apply (k_room _ _ C).
  - intros j Hj. destruct (k_lists _ _ C j Hj) as (xs & Hr & Hx). exists xs. split; [done|]. intros b. rewrite Hx. split.
    + intros Hb. rewrite !lookup_insert_ne by congruence. done.
    + intros Hb. destruct (Hcases _ _ _ Hb) as [[_ ?]|(_ & _ & ?)]; done.
  - intros b j Hb. destruct (Hcases _ _ _ Hb) as [[_ ?]|(_ & _ & ?)]; [done|]. by apply (k_free _ _ C).
  - intros b j o Hb Ho Hj [HX1 HX2]%not_elem_of_cons. destruct (Hcases _ _ _ Hb) as [[[->| ->] _]|(_ & _ & Hb')]; [done| |].
    + by destruct Hwa.
    + by eapply (k_used _ _ C).
Qed.

Lemma others_mono (O O' : blocks) x :
  (forall b j o, O !! b = Some (j, o) -> o <> OHeld t -> O' !! b = Some (j, o)) -> others O x -> others O' x.
Proof. intros H (b & j & o & Hb & Ho & Hx). exists b, j, o. auto. Qed.

Lemma owned_held_insert M a i : owned (<[a := (i, OHeld t)]> M) = <[a := (i, OHeld t)]> (owned M).
Proof. by apply owned_insert. Qed.

(** The upper half of a block goes to a free list, the lower half remains. *)
Lemma split_ok X s M a i :
  core X s M -> M !! a = Some (S i, OHeld t) -> a ∈ X \/ space_word s a <> BUF_BUDDY_STAMP_FREE ->
  exists s', buf_buddy_add_to_free SIZES (a + size i) i s = Ok s' /\
    core X s' (<[a + size i := (i, OFree)]> (<[a := (i, OHeld t)]> M)) /\ kept (owned M) s s' /\
    space_word s' a = space_word s a /\
    owned (<[a + size i := (i, OFree)]> (<[a := (i, OHeld t)]> M)) = <[a := (i, OHeld t)]> (owned M).
Proof.
  intros C Ha Hwa. pose proof (k_level s M a _ _ C Ha) as Hlv. destruct (core_split X s M a i C Ha Hwa) as [Hn C1].
  pose proof (block_size_pos SHIFT i) as Hpos.
  destruct (add_ok X s _ (a + size i) i C1) as (s' & E & C2 & K & W); [apply lookup_insert_eq|lia|].
  exists s'. split; [done|]. rewrite insert_insert_eq in C2. split; [done|]. split.
  - eapply kept_trans; [|apply kept_refl|exact K]. intros x. apply others_mono. intros b j o [Hb Ho]%owned_lookup Hnt.
    apply owned_lookup. split; [|done]. rewrite !lookup_insert_ne; [done|congruence..].
  - split; [apply W; lia|]. rewrite owned_free, owned_held_insert, delete_insert_ne by lia. f_equal. apply delete_id.
    apply eq_None_not_Some. intros [[j o] Hj]. apply owned_lookup in Hj as [Hj _]. congruence.
Qed.

(** The pages of the page hash are in blocks of theirs. *)
Definition pages_in (s : state) (O : blocks) : Prop :=
  forall id p, page_hash s !! id = Some p -> exists i, O !! zip_data p = Some (i, OPage id).

Lemma contains_zip_false s O a : pages_in s O -> (forall i id, O !! a <> Some (i, OPage id)) -> buf_pool_contains_zip s a = false.
Proof.
  intros HP Ha. unfold buf_pool_contains_zip. apply not_true_iff_false. rewrite existsb_exists.
  intros ([id p] & Hin & E%Nat.eqb_eq). apply list_elem_of_In, elem_of_map_to_list in Hin. simpl in E. subst a.
  destruct (HP _ _ Hin) as [i Hi]. by apply Ha in Hi.
Qed.

Lemma pages_in_mono s s' O O' : page_hash s' = page_hash s ->
  (forall a i id, O !! a = Some (i, OPage id) -> O' !! a = Some (i, OPage id)) -> pages_in s O -> pages_in s' O'.
Proof. intros E HO HP id p Hp. rewrite E in Hp. destruct (HP _ _ Hp) as [i Hi]. exists i. by apply HO. Qed.

Lemma alloc_zip_ok : forall k i s M,
  core [] s M -> pages_in s (owned M) -> i < SIZES -> k = SIZES - i ->
  exists r s', buf_buddy_alloc_zip SHIFT SIZES k i s = Ok (r, s') /\ kept (owned M) s s' /\
    match r with
    | None => core [] s' M
    | Some b => owned M !! b = None /\ space_word s' b = BUF_BUDDY_STAMP_NONFREE /\
        exists M', core [] s' M' /\ M' !! b = Some (i, OHeld t) /\ owned M' = <[b := (i, OHeld t)]> (owned M)
    end.
Proof.
  induction k as [|k IH]; intros i s M C HP Hi Hk; [lia|]. cbn [buf_buddy_alloc_zip].
  rewrite (proj2 (Nat.ltb_lt i SIZES)) by done. cbn [ut_a rbind]. rewrite (k_valid _ _ _ C Hi). cbn [ut_a rbind].
  destruct (start (zip_free s i)) as [a|] eqn:Es.
  - pose proof (k_first _ _ _ _ C Hi Es) as Ha. destruct (remove_ok s M a i C Ha) as (s' & -> & C' & K & W).
    cbn [rbind]. rewrite W. cbn [rbind ut_a]. exists (Some a), s'. split; [done|]. split; [done|]. split.
    { apply eq_None_not_Some. intros [[j o] [Hj Ho]%owned_lookup]. congruence. }
    split; [done|]. exists (<[a := (i, OHeld t)]> M). split; [done|]. split; [apply lookup_insert_eq|apply owned_held_insert].
  - destruct (Nat.ltb_spec (i + 1) SIZES) as [Hlt|Hge]; [|exists None, s; split; [done|]; split; [apply kept_refl|done]].
    destruct (IH (i + 1) s M C HP Hlt) as (r & s1 & -> & K & Hr); [lia|]. cbn [rbind].
    destruct r as [b|]; [|exists None, s1; done]. destruct Hr as (Hn & W & M1 & C1 & Hb & EO).
    rewrite Nat.add_1_r in Hb. destruct (core_split [] s1 M1 b i C1 Hb) as [Hhalf _]; [right; by rewrite W|].
    rewrite (contains_zip_false s1 (owned M1) (b + size i)); cbn [negb ut_a rbind].
    2:{ eapply pages_in_mono; [apply (kp_pages _ _ _ K)| |exact HP]. intros a j id Ha. rewrite EO, lookup_insert_ne; [done|congruence]. }
    2:{ intros j id [Hj _]%owned_lookup. congruence. }
    destruct (split_ok [] s1 M1 b i C1 Hb) as (s2 & -> & C2 & K2 & W2 & EO2); [right; by rewrite W|]. cbn [rbind].
    rewrite W2, W. cbn [ut_a rbind]. exists (Some b), s2. split; [done|]. split.
    { eapply kept_trans; [|exact K|exact K2]. intros x. apply others_mono. intros c j o Hc _. rewrite EO.
      rewrite lookup_insert_ne; [done|congruence]. }
    split; [done|]. split; [by rewrite W2|]. eexists. split; [exact C2|]. split.
    + rewrite lookup_insert_ne; [apply lookup_insert_eq|]. pose proof (block_size_pos SHIFT i). lia.
    + rewrite EO2, EO. by rewrite insert_insert_eq.
Qed.

Lemma alloc_from_loop_ok X i a : forall n s M,
  core X s M -> M !! a = Some (i + n, OHeld t) -> a ∈ X ->
  exists s' M', alloc_from_loop SHIFT SIZES n i a s = Ok s' /\ kept (owned M) s s' /\ core X s' M' /\ M' !! a = Some (i, OHeld t) /\
    owned M' = <[a := (i, OHeld t)]> (owned M).
Proof.
  induction n as [|n IH]; intros s M C Ha HX.
  - rewrite Nat.add_0_r in Ha. exists s, M. split_and!; [done|apply kept_refl|done..|]. symmetry. apply insert_id. by apply owned_lookup.
  - cbn [alloc_from_loop]. rewrite Nat.add_succ_r in Ha.
    destruct (split_ok X s M a (i + n) C Ha) as (s1 & -> & C1 & K1 & _ & EO1); [by left|]. cbn [rbind].
    destruct (IH s1 _ C1) as (s' & M' & -> & K' & C' & Ha' & EO'); [|done|].
    { rewrite lookup_insert_ne; [apply lookup_insert_eq|]. pose proof (block_size_pos SHIFT (i + n)). lia. }
    exists s', M'. split; [done|]. split; [|split; [done|]; split; [done|]; by rewrite EO', EO1, insert_insert_eq].
    eapply kept_trans; [|exact K1|exact K']. rewrite EO1. intros x. apply others_insert. intros j o [Hj _]%owned_lookup. congruence.
Qed.

Lemma stamp_nonfree_ok X s M a i :
  core (a :: X) s M -> M !! a = Some (i, OHeld t) ->
  exists s', buf_buddy_stamp_nonfree SIZES a i s = Ok s' /\ core X s' M /\ kept (owned M) s s'.
Proof.
  intros C Ha. pose proof (k_level _ _ _ _ _ C Ha) as Hi. unfold buf_buddy_stamp_nonfree, buf_buddy_mem_invalid.
  rewrite (proj2 (Nat.leb_le i SIZES)) by done. cbn [ut_a rbind]. set (s' := set_words _ _ _ s). exists s'.
  assert (forall b, b <> a -> space_word s' b = space_word s b) as Hw.
  { intros b Hb. simpl. by rewrite upd_ne. }
  split; [done|]. split.
  - split; [apply C..| |].
    + intros b j Hb. assert (b <> a) as Hne by congruence. rewrite Hw by done. by apply (k_free _ _ C).
    + intros b j o Hb Ho Hj HX. destruct (decide (b = a)) as [->|Hne]; [simpl; by rewrite upd_eq|].
      rewrite Hw by done. eapply (k_used _ _ C); [done..|]. by rewrite not_elem_of_cons.
  - split; [|done..]. intros x Hx. rewrite Hw; [done|]. eapply start_not_other; [exact C|exact Ha|by right|done].
Qed.
End thread.

(** What the owner of a block does to its memory does not matter. *)
Lemma core_write X s s' M a i o :
  core X s M -> M !! a = Some (i, o) -> o <> OFree ->
  (forall x, ~ inside a i x -> space_word s' x = space_word s x /\ stamp_size s' x = stamp_size s x /\ links s' !! x = links s !! x) ->
  space_word s' a <> BUF_BUDDY_STAMP_FREE -> dom (links s') = dom (links s) -> zip_free s' = zip_free s -> zip_hash s' = zip_hash s ->
  core X s' M.
Proof.
  intros C Ha Ho Hx Hw Hdom Hz Hf.
  assert (forall b j p, M !! b = Some (j, p) -> b <> a -> ~ inside a i b) as Hout.
  { intros b j p Hb Hne Hin. apply Hne. symmetry. eapply (k_apart s M _ _ _ _ _ _ b C Ha Hb); [done|apply inside_start]. }
  split.
  - rewrite Hf. apply (k_tiling _ _ C).
  - intros f x Hin Hx' Hal. rewrite Hf in Hin. eapply dom_links_some; [done|]. by eapply (k_links _ _ C).
  - rewrite <- size_dom, Hdom, size_dom. apply (k_room _ _ C).
  - intros j Hj. destruct (k_lists _ _ C j Hj) as (xs & Hr & Hxs). exists xs. split; [|done]. unfold free_list. rewrite Hz.
    eapply rep_frame; [|exact Hr]. intros b Hb%Hxs. apply Hx. eapply Hout; [done|]. congruence.
  - intros b j Hb. destruct (Hx b) as (-> & -> & _); [eapply Hout; [done|congruence]|]. by apply (k_free _ _ C).
  - intros b j p Hb Hp Hj HX. destruct (decide (b = a)) as [->|Hne]; [done|].
    destruct (Hx b) as (-> & _); [by eapply Hout|]. by eapply (k_used _ _ C).
Qed.

(** Nor does a change of its owner. *)
Lemma core_owner X s M a i o o' :
  core X s M -> M !! a = Some (i, o) -> o <> OFree -> o' <> OFree -> core X s (<[a := (i, o')]> M).
Proof.
  intros C Ha Ho Ho'.
  assert (forall b j p, <[a := (i, o')]> M !! b = Some (j, p) -> exists q, M !! b = Some (j, q) /\ (p = OFree <-> q = OFree)) as Hc.
  { intros b j p [[<- [= <- <-]]|[_ Hb]]%lookup_insert_Some; [exists o|exists p]; split; done. }
  split.
  - by eapply tiling_owner, (k_tiling _ _ C).
  - apply (k_links _ _ C).
  - apply (k_room _ _ C).
  - intros j Hj. destruct (k_lists _ _ C j Hj) as (xs & Hr & Hx). exists xs. split; [done|]. intros b. rewrite Hx. split.
    + intros Hb. rewrite lookup_insert_ne by congruence. done.
    + intros Hb. destruct (Hc _ _ _ Hb) as (q & Hq & Hi). by rewrite <- (proj1 Hi eq_refl).
  - intros b j Hb. destruct (Hc _ _ _ Hb) as (q & Hq & Hi). rewrite (proj1 Hi eq_refl) in Hq. by apply (k_free _ _ C).
  - intros b j p Hb Hp Hj HX. destruct (Hc _ _ _ Hb) as (q & Hq & Hi). eapply (k_used _ _ C); [done|tauto|done..].
Qed.

(** ** The contract of the allocator

    The state represents the map [O] from the blocks in use to their levels and
    owners. *)
Definition allocator (s : state) (O : blocks) : Prop := exists M, core [] s M /\ owned M = O.

Lemma allocator_write s s' O a i o :
  allocator s O -> O !! a = Some (i, o) ->
  (forall x, ~ inside a i x -> space_word s' x = space_word s x /\ stamp_size s' x = stamp_size s x /\ links s' !! x = links s !! x) ->
  space_word s' a <> BUF_BUDDY_STAMP_FREE -> dom (links s') = dom (links s) -> zip_free s' = zip_free s -> zip_hash s' = zip_hash s ->
  allocator s' O.
Proof. intros (M & C & <-) [Ha Ho]%owned_lookup Hx Hw Hd Hz Hf. exists M. split; [by eapply core_write|done]. Qed.

Lemma allocator_same s s' O :
  space_word s' = space_word s -> stamp_size s' = stamp_size s -> links s' = links s -> zip_free s' = zip_free s -> zip_hash s' = zip_hash s ->
  allocator s O -> allocator s' O.
Proof.
  intros E1 E2 E3 E4 E5 (M & [H1 H2 H3 H4 H5 H6] & <-). exists M. split; [|done]. unfold free_list in *.
  by split; unfold free_list; rewrite ?E1, ?E2, ?E3, ?E4, ?E5.
Qed.

Lemma allocator_owner s O a i o o' :
  allocator s O -> O !! a = Some (i, o) -> o' <> OFree -> allocator s (<[a := (i, o')]> O).
Proof.
  intros (M & C & <-) [Ha Ho]%owned_lookup Ho'. exists (<[a := (i, o')]> M). split; [by eapply core_owner|by apply owned_insert].
Qed.

Lemma allocator_bounds s O a i o : allocator s O -> O !! a = Some (i, o) -> i <= SIZES /\ aligned a i.
Proof. intros (M & C & <-) [Ha _]%owned_lookup. split; [by eapply k_level|by eapply k_aligned]. Qed.

Lemma allocator_apart s O a i o b j p x :
  allocator s O -> O !! a = Some (i, o) -> O !! b = Some (j, p) -> inside a i x -> inside b j x -> a = b.
Proof. intros (M & C & <-) [Ha _]%owned_lookup [Hb _]%owned_lookup. by eapply k_apart. Qed.

Lemma allocator_space s O a i o : allocator s O -> O !! a = Some (i, o) -> i < SIZES -> space_word s a <> BUF_BUDDY_STAMP_FREE.
Proof. intros (M & C & <-) [Ha Ho]%owned_lookup Hi. eapply (k_used _ _ C); [done..|]. apply not_elem_of_nil. Qed.

(** The state of the buddy of a block, as [buf_buddy_is_free] computes it. *)
Definition buddy_state (O : blocks) (s : state) (b i : nat) (st : buf_buddy_state_t) : Prop :=
  match st with
  | BUF_BUDDY_STATE_FREE => exists M, core [] s M /\ owned M = O /\ M !! b = Some (i, OFree)
  | BUF_BUDDY_STATE_USED => exists j o, O !! b = Some (j, o) /\ j <= i
  | BUF_BUDDY_STATE_PARTIALLY_USED => exists M j, core [] s M /\ owned M = O /\ M !! b = Some (j, OFree) /\ j < i
  end.

Lemma is_free_exact s O a i o :
  allocator s O -> O !! a = Some (i, o) -> i < SIZES ->
  exists st, buf_buddy_is_free SHIFT s (buddy SHIFT i a) i = Ok st /\ buddy_state O s (buddy SHIFT i a) i st.
Proof.
  intros (M & C & EO) Ha Hi. pose proof Ha as Ha'. rewrite <- EO in Ha'. apply owned_lookup in Ha' as [HMa _].
  destruct (tiling_buddy _ _ _ _ _ _ (k_tiling _ _ C) (level_lookup _ _ _ _ HMa) Hi) as (j & Hj & Hle).
  apply level_lookup_inv in Hj as (p & Hb). set (b := buddy SHIFT i a) in *. unfold buf_buddy_is_free.
  rewrite (proj2 (is_aligned_iff SHIFT b i)) by by apply buddy_aligned; eapply k_aligned. cbn [ut_a rbind]. unfold buf_buddy_stamp_is_free.
  destruct (decide (p = OFree)) as [->|Hp].
  - destruct (k_free _ _ C b j Hb) as (_ & -> & ->). rewrite Z.eqb_refl. cbn [negb]. rewrite (proj2 (Z.leb_le _ _)) by lia. cbn [ut_a rbind].
    destruct (Z.eqb_spec (Z.of_nat j) (Z.of_nat i)) as [E|E].
    + exists BUF_BUDDY_STATE_FREE. split; [done|]. exists M. replace i with j by lia. done.
    + exists BUF_BUDDY_STATE_PARTIALLY_USED. split; [done|]. exists M, j. split_and!; [done..|lia].
  - assert (space_word s b <> BUF_BUDDY_STAMP_FREE) as Hw by (eapply (k_used _ _ C); [done..|lia|apply not_elem_of_nil]).
    apply Z.eqb_neq in Hw. rewrite Hw. cbn [negb]. exists BUF_BUDDY_STATE_USED. split; [done|]. exists j, p.
    split; [|done]. rewrite <- EO. by apply owned_lookup.
Qed.

(** The frames of the allocator, and their number. *)
Record frames_ok (s : state) : Prop := Frames {
  fr_block f : f ∈ zip_hash s -> frames s !! f = Some memory_block;
  fr_count : buddy_n_frames s = Z.of_nat (base.size (zip_hash s)) }.

Lemma frames_ok_same s s' : zip_hash s' = zip_hash s -> frames s' = frames s /\ buddy_n_frames s' = buddy_n_frames s -> frames_ok s -> frames_ok s'.
Proof. intros E1 [E2 E3] [H1 H2]. split; by rewrite E1, ?E2, ?E3. Qed.

Lemma core_frames {X} s M : core X s M -> base.size (zip_hash s) <= base.size (links s).
Proof.
  intros C. rewrite <- size_dom. apply subseteq_size. intros f Hf. apply elem_of_dom. apply (k_links _ _ C f); [done| |].
  - apply inside_start.
  - eapply aligned_le; [|by apply (tl_frame _ _ _ _ (k_tiling _ _ C))]. lia.
Qed.

Section thread_contract.
Context (t : nat).

(** Allocating from the free lists. *)
Lemma allocator_alloc_zip s O i :
  allocator s O -> pages_in s O -> i < SIZES ->
  exists r s', buf_buddy_alloc_zip SHIFT SIZES (SIZES - i) i s = Ok (r, s') /\ kept t O s s' /\
    match r with
    | None => allocator s' O
    | Some b => O !! b = None /\ space_word s' b = BUF_BUDDY_STAMP_NONFREE /\ allocator s' (<[b := (i, OHeld t)]> O)
    end.
Proof.
  intros (M & C & <-) HP Hi. destruct (alloc_zip_ok t _ i s M C HP Hi eq_refl) as (r & s' & E & K & Hr). exists r, s'.
  split; [done|]. split; [done|]. destruct r as [b|]; [|by exists M]. destruct Hr as (Hn & W & M' & C' & _ & EO).
  split; [done|]. split; [done|]. by exists M'.
Qed.

(** A new frame. *)
Lemma allocator_register s O f :
  allocator s O -> frames_ok s -> fresh_frame SHIFT SIZES s f ->
  exists s', buf_buddy_block_register SHIFT SIZES f s = Ok s' /\ O !! f = None /\ allocator s' (<[f := (SIZES, OHeld t)]> O) /\
    frames_ok s' /\ page_hash s' = page_hash s /\ used s' = used s /\ links s' = links s /\ space_word s' = space_word s /\ offset_word s' = offset_word s /\
    stamp_size s' = stamp_size s.
Proof.
  intros (M & C & <-) [Hfb Hfn] (Hfr & Hf & Hal & Hnz & Hl). unfold buf_buddy_block_register. rewrite Hfr. cbn [deref rbind ready_block block_state].
  rewrite bool_decide_eq_true_2 by done. cbn [ut_a rbind].
  rewrite (proj2 (Nat.eqb_neq f 0)) by done. cbn [negb ut_a rbind]. rewrite (proj2 (is_aligned_iff SHIFT f SIZES)) by done.
  cbn [ut_a rbind in_page_hash in_zip_hash negb]. eexists. split; [done|]. destruct (tiling_add _ _ _ _ f (k_tiling _ _ C) Hf Hal) as [Hn T].
  rewrite lookup_fmap, fmap_None in Hn. split.
  { apply eq_None_not_Some. intros [[j o] [Hj _]%owned_lookup]. congruence. }
  split; [|split; [|done]].
  2:{ split; cbn [set_frames set_zip_hash frames buddy_n_frames zip_hash].
    - intros g [->%elem_of_singleton|Hg]%elem_of_union; [apply lookup_insert_eq|].
      rewrite lookup_insert_ne by (intros <-; done). by apply Hfb.
    - rewrite size_union, size_singleton by set_solver. pose proof (core_frames _ _ C). pose proof (k_room _ _ C).
      rewrite Hfn, u64_small; lia. }
  exists (<[f := (SIZES, OHeld t)]> M). split; [|by apply owned_insert].
  assert (forall b j o, <[f := (SIZES, OHeld t)]> M !! b = Some (j, o) -> (b = f /\ j = SIZES /\ o = OHeld t) \/ (b <> f /\ M !! b = Some (j, o))) as Hc.
  { intros b j o [[<- [= <- <-]]|[Hne Hb]]%lookup_insert_Some; auto. }
  split.
  - by rewrite fmap_insert.
  - intros g x [->%elem_of_singleton|Hg]%elem_of_union Hx Hax; [by apply Hl|by eapply (k_links _ _ C)].
  - apply (k_room _ _ C).
  - intros j Hj. destruct (k_lists _ _ C j Hj) as (xs & Hr & Hx). exists xs. split; [done|]. intros b. rewrite Hx. split.
    + intros Hb. rewrite lookup_insert_ne by congruence. done.
    + intros Hb. destruct (Hc _ _ _ Hb) as [(_ & _ & ?)|(_ & ?)]; done.
  - intros b j Hb. destruct (Hc _ _ _ Hb) as [(_ & _ & ?)|(_ & ?)]; [done|]. by apply (k_free _ _ C).
  - intros b j o Hb Ho Hj HX. destruct (Hc _ _ _ Hb) as [(_ & -> & _)|(_ & Hb')]; [lia|]. by eapply (k_used _ _ C).
Qed.

(** Taking a block from a frame. *)
Lemma allocator_alloc_from s O f i :
  allocator s O -> O !! f = Some (SIZES, OHeld t) -> i <= SIZES ->
  exists s', buf_buddy_alloc_from SHIFT SIZES f i SIZES s = Ok (f, s') /\ kept t O s s' /\ allocator s' (<[f := (i, OHeld t)]> O).
Proof.
  intros (M & C & <-) [Hf _]%owned_lookup Hi. unfold buf_buddy_alloc_from. rewrite !(proj2 (Nat.leb_le _ _)) by lia. cbn [ut_a rbind].
  rewrite (proj2 (is_aligned_iff SHIFT f SIZES)) by by eapply k_aligned. cbn [ut_a rbind].
  assert (core [f] s M) as C1 by (eapply core_weaken; [|exact C]; set_solver).
  destruct (alloc_from_loop_ok t [f] i f (SIZES - i) s M C1) as (s1 & M1 & -> & K1 & C2 & Hf1 & EO).
  { by replace (i + (SIZES - i)) with SIZES by lia. } { by left. }
  cbn [rbind]. destruct (stamp_nonfree_ok t [] s1 M1 f i C2 Hf1) as (s2 & -> & C3 & K3). cbn [rbind].
  exists s2. split; [done|]. split.
  - eapply kept_trans; [|exact K1|exact K3]. rewrite EO. intros x. apply others_insert. intros j o [Hj _]%owned_lookup. congruence.
  - by exists M1.
Qed.

(** Giving a block back to its free list. *)
Lemma allocator_add s O a i :
  allocator s O -> O !! a = Some (i, OHeld t) -> i < SIZES ->
  exists s', buf_buddy_add_to_free SIZES a i s = Ok s' /\ kept t O s s' /\ allocator s' (delete a O).
Proof.
  intros (M & C & <-) [Ha _]%owned_lookup Hi. assert (core [a] s M) as C1 by (eapply core_weaken; [|exact C]; set_solver).
  destruct (add_ok t [] s M a i C1 Ha Hi) as (s' & E & C' & K & _). exists s'. split; [done|]. split; [done|].
  exists (<[a := (i, OFree)]> M). split; [done|apply owned_free].
Qed.

Lemma func_exit_ok s O a i :
  allocator s O -> O !! a = Some (i, OHeld t) -> i < SIZES ->
  exists s', func_exit SIZES a i s = Ok (Freed, s') /\ kept t O s s' /\ allocator s' (delete a O).
Proof.
  intros HA Ha Hi. destruct (allocator_add s O a i HA Ha Hi) as (s' & E & K & HA'). unfold func_exit. rewrite E. by exists s'.
Qed.

(** Returning a frame. *)
Lemma allocator_block_free s O f :
  allocator s O -> frames_ok s -> O !! f = Some (SIZES, OHeld t) ->
  exists s', buf_buddy_block_free SHIFT SIZES f s = Ok s' /\ allocator s' (delete f O) /\ frames_ok s' /\
    page_hash s' = page_hash s /\ used s' = used s /\
    forall x, others t O x -> space_word s' x = space_word s x /\ offset_word s' x = offset_word s x /\ stamp_size s' x = stamp_size s x.
Proof.
  intros (M & C & <-) [Hfb Hfn] HOf. pose proof HOf as [Hf _]%owned_lookup. unfold buf_buddy_block_free.
  rewrite (proj2 (is_aligned_iff SHIFT f SIZES)) by by eapply k_aligned. cbn [ut_a rbind].
  destruct (tiling_remove _ _ _ _ f (k_tiling _ _ C) (level_lookup _ _ _ _ Hf)) as [Hin T].
  assert (zip_hash_valid s = true) as ->.
  { apply forallb_forall. intros g Hg%list_elem_of_In%elem_of_elements. by rewrite (Hfb g Hg). }
  rewrite bool_decide_eq_true_2 by done. cbn [ut_a rbind]. rewrite (Hfb f Hin).
  cbn [deref rbind memory_block block_state in_page_hash in_zip_hash in_free_list in_flush_list in_LRU_list n_pointers].
  rewrite bool_decide_eq_true_2 by done. cbn [negb ut_a rbind buf_LRU_block_free_non_file_page block_state in_free_list in_flush_list
    in_LRU_list n_pointers Z.eqb].
  assert (base.size (zip_hash s) <> 0) as Hsz by (intros E%size_empty_inv; set_solver).
  cbn [set_frames set_words set_zip_hash buddy_n_frames frames]. rewrite Hfn, (proj2 (Z.ltb_lt _ _)) by lia. cbn [ut_a rbind].
  eexists. split; [done|]. split; [|split; [|split; [done|split; [done|]]]]; cbn [page_hash used space_word offset_word stamp_size zip_hash frames buddy_n_frames].
  - exists (delete f M). split; [|apply owned_delete]. split; simpl.
    + by rewrite fmap_delete.
    + intros g x [Hg _]%elem_of_difference. apply (k_links _ _ C g x Hg).
    + apply (k_room _ _ C).
    + intros j Hj. destruct (k_lists _ _ C j Hj) as (xs & Hr & Hx). exists xs. split; [done|]. intros b. rewrite Hx, lookup_delete_Some.
      split; [intros Hb; split; [congruence|done]|tauto].
    + intros b j [Hne Hb]%lookup_delete_Some. rewrite upd_ne by done. by apply (k_free _ _ C).
    + intros b j o [Hne Hb]%lookup_delete_Some. rewrite upd_ne by done. by apply (k_used _ _ C).
  - split; cbn [set_frames set_words set_zip_hash frames zip_hash buddy_n_frames].
    + intros g [Hg Hne]%elem_of_difference. rewrite !lookup_insert_ne by set_solver. by apply Hfb.
    + rewrite size_difference, size_singleton by set_solver. pose proof (core_frames _ _ C). pose proof (k_room _ _ C).
      rewrite u64_small; lia.
  - intros x Hx. assert (x <> f) as Hne by (eapply (start_not_other t s M); [exact C|exact Hf|by right|done]).
    simpl. by rewrite !upd_ne by congruence.
Qed.

(** What the blocks are when a critical section of [buf_buddy_free_low] ends;
    [O] are the blocks without the one that is freed. *)
Definition ends_with (O : blocks) (s' : state) (out : outcome) : Prop :=
  match out with
  | Freed => allocator s' O
  | WholeFrame b => O !! b = None /\ allocator s' (<[b := (SIZES, OHeld t)]> O)
  | Relocate b j bud z sp off =>
      O !! b = None /\ O !! z = None /\ b <> z /\ j < SIZES /\ bud = buddy SHIFT j b /\
      allocator s' (<[z := (j, OHeld t)]> (<[b := (j, OHeld t)]> O))
  end.

(** The buddy of a block joins it. *)
Lemma join_ok s O M a i :
  core [] s M -> owned M = O -> O !! a = Some (i, OHeld t) -> i < SIZES -> M !! buddy SHIFT i a = Some (i, OHeld t) ->
  exists O', allocator s O' /\ O' !! floor SHIFT (S i) a = Some (S i, OHeld t) /\
    delete (floor SHIFT (S i) a) O' = delete (buddy SHIFT i a) (delete a O) /\
    (forall x, others t O x -> others t O' x) /\ forall x j id, O !! x = Some (j, OPage id) -> O' !! x = Some (j, OPage id).
Proof.
  intros C EO Ha Hi Hb. pose proof Ha as HMa. rewrite <- EO in HMa. apply owned_lookup in HMa as [HMa _].
  pose proof (k_aligned _ _ _ _ _ C HMa) as Hal. pose proof (buddy_cases SHIFT i a Hal) as Hcb.
  pose proof (floor_aligned SHIFT (S i) a) as Hca. revert Hb Hcb Hca. generalize (floor SHIFT (S i) a), (buddy SHIFT i a). intros c b Hb Hcb Hca.
  assert (M !! c = Some (i, OHeld t) /\ M !! (c + size i) = Some (i, OHeld t)) as [Hc Hd].
  { destruct Hcb as [[-> Eb]|[Ea ->]]; [rewrite <- Eb|rewrite <- Ea]; done. }
  pose proof (core_merge t s M c i C Hc Hd Hca Hi) as C2.
  exists (owned (<[c := (S i, OHeld t)]> (delete (c + size i) M))). split; [by eexists|].
  rewrite owned_insert, owned_delete, EO by done. split; [apply lookup_insert_eq|]. split.
  - rewrite delete_insert_eq. destruct Hcb as [[-> ->]|[-> ->]]; [apply delete_delete|done].
  - split.
    2:{ intros x j id Hx. pose proof Hx as Hx'. rewrite <- EO in Hx'. apply owned_lookup in Hx' as [Hx' _].
        rewrite lookup_insert_ne, lookup_delete_ne by congruence. done. }
    intros x Hx. apply others_insert; [|apply others_delete; [|done]]; intros j o Hj.
    + apply lookup_delete_Some in Hj as [_ Hj]. rewrite <- EO in Hj. apply owned_lookup in Hj as [Hj _]. congruence.
    + rewrite <- EO in Hj. apply owned_lookup in Hj as [Hj _]. congruence.
Qed.

Lemma recombine_ok : forall fuel buf i s O,
  allocator s O -> pages_in s O -> O !! buf = Some (i, OHeld t) -> fuel = SIZES - i ->
  exists out s', recombine SHIFT SIZES fuel buf i s = Ok (out, s') /\ kept t O s s' /\ ends_with (delete buf O) s' out.
Proof.
  induction fuel as [|fuel IH]; intros buf i s O HA HP Hb Hf; destruct (allocator_bounds _ _ _ _ _ HA Hb) as [Hlv Hal]; cbn [recombine];
    (destruct (Nat.eqb_spec i SIZES) as [->|Hi];
      [exists (WholeFrame buf), s; split; [done|]; split; [apply kept_refl|]; split; [apply lookup_delete_eq|by rewrite insert_delete_eq, insert_id]|]).
  { lia. }
  assert (i < SIZES) as Hlt by lia. rewrite (proj2 (Nat.ltb_lt _ _)) by done. cbn [ut_a rbind].
  rewrite align_down_floor, floor_of_aligned, Nat.eqb_refl by done. cbn [ut_a rbind].
  rewrite (contains_zip_false s O buf HP) by congruence. cbn [negb ut_a rbind].
  assert (exists out s', func_exit SIZES buf i s = Ok (out, s') /\ kept t O s s' /\ ends_with (delete buf O) s' out) as Hexit.
  { destruct (func_exit_ok s O buf i HA Hb Hlt) as (s' & -> & K & HA'). by exists Freed, s'. }
  destruct (Z.ltb_spec (count (zip_free s i)) 16) as [_|_]; [done|].
  rewrite (buddy_get_ok SHIFT SIZES) by done. cbn [rbind]. destruct (is_free_exact s O buf i _ HA Hb Hlt) as (bs & -> & Hbs). cbn [rbind].
  destruct bs; [| |done].
  - destruct Hbs as (M & C & EO & HMb). destruct (remove_ok t s M _ i C HMb) as (s1 & -> & C1 & K1 & _). cbn [rbind].
    assert (owned (<[buddy SHIFT i buf := (i, OHeld t)]> M) = <[buddy SHIFT i buf := (i, OHeld t)]> O) as EO1 by (rewrite <- EO; by apply owned_insert).
    pose proof (buddy_ne SHIFT i buf Hal) as Hne.
    assert (O !! buddy SHIFT i buf = None) as HOb.
    { apply eq_None_not_Some. intros [[j o] Hj]. rewrite <- EO in Hj. apply owned_lookup in Hj as [Hj ?]. congruence. }
    rewrite (contains_zip_false s1 O (buddy SHIFT i buf)); [|by eapply pages_in_mono; [apply (kp_pages _ _ _ _ K1)| |exact HP]|congruence].
    cbn [negb ut_a rbind].
    destruct (join_ok s1 _ (<[buddy SHIFT i buf := (i, OHeld t)]> M) buf i C1 EO1) as (O' & HA' & Hc & Ed & Hoth & Hpg); [by rewrite lookup_insert_ne|done|apply lookup_insert_eq|].
    rewrite align_down_floor. destruct (IH (floor SHIFT (S i) buf) (S i) s1 O' HA') as (out & s2 & E2 & K2 & He); [|exact Hc|lia|].
    { eapply pages_in_mono; [apply (kp_pages _ _ _ _ K1)| |exact HP]. intros x j id Hx. apply Hpg. rewrite lookup_insert_ne; [done|congruence]. }
    exists out, s2. split; [exact E2|]. rewrite Ed, delete_insert_ne, delete_insert_eq, delete_id in He by (done || by rewrite lookup_delete_ne).
    split; [|exact He]. rewrite EO in K1. eapply kept_trans; [|exact K1|exact K2]. intros x Hx. apply Hoth.
    apply others_insert; [|done]. intros j o Hj. congruence.
  - destruct Hbs as (j & o & HOb & Hji). destruct HA as (M & C & EO). rewrite (k_valid _ _ _ C Hlt). cbn [ut_a rbind].
    destruct (start (zip_free s i)) as [z|] eqn:Ez; [|done]. pose proof (k_first _ _ _ _ C Hlt Ez) as Hz.
    destruct (remove_ok t s M z i C Hz) as (s1 & -> & C1 & K1 & _). cbn [rbind].
    assert (allocator s1 (<[z := (i, OHeld t)]> O)) as HA1 by (exists (<[z := (i, OHeld t)]> M); split; [done|rewrite <- EO; by apply owned_insert]).
    assert (O !! z = None) as HOz.
    { apply eq_None_not_Some. intros [[k p] Hk]. rewrite <- EO in Hk. apply owned_lookup in Hk as [Hk ?]. congruence. }
    rewrite (proj2 (is_aligned_iff SHIFT _ i)) by by apply buddy_aligned. rewrite (proj2 (is_aligned_iff SHIFT z i)) by exact (k_aligned _ _ _ _ _ C Hz).
    cbn [andb ut_a rbind]. assert (space_word s1 (buddy SHIFT i buf) <> BUF_BUDDY_STAMP_FREE) as Hw.
    { eapply (allocator_space s1); [exact HA1|rewrite lookup_insert_ne; [done|congruence]|lia]. }
    apply Z.eqb_neq in Hw. rewrite Hw. cbn [negb ut_a rbind]. eexists _, s1. split; [done|]. split; [by rewrite EO in K1|].
    assert (buf <> z) as Hbz by congruence.
    split; [apply lookup_delete_eq|]. split; [by rewrite lookup_delete_ne|]. split_and!; [done..|].
    by rewrite insert_delete_eq, (insert_id O).
Qed.
End thread_contract.
End inv.
End BuddyInv.
