(* ===== verification/BuddySafety.v ===== *)
(** * The buddy allocator under concurrency (buf/buf0buddy.cc)

    The invariant of the transitions of [BufBuddy]: the blocks that the state of
    the allocator represents ([BuddyInv]) are those of the compressed pages and of
    the threads.  In every interleaving no assertion fails, blocks do not overlap,
    and the contents of pages are preserved, also by relocation. *)
From S2P Require Import Prelude Results UtList BuddyTiling BufBuddy BuddyInv.
Local Open Scope nat_scope.

Module BuddySafety.
Import UtList BuddyTiling BufBuddy BuddyInv.
Local Open Scope mc_scope.

Section safety.
Context (SHIFT SIZES : nat).
Notation size := (block_size SHIFT).
Notation inside := (inside SHIFT).
Notation allocator := (allocator SHIFT SIZES).
Notation sys_step := (sys_step SHIFT SIZES).
Notation step := (step SHIFT SIZES).

(** The blocks of a thread. *)
Definition holds (t : nat) (p : pc) : list (nat * (nat * owner)) :=
  match p with
  | Owns b i => [(b, (i, OUser t))]
  | AllocFrom f _ => [(f, (SIZES, OHeld t))]
  | RelocLook b i _ z _ _ | RelocCopy b i _ z _ | RelocFail b i z => [(b, (i, OHeld t)); (z, (i, OHeld t))]
  | BlockFree b => [(b, (SIZES, OHeld t))]
  | Out | NeedFrame _ => []
  end.

Definition of_thread (t : nat) (o : owner) : Prop := o = OUser t \/ o = OHeld t.
Definition in_use (o : owner) : Prop := match o with OUser _ | OPage _ => True | _ => False end.
#[export] Instance in_use_dec o : Decision (in_use o).
Proof. destruct o; simpl; apply _. Defined.

(** What a thread relies on between two critical sections. *)
Definition pc_ok (s : state) (p : pc) : Prop :=
  match p with
  | NeedFrame i | AllocFrom _ i => i <= SIZES
  | RelocLook b i bud z _ _ => i < SIZES /\ bud = buddy SHIFT i b /\ b <> z
  | RelocCopy b i bud z id => i < SIZES /\ bud = buddy SHIFT i b /\ b <> z /\
      exists p, page_hash s !! id = Some p /\ zip_data p = bud /\ zip_level p = i
  | RelocFail b i z => i < SIZES /\ b <> z
  | _ => True
  end.

(** The blocks of a level in use, which [buddy_stat[i].used] counts. *)
Definition users (i : nat) (O : blocks) : nat := base.size (filter (fun b => b.2.1 = i /\ in_use b.2.2) O).

Definition contributes (i : nat) (x : option (nat * owner)) : nat :=
  match x with Some (j, o) => if decide (j = i /\ in_use o) then 1 else 0 | None => 0 end.

Lemma users_delete i O a : users i (delete a O) + contributes i (O !! a) = users i O.
Proof.
  unfold users, contributes. rewrite map_filter_delete. destruct (O !! a) as [[j o]|] eqn:E.
  - case_decide as Hu.
    + rewrite map_size_delete_Some; [|eexists; by apply map_lookup_filter_Some_2].
      assert (base.size (filter (fun b : nat * (nat * owner) => b.2.1 = i /\ in_use b.2.2) O) <> 0); [|lia].
      apply map_size_non_empty_iff. intros Hemp. pose proof (map_lookup_filter_Some_2 (fun b : nat * (nat * owner) => b.2.1 = i /\ in_use b.2.2) O a (j, o) E Hu) as Hl.
      by rewrite Hemp, lookup_empty in Hl.
    + rewrite map_size_delete_None; [lia|]. apply map_lookup_filter_None_2. right. intros [k p] Hk. simpl. congruence.
  - rewrite map_size_delete_None; [lia|]. apply map_lookup_filter_None_2. by left.
Qed.

Lemma users_insert i O a x : users i (<[a := x]> O) + contributes i (O !! a) = users i O + contributes i (Some x).
Proof.
  rewrite <- (users_delete i (<[a := x]> O) a), delete_insert_eq, lookup_insert_eq. pose proof (users_delete i O a). lia.
Qed.

(** The number of blocks is bounded by the memory. *)
Lemma allocator_size s O : allocator s O -> (Z.of_nat (base.size O) + 1 < 2 ^ 64)%Z.
Proof.
  intros (M & C & <-). pose proof (k_room _ _ _ _ _ C) as Hk.
  assert (base.size (owned M) <= base.size (links s)); [|lia]. rewrite <- !size_dom. apply subseteq_size.
  intros a Ha. apply elem_of_dom in Ha as [[i o] Ha]. apply owned_lookup in Ha as [Ha _]. apply elem_of_dom. by eapply k_node.
Qed.

Lemma users_le i O : users i O <= base.size O.
Proof. unfold users. apply map_subseteq_size. apply map_filter_subseteq. Qed.

(** The invariant, for the blocks [O] in use. *)
Record inv (sy : sys) (O : blocks) : Prop := Inv {
  i_alloc : allocator (st sy) O;
  i_pages id p : page_hash (st sy) !! id = Some p -> O !! zip_data p = Some (zip_level p, OPage id);
  i_pages_own a i id : O !! a = Some (i, OPage id) -> exists p, page_hash (st sy) !! id = Some p /\ zip_data p = a;
  i_threads t a x : (a, x) ∈ holds t (thread sy t) -> O !! a = Some x;
  i_threads_own t a i o : O !! a = Some (i, o) -> of_thread t o -> (a, (i, o)) ∈ holds t (thread sy t);
  i_pc t : pc_ok (st sy) (thread sy t);
  i_used i : used (st sy) i = Z.of_nat (users i O);
  i_frames : frames_ok (st sy) }.

Lemma inv_pages_in sy O : inv sy O -> pages_in (st sy) O.
Proof. intros I id p Hp. exists (zip_level p). by apply (i_pages _ _ I). Qed.

Lemma kept_frames t O s s' : kept SHIFT t O s s' -> frames_ok s -> frames_ok s'.
Proof. intros K. apply frames_ok_same; [apply (kp_frames _ _ _ _ _ K)|apply (kp_blocks _ _ _ _ _ K)]. Qed.

(** A transition of thread [t] that leaves it without blocks, or with those of
    its new place. *)
Lemma buddy_inv_goto sy O t p s' O' :
  inv sy O -> allocator s' O' -> frames_ok s' ->
  (forall id q, page_hash s' !! id = Some q -> O' !! zip_data q = Some (zip_level q, OPage id)) ->
  (forall a i id, O' !! a = Some (i, OPage id) -> exists q, page_hash s' !! id = Some q /\ zip_data q = a) ->
  (forall u a i o, u <> t -> of_thread u o -> O' !! a = Some (i, o) <-> O !! a = Some (i, o)) ->
  (forall a x, (a, x) ∈ holds t p <-> O' !! a = Some x /\ of_thread t x.2) ->
  (forall u, u <> t -> pc_ok (st sy) (thread sy u) -> pc_ok s' (thread sy u)) ->
  pc_ok s' p -> (forall i, used s' i = Z.of_nat (users i O')) ->
  inv (goto t p s' sy) O'.
Proof.
  intros I HA Hfr Hp Hp2 Ho Ht Hpc Hok Hu. split; simpl; [done..| | | |done|done].
  - intros u a x. destruct (decide (t = u)) as [<-|Hne].
    + rewrite upd_eq. intros Hin%Ht. apply Hin.
    + rewrite upd_ne by done. intros Hin. pose proof (i_threads _ _ I u a x Hin) as HOa. destruct x as [i o].
      apply (Ho u); [congruence| |done]. clear -Hin. unfold of_thread.
      destruct (thread sy u); simpl in Hin; set_solver.
  - intros u a i o HOa Hof. destruct (decide (t = u)) as [<-|Hne].
    + rewrite upd_eq. by apply Ht.
    + rewrite upd_ne by done. apply (i_threads_own _ _ I); [|done]. apply (Ho u); [congruence|done..].
  - intros u. destruct (decide (t = u)) as [<-|Hne]; [by rewrite upd_eq|]. rewrite upd_ne by done.
    apply Hpc; [congruence|apply (i_pc _ _ I)].
Qed.

Lemma pc_ok_pages s s' p : page_hash s' = page_hash s -> pc_ok s p -> pc_ok s' p.
Proof. intros E. destruct p; simpl; rewrite ?E; done. Qed.

(** A transition that does not change the page hash. *)
Lemma buddy_inv_local sy O t p s' O' :
  inv sy O -> allocator s' O' -> frames_ok s' -> page_hash s' = page_hash (st sy) ->
  (forall a i o, ~ of_thread t o -> O' !! a = Some (i, o) <-> O !! a = Some (i, o)) ->
  (forall a x, (a, x) ∈ holds t p <-> O' !! a = Some x /\ of_thread t x.2) ->
  pc_ok s' p -> (forall i, used s' i = Z.of_nat (users i O')) ->
  inv (goto t p s' sy) O'.
Proof.
  intros I HA Hfr Hp Ho Ht Hok Hu. assert (forall id, ~ of_thread t (OPage id)) as Hpg by (intros id []; done).
  apply (buddy_inv_goto sy O); try done.
  - intros id q. rewrite Hp. intros Hq%(i_pages _ _ I). by apply Ho.
  - intros a i id Ha. rewrite Hp. apply (i_pages_own _ _ I a i). by apply Ho.
  - intros u a i o Hne Hof. apply Ho. intros Hof'. destruct Hof, Hof'; congruence.
  - intros u _. by apply pc_ok_pages.
Qed.

(** What a thread without blocks does not own. *)
Lemma owns_nothing sy O t a i o : inv sy O -> holds t (thread sy t) = [] -> O !! a = Some (i, o) -> ~ of_thread t o.
Proof. intros I Hn Ha Hof. pose proof (i_threads_own _ _ I t a i o Ha Hof) as Hin. rewrite Hn in Hin. by apply elem_of_nil in Hin. Qed.

Lemma count_bound s O i : allocator s O -> (Z.of_nat (users i O) + 1 < 2 ^ 64)%Z.
Proof. intros HA. pose proof (allocator_size s O HA). pose proof (users_le i O). lia. Qed.

(** A thread gets a block. *)
Lemma inv_acquire sy O t b i s' :
  inv sy O -> (forall a x, (a, x) ∈ holds t (thread sy t) -> a = b) -> contributes i (O !! b) = 0 ->
  (forall j o, O !! b = Some (j, o) -> o = OHeld t) ->
  allocator s' (<[b := (i, OHeld t)]> O) -> frames_ok s' -> page_hash s' = page_hash (st sy) -> used s' = used (st sy) ->
  inv (goto t (Owns b i) (count_used i s') sy) (<[b := (i, OUser t)]> O).
Proof.
  intros I Hown Hc Hbo HA Hfr Hp Hu.
  assert (allocator (count_used i s') (<[b := (i, OUser t)]> O)) as HA'.
  { rewrite <- (insert_insert_eq O b (i, OUser t) (i, OHeld t)). eapply allocator_owner; [by apply (allocator_same SHIFT SIZES s')|apply lookup_insert_eq|done]. }
  apply (buddy_inv_local sy O); [done..|by apply (frames_ok_same s')|done| | | |].
  - intros a j o Hno. destruct (decide (a = b)) as [->|Hne]; [|by rewrite lookup_insert_ne].
    rewrite lookup_insert_eq. split.
    + intros [= <- <-]. destruct Hno. by left.
    + intros Ha. destruct Hno. right. by apply (Hbo j).
  - intros a x. cbn [holds]. rewrite list_elem_of_singleton. split.
    + intros [= -> ->]. split; [apply lookup_insert_eq|by left].
    + intros [[[<- <-]|[Hne Ha]]%lookup_insert_Some Hof]; [done|]. destruct x as [j o].
      pose proof (Hown _ _ (i_threads_own _ _ I t a j o Ha Hof)). congruence.
  - done.
  - intros j. cbn [count_used set_used used]. rewrite Hu. pose proof (users_insert j O b (i, OUser t)) as E.
    unfold upd. destruct (decide (i = j)) as [<-|Hne].
    + rewrite Hc in E. cbn [contributes] in E. rewrite decide_True in E by done.
      pose proof (count_bound _ _ i HA'). rewrite (i_used _ _ I), u64_small; lia.
    + rewrite (i_used _ _ I). cbn [contributes] in E. rewrite (decide_False (P := i = j /\ _)) in E by tauto.
      assert (contributes j (O !! b) = 0) as Hcj.
      { destruct (O !! b) as [[k o]|] eqn:Eb; [|done]. rewrite (Hbo k o eq_refl). simpl. rewrite decide_False; [done|]. by intros []. }
      rewrite Hcj in E. f_equal. lia.
Qed.

(** ** The contents of pages *)

(** The contents of a block. *)
Definition content (s : state) (a k : nat) : Z * Z * Z := (space_word s (a + k), offset_word s (a + k), stamp_size s (a + k)).

Definition pages_kept (s s' : state) : Prop :=
  forall id p p', page_hash s !! id = Some p -> page_hash s' !! id = Some p' ->
    zip_level p' = zip_level p /\ forall k, k < size (zip_level p) -> content s' (zip_data p') k = content s (zip_data p) k.

Lemma kept_pages sy O t s' : inv sy O -> kept SHIFT t O (st sy) s' -> pages_kept (st sy) s'.
Proof.
  intros I K id p p' Hp Hp'. rewrite (kp_pages _ _ _ _ _ K), Hp in Hp'. injection Hp' as <-. split; [done|]. intros k Hk.
  unfold content. destruct (kp_memory _ _ _ _ _ K (zip_data p + k)) as (-> & -> & -> & _); [|done].
  eexists _, _, _. split; [by apply (i_pages _ _ I)|]. split; [done|]. unfold BuddyTiling.inside. lia.
Qed.

Lemma pages_kept_same s s' : space_word s' = space_word s -> offset_word s' = offset_word s -> stamp_size s' = stamp_size s ->
  (forall id p p', page_hash s !! id = Some p -> page_hash s' !! id = Some p' -> zip_data p' = zip_data p /\ zip_level p' = zip_level p) ->
  pages_kept s s'.
Proof. intros E1 E2 E3 Hp id p p' H1 H2. destruct (Hp id p p' H1 H2) as [-> ->]. unfold content. by rewrite E1, E2, E3. Qed.

Lemma pages_kept_eq s s' : space_word s' = space_word s -> offset_word s' = offset_word s -> stamp_size s' = stamp_size s ->
  page_hash s' = page_hash s -> pages_kept s s'.
Proof. intros E1 E2 E3 E4. apply pages_kept_same; [done..|]. intros id p p' H1 H2. rewrite E4, H1 in H2. by injection H2 as <-. Qed.

(** The result of a transition. *)
Definition good (sy : sys) (r : res sys) : Prop :=
  exists sy' O', r = Ok sy' /\ inv sy' O' /\ pages_kept (st sy) (st sy').

Lemma alloc_good sy O t i :
  inv sy O -> thread sy t = Out -> i <= SIZES ->
  good sy (let! i := buf_buddy_get_slot SHIFT SIZES (size i) in
           let! (b, s) := alloc_low_zip SHIFT SIZES i (st sy) in
           Ok (goto t (match b with Some b => Owns b i | None => NeedFrame i end) s sy)).
Proof.
  intros I Ht Hi. rewrite get_slot_ok by done. cbn [rbind]. unfold alloc_low_zip.
  assert (holds t (thread sy t) = []) as Hh by by rewrite Ht.
  assert (forall s', allocator s' O -> kept SHIFT t O (st sy) s' -> inv (goto t (NeedFrame i) s' sy) O) as Hneed.
  { intros s' HA K. apply (buddy_inv_local sy O); [done..|by eapply kept_frames, (i_frames _ _ I)|by apply (kp_pages _ _ _ _ _ K)|done| |done|].
    - intros a [j o]. cbn [holds]. split; [by intros ?%elem_of_nil|]. intros [Ha Hof]. by eapply owns_nothing in Hof.
    - intros j. rewrite (kp_used _ _ _ _ _ K). apply (i_used _ _ I). }
  destruct (Nat.ltb_spec i SIZES) as [Hlt|Hge].
  - destruct (allocator_alloc_zip SHIFT SIZES t (st sy) O i (i_alloc _ _ I) (inv_pages_in _ _ I) Hlt) as (r & s' & -> & K & Hr). cbn [rbind].
    pose proof (kept_pages sy O t s' I K) as Hk. destruct r as [b|]; cbn [rbind].
    + destruct Hr as (Hb & _ & HA). eexists _, _. split; [done|]. split; [|exact Hk].
      apply inv_acquire; [done|by rewrite Hh; intros a x ?%elem_of_nil|by rewrite Hb|by rewrite Hb|done|by eapply kept_frames, (i_frames _ _ I)|by apply (kp_pages _ _ _ _ _ K)|by apply (kp_used _ _ _ _ _ K)].
    + eexists _, _. split; [done|]. split; [by apply Hneed|done].
  - eexists _, _. split; [done|]. split; [apply Hneed; [apply (i_alloc _ _ I)|apply kept_refl]|]. by apply pages_kept_eq.
Qed.

Lemma frame_good sy O t i f :
  inv sy O -> thread sy t = NeedFrame i -> fresh_frame SHIFT SIZES (st sy) f ->
  good sy (let! s := buf_buddy_block_register SHIFT SIZES f (st sy) in Ok (goto t (AllocFrom f i) s sy)).
Proof.
  intros I Ht Hf. destruct (allocator_register SHIFT SIZES t (st sy) O f (i_alloc _ _ I) (i_frames _ _ I) Hf) as (s' & -> & Hn & HA & Hfr & Hp & Hu & _ & E1 & E2 & E3).
  assert (holds t (thread sy t) = []) as Hh by by rewrite Ht. cbn [rbind]. eexists _, _. split; [done|]. split; [|by apply pages_kept_eq].
  apply (buddy_inv_local sy O); [done..| | | |].
  - intros a j o Hno. destruct (decide (a = f)) as [->|Hne]; [|by rewrite lookup_insert_ne]. rewrite lookup_insert_eq, Hn.
    split; [|done]. intros [= <- <-]. destruct Hno. by right.
  - intros a x. cbn [holds]. rewrite list_elem_of_singleton. split.
    + intros [= -> ->]. split; [apply lookup_insert_eq|by right].
    + intros [[[<- <-]|[_ Ha]]%lookup_insert_Some Hof]; [done|]. destruct x as [j o]. by eapply owns_nothing in Hof.
  - pose proof (i_pc _ _ I t) as Hi. by rewrite Ht in Hi.
  - intros j. rewrite Hu, (i_used _ _ I). pose proof (users_insert j O f (SIZES, OHeld t)) as E. rewrite Hn in E. cbn in E.
    rewrite decide_False in E by (intros []; done). f_equal. lia.
Qed.

Lemma alloc_from_good sy O t f i :
  inv sy O -> thread sy t = AllocFrom f i ->
  good sy (let! (b, s) := alloc_low_big SHIFT SIZES f i (st sy) in Ok (goto t (Owns b i) s sy)).
Proof.
  intros I Ht. assert (O !! f = Some (SIZES, OHeld t)) as Hf by (apply (i_threads _ _ I t); rewrite Ht; by apply list_elem_of_singleton).
  pose proof (i_pc _ _ I t) as Hi. rewrite Ht in Hi. unfold alloc_low_big.
  destruct (allocator_alloc_from SHIFT SIZES t (st sy) O f i (i_alloc _ _ I) Hf Hi) as (s' & -> & K & HA). cbn [rbind].
  eexists _, _. split; [done|]. split; [|by apply (kept_pages sy O t s' I K)].
  apply inv_acquire; [done| | | |done|by eapply kept_frames, (i_frames _ _ I)|by apply (kp_pages _ _ _ _ _ K)|by apply (kp_used _ _ _ _ _ K)].
  - rewrite Ht. intros a x Hx%list_elem_of_singleton. by injection Hx.
  - rewrite Hf. simpl. rewrite decide_False; [done|]. by intros [].
  - rewrite Hf. by intros j o [= _ <-].
Qed.

Lemma block_free_good sy O t b :
  inv sy O -> thread sy t = BlockFree b ->
  good sy (let! s := buf_buddy_block_free SHIFT SIZES b (st sy) in Ok (goto t Out s sy)).
Proof.
  intros I Ht. assert (O !! b = Some (SIZES, OHeld t)) as Hb by (apply (i_threads _ _ I t); rewrite Ht; by apply list_elem_of_singleton).
  destruct (allocator_block_free SHIFT SIZES t (st sy) O b (i_alloc _ _ I) (i_frames _ _ I) Hb) as (s' & -> & HA & Hfr & Hp & Hu & Hmem). cbn [rbind].
  eexists _, _. split; [done|]. split.
  2:{ intros id p p' Hq Hq'. cbn [goto st] in Hq'. rewrite Hp, Hq in Hq'. injection Hq' as <-. split; [done|]. intros k Hk. unfold content. cbn [goto st].
      destruct (Hmem (zip_data p + k)) as (-> & -> & ->); [|done]. eexists _, _, _. split; [by apply (i_pages _ _ I)|]. split; [done|].
      unfold BuddyTiling.inside. lia. }
  apply (buddy_inv_local sy O); [done..| | |done|].
  - intros a j o Hno. destruct (decide (a = b)) as [->|Hne]; [|by rewrite lookup_delete_ne]. rewrite lookup_delete_eq, Hb.
    split; [done|]. intros [= <- <-]. destruct Hno. by right.
  - intros a [j o]. cbn [holds]. split; [by intros ?%elem_of_nil|]. intros [[Hne Ha]%lookup_delete_Some Hof].
    pose proof (i_threads_own _ _ I t a j o Ha Hof) as Hin. rewrite Ht in Hin. apply list_elem_of_singleton in Hin. congruence.
  - intros j. rewrite Hu, (i_used _ _ I). pose proof (users_delete j O b) as E. rewrite Hb in E. cbn in E.
    rewrite decide_False in E by (intros []; done). f_equal. lia.
Qed.

(** The blocks [O'] while thread [t] works on those of the list [l]. *)
Record base (sy : sys) (O : blocks) (t : nat) (s' : state) (O' : blocks) (l : list (nat * (nat * owner))) : Prop := Base {
  b_pages id q : page_hash s' !! id = Some q -> O' !! zip_data q = Some (zip_level q, OPage id);
  b_pages_own a i id : O' !! a = Some (i, OPage id) -> exists q, page_hash s' !! id = Some q /\ zip_data q = a;
  b_others u a i o : u <> t -> of_thread u o -> O' !! a = Some (i, o) <-> O !! a = Some (i, o);
  b_mine a x : (a, x) ∈ l <-> O' !! a = Some x /\ of_thread t x.2;
  b_pc u : u <> t -> pc_ok (st sy) (thread sy u) -> pc_ok s' (thread sy u);
  b_used i : used s' i = Z.of_nat (users i O');
  b_frames : frames_ok s' }.

Lemma base_insert sy O t s' O' l b j :
  O' !! b = None -> base sy O t s' O' l -> base sy O t s' (<[b := (j, OHeld t)]> O') ((b, (j, OHeld t)) :: l).
Proof.
  intros Hn [H1 H2 H3 H4 H5 H6 H7]. split; [..|done].
  - intros id q Hq%H1. rewrite lookup_insert_ne; [done|congruence].
  - intros a i id [[_ ?]|[_ Ha]]%lookup_insert_Some; [done|by eapply H2].
  - intros u a i o Hne Hof. rewrite <- (H3 u a i o Hne Hof). destruct (decide (a = b)) as [->|Hab]; [|by rewrite lookup_insert_ne].
    rewrite lookup_insert_eq, Hn. split; [|done]. intros [= <- <-]. destruct Hof; congruence.
  - intros a x. rewrite elem_of_cons, H4. split.
    + intros [[= -> ->]|[Ha Hof]]; [split; [apply lookup_insert_eq|by right]|]. split; [|done]. rewrite lookup_insert_ne; [done|congruence].
    + intros [[[<- <-]|[_ Ha]]%lookup_insert_Some Hof]; auto.
  - done.
  - intros i. rewrite H6. pose proof (users_insert i O' b (j, OHeld t)) as E. rewrite Hn in E. cbn in E.
    rewrite decide_False in E by (intros []; done). f_equal. lia.
Qed.

Lemma base_inv sy O t s' O' l p :
  inv sy O -> base sy O t s' O' l -> allocator s' O' -> pc_ok s' p -> (forall a x, (a, x) ∈ holds t p <-> (a, x) ∈ l) ->
  inv (goto t p s' sy) O'.
Proof. intros I [H1 H2 H3 H4 H5 H6 H7] HA Hok Hl. apply (buddy_inv_goto sy O); try done. intros a x. rewrite Hl. apply H4. Qed.

Lemma base_ends sy O t s' O' out :
  inv sy O -> base sy O t s' O' [] -> ends_with SHIFT SIZES t O' s' out -> exists O'', inv (goto t (pc_of out) s' sy) O''.
Proof.
  intros I B He. destruct out as [|b|b j bud z sp off]; cbn [ends_with] in He.
  - eexists. eapply base_inv; [done|exact B|done|done|]. done.
  - destruct He as [Hn HA]. eexists. eapply base_inv; [done|by apply base_insert|done|done|]. done.
  - destruct He as (Hb & Hz & Hne & Hj & -> & HA). pose proof (base_insert sy O t s' O' [] b j Hb B) as B1.
    rewrite <- (lookup_insert_ne _ b z (j, OHeld t)) in Hz by done. pose proof (base_insert sy O t s' _ _ z j Hz B1) as B2. eexists.
    eapply base_inv; [done|exact B2|done|done|].
    intros a x. cbn [pc_of holds]. rewrite !elem_of_cons, elem_of_nil. tauto.
Qed.

(** A state that differs from the one of [base] in the memory of free blocks
    only. *)
Lemma base_kept sy O t s1 s2 O' O2 l : base sy O t s1 O' l -> kept SHIFT t O2 s1 s2 -> base sy O t s2 O' l.
Proof.
  intros [H1 H2 H3 H4 H5 H6 H7] K. pose proof K as [_ _ Ku _ Kp _].
  split; [by rewrite Kp|by rewrite Kp|done|done| |by rewrite Ku|by eapply kept_frames].
  intros u Hne Hok. eapply pc_ok_pages; [exact Kp|]. by apply H5.
Qed.

Lemma free_good sy O t b i :
  inv sy O -> thread sy t = Owns b i ->
  good sy (let! i := buf_buddy_get_slot SHIFT SIZES (size i) in
           let! (o, s) := free_low_enter SHIFT SIZES b i (st sy) in Ok (goto t (pc_of o) s sy)).
Proof.
  intros I Ht. assert (O !! b = Some (i, OUser t)) as Hb by (apply (i_threads _ _ I t); rewrite Ht; by apply list_elem_of_singleton).
  destruct (allocator_bounds _ _ _ _ _ _ _ (i_alloc _ _ I) Hb) as [Hi _]. rewrite get_slot_ok by done. cbn [rbind].
  unfold free_low_enter. rewrite (proj2 (Nat.leb_le _ _)) by done. cbn [ut_a rbind].
  pose proof (users_delete i O b) as Eu. rewrite Hb in Eu. cbn in Eu. rewrite decide_True in Eu by done.
  pose proof (count_bound _ _ i (i_alloc _ _ I)) as Hcb.
  rewrite (i_used _ _ I), (proj2 (Z.ltb_lt _ _)) by lia. cbn [ut_a rbind]. set (s1 := set_used _ (st sy)).
  assert (allocator s1 (<[b := (i, OHeld t)]> O)) as HA.
  { eapply allocator_owner; [apply (allocator_same SHIFT SIZES (st sy)); try done; apply (i_alloc _ _ I)|exact Hb|done]. }
  destruct (recombine_ok SHIFT SIZES t (SIZES - i) b i s1 _ HA) as (out & s' & E & K & He); [|apply lookup_insert_eq|done|].
  { eapply (pages_in_mono (st sy)); [done| |by apply inv_pages_in]. intros a j id Ha. rewrite lookup_insert_ne; [done|congruence]. }
  rewrite E. cbn [rbind]. rewrite delete_insert_eq in He.
  assert (base sy O t s1 (delete b O) []) as B.
  { split; [..|apply (frames_ok_same (st sy)); [done..|apply (i_frames _ _ I)]].
    - intros id q Hq%(i_pages _ _ I). rewrite lookup_delete_ne; [done|congruence].
    - intros a j id [_ Ha]%lookup_delete_Some. by eapply i_pages_own.
    - intros u a j o Hne Hof. rewrite lookup_delete_Some. split; [tauto|]. intros Ha. split; [|done]. intros <-.
      rewrite Hb in Ha. injection Ha as <- <-. destruct Hof; congruence.
    - intros a [j o]. split; [by intros ?%elem_of_nil|]. intros [[Hne Ha]%lookup_delete_Some Hof].
      pose proof (i_threads_own _ _ I t a j o Ha Hof) as Hin. rewrite Ht in Hin. apply list_elem_of_singleton in Hin. congruence.
    - done.
    - intros j. subst s1. cbn [set_used used]. unfold upd. destruct (decide (i = j)) as [<-|Hne]; [rewrite u64_small; lia|].
      rewrite (i_used _ _ I). pose proof (users_delete j O b) as Ej. rewrite Hb in Ej. cbn in Ej. rewrite decide_False in Ej by tauto. f_equal. lia. }
  destruct (base_ends sy O t s' (delete b O) out I (base_kept _ _ _ _ _ _ _ _ B K) He) as (O' & I').
  eexists _, O'. split; [done|]. split; [done|]. intros id p p' Hp Hp'. change (page_hash s' !! id = Some p') in Hp'.
  rewrite (kp_pages _ _ _ _ _ K) in Hp'. change (page_hash (st sy) !! id = Some p') in Hp'. rewrite Hp in Hp'. injection Hp' as <-. split; [done|]. intros k Hk. unfold content. change (st (goto t (pc_of out) s' sy)) with s'.
  destruct (kp_memory _ _ _ _ _ K (zip_data p + k)) as (-> & -> & -> & _); [|done].
  pose proof (i_pages _ _ I id p Hp) as Hpg. eexists _, _, _. split; [rewrite lookup_insert_ne; [exact Hpg|congruence]|]. split; [done|].
  unfold BuddyTiling.inside. lia.
Qed.

Lemma holds_iff sy O t a x : inv sy O -> (a, x) ∈ holds t (thread sy t) <-> O !! a = Some x /\ of_thread t x.2.
Proof.
  intros I. split.
  - intros Hin. split; [by eapply i_threads|]. clear -Hin. unfold of_thread. destruct (thread sy t); simpl in Hin; set_solver.
  - destruct x as [i o]. intros [Ha Ho]. by apply (i_threads_own _ _ I).
Qed.

Lemma look_good sy O t buf i bud z sp off :
  inv sy O -> thread sy t = RelocLook buf i bud z sp off ->
  good sy (let! ok := relocatable (st sy) i bud sp off in
           Ok (goto t (if ok : bool then RelocCopy buf i bud z (sp, off) else RelocFail buf i z) (st sy) sy)).
Proof.
  intros I Ht. pose proof (i_pc _ _ I t) as Hok. rewrite Ht in Hok. destruct Hok as (Hi & -> & Hne).
  assert (O !! buf = Some (i, OHeld t)) as Hb by (apply (i_threads _ _ I t); rewrite Ht; simpl; set_solver).
  assert (forall p, pc_ok (st sy) p -> (forall a x, (a, x) ∈ holds t p <-> (a, x) ∈ holds t (thread sy t)) ->
    good sy (Ok (goto t p (st sy) sy))) as Hgo.
  { intros p Hok Hh. eexists _, O. split; [done|]. split; [|by apply pages_kept_eq]. apply (buddy_inv_local sy O); try done; [apply (i_alloc _ _ I)|apply (i_frames _ _ I)| |apply (i_used _ _ I)].
    intros a x. rewrite Hh. by apply holds_iff. }
  unfold relocatable. destruct (page_hash (st sy) !! (sp, off)) as [p|] eqn:Ep; [|apply Hgo; [done|by rewrite Ht]].
  destruct (Nat.eqb_spec (zip_data p) (buddy SHIFT i buf)) as [Ed|]; cbn [negb]; [|apply Hgo; [done|by rewrite Ht]].
  destruct (Nat.eqb_spec (zip_level p) i) as [El|Hlv]; cbn [negb rbind].
  - apply Hgo; [|by rewrite Ht]. split_and!; [done..|]. by exists p.
  - pose proof (i_pages _ _ I _ _ Ep) as Hp. rewrite Ed in Hp.
    destruct (is_free_exact _ _ _ _ _ _ _ (i_alloc _ _ I) Hb Hi) as (bs & _ & Hbs).
    assert (zip_level p <= i) as Hle.
    { destruct bs; simpl in Hbs.
      - destruct Hbs as (M & _ & EO & HM). rewrite <- EO in Hp. apply owned_lookup in Hp as [Hp _]. congruence.
      - destruct Hbs as (j & o & Hj & Hle). congruence.
      - destruct Hbs as (M & j & _ & EO & HM & _). rewrite <- EO in Hp. apply owned_lookup in Hp as [Hp _]. congruence. }
    rewrite (proj2 (Nat.ltb_lt _ _)) by lia. cbn [ut_a rbind]. apply Hgo; [done|by rewrite Ht].
Qed.

(** A thread gives its two blocks back. *)
Lemma base_forget sy O t b i z :
  inv sy O -> (forall a x, (a, x) ∈ holds t (thread sy t) <-> (a, x) = (b, (i, OHeld t)) \/ (a, x) = (z, (i, OHeld t))) ->
  base sy O t (st sy) (delete b (delete z O)) [].
Proof.
  intros I Hh. assert (O !! b = Some (i, OHeld t) /\ O !! z = Some (i, OHeld t)) as [Hb Hz].
  { split; apply (i_threads _ _ I t), Hh; auto. }
  split; [..|apply (i_frames _ _ I)].
  - intros id q Hq%(i_pages _ _ I). rewrite !lookup_delete_ne by congruence. done.
  - intros a j id [_ [_ Ha]%lookup_delete_Some]%lookup_delete_Some. by eapply i_pages_own.
  - intros u a j o Hne Hof. rewrite !lookup_delete_Some. split; [tauto|]. intros Ha.
    split; [|split; [|done]]; intros <-; [rewrite Hb in Ha|rewrite Hz in Ha]; injection Ha as <- <-; destruct Hof; congruence.
  - intros a [j o]. split; [by intros ?%elem_of_nil|]. intros [[H1 [H2 Ha]%lookup_delete_Some]%lookup_delete_Some Hof].
    pose proof (i_threads_own _ _ I t a j o Ha Hof) as Hin. apply Hh in Hin as [|]; congruence.
  - done.
  - intros j. rewrite (i_used _ _ I). pose proof (users_delete j O z) as E1. pose proof (users_delete j (delete z O) b) as E2.
    rewrite Hz in E1. cbn in E1. rewrite decide_False in E1 by (intros []; done).
    destruct (delete z O !! b) as [[k o]|] eqn:E.
    + apply lookup_delete_Some in E as [_ E]. rewrite Hb in E. injection E as <- <-. cbn in E2. rewrite decide_False in E2 by (intros []; done).
      f_equal. lia.
    + cbn in E2. f_equal. lia.
Qed.

(** The failure of a relocation, from its two places. *)
Lemma failed_good sy O t buf i z :
  inv sy O -> (forall a x, (a, x) ∈ holds t (thread sy t) <-> (a, x) = (buf, (i, OHeld t)) \/ (a, x) = (z, (i, OHeld t))) ->
  i < SIZES -> buf <> z ->
  good sy (let! (o, s) := relocate_failed SIZES buf i z (st sy) in Ok (goto t (pc_of o) s sy)).
Proof.
  intros I Hh Hi Hne. assert (O !! buf = Some (i, OHeld t) /\ O !! z = Some (i, OHeld t)) as [Hb Hz].
  { split; apply (i_threads _ _ I t), Hh; auto. }
  unfold relocate_failed. destruct (allocator_add SHIFT SIZES t (st sy) O z i (i_alloc _ _ I) Hz Hi) as (s1 & -> & K1 & HA1). cbn [rbind].
  destruct (func_exit_ok SHIFT SIZES t s1 (delete z O) buf i HA1) as (s2 & -> & K2 & HA2); [by rewrite lookup_delete_ne|done|]. cbn [rbind].
  assert (kept SHIFT t O (st sy) s2) as K.
  { eapply kept_trans; [|exact K1|exact K2]. intros x. apply others_delete. rewrite Hz. by intros j o [= _ <-]. }
  destruct (base_ends sy O t s2 _ Freed I (base_kept _ _ _ _ _ _ _ _ (base_forget sy O t buf i z I Hh) K) HA2) as (O' & I').
  eexists _, O'. split; [done|]. split; [done|]. by apply (kept_pages sy O t s2 I K).
Qed.

(** ** Relocation *)

Lemma copy_links_lookup dst src n m x : ~ (dst <= x < dst + n) -> copy_links dst src n m !! x = m !! x.
Proof. intros Hx. unfold copy_links. rewrite map_lookup_imap. destruct (m !! x); [|done]. simpl. by rewrite decide_False. Qed.

Lemma copy_links_dom dst src n m : dom (copy_links dst src n m) = dom m.
Proof.
  apply set_eq. intros x. rewrite !elem_of_dom. unfold copy_links. rewrite map_lookup_imap. destruct (m !! x); simpl; [|done].
  by rewrite !is_Some_alt.
Qed.

(** The copy and the new place of the page. *)
Definition moved (z bud i : nat) (id : Z * Z) (p : zip_page) (s : state) : state :=
  let s := copy_block z bud (size i) s in
  let s := set_page_hash (<[id := mkZip z (zip_level p) (zip_fixed p)]> (page_hash s)) s in
  set_relocated (upd (relocated s) i (u64 (relocated s i + 1))) s.

Definition moved_blocks (z bud i : nat) (id : Z * Z) (t : nat) (O : blocks) : blocks :=
  <[z := (i, OPage id)]> (<[bud := (i, OHeld t)]> O).

Section move.
Context (sy : sys) (O : blocks) (t buf i z : nat) (id : Z * Z) (p : zip_page).
Context (I : inv sy O) (Ht : thread sy t = RelocCopy buf i (buddy SHIFT i buf) z id)
  (Hp : page_hash (st sy) !! id = Some p) (Hd : zip_data p = buddy SHIFT i buf) (Hl : zip_level p = i) (Hi : i < SIZES) (Hne : buf <> z).
Notation bud := (buddy SHIFT i buf).
Notation s1 := (moved z bud i id p (st sy)).
Notation O1 := (moved_blocks z bud i id t O).

Lemma move_blocks : O !! buf = Some (i, OHeld t) /\ O !! z = Some (i, OHeld t) /\ O !! bud = Some (i, OPage id).
Proof using I Ht Hp Hd Hl Hi Hne.
  split_and!; [apply (i_threads _ _ I t); rewrite Ht; simpl; set_solver..|].
  pose proof (i_pages _ _ I id p Hp) as Hpg. by rewrite Hd, Hl in Hpg.
Qed.

Lemma move_allocator : allocator s1 O1.
Proof using I Ht Hp Hd Hl Hi Hne.
  destruct move_blocks as (Hb & Hz & Hbud). unfold moved_blocks.
  assert (allocator s1 O) as HA.
  { eapply (allocator_write SHIFT SIZES (st sy)); [apply (i_alloc _ _ I)|exact Hz| | |apply copy_links_dom|done|done].
    - intros x Hx. unfold moved. simpl. unfold copy_words. rewrite !decide_False by exact Hx. split_and!; [done..|]. by apply copy_links_lookup.
    - unfold moved. simpl. unfold copy_words. pose proof (block_size_pos SHIFT i). rewrite decide_True by lia.
      rewrite Nat.sub_diag, Nat.add_0_r. by apply (allocator_space _ _ _ _ _ _ _ (i_alloc _ _ I) Hbud). }
  eapply allocator_owner; [eapply allocator_owner; [exact HA|exact Hbud|done]| |done]. rewrite lookup_insert_ne; [exact Hz|congruence].
Qed.

Lemma move_base : base sy O t s1 (delete bud (delete buf O1)) [].
Proof using I Ht Hp Hd Hl Hi Hne.
  destruct move_blocks as (Hb & Hz & Hbud). pose proof (allocator_bounds _ _ _ _ _ _ _ (i_alloc _ _ I) Hb) as [_ Hal].
  assert (bud <> buf /\ z <> bud) as [N1 N2] by (split; congruence).
  assert (forall a x, delete bud (delete buf O1) !! a = Some x <->
    a <> bud /\ a <> buf /\ ((a = z /\ x = (i, OPage id)) \/ (a <> z /\ O !! a = Some x))) as Hlk.
  { intros a x. rewrite !lookup_delete_Some. unfold moved_blocks. rewrite !lookup_insert_Some. naive_solver. }
  split; [..|apply (frames_ok_same (st sy)); [done..|apply (i_frames _ _ I)]].
  - intros id' q. unfold moved. simpl. intros [[<- <-]|[Hid Hq]]%lookup_insert_Some; apply Hlk; simpl.
    + rewrite Hl. split_and!; [done..|by left].
    + apply (i_pages _ _ I) in Hq. split; [congruence|]. split; [congruence|]. right. split; [congruence|done].
  - intros a j id' (A1 & A2 & [[-> [= -> ->]]|[A3 Ha]])%Hlk; unfold moved; simpl.
    + eexists. split; [apply lookup_insert_eq|done].
    + destruct (i_pages_own _ _ I _ _ _ Ha) as (q & Hq & Eq). exists q. split; [|done]. rewrite lookup_insert_ne; [done|].
      intros <-. rewrite Hp in Hq. injection Hq as <-. congruence.
  - intros u a j o Hu Hof. rewrite Hlk. split; [intros (_ & _ & [[_ [= _ ->]]|[_ Ha]]); [by destruct Hof|done]|].
    intros Ha. assert (forall k, O !! a <> Some (k, OHeld t)) as Hnt by (intros k Hk; destruct Hof; congruence).
    assert (a <> bud) as A1 by (intros ->; destruct Hof; congruence).
    split; [done|]. split; [intros ->; by eapply Hnt|]. right. split; [intros ->; by eapply Hnt|done].
  - intros a [j o]. split; [by intros ?%elem_of_nil|]. intros [(A1 & A2 & [[_ [= _ ->]]|[A3 Ha]])%Hlk Hof]; [by destruct Hof|].
    pose proof (i_threads_own _ _ I t a j o Ha Hof) as Hin. rewrite Ht in Hin. simpl in Hin. set_solver.
  - intros u Hu Hok. assert (forall b' z', thread sy u <> RelocCopy b' i bud z' id) as Hno.
    { intros b' z' Eu. pose proof (i_pc _ _ I u) as Hu'. rewrite Eu in Hu'. destruct Hu' as (_ & Eb & _).
      assert (O !! b' = Some (i, OHeld u)) as Hb' by (apply (i_threads _ _ I u); rewrite Eu; simpl; set_solver).
      pose proof (allocator_bounds _ _ _ _ _ _ _ (i_alloc _ _ I) Hb') as [_ Hal'].
      assert (b' = buf) as -> by (rewrite <- (buddy_involutive SHIFT i b'), <- (buddy_involutive SHIFT i buf) by done; by rewrite Eb). congruence. }
    destruct (thread sy u) as [| | | | |b' i' bud' z' id'| |] eqn:Eu; try done.
    destruct Hok as (K1 & K2 & K3 & q & Hq & Eq & El). split_and!; [done..|]. exists q. split; [|done]. unfold moved. simpl.
    rewrite lookup_insert_ne; [done|]. intros <-. rewrite Hp in Hq. injection Hq as <-. apply (Hno b' z'). congruence.
  - intros j. unfold moved. simpl. rewrite (i_used _ _ I). f_equal. unfold moved_blocks.
    pose proof (users_insert j O bud (i, OHeld t)) as U1. pose proof (users_insert j (<[bud := (i, OHeld t)]> O) z (i, OPage id)) as U2.
    pose proof (users_delete j O1 buf) as U3. pose proof (users_delete j (delete buf O1) bud) as U4. unfold moved_blocks in *.
    rewrite Hbud in U1. rewrite lookup_insert_ne, Hz in U2 by done.
    rewrite !lookup_insert_ne, Hb in U3 by done. rewrite lookup_delete_ne, lookup_insert_ne, lookup_insert_eq in U4 by done.
    cbn [contributes in_use] in *. rewrite !(decide_False (P := i = j /\ False)) in * by tauto.
    destruct (decide (i = j /\ True)); lia.
Qed.

Lemma move_pages s' O2 :
  kept SHIFT t O2 s1 s' -> (forall x, others SHIFT t O1 x -> others SHIFT t O2 x) -> pages_kept (st sy) s'.
Proof using I Ht Hp Hd Hl Hi Hne.
  intros K Hoth id' q q' Hq Hq'. destruct move_blocks as (Hb & Hz & Hbud). rewrite (kp_pages _ _ _ _ _ K) in Hq'. unfold moved in Hq'. simpl in Hq'.
  assert (forall a k, others SHIFT t O1 (a + k) -> content s' a k = content s1 a k) as Hk.
  { intros a k Ho. unfold content. by destruct (kp_memory _ _ _ _ _ K (a + k) (Hoth _ Ho)) as (-> & -> & -> & _). }
  destruct (decide (id = id')) as [<-|Hid].
  - rewrite lookup_insert_eq in Hq'. injection Hq' as <-. rewrite Hp in Hq. injection Hq as <-. split; [done|]. cbn [zip_data]. rewrite Hl, Hd.
    intros k Hlt. rewrite Hk.
    + unfold content, moved. simpl. unfold copy_words. rewrite !decide_True by lia. by replace (z + k - z) with k by lia.
    + exists z, i, (OPage id). split; [apply lookup_insert_eq|]. split; [done|]. unfold BuddyTiling.inside. lia.
  - rewrite lookup_insert_ne in Hq' by done. rewrite Hq in Hq'. injection Hq' as <-. split; [done|].
    pose proof (i_pages _ _ I _ _ Hq) as Hpq. intros k Hlt.
    assert (inside (zip_data q) (zip_level q) (zip_data q + k)) as Hin by (unfold BuddyTiling.inside; lia). rewrite Hk.
    + assert (~ inside z i (zip_data q + k)) as Hx.
      { intros Hx. pose proof (allocator_apart _ _ _ _ _ _ _ _ _ _ _ (i_alloc _ _ I) Hpq Hz Hin Hx) as Ez. rewrite Ez in Hpq. congruence. }
      unfold content, moved. simpl. unfold copy_words. by rewrite !decide_False by exact Hx.
    + exists (zip_data q), (zip_level q), (OPage id'). split; [|done]. unfold moved_blocks. rewrite !lookup_insert_ne by congruence. done.
Qed.
End move.

Lemma copy_good sy O t buf i bud z id :
  inv sy O -> thread sy t = RelocCopy buf i bud z id ->
  good sy (let! (o, s) := relocate_copy SHIFT SIZES buf i bud z id (st sy) in Ok (goto t (pc_of o) s sy)).
Proof.
  intros I Ht. pose proof (i_pc _ _ I t) as Hok. rewrite Ht in Hok. destruct Hok as (Hi & -> & Hne & p & Hp & Hd & Hl).
  unfold relocate_copy. rewrite Hp. cbn [deref rbind]. destruct (zip_fixed p) eqn:Ef; cbn [negb].
  { apply (failed_good sy O); [done| |done|done]. intros a x. rewrite Ht. simpl. set_solver. }
  rewrite Hd, Nat.eqb_refl. cbn [ut_a rbind]. pose proof (move_allocator sy O t buf i z id p I Ht Hp Hd Hl Hi Hne) as HA.
  pose proof (move_base sy O t buf i z id p I Ht Hp Hd Hl Hi Hne) as B.
  pose proof (move_blocks sy O t buf i z id p I Ht Hp Hd Hl Hi Hne) as (Hb & Hz & Hbud).
  unfold buf_buddy_mem_invalid. rewrite (proj2 (Nat.leb_le i SIZES)) by lia. cbn [ut_a rbind].
  rewrite <- Ef. fold (moved z (buddy SHIFT i buf) i id p (st sy)).
  set (s1 := moved z (buddy SHIFT i buf) i id p (st sy)) in *. set (O1 := moved_blocks z (buddy SHIFT i buf) i id t O) in *.
  destruct HA as (M & C & EO).
  assert (O1 !! buf = Some (i, OHeld t)) as Hb1 by (subst O1; unfold moved_blocks; rewrite !lookup_insert_ne by congruence; done).
  assert (M !! buddy SHIFT i buf = Some (i, OHeld t)) as HMb.
  { assert (O1 !! buddy SHIFT i buf = Some (i, OHeld t)) as H1 by (subst O1; unfold moved_blocks; rewrite lookup_insert_ne by congruence; apply lookup_insert_eq).
    rewrite <- EO in H1. by apply owned_lookup in H1 as [H1 _]. }
  assert (pages_in s1 O1) as HP1.
  { intros id' q Hq%(b_pages _ _ _ _ _ _ B). exists (zip_level q). by apply lookup_delete_Some in Hq as [_ [_ Hq]%lookup_delete_Some]. }
  assert (O1 !! buddy SHIFT i buf = Some (i, OHeld t)) as Hbud1 by (rewrite <- EO; by apply owned_lookup).
  rewrite (contains_zip_false s1 O1 (buddy SHIFT i buf) HP1) by congruence. cbn [negb ut_a rbind].
  destruct (join_ok SHIFT SIZES t s1 O1 M buf i C EO Hb1 Hi HMb) as (O2 & HA2 & Hc & Ed & Hoth & Hpg).
  rewrite align_down_floor.
  destruct (recombine_ok SHIFT SIZES t _ _ (S i) s1 O2 HA2 (pages_in_mono s1 s1 O1 O2 eq_refl Hpg HP1) Hc eq_refl) as (out & s2 & -> & K & He). cbn [rbind]. rewrite Ed in He.
  destruct (base_ends sy O t s2 _ out I (base_kept _ _ _ _ _ _ _ _ B K) He) as (O' & I').
  eexists _, O'. split; [done|]. split; [done|].
  by apply (move_pages sy O t buf i z id p I Ht Hp Hd Hl Hi Hne s2 O2 K Hoth).
Qed.

(** ** The users of compressed pages *)

(** A block changes hands between a thread and the page hash. *)
Lemma inv_handover sy O t a i o o' id v p :
  inv sy O -> O !! a = Some (i, o) -> in_use o -> in_use o' -> unlatched sy id ->
  (o = OPage id /\ o' = OUser t /\ v = None \/ o = OUser t /\ o' = OPage id /\ (exists fixed, v = Some (mkZip a i fixed))) ->
  (o = OUser t -> page_hash (st sy) !! id = None) ->
  (forall b x, (b, x) ∈ holds t p <-> <[a := (i, o')]> O !! b = Some x /\ of_thread t x.2) ->
  pc_ok (st sy) p -> (forall b j bud z id', p <> RelocCopy b j bud z id') ->
  inv (goto t p (set_page_hash (partial_alter (fun _ => v) id (page_hash (st sy))) (st sy)) sy) (<[a := (i, o')]> O).
Proof.
  intros I Ha Ho Ho' Hul Hcase Hnone Hh Hok Hpc. set (s' := set_page_hash _ _).
  assert (forall id', id' <> id -> page_hash s' !! id' = page_hash (st sy) !! id') as Hoth.
  { intros id' Hne. subst s'. simpl. by rewrite lookup_partial_alter_ne by congruence. }
  assert (page_hash s' !! id = v) as Hid by (subst s'; simpl; by rewrite lookup_partial_alter_eq).
  assert (forall q, page_hash (st sy) !! id = Some q -> zip_data q = a) as Hold.
  { intros q Hq. destruct Hcase as [(-> & _)|(-> & _)]; [|by rewrite Hnone in Hq].
    destruct (i_pages_own _ _ I _ _ _ Ha) as (q' & Hq' & <-). congruence. }
  apply (buddy_inv_goto sy O); try done.
  - eapply allocator_owner; [apply (allocator_same _ _ (st sy)); try done; apply (i_alloc _ _ I)|exact Ha|by intros ->].
  - apply (frames_ok_same (st sy)); [done..|apply (i_frames _ _ I)].
  - intros id' q Hq. destruct (decide (id' = id)) as [->|Hne].
    + rewrite Hid in Hq. destruct Hcase as [(_ & _ & ->)|(_ & -> & f & ->)]; [done|]. injection Hq as <-. apply lookup_insert_eq.
    + rewrite Hoth in Hq by done. apply (i_pages _ _ I) in Hq. rewrite lookup_insert_ne; [done|]. intros E. rewrite <- E, Ha in Hq.
      destruct Hcase as [(-> & _)|(-> & _)]; congruence.
  - intros b j id' [[<- [= <- ->]]|[Hne Hb]]%lookup_insert_Some.
    + destruct Hcase as [(_ & ? & _)|(_ & [= ->] & f & Ev)]; [done|]. exists (mkZip a i f). by rewrite Hid, Ev.
    + destruct (i_pages_own _ _ I _ _ _ Hb) as (q & Hq & Eq). exists q. split; [|done]. rewrite Hoth; [done|]. intros ->.
      apply Hold in Hq. congruence.
  - intros u b j p' Hu Hof. destruct (decide (a = b)) as [<-|Hne]; [|by rewrite lookup_insert_ne].
    rewrite lookup_insert_eq, Ha. destruct Hcase as [(-> & -> & _)|(-> & -> & _)]; split; intros [= <- <-]; destruct Hof; congruence.
  - intros u _ Hu. destruct (thread sy u) as [| | | | |b j bud z id'| |] eqn:Eu; try done. destruct Hu as (K1 & K2 & K3 & q & Hq & Eq).
    split_and!; [done..|]. exists q. split; [|done]. rewrite Hoth; [done|]. intros ->. by apply (Hul u b j bud z).
  - destruct p as [| | | | |b j bud z id'| |]; try done. by destruct (Hpc b j bud z id').
  - intros j. subst s'. cbn [set_page_hash used]. rewrite (i_used _ _ I). pose proof (users_insert j O a (i, o')) as U. rewrite Ha in U.
    cbn [contributes] in U. f_equal. destruct (decide (i = j /\ in_use o)), (decide (i = j /\ in_use o')); try lia; tauto.
Qed.

Lemma attach_good sy O t b i id fixed :
  inv sy O -> thread sy t = Owns b i -> page_hash (st sy) !! id = None -> unlatched sy id ->
  good sy (Ok (goto t Out (set_page_hash (<[id := mkZip b i fixed]> (page_hash (st sy))) (st sy)) sy)).
Proof.
  intros I Ht Hn Hul. assert (O !! b = Some (i, OUser t)) as Hb by (apply (i_threads _ _ I t); rewrite Ht; by apply list_elem_of_singleton).
  eexists _, _. split; [done|]. split; [apply (inv_handover sy O t b i (OUser t) (OPage id) id (Some (mkZip b i fixed))); try done|].
  - right. split_and!; [done..|by eexists].
  - intros a [j o]. simpl. split; [by intros ?%elem_of_nil|]. intros [[[_ [= _ <-]]|[Hne Ha]]%lookup_insert_Some Hof]; [by destruct Hof|].
    pose proof (i_threads_own _ _ I t a j o Ha Hof) as Hin. rewrite Ht in Hin. apply list_elem_of_singleton in Hin. congruence.
  - apply pages_kept_same; [done..|]. simpl. intros id' p p' Hp Hp'. rewrite lookup_insert_ne in Hp' by congruence. by simplify_eq.
Qed.

Lemma detach_good sy O t id p :
  inv sy O -> thread sy t = Out -> page_hash (st sy) !! id = Some p -> unlatched sy id ->
  good sy (Ok (goto t (Owns (zip_data p) (zip_level p)) (set_page_hash (delete id (page_hash (st sy))) (st sy)) sy)).
Proof.
  intros I Ht Hp Hul. pose proof (i_pages _ _ I id p Hp) as Hb.
  eexists _, _. split; [done|]. split; [apply (inv_handover sy O t (zip_data p) (zip_level p) (OPage id) (OUser t) id None); try done|].
  - by left.
  - intros a [j o]. simpl. rewrite list_elem_of_singleton. split.
    + intros [= -> -> ->]. split; [apply lookup_insert_eq|by left].
    + intros [[[<- [= <- <-]]|[_ Ha]]%lookup_insert_Some Hof]; [done|]. assert (holds t (thread sy t) = []) as Hh by by rewrite Ht.
      by eapply owns_nothing in Hof.
  - apply pages_kept_same; [done..|]. simpl. intros id' q q' Hq [_ Hq']%lookup_delete_Some. by simplify_eq.
Qed.

Lemma fix_good sy O id p fixed :
  inv sy O -> page_hash (st sy) !! id = Some p -> unlatched sy id ->
  good sy (Ok (mkSys (set_page_hash (<[id := mkZip (zip_data p) (zip_level p) fixed]> (page_hash (st sy))) (st sy)) (thread sy))).
Proof.
  intros I Hp Hul. eexists _, O. split; [done|]. split.
  - split; simpl; [apply (allocator_same _ _ (st sy)); try done; apply (i_alloc _ _ I)| | |apply (i_threads _ _ I)|apply (i_threads_own _ _ I)| |apply (i_used _ _ I)|apply (frames_ok_same (st sy)); [done..|apply (i_frames _ _ I)]].
    + intros id' q [[<- <-]|[_ Hq]]%lookup_insert_Some; simpl; by apply (i_pages _ _ I).
    + intros a i id' Ha. destruct (i_pages_own _ _ I _ _ _ Ha) as (q & Hq & Eq). destruct (decide (id = id')) as [<-|Hne].
      * eexists. split; [apply lookup_insert_eq|]. simpl. congruence.
      * exists q. by rewrite lookup_insert_ne.
    + intros u. pose proof (i_pc _ _ I u) as Hu. destruct (thread sy u) as [| | | | |b j bud z id'| |] eqn:Eu; try done.
      destruct Hu as (K1 & K2 & K3 & q & Hq & Eq). split_and!; [done..|]. exists q. split; [|done]. simpl.
      rewrite lookup_insert_ne; [done|]. intros ->. by apply (Hul u b j bud z).
  - apply pages_kept_same; [done..|]. simpl. intros id' q q' Hq [[<- <-]|[_ Hq']]%lookup_insert_Some; simpl; by simplify_eq.
Qed.

Lemma write_inv sy O b i s' : inv sy O -> block_of sy b i -> writes SHIFT b i (st sy) s' -> inv (mkSys s' (thread sy)) O.
Proof.
  intros I Hb W. assert (exists o, O !! b = Some (i, o)) as [o Ho].
  { destruct Hb as [[t Ht]|(id & p & Hp & <- & <-)]; [|exists (OPage id); by apply (i_pages _ _ I)].
    exists (OUser t). apply (i_threads _ _ I t). rewrite Ht. by apply list_elem_of_singleton. }
  split; simpl; rewrite ?(wr_pages _ _ _ _ _ W); [|apply (i_pages _ _ I)|apply (i_pages_own _ _ I)|apply (i_threads _ _ I)|apply (i_threads_own _ _ I)| | |].
  - eapply (allocator_write _ _ (st sy)); [apply (i_alloc _ _ I)|exact Ho| |apply W..|apply (wr_frames _ _ _ _ _ W)].
    intros x Hx. destruct (wr_words _ _ _ _ _ W x Hx) as (-> & _ & -> & ->). done.
  - intros u. eapply pc_ok_pages; [apply (wr_pages _ _ _ _ _ W)|apply (i_pc _ _ I)].
  - rewrite (wr_used _ _ _ _ _ W). apply (i_used _ _ I).
  - destruct (wr_frames _ _ _ _ _ W) as (E1 & E2). by apply (frames_ok_same (st sy)); [..|apply (i_frames _ _ I)].
Qed.

(** What the buffer pool does with a frame that the allocator does not have. *)
Lemma frames_good sy O f block :
  inv sy O -> f ∉ zip_hash (st sy) ->
  good sy (Ok (mkSys (set_frames (<[f := block]> (frames (st sy))) (buddy_n_frames (st sy)) (st sy)) (thread sy))).
Proof.
  intros I Hf. eexists _, O. split; [done|]. split; [|by apply pages_kept_eq].
  split; simpl; [apply (allocator_same _ _ (st sy)); try done; apply (i_alloc _ _ I)|apply I..|].
  destruct (i_frames _ _ I) as [H1 H2]. split; [|done]. intros g Hg. simpl. rewrite lookup_insert_ne by (intros <-; done). by apply H1.
Qed.

(** ** Every transition *)

Lemma buddy_step_inv sy O r :
  inv sy O -> sys_step sy r -> exists sy' O', r = Ok sy' /\ inv sy' O' /\
    (pages_kept (st sy) (st sy') \/ exists b i, block_of sy b i /\ writes SHIFT b i (st sy) (st sy')).
Proof.
  intros I Hst. assert (good sy r -> exists sy' O', r = Ok sy' /\ inv sy' O' /\
    (pages_kept (st sy) (st sy') \/ exists b i, block_of sy b i /\ writes SHIFT b i (st sy) (st sy'))) as Hg.
  { intros (sy' & O' & E & I' & K). exists sy', O'. auto. }
  destruct Hst as [t i Ht Hi|t i f Ht Hf|t f i Ht|t b i Ht|t b i bud z sp off Ht Hul|t b i bud z id Ht|t b i z Ht|t b Ht|
    t b i id fixed Ht Hn Hul|t id p Ht Hp Hul|id p fixed Hp Hul|f block Hf|b i s' Hb W].
  - by apply Hg, (alloc_good sy O).
  - by apply Hg, (frame_good sy O).
  - by apply Hg, (alloc_from_good sy O).
  - by apply Hg, (free_good sy O).
  - by apply Hg, (look_good sy O).
  - by apply Hg, (copy_good sy O).
  - apply Hg, (failed_good sy O); [done| |pose proof (i_pc _ _ I t) as Hok; rewrite Ht in Hok; apply Hok..].
    intros a x. rewrite Ht. simpl. set_solver.
  - by apply Hg, (block_free_good sy O).
  - by apply Hg, (attach_good sy O).
  - by apply Hg, (detach_good sy O).
  - by apply Hg, (fix_good sy O).
  - by apply Hg, (frames_good sy O).
  - exists (mkSys s' (thread sy)), O. split; [done|]. split; [by eapply write_inv|]. right. by exists b, i.
Qed.

Lemma buddy_init_inv m w o z : (Z.of_nat (base.size m) + 1 < 2 ^ 64)%Z -> inv (init m w o z) ∅.
Proof.
  intros Hm. split; simpl; try done.
  - exists ∅. split; [|done]. split; simpl; try done.
    intros i Hi. exists []. split; [apply (ut_list_init_rep m)|]. intros a. rewrite lookup_empty. split; [by intros ?%elem_of_nil|done].
  - intros t a x Hin. by apply elem_of_nil in Hin.
Qed.

Lemma buddy_reachable_inv m w o z sy : (Z.of_nat (base.size m) + 1 < 2 ^ 64)%Z -> rtc step (init m w o z) sy -> exists O, inv sy O.
Proof.
  intros Hm Hr. apply (rtc_invariant step (fun sy => exists O, inv sy O) (init m w o z)); [by exists ∅; apply buddy_init_inv| |done].
  intros s1 s2 [O I] Hst. destruct (buddy_step_inv s1 O _ I Hst) as (sy' & O' & [= <-] & I' & _). by exists O'.
Qed.

(** ** What the allocator guarantees *)

Inductive user := Page (id : Z * Z) | Thread (t : nat).

(** A block in use, by a page or by a thread. *)
Definition has_block (sy : sys) (u : user) (a i : nat) : Prop :=
  match u with
  | Page id => exists p, page_hash (st sy) !! id = Some p /\ zip_data p = a /\ zip_level p = i
  | Thread t => exists o, (a, (i, o)) ∈ holds t (thread sy t)
  end.

Definition on_free_list (sy : sys) (a i : nat) : Prop := i < SIZES /\ exists xs, rep (free_list (st sy) i) xs /\ a ∈ xs.

Definition is_block (sy : sys) (b : nat * nat) : Prop := on_free_list sy b.1 b.2 \/ exists u, has_block sy u b.1 b.2.

Lemma rep_unique l xs ys : rep l xs -> rep l ys -> xs = ys.
Proof.
  intros H1 H2. pose proof (ut_list_map_rep _ _ H1) as E1. pose proof (ut_list_map_rep _ _ H2) as E2. congruence.
Qed.

Lemma free_list_iff s M sy a i : core SHIFT SIZES [] s M -> st sy = s -> on_free_list sy a i <-> M !! a = Some (i, OFree).
Proof.
  intros C <-. split.
  - intros (Hi & xs & Hr & Ha). destruct (k_lists _ _ _ _ _ C i Hi) as (ys & Hr' & Hy). rewrite (rep_unique _ _ _ Hr Hr') in Ha. by apply Hy.
  - intros Ha. destruct (k_free _ _ _ _ _ C a i Ha) as (Hi & _). split; [done|]. destruct (k_lists _ _ _ _ _ C i Hi) as (ys & Hr & Hy).
    exists ys. split; [done|]. by apply Hy.
Qed.

(** The owner of the blocks of a user. *)
Definition owner_of (u : user) (o : owner) : Prop := match u with Page id => o = OPage id | Thread t => of_thread t o end.

Lemma has_block_iff sy O u a i : inv sy O -> has_block sy u a i <-> exists o, O !! a = Some (i, o) /\ owner_of u o.
Proof.
  intros I. destruct u as [id|t]; simpl.
  - split.
    + intros (p & Hp & <- & <-). exists (OPage id). split; [by apply (i_pages _ _ I)|done].
    + intros (o & Ha & ->). destruct (i_pages_own _ _ I _ _ _ Ha) as (p & Hp & <-). exists p. split; [done|]. split; [done|].
      apply (i_pages _ _ I) in Hp. rewrite Ha in Hp. by injection Hp.
  - split; intros (o & Ho); exists o; [|by eapply holds_iff]. by apply (holds_iff sy O t a (i, o)).
Qed.

Lemma in_use_iff sy O M a i : inv sy O -> owned M = O -> (exists u, has_block sy u a i) <-> exists o, M !! a = Some (i, o) /\ o <> OFree.
Proof.
  intros I EO. split.
  - intros (u & Hu). apply (has_block_iff _ O) in Hu as (o & Ha & _); [|done]. exists o. rewrite <- EO in Ha. by apply owned_lookup.
  - intros (o & Ha & Ho). assert (O !! a = Some (i, o)) as HO by (rewrite <- EO; by apply owned_lookup).
    destruct o as [|t|id|t]; [done|exists (Thread t)|exists (Page id)|exists (Thread t)]; apply (has_block_iff _ O); try done;
      (eexists; split; [exact HO|]); [by left|done|by right].
Qed.

Lemma is_block_iff sy O M b : inv sy O -> core SHIFT SIZES [] (st sy) M -> owned M = O -> is_block sy b <-> exists o, M !! b.1 = Some (b.2, o).
Proof.
  intros I C EO. unfold is_block. rewrite (free_list_iff _ M sy) by done. rewrite (in_use_iff sy O M) by done. split.
  - intros [Hf|(o & Ha & _)]; eauto.
  - intros (o & Ha). destruct (decide (o = OFree)) as [->|Ho]; [by left|right; eauto].
Qed.

(** ** Progress *)

#[export] Instance pc_eq_dec : EqDecision pc.
Proof. solve_decision. Defined.

(** A thread in a call of the allocator, also while it waits for a frame. *)
Definition in_allocator (p : pc) : Prop :=
  match p with Out | Owns _ _ => False | _ => True end.
#[export] Instance in_allocator_dec p : Decision (in_allocator p).
Proof. destruct p; simpl; apply _. Defined.

(** At most this many critical sections remain. *)
Definition remaining (p : pc) : nat :=
  match p with
  | Out | Owns _ _ => 0
  | NeedFrame _ => 2
  | AllocFrom _ _ | RelocFail _ _ _ | BlockFree _ => 1
  | RelocLook _ j _ _ _ _ => 3 * (SIZES - j) + 1
  | RelocCopy _ j _ _ _ => 3 * (SIZES - j)
  end.

(** The level of the block that a call allocates; none when it frees one. *)
Definition wanted (p : pc) : option nat :=
  match p with NeedFrame i | AllocFrom _ i => Some i | _ => None end.

(** Where a call has returned: with a block of the level it was called for, or
    after the block was freed. *)
Definition returned (p q : pc) : Prop :=
  match wanted p with Some i => exists b, q = Owns b i | None => q = Out end.

(** A call goes on at another place, with fewer critical sections to come. *)
Definition advances (p q : pc) : Prop :=
  remaining q < remaining p /\ if decide (in_allocator q) then wanted q = wanted p else returned p q.

Lemma func_exit_freed b i s o s' : func_exit SIZES b i s = Ok (o, s') -> o = Freed.
Proof. unfold func_exit. intros H. inv_ok. by simplify_eq. Qed.

(** Where a critical section of [buf_buddy_free_low] leads to. *)
Definition freeing (n : nat) (p : pc) : Prop :=
  remaining p <= n /\ wanted p = None /\ (~ in_allocator p -> p = Out).

Lemma freeing_out n : freeing n Out.
Proof. split; [simpl; lia|done]. Qed.

Lemma freeing_advances n p q : freeing n q -> n < remaining p -> wanted p = None -> advances p q.
Proof.
  intros (Hn & Hw & Hout) Hlt Hp. split; [lia|]. case_decide as Hin; [congruence|]. unfold returned. rewrite Hp. by apply Hout.
Qed.

Lemma recombine_freeing : forall fuel b i s o s',
  recombine SHIFT SIZES fuel b i s = Ok (o, s') -> freeing (3 * (SIZES - i) + 1) (pc_of o).
Proof.
  induction fuel as [|fuel IH]; intros b i s o s' H; cbn [recombine] in H;
    (destruct (Nat.eqb_spec i SIZES) as [->|Hi]; [injection H as <- <-; split_and!; [simpl; lia|done|by intros []]|]); [done|].
  inv_ok. destruct (count (zip_free s i) <? 16)%Z; [apply func_exit_freed in H as ->; apply freeing_out|]. inv_ok.
  destruct (_ : buf_buddy_state_t); [| |apply func_exit_freed in H as ->; apply freeing_out].
  - inv_ok. apply IH in H as (Hn & Hrest). split; [lia|done].
  - inv_ok. destruct (start (zip_free s i)); [|apply func_exit_freed in H as ->; apply freeing_out].
    inv_ok. simplify_eq. split_and!; [simpl; lia|done|by intros []].
Qed.

Lemma relocate_failed_freed b i z s o s' : relocate_failed SIZES b i z s = Ok (o, s') -> o = Freed.
Proof. unfold relocate_failed. intros H. inv_ok. by eapply func_exit_freed. Qed.

(** A transition changes the place of one thread at most; a call in the allocator
    goes on. *)
Lemma goto_advances sy t p s v :
  (in_allocator (thread sy t) -> advances (thread sy t) p) -> in_allocator (thread sy v) ->
  thread (goto t p s sy) v = thread sy v \/ advances (thread sy v) (thread (goto t p s sy) v).
Proof. intros Hp Hv. simpl. unfold upd. case_decide as E; [subst; right; by apply Hp|by left]. Qed.

Lemma step_advances sy O sy' v :
  inv sy O -> step sy sy' -> in_allocator (thread sy v) ->
  thread sy' v = thread sy v \/ advances (thread sy v) (thread sy' v).
Proof.
  intros I Hst. unfold BufBuddy.step in Hst. remember (Ok sy') as r eqn:Er.
  destruct Hst as [t i Ht Hi|t i f Ht Hf|t f i Ht|t b i Ht|t b i bud z sp off Ht Hul|t b i bud z id Ht|t b i z Ht|t b Ht|
    t b i id fixed Ht Hn Hul|t id p Ht Hp Hul|id p fixed Hp Hul|f block Hf|b i s' Hb W]; inv_ok;
    repeat match goal with x : _ * _ |- _ => destruct x end; simplify_eq; try (by left);
    try (apply goto_advances; rewrite Ht); try (pose proof (i_pc _ _ I t) as Hok; rewrite Ht in Hok); try done; intros _.
  - split; [simpl; lia|done].
  - match goal with H : alloc_low_big _ _ _ _ _ = _ |- _ => rename H into E end. unfold alloc_low_big, buf_buddy_alloc_from in E.
    inv_ok. simplify_eq. split; [simpl; lia|]. by eexists.
  - destruct Hok as (Hi & _). apply (freeing_advances (3 * (SIZES - i))); [|simpl; lia|done]. case_match; split_and!; simpl; try lia; try done; by intros [].
  - destruct Hok as (Hi & _). match goal with H : relocate_copy _ _ _ _ _ _ _ _ = _ |- _ => rename H into E end.
    unfold relocate_copy in E. inv_ok. case_match.
    + inv_ok. apply recombine_freeing in E. eapply freeing_advances; [exact E|simpl; lia|done].
    + apply relocate_failed_freed in E as ->. apply (freeing_advances 0); [apply freeing_out|simpl; lia|done].
  - match goal with H : relocate_failed _ _ _ _ _ = _ |- _ => apply relocate_failed_freed in H as -> end.
    apply (freeing_advances 0); [apply freeing_out|simpl; lia|done].
  - split; [simpl; lia|done].
Qed.

(** Who has the latch of the page hash for a page. *)
Lemma latch_unique sy O id u b i bud z v b' i' bud' z' :
  inv sy O -> thread sy u = RelocCopy b i bud z id -> thread sy v = RelocCopy b' i' bud' z' id -> u = v.
Proof.
  intros I Hu Hv. pose proof (i_pc _ _ I u) as Ku. rewrite Hu in Ku. destruct Ku as (_ & -> & _ & q & Hq & Eq & El).
  pose proof (i_pc _ _ I v) as Kv. rewrite Hv in Kv. destruct Kv as (_ & -> & _ & q' & Hq' & Eq' & El'). rewrite Hq in Hq'. injection Hq' as <-.
  assert (O !! b = Some (i, OHeld u)) as Hb by (apply (i_threads _ _ I u); rewrite Hu; simpl; set_solver).
  assert (O !! b' = Some (i', OHeld v)) as Hb' by (apply (i_threads _ _ I v); rewrite Hv; simpl; set_solver).
  pose proof (allocator_bounds _ _ _ _ _ _ _ (i_alloc _ _ I) Hb) as [_ A]. pose proof (allocator_bounds _ _ _ _ _ _ _ (i_alloc _ _ I) Hb') as [_ A'].
  assert (i = i') as <- by congruence. assert (b = b') as <-; [|congruence].
  rewrite <- (buddy_involutive SHIFT i b), <- (buddy_involutive SHIFT i b') by done. congruence.
Qed.

Lemma latch_holder sy O id : inv sy O -> unlatched sy id \/ exists u b i bud z, thread sy u = RelocCopy b i bud z id.
Proof.
  intros I. destruct (page_hash (st sy) !! id) as [p|] eqn:Ep.
  - set (a := buddy SHIFT (zip_level p) (zip_data p)).
    assert (forall u b i bud z, thread sy u = RelocCopy b i bud z id -> O !! a = Some (i, OHeld u)) as Hhold.
    { intros u b i bud z Eu. pose proof (i_pc _ _ I u) as Hok. rewrite Eu in Hok. destruct Hok as (_ & -> & _ & q & Hq & Eq & El).
      rewrite Ep in Hq. injection Hq as <-. assert (O !! b = Some (i, OHeld u)) as Hb by (apply (i_threads _ _ I u); rewrite Eu; simpl; set_solver).
      subst a. rewrite Eq, El, buddy_involutive; [done|]. apply (allocator_bounds _ _ _ _ _ _ _ (i_alloc _ _ I) Hb). }
    destruct (O !! a) as [[j [|u|id'|u]]|] eqn:Ea;
      try (left; intros u' b i bud z Eu; pose proof (Hhold _ _ _ _ _ Eu); congruence).
    destruct (thread sy u) as [| | | | |b i bud z id'| |] eqn:Eu;
      try (left; intros u' b' i' bud' z' Eu'; pose proof (Hhold _ _ _ _ _ Eu'); congruence).
    destruct (decide (id' = id)) as [->|Hne]; [right; by exists u, b, i, bud, z|].
    left. intros u' b' i' bud' z' Eu'. pose proof (Hhold _ _ _ _ _ Eu'). congruence.
  - left. intros u b i bud z Eu. pose proof (i_pc _ _ I u) as Hok. rewrite Eu in Hok. destruct Hok as (_ & _ & _ & q & Hq & _). congruence.
Qed.

(** A transition that takes a latch needs it to be free. *)
Lemma step_place sy sy' : step sy sy' ->
  thread sy' = thread sy \/ exists t p, thread sy' = upd (thread sy) t p /\ forall b i bud z id, p = RelocCopy b i bud z id -> unlatched sy id.
Proof.
  intros Hst. unfold BufBuddy.step in Hst. remember (Ok sy') as r eqn:Er.
  destruct Hst; inv_ok; repeat match goal with x : _ * _ |- _ => destruct x end; simplify_eq; try (by left);
    right; eexists _, _; (split; [done|]); try done; intros; try case_match; simplify_eq; try done;
    match goal with o : outcome |- _ => by destruct o end.
Qed.

(** When the holder of a latch goes on the latch is free. *)
Lemma latch_released sy O sy' u b i bud z id :
  inv sy O -> step sy sy' -> thread sy u = RelocCopy b i bud z id -> thread sy' u <> thread sy u -> unlatched sy' id.
Proof.
  intros I Hst Hu Hne v b' i' bud' z' Hv. destruct (step_place sy sy' Hst) as [E|(t & p & E & Hp)]; [by rewrite E in Hne|].
  rewrite E in Hne, Hv. destruct (decide (t = u)) as [->|Hut]; [|by rewrite upd_ne in Hne].
  destruct (decide (u = v)) as [<-|Huv].
  - rewrite upd_eq in Hv. by apply (Hp _ _ _ _ _ Hv u b i bud z).
  - rewrite upd_ne in Hv by done. by destruct Huv; eapply latch_unique.
Qed.

(** Some transition leads the thread to another place. *)
Definition can_move (sy : sys) (t : nat) : Prop := exists sy', step sy sy' /\ thread sy' t <> thread sy t.

Lemma moves sy O t (X : res sys) :
  inv sy O -> sys_step sy X -> (forall sy', X = Ok sy' -> thread sy' t <> thread sy t) -> can_move sy t.
Proof. intros I Hst Hne. destruct (buddy_step_inv sy O X I Hst) as (sy' & O' & -> & _). exists sy'. split; [done|by apply Hne]. Qed.

Ltac reads_goto Ht := intros sy' H; inv_ok; repeat match goal with x : _ * _ |- _ => destruct x end; simplify_eq; simpl;
  rewrite upd_eq, Ht; try done; try (by case_match).

Lemma copy_moves sy O t b i bud z id : inv sy O -> thread sy t = RelocCopy b i bud z id -> can_move sy t.
Proof.
  intros I Ht. eapply moves; [done|by apply (step_copy _ _ sy t b i bud z id)|]. reads_goto Ht. by destruct (_ : outcome).
Qed.

Lemma frame_moves sy O t i f : inv sy O -> thread sy t = NeedFrame i -> fresh_frame SHIFT SIZES (st sy) f -> can_move sy t.
Proof. intros I Ht Hf. eapply moves; [done|by apply (step_frame _ _ sy t i f)|]. reads_goto Ht. Qed.

(** A thread waits for a frame or for a latch only. *)
Lemma moves_or_waits sy O t : inv sy O -> in_allocator (thread sy t) ->
  can_move sy t \/ (exists i, thread sy t = NeedFrame i) \/
  exists b i bud z sp off u b' i' bud' z', thread sy t = RelocLook b i bud z sp off /\ thread sy u = RelocCopy b' i' bud' z' (sp, off).
Proof.
  intros I Hin. destruct (thread sy t) as [|b i|i|f i|b i bud z sp off|b i bud z id|b i z|b] eqn:Et; try done.
  - right. left. by exists i.
  - left. eapply moves; [done|by apply (step_alloc_from _ _ sy t f i)|]. reads_goto Et.
  - destruct (latch_holder sy O (sp, off) I) as [Hul|(u & b' & i' & bud' & z' & Eu)].
    + left. eapply moves; [done|by apply (step_look _ _ sy t b i bud z sp off)|]. reads_goto Et.
    + right. right. by exists b, i, bud, z, sp, off, u, b', i', bud', z'.
  - left. by eapply copy_moves.
  - left. eapply moves; [done|by apply (step_fail _ _ sy t b i z)|]. reads_goto Et. by destruct (_ : outcome).
  - left. eapply moves; [done|by apply (step_block_free _ _ sy t b)|]. reads_goto Et.
Qed.

(** A run in which no thread in the allocator is passed over for ever: it moves,
    or from some time on no transition of it is possible; and a thread that waits
    for a frame is given one some time. *)
Record fair_run (start : sys) (run : nat -> sys) : Prop := FairRun {
  run_start : rtc step start (run 0);
  run_step n : step (run n) (run (S n));
  run_fair n t : in_allocator (thread (run n) t) ->
    (exists k, n <= k /\ thread (run (S k)) t <> thread (run k) t) \/ (exists k, n <= k /\ forall j, k <= j -> ~ can_move (run j) t);
  run_frames n t i : thread (run n) t = NeedFrame i ->
    exists k, n <= k /\ (thread (run k) t = NeedFrame i -> exists f, fresh_frame SHIFT SIZES (st (run k)) f) }.
#[local] Arguments run_step {start run}.
#[local] Arguments run_fair {start run}.
#[local] Arguments run_frames {start run}.

(** The first time at which a thread moves. *)
Lemma first_move (run : nat -> sys) t n : forall d,
  thread (run (n + d)) t = thread (run n) t \/
  exists k, n <= k < n + d /\ thread (run k) t = thread (run n) t /\ thread (run (S k)) t <> thread (run k) t.
Proof.
  induction d as [|d [E|(k & Hk & E)]]; [left; by rewrite Nat.add_0_r| |right; exists k; split; [lia|done]].
  rewrite Nat.add_succ_r. destruct (decide (thread (run (S (n + d))) t = thread (run (n + d)) t)) as [E2|Hne]; [left; congruence|].
  right. exists (n + d). split; [lia|done].
Qed.

Section run.
Context (start : sys) (run : nat -> sys) (HR : fair_run start run) (HI : forall n, exists O, inv (run n) O).

(** When a thread has moved it has moved a first time. *)
Lemma moves_first n t : (exists k, n <= k /\ thread (run (S k)) t <> thread (run k) t) ->
  exists k, n <= k /\ thread (run k) t = thread (run n) t /\ thread (run (S k)) t <> thread (run k) t.
Proof.
  intros (k & Hk & Hne). destruct (first_move run t n (k - n)) as [E|(j & Hj & E)]; [|exists j; split; [lia|done]].
  replace (n + (k - n)) with k in E by lia. by exists k.
Qed.

(** If it can move again and again, it moves. *)
Lemma moves_if n t : in_allocator (thread (run n) t) ->
  (forall m, n <= m -> thread (run m) t = thread (run n) t -> exists k, m <= k /\ (thread (run k) t = thread (run n) t -> can_move (run k) t)) ->
  exists k, n <= k /\ thread (run k) t = thread (run n) t /\ thread (run (S k)) t <> thread (run k) t.
Proof using HR.
  intros Hin Hcan. destruct (run_fair HR n t Hin) as [Hm|(m & Hnm & Hno)]; [by apply moves_first|].
  assert (forall k, n <= k -> thread (run k) t = thread (run n) t \/
    exists j, n <= j /\ thread (run j) t = thread (run n) t /\ thread (run (S j)) t <> thread (run j) t) as Hfirst.
  { intros k Hk. destruct (first_move run t n (k - n)) as [E|(j & Hj & E)]; [|right; exists j; split; [lia|done]].
    left. by replace (n + (k - n)) with k in E by lia. }
  destruct (Hfirst m Hnm) as [E|]; [|done]. destruct (Hcan m Hnm E) as (k & Hk & Hc).
  destruct (Hfirst k) as [E2|]; [lia| |done]. by destruct (Hno k Hk (Hc E2)).
Qed.

Lemma copy_moves_on n t b i bud z id : thread (run n) t = RelocCopy b i bud z id ->
  exists k, n <= k /\ thread (run k) t = thread (run n) t /\ thread (run (S k)) t <> thread (run k) t.
Proof using HR HI.
  intros Ht. apply moves_if; [by rewrite Ht|]. intros m Hm E. exists m. split; [done|]. intros _. destruct (HI m) as [O I].
  eapply copy_moves; [exact I|]. by rewrite E.
Qed.

(** Every thread in the allocator moves. *)
Lemma moves_on n t : in_allocator (thread (run n) t) ->
  exists k, n <= k /\ thread (run k) t = thread (run n) t /\ thread (run (S k)) t <> thread (run k) t.
Proof using HR HI.
  intros Hin. apply moves_if; [done|]. intros m Hm E. destruct (HI m) as [O I].
  destruct (moves_or_waits (run m) O t I) as [Hc|[[i Hi]|(b & i & bud & z & sp & off & u & b' & i' & bud' & z' & Ht & Hu)]]; [by rewrite E|by exists m| |].
  - destruct (run_frames HR m t i Hi) as (k & Hk & Hf). exists k. split; [done|]. intros Ek. destruct (HI k) as [Ok I'].
    assert (thread (run k) t = NeedFrame i) as Hk' by congruence. destruct (Hf Hk') as [f Hfr]. by eapply frame_moves.
  - destruct (copy_moves_on m u _ _ _ _ _ Hu) as (k & Hk & Eu & Hne). exists (S k). split; [lia|]. intros Ek.
    destruct (HI k) as [Ok I']. rewrite Hu in Eu. pose proof (latch_released _ _ _ _ _ _ _ _ _ I' (run_step HR k) Eu Hne) as Hul.
    destruct (HI (S k)) as [O2 I2]. eapply moves; [exact I2|apply (step_look _ _ _ t b i bud z sp off); [congruence|done]|].
    assert (thread (run (S k)) t = RelocLook b i bud z sp off) as Et by congruence. reads_goto Et.
Qed.

(** So every call returns. *)
Lemma call_returns : forall r n t, remaining (thread (run n) t) <= r -> in_allocator (thread (run n) t) ->
  exists k, n <= k /\ returned (thread (run n) t) (thread (run k) t).
Proof using HR HI.
  induction r as [|r IH]; intros n t Hr Hin; destruct (moves_on n t Hin) as (k & Hk & E & Hne); destruct (HI k) as [O I];
    (destruct (step_advances (run k) O (run (S k)) t I (run_step HR k)) as [Heq|[Hlt Hadv]]; [by rewrite E|done|]); rewrite E in Hlt, Hadv; [lia|].
  case_decide as Hin'; [|exists (S k); split; [lia|done]]. destruct (IH (S k) t) as (j & Hj & Hret); [lia|done|].
  exists j. split; [lia|]. unfold returned in *. by rewrite <- Hadv.
Qed.
End run.

Section reachable.
Context (m : gmap nat ut_list_node) (w o z : nat -> Z) (Hm : (Z.of_nat (base.size m) + 1 < 2 ^ 64)%Z).

(** C28: In every interleaving of the critical sections of threads that allocate
    and free compressed pages, every critical section completes: no assertion of
    the allocator fails, neither one of the release build nor one of the debug
    build (a block to be removed from a free list is on it, the lists are valid,
    blocks are aligned, no page is in a buddy that becomes free or is joined, a
    relocated page is not larger than its block, a frame that is registered is
    ready for use, and one that is returned has a block in state
    [BUF_BLOCK_MEMORY] and is counted), and no list is followed through a missing
    node.  Assertions about the ownership of mutexes and between constants are
    not in the model; of a frame that it gives to the allocator the buffer pool
    promises [fresh_frame]. *)
Theorem buddy_completes sy r : rtc step (init m w o z) sy -> sys_step sy r -> exists sy', r = Ok sy'.
Proof using Hm.
  intros Hr Hst. destruct (buddy_reachable_inv m w o z sy Hm Hr) as [O I]. destruct (buddy_step_inv sy O r I Hst) as (sy' & _ & E & _). by exists sy'.
Qed.

(** C27: In every reachable state the blocks divide the frames of the allocator:
    every block on a free list, of a page or of a thread is aligned to its size
    and lies in a registered frame, every address of a frame is in exactly one
    block, no two users have the same block, and [used] counts the blocks of
    pages and of threads outside of the allocator. *)
Theorem buddy_divides sy : rtc step (init m w o z) sy ->
  (forall a i, is_block sy (a, i) -> i <= SIZES /\ aligned SHIFT a i /\
     exists f, f ∈ zip_hash (st sy) /\ f <= a /\ a + size i <= f + size SIZES) /\
  (forall f x, f ∈ zip_hash (st sy) -> inside f SIZES x -> exists! b, is_block sy b /\ inside b.1 b.2 x) /\
  (forall u v a i j, has_block sy u a i -> has_block sy v a j -> u = v) /\
  (forall i, exists X : gset nat, used (st sy) i = Z.of_nat (base.size X) /\
     forall a, a ∈ X <-> (exists id, has_block sy (Page id) a i) \/ exists t, thread sy t = Owns a i).
Proof using Hm.
  intros Hr. destruct (buddy_reachable_inv m w o z sy Hm Hr) as [O I]. destruct (i_alloc _ _ I) as (M & C & EO).
  pose proof (k_tiling _ _ _ _ _ C) as T. split_and!.
  - intros a i (p & Ha)%(is_block_iff sy O M (a, i) I C EO). simpl in Ha. split; [by eapply k_level|]. split; [by eapply k_aligned|].
    exists (floor SHIFT SIZES a). split; [eapply tl_inside; [done|by eapply level_lookup]|].
    apply (tiling_bounds _ _ _ _ _ _ T). by eapply level_lookup.
  - intros f x Hf Hx. destruct (tl_cover _ _ _ _ T f x Hf Hx) as (a & i & Ha & Hin). apply level_lookup_inv in Ha as (p & Ha).
    exists (a, i). split; [split; [|done]; apply (is_block_iff sy O M (a, i) I C EO); by exists p|].
    intros [b j] [(q & Hb)%(is_block_iff sy O M (b, j) I C EO) Hbx]. simpl in Hb, Hbx.
    assert (a = b) as <- by (eapply tl_disjoint; [exact T|by eapply level_lookup..|exact Hin|exact Hbx]). congruence.
  - intros u v a i j (p & Hp & Hu)%(has_block_iff sy O _ _ _ I) (q & Hq & Hv)%(has_block_iff sy O _ _ _ I).
    rewrite Hp in Hq. injection Hq as <- <-. destruct u, v; simpl in *; unfold of_thread in *; intuition congruence.
  - intros i. exists (dom (filter (fun b : nat * (nat * owner) => b.2.1 = i /\ in_use b.2.2) O)).
    rewrite (i_used _ _ I), size_dom. split; [done|]. intros a. rewrite elem_of_dom. split.
    + intros [[j p] [Ha [<- Hp]]%map_lookup_filter_Some]. simpl in *. destruct p as [|t|id|t]; try done.
      * right. exists t. assert ((a, (j, OUser t)) ∈ holds t (thread sy t)) as Hin by (apply (i_threads_own _ _ I); [done|by left]).
        destruct (thread sy t); simpl in Hin; set_solver.
      * left. exists id. apply (has_block_iff sy O (Page id) _ _ I). by exists (OPage id).
    + intros [(id & (p & Ha & ->)%(has_block_iff sy O (Page id) _ _ I))|(t & Ht)].
      * eexists. by apply map_lookup_filter_Some_2.
      * exists (i, OUser t). apply map_lookup_filter_Some_2; [|done]. apply (i_threads _ _ I t). rewrite Ht. by apply list_elem_of_singleton.
Qed.

(** C29: A critical section of the allocator preserves the contents of all pages,
    also of a page that it moves to another block; only the owner of a block
    changes its memory. *)
Theorem buddy_keeps_pages sy sy' : rtc step (init m w o z) sy -> step sy sy' ->
  pages_kept (st sy) (st sy') \/ exists b i, block_of sy b i /\ writes SHIFT b i (st sy) (st sy').
Proof using Hm.
  intros Hr Hst. destruct (buddy_reachable_inv m w o z sy Hm Hr) as [O I].
  by destruct (buddy_step_inv sy O _ I Hst) as (sy1 & O1 & [= <-] & _ & HK).
Qed.

(** [buf_buddy_is_free] is exact: of the buddy of a block in use it says free
    if the buddy is on the free list of the same size, partially used if a
    smaller free block starts at its address, and used if a block in use starts
    there; so the stamp it reads is never one in the middle of a block. *)
Theorem buddy_is_free_exact sy u a i : rtc step (init m w o z) sy -> has_block sy u a i -> i < SIZES ->
  exists bs, buf_buddy_is_free SHIFT (st sy) (buddy SHIFT i a) i = Ok bs /\
    match bs with
    | BUF_BUDDY_STATE_FREE => on_free_list sy (buddy SHIFT i a) i
    | BUF_BUDDY_STATE_PARTIALLY_USED => exists j, j < i /\ on_free_list sy (buddy SHIFT i a) j
    | BUF_BUDDY_STATE_USED => exists v j, has_block sy v (buddy SHIFT i a) j /\ j <= i
    end.
Proof using Hm.
  intros Hr Hu Hi. destruct (buddy_reachable_inv m w o z sy Hm Hr) as [O I].
  apply (has_block_iff sy O _ _ _ I) in Hu as (p & Ha & _).
  destruct (is_free_exact _ _ _ _ _ _ _ (i_alloc _ _ I) Ha Hi) as (bs & E & Hbs). exists bs. split; [exact E|]. destruct bs; simpl in Hbs.
  - destruct Hbs as (M & C & _ & HM). by apply (free_list_iff _ M _ _ _ C eq_refl).
  - destruct Hbs as (j & q & Hq & Hj). destruct (i_alloc _ _ I) as (M & C & EO). rewrite <- EO in Hq. apply owned_lookup in Hq as [Hq Hqf].
    destruct (proj2 (in_use_iff sy O M (buddy SHIFT i a) j I EO)) as [v Hv]; [by exists q|]. by exists v, j.
  - destruct Hbs as (M & j & C & _ & HM & Hj). exists j. split; [done|]. by apply (free_list_iff _ M _ _ _ C eq_refl).
Qed.

(** C30: Every call of the allocator returns.  A thread in it, also one that waits
    for a frame of the buffer pool, has at most [3 * BUF_BUDDY_SIZES + 2] critical
    sections before it; every transition leaves it where it is, or brings it
    nearer to its return, for the block of the size it was called for; and in
    every fair run, in which a thread that can move again and again does and a
    thread that waits for a frame is given one, it returns: an allocation with a
    block of its size, the release of a block without one. *)
Theorem buddy_terminates :
  (forall sy t, rtc step (init m w o z) sy -> in_allocator (thread sy t) -> remaining (thread sy t) <= 3 * SIZES + 2) /\
  (forall sy sy' t, rtc step (init m w o z) sy -> step sy sy' -> in_allocator (thread sy t) ->
     thread sy' t = thread sy t \/ advances (thread sy t) (thread sy' t)) /\
  (forall run n t, fair_run (init m w o z) run -> in_allocator (thread (run n) t) ->
     exists k, n <= k /\ returned (thread (run n) t) (thread (run k) t)).
Proof using Hm.
  split_and!.
  - intros sy t _ _. destruct (thread sy t); simpl; lia.
  - intros sy sy' t Hr Hst Hin. destruct (buddy_reachable_inv m w o z sy Hm Hr) as [O I]. by apply (step_advances sy O).
  - intros run n t HR. apply (call_returns _ run HR) with (r := remaining (thread (run n) t)); [|done].
    intros k. apply (buddy_reachable_inv m w o z); [done|]. induction k as [|k IH]; [apply (run_start _ _ HR)|].
    eapply rtc_r; [exact IH|apply (run_step HR)].
Qed.
End reachable.

End safety.

(** ** A concrete allocator

    The buffer pool has a frame of 4 kilobytes at 4096; thread 0 allocates a block
    of 1 kilobyte. *)
Definition memory : gmap nat ut_list_node :=
  list_to_map ((fun k => (4096 + k * 1024, mkNode None None)) <$> seq 0 4).
Definition zero : nat -> Z := fun _ => 0%Z.
Definition value (r : res sys) (d : sys) : sys := match r with Ok s => s | _ => d end.

Definition start0 : sys := init memory zero zero zero.
Definition sys0 : sys := mkSys (set_frames (<[4096 := ready_block]> (frames (st start0))) (buddy_n_frames (st start0)) (st start0)) (thread start0).
Definition alloc0 : res sys :=
  let! i := buf_buddy_get_slot 10 2 (block_size 10 0) in
  let! (b, s) := alloc_low_zip 10 2 i (st sys0) in
  Ok (goto 0 (match b with Some b => Owns b i | None => NeedFrame i end) s sys0).
Definition sys1 : sys := value alloc0 sys0.
Definition frame1 : res sys :=
  let! s := buf_buddy_block_register 10 2 4096 (st sys1) in Ok (goto 0 (AllocFrom 4096 0) s sys1).
Definition sys2 : sys := value frame1 sys1.
Definition alloc2 : res sys :=
  let! (b, s) := alloc_low_big 10 2 4096 0 (st sys2) in Ok (goto 0 (Owns b 0) s sys2).
Definition sys3 : sys := value alloc2 sys2.
Definition free3 : res sys :=
  let! i := buf_buddy_get_slot 10 2 (block_size 10 0) in
  let! (o, s) := free_low_enter 10 2 4096 i (st sys3) in Ok (goto 0 (pc_of o) s sys3).

(** These transitions complete, and the thread has the block at 4096. *)
Definition completed (r : res sys) : bool := match r with Ok _ => true | _ => false end.

Lemma completed_value r d : completed r = true -> r = Ok (value r d).
Proof. by destruct r. Qed.

Lemma all_completed : completed alloc0 && completed frame1 && completed alloc2 = true.
Proof. by vm_compute. Qed.

Lemma places : thread sys1 0 = NeedFrame 0 /\ thread sys2 0 = AllocFrom 4096 0 /\ thread sys3 0 = Owns 4096 0.
Proof. by vm_compute. Qed.

Lemma frame_fresh : fresh_frame 10 2 (st sys1) 4096.
Proof.
  split; [by vm_compute|]. split; [by vm_compute|]. split; [by exists 1|]. split; [done|]. intros x [H1 H2] [q ->].
  change (block_size 10 2) with (4 * 1024) in H2. change (block_size 10 0) with 1024 in *.
  assert (q = 4 \/ q = 5 \/ q = 6 \/ q = 7) as [->|[->|[->| ->]]] by lia; compute_decide.
Qed.

Lemma steps : step 10 2 sys0 sys1 /\ step 10 2 sys1 sys2 /\ step 10 2 sys2 sys3.
Proof.
  pose proof all_completed as [[H1 H2]%andb_prop H3]%andb_prop. destruct places as (P1 & P2 & _). unfold step. split_and!.
  - unfold sys1. rewrite <- (completed_value alloc0 sys0 H1). apply (step_alloc 10 2 sys0 0 0); [done|lia].
  - unfold sys2. rewrite <- (completed_value frame1 sys1 H2). apply (step_frame 10 2 sys1 0 0 4096); [exact P1|apply frame_fresh].
  - unfold sys3. rewrite <- (completed_value alloc2 sys2 H3). apply (step_alloc_from 10 2 sys2 0 4096 0). exact P2.
Qed.

Lemma reaches_sys1 : rtc (step 10 2) start0 sys1.
Proof.
  destruct steps as (S1 & _). eapply rtc_l; [|by apply rtc_once]. apply (step_frames 10 2 start0 4096 ready_block). by compute_decide.
Qed.

Lemma reaches_sys2 : rtc (step 10 2) start0 sys2.
Proof. eapply rtc_r; [exact reaches_sys1|]. apply steps. Qed.

Lemma reaches_sys3 : rtc (step 10 2) start0 sys3.
Proof. eapply rtc_r; [exact reaches_sys2|]. apply steps. Qed.

Lemma memory_small : (Z.of_nat (base.size memory) + 1 < 2 ^ 64)%Z.
Proof. by vm_compute. Qed.

Lemma thread0_block : has_block 2 sys3 (Thread 0) 4096 0.
Proof. exists (OUser 0). destruct places as (_ & _ & ->). by left. Qed.

Lemma buddy_completes_witness : rtc (step 10 2) start0 sys3 /\ exists sy', free3 = Ok sy'.
Proof.
  split; [exact reaches_sys3|].
  apply (buddy_completes 10 2 memory zero zero zero memory_small sys3 free3 reaches_sys3), (step_free 10 2 sys3 0 4096 0). apply places.
Defined.

Lemma buddy_divides_witness : exists! b, is_block 2 sys3 b /\ inside 10 b.1 b.2 5000.
Proof.
  destruct (buddy_divides 10 2 memory zero zero zero memory_small sys3 reaches_sys3) as (_ & H & _).
  apply (H 4096); [apply (bool_decide_unpack _); vm_compute; exact Logic.I|]. unfold inside. change (block_size 10 2) with 4096. lia.
Defined.

Lemma buddy_keeps_pages_witness : pages_kept 10 (st sys2) (st sys3) \/ exists b i, block_of sys2 b i /\ writes 10 b i (st sys2) (st sys3).
Proof. apply (buddy_keeps_pages 10 2 memory zero zero zero memory_small sys2 sys3 reaches_sys2), steps. Defined.

Lemma buddy_is_free_exact_witness :
  exists bs, buf_buddy_is_free 10 (st sys3) (buddy 10 0 4096) 0 = Ok bs /\
    match bs with
    | BUF_BUDDY_STATE_FREE => on_free_list 2 sys3 (buddy 10 0 4096) 0
    | BUF_BUDDY_STATE_PARTIALLY_USED => exists j, j < 0 /\ on_free_list 2 sys3 (buddy 10 0 4096) j
    | BUF_BUDDY_STATE_USED => exists v j, has_block 2 sys3 v (buddy 10 0 4096) j /\ j <= 0
    end.
Proof.
  apply (buddy_is_free_exact 10 2 memory zero zero zero memory_small sys3 (Thread 0) 4096 0 reaches_sys3 thread0_block). lia.
Defined.

(** The thread gets its block, and then writes to it for ever. *)
Definition run0 (n : nat) : sys := match n with 0 => sys1 | 1 => sys2 | _ => sys3 end.

Definition place0 (n : nat) : pc := match n with 0 => NeedFrame 0 | 1 => AllocFrom 4096 0 | _ => Owns 4096 0 end.

Lemma run0_places n t : thread (run0 n) t = if decide (t = 0) then place0 n else Out.
Proof. case_decide as E; [subst; destruct places as (P1 & P2 & P3); by destruct n as [|[|n]]|]. destruct n as [|[|n]], t; done. Qed.

Lemma place0_moves n t : in_allocator (thread (run0 n) t) -> thread (run0 (S n)) t <> thread (run0 n) t.
Proof. rewrite (run0_places (S n)), (run0_places n). case_decide; [by destruct n as [|[|n]]|done]. Qed.

Lemma place0_needs n t i : thread (run0 n) t = NeedFrame i -> n = 0.
Proof. rewrite run0_places. case_decide; [by destruct n as [|[|n]]|done]. Qed.

Lemma step_idle SHIFT SIZES sy t b i : thread sy t = Owns b i -> space_word (st sy) b <> BUF_BUDDY_STAMP_FREE -> step SHIFT SIZES sy sy.
Proof. intros Ht Hw. destruct sy as [s th]. apply (step_write _ _ (mkSys s th) b i s); [left; by exists t|by split]. Qed.

Lemma run0_fair : fair_run 10 2 start0 run0.
Proof.
  destruct places as (P1 & P2 & P3). destruct steps as (_ & S2 & S3). split.
  - exact reaches_sys1.
  - intros [|[|n]]; [exact S2|exact S3|]. change (step 10 2 sys3 sys3). apply (step_idle 10 2 sys3 0 4096 0 P3). by vm_compute.
  - intros n t Hin. left. exists n. split; [done|]. by apply place0_moves.
  - intros n t i Hi. exists n. split; [done|]. intros _. exists 4096. apply place0_needs in Hi as ->. exact frame_fresh.
Qed.

Lemma buddy_terminates_witness : in_allocator (thread sys1 0) /\ exists k b, thread (run0 k) 0 = Owns b 0.
Proof.
  destruct places as (P1 & _). assert (in_allocator (thread sys1 0)) as H by (rewrite P1; exact Logic.I). split; [exact H|].
  destruct (buddy_terminates 10 2 memory zero zero zero memory_small) as (_ & _ & R).
  destruct (R run0 0 0 run0_fair H) as (k & _ & Hk). exists k. unfold returned in Hk. cbn [run0] in Hk. by rewrite P1 in Hk.
Defined.
End BuddySafety.
