(* ===== verification/SepHeap.v ===== *)
(** * Separation logic for programs on a heap

    A program is a function from a heap to a result and a heap; it has no
    result where the code would access memory that is not allocated or would
    fail an assertion.  [hProp] are the assertions about heaps, with the
    connectives of a linear logic: an assertion describes exactly the cells it
    owns.  [wp m Q] says that [m] returns, that the cells it owns then satisfy
    [Q], and that it leaves all other cells alone ([triple_sound]). *)

From S2P Require Import Prelude.
From iris.proofmode Require Export proofmode.

(** ** Assertions *)
Section assertions.
Context {C : Type}.
Local Notation heap := (gmap nat C).

Record hProp := HProp { holds : heap -> Prop }.

Record h_entails (P Q : hProp) : Prop := HEntails { entails_at : forall h, holds P h -> holds Q h }.
Definition h_emp : hProp := HProp (fun h => h = ∅).
Definition h_pure (p : Prop) : hProp := HProp (fun _ => p).
Definition h_and (P Q : hProp) : hProp := HProp (fun h => holds P h /\ holds Q h).
Definition h_or (P Q : hProp) : hProp := HProp (fun h => holds P h \/ holds Q h).
Definition h_impl (P Q : hProp) : hProp := HProp (fun h => holds P h -> holds Q h).
Definition h_forall {A} (P : A -> hProp) : hProp := HProp (fun h => forall x, holds (P x) h).
Definition h_exist {A} (P : A -> hProp) : hProp := HProp (fun h => exists x, holds (P x) h).
Definition h_sep (P Q : hProp) : hProp :=
  HProp (fun h => exists h1 h2, h = h1 ∪ h2 /\ h1 ##ₘ h2 /\ holds P h1 /\ holds Q h2).
Definition h_wand (P Q : hProp) : hProp :=
  HProp (fun h => forall h1, h ##ₘ h1 -> holds P h1 -> holds Q (h ∪ h1)).
Definition h_pers (P : hProp) : hProp := h_pure (h_entails h_emp P).

Record h_equiv (P Q : hProp) : Prop := HEquiv { equiv_at : forall h, holds P h <-> holds Q h }.

#[export] Instance hProp_equiv : Equiv hProp := h_equiv.

#[export] Instance hProp_equivalence : Equivalence (≡@{hProp}).
Proof.
  split.
  - intros P. by split.
  - intros P Q [E]. split. intros h. by rewrite E.
  - intros P Q R [E1] [E2]. split. intros h. by rewrite E1.
Qed.

Canonical Structure hPropO := discreteO hProp.

Lemma h_bi_mixin : BiMixin h_entails h_emp h_pure h_and h_or h_impl (@h_forall) (@h_exist) h_sep h_wand.
Proof.
  split.
  - split; [by intros P; split|]. intros P Q R [H1] [H2]. split; auto.
  - intros P Q. split.
    + intros [E]. split; split; intros h; apply E.
    + intros [[H1] [H2]]. split. intros h. split; [apply H1|apply H2].
  - intros n p q E. by split.
  - intros n P P' [EP] Q Q' [EQ]. split. intros h. simpl. by rewrite (EP h) (EQ h).
  - intros n P P' [EP] Q Q' [EQ]. split. intros h. simpl. by rewrite (EP h) (EQ h).
  - intros n P P' [EP] Q Q' [EQ]. split. intros h. simpl. by rewrite (EP h) (EQ h).
  - intros A n P P' EP. split. intros h. simpl. split; intros H x; by apply (equiv_at _ _ (EP x) h).
  - intros A n P P' EP. split. intros h. simpl. split; intros [x H]; exists x; by apply (equiv_at _ _ (EP x) h).
  - intros n P P' [EP] Q Q' [EQ]. split. intros h. simpl.
    split; intros (h1 & h2 & E & D & H1 & H2); exists h1, h2; split_and!; try done;
      first [by apply (EP h1)|by apply (EQ h2)].
  - intros n P P' [EP] Q Q' [EQ]. split. intros h. simpl.
    split; intros H h1 D H1; apply (EQ (h ∪ h1)), H; try done; by apply (EP h1).
  - intros p P Hp. by split.
  - intros p P H. split. intros h Hp. by apply (H Hp).
  - intros P Q. by split; intros h [H _].
  - intros P Q. by split; intros h [_ H].
  - intros P Q R [H1] [H2]. split. intros h H. split; auto.
  - intros P Q. split. intros h H. by left.
  - intros P Q. split. intros h H. by right.
  - intros P Q R [H1] [H2]. split. intros h [H|H]; auto.
  - intros P Q R [H]. split. intros h HP HQ. by apply H.
  - intros P Q R [H]. split. intros h [HP HQ]. by apply H.
  - intros A P Q H. split. intros h HP x. by apply H.
  - intros A P x. split. intros h H. apply H.
  - intros A P x. split. intros h H. by exists x.
  - intros A P Q H. split. intros h [x Hx]. by apply (H x).
  - intros P P' Q Q' [HP] [HQ]. split. intros h (h1 & h2 & E & D & H1 & H2).
    exists h1, h2. split_and!; auto.
  - intros P. split. intros h H. exists ∅, h. split_and!; try done; [by rewrite left_id_L|apply map_disjoint_empty_l].
  - intros P. split. intros h (h1 & h2 & -> & D & -> & H2). by rewrite left_id_L.
  - intros P Q. split. intros h (h1 & h2 & -> & D & H1 & H2). exists h2, h1. rewrite map_union_comm; [|done]. done.
  - intros P Q R. split. intros h (h12 & h3 & -> & D & (h1 & h2 & -> & D' & H1 & H2) & H3).
    apply map_disjoint_union_l in D as [D1 D2]. exists h1, (h2 ∪ h3).
    split_and!; [by rewrite assoc_L|by apply map_disjoint_union_r|done|].
    by exists h2, h3.
  - intros P Q R [H]. split. intros h HP h1 D HQ. apply H. by exists h, h1.
  - intros P Q R [H]. split. intros h (h1 & h2 & -> & D & HP & HQ). by apply (H h1 HP h2).
Qed.

Lemma h_pers_mixin : BiPersistentlyMixin h_entails h_emp h_and (@h_exist) h_sep h_pers.
Proof.
  eapply bi_persistently_mixin_discrete, h_bi_mixin; [done| |done].
  intros A P [H]. destruct (H ∅ eq_refl) as [x Hx]. exists x. by split; intros h ->.
Qed.

Lemma h_later_mixin :
  BiLaterMixin h_entails h_pure h_or h_impl (@h_forall) (@h_exist) h_sep h_pers id.
Proof. by eapply bi_later_mixin_id, h_bi_mixin. Qed.

Canonical Structure hPropI : bi :=
  {| bi_ofe_mixin := ofe_mixin_of hProp; bi_bi_mixin := h_bi_mixin;
     bi_bi_persistently_mixin := h_pers_mixin; bi_bi_later_mixin := h_later_mixin |}.

(** The cell at address [a] is owned and holds [c]. *)
Definition pts (a : nat) (c : C) : hProp := HProp (fun h => h = {[a := c]}).

End assertions.
Arguments hProp : clear implicits.
Arguments hPropI : clear implicits.

Notation "a ↦ c" := (pts a c) (at level 20, format "a  ↦  c") : bi_scope.
Notation "⟨ p ⟩" := (<affine> ⌜p⌝)%I (format "⟨ p ⟩") : bi_scope.

(** ** Programs *)

(** [malloc] picks an address that is not in use. *)
Class Allocator := { malloc_addr : gset nat -> nat; malloc_addr_fresh X : malloc_addr X ∉ X }.

(** An allocator for runs of programs. *)
Definition fresh_allocator : Allocator :=
  {| malloc_addr := fresh; malloc_addr_fresh := is_fresh |}.

Section programs.
Context {C : Type}.
Local Notation heap := (gmap nat C).

Definition prog (A : Type) : Type := heap -> option (A * heap).

#[export] Instance prog_ret : MRet prog := fun A x h => Some (x, h).
#[export] Instance prog_bind : MBind prog :=
  fun A B k m h => match m h with Some (x, h') => k x h' | None => None end.

(** The code fails an assertion or accesses memory it must not. *)
Definition stop {A} : prog A := fun _ => None.
Definition ut_a (b : bool) : prog () := if b then mret () else stop.

(** Read what [f] selects from the cell at [a]; replace that cell by [f] of
    it; allocate a cell; release a cell.  An access is an error where [f] is
    not defined, that is where the cell has another type. *)
Definition rd {T} (f : C -> option T) (a : nat) : prog T :=
  fun h => match h !! a ≫= f with Some x => Some (x, h) | None => None end.
Definition wr (f : C -> option C) (a : nat) : prog () :=
  fun h => match h !! a ≫= f with Some c => Some ((), <[a := c]> h) | None => None end.
Definition new `{Allocator} (c : C) : prog nat :=
  fun h => let a := malloc_addr (dom h) in Some (a, <[a := c]> h).
Definition ut_free (a : nat) : prog () :=
  fun h => match h !! a with Some _ => Some ((), delete a h) | None => None end.

(** [wp m Q]: the program returns, with [Q] for the cells it owns, and keeps
    every other cell. *)
Definition wp {A} (m : prog A) (Q : A -> hProp C) : hProp C :=
  HProp (fun h => forall hf, h ##ₘ hf ->
    exists x h', m (h ∪ hf) = Some (x, h' ∪ hf) /\ h' ##ₘ hf /\ holds (Q x) h').

(** From the cells of [P] the program returns an [x] with [Q x]. *)
Definition triple {A} (P : hProp C) (m : prog A) (Q : A -> hProp C) : Prop := P ⊢ wp m Q.

(** *** Rules *)
Section rules.
Implicit Types P : hProp C.

Lemma holds_sep P Q h :
  holds (P ∗ Q)%I h <-> exists h1 h2, h = h1 ∪ h2 /\ h1 ##ₘ h2 /\ holds P h1 /\ holds Q h2.
Proof. done. Qed.

Lemma wp_ret {A} (x : A) (Q : A -> hProp C) : Q x ⊢ wp (mret x) Q.
Proof. split. intros h H hf D. by exists x, h. Qed.

Lemma wp_bind {A B} (m : prog A) (k : A -> prog B) (Q : B -> hProp C) :
  wp m (fun x => wp (k x) Q) ⊢ wp (x ← m; k x) Q.
Proof.
  split. intros h H hf D. destruct (H hf D) as (x & h1 & E & D1 & H1).
  destruct (H1 hf D1) as (y & h2 & E2 & D2 & H2). exists y, h2. split_and!; [|done|done].
  unfold mbind, prog_bind. by rewrite E.
Qed.

Lemma wp_assoc {A B D} (m : prog A) (f : A -> prog B) (g : B -> prog D) (Q : D -> hProp C) :
  wp (x ← (y ← m; f y); g x) Q ⊢ wp (y ← m; x ← f y; g x) Q.
Proof.
  split. intros h H hf D'. destruct (H hf D') as (x & h' & E & H'). exists x, h'. split; [|done].
  revert E. unfold mbind, prog_bind. by destruct (m (h ∪ hf)) as [[]|].
Qed.

Lemma wp_wand {A} (m : prog A) (Q R : A -> hProp C) :
  wp m Q -∗ (∀ x, Q x -∗ R x) -∗ wp m R.
Proof.
  apply bi.entails_wand, bi.wand_intro_r. split. intros h (h1 & h2 & -> & D & H1 & H2) hf D'.
  apply map_disjoint_union_l in D' as [D1 D2].
  destruct (H1 (h2 ∪ hf)) as (x & h' & E & D3 & H3); [by apply map_disjoint_union_r|].
  apply map_disjoint_union_r in D3 as [D3 D4].
  exists x, (h' ∪ h2). rewrite -!assoc_L. split_and!; [done|by apply map_disjoint_union_l|].
  rewrite map_union_comm; [|done]. by apply (H2 x).
Qed.

Lemma wp_stop_inv {A} (Q : A -> hProp C) h : holds (wp stop Q) h -> False.
Proof. intros H. destruct (H ∅) as (? & ? & ? & _); [apply map_disjoint_empty_r|done]. Qed.

Lemma wp_rd {T} (f : C -> option T) a c x (Q : T -> hProp C) :
  f c = Some x -> a ↦ c -∗ (a ↦ c -∗ Q x) -∗ wp (rd f a) Q.
Proof.
  intros Hf. apply bi.entails_wand, bi.wand_intro_r.
  split. intros h (h1 & h2 & -> & D & -> & H2) hf D'. exists x, ({[a := c]} ∪ h2).
  split_and!; [|done|].
  - unfold rd. rewrite -assoc_L lookup_union lookup_singleton_eq. simpl.
    rewrite union_Some_l. simpl. by rewrite Hf.
  - rewrite map_union_comm; [|done]. by apply H2.
Qed.

Lemma wp_wr (f : C -> option C) a c c' (Q : () -> hProp C) :
  f c = Some c' -> a ↦ c -∗ (a ↦ c' -∗ Q ()) -∗ wp (wr f a) Q.
Proof.
  intros Hf. apply bi.entails_wand, bi.wand_intro_r.
  split. intros h (h1 & h2 & -> & D & -> & H2) hf D'.
  apply map_disjoint_singleton_l in D. apply map_disjoint_union_l in D' as [D1 D2].
  apply map_disjoint_singleton_l in D1.
  exists (), ({[a := c']} ∪ h2). split_and!.
  - unfold wr. rewrite -assoc_L lookup_union lookup_singleton_eq union_Some_l. simpl. rewrite Hf.
    by rewrite -!insert_union_singleton_l -insert_union_l insert_insert_eq.
  - apply map_disjoint_union_l. split; [by apply map_disjoint_singleton_l|done].
  - rewrite map_union_comm; [|by apply map_disjoint_singleton_l]. apply H2; [|done].
    by apply map_disjoint_singleton_r.
Qed.

Lemma wp_new `{Allocator} c (Q : nat -> hProp C) : (∀ a, a ↦ c -∗ Q a) ⊢ wp (new c) Q.
Proof.
  split. intros h H1 hf D. set (a := malloc_addr (dom (h ∪ hf))).
  assert (a ∉ dom (h ∪ hf)) as Ha by apply malloc_addr_fresh.
  rewrite dom_union_L in Ha. apply not_elem_of_union in Ha as [Ha1 Ha2].
  apply not_elem_of_dom in Ha1, Ha2.
  exists a, (h ∪ {[a := c]}). split_and!.
  - unfold new. fold a. do 2 f_equal. rewrite (map_union_comm h {[a := c]}); [|by apply map_disjoint_singleton_r].
    by rewrite -insert_union_singleton_l insert_union_l.
  - apply map_disjoint_union_l. split; [done|by apply map_disjoint_singleton_l].
  - by apply (H1 a); [apply map_disjoint_singleton_r|].
Qed.

Lemma wp_free a c (Q : () -> hProp C) : a ↦ c -∗ Q () -∗ wp (ut_free a) Q.
Proof.
  apply bi.entails_wand, bi.wand_intro_r. split. intros h (h1 & h2 & -> & D & -> & H2) hf D'.
  apply map_disjoint_singleton_l in D. apply map_disjoint_union_l in D' as [D1 D2].
  apply map_disjoint_singleton_l in D1. exists (), h2. split_and!; [|done|done].
  unfold ut_free. rewrite -assoc_L lookup_union lookup_singleton_eq union_Some_l.
  rewrite -insert_union_singleton_l delete_insert_id; [done|].
  apply lookup_union_None. done.
Qed.

Lemma pts_ne a b c d : a ↦ c -∗ b ↦ d -∗ ⌜a <> b⌝ : hProp C.
Proof.
  apply bi.entails_wand, bi.wand_intro_r. split. intros h (h1 & h2 & -> & D & -> & ->) ->.
  by apply map_disjoint_singleton_l in D; rewrite lookup_singleton_eq in D.
Qed.

(** What a triple says about the program, with [hf] for the rest of the
    memory. *)
Lemma triple_sound {A} (m : prog A) P (Q : A -> hProp C) h hf :
  triple P m Q -> holds P h -> h ##ₘ hf ->
  exists x h', m (h ∪ hf) = Some (x, h' ∪ hf) /\ h' ##ₘ hf /\ holds (Q x) h'.
Proof. intros [H] HP. apply (H h HP). Qed.

(** A heap for given cells. *)
Lemma pts_list (l : list (nat * C)) : NoDup l.*1 -> holds ([∗ list] x ∈ l, x.1 ↦ x.2)%I (list_to_map l : heap).
Proof.
  induction l as [|[a c] l IH]; simpl; [done|]. intros [Ha Hn]%NoDup_cons.
  exists {[a := c]}, (list_to_map l). split_and!; [by rewrite insert_union_singleton_l| |done|by apply IH].
  by apply map_disjoint_singleton_l, not_elem_of_list_to_map_1.
Qed.

Lemma entails_holds (P Q : hProp C) h : (P ⊢ Q) -> holds P h -> holds Q h.
Proof. intros [H]. apply H. Qed.

End rules.
End programs.
