(* ===== verification/RbTree.v ===== *)
(** * Red-black trees (XtraDB)

    ut/ut0rbt.cc and include/ut0rbt.h: every function of the module, as a
    program on a heap of nodes and tree descriptors.  A node keeps the values
    that the caller gives as a whole; the sentinel and the fake root have no
    value.  Loops along links take [fuel] rounds; the theorems ask for
    logarithmically many in the number of nodes ([RbSearch.rounds]), and for as
    many as there are nodes where all of them are visited. *)

From S2P Require Import Prelude SepHeap.

Module RbTree.

Inductive ib_rbt_color_t := IB_RBT_RED | IB_RBT_BLACK.

#[export] Instance color_eq_dec : EqDecision ib_rbt_color_t.
Proof. solve_decision. Defined.

Section rbt.
Context {V Arg : Type} {AL : Allocator}.

Record ib_rbt_node_t := mkNode {
  color : ib_rbt_color_t;
  left : nat;
  right : nat;
  parent : nat;
  value : option V
}.

Record ib_rbt_t := mkRbt {
  nil : nat;
  root : nat;
  n_nodes : Z;
  compare : option (V -> V -> Z);
  compare_with_arg : option (Arg -> V -> V -> Z);
  sizeof_value : Z;
  cmp_arg : option Arg
}.

(** The result of a search: the last node visited, NULL in an empty tree, and
    the result of the last comparison. *)
Record ib_rbt_bound_t := mkBound { last : option nat; result : Z }.

(** What the memory holds. *)
Inductive obj := ONode (n : ib_rbt_node_t) | OTree (t : ib_rbt_t).

Definition as_node {T} (f : ib_rbt_node_t -> T) (o : obj) : option T :=
  match o with ONode n => Some (f n) | OTree _ => None end.
Definition as_tree {T} (f : ib_rbt_t -> T) (o : obj) : option T :=
  match o with ONode _ => None | OTree t => Some (f t) end.

(** Access to a field of a node or of a tree. *)
Definition rdn {T} (f : ib_rbt_node_t -> T) (a : nat) : prog (C := obj) T := rd (as_node f) a.
Definition wrn (f : ib_rbt_node_t -> ib_rbt_node_t) (a : nat) : prog (C := obj) () :=
  wr (as_node (fun n => ONode (f n))) a.
Definition rdt {T} (f : ib_rbt_t -> T) (a : nat) : prog (C := obj) T := rd (as_tree f) a.
Definition wrt (f : ib_rbt_t -> ib_rbt_t) (a : nat) : prog (C := obj) () :=
  wr (as_tree (fun t => OTree (f t))) a.

Definition set_color c (n : ib_rbt_node_t) := mkNode c (left n) (right n) (parent n) (value n).
Definition set_left a (n : ib_rbt_node_t) := mkNode (color n) a (right n) (parent n) (value n).
Definition set_right a (n : ib_rbt_node_t) := mkNode (color n) (left n) a (parent n) (value n).
Definition set_parent a (n : ib_rbt_node_t) := mkNode (color n) (left n) (right n) a (value n).
Definition set_value v (n : ib_rbt_node_t) := mkNode (color n) (left n) (right n) (parent n) (Some v).
Definition set_n_nodes z (t : ib_rbt_t) :=
  mkRbt (nil t) (root t) z (compare t) (compare_with_arg t) (sizeof_value t) (cmp_arg t).
Definition set_nil a (t : ib_rbt_t) :=
  mkRbt a (root t) (n_nodes t) (compare t) (compare_with_arg t) (sizeof_value t) (cmp_arg t).
Definition set_root a (t : ib_rbt_t) :=
  mkRbt (nil t) a (n_nodes t) (compare t) (compare_with_arg t) (sizeof_value t) (cmp_arg t).
Definition set_sizeof_value z (t : ib_rbt_t) :=
  mkRbt (nil t) (root t) (n_nodes t) (compare t) (compare_with_arg t) z (cmp_arg t).
Definition set_compare f (t : ib_rbt_t) :=
  mkRbt (nil t) (root t) (n_nodes t) f (compare_with_arg t) (sizeof_value t) (cmp_arg t).
Definition set_compare_with_arg f (t : ib_rbt_t) :=
  mkRbt (nil t) (root t) (n_nodes t) (compare t) f (sizeof_value t) (cmp_arg t).
Definition set_cmp_arg a (t : ib_rbt_t) :=
  mkRbt (nil t) (root t) (n_nodes t) (compare t) (compare_with_arg t) (sizeof_value t) a.

#[global] Arguments set_color _ !_ /.
#[global] Arguments set_left _ !_ /.
#[global] Arguments set_right _ !_ /.
#[global] Arguments set_parent _ !_ /.
#[global] Arguments set_value _ !_ /.
#[global] Arguments set_n_nodes _ !_ /.

(** A null pointer is dereferenced. *)
Definition deref {T} (x : option T) : prog (C := obj) T :=
  match x with Some y => mret y | None => stop end.

Definition ROOT (tree : nat) : prog nat := r ← rdt root tree; rdn left r.

(** The comparison of a key with the value of a node, by the function that
    takes an argument if there is one. *)
Definition compare_keys (tree : nat) (k v : V) : prog Z :=
  arg ← rdt cmp_arg tree;
  match arg with
  | Some x => f ← rdt compare_with_arg tree; g ← deref f; mret (g x k v)
  | None => f ← rdt compare tree; g ← deref f; mret (g k v)
  end.

Definition node_value (a : nat) : prog V := v ← rdn value a; deref v.

Definition compare_node (tree : nat) (k : V) (a : nat) : prog Z :=
  v ← node_value a; compare_keys tree k v.

(** ** Rotations *)

Definition rbt_rotate_left (nil node : nat) : prog () :=
  right' ← rdn right node;
  rl ← rdn left right';
  wrn (set_right rl) node;;
  rl ← rdn left right';
  (if decide (rl = nil) then mret () else wrn (set_parent node) rl);;
  p ← rdn parent node;
  wrn (set_parent p) right';;
  p ← rdn parent node;
  pl ← rdn left p;
  (if decide (node = pl) then wrn (set_left right') p else wrn (set_right right') p);;
  wrn (set_left node) right';;
  wrn (set_parent right') node.

Definition rbt_rotate_right (nil node : nat) : prog () :=
  left' ← rdn left node;
  lr ← rdn right left';
  wrn (set_left lr) node;;
  lr ← rdn right left';
  (if decide (lr = nil) then mret () else wrn (set_parent node) lr);;
  p ← rdn parent node;
  wrn (set_parent p) left';;
  p ← rdn parent node;
  pr ← rdn right p;
  (if decide (node = pr) then wrn (set_right left') p else wrn (set_left left') p);;
  wrn (set_right node) left';;
  wrn (set_parent left') node.

(** ** Insertion *)

Definition rbt_tree_add_child (tree : nat) (b : ib_rbt_bound_t) (node : nat) : prog nat :=
  r ← rdt root tree;
  l ← deref (last b);
  (if decide (l = r \/ (result b < 0)%Z) then wrn (set_left node) l
   else ut_a (bool_decide (result b <> 0%Z));; wrn (set_right node) l);;
  wrn (set_parent l) node;;
  mret node.

Fixpoint tree_insert_loop (fuel : nat) (tree : nat) (key : V) (current : nat) (b : ib_rbt_bound_t)
  : prog ib_rbt_bound_t :=
  match fuel with
  | 0 => stop
  | S fuel =>
      nl ← rdt nil tree;
      if decide (current = nl) then mret b else
      res ← compare_node tree key current;
      next ← (if decide (res < 0)%Z then rdn left current else rdn right current);
      tree_insert_loop fuel tree key next (mkBound (Some current) res)
  end.

(** The assertion behind the loop is its exit condition. *)
Definition rbt_tree_insert (fuel : nat) (tree : nat) (key : V) (node : nat) : prog nat :=
  current ← ROOT tree;
  r ← rdt root tree;
  b ← tree_insert_loop fuel tree key current (mkBound (Some r) 0);
  rbt_tree_add_child tree b node;;
  mret node.

(** One round of the loop of [rbt_balance_tree] on the left of the grand
    parent, and the mirror image: the node to go on with. *)
Definition balance_tree_left (nil node parent' grand_parent : nat) : prog nat :=
  uncle ← rdn right grand_parent;
  uc ← rdn color uncle;
  if decide (uc = IB_RBT_RED) then
    wrn (set_color IB_RBT_BLACK) uncle;;
    wrn (set_color IB_RBT_BLACK) parent';;
    wrn (set_color IB_RBT_RED) grand_parent;;
    mret grand_parent
  else
    pr ← rdn right parent';
    node ← (if decide (node = pr) then rbt_rotate_left nil parent';; mret parent' else mret node);
    p ← rdn parent node;
    g ← rdn parent p;
    p ← rdn parent node;
    wrn (set_color IB_RBT_BLACK) p;;
    wrn (set_color IB_RBT_RED) g;;
    rbt_rotate_right nil g;;
    mret node.

Definition balance_tree_right (nil node parent' grand_parent : nat) : prog nat :=
  uncle ← rdn left grand_parent;
  uc ← rdn color uncle;
  if decide (uc = IB_RBT_RED) then
    wrn (set_color IB_RBT_BLACK) uncle;;
    wrn (set_color IB_RBT_BLACK) parent';;
    wrn (set_color IB_RBT_RED) grand_parent;;
    mret grand_parent
  else
    pl ← rdn left parent';
    node ← (if decide (node = pl) then rbt_rotate_right nil parent';; mret parent' else mret node);
    p ← rdn parent node;
    g ← rdn parent p;
    p ← rdn parent node;
    wrn (set_color IB_RBT_BLACK) p;;
    wrn (set_color IB_RBT_RED) g;;
    rbt_rotate_left nil g;;
    mret node.

Fixpoint balance_tree_loop (fuel : nat) (tree nil node parent' : nat) : prog () :=
  match fuel with
  | 0 => stop
  | S fuel =>
      rt ← ROOT tree;
      if decide (node = rt) then mret () else
      pc ← rdn color parent';
      if decide (pc = IB_RBT_RED) then
        grand_parent ← rdn parent parent';
        gl ← rdn left grand_parent;
        node ← (if decide (parent' = gl) then balance_tree_left nil node parent' grand_parent
                else balance_tree_right nil node parent' grand_parent);
        p ← rdn parent node;
        balance_tree_loop fuel tree nil node p
      else mret ()
  end.

Definition rbt_balance_tree (fuel : nat) (tree node : nat) : prog () :=
  nl ← rdt nil tree;
  p ← rdn parent node;
  wrn (set_color IB_RBT_RED) node;;
  balance_tree_loop fuel tree nl node p;;
  rt ← ROOT tree;
  wrn (set_color IB_RBT_BLACK) rt.

(** ** Neighbours *)

Fixpoint leftmost_loop (fuel : nat) (nil next : nat) : prog nat :=
  match fuel with
  | 0 => stop
  | S fuel =>
      l ← rdn left next;
      if decide (l = nil) then mret next else leftmost_loop fuel nil l
  end.

Fixpoint successor_up_loop (fuel : nat) (rt next parent' : nat) : prog (option nat) :=
  match fuel with
  | 0 => stop
  | S fuel =>
      if decide (parent' = rt) then mret None else
      pr ← rdn right parent';
      if decide (next = pr) then
        p ← rdn parent parent'; successor_up_loop fuel rt parent' p
      else mret (Some parent')
  end.

Definition rbt_find_successor (fuel : nat) (tree current : nat) : prog (option nat) :=
  nl ← rdt nil tree;
  next ← rdn right current;
  if decide (next = nl) then
    p ← rdn parent current;
    rt ← rdt root tree;
    successor_up_loop fuel rt current p
  else
    n ← leftmost_loop fuel nl next; mret (Some n).

Fixpoint rightmost_loop (fuel : nat) (nil prev : nat) : prog nat :=
  match fuel with
  | 0 => stop
  | S fuel =>
      r ← rdn right prev;
      if decide (r = nil) then mret prev else rightmost_loop fuel nil r
  end.

Fixpoint predecessor_up_loop (fuel : nat) (rt prev parent' : nat) : prog (option nat) :=
  match fuel with
  | 0 => stop
  | S fuel =>
      if decide (parent' = rt) then mret None else
      pl ← rdn left parent';
      if decide (prev = pl) then
        p ← rdn parent parent'; predecessor_up_loop fuel rt parent' p
      else mret (Some parent')
  end.

Definition rbt_find_predecessor (fuel : nat) (tree current : nat) : prog (option nat) :=
  nl ← rdt nil tree;
  prev ← rdn left current;
  if decide (prev = nl) then
    p ← rdn parent current;
    rt ← rdt root tree;
    predecessor_up_loop fuel rt current p
  else
    n ← rightmost_loop fuel nl prev; mret (Some n).

(** ** Deletion *)

Definition rbt_eject_node (eject node : nat) : prog () :=
  p ← rdn parent eject;
  pl ← rdn left p;
  (if decide (pl = eject) then wrn (set_left node) p
   else pr ← rdn right p;
        if decide (pr = eject) then wrn (set_right node) p else ut_a false);;
  p ← rdn parent eject;
  wrn (set_parent p) node.

Definition rbt_replace_node (replace node : nat) : prog () :=
  c ← rdn color node;
  l ← rdn left replace;
  wrn (set_left l) node;;
  r ← rdn right replace;
  wrn (set_right r) node;;
  l ← rdn left node;
  wrn (set_parent node) l;;
  r ← rdn right node;
  wrn (set_parent node) r;;
  rbt_eject_node replace node;;
  rc ← rdn color replace;
  wrn (set_color rc) node;;
  wrn (set_color c) replace.

(** The case of [rbt_detach_node] where the node has two children. *)
Definition detach_with_successor (fuel : nat) (tree node : nat) : prog nat :=
  nl ← rdt nil tree;
  next ← rbt_find_successor fuel tree node;
  successor ← deref next;
  ut_a (bool_decide (successor <> nl));;
  sp ← rdn parent successor;
  ut_a (bool_decide (sp <> nl));;
  sl ← rdn left successor;
  ut_a (bool_decide (sl = nl));;
  child ← rdn right successor;
  rbt_eject_node successor child;;
  rbt_replace_node node successor;;
  mret child.

Definition rbt_detach_node (fuel : nat) (tree node : nat) : prog nat :=
  nl ← rdt nil tree;
  l ← rdn left node;
  r ← rdn right node;
  child ←
    (if decide (l <> nl /\ r <> nl) then detach_with_successor fuel tree node
     else
       ut_a (bool_decide (l = nl \/ r = nl));;
       let child := if decide (l <> nl) then l else r in
       rbt_eject_node node child;;
       mret child);
  nl ← rdt nil tree;
  wrn (set_left nl) node;;
  wrn (set_right nl) node;;
  wrn (set_parent nl) node;;
  mret child.

(** [rbt_balance_right] from the point where the sibling is black. *)
Definition balance_right_black (nil parent' sibling : nat) : prog (option nat) :=
  sl ← rdn left sibling;
  lc ← rdn color sl;
  sr ← rdn right sibling;
  rc ← rdn color sr;
  if decide (lc = IB_RBT_BLACK /\ rc = IB_RBT_BLACK) then
    wrn (set_color IB_RBT_RED) sibling;;
    mret (Some parent')
  else
    sibling ←
      (if decide (rc = IB_RBT_BLACK) then
         ut_a (bool_decide (lc = IB_RBT_RED));;
         wrn (set_color IB_RBT_RED) sibling;;
         sl ← rdn left sibling;
         wrn (set_color IB_RBT_BLACK) sl;;
         rbt_rotate_right nil sibling;;
         sibling ← rdn right parent';
         ut_a (bool_decide (sibling <> nil));;
         mret sibling
       else mret sibling);
    pc ← rdn color parent';
    wrn (set_color pc) sibling;;
    sr ← rdn right sibling;
    wrn (set_color IB_RBT_BLACK) sr;;
    wrn (set_color IB_RBT_BLACK) parent';;
    rbt_rotate_left nil parent';;
    mret None.

Definition rbt_balance_right (nil parent' sibling : nat) : prog (option nat) :=
  ut_a (bool_decide (sibling <> nil));;
  sc ← rdn color sibling;
  sibling ←
    (if decide (sc = IB_RBT_RED) then
       wrn (set_color IB_RBT_RED) parent';;
       wrn (set_color IB_RBT_BLACK) sibling;;
       rbt_rotate_left nil parent';;
       sibling ← rdn right parent';
       ut_a (bool_decide (sibling <> nil));;
       mret sibling
     else mret sibling);
  balance_right_black nil parent' sibling.

(** The same for the other side. *)
Definition balance_left_black (nil parent' sibling : nat) : prog (option nat) :=
  sr ← rdn right sibling;
  rc ← rdn color sr;
  sl ← rdn left sibling;
  lc ← rdn color sl;
  if decide (rc = IB_RBT_BLACK /\ lc = IB_RBT_BLACK) then
    wrn (set_color IB_RBT_RED) sibling;;
    mret (Some parent')
  else
    sibling ←
      (if decide (lc = IB_RBT_BLACK) then
         ut_a (bool_decide (rc = IB_RBT_RED));;
         wrn (set_color IB_RBT_RED) sibling;;
         sr ← rdn right sibling;
         wrn (set_color IB_RBT_BLACK) sr;;
         rbt_rotate_left nil sibling;;
         sibling ← rdn left parent';
         ut_a (bool_decide (sibling <> nil));;
         mret sibling
       else mret sibling);
    pc ← rdn color parent';
    wrn (set_color pc) sibling;;
    sl ← rdn left sibling;
    wrn (set_color IB_RBT_BLACK) sl;;
    wrn (set_color IB_RBT_BLACK) parent';;
    rbt_rotate_right nil parent';;
    mret None.

Definition rbt_balance_left (nil parent' sibling : nat) : prog (option nat) :=
  ut_a (bool_decide (sibling <> nil));;
  sc ← rdn color sibling;
  sibling ←
    (if decide (sc = IB_RBT_RED) then
       wrn (set_color IB_RBT_RED) parent';;
       wrn (set_color IB_RBT_BLACK) sibling;;
       rbt_rotate_right nil parent';;
       sibling ← rdn left parent';
       ut_a (bool_decide (sibling <> nil));;
       mret sibling
     else mret sibling);
  balance_left_black nil parent' sibling.

(** One round of the loop of [rbt_remove_node_and_rebalance]. *)
Definition remove_round (tree child : nat) : prog (option nat) :=
  p ← rdn parent child;
  pl ← rdn left p;
  pr ← rdn right p;
  nl ← rdt nil tree;
  if decide (pl = child) then rbt_balance_right nl p pr
  else if decide (pr = child) then rbt_balance_left nl p pl
  else stop.

(** The loop, from a child that is not NULL: the last node. *)
Fixpoint remove_loop (fuel : nat) (tree child : nat) : prog nat :=
  match fuel with
  | 0 => stop
  | S fuel =>
      c ← rdn color child;
      if decide (c = IB_RBT_BLACK) then
        next ← remove_round tree child;
        match next with
        | Some child => remove_loop fuel tree child
        | None => mret child
        end
      else mret child
  end.

Definition rbt_remove_node_and_rebalance (fuel : nat) (tree node : nat) : prog () :=
  child ← rbt_detach_node fuel tree node;
  nc ← rdn color node;
  (if decide (nc = IB_RBT_BLACK) then
     rt ← ROOT tree;
     wrn (set_color IB_RBT_RED) rt;;
     lst ← remove_loop fuel tree child;
     wrn (set_color IB_RBT_BLACK) lst;;
     rt ← ROOT tree;
     wrn (set_color IB_RBT_BLACK) rt
   else mret ());;
  n ← rdt n_nodes tree;
  wrt (set_n_nodes (u64 (n - 1))) tree.

(** ** Trees *)

Fixpoint rbt_free_node (fuel : nat) (node nil : nat) : prog () :=
  match fuel with
  | 0 => stop
  | S fuel =>
      if decide (node = nil) then mret () else
      l ← rdn left node;
      rbt_free_node fuel l nil;;
      r ← rdn right node;
      rbt_free_node fuel r nil;;
      ut_free node
  end.

Definition rbt_free (fuel : nat) (tree : nat) : prog () :=
  rt ← rdt root tree;
  nl ← rdt nil tree;
  rbt_free_node fuel rt nl;;
  nl ← rdt nil tree;
  ut_free nl;;
  ut_free tree.

(** Memory that [memset] has cleared. *)
Definition zero_node : ib_rbt_node_t := mkNode IB_RBT_RED 0 0 0 None.
Definition zero_tree : ib_rbt_t := mkRbt 0 0 0 None None 0 None.

Definition rbt_create (sizeof_value : Z) (compare : option (V -> V -> Z)) : prog nat :=
  tree ← new (OTree zero_tree);
  wrt (set_sizeof_value sizeof_value) tree;;
  node ← new (ONode zero_node);
  wrt (set_nil node) tree;;
  wrn (set_color IB_RBT_BLACK) node;;
  wrn (set_right node) node;;
  wrn (set_left node) node;;
  wrn (set_parent node) node;;
  node ← new (ONode zero_node);
  wrt (set_root node) tree;;
  wrn (set_color IB_RBT_BLACK) node;;
  nl ← rdt nil tree;
  wrn (set_right nl) node;;
  wrn (set_left nl) node;;
  wrn (set_parent nl) node;;
  wrt (set_compare compare) tree;;
  mret tree.

Definition rbt_create_arg_cmp (sizeof_value : Z) (compare : option (Arg -> V -> V -> Z)) (arg : option Arg)
  : prog nat :=
  ut_a (bool_decide (is_Some arg));;
  tree ← rbt_create sizeof_value None;
  wrt (set_cmp_arg arg) tree;;
  wrt (set_compare_with_arg compare) tree;;
  mret tree.

(** Nodes that malloc returns are not initialised: [junk] is what they
    hold. *)
Definition rbt_insert (fuel : nat) (junk : ib_rbt_node_t) (tree : nat) (key v : V) : prog nat :=
  node ← new (ONode junk);
  wrn (set_value v) node;;
  nl ← rdt nil tree;
  wrn (set_right nl) node;;
  wrn (set_left nl) node;;
  wrn (set_parent nl) node;;
  rbt_tree_insert fuel tree key node;;
  rbt_balance_tree fuel tree node;;
  n ← rdt n_nodes tree;
  wrt (set_n_nodes (u64 (n + 1))) tree;;
  mret node.

(** The bound is a structure of the caller, which the function sets to the
    fake root in an empty tree: the result has it too. *)
Definition rbt_add_preallocated_node (fuel : nat) (tree : nat) (b : ib_rbt_bound_t) (node : nat)
  : prog (nat * ib_rbt_bound_t) :=
  nl ← rdt nil tree;
  wrn (set_right nl) node;;
  wrn (set_left nl) node;;
  wrn (set_parent nl) node;;
  b ← match last b with
      | None => r ← rdt root tree; mret (mkBound (Some r) (result b))
      | Some _ => mret b
      end;
  rbt_tree_add_child tree b node;;
  rbt_balance_tree fuel tree node;;
  n ← rdt n_nodes tree;
  wrt (set_n_nodes (u64 (n + 1))) tree;;
  mret (node, b).

Definition rbt_add_node (fuel : nat) (junk : ib_rbt_node_t) (tree : nat) (b : ib_rbt_bound_t) (v : V)
  : prog (nat * ib_rbt_bound_t) :=
  node ← new (ONode junk);
  wrn (set_value v) node;;
  rbt_add_preallocated_node fuel tree b node.

(** ** Searches *)

Fixpoint lookup_loop (fuel : nat) (tree : nat) (key : V) (current : nat) : prog nat :=
  match fuel with
  | 0 => stop
  | S fuel =>
      nl ← rdt nil tree;
      if decide (current = nl) then mret current else
      res ← compare_node tree key current;
      if decide (res < 0)%Z then l ← rdn left current; lookup_loop fuel tree key l
      else if decide (res > 0)%Z then r ← rdn right current; lookup_loop fuel tree key r
      else mret current
  end.

Definition rbt_lookup (fuel : nat) (tree : nat) (key : V) : prog (option nat) :=
  current ← ROOT tree;
  current ← lookup_loop fuel tree key current;
  nl ← rdt nil tree;
  mret (if decide (current = nl) then None else Some current).

Definition rbt_delete (fuel : nat) (tree : nat) (key : V) : prog bool :=
  node ← rbt_lookup fuel tree key;
  match node with
  | Some n => rbt_remove_node_and_rebalance fuel tree n;; ut_free n;; mret true
  | None => mret false
  end.

Definition rbt_remove_node (fuel : nat) (tree : nat) (const_node : nat) : prog nat :=
  rbt_remove_node_and_rebalance fuel tree const_node;;
  mret const_node.

Fixpoint lower_bound_loop (fuel : nat) (tree : nat) (key : V) (current : nat) (lb_node : option nat)
  : prog (option nat) :=
  match fuel with
  | 0 => stop
  | S fuel =>
      nl ← rdt nil tree;
      if decide (current = nl) then mret lb_node else
      res ← compare_node tree key current;
      if decide (res > 0)%Z then r ← rdn right current; lower_bound_loop fuel tree key r lb_node
      else if decide (res < 0)%Z then
        l ← rdn left current; lower_bound_loop fuel tree key l (Some current)
      else mret (Some current)
  end.

Definition rbt_lower_bound (fuel : nat) (tree : nat) (key : V) : prog (option nat) :=
  current ← ROOT tree; lower_bound_loop fuel tree key current None.

Fixpoint upper_bound_loop (fuel : nat) (tree : nat) (key : V) (current : nat) (ub_node : option nat)
  : prog (option nat) :=
  match fuel with
  | 0 => stop
  | S fuel =>
      nl ← rdt nil tree;
      if decide (current = nl) then mret ub_node else
      res ← compare_node tree key current;
      if decide (res > 0)%Z then r ← rdn right current; upper_bound_loop fuel tree key r (Some current)
      else if decide (res < 0)%Z then
        l ← rdn left current; upper_bound_loop fuel tree key l ub_node
      else mret (Some current)
  end.

Definition rbt_upper_bound (fuel : nat) (tree : nat) (key : V) : prog (option nat) :=
  current ← ROOT tree; upper_bound_loop fuel tree key current None.

(** The loop that [rbt_search] and [rbt_search_cmp] share, for a comparison
    [cmp] of the key with a node. *)
Fixpoint rbt_search_loop (fuel : nat) (tree : nat) (cmp : nat -> prog Z) (current : nat) (b : ib_rbt_bound_t)
  : prog ib_rbt_bound_t :=
  match fuel with
  | 0 => stop
  | S fuel =>
      nl ← rdt nil tree;
      if decide (current = nl) then mret b else
      res ← cmp current;
      let b := mkBound (Some current) res in
      if decide (res > 0)%Z then r ← rdn right current; rbt_search_loop fuel tree cmp r b
      else if decide (res < 0)%Z then l ← rdn left current; rbt_search_loop fuel tree cmp l b
      else mret b
  end.

Definition rbt_search (fuel : nat) (tree : nat) (key : V) : prog (Z * ib_rbt_bound_t) :=
  current ← ROOT tree;
  b ← rbt_search_loop fuel tree (compare_node tree key) current (mkBound None 1);
  mret (result b, b).

Definition search_cmp_node (tree : nat) (key : V) (compare : option (V -> V -> Z))
  (arg_compare : option (Arg -> V -> V -> Z)) (a : nat) : prog Z :=
  v ← node_value a;
  match arg_compare with
  | Some f => x ← rdt cmp_arg tree; y ← deref x; mret (f y key v)
  | None => f ← deref compare; mret (f key v)
  end.

Definition rbt_search_cmp (fuel : nat) (tree : nat) (key : V) (compare : option (V -> V -> Z))
  (arg_compare : option (Arg -> V -> V -> Z)) : prog (Z * ib_rbt_bound_t) :=
  current ← ROOT tree;
  b ← rbt_search_loop fuel tree (search_cmp_node tree key compare arg_compare) current (mkBound None 1);
  mret (result b, b).

(** ** Traversal *)

Fixpoint first_loop (fuel : nat) (tree current : nat) (first : option nat) : prog (option nat) :=
  match fuel with
  | 0 => stop
  | S fuel =>
      nl ← rdt nil tree;
      if decide (current = nl) then mret first else
      l ← rdn left current; first_loop fuel tree l (Some current)
  end.

Definition rbt_first (fuel : nat) (tree : nat) : prog (option nat) :=
  current ← ROOT tree; first_loop fuel tree current None.

Fixpoint last_loop (fuel : nat) (tree current : nat) (lst : option nat) : prog (option nat) :=
  match fuel with
  | 0 => stop
  | S fuel =>
      nl ← rdt nil tree;
      if decide (current = nl) then mret lst else
      r ← rdn right current; last_loop fuel tree r (Some current)
  end.

Definition rbt_last (fuel : nat) (tree : nat) : prog (option nat) :=
  current ← ROOT tree; last_loop fuel tree current None.

Definition rbt_next (fuel : nat) (tree : nat) (current : option nat) : prog (option nat) :=
  match current with Some c => rbt_find_successor fuel tree c | None => mret None end.

Definition rbt_prev (fuel : nat) (tree : nat) (current : option nat) : prog (option nat) :=
  match current with Some c => rbt_find_predecessor fuel tree c | None => mret None end.

Definition rbt_reset (tree : nat) : prog () :=
  wrt (set_n_nodes 0) tree;;
  r ← rdt root tree;
  nl ← rdt nil tree;
  wrn (set_right nl) r;;
  wrn (set_left nl) r.

Definition rbt_clear (fuel : nat) (tree : nat) : prog () :=
  rt ← ROOT tree;
  nl ← rdt nil tree;
  rbt_free_node fuel rt nl;;
  rbt_reset tree.

Definition rbt_size (tree : nat) : prog Z := rdt n_nodes tree.
Definition rbt_empty (tree : nat) : prog bool := n ← rbt_size tree; mret (bool_decide (n = 0%Z)).

(** ** Merging *)

Fixpoint merge_uniq_loop (fuel1 fuel : nat) (junk : ib_rbt_node_t) (dst src : nat) (src_node : option nat)
  (n_merged : Z) : prog Z :=
  match fuel1 with
  | 0 => stop
  | S fuel1 =>
      match src_node with
      | None => mret n_merged
      | Some s =>
          v ← node_value s;
          rb ← rbt_search fuel dst v;
          n_merged ← (if decide (rb.1 <> 0%Z) then
                        v ← node_value s; rbt_add_node fuel junk dst rb.2 v;; mret (u64 (n_merged + 1))
                      else mret n_merged);
          next ← rbt_next fuel src (Some s);
          merge_uniq_loop fuel1 fuel junk dst src next n_merged
      end
  end.

Definition rbt_merge_uniq (fuel : nat) (junk : ib_rbt_node_t) (dst src : nat) : prog Z :=
  src_node ← rbt_first fuel src;
  e ← rbt_empty src;
  if decide (e = true \/ dst = src) then mret 0%Z else
  merge_uniq_loop fuel fuel junk dst src src_node 0.

Fixpoint merge_destructive_loop (fuel1 fuel : nat) (dst src : nat) (src_node : option nat) : prog () :=
  match fuel1 with
  | 0 => stop
  | S fuel1 =>
      match src_node with
      | None => mret ()
      | Some prev =>
          next ← rbt_next fuel src (Some prev);
          v ← node_value prev;
          rb ← rbt_search fuel dst v;
          (if decide (rb.1 <> 0%Z) then
             rbt_remove_node_and_rebalance fuel src prev;;
             nl ← rdt nil dst;
             wrn (set_right nl) prev;;
             wrn (set_left nl) prev;;
             wrn (set_parent nl) prev;;
             rbt_tree_add_child dst rb.2 prev;;
             rbt_balance_tree fuel dst prev;;
             n ← rdt n_nodes dst;
             wrt (set_n_nodes (u64 (n + 1))) dst
           else mret ());;
          merge_destructive_loop fuel1 fuel dst src next
      end
  end.

Definition rbt_merge_uniq_destructive (fuel : nat) (dst src : nat) : prog Z :=
  old_size ← rbt_size dst;
  e ← rbt_empty src;
  if decide (e = true \/ dst = src) then mret 0%Z else
  src_node ← rbt_first fuel src;
  merge_destructive_loop fuel fuel dst src src_node;;
  n ← rbt_size dst;
  mret (u64 (n - old_size)).

(** ** Validation *)

(** Whether the node is greater than the one before it. *)
Definition follows (tree : nat) (prev : option nat) (n : nat) : prog bool :=
  match prev with
  | None => mret true
  | Some p => k ← node_value p; v ← node_value n; res ← compare_keys tree k v; mret (bool_decide (res < 0)%Z)
  end.

Fixpoint check_ordering_loop (fuel1 fuel : nat) (tree : nat) (node prev : option nat) : prog bool :=
  match fuel1 with
  | 0 => stop
  | S fuel1 =>
      match node with
      | None => mret true
      | Some n =>
          ok ← follows tree prev n;
          if decide (ok = true) then
            next ← rbt_next fuel tree (Some n);
            check_ordering_loop fuel1 fuel tree next (Some n)
          else mret false
      end
  end.

Definition rbt_check_ordering (fuel : nat) (tree : nat) : prog bool :=
  node ← rbt_first fuel tree; check_ordering_loop fuel fuel tree node None.

Fixpoint rbt_count_black_nodes (fuel : nat) (tree node : nat) : prog Z :=
  match fuel with
  | 0 => stop
  | S fuel =>
      nl ← rdt nil tree;
      if decide (node = nl) then mret 1%Z else
      l ← rdn left node;
      left_height ← rbt_count_black_nodes fuel tree l;
      r ← rdn right node;
      right_height ← rbt_count_black_nodes fuel tree r;
      if decide (left_height = 0 \/ right_height = 0 \/ left_height <> right_height)%Z then mret 0%Z else
      c ← rdn color node;
      if decide (c = IB_RBT_RED) then
        lc ← rdn color l;
        rc ← rdn color r;
        if decide (lc <> IB_RBT_BLACK \/ rc <> IB_RBT_BLACK) then mret 0%Z else mret left_height
      else mret (u64 (right_height + 1))
  end.

Definition rbt_validate (fuel : nat) (tree : nat) : prog bool :=
  rt ← ROOT tree;
  n ← rbt_count_black_nodes fuel tree rt;
  if decide (n > 0)%Z then rbt_check_ordering fuel tree else mret false.

(** The nodes that are printed, in order. *)
Fixpoint rbt_print_subtree (fuel : nat) (tree node : nat) : prog (list nat) :=
  match fuel with
  | 0 => stop
  | S fuel =>
      nl ← rdt nil tree;
      if decide (node = nl) then mret [] else
      l ← rdn left node;
      xs ← rbt_print_subtree fuel tree l;
      r ← rdn right node;
      ys ← rbt_print_subtree fuel tree r;
      mret (node :: xs ++ ys)
  end.

Definition rbt_print (fuel : nat) (tree : nat) : prog (list nat) :=
  rt ← ROOT tree; rbt_print_subtree fuel tree rt.

End rbt.
Arguments ib_rbt_node_t : clear implicits.
Arguments ib_rbt_t : clear implicits.
Arguments obj : clear implicits.

End RbTree.
