(* ===== verification/RbRep.v ===== *)
(** * Red-black trees: shape of the memory and rotations

    A tree in memory is described by a tree with addresses, [tree_at]; the rest
    of the tree around it by its path to the root, [ctx_at].  The rules for the
    access of fields, for walking along links and for the rotations are proved
    here. *)

From S2P Require Import Prelude SepHeap RbTree.
From iris.proofmode Require Import coq_tactics environments intro_patterns spec_patterns.

Module RbRep.
Import RbTree.

Section rep.
Context {V Arg : Type}.
Local Notation obj := (obj V Arg).
Local Notation node := (ib_rbt_node_t V).
Local Notation hProp := (hProp obj).
Implicit Types (c : ib_rbt_color_t) (a p q : nat).

(** ** Trees with addresses *)

Inductive tree := Leaf | Node (c : ib_rbt_color_t) (l : tree) (a : nat) (v : V) (r : tree).

(** A step of the path from a subtree to the root: the subtree is to the left
    or to the right of the node. *)
Inductive frame :=
| InLeft (c : ib_rbt_color_t) (a : nat) (v : V) (r : tree)
| InRight (c : ib_rbt_color_t) (l : tree) (a : nat) (v : V).

Definition fill (f : frame) (t : tree) : tree :=
  match f with
  | InLeft c a v r => Node c t a v r
  | InRight c l a v => Node c l a v t
  end.
Fixpoint plug (k : list frame) (t : tree) : tree :=
  match k with [] => t | f :: k => plug k (fill f t) end.

Definition tcolor (t : tree) : ib_rbt_color_t :=
  match t with Leaf => IB_RBT_BLACK | Node c _ _ _ _ => c end.
Definition paint c (t : tree) : tree :=
  match t with Leaf => Leaf | Node _ l a v r => Node c l a v r end.
Definition fcolor (f : frame) : ib_rbt_color_t :=
  match f with InLeft c _ _ _ | InRight c _ _ _ => c end.

(** The nodes from left to right. *)
Fixpoint inorder (t : tree) : list (nat * V) :=
  match t with Leaf => [] | Node _ l a v r => inorder l ++ (a, v) :: inorder r end.

Fixpoint before (k : list frame) : list (nat * V) :=
  match k with
  | [] => []
  | InLeft _ _ _ _ :: k => before k
  | InRight _ l a v :: k => before k ++ inorder l ++ [(a, v)]
  end.
Fixpoint after (k : list frame) : list (nat * V) :=
  match k with
  | [] => []
  | InLeft _ a v r :: k => (a, v) :: inorder r ++ after k
  | InRight _ _ _ _ :: k => after k
  end.

Lemma inorder_paint c t : inorder (paint c t) = inorder t.
Proof. by destruct t. Qed.

Lemma inorder_plug k t : inorder (plug k t) = before k ++ inorder t ++ after k.
Proof.
  revert t. induction k as [|[c a v r|c l a v] k IH]; intros t; simpl.
  - by rewrite app_nil_r.
  - rewrite IH. simpl. by rewrite -!app_assoc.
  - rewrite IH. simpl. by rewrite -!app_assoc.
Qed.

Fixpoint size (t : tree) : nat := match t with Leaf => 0 | Node _ l _ _ r => S (size l + size r) end.

Fixpoint height (t : tree) : nat := match t with Leaf => 0 | Node _ l _ _ r => S (Nat.max (height l) (height r)) end.

Lemma height_size t : height t <= size t.
Proof. induction t; simpl; lia. Qed.

Lemma size_inorder t : size t = length (inorder t).
Proof. induction t as [|c l IHl a v r IHr]; simpl; [done|]. rewrite length_app /= IHl IHr. lia. Qed.

Lemma size_plug k t : size (plug k t) = length (before k) + size t + length (after k).
Proof. rewrite !size_inorder inorder_plug !length_app. lia. Qed.

Lemma length_height k t : length k + height t <= height (plug k t).
Proof.
  revert t. induction k as [|f k IH]; intros t; simpl; [lia|].
  specialize (IH (fill f t)). destruct f; simpl in *; lia.
Qed.

Lemma plug_app k1 k2 t : plug (k1 ++ k2) t = plug k2 (plug k1 t).
Proof. revert t. induction k1 as [|f k1 IH]; intros t; simpl; [done|apply IH]. Qed.

Lemma plug_leaf k t : plug k t = Leaf -> k = [].
Proof.
  revert t. induction k as [|f k IH]; intros t; simpl; [done|]. intros E. specialize (IH _ E). subst k.
  by destruct f.
Qed.

(** ** Assertions *)

Section at_addresses.
Variables nl rt : nat.

Definition addr (t : tree) : nat := match t with Leaf => nl | Node _ _ a _ _ => a end.

Definition node_at a (n : node) : hProp := pts a (ONode n).

Fixpoint tree_at (t : tree) (p : nat) : hProp :=
  (match t with
  | Leaf => emp
  | Node c l a v r =>
      node_at a (mkNode c (addr l) (addr r) p (Some v)) ∗ tree_at l a ∗ tree_at r a
  end)%I.

(** The node above the subtree. *)
Definition top (k : list frame) : nat :=
  match k with [] => rt | InLeft _ a _ _ :: _ | InRight _ _ a _ :: _ => a end.

Fixpoint ctx_at (k : list frame) (hole : nat) : hProp :=
  (match k with
  | [] => node_at rt (mkNode IB_RBT_BLACK hole nl nl None)
  | InLeft c a v r :: k =>
      node_at a (mkNode c hole (addr r) (top k) (Some v)) ∗ tree_at r a ∗ ctx_at k a
  | InRight c l a v :: k =>
      node_at a (mkNode c (addr l) hole (top k) (Some v)) ∗ tree_at l a ∗ ctx_at k a
  end)%I.

(** The sentinel: its parent is whatever the last deletion wrote. *)
Definition nil_at c p : hProp := node_at nl (mkNode c nl nl p None).

(** A subtree in its place. *)
Definition zip (k : list frame) (t : tree) : hProp := (ctx_at k (addr t) ∗ tree_at t (top k))%I.

Lemma zip_fill f k t : zip (f :: k) t ⊣⊢ zip k (fill f t).
Proof.
  unfold zip. destruct f as [c a v r|c l a v]; simpl; (iSplit; [iIntros "((? & ? & ?) & ?)"|iIntros "(? & ? & ? & ?)"]; iFrame).
Qed.

Lemma zip_plug k t : zip k t ⊣⊢ zip [] (plug k t).
Proof. revert t. induction k as [|f k IH]; intros t; simpl; [done|]. by rewrite zip_fill IH. Qed.

Lemma zip_app ks k t : zip (ks ++ k) t ⊣⊢ zip k (plug ks t).
Proof. revert t. induction ks as [|f ks IH]; intros t; simpl; [done|]. by rewrite zip_fill IH. Qed.

Lemma zip_left k c l a v r : zip k (Node c l a v r) ⊣⊢ zip (InLeft c a v r :: k) l.
Proof. by rewrite (zip_fill (InLeft c a v r)). Qed.

Lemma zip_right k c l a v r : zip k (Node c l a v r) ⊣⊢ zip (InRight c l a v :: k) r.
Proof. by rewrite (zip_fill (InRight c l a v)). Qed.

End at_addresses.

(** ** Rules for the access of fields *)

Definition tree_cell (tr : nat) (d : ib_rbt_t V Arg) : hProp := pts tr (OTree d).

Lemma wp_rdn {T} (f : node -> T) a n (Q : T -> hProp) :
  node_at a n -∗ (node_at a n -∗ Q (f n)) -∗ wp (rdn f a) Q.
Proof. iIntros "H K". by iApply (wp_rd with "H"). Qed.

Lemma wp_wrn (f : node -> node) a n (Q : () -> hProp) :
  node_at a n -∗ (node_at a (f n) -∗ Q ()) -∗ wp (wrn f a) Q.
Proof. iIntros "H K". by iApply (wp_wr with "H"). Qed.

Lemma wp_rdt {T} (f : ib_rbt_t V Arg -> T) a d (Q : T -> hProp) :
  tree_cell a d -∗ (tree_cell a d -∗ Q (f d)) -∗ wp (rdt f a) Q.
Proof. iIntros "H K". by iApply (wp_rd with "H"). Qed.

Lemma wp_wrt (f : ib_rbt_t V Arg -> ib_rbt_t V Arg) a d (Q : () -> hProp) :
  tree_cell a d -∗ (tree_cell a (f d) -∗ Q ()) -∗ wp (wrt f a) Q.
Proof. iIntros "H K". by iApply (wp_wr with "H"). Qed.

Lemma wp_ut_a b (Q : () -> hProp) : b = true -> Q () ⊢ wp (ut_a b) Q.
Proof. intros ->. apply wp_ret. Qed.

Lemma node_at_ne a b m n : node_at a m -∗ node_at b n -∗ ⌜a <> b⌝ : hProp.
Proof. iIntros "H1 H2". by iApply (pts_ne with "H1 H2"). Qed.

Lemma wp_color (nl : nat) t p q (Q : ib_rbt_color_t -> hProp) :
  nil_at nl IB_RBT_BLACK p -∗ tree_at nl t q -∗
  (nil_at nl IB_RBT_BLACK p -∗ tree_at nl t q -∗ Q (tcolor t)) -∗
  wp (rdn color (addr nl t)) Q.
Proof.
  iIntros "N T K". destruct t as [|c l a v r]; simpl.
  - iApply (wp_rdn with "N"). iIntros "N". by iApply ("K" with "N").
  - iDestruct "T" as "(A & L & R)". iApply (wp_rdn with "A"). iIntros "A". iApply ("K" with "N"). iFrame.
Qed.

End rep.

(** One step of a program: split off its first command, or run it on a cell
    that is at hand. *)
Ltac wp_step :=
  lazymatch goal with
  | |- envs_entails ?D (wp ?m _) =>
    lazymatch m with
    | mbind _ _ => iApply wp_bind
    | mret _ => iApply wp_ret
    | rdn _ ?a =>
      match D with
      | context [Esnoc _ ?i (node_at a _)] =>
        iApply (wp_rdn with i); iIntros [IIdent i]; simpl
      | context [Esnoc _ ?i (tree_at _ ?t _)] =>
        lazymatch a with addr _ t =>
          match D with context [Esnoc _ ?j (nil_at _ IB_RBT_BLACK _)] =>
            iApply (wp_color with [SIdent j []; SIdent i []]); iIntros [IIdent j; IIdent i]; simpl end
        end
      end
    | wrn _ ?a =>
      match D with context [Esnoc _ ?i (node_at a _)] =>
        iApply (wp_wrn with i); iIntros [IIdent i]; simpl end
    | rdt _ ?a =>
      match D with context [Esnoc _ ?i (tree_cell a _)] =>
        iApply (wp_rdt with i); iIntros [IIdent i]; simpl end
    | wrt _ ?a =>
      match D with context [Esnoc _ ?i (tree_cell a _)] =>
        iApply (wp_wrt with i); iIntros [IIdent i]; simpl end
    end
  end.

(** Two trees have the same nodes in the same order. *)
Ltac same_order :=
  rewrite ?inorder_plug /=; repeat (first [rewrite -app_assoc|rewrite inorder_paint]; simpl); done.

Section moves.
Context {V Arg : Type}.
Local Notation obj := (obj V Arg).
Local Notation hProp := (hProp obj).
Implicit Types (c : ib_rbt_color_t) (a p q : nat).
Variables nl rt : nat.

(** The address of a subtree is not that of a node elsewhere. *)
Lemma addr_ne t q a n c p : nil_at nl c p -∗ tree_at nl t q -∗ node_at a n -∗ ⌜addr nl t <> a⌝ : hProp.
Proof.
  iIntros "N T A". destruct t as [|c' l b v r]; simpl.
  - by iApply (node_at_ne with "N A").
  - iDestruct "T" as "(B & _ & _)". by iApply (node_at_ne with "B A").
Qed.

Lemma wp_set_parent_if t q a c p (Q : () -> hProp) :
  nil_at nl c p -∗ tree_at nl t q -∗ (nil_at nl c p -∗ tree_at nl t a -∗ Q ()) -∗
  wp (if decide (addr nl t = nl) then mret () else wrn (set_parent a) (addr nl t)) Q.
Proof.
  iIntros "N T K". destruct t as [|c' l b v r]; simpl.
  - rewrite decide_True; [|done]. wp_step. iApply ("K" with "N T").
  - iDestruct "T" as "(B & L & R)". iDestruct (node_at_ne with "B N") as %Hne.
    rewrite decide_False; [|done]. wp_step. iApply ("K" with "N"). iFrame.
Qed.

(** The node above a subtree is made to point to another one. *)
Lemma wp_relink_left {T} k y x n c p (K : prog T) (Q : T -> hProp) :
  nil_at nl c p -∗ node_at y n -∗ ctx_at nl rt k y -∗
  (nil_at nl c p -∗ node_at y n -∗ ctx_at nl rt k x -∗ wp K Q) -∗
  wp (pl ← rdn left (top rt k);
      (if decide (y = pl) then wrn (set_left x) (top rt k) else wrn (set_right x) (top rt k));; K) Q.
Proof.
  iIntros "N Y C HQ". destruct k as [|[ck a v r|ck l a v] k]; simpl.
  - do 2 wp_step. rewrite decide_True; [|done]. do 2 wp_step. iApply ("HQ" with "N Y C").
  - iDestruct "C" as "(A & R & C)". do 2 wp_step. rewrite decide_True; [|done]. do 2 wp_step.
    iApply ("HQ" with "N Y"). iFrame.
  - iDestruct "C" as "(A & L & C)". iDestruct (addr_ne with "N L Y") as %Hne.
    do 2 wp_step. rewrite decide_False; [|done]. do 2 wp_step. iApply ("HQ" with "N Y"). iFrame.
Qed.

Lemma wp_relink_right {T} k y x n c p (K : prog T) (Q : T -> hProp) :
  nil_at nl c p -∗ node_at y n -∗ ctx_at nl rt k y -∗
  (nil_at nl c p -∗ node_at y n -∗ ctx_at nl rt k x -∗ wp K Q) -∗
  wp (pr ← rdn right (top rt k);
      (if decide (y = pr) then wrn (set_right x) (top rt k) else wrn (set_left x) (top rt k));; K) Q.
Proof.
  iIntros "N Y C HQ". destruct k as [|[ck a v r|ck l a v] k]; simpl.
  - iDestruct (node_at_ne with "Y N") as %Hne.
    do 2 wp_step. rewrite decide_False; [|done]. do 2 wp_step. iApply ("HQ" with "N Y C").
  - iDestruct "C" as "(A & R & C)". iDestruct (addr_ne with "N R Y") as %Hne.
    do 2 wp_step. rewrite decide_False; [|done]. do 2 wp_step. iApply ("HQ" with "N Y"). iFrame.
  - iDestruct "C" as "(A & L & C)". do 2 wp_step. rewrite decide_True; [|done]. do 2 wp_step.
    iApply ("HQ" with "N Y"). iFrame.
Qed.

Lemma wp_rotate_left k c1 t1 x v c2 t2 y w t3 c p (Q : () -> hProp) :
  nil_at nl c p -∗ zip nl rt k (Node c1 t1 x v (Node c2 t2 y w t3)) -∗
  (nil_at nl c p -∗ zip nl rt k (Node c2 (Node c1 t1 x v t2) y w t3) -∗ Q ()) -∗
  wp (rbt_rotate_left nl x) Q.
Proof.
  rewrite /zip /=. iIntros "N (K & X & T1 & Y & T2 & T3) HQ". unfold rbt_rotate_left.
  do 9 wp_step. iApply (wp_set_parent_if with "N T2"). iIntros "N T2". do 6 wp_step.
  iApply (wp_relink_left with "N X K"). iIntros "N X K". do 3 wp_step.
  iApply ("HQ" with "N"). iFrame.
Qed.

Lemma wp_rotate_right k c1 c2 t1 x v t2 y w t3 c p (Q : () -> hProp) :
  nil_at nl c p -∗ zip nl rt k (Node c1 (Node c2 t1 x v t2) y w t3) -∗
  (nil_at nl c p -∗ zip nl rt k (Node c2 t1 x v (Node c1 t2 y w t3)) -∗ Q ()) -∗
  wp (rbt_rotate_right nl y) Q.
Proof.
  rewrite /zip /=. iIntros "N (K & Y & (X & T1 & T2) & T3) HQ". unfold rbt_rotate_right.
  do 9 wp_step. iApply (wp_set_parent_if with "N T2"). iIntros "N T2". do 6 wp_step.
  iApply (wp_relink_right with "N Y K"). iIntros "N Y K". do 3 wp_step.
  iApply ("HQ" with "N"). iFrame.
Qed.

End moves.
End RbRep.
