(* ===== verification/RbInsert.v ===== *)
(** * Red-black trees: insertion

    The red-black properties, for a tree and for the path above a subtree, and
    the proof that [rbt_balance_tree] restores them. *)

From S2P Require Import Prelude SepHeap RbTree RbRep.
From iris.proofmode Require Import coq_tactics environments intro_patterns spec_patterns.

Module RbInsert.
Import RbTree RbRep.

Section invariant.
Context {V : Type}.
Implicit Types (t l r : tree (V := V)) (f g : frame (V := V)) (k : list (frame (V := V))).

(** Red nodes have black children, and every path to a leaf has [n] black
    nodes, the leaf included. *)
Inductive is_rb : tree -> nat -> Prop :=
| rb_leaf : is_rb Leaf 1
| rb_red l a v r n : is_rb l n -> is_rb r n -> tcolor l = IB_RBT_BLACK -> tcolor r = IB_RBT_BLACK ->
    is_rb (Node IB_RBT_RED l a v r) n
| rb_black l a v r n : is_rb l n -> is_rb r n -> is_rb (Node IB_RBT_BLACK l a v r) (S n).

Definition sibling f : tree := match f with InLeft _ _ _ r => r | InRight _ l _ _ => l end.
Definition faddr f : nat := match f with InLeft _ a _ _ | InRight _ _ a _ => a end.

(** A path that a subtree of black height [n] completes to a red-black tree
    with a black root, but for the colour of the subtree. *)
Inductive ctx_rb : list frame -> nat -> Prop :=
| ctx_nil n : ctx_rb [] n
| ctx_black f k n : fcolor f = IB_RBT_BLACK -> is_rb (sibling f) n -> ctx_rb k (S n) -> ctx_rb (f :: k) n
| ctx_red f g k n : fcolor f = IB_RBT_RED -> is_rb (sibling f) n -> tcolor (sibling f) = IB_RBT_BLACK ->
    fcolor g = IB_RBT_BLACK -> ctx_rb (g :: k) n -> ctx_rb (f :: g :: k) n.

Definition under_black k : Prop := match k with [] => True | f :: _ => fcolor f = IB_RBT_BLACK end.

(** The height is logarithmic in the number of nodes. *)
Lemma is_rb_height t n : is_rb t n -> height t + 2 <= 2 * n + (if tcolor t is IB_RBT_RED then 1 else 0).
Proof. induction 1 as [|l a v r n H1 IH1 H2 IH2 E1 E2|l a v r n H1 IH1 H2 IH2]; simpl in *.
  - lia.
  - rewrite E1 in IH1. rewrite E2 in IH2. lia.
  - destruct (tcolor l), (tcolor r); lia.
Qed.

Lemma is_rb_size t n : is_rb t n -> 2 ^ n <= 2 * (size t + 1).
Proof. induction 1; simpl in *; lia. Qed.

Lemma rb_log_height t n : is_rb t n -> tcolor t = IB_RBT_BLACK -> height t <= 2 * Nat.log2 (size t + 1).
Proof.
  intros H E. pose proof (is_rb_height t n H) as H1. pose proof (is_rb_size t n H) as H2. rewrite E in H1.
  assert (1 <= n) by (clear -H; induction H; lia). destruct n as [|n]; [lia|]. simpl in H2.
  assert (n <= Nat.log2 (size t + 1)); [|lia]. apply Nat.log2_le_pow2; lia.
Qed.

Lemma is_rb_red l a v r n : is_rb (Node IB_RBT_RED l a v r) n ->
  is_rb l n /\ is_rb r n /\ tcolor l = IB_RBT_BLACK /\ tcolor r = IB_RBT_BLACK.
Proof. by inversion 1. Qed.

Lemma is_rb_black l a v r n : is_rb (Node IB_RBT_BLACK l a v r) n ->
  exists m, n = S m /\ is_rb l m /\ is_rb r m.
Proof. inversion 1. eauto. Qed.

Lemma ctx_rb_black f k n : fcolor f = IB_RBT_BLACK -> ctx_rb (f :: k) n -> is_rb (sibling f) n /\ ctx_rb k (S n).
Proof. intros E. inversion 1; [done|congruence]. Qed.

Lemma ctx_rb_red f k n : fcolor f = IB_RBT_RED -> ctx_rb (f :: k) n ->
  is_rb (sibling f) n /\ tcolor (sibling f) = IB_RBT_BLACK /\
  exists g k', k = g :: k' /\ fcolor g = IB_RBT_BLACK /\ ctx_rb k n.
Proof. intros E. inversion 1; [congruence|]. subst. eauto 10. Qed.

Lemma paint_black t n : is_rb t n -> exists m, is_rb (paint IB_RBT_BLACK t) m.
Proof. destruct 1; simpl; eauto using is_rb. Qed.

Lemma paint_id t : paint (tcolor t) t = t.
Proof. by destruct t. Qed.

Lemma tcolor_cases t : tcolor t = IB_RBT_BLACK \/ exists l a v r, t = Node IB_RBT_RED l a v r.
Proof. destruct t as [|[] l a v r]; simpl; eauto 10. Qed.

(** The subtree and the path together are a red-black tree. *)
Lemma is_rb_plug k t n : ctx_rb k n -> is_rb t n -> (tcolor t = IB_RBT_RED -> under_black k) ->
  exists m, is_rb (plug k t) m.
Proof.
  intros H. revert t. induction H as [n|f k n E Hs Hk IH|f g k n E Hs Es Eg Hk IH]; intros t Ht Hc.
  - by exists n.
  - apply (IH (fill f t)); destruct f; simplify_eq/=; [by constructor|by constructor|done|done].
  - assert (tcolor t = IB_RBT_BLACK) as Hb by (destruct (tcolor t); [|done]; specialize (Hc eq_refl); simpl in Hc; congruence).
    apply (IH (fill f t)); destruct f; simplify_eq/=; [by constructor|by constructor|done|done].
Qed.

Lemma tcolor_plug f k t n : ctx_rb (f :: k) n -> tcolor (plug (f :: k) t) = IB_RBT_BLACK.
Proof.
  revert f t n. induction k as [|g k IH]; intros f t n H.
  - inversion H; subst. by destruct f.
  - inversion H; subst; eapply (IH g (fill f t)); eassumption.
Qed.

(** A path into a red-black tree with a black root. *)
Lemma is_rb_unplug k t m : is_rb (plug k t) m -> tcolor (plug k t) = IB_RBT_BLACK ->
  exists n, ctx_rb k n /\ is_rb t n /\ (tcolor t = IB_RBT_RED -> under_black k /\ k <> []).
Proof.
  revert t. induction k as [|f k IH]; intros t; simpl.
  - intros H E. exists m. split_and!; [constructor|done|congruence].
  - intros H E. destruct (IH _ H E) as (n & Hk & Ht & Hu).
    destruct f as [[] a v r|[] l a v]; simpl in Ht.
    1,3: destruct (Hu eq_refl) as [Hg Hne]; destruct k as [|g k]; [done|];
      apply is_rb_red in Ht as (H1 & H2 & E1 & E2); exists n; split_and!; [by constructor|done|congruence].
    all: apply is_rb_black in Ht as (n' & -> & H1 & H2); exists n'; split_and!; [by constructor|done|done].
Qed.

End invariant.

#[export] Hint Resolve rb_leaf rb_red rb_black ctx_nil ctx_black ctx_red : mc.

Section insert.
Context {V Arg : Type}.
Local Notation obj := (obj V Arg).
Local Notation hProp := (hProp obj).
Local Notation tree := (RbRep.tree (V := V)).
Local Notation frame := (RbRep.frame (V := V)).
Implicit Types (c : ib_rbt_color_t) (a p q : nat) (t : tree) (f g : frame) (k : list frame).
Variables nl rt : nat.

Fixpoint root_addr (k : list frame) (hole : nat) : nat :=
  match k with [] => hole | f :: k => root_addr k (faddr f) end.

(** A red node whose parent may be red, with everything else in order. *)
Definition ins_ok k t : Prop := tcolor t = IB_RBT_RED /\ exists n, ctx_rb k n /\ is_rb t n.

(** A round leads to a node nearer to the root, in a tree of the same nodes. *)
Definition ins_round k t k1 t1 : Prop :=
  length k1 < length k /\ inorder (plug k1 t1) = inorder (plug k t) /\ ins_ok k1 t1.

Lemma ins_ok_inv f k t : ins_ok (f :: k) t -> fcolor f = IB_RBT_RED ->
  exists l a v r n g k', t = Node IB_RBT_RED l a v r /\ k = g :: k' /\ fcolor g = IB_RBT_BLACK /\
    is_rb l n /\ is_rb r n /\ tcolor l = IB_RBT_BLACK /\ tcolor r = IB_RBT_BLACK /\
    is_rb (sibling f) n /\ tcolor (sibling f) = IB_RBT_BLACK /\ is_rb (sibling g) n /\ ctx_rb k' (S n).
Proof.
  intros (Ec & n & Hk & Ht) Ef. destruct t as [|[] l a v r]; simplify_eq/=.
  apply is_rb_red in Ht as (H1 & H2 & H3 & H4).
  apply ctx_rb_red in Hk as (H5 & H6 & g & k' & -> & Eg & Hk); [|done].
  apply ctx_rb_black in Hk as [H7 Hk]; [|done]. eauto 20.
Qed.

Lemma wp_balance_tree_left f y w u k t p (Q : nat -> hProp) :
  ins_ok (f :: InLeft IB_RBT_BLACK y w u :: k) t -> fcolor f = IB_RBT_RED ->
  nil_at nl IB_RBT_BLACK p -∗ zip nl rt (f :: InLeft IB_RBT_BLACK y w u :: k) t -∗
  (∀ k1 t1, ⟨ins_round (f :: InLeft IB_RBT_BLACK y w u :: k) t k1 t1⟩ -∗
     nil_at nl IB_RBT_BLACK p -∗ zip nl rt k1 t1 -∗ Q (addr nl t1)) -∗
  wp (balance_tree_left nl (addr nl t) (faddr f) y) Q.
Proof.
  intros Hok Ef. destruct (ins_ok_inv _ _ _ Hok Ef) as (l & a & v & r & n & g & k' & -> & [= <- <-] & _ & H).
  destruct H as (Hl & Hr & El & Er & Hs & Es & Hu & Hk). simpl in Hu.
  iIntros "N Z HQ". unfold balance_tree_left.
  destruct (tcolor_cases u) as [Eu|(l2 & a2 & v2 & r2 & ->)].
  - destruct f as [c x vx s|c s x vx]; simplify_eq/=; iEval (rewrite /zip /=) in "Z".
    + iDestruct "Z" as "((X & S & Y & U & K) & A & L & R)".
      do 4 wp_step. rewrite decide_False; [|congruence]. iDestruct (addr_ne with "N S A") as %Hne.
      do 2 wp_step. rewrite decide_False; [|done]. do 13 wp_step.
      iApply (wp_rotate_right nl rt k IB_RBT_RED IB_RBT_BLACK (Node IB_RBT_RED l a v r) with "N [-HQ]").
      { rewrite /zip /=. iFrame. }
      iIntros "N Z". wp_step.
      iApply ("HQ" $! (InLeft IB_RBT_BLACK x vx (Node IB_RBT_RED s y w u) :: k) (Node IB_RBT_RED l a v r)
        with "[] N [Z]"); [|by rewrite zip_fill].
      iPureIntro. split_and!; [simpl; lia|same_order|]. split; [done|]. exists n. eauto 10 with mc.
    + iDestruct "Z" as "((X & S & Y & U & K) & A & L & R)".
      do 4 wp_step. rewrite decide_False; [|congruence].
      do 2 wp_step. rewrite decide_True; [|done]. do 2 wp_step.
      iApply (wp_rotate_left nl rt (InLeft IB_RBT_BLACK y w u :: k) IB_RBT_RED s x vx IB_RBT_RED l a v r
        with "N [-HQ]").
      { rewrite /zip /=. iFrame. }
      iIntros "N Z". iEval (rewrite /zip /=) in "Z". iDestruct "Z" as "((Y & U & K) & A & (X & S & L) & R)".
      do 12 wp_step.
      iApply (wp_rotate_right nl rt k IB_RBT_RED IB_RBT_BLACK (Node IB_RBT_RED s x vx l) with "N [-HQ]").
      { rewrite /zip /=. iFrame. }
      iIntros "N Z". wp_step.
      iApply ("HQ" $! (InLeft IB_RBT_BLACK a v (Node IB_RBT_RED r y w u) :: k) (Node IB_RBT_RED s x vx l)
        with "[] N [Z]"); [|by rewrite zip_fill].
      iPureIntro. split_and!; [simpl; lia|same_order|].
      split; [done|]. exists n. eauto 10 with mc.
  - apply is_rb_red in Hu as (Hl2 & Hr2 & El2 & Er2).
    destruct f as [c x vx s|c s x vx]; simplify_eq/=; iEval (rewrite /zip /=) in "Z".
    all: iDestruct "Z" as "((X & S & Y & (U & L2 & R2) & K) & A & L & R)"; do 11 wp_step.
    + iApply ("HQ" $! k (Node IB_RBT_RED (Node IB_RBT_BLACK (Node IB_RBT_RED l a v r) x vx s) y w
        (Node IB_RBT_BLACK l2 a2 v2 r2)) with "[] N [-]"); [|rewrite /zip /=; iFrame].
      iPureIntro. split_and!; [simpl; lia|same_order|]. split; [done|]. exists (S n). eauto 10 with mc.
    + iApply ("HQ" $! k (Node IB_RBT_RED (Node IB_RBT_BLACK s x vx (Node IB_RBT_RED l a v r)) y w
        (Node IB_RBT_BLACK l2 a2 v2 r2)) with "[] N [-]"); [|rewrite /zip /=; iFrame].
      iPureIntro. split_and!; [simpl; lia|same_order|]. split; [done|]. exists (S n). eauto 10 with mc.
Qed.

Lemma wp_balance_tree_right f y w u k t p (Q : nat -> hProp) :
  ins_ok (f :: InRight IB_RBT_BLACK u y w :: k) t -> fcolor f = IB_RBT_RED ->
  nil_at nl IB_RBT_BLACK p -∗ zip nl rt (f :: InRight IB_RBT_BLACK u y w :: k) t -∗
  (∀ k1 t1, ⟨ins_round (f :: InRight IB_RBT_BLACK u y w :: k) t k1 t1⟩ -∗
     nil_at nl IB_RBT_BLACK p -∗ zip nl rt k1 t1 -∗ Q (addr nl t1)) -∗
  wp (balance_tree_right nl (addr nl t) (faddr f) y) Q.
Proof.
  intros Hok Ef. destruct (ins_ok_inv _ _ _ Hok Ef) as (l & a & v & r & n & g & k' & -> & [= <- <-] & _ & H).
  destruct H as (Hl & Hr & El & Er & Hs & Es & Hu & Hk). simpl in Hu.
  iIntros "N Z HQ". unfold balance_tree_right.
  destruct (tcolor_cases u) as [Eu|(l2 & a2 & v2 & r2 & ->)].
  - destruct f as [c x vx s|c s x vx]; simplify_eq/=; iEval (rewrite /zip /=) in "Z".
    + iDestruct "Z" as "((X & S & Y & U & K) & A & L & R)".
      do 4 wp_step. rewrite decide_False; [|congruence].
      do 2 wp_step. rewrite decide_True; [|done]. do 2 wp_step.
      iApply (wp_rotate_right nl rt (InRight IB_RBT_BLACK u y w :: k) IB_RBT_RED IB_RBT_RED l a v r x vx s
        with "N [-HQ]").
      { rewrite /zip /=. iFrame. }
      iIntros "N Z". iEval (rewrite /zip /=) in "Z". iDestruct "Z" as "((Y & U & K) & A & L & X & R & S)".
      do 12 wp_step.
      iApply (wp_rotate_left nl rt k IB_RBT_RED u y w IB_RBT_BLACK l a v (Node IB_RBT_RED r x vx s) with "N [-HQ]").
      { rewrite /zip /=. iFrame. }
      iIntros "N Z". wp_step.
      iApply ("HQ" $! (InRight IB_RBT_BLACK (Node IB_RBT_RED u y w l) a v :: k) (Node IB_RBT_RED r x vx s)
        with "[] N [Z]"); [|by rewrite zip_fill].
      iPureIntro. split_and!; [simpl; lia|same_order|].
      split; [done|]. exists n. eauto 10 with mc.
    + iDestruct "Z" as "((X & S & Y & U & K) & A & L & R)".
      do 4 wp_step. rewrite decide_False; [|congruence]. iDestruct (addr_ne with "N S A") as %Hne.
      do 2 wp_step. rewrite decide_False; [|done]. do 13 wp_step.
      iApply (wp_rotate_left nl rt k IB_RBT_RED u y w IB_RBT_BLACK s x vx (Node IB_RBT_RED l a v r) with "N [-HQ]").
      { rewrite /zip /=. iFrame. }
      iIntros "N Z". wp_step.
      iApply ("HQ" $! (InRight IB_RBT_BLACK (Node IB_RBT_RED u y w s) x vx :: k) (Node IB_RBT_RED l a v r)
        with "[] N [Z]"); [|by rewrite zip_fill].
      iPureIntro. split_and!; [simpl; lia|same_order|]. split; [done|]. exists n. eauto 10 with mc.
  - apply is_rb_red in Hu as (Hl2 & Hr2 & El2 & Er2).
    destruct f as [c x vx s|c s x vx]; simplify_eq/=; iEval (rewrite /zip /=) in "Z".
    all: iDestruct "Z" as "((X & S & Y & (U & L2 & R2) & K) & A & L & R)"; do 11 wp_step.
    + iApply ("HQ" $! k (Node IB_RBT_RED (Node IB_RBT_BLACK l2 a2 v2 r2) y w
        (Node IB_RBT_BLACK (Node IB_RBT_RED l a v r) x vx s)) with "[] N [-]"); [|rewrite /zip /=; iFrame].
      iPureIntro. split_and!; [simpl; lia|same_order|]. split; [done|]. exists (S n). eauto 10 with mc.
    + iApply ("HQ" $! k (Node IB_RBT_RED (Node IB_RBT_BLACK l2 a2 v2 r2) y w
        (Node IB_RBT_BLACK s x vx (Node IB_RBT_RED l a v r))) with "[] N [-]"); [|rewrite /zip /=; iFrame].
      iPureIntro. split_and!; [simpl; lia|same_order|]. split; [done|]. exists (S n). eauto 10 with mc.
Qed.

(** ** The root *)

Lemma wp_ROOT tr d k h (Q : nat -> hProp) : root d = rt ->
  tree_cell tr d -∗ ctx_at nl rt k h -∗ (tree_cell tr d -∗ ctx_at nl rt k h -∗ Q (root_addr k h)) -∗
  wp (ROOT tr) Q.
Proof.
  iIntros (<-) "D K HQ". unfold ROOT. do 2 wp_step.
  iInduction k as [|[c a v r|c l a v] k] "IH" forall (h Q); simpl.
  - wp_step. iApply ("HQ" with "D K").
  - iDestruct "K" as "(A & R & K)". iApply ("IH" with "K [A R HQ] D"). iIntros "D K".
    iApply ("HQ" with "D"). iFrame.
  - iDestruct "K" as "(A & L & K)". iApply ("IH" with "K [A L HQ] D"). iIntros "D K".
    iApply ("HQ" with "D"). iFrame.
Qed.

Lemma root_addr_ne f k h a n : ctx_at nl rt (f :: k) h -∗ node_at a n -∗ ⌜root_addr (f :: k) h <> a⌝ : hProp.
Proof.
  iIntros "K A". simpl. iInduction k as [|g k] "IH" forall (f h); simpl.
  - destruct f; iDestruct "K" as "(F & _ & _)"; by iApply (node_at_ne with "F A").
  - destruct f; iDestruct "K" as "(F & R & K)"; iClear "F R"; iApply ("IH" $! g with "K A").
Qed.

Lemma root_addr_plug k t : root_addr k (addr nl t) = addr nl (plug k t).
Proof. revert t. induction k as [|f k IH]; intros t; simpl; [done|]. rewrite -IH. by destruct f. Qed.

Lemma wp_parent k c l a v r (Q : nat -> hProp) :
  zip nl rt k (Node c l a v r) -∗ (zip nl rt k (Node c l a v r) -∗ Q (top rt k)) -∗ wp (rdn parent a) Q.
Proof.
  iIntros "Z HQ". iEval (rewrite /zip /=) in "Z". iDestruct "Z" as "(K & A & L & R)". wp_step.
  iApply "HQ". rewrite /zip /=. iFrame.
Qed.

Lemma wp_frame_color f k t (Q : ib_rbt_color_t -> hProp) :
  zip nl rt (f :: k) t -∗ (zip nl rt (f :: k) t -∗ Q (fcolor f)) -∗ wp (rdn color (faddr f)) Q.
Proof.
  iIntros "Z HQ". destruct f; simpl; iEval (rewrite /zip /=) in "Z"; iDestruct "Z" as "((A & S & K) & T)"; wp_step;
    iApply "HQ"; rewrite /zip /=; iFrame.
Qed.

Lemma wp_frame_parent f k t (Q : nat -> hProp) :
  zip nl rt (f :: k) t -∗ (zip nl rt (f :: k) t -∗ Q (top rt k)) -∗ wp (rdn parent (faddr f)) Q.
Proof.
  iIntros "Z HQ". destruct f; simpl; iEval (rewrite /zip /=) in "Z"; iDestruct "Z" as "((A & S & K) & T)"; wp_step;
    iApply "HQ"; rewrite /zip /=; iFrame.
Qed.

Definition is_left g : Prop := match g with InLeft _ _ _ _ => True | InRight _ _ _ _ => False end.

(** The left link of the upper node says on which side the lower one is. *)
Lemma wp_side f g k t c p (Q : nat -> hProp) :
  nil_at nl c p -∗ zip nl rt (f :: g :: k) t -∗
  (∀ h, ⟨faddr f = h <-> is_left g⟩ -∗ nil_at nl c p -∗ zip nl rt (f :: g :: k) t -∗ Q h) -∗
  wp (rdn left (faddr g)) Q.
Proof.
  iIntros "N Z HQ". destruct g as [cg y w u|cg u y w].
  - destruct f; simpl; iEval (rewrite /zip /=) in "Z"; iDestruct "Z" as "((A & S & B & K) & T)"; wp_step;
      iApply ("HQ" with "[] N"); rewrite /zip /=; (by iFrame) || done.
  - iAssert (⌜faddr f <> addr nl u⌝)%I as %Hne.
    { destruct f; simpl; iEval (rewrite /zip /=) in "Z"; iDestruct "Z" as "((A & S & B & U & K) & T)"; iDestruct (addr_ne with "N U A") as %Hne;
        iPureIntro; by apply not_eq_sym. }
    destruct f; simpl; iEval (rewrite /zip /=) in "Z"; iDestruct "Z" as "((A & S & B & K) & T)"; wp_step;
      iApply ("HQ" with "[] N"); rewrite /zip /=; (by iFrame) || done.
Qed.

(** What the loop makes of the tree [t]. *)
Definition balanced (xs : list (nat * V)) t : Prop :=
  inorder t = xs /\ exists m, is_rb (paint IB_RBT_BLACK t) m.

Lemma ins_ok_done k t : ins_ok k t -> under_black k -> balanced (inorder (plug k t)) (plug k t).
Proof.
  intros (E & n & Hk & Ht) Hu. split; [done|].
  destruct (is_rb_plug k t n Hk Ht (fun _ => Hu)) as [m Hm]. by apply (paint_black _ m).
Qed.

Lemma wp_balance_tree_loop fuel tr d k t p (Q : () -> hProp) : root d = rt ->
  length k < fuel -> ins_ok k t ->
  tree_cell tr d -∗ nil_at nl IB_RBT_BLACK p -∗ zip nl rt k t -∗
  (∀ t', ⟨balanced (inorder (plug k t)) t'⟩ -∗
     tree_cell tr d -∗ nil_at nl IB_RBT_BLACK p -∗ zip nl rt [] t' -∗ Q ()) -∗
  wp (balance_tree_loop fuel tr nl (addr nl t) (top rt k)) Q.
Proof.
  intros Hd. revert k t p Q. induction fuel as [|fuel IH]; intros k t p Q Hfuel Hok; [lia|].
  iIntros "D N Z HQ". simpl.
  assert (exists l a v r, t = Node IB_RBT_RED l a v r) as (l & a & v & r & ->).
  { destruct Hok as [E _]. destruct (tcolor_cases t) as [E'|H]; [congruence|done]. }
  iEval (rewrite /zip) in "Z". iDestruct "Z" as "[K T]".
  wp_step. iApply (wp_ROOT with "D K"); [done|]. iIntros "D K".
  destruct k as [|f k].
  { rewrite /= decide_True; [|done]. wp_step.
    iApply ("HQ" $! (Node IB_RBT_RED l a v r) with "[] D N [K T]"); [|rewrite /zip /=; iFrame].
    iPureIntro. by apply (ins_ok_done []). }
  iEval (simpl) in "T". iDestruct "T" as "(A & L & R)".
  iDestruct (root_addr_ne with "K A") as %Hne. rewrite decide_False; [|done].
  iAssert (zip nl rt (f :: k) (Node IB_RBT_RED l a v r)) with "[K A L R]" as "Z"; [rewrite /zip /=; iFrame|].
  wp_step. iApply (wp_frame_color with "Z"). iIntros "Z".
  destruct (decide (fcolor f = IB_RBT_RED)) as [Ef|Ef]; last first.
  { wp_step. iApply ("HQ" $! (plug (f :: k) (Node IB_RBT_RED l a v r)) with "[] D N [Z]");
      [iPureIntro; apply ins_ok_done; [done|]|by rewrite -zip_plug].
    simpl. by destruct (fcolor f). }
  destruct (ins_ok_inv _ _ _ Hok Ef) as (_ & _ & _ & _ & _ & g & k' & _ & -> & Eg & _).
  wp_step. iApply (wp_frame_parent with "Z"). iIntros "Z".
  wp_step. iApply (wp_side f g with "N Z"). iIntros (h Hh) "N Z".
  iAssert (∀ k1 t1, ⟨ins_round (f :: g :: k') (Node IB_RBT_RED l a v r) k1 t1⟩ -∗
    nil_at nl IB_RBT_BLACK p -∗ zip nl rt k1 t1 -∗
    wp (p ← rdn parent (addr nl t1); balance_tree_loop fuel tr nl (addr nl t1) p) Q)%I with "[D HQ]" as "HQ".
  { iIntros (k1 t1 (Hlen & Hin & Hok1)) "N Z". 
    assert (exists l a v r, t1 = Node IB_RBT_RED l a v r) as (l1 & a1 & v1 & r1 & ->).
    { destruct Hok1 as [E _]. destruct (tcolor_cases t1) as [E'|H]; [congruence|done]. }
    wp_step. iApply (wp_parent with "Z"). iIntros "Z".
    iApply (IH k1 (Node IB_RBT_RED l1 a1 v1 r1) with "D N Z"); [simpl in *; lia|done|]. by rewrite Hin. }
  wp_step.
  destruct g as [c y w u|c u y w]; simpl in Eg, Hh; subst c; simpl.
  - rewrite decide_True; [|by apply Hh].
    by iApply (wp_balance_tree_left f y w u k' (Node IB_RBT_RED l a v r) with "N Z HQ").
  - rewrite decide_False; [|by intros E; apply Hh in E].
    by iApply (wp_balance_tree_right f y w u k' (Node IB_RBT_RED l a v r) with "N Z HQ").
Qed.

(** ** A new node *)

(** The comparison with the last node visited says on which side the node
    goes. *)
Definition side_ok k (res : Z) : Prop :=
  match k with [] => True | InLeft _ _ _ _ :: _ => (res < 0)%Z | InRight _ _ _ _ :: _ => (0 < res)%Z end.

Lemma node_ne_root k h x n : node_at x n -∗ ctx_at nl rt k h -∗ ⌜x <> rt⌝ : hProp.
Proof.
  iIntros "X K". iInduction k as [|f k] "IH" forall (h); simpl.
  - by iApply (node_at_ne with "X K").
  - destruct f; iDestruct "K" as "(Y & U & K)"; iClear "Y U"; iApply ("IH" with "X K").
Qed.

Lemma wp_rbt_tree_add_child tr d k b a n (Q : nat -> hProp) : root d = rt ->
  last b = Some (top rt k) -> side_ok k (result b) -> left n = nl -> right n = nl ->
  tree_cell tr d -∗ zip nl rt k Leaf -∗ node_at a n -∗
  (tree_cell tr d -∗ ctx_at nl rt k a -∗ node_at a (set_parent (top rt k) n) -∗ Q a) -∗
  wp (rbt_tree_add_child tr b a) Q.
Proof.
  intros Hd Hb Hs Hl Hr. iIntros "D Z A HQ". unfold rbt_tree_add_child. do 2 wp_step. rewrite Hd Hb.
  wp_step. simpl. wp_step. iEval (rewrite /zip /=) in "Z". iDestruct "Z" as "[K _]".
  destruct k as [|[c x v r|c l x v] k]; simpl in Hs |- *.
  - rewrite decide_True; [|by left]. do 5 wp_step. iApply ("HQ" with "D K A").
  - iDestruct "K" as "(X & R & K)". rewrite decide_True; [|by right]. do 5 wp_step.
    iApply ("HQ" with "D [-A] A"). iFrame.
  - iDestruct "K" as "(X & L & K)". iDestruct (node_ne_root with "X K") as %Hne.
    rewrite decide_False; [|intros [?|?]; [done|lia]]. wp_step. wp_step.
    iApply wp_ut_a; [by apply bool_decide_eq_true; lia|]. do 4 wp_step.
    iApply ("HQ" with "D [-A] A"). iFrame.
Qed.

End insert.
End RbInsert.
