(* ===== verification/RbSearch.v ===== *)
(** * Red-black trees: the assertion, searches and insertion

    [rbt] says that a tree descriptor and its nodes are a red-black tree with a
    given list of values.  The searches walk down to the place of a key; the
    insertion of a value keeps the red-black properties and the order. *)

From S2P Require Import Prelude SepHeap RbTree RbRep RbInsert.
From iris.proofmode Require Import coq_tactics environments intro_patterns spec_patterns.

Module RbSearch.
Import RbTree RbRep RbInsert.

(** ** The order of the values *)
Section order.
Context {V : Type}.

(** What the trees rely on in a comparison function of a caller: the sign of
    the result is that of a total preorder. *)
Class KeyOrder (f : V -> V -> Z) : Prop := {
  key_anti x y : (f x y < 0 <-> 0 < f y x)%Z;
  key_trans x y z : (f x y <= 0 -> f y z <= 0 -> f x z <= 0)%Z
}.

Context (f : V -> V -> Z) `{!KeyOrder f}.

Lemma key_refl x : f x x = 0%Z.
Proof. pose proof (key_anti x x). lia. Qed.

Lemma key_zero x y : f x y = 0%Z -> f y x = 0%Z.
Proof. pose proof (key_anti x y). pose proof (key_anti y x). lia. Qed.

Lemma key_lt_le x y z : (f x y < 0 -> f y z <= 0 -> f x z < 0)%Z.
Proof.
  intros H1 H2. destruct (Z_lt_ge_dec (f x z) 0) as [|G]; [done|].
  pose proof (key_anti x y). pose proof (key_anti x z). pose proof (key_trans y z x). lia.
Qed.

Lemma key_le_lt x y z : (f x y <= 0 -> f y z < 0 -> f x z < 0)%Z.
Proof.
  intros H1 H2. destruct (Z_lt_ge_dec (f x z) 0) as [|G]; [done|].
  pose proof (key_anti y z). pose proof (key_anti x z). pose proof (key_trans z x y). lia.
Qed.

Definition sorted (xs : list (nat * V)) : Prop := StronglySorted (fun x y => f x.2 y.2 < 0)%Z xs.

(** Where the key belongs: [xs] before it, [ys] after it. *)
Definition split_at (key : V) (xs ys : list (nat * V)) : Prop :=
  Forall (fun x => 0 < f key x.2)%Z xs /\ Forall (fun y => f key y.2 < 0)%Z ys.

Lemma sorted_app xs ys : sorted (xs ++ ys) <->
  sorted xs /\ sorted ys /\ forall x y, x ∈ xs -> y ∈ ys -> (f x.2 y.2 < 0)%Z.
Proof.
  unfold sorted. induction xs as [|x xs IH]; simpl.
  - split; [|by intros (_ & H & _)]. intros H. split_and!; [constructor|done|]. intros ? ? Hx. by apply not_elem_of_nil in Hx.
  - split.
    + intros H. inversion H as [|? ? H1 H2]; subst. apply IH in H1 as (H3 & H4 & H5).
      rewrite Forall_app in H2. destruct H2 as [H2 H2']. split_and!; [by constructor|done|].
      intros z y [->|Hz]%elem_of_cons Hy; [by apply (proj1 (Forall_forall _ _) H2' y)|by apply H5].
    + intros (H1 & H2 & H3). inversion H1 as [|? ? H4 H5]; subst. constructor.
      * apply IH. split_and!; [done|done|]. intros z y Hz Hy. apply H3; [by right|done].
      * rewrite Forall_app. split; [done|]. apply Forall_forall. intros y Hy. apply H3; [left|done].
Qed.

Lemma sorted_cons x ys : sorted (x :: ys) <-> sorted ys /\ Forall (fun y => f x.2 y.2 < 0)%Z ys.
Proof. split; [by inversion 1|]. intros [H1 H2]. by constructor. Qed.

(** Everything before a value that the key does not precede is smaller than
    the key, and the other way round. *)
Lemma split_before key xs x ys : sorted (xs ++ x :: ys) -> (0 <= f key x.2)%Z ->
  Forall (fun y => 0 < f key y.2)%Z xs.
Proof.
  intros (_ & _ & H)%sorted_app Hk. apply Forall_forall. intros y Hy.
  specialize (H y x Hy ltac:(left)). apply key_anti.
  apply (key_lt_le _ x.2); [done|]. pose proof (key_anti key x.2). pose proof (key_anti x.2 key). lia.
Qed.

Lemma split_after key xs x ys : sorted (xs ++ x :: ys) -> (f key x.2 <= 0)%Z ->
  Forall (fun y => f key y.2 < 0)%Z ys.
Proof.
  intros (_ & [_ H]%sorted_cons & _)%sorted_app Hk. eapply Forall_impl; [exact H|].
  intros y Hy. by apply (key_le_lt _ x.2).
Qed.

(** A value put at its place keeps the list sorted, if it has the key's
    place. *)
Lemma sorted_insert key xs x ys : sorted (xs ++ ys) -> split_at key xs ys -> f key x.2 = 0%Z ->
  sorted (xs ++ x :: ys).
Proof.
  intros (H1 & H2 & H3)%sorted_app [Hx Hy] E. rewrite Forall_forall in Hx. rewrite Forall_forall in Hy.
  pose proof (key_zero _ _ E) as E'.
  apply sorted_app. split_and!; [done| |].
  - apply sorted_cons. split; [done|]. apply Forall_forall. intros y Hin. apply (key_le_lt _ key); [lia|by apply Hy].
  - intros y z Hin [->|Hz]%elem_of_cons; [|by apply H3].
    apply (key_lt_le _ key); [by apply key_anti, Hx|lia].
Qed.

Lemma sorted_delete xs x ys : sorted (xs ++ x :: ys) -> sorted (xs ++ ys).
Proof.
  intros (H1 & [H2 _]%sorted_cons & H3)%sorted_app. apply sorted_app. split_and!; [done|done|].
  intros y z Hy Hz. apply H3; [done|by right].
Qed.

(** The place of a key is unique. *)
Lemma split_unique key xs ys xs' ys' : xs ++ ys = xs' ++ ys' -> split_at key xs ys -> split_at key xs' ys' ->
  xs = xs' /\ ys = ys'.
Proof.
  revert xs'. induction xs as [|x xs IH]; intros [|x' xs']; simpl.
  - done.
  - intros -> [_ H] [H' _]. apply Forall_cons in H as [H _], H' as [H' _]. lia.
  - intros <- [H _] [_ H']. apply Forall_cons in H as [H _], H' as [H' _]. lia.
  - intros [= <- E] [H1 H2] [H1' H2']. apply Forall_cons in H1 as [_ H1], H1' as [_ H1'].
    destruct (IH xs' E) as [-> ->]; done.
Qed.

End order.

Section search.
Context {V Arg : Type}.
Local Notation obj := (obj V Arg).
Local Notation hProp := (hProp obj).
Local Notation tree := (RbRep.tree (V := V)).
Local Notation frame := (RbRep.frame (V := V)).
Implicit Types (t : tree) (f g : frame) (k : list frame) (d : ib_rbt_t V Arg).

(** The comparison function that a tree uses. *)
Definition compare_of d : option (V -> V -> Z) :=
  match cmp_arg d with
  | Some x => g ← compare_with_arg d; Some (g x)
  | None => compare d
  end.

(** The tree at [tr] with descriptor [d] is a red-black tree of the nodes
    [xs]: addresses and values from left to right. *)
Definition rb_shape d (xs : list (nat * V)) t : Prop :=
  inorder t = xs /\ tcolor t = IB_RBT_BLACK /\ (exists m, is_rb t m) /\ n_nodes d = u64 (Z.of_nat (length xs)).

Definition rbt_with (tr : nat) d t : hProp :=
  (∃ p, tree_cell tr d ∗ nil_at (nil d) IB_RBT_BLACK p ∗ zip (nil d) (root d) [] t)%I.

Definition rbt (tr : nat) d (xs : list (nat * V)) : hProp :=
  (∃ t, ⟨rb_shape d xs t⟩ ∗ rbt_with tr d t)%I.

(** Rounds that are enough for every loop along a path of a tree with [n]
    nodes. *)
Definition rounds (n : nat) : nat := 2 * Nat.log2 (n + 1) + 2.

Lemma rb_shape_height d xs t : rb_shape d xs t -> height t + 2 <= rounds (length xs).
Proof.
  intros (<- & Hc & [m Hm] & _). pose proof (rb_log_height t m Hm Hc) as H. rewrite size_inorder in H.
  unfold rounds. lia.
Qed.

Lemma wp_deref {T} (x : option T) y (Q : T -> hProp) : x = Some y -> Q y ⊢ wp (deref x) Q.
Proof. intros ->. apply wp_ret. Qed.

Lemma wp_compare_keys tr d cmp key v (Q : Z -> hProp) : compare_of d = Some cmp ->
  tree_cell tr d -∗ (tree_cell tr d -∗ Q (cmp key v)) -∗ wp (compare_keys tr key v) Q.
Proof.
  unfold compare_of. iIntros (E) "D HQ". unfold compare_keys. do 2 wp_step. destruct (cmp_arg d) as [x|].
  - apply bind_Some in E as (g & Eg & [= <-]). do 3 wp_step. iApply wp_deref; [done|]. wp_step. by iApply "HQ".
  - do 3 wp_step. iApply wp_deref; [done|]. wp_step. by iApply "HQ".
Qed.

Lemma wp_node_value nl rt k c l a v r (Q : V -> hProp) :
  zip nl rt k (Node c l a v r) -∗ (zip nl rt k (Node c l a v r) -∗ Q v) -∗ wp (node_value a) Q.
Proof.
  iIntros "Z HQ". iEval (rewrite /zip /=) in "Z". iDestruct "Z" as "(K & A & L & R)". unfold node_value.
  do 2 wp_step. wp_step. iApply "HQ". rewrite /zip /=. iFrame.
Qed.

Lemma wp_compare_node tr d cmp key nl rt k c l a v r (Q : Z -> hProp) : compare_of d = Some cmp ->
  tree_cell tr d -∗ zip nl rt k (Node c l a v r) -∗
  (tree_cell tr d -∗ zip nl rt k (Node c l a v r) -∗ Q (cmp key v)) -∗ wp (compare_node tr key a) Q.
Proof.
  iIntros (E) "D Z HQ". unfold compare_node. wp_step. iApply (wp_node_value with "Z"). iIntros "Z".
  iApply (wp_compare_keys with "D"); [done|]. iIntros "D". iApply ("HQ" with "D Z").
Qed.

(** Walking down a link. *)
Lemma wp_down_left nl rt k c l a v r (Q : nat -> hProp) :
  zip nl rt k (Node c l a v r) -∗ (zip nl rt (InLeft c a v r :: k) l -∗ Q (addr nl l)) -∗ wp (rdn left a) Q.
Proof.
  iIntros "Z HQ". iEval (rewrite /zip /=) in "Z". iDestruct "Z" as "(K & A & L & R)". wp_step.
  iApply "HQ". rewrite /zip /=. iFrame.
Qed.

Lemma wp_down_right nl rt k c l a v r (Q : nat -> hProp) :
  zip nl rt k (Node c l a v r) -∗ (zip nl rt (InRight c l a v :: k) r -∗ Q (addr nl r)) -∗ wp (rdn right a) Q.
Proof.
  iIntros "Z HQ". iEval (rewrite /zip /=) in "Z". iDestruct "Z" as "(K & A & L & R)". wp_step.
  iApply "HQ". rewrite /zip /=. iFrame.
Qed.

Lemma zip_ne nl rt k t c p : nil_at nl c p -∗ zip nl rt k t -∗ ⌜addr nl t = nl <-> t = Leaf⌝ : hProp.
Proof.
  iIntros "N Z". destruct t as [|c' l a v r]; [done|]. iEval (rewrite /zip /=) in "Z".
  iDestruct "Z" as "(K & A & L & R)". iDestruct (node_at_ne with "A N") as %H. iPureIntro. naive_solver.
Qed.

(** Starting at the root. *)
Lemma wp_start tr d nl rt t (Q : nat -> hProp) : root d = rt ->
  tree_cell tr d -∗ zip nl rt [] t -∗ (tree_cell tr d -∗ zip nl rt [] t -∗ Q (addr nl t)) -∗ wp (ROOT tr) Q.
Proof.
  iIntros (E) "D Z HQ". iEval (rewrite /zip) in "Z". iDestruct "Z" as "[K T]".
  iApply (wp_ROOT _ _ _ _ [] with "D K"); [done|]. iIntros "D K". iApply ("HQ" with "D"). rewrite /zip. iFrame.
Qed.

(** ** The way down to a key *)

Section descent.
Context (cmp : V -> V -> Z) (key : V).

Fixpoint descend k t : list frame * tree :=
  match t with
  | Leaf => (k, Leaf)
  | Node c l a v r =>
      if decide (cmp key v < 0)%Z then descend (InLeft c a v r :: k) l
      else if decide (0 < cmp key v)%Z then descend (InRight c l a v :: k) r
      else (k, t)
  end.

Definition step_ok f : Prop :=
  match f with InLeft _ _ v _ => (cmp key v < 0)%Z | InRight _ _ _ v => (0 < cmp key v)%Z end.
Definition found t : Prop := match t with Leaf => True | Node _ _ _ v _ => cmp key v = 0%Z end.

Lemma descend_spec k t : Forall step_ok k ->
  plug (descend k t).1 (descend k t).2 = plug k t /\ Forall step_ok (descend k t).1 /\ found (descend k t).2.
Proof.
  revert k. induction t as [|c l IHl a v r IHr]; intros k Hk; simpl; [done|].
  case_decide; [apply (IHl (InLeft c a v r :: k)); by constructor|].
  case_decide; [apply (IHr (InRight c l a v :: k)); by constructor|]. split_and!; [done|done|simpl; lia].
Qed.

(** The way down divides the list where the key belongs. *)
Lemma path_split `{!KeyOrder cmp} k xs : sorted cmp (before k ++ xs ++ after k) -> Forall step_ok k ->
  split_at cmp key (before k) (after k).
Proof.
  revert xs. induction k as [|[c a v r|c l a v] k IH]; intros xs H Hk; simpl in *.
  - split; constructor.
  - apply Forall_cons in Hk as [Hv Hk]. simpl in Hv. split.
    + apply (IH (xs ++ (a, v) :: inorder r)); [|done]. by rewrite -app_assoc.
    + constructor; [done|]. rewrite app_assoc in H. by apply (split_after cmp key _ _ _ H); simpl; lia.
  - apply Forall_cons in Hk as [Hv Hk]. simpl in Hv. split.
    + rewrite -!app_assoc /= in H. rewrite app_assoc in H.
      rewrite app_assoc Forall_app. split; [by apply (split_before cmp key _ _ _ H); simpl; lia|by constructor].
    + apply (IH (inorder l ++ (a, v) :: xs)); [|done]. rewrite -!app_assoc /= in H. rewrite -!app_assoc /=. exact H.
Qed.

(** What the searches report at the end of the way. *)
Definition bound_of k : ib_rbt_bound_t :=
  match k with
  | [] => mkBound None 1
  | InLeft _ a v _ :: _ | InRight _ _ a v :: _ => mkBound (Some a) (cmp key v)
  end.
Definition bound_at k t : ib_rbt_bound_t :=
  match t with Leaf => bound_of k | Node _ _ a v _ => mkBound (Some a) (cmp key v) end.
Definition node_of t : option nat := match t with Leaf => None | Node _ _ a _ _ => Some a end.
Fixpoint above k : option nat :=
  match k with [] => None | InLeft _ a _ _ :: _ => Some a | InRight _ _ _ _ :: k => above k end.
Fixpoint below k : option nat :=
  match k with [] => None | InLeft _ _ _ _ :: k => below k | InRight _ _ a _ :: _ => Some a end.

Variables (tr : nat) (d : ib_rbt_t V Arg).
Local Notation nl := (nil d).
Local Notation rt := (root d).

(** One round of a loop that goes down with [descend]: at a leaf the loop
    ends, otherwise [rule] runs the comparison with the node. *)
Local Ltac descent_loop fuel rule :=
  let IH := fresh "IH" in let k := fresh "k" in let t := fresh "t" in let Hf := fresh "Hf" in
  let Hz := fresh "Hz" in
  induction fuel as [|fuel IH]; intros k t Hf; [lia|];
  iIntros "D N Z HQ"; simpl; do 2 wp_step; iDestruct (zip_ne with "N Z") as %Hz;
  destruct t as [|c l a v r]; [rewrite decide_True; [|done]; wp_step; by iApply ("HQ" with "D N Z")|];
  simpl in Hf; rewrite decide_False; [|by intros ?%Hz]; wp_step; rule; iIntros "D Z"; simpl;
  destruct (decide (cmp key v < 0)%Z); [|destruct (decide (0 < cmp key v)%Z)];
  repeat first [rewrite decide_True; [|lia]|rewrite decide_False; [|lia]]; wp_step;
  [ iApply (wp_down_left with "Z"); iIntros "Z"; iApply (IH (InLeft c a v r :: k) l with "D N Z HQ"); lia
  | iApply (wp_down_right with "Z"); iIntros "Z"; iApply (IH (InRight c l a v :: k) r with "D N Z HQ"); lia
  | by iApply ("HQ" with "D N Z") ].

Lemma wp_rbt_search_loop fuel cn k t p (Q : ib_rbt_bound_t -> hProp) : height t < fuel ->
  (forall k c l a v r (R : Z -> hProp), tree_cell tr d -∗ zip nl rt k (Node c l a v r) -∗
    (tree_cell tr d -∗ zip nl rt k (Node c l a v r) -∗ R (cmp key v)) -∗ wp (cn a) R) ->
  tree_cell tr d -∗ nil_at nl IB_RBT_BLACK p -∗ zip nl rt k t -∗
  (tree_cell tr d -∗ nil_at nl IB_RBT_BLACK p -∗ zip nl rt (descend k t).1 (descend k t).2 -∗
    Q (bound_at (descend k t).1 (descend k t).2)) -∗
  wp (rbt_search_loop fuel tr cn (addr nl t) (bound_of k)) Q.
Proof.
  intros Hf Hcn. revert k t Hf. descent_loop fuel ltac:(iApply (Hcn with "D Z")).
Qed.

Section compared.
Hypothesis Hcmp : compare_of d = Some cmp.

Lemma wp_lookup_loop fuel k t p (Q : nat -> hProp) : height t < fuel ->
  tree_cell tr d -∗ nil_at nl IB_RBT_BLACK p -∗ zip nl rt k t -∗
  (tree_cell tr d -∗ nil_at nl IB_RBT_BLACK p -∗ zip nl rt (descend k t).1 (descend k t).2 -∗
    Q (addr nl (descend k t).2)) -∗
  wp (lookup_loop fuel tr key (addr nl t)) Q.
Proof.
  revert k t. descent_loop fuel ltac:(iApply (wp_compare_node with "D Z"); [done|]).
Qed.

Definition or_else (x y : option nat) : option nat := match x with Some _ => x | None => y end.

Lemma wp_lower_bound_loop fuel k t p (Q : option nat -> hProp) : height t < fuel ->
  tree_cell tr d -∗ nil_at nl IB_RBT_BLACK p -∗ zip nl rt k t -∗
  (tree_cell tr d -∗ nil_at nl IB_RBT_BLACK p -∗ zip nl rt (descend k t).1 (descend k t).2 -∗
    Q (or_else (node_of (descend k t).2) (above (descend k t).1))) -∗
  wp (lower_bound_loop fuel tr key (addr nl t) (above k)) Q.
Proof.
  revert k t. descent_loop fuel ltac:(iApply (wp_compare_node with "D Z"); [done|]).
Qed.

Lemma wp_upper_bound_loop fuel k t p (Q : option nat -> hProp) : height t < fuel ->
  tree_cell tr d -∗ nil_at nl IB_RBT_BLACK p -∗ zip nl rt k t -∗
  (tree_cell tr d -∗ nil_at nl IB_RBT_BLACK p -∗ zip nl rt (descend k t).1 (descend k t).2 -∗
    Q (or_else (node_of (descend k t).2) (below (descend k t).1))) -∗
  wp (upper_bound_loop fuel tr key (addr nl t) (below k)) Q.
Proof.
  revert k t. descent_loop fuel ltac:(iApply (wp_compare_node with "D Z"); [done|]).
Qed.

(** The search of an insertion goes right on equality; it takes the same way
    where no value is equal. *)
Definition insert_bound k : ib_rbt_bound_t :=
  match k with [] => mkBound (Some rt) 0 | _ => bound_of k end.

Lemma wp_tree_insert_loop fuel k t p (Q : ib_rbt_bound_t -> hProp) : height t < fuel ->
  Forall (fun x => cmp key x.2 <> 0%Z) (inorder t) ->
  tree_cell tr d -∗ nil_at nl IB_RBT_BLACK p -∗ zip nl rt k t -∗
  (⟨(descend k t).2 = Leaf⟩ -∗ tree_cell tr d -∗ nil_at nl IB_RBT_BLACK p -∗
    zip nl rt (descend k t).1 (descend k t).2 -∗ Q (insert_bound (descend k t).1)) -∗
  wp (tree_insert_loop fuel tr key (addr nl t) (insert_bound k)) Q.
Proof.
  revert k t. induction fuel as [|fuel IH]; intros k t Hf Hne; [lia|].
  iIntros "D N Z HQ". simpl. do 2 wp_step. iDestruct (zip_ne with "N Z") as %Hz.
  destruct t as [|c l a v r]; [rewrite decide_True; [|done]; wp_step; by iApply ("HQ" with "[] D N Z")|].
  simpl in Hf, Hne. apply Forall_app in Hne as [Hl [Hv Hr]%Forall_cons].
  rewrite decide_False; [|by intros ?%Hz]. wp_step. iApply (wp_compare_node with "D Z"); [done|].
  iIntros "D Z". simpl in *. wp_step.
  destruct (decide (cmp key v < 0)%Z) as [H1|H1].
  - iApply (wp_down_left with "Z"). iIntros "Z".
    iApply (IH (InLeft c a v r :: k) l with "D N Z HQ"); [lia|done].
  - rewrite decide_True; [|lia]. iApply (wp_down_right with "Z"). iIntros "Z".
    iApply (IH (InRight c l a v :: k) r with "D N Z HQ"); [lia|done].
Qed.

End compared.
End descent.

End search.
End RbSearch.
