(* ===== verification/RbOps.v ===== *)
(** * Red-black trees: searches and insertion on lists of values *)

From S2P Require Import Prelude SepHeap RbTree RbRep RbInsert RbSearch.
From iris.proofmode Require Import coq_tactics environments intro_patterns spec_patterns.

Module RbOps.
Import RbTree RbRep RbInsert RbSearch.

Section ops.
Context {V Arg : Type} {AL : Allocator}.
Local Notation obj := (obj V Arg).
Local Notation hProp := (hProp obj).
Local Notation tree := (RbRep.tree (V := V)).
Local Notation frame := (RbRep.frame (V := V)).
Implicit Types (t : tree) (f g : frame) (k : list frame) (d : ib_rbt_t V Arg).

(** ** Insertion at a place *)

Lemma wp_rbt_balance_tree fuel tr d k a v c p (Q : () -> hProp) :
  length k < fuel -> ins_ok k (Node IB_RBT_RED Leaf a v Leaf) ->
  tree_cell tr d -∗ nil_at (nil d) IB_RBT_BLACK p -∗ ctx_at (nil d) (root d) k a -∗
  node_at a (mkNode c (nil d) (nil d) (top (root d) k) (Some v)) -∗
  (∀ t, ⟨inorder t = before k ++ (a, v) :: after k /\ tcolor t = IB_RBT_BLACK /\ exists m, is_rb t m⟩ -∗
     rbt_with tr d t -∗ Q ()) -∗
  wp (rbt_balance_tree fuel tr a) Q.
Proof.
  iIntros (Hf Hok) "D N K A HQ". unfold rbt_balance_tree. do 6 wp_step. wp_step.
  iApply (wp_balance_tree_loop (nil d) (root d) fuel tr d k (Node IB_RBT_RED Leaf a v Leaf) with "D N [K A]");
    [done|done|done| |].
  { rewrite /zip /=. iFrame. by iSplit. }
  iIntros (t [Ht [m Hm]]) "D N Z". rewrite inorder_plug /= in Ht.
  wp_step. iApply (wp_start with "D Z"); [done|]. iIntros "D Z".
  destruct t as [|c' l b w r]; [by destruct (before k)|].
  iEval (rewrite /zip /=) in "Z". iDestruct "Z" as "(K & B & L & R)". simpl. wp_step.
  iApply ("HQ" $! (Node IB_RBT_BLACK l b w r)); [eauto|]. iExists p. rewrite /zip /=. iFrame.
Qed.

(** A node at a leaf of a red-black tree. *)
Lemma ins_ok_leaf k t m a v : plug k Leaf = t -> is_rb t m -> tcolor t = IB_RBT_BLACK ->
  ins_ok k (Node IB_RBT_RED Leaf a v Leaf).
Proof.
  intros <- H E. destruct (is_rb_unplug k Leaf m H E) as (n & Hk & Hn & _). split; [done|].
  exists n. split; [done|]. inversion Hn; subst. by apply rb_red.
Qed.

Lemma u64_succ x : u64 (u64 x + 1) = u64 (x + 1).
Proof. unfold u64, wrap_u. by rewrite Z.add_mod_idemp_l. Qed.

Lemma u64_pred x : u64 (u64 x - 1) = u64 (x - 1).
Proof. unfold u64, wrap_u. by rewrite Zminus_mod_idemp_l. Qed.

(** The end of all insertions: a node that was put at the end of the path [k]
    is counted. *)
Lemma rbt_counted tr d t k xs a v t' p : rb_shape d xs t -> plug k Leaf = t ->
  inorder t' = before k ++ (a, v) :: after k /\ tcolor t' = IB_RBT_BLACK /\ (exists m, is_rb t' m) ->
  tree_cell tr (set_n_nodes (u64 (n_nodes d + 1)) d) -∗ nil_at (nil d) IB_RBT_BLACK p -∗
  zip (nil d) (root d) [] t' -∗
  rbt tr (set_n_nodes (u64 (n_nodes d + 1)) d) (before k ++ (a, v) :: after k).
Proof.
  iIntros ((Hxs & Hc & Hm & Hn) Hk (Ht & Hc' & m' & Hm')) "D N Z". iExists t'. iSplitR.
  - iPureIntro. split_and!; [done|done|by exists m'|]. simpl.
    rewrite Hn u64_succ -Hxs -Hk inorder_plug !length_app /=. f_equal. lia.
  - iExists p. destruct d. simpl. iFrame.
Qed.

(** ** The way down in a tree of a list *)

Section key.
Context (cmp : V -> V -> Z) `{!KeyOrder cmp} (key : V).

Lemma descend_list t xs k' t' : inorder t = xs -> sorted cmp xs -> descend cmp key [] t = (k', t') ->
  plug k' t' = t /\ xs = before k' ++ inorder t' ++ after k' /\
  split_at cmp key (before k') (after k') /\ Forall (step_ok cmp key) k' /\ found cmp key t'.
Proof.
  intros <- Hs E. destruct (descend_spec cmp key [] t) as (H1 & H2 & H3); [constructor|].
  rewrite E /= in H1 H2 H3. subst t. rewrite inorder_plug in Hs |- *. split_and!; [done|done| |done|done].
  by apply (path_split cmp key k' (inorder t')).
Qed.

Lemma above_head k : above k = fst <$> head (after k).
Proof. induction k as [|[c a v r|c l a v] k IH]; simpl; [done|done|done]. Qed.

Lemma below_last k : below k = fst <$> list.last (before k).
Proof.
  induction k as [|[c a v r|c l a v] k IH]; simpl; [done|done|]. by rewrite app_assoc last_snoc.
Qed.

(** A key that is absent leads to a leaf. *)
Lemma absent_leaf xs k' t' : found cmp key t' -> xs = before k' ++ inorder t' ++ after k' ->
  Forall (fun x => cmp key x.2 <> 0%Z) xs -> t' = Leaf.
Proof.
  intros Hf -> H. destruct t' as [|c l a v r]; [done|]. simpl in *. rewrite !Forall_app in H.
  destruct H as (_ & (_ & [H _]%Forall_cons) & _). done.
Qed.

(** The end of the way, where the key is present. *)
Lemma found_split k' c l a v r : sorted cmp (before k' ++ inorder (Node c l a v r) ++ after k') -> cmp key v = 0%Z ->
  split_at cmp key (before k' ++ inorder l) (inorder r ++ after k').
Proof.
  intros Hs Hv. simpl in Hs. rewrite -app_assoc app_assoc /= in Hs. split.
  - apply (split_before cmp key _ _ _ Hs). simpl. lia.
  - apply (split_after cmp key _ _ _ Hs). simpl. lia.
Qed.

(** ** Searches *)

Section searches.
Variables (fuel tr : nat) (d : ib_rbt_t V Arg) (xs : list (nat * V)).
Hypothesis Hcmp : compare_of d = Some cmp.
Hypothesis Hsort : sorted cmp xs.
Hypothesis Hfuel : rounds (length xs) <= fuel.

Lemma fuel_height t : rb_shape d xs t -> height t < fuel.
Proof. intros H%rb_shape_height. lia. Qed.

Lemma fuel_path t k : rb_shape d xs t -> plug k Leaf = t -> length k < fuel.
Proof. intros H <-. apply fuel_height in H. pose proof (length_height k Leaf). lia. Qed.

Lemma wp_rbt_lookup (Q : option nat -> hProp) :
  rbt tr d xs -∗
  (∀ r, ⟨match r with
         | Some a => exists v, (a, v) ∈ xs /\ cmp key v = 0%Z
         | None => Forall (fun x => cmp key x.2 <> 0%Z) xs
         end⟩ -∗ rbt tr d xs -∗ Q r) -∗
  wp (rbt_lookup fuel tr key) Q.
Proof.
  iIntros "(%t & %Hsh & %p & D & N & Z) HQ". pose proof Hsh as (Hxs & _). unfold rbt_lookup.
  wp_step. iApply (wp_start with "D Z"); [done|]. iIntros "D Z".
  wp_step. iApply (wp_lookup_loop cmp key tr d Hcmp fuel [] t with "D N Z"); [by apply fuel_height|].
  iIntros "D N Z". destruct (descend cmp key [] t) as [k' t'] eqn:E. simpl.
  destruct (descend_list t xs k' t' Hxs Hsort E) as (Hp & Hl & [Hb Ha] & _ & Hf).
  do 3 wp_step. iDestruct (zip_ne with "N Z") as %Hne. rewrite zip_plug Hp.
  iApply ("HQ" with "[]"); [|iExists t; iSplitR; [done|]; iExists p; iFrame].
  iPureIntro. destruct t' as [|c l a v r].
  - rewrite decide_True; [|done]. rewrite Hl /= Forall_app. split.
    + eapply Forall_impl; [exact Hb|]. simpl. lia.
    + eapply Forall_impl; [exact Ha|]. simpl. lia.
  - rewrite decide_False; [|by intros ?%Hne]. exists v. split; [|done]. rewrite Hl. set_solver.
Qed.

(** The first value that is not smaller than the key. *)
Lemma wp_rbt_lower_bound (Q : option nat -> hProp) :
  rbt tr d xs -∗
  (∀ ys zs, ⟨xs = ys ++ zs /\ Forall (fun x => 0 < cmp key x.2)%Z ys /\ Forall (fun x => cmp key x.2 <= 0)%Z zs⟩ -∗
     rbt tr d xs -∗ Q (fst <$> head zs)) -∗
  wp (rbt_lower_bound fuel tr key) Q.
Proof.
  iIntros "(%t & %Hsh & %p & D & N & Z) HQ". pose proof Hsh as (Hxs & _). unfold rbt_lower_bound.
  wp_step. iApply (wp_start with "D Z"); [done|]. iIntros "D Z".
  iApply (wp_lower_bound_loop cmp key tr d Hcmp fuel [] t with "D N Z"); [by apply fuel_height|].
  iIntros "D N Z". destruct (descend cmp key [] t) as [k' t'] eqn:E. simpl.
  destruct (descend_list t xs k' t' Hxs Hsort E) as (Hp & Hl & [Hb Ha] & _ & Hf). rewrite zip_plug Hp.
  iAssert (rbt tr d xs) with "[D N Z]" as "T"; [iExists t; iSplitR; [done|]; iExists p; iFrame|].
  assert (Forall (fun y => cmp key y.2 <= 0)%Z (after k')) as Ha'
    by (eapply Forall_impl; [exact Ha|]; simpl; lia).
  destruct t' as [|c l a v r]; simpl.
  - rewrite above_head. iApply ("HQ" with "[] T"). iPureIntro. by rewrite Hl.
  - pose proof Hsort as Hs. rewrite Hl in Hs. destruct (found_split k' c l a v r Hs Hf) as [H1 H2].
    iApply ("HQ" $! (before k' ++ inorder l) ((a, v) :: inorder r ++ after k') with "[] T"). iPureIntro.
    split_and!; [by rewrite Hl /= -!app_assoc|done|]. constructor; [simpl in *; lia|].
    eapply Forall_impl; [exact H2|]. simpl. lia.
Qed.

(** The last value that is not greater than the key. *)
Lemma wp_rbt_upper_bound (Q : option nat -> hProp) :
  rbt tr d xs -∗
  (∀ ys zs, ⟨xs = ys ++ zs /\ Forall (fun x => 0 <= cmp key x.2)%Z ys /\ Forall (fun x => cmp key x.2 < 0)%Z zs⟩ -∗
     rbt tr d xs -∗ Q (fst <$> list.last ys)) -∗
  wp (rbt_upper_bound fuel tr key) Q.
Proof.
  iIntros "(%t & %Hsh & %p & D & N & Z) HQ". pose proof Hsh as (Hxs & _). unfold rbt_upper_bound.
  wp_step. iApply (wp_start with "D Z"); [done|]. iIntros "D Z".
  iApply (wp_upper_bound_loop cmp key tr d Hcmp fuel [] t with "D N Z"); [by apply fuel_height|].
  iIntros "D N Z". destruct (descend cmp key [] t) as [k' t'] eqn:E. simpl.
  destruct (descend_list t xs k' t' Hxs Hsort E) as (Hp & Hl & [Hb Ha] & _ & Hf). rewrite zip_plug Hp.
  iAssert (rbt tr d xs) with "[D N Z]" as "T"; [iExists t; iSplitR; [done|]; iExists p; iFrame|].
  assert (Forall (fun y => 0 <= cmp key y.2)%Z (before k')) as Hb'
    by (eapply Forall_impl; [exact Hb|]; simpl; lia).
  destruct t' as [|c l a v r]; simpl.
  - rewrite below_last. iApply ("HQ" with "[] T"). iPureIntro. by rewrite Hl.
  - pose proof Hsort as Hs. rewrite Hl in Hs. destruct (found_split k' c l a v r Hs Hf) as [H1 H2].
    iAssert (rbt tr d xs -∗ Q (fst <$> list.last ((before k' ++ inorder l) ++ [(a, v)])))%I with "[HQ]" as "HQ".
    { iIntros "T". iApply ("HQ" $! _ (inorder r ++ after k') with "[] T"). iPureIntro.
      split_and!; [by rewrite Hl /= -!app_assoc| |done]. rewrite Forall_app. split.
      - eapply Forall_impl; [exact H1|]. simpl. lia.
      - repeat constructor. simpl in *. lia. }
    rewrite last_snoc. by iApply "HQ".
Qed.

(** The result and the bound of a search, for the tree [t]. *)
Lemma wp_rbt_search t (Q : Z * ib_rbt_bound_t -> hProp) : rb_shape d xs t ->
  rbt_with tr d t -∗
  (rbt_with tr d t -∗ ∀ b, ⟨b = bound_at cmp key (descend cmp key [] t).1 (descend cmp key [] t).2⟩ -∗ Q (result b, b)) -∗
  wp (rbt_search fuel tr key) Q.
Proof.
  iIntros (Hsh) "(%p & D & N & Z) HQ". pose proof Hsh as (Hxs & _). unfold rbt_search.
  wp_step. iApply (wp_start with "D Z"); [done|]. iIntros "D Z".
  wp_step. iApply (wp_rbt_search_loop cmp key tr d fuel (compare_node tr key) [] t with "D N Z").
  { by apply fuel_height. }
  { intros k c l a v r R. iIntros "D Z HR". by iApply (wp_compare_node with "D Z"). }
  iIntros "D N Z". wp_step. destruct (descend_list t xs _ _ Hxs Hsort (surjective_pairing _)) as (Hp & _).
  rewrite zip_plug Hp. iApply ("HQ" with "[-]"); [iExists p; iFrame|done].
Qed.

(** [rbt_search_cmp] with a comparison that agrees with that of the tree. *)
Lemma wp_rbt_search_cmp t c ac (Q : Z * ib_rbt_bound_t -> hProp) : rb_shape d xs t ->
  match ac with
  | Some g => exists x, cmp_arg d = Some x /\ forall v, g x key v = cmp key v
  | None => exists g : V -> V -> Z, c = Some g /\ forall v, g key v = cmp key v
  end ->
  rbt_with tr d t -∗
  (rbt_with tr d t -∗ ∀ b, ⟨b = bound_at cmp key (descend cmp key [] t).1 (descend cmp key [] t).2⟩ -∗ Q (result b, b)) -∗
  wp (rbt_search_cmp fuel tr key c ac) Q.
Proof.
  iIntros (Hsh Hc) "(%p & D & N & Z) HQ". pose proof Hsh as (Hxs & _). unfold rbt_search_cmp.
  wp_step. iApply (wp_start with "D Z"); [done|]. iIntros "D Z".
  wp_step. iApply (wp_rbt_search_loop cmp key tr d fuel (search_cmp_node tr key c ac) [] t with "D N Z").
  { by apply fuel_height. }
  { intros k c' l a v r R. iIntros "D Z HR". unfold search_cmp_node. wp_step.
    iApply (wp_node_value with "Z"). iIntros "Z". destruct ac as [f|].
    - destruct Hc as (x & Hx & Hf). do 3 wp_step. iApply wp_deref; [done|]. wp_step. rewrite Hf.
      iApply ("HR" with "D Z").
    - destruct Hc as (f & -> & Hf). simpl. do 3 wp_step. rewrite Hf. iApply ("HR" with "D Z"). }
  iIntros "D N Z". wp_step. destruct (descend_list t xs _ _ Hxs Hsort (surjective_pairing _)) as (Hp & _).
  rewrite zip_plug Hp. iApply ("HQ" with "[-]"); [iExists p; iFrame|done].
Qed.

(** ** Insertion *)

Definition counted : ib_rbt_t V Arg := set_n_nodes (u64 (n_nodes d + 1)) d.

Lemma wp_rbt_insert junk v (Q : nat -> hProp) : Forall (fun x => cmp key x.2 <> 0%Z) xs ->
  rbt tr d xs -∗
  (∀ a ys zs, ⟨xs = ys ++ zs /\ split_at cmp key ys zs⟩ -∗ rbt tr counted (ys ++ (a, v) :: zs) -∗ Q a) -∗
  wp (rbt_insert fuel junk tr key v) Q.
Proof.
  iIntros (Habs) "(%t & %Hsh & %p & D & N & Z) HQ". pose proof Hsh as (Hxs & Hc & [m Hm] & _).
  unfold rbt_insert. wp_step. iApply wp_new. iIntros (a) "A". 
  iAssert (node_at a junk) with "A" as "A". do 10 wp_step.
  unfold rbt_tree_insert. do 2 wp_step. iApply (wp_start with "D Z"); [done|]. iIntros "D Z". do 3 wp_step.
  iApply (wp_tree_insert_loop cmp key tr d Hcmp fuel [] t with "D N Z");
    [by apply fuel_height|by rewrite Hxs|].
  destruct (descend cmp key [] t) as [k' t'] eqn:E. simpl. iIntros (->) "D N Z".
  destruct (descend_list t xs k' Leaf Hxs Hsort E) as (Hp & Hl & Hs & Hk & _).
  wp_step. iApply (wp_rbt_tree_add_child _ _ tr d k' with "D Z A"); [done|by destruct k' as [|[]]| |done|done|].
  { destruct k' as [|[]]; [done| |]; apply Forall_cons in Hk as [Hv _]; exact Hv. }
  iIntros "D K A". simpl. do 2 wp_step.
  iApply (wp_rbt_balance_tree with "D N K A"); [|by apply (ins_ok_leaf k' t m)|].
  { by apply (fuel_path t). }
  iIntros (t' Ht') "(%p' & D & N & Z)". do 5 wp_step.
  iApply ("HQ" with "[] [D N Z]"); [|by iApply (rbt_counted with "D N Z")]. by rewrite Hl.
Qed.

(** A node is put at the end of a path and the tree is balanced. *)
Lemma wp_attach {T} t k b a c q v p (m : prog T) (Q : T -> hProp) : rb_shape d xs t -> plug k Leaf = t ->
  last b = Some (top (root d) k) -> side_ok k (result b) ->
  tree_cell tr d -∗ nil_at (nil d) IB_RBT_BLACK p -∗ zip (nil d) (root d) k Leaf -∗
  node_at a (mkNode c (nil d) (nil d) q (Some v)) -∗
  (∀ t' p', ⟨inorder t' = before k ++ (a, v) :: after k /\ tcolor t' = IB_RBT_BLACK /\ exists m, is_rb t' m⟩ -∗
     tree_cell tr d -∗ nil_at (nil d) IB_RBT_BLACK p' -∗ zip (nil d) (root d) [] t' -∗ wp m Q) -∗
  wp (rbt_tree_add_child tr b a;; rbt_balance_tree fuel tr a;; m) Q.
Proof.
  iIntros (Hsh Hp Hb Hside) "D N Z A HQ". pose proof Hsh as (Hxs & Hc & [mm Hm] & _). wp_step.
  iApply (wp_rbt_tree_add_child _ _ tr d k with "D Z A"); [done..|]. iIntros "D K A". simpl. wp_step.
  iApply (wp_rbt_balance_tree with "D N K A"); [by apply (fuel_path t)|by apply (ins_ok_leaf k t mm)|].
  iIntros (t' Ht') "(%p' & D & N & Z)". by iApply ("HQ" with "[] D N Z").
Qed.

(** The bound of a search that found nothing is the place of a new node. *)
Lemma wp_rbt_add_preallocated_node t a n v (Q : nat * ib_rbt_bound_t -> hProp) : rb_shape d xs t ->
  (descend cmp key [] t).2 = Leaf -> value n = Some v ->
  rbt_with tr d t -∗ node_at a n -∗
  (∀ b ys zs, ⟨xs = ys ++ zs /\ split_at cmp key ys zs⟩ -∗ rbt tr counted (ys ++ (a, v) :: zs) -∗ Q (a, b)) -∗
  wp (rbt_add_preallocated_node fuel tr (bound_of cmp key (descend cmp key [] t).1) a) Q.
Proof.
  iIntros (Hsh HL Hv) "(%p & D & N & Z) A HQ". pose proof Hsh as (Hxs & Hc & [m Hm] & _).
  destruct (descend cmp key [] t) as [k' t'] eqn:E. simpl in HL |- *. subst t'.
  destruct (descend_list t xs k' Leaf Hxs Hsort E) as (Hp & Hl & Hs & Hk & _).
  rewrite -{1}Hp -zip_plug. unfold rbt_add_preallocated_node. do 8 wp_step.
  destruct n as [c l r q w]. simpl in Hv. subst w. simpl.
  iAssert (∀ b, ⟨last b = Some (top (root d) k') /\ side_ok k' (result b)⟩ -∗ tree_cell tr d -∗
    wp (rbt_tree_add_child tr b a;; rbt_balance_tree fuel tr a;; n ← rdt n_nodes tr;
        wrt (set_n_nodes (u64 (n + 1))) tr;; mret (a, b)) Q)%I with "[N Z A HQ]" as "HK".
  { iIntros (b [Hb Hside]) "D". iApply (wp_attach t k' with "D N Z A"); [done..|].
    iIntros (t' p' Ht') "D N Z". do 5 wp_step.
    iApply ("HQ" with "[] [D N Z]"); [|by iApply (rbt_counted with "D N Z")]. by rewrite Hl. }
  destruct k' as [|f k']; [do 4 wp_step; by iApply ("HK" with "[] D")|].
  apply Forall_cons in Hk as [Hk _]. destruct f; simpl in Hk |- *; do 2 wp_step; by iApply ("HK" with "[] D").
Qed.

Lemma wp_rbt_add_node junk t v (Q : nat * ib_rbt_bound_t -> hProp) : rb_shape d xs t ->
  (descend cmp key [] t).2 = Leaf ->
  rbt_with tr d t -∗
  (∀ a b ys zs, ⟨xs = ys ++ zs /\ split_at cmp key ys zs⟩ -∗ rbt tr counted (ys ++ (a, v) :: zs) -∗ Q (a, b)) -∗
  wp (rbt_add_node fuel junk tr (bound_of cmp key (descend cmp key [] t).1) v) Q.
Proof.
  iIntros (Hsh HL) "T HQ". unfold rbt_add_node. wp_step. iApply wp_new. iIntros (a) "A".
  iAssert (node_at a junk) with "A" as "A". do 2 wp_step.
  iApply (wp_rbt_add_preallocated_node with "T A"); [done|done|done|]. iIntros (b ys zs). iApply "HQ".
Qed.

(** A search that finds nothing, followed by the addition of a node. *)
Lemma wp_search_absent (Q : Z * ib_rbt_bound_t -> hProp) :
  rbt tr d xs -∗
  ((∀ t z b, ⟨rb_shape d xs t /\ ((z = 0%Z /\ exists a v, (a, v) ∈ xs /\ cmp key v = 0%Z /\ last b = Some a) \/
        (z <> 0%Z /\ Forall (fun x => cmp key x.2 <> 0%Z) xs /\ (descend cmp key [] t).2 = Leaf /\
         b = bound_of cmp key (descend cmp key [] t).1))⟩ -∗ rbt_with tr d t -∗ Q (z, b))) -∗
  wp (rbt_search fuel tr key) Q.
Proof.
  iIntros "(%t & %Hsh & T) HQ". iApply (wp_rbt_search t with "T"); [done|]. iIntros "T" (b ->).
  iApply ("HQ" with "[] T"). iPureIntro. split; [done|]. destruct Hsh as (Hxs & _).
  destruct (descend cmp key [] t) as [k' t'] eqn:E. simpl.
  destruct (descend_list t xs k' t' Hxs Hsort E) as (_ & Hl & [Hb Ha] & Hk & Hf).
  destruct t' as [|c l a v r]; simpl.
  - right. split_and!; [|rewrite Hl /= Forall_app; split|done|done].
    + destruct k' as [|f k']; [done|]. apply Forall_cons in Hk as [Hk _]. destruct f; simpl in *; lia.
    + eapply Forall_impl; [exact Hb|]. simpl. lia.
    + eapply Forall_impl; [exact Ha|]. simpl. lia.
  - left. split; [done|]. exists a, v. split_and!; [|done|done]. rewrite Hl. set_solver.
Qed.


End searches.

End key.

End ops.
End RbOps.
