(* ===== verification/RbDelete.v ===== *)
(** * Red-black trees: deletion

    The path above the child of a detached node lacks a black node; a round of
    the loop of [rbt_remove_node_and_rebalance] restores the black height or
    moves the defect up.  While the loop runs the root is red, which ends it
    there. *)

From S2P Require Import Prelude SepHeap RbTree RbRep RbInsert RbSearch RbOps.
From iris.proofmode Require Import coq_tactics environments intro_patterns spec_patterns.

Module RbDelete.
Import RbTree RbRep RbInsert RbSearch RbOps.

Section paths.
Context {V : Type}.
Local Notation tree := (RbRep.tree (V := V)).
Local Notation frame := (RbRep.frame (V := V)).
Implicit Types (t : tree) (f g : frame) (k : list frame).

(** A path that needs a subtree of black height [n]; the colour of the root
    does not count. *)
Inductive ctx_del : list frame -> nat -> Prop :=
| del_nil n : ctx_del [] n
| del_root f n : is_rb (sibling f) n -> ctx_del [f] n
| del_black f k n : fcolor f = IB_RBT_BLACK -> is_rb (sibling f) n -> ctx_del k (S n) -> ctx_del (f :: k) n
| del_red f k n : fcolor f = IB_RBT_RED -> is_rb (sibling f) n -> tcolor (sibling f) = IB_RBT_BLACK ->
    ctx_del k n -> (under_black k \/ exists g, k = [g]) -> ctx_del (f :: k) n.

Lemma ctx_del_sibling f k n : ctx_del (f :: k) n -> is_rb (sibling f) n.
Proof. by inversion 1. Qed.

Lemma ctx_del_up_black f k n : ctx_del (f :: k) n -> fcolor f = IB_RBT_BLACK -> ctx_del k (S n).
Proof. inversion 1; subst; intros E; [constructor|done|congruence]. Qed.

Lemma ctx_del_up_red f k n : ctx_del (f :: k) n -> fcolor f = IB_RBT_RED -> ctx_del k n.
Proof. inversion 1; subst; intros E; [constructor|congruence|done]. Qed.

(** Another black subtree in place of the sibling. *)
Lemma ctx_del_same f f' k n : ctx_del (f :: k) n -> fcolor f' = fcolor f -> is_rb (sibling f') n ->
  tcolor (sibling f') = IB_RBT_BLACK -> ctx_del (f' :: k) n.
Proof.
  inversion 1; subst; intros E Hs Hc; [by apply del_root|apply del_black; [congruence|done|done]|].
  apply del_red; [congruence|done..].
Qed.

Lemma ctx_del_red_sibling f k n : ctx_del (f :: k) n -> tcolor (sibling f) = IB_RBT_RED ->
  k = [] \/ fcolor f = IB_RBT_BLACK.
Proof. inversion 1; subst; [by left|by right|congruence]. Qed.

Definition root_red k : Prop := exists k' f, k = k' ++ [f] /\ fcolor f = IB_RBT_RED.

(** The subtree [t] at the path [k] lacks a black node, or it is red and has
    only to be painted. *)
Definition del_ok k t : Prop :=
  if decide (tcolor t = IB_RBT_RED) then exists n, ctx_del k n /\ is_rb (paint IB_RBT_BLACK t) n
  else root_red k /\ exists n, ctx_del k (S n) /\ is_rb t n.

(** What a round of the loop makes of the subtree [t] at the path [k]. *)
Definition del_round (nl : nat) k t (res : option nat) k1 t1 : Prop :=
  inorder (plug k1 t1) = inorder (plug k t) /\
  match res with
  | Some a => a = addr nl t1 /\ t1 <> Leaf /\ del_ok k1 t1 /\ (tcolor t1 = IB_RBT_BLACK -> length k1 < length k)
  | None => t1 = t /\ exists n, ctx_del k1 n /\ is_rb t n
  end.

Lemma root_red_cons f k : root_red (f :: k) -> (k = [] /\ fcolor f = IB_RBT_RED) \/ root_red k.
Proof.
  intros ([|g k'] & h & E & Hh); simplify_eq/=; [by left|]. right. by exists k', h.
Qed.

Lemma is_rb_pos t n : is_rb t n -> 1 <= n.
Proof. induction 1; lia. Qed.

Lemma is_rb_node t n : is_rb t (S (S n)) -> tcolor t = IB_RBT_BLACK ->
  exists l a v r, t = Node IB_RBT_BLACK l a v r /\ is_rb l (S n) /\ is_rb r (S n).
Proof. inversion 1; simplify_eq/=; [done|]. eauto 10. Qed.

End paths.

#[export] Hint Resolve del_nil del_root del_black del_red : mc.

Section delete.
Context {V Arg : Type}.
Local Notation obj := (obj V Arg).
Local Notation hProp := (hProp obj).
Local Notation tree := (RbRep.tree (V := V)).
Local Notation frame := (RbRep.frame (V := V)).
Implicit Types (t : tree) (f g : frame) (k : list frame) (d : ib_rbt_t V Arg) (c : ib_rbt_color_t).
Variables nl rt : nat.

Lemma wp_not_nil a n p (Q : () -> hProp) :
  nil_at nl IB_RBT_BLACK p -∗ node_at a n -∗ (nil_at nl IB_RBT_BLACK p -∗ node_at a n -∗ Q ()) -∗
  wp (ut_a (bool_decide (a <> nl))) Q.
Proof.
  iIntros "N A HQ". iDestruct (node_at_ne with "A N") as %Hne.
  iApply wp_ut_a; [by apply bool_decide_eq_true|]. iApply ("HQ" with "N A").
Qed.

(** The sibling is black with black children: it becomes red. *)
Lemma del_round_recolour c a v l b w r k t m (t1 := Node c t a v (Node IB_RBT_RED l b w r)) (k0 := InLeft c a v (Node IB_RBT_BLACK l b w r) :: k) :
  is_rb l m -> is_rb r m -> tcolor l = IB_RBT_BLACK -> tcolor r = IB_RBT_BLACK -> is_rb t m ->
  ctx_del k0 (S m) -> (c = IB_RBT_BLACK -> root_red k) -> del_round nl k0 t (Some a) k t1.
Proof.
  intros Hl Hr El Er Ht Hk Hc. split; [same_order|]. split_and!; [done|done| |simpl; lia].
  unfold del_ok. simpl. destruct c; simpl.
  - exists (S m). split; [|eauto with mc]. by apply (ctx_del_up_red _ _ _ Hk).
  - split; [by apply Hc|]. exists (S m). split; [|eauto with mc]. by apply (ctx_del_up_black _ _ _ Hk).
Qed.

Lemma wp_balance_right_black c a v l b w r k t m p (Q : option nat -> hProp)
  (k0 := InLeft c a v (Node IB_RBT_BLACK l b w r) :: k) :
  is_rb l m -> is_rb r m -> is_rb t m -> ctx_del k0 (S m) -> (c = IB_RBT_BLACK -> root_red k) ->
  nil_at nl IB_RBT_BLACK p -∗ zip nl rt k0 t -∗
  (∀ res k1 t1, ⟨del_round nl k0 t res k1 t1 /\ (is_Some res -> tcolor t1 = c)⟩ -∗
     nil_at nl IB_RBT_BLACK p -∗ zip nl rt k1 t1 -∗ Q res) -∗
  wp (balance_right_black nl a b) Q.
Proof.
  intros Hl Hr Ht Hk Hc. iIntros "N Z HQ". iEval (rewrite /zip /=) in "Z".
  iDestruct "Z" as "((A & (B & L & R) & K) & T)". unfold balance_right_black. do 8 wp_step.
  destruct (tcolor_cases r) as [Er|(r1 & e & x & r2 & ->)]; [destruct (tcolor_cases l) as [El|(l1 & e & x & l2 & ->)]|].
  - rewrite decide_True; [|done]. do 3 wp_step.
    iApply ("HQ" $! (Some a) k (Node c t a v (Node IB_RBT_RED l b w r)) with "[] N [-]"); [|rewrite /zip /=; iFrame].
    iPureIntro. split; [|done]. by apply (del_round_recolour _ _ _ _ _ _ _ _ _ m).
  - apply is_rb_red in Hl as (Hl1 & Hl2 & El1 & El2). iEval (simpl) in "L". iDestruct "L" as "(E & L1 & L2)".
    rewrite Er. simpl. do 10 wp_step.
    iApply (wp_rotate_right nl rt (InRight c t a v :: k) IB_RBT_RED IB_RBT_BLACK l1 e x l2 b w r with "N [-HQ]").
    { rewrite /zip /=. iFrame. }
    iIntros "N Z". iEval (rewrite /zip /=) in "Z". iDestruct "Z" as "((A & T & K) & E & L1 & B & L2 & R)".
    do 3 wp_step. iApply (wp_not_nil with "N E"). iIntros "N E". do 12 wp_step.
    iApply (wp_rotate_left nl rt k IB_RBT_BLACK t a v c l1 e x (Node IB_RBT_BLACK l2 b w r) with "N [-HQ]").
    { rewrite /zip /=. iFrame. }
    iIntros "N Z". wp_step.
    iApply ("HQ" $! None (InLeft IB_RBT_BLACK a v l1 :: InLeft c e x (Node IB_RBT_BLACK l2 b w r) :: k) t
      with "[] N [Z]"); [|by rewrite !zip_fill].
    iPureIntro. split; [|by intros []]. split; [same_order|]. split; [done|]. exists m. split; [|done].
    apply del_black; [done|done|]. apply (ctx_del_same (InLeft c a v (Node IB_RBT_BLACK (Node IB_RBT_RED l1 e x l2) b w r)));
      eauto with mc.
  - apply is_rb_red in Hr as (Hr1 & Hr2 & Er1 & Er2). rewrite decide_False; [|by intros [_ ?]]. do 2 wp_step.
    iEval (simpl) in "R". iDestruct "R" as "(E & R1 & R2)". do 10 wp_step. wp_step.
    iApply (wp_rotate_left nl rt k IB_RBT_BLACK t a v c l b w (Node IB_RBT_BLACK r1 e x r2) with "N [-HQ]").
    { rewrite /zip /=. iFrame. }
    iIntros "N Z". wp_step.
    iApply ("HQ" $! None (InLeft IB_RBT_BLACK a v l :: InLeft c b w (Node IB_RBT_BLACK r1 e x r2) :: k) t
      with "[] N [Z]"); [|by rewrite !zip_fill].
    iPureIntro. split; [|by intros []]. split; [same_order|]. split; [done|]. exists m. split; [|done].
    apply del_black; [done|done|]. apply (ctx_del_same (InLeft c a v (Node IB_RBT_BLACK l b w (Node IB_RBT_RED r1 e x r2))));
      eauto with mc.
Qed.

(** A red sibling is rotated up: the path to the parent, which is red now. *)
Lemma del_pushed_left c a v l b w r k n :
  ctx_del (InLeft c a v (Node IB_RBT_RED l b w r) :: k) n ->
  ctx_del (InLeft IB_RBT_RED a v l :: InLeft IB_RBT_BLACK b w r :: k) n.
Proof.
  intros Hk. pose proof (ctx_del_sibling _ _ _ Hk) as (Hl & Hr & El & Er)%is_rb_red.
  apply del_red; [done|done|done| |by left]. apply del_black; [done|done|].
  destruct (ctx_del_red_sibling _ _ _ Hk eq_refl) as [->|Ec]; [constructor|by apply (ctx_del_up_black _ _ _ Hk)].
Qed.

Lemma wp_balance_right c a v s k t m p (Q : option nat -> hProp) :
  is_rb s (S m) -> is_rb t m -> ctx_del (InLeft c a v s :: k) (S m) -> root_red (InLeft c a v s :: k) ->
  nil_at nl IB_RBT_BLACK p -∗ zip nl rt (InLeft c a v s :: k) t -∗
  (∀ res k1 t1, ⟨del_round nl (InLeft c a v s :: k) t res k1 t1⟩ -∗
     nil_at nl IB_RBT_BLACK p -∗ zip nl rt k1 t1 -∗ Q res) -∗
  wp (rbt_balance_right nl a (addr nl s)) Q.
Proof.
  intros Hs Ht Hk Hrr. assert (1 <= m) as Hm by (by apply (is_rb_pos t)). destruct m as [|m]; [lia|].
  iIntros "N Z HQ". unfold rbt_balance_right. destruct (tcolor_cases s) as [Es|(l & b & w & r & ->)].
  - destruct (is_rb_node s m Hs Es) as (l & b & w & r & -> & Hl & Hr). iEval (rewrite /zip /=) in "Z".
    iDestruct "Z" as "((A & (B & L & R) & K) & T)". simpl. wp_step. iApply (wp_not_nil with "N B"). iIntros "N B".
    do 4 wp_step. iApply (wp_balance_right_black c a v l b w r k t (S m) with "N [-HQ]"); [done|done|done|done| | |].
    { intros ->. destruct (root_red_cons _ _ Hrr) as [[_ E]|?]; done. }
    { rewrite /zip /=. iFrame. }
    iIntros (res k1 t1 [Hround _]). by iApply "HQ".
  - apply is_rb_red in Hs as (Hl & Hr & El & Er). iEval (rewrite /zip /=) in "Z".
    iDestruct "Z" as "((A & (B & L & R) & K) & T)". simpl. wp_step. iApply (wp_not_nil with "N B"). iIntros "N B".
    do 8 wp_step.
    iApply (wp_rotate_left nl rt k IB_RBT_RED t a v IB_RBT_BLACK l b w r with "N [-HQ]").
    { rewrite /zip /=. iFrame. }
    iIntros "N Z". destruct (is_rb_node l m Hl El) as (l1 & e & x & l2 & -> & Hl1 & Hl2).
    iEval (rewrite /zip /=) in "Z". iDestruct "Z" as "(K & B & (A & T & E & L1 & L2) & R)".
    do 3 wp_step. iApply (wp_not_nil with "N E"). iIntros "N E". wp_step.
    iApply (wp_balance_right_black IB_RBT_RED a v l1 e x l2 (InLeft IB_RBT_BLACK b w r :: k) t (S m)
      with "N [-HQ]"); [done|done|done| |done| |].
    { by apply (del_pushed_left _ _ _ _ _ _ _ _ _ Hk). }
    { rewrite /zip /=. iFrame. }
    iIntros (res k1 t1 [[Hin Hround] Hc]) "N Z". iApply ("HQ" with "[] N Z"). iPureIntro.
    split; [rewrite Hin; same_order|]. destruct res as [y|]; [|done].
    destruct Hround as (H1 & H2 & H3 & _). split_and!; [done..|]. by rewrite Hc.
Qed.

(** *** The right side *)

Lemma del_round_recolour' c a v l b w r k t m (t1 := Node c (Node IB_RBT_RED l b w r) a v t) (k0 := InRight c (Node IB_RBT_BLACK l b w r) a v :: k) :
  is_rb l m -> is_rb r m -> tcolor l = IB_RBT_BLACK -> tcolor r = IB_RBT_BLACK -> is_rb t m ->
  ctx_del k0 (S m) -> (c = IB_RBT_BLACK -> root_red k) -> del_round nl k0 t (Some a) k t1.
Proof.
  intros Hl Hr El Er Ht Hk Hc. split; [same_order|]. split_and!; [done|done| |simpl; lia].
  unfold del_ok. simpl. destruct c; simpl.
  - exists (S m). split; [|eauto with mc]. by apply (ctx_del_up_red _ _ _ Hk).
  - split; [by apply Hc|]. exists (S m). split; [|eauto with mc]. by apply (ctx_del_up_black _ _ _ Hk).
Qed.

Lemma wp_balance_left_black c a v l b w r k t m p (Q : option nat -> hProp)
  (k0 := InRight c (Node IB_RBT_BLACK l b w r) a v :: k) :
  is_rb l m -> is_rb r m -> is_rb t m -> ctx_del k0 (S m) -> (c = IB_RBT_BLACK -> root_red k) ->
  nil_at nl IB_RBT_BLACK p -∗ zip nl rt k0 t -∗
  (∀ res k1 t1, ⟨del_round nl k0 t res k1 t1 /\ (is_Some res -> tcolor t1 = c)⟩ -∗
     nil_at nl IB_RBT_BLACK p -∗ zip nl rt k1 t1 -∗ Q res) -∗
  wp (balance_left_black nl a b) Q.
Proof.
  intros Hl Hr Ht Hk Hc. iIntros "N Z HQ". iEval (rewrite /zip /=) in "Z".
  iDestruct "Z" as "((A & (B & L & R) & K) & T)". unfold balance_left_black. do 8 wp_step.
  destruct (tcolor_cases l) as [El|(l1 & e & x & l2 & ->)]; [destruct (tcolor_cases r) as [Er|(r1 & e & x & r2 & ->)]|].
  - rewrite decide_True; [|done]. do 3 wp_step.
    iApply ("HQ" $! (Some a) k (Node c (Node IB_RBT_RED l b w r) a v t) with "[] N [-]"); [|rewrite /zip /=; iFrame].
    iPureIntro. split; [|done]. by apply (del_round_recolour' _ _ _ _ _ _ _ _ _ m).
  - apply is_rb_red in Hr as (Hr1 & Hr2 & Er1 & Er2). iEval (simpl) in "R". iDestruct "R" as "(E & R1 & R2)".
    rewrite El. simpl. do 10 wp_step.
    iApply (wp_rotate_left nl rt (InLeft c a v t :: k) IB_RBT_RED l b w IB_RBT_BLACK r1 e x r2 with "N [-HQ]").
    { rewrite /zip /=. iFrame. }
    iIntros "N Z". iEval (rewrite /zip /=) in "Z". iDestruct "Z" as "((A & T & K) & E & (B & L & R1) & R2)".
    do 3 wp_step. iApply (wp_not_nil with "N E"). iIntros "N E". do 12 wp_step.
    iApply (wp_rotate_right nl rt k IB_RBT_BLACK c (Node IB_RBT_BLACK l b w r1) e x r2 a v t with "N [-HQ]").
    { rewrite /zip /=. iFrame. }
    iIntros "N Z". wp_step.
    iApply ("HQ" $! None (InRight IB_RBT_BLACK r2 a v :: InRight c (Node IB_RBT_BLACK l b w r1) e x :: k) t
      with "[] N [Z]"); [|by rewrite !zip_fill].
    iPureIntro. split; [|by intros []]. split; [same_order|]. split; [done|]. exists m. split; [|done].
    apply del_black; [done|done|]. apply (ctx_del_same (InRight c (Node IB_RBT_BLACK l b w (Node IB_RBT_RED r1 e x r2)) a v));
      eauto with mc.
  - apply is_rb_red in Hl as (Hl1 & Hl2 & El1 & El2). rewrite decide_False; [|by intros [_ ?]]. do 2 wp_step.
    iEval (simpl) in "L". iDestruct "L" as "(E & L1 & L2)". do 10 wp_step. wp_step.
    iApply (wp_rotate_right nl rt k IB_RBT_BLACK c (Node IB_RBT_BLACK l1 e x l2) b w r a v t with "N [-HQ]").
    { rewrite /zip /=. iFrame. }
    iIntros "N Z". wp_step.
    iApply ("HQ" $! None (InRight IB_RBT_BLACK r a v :: InRight c (Node IB_RBT_BLACK l1 e x l2) b w :: k) t
      with "[] N [Z]"); [|by rewrite !zip_fill].
    iPureIntro. split; [|by intros []]. split; [same_order|]. split; [done|]. exists m. split; [|done].
    apply del_black; [done|done|]. apply (ctx_del_same (InRight c (Node IB_RBT_BLACK (Node IB_RBT_RED l1 e x l2) b w r) a v));
      eauto with mc.
Qed.

Lemma del_pushed_right c a v l b w r k n :
  ctx_del (InRight c (Node IB_RBT_RED l b w r) a v :: k) n ->
  ctx_del (InRight IB_RBT_RED r a v :: InRight IB_RBT_BLACK l b w :: k) n.
Proof.
  intros Hk. pose proof (ctx_del_sibling _ _ _ Hk) as (Hl & Hr & El & Er)%is_rb_red.
  apply del_red; [done|done|done| |by left]. apply del_black; [done|done|].
  destruct (ctx_del_red_sibling _ _ _ Hk eq_refl) as [->|Ec]; [constructor|by apply (ctx_del_up_black _ _ _ Hk)].
Qed.

Lemma wp_balance_left c a v s k t m p (Q : option nat -> hProp) :
  is_rb s (S m) -> is_rb t m -> ctx_del (InRight c s a v :: k) (S m) -> root_red (InRight c s a v :: k) ->
  nil_at nl IB_RBT_BLACK p -∗ zip nl rt (InRight c s a v :: k) t -∗
  (∀ res k1 t1, ⟨del_round nl (InRight c s a v :: k) t res k1 t1⟩ -∗
     nil_at nl IB_RBT_BLACK p -∗ zip nl rt k1 t1 -∗ Q res) -∗
  wp (rbt_balance_left nl a (addr nl s)) Q.
Proof.
  intros Hs Ht Hk Hrr. assert (1 <= m) as Hm by (by apply (is_rb_pos t)). destruct m as [|m]; [lia|].
  iIntros "N Z HQ". unfold rbt_balance_left. destruct (tcolor_cases s) as [Es|(l & b & w & r & ->)].
  - destruct (is_rb_node s m Hs Es) as (l & b & w & r & -> & Hl & Hr). iEval (rewrite /zip /=) in "Z".
    iDestruct "Z" as "((A & (B & L & R) & K) & T)". simpl. wp_step. iApply (wp_not_nil with "N B"). iIntros "N B".
    do 4 wp_step. iApply (wp_balance_left_black c a v l b w r k t (S m) with "N [-HQ]"); [done|done|done|done| | |].
    { intros ->. destruct (root_red_cons _ _ Hrr) as [[_ E]|?]; done. }
    { rewrite /zip /=. iFrame. }
    iIntros (res k1 t1 [Hround _]). by iApply "HQ".
  - apply is_rb_red in Hs as (Hl & Hr & El & Er). iEval (rewrite /zip /=) in "Z".
    iDestruct "Z" as "((A & (B & L & R) & K) & T)". simpl. wp_step. iApply (wp_not_nil with "N B"). iIntros "N B".
    do 8 wp_step.
    iApply (wp_rotate_right nl rt k IB_RBT_RED IB_RBT_BLACK l b w r a v t with "N [-HQ]").
    { rewrite /zip /=. iFrame. }
    iIntros "N Z". destruct (is_rb_node r m Hr Er) as (r1 & e & x & r2 & -> & Hr1 & Hr2).
    iEval (rewrite /zip /=) in "Z". iDestruct "Z" as "(K & B & L & (A & (E & R1 & R2) & T))".
    do 3 wp_step. iApply (wp_not_nil with "N E"). iIntros "N E". wp_step.
    iApply (wp_balance_left_black IB_RBT_RED a v r1 e x r2 (InRight IB_RBT_BLACK l b w :: k) t (S m)
      with "N [-HQ]"); [done|done|done| |done| |].
    { by apply (del_pushed_right _ _ _ _ _ _ _ _ _ Hk). }
    { rewrite /zip /=. iFrame. }
    iIntros (res k1 t1 [[Hin Hround] Hc]) "N Z". iApply ("HQ" with "[] N Z"). iPureIntro.
    split; [rewrite Hin; same_order|]. destruct res as [y|]; [|done].
    destruct Hround as (H1 & H2 & H3 & _). split_and!; [done..|]. by rewrite Hc.
Qed.

(** *** The loop *)

Lemma wp_child_parent k t c p (Q : nat -> hProp) : (t = Leaf -> p = top rt k) ->
  nil_at nl c p -∗ zip nl rt k t -∗ (nil_at nl c p -∗ zip nl rt k t -∗ Q (top rt k)) -∗
  wp (rdn parent (addr nl t)) Q.
Proof.
  iIntros (Hp) "N Z HQ". destruct t as [|c' l a v r].
  - simpl. iApply (wp_rdn with "N"). iIntros "N". rewrite /= Hp; [|done]. iApply ("HQ" with "N Z").
  - iApply (wp_parent with "Z"). iIntros "Z". iApply ("HQ" with "N Z").
Qed.

Lemma wp_remove_round tr d f k t m p (Q : option nat -> hProp) : nil d = nl -> (t = Leaf -> p = top rt (f :: k)) ->
  is_rb t m -> ctx_del (f :: k) (S m) -> root_red (f :: k) ->
  tree_cell tr d -∗ nil_at nl IB_RBT_BLACK p -∗ zip nl rt (f :: k) t -∗
  (∀ res k1 t1, ⟨del_round nl (f :: k) t res k1 t1⟩ -∗
     tree_cell tr d -∗ nil_at nl IB_RBT_BLACK p -∗ zip nl rt k1 t1 -∗ Q res) -∗
  wp (remove_round tr (addr nl t)) Q.
Proof.
  iIntros (Hd Hp Ht Hk Hrr) "D N Z HQ". unfold remove_round. wp_step.
  iApply (wp_child_parent with "N Z"); [done|]. iIntros "N Z".
  pose proof (ctx_del_sibling _ _ _ Hk) as Hs. assert (1 <= m) by by apply (is_rb_pos t).
  destruct f as [c a v s|c s a v]; simpl in Hs |- *.
  - iEval (rewrite /zip /=) in "Z". iDestruct "Z" as "((A & S & K) & T)". do 6 wp_step. rewrite Hd.
    rewrite decide_True; [|done].
    iApply (wp_balance_right c a v s k t m with "N [S A K T]"); [done..| |].
    { rewrite /zip /=. iFrame. }
    iIntros (res k1 t1) "H N Z". iApply ("HQ" with "H D N Z").
  - iAssert (⌜addr nl s <> addr nl t⌝)%I as %Hne.
    { iEval (rewrite /zip /=) in "Z". iDestruct "Z" as "((A & S & K) & T)".
      destruct s as [|c' l b w r]; [inversion Hs; lia|]. simpl. iDestruct "S" as "(B & _ & _)".
      iDestruct (addr_ne with "N T B") as %Hne. iPureIntro. by apply not_eq_sym. }
    iEval (rewrite /zip /=) in "Z". iDestruct "Z" as "((A & S & K) & T)". do 6 wp_step. rewrite Hd.
    rewrite decide_False; [|done]. rewrite decide_True; [|done].
    iApply (wp_balance_left c a v s k t m with "N [S A K T]"); [done..| |].
    { rewrite /zip /=. iFrame. }
    iIntros (res k1 t1) "H N Z". iApply ("HQ" with "H D N Z").
Qed.

(** At the end a node has only to be painted black. *)
Definition del_done k t : Prop := exists n, ctx_del k n /\ is_rb (paint IB_RBT_BLACK t) n.

Lemma wp_remove_loop fuel tr d k t p (Q : nat -> hProp) : nil d = nl -> (t = Leaf -> p = top rt k) -> del_ok k t ->
  0 < fuel -> (tcolor t = IB_RBT_BLACK -> length k + 1 < fuel) ->
  tree_cell tr d -∗ nil_at nl IB_RBT_BLACK p -∗ zip nl rt k t -∗
  (∀ k1 t1, ⟨inorder (plug k1 t1) = inorder (plug k t) /\ del_done k1 t1⟩ -∗
     tree_cell tr d -∗ nil_at nl IB_RBT_BLACK p -∗ zip nl rt k1 t1 -∗ Q (addr nl t1)) -∗
  wp (remove_loop fuel tr (addr nl t)) Q.
Proof.
  intros Hd. revert k t. induction fuel as [|fuel IH]; intros k t Hp Hok Hf Hf'; [lia|].
  iIntros "D N Z HQ". simpl. wp_step. iEval (rewrite /zip) in "Z". iDestruct "Z" as "[K T]".
  iApply (wp_color with "N T"). iIntros "N T".
  iAssert (zip nl rt k t) with "[K T]" as "Z"; [rewrite /zip; iFrame|]. unfold del_ok in Hok.
  destruct (decide (tcolor t = IB_RBT_RED)) as [Ec|Ec].
  { rewrite decide_False; [|congruence]. wp_step. iApply ("HQ" with "[] D N Z"). done. }
  assert (tcolor t = IB_RBT_BLACK) as Eb by (by destruct (tcolor t)). specialize (Hf' Eb).
  rewrite decide_True; [|done]. destruct Hok as [Hrr (m & Hk & Ht)].
  destruct k as [|f k]; [by destruct Hrr as ([|] & ? & ? & ?)|].
  wp_step. iApply (wp_remove_round with "D N Z"); [done..|].
  iIntros (res k1 t1 [Hin Hround]) "D N Z". destruct res as [a|].
  - destruct Hround as (-> & Hl & Hok1 & Hlen).
    iApply (IH k1 t1 with "D N Z"); [done|done|lia|intros E; specialize (Hlen E); simpl in *; lia|].
    iIntros (k2 t2 [Hin2 Hdone]) "D N Z". iApply ("HQ" with "[] D N Z"). iPureIntro. by rewrite Hin2.
  - destruct Hround as (-> & n & H1 & H2). wp_step. iApply ("HQ" with "[] D N Z"). iPureIntro.
    split; [done|]. exists n. split; [done|]. by rewrite -Eb paint_id.
Qed.

End delete.
End RbDelete.
