(* ===== verification/RbDetach.v ===== *)
(** * Red-black trees: detaching a node

    [rbt_detach_node] takes a node out of the tree.  A node with two children
    is replaced by its successor, which keeps its address and value: pointers
    to other nodes stay valid. *)

From S2P Require Import Prelude SepHeap RbTree RbRep RbInsert RbSearch RbOps RbDelete.
From iris.proofmode Require Import coq_tactics environments intro_patterns spec_patterns.

Module RbDetach.
Import RbTree RbRep RbInsert RbSearch RbOps RbDelete.

Section detach.
Context {V Arg : Type}.
Local Notation obj := (obj V Arg).
Local Notation hProp := (hProp obj).
Local Notation tree := (RbRep.tree (V := V)).
Local Notation frame := (RbRep.frame (V := V)).
Implicit Types (t : tree) (f g : frame) (k : list frame) (d : ib_rbt_t V Arg) (c : ib_rbt_color_t).

(** ** Paths that differ in addresses and values only *)

Definition same_frame f g : Prop := fcolor f = fcolor g /\ sibling f = sibling g.

Lemma ctx_rb_same k k' n : Forall2 same_frame k k' -> ctx_rb k n -> ctx_rb k' n.
Proof.
  intros H Hk. revert k' H. induction Hk as [n|f k n E Hs Hk IH|f g k n E Hs Es Eg Hk IH]; intros k' H.
  - inversion H. constructor.
  - inversion H as [|? f' ? k2 [E1 E2] H2]; subst. apply ctx_black; [congruence|congruence|by apply IH].
  - inversion H as [|? f' ? k2 [E1 E2] H2]; subst. pose proof (IH _ H2) as Hk2.
    inversion H2 as [|? g' ? k3 [E3 E4] H3]; subst. apply ctx_red; try congruence.
Qed.

Lemma same_frame_refl k : Forall2 same_frame k k.
Proof. induction k; constructor; [by split|done]. Qed.

(** ** The left most node *)

Fixpoint leftmost k t : list frame * tree :=
  match t with
  | Leaf => (k, Leaf)
  | Node c l a v r => match l with Leaf => (k, t) | Node _ _ _ _ _ => leftmost (InLeft c a v r :: k) l end
  end.

Lemma leftmost_spec k t : t <> Leaf -> exists ks c a v r,
  leftmost k t = (ks ++ k, Node c Leaf a v r) /\ plug ks (Node c Leaf a v r) = t /\ before ks = [].
Proof.
  revert k. induction t as [|c l IHl a v r _]; intros k Ht; [done|]. destruct l as [|cl ll al vl rl].
  - by exists [], c, a, v, r.
  - destruct (IHl (InLeft c a v r :: k)) as (ks & c' & a' & v' & r' & E & Hp & Hb); [done|].
    exists (ks ++ [InLeft c a v r]), c', a', v', r'. split_and!.
    + simpl in E |- *. rewrite E. by rewrite -app_assoc.
    + by rewrite plug_app Hp.
    + clear -Hb. induction ks as [|[] ks IH]; simpl in *; [done|by apply IH|].
      by apply app_eq_nil in Hb as [_ [_ Hb]%app_eq_nil].
Qed.

Section moves.
Variables nl rt : nat.

Lemma wp_leftmost_loop fuel k t c p (Q : nat -> hProp) : height t <= fuel -> t <> Leaf ->
  nil_at nl c p -∗ zip nl rt k t -∗
  (nil_at nl c p -∗ zip nl rt (leftmost k t).1 (leftmost k t).2 -∗ Q (addr nl (leftmost k t).2)) -∗
  wp (leftmost_loop fuel nl (addr nl t)) Q.
Proof.
  revert k t. induction fuel as [|fuel IH]; intros k t Hf Ht; (destruct t as [|ct l a v r]; [done|]);
    simpl in Hf; [lia|].
  iIntros "N Z HQ". simpl. wp_step. iApply (wp_down_left with "Z"). iIntros "Z".
  iDestruct (zip_ne with "N Z") as %Hne. destruct l as [|cl ll al vl rl].
  - rewrite decide_True; [|done]. wp_step. iApply ("HQ" with "N"). by rewrite -zip_left.
  - rewrite decide_False; [|by intros ?%Hne]. iApply (IH with "N Z HQ"); [simpl in *; lia|done].
Qed.

(** ** Links to and from the parent *)

Lemma wp_set_parent t q a c p (Q : () -> hProp) :
  nil_at nl c p -∗ tree_at nl t q -∗
  (∀ p', ⟨(t = Leaf -> p' = a) /\ (t <> Leaf -> p' = p)⟩ -∗ nil_at nl c p' -∗ tree_at nl t a -∗ Q ()) -∗
  wp (wrn (set_parent a) (addr nl t)) Q.
Proof.
  iIntros "N T HQ". destruct t as [|c' l b v r]; simpl.
  - iApply (wp_wrn with "N"). iIntros "N". iApply ("HQ" $! a with "[] N T"). iPureIntro. by split.
  - iDestruct "T" as "(B & L & R)". wp_step. iApply ("HQ" $! p with "[] N"); [iPureIntro; by split|]. iFrame.
Qed.

Lemma wp_eject k x t q n c p (Q : () -> hProp) : parent n = top rt k ->
  nil_at nl c p -∗ ctx_at nl rt k x -∗ node_at x n -∗ tree_at nl t q -∗
  (∀ p', ⟨(t = Leaf -> p' = top rt k) /\ (t <> Leaf -> p' = p)⟩ -∗
     nil_at nl c p' -∗ ctx_at nl rt k (addr nl t) -∗ node_at x n -∗ tree_at nl t (top rt k) -∗ Q ()) -∗
  wp (rbt_eject_node x (addr nl t)) Q.
Proof.
  iIntros (Hn) "N K X T HQ". unfold rbt_eject_node. do 2 wp_step. rewrite Hn.
  iAssert (∀ R : () -> hProp, (nil_at nl c p -∗ ctx_at nl rt k (addr nl t) -∗ node_at x n -∗ R ()) -∗
    wp (pl ← rdn left (top rt k);
        (if decide (pl = x) then wrn (set_left (addr nl t)) (top rt k)
         else pr ← rdn right (top rt k);
              if decide (pr = x) then wrn (set_right (addr nl t)) (top rt k) else ut_a false)) R)%I
    with "[N K X]" as "H".
  { iIntros (R) "HR". destruct k as [|[ck a v r|ck l a v] k]; simpl.
    - do 2 wp_step. rewrite decide_True; [|done]. wp_step. iApply ("HR" with "N K X").
    - iDestruct "K" as "(A & S & K)". do 2 wp_step. rewrite decide_True; [|done]. wp_step.
      iApply ("HR" with "N [-X] X"). iFrame.
    - iDestruct "K" as "(A & L & K)". iDestruct (addr_ne with "N L X") as %Hne.
      do 2 wp_step. rewrite decide_False; [|done]. do 2 wp_step. rewrite decide_True; [|done]. wp_step.
      iApply ("HR" with "N [-X] X"). iFrame. }
  iApply (wp_assoc (rdn left (top rt k)) (fun pl => if decide (pl = x) then wrn (set_left (addr nl t)) (top rt k)
         else pr ← rdn right (top rt k);
              if decide (pr = x) then wrn (set_right (addr nl t)) (top rt k) else ut_a false)).
  wp_step. iApply "H". iIntros "N K X". do 2 wp_step. rewrite Hn.
  iApply (wp_set_parent with "N T"). iIntros (p') "Hp N T". iApply ("HQ" with "Hp N K X T").
Qed.

Lemma top_ne_nil k h c p : k <> [] -> nil_at nl c p -∗ ctx_at nl rt k h -∗ ⌜top rt k <> nl⌝ : hProp.
Proof.
  iIntros (Hk) "N K". destruct k as [|[] k]; [done| |]; simpl; iDestruct "K" as "(A & _ & _)";
    by iApply (node_at_ne with "A N").
Qed.

Lemma wp_replace k a c l r va s cs ls rs ps vs p (Q : () -> hProp) : l <> Leaf ->
  nil_at nl IB_RBT_BLACK p -∗ ctx_at nl rt k a -∗ node_at a (mkNode c (addr nl l) (addr nl r) (top rt k) va) -∗
  tree_at nl l a -∗ tree_at nl r a -∗ node_at s (mkNode cs ls rs ps (Some vs)) -∗
  (∀ p', ⟨(r = Leaf -> p' = s) /\ (r <> Leaf -> p' = p)⟩ -∗ nil_at nl IB_RBT_BLACK p' -∗
     node_at a (mkNode cs (addr nl l) (addr nl r) (top rt k) va) -∗ zip nl rt k (Node c l s vs r) -∗ Q ()) -∗
  wp (rbt_replace_node a s) Q.
Proof.
  iIntros (Hl) "N K A L R S HQ". unfold rbt_replace_node. do 13 wp_step.
  iApply (wp_set_parent with "N L"). iIntros (p1 [_ Hp1]) "N L". rewrite (Hp1 Hl). do 3 wp_step.
  iApply (wp_set_parent with "N R"). iIntros (p2 Hp2) "N R". wp_step.
  iApply (wp_eject k a (Node cs l s vs r) with "N K A [S L R]"); [done|rewrite /=; iFrame|].
  iIntros (p3 [_ Hp3]) "N K A T". rewrite (Hp3 ltac:(done)). iEval (simpl) in "T". iDestruct "T" as "(S & L & R)".
  do 5 wp_step. iApply ("HQ" with "[] N A"); [done|]. rewrite /zip /=. iFrame.
Qed.

End moves.

(** ** Detaching *)

(** The tree without the node, where [c] is the colour of the node that the
    tree has lost. *)
Definition lost_black k t c : Prop :=
  exists n, ctx_rb k n /\
    match c with
    | IB_RBT_RED => is_rb t n /\ tcolor t = IB_RBT_BLACK
    | IB_RBT_BLACK => exists m, n = S m /\ is_rb t m
    end.

Lemma lost_one_child k c l a v r m : is_rb (plug k (Node c l a v r)) m ->
  tcolor (plug k (Node c l a v r)) = IB_RBT_BLACK -> lost_black k l c /\ lost_black k r c.
Proof.
  intros H E. destruct (is_rb_unplug _ _ _ H E) as (n & Hk & Hn & _). destruct c.
  - apply is_rb_red in Hn as (H1 & H2 & H3 & H4). split; by exists n.
  - apply is_rb_black in Hn as (n' & -> & H1 & H2). split; exists (S n'); eauto.
Qed.

Lemma lost_successor ks k c l a v cs s vs rs m (t := Node c l a v (plug ks (Node cs Leaf s vs rs))) :
  is_rb (plug k t) m -> tcolor (plug k t) = IB_RBT_BLACK ->
  lost_black (ks ++ InRight c l s vs :: k) rs cs.
Proof.
  intros H E. assert (plug k t = plug (ks ++ InRight c l a v :: k) (Node cs Leaf s vs rs)) as Ep by by rewrite plug_app.
  rewrite Ep in H, E. destruct (lost_one_child _ _ _ _ _ _ _ H E) as [_ (n & Hk & Hn)].
  exists n. split; [|done]. eapply ctx_rb_same, Hk. apply Forall2_app; [apply same_frame_refl|].
  constructor; [by split|apply same_frame_refl].
Qed.

Lemma addr_leaf_iff nl t q c p : nil_at nl c p -∗ tree_at nl t q -∗ ⌜addr nl t = nl <-> t = Leaf⌝ : hProp.
Proof.
  iIntros "N T". destruct t as [|c' l a v r]; [done|]. simpl. iDestruct "T" as "(A & L & R)".
  iDestruct (node_at_ne with "A N") as %Hne. iPureIntro. naive_solver.
Qed.

(** The tree without the node, and the sentinel if it took its place. *)
Definition detached (rt : nat) (h : nat) (xs : list (nat * V)) k1 t1 c1 (p1 : nat) : Prop :=
  length k1 < h /\ inorder (plug k1 t1) = xs /\ lost_black k1 t1 c1 /\ (t1 = Leaf -> p1 = top rt k1).

Lemma wp_detach_with_successor fuel tr d k c l a v r p m (Q : nat -> hProp) :
  height r <= fuel -> l <> Leaf -> r <> Leaf -> is_rb (plug k (Node c l a v r)) m ->
  tcolor (plug k (Node c l a v r)) = IB_RBT_BLACK ->
  tree_cell tr d -∗ nil_at (nil d) IB_RBT_BLACK p -∗ zip (nil d) (root d) k (Node c l a v r) -∗
  (∀ k1 t1 n p1, ⟨detached (root d) (height (plug k (Node c l a v r))) (before k ++ inorder l ++ inorder r ++ after k) k1 t1 (color n) p1 /\
       value n = Some v⟩ -∗ tree_cell tr d -∗ nil_at (nil d) IB_RBT_BLACK p1 -∗
     zip (nil d) (root d) k1 t1 -∗ node_at a n -∗ Q (addr (nil d) t1)) -∗
  wp (detach_with_successor fuel tr a) Q.
Proof.
  intros Hf Hl Hr Hm Hb. iIntros "D N Z HQ". unfold detach_with_successor, rbt_find_successor. do 6 wp_step.
  iApply (wp_down_right with "Z"). iIntros "Z". iDestruct (zip_ne with "N Z") as %Hne.
  rewrite decide_False; [|by intros ?%Hne]. wp_step.
  iApply (wp_leftmost_loop with "N Z"); [done|done|]. iIntros "N Z".
  destruct (leftmost_spec (InRight c l a v :: k) r Hr) as (ks & cs & s & vs & rs & E & Hp & Hks).
  rewrite E /=. iEval (rewrite /zip) in "Z". iDestruct "Z" as "[K T]". iEval (simpl) in "T".
  iDestruct "T" as "(S & _ & T)". 
  iDestruct (top_ne_nil with "N K") as %Htop; [by destruct ks|]. iDestruct (node_at_ne with "S N") as %Hs.
  wp_step. simpl. do 3 wp_step. iApply wp_ut_a; [by apply bool_decide_eq_true|]. do 3 wp_step.
  iApply wp_ut_a; [by apply bool_decide_eq_true|]. do 3 wp_step.
  iApply wp_ut_a; [by apply bool_decide_eq_true|]. do 3 wp_step.
  iApply (wp_eject with "N K S T"); [done|]. iIntros (p1 [Hp1 Hp1']) "N K S T".
  iAssert (zip (nil d) (root d) (ks ++ InRight c l a v :: k) rs) with "[K T]" as "Z"; [rewrite /zip; iFrame|].
  rewrite zip_app. iEval (rewrite /zip /=) in "Z". iDestruct "Z" as "((A & L & K) & R)". wp_step.
  iApply (wp_replace with "N K A L R S"); [done|]. iIntros (p2 [Hp2 Hp2']) "N A Z". wp_step.
  iApply ("HQ" $! (ks ++ InRight c l s vs :: k) rs with "[] D N [Z] A"); [|by rewrite zip_app zip_right].
  iPureIntro. split; [|done]. split_and!.
  - rewrite -Hp. pose proof (length_height (ks ++ InRight c l a v :: k) (Node cs Leaf s vs rs)) as Hh.
    rewrite plug_app !length_app /= in Hh. rewrite length_app /=. lia.
  - rewrite plug_app inorder_plug /= inorder_plug Hks. rewrite -Hp inorder_plug Hks /=. by rewrite -!app_assoc.
  - rewrite -Hp in Hm, Hb. by apply (lost_successor _ _ _ _ _ _ _ _ _ _ _ Hm Hb).
  - intros ->. destruct ks as [|f ks]; [by apply Hp2|].
    rewrite Hp2'; [|by intros ?%plug_leaf]. by apply Hp1.
Qed.

#[local] Instance leaf_dec t : Decision (t = Leaf).
Proof. destruct t; [by left|by right]. Defined.

Lemma wp_detach fuel tr d k c l a v r p m (Q : nat -> hProp) :
  height r <= fuel -> is_rb (plug k (Node c l a v r)) m -> tcolor (plug k (Node c l a v r)) = IB_RBT_BLACK ->
  tree_cell tr d -∗ nil_at (nil d) IB_RBT_BLACK p -∗ zip (nil d) (root d) k (Node c l a v r) -∗
  (∀ k1 t1 c1 p1, ⟨detached (root d) (height (plug k (Node c l a v r))) (before k ++ inorder l ++ inorder r ++ after k) k1 t1 c1 p1⟩ -∗
     tree_cell tr d -∗ nil_at (nil d) IB_RBT_BLACK p1 -∗ zip (nil d) (root d) k1 t1 -∗
     node_at a (mkNode c1 (nil d) (nil d) (nil d) (Some v)) -∗ Q (addr (nil d) t1)) -∗
  wp (rbt_detach_node fuel tr a) Q.
Proof.
  intros Hf Hm Hb. iIntros "D N Z HQ". unfold rbt_detach_node.
  assert (length k < height (plug k (Node c l a v r))) as Hk.
  { pose proof (length_height k (Node c l a v r)). simpl in *. lia. }
  iEval (rewrite /zip /=) in "Z". iDestruct "Z" as "(K & A & L & R)". do 6 wp_step. wp_step.
  iDestruct (addr_leaf_iff with "N L") as %HL. iDestruct (addr_leaf_iff with "N R") as %HR.
  iAssert (∀ k1 t1 n p1, ⟨detached (root d) (height (plug k (Node c l a v r))) (before k ++ inorder l ++ inorder r ++ after k) k1 t1 (color n) p1 /\
       value n = Some v⟩ -∗ tree_cell tr d -∗ nil_at (nil d) IB_RBT_BLACK p1 -∗
     zip (nil d) (root d) k1 t1 -∗ node_at a n -∗
     wp (nl ← rdt nil tr; wrn (set_left nl) a;; wrn (set_right nl) a;; wrn (set_parent nl) a;;
         mret (addr (nil d) t1)) Q)%I with "[HQ]" as "HQ".
  { iIntros (k1 t1 n p1 [Hd Hv]) "D N Z A". do 9 wp_step. destruct n. simpl in *. subst.
    iApply ("HQ" with "[] D N Z A"). done. }
  destruct (decide (l = Leaf \/ r = Leaf)) as [Hone|Htwo].
  - rewrite decide_False; [|naive_solver]. wp_step.
    iApply wp_ut_a; [apply bool_decide_eq_true; naive_solver|]. wp_step.
    destruct (lost_one_child _ _ _ _ _ _ _ Hm Hb) as [Hll Hlr]. destruct (decide (l = Leaf)) as [->|Hl].
    + rewrite decide_False; [|by intros []]. iEval (simpl) in "L". iClear "L".
      iApply (wp_eject with "N K A R"); [done|]. iIntros (p1 [Hp1 _]) "N K A R". wp_step.
      iApply ("HQ" $! k r with "[] D N [K R] A"); [|rewrite /zip; iFrame].
      iPureIntro. split; [|done]. split_and!; [done|by rewrite inorder_plug|done|done].
    + destruct Hone as [| ->]; [done|]. rewrite decide_True; [|naive_solver]. iEval (simpl) in "R". iClear "R".
      iApply (wp_eject with "N K A L"); [done|]. iIntros (p1 [Hp1 _]) "N K A L". wp_step.
      iApply ("HQ" $! k l with "[] D N [K L] A"); [|rewrite /zip; iFrame].
      iPureIntro. split; [|done]. split_and!; [done|by rewrite inorder_plug|done|done].
  - rewrite decide_True; [|naive_solver].
    iApply (wp_detach_with_successor _ _ _ k c l a v r _ m with "D N [K A L R] HQ"); [done|naive_solver..|].
    rewrite /zip /=. iFrame.
Qed.

End detach.
End RbDetach.
