(* ===== verification/RbRemove.v ===== *)
(** * Red-black trees: removing a node *)

From S2P Require Import Prelude SepHeap RbTree RbRep RbInsert RbSearch RbOps RbDelete RbDetach.
From iris.proofmode Require Import coq_tactics environments intro_patterns spec_patterns.

Module RbRemove.
Import RbTree RbRep RbInsert RbSearch RbOps RbDelete RbDetach.

Section remove.
Context {V Arg : Type}.
Local Notation obj := (obj V Arg).
Local Notation hProp := (hProp obj).
Local Notation tree := (RbRep.tree (V := V)).
Local Notation frame := (RbRep.frame (V := V)).
Implicit Types (t : tree) (f g : frame) (k : list frame) (d : ib_rbt_t V Arg) (c : ib_rbt_color_t).

(** ** The colour of the root *)

Definition fpaint c f : frame :=
  match f with InLeft _ a v r => InLeft c a v r | InRight _ l a v => InRight c l a v end.

Lemma plug_fpaint c k f t : plug (k ++ [fpaint c f]) t = paint c (plug (k ++ [f]) t).
Proof. rewrite !plug_app /=. by destruct f. Qed.

Lemma root_addr_app k f h : root_addr (k ++ [f]) h = faddr f.
Proof. revert h. induction k as [|g k IH]; intros h; simpl; [done|apply IH]. Qed.

Lemma wp_paint nl rt c k f t (Q : () -> hProp) :
  zip nl rt (k ++ [f]) t -∗ (zip nl rt (k ++ [fpaint c f]) t -∗ Q ()) -∗ wp (wrn (set_color c) (faddr f)) Q.
Proof.
  iIntros "Z HQ". rewrite !zip_app !zip_fill. destruct f; simpl; iEval (rewrite /zip /=) in "Z";
    iDestruct "Z" as "(K & A & L & R)"; wp_step; iApply "HQ"; rewrite /zip /=; iFrame.
Qed.

Lemma wp_paint_root tr d c k f t (Q : () -> hProp) :
  tree_cell tr d -∗ zip (nil d) (root d) (k ++ [f]) t -∗
  (tree_cell tr d -∗ zip (nil d) (root d) (k ++ [fpaint c f]) t -∗ Q ()) -∗
  wp (rt ← ROOT tr; wrn (set_color c) rt) Q.
Proof.
  iIntros "D Z HQ". wp_step. iEval (rewrite /zip) in "Z". iDestruct "Z" as "[K T]".
  iApply (wp_ROOT with "D K"); [done|]. iIntros "D K". rewrite root_addr_app.
  iApply (wp_paint _ _ c k f t with "[K T]"); [rewrite /zip; iFrame|]. iIntros "Z". iApply ("HQ" with "D Z").
Qed.

Lemma wp_paint_sub nl c c0 t p q (Q : () -> hProp) :
  nil_at nl c0 p -∗ tree_at nl t q -∗
  (nil_at nl (if t is Leaf then c else c0) p -∗ tree_at nl (paint c t) q -∗ Q ()) -∗
  wp (wrn (set_color c) (addr nl t)) Q.
Proof.
  iIntros "N T HQ". destruct t as [|c' l a v r]; simpl.
  - iApply (wp_wrn with "N"). iIntros "N". iApply ("HQ" with "N T").
  - iDestruct "T" as "(A & L & R)". wp_step. iApply ("HQ" with "N"). iFrame.
Qed.

(** ** The path while the root is red *)

Lemma ctx_del_paint c k f n : ctx_rb (k ++ [f]) n -> ctx_del (k ++ [fpaint c f]) n.
Proof.
  revert n. induction k as [|g k IH]; intros n H; simpl in H |- *.
  - apply del_root. destruct f; by inversion H.
  - inversion H as [|? ? ? E Hs Hk|? g2 ? ? E Hs Es Eg Hk]; subst.
    + apply del_black; [done|done|by apply IH].
    + apply del_red; [done|done|done|apply IH; congruence|].
      destruct k as [|g3 k]; simplify_eq/=; [by right; eexists|by left].
Qed.

Lemma ctx_del_plug k t n : ctx_del k n -> is_rb t n ->
  (tcolor t = IB_RBT_RED -> under_black k \/ exists g, k = [g]) ->
  exists m, is_rb (paint IB_RBT_BLACK (plug k t)) m.
Proof.
  intros H. revert t. induction H as [n|f n Hs|f k n E Hs Hk IH|f k n E Hs Es Hk IH Hu]; intros t Ht Hc.
  - by apply (paint_black _ n).
  - exists (S n). destruct f; simpl in *; by apply rb_black.
  - apply (IH (fill f t)); destruct f; simplify_eq/=; [by apply rb_black|by apply rb_black|done|done].
  - destruct k as [|g k].
    { exists (S n). destruct f; simpl in *; by apply rb_black. }
    assert (tcolor t = IB_RBT_BLACK) as Eb.
    { destruct (tcolor t); [|done]. destruct (Hc eq_refl) as [Hf|(g' & Hg)]; [simpl in Hf; congruence|done]. }
    apply (IH (fill f t)); destruct f; simplify_eq/=; [by apply rb_red|by apply rb_red|done|done].
Qed.

Lemma del_done_plug k t : del_done k t -> exists m, is_rb (paint IB_RBT_BLACK (plug k (paint IB_RBT_BLACK t))) m.
Proof.
  intros (n & Hk & Ht). apply (ctx_del_plug k _ n Hk Ht). by destruct t.
Qed.

(** The state after a black node was lost and the root painted red. *)
Lemma lost_del_ok k f t : lost_black (k ++ [f]) t IB_RBT_BLACK -> del_ok (k ++ [fpaint IB_RBT_RED f]) t.
Proof.
  intros (n & Hk & m & -> & Ht). pose proof (ctx_del_paint IB_RBT_RED _ _ _ Hk) as Hd. unfold del_ok.
  destruct (decide (tcolor t = IB_RBT_RED)) as [E|E].
  - exists (S m). split; [done|]. destruct t as [|[] l a v r]; simplify_eq/=.
    apply is_rb_red in Ht as (? & ? & ? & ?). by apply rb_black.
  - split; [|by exists m]. exists k, (fpaint IB_RBT_RED f). split; [done|]. by destruct f.
Qed.

Lemma lost_del_ok_root (l : tree) a (v : V) (r : tree) c : lost_black [] (Node c l a v r) IB_RBT_BLACK -> del_ok [] (Node IB_RBT_RED l a v r).
Proof.
  intros (n & _ & m & -> & Ht). unfold del_ok. simpl.
  destruct (paint_black _ _ Ht) as [m' Hm']. exists m'. split; [constructor|done].
Qed.

(** ** Rebalancing *)

(** The end: the last node and the root become black. *)
Lemma wp_remove_finish tr d k t p (Q : () -> hProp) : del_done k t ->
  tree_cell tr d -∗ nil_at (nil d) IB_RBT_BLACK p -∗ zip (nil d) (root d) k t -∗
  (∀ t', ⟨inorder t' = inorder (plug k t) /\ tcolor t' = IB_RBT_BLACK /\ exists m, is_rb t' m⟩ -∗
     tree_cell tr d -∗ nil_at (nil d) IB_RBT_BLACK p -∗ zip (nil d) (root d) [] t' -∗ Q ()) -∗
  wp (wrn (set_color IB_RBT_BLACK) (addr (nil d) t);; rt ← ROOT tr; wrn (set_color IB_RBT_BLACK) rt) Q.
Proof.
  iIntros (Hdone) "D N Z HQ". iEval (rewrite /zip) in "Z". iDestruct "Z" as "[K T]". wp_step.
  iApply (wp_paint_sub with "N T"). iIntros "N T". pose proof (del_done_plug _ _ Hdone) as Hm.
  iAssert (nil_at (nil d) IB_RBT_BLACK p) with "[N]" as "N"; [by destruct t|].
  assert (addr (nil d) t = addr (nil d) (paint IB_RBT_BLACK t)) as Ea by by destruct t.
  iAssert (zip (nil d) (root d) k (paint IB_RBT_BLACK t)) with "[K T]" as "Z"; [rewrite /zip Ea; iFrame|].
  assert (forall u : tree, tcolor (paint IB_RBT_BLACK u) = IB_RBT_BLACK) as Hblack by (by intros []).
  destruct k as [|f k _] using rev_ind.
  - wp_step. iApply (wp_start with "D Z"); [done|]. iIntros "D Z".
    iEval (rewrite /zip) in "Z". iDestruct "Z" as "[K T]". iApply (wp_paint_sub with "N T"). iIntros "N T".
    iApply ("HQ" $! (paint IB_RBT_BLACK (paint IB_RBT_BLACK t)) with "[] D [N] [K T]").
    + iPureIntro. split_and!; [by rewrite !inorder_paint|done|done].
    + by destruct t.
    + rewrite /zip. by destruct t; iFrame.
  - iApply (wp_paint_root with "D Z"). iIntros "D Z". rewrite zip_plug plug_fpaint.
    iApply ("HQ" with "[] D N Z"). iPureIntro. split_and!; [|done|done].
    rewrite inorder_paint !inorder_plug. by rewrite inorder_paint.
Qed.

(** Losing a black node: the root becomes red, the loop runs. *)
Lemma wp_rebalance fuel tr d k t p (Q : () -> hProp) : lost_black k t IB_RBT_BLACK ->
  (t = Leaf -> p = top (root d) k) -> length k + 1 < fuel ->
  tree_cell tr d -∗ nil_at (nil d) IB_RBT_BLACK p -∗ zip (nil d) (root d) k t -∗
  (∀ t', ⟨inorder t' = inorder (plug k t) /\ tcolor t' = IB_RBT_BLACK /\ exists m, is_rb t' m⟩ -∗
     tree_cell tr d -∗ nil_at (nil d) IB_RBT_BLACK p -∗ zip (nil d) (root d) [] t' -∗ Q ()) -∗
  wp (rt ← ROOT tr; wrn (set_color IB_RBT_RED) rt;;
      lst ← remove_loop fuel tr (addr (nil d) t); wrn (set_color IB_RBT_BLACK) lst;;
      rt ← ROOT tr; wrn (set_color IB_RBT_BLACK) rt) Q.
Proof.
  iIntros (Hlost Hp Hf) "D N Z HQ".
  iApply (wp_assoc (ROOT tr) (fun rt => wrn (set_color IB_RBT_RED) rt)). wp_step.
  destruct k as [|f k _] using rev_ind; [destruct t as [|c l a v r]|].
  - wp_step. iApply (wp_start with "D Z"); [done|]. iIntros "D Z". simpl.
    iEval (rewrite /nil_at) in "N". wp_step. destruct fuel as [|fuel]; [lia|]. simpl. do 5 wp_step.
    wp_step. wp_step. iApply (wp_start with "D Z"); [done|]. iIntros "D Z". simpl. wp_step.
    iApply ("HQ" $! Leaf with "[] D N Z"). iPureIntro. split_and!; [done|done|]. exists 1. constructor.
  - wp_step. iApply (wp_start with "D Z"); [done|]. iIntros "D Z".
    iEval (rewrite /zip /=) in "Z". iDestruct "Z" as "(K & A & L & R)". simpl. do 2 wp_step.
    iApply (wp_remove_loop (nil d) (root d) fuel tr d [] (Node IB_RBT_RED l a v r) with "D N [K A L R]");
      [done|done|by apply (lost_del_ok_root _ _ _ _ c)|lia|done| |].
    { rewrite /zip /=. iFrame. }
    iIntros (k1 t1 [Hin Hdone]) "D N Z". iApply (wp_remove_finish with "D N Z"); [done|].
    simpl in Hin. rewrite Hin. iIntros (t'). iApply "HQ".
  - iApply (wp_paint_root with "D Z"). iIntros "D Z". wp_step.
    iApply (wp_remove_loop (nil d) (root d) with "D N Z"); [done| |by apply lost_del_ok|lia| |].
    { intros E. rewrite (Hp E). by destruct k; destruct f. }
    { rewrite !length_app /= in Hf |- *. done. }
    iIntros (k1 t1 [Hin Hdone]) "D N Z". iApply (wp_remove_finish with "D N Z"); [done|].
    rewrite plug_fpaint inorder_paint in Hin. rewrite Hin. iIntros (t'). iApply "HQ".
Qed.

(** ** The whole function *)

Lemma before_app k1 k2 : before (k1 ++ k2) = before k2 ++ before k1.
Proof.
  induction k1 as [|[c a v r|c l a v] k1 IH]; simpl; [by rewrite app_nil_r|done|]. by rewrite IH -app_assoc.
Qed.

Lemma after_app k1 k2 : after (k1 ++ k2) = after k1 ++ after k2.
Proof.
  induction k1 as [|[c a v r|c l a v] k1 IH]; simpl; [done| |done]. by rewrite IH -app_assoc.
Qed.

(** Where an address is in a tree. *)
Lemma locate t ys a v zs : inorder t = ys ++ (a, v) :: zs ->
  exists k c l r, plug k (Node c l a v r) = t /\ before k ++ inorder l = ys /\ inorder r ++ after k = zs.
Proof.
  revert ys zs. induction t as [|c l IHl b w r IHr]; intros ys zs E; simpl in E; [by destruct ys|].
  apply app_eq_inv in E as [([|x us] & E1 & E2)|([|x us] & E1 & E2)]; simpl in E1, E2; simplify_list_eq.
  - exists [], c, l, r. simpl. by rewrite app_nil_r.
  - destruct (IHl _ _ E1) as (k & c' & l' & r' & Hp & H1 & H2).
    exists (k ++ [InLeft c b w r]), c', l', r'. rewrite plug_app Hp before_app after_app /= app_nil_r.
    split_and!; [done|done|]. by rewrite app_assoc H2.
  - exists [], c, l, r. simpl. by rewrite !app_nil_r.
  - destruct (IHr us zs ltac:(done)) as (k & c' & l' & r' & Hp & H1 & H2).
    exists (k ++ [InRight c l b w]), c', l', r'. rewrite plug_app Hp before_app after_app /= app_nil_r.
    split_and!; [done| |done]. by rewrite -!app_assoc /= H1.
Qed.

Definition uncounted d : ib_rbt_t V Arg := set_n_nodes (u64 (n_nodes d - 1)) d.

(** The node is taken out and left with its value. *)
Lemma wp_rbt_remove fuel tr d ys a v zs (Q : () -> hProp) : rounds (length (ys ++ (a, v) :: zs)) <= fuel ->
  rbt tr d (ys ++ (a, v) :: zs) -∗
  (∀ n, ⟨value n = Some v⟩ -∗ node_at a n -∗ rbt tr (uncounted d) (ys ++ zs) -∗ Q ()) -∗
  wp (rbt_remove_node_and_rebalance fuel tr a) Q.
Proof.
  iIntros (Hf) "(%t & %Hsh & %p & D & N & Z) HQ". pose proof (rb_shape_height _ _ _ Hsh) as Hh. destruct Hsh as (Hxs & Hb & [m Hm] & Hn).
  destruct (locate t ys a v zs Hxs) as (k & c & l & r & Hp & <- & <-). rewrite -Hp in Hb, Hm.
  rewrite -Hp -zip_plug. unfold rbt_remove_node_and_rebalance. wp_step.
  assert (before k ++ inorder l ++ inorder r ++ after k = (before k ++ inorder l) ++ inorder r ++ after k) as Ex
    by by rewrite -!app_assoc.
  iApply (wp_detach fuel tr d k c l a v r with "D N Z"); [|done|done|].
  { rewrite -Hp in Hh. pose proof (length_height k (Node c l a v r)). simpl in *. lia. }
  iIntros (k1 t1 c1 p1 (Hlen & Hin & Hlost & Hp1)) "D N Z A". rewrite Hp in Hlen.
  assert (length k1 + 1 < fuel) as Hf1 by lia.
  do 3 wp_step.
  iAssert (∀ t' p', ⟨inorder t' = inorder (plug k1 t1) /\ tcolor t' = IB_RBT_BLACK /\ exists m, is_rb t' m⟩ -∗
     tree_cell tr d -∗ nil_at (nil d) IB_RBT_BLACK p' -∗ zip (nil d) (root d) [] t' -∗
     wp (n ← rdt n_nodes tr; wrt (set_n_nodes (u64 (n - 1))) tr) Q)%I with "[A HQ]" as "HQ".
  { iIntros (t' p' (Hi & Hc & Hm')) "D N Z". do 3 wp_step. iApply ("HQ" with "[] A"); [done|]. iExists t'. iSplitR.
    - iPureIntro. split_and!; [by rewrite Hi Hin Ex|done|done|].
      rewrite /= Hn u64_pred. f_equal. rewrite !length_app /= !length_app. lia.
    - iExists p'. destruct d. simpl. iFrame. }
  destruct c1; simpl.
  - wp_step. iApply ("HQ" $! (plug k1 t1) with "[] D N [Z]"); [|by rewrite -zip_plug].
    iPureIntro. destruct Hlost as (n & Hk & Ht & Hc). split; [done|]. split.
    + destruct k1 as [|f k1]; [done|]. by apply (tcolor_plug f k1 t1 n).
    + apply (is_rb_plug k1 t1 n Hk Ht). congruence.
  - iApply (wp_rebalance with "D N Z"); [done|done|done|]. iIntros (t'). iApply "HQ".
Qed.

End remove.
End RbRemove.
