(* ===== verification/RbIter.v ===== *)
(** * Red-black trees: traversal, creation and release *)

From S2P Require Import Prelude SepHeap RbTree RbRep RbInsert RbSearch RbOps RbDetach RbRemove.
From iris.proofmode Require Import coq_tactics environments intro_patterns spec_patterns.

Module RbIter.
Import RbTree RbRep RbInsert RbSearch RbOps RbDetach RbRemove.

Section iter.
Context {V Arg : Type}.
Local Notation obj := (obj V Arg).
Local Notation hProp := (hProp obj).
Local Notation tree := (RbRep.tree (V := V)).
Local Notation frame := (RbRep.frame (V := V)).
Implicit Types (t : tree) (f g : frame) (k : list frame) (d : ib_rbt_t V Arg) (c : ib_rbt_color_t).

Definition fst_of (x : option (nat * V)) : option nat := fst <$> x.

(** ** The ends of the list *)

Lemma wp_first_loop fuel tr d k t p first (Q : option nat -> hProp) : height t < fuel ->
  tree_cell tr d -∗ nil_at (nil d) IB_RBT_BLACK p -∗ zip (nil d) (root d) k t -∗
  (tree_cell tr d -∗ nil_at (nil d) IB_RBT_BLACK p -∗ zip (nil d) (root d) k t -∗
    Q (or_else (fst_of (head (inorder t))) first)) -∗
  wp (first_loop fuel tr (addr (nil d) t) first) Q.
Proof.
  revert k t first Q. induction fuel as [|fuel IH]; intros k t first Q Hf; [lia|].
  iIntros "D N Z HQ". simpl. do 2 wp_step. iDestruct (zip_ne with "N Z") as %Hz.
  destruct t as [|c l a v r]; [rewrite decide_True; [|done]; wp_step; iApply ("HQ" with "D N Z")|].
  rewrite decide_False; [|by intros ?%Hz]. wp_step. iApply (wp_down_left with "Z"). iIntros "Z".
  iApply (IH (InLeft c a v r :: k) l with "D N Z"); [simpl in Hf; lia|]. iIntros "D N Z". rewrite -zip_left.
  simpl. destruct (inorder l) as [|x xs]; simpl; iApply ("HQ" with "D N Z").
Qed.

Lemma last_app_cons' (xs ys : list (nat * V)) x : list.last (xs ++ x :: ys) = list.last (x :: ys).
Proof. by rewrite last_app_cons. Qed.

Lemma wp_last_loop fuel tr d k t p lst (Q : option nat -> hProp) : height t < fuel ->
  tree_cell tr d -∗ nil_at (nil d) IB_RBT_BLACK p -∗ zip (nil d) (root d) k t -∗
  (tree_cell tr d -∗ nil_at (nil d) IB_RBT_BLACK p -∗ zip (nil d) (root d) k t -∗
    Q (or_else (fst_of (list.last (inorder t))) lst)) -∗
  wp (last_loop fuel tr (addr (nil d) t) lst) Q.
Proof.
  revert k t lst Q. induction fuel as [|fuel IH]; intros k t lst Q Hf; [lia|].
  iIntros "D N Z HQ". simpl. do 2 wp_step. iDestruct (zip_ne with "N Z") as %Hz.
  destruct t as [|c l a v r]; [rewrite decide_True; [|done]; wp_step; iApply ("HQ" with "D N Z")|].
  rewrite decide_False; [|by intros ?%Hz]. wp_step. iApply (wp_down_right with "Z"). iIntros "Z".
  iApply (IH (InRight c l a v :: k) r with "D N Z"); [simpl in Hf; lia|]. iIntros "D N Z". rewrite -zip_right.
  simpl. rewrite last_app_cons'. destruct (inorder r) as [|x xs]; [iApply ("HQ" with "D N Z")|].
  rewrite (last_app_cons' [(a, v)] xs x). destruct (list.last (x :: xs)) as [y|] eqn:E;
    [iApply ("HQ" with "D N Z")|]. by apply last_None in E.
Qed.

Lemma rbt_with_zip tr d t : rbt_with tr d t ⊣⊢ ∃ p, tree_cell tr d ∗ nil_at (nil d) IB_RBT_BLACK p ∗ zip (nil d) (root d) [] t.
Proof. done. Qed.

Lemma wp_rbt_first fuel tr d t (Q : option nat -> hProp) : height t < fuel ->
  rbt_with tr d t -∗ (rbt_with tr d t -∗ Q (fst_of (head (inorder t)))) -∗ wp (rbt_first fuel tr) Q.
Proof.
  iIntros (Hf) "(%p & D & N & Z) HQ". unfold rbt_first. wp_step. iApply (wp_start with "D Z"); [done|].
  iIntros "D Z". iApply (wp_first_loop with "D N Z"); [done|]. iIntros "D N Z".
  destruct (head (inorder t)) as [x|]; iApply "HQ"; iExists p; iFrame.
Qed.

Lemma wp_rbt_last fuel tr d t (Q : option nat -> hProp) : height t < fuel ->
  rbt_with tr d t -∗ (rbt_with tr d t -∗ Q (fst_of (list.last (inorder t)))) -∗ wp (rbt_last fuel tr) Q.
Proof.
  iIntros (Hf) "(%p & D & N & Z) HQ". unfold rbt_last. wp_step. iApply (wp_start with "D Z"); [done|].
  iIntros "D Z". iApply (wp_last_loop with "D N Z"); [done|]. iIntros "D N Z".
  destruct (list.last (inorder t)) as [x|]; iApply "HQ"; iExists p; iFrame.
Qed.

(** ** Neighbours *)

Lemma wp_successor_up_loop fuel nl rt k t c p (Q : option nat -> hProp) : length k < fuel -> t <> Leaf ->
  nil_at nl c p -∗ zip nl rt k t -∗
  (nil_at nl c p -∗ zip nl rt k t -∗ Q (fst_of (head (after k)))) -∗
  wp (successor_up_loop fuel rt (addr nl t) (top rt k)) Q.
Proof.
  revert k t. induction fuel as [|fuel IH]; intros k t Hf Ht; [lia|]. iIntros "N Z HQ". simpl.
  destruct k as [|f k]; [rewrite decide_True; [|done]; wp_step; iApply ("HQ" with "N Z")|].
  destruct t as [|ct lt at' vt rt']; [done|].
  destruct f as [cf a v s|cf s a v]; iEval (rewrite /zip /=) in "Z"; iDestruct "Z" as "((A & S & K) & T & L & R)";
    iDestruct (node_ne_root with "A K") as %Hne; simpl; rewrite decide_False; try done.
  - iDestruct (addr_ne with "N S T") as %Hs. do 2 wp_step. rewrite decide_False; [|by apply not_eq_sym]. wp_step.
    iApply ("HQ" with "N"). rewrite /zip /=. iFrame.
  - do 2 wp_step. rewrite decide_True; [|done]. do 2 wp_step.
    iApply (IH k (Node cf s a v (Node ct lt at' vt rt')) with "N [-HQ]"); [simpl in Hf; lia|done| |].
    { rewrite /zip /=. iFrame. }
    iIntros "N Z". iApply ("HQ" with "N"). by rewrite -zip_right.
Qed.

Lemma wp_find_successor fuel tr d t ys a v zs (Q : option nat -> hProp) : height t < fuel ->
  inorder t = ys ++ (a, v) :: zs ->
  rbt_with tr d t -∗ (rbt_with tr d t -∗ Q (fst_of (head zs))) -∗ wp (rbt_find_successor fuel tr a) Q.
Proof.
  iIntros (Hf Ht) "(%p & D & N & Z) HQ". destruct (locate t ys a v zs Ht) as (k & c & l & r & <- & _ & <-).
  rewrite -zip_plug. unfold rbt_find_successor. do 3 wp_step. pose proof (length_height k (Node c l a v r)) as Hlen. simpl in Hlen.
  iApply (wp_down_right with "Z"). iIntros "Z". iDestruct (zip_ne with "N Z") as %Hz.
  destruct r as [|cr lr ar vr rr].
  - rewrite decide_True; [|done]. rewrite -zip_right. wp_step. iApply (wp_parent with "Z"). iIntros "Z". do 2 wp_step.
    iApply (wp_successor_up_loop fuel (nil d) (root d) k (Node c l a v Leaf) with "N Z"); [|done|].
    { lia. }
    iIntros "N Z". iApply "HQ". iExists p. rewrite -zip_plug. iFrame.
  - rewrite decide_False; [|by intros ?%Hz]. wp_step.
    iApply (wp_leftmost_loop with "N Z"); [simpl in *; lia|done|]. iIntros "N Z".
    destruct (leftmost_spec (InRight c l a v :: k) (Node cr lr ar vr rr)) as (ks & c' & b & w & r' & E & Hp & Hb); [done|].
    rewrite E zip_app Hp -zip_right zip_plug. wp_step. rewrite -Hp inorder_plug Hb /=. iApply "HQ".
    rewrite Hp. iExists p. iFrame.
Qed.

Fixpoint rightmost k t : list frame * tree :=
  match t with
  | Leaf => (k, Leaf)
  | Node c l a v r => match r with Leaf => (k, t) | Node _ _ _ _ _ => rightmost (InRight c l a v :: k) r end
  end.

Lemma rightmost_spec k t : t <> Leaf -> exists ks c l a v,
  rightmost k t = (ks ++ k, Node c l a v Leaf) /\ plug ks (Node c l a v Leaf) = t /\ after ks = [].
Proof.
  revert k. induction t as [|c l _ a v r IHr]; intros k Ht; [done|]. destruct r as [|cr lr ar vr rr].
  - by exists [], c, l, a, v.
  - destruct (IHr (InRight c l a v :: k)) as (ks & c' & l' & a' & v' & E & Hp & Hb); [done|].
    exists (ks ++ [InRight c l a v]), c', l', a', v'. split_and!.
    + simpl in E |- *. rewrite E. by rewrite -app_assoc.
    + by rewrite plug_app Hp.
    + by rewrite after_app Hb.
Qed.

Lemma wp_rightmost_loop fuel nl rt k t c p (Q : nat -> hProp) : height t <= fuel -> t <> Leaf ->
  nil_at nl c p -∗ zip nl rt k t -∗
  (nil_at nl c p -∗ zip nl rt (rightmost k t).1 (rightmost k t).2 -∗ Q (addr nl (rightmost k t).2)) -∗
  wp (rightmost_loop fuel nl (addr nl t)) Q.
Proof.
  revert k t. induction fuel as [|fuel IH]; intros k t Hf Ht; (destruct t as [|ct l a v r]; [done|]);
    simpl in Hf; [lia|].
  iIntros "N Z HQ". simpl. wp_step. iApply (wp_down_right with "Z"). iIntros "Z".
  iDestruct (zip_ne with "N Z") as %Hne. destruct r as [|cr lr ar vr rr].
  - rewrite decide_True; [|done]. wp_step. iApply ("HQ" with "N"). by rewrite -zip_right.
  - rewrite decide_False; [|by intros ?%Hne]. iApply (IH with "N Z HQ"); [simpl in *; lia|done].
Qed.

Lemma wp_predecessor_up_loop fuel nl rt k t c p (Q : option nat -> hProp) : length k < fuel -> t <> Leaf ->
  nil_at nl c p -∗ zip nl rt k t -∗
  (nil_at nl c p -∗ zip nl rt k t -∗ Q (fst_of (list.last (before k)))) -∗
  wp (predecessor_up_loop fuel rt (addr nl t) (top rt k)) Q.
Proof.
  revert k t. induction fuel as [|fuel IH]; intros k t Hf Ht; [lia|]. iIntros "N Z HQ". simpl.
  destruct k as [|f k]; [rewrite decide_True; [|done]; wp_step; iApply ("HQ" with "N Z")|].
  destruct t as [|ct lt at' vt rt']; [done|].
  destruct f as [cf a v s|cf s a v]; iEval (rewrite /zip /=) in "Z"; iDestruct "Z" as "((A & S & K) & T & L & R)";
    iDestruct (node_ne_root with "A K") as %Hne; simpl; rewrite decide_False; try done.
  - do 2 wp_step. rewrite decide_True; [|done]. do 2 wp_step.
    iApply (IH k (Node cf (Node ct lt at' vt rt') a v s) with "N [-HQ]"); [simpl in Hf; lia|done| |].
    { rewrite /zip /=. iFrame. }
    iIntros "N Z". iApply ("HQ" with "N"). by rewrite -zip_left.
  - iDestruct (addr_ne with "N S T") as %Hs. do 2 wp_step. rewrite decide_False; [|by apply not_eq_sym]. wp_step.
    rewrite app_assoc last_snoc. iApply ("HQ" with "N"). rewrite /zip /=. iFrame.
Qed.

Lemma wp_find_predecessor fuel tr d t ys a v zs (Q : option nat -> hProp) : height t < fuel ->
  inorder t = ys ++ (a, v) :: zs ->
  rbt_with tr d t -∗ (rbt_with tr d t -∗ Q (fst_of (list.last ys))) -∗ wp (rbt_find_predecessor fuel tr a) Q.
Proof.
  iIntros (Hf Ht) "(%p & D & N & Z) HQ". destruct (locate t ys a v zs Ht) as (k & c & l & r & <- & <- & _).
  rewrite -zip_plug. unfold rbt_find_predecessor. do 3 wp_step. pose proof (length_height k (Node c l a v r)) as Hlen. simpl in Hlen.
  iApply (wp_down_left with "Z"). iIntros "Z". iDestruct (zip_ne with "N Z") as %Hz.
  destruct l as [|cl ll al vl rl].
  - rewrite decide_True; [|done]. rewrite -zip_left. wp_step. iApply (wp_parent with "Z"). iIntros "Z". do 2 wp_step.
    iApply (wp_predecessor_up_loop fuel (nil d) (root d) k (Node c Leaf a v r) with "N Z"); [|done|].
    { lia. }
    iIntros "N Z". rewrite /= app_nil_r. iApply "HQ". iExists p. rewrite -zip_plug. iFrame.
  - rewrite decide_False; [|by intros ?%Hz]. wp_step.
    iApply (wp_rightmost_loop with "N Z"); [simpl in *; lia|done|]. iIntros "N Z".
    destruct (rightmost_spec (InLeft c a v r :: k) (Node cl ll al vl rl)) as (ks & c' & l' & b & w & E & Hp & Hb); [done|].
    pose proof (inorder_plug ks (Node c' l' b w Leaf)) as Ei. rewrite Hp Hb app_nil_r in Ei.
    rewrite E zip_app Hp -zip_left zip_plug Ei. wp_step. rewrite /= !app_assoc last_snoc.
    iApply "HQ". iExists p. iFrame.
Qed.

(** ** Creation and release *)

Lemma wp_rbt_free_node fuel nl t q c p (Q : () -> hProp) : height t < fuel ->
  nil_at nl c p -∗ tree_at nl t q -∗ (nil_at nl c p -∗ Q ()) -∗ wp (rbt_free_node fuel (addr nl t) nl) Q.
Proof.
  revert t q Q. induction fuel as [|fuel IH]; intros t q Q Hf; [lia|]. iIntros "N T HQ". simpl.
  iDestruct (addr_leaf_iff with "N T") as %Hz. destruct t as [|ct l a v r].
  - rewrite decide_True; [|done]. iEval (simpl) in "T". iClear "T". wp_step. by iApply "HQ".
  - rewrite decide_False; [|by intros ?%Hz]. simpl in Hf |- *. iDestruct "T" as "(A & L & R)".
    do 3 wp_step. iApply (IH with "N L"); [lia|]. iIntros "N". do 3 wp_step.
    iApply (IH with "N R"); [lia|]. iIntros "N". iApply (wp_free with "A"). by iApply "HQ".
Qed.

(** Nothing of the tree is left. *)
Lemma wp_rbt_free fuel tr d t (Q : () -> hProp) : height t < fuel ->
  rbt_with tr d t -∗ Q () -∗ wp (rbt_free (S fuel) tr) Q.
Proof.
  iIntros (Hf) "(%p & D & N & Z) HQ". unfold rbt_free. do 4 wp_step. iEval (rewrite /zip /=) in "Z".
  iDestruct "Z" as "(K & T)". iDestruct (node_at_ne with "K N") as %Hne. wp_step. simpl.
  rewrite decide_False; [|done]. do 3 wp_step. iApply (wp_rbt_free_node with "N T"); [done|]. iIntros "N".
  do 3 wp_step. iApply (wp_rbt_free_node _ _ Leaf (root d) with "N []"); [simpl; lia|done|]. iIntros "N".
  iApply (wp_free with "K"). do 3 wp_step. iApply (wp_free with "N"). by iApply (wp_free with "D").
Qed.

Definition emptied d : ib_rbt_t V Arg := set_n_nodes 0 d.

(** The nodes of a tree that was reset belong to the caller. *)
Lemma wp_rbt_reset tr d t (Q : () -> hProp) :
  rbt_with tr d t -∗ (rbt tr (emptied d) [] -∗ tree_at (nil d) t (root d) -∗ Q ()) -∗ wp (rbt_reset tr) Q.
Proof.
  iIntros "(%p & D & N & Z) HQ". unfold rbt_reset. iEval (rewrite /zip /=) in "Z". iDestruct "Z" as "(K & T)".
  do 9 wp_step. iApply ("HQ" with "[D N K] T"). iExists Leaf. iSplitR.
  - iPureIntro. split_and!; [done|done|by exists 1; constructor|done].
  - iExists p. destruct d. simpl. rewrite /zip /=. iFrame.
Qed.

Lemma wp_rbt_clear fuel tr d t (Q : () -> hProp) : height t < fuel ->
  rbt_with tr d t -∗ (rbt tr (emptied d) [] -∗ Q ()) -∗ wp (rbt_clear fuel tr) Q.
Proof.
  iIntros (Hf) "(%p & D & N & Z) HQ". unfold rbt_clear. wp_step. iApply (wp_start with "D Z"); [done|]. iIntros "D Z".
  iEval (rewrite /zip /=) in "Z". iDestruct "Z" as "(K & T)". do 3 wp_step.
  iApply (wp_rbt_free_node with "N T"); [done|]. iIntros "N". unfold rbt_reset.
  do 9 wp_step. iApply "HQ". iExists Leaf. iSplitR.
  - iPureIntro. split_and!; [done|done|by exists 1; constructor|done].
  - iExists p. destruct d. simpl. rewrite /zip /=. iFrame.
Qed.

End iter.
End RbIter.
