(* ===== verification/RbMain.v ===== *)
(** * Red-black trees: creation and the operations on lists

    [rb] describes a tree by the list of its nodes from left to right; the
    theorems say what creation, insertion, deletion, the searches, iteration
    and freeing do to that list, for every heap and every allocator. *)

From S2P Require Import Prelude SepHeap RbTree RbRep RbInsert RbSearch RbOps RbDetach RbRemove RbIter.
From iris.proofmode Require Import coq_tactics environments intro_patterns spec_patterns.

Module RbMain.
Import RbTree RbRep RbInsert RbSearch RbOps RbDetach RbRemove RbIter.

Section trees.
Context {V Arg : Type} {AL : Allocator}.
Local Notation obj := (obj V Arg).
Local Notation hProp := (hProp obj).
Local Notation tree := (RbRep.tree (V := V)).
Implicit Types (t : tree) (d : ib_rbt_t V Arg) (c : ib_rbt_color_t).

(** ** Creation *)

Lemma wp_rbt_create sz cmp (Q : nat -> hProp) :
  (∀ tr nl rt, rbt tr (mkRbt nl rt 0 cmp None sz None) [] -∗ Q tr) ⊢ wp (rbt_create (Arg := Arg) sz cmp) Q.
Proof.
  iIntros "HQ". unfold rbt_create. wp_step. iApply wp_new. iIntros (tr) "D".
  iAssert (tree_cell tr zero_tree) with "D" as "D". do 3 wp_step. iApply wp_new. iIntros (nl) "N".
  iAssert (node_at nl zero_node) with "N" as "N". do 11 wp_step. iApply wp_new. iIntros (rt) "R".
  iAssert (node_at rt zero_node) with "R" as "R". do 15 wp_step. 
  iApply "HQ". iExists Leaf. iSplitR.
  - iPureIntro. split_and!; [done|done|by exists 1; constructor|done].
  - iExists nl. rewrite /zip /nil_at /=. iFrame.
Qed.

Lemma wp_rbt_create_arg_cmp sz cmp arg (Q : nat -> hProp) : is_Some arg ->
  (∀ tr nl rt, rbt tr (mkRbt nl rt 0 None cmp sz arg) [] -∗ Q tr) ⊢ wp (rbt_create_arg_cmp (Arg := Arg) sz cmp arg) Q.
Proof.
  iIntros (Ha) "HQ". unfold rbt_create_arg_cmp. wp_step. iApply wp_ut_a; [by apply bool_decide_eq_true|]. wp_step.
  iApply wp_rbt_create. iIntros (tr nl rt) "(%t & %Hsh & %p & D & N & Z)". do 5 wp_step. iApply "HQ".
  iExists t. iSplitR; [done|]. iExists p. iFrame.
Qed.

(** ** Specifications on lists *)

(** The number of nodes in the descriptor is that of the list. *)
Definition with_count d (n : nat) : ib_rbt_t V Arg := set_n_nodes (u64 (Z.of_nat n)) d.
Definition rb (tr : nat) d (xs : list (nat * V)) : hProp := rbt tr (with_count d (length xs)) xs.

Lemma with_count_twice d n m : with_count (with_count d n) m = with_count d m.
Proof. done. Qed.

Lemma counted_succ d (ys zs : list (nat * V)) x :
  counted (with_count d (length (ys ++ zs))) = with_count d (length (ys ++ x :: zs)).
Proof.
  unfold counted, with_count, set_n_nodes. simpl. rewrite u64_succ !length_app /=. do 2 f_equal. lia.
Qed.

Lemma uncounted_pred d (ys zs : list (nat * V)) x :
  uncounted (with_count d (length (ys ++ x :: zs))) = with_count d (length (ys ++ zs)).
Proof.
  unfold uncounted, with_count, set_n_nodes. simpl. rewrite u64_pred !length_app /=. do 2 f_equal. lia.
Qed.

Lemma rb_empty tr d : n_nodes d = 0%Z -> rbt tr d [] ⊢ rb tr d [].
Proof. intros E. unfold rb, with_count. destruct d. simpl in E. by subst. Qed.

(** ** Neighbours *)

Lemma rb_next fuel tr d (xs ys : list (nat * V)) a v zs (Q : option nat -> hProp) : rounds (length xs) <= fuel ->
  xs = ys ++ (a, v) :: zs ->
  rb tr d xs -∗ (rb tr d xs -∗ Q (fst_of (head zs))) -∗ wp (rbt_find_successor fuel tr a) Q.
Proof.
  iIntros (Hf ->) "(%t & %Hsh & T) HQ". pose proof (rb_shape_height _ _ _ Hsh).
  iApply (wp_find_successor with "T"); [lia|by apply Hsh|]. iIntros "T". iApply "HQ". iExists t. by iFrame.
Qed.

Lemma rb_first fuel tr d (xs : list (nat * V)) (Q : option nat -> hProp) : rounds (length xs) <= fuel ->
  rb tr d xs -∗ (rb tr d xs -∗ Q (fst_of (head xs))) -∗ wp (rbt_first fuel tr) Q.
Proof.
  iIntros (Hf) "(%t & %Hsh & T) HQ". pose proof (rb_shape_height _ _ _ Hsh).
  iApply (wp_rbt_first with "T"); [lia|]. iIntros "T". destruct Hsh as [E Hsh]. rewrite E. iApply "HQ".
  iExists t. by iFrame.
Qed.

Lemma rb_prev fuel tr d (xs ys : list (nat * V)) a v zs (Q : option nat -> hProp) : rounds (length xs) <= fuel ->
  xs = ys ++ (a, v) :: zs ->
  rb tr d xs -∗ (rb tr d xs -∗ Q (fst_of (list.last ys))) -∗ wp (rbt_find_predecessor fuel tr a) Q.
Proof.
  iIntros (Hf ->) "(%t & %Hsh & T) HQ". pose proof (rb_shape_height _ _ _ Hsh).
  iApply (wp_find_predecessor with "T"); [lia|by apply Hsh|]. iIntros "T". iApply "HQ". iExists t. by iFrame.
Qed.

Lemma rb_last fuel tr d (xs : list (nat * V)) (Q : option nat -> hProp) : rounds (length xs) <= fuel ->
  rb tr d xs -∗ (rb tr d xs -∗ Q (fst_of (list.last xs))) -∗ wp (rbt_last fuel tr) Q.
Proof.
  iIntros (Hf) "(%t & %Hsh & T) HQ". pose proof (rb_shape_height _ _ _ Hsh).
  iApply (wp_rbt_last with "T"); [lia|]. iIntros "T". destruct Hsh as [E Hsh]. rewrite E. iApply "HQ".
  iExists t. by iFrame.
Qed.

Section keyed.
Context (cmp : V -> V -> Z) `{!KeyOrder cmp}.
Variables (fuel tr : nat) (d : ib_rbt_t V Arg) (xs : list (nat * V)).
Hypothesis Hcmp : compare_of d = Some cmp.
Hypothesis Hsort : sorted cmp xs.
Hypothesis Hfuel : rounds (length xs) <= fuel.

Definition absent (key : V) (xs : list (nat * V)) : Prop := Forall (fun x => cmp key x.2 <> 0%Z) xs.

(** C11: Inserting a value whose key is not in the tree implements insertion
    into a sorted list: the new node is at the only place that keeps the list
    sorted, every other node keeps its address and its value, the tree is again
    a balanced red-black tree with the count of its nodes, and nothing else in
    memory changes.  No loop needs more rounds than twice the logarithm of the
    number of nodes. *)
Theorem rbt_insert_refines junk key v : absent key xs -> cmp key v = 0%Z ->
  triple (rb tr d xs) (rbt_insert fuel junk tr key v)
    (fun a => ∃ ys zs, ⟨xs = ys ++ zs /\ split_at cmp key ys zs /\ sorted cmp (ys ++ (a, v) :: zs)⟩ ∗
       rb tr d (ys ++ (a, v) :: zs))%I.
Proof.
  intros Habs Hv. unfold triple. iIntros "T". iApply (wp_rbt_insert cmp key fuel tr _ xs with "T"); [done..|].
  iIntros (a ys zs [-> Hs]) "T". iExists ys, zs. iSplitR.
  - iPureIntro. split_and!; [done|done|by apply (sorted_insert cmp key)].
  - unfold rb. by rewrite (counted_succ _ _ _ (a, v)).
Qed.

(** C12: Deleting a key implements deletion from a sorted list: the node of
    that key is taken out and freed, every other node keeps its address and its
    value, the tree is again a balanced red-black tree with the count of its
    nodes; a key that is not in the tree is reported and nothing changes. *)
Theorem rbt_delete_refines key :
  triple (rb tr d xs) (rbt_delete fuel tr key)
    (fun b => if b then ∃ ys a v zs, ⟨xs = ys ++ (a, v) :: zs /\ cmp key v = 0%Z /\ sorted cmp (ys ++ zs)⟩ ∗
                rb tr d (ys ++ zs)
              else ⟨absent key xs⟩ ∗ rb tr d xs)%I.
Proof.
  unfold triple, rbt_delete. iIntros "T". wp_step. iApply (wp_rbt_lookup cmp key fuel tr _ xs with "T"); [done..|].
  iIntros (r Hr) "T". destruct r as [a|].
  - destruct Hr as (v & Hin & Hv). apply list_elem_of_split in Hin as (ys & zs & E). rewrite E.
    wp_step. iApply (wp_rbt_remove with "T"); [by rewrite -E|]. iIntros (n Hn) "A T". wp_step.
    iApply (wp_free with "A"). wp_step. iExists ys, a, v, zs. iSplitR.
    + iPureIntro. split_and!; [done|done|]. apply (sorted_delete cmp ys (a, v) zs). by rewrite -E.
    + unfold rb. by rewrite uncounted_pred.
  - wp_step. by iFrame.
Qed.

(** C13: The searches find what they promise and leave the tree alone: a lookup
    the node with the key or none if there is none, the lower bound the first
    node that is not before the key, the upper bound the last node that is not
    after it. *)
Theorem rbt_searches key :
  triple (rb tr d xs) (rbt_lookup fuel tr key)
    (fun r => ⟨match r with Some a => exists v, (a, v) ∈ xs /\ cmp key v = 0%Z | None => absent key xs end⟩ ∗ rb tr d xs)%I /\
  triple (rb tr d xs) (rbt_lower_bound fuel tr key)
    (fun r => ∃ ys zs, ⟨xs = ys ++ zs /\ Forall (fun x => 0 < cmp key x.2)%Z ys /\ Forall (fun x => cmp key x.2 <= 0)%Z zs /\
       r = fst <$> head zs⟩ ∗ rb tr d xs)%I /\
  triple (rb tr d xs) (rbt_upper_bound fuel tr key)
    (fun r => ∃ ys zs, ⟨xs = ys ++ zs /\ Forall (fun x => 0 <= cmp key x.2)%Z ys /\ Forall (fun x => cmp key x.2 < 0)%Z zs /\
       r = fst <$> list.last ys⟩ ∗ rb tr d xs)%I.
Proof.
  unfold triple. split_and!; iIntros "T".
  - iApply (wp_rbt_lookup cmp key fuel tr _ xs with "T"); [done..|]. iIntros (r Hr) "T". by iFrame.
  - iApply (wp_rbt_lower_bound cmp key fuel tr _ xs with "T"); [done..|]. iIntros (ys zs (E & H1 & H2)) "T".
    iExists ys, zs. by iFrame.
  - iApply (wp_rbt_upper_bound cmp key fuel tr _ xs with "T"); [done..|]. iIntros (ys zs (E & H1 & H2)) "T".
    iExists ys, zs. by iFrame.
Qed.

End keyed.

(** C14: The first and the last node and the neighbours of a node are those of
    the list from left to right, and NULL behind its ends; the iteration needs
    no parent pointer of the sentinel to be right. *)
Theorem rbt_neighbours fuel tr d (xs ys : list (nat * V)) a v zs : rounds (length xs) <= fuel ->
  xs = ys ++ (a, v) :: zs ->
  triple (rb tr d xs) (rbt_next fuel tr (Some a)) (fun r => ⟨r = fst <$> head zs⟩ ∗ rb tr d xs)%I /\
  triple (rb tr d xs) (rbt_prev fuel tr (Some a)) (fun r => ⟨r = fst <$> list.last ys⟩ ∗ rb tr d xs)%I /\
  triple (rb tr d xs) (rbt_first fuel tr) (fun r => ⟨r = fst <$> head xs⟩ ∗ rb tr d xs)%I /\
  triple (rb tr d xs) (rbt_last fuel tr) (fun r => ⟨r = fst <$> list.last xs⟩ ∗ rb tr d xs)%I.
Proof.
  intros Hf E. unfold triple. split_and!; iIntros "T"; simpl.
  - iApply (rb_next with "T"); [done..|]. iIntros "T". by iFrame.
  - iApply (rb_prev with "T"); [done..|]. iIntros "T". by iFrame.
  - iApply (rb_first with "T"); [done..|]. iIntros "T". by iFrame.
  - iApply (rb_last with "T"); [done..|]. iIntros "T". by iFrame.
Qed.

(** C15: A new tree is empty; clearing a tree frees all its nodes and leaves
    it empty, and freeing it leaves nothing in memory. *)
Theorem rbt_lifecycle sz (f : option (V -> V -> Z)) :
  triple emp%I (rbt_create (Arg := Arg) sz f) (fun tr => ∃ nl rt, rb tr (mkRbt nl rt 0 f None sz None) [])%I /\
  forall fuel tr d xs, rounds (length xs) <= fuel ->
    triple (rb tr d xs) (rbt_clear fuel tr) (fun _ => rb tr d []) /\
    triple (rb tr d xs) (rbt_free (S fuel) tr) (fun _ => emp)%I.
Proof.
  unfold triple. split; [|intros fuel tr d xs Hf; split].
  - iIntros "_". iApply wp_rbt_create. iIntros (tr nl rt) "T". iExists nl, rt. by iApply rb_empty.
  - iIntros "(%t & %Hsh & T)". pose proof (rb_shape_height _ _ _ Hsh).
    iApply (wp_rbt_clear with "T"); [lia|]. by iIntros "T".
  - iIntros "(%t & %Hsh & T)". pose proof (rb_shape_height _ _ _ Hsh).
    by iApply (wp_rbt_free with "T"); [lia|].
Qed.

End trees.

(** ** An example *)

Section example.

#[export] Instance sub_order : KeyOrder Z.sub.
Proof. split; lia. Qed.

(** A tree with two nodes whose cells begin at [n]. *)
Definition example_tree (n : nat) : ib_rbt_t Z () := mkRbt (n + 1) (n + 2) 2 (Some Z.sub) None 8 None.
Definition example_nodes (n : nat) (w : Z) : list (nat * Z) := [(n + 3, 5%Z); (n + 4, w)].
Definition example_cells (n : nat) (w : Z) : list (nat * obj Z ()) :=
  [(n, OTree (example_tree n));
   (n + 1, ONode (mkNode IB_RBT_BLACK (n + 1) (n + 1) (n + 1) None));
   (n + 2, ONode (mkNode IB_RBT_BLACK (n + 3) (n + 1) (n + 1) None));
   (n + 3, ONode (mkNode IB_RBT_BLACK (n + 1) (n + 4) (n + 2) (Some 5%Z)));
   (n + 4, ONode (mkNode IB_RBT_RED (n + 1) (n + 1) (n + 3) (Some w)))].

Definition example_shape (n : nat) (w : Z) : tree := Node IB_RBT_BLACK Leaf (n + 3) 5%Z (Node IB_RBT_RED Leaf (n + 4) w Leaf).

Lemma example_with n w : ([∗ list] x ∈ example_cells n w, x.1 ↦ x.2) ⊢ rbt_with n (example_tree n) (example_shape n w).
Proof. iIntros "(D & N & R & A & B & _)". iExists (n + 1). iFrame. by iSplitL. Qed.

Lemma example_rb n w : ([∗ list] x ∈ example_cells n w, x.1 ↦ x.2) ⊢ rb n (example_tree n) (example_nodes n w).
Proof.
  rewrite example_with. iIntros "T". iExists (example_shape n w). iFrame "T".
  iPureIntro. split_and!; [done|done| |done]. exists 2. apply rb_black; [constructor|]. apply rb_red; [constructor..|done|done].
Qed.

Lemma example_cells_holds n w P : (([∗ list] x ∈ example_cells n w, x.1 ↦ x.2) ⊢ P) -> holds P (list_to_map (example_cells n w)).
Proof. intros H. eapply entails_holds; [exact H|]. apply pts_list. simpl. repeat constructor; set_solver by lia. Qed.

Lemma example_holds n w : holds (rb n (example_tree n) (example_nodes n w)) (list_to_map (example_cells n w)).
Proof. apply example_cells_holds, example_rb. Qed.

Lemma example_sorted n w : (5 < w)%Z -> sorted Z.sub (example_nodes n w).
Proof. intros H. repeat constructor. simpl. lia. Qed.

Local Notation d := (example_tree 0).
Local Notation xs := (example_nodes 0 7).
Local Notation cells := (list_to_map (example_cells 0 7)).

Lemma rbt_insert_refines_witness :
  holds (rb 0 d xs) cells /\
  triple (rb 0 d xs) (rbt_insert (AL := fresh_allocator) 6 (mkNode IB_RBT_RED 0 0 0 None) 0 6%Z 6%Z)
    (fun a => ∃ ys zs, ⟨xs = ys ++ zs /\ split_at Z.sub 6%Z ys zs /\ sorted Z.sub (ys ++ (a, 6%Z) :: zs)⟩ ∗
       rb 0 d (ys ++ (a, 6%Z) :: zs))%I.
Proof.
  split; [apply (example_holds 0 7)|].
  apply (rbt_insert_refines (AL := fresh_allocator) Z.sub 6 0 d xs eq_refl (example_sorted 0 7 eq_refl)); [vm_compute; lia|by repeat constructor|done].
Defined.

Lemma rbt_delete_refines_witness :
  holds (rb 0 d xs) cells /\
  triple (rb 0 d xs) (rbt_delete 6 0 5%Z)
    (fun b => if b then ∃ ys a v zs, ⟨xs = ys ++ (a, v) :: zs /\ (5 - v = 0)%Z /\ sorted Z.sub (ys ++ zs)⟩ ∗ rb 0 d (ys ++ zs)
              else ⟨absent Z.sub 5%Z xs⟩ ∗ rb 0 d xs)%I.
Proof.
  split; [apply (example_holds 0 7)|].
  apply (rbt_delete_refines Z.sub 6 0 d xs eq_refl (example_sorted 0 7 eq_refl)). vm_compute; lia.
Defined.

Lemma rbt_searches_witness :
  holds (rb 0 d xs) cells /\
  triple (rb 0 d xs) (rbt_lower_bound 6 0 6%Z)
    (fun r => ∃ ys zs, ⟨xs = ys ++ zs /\ Forall (fun x => 0 < 6 - x.2)%Z ys /\ Forall (fun x => 6 - x.2 <= 0)%Z zs /\
       r = fst <$> head zs⟩ ∗ rb 0 d xs)%I.
Proof.
  split; [apply (example_holds 0 7)|].
  assert (rounds (length xs) <= 6) as Hf by (vm_compute; lia).
  exact (proj1 (proj2 (rbt_searches Z.sub 6 0 d xs eq_refl (example_sorted 0 7 eq_refl) Hf 6%Z))).
Defined.

Lemma rbt_neighbours_witness :
  holds (rb 0 d xs) cells /\
  triple (rb 0 d xs) (rbt_next 6 0 (Some 3)) (fun r => ⟨r = Some 4⟩ ∗ rb 0 d xs)%I /\
  triple (rb 0 d xs) (rbt_prev 6 0 (Some 3)) (fun r => ⟨r = None⟩ ∗ rb 0 d xs)%I /\
  triple (rb 0 d xs) (rbt_first 6 0) (fun r => ⟨r = Some 3⟩ ∗ rb 0 d xs)%I /\
  triple (rb 0 d xs) (rbt_last 6 0) (fun r => ⟨r = Some 4⟩ ∗ rb 0 d xs)%I.
Proof.
  split; [apply (example_holds 0 7)|].
  apply (rbt_neighbours 6 0 d xs [] 3 5%Z [(4, 7%Z)]); [vm_compute; lia|done].
Defined.

Lemma rbt_lifecycle_witness :
  holds (rb 0 d xs) cells /\
  triple (rb 0 d xs) (rbt_clear 6 0) (fun _ => rb 0 d []) /\ triple (rb 0 d xs) (rbt_free 7 0) (fun _ => emp)%I.
Proof.
  split; [apply (example_holds 0 7)|].
  apply (proj2 (rbt_lifecycle (AL := fresh_allocator) (Arg := ()) 8 (Some Z.sub))). vm_compute; lia.
Defined.

End example.
End RbMain.
