(* ===== verification/RbCheck.v ===== *)
(** * Red-black trees: validation and printing *)

From S2P Require Import Prelude SepHeap RbTree RbRep RbInsert RbSearch RbOps RbDetach RbRemove RbIter RbMain.
From iris.proofmode Require Import coq_tactics environments intro_patterns spec_patterns.

Module RbCheck.
Import RbTree RbRep RbInsert RbSearch RbOps RbDetach RbRemove RbIter RbMain.

Section check.
Context {V Arg : Type}.
Local Notation obj := (obj V Arg).
Local Notation hProp := (hProp obj).
Local Notation tree := (RbRep.tree (V := V)).
Implicit Types (t : tree) (d : ib_rbt_t V Arg) (c : ib_rbt_color_t).

(** ** Black heights *)

(** What [rbt_count_black_nodes] computes. *)
Fixpoint count t : Z :=
  match t with
  | Leaf => 1
  | Node c l a v r =>
      if decide (count l = 0 \/ count r = 0 \/ count l <> count r)%Z then 0%Z
      else match c with
           | IB_RBT_RED => if decide (tcolor l <> IB_RBT_BLACK \/ tcolor r <> IB_RBT_BLACK) then 0%Z else count l
           | IB_RBT_BLACK => (count r + 1)%Z
           end
  end.

Lemma count_range t : (0 <= count t <= Z.of_nat (size t) + 1)%Z.
Proof. induction t as [|c l IHl a v r IHr]; simpl; [lia|]. repeat case_decide; destruct c; lia. Qed.

Lemma is_rb_count t n : is_rb t n -> count t = Z.of_nat n.
Proof.
  intros H. assert (1 <= n) as Hn by (clear -H; induction H; lia).
  induction H as [|l a v r n H1 IH1 H2 IH2 E1 E2|l a v r n H1 IH1 H2 IH2]; simpl; [done| |].
  - rewrite IH1 // IH2 // decide_False; [|lia]. rewrite decide_False; [done|]. naive_solver.
  - assert (1 <= n) by (clear -H1; induction H1; lia). rewrite IH1 // IH2 // decide_False; lia.
Qed.

Lemma count_is_rb t : (0 < count t)%Z -> is_rb t (Z.to_nat (count t)).
Proof.
  induction t as [|c l IHl a v r IHr]; simpl; intros H; [constructor|].
  case_decide as Hd; [lia|]. assert (0 < count l)%Z as Hl by (pose proof (count_range l); lia).
  assert (count l = count r) as E by lia. specialize (IHl Hl). rewrite -E in IHr. specialize (IHr Hl). destruct c.
  - case_decide as Hc; [lia|]. apply rb_red; [done|done|destruct (tcolor l); naive_solver|destruct (tcolor r); naive_solver].
  - rewrite -E Z2Nat.inj_add; [|lia..]. rewrite Nat.add_1_r. by apply rb_black.
Qed.

Lemma wp_count_black_nodes fuel tr d t p q (Q : Z -> hProp) : height t < fuel ->
  (Z.of_nat (size t) + 1 < 2 ^ 64)%Z ->
  tree_cell tr d -∗ nil_at (nil d) IB_RBT_BLACK p -∗ tree_at (nil d) t q -∗
  (tree_cell tr d -∗ nil_at (nil d) IB_RBT_BLACK p -∗ tree_at (nil d) t q -∗ Q (count t)) -∗
  wp (rbt_count_black_nodes fuel tr (addr (nil d) t)) Q.
Proof.
  revert t q Q. induction fuel as [|fuel IH]; intros t q Q Hf Hs; [lia|]. iIntros "D N T HQ". simpl. do 2 wp_step.
  iDestruct (addr_leaf_iff with "N T") as %Hz.
  destruct t as [|c l a v r]; [rewrite decide_True; [|done]; wp_step; iApply ("HQ" with "D N T")|].
  rewrite decide_False; [|by intros ?%Hz]. simpl in Hf, Hs |- *. iDestruct "T" as "(A & L & R)". do 3 wp_step.
  iApply (IH with "D N L"); [lia|lia|]. iIntros "D N L". do 3 wp_step.
  iApply (IH with "D N R"); [lia|lia|]. iIntros "D N R".
  destruct (decide (count l = 0 \/ count r = 0 \/ count l <> count r)%Z) as [Hd|Hd].
  { wp_step. iApply ("HQ" with "D N"). iFrame. }
  do 2 wp_step. destruct (decide (c = IB_RBT_RED)) as [->|Hc].
  - do 4 wp_step. destruct (decide (tcolor l <> IB_RBT_BLACK \/ tcolor r <> IB_RBT_BLACK)); wp_step;
      iApply ("HQ" with "D N"); iFrame.
  - wp_step. destruct c; [done|]. rewrite u64_small; [|pose proof (count_range r); lia].
    iApply ("HQ" with "D N"). iFrame.
Qed.

(** ** The order *)

Section ordering.
Context (cmp : V -> V -> Z).

Fixpoint increasing (prev : option V) (xs : list (nat * V)) : bool :=
  match xs with
  | [] => true
  | x :: xs => match prev with Some v => bool_decide (cmp v x.2 < 0)%Z | None => true end && increasing (Some x.2) xs
  end.

Lemma increasing_sorted `{!KeyOrder cmp} xs : increasing None xs = true <-> sorted cmp xs.
Proof.
  assert (forall x ys, increasing (Some x) ys = true <-> sorted cmp ((0, x) :: ys)) as H.
  { intros x ys. revert x. induction ys as [|y ys IH]; intros x; simpl.
    - split; [|done]. intros _. repeat constructor.
    - rewrite andb_true_iff bool_decide_eq_true (IH y.2) !sorted_cons Forall_cons /=. split.
      + intros (H1 & H2 & H3). split_and!; [done|done|done|]. eapply Forall_impl; [exact H3|].
        intros z Hz. simpl in Hz. apply (key_lt_le cmp _ y.2); [done|lia].
      + intros ((H1 & H2) & H3 & H4). done. }
  destruct xs as [|x xs]; [split; [constructor|done]|]. simpl. rewrite H !sorted_cons. done.
Qed.

Lemma wp_value_in tr d t ys a v zs (Q : V -> hProp) : inorder t = ys ++ (a, v) :: zs ->
  rbt_with tr d t -∗ (rbt_with tr d t -∗ Q v) -∗ wp (node_value a) Q.
Proof.
  iIntros (Ht) "(%p & D & N & Z) HQ". destruct (locate t ys a v zs Ht) as (k & c & l & r & <- & _ & _).
  rewrite -zip_plug. iApply (wp_node_value with "Z"). iIntros "Z". iApply "HQ". iExists p. rewrite -zip_plug. iFrame.
Qed.

Definition above_prev (prev : option V) (w : V) : bool :=
  match prev with Some v => bool_decide (cmp v w < 0)%Z | None => true end.

Lemma wp_follows tr d t ys b w zs (Q : bool -> hProp) : compare_of d = Some cmp -> inorder t = ys ++ (b, w) :: zs ->
  rbt_with tr d t -∗ (rbt_with tr d t -∗ Q (above_prev (snd <$> list.last ys) w)) -∗
  wp (follows tr (fst_of (list.last ys)) b) Q.
Proof.
  iIntros (Hcmp Ht) "T HQ". destruct (list.last ys) as [[a v]|] eqn:E; simpl; [|wp_step; by iApply "HQ"].
  apply last_Some in E as [ys' ->]. wp_step.
  iApply (wp_value_in tr d t ys' a v ((b, w) :: zs) with "T"); [by rewrite Ht -app_assoc|]. iIntros "T".
  wp_step. iApply (wp_value_in tr d t _ b w zs with "T"); [done|]. iIntros "T". wp_step.
  iDestruct "T" as "(%p & D & N & Z)". iApply (wp_compare_keys with "D"); [done|]. iIntros "D". wp_step.
  iApply "HQ". iExists p. iFrame.
Qed.

Lemma wp_check_ordering_loop fuel1 fuel tr d t ys zs (Q : bool -> hProp) : compare_of d = Some cmp ->
  height t < fuel -> length zs < fuel1 -> inorder t = ys ++ zs ->
  rbt_with tr d t -∗ (rbt_with tr d t -∗ Q (increasing (snd <$> list.last ys) zs)) -∗
  wp (check_ordering_loop fuel1 fuel tr (fst_of (head zs)) (fst_of (list.last ys))) Q.
Proof.
  intros Hcmp Hf. revert ys zs. induction fuel1 as [|fuel1 IH]; intros ys zs Hl Ht; [lia|].
  iIntros "T HQ". destruct zs as [|[b w] zs]; simpl; [wp_step; by iApply "HQ"|]. wp_step.
  iApply (wp_follows tr d t ys b w zs with "T"); [done|done|]. iIntros "T".
  fold (above_prev (snd <$> list.last ys) w). destruct (above_prev (snd <$> list.last ys) w); simpl.
  - wp_step. iApply (wp_find_successor with "T"); [done|done|]. iIntros "T".
    specialize (IH (ys ++ [(b, w)]) zs). rewrite last_snoc /= in IH.
    iApply (IH with "T HQ"); [simpl in Hl; lia|by rewrite -app_assoc].
  - wp_step. by iApply "HQ".
Qed.

(** The trees that [rbt_validate] accepts: red nodes have black children, all
    paths have the same number of black nodes, and the values increase. *)
Definition valid t : Prop := (exists n, is_rb t n) /\ sorted cmp (inorder t).

Lemma wp_rbt_validate `{!KeyOrder cmp} fuel tr d t (Q : bool -> hProp) : compare_of d = Some cmp ->
  size t < fuel -> (Z.of_nat (size t) + 1 < 2 ^ 64)%Z ->
  rbt_with tr d t -∗
  (∀ b, ⟨b = true <-> valid t⟩ -∗ rbt_with tr d t -∗ Q b) -∗
  wp (rbt_validate fuel tr) Q.
Proof.
  iIntros (Hcmp Hf Hs) "(%p & D & N & Z) HQ". pose proof (height_size t). unfold rbt_validate. wp_step.
  iApply (wp_start with "D Z"); [done|]. iIntros "D Z". iEval (rewrite /zip) in "Z". iDestruct "Z" as "[K T]". wp_step.
  iApply (wp_count_black_nodes with "D N T"); [lia|done|]. iIntros "D N T".
  iAssert (rbt_with tr d t) with "[D N K T]" as "T"; [iExists p; rewrite /zip; iFrame|].
  destruct (decide (count t > 0)%Z) as [Hc|Hc].
  - unfold rbt_check_ordering. wp_step. iApply (wp_rbt_first with "T"); [lia|]. iIntros "T".
    iApply (wp_check_ordering_loop fuel fuel tr d t [] (inorder t) with "T"); [done|lia|rewrite -size_inorder; lia|done|].
    iApply "HQ". iPureIntro. rewrite increasing_sorted /valid. split; [|by intros [_ ?]]. intros ?. split; [|done].
    eexists. apply count_is_rb. lia.
  - wp_step. iApply ("HQ" with "[] T"). iPureIntro. split; [done|]. intros [[n Hn] _].
    pose proof (is_rb_count t n Hn). assert (1 <= n) by (clear -Hn; induction Hn; lia). lia.
Qed.

(** C16: The validation decides whether a tree in memory is a red-black tree
    with increasing values: it accepts every such tree and no other one, of any
    shape and colours, and changes nothing. *)
Theorem rbt_validate_exact `{!KeyOrder cmp} fuel tr d t : compare_of d = Some cmp -> size t < fuel ->
  (Z.of_nat (size t) + 1 < 2 ^ 64)%Z ->
  triple (rbt_with tr d t) (rbt_validate fuel tr) (fun b => ⟨b = true <-> valid t⟩ ∗ rbt_with tr d t)%I.
Proof.
  intros Hc Hf Hs. unfold triple. iIntros "T". iApply (wp_rbt_validate with "T"); [done..|]. iIntros (b Hb) "T". by iFrame.
Qed.

End ordering.

(** ** Printing *)

Fixpoint preorder t : list nat := match t with Leaf => [] | Node _ l a _ r => a :: preorder l ++ preorder r end.

Lemma wp_print_subtree fuel tr d t p q (Q : list nat -> hProp) : height t < fuel ->
  tree_cell tr d -∗ nil_at (nil d) IB_RBT_BLACK p -∗ tree_at (nil d) t q -∗
  (tree_cell tr d -∗ nil_at (nil d) IB_RBT_BLACK p -∗ tree_at (nil d) t q -∗ Q (preorder t)) -∗
  wp (rbt_print_subtree fuel tr (addr (nil d) t)) Q.
Proof.
  revert t q Q. induction fuel as [|fuel IH]; intros t q Q Hf; [lia|]. iIntros "D N T HQ". simpl. do 2 wp_step.
  iDestruct (addr_leaf_iff with "N T") as %Hz.
  destruct t as [|c l a v r]; [rewrite decide_True; [|done]; wp_step; iApply ("HQ" with "D N T")|].
  rewrite decide_False; [|by intros ?%Hz]. simpl in Hf |- *. iDestruct "T" as "(A & L & R)". do 3 wp_step.
  iApply (IH with "D N L"); [lia|]. iIntros "D N L". do 3 wp_step.
  iApply (IH with "D N R"); [lia|]. iIntros "D N R". wp_step. iApply ("HQ" with "D N"). iFrame.
Qed.

(** Every node is printed once. *)
Lemma preorder_perm t : preorder t ≡ₚ fst <$> inorder t.
Proof.
  induction t as [|c l IHl a v r IHr]; simpl; [done|]. rewrite fmap_app /= IHl IHr. by rewrite Permutation_middle.
Qed.

End check.

Lemma rbt_validate_exact_witness :
  holds (rbt_with 0 (example_tree 0) (example_shape 0 7)) (list_to_map (example_cells 0 7)) /\ valid Z.sub (example_shape 0 7) /\
  triple (rbt_with 0 (example_tree 0) (example_shape 0 7)) (rbt_validate 6 0)
    (fun b => ⟨b = true <-> valid Z.sub (example_shape 0 7)⟩ ∗ rbt_with 0 (example_tree 0) (example_shape 0 7))%I.
Proof.
  split_and!; [apply (example_cells_holds 0 7), example_with| |].
  - split; [exists 2; repeat constructor|by apply example_sorted].
  - apply (rbt_validate_exact Z.sub 6 0 (example_tree 0) (example_shape 0 7)); [done|simpl; lia|done].
Defined.

End RbCheck.
