(* ===== verification/RbMerge.v ===== *)
(** * Red-black trees: merging *)

From S2P Require Import Prelude SepHeap RbTree RbRep RbInsert RbSearch RbOps RbRemove RbIter RbMain RbCheck.
From iris.proofmode Require Import coq_tactics environments intro_patterns spec_patterns.

Module RbMerge.
Import RbTree RbRep RbInsert RbSearch RbOps RbRemove RbIter RbMain RbCheck.

Section merge.
Context {V Arg : Type} {AL : Allocator}.
Local Notation obj := (obj V Arg).
Local Notation hProp := (hProp obj).
Implicit Types (d ds dd : ib_rbt_t V Arg) (xs ys zs ws ns : list (nat * V)).
Context (cmp : V -> V -> Z) `{!KeyOrder cmp}.
Local Notation absent := (absent cmp).

#[local] Instance absent_dec key xs : Decision (absent key xs).
Proof. unfold absent. apply _. Defined.

(** The values of [ys] that have no equal in [xs] or before them in [ys]. *)
Fixpoint fresh_in xs ys : list (nat * V) :=
  match ys with
  | [] => []
  | y :: ys => if decide (absent y.2 xs) then y :: fresh_in (xs ++ [y]) ys else fresh_in xs ys
  end.

Lemma absent_values xs ws key : xs.*2 ≡ₚ ws.*2 -> absent key xs -> absent key ws.
Proof.
  assert (forall l, absent key l <-> Forall (fun w => cmp key w <> 0%Z) l.*2) as E.
  { intros l. by rewrite Forall_fmap. }
  rewrite !E. by intros ->.
Qed.

Lemma fresh_in_values xs ws ys : xs.*2 ≡ₚ ws.*2 -> fresh_in xs ys = fresh_in ws ys.
Proof.
  revert xs ws. induction ys as [|y ys IH]; intros xs ws Hp; simpl; [done|].
  rewrite (decide_ext (absent y.2 xs) (absent y.2 ws)); [|split; apply absent_values; done].
  rewrite (IH xs ws Hp) (IH (xs ++ [y]) (ws ++ [y])); [done|]. by rewrite !fmap_app Hp.
Qed.

Lemma fresh_in_length xs ys : length (fresh_in xs ys) <= length ys.
Proof.
  revert xs. induction ys as [|y ys IH]; intros xs; simpl; [done|]. case_decide; simpl.
  - specialize (IH (xs ++ [y])). lia.
  - specialize (IH xs). lia.
Qed.

(** ** Trees of a list *)

Lemma rb_value tr d xs ys a v zs (Q : V -> hProp) : xs = ys ++ (a, v) :: zs ->
  rb tr d xs -∗ (rb tr d xs -∗ Q v) -∗ wp (node_value a) Q.
Proof.
  iIntros (->) "(%t & %Hsh & T) HQ". iApply (wp_value_in with "T"); [by apply Hsh|]. iIntros "T". iApply "HQ".
  iExists t. by iFrame.
Qed.

Lemma rb_size tr d xs (Q : Z -> hProp) :
  rb tr d xs -∗ (rb tr d xs -∗ Q (u64 (Z.of_nat (length xs)))) -∗ wp (rbt_size tr) Q.
Proof.
  iIntros "(%t & %Hsh & %p & D & N & Z) HQ". unfold rbt_size. wp_step. iApply "HQ". iExists t. iSplitR; [done|].
  iExists p. iFrame.
Qed.

Lemma rb_is_empty tr d xs (Q : bool -> hProp) : (Z.of_nat (length xs) < 2 ^ 64)%Z ->
  rb tr d xs -∗ (rb tr d xs -∗ Q (bool_decide (xs = []))) -∗ wp (rbt_empty tr) Q.
Proof.
  iIntros (Hx) "T HQ". unfold rbt_empty. wp_step. iApply (rb_size with "T"). iIntros "T". wp_step.
  iSpecialize ("HQ" with "T"). destruct xs as [|x xs]; [done|]. rewrite u64_small; [|lia].
  by rewrite !bool_decide_false.
Qed.

Lemma not_absent xs a v key : (a, v) ∈ xs -> cmp key v = 0%Z -> ~ absent key xs.
Proof. intros Hin Hv Habs. rewrite /absent Forall_forall in Habs. by apply (Habs (a, v)). Qed.

Lemma rb_ne t1 t2 d1 d2 xs ys : rb t1 d1 xs -∗ rb t2 d2 ys -∗ ⌜t1 <> t2⌝.
Proof. iIntros "(%u1 & _ & %p1 & D1 & _) (%u2 & _ & %p2 & D2 & _)". iApply (pts_ne with "D1 D2"). Qed.

(** ** The copying merge *)

Lemma rounds_mono n m : n <= m -> rounds n <= rounds m.
Proof. intros H. unfold rounds. pose proof (Nat.log2_le_mono (n + 1) (m + 1)). lia. Qed.

(** What a merge makes of the list [xs]: the values [ns] are put in. *)
Definition merged (xs ns ws : list (nat * V)) : Prop := sorted cmp ws /\ ws.*2 ≡ₚ xs.*2 ++ ns.*2.

Lemma values_insert (ws zs : list (nat * V)) (a b : nat) (v : V) : ((ws ++ zs) ++ [(b, v)]).*2 ≡ₚ (ws ++ (a, v) :: zs).*2.
Proof. by rewrite !fmap_app /= -!Permutation_middle app_nil_r. Qed.

Lemma merged_insert ws zs a b v ns out : merged (ws ++ (a, v) :: zs) ns out -> merged (ws ++ zs) ((b, v) :: ns) out.
Proof.
  intros [Hs Hp]. split; [done|]. by rewrite Hp !fmap_app /= -!Permutation_middle.
Qed.

Lemma wp_merge_uniq_loop junk fuel dst src dd ds ys : compare_of dd = Some cmp -> rounds (length ys) <= fuel ->
  forall rest fuel1 n xs ys0 (Q : Z -> hProp), ys = ys0 ++ rest -> length rest < fuel1 -> sorted cmp xs ->
  rounds (length xs + length rest) <= fuel ->
  rb dst dd xs -∗ rb src ds ys -∗
  (∀ ws, ⟨merged xs (fresh_in xs rest) ws⟩ -∗ rb dst dd ws -∗ rb src ds ys -∗
     Q (u64 (n + Z.of_nat (length (fresh_in xs rest))))) -∗
  wp (merge_uniq_loop fuel1 fuel junk dst src (fst_of (head rest)) (u64 n)) Q.
Proof.
  intros Hc Hy. induction rest as [|[s v] rest IH]; intros [|fuel1] n xs ys0 Q E Hf Hs Hr; simpl in Hf; try lia;
    iIntros "D S HQ"; simpl.
  { wp_step. rewrite Z.add_0_r. iApply ("HQ" with "[] D S"). iPureIntro. split; [done|]. by rewrite app_nil_r. }
  wp_step. iApply (rb_value with "S"); [exact E|]. iIntros "S". wp_step.
  assert (rounds (length xs) <= fuel) as Hx by (etrans; [apply rounds_mono|exact Hr]; lia).
  iApply (wp_search_absent cmp v fuel dst _ xs with "D"); [done..|].
  iIntros (t z b [Hsh Hz]) "D". destruct Hz as [(-> & a & w & Hin & Hv & _)|(Hz & Habs & HL & ->)]; simpl.
  - do 3 wp_step. iApply (rb_next with "S"); [done|exact E|]. iIntros "S".
    rewrite decide_False; [|by eapply not_absent].
    iApply (IH _ _ xs (ys0 ++ [(s, v)]) with "[D] S HQ"); [by rewrite -app_assoc|lia|done| |iExists t; by iFrame].
    etrans; [|exact Hr]. apply rounds_mono. simpl. lia.
  - rewrite decide_True; [|done]. rewrite (decide_True _ _ Hz). do 2 wp_step.
    iApply (rb_value with "S"); [exact E|]. iIntros "S".
    wp_step. iApply (wp_rbt_add_node with "D"); [done..|]. iIntros (a b ws zs [-> Hsp]) "D".
    do 2 wp_step. iApply (rb_next with "S"); [done|exact E|]. iIntros "S".
    rewrite (fresh_in_values _ _ _ (values_insert ws zs a s v)) u64_succ.
    iApply (IH _ _ (ws ++ (a, v) :: zs) (ys0 ++ [(s, v)]) with "[D] S"); [by rewrite -app_assoc|lia| | | |].
    + apply (sorted_insert cmp v); [done|done|by apply (key_refl cmp)].
    + etrans; [|exact Hr]. apply rounds_mono. rewrite !length_app /=. lia.
    + unfold rb. by rewrite (counted_succ _ _ _ (a, v)).
    + iIntros (out Hm) "D S". simpl. replace (n + Z.of_nat (S _))%Z with (n + 1 + Z.of_nat (length (fresh_in (ws ++ (a, v) :: zs) rest)))%Z by lia.
      iApply ("HQ" with "[] D S"). iPureIntro. by eapply merged_insert.
Qed.

Lemma wp_merge_uniq junk fuel dst src dd ds xs ys (Q : Z -> hProp) : compare_of dd = Some cmp -> sorted cmp xs ->
  length ys < fuel -> rounds (length xs + length ys) <= fuel -> (Z.of_nat (length ys) < 2 ^ 64)%Z ->
  rb dst dd xs -∗ rb src ds ys -∗
  (∀ ws, ⟨merged xs (fresh_in xs ys) ws⟩ -∗ rb dst dd ws -∗ rb src ds ys -∗
     Q (Z.of_nat (length (fresh_in xs ys)))) -∗
  wp (rbt_merge_uniq fuel junk dst src) Q.
Proof.
  iIntros (Hc Hs Hl Hf Hb) "D S HQ". assert (rounds (length ys) <= fuel) as Hy by (etrans; [apply rounds_mono|exact Hf]; lia).
  unfold rbt_merge_uniq. wp_step. iApply (rb_first with "S"); [done|]. iIntros "S".
  wp_step. iApply (rb_is_empty with "S"); [done|]. iIntros "S". iDestruct (rb_ne with "D S") as %Hne.
  case_decide as He.
  - destruct He as [->%bool_decide_eq_true| ->]; [|done]. wp_step. iApply ("HQ" with "[] D S").
    iPureIntro. split; [done|]. by rewrite app_nil_r.
  - iApply (wp_merge_uniq_loop junk fuel dst src dd ds ys Hc Hy ys fuel 0 xs [] with "D S"); [done..|].
    iIntros (ws Hm) "D S". pose proof (fresh_in_length xs ys). rewrite Z.add_0_l u64_small; [|lia].
    by iApply ("HQ" with "[] D S").
Qed.


(** ** The merge that moves the nodes *)

(** The values of [ys] that [fresh_in] leaves out. *)
Fixpoint known_in xs ys : list (nat * V) :=
  match ys with
  | [] => []
  | y :: ys => if decide (absent y.2 xs) then known_in (xs ++ [y]) ys else y :: known_in xs ys
  end.

Lemma known_in_values xs ws ys : xs.*2 ≡ₚ ws.*2 -> known_in xs ys = known_in ws ys.
Proof.
  revert xs ws. induction ys as [|y ys IH]; intros xs ws Hp; simpl; [done|].
  rewrite (decide_ext (absent y.2 xs) (absent y.2 ws)); [|split; apply absent_values; done].
  rewrite (IH xs ws Hp) (IH (xs ++ [y]) (ws ++ [y])); [done|]. by rewrite !fmap_app Hp.
Qed.

Lemma fresh_known xs ys : ys ≡ₚ fresh_in xs ys ++ known_in xs ys.
Proof.
  revert xs. induction ys as [|y ys IH]; intros xs; simpl; [done|]. case_decide; simpl.
  - f_equiv. apply IH.
  - rewrite -Permutation_middle. f_equiv. apply IH.
Qed.

(** A node is put at the place that a search in a tree with nodes has found. *)
Lemma wp_move_in fuel tr d xs t v n a (Q : () -> hProp) : sorted cmp xs -> rounds (length xs) <= fuel ->
  rb_shape (with_count d (length xs)) xs t -> (descend cmp v [] t).2 = Leaf -> xs <> [] -> value n = Some v ->
  rbt_with tr (with_count d (length xs)) t -∗ node_at a n -∗
  (∀ ys zs, ⟨xs = ys ++ zs /\ sorted cmp (ys ++ (a, v) :: zs)⟩ -∗ rb tr d (ys ++ (a, v) :: zs) -∗ Q ()) -∗
  wp (nl ← rdt nil tr; wrn (set_right nl) a;; wrn (set_left nl) a;; wrn (set_parent nl) a;;
      rbt_tree_add_child tr (bound_of cmp v (descend cmp v [] t).1) a;; rbt_balance_tree fuel tr a;;
      n ← rdt n_nodes tr; wrt (set_n_nodes (u64 (n + 1))) tr) Q.
Proof.
  iIntros (Hs Hf Hsh HL Hne Hv) "(%p & D & N & Z) A HQ". pose proof Hsh as (Hxs & _).
  destruct (descend cmp v [] t) as [k t'] eqn:E. simpl in HL |- *. subst t'.
  destruct (descend_list cmp v t xs k Leaf Hxs Hs E) as (Hp & Hl & Hsp & Hk & _).
  rewrite -{1}Hp -zip_plug. do 8 wp_step. destruct n as [c l r q w]. simpl in Hv. subst w. simpl.
  iApply (wp_attach fuel tr _ xs Hf t k with "D N Z A"); [done|done|..].
  { destruct k as [|f k]; [|by destruct f]. by rewrite Hl in Hne. }
  { destruct k as [|f k]; [done|]. apply Forall_cons in Hk as [Hk _]. by destruct f. }
  iIntros (t' p' Ht') "D N Z". do 3 wp_step. iApply ("HQ" $! (before k) (after k) with "[] [D N Z]").
  - iPureIntro. split; [done|]. apply (sorted_insert cmp v); [by rewrite -Hl|done|by apply (key_refl cmp)].
  - unfold rb. rewrite -(counted_succ _ _ _ (a, v)) -[before k ++ after k]Hl.
    iApply (rbt_counted tr _ t k _ a v t' p' Hsh Hp Ht' with "D N Z").
Qed.

(** What the merge makes of the list [xs]: the nodes [ns] are put in. *)
Definition joined (xs ns ws : list (nat * V)) : Prop := sorted cmp ws /\ ws ≡ₚ xs ++ ns.

Lemma moved_middle us zs ns (x : nat * V) : (us ++ x :: zs) ++ ns ≡ₚ (us ++ zs) ++ x :: ns.
Proof. by rewrite -!Permutation_middle. Qed.

Lemma rb_move_in fuel dst src dd ds ys0 rest s v xs t (Q : () -> hProp) : sorted cmp xs ->
  rounds (length (ys0 ++ (s, v) :: rest)) <= fuel -> rounds (length xs) <= fuel ->
  rb_shape (with_count dd (length xs)) xs t -> (descend cmp v [] t).2 = Leaf -> xs <> [] ->
  rb src ds (ys0 ++ (s, v) :: rest) -∗ rbt_with dst (with_count dd (length xs)) t -∗
  (∀ us zs, ⟨xs = us ++ zs /\ sorted cmp (us ++ (s, v) :: zs)⟩ -∗ rb dst dd (us ++ (s, v) :: zs) -∗
     rb src ds (ys0 ++ rest) -∗ Q ()) -∗
  wp (rbt_remove_node_and_rebalance fuel src s;;
      nl ← rdt nil dst; wrn (set_right nl) s;; wrn (set_left nl) s;; wrn (set_parent nl) s;;
      rbt_tree_add_child dst (bound_of cmp v (descend cmp v [] t).1) s;; rbt_balance_tree fuel dst s;;
      n ← rdt n_nodes dst; wrt (set_n_nodes (u64 (n + 1))) dst) Q.
Proof.
  iIntros (Hs Hy Hx Hsh HL Hne) "S D HQ". wp_step. iApply (wp_rbt_remove with "S"); [done|].
  iIntros (n Hn) "A S". iApply (wp_move_in with "D A"); [done..|]. iIntros (us zs Hu) "D".
  iApply ("HQ" with "[] D [S]"); [done|]. unfold rb. by rewrite uncounted_pred.
Qed.

Lemma wp_merge_destructive_loop fuel dst src dd ds : compare_of dd = Some cmp ->
  forall rest fuel1 xs ys0 (Q : () -> hProp), length rest < fuel1 -> sorted cmp xs -> xs <> [] ->
  rounds (length xs + length rest) <= fuel -> rounds (length ys0 + length rest) <= fuel ->
  rb dst dd xs -∗ rb src ds (ys0 ++ rest) -∗
  (∀ ws, ⟨joined xs (fresh_in xs rest) ws⟩ -∗ rb dst dd ws -∗ rb src ds (ys0 ++ known_in xs rest) -∗ Q ()) -∗
  wp (merge_destructive_loop fuel1 fuel dst src (fst_of (head rest))) Q.
Proof.
  intros Hc. induction rest as [|[s v] rest IH]; intros [|fuel1] xs ys0 Q Hf Hs Hne Hr Hy; simpl in Hf; try lia;
    iIntros "D S HQ"; simpl.
  { wp_step. iApply ("HQ" with "[] D S"). iPureIntro. split; [done|]. by rewrite app_nil_r. }
  assert (rounds (length xs) <= fuel) as Hx by (etrans; [apply rounds_mono|exact Hr]; lia).
  assert (rounds (length (ys0 ++ (s, v) :: rest)) <= fuel) as Hl by by rewrite length_app.
  wp_step. iApply (rb_next with "S"); [done|done|]. iIntros "S".
  wp_step. iApply (rb_value with "S"); [done|]. iIntros "S". wp_step.
  iApply (wp_search_absent cmp v fuel dst _ xs with "D"); [done..|].
  iIntros (t z b [Hsh Hz]) "D". destruct Hz as [(-> & a & w & Hin & Hv & _)|(Hz & Habs & HL & ->)]; simpl.
  - assert (~ absent v xs) as Hna by by eapply not_absent.
    rewrite !(decide_False _ _ Hna). do 2 wp_step.
    assert (forall r, ys0 ++ (s, v) :: r = (ys0 ++ [(s, v)]) ++ r) as Ea by (intros r; by rewrite -app_assoc).
    rewrite (Ea rest) (Ea (known_in xs rest)).
    iApply (IH _ xs with "[D] S HQ"); [lia|done|done| | |iExists t; by iFrame].
    + etrans; [|exact Hr]. apply rounds_mono. simpl. lia.
    + etrans; [|exact Hy]. apply rounds_mono. rewrite length_app. simpl. lia.
  - rewrite !(decide_True _ _ Habs) (decide_True _ _ Hz). wp_step.
    iApply (rb_move_in with "S D"); [done..|]. iIntros (us zs [-> Hsu]) "D S".
    rewrite (fresh_in_values _ _ _ (values_insert us zs s s v)) (known_in_values _ _ _ (values_insert us zs s s v)).
    iApply (IH _ (us ++ (s, v) :: zs) ys0 with "D S"); [lia|done|by destruct us| | |].
    + etrans; [|exact Hr]. apply rounds_mono. rewrite !length_app /=. lia.
    + etrans; [|exact Hy]. apply rounds_mono. simpl. lia.
    + iIntros (out [Ho Hp]) "D S". iApply ("HQ" with "[] D S"). iPureIntro. split; [done|].
      by rewrite Hp moved_middle.
Qed.

Lemma wp_merge_destructive fuel dst src dd ds xs ys (Q : Z -> hProp) : compare_of dd = Some cmp -> sorted cmp xs ->
  xs <> [] \/ ys = [] -> length ys < fuel -> rounds (length xs + length ys) <= fuel ->
  (Z.of_nat (length xs + length ys) < 2 ^ 64)%Z ->
  rb dst dd xs -∗ rb src ds ys -∗
  (∀ ws, ⟨joined xs (fresh_in xs ys) ws⟩ -∗ rb dst dd ws -∗ rb src ds (known_in xs ys) -∗
     Q (Z.of_nat (length (fresh_in xs ys)))) -∗
  wp (rbt_merge_uniq_destructive fuel dst src) Q.
Proof.
  iIntros (Hc Hs Hne Hl Hf Hb) "D S HQ".
  assert (rounds (length ys) <= fuel) as Hy by (etrans; [apply rounds_mono|exact Hf]; lia).
  unfold rbt_merge_uniq_destructive. wp_step. iApply (rb_size with "D"). iIntros "D".
  wp_step. iApply (rb_is_empty with "S"); [lia|]. iIntros "S". iDestruct (rb_ne with "D S") as %Hds.
  case_decide as He.
  - destruct He as [->%bool_decide_eq_true| ->]; [|done]. wp_step. iApply ("HQ" with "[] D S").
    iPureIntro. split; [done|]. by rewrite app_nil_r.
  - assert (xs <> []) as Hnx by (destruct Hne as [|E0]; [done|subst ys; by destruct He; left]).
    wp_step. iApply (rb_first with "S"); [done|]. iIntros "S". wp_step.
    iApply (wp_merge_destructive_loop fuel dst src dd ds Hc ys fuel xs [] with "D S"); [done..|].
    iIntros (ws [Hw Hp]) "D S". wp_step. iApply (rb_size with "D"). iIntros "D". wp_step.
    pose proof (fresh_in_length xs ys). pose proof (Permutation_length Hp) as Hn. rewrite length_app in Hn.
    rewrite !u64_small; [|lia..]. rewrite Hn. replace (_ - _)%Z with (Z.of_nat (length (fresh_in xs ys))) by lia.
    by iApply ("HQ" with "[] D S").
Qed.

(** C17: Merging into another tree: afterwards the destination is a balanced
    red-black tree of its own values and of those values of the source that have
    no equal in it or before them in the source, and the number of these is
    returned.  The copying merge takes any two trees and leaves the source alone.
    The other one moves the nodes themselves, without a copy, and leaves the
    other values in the source; it needs a destination that is not empty, unless
    the source is empty too: nodes that are moved into an empty tree crash it
    ([RbExamples.merge_destructive_into_empty]). *)
Theorem rbt_merges fuel junk dst src dd ds xs ys : compare_of dd = Some cmp -> sorted cmp xs ->
  length ys < fuel -> rounds (length xs + length ys) <= fuel -> (Z.of_nat (length xs + length ys) < 2 ^ 64)%Z ->
  triple (rb dst dd xs ∗ rb src ds ys)%I (rbt_merge_uniq fuel junk dst src)
    (fun n => ∃ ws, ⟨merged xs (fresh_in xs ys) ws /\ n = Z.of_nat (length (fresh_in xs ys))⟩ ∗
       rb dst dd ws ∗ rb src ds ys)%I /\
  (xs <> [] \/ ys = [] ->
   triple (rb dst dd xs ∗ rb src ds ys)%I (rbt_merge_uniq_destructive fuel dst src)
    (fun n => ∃ ws, ⟨joined xs (fresh_in xs ys) ws /\ n = Z.of_nat (length (fresh_in xs ys))⟩ ∗
       rb dst dd ws ∗ rb src ds (known_in xs ys))%I).
Proof.
  intros Hc Hs Hl Hf Hb. unfold triple. split; [|intros Hne]; iIntros "(D & S)".
  - iApply (wp_merge_uniq with "D S"); [done..|lia|]. iIntros (ws Hw) "D S". iExists ws. by iFrame.
  - iApply (wp_merge_destructive with "D S"); [done..|]. iIntros (ws Hw) "D S". iExists ws. by iFrame.
Qed.

End merge.

Lemma rbt_merges_witness : exists h,
  holds (rb 0 (example_tree 0) (example_nodes 0 7) ∗ rb 5 (example_tree 5) (example_nodes 5 9))%I h /\
  triple (rb 0 (example_tree 0) (example_nodes 0 7) ∗ rb 5 (example_tree 5) (example_nodes 5 9))%I
    (rbt_merge_uniq (AL := fresh_allocator) 6 (mkNode IB_RBT_RED 0 0 0 None) 0 5)
    (fun n => ∃ ws, ⟨merged Z.sub (example_nodes 0 7) [(9, 9%Z)] ws /\ n = 1%Z⟩ ∗
       rb 0 (example_tree 0) ws ∗ rb 5 (example_tree 5) (example_nodes 5 9))%I /\
  triple (rb 0 (example_tree 0) (example_nodes 0 7) ∗ rb 5 (example_tree 5) (example_nodes 5 9))%I
    (rbt_merge_uniq_destructive 6 0 5)
    (fun n => ∃ ws, ⟨joined Z.sub (example_nodes 0 7) [(9, 9%Z)] ws /\ n = 1%Z⟩ ∗
       rb 0 (example_tree 0) ws ∗ rb 5 (example_tree 5) [(8, 5%Z)])%I.
Proof.
  destruct (rbt_merges (AL := fresh_allocator) Z.sub 6 (mkNode IB_RBT_RED 0 0 0 None) 0 5 (example_tree 0) (example_tree 5)
    (example_nodes 0 7) (example_nodes 5 9) eq_refl (example_sorted 0 7 eq_refl) ltac:(simpl; lia) ltac:(vm_compute; lia)
    eq_refl) as [Hcopy Hmove].
  exists (list_to_map (example_cells 0 7 ++ example_cells 5 9)). split_and!.
  - eapply entails_holds; [|apply pts_list; simpl; repeat constructor; set_solver by lia].
    rewrite big_sepL_app. apply bi.sep_mono; apply example_rb.
  - exact Hcopy.
  - apply Hmove. left. discriminate.
Defined.

End RbMerge.
