(* ===== verification/RbExamples.v ===== *)
(** * Red-black trees: runs

    Runs of the operations on values that are compared as numbers, from an
    empty memory.  Two of them show what the operations do outside of the
    conditions of the theorems: a value that is already in the tree, and a merge
    that moves nodes into an empty tree. *)

From S2P Require Import Prelude SepHeap RbTree.

Module RbExamples.
Import RbTree.

(** Addresses are handed out in order. *)
Definition next_addr (X : gset nat) : nat := S (max_list (elements X)).

Lemma next_addr_fresh X : next_addr X ∉ X.
Proof.
  intros H%elem_of_elements. unfold next_addr in H. pose proof (max_list_elem_of_le _ _ H). lia.
Qed.

#[local] Instance bump : Allocator := {| malloc_addr := next_addr; malloc_addr_fresh := next_addr_fresh |}.

Definition junk : ib_rbt_node_t Z := mkNode IB_RBT_RED 0 0 0 None.
Definition tree_of (vs : list Z) : prog (C := obj Z ()) nat :=
  tr ← rbt_create 8%Z (Some Z.sub);
  foldr (fun v m => rbt_insert 50 junk tr v v;; m) (mret ()) vs;;
  mret tr.
Definition run {A} (m : prog (C := obj Z ()) A) : option A := fst <$> m ∅.

(** The values from left to right, by the functions of iteration. *)
Fixpoint walk (fuel tr : nat) (n : option nat) : prog (C := obj Z ()) (list Z) :=
  match fuel, n with
  | S fuel, Some a => v ← node_value a; next ← rbt_next 50 tr (Some a); vs ← walk fuel tr next; mret (v :: vs)
  | _, _ => mret []
  end.
Definition values (tr : nat) : prog (C := obj Z ()) (list Z) := n ← rbt_first 50 tr; walk 50 tr n.

Example values_sorted : run (tr ← tree_of [5; 3; 8; 1; 4; 7; 9; 2; 6]%Z; b ← rbt_validate 50 tr; vs ← values tr; mret (b, vs)) =
  Some (true, [1; 2; 3; 4; 5; 6; 7; 8; 9]%Z).
Proof. vm_compute. reflexivity. Qed.

Example values_deleted : run (tr ← tree_of [5; 3; 8; 1; 4; 7; 9; 2; 6]%Z; rbt_delete 50 tr 5%Z;; rbt_delete 50 tr 1%Z;;
    b ← rbt_delete 50 tr 5%Z; ok ← rbt_validate 50 tr; vs ← values tr; mret (b, ok, vs)) =
  Some (false, true, [2; 3; 4; 6; 7; 8; 9]%Z).
Proof. vm_compute. reflexivity. Qed.

(** A value that is in the tree is only refused if the node with it is the
    last one on the way down. *)
Example duplicate_refused : run (tr ← tree_of [5]%Z; rbt_insert 50 junk tr 5%Z 5%Z) = None.
Proof. vm_compute. reflexivity. Qed.

Lemma duplicate_accepted : run (tr ← tree_of [5; 3; 8]%Z; rbt_insert 50 junk tr 5%Z 5%Z;;
    ok ← rbt_validate 50 tr; vs ← values tr; mret (ok, vs)) = Some (false, [3; 5; 5; 8]%Z).
Proof. vm_compute. reflexivity. Qed.

(** The merge that moves the nodes needs a destination that is not empty: in
    an empty one the search gives no node to put the first one under, and
    [rbt_tree_add_child] reads through it.  The copying merge goes on from the
    fake root. *)
Lemma merge_destructive_into_empty :
  run (src ← tree_of [5; 3]%Z; dst ← tree_of []; rbt_merge_uniq_destructive 50 dst src) = None.
Proof. vm_compute. reflexivity. Qed.

Example merge_uniq_into_empty :
  run (src ← tree_of [5; 3]%Z; dst ← tree_of []; n ← rbt_merge_uniq 50 junk dst src; vs ← values dst; mret (n, vs)) =
  Some (2%Z, [3; 5]%Z).
Proof. vm_compute. reflexivity. Qed.

Example merge_destructive_runs :
  run (src ← tree_of [5; 3; 9]%Z; dst ← tree_of [3; 4]%Z; n ← rbt_merge_uniq_destructive 50 dst src;
       xs ← values dst; ys ← values src; mret (n, xs, ys)) = Some (2%Z, [3; 4; 5; 9]%Z, [3]%Z).
Proof. vm_compute. reflexivity. Qed.

End RbExamples.
